(* ===== verification/_CoqProject ===== *)
-Q . S2P
Prelude.v
Bit4.v
Words.v
Vec4.v
Vec4Move.v
Vec4Arith.v
Vec4Array.v
Vec2.v
VecRep.v
Strength.v
Net.v
Ring.v
Sched.v
Opcodes.v
OpSelect.v
ThreadLife.v
ThreadSteps.v
Symbols.v
Delay.v
Modpath.v
Event.v
Resolv.v
Logic.v
Switch.v
Signal.v
Udp.v
Verinum.v
NetExpr.v
ConstFold.v
EvalTree.v
