(* ===== verification/Prelude.v ===== *)
(** * A verification development for the EpicSim simulation engine

    EpicSim is a Verilog simulator.  The compiler under [src/ivl/] turns a design
    into the input language of the engine under [src/vvp/]; the engine executes
    it.  This development models the engine: its data (four-valued bits and
    vectors, strengths, two-valued numbers), its netlist and the functors on it,
    its event queue, its threads with the instructions they execute, and the
    symbol tables of its loader.  Of the compiler it models the constants of a design
    and the evaluation of constant expressions.

    ** How the parts interact

    A design is a graph of nets ([class vvp_net_t]).  A net has four input ports
    and a functor; the functor receives a value on a port ([recv_vec4]), computes
    and sends the result to every port linked to the output of its net
    ([send_vec4], [vvp_send_vec4]).  Functors that delay, and assignments that
    are not blocking, schedule events ([schedule.cc]); the main loop runs the
    events of a time step region by region.  Threads ([vthread.cc]) are events
    too: a thread that is scheduled executes instructions until it has to wait.
    They compute on a stack of vectors, fork and join other threads, and wait on
    the events that the edge functors trigger.

    Before the engine runs, the compiler elaborates the expressions of the design
    into trees ([class NetExpr]) and replaces what it can compute by constants
    ([eval_expr], [class verinum]).  What it computes has to be what the instructions
    of the engine would have: the reference semantics of an expression ([denote]) is
    written with the same functions on bits that specify the instructions.

    ** The files

    - [Prelude] (this file): machine words, arrays of words, the control flow of
      C++ with [assert] ([assert_], [for_], [while_], [loop_]), the predicate
      [returns] with one rule for each construct, and the hint databases
      [word_db] and [word_bits].
    - [Bit4], [Vec4], [Vec4Move], [Vec4Arith], [Vec4Array]: [vvp_bit4_t] and
      [vvp_vector4_t] of [vvp_net.h] and [vvp_net.cc].  A vector is its size and
      its words of abits and bbits, as in the source; [bits v] is the list of bits
      it stands for.  The theorems say that the word-level code computes the
      Verilog operation on the list of bits.
    - [Words], [Vec2]: the word arithmetic and [vvp_vector2_t], related to
      arithmetic on numbers.
    - [VecRep]: the interface of the vectors to their clients, [rep4 v l], with a
      lemma for every operation.  Functors and instructions use nothing else.
    - [Strength]: [vvp_scalar_t] and [vvp_vector8_t] of [vvp_net.cc].
    - [Net]: the netlist, [link], [unlink] and the sending loops on a store of
      nets linked by pointers.
    - [Ring], [Sched]: [schedule.cc].  [Sched] keeps queues as lists and has the
      callbacks of the main loop as a class of hooks ([SimHooks]), with what the
      loop asks of them as a second class ([SchedClient]); [Ring] shows that the
      circular linked lists of the source implement these queues.
    - [Opcodes], [OpSelect]: the instructions [of_*] of [vthread.cc] on the stack
      of vectors, the flags and the index registers.
    - [ThreadLife], [ThreadSteps]: [%fork], [%join], [%end], [%disable] and the
      other instructions of the life cycle, on a store of threads linked by
      pointers; [ThreadSteps] makes them a transition system.
    - [Symbols]: [symbols.cc], the B-tree of the loader, against finite maps.
    - [Delay], [Modpath]: [delay.cc].  The delay functor [vvp_fun_delay] on its
      four kinds of values, and the functor of module paths with the paths into
      it.  The functors return what they send and what they schedule.
    - [Event]: [event.cc].  The edge, any-edge and or functors, static and
      automatic, the threads that wait on them (on the store of [ThreadLife]) and
      the list of event controls with its pointer to the last link.
    - [Resolv]: [resolv.cc].  The tree in which a net with several drivers keeps
      its inputs and branches, for the strengths of [Strength] and for the wired
      logic on [VecRep].
    - [Logic], [Switch]: [logic.cc], [reduce.cc], [bufif.cc], [npmos.cc].  The gates
      with the flag that keeps them from being scheduled twice, the reductions,
      the tristate buffers and the switches.
    - [Signal] ([vvp_net_sig.cc], [vvp_net_sig.h], the filter of [vvp_net.cc] and
      [vvp_net.h], the instructions of [vthread.cc]): nets and variables with
      their filter, continuous assignment, and force and release.
    - [Udp] ([udp.cc], [udp.h], [compile_udp_def] of [compile.cc]): the tables of
      user defined primitives, compiled to masks, and the functor of an instance.
    - [Verinum] ([ivl/verinum.h], [ivl/verinum.cc]): the constants of the compiler,
      their arithmetic in the native words and bit by bit, their widths and texts.
    - [NetExpr] ([ivl/netlist.h], [ivl/net_expr.cc], [ivl/netlist.cc]): the expression
      trees with their widths, signs and types, the conditions elaboration
      establishes ([well_formed]) and the values ([denote]).
    - [ConstFold], [EvalTree] ([ivl/eval_tree.cc], [ivl/netmisc.cc]): the operators on
      constants, one [eval_arguments_] each, and [eval_tree] on whole expressions.

    ** What the theorems show

    For the data: the functional behaviour of each operation on every branch,
    with the overflow of machine words, round trips of the printed forms and of
    the transfers to arrays, and the identities the optimised code has with the
    plain definition.  For the netlist and the symbol table: the linked
    structure implements its abstract counterpart.  For the scheduler: an event
    runs at its time and in its region, time only moves forward, the loop ends
    if the events stop scheduling.  For the threads: the forest of parents and
    children is an invariant of every reachable state, no [assert] of these
    instructions fails, the instructions terminate, and a parent that waits is
    woken.  For the functors: the list of pending changes in a delay functor
    implements an inertial delay, a change arrives at its time and a shorter pulse
    never does; a thread that waits for an edge is scheduled by the first input
    that makes the edge; a gate that is not scheduled has sent the function of its
    present inputs (for AND and OR of two inputs); the incremental evaluation of the resolution tree sends
    what all inputs resolve to; the nets behind a signal have seen the value its
    readers get, after driving, assigning, forcing and releasing, as long as no part
    is released that is both assigned and forced; an instance of a user defined
    primitive follows the rows of its table.

    For the compiler: the operators on constants compute the arithmetic of the
    numbers they stand for; folding keeps the width, the sign and the value of every
    well-formed expression, whatever its leaves are at run time, and turns an
    expression over constants into a constant.

    Where the code does not do what it means to do, the theorem states what it
    does, its hypotheses exclude the case, or an [Example] computes it.

    ** Fuel and bounds

    Structural recursion is used where the source walks a list or counts.  Other
    loops take fuel and [None] is both a failed [assert] and the end of the
    fuel, so each of them has a theorem that it returns.  The walk of [unlink]
    and of the send loops needs the length of the fan-out list; [div_mod] and
    [pow] need the width of their operands; the recursion over the B-tree needs
    its height and over a node at most its width; [do_disable] needs the number
    of threads, since every nested call works on a thread it has taken from its
    parent; the lists of threads their length; the main loop needs the number of
    events and cells ([sim_loop_runs_all]); [pow] of the compiler's constants needs
    the number of bits of the exponent ([verinum_powers]).  A word is a [Z] with its wrap
    written out, 64 bits wide as [unsigned long] and [vvp_time64_t] are; sizes
    and positions of vectors are [nat], and are taken not to reach 2^32.

    ** What is not modelled, and why

    [double] and what depends on it; terminal, file and VPI interfaces; memory
    pools, whose only effect is where an object lies; the parser of the engine,
    which is generated.  Arrays, class objects, the part, concatenation and
    arithmetic functors and the instructions on nets are of the same kind as what is
    modelled and have been left for lack of room.  Of the compiler under [src/ivl/]
    only constants and their folding are modelled: elaboration works on an object
    graph of several hundred classes.  The code generator, the plug-ins and the
    waveform writers are C. *)

From Stdlib Require Import ZArith Lia Bool ZifyNat.
From stdpp Require Import base numbers list list_numbers.

Open Scope Z_scope.

(** ** Machine words

    An [unsigned long] is a [Z] between 0 and 2^64; every operation that can
    leave the range wraps.  A shift by 64 or more is undefined in C++; the
    definitions give it the x86-64 behaviour (the count is taken modulo 64).
    The theorems on two-valued vectors rely on it: the masks of the last word of a
    vector whose width is a multiple of 64 are shifted by 64 ([tail_mask] of
    [Vec2]). *)

#[global] Arguments Nat.div : simpl never.
#[global] Arguments Nat.modulo : simpl never.
#[global] Arguments Nat.leb : simpl never.
#[global] Arguments Nat.ltb : simpl never.

Declare Scope word_scope.
Delimit Scope word_scope with word.

Abbreviation BITS_PER_WORD := 64%nat.

Definition w_wrap (x : Z) : Z := Z.land x (Z.ones 64).

Definition w_max : Z := Z.ones 64.

Definition w_not (x : Z) : Z := w_wrap (Z.lnot x).

Definition w_add (x y : Z) : Z := w_wrap (x + y).

Definition w_sub (x y : Z) : Z := w_wrap (x - y).

Definition w_mul (x y : Z) : Z := w_wrap (x * y).

Definition w_shl (x : Z) (n : nat) : Z :=
  w_wrap (Z.shiftl x (Z.of_nat (n `mod` BITS_PER_WORD)%nat)).

Definition w_shr (x : Z) (n : nat) : Z :=
  Z.shiftr x (Z.of_nat (n `mod` BITS_PER_WORD)%nat).

Definition word_ok (x : Z) : Prop := 0 <= x < 2 ^ 64.

(** Bit [i] of a word, with a [nat] index. *)
Definition tb (x : Z) (i : nat) : bool := Z.testbit x (Z.of_nat i).

(** The mask [(1UL << n) - 1UL]. *)
Definition w_mask (n : nat) : Z := w_sub (w_shl 1 n) 1.

(** The mask [~(-1UL << n)]. *)
Definition w_nmask (n : nat) : Z := w_not (w_shl w_max n).

(** ** Arrays of words

    An array is a list; reading outside it is undefined in C++ and gives 0
    here, writing outside it is undefined and does nothing here. *)

Definition wd (ws : list Z) (i : nat) : Z := nth i ws 0.

(** Bit [i] of an array of words, little end first. *)
Definition wsbit (ws : list Z) (i : nat) : bool :=
  tb (wd ws (i `div` BITS_PER_WORD)%nat) (i `mod` BITS_PER_WORD)%nat.

Definition words_ok (ws : list Z) : Prop := Forall word_ok ws.

(** The number of words of [n] bits, [(n + BITS_PER_WORD - 1) / BITS_PER_WORD]. *)
Definition nwords (n : nat) : nat := ((n + BITS_PER_WORD - 1) `div` BITS_PER_WORD)%nat.

(** Infix notations for words, used in the definitions that copy the bit
    twiddling of the source. *)
Notation "x .& y" := (Z.land x y) (at level 40, left associativity) : word_scope.
Notation "x .| y" := (Z.lor x y) (at level 50, left associativity) : word_scope.
Notation "x .^ y" := (Z.lxor x y) (at level 45, left associativity) : word_scope.
Notation "x << n" := (w_shl x n) (at level 36, left associativity) : word_scope.
Notation "x >> n" := (w_shr x n) (at level 36, left associativity) : word_scope.
Notation "~~ x" := (w_not x) (at level 34, right associativity) : word_scope.

(** ** Control flow

    A C++ statement that may fail an [assert] is a computation in [option]:
    [None] is the abort.  [for_] and [while_] are the loops; [while_] takes
    fuel, and every use is accompanied by a proof that the fuel suffices. *)

Definition assert_ (b : bool) : option unit := if b then Some tt else None.

(** [for (idx = i; idx < i + n; idx += 1) body] *)
Fixpoint for_ {S : Type} (i n : nat) (body : nat -> S -> option S) (s : S) : option S :=
  match n with
  | O => Some s
  | Datatypes.S n' => s' ← body i s; for_ (Datatypes.S i) n' body s'
  end.

(** [while (cond) body]; [None] also when the fuel runs out. *)
Fixpoint while_ {S : Type} (fuel : nat) (cond : S -> bool) (body : S -> option S)
    (s : S) : option S :=
  if cond s then
    match fuel with
    | O => None
    | Datatypes.S fuel' => s' ← body s; while_ fuel' cond body s'
    end
  else Some s.

(** The same loops when the body cannot fail: upwards from [i], and downwards
    [for (idx = n; idx > 0; idx -= 1)]. *)
Fixpoint loop_ {S : Type} (i n : nat) (body : nat -> S -> S) (s : S) : S :=
  match n with
  | O => s
  | Datatypes.S n' => loop_ (Datatypes.S i) n' body (body i s)
  end.

Fixpoint loop_down {S : Type} (n : nat) (body : nat -> S -> S) (s : S) : S :=
  match n with
  | O => s
  | Datatypes.S n' => loop_down n' body (body n s)
  end.

(** The computation does not abort and its result satisfies [P]. *)
Definition returns {A : Type} (m : option A) (P : A -> Prop) : Prop :=
  exists r, m = Some r /\ P r.

(** ** Tactics *)

(** Linear arithmetic with [/] and [mod] by constants. *)
Ltac dlia := zify; Z.to_euclidean_division_equations; lia.

(** Case analysis on the comparisons a bit-level goal mentions. *)
Ltac split_ifs :=
  repeat match goal with
  | |- context [Nat.ltb ?a ?b] => destruct (Nat.ltb_spec a b)
  | |- context [Nat.leb ?a ?b] => destruct (Nat.leb_spec a b)
  | |- context [Nat.eqb ?a ?b] => destruct (Nat.eqb_spec a b)
  end.

(** ** Words: lemmas *)

Lemma and_iff_cong (A B C D : Prop) : (A <-> C) -> (B <-> D) -> (A /\ B <-> C /\ D).
Proof. tauto. Qed.

Lemma tb_range (l h j : nat) : ((l <=? j)%nat && (j <? h)%nat = true) <-> (l <= j < h)%nat.
Proof. rewrite andb_true_iff, Nat.leb_le, Nat.ltb_lt. done. Qed.

Lemma andb_guard (g a b : bool) : (g = true -> a = b) -> g && a = g && b.
Proof. destruct g; simpl; auto. Qed.

Lemma w_wrap_mod x : w_wrap x = x mod 2 ^ 64.
Proof. unfold w_wrap. rewrite Z.land_ones by lia. reflexivity. Qed.

Lemma w_wrap_ok x : word_ok (w_wrap x).
Proof. unfold word_ok. rewrite w_wrap_mod. apply Z.mod_pos_bound. lia. Qed.

Lemma w_wrap_id x : word_ok x -> w_wrap x = x.
Proof. intros H. rewrite w_wrap_mod. by apply Z.mod_small. Qed.

Lemma tb_high x i : word_ok x -> (64 <= i)%nat -> tb x i = false.
Proof.
  intros [H1 H2] Hi. unfold tb. destruct (decide (x = 0)) as [->|Hx].
  { apply Z.bits_0. }
  apply Z.bits_above_log2; [lia|].
  assert (Z.log2 x < 64) by (apply Z.log2_lt_pow2; lia). lia.
Qed.

Lemma tb_wrap x i : tb (w_wrap x) i = (i <? 64)%nat && tb x i.
Proof.
  unfold tb, w_wrap. rewrite Z.land_spec, Z.testbit_ones by lia.
  destruct (Nat.ltb_spec i 64).
  - rewrite (proj2 (Z.leb_le _ _)), (proj2 (Z.ltb_lt _ _)) by lia.
    by rewrite andb_true_r.
  - rewrite (proj2 (Z.ltb_ge _ _)) by lia. by rewrite !andb_false_r.
Qed.

Lemma tb_land x y i : tb (Z.land x y) i = tb x i && tb y i.
Proof. apply Z.land_spec. Qed.

Lemma tb_lor x y i : tb (Z.lor x y) i = tb x i || tb y i.
Proof. apply Z.lor_spec. Qed.

Lemma tb_lxor x y i : tb (Z.lxor x y) i = xorb (tb x i) (tb y i).
Proof. apply Z.lxor_spec. Qed.

Lemma tb_0 i : tb 0 i = false.
Proof. apply Z.bits_0. Qed.

Lemma tb_1 i : tb 1 i = (i =? 0)%nat.
Proof.
  unfold tb. destruct i as [|i]; [reflexivity|].
  change 1 with (2 ^ 0). rewrite Z.pow2_bits_eqb by lia. apply Z.eqb_neq. lia.
Qed.

Lemma ltb_of_nat i n : (Z.of_nat i <? Z.of_nat n) = (i <? n)%nat.
Proof.
  destruct (Nat.ltb_spec i n); [apply Z.ltb_lt|apply Z.ltb_ge]; lia.
Qed.

Lemma leb_0_of_nat i : (0 <=? Z.of_nat i) = true.
Proof. apply Z.leb_le. lia. Qed.

Lemma tb_ones n i : tb (Z.ones (Z.of_nat n)) i = (i <? n)%nat.
Proof. unfold tb. by rewrite Z.testbit_ones, leb_0_of_nat, ltb_of_nat by lia. Qed.

Lemma tb_max i : tb w_max i = (i <? 64)%nat.
Proof. apply (tb_ones 64). Qed.

Lemma tb_not x i : tb (w_not x) i = (i <? 64)%nat && negb (tb x i).
Proof.
  unfold w_not. rewrite tb_wrap. unfold tb. by rewrite Z.lnot_spec by lia.
Qed.

Lemma tb_shl x n i :
  (n < 64)%nat -> tb (w_shl x n) i = (i <? 64)%nat && ((n <=? i)%nat && tb x (i - n)).
Proof.
  intros Hn. unfold w_shl. rewrite tb_wrap, Nat.mod_small by lia. f_equal.
  unfold tb. rewrite Z.shiftl_spec by lia.
  destruct (Nat.leb_spec n i); simpl.
  - f_equal. lia.
  - apply Z.testbit_neg_r. lia.
Qed.

Lemma tb_shr x n i : (n < 64)%nat -> tb (w_shr x n) i = tb x (i + n).
Proof.
  intros Hn. unfold w_shr, tb. rewrite Nat.mod_small, Z.shiftr_spec by lia.
  f_equal. lia.
Qed.

Lemma w_mask_ones n : (n < 64)%nat -> w_mask n = Z.ones (Z.of_nat n).
Proof.
  intros Hn. unfold w_mask, w_sub, w_shl.
  rewrite Nat.mod_small, Z.shiftl_1_l, Z.ones_equiv by lia.
  assert (0 < 2 ^ Z.of_nat n < 2 ^ 64).
  { split; [lia|]. apply Z.pow_lt_mono_r; lia. }
  rewrite (w_wrap_id (2 ^ _)) by (unfold word_ok; lia).
  rewrite w_wrap_id by (unfold word_ok; lia). lia.
Qed.

Lemma tb_mask n i : (n < 64)%nat -> tb (w_mask n) i = (i <? n)%nat.
Proof.
  intros Hn. rewrite w_mask_ones by done. apply tb_ones.
Qed.

Lemma tb_nmask n i : (n < 64)%nat -> tb (w_nmask n) i = (i <? n)%nat.
Proof.
  intros Hn. unfold w_nmask. rewrite tb_not, tb_shl, tb_max by done.
  split_ifs; simpl; try reflexivity; lia.
Qed.

Lemma word_ok_nmask n : word_ok (w_nmask n).
Proof. apply w_wrap_ok. Qed.

Lemma w_nmask_mask n : (n < 64)%nat -> w_nmask n = w_mask n.
Proof.
  intros Hn. apply Z.bits_inj'. intros k Hk.
  generalize (tb_mask n (Z.to_nat k) Hn), (tb_nmask n (Z.to_nat k) Hn).
  unfold tb. rewrite Z2Nat.id by done. congruence.
Qed.

Lemma tb_ext x y :
  word_ok x -> word_ok y -> (forall i, (i < 64)%nat -> tb x i = tb y i) -> x = y.
Proof.
  intros Hx Hy H. apply Z.bits_inj'. intros k Hk.
  destruct (decide (Z.to_nat k < 64)%nat) as [Hlt|Hge].
  - specialize (H _ Hlt). unfold tb in H. by rewrite Z2Nat.id in H.
  - pose proof (tb_high x (Z.to_nat k) Hx ltac:(lia)) as H1.
    pose proof (tb_high y (Z.to_nat k) Hy ltac:(lia)) as H2.
    unfold tb in H1, H2. rewrite Z2Nat.id in H1, H2 by done. congruence.
Qed.

Lemma word_ok_bits x : 0 <= x -> (forall i, (64 <= i)%nat -> tb x i = false) -> word_ok x.
Proof.
  intros Hx H. split; [done|]. destruct (decide (x = 0)) as [->|Hne]; [lia|].
  apply Z.log2_lt_pow2; [lia|].
  destruct (Z.lt_ge_cases (Z.log2 x) 64) as [|Hge]; [done|].
  specialize (H (Z.to_nat (Z.log2 x)) ltac:(lia)). unfold tb in H.
  rewrite Z2Nat.id in H by lia. rewrite Z.bit_log2 in H by lia. done.
Qed.

Lemma word_ok_0 : word_ok 0.
Proof. unfold word_ok; lia. Qed.

Lemma word_ok_max : word_ok w_max.
Proof. unfold word_ok, w_max. vm_compute. split; congruence. Qed.

Lemma word_ok_not x : word_ok (w_not x).
Proof. apply w_wrap_ok. Qed.

Lemma word_ok_shl x n : word_ok (w_shl x n).
Proof. apply w_wrap_ok. Qed.

Lemma word_ok_land_l x y : word_ok x -> 0 <= y -> word_ok (Z.land x y).
Proof.
  intros Hx Hy. apply word_ok_bits.
  - apply Z.land_nonneg. destruct Hx. lia.
  - intros i Hi. rewrite tb_land, tb_high by done. done.
Qed.

Lemma word_ok_land x y : word_ok x -> word_ok y -> word_ok (Z.land x y).
Proof. intros Hx Hy. apply word_ok_land_l; [done|]. destruct Hy; lia. Qed.

Lemma word_ok_lor x y : word_ok x -> word_ok y -> word_ok (Z.lor x y).
Proof.
  intros Hx Hy. apply word_ok_bits.
  - apply Z.lor_nonneg. destruct Hx, Hy. lia.
  - intros i Hi. by rewrite tb_lor, !tb_high.
Qed.

Lemma word_ok_shr x n : word_ok x -> word_ok (w_shr x n).
Proof.
  intros [H1 H2]. unfold word_ok, w_shr. rewrite Z.shiftr_div_pow2 by lia.
  assert (0 < 2 ^ Z.of_nat (n `mod` 64)%nat) by (apply Z.pow_pos_nonneg; lia).
  split; [apply Z.div_pos; lia|].
  apply Z.div_lt_upper_bound; [lia|]. nia.
Qed.

Lemma word_ok_mask n : word_ok (w_mask n).
Proof. apply w_wrap_ok. Qed.

Create HintDb word_db.
Create Rewrite HintDb word_bits.
#[export] Hint Resolve word_ok_0 word_ok_max word_ok_not word_ok_shl word_ok_land
  word_ok_lor word_ok_shr word_ok_mask word_ok_nmask w_wrap_ok : word_db.
#[export] Hint Rewrite tb_land tb_lor tb_lxor tb_0 tb_1 tb_max tb_not tb_wrap : word_bits.
#[export] Hint Rewrite tb_shl tb_shr tb_mask tb_nmask using lia : word_bits.

(** ** Arrays: lemmas *)

Lemma wd_insert ws k w i :
  wd (<[k := w]> ws) i = if decide (i = k /\ (k < length ws)%nat) then w else wd ws i.
Proof.
  unfold wd. rewrite !nth_lookup. destruct (decide _) as [[-> Hk]|Hn].
  - by rewrite list_lookup_insert_eq.
  - destruct (decide (i = k)) as [->|]; [|by rewrite list_lookup_insert_ne].
    rewrite list_insert_ge by lia. done.
Qed.

Lemma wd_ok ws i : words_ok ws -> word_ok (wd ws i).
Proof.
  intros H. unfold wd. rewrite nth_lookup. destruct (ws !! i) eqn:E; [|apply word_ok_0].
  by eapply Forall_lookup_1 in E.
Qed.

Lemma words_ok_insert ws k w : words_ok ws -> word_ok w -> words_ok (<[k := w]> ws).
Proof. intros H Hw. by apply Forall_insert. Qed.

Lemma words_ok_replicate n w : word_ok w -> words_ok (replicate n w).
Proof. intros. by apply Forall_replicate. Qed.

#[export] Hint Resolve wd_ok words_ok_insert words_ok_replicate : word_db.

Lemma wd_ge ws i : (length ws <= i)%nat -> wd ws i = 0.
Proof. apply nth_overflow. Qed.

Lemma wd_replicate n w i : wd (replicate n w) i = if (i <? n)%nat then w else 0.
Proof.
  unfold wd. destruct (Nat.ltb_spec i n).
  - by rewrite nth_lookup, lookup_replicate_2.
  - apply nth_overflow. rewrite length_replicate. lia.
Qed.

Lemma wsbit_ge ws i : (64 * length ws <= i)%nat -> wsbit ws i = false.
Proof. intros H. unfold wsbit. rewrite wd_ge; [apply tb_0|]. dlia. Qed.

Lemma wsbit_insert ws k w i :
  wsbit (<[k := w]> ws) i =
    if decide ((i `div` 64)%nat = k /\ (k < length ws)%nat) then tb w (i `mod` 64)%nat
    else wsbit ws i.
Proof. unfold wsbit. rewrite wd_insert. by case_decide. Qed.

Lemma wsbit_cons_low w ws i : (i < 64)%nat -> wsbit (w :: ws) i = tb w i.
Proof.
  intros H. unfold wsbit. by rewrite Nat.div_small, Nat.mod_small by done.
Qed.

Lemma wsbit_cons_high w ws i : (64 <= i)%nat -> wsbit (w :: ws) i = wsbit ws (i - 64).
Proof.
  intros H. unfold wsbit.
  replace (i `div` 64)%nat with (S ((i - 64) `div` 64)) by dlia.
  replace (i `mod` 64)%nat with ((i - 64) `mod` 64)%nat by dlia. done.
Qed.

(** ** Control flow: a small program logic *)

Lemma returns_ret {A} (x : A) (P : A -> Prop) : P x -> returns (Some x) P.
Proof. intros H. by exists x. Qed.

Lemma returns_bind {A B} (m : option A) (k : A -> option B) (Q : A -> Prop) (P : B -> Prop) :
  returns m Q -> (forall x, Q x -> returns (k x) P) -> returns (m ≫= k) P.
Proof. intros (x & -> & HQ) Hk. apply (Hk x HQ). Qed.

Lemma returns_mono {A} (m : option A) (P Q : A -> Prop) :
  returns m P -> (forall x, P x -> Q x) -> returns m Q.
Proof. intros (x & Hx & HP) H. exists x. auto. Qed.

Lemma returns_assert {B} (b : bool) (k : unit -> option B) (P : B -> Prop) :
  b = true -> returns (k tt) P -> returns (assert_ b ≫= k) P.
Proof. by intros ->. Qed.

Lemma returns_eq {A} (m : option A) (P : A -> Prop) x : returns m P -> m = Some x -> P x.
Proof. intros (y & -> & H) [= ->]. done. Qed.

(** The loop rules: an invariant indexed by the loop variable. *)
Lemma loop_inv {S} (I : nat -> S -> Prop) (body : nat -> S -> S) i n s :
  I i s -> (forall k t, (i <= k < i + n)%nat -> I k t -> I (Datatypes.S k) (body k t)) ->
  I (i + n)%nat (loop_ i n body s).
Proof.
  revert i s. induction n as [|n IH]; intros i s HI Hb; cbn [loop_]; [by rewrite Nat.add_0_r|].
  replace (i + Datatypes.S n)%nat with (Datatypes.S i + n)%nat by lia.
  apply IH; [apply Hb; [lia|done]|]. intros k t Hk. apply Hb. lia.
Qed.

Lemma loop_down_inv {S} (I : nat -> S -> Prop) (body : nat -> S -> S) n s :
  I n s -> (forall k t, (k < n)%nat -> I (Datatypes.S k) t -> I k (body (Datatypes.S k) t)) ->
  I 0%nat (loop_down n body s).
Proof.
  revert s. induction n as [|n IH]; intros s HI Hb; cbn [loop_down]; [done|].
  apply IH; [apply Hb; [lia|done]|]. intros k t Hk. apply Hb. lia.
Qed.

(** The loop rule of [for_]: an invariant indexed by the loop variable. *)
Lemma returns_for {S} (I : nat -> S -> Prop) (body : nat -> S -> option S) i n s :
  I i s ->
  (forall k t, (i <= k < i + n)%nat -> I k t -> returns (body k t) (I (Datatypes.S k))) ->
  returns (for_ i n body s) (I (i + n)%nat).
Proof.
  revert i s. induction n as [|n IH]; intros i s Hi Hstep; simpl.
  - apply returns_ret. by rewrite Nat.add_0_r.
  - eapply returns_bind; [apply Hstep; [lia|done]|].
    intros t Ht. rewrite Nat.add_succ_r, <- Nat.add_succ_l.
    apply IH; [done|]. intros k u Hk. apply Hstep. lia.
Qed.

(** The loop rule of [while_]: an invariant and a measure the body decreases. *)
Lemma returns_while {S} (I : S -> Prop) (m : S -> nat) fuel cond body s :
  I s -> (m s <= fuel)%nat ->
  (forall t, I t -> cond t = true -> returns (body t) (fun t' => I t' /\ (m t' < m t)%nat)) ->
  returns (while_ fuel cond body s) (fun t => I t /\ cond t = false).
Proof.
  intros Hs Hm Hstep. revert s Hs Hm.
  induction fuel as [|fuel IH]; intros s Hs Hm; simpl; destruct (cond s) eqn:Hc.
  - destruct (Hstep s Hs Hc) as (t & _ & _ & Hlt). lia.
  - by apply returns_ret.
  - destruct (Hstep s Hs Hc) as (t & -> & Ht & Hlt). simpl. apply IH; [done|lia].
  - by apply returns_ret.
Qed.
