(* ===== verification/Bit4.v ===== *)
(** * The four-valued bit of the simulator ([vvp/vvp_net.h], [vvp/vvp_net.cc])

    [vvp_bit4_t] with the fast operators written, as in the source, on the
    two-bit encoding of the enumeration, and the truth tables they implement. *)

From Stdlib Require Import ZArith Lia Bool String Ascii.
From stdpp Require Import base numbers list.
From S2P Require Import Prelude.

Open Scope Z_scope.

(** ** Definitions *)

Inductive vvp_bit4_t : Set := BIT4_0 | BIT4_1 | BIT4_X | BIT4_Z.

#[export] Instance vvp_bit4_eq_dec : EqDecision vvp_bit4_t.
Proof. solve_decision. Defined.

(** The numeric value of the enumeration constant. *)
Definition bit4_int (a : vvp_bit4_t) : Z :=
  match a with BIT4_0 => 0 | BIT4_1 => 1 | BIT4_X => 3 | BIT4_Z => 2 end.

(** The cast [(vvp_bit4_t)n]; the source only casts values below 4. *)
Definition bit4_cast (n : Z) : vvp_bit4_t :=
  match n with 0 => BIT4_0 | 1 => BIT4_1 | 2 => BIT4_Z | _ => BIT4_X end.

Definition vvp_bit4_to_ascii (a : vvp_bit4_t) : ascii :=
  nth (Z.to_nat (bit4_int a)) (list_ascii_of_string "01zx") zero.

Definition bit4_is_xz (a : vvp_bit4_t) : bool := 2 <=? bit4_int a.

Definition bit4_z2x (a : vvp_bit4_t) : vvp_bit4_t :=
  bit4_cast (Z.lor (bit4_int a) (Z.shiftr (bit4_int a) 1)).

Definition bit4_not (a : vvp_bit4_t) : vvp_bit4_t :=
  bit4_z2x (bit4_cast (Z.lxor (bit4_int a) 1)).

Definition bit4_eqb (a b : vvp_bit4_t) : bool := bit4_int a =? bit4_int b.

Definition bit4_or (a b : vvp_bit4_t) : vvp_bit4_t :=
  if bit4_eqb a BIT4_1 || bit4_eqb b BIT4_1 then BIT4_1
  else bit4_z2x (bit4_cast (Z.lor (bit4_int a) (bit4_int b))).

Definition bit4_and (a b : vvp_bit4_t) : vvp_bit4_t :=
  if bit4_eqb a BIT4_0 || bit4_eqb b BIT4_0 then BIT4_0
  else bit4_z2x (bit4_cast (Z.lor (bit4_int a) (bit4_int b))).

Definition bit4_xor (a b : vvp_bit4_t) : vvp_bit4_t :=
  if bit4_is_xz a then BIT4_X
  else if bit4_is_xz b then BIT4_X
  else if bit4_eqb a BIT4_0 then b
  else if bit4_eqb b BIT4_0 then a
  else BIT4_0.

(** [add_with_carry(a, b, c)]: the sum bit and the new value of [c]. *)
Definition bit4_add_with_carry (a b c : vvp_bit4_t) : vvp_bit4_t * vvp_bit4_t :=
  if bit4_is_xz a || bit4_is_xz b || bit4_is_xz c then (BIT4_X, BIT4_X)
  else
    match bit4_int a + bit4_int b + bit4_int c with
    | 0 => (BIT4_0, c)
    | 1 => (BIT4_1, BIT4_0)
    | 2 => (BIT4_0, BIT4_1)
    | 3 => (BIT4_1, BIT4_1)
    | _ => (BIT4_X, c)
    end.

(** [scalar_to_bit4]: the VPI scalar constants are [vpi0] = 0, [vpi1] = 1,
    [vpiZ] = 2 and [vpiX] = 3; any other value fails the assertion. *)
Definition scalar_to_bit4 (scalar : Z) : option vvp_bit4_t :=
  match scalar with
  | 0 => Some BIT4_0
  | 1 => Some BIT4_1
  | 3 => Some BIT4_X
  | 2 => Some BIT4_Z
  | _ => None
  end.

(** [operator <<] on a stream. *)
Definition bit4_print (bit : vvp_bit4_t) : ascii :=
  match bit with
  | BIT4_0 => "0"%char
  | BIT4_1 => "1"%char
  | BIT4_X => "X"%char
  | BIT4_Z => "Z"%char
  end.

(** Edges are a 16-bit mask indexed by the transition. *)
Definition VVP_EDGE (from to : vvp_bit4_t) : Z :=
  Z.shiftl 1 (Z.lor (Z.shiftl (bit4_int from) 2) (bit4_int to)).

Definition vvp_edge_posedge : Z :=
  Z.lor (Z.lor (Z.lor (Z.lor (VVP_EDGE BIT4_0 BIT4_1) (VVP_EDGE BIT4_0 BIT4_X))
    (VVP_EDGE BIT4_0 BIT4_Z)) (VVP_EDGE BIT4_X BIT4_1)) (VVP_EDGE BIT4_Z BIT4_1).

Definition vvp_edge_negedge : Z :=
  Z.lor (Z.lor (Z.lor (Z.lor (VVP_EDGE BIT4_1 BIT4_0) (VVP_EDGE BIT4_1 BIT4_X))
    (VVP_EDGE BIT4_1 BIT4_Z)) (VVP_EDGE BIT4_X BIT4_0)) (VVP_EDGE BIT4_Z BIT4_0).

Definition edge (from to : vvp_bit4_t) : Z :=
  let mask := VVP_EDGE from to in
  if negb (Z.land mask vvp_edge_posedge =? 0) then 1
  else if negb (Z.land mask vvp_edge_negedge =? 0) then -1
  else 0.

(** [update_driver_counts] on the counters of 0, 1 and X drivers; they are
    [unsigned], and taken not to reach 2^32. *)
Definition update_driver_counts (bit : vvp_bit4_t) (counts : nat * nat * nat) : nat * nat * nat :=
  let '(c0, c1, c2) := counts in
  match bit with
  | BIT4_0 => (S c0, c1, c2)
  | BIT4_1 => (c0, S c1, c2)
  | BIT4_X => (c0, c1, S c2)
  | BIT4_Z => counts
  end.

(** ** Reference semantics *)

(** The value as a boolean when it is known. *)
Definition bit4_known (a : vvp_bit4_t) : option bool :=
  match a with BIT4_0 => Some false | BIT4_1 => Some true | _ => None end.

Definition bit4_of_bool (b : bool) : vvp_bit4_t := if b then BIT4_1 else BIT4_0.

(** The boolean values a bit may stand for: X and Z stand for both. *)
Definition bit4_stands_for (a : vvp_bit4_t) (b : bool) : bool :=
  match bit4_known a with Some b' => Bool.eqb b b' | None => true end.

(** The value that best describes what [p] accepts. *)
Definition bit4_summary (p : bool -> bool) : vvp_bit4_t :=
  match p false, p true with
  | true, false => BIT4_0
  | false, true => BIT4_1
  | _, _ => BIT4_X
  end.

(** The most precise lifting of a boolean operator to four values. *)
Definition bit4_lift2 (f : bool -> bool -> bool) (a b : vvp_bit4_t) : vvp_bit4_t :=
  bit4_summary (fun r =>
    existsb (fun x => existsb (fun y =>
      bit4_stands_for a x && bit4_stands_for b y && Bool.eqb (f x y) r) [false; true])
      [false; true]).

(** The two-bit encoding used in vectors: [abit] and [bbit]. *)
Definition bit4_abit (a : vvp_bit4_t) : bool :=
  match a with BIT4_1 | BIT4_X => true | _ => false end.

Definition bit4_bbit (a : vvp_bit4_t) : bool :=
  match a with BIT4_X | BIT4_Z => true | _ => false end.

Definition bit4_of_ab (a b : bool) : vvp_bit4_t :=
  match a, b with
  | false, false => BIT4_0
  | true, false => BIT4_1
  | true, true => BIT4_X
  | false, true => BIT4_Z
  end.

(** IEEE 1364 transition of a single bit: towards 1 is a posedge, towards 0 a
    negedge, where X and Z lie between. *)
Definition bit4_level (a : vvp_bit4_t) : Z :=
  match a with BIT4_0 => -1 | BIT4_1 => 1 | _ => 0 end.

(** ** Lemmas *)

Lemma bit4_of_ab_bits a : bit4_of_ab (bit4_abit a) (bit4_bbit a) = a.
Proof. by destruct a. Qed.

Lemma bit4_cast_int a : bit4_cast (bit4_int a) = a.
Proof. by destruct a. Qed.

Lemma bit4_eqb_spec a b : reflect (a = b) (bit4_eqb a b).
Proof. destruct a, b; constructor; congruence. Qed.

Lemma bit4_is_xz_bbit a : bit4_is_xz a = bit4_bbit a.
Proof. by destruct a. Qed.

Lemma bit4_of_ab_abit a b : bit4_abit (bit4_of_ab a b) = a.
Proof. by destruct a, b. Qed.

Lemma bit4_of_ab_bbit a b : bit4_bbit (bit4_of_ab a b) = b.
Proof. by destruct a, b. Qed.

Lemma bit4_of_ab_inj a b a' b' : bit4_of_ab a b = bit4_of_ab a' b' <-> a = a' /\ b = b'.
Proof. split; [|intros [-> ->]; done]. by destruct a, b, a', b'. Qed.

Create Rewrite HintDb bit4_db.
#[export] Hint Rewrite bit4_is_xz_bbit bit4_of_ab_abit bit4_of_ab_bbit : bit4_db.

Lemma bit4_z2x_spec a : bit4_z2x a = if bit4_is_xz a then BIT4_X else a.
Proof. by destruct a. Qed.

Lemma bit4_add_known a b c :
  bit4_add_with_carry (bit4_of_bool a) (bit4_of_bool b) (bit4_of_bool c) =
  (bit4_of_bool (xorb (xorb a b) c), bit4_of_bool ((a && b) || (c && (a || b)))).
Proof. by destruct a, b, c. Qed.

(** ** Properties *)

(** The operators on the two-bit encoding are exactly the most precise
    four-valued liftings of the boolean operators: the result is known as soon
    as every boolean reading of the operands gives the same value, and X
    otherwise. *)
Theorem bit4_ops_lift a b :
  bit4_and a b = bit4_lift2 andb a b /\
  bit4_or a b = bit4_lift2 orb a b /\
  bit4_xor a b = bit4_lift2 xorb a b /\
  bit4_not a = bit4_lift2 (fun x _ => negb x) a BIT4_0.
Proof. by destruct a, b. Qed.

(** The edge of a transition is the sign of the level change. *)
Theorem edge_spec from to :
  edge from to = Z.sgn (bit4_level to - bit4_level from).
Proof. by destruct from, to. Qed.
