(* ===== verification/Words.v ===== *)
(** * Multi-word arithmetic ([vvp/vvp_net.h], [vvp/vvp_net.cc])

    The word adders and multipliers that the vector classes use, and the
    arithmetic of arrays of words they are used for: adding with a rippling
    carry and accumulating a product. *)

From Stdlib Require Import ZArith Lia Bool.
From stdpp Require Import base numbers list.
From S2P Require Import Prelude.

Open Scope Z_scope.

(** ** Definitions *)

Section word_scope_definitions.
Open Scope word_scope.

(** [add_with_carry(unsigned long, unsigned long, unsigned long&)]: the sum word
    and the carry out. *)
Definition add_with_carry (a b carry : Z) : Z * Z :=
  let tmp := w_add b carry in
  let sum := w_add a tmp in
  let carry := 0 in
  let carry := if tmp <? b then 1 else carry in
  let carry := if sum <? tmp then 1 else carry in
  let carry := if sum <? a then 1 else carry in
  (sum, carry).

(** [add_carry], the adder of [vvp_vector2_t]. *)
Definition add_carry (a b carry : Z) : Z * Z :=
  let out := carry in
  let carry := 0 in
  let carry := if w_sub w_max out <? a then w_add carry 1 else carry in
  let out := w_add out a in
  let carry := if w_sub w_max out <? b then w_add carry 1 else carry in
  let out := w_add out b in
  (out, carry).

(** [CPU_WORD_BITS / 2] *)
Definition HALF : nat := 32.

(** [multiply_with_carry]: the low and the high word of the product. *)
Definition multiply_with_carry (a b : Z) : Z * Z :=
  let mask := w_mask HALF in
  let a0 := a .& mask in
  let a1 := (a >> HALF) .& mask in
  let b0 := b .& mask in
  let b1 := (b >> HALF) .& mask in
  let tmp := w_mul a0 b0 in
  let r00 := tmp .& mask in
  let c00 := (tmp >> HALF) .& mask in
  let tmp := w_mul a0 b1 in
  let r01 := tmp .& mask in
  let c01 := (tmp >> HALF) .& mask in
  let tmp := w_mul a1 b0 in
  let r10 := tmp .& mask in
  let c10 := (tmp >> HALF) .& mask in
  let tmp := w_mul a1 b1 in
  let r11 := tmp .& mask in
  let c11 := (tmp >> HALF) .& mask in
  let r1 := w_add (w_add c00 r01) r10 in
  let r2 := (r1 >> HALF) .& mask in
  let r1 := r1 .& mask in
  let r2 := w_add r2 (w_add (w_add c01 c10) r11) in
  let r3 := (r2 >> HALF) .& mask in
  let r2 := r2 .& mask in
  let r3 := w_add r3 c11 in
  let r3 := r3 .& mask in
  (w_add (r1 << HALF) r00, w_add (r3 << HALF) r2).

(** [multiply_long], the multiplier of [vvp_vector2_t]: low and high word. *)
Definition multiply_long (a b : Z) : Z * Z :=
  let word_mask := w_mask HALF in
  let tmpa := a .& word_mask in
  let tmpb := b .& word_mask in
  let res0 := w_mul tmpa tmpb in
  let res1 := res0 >> HALF in
  let res0 := res0 .& word_mask in
  let tmpa := (a >> HALF) .& word_mask in
  let tmpb := b .& word_mask in
  let res1 := w_add res1 (w_mul tmpa tmpb) in
  let res2 := res1 >> HALF in
  let res1 := res1 .& word_mask in
  let tmpa := a .& word_mask in
  let tmpb := (b >> HALF) .& word_mask in
  let res1 := w_add res1 (w_mul tmpa tmpb) in
  let res2 := w_add res2 (res1 >> HALF) in
  let res3 := res2 >> HALF in
  let res1 := res1 .& word_mask in
  let res2 := res2 .& word_mask in
  let tmpa := (a >> HALF) .& word_mask in
  let tmpb := (b >> HALF) .& word_mask in
  let res2 := w_add res2 (w_mul tmpa tmpb) in
  let res3 := w_add res3 (res2 >> HALF) in
  let res2 := res2 .& word_mask in
  ((res1 << HALF) .| res0, (res3 << HALF) .| res2).

End word_scope_definitions.

(** The loop that adds a word at [idx] and lets the carry ripple up to word
    [idx + n - 1]; the second word [hi] is added at [idx + 1].  This is the inner
    loop of both multiplications. *)
Fixpoint ripple (adder : Z -> Z -> Z -> Z * Z) (idx n : nat) (lo hi carry : Z) (res : list Z) : list Z :=
  match n with
  | O => res
  | S n' =>
      let '(s, carry) := adder (wd res idx) lo carry in
      ripple adder (S idx) n' hi 0 carry (<[idx := s]> res)
  end.

(** *** The number an array stands for *)

Fixpoint wsum (f : nat -> Z) (n : nat) : Z :=
  match n with
  | O => 0
  | S n' => wsum f n' + f n' * 2 ^ (64 * Z.of_nat n')
  end.

(** What both adders compute. *)
Definition is_adder (adder : Z -> Z -> Z -> Z * Z) : Prop :=
  forall a b c, word_ok a -> word_ok b -> 0 <= c <= 1 ->
    word_ok (fst (adder a b c)) /\ 0 <= snd (adder a b c) <= 1 /\
    fst (adder a b c) + 2 ^ 64 * snd (adder a b c) = a + b + c.

(** What both multipliers compute. *)
Definition is_multiplier (mul : Z -> Z -> Z * Z) : Prop :=
  forall a b, word_ok a -> word_ok b ->
    word_ok (fst (mul a b)) /\ word_ok (snd (mul a b)) /\
    fst (mul a b) + 2 ^ 64 * snd (mul a b) = a * b.

(** ** Lemmas *)

Lemma w_wrap_split x : exists q, x = w_wrap x + 2 ^ 64 * q.
Proof.
  exists (x / 2 ^ 64). rewrite w_wrap_mod. pose proof (Z.div_mod x (2 ^ 64)). lia.
Qed.

Lemma w_wrap_case x :
  0 <= x < 2 * 2 ^ 64 ->
  (x < 2 ^ 64 /\ w_wrap x = x) \/ (2 ^ 64 <= x /\ w_wrap x = x - 2 ^ 64).
Proof.
  intros H. destruct (Z.lt_ge_cases x (2 ^ 64)).
  - left. split; [done|]. apply w_wrap_id. unfold word_ok; lia.
  - right. split; [done|]. rewrite w_wrap_mod.
    symmetry. apply (Z.mod_unique_pos _ _ 1); lia.
Qed.

Lemma add_with_carry_adder : is_adder add_with_carry.
Proof.
  intros a b c Ha Hb Hc. unfold word_ok in *. unfold add_with_carry, w_add. cbn [fst snd].
  pose proof (w_wrap_ok (a + w_wrap (b + c))) as Hw. unfold word_ok in Hw.
  destruct (w_wrap_case (b + c)) as [[? E]|[? E]]; [lia|..]; rewrite E in *.
  - destruct (w_wrap_case (a + (b + c))) as [[? E']|[? E']]; [lia|..]; rewrite E' in *;
      repeat match goal with |- context [?x <? ?y] => destruct (Z.ltb_spec x y) end; lia.
  - destruct (w_wrap_case (a + (b + c - 2 ^ 64))) as [[? E']|[? E']]; [lia|..]; rewrite E' in *;
      repeat match goal with |- context [?x <? ?y] => destruct (Z.ltb_spec x y) end; lia.
Qed.

Lemma add_carry_adder : is_adder add_carry.
Proof.
  intros a b c Ha Hb Hc. unfold word_ok in *. unfold add_carry, w_add, w_sub. cbn [fst snd].
  change w_max with (2 ^ 64 - 1).
  pose proof (w_wrap_ok (w_wrap (c + a) + b)) as Hw. unfold word_ok in Hw.
  pose proof (w_wrap_ok (c + a)) as Hw'. unfold word_ok in Hw'.
  rewrite (w_wrap_id (2 ^ 64 - 1 - c)), (w_wrap_id (2 ^ 64 - 1 - w_wrap (c + a)))
    by (unfold word_ok; lia).
  rewrite (w_wrap_id (0 + 1)) by (unfold word_ok; lia).
  destruct (w_wrap_case (c + a)) as [[? E]|[? E]]; [lia|..]; rewrite E in *.
  - destruct (w_wrap_case (c + a + b)) as [[? E']|[? E']]; [lia|..]; rewrite E' in *;
      repeat match goal with |- context [?x <? ?y] => destruct (Z.ltb_spec x y) end;
      rewrite ?(w_wrap_id (0 + 1)), ?(w_wrap_id 1) by (unfold word_ok; lia); lia.
  - destruct (w_wrap_case (c + a - 2 ^ 64 + b)) as [[? E']|[? E']]; [lia|..]; rewrite E' in *;
      repeat match goal with |- context [?x <? ?y] => destruct (Z.ltb_spec x y) end;
      rewrite ?(w_wrap_id (0 + 1)), ?(w_wrap_id (1 + 1)), ?(w_wrap_id 1) by (unfold word_ok; lia); lia.
Qed.

(** Half words. *)
Lemma half_low x : word_ok x -> Z.land x (w_mask HALF) = x mod 2 ^ 32.
Proof.
  intros _. rewrite w_mask_ones by (unfold HALF; lia). by apply Z.land_ones.
Qed.

Lemma half_shr x : w_shr x HALF = x / 2 ^ 32.
Proof. unfold w_shr, HALF. rewrite Z.shiftr_div_pow2 by lia. done. Qed.

Lemma half_shl x : 0 <= x < 2 ^ 32 -> w_shl x HALF = x * 2 ^ 32.
Proof.
  intros H. unfold w_shl, HALF. rewrite Z.shiftl_mul_pow2 by lia.
  apply w_wrap_id. unfold word_ok. simpl Z.of_nat. lia.
Qed.

(** The word of two halves: [(r1 << 32) | r0] is their sum. *)
Lemma half_lor hi lo : 0 <= hi < 2 ^ 32 -> 0 <= lo < 2 ^ 32 -> Z.lor (hi * 2 ^ 32) lo = hi * 2 ^ 32 + lo.
Proof.
  intros Hh Hl. symmetry. rewrite Z.add_nocarry_lxor, <- Z.lxor_lor; [done|..].
  all: apply Z.bits_inj'; intros k Hk; rewrite Z.land_spec, Z.bits_0.
  all: destruct (Z.lt_ge_cases k 32).
  all: try (by rewrite Z.mul_pow2_bits_low).
  all: rewrite andb_comm; replace (Z.testbit lo k) with false; [done|].
  all: symmetry; destruct (Z.eq_dec lo 0) as [->|]; [apply Z.bits_0|].
  all: apply Z.bits_above_log2; [lia|]; apply Z.log2_lt_pow2; [lia|].
  all: apply Z.lt_le_trans with (2 ^ 32); [lia|]; apply Z.pow_le_mono_r; lia.
Qed.


(** Division by half a word keeps bounds. *)
Lemma half_bounds x : 0 <= x -> 0 <= x mod 2 ^ 32 < 2 ^ 32 /\ 0 <= x / 2 ^ 32 /\
  x = x / 2 ^ 32 * 2 ^ 32 + x mod 2 ^ 32.
Proof.
  intros Hx. pose proof (Z.div_mod x (2 ^ 32)). pose proof (Z.mod_pos_bound x (2 ^ 32)).
  pose proof (Z.div_pos x (2 ^ 32)). lia.
Qed.

Lemma half_div_lt x k : 0 <= x < k * 2 ^ 32 -> 0 <= x / 2 ^ 32 < k.
Proof.
  intros Hx. split; [apply Z.div_pos; lia|]. apply Z.div_lt_upper_bound; lia.
Qed.

(** The product of two half words fits a word and so does adding two half words. *)
Lemma half_mul x y :
  0 <= x < 2 ^ 32 -> 0 <= y < 2 ^ 32 -> 0 <= x * y <= 2 ^ 64 - 2 * 2 ^ 32 + 1.
Proof. intros Hx Hy. nia. Qed.

Lemma half_mod_small x : 0 <= x < 2 ^ 32 -> x mod 2 ^ 32 = x.
Proof. apply Z.mod_small. Qed.

Lemma w_shr_land x : word_ok x -> Z.land (w_shr x HALF) (w_mask HALF) = x / 2 ^ 32.
Proof.
  intros Hx. rewrite half_low by auto with word_db. rewrite half_shr.
  apply Z.mod_small, half_div_lt. unfold word_ok in Hx. lia.
Qed.

Lemma w_mul_half x y : 0 <= x < 2 ^ 32 -> 0 <= y < 2 ^ 32 -> w_mul x y = x * y /\ word_ok (x * y).
Proof.
  intros Hx Hy. pose proof (half_mul x y Hx Hy). assert (word_ok (x * y)) by (unfold word_ok; lia).
  split; [by apply w_wrap_id|done].
Qed.

Lemma w_add_small x y : 0 <= x + y < 2 ^ 64 -> w_add x y = x + y.
Proof. intros H. by apply w_wrap_id. Qed.

(** The schoolbook sum of the four partial products fits two words. *)
Lemma product_split a b :
  word_ok a -> word_ok b ->
  let a1 := a / 2 ^ 32 in let a0 := a mod 2 ^ 32 in
  let b1 := b / 2 ^ 32 in let b0 := b mod 2 ^ 32 in
  (0 <= a1 < 2 ^ 32) /\ (0 <= a0 < 2 ^ 32) /\ (0 <= b1 < 2 ^ 32) /\ (0 <= b0 < 2 ^ 32) /\
  a * b = a1 * b1 * 2 ^ 64 + (a0 * b1 + a1 * b0) * 2 ^ 32 + a0 * b0 /\
  a * b < 2 ^ 128.
Proof.
  intros Ha Hb. cbv zeta. unfold word_ok in *.
  pose proof (half_bounds a ltac:(lia)) as (? & ? & Ea).
  pose proof (half_bounds b ltac:(lia)) as (? & ? & Eb).
  pose proof (half_div_lt a (2 ^ 32) ltac:(lia)). pose proof (half_div_lt b (2 ^ 32) ltac:(lia)).
  do 4 (split; [lia|]). split.
  - rewrite Ea at 1. rewrite Eb at 1. change (2 ^ 64) with (2 ^ 32 * 2 ^ 32). ring.
  - change (2 ^ 128) with (2 ^ 64 * 2 ^ 64). nia.
Qed.


Lemma half_split x k :
  0 <= x < k * 2 ^ 32 ->
  exists h l, x / 2 ^ 32 = h /\ x mod 2 ^ 32 = l /\ x = h * 2 ^ 32 + l /\
    0 <= l < 2 ^ 32 /\ 0 <= h < k.
Proof.
  intros Hx. exists (x / 2 ^ 32), (x mod 2 ^ 32). pose proof (half_bounds x ltac:(lia)).
  pose proof (half_div_lt x k Hx). lia.
Qed.

(** Splits [x < k * 2^32] into halves [h], [l], with their bounds as [Bh], [Bl]
    and the equation [E]. *)
Ltac halve x k h l E Bl Bh :=
  let E1 := fresh in let E2 := fresh in
  destruct (half_split x k) as (h & l & E1 & E2 & E & Bl & Bh);
  [|rewrite ?E1, ?E2; clear E1 E2].

(** The carries of the schoolbook product: the sum of the digits of the partial
    products is the product, and the top digit does not overflow. *)
Lemma schoolbook_carries c00 r00 c01 r01 c10 r10 c11 r11 h1 l1 h2 l2 :
  0 <= r00 < 2 ^ 32 -> 0 <= l1 < 2 ^ 32 -> 0 <= l2 < 2 ^ 32 ->
  c00 + r01 + r10 = h1 * 2 ^ 32 + l1 ->
  h1 + (c01 + c10 + r11) = h2 * 2 ^ 32 + l2 ->
  (c11 * 2 ^ 32 + r11) * 2 ^ 64 + ((c01 * 2 ^ 32 + r01) + (c10 * 2 ^ 32 + r10)) * 2 ^ 32 +
    (c00 * 2 ^ 32 + r00) =
  (l1 * 2 ^ 32 + r00) + 2 ^ 64 * ((h2 + c11) * 2 ^ 32 + l2).
Proof. lia. Qed.

Lemma multiply_with_carry_multiplier : is_multiplier multiply_with_carry.
Proof.
  intros a b Ha Hb. destruct (product_split a b Ha Hb) as (A1 & A0 & B1 & B0 & Hprod & Hlt).
  unfold multiply_with_carry. rewrite !(w_shr_land a), !(w_shr_land b) by done.
  rewrite !(half_low a), !(half_low b) by done.
  revert Hprod A1 A0 B1 B0. generalize (a / 2 ^ 32), (a mod 2 ^ 32), (b / 2 ^ 32), (b mod 2 ^ 32).
  intros a1 a0 b1 b0 Hprod A1 A0 B1 B0.
  destruct (w_mul_half a0 b0 A0 B0) as [-> O00], (w_mul_half a0 b1 A0 B1) as [-> O01],
    (w_mul_half a1 b0 A1 B0) as [-> O10], (w_mul_half a1 b1 A1 B1) as [-> O11].
  clear A1 A0 B1 B0. revert Hprod O00 O01 O10 O11.
  generalize (a0 * b0), (a0 * b1), (a1 * b0), (a1 * b1). clear a0 a1 b0 b1.
  intros p00 p01 p10 p11 Hprod O00 O01 O10 O11.
  rewrite (w_shr_land p00), (w_shr_land p01), (w_shr_land p10), (w_shr_land p11) by done.
  rewrite (half_low p00), (half_low p01), (half_low p10), (half_low p11) by done.
  assert (0 <= a * b) as Hpos by (unfold word_ok in *; clear -Ha Hb; nia).
  clear Ha Hb. unfold word_ok in O00, O01, O10, O11. change (2 ^ 64) with (2 ^ 32 * 2 ^ 32) in O00, O01, O10, O11.
  halve p00 (2 ^ 32) c00 r00 E00 Br00 Bc00; [done|]. halve p01 (2 ^ 32) c01 r01 E01 Br01 Bc01; [done|].
  halve p10 (2 ^ 32) c10 r10 E10 Br10 Bc10; [done|]. halve p11 (2 ^ 32) c11 r11 E11 Br11 Bc11; [done|].
  clear O00 O01 O10 O11. subst p00 p01 p10 p11.
  rewrite (w_add_small c00) by (clear -Br01 Bc00; lia).
  rewrite (w_add_small (c00 + _)) by (clear -Br01 Br10 Bc00; lia).
  rewrite (w_add_small c01) by (clear -Bc01 Bc10; lia).
  rewrite (w_add_small (c01 + _)) by (clear -Bc01 Bc10 Br11; lia).
  assert (0 <= c00 + r01 + r10 < 4 * 2 ^ 32) as R1 by (clear -Br01 Br10 Bc00; lia).
  assert (0 <= c01 + c10 + r11 < 3 * 2 ^ 32) as R2 by (clear -Bc01 Bc10 Br11; lia).
  set (t := c01 + c10 + r11) in *. set (r1 := c00 + r01 + r10) in *.
  rewrite (w_shr_land r1), (half_low r1) by (unfold word_ok; clear -R1; lia).
  halve r1 4 h1 l1 E1 Bl1 Bh1; [done|].
  rewrite (w_add_small h1) by (clear -R2 Bh1; lia).
  assert (0 <= h1 + t < 4 * 2 ^ 32) as R3 by (clear -R2 Bh1; lia). set (r2 := h1 + t) in *.
  rewrite (w_shr_land r2), (half_low r2) by (unfold word_ok; clear -R3; lia).
  halve r2 4 h2 l2 E2 Bl2 Bh2; [done|].
  rewrite (w_add_small h2) by (clear -Bh2 Bc11; lia).
  pose proof (schoolbook_carries c00 r00 c01 r01 c10 r10 c11 r11 h1 l1 h2 l2 Br00 Bl1 Bl2 E1 E2) as Hsum.
  rewrite Hsum in Hprod. clear Hsum E1 E2.
  assert (0 <= h2 + c11 < 2 ^ 32) as R4.
  { clear -Hprod Hlt Hpos Bl1 Bl2 Br00 Bh2 Bc11. change (2 ^ 128) with (2 ^ 64 * 2 ^ 32 * 2 ^ 32) in Hlt. nia. }
  rewrite (half_low (h2 + c11)) by (unfold word_ok; clear -R4; lia).
  rewrite (Z.mod_small (h2 + c11)), !half_shl by done. cbn [fst snd].
  rewrite !w_add_small by (clear -R4 Bl1 Bl2 Br00; lia).
  rewrite Hprod. unfold word_ok. clear -R4 Bl1 Bl2 Br00. lia.
Qed.

Lemma multiply_long_multiplier : is_multiplier multiply_long.
Proof.
  intros a b Ha Hb. destruct (product_split a b Ha Hb) as (A1 & A0 & B1 & B0 & Hprod & Hlt).
  unfold multiply_long. rewrite !(w_shr_land a), !(w_shr_land b) by done.
  rewrite !(half_low a), !(half_low b) by done.
  assert (0 <= a * b) as Hpos by (unfold word_ok in *; clear -Ha Hb; nia).
  revert Hprod A1 A0 B1 B0. generalize (a / 2 ^ 32), (a mod 2 ^ 32), (b / 2 ^ 32), (b mod 2 ^ 32).
  intros a1 a0 b1 b0 Hprod A1 A0 B1 B0.
  rewrite (proj1 (w_mul_half a0 b0 A0 B0)), (proj1 (w_mul_half a0 b1 A0 B1)),
    (proj1 (w_mul_half a1 b0 A1 B0)), (proj1 (w_mul_half a1 b1 A1 B1)).
  pose proof (half_mul a0 b0 A0 B0) as O00. pose proof (half_mul a0 b1 A0 B1) as O01.
  pose proof (half_mul a1 b0 A1 B0) as O10. pose proof (half_mul a1 b1 A1 B1) as O11.
  clear A1 A0 B1 B0 Ha Hb. revert Hprod O00 O01 O10 O11.
  generalize (a0 * b0), (a0 * b1), (a1 * b0), (a1 * b1). clear a0 a1 b0 b1.
  intros p00 p01 p10 p11 Hprod O00 O01 O10 O11.
  rewrite !half_shr, (half_low p00) by (unfold word_ok; clear -O00; lia).
  halve p00 (2 ^ 32) h0 l0 E0 Bl0 Bh0; [clear -O00; lia|].
  rewrite !(w_add_small h0) by (clear -O10 Bh0; lia).
  assert (0 <= h0 + p10 < 2 ^ 32 * 2 ^ 32) as Q1 by (clear -O10 Bh0; lia).
  remember (h0 + p10) as q1 eqn:Eq1.
  rewrite !(half_low q1) by (unfold word_ok; clear -Q1; lia).
  halve q1 (2 ^ 32) h1 l1 E1 Bl1 Bh1; [done|].
  rewrite !(w_add_small l1) by (clear -O01 Bl1; lia).
  assert (0 <= l1 + p01 < 2 ^ 32 * 2 ^ 32) as Q2 by (clear -O01 Bl1; lia).
  remember (l1 + p01) as q2 eqn:Eq2.
  rewrite !(half_low q2) by (unfold word_ok; clear -Q2; lia).
  halve q2 (2 ^ 32) h2 l2 E2 Bl2 Bh2; [done|].
  rewrite !(w_add_small h1) by (clear -Bh1 Bh2; lia).
  assert (0 <= h1 + h2 < 2 * 2 ^ 32) as Q3 by (clear -Bh1 Bh2; lia).
  remember (h1 + h2) as q3 eqn:Eq3.
  rewrite !(half_low q3) by (unfold word_ok; clear -Q3; lia).
  halve q3 2 h3 l3 E3 Bl3 Bh3; [done|].
  rewrite !(w_add_small l3) by (clear -O11 Bl3; lia).
  assert (0 <= l3 + p11 < 2 ^ 32 * 2 ^ 32) as Q4 by (clear -O11 Bl3; lia).
  remember (l3 + p11) as q4 eqn:Eq4.
  rewrite !(half_low q4) by (unfold word_ok; clear -Q4; lia).
  halve q4 (2 ^ 32) h4 l4 E4 Bl4 Bh4; [done|].
  rewrite !(w_add_small h3) by (clear -Bh3 Bh4; lia).
  assert (Hsum : a * b = (l2 * 2 ^ 32 + l0) + 2 ^ 64 * ((h3 + h4) * 2 ^ 32 + l4)).
  { clear -Hprod E0 E1 E2 E3 E4 Eq1 Eq2 Eq3 Eq4. lia. }
  clear Hprod E0 E1 E2 E3 E4 Eq1 Eq2 Eq3 Eq4.
  assert (0 <= h3 + h4 < 2 ^ 32) as R4.
  { clear -Hsum Hlt Hpos Bl0 Bl2 Bl4 Bh3 Bh4. change (2 ^ 128) with (2 ^ 64 * 2 ^ 32 * 2 ^ 32) in Hlt. nia. }
  rewrite !half_shl by done. cbn [fst snd].
  rewrite !half_lor by done. rewrite Hsum. unfold word_ok. clear -R4 Bl0 Bl2 Bl4. lia.
Qed.

(** *** Arrays as numbers *)

Lemma wsum_ext f g n : (forall k, (k < n)%nat -> f k = g k) -> wsum f n = wsum g n.
Proof.
  induction n as [|n IH]; intros H; simpl; [done|]. rewrite H by lia. rewrite IH; [done|]. auto with lia.
Qed.

Lemma wsum_bounds f n : (forall k, (k < n)%nat -> word_ok (f k)) -> 0 <= wsum f n < 2 ^ (64 * Z.of_nat n).
Proof.
  induction n as [|n IH]; intros H; cbn [wsum]; [lia|].
  specialize (IH ltac:(auto with lia)). pose proof (H n ltac:(lia)) as Hn. unfold word_ok in Hn.
  rewrite Nat2Z.inj_succ, Z.mul_succ_r, Z.pow_add_r by lia.
  nia.
Qed.

Lemma wsum_app f n m : wsum f (n + m) = wsum f n + 2 ^ (64 * Z.of_nat n) * wsum (fun k => f (n + k)%nat) m.
Proof.
  induction m as [|m IH]; [rewrite Nat.add_0_r; simpl; lia|].
  rewrite Nat.add_succ_r. cbn [wsum]. rewrite IH, Nat2Z.inj_add, Z.mul_add_distr_l, Z.pow_add_r by lia.
  ring.
Qed.

(** Changing word [k] changes the number by the difference at its place. *)
Lemma wsum_update f g n k :
  (k < n)%nat -> (forall j, (j < n)%nat -> j <> k -> g j = f j) ->
  wsum g n = wsum f n + (g k - f k) * 2 ^ (64 * Z.of_nat k).
Proof.
  induction n as [|n IH]; intros Hk H; [lia|]. cbn [wsum].
  destruct (decide (k = n)) as [->|Hne].
  - rewrite (wsum_ext g f) by (intros j Hj; apply H; lia). ring.
  - rewrite IH, (H n) by (lia || (intros; apply H; lia)). ring.
Qed.

Lemma pow64_split n : 2 ^ (64 * Z.of_nat (S n)) = 2 ^ (64 * Z.of_nat n) * 2 ^ 64.
Proof. rewrite Nat2Z.inj_succ, Z.mul_succ_r, Z.pow_add_r by lia. done. Qed.

(** Bit [i] of the number is bit [i mod 64] of word [i / 64]. *)
Lemma tb_wsum f n i :
  (forall k, (k < n)%nat -> word_ok (f k)) -> (i < 64 * n)%nat ->
  tb (wsum f n) i = tb (f (i `div` 64)%nat) (i `mod` 64).
Proof.
  induction n as [|n IH]; intros H Hi; [lia|]. cbn [wsum].
  pose proof (wsum_bounds f n ltac:(auto with lia)) as Hb.
  replace (64 * Z.of_nat n) with (Z.of_nat (64 * n)) in * by lia.
  unfold tb at 1. destruct (decide (i < 64 * n)%nat) as [Hlt|Hge].
  - rewrite <- (Z.mod_pow2_bits_low _ (Z.of_nat (64 * n))) by lia.
    rewrite Z.mod_add, Z.mod_small by (done || lia). apply IH; auto with lia.
  - replace (Z.of_nat i) with (Z.of_nat (i - 64 * n) + Z.of_nat (64 * n)) by lia.
    rewrite <- Z.div_pow2_bits by lia. rewrite Z.div_add, Z.div_small by (done || lia).
    rewrite Z.add_0_l. unfold tb. f_equal; [f_equal; dlia|dlia].
Qed.

(** Two numbers that agree on their [n] low bits are congruent. *)
Lemma tb_mod_ext x y n :
  (forall i, (i < n)%nat -> tb x i = tb y i) -> x mod 2 ^ Z.of_nat n = y mod 2 ^ Z.of_nat n.
Proof.
  intros H. apply Z.bits_inj'. intros k Hk. destruct (Z.lt_ge_cases k (Z.of_nat n)).
  - rewrite !Z.mod_pow2_bits_low by lia. specialize (H (Z.to_nat k) ltac:(lia)).
    unfold tb in H. by rewrite Z2Nat.id in H.
  - by rewrite !Z.mod_pow2_bits_high by lia.
Qed.

Lemma tb_mod x n i : (i < n)%nat -> tb (x mod 2 ^ Z.of_nat n) i = tb x i.
Proof. intros H. unfold tb. apply Z.mod_pow2_bits_low. lia. Qed.

Lemma tb_mod_eq x y n i :
  x mod 2 ^ Z.of_nat n = y mod 2 ^ Z.of_nat n -> (i < n)%nat -> tb x i = tb y i.
Proof. intros H Hi. by rewrite <- (tb_mod x n), <- (tb_mod y n), H. Qed.

(** Bits below a multiple of a power of two. *)
Lemma tb_add_high x c n i : (i < 64 * n)%nat -> tb (x + c * 2 ^ (64 * Z.of_nat n)) i = tb x i.
Proof.
  intros Hi. apply (tb_mod_eq _ _ (64 * n)); [|done].
  replace (64 * Z.of_nat n) with (Z.of_nat (64 * n)) by lia. by rewrite Z.mod_add by lia.
Qed.

(** *** The rippling addition *)

Lemma ripple_spec adder :
  is_adder adder -> forall n idx lo hi c res,
  words_ok res -> word_ok lo -> word_ok hi -> 0 <= c <= 1 -> (idx + n <= length res)%nat ->
  let res' := ripple adder idx n lo hi c res in
  length res' = length res /\ words_ok res' /\
  exists q, wsum (wd res') (idx + n) =
    wsum (wd res) (idx + n) + (lo + c + 2 ^ 64 * hi) * 2 ^ (64 * Z.of_nat idx) +
    q * 2 ^ (64 * Z.of_nat (idx + n)).
Proof.
  intros Hadd n. induction n as [|n IH]; intros idx lo hi c res Hok Hlo Hhi Hc Hlen; cbn [ripple].
  { split; [done|]. split; [done|]. exists (- (lo + c + 2 ^ 64 * hi)).
    rewrite Nat.add_0_r. ring. }
  destruct (Hadd (wd res idx) lo c) as (Hs & Hc' & Heq); auto with word_db.
  destruct (adder (wd res idx) lo c) as [s c']; cbn [fst snd] in *.
  specialize (IH (S idx) hi 0 c' (<[idx := s]> res)).
  destruct IH as (H1 & H2 & q & H3); rewrite ?length_insert; auto with word_db; [lia|].
  rewrite length_insert in H1. split; [done|]. split; [done|]. exists q.
  replace (S idx + n)%nat with (idx + S n)%nat in H3 by lia. rewrite H3.
  rewrite (wsum_update (wd res) (wd (<[idx := s]> res)) (idx + S n) idx).
  - rewrite wd_insert, decide_True by (split; [done|lia]).
    rewrite pow64_split.
    replace (wd res idx) with (s + 2 ^ 64 * c' - lo - c) by lia. ring.
  - lia.
  - intros j _ Hj. rewrite wd_insert, decide_False; [done|]. intros [? _]. done.
Qed.

(** ** Properties *)

(** Both word adders and both word multipliers of the runtime are exact on
    64-bit words: the sum word and the carry out, and the two words of the
    product, written as the source writes them with wrapping arithmetic, give
    the mathematical result. *)
Theorem word_arithmetic_exact :
  is_adder add_with_carry /\ is_adder add_carry /\
  is_multiplier multiply_with_carry /\ is_multiplier multiply_long.
Proof.
  split; [apply add_with_carry_adder|]. split; [apply add_carry_adder|].
  split; [apply multiply_with_carry_multiplier|apply multiply_long_multiplier].
Qed.
