(* ===== verification/Vec4.v ===== *)
(** * Vectors of four-valued bits ([vvp_vector4_t], [vvp/vvp_net.h], [vvp/vvp_net.cc])

    The representation of the class (two arrays of 64-bit words, or two single
    words for a vector of at most 64 bits), its constructors, bit access, the
    bitwise operators and the comparisons, and the abstraction to the list of
    the bits of the vector. *)

From Stdlib Require Import ZArith Lia Bool String Ascii.
From stdpp Require Import base numbers list strings.
From S2P Require Import Prelude Bit4.

Open Scope Z_scope.

(** ** Definitions *)

(** [size_] and the two unions.  A vector of at most [BITS_PER_WORD] bits keeps
    the words [abits_val_], [bbits_val_] inline: the lists then have exactly one
    element; a larger vector has the arrays [abits_ptr_], [bbits_ptr_]. *)
Record vvp_vector4_t := mk_vector4 {
  size_ : nat;
  abits_ : list Z;
  bbits_ : list Z
}.

#[export] Instance vvp_vector4_eq_dec : EqDecision vvp_vector4_t.
Proof. solve_decision. Defined.

Definition WORD_0_ABITS : Z := 0.
Definition WORD_0_BBITS : Z := 0.
Definition WORD_1_ABITS : Z := 0xFFFFFFFFFFFFFFFF.
Definition WORD_1_BBITS : Z := 0.
Definition WORD_X_ABITS : Z := 0xFFFFFFFFFFFFFFFF.
Definition WORD_X_BBITS : Z := 0xFFFFFFFFFFFFFFFF.
Definition WORD_Z_ABITS : Z := 0.
Definition WORD_Z_BBITS : Z := 0xFFFFFFFFFFFFFFFF.

(** The words the object stores: the array when it is long, else one. *)
Definition nstore (n : nat) : nat := if (BITS_PER_WORD <? n)%nat then nwords n else 1%nat.

(** The inline words [abits_val_], [bbits_val_]. *)
Definition abits_val_ (v : vvp_vector4_t) : Z := wd (abits_ v) 0.
Definition bbits_val_ (v : vvp_vector4_t) : Z := wd (bbits_ v) 0.

Definition allocate_words_ (size : nat) (inita initb : Z) : vvp_vector4_t :=
  if (BITS_PER_WORD <? size)%nat then
    let cnt := nwords size in
    mk_vector4 size (replicate cnt inita) (replicate cnt initb)
  else mk_vector4 size [inita] [initb].

(** The tables of the constructor, indexed by the encoding of the bit. *)
Definition init_atable (b : vvp_bit4_t) : Z :=
  nth (Z.to_nat (bit4_int b)) [WORD_0_ABITS; WORD_1_ABITS; WORD_Z_ABITS; WORD_X_ABITS] 0.
Definition init_btable (b : vvp_bit4_t) : Z :=
  nth (Z.to_nat (bit4_int b)) [WORD_0_BBITS; WORD_1_BBITS; WORD_Z_BBITS; WORD_X_BBITS] 0.

(** [vvp_vector4_t(size, bits)] *)
Definition vector4_fill (size : nat) (val : vvp_bit4_t) : vvp_vector4_t :=
  allocate_words_ size (init_atable val) (init_btable val).

Definition copy_from_big_ (that : vvp_vector4_t) : vvp_vector4_t :=
  let words := nwords (size_ that) in
  mk_vector4 (size_ that)
    (map (wd (abits_ that)) (seq 0 words)) (map (wd (bbits_ that)) (seq 0 words)).

(** The copy constructor and the assignment operator. *)
Definition copy_from_ (that : vvp_vector4_t) : vvp_vector4_t :=
  if (size_ that <=? BITS_PER_WORD)%nat then
    mk_vector4 (size_ that) [abits_val_ that] [bbits_val_ that]
  else copy_from_big_ that.

Section word_scope_definitions.
Open Scope word_scope.

(** The words of [copy_inverted_from_] and [invert]: whole words first, then
    the masked tail. *)
Fixpoint invert_words (remaining : nat) (a b : list Z) : list Z :=
  match a, b with
  | wa :: a', wb :: b' =>
      if (BITS_PER_WORD <=? remaining)%nat
      then (wb .| ~~ wa) :: invert_words (remaining - BITS_PER_WORD) a' b'
      else if (0 <? remaining)%nat
      then (w_mask remaining .& (wb .| ~~ wa)) :: a'
      else wa :: a'
  | _, _ => a
  end.

(** [operator ~] builds its result with this copy. *)
Definition copy_inverted_from_ (that : vvp_vector4_t) : vvp_vector4_t :=
  let size := size_ that in
  if (BITS_PER_WORD <? size)%nat then
    mk_vector4 size (invert_words size (abits_ that) (bbits_ that)) (bbits_ that)
  else
    let mask := if (size <? BITS_PER_WORD)%nat then w_mask size else w_max in
    mk_vector4 size [mask .& (bbits_val_ that .| ~~ abits_val_ that)] [bbits_val_ that].

Definition value (v : vvp_vector4_t) (idx : nat) : vvp_bit4_t :=
  if (size_ v <=? idx)%nat then BIT4_X
  else
    let '(off, abits, bbits) :=
      if (BITS_PER_WORD <? size_ v)%nat then
        let wdx := (idx / BITS_PER_WORD)%nat in
        ((idx mod BITS_PER_WORD)%nat, wd (abits_ v) wdx, wd (bbits_ v) wdx)
      else (idx, abits_val_ v, bbits_val_ v) in
    let abits := abits >> off in
    let bbits := bbits >> off in
    bit4_cast ((bbits .& 1) << 1 + (abits .& 1)).

(** [set_bit]: the word that holds the bit, by the four encodings. *)
Definition set_bit_word (val : vvp_bit4_t) (mask a b : Z) : Z * Z :=
  match val with
  | BIT4_0 => (a .& ~~ mask, b .& ~~ mask)
  | BIT4_1 => (a .| mask, b .& ~~ mask)
  | BIT4_X => (a .| mask, b .| mask)
  | BIT4_Z => (a .& ~~ mask, b .| mask)
  end.

Definition set_bit (v : vvp_vector4_t) (idx : nat) (val : vvp_bit4_t) : option vvp_vector4_t :=
  assert_ (idx <? size_ v)%nat;;
  let off := (idx mod BITS_PER_WORD)%nat in
  let mask := 1 << off in
  if (BITS_PER_WORD <? size_ v)%nat then
    let wdx := (idx / BITS_PER_WORD)%nat in
    let '(a, b) := set_bit_word val mask (wd (abits_ v) wdx) (wd (bbits_ v) wdx) in
    Some (mk_vector4 (size_ v) (<[wdx := a]> (abits_ v)) (<[wdx := b]> (bbits_ v)))
  else
    let '(a, b) := set_bit_word val mask (abits_val_ v) (bbits_val_ v) in
    Some (mk_vector4 (size_ v) [a] [b]).

(** [eeq]: exact equality, X and Z included. *)
Definition eeq (v that : vvp_vector4_t) : bool :=
  if negb (size_ v =? size_ that)%nat then false
  else if (size_ v <? BITS_PER_WORD)%nat then
    let mask := w_mask (size_ v) in
    ((abits_val_ v .& mask) =? (abits_val_ that .& mask)) &&
    ((bbits_val_ v .& mask) =? (bbits_val_ that .& mask))
  else if (size_ v =? BITS_PER_WORD)%nat then
    (abits_val_ v =? abits_val_ that) && (bbits_val_ v =? bbits_val_ that)
  else
    let words := (size_ v / BITS_PER_WORD)%nat in
    forallb (fun idx => (wd (abits_ v) idx =? wd (abits_ that) idx) &&
                        (wd (bbits_ v) idx =? wd (bbits_ that) idx)) (seq 0 words) &&
    let tail := (size_ v mod BITS_PER_WORD)%nat in
    if (0 <? tail)%nat then
      let mask := w_mask tail in
      ((wd (abits_ v) words .& mask) =? (wd (abits_ that) words .& mask)) &&
      ((wd (bbits_ v) words .& mask) =? (wd (bbits_ that) words .& mask))
    else true.

(** [eq_xz]: equality where X and Z compare as equal. *)
Definition eq_xz (v that : vvp_vector4_t) : bool :=
  if negb (size_ v =? size_ that)%nat then false
  else if (size_ v <? BITS_PER_WORD)%nat then
    let mask := w_mask (size_ v) in
    (((abits_val_ v .| bbits_val_ v) .& mask) =? ((abits_val_ that .| bbits_val_ that) .& mask)) &&
    ((bbits_val_ v .& mask) =? (bbits_val_ that .& mask))
  else if (size_ v =? BITS_PER_WORD)%nat then
    ((abits_val_ v .| bbits_val_ v) =? (abits_val_ that .| bbits_val_ that)) &&
    (bbits_val_ v =? bbits_val_ that)
  else
    let words := (size_ v / BITS_PER_WORD)%nat in
    forallb (fun idx =>
      ((wd (abits_ v) idx .| wd (bbits_ v) idx) =?
       (wd (abits_ that) idx .| wd (bbits_ that) idx)) &&
      (wd (bbits_ v) idx =? wd (bbits_ that) idx)) (seq 0 words) &&
    let tail := (size_ v mod BITS_PER_WORD)%nat in
    if (0 <? tail)%nat then
      let mask := w_mask tail in
      (((wd (abits_ v) words .| wd (bbits_ v) words) .& mask) =?
       ((wd (abits_ that) words .| wd (bbits_ that) words) .& mask)) &&
      ((wd (bbits_ v) words .& mask) =? (wd (bbits_ that) words .& mask))
    else true.

(** [has_xz].  The mask of the source is [-1UL >> (BITS_PER_WORD - size)]. *)
Definition has_xz (v : vvp_vector4_t) : bool :=
  if (size_ v <? BITS_PER_WORD)%nat then
    let mask := w_max >> (BITS_PER_WORD - size_ v) in
    negb ((bbits_val_ v .& mask) =? 0)
  else if (size_ v =? BITS_PER_WORD)%nat then negb (bbits_val_ v =? 0)
  else
    let words := (size_ v / BITS_PER_WORD)%nat in
    existsb (fun idx => negb (wd (bbits_ v) idx =? 0)) (seq 0 words) ||
    let tail := (size_ v mod BITS_PER_WORD)%nat in
    if (0 <? tail)%nat then
      let mask := w_max >> (BITS_PER_WORD - tail) in
      negb ((wd (bbits_ v) words .& mask) =? 0)
    else false.

(** [change_z2x]: the bbits are or-ed into the abits. *)
Definition change_z2x (v : vvp_vector4_t) : vvp_vector4_t :=
  if (size_ v <=? BITS_PER_WORD)%nat then
    mk_vector4 (size_ v) [abits_val_ v .| bbits_val_ v] [bbits_val_ v]
  else
    mk_vector4 (size_ v) (zip_with (fun a b => a .| b) (abits_ v) (bbits_ v)) (bbits_ v).

Definition set_to_x (v : vvp_vector4_t) : vvp_vector4_t :=
  if (size_ v <=? BITS_PER_WORD)%nat then mk_vector4 (size_ v) [WORD_X_ABITS] [WORD_X_BBITS]
  else
    let words := nwords (size_ v) in
    mk_vector4 (size_ v) (replicate words WORD_X_ABITS) (replicate words WORD_X_BBITS).

(** The loop of [invert], in place. *)
Fixpoint invert_in_place (remaining : nat) (a b : list Z) : list Z :=
  match a, b with
  | wa :: a', wb :: b' =>
      if (BITS_PER_WORD <=? remaining)%nat
      then (~~ wa .| wb) :: invert_in_place (remaining - BITS_PER_WORD) a' b'
      else if (0 <? remaining)%nat
      then ((w_mask remaining .& ~~ wa) .| wb) :: a'
      else wa :: a'
  | _, _ => a
  end.

Definition invert (v : vvp_vector4_t) : vvp_vector4_t :=
  if (size_ v <=? BITS_PER_WORD)%nat then
    let mask := if (size_ v <? BITS_PER_WORD)%nat then w_mask (size_ v) else w_max in
    mk_vector4 (size_ v) [(mask .& ~~ abits_val_ v) .| bbits_val_ v] [bbits_val_ v]
  else
    mk_vector4 (size_ v) (invert_in_place (size_ v) (abits_ v) (bbits_ v)) (bbits_ v).

(** One word of [operator &=] and of [operator |=]. *)
Definition and_words (a b ta tb : Z) : Z * Z :=
  let tmp1 := a .| b in
  let tmp2 := ta .| tb in
  (tmp1 .& tmp2, (tmp1 .& tb) .| (tmp2 .& b)).

Definition or_words (a b ta tb : Z) : Z * Z :=
  let tmp := a .| b .| ta .| tb in
  (tmp, ((~~ a .| b) .& tb) .| ((~~ ta .| tb) .& b)).

(** The loop of the two operators over the words of both vectors. *)
Definition bitwise_words (f : Z -> Z -> Z -> Z -> Z * Z) (v that : vvp_vector4_t)
    (words : nat) : list (Z * Z) :=
  map (fun idx => f (wd (abits_ v) idx) (wd (bbits_ v) idx)
                    (wd (abits_ that) idx) (wd (bbits_ that) idx)) (seq 0 words).

Definition bitwise_op (f : Z -> Z -> Z -> Z -> Z * Z) (v that : vvp_vector4_t) : vvp_vector4_t :=
  if (size_ v <=? BITS_PER_WORD)%nat then
    let '(a, b) := f (abits_val_ v) (bbits_val_ v) (abits_val_ that) (bbits_val_ that) in
    mk_vector4 (size_ v) [a] [b]
  else
    let ws := bitwise_words f v that (nwords (size_ v)) in
    mk_vector4 (size_ v) (map fst ws) (map snd ws).

(** [operator &=] and [operator |=] *)
Definition vector4_and (v that : vvp_vector4_t) : vvp_vector4_t := bitwise_op and_words v that.

Definition vector4_or (v that : vvp_vector4_t) : vvp_vector4_t := bitwise_op or_words v that.

End word_scope_definitions.

(** The well-formed objects. *)
Definition wf4 (v : vvp_vector4_t) : Prop :=
  length (abits_ v) = nstore (size_ v) /\ length (bbits_ v) = nstore (size_ v) /\
  words_ok (abits_ v) /\ words_ok (bbits_ v).

(** *** The abstraction: the list of bits, least significant first. *)
Definition bits (v : vvp_vector4_t) : list vvp_bit4_t := map (value v) (seq 0 (size_ v)).

(** The value of a bit list when it has no X or Z; these count as 0. *)
Fixpoint bits_to_Z (l : list vvp_bit4_t) : Z :=
  match l with
  | [] => 0
  | b :: l' => (if bit4_eqb b BIT4_1 then 1 else 0) + 2 * bits_to_Z l'
  end.

(** The [n] low bits of a number. *)
Definition bits_of_Z (n : nat) (z : Z) : list vvp_bit4_t :=
  map (fun i => bit4_of_bool (tb z i)) (seq 0 n).

Definition list_has_xz (l : list vvp_bit4_t) : bool := existsb bit4_is_xz l.

(** The characters of a bit vector, most significant bit first. *)
Definition bits_chars (l : list vvp_bit4_t) : list ascii := map vvp_bit4_to_ascii (reverse l).

(** *** Text *)

(** [as_string]: [C4<...>] with the digits from the most significant bit down,
    cut when the buffer is full.  [buf_len] is a [size_t]; the subtraction of 3
    wraps below zero. *)
Fixpoint as_string_digits (v : vvp_vector4_t) (idx n : nat) (buf_len : Z) : list ascii :=
  match n with
  | O => []
  | S n' =>
      if 2 <=? buf_len
      then vvp_bit4_to_ascii (value v (size_ v - idx - 1)) ::
           as_string_digits v (S idx) n' (w_sub buf_len 1)
      else []
  end.

Definition as_string (v : vvp_vector4_t) (buf_len : Z) : list ascii :=
  ["C"; "4"; "<"]%char ++ as_string_digits v 0 (size_ v) (w_sub buf_len 3) ++ [">"]%char.

(** [strspn(str, "01xz")] *)
Fixpoint strspn_01xz (str : list ascii) : nat :=
  match str with
  | c :: str' =>
      if existsb (Ascii.eqb c) (list_ascii_of_string "01xz") then S (strspn_01xz str') else O
  | [] => O
  end.

(** Character [i] of a C string; the terminating NUL is at its length. *)
Definition char_at (str : list ascii) (i : nat) : ascii := nth i str zero.

(** [c4string_test] *)
Definition c4string_test (str : list ascii) : bool :=
  if negb (bool_decide (take 3 str = ["C"; "4"; "<"]%char)) then false
  else
    let value_size := strspn_01xz (drop 3 str) in
    if negb (Ascii.eqb (char_at str (3 + value_size)) ">") then false
    else Ascii.eqb (char_at str (3 + value_size + 1)) zero.

(** The digit of a [C4<>] string. *)
Definition bit4_of_char (c : ascii) : option vvp_bit4_t :=
  if Ascii.eqb c "0" then Some BIT4_0
  else if Ascii.eqb c "1" then Some BIT4_1
  else if Ascii.eqb c "x" then Some BIT4_X
  else if Ascii.eqb c "z" then Some BIT4_Z
  else None.

(** [c4string_to_vector4] *)
Definition c4string_to_vector4 (str : list ascii) : option vvp_vector4_t :=
  assert_ (Ascii.eqb (char_at str 0) "C" && Ascii.eqb (char_at str 1) "4" &&
           Ascii.eqb (char_at str 2) "<");;
  let str := drop 3 str in
  let n := strspn_01xz str in
  assert_ (Ascii.eqb (char_at str n) ">");;
  let tmp := vector4_fill n BIT4_X in
  for_ 0 (size_ tmp) (fun idx tmp =>
    bit ← bit4_of_char (char_at str idx);
    set_bit tmp (size_ tmp - idx - 1) bit) tmp.

(** ** Lemmas *)

Lemma nwords_spec n : (64 * nwords n - 63 <= n <= 64 * nwords n)%nat.
Proof. unfold nwords. dlia. Qed.

Lemma nstore_spec n : (n <= 64 * nstore n)%nat.
Proof. unfold nstore. destruct (Nat.ltb_spec 64 n); [apply nwords_spec|lia]. Qed.

Lemma nstore_short n : (n <= 64)%nat -> nstore n = 1%nat.
Proof. intros. unfold nstore. by rewrite (proj2 (Nat.ltb_ge _ _)) by lia. Qed.

Lemma nstore_long n : (64 < n)%nat -> nstore n = nwords n.
Proof. intros. unfold nstore. by rewrite (proj2 (Nat.ltb_lt _ _)) by lia. Qed.

Lemma wf4_lengths v : wf4 v -> length (abits_ v) = nstore (size_ v) /\ length (bbits_ v) = nstore (size_ v).
Proof. intros (? & ? & _). done. Qed.

Lemma wsbit_val ws i : (i < 64)%nat -> wsbit ws i = tb (wd ws 0) i.
Proof. intros H. unfold wsbit. by rewrite Nat.div_small, Nat.mod_small by lia. Qed.

Lemma wf4_short a b n : (n <= 64)%nat -> word_ok a -> word_ok b -> wf4 (mk_vector4 n [a] [b]).
Proof.
  intros Hn Ha Hb. unfold wf4. simpl. rewrite nstore_short by done.
  do 2 (split; [done|]). split; by apply Forall_singleton.
Qed.

(** An array object of the right length is well formed. *)
Lemma wf4_long a b n :
  (64 < n)%nat -> length a = nwords n -> length b = nwords n -> words_ok a -> words_ok b ->
  wf4 (mk_vector4 n a b).
Proof. intros. unfold wf4. simpl. by rewrite nstore_long. Qed.

Lemma wf4_words_ok v : wf4 v -> words_ok (abits_ v) /\ words_ok (bbits_ v).
Proof. intros (_ & _ & ?). done. Qed.

Lemma wf4_wd v i : wf4 v -> word_ok (wd (abits_ v) i) /\ word_ok (wd (bbits_ v) i).
Proof. intros (_ & _ & Ha & Hb). split; by apply wd_ok. Qed.

Lemma wf4_wd_a v i : wf4 v -> word_ok (wd (abits_ v) i).
Proof. intros. by apply wf4_wd. Qed.

Lemma wf4_wd_b v i : wf4 v -> word_ok (wd (bbits_ v) i).
Proof. intros. by apply wf4_wd. Qed.

#[export] Hint Resolve wf4_short wf4_wd_a wf4_wd_b : word_db.

Lemma tb_1_and x : Z.land x 1 = Z.b2z (tb x 0).
Proof.
  change 1 with (Z.ones 1). rewrite Z.land_ones by lia. unfold tb.
  change (2 ^ 1) with 2. by rewrite Zmod_odd, Z.bit0_odd; destruct (Z.odd x).
Qed.

Lemma bit4_cast_words a b off :
  (off < 64)%nat ->
  bit4_cast (w_shl (Z.land (w_shr b off) 1) 1 + Z.land (w_shr a off) 1) =
  bit4_of_ab (tb a off) (tb b off).
Proof.
  intros H. rewrite !tb_1_and, !tb_shr by lia. simpl.
  by destruct (tb a off), (tb b off).
Qed.

Lemma value_wsbit v idx :
  wf4 v -> (idx < size_ v)%nat ->
  value v idx = bit4_of_ab (wsbit (abits_ v) idx) (wsbit (bbits_ v) idx).
Proof.
  intros Hwf Hi. unfold value. rewrite (proj2 (Nat.leb_gt _ _)) by lia.
  destruct (Nat.ltb_spec 64 (size_ v)).
  - rewrite bit4_cast_words by (apply Nat.mod_upper_bound; lia). done.
  - rewrite bit4_cast_words by lia. by rewrite !wsbit_val by lia.
Qed.

Lemma value_ge v idx : (size_ v <= idx)%nat -> value v idx = BIT4_X.
Proof. intros H. unfold value. by rewrite (proj2 (Nat.leb_le _ _)). Qed.

Lemma length_bits v : length (bits v) = size_ v.
Proof. unfold bits. by rewrite length_map, length_seq. Qed.

Lemma lookup_bits v i : (i < size_ v)%nat -> bits v !! i = Some (value v i).
Proof.
  intros H. unfold bits. rewrite list_lookup_fmap, lookup_seq_lt by done. done.
Qed.

Lemma lookup_map_seq {A} (f : nat -> A) n i : (i < n)%nat -> map f (seq 0 n) !! i = Some (f i).
Proof. intros H. rewrite list_lookup_fmap, lookup_seq_lt by done. done. Qed.

(** The bits of an object, given value by value. *)
Lemma bits_eq v n (f : nat -> vvp_bit4_t) :
  size_ v = n -> (forall i, (i < n)%nat -> value v i = f i) -> bits v = map f (seq 0 n).
Proof.
  intros <- H. unfold bits. apply list_eq_same_length with (size_ v).
  - by rewrite length_map, length_seq.
  - by rewrite length_map, length_seq.
  - intros i x y Hi. rewrite !lookup_map_seq by done. intros [= <-] [= <-]. by apply H.
Qed.

Lemma bits_eq_list v (l : list vvp_bit4_t) :
  size_ v = length l -> (forall i, (i < size_ v)%nat -> l !! i = Some (value v i)) -> bits v = l.
Proof.
  intros Hl H. apply list_eq_same_length with (size_ v); [|by rewrite length_bits|].
  { done. }
  intros i x y Hi. rewrite lookup_bits, H by done. congruence.
Qed.

(** *** Words of built arrays *)

Lemma wd_map_seq (f : nat -> Z) n k : (k < n)%nat -> wd (map f (seq 0 n)) k = f k.
Proof. intros H. unfold wd. rewrite nth_lookup. by rewrite (lookup_map_seq f n k H). Qed.

Lemma wd_zip_with f (a b : list Z) k :
  (k < length a)%nat -> (k < length b)%nat -> wd (zip_with f a b) k = f (wd a k) (wd b k).
Proof.
  intros Ha Hb. apply lookup_lt_is_Some in Ha as [x Hx], Hb as [y Hy].
  unfold wd. by rewrite !nth_lookup, lookup_zip_with, Hx, Hy.
Qed.

Lemma wsbit_map_seq (f : nat -> Z) n i :
  (i < 64 * n)%nat -> wsbit (map f (seq 0 n)) i = tb (f (i `div` 64)%nat) (i `mod` 64)%nat.
Proof. intros H. unfold wsbit. rewrite wd_map_seq; [done|]. dlia. Qed.

Lemma wsbit_replicate n w i : (i < 64 * n)%nat -> wsbit (replicate n w) i = tb w (i `mod` 64)%nat.
Proof.
  intros H. unfold wsbit. rewrite wd_replicate, (proj2 (Nat.ltb_lt _ _)); [done|]. dlia.
Qed.

Lemma words_ok_zip_with f (a b : list Z) :
  (forall x y, word_ok x -> word_ok y -> word_ok (f x y)) ->
  words_ok a -> words_ok b -> words_ok (zip_with f a b).
Proof.
  intros Hf Ha. revert b. induction Ha; intros b Hb; [constructor|].
  destruct Hb; constructor; [auto|]. by apply IHHa.
Qed.

Lemma words_ok_map_seq (f : nat -> Z) l : (forall k, word_ok (f k)) -> words_ok (map f l).
Proof. intros H. apply Forall_forall. intros x (k & -> & _)%list_elem_of_fmap. auto. Qed.

(** The value of an object built from one word of each kind. *)
Lemma value_short n a b i :
  (n <= 64)%nat -> word_ok a -> word_ok b -> (i < n)%nat ->
  value (mk_vector4 n [a] [b]) i = bit4_of_ab (tb a i) (tb b i).
Proof.
  intros Hn Ha Hb Hi. rewrite value_wsbit by (auto with word_db).
  by rewrite !wsbit_val by (simpl; lia).
Qed.

Lemma value_long n a b i :
  (64 < n)%nat -> wf4 (mk_vector4 n a b) -> (i < n)%nat ->
  value (mk_vector4 n a b) i = bit4_of_ab (wsbit a i) (wsbit b i).
Proof. intros Hn Hwf Hi. by rewrite value_wsbit. Qed.

Lemma value_long_words v i :
  wf4 v -> (64 < size_ v)%nat -> (i < size_ v)%nat ->
  value v i = bit4_of_ab (tb (wd (abits_ v) (i `div` 64)) (i `mod` 64))
                         (tb (wd (bbits_ v) (i `div` 64)) (i `mod` 64)).
Proof. intros. by rewrite value_wsbit. Qed.

Lemma value_short_words v i :
  wf4 v -> (size_ v <= 64)%nat -> (i < size_ v)%nat ->
  value v i = bit4_of_ab (tb (abits_val_ v) i) (tb (bbits_val_ v) i).
Proof. intros. rewrite value_wsbit by done. by rewrite !wsbit_val by lia. Qed.

(** *** Construction *)

Lemma init_table_bits b i :
  (i < 64)%nat -> bit4_of_ab (tb (init_atable b) i) (tb (init_btable b) i) = b.
Proof.
  intros H. unfold init_atable, init_btable.
  destruct b; simpl; change WORD_1_ABITS with w_max; change WORD_X_ABITS with w_max;
    change WORD_X_BBITS with w_max; change WORD_Z_BBITS with w_max;
    unfold WORD_0_ABITS, WORD_0_BBITS, WORD_1_BBITS, WORD_Z_ABITS;
    rewrite ?tb_max, ?tb_0, ?(proj2 (Nat.ltb_lt _ _) H); done.
Qed.

Lemma init_table_ok b : word_ok (init_atable b) /\ word_ok (init_btable b).
Proof. destruct b; vm_compute; repeat split; congruence. Qed.

Lemma nwords_pos n : (0 < n)%nat -> (0 < nwords n)%nat.
Proof. pose proof (nwords_spec n). lia. Qed.

Lemma allocate_words_wf n a b : word_ok a -> word_ok b -> wf4 (allocate_words_ n a b).
Proof.
  intros Ha Hb. unfold allocate_words_. destruct (Nat.ltb_spec 64 n).
  - apply wf4_long; rewrite ?length_replicate; auto with word_db.
  - auto with word_db.
Qed.

Lemma allocate_words_value n a b i :
  word_ok a -> word_ok b -> (i < n)%nat ->
  value (allocate_words_ n a b) i = bit4_of_ab (tb a (i `mod` 64)) (tb b (i `mod` 64)).
Proof.
  intros Ha Hb Hi. pose proof (allocate_words_wf n a b Ha Hb) as Hwf. revert Hwf.
  unfold allocate_words_. destruct (Nat.ltb_spec 64 n); intros Hwf.
  - rewrite value_long by done. pose proof (nwords_spec n).
    by rewrite !wsbit_replicate by lia.
  - rewrite value_short by done. by rewrite Nat.mod_small by lia.
Qed.

Lemma size_fill n b : size_ (vector4_fill n b) = n.
Proof. unfold vector4_fill, allocate_words_. by destruct (64 <? n)%nat. Qed.

Lemma fill_wf n b : wf4 (vector4_fill n b).
Proof. apply allocate_words_wf; apply init_table_ok. Qed.

Lemma value_fill n b i : (i < n)%nat -> value (vector4_fill n b) i = b.
Proof.
  intros Hi. unfold vector4_fill.
  rewrite allocate_words_value by (done || apply init_table_ok).
  apply init_table_bits, Nat.mod_upper_bound. lia.
Qed.

Lemma bits_fill n b : bits (vector4_fill n b) = replicate n b.
Proof.
  apply bits_eq_list; rewrite size_fill; [by rewrite length_replicate|].
  intros i Hi. by rewrite value_fill, lookup_replicate_2.
Qed.

(** Copying an object gives an equal object. *)
Lemma map_wd_all ws n : length ws = n -> map (wd ws) (seq 0 n) = ws.
Proof.
  intros <-. apply list_eq_same_length with (length ws);
    [done|by rewrite length_map, length_seq|].
  intros i x y Hi. rewrite lookup_map_seq by done. intros [= <-].
  unfold wd. rewrite nth_lookup. by intros ->.
Qed.

Lemma copy_from_id v : wf4 v -> copy_from_ v = v.
Proof.
  intros (Ha & Hb & _). destruct v as [n a b]; simpl in *. unfold copy_from_; simpl.
  destruct (Nat.leb_spec n 64).
  - rewrite nstore_short in * by done. unfold abits_val_, bbits_val_; simpl.
    destruct a as [|? [|]], b as [|? [|]]; simplify_eq/=; done.
  - rewrite nstore_long in * by done. unfold copy_from_big_; simpl.
    by rewrite !map_wd_all.
Qed.

(** *** Bit assignment *)

Lemma tb_one_shl off i : (off < 64)%nat -> tb (w_shl 1 off) i = (i =? off)%nat.
Proof.
  intros H. rewrite tb_shl, tb_1 by done. split_ifs; simpl; try reflexivity; try lia.
Qed.

#[export] Hint Rewrite tb_one_shl using lia : word_bits.

Lemma set_bit_word_ok val m a b :
  word_ok m -> word_ok a -> word_ok b ->
  word_ok (fst (set_bit_word val m a b)) /\ word_ok (snd (set_bit_word val m a b)).
Proof. intros. destruct val; simpl; auto with word_db. Qed.

Lemma set_bit_word_bits val off a b i :
  (off < 64)%nat -> (i < 64)%nat ->
  bit4_of_ab (tb (fst (set_bit_word val (w_shl 1 off) a b)) i)
             (tb (snd (set_bit_word val (w_shl 1 off) a b)) i) =
  if (i =? off)%nat then val else bit4_of_ab (tb a i) (tb b i).
Proof.
  intros Ho Hi.
  destruct val; cbn [set_bit_word fst snd];
    rewrite ?tb_land, ?tb_lor, ?tb_not, !tb_one_shl by done;
    rewrite ?(proj2 (Nat.ltb_lt _ _) Hi); destruct (Nat.eqb_spec i off); simpl;
    rewrite ?orb_true_r, ?andb_false_r, ?orb_false_r, ?andb_true_r; done.
Qed.

Lemma set_bit_returns v idx val :
  wf4 v -> (idx < size_ v)%nat ->
  returns (set_bit v idx val) (fun r =>
    wf4 r /\ size_ r = size_ v /\
    forall i, value r i = if (i =? idx)%nat then val else value v i).
Proof.
  intros Hwf Hi. pose proof Hwf as (La & Lb & Oa & Ob). unfold set_bit.
  apply returns_assert; [by apply Nat.ltb_lt|].
  destruct (Nat.ltb_spec 64 (size_ v)) as [Hl|Hl].
  - set (k := (idx `div` 64)%nat). set (off := (idx `mod` 64)%nat).
    assert (off < 64)%nat by (apply Nat.mod_upper_bound; lia).
    destruct (set_bit_word val (w_shl 1 off) (wd (abits_ v) k) (wd (bbits_ v) k))
      as [a b] eqn:E.
    destruct (set_bit_word_ok val (w_shl 1 off) (wd (abits_ v) k) (wd (bbits_ v) k))
      as [Ha Hb]; auto with word_db.
    pose proof (set_bit_word_bits val off (wd (abits_ v) k) (wd (bbits_ v) k)) as Hbits.
    rewrite E in *; simpl in *. apply returns_ret.
    rewrite nstore_long in * by done. pose proof (nwords_spec (size_ v)).
    assert (Hwf' : wf4 (mk_vector4 (size_ v) (<[k:=a]> (abits_ v)) (<[k:=b]> (bbits_ v)))).
    { apply wf4_long; rewrite ?length_insert; auto with word_db. }
    split; [done|]. split; [done|]. intros i.
    destruct (Nat.ltb_spec i (size_ v)) as [Hii|Hii].
    2:{ rewrite !value_ge by (simpl; lia). split_ifs; [lia|done]. }
    rewrite value_long, !wsbit_insert by done.
    destruct (decide ((i `div` 64)%nat = k /\ (k < length (abits_ v))%nat)) as [[Hk _]|Hk].
    + rewrite decide_True by (split; [done|unfold k; dlia]).
      rewrite Hbits by (done || (apply Nat.mod_upper_bound; lia)).
      destruct (Nat.eqb_spec (i `mod` 64) off), (Nat.eqb_spec i idx); try done.
      * exfalso. unfold off, k in *. dlia.
      * exfalso. subst i. done.
      * rewrite value_wsbit by done. unfold wsbit. by rewrite Hk.
    + rewrite decide_False by (intros [? ?]; apply Hk; split; [done|unfold k; dlia]).
      rewrite <- value_wsbit by done. destruct (Nat.eqb_spec i idx) as [->|]; [|done].
      destruct Hk. split; [done|unfold k; dlia].
  - rewrite Nat.mod_small by lia.
    destruct (set_bit_word val (w_shl 1 idx) (abits_val_ v) (bbits_val_ v))
      as [a b] eqn:E.
    destruct (set_bit_word_ok val (w_shl 1 idx) (abits_val_ v) (bbits_val_ v))
      as [Ha Hb]; [auto with word_db..|].
    { by apply wf4_wd_a. }
    { by apply wf4_wd_b. }
    pose proof (set_bit_word_bits val idx (abits_val_ v) (bbits_val_ v)) as Hbits.
    rewrite E in *; simpl in *. apply returns_ret.
    split; [auto with word_db|]. split; [done|]. intros i.
    destruct (Nat.ltb_spec i (size_ v)) as [Hii|Hii].
    2:{ rewrite !value_ge by (simpl; lia). split_ifs; [lia|done]. }
    rewrite value_short, Hbits by (done || lia). by rewrite (value_short_words v).
Qed.

(** *** Bitwise operators *)

(** [f] computes [g] on every bit of the words. *)
Definition bitwise_as (f : Z -> Z -> Z -> Z -> Z * Z) (g : vvp_bit4_t -> vvp_bit4_t -> vvp_bit4_t) : Prop :=
  forall a b ta tb_,
    word_ok a -> word_ok b -> word_ok ta -> word_ok tb_ ->
    word_ok (fst (f a b ta tb_)) /\ word_ok (snd (f a b ta tb_)) /\
    forall i, (i < 64)%nat ->
      bit4_of_ab (tb (fst (f a b ta tb_)) i) (tb (snd (f a b ta tb_)) i) =
      g (bit4_of_ab (tb a i) (tb b i)) (bit4_of_ab (tb ta i) (tb tb_ i)).

Lemma and_words_as : bitwise_as and_words bit4_and.
Proof.
  intros a b ta tb_ Ha Hb Hta Htb. unfold and_words; simpl.
  split; [auto with word_db|]. split; [auto with word_db|]. intros i Hi.
  rewrite ?tb_land, ?tb_lor, ?tb_land, ?tb_lor.
  by destruct (tb a i), (tb b i), (tb ta i), (tb tb_ i).
Qed.

Lemma or_words_as : bitwise_as or_words bit4_or.
Proof.
  intros a b ta tb_ Ha Hb Hta Htb. unfold or_words; simpl.
  split; [auto 6 with word_db|]. split; [auto 8 with word_db|]. intros i Hi.
  rewrite !tb_lor, !tb_land, !tb_lor, !tb_not, (proj2 (Nat.ltb_lt _ _) Hi).
  by destruct (tb a i), (tb b i), (tb ta i), (tb tb_ i).
Qed.

Lemma bitwise_op_value f g v w :
  bitwise_as f g -> wf4 v -> wf4 w -> size_ w = size_ v ->
  wf4 (bitwise_op f v w) /\ size_ (bitwise_op f v w) = size_ v /\
  forall i, (i < size_ v)%nat -> value (bitwise_op f v w) i = g (value v i) (value w i).
Proof.
  intros Hfg Hv Hw Hs. unfold bitwise_op. destruct (Nat.leb_spec (size_ v) 64).
  - destruct (Hfg (abits_val_ v) (bbits_val_ v) (abits_val_ w) (bbits_val_ w))
      as (Ha & Hb & Hbits); try (by apply wf4_wd_a); try (by apply wf4_wd_b).
    destruct (f _ _ _ _) as [a b]; simpl in *.
    split; [auto with word_db|]. split; [done|]. intros i Hi.
    rewrite value_short, Hbits by (done || lia).
    by rewrite <- !value_short_words by (done || lia).
  - assert (Hok := fun k => Hfg _ _ _ _ (wf4_wd_a v k Hv) (wf4_wd_b v k Hv)
      (wf4_wd_a w k Hw) (wf4_wd_b w k Hw)).
    unfold bitwise_words. rewrite !map_map.
    match goal with |- wf4 ?r /\ _ => assert (wf4 r) as Hwf end.
    { apply wf4_long; rewrite ?length_map, ?length_seq; try done;
        apply words_ok_map_seq; intros k; apply Hok. }
    split; [done|]. split; [done|]. intros i Hi. pose proof (nwords_spec (size_ v)).
    rewrite value_long, !wsbit_map_seq by (done || lia).
    destruct (Hok (i `div` 64)%nat) as (_ & _ & Hbits).
    rewrite Hbits by (apply Nat.mod_upper_bound; lia).
    by rewrite <- !value_long_words by (done || lia).
Qed.

Lemma zip_with_bits (g : vvp_bit4_t -> vvp_bit4_t -> vvp_bit4_t) r v w :
  size_ w = size_ v -> size_ r = size_ v ->
  (forall i, (i < size_ v)%nat -> value r i = g (value v i) (value w i)) ->
  bits r = zip_with g (bits v) (bits w).
Proof.
  intros Hw Hr H. apply bits_eq_list; rewrite Hr.
  - rewrite length_zip_with, !length_bits. lia.
  - intros i Hi. rewrite lookup_zip_with, !lookup_bits by lia. simpl. by rewrite H.
Qed.

Lemma map_bits (g : vvp_bit4_t -> vvp_bit4_t) r v :
  size_ r = size_ v ->
  (forall i, (i < size_ v)%nat -> value r i = g (value v i)) -> bits r = map g (bits v).
Proof.
  intros Hr H. apply bits_eq_list; rewrite Hr.
  - by rewrite length_map, length_bits.
  - intros i Hi. rewrite list_lookup_fmap, lookup_bits by lia. simpl. by rewrite H.
Qed.

(** *** Inversion *)

Lemma length_invert_words n a b : length (invert_words n a b) = length a.
Proof. revert n b. induction a as [|x a IH]; intros n [|y b]; simpl; split_ifs; simpl; auto. Qed.

Lemma length_invert_in_place n a b : length (invert_in_place n a b) = length a.
Proof. revert n b. induction a as [|x a IH]; intros n [|y b]; simpl; split_ifs; simpl; auto. Qed.

Lemma invert_words_ok n a b : words_ok a -> words_ok b -> words_ok (invert_words n a b).
Proof.
  intros Ha. revert n b. induction Ha as [|x a Hx Ha IH]; intros n [|y b] Hb; simpl.
  - constructor.
  - constructor.
  - by constructor.
  - apply Forall_cons in Hb as [Hy Hb]. split_ifs; (constructor; [auto 8 with word_db|first [done|by apply IH]]).
Qed.

Lemma invert_in_place_ok n a b : words_ok a -> words_ok b -> words_ok (invert_in_place n a b).
Proof.
  intros Ha. revert n b. induction Ha as [|x a Hx Ha IH]; intros n [|y b] Hb; simpl.
  - constructor.
  - constructor.
  - by constructor.
  - apply Forall_cons in Hb as [Hy Hb]. split_ifs; (constructor; [auto 8 with word_db|first [done|by apply IH]]).
Qed.

Lemma wsbit_invert_words n a b i :
  (i < n)%nat -> (n <= 64 * length a)%nat -> length b = length a ->
  wsbit (invert_words n a b) i = wsbit b i || negb (wsbit a i).
Proof.
  revert n b i. induction a as [|x a IH]; intros n [|y b] i Hi Hn Hl; simpl in *; try lia.
  destruct (Nat.leb_spec 64 n).
  - destruct (decide (i < 64)%nat) as [Hlt|Hge].
    + rewrite !wsbit_cons_low, tb_lor, tb_not, (proj2 (Nat.ltb_lt _ _) Hlt) by done. done.
    + rewrite !wsbit_cons_high by lia. apply IH; lia.
  - rewrite (proj2 (Nat.ltb_lt _ _)) by lia.
    rewrite !wsbit_cons_low, tb_land, tb_lor, tb_not, tb_mask by lia.
    rewrite (proj2 (Nat.ltb_lt i 64)), (proj2 (Nat.ltb_lt i n)) by lia. done.
Qed.

Lemma wsbit_invert_in_place n a b i :
  (i < n)%nat -> (n <= 64 * length a)%nat -> length b = length a ->
  wsbit (invert_in_place n a b) i = negb (wsbit a i) || wsbit b i.
Proof.
  revert n b i. induction a as [|x a IH]; intros n [|y b] i Hi Hn Hl; simpl in *; try lia.
  destruct (Nat.leb_spec 64 n).
  - destruct (decide (i < 64)%nat) as [Hlt|Hge].
    + rewrite !wsbit_cons_low, tb_lor, tb_not, (proj2 (Nat.ltb_lt _ _) Hlt) by done. done.
    + rewrite !wsbit_cons_high by lia. apply IH; lia.
  - rewrite (proj2 (Nat.ltb_lt _ _)) by lia.
    rewrite !wsbit_cons_low, tb_lor, tb_land, tb_not, tb_mask by lia.
    rewrite (proj2 (Nat.ltb_lt i 64)), (proj2 (Nat.ltb_lt i n)) by lia. done.
Qed.

Lemma bit4_not_ab a b : bit4_of_ab (b || negb a) b = bit4_not (bit4_of_ab a b).
Proof. by destruct a, b. Qed.

Lemma bit4_not_ab' a b : bit4_of_ab (negb a || b) b = bit4_not (bit4_of_ab a b).
Proof. by destruct a, b. Qed.

(** The mask of the short case. *)
Lemma short_mask_bits n i :
  (n <= 64)%nat -> (i < n)%nat -> tb (if (n <? 64)%nat then w_mask n else w_max) i = true.
Proof.
  intros Hn Hi. destruct (Nat.ltb_spec n 64).
  - rewrite tb_mask by done. by apply Nat.ltb_lt.
  - rewrite tb_max. apply Nat.ltb_lt. lia.
Qed.

Lemma short_mask_ok n : word_ok (if (n <? 64)%nat then w_mask n else w_max).
Proof. destruct (n <? 64)%nat; auto with word_db. Qed.

#[export] Hint Resolve short_mask_ok : word_db.

Lemma copy_inverted_value v :
  wf4 v -> wf4 (copy_inverted_from_ v) /\ size_ (copy_inverted_from_ v) = size_ v /\
  forall i, (i < size_ v)%nat -> value (copy_inverted_from_ v) i = bit4_not (value v i).
Proof.
  intros Hv. pose proof Hv as (La & Lb & Oa & Ob). unfold copy_inverted_from_.
  destruct (Nat.ltb_spec 64 (size_ v)).
  - rewrite nstore_long in * by done. pose proof (nwords_spec (size_ v)).
    match goal with |- wf4 ?r /\ _ => assert (wf4 r) as Hwf end.
    { apply wf4_long; rewrite ?length_invert_words; auto using invert_words_ok. }
    split; [done|]. split; [done|]. intros i Hi.
    rewrite value_long, wsbit_invert_words, bit4_not_ab by (done || lia).
    by rewrite <- value_wsbit.
  - pose proof (wf4_wd_a v 0 Hv) as Ha. pose proof (wf4_wd_b v 0 Hv) as Hb.
    fold (abits_val_ v) in Ha. fold (bbits_val_ v) in Hb.
    split; [auto with word_db|]. split; [done|]. intros i Hi.
    rewrite value_short by (auto with word_db).
    rewrite tb_land, short_mask_bits, tb_lor, tb_not, (proj2 (Nat.ltb_lt i 64)) by lia.
    simpl. rewrite bit4_not_ab. by rewrite <- value_short_words by (done || lia).
Qed.

Lemma invert_value v :
  wf4 v -> wf4 (invert v) /\ size_ (invert v) = size_ v /\
  forall i, (i < size_ v)%nat -> value (invert v) i = bit4_not (value v i).
Proof.
  intros Hv. pose proof Hv as (La & Lb & Oa & Ob). unfold invert.
  destruct (Nat.leb_spec (size_ v) 64).
  - pose proof (wf4_wd_a v 0 Hv) as Ha. pose proof (wf4_wd_b v 0 Hv) as Hb.
    fold (abits_val_ v) in Ha. fold (bbits_val_ v) in Hb.
    split; [auto with word_db|]. split; [done|]. intros i Hi.
    rewrite value_short by (auto with word_db).
    rewrite tb_lor, tb_land, short_mask_bits, tb_not, (proj2 (Nat.ltb_lt i 64)) by lia.
    simpl. rewrite bit4_not_ab'. by rewrite <- value_short_words by (done || lia).
  - rewrite nstore_long in * by done. pose proof (nwords_spec (size_ v)).
    match goal with |- wf4 ?r /\ _ => assert (wf4 r) as Hwf end.
    { apply wf4_long; rewrite ?length_invert_in_place; auto using invert_in_place_ok. }
    split; [done|]. split; [done|]. intros i Hi.
    rewrite value_long, wsbit_invert_in_place, bit4_not_ab' by (done || lia).
    by rewrite <- value_wsbit.
Qed.

Lemma change_z2x_value v :
  wf4 v -> wf4 (change_z2x v) /\ size_ (change_z2x v) = size_ v /\
  forall i, (i < size_ v)%nat -> value (change_z2x v) i = bit4_z2x (value v i).
Proof.
  intros Hv. pose proof Hv as (La & Lb & Oa & Ob). unfold change_z2x.
  assert (Hz : forall a b, bit4_of_ab (a || b) b = bit4_z2x (bit4_of_ab a b)).
  { intros a b. by destruct a, b. }
  destruct (Nat.leb_spec (size_ v) 64).
  - pose proof (wf4_wd_a v 0 Hv) as Ha. pose proof (wf4_wd_b v 0 Hv) as Hb.
    fold (abits_val_ v) in Ha. fold (bbits_val_ v) in Hb.
    split; [auto with word_db|]. split; [done|]. intros i Hi.
    rewrite value_short, tb_lor, Hz by (auto with word_db).
    by rewrite <- value_short_words by (done || lia).
  - rewrite nstore_long in * by done. pose proof (nwords_spec (size_ v)).
    match goal with |- wf4 ?r /\ _ => assert (wf4 r) as Hwf end.
    { apply wf4_long; try done.
      - rewrite length_zip_with. lia.
      - by apply words_ok_zip_with; [intros; auto with word_db|..]. }
    split; [done|]. split; [done|]. intros i Hi.
    rewrite value_long by done. unfold wsbit at 1.
    rewrite wd_zip_with, tb_lor by dlia. rewrite Hz. by rewrite <- value_long_words.
Qed.

Lemma set_to_x_value v :
  wf4 v -> wf4 (set_to_x v) /\ bits (set_to_x v) = replicate (size_ v) BIT4_X.
Proof.
  intros Hv. replace (set_to_x v) with (vector4_fill (size_ v) BIT4_X).
  - split; [apply fill_wf|apply bits_fill].
  - unfold vector4_fill, allocate_words_, set_to_x.
    destruct (Nat.ltb_spec 64 (size_ v)), (Nat.leb_spec (size_ v) 64); done || lia.
Qed.

(** *** Comparisons *)

Lemma land_mask_eq n x y :
  (n < 64)%nat -> word_ok x -> word_ok y ->
  (Z.land x (w_mask n) = Z.land y (w_mask n) <-> forall i, (i < n)%nat -> tb x i = tb y i).
Proof.
  intros Hn Hx Hy. split.
  - intros H i Hi. apply (f_equal (fun z => tb z i)) in H. revert H.
    rewrite !tb_land, tb_mask, (proj2 (Nat.ltb_lt _ _) Hi), !andb_true_r by done. done.
  - intros H. apply tb_ext; [auto with word_db..|]. intros i Hi.
    rewrite !tb_land, tb_mask by done. destruct (Nat.ltb_spec i n).
    + by rewrite H.
    + by rewrite !andb_false_r.
Qed.

Lemma word_eq_bits x y :
  word_ok x -> word_ok y -> (x = y <-> forall i, (i < 64)%nat -> tb x i = tb y i).
Proof. intros Hx Hy. split; [by intros ->|]. by apply tb_ext. Qed.

(** Agreement of two word functions on the bits of a long vector: whole words,
    then the masked tail. *)
Lemma words_agree (f g : nat -> Z) n :
  (forall k, word_ok (f k)) -> (forall k, word_ok (g k)) ->
  ((forall k, (k < n `div` 64)%nat -> f k = g k) /\
   ((0 < n `mod` 64)%nat ->
      Z.land (f (n `div` 64)%nat) (w_mask (n `mod` 64)) =
      Z.land (g (n `div` 64)%nat) (w_mask (n `mod` 64)))) <->
  (forall i, (i < n)%nat -> tb (f (i `div` 64)%nat) (i `mod` 64) = tb (g (i `div` 64)%nat) (i `mod` 64)).
Proof.
  intros Hf Hg. assert (n `mod` 64 < 64)%nat as Hmod by (apply Nat.mod_upper_bound; lia).
  rewrite land_mask_eq by done. split.
  - intros [H1 H2] i Hi. destruct (decide (i `div` 64 < n `div` 64)%nat) as [Hlt|Hge].
    + by rewrite H1.
    + replace (i `div` 64)%nat with (n `div` 64)%nat by dlia. apply H2; dlia.
  - intros H. split.
    + intros k Hk. apply tb_ext; [done..|]. intros i Hi.
      specialize (H (64 * k + i)%nat ltac:(dlia)).
      replace ((64 * k + i) `div` 64)%nat with k in H by dlia.
      by replace ((64 * k + i) `mod` 64)%nat with i in H by dlia.
    + intros Hpos i Hi. specialize (H (64 * (n `div` 64) + i)%nat ltac:(dlia)).
      replace ((64 * (n `div` 64) + i) `div` 64)%nat with (n `div` 64)%nat in H by dlia.
      by replace ((64 * (n `div` 64) + i) `mod` 64)%nat with i in H by dlia.
Qed.

Lemma forallb_seq (p : nat -> bool) n :
  forallb p (seq 0 n) = true <-> forall k, (k < n)%nat -> p k = true.
Proof.
  rewrite forallb_forall. split.
  - intros H k Hk. apply H, in_seq. lia.
  - intros H k Hk%in_seq. apply H. lia.
Qed.

Lemma existsb_seq (p : nat -> bool) n :
  existsb p (seq 0 n) = negb (forallb (fun k => negb (p k)) (seq 0 n)).
Proof. induction (seq 0 n) as [|k l IH]; simpl; [done|]. rewrite IH. by destruct (p k). Qed.

(** The comparison loop of [eeq] and [eq_xz] on two pairs of word functions. *)
Definition words_cmp (n : nat) (f f' g g' : nat -> Z) : bool :=
  let words := (n / 64)%nat in
  forallb (fun k => (f k =? f' k) && (g k =? g' k)) (seq 0 words) &&
  if (0 <? n mod 64)%nat then
    (Z.land (f words) (w_mask (n mod 64)) =? Z.land (f' words) (w_mask (n mod 64))) &&
    (Z.land (g words) (w_mask (n mod 64)) =? Z.land (g' words) (w_mask (n mod 64)))
  else true.

Lemma words_cmp_spec n f f' g g' :
  (forall k, word_ok (f k)) -> (forall k, word_ok (f' k)) ->
  (forall k, word_ok (g k)) -> (forall k, word_ok (g' k)) ->
  words_cmp n f f' g g' = true <->
  forall i, (i < n)%nat ->
    tb (f (i `div` 64)%nat) (i `mod` 64) = tb (f' (i `div` 64)%nat) (i `mod` 64) /\
    tb (g (i `div` 64)%nat) (i `mod` 64) = tb (g' (i `div` 64)%nat) (i `mod` 64).
Proof.
  intros Hf Hf' Hg Hg'. unfold words_cmp. rewrite andb_true_iff, forallb_seq.
  pose proof (words_agree f f' n Hf Hf') as A1. pose proof (words_agree g g' n Hg Hg') as A2.
  transitivity ((forall i, (i < n)%nat ->
      tb (f (i `div` 64)%nat) (i `mod` 64) = tb (f' (i `div` 64)%nat) (i `mod` 64)) /\
    (forall i, (i < n)%nat ->
      tb (g (i `div` 64)%nat) (i `mod` 64) = tb (g' (i `div` 64)%nat) (i `mod` 64))).
  2:{ split; [intros [? ?]; auto|]. intros H. split; intros i Hi; by apply H. }
  rewrite <- A1, <- A2. clear A1 A2.
  destruct (Nat.ltb_spec 0 (n `mod` 64)).
  - rewrite andb_true_iff, !Z.eqb_eq. split.
    + intros [H1 [H2 H3]]. split; split; auto; intros k Hk;
        specialize (H1 k Hk); apply andb_true_iff in H1; rewrite !Z.eqb_eq in H1; apply H1.
    + intros [[H1 H2] [H3 H4]]. split; [|auto]. intros k Hk.
      apply andb_true_iff; rewrite !Z.eqb_eq. auto.
  - split.
    + intros [H1 _]. split; (split; [|lia]); intros k Hk;
        specialize (H1 k Hk); apply andb_true_iff in H1; rewrite !Z.eqb_eq in H1; apply H1.
    + intros [[H1 _] [H3 _]]. split; [|done]. intros k Hk.
      apply andb_true_iff; rewrite !Z.eqb_eq. auto.
Qed.

Lemma eeq_bits v w :
  wf4 v -> wf4 w ->
  eeq v w = true <-> size_ v = size_ w /\
    forall i, (i < size_ v)%nat ->
      wsbit (abits_ v) i = wsbit (abits_ w) i /\ wsbit (bbits_ v) i = wsbit (bbits_ w) i.
Proof.
  intros Hv Hw. unfold eeq.
  destruct (Nat.eqb_spec (size_ v) (size_ w)) as [Hs|Hs]; simpl; [|by split; [|intros [? _]]].
  assert (forall P : Prop, (size_ v = size_ w /\ P) <-> P) as -> by tauto.
  destruct (Nat.ltb_spec (size_ v) 64); [|destruct (Nat.eqb_spec (size_ v) 64)].
  - rewrite andb_true_iff, !Z.eqb_eq, !land_mask_eq by (done || by apply wf4_wd_a || by apply wf4_wd_b).
    split.
    + intros [H1 H2] i Hi. rewrite !wsbit_val by lia. auto.
    + intros H'. split; intros i Hi; destruct (H' i Hi) as [A B]; revert A B;
        rewrite !wsbit_val by lia; auto.
  - rewrite andb_true_iff, !Z.eqb_eq, !word_eq_bits by (by apply wf4_wd_a || by apply wf4_wd_b).
    split.
    + intros [H1 H2] i Hi. rewrite !wsbit_val by lia. split; [apply H1|apply H2]; lia.
    + intros H'. split; intros i Hi; destruct (H' i ltac:(lia)) as [A B]; revert A B;
        rewrite !wsbit_val by lia; auto.
  - apply (words_cmp_spec (size_ v) (wd (abits_ v)) (wd (abits_ w)) (wd (bbits_ v)) (wd (bbits_ w)));
      intros k; by apply wf4_wd_a || by apply wf4_wd_b.
Qed.

Lemma bits_ext v w :
  bits v = bits w <->
  size_ v = size_ w /\ forall i, (i < size_ v)%nat -> value v i = value w i.
Proof.
  split.
  - intros H. assert (size_ v = size_ w) as Hs by (by rewrite <- !length_bits, H).
    split; [done|]. intros i Hi. apply (f_equal (fun l => l !! i)) in H.
    rewrite !lookup_bits in H by lia. congruence.
  - intros [Hs H]. unfold bits at 2. rewrite <- Hs. by apply bits_eq.
Qed.

Lemma eeq_spec v w : wf4 v -> wf4 w -> (eeq v w = true <-> bits v = bits w).
Proof.
  intros Hv Hw. rewrite eeq_bits, bits_ext by done.
  split; intros [Hs H]; (split; [done|]); intros i Hi; specialize (H i Hi); revert H;
    rewrite !value_wsbit, bit4_of_ab_inj by (done || lia); done.
Qed.

Lemma z2x_ab a b a' b' :
  bit4_z2x (bit4_of_ab a b) = bit4_z2x (bit4_of_ab a' b') <->
  a || b = a' || b' /\ b = b'.
Proof. split; [by destruct a, b, a', b'|]. intros [? ?]. by destruct a, b, a', b'. Qed.

(** [eq_xz] is [eeq] of the vectors with their bbits or-ed into the abits. *)
Lemma eq_xz_z2x v w : wf4 v -> wf4 w -> eq_xz v w = eeq (change_z2x v) (change_z2x w).
Proof.
  intros Hv Hw. pose proof (nwords_spec (size_ v)). unfold eq_xz, eeq, change_z2x, words_cmp.
  destruct (Nat.eqb_spec (size_ v) (size_ w)) as [Hs|Hs].
  2:{ destruct (size_ v <=? 64)%nat, (size_ w <=? 64)%nat; simpl;
        by rewrite (proj2 (Nat.eqb_neq _ _) Hs). }
  rewrite <- Hs. destruct (Nat.leb_spec (size_ v) 64); cbn [size_ abits_ bbits_];
    rewrite Nat.eqb_refl; cbn [negb].
  - destruct (Nat.ltb_spec (size_ v) 64); [done|].
    by rewrite (proj2 (Nat.eqb_eq (size_ v) 64)) by lia.
  - rewrite (proj2 (Nat.ltb_ge (size_ v) 64)), (proj2 (Nat.eqb_neq (size_ v) 64)) by lia.
    destruct Hv as (La & Lb & _), Hw as (La' & Lb' & _).
    rewrite <- Hs in *. rewrite nstore_long in * by done.
    f_equal.
    + apply Bool.eq_iff_eq_true. rewrite !forallb_seq.
      split; intros H' k Hk; specialize (H' k Hk); revert H';
        rewrite !wd_zip_with by dlia; done.
    + destruct (Nat.ltb_spec 0 (size_ v `mod` 64)); [|done]. by rewrite !wd_zip_with by dlia.
Qed.

Lemma has_xz_false v :
  wf4 v -> (0 < size_ v)%nat ->
  has_xz v = false <-> forall i, (i < size_ v)%nat -> wsbit (bbits_ v) i = false.
Proof.
  intros Hv Hpos. unfold has_xz.
  assert (Hm : forall n, (0 < n < 64)%nat -> w_shr w_max (64 - n) = w_mask n).
  { intros n Hn. apply tb_ext; [auto with word_db..|]. intros i Hi.
    rewrite tb_shr, tb_max, tb_mask by lia. split_ifs; done || lia. }
  assert (Hz : forall n x, (n < 64)%nat -> word_ok x ->
    (Z.land x (w_mask n) =? 0) = true <-> forall i, (i < n)%nat -> tb x i = false).
  { intros n x Hn Hx. rewrite Z.eqb_eq.
    rewrite <- (Z.land_0_l (w_mask n)), land_mask_eq by auto with word_db.
    split; intros H' i Hi; rewrite H' by done; by rewrite tb_0. }
  destruct (Nat.ltb_spec (size_ v) 64); [|destruct (Nat.eqb_spec (size_ v) 64)].
  - rewrite Hm, negb_false_iff, Hz by (lia || by apply wf4_wd_b).
    split; intros H' i Hi; specialize (H' i Hi); revert H'; by rewrite wsbit_val by lia.
  - rewrite negb_false_iff, Z.eqb_eq, word_eq_bits by (apply word_ok_0 || by apply wf4_wd_b).
    split; intros H' i Hi; specialize (H' i ltac:(lia)); revert H'; rewrite wsbit_val, tb_0 by lia; done.
  - rewrite orb_false_iff, existsb_seq, negb_false_iff, forallb_seq.
    pose proof (words_agree (wd (bbits_ v)) (fun _ => 0) (size_ v)
      (fun k => wf4_wd_b v k Hv) (fun _ => word_ok_0)) as A.
    transitivity (forall i, (i < size_ v)%nat ->
      tb (wd (bbits_ v) (i `div` 64)) (i `mod` 64) = tb 0 (i `mod` 64)).
    2:{ unfold wsbit. split; intros H' i Hi; rewrite H' by done; by rewrite tb_0. }
    rewrite <- A. clear A. apply and_iff_cong.
    + split; intros H' k Hk; specialize (H' k Hk); rewrite negb_involutive, Z.eqb_eq in *; done.
    + destruct (Nat.ltb_spec 0 (size_ v `mod` 64)).
      * assert (size_ v `mod` 64 < 64)%nat by (apply Nat.mod_upper_bound; lia).
        rewrite Hm, negb_false_iff, Z.eqb_eq, Z.land_0_l by lia. split; auto.
      * split; [lia|done].
Qed.

Lemma list_has_xz_false l :
  list_has_xz l = false <-> forall i x, l !! i = Some x -> bit4_is_xz x = false.
Proof.
  unfold list_has_xz. induction l as [|y l IH]; simpl.
  - split; [|done]. intros _ i x. by rewrite lookup_nil.
  - rewrite orb_false_iff, IH. split.
    + intros [H1 H2] [|i] x; simpl; [intros [= <-]; done|apply H2].
    + intros H. split; [by apply (H O)|]. intros i x Hx. by apply (H (S i)).
Qed.

Lemma has_xz_spec v : wf4 v -> (0 < size_ v)%nat -> has_xz v = list_has_xz (bits v).
Proof.
  intros Hv Hpos. destruct (has_xz v) eqn:E; symmetry.
  - apply not_false_iff_true. intros H. apply not_false_iff_true in E. apply E.
    apply has_xz_false; [done..|]. intros i Hi. rewrite list_has_xz_false in H.
    specialize (H i _ (lookup_bits v i Hi)). revert H.
    by rewrite value_wsbit, bit4_is_xz_bbit, bit4_of_ab_bbit by done.
  - apply list_has_xz_false. intros i x Hx.
    assert (i < size_ v)%nat as Hi by (rewrite <- length_bits; by eapply lookup_lt_Some).
    rewrite lookup_bits in Hx by done. injection Hx as <-.
    rewrite value_wsbit, bit4_is_xz_bbit, bit4_of_ab_bbit by done.
    by eapply has_xz_false.
Qed.

(** *** Text *)

Lemma as_string_digits_spec v idx n len :
  Z.of_nat n + 1 <= len < 2 ^ 64 ->
  as_string_digits v idx n len =
  map (fun k => vvp_bit4_to_ascii (value v (size_ v - k - 1))) (seq idx n).
Proof.
  revert idx len. induction n as [|n IH]; intros idx len Hlen; [done|].
  cbn [as_string_digits seq map]. rewrite (proj2 (Z.leb_le 2 len)) by lia.
  f_equal. apply IH. unfold w_sub. rewrite w_wrap_id by (unfold word_ok; lia). lia.
Qed.

Lemma length_as_string_digits v idx n len :
  1 <= len < 2 ^ 64 ->
  Z.of_nat (length (as_string_digits v idx n len)) = Z.min (Z.of_nat n) (len - 1).
Proof.
  revert idx len. induction n as [|n IH]; intros idx len Hlen; cbn [as_string_digits]; [simpl; lia|].
  destruct (Z.leb_spec 2 len); [|simpl; lia].
  cbn [length]. rewrite Nat2Z.inj_succ, IH; unfold w_sub;
    rewrite w_wrap_id by (unfold word_ok; lia); lia.
Qed.

Lemma bits_chars_map v :
  map (fun k => vvp_bit4_to_ascii (value v (size_ v - k - 1))) (seq 0 (size_ v)) = bits_chars (bits v).
Proof.
  apply list_eq_same_length with (size_ v).
  - unfold bits_chars. by rewrite length_map, length_reverse, length_bits.
  - by rewrite length_map, length_seq.
  - intros i x y Hi. rewrite lookup_map_seq by done. intros [= <-]. unfold bits_chars.
    rewrite list_lookup_fmap, reverse_lookup, length_bits by (by rewrite length_bits).
    rewrite lookup_bits by lia. simpl. intros [= <-]. do 2 f_equal. lia.
Qed.

Lemma as_string_full v L :
  Z.of_nat (size_ v) + 4 <= L < 2 ^ 64 ->
  as_string v L = ["C"; "4"; "<"]%char ++ bits_chars (bits v) ++ [">"]%char.
Proof.
  intros HL. unfold as_string, w_sub. rewrite w_wrap_id by (unfold word_ok; lia).
  by rewrite as_string_digits_spec, bits_chars_map by lia.
Qed.

Lemma strspn_bits_chars l rest :
  strspn_01xz (bits_chars l ++ ">"%char :: rest) = length l.
Proof.
  unfold bits_chars. rewrite <- (length_reverse l). generalize (reverse l). clear l.
  intros l. induction l as [|b l IH]; [done|]. simpl. rewrite IH. by destruct b.
Qed.

Lemma char_at_app_r l c rest : char_at (l ++ c :: rest) (length l) = c.
Proof. unfold char_at. rewrite app_nth2, Nat.sub_diag by lia. done. Qed.

Lemma bit4_of_char_ascii b : bit4_of_char (vvp_bit4_to_ascii b) = Some b.
Proof. by destruct b. Qed.

Lemma char_at_bits_chars l rest idx b :
  reverse l !! idx = Some b ->
  char_at (bits_chars l ++ rest) idx = vvp_bit4_to_ascii b.
Proof.
  intros H. unfold char_at. rewrite nth_lookup, lookup_app_l.
  - unfold bits_chars. by rewrite list_lookup_fmap, H.
  - unfold bits_chars. rewrite length_map. by eapply lookup_lt_Some.
Qed.

Lemma c4string_parse (l : list vvp_bit4_t) :
  returns (c4string_to_vector4 (["C"; "4"; "<"]%char ++ bits_chars l ++ [">"]%char))
    (fun r => wf4 r /\ bits r = l).
Proof.
  unfold c4string_to_vector4. apply returns_assert; [done|].
  change (drop 3 _) with (bits_chars l ++ [">"%char]).
  rewrite strspn_bits_chars. apply returns_assert.
  { replace (length l) with (length (bits_chars l)); [by rewrite char_at_app_r|].
    unfold bits_chars. by rewrite length_map, length_reverse. }
  rewrite size_fill.
  eapply returns_mono.
  { apply (returns_for (fun k t => wf4 t /\ size_ t = length l /\
      forall i, (length l - k <= i < length l)%nat -> Some (value t i) = l !! i)).
    - split; [apply fill_wf|]. split; [apply size_fill|]. intros i Hi. lia.
    - intros k t Hk (Hwf & Hsz & Hv).
      destruct (lookup_lt_is_Some_2 l (length l - k - 1) ltac:(lia)) as [b Hb].
      rewrite (char_at_bits_chars _ _ _ b)
        by (rewrite reverse_lookup by lia; rewrite <- Hb; f_equal; lia).
      rewrite bit4_of_char_ascii. cbn [mbind option_bind].
      eapply returns_mono; [apply set_bit_returns; [done|lia]|].
      intros r (Hwf' & Hsz' & Hv'). rewrite Hsz in *. split; [done|]. split; [done|].
      intros i Hi. rewrite Hv'. destruct (Nat.eqb_spec i (length l - k - 1)) as [->|Hne]; [done|].
      apply Hv. lia. }
  intros r (Hwf & Hsz & Hv). split; [done|].
  apply bits_eq_list; [done|]. intros i Hi. symmetry. apply Hv. lia.
Qed.

Lemma c4string_test_chars (l : list vvp_bit4_t) :
  c4string_test (["C"; "4"; "<"]%char ++ bits_chars l ++ [">"]%char) = true.
Proof.
  unfold c4string_test.
  change (take 3 _) with ["C"; "4"; "<"]%char. rewrite bool_decide_eq_true_2 by done.
  change (drop 3 _) with (bits_chars l ++ [">"%char]).
  rewrite strspn_bits_chars. cbn [negb].
  assert (length l = length (bits_chars l)) as ->
    by (unfold bits_chars; by rewrite length_map, length_reverse).
  change (_ ++ bits_chars l ++ _) with ("C" :: "4" :: "<" :: (bits_chars l ++ [">"]))%char.
  change (char_at _ (3 + length (bits_chars l)))
    with (char_at (bits_chars l ++ [">"]%char) (length (bits_chars l))).
  rewrite char_at_app_r. cbn [Ascii.eqb Bool.eqb].
  unfold char_at. rewrite nth_overflow; [done|].
  cbn [length]. rewrite length_app. simpl. lia.
Qed.

(** ** Properties *)

(** The word-level [&=], [|=], [~] (with the copy and in place) and
    [change_z2x] compute the four-valued operators on every bit of the vector,
    whatever the words hold beyond its size, and keep the object well formed. *)
Theorem vector4_bitwise v w :
  wf4 v -> wf4 w -> size_ w = size_ v ->
  (wf4 (vector4_and v w) /\ bits (vector4_and v w) = zip_with bit4_and (bits v) (bits w)) /\
  (wf4 (vector4_or v w) /\ bits (vector4_or v w) = zip_with bit4_or (bits v) (bits w)) /\
  (wf4 (copy_inverted_from_ v) /\ bits (copy_inverted_from_ v) = map bit4_not (bits v)) /\
  (wf4 (invert v) /\ bits (invert v) = map bit4_not (bits v)) /\
  (wf4 (change_z2x v) /\ bits (change_z2x v) = map bit4_z2x (bits v)) /\
  (wf4 (set_to_x v) /\ bits (set_to_x v) = replicate (size_ v) BIT4_X).
Proof.
  intros Hv Hw Hs.
  destruct (bitwise_op_value _ _ v w and_words_as Hv Hw Hs) as (? & ? & ?).
  destruct (bitwise_op_value _ _ v w or_words_as Hv Hw Hs) as (? & ? & ?).
  destruct (copy_inverted_value v Hv) as (? & ? & ?), (invert_value v Hv) as (? & ? & ?),
    (change_z2x_value v Hv) as (? & ? & ?), (set_to_x_value v Hv) as (? & ?).
  split_and!; try done; solve [by apply zip_with_bits|by apply map_bits].
Qed.

(** An X and a Z vector of 70 bits. *)
Lemma vector4_bitwise_witness :
  let v := vector4_fill 70 BIT4_X in let w := vector4_fill 70 BIT4_0 in
  bits (vector4_and v w) = replicate 70 BIT4_0 /\ bits (vector4_or v w) = replicate 70 BIT4_X.
Proof.
  destruct (vector4_bitwise (vector4_fill 70 BIT4_X) (vector4_fill 70 BIT4_0)
    (fill_wf _ _) (fill_wf _ _) eq_refl) as ((_ & H1) & (_ & H2) & _).
  split; [rewrite H1|rewrite H2]; vm_compute; reflexivity.
Defined.

(** Construction, bit assignment and bit reading agree: a filled vector has
    the fill bit everywhere, [set_bit] at an index below the size succeeds and
    changes that bit only, it fails its assertion at any other index, and
    reading beyond the size gives X. *)
Theorem vector4_set_bit v idx b :
  wf4 v ->
  (forall n c, wf4 (vector4_fill n c) /\ bits (vector4_fill n c) = replicate n c) /\
  ((idx < size_ v)%nat ->
     returns (set_bit v idx b) (fun r =>
       wf4 r /\ size_ r = size_ v /\ bits r = <[idx := b]> (bits v) /\ value r idx = b)) /\
  ((size_ v <= idx)%nat -> set_bit v idx b = None /\ value v idx = BIT4_X).
Proof.
  intros Hv. split; [|split].
  - intros n c. split; [apply fill_wf|apply bits_fill].
  - intros Hi. eapply returns_mono; [by apply set_bit_returns|].
    intros r (Hr & Hs & Hval). split; [done|]. split; [done|].
    split; [|by rewrite Hval, Nat.eqb_refl].
    apply bits_eq_list; [by rewrite length_insert, length_bits|].
    intros i Hii. rewrite Hval. destruct (Nat.eqb_spec i idx) as [->|Hne].
    + rewrite list_lookup_insert_eq; [done|]. by rewrite length_bits.
    + rewrite list_lookup_insert_ne by done. apply lookup_bits. lia.
  - intros Hi. unfold set_bit. rewrite (proj2 (Nat.ltb_ge idx (size_ v))) by done.
    split; [done|]. by apply value_ge.
Qed.

Lemma vector4_set_bit_witness :
  returns (set_bit (vector4_fill 100 BIT4_Z) 64 BIT4_1) (fun r => value r 64 = BIT4_1) /\
  set_bit (vector4_fill 3 BIT4_Z) 3 BIT4_1 = None.
Proof.
  split.
  - eapply returns_mono;
      [apply (proj1 (proj2 (vector4_set_bit (vector4_fill 100 BIT4_Z) 64 BIT4_1 (fill_wf _ _)))); simpl; lia|].
    intros r (_ & _ & _ & H). exact H.
  - apply (proj2 (proj2 (vector4_set_bit (vector4_fill 3 BIT4_Z) 3 BIT4_1 (fill_wf _ _)))). simpl. lia.
Defined.

(** [eeq] decides equality of the bits, [eq_xz] equality up to confusing X
    with Z, and [has_xz] the presence of an unknown bit (in a vector that is not
    empty: for the empty one the mask of the source is an undefined shift). *)
Theorem vector4_compare v w :
  wf4 v -> wf4 w ->
  (eeq v w = true <-> bits v = bits w) /\
  (eq_xz v w = true <-> map bit4_z2x (bits v) = map bit4_z2x (bits w)) /\
  ((0 < size_ v)%nat -> has_xz v = list_has_xz (bits v)).
Proof.
  intros Hv Hw. split; [by apply eeq_spec|]. split; [|by apply has_xz_spec].
  rewrite eq_xz_z2x by done.
  destruct (change_z2x_value v Hv) as (? & ? & ?), (change_z2x_value w Hw) as (? & ? & ?).
  rewrite eeq_spec by done.
  by rewrite (map_bits bit4_z2x (change_z2x v) v), (map_bits bit4_z2x (change_z2x w) w).
Qed.

Lemma vector4_compare_witness :
  eq_xz (vector4_fill 65 BIT4_X) (vector4_fill 65 BIT4_Z) = true /\
  eeq (vector4_fill 65 BIT4_X) (vector4_fill 65 BIT4_Z) = false.
Proof.
  destruct (vector4_compare (vector4_fill 65 BIT4_X) (vector4_fill 65 BIT4_Z)
    (fill_wf _ _) (fill_wf _ _)) as (H1 & H2 & _).
  split; [apply H2; vm_compute; reflexivity|].
  apply not_true_is_false. intros H. apply H1 in H. vm_compute in H. discriminate.
Defined.

(** C39: printing a vector as a [C4<>] string and reading it back gives the same
    bits: with a buffer that is large enough, the text passes [c4string_test] and
    [c4string_to_vector4] returns a vector with exactly the bits printed. *)
Theorem c4string_roundtrip v L :
  wf4 v -> Z.of_nat (size_ v) + 5 <= L < 2 ^ 64 ->
  c4string_test (as_string v L) = true /\
  returns (c4string_to_vector4 (as_string v L)) (fun r => wf4 r /\ bits r = bits v).
Proof.
  intros Hv HL. rewrite as_string_full by lia.
  split; [apply c4string_test_chars|apply c4string_parse].
Qed.

Lemma c4string_roundtrip_witness :
  returns (c4string_to_vector4 (as_string (vector4_fill 66 BIT4_Z) 100)) (fun r =>
    bits r = bits (vector4_fill 66 BIT4_Z)).
Proof.
  eapply returns_mono;
    [apply (proj2 (c4string_roundtrip (vector4_fill 66 BIT4_Z) 100 (fill_wf _ _) ltac:(simpl; lia)))|].
  intros r (_ & H). exact H.
Defined.

(** The bytes [as_string] stores in its buffer, the terminating NUL included:
    it stays within a buffer of [size + 5] bytes or more, and when it has to cut
    the digits it stores one byte more than the buffer holds. *)
Theorem as_string_bytes v L :
  5 <= L < 2 ^ 64 ->
  Z.of_nat (length (as_string v L)) + 1 = Z.min (Z.of_nat (size_ v) + 5) (L + 1).
Proof.
  intros HL. unfold as_string, w_sub. rewrite w_wrap_id by (unfold word_ok; lia).
  cbn [length app]. rewrite length_app. cbn [length].
  rewrite !Nat2Z.inj_succ, Nat2Z.inj_add, length_as_string_digits by lia. lia.
Qed.

(** A 20-bit vector in a buffer of 10 bytes: 11 bytes are stored. *)
Lemma as_string_bytes_witness :
  Z.of_nat (length (as_string (vector4_fill 20 BIT4_1) 10)) + 1 = 11.
Proof. rewrite (as_string_bytes (vector4_fill 20 BIT4_1) 10); [reflexivity|lia]. Defined.
