(* ===== verification/Vec4Move.v ===== *)
(** * Moving bits between vectors ([vvp/vvp_net.cc])

    [resize], the part-select constructor ([subvalue]), [set_vec], [subarray],
    [setarray], [copy_bits] and [mov] of [vvp_vector4_t].  The source runs the
    same shifts and masks on the abits and on the bbits; a definition named
    [*_plane] is that code for one of the two arrays, and the operation applies
    it to both.  Sums of [unsigned] positions are taken not to wrap: a vector
    is far smaller than 2^31 bits. *)

From Stdlib Require Import ZArith Lia Bool.
From stdpp Require Import base numbers list.
From S2P Require Import Prelude Bit4 Vec4.

Open Scope Z_scope.

(** ** Definitions *)

Section word_scope_definitions.
Open Scope word_scope.

(** *** [resize] *)

Definition word_pad_abits (pad_bit : vvp_bit4_t) : Z :=
  match pad_bit with
  | BIT4_0 => WORD_0_ABITS | BIT4_1 => WORD_1_ABITS
  | BIT4_X => WORD_X_ABITS | BIT4_Z => WORD_Z_ABITS
  end.

Definition word_pad_bbits (pad_bit : vvp_bit4_t) : Z :=
  match pad_bit with
  | BIT4_0 => WORD_0_BBITS | BIT4_1 => WORD_1_BBITS
  | BIT4_X => WORD_X_BBITS | BIT4_Z => WORD_Z_BBITS
  end.

(** The partial word at the end of the old value: its unused bits become the
    padding. *)
Definition pad_word (w pad : Z) (fill : nat) : Z :=
  (w .& ~~ (w_max << fill)) .| (pad << fill).

(** One plane of [resize].  [junk] is what [new unsigned long[]] leaves in the
    words that are not assigned. *)
Definition resize_plane (size newsize : nat) (ws : list Z) (pad junk : Z) : list Z :=
  let cnt := nwords size in
  let fill := (size mod BITS_PER_WORD)%nat in
  let pad_tail ws :=
    if (size <? newsize)%nat && (0 <? fill)%nat
    then <[(cnt - 1)%nat := pad_word (wd ws (cnt - 1)) pad fill]> ws else ws in
  if (BITS_PER_WORD <? newsize)%nat then
    let newcnt := nwords newsize in
    if (newcnt =? cnt)%nat then pad_tail ws
    else
      let trans := if (1 <? cnt)%nat then Nat.min cnt newcnt else 1%nat in
      let newbits := map (fun idx => if (idx <? trans)%nat then wd ws idx else junk) (seq 0 newcnt) in
      let newbits := pad_tail newbits in
      if (size <? newsize)%nat
      then map (fun idx => if (cnt <=? idx)%nat then pad else wd newbits idx) (seq 0 newcnt)
      else newbits
  else
    let val := wd ws 0 in
    if (size <? newsize)%nat then [pad_word val pad size] else [val].

Definition resize (v : vvp_vector4_t) (newsize : nat) (pad_bit : vvp_bit4_t) : vvp_vector4_t :=
  if (size_ v =? newsize)%nat then v
  else
    mk_vector4 newsize
      (resize_plane (size_ v) newsize (abits_ v) (word_pad_abits pad_bit) 0)
      (resize_plane (size_ v) newsize (bbits_ v) (word_pad_bbits pad_bit) 0).

(** *** The part-select constructor *)

(** Long source and long destination: the loop moves the low part and the high
    part of every destination word.  The state is [trans], [ptr], [dst] and the
    destination words. *)
Definition part_long_plane (src dst0 : list Z) (adr wid : nat) : option (list Z) :=
  let off := (adr mod BITS_PER_WORD)%nat in
  let noff := (BITS_PER_WORD - off)%nat in
  let lmask := w_mask off in
  let cond s := let '(trans, ptr, dst, ws) := s in (trans <? wid)%nat in
  let body s :=
    let '(trans, ptr, dst, ws) := s in
    let ws := <[dst := (wd src ptr .& ~~ lmask) >> off]> ws in
    let trans := (trans + noff)%nat in
    if (wid <=? trans)%nat then Some (trans, ptr, dst, ws)
    else
      let ptr := S ptr in
      if negb (noff =? BITS_PER_WORD)%nat then
        let ws := <[dst := wd ws dst .| ((wd src ptr .& lmask) << noff)]> ws in
        Some ((trans + off)%nat, ptr, S dst, ws)
      else Some (trans, ptr, S dst, ws) in
  '(_, _, _, ws) ← while_ wid cond body (0%nat, (adr / BITS_PER_WORD)%nat, 0%nat, dst0);
  Some ws.

(** Long source, destination of one word. *)
Definition part_word_plane (src : list Z) (adr wid : nat) : Z :=
  let ptr := (adr / BITS_PER_WORD)%nat in
  let off := (adr mod BITS_PER_WORD)%nat in
  let trans := Nat.min (BITS_PER_WORD - off) wid in
  if (trans =? BITS_PER_WORD)%nat then wd src ptr
  else
    let lmask := w_mask trans << off in
    let val := (wd src ptr .& lmask) >> off in
    if (trans <? wid)%nat then
      let hmask := w_mask (wid - trans) in
      val .| ((wd src (S ptr) .& hmask) << trans)
    else val.

Definition vector4_part (that : vvp_vector4_t) (adr wid : nat) : option vvp_vector4_t :=
  let res := allocate_words_ wid WORD_X_ABITS WORD_X_BBITS in
  if (size_ that <=? adr)%nat then Some res
  else if (size_ that <? adr + wid)%nat then
    let use_wid := (size_ that - adr)%nat in
    for_ 0 use_wid (fun idx res => set_bit res idx (value that (adr + idx))) res
  else if (BITS_PER_WORD <? wid)%nat then
    a ← part_long_plane (abits_ that) (abits_ res) adr wid;
    b ← part_long_plane (bbits_ that) (bbits_ res) adr wid;
    Some (mk_vector4 wid a b)
  else if (BITS_PER_WORD <? size_ that)%nat then
    Some (mk_vector4 wid [part_word_plane (abits_ that) adr wid]
                         [part_word_plane (bbits_ that) adr wid])
  else if (wid =? BITS_PER_WORD)%nat then
    Some (mk_vector4 wid [abits_val_ that] [bbits_val_ that])
  else
    let mask := w_mask wid << adr in
    Some (mk_vector4 wid [(abits_val_ that .& mask) >> adr] [(bbits_val_ that .& mask) >> adr]).

(** [subvalue] *)
Definition subvalue (v : vvp_vector4_t) (adr wid : nat) : option vvp_vector4_t :=
  vector4_part v adr wid.

(** *** [set_vec] *)

(** [if ((w & mask) != tmp) { diff_flag = true; w = (w & ~mask) | tmp; }] *)
Definition masked_store (w mask tmp : Z) : Z * bool :=
  if (w .& mask) =? tmp then (w, false) else ((w .& ~~ mask) .| tmp, true).

Definition store_at (ws : list Z) (k : nat) (mask tmp : Z) (diff : bool) : list Z * bool :=
  let '(w, d) := masked_store (wd ws k) mask tmp in (<[k := w]> ws, diff || d).

(** [hshift >= BITS_PER_WORD ? -1UL : (1UL << hshift) - 1] *)
Definition hmask_of (hshift : nat) : Z :=
  if (BITS_PER_WORD <=? hshift)%nat then w_max else w_mask hshift.

(** Both vectors in one word. *)
Definition set_vec_word (w that : Z) (adr n : nat) : Z * bool :=
  let lmask := w_mask adr in
  let mask := hmask_of (adr + n) .& ~~ lmask in
  masked_store w mask ((that << adr) .& mask).

(** A one-word vector into a long one: the word at [dptr], and the tail in the
    next word when the value spans a word boundary. *)
Definition set_vec_small_plane (ws : list Z) (that : Z) (adr n : nat) : list Z * bool :=
  let dptr := (adr / BITS_PER_WORD)%nat in
  let doff := (adr mod BITS_PER_WORD)%nat in
  let lmask := w_mask doff in
  let mask := hmask_of (doff + n) .& ~~ lmask in
  let '(ws, d) := store_at ws dptr mask ((that << doff) .& mask) false in
  if (BITS_PER_WORD <? doff + n)%nat then
    let tail := (doff + n - BITS_PER_WORD)%nat in
    let mask := w_mask tail in
    store_at ws (S dptr) mask ((that >> (n - tail)) .& mask) d
  else (ws, d).

(** [if (w != new) { diff_flag = true; w = new; }] *)
Definition word_store_at (ws : list Z) (k : nat) (new : Z) (diff : bool) : list Z * bool :=
  if wd ws k =? new then (ws, diff) else (<[k := new]> ws, true).

(** Long vectors, the destination aligned on a word. *)
Fixpoint set_vec_aligned_loop (that : list Z) (remain sptr dptr : nat) (ws : list Z)
    (diff : bool) (fuel : nat) : list Z * bool * (nat * nat * nat) :=
  match fuel with
  | O => (ws, diff, (remain, sptr, dptr))
  | S fuel' =>
      if (BITS_PER_WORD <=? remain)%nat then
        let '(ws, diff) := word_store_at ws dptr (wd that sptr) diff in
        set_vec_aligned_loop that (remain - BITS_PER_WORD) (S sptr) (S dptr) ws diff fuel'
      else (ws, diff, (remain, sptr, dptr))
  end.

Definition set_vec_aligned_plane (ws that : list Z) (adr n : nat) : list Z * bool :=
  let '(ws, diff, (remain, sptr, dptr)) :=
    set_vec_aligned_loop that n 0 (adr / BITS_PER_WORD) ws false (S n) in
  if (0 <? remain)%nat then
    let mask := w_mask remain in
    store_at ws dptr mask (wd that sptr .& mask) diff
  else (ws, diff).

(** Long vectors, the destination not aligned. *)
Fixpoint set_vec_shift_loop (that : list Z) (doff remain sptr dptr : nat) (ws : list Z)
    (diff : bool) (fuel : nat) : list Z * bool * (nat * nat * nat) :=
  match fuel with
  | O => (ws, diff, (remain, sptr, dptr))
  | S fuel' =>
      if (BITS_PER_WORD <=? remain)%nat then
        let lmask := w_mask doff in
        let ndoff := (BITS_PER_WORD - doff)%nat in
        let '(ws, diff) := store_at ws dptr (~~ lmask) ((wd that sptr << doff) .& ~~ lmask) diff in
        let dptr := S dptr in
        let '(ws, diff) := store_at ws dptr lmask ((wd that sptr >> ndoff) .& lmask) diff in
        set_vec_shift_loop that doff (remain - BITS_PER_WORD) (S sptr) dptr ws diff fuel'
      else (ws, diff, (remain, sptr, dptr))
  end.

Definition set_vec_shift_plane (ws that : list Z) (adr n : nat) : list Z * bool :=
  let doff := (adr mod BITS_PER_WORD)%nat in
  let lmask := w_mask doff in
  let '(ws, diff, (remain, sptr, dptr)) :=
    set_vec_shift_loop that doff n 0 (adr / BITS_PER_WORD) ws false (S n) in
  if (0 <? remain)%nat then
    let mask := hmask_of (doff + remain) .& ~~ lmask in
    let '(ws, diff) := store_at ws dptr mask ((wd that sptr << doff) .& mask) diff in
    if (BITS_PER_WORD <? doff + remain)%nat then
      let tail := (doff + remain - BITS_PER_WORD)%nat in
      let mask := hmask_of tail in
      store_at ws (S dptr) mask ((wd that sptr >> (remain - tail)) .& mask) diff
    else (ws, diff)
  else (ws, diff).

Definition set_vec_plane (size : nat) (ws that : list Z) (adr n : nat) : list Z * bool :=
  if (size <=? BITS_PER_WORD)%nat then
    let '(w, d) := set_vec_word (wd ws 0) (wd that 0) adr n in ([w], d)
  else if (n <=? BITS_PER_WORD)%nat then set_vec_small_plane ws (wd that 0) adr n
  else if (adr mod BITS_PER_WORD =? 0)%nat then set_vec_aligned_plane ws that adr n
  else set_vec_shift_plane ws that adr n.

(** [set_vec]: the new value and the flag that tells if a bit changed. *)
Definition set_vec (v : vvp_vector4_t) (adr : nat) (that : vvp_vector4_t) :
    option (vvp_vector4_t * bool) :=
  assert_ (adr + size_ that <=? size_ v)%nat;;
  let '(a, da) := set_vec_plane (size_ v) (abits_ v) (abits_ that) adr (size_ that) in
  let '(b, db) := set_vec_plane (size_ v) (bbits_ v) (bbits_ that) adr (size_ that) in
  Some (mk_vector4 (size_ v) a b, da || db).

End word_scope_definitions.

(** *** Reference semantics of an update of a range of bits *)

(** [ws] is [ws0] with the bits [lo..hi-1] given by [f]. *)
Definition range_upd (ws0 : list Z) (f : nat -> bool) (lo hi : nat) (ws : list Z) : Prop :=
  length ws = length ws0 /\ words_ok ws /\
  forall i, (i < 64 * length ws0)%nat ->
    wsbit ws i = if (lo <=? i)%nat && (i <? hi)%nat then f i else wsbit ws0 i.

(** [d] tells that [f] differs from [ws0] somewhere in the range. *)
Definition range_diff (ws0 : list Z) (f : nat -> bool) (lo hi : nat) (d : bool) : Prop :=
  d = false <-> forall i, (lo <= i < hi)%nat -> wsbit ws0 i = f i.

Definition range_set (ws0 : list Z) (f : nat -> bool) (lo hi : nat) (r : list Z * bool) : Prop :=
  range_upd ws0 f lo hi (fst r) /\ range_diff ws0 f lo hi (snd r).

(** The bits of a word that a mask selects. *)
Definition mask_range (m : Z) (l h : nat) : Prop :=
  word_ok m /\ forall j, (j < 64)%nat -> tb m j = (l <=? j)%nat && (j <? h)%nat.

(** ** Lemmas *)

Lemma mask_range_mask n : (n < 64)%nat -> mask_range (w_mask n) 0 n.
Proof. intros Hn. split; [auto with word_db|]. intros j Hj. by rewrite tb_mask. Qed.

Lemma mask_range_not n : (n < 64)%nat -> mask_range (w_not (w_mask n)) n 64.
Proof.
  intros Hn. split; [auto with word_db|]. intros j Hj.
  rewrite tb_not, tb_mask by done. split_ifs; simpl; try done; lia.
Qed.

Lemma hmask_of_bits n j : (j < 64)%nat -> tb (hmask_of n) j = (j <? n)%nat.
Proof.
  intros Hj. unfold hmask_of. destruct (Nat.leb_spec 64 n).
  - rewrite tb_max. split_ifs; done || lia.
  - by rewrite tb_mask by lia.
Qed.

Lemma hmask_of_ok n : word_ok (hmask_of n).
Proof. unfold hmask_of. destruct (64 <=? n)%nat; auto with word_db. Qed.

#[export] Hint Resolve hmask_of_ok : word_db.

Lemma mask_range_hl l n :
  (l < 64)%nat -> mask_range (Z.land (hmask_of n) (w_not (w_mask l))) l (Nat.min n 64).
Proof.
  intros Hl. split; [auto with word_db|]. intros j Hj.
  rewrite tb_land, tb_not, hmask_of_bits, tb_mask by done. split_ifs; simpl; try done; lia.
Qed.

Lemma mask_range_hmask n : mask_range (hmask_of n) 0 (Nat.min n 64).
Proof.
  split; [auto with word_db|]. intros j Hj. rewrite hmask_of_bits by done.
  split_ifs; simpl; try done; lia.
Qed.

Lemma mask_range_max : mask_range w_max 0 64.
Proof. split; [auto with word_db|]. intros j Hj. by rewrite tb_max. Qed.

Lemma range_upd_refl ws f lo : words_ok ws -> range_upd ws f lo lo ws.
Proof. intros H. split; [done|]. split; [done|]. intros i Hi. split_ifs; simpl; done || lia. Qed.

Lemma range_diff_refl ws f lo : range_diff ws f lo lo false.
Proof. split; [intros _ i Hi; lia|done]. Qed.

(** One word further. *)
Lemma range_upd_step ws0 f lo hi ws k l h w :
  range_upd ws0 f lo hi ws -> (k < length ws0)%nat -> hi = (64 * k + l)%nat ->
  (lo <= hi)%nat -> (l <= h <= 64)%nat -> word_ok w ->
  (forall j, (j < 64)%nat ->
     tb w j = if (l <=? j)%nat && (j <? h)%nat then f (64 * k + j)%nat else tb (wd ws k) j) ->
  range_upd ws0 f lo (64 * k + h) (<[k := w]> ws).
Proof.
  intros (Hlen & Hok & Hbits) Hk -> Hlo Hlh Hw Hf.
  split; [by rewrite length_insert|]. split; [auto with word_db|].
  intros i Hi. rewrite wsbit_insert. case_decide as Hd.
  - destruct Hd as [Hd _]. rewrite Hf by (apply Nat.mod_upper_bound; lia).
    replace (64 * k + i `mod` 64)%nat with i by dlia.
    assert (Hold : tb (wd ws k) (i `mod` 64) =
      if (lo <=? i)%nat && (i <? 64 * k + l)%nat then f i else wsbit ws0 i).
    { rewrite <- Hbits by done. unfold wsbit. by rewrite Hd. }
    rewrite Hold. split_ifs; simpl; done || (exfalso; dlia).
  - rewrite Hbits by done.
    destruct (decide (k < length ws)%nat) as [Hkl|]; [|lia].
    assert (i `div` 64 <> k)%nat by tauto.
    destruct (Nat.ltb_spec i (64 * k + l)), (Nat.ltb_spec i (64 * k + h)); try done; dlia.
Qed.

Lemma masked_store_bits w mask tmp l h :
  mask_range mask l h -> word_ok w -> word_ok tmp ->
  (forall j, (j < 64)%nat -> tb tmp j = true -> (l <= j < h)%nat) ->
  let r := masked_store w mask tmp in
  word_ok (fst r) /\
  (forall j, (j < 64)%nat ->
     tb (fst r) j = if (l <=? j)%nat && (j <? h)%nat then tb tmp j else tb w j) /\
  (snd r = false <-> forall j, (j < 64)%nat -> (l <= j < h)%nat -> tb w j = tb tmp j).
Proof.
  intros [Hm Hmb] Hw Ht Hsub. cbv zeta. unfold masked_store.
  assert (Heq : Z.land w mask = tmp <->
    forall j, (j < 64)%nat -> (l <= j < h)%nat -> tb w j = tb tmp j).
  { split.
    - intros <- j Hj Hr. rewrite tb_land, Hmb by done.
      by rewrite (proj2 (tb_range l h j) Hr), andb_true_r.
    - intros H. apply tb_ext; [auto with word_db..|]. intros j Hj.
      rewrite tb_land, Hmb by done. specialize (H j Hj). specialize (Hsub j Hj).
      destruct ((l <=? j)%nat && (j <? h)%nat) eqn:E.
      + rewrite andb_true_r. apply H. by apply tb_range.
      + rewrite andb_false_r. destruct (tb tmp j); [|done].
        rewrite (proj2 (tb_range l h j)) in E by auto. done. }
  destruct (Z.eqb_spec (Z.land w mask) tmp) as [E|E]; cbn [fst snd].
  - split; [done|]. split; [|tauto]. intros j Hj.
    destruct ((l <=? j)%nat && (j <? h)%nat) eqn:E'; [|done].
    apply Heq; [done..|]. by apply tb_range.
  - split; [auto with word_db|]. split.
    + intros j Hj. rewrite tb_lor, tb_land, tb_not, Hmb, (proj2 (Nat.ltb_lt j 64)) by done.
      destruct ((l <=? j)%nat && (j <? h)%nat) eqn:E'; simpl.
      * by rewrite andb_false_r.
      * rewrite andb_true_r. specialize (Hsub j Hj). destruct (tb tmp j); [|apply orb_false_r].
        rewrite (proj2 (tb_range l h j)) in E' by auto. done.
    + split; [done|]. intros H. exfalso. apply E, Heq, H.
Qed.

(** A store of the bits [l..h-1] of word [k] extends the updated range. *)
Lemma store_at_step ws0 f lo hi ws k l h mask tmp d :
  range_set ws0 f lo hi (ws, d) -> (k < length ws0)%nat -> hi = (64 * k + l)%nat ->
  (lo <= hi)%nat -> (l <= h <= 64)%nat -> mask_range mask l h -> word_ok tmp ->
  (forall j, (j < 64)%nat -> tb tmp j = ((l <=? j)%nat && (j <? h)%nat) && f (64 * k + j)%nat) ->
  range_set ws0 f lo (64 * k + h) (store_at ws k mask tmp d).
Proof.
  intros [Hu Hd] Hk Hhi Hlo Hlh Hm Ht Hf; cbn [fst snd] in *.
  unfold store_at. destruct Hu as (Hlen & Hok & Hbits).
  destruct (masked_store_bits (wd ws k) mask tmp l h Hm) as (Hw & Hb & Hdiff).
  { auto with word_db. }
  { done. }
  { intros j Hj Hj'. rewrite Hf in Hj' by done. apply andb_true_iff in Hj' as [Hj' _].
    by apply tb_range. }
  destruct (masked_store (wd ws k) mask tmp) as [w d'] eqn:E; cbn [fst snd] in *.
  split; cbn [fst snd].
  - eapply range_upd_step; try done. intros j Hj. rewrite Hb, Hf by done.
    by destruct ((l <=? j)%nat && (j <? h)%nat).
  - unfold range_diff in *. rewrite orb_false_iff, Hd, Hdiff. clear Hd Hdiff. split.
    + intros [H1 H2] i Hi. destruct (decide (i < hi)%nat); [apply H1; lia|].
      specialize (H2 (i - 64 * k)%nat ltac:(lia) ltac:(lia)).
      rewrite Hf in H2 by lia. rewrite (proj2 (tb_range l h _)) in H2 by lia.
      replace (64 * k + (i - 64 * k))%nat with i in H2 by lia. cbn [andb] in H2.
      rewrite <- H2. replace (tb (wd ws k) (i - 64 * k)) with (wsbit ws i).
      2:{ unfold wsbit. f_equal; [f_equal|]; dlia. }
      rewrite Hbits by lia. by rewrite (proj2 (Nat.ltb_ge i hi)), andb_false_r by lia.
    + intros H. split.
      * intros i Hi. apply H. lia.
      * intros j Hj Hr. rewrite Hf, (proj2 (tb_range l h _) Hr) by done. cbn [andb].
        rewrite <- H by lia. replace (tb (wd ws k) j) with (wsbit ws (64 * k + j)).
        2:{ unfold wsbit. f_equal; [f_equal|]; dlia. }
        rewrite Hbits by lia. by rewrite (proj2 (Nat.ltb_ge (64 * k + j) hi)), andb_false_r by lia.
Qed.

Lemma word_store_step ws0 f lo hi ws k w d :
  range_set ws0 f lo hi (ws, d) -> (k < length ws0)%nat -> hi = (64 * k)%nat ->
  (lo <= hi)%nat -> word_ok w ->
  (forall j, (j < 64)%nat -> tb w j = f (64 * k + j)%nat) ->
  range_set ws0 f lo (64 * k + 64) (word_store_at ws k w d).
Proof.
  intros Hs Hk Hhi Hlo Hw Hf.
  assert (H := store_at_step ws0 f lo hi ws k 0 64 w_max w d Hs Hk ltac:(lia) Hlo ltac:(lia)
    mask_range_max Hw).
  assert (Hf' : forall j, (j < 64)%nat ->
    tb w j = ((0 <=? j)%nat && (j <? 64)%nat) && f (64 * k + j)%nat).
  { intros j Hj. rewrite Hf by done. by rewrite (proj2 (Nat.ltb_lt j 64)). }
  specialize (H Hf'). clear Hf'. revert H. unfold store_at, masked_store, word_store_at.
  assert (Hwk : word_ok (wd ws k)).
  { apply wd_ok. by destruct Hs as [(_ & ? & _) _]. }
  assert (Hland : Z.land (wd ws k) w_max = wd ws k).
  { change w_max with (Z.ones 64). fold (w_wrap (wd ws k)). by apply w_wrap_id. }
  rewrite Hland. destruct (Z.eqb_spec (wd ws k) w) as [E|E].
  - rewrite orb_false_r, list_insert_id'; [done|].
    intros Hl. unfold wd. rewrite nth_lookup.
    by destruct (lookup_lt_is_Some_2 ws k Hl) as [x ->].
  - replace (Z.lor _ w) with w; [by rewrite orb_true_r|].
    apply tb_ext; [done|auto with word_db|]. intros j Hj.
    rewrite tb_lor, tb_land, tb_not, tb_max, (proj2 (Nat.ltb_lt j 64)) by done.
    by rewrite andb_false_r.
Qed.

Lemma store_at_eta ws k mask tmp d : store_at ws k mask tmp d =
  (fst (store_at ws k mask tmp d), snd (store_at ws k mask tmp d)).
Proof. apply surjective_pairing. Qed.

(** The bits a source word contributes when it is shifted left by [doff]. *)
Lemma tb_shl_mask that doff m l h j :
  (doff < 64)%nat -> mask_range m l h -> (j < 64)%nat ->
  tb (Z.land (w_shl that doff) m) j =
    ((l <=? j)%nat && (j <? h)%nat) && ((doff <=? j)%nat && tb that (j - doff)).
Proof.
  intros Hd [_ Hm] Hj. rewrite tb_land, tb_shl, Hm, (proj2 (Nat.ltb_lt j 64)) by done.
  simpl. apply andb_comm.
Qed.

Lemma tb_shr_mask that n m l h j :
  (n < 64)%nat -> mask_range m l h -> (j < 64)%nat ->
  tb (Z.land (w_shr that n) m) j =
    ((l <=? j)%nat && (j <? h)%nat) && tb that (j + n).
Proof.
  intros Hd [_ Hm] Hj. rewrite tb_land, tb_shr, Hm by done. apply andb_comm.
Qed.

Lemma set_vec_word_spec w that adr n :
  word_ok w -> word_ok that -> (0 < n)%nat -> (adr + n <= 64)%nat ->
  range_set [w] (fun i => tb that (i - adr)) adr (adr + n)
    ([fst (set_vec_word w that adr n)], snd (set_vec_word w that adr n)).
Proof.
  intros Hw Ht Hn Ha. unfold set_vec_word.
  pose proof (mask_range_hl adr (adr + n) ltac:(lia)) as Hm.
  rewrite Nat.min_l in Hm by lia.
  set (mask := Z.land _ _) in *. set (tmp := Z.land _ mask).
  assert (H := store_at_step [w] (fun i => tb that (i - adr)) adr adr [w] 0 adr (adr + n)
    mask tmp false).
  destruct (masked_store w mask tmp) as [w' d] eqn:E.
  unfold store_at in H. cbn [wd nth] in H. rewrite E in H. cbn in H |- *. apply H.
  - split; [apply range_upd_refl; by apply Forall_singleton|apply range_diff_refl].
  - lia.
  - lia.
  - done.
  - lia.
  - done.
  - unfold tmp. destruct Hm. auto with word_db.
  - intros j Hj. unfold tmp. rewrite (tb_shl_mask _ _ _ adr (adr + n)) by (done || lia).
    apply andb_guard. intros Hr%tb_range. by rewrite (proj2 (Nat.leb_le adr j)) by lia.
Qed.

Lemma set_vec_small_spec ws that adr n :
  words_ok ws -> word_ok that -> (0 < n <= 64)%nat -> (adr + n <= 64 * length ws)%nat ->
  range_set ws (fun i => tb that (i - adr)) adr (adr + n) (set_vec_small_plane ws that adr n).
Proof.
  intros Hws Ht Hn Ha. unfold set_vec_small_plane.
  set (dptr := (adr / 64)%nat). set (doff := (adr mod 64)%nat).
  assert (doff < 64)%nat as Hd by (apply Nat.mod_upper_bound; lia).
  assert (adr = 64 * dptr + doff)%nat as Hadr by (unfold dptr, doff; dlia).
  pose proof (mask_range_hl doff (doff + n) Hd) as Hm.
  set (mask := Z.land _ _) in *.
  assert (H1 := store_at_step ws (fun i => tb that (i - adr)) adr adr ws dptr doff
    (Nat.min (doff + n) 64) mask (Z.land (w_shl that doff) mask) false).
  rewrite store_at_eta. cbv beta iota.
  assert (range_set ws (fun i => tb that (i - adr)) adr (64 * dptr + Nat.min (doff + n) 64)
    (store_at ws dptr mask (Z.land (w_shl that doff) mask) false)) as H.
  { apply H1; clear H1; try done; try lia.
    - split; [by apply range_upd_refl|apply range_diff_refl].
    - destruct Hm; auto with word_db.
    - intros j Hj. rewrite (tb_shl_mask _ _ _ _ _ _ Hd Hm Hj).
      apply andb_guard. intros Hr%tb_range. rewrite (proj2 (Nat.leb_le doff j)) by lia.
      simpl. f_equal. lia. }
  clear H1. rewrite store_at_eta in H. destruct (Nat.ltb_spec 64 (doff + n)).
  - set (tail := (doff + n - 64)%nat).
    pose proof (mask_range_mask tail ltac:(lia)) as Hm2.
    replace (adr + n)%nat with (64 * S dptr + tail)%nat by lia.
    eapply (store_at_step _ _ _ _ _ _ 0); [exact H|lia|lia|lia|lia|done| |].
    + auto with word_db.
    + intros j Hj. rewrite (tb_shr_mask _ (n - tail) _ _ _ _ ltac:(lia) Hm2 Hj).
      apply andb_guard. intros Hr%tb_range. f_equal. lia.
  - replace (adr + n)%nat with (64 * dptr + Nat.min (doff + n) 64)%nat by lia. done.
Qed.

(** The loop of the aligned case stores whole words. *)
Lemma set_vec_aligned_loop_spec that f ws0 lo fuel : forall remain sptr dptr ws diff,
  range_set ws0 f lo (64 * dptr) (ws, diff) -> words_ok that ->
  (lo <= 64 * dptr)%nat -> (64 * dptr + remain <= 64 * length ws0)%nat -> (remain < fuel)%nat ->
  (forall i, (i < remain)%nat -> f (64 * dptr + i)%nat = wsbit that (64 * sptr + i)) ->
  let '(ws', diff', (remain', sptr', dptr')) :=
    set_vec_aligned_loop that remain sptr dptr ws diff fuel in
  range_set ws0 f lo (64 * dptr') (ws', diff') /\ (remain' < 64)%nat /\
  (64 * dptr' + remain' = 64 * dptr + remain)%nat /\ (dptr <= dptr')%nat /\
  (forall i, (i < remain')%nat -> f (64 * dptr' + i)%nat = wsbit that (64 * sptr' + i)).
Proof.
  induction fuel as [|fuel IH]; intros remain sptr dptr ws diff Hs Hok Hlo Hlen Hfuel Hf; [lia|].
  cbn [set_vec_aligned_loop]. destruct (Nat.leb_spec 64 remain) as [Hr|Hr].
  - assert (Hstep := word_store_step ws0 f lo (64 * dptr) ws dptr (wd that sptr) diff Hs
      ltac:(lia) eq_refl Hlo (wd_ok _ _ Hok)).
    destruct (word_store_at ws dptr (wd that sptr) diff) as [ws1 d1].
    specialize (IH (remain - 64)%nat (S sptr) (S dptr) ws1 d1).
    destruct (set_vec_aligned_loop that (remain - 64) (S sptr) (S dptr) ws1 d1 fuel)
      as [[ws' diff'] [[remain' sptr'] dptr']].
    destruct IH as (H1 & H2 & H3 & H4 & H5); [|done|lia|lia|lia| |].
    + replace (64 * S dptr)%nat with (64 * dptr + 64)%nat by lia. apply Hstep.
      intros j Hj. rewrite Hf by lia. unfold wsbit. f_equal; [f_equal|]; dlia.
    + intros i Hi. specialize (Hf (64 + i)%nat ltac:(lia)).
      replace (64 * S dptr + i)%nat with (64 * dptr + (64 + i))%nat by lia.
      replace (64 * S sptr + i)%nat with (64 * sptr + (64 + i))%nat by lia. done.
    + split; [done|]. split; [done|]. split; [lia|]. split; [lia|done].
  - split; [done|]. split; [done|]. split; [done|]. split; [done|done].
Qed.

Lemma set_vec_aligned_spec ws that adr n :
  words_ok ws -> words_ok that -> (adr mod 64 = 0)%nat -> (adr + n <= 64 * length ws)%nat ->
  range_set ws (fun i => wsbit that (i - adr)) adr (adr + n) (set_vec_aligned_plane ws that adr n).
Proof.
  intros Hws Ht Hal Ha. unfold set_vec_aligned_plane.
  assert (adr = 64 * (adr / 64))%nat as Hadr by dlia.
  pose proof (set_vec_aligned_loop_spec that (fun i => wsbit that (i - adr)) ws adr (S n)
    n 0 (adr / 64) ws false) as H.
  destruct (set_vec_aligned_loop _ _ _ _ _ _ _) as [[ws' diff'] [[remain sptr] dptr]].
  destruct H as (Hs & Hr & Heq & Hle & Hf); [|done|lia|lia|lia| |].
  { rewrite <- Hadr. split; [by apply range_upd_refl|apply range_diff_refl]. }
  { intros i Hi. f_equal. lia. }
  destruct (Nat.ltb_spec 0 remain).
  - replace (adr + n)%nat with (64 * dptr + remain)%nat by lia.
    pose proof (mask_range_mask remain Hr) as Hm.
    eapply (store_at_step _ _ _ _ _ _ 0); [exact Hs|lia|lia|lia|lia|done|auto with word_db|].
    intros j Hj. rewrite tb_land, tb_mask by done. simpl. rewrite andb_comm.
    destruct (Nat.ltb_spec j remain); simpl; [|done]. rewrite Hf by done.
    unfold wsbit. f_equal; [f_equal|]; dlia.
  - replace (adr + n)%nat with (64 * dptr)%nat by lia. done.
Qed.

(** The loop of the shifted case stores two parts of every source word. *)
Lemma set_vec_shift_loop_spec that f ws0 lo doff fuel :
  (0 < doff < 64)%nat -> words_ok that ->
  forall remain sptr dptr ws diff,
  range_set ws0 f lo (64 * dptr + doff) (ws, diff) ->
  (lo <= 64 * dptr + doff)%nat -> (64 * dptr + doff + remain <= 64 * length ws0)%nat ->
  (remain < fuel)%nat ->
  (forall i, (i < remain)%nat -> f (64 * dptr + doff + i)%nat = wsbit that (64 * sptr + i)) ->
  let '(ws', diff', (remain', sptr', dptr')) :=
    set_vec_shift_loop that doff remain sptr dptr ws diff fuel in
  range_set ws0 f lo (64 * dptr' + doff) (ws', diff') /\ (remain' < 64)%nat /\
  (64 * dptr' + remain' = 64 * dptr + remain)%nat /\ (dptr <= dptr')%nat /\
  (forall i, (i < remain')%nat -> f (64 * dptr' + doff + i)%nat = wsbit that (64 * sptr' + i)).
Proof.
  intros Hd Hok. induction fuel as [|fuel IH];
    intros remain sptr dptr ws diff Hs Hlo Hlen Hfuel Hf; [lia|].
  cbn [set_vec_shift_loop]. destruct (Nat.leb_spec 64 remain) as [Hr|Hr].
  2:{ split; [done|]. split; [done|]. split; [done|]. split; [done|done]. }
  pose proof (mask_range_not doff ltac:(lia)) as Hm1.
  pose proof (mask_range_mask doff ltac:(lia)) as Hm2.
  rewrite (store_at_eta ws dptr). cbv beta iota.
  assert (Hs1 : range_set ws0 f lo (64 * dptr + 64)
    (store_at ws dptr (w_not (w_mask doff))
       (Z.land (w_shl (wd that sptr) doff) (w_not (w_mask doff))) diff)).
  { eapply (store_at_step _ _ _ _ _ _ doff); [exact Hs|lia|lia|lia|lia|done|auto with word_db|].
    intros j Hj. rewrite (tb_shl_mask _ doff _ _ _ _ ltac:(lia) Hm1 Hj).
    apply andb_guard. intros Hrg%tb_range. rewrite (proj2 (Nat.leb_le doff j)) by lia.
    specialize (Hf (j - doff)%nat ltac:(lia)).
    replace (64 * dptr + doff + (j - doff))%nat with (64 * dptr + j)%nat in Hf by lia.
    rewrite Hf. unfold wsbit. simpl. f_equal; [f_equal|]; dlia. }
  rewrite store_at_eta in Hs1.
  destruct (store_at ws dptr _ _ diff) as [ws1 d1]; cbn [fst snd] in *.
  assert (Hs2 : range_set ws0 f lo (64 * S dptr + doff)
    (store_at ws1 (S dptr) (w_mask doff)
       (Z.land (w_shr (wd that sptr) (64 - doff)) (w_mask doff)) d1)).
  { eapply (store_at_step _ _ _ _ _ _ 0); [exact Hs1|lia|lia|lia|lia|done|auto with word_db|].
    intros j Hj. rewrite (tb_shr_mask _ (64 - doff) _ _ _ _ ltac:(lia) Hm2 Hj).
    apply andb_guard. intros Hrg%tb_range.
    specialize (Hf (64 - doff + j)%nat ltac:(lia)).
    replace (64 * dptr + doff + (64 - doff + j))%nat with (64 * S dptr + j)%nat in Hf by lia.
    rewrite Hf. unfold wsbit. f_equal; [f_equal|]; dlia. }
  rewrite store_at_eta. cbv beta iota. rewrite store_at_eta in Hs2.
  destruct (store_at ws1 (S dptr) _ _ d1) as [ws2 d2]; cbn [fst snd] in *.
  specialize (IH (remain - 64)%nat (S sptr) (S dptr) ws2 d2 Hs2 ltac:(lia) ltac:(lia) ltac:(lia)).
  destruct (set_vec_shift_loop _ _ _ _ _ _ _ _) as [[ws' diff'] [[remain' sptr'] dptr']].
  destruct IH as (H1 & H2 & H3 & H4 & H5).
  { intros i Hi. specialize (Hf (64 + i)%nat ltac:(lia)).
    replace (64 * S dptr + doff + i)%nat with (64 * dptr + doff + (64 + i))%nat by lia.
    by replace (64 * S sptr + i)%nat with (64 * sptr + (64 + i))%nat by lia. }
  split; [done|]. split; [done|]. split; [lia|]. split; [lia|done].
Qed.

Lemma set_vec_shift_spec ws that adr n :
  words_ok ws -> words_ok that -> (adr mod 64 <> 0)%nat -> (adr + n <= 64 * length ws)%nat ->
  range_set ws (fun i => wsbit that (i - adr)) adr (adr + n) (set_vec_shift_plane ws that adr n).
Proof.
  intros Hws Ht Hal Ha. unfold set_vec_shift_plane.
  set (doff := (adr mod 64)%nat) in *.
  assert (doff < 64)%nat as Hd by (apply Nat.mod_upper_bound; lia).
  assert (adr = 64 * (adr / 64) + doff)%nat as Hadr by (unfold doff; dlia).
  pose proof (set_vec_shift_loop_spec that (fun i => wsbit that (i - adr)) ws adr doff (S n)
    ltac:(lia) Ht n 0 (adr / 64) ws false) as H.
  destruct (set_vec_shift_loop _ _ _ _ _ _ _ _) as [[ws' diff'] [[remain sptr] dptr]].
  destruct H as (Hs & Hr & Heq & Hle & Hf); [|lia|lia|lia| |].
  { rewrite <- Hadr. split; [by apply range_upd_refl|apply range_diff_refl]. }
  { intros i Hi. f_equal. lia. }
  destruct (Nat.ltb_spec 0 remain).
  2:{ by replace (adr + n)%nat with (64 * dptr + doff)%nat by lia. }
  pose proof (mask_range_hl doff (doff + remain) Hd) as Hm.
  rewrite (store_at_eta ws'). cbv beta iota.
  set (mask := Z.land (hmask_of _) _) in *.
  assert (H1 : range_set ws (fun i => wsbit that (i - adr)) adr (64 * dptr + Nat.min (doff + remain) 64)
    (store_at ws' dptr mask (Z.land (w_shl (wd that sptr) doff) mask) diff')).
  { eapply (store_at_step _ _ _ _ _ _ doff); [exact Hs|lia|lia|lia|lia|done| |].
    - destruct Hm. auto with word_db.
    - intros j Hj. rewrite (tb_shl_mask _ doff _ _ _ _ ltac:(lia) Hm Hj).
      apply andb_guard. intros Hrg%tb_range. rewrite (proj2 (Nat.leb_le doff j)) by lia.
      specialize (Hf (j - doff)%nat ltac:(lia)).
      replace (64 * dptr + doff + (j - doff))%nat with (64 * dptr + j)%nat in Hf by lia.
      rewrite Hf. unfold wsbit. simpl. f_equal; [f_equal|]; dlia. }
  rewrite store_at_eta in H1.
  destruct (store_at ws' dptr mask _ diff') as [ws1 d1]; cbn [fst snd] in *.
  destruct (Nat.ltb_spec 64 (doff + remain)).
  2:{ replace (adr + n)%nat with (64 * dptr + Nat.min (doff + remain) 64)%nat by lia. done. }
  set (tail := (doff + remain - 64)%nat) in *.
  pose proof (mask_range_hmask tail) as Hm2. rewrite Nat.min_l in Hm2 by lia.
  replace (adr + n)%nat with (64 * S dptr + tail)%nat by lia.
  eapply (store_at_step _ _ _ _ _ _ 0); [exact H1|lia|lia|lia|lia|done|auto with word_db|].
  intros j Hj. rewrite (tb_shr_mask _ (remain - tail) _ _ _ _ ltac:(lia) Hm2 Hj).
  apply andb_guard. intros Hrg%tb_range.
  specialize (Hf (64 - doff + j)%nat ltac:(lia)).
  replace (64 * dptr + doff + (64 - doff + j))%nat with (64 * S dptr + j)%nat in Hf by lia.
  rewrite Hf. unfold wsbit. f_equal; [f_equal|]; dlia.
Qed.

Lemma range_set_ext ws f g lo hi r :
  (forall i, (lo <= i < hi)%nat -> f i = g i) -> range_set ws f lo hi r -> range_set ws g lo hi r.
Proof.
  intros Hfg [(H1 & H2 & H3) H4]. split; [split; [done|split; [done|]]|].
  - intros i Hi. rewrite H3 by done. destruct ((lo <=? i)%nat && (i <? hi)%nat) eqn:E; [|done].
    apply Hfg. by apply tb_range.
  - unfold range_diff in *. rewrite H4.
    split; intros H i Hi; [rewrite <- Hfg by done|rewrite Hfg by done]; auto.
Qed.

Lemma set_vec_plane_spec size ws that adr n :
  words_ok ws -> words_ok that -> (0 < n)%nat -> (adr + n <= size)%nat ->
  length ws = nstore size -> length that = nstore n ->
  range_set ws (fun i => wsbit that (i - adr)) adr (adr + n) (set_vec_plane size ws that adr n).
Proof.
  intros Hws Ht Hn Ha Hl Hlt. pose proof (nstore_spec size). unfold set_vec_plane.
  destruct (Nat.leb_spec size 64).
  - rewrite nstore_short in * by lia. destruct ws as [|w [|]]; simplify_eq/=.
    pose proof (set_vec_word_spec w (wd that 0) adr n) as H'.
    destruct (set_vec_word _ _ _ _) as [w' d]. cbn [fst snd] in H'.
    eapply range_set_ext; [|apply H'; auto with word_db; try lia].
    + intros i Hi. symmetry. apply wsbit_val. lia.
    + by inversion_clear Hws.
  - destruct (Nat.leb_spec n 64); [|destruct (Nat.eqb_spec (adr mod 64) 0)].
    + eapply range_set_ext; [|apply set_vec_small_spec; auto with word_db; lia].
      intros i Hi. symmetry. apply wsbit_val. lia.
    + apply set_vec_aligned_spec; auto. lia.
    + apply set_vec_shift_spec; auto. lia.
Qed.

(** *** [set_vec] *)

Lemma set_vec_returns v adr that :
  wf4 v -> wf4 that -> (0 < size_ that)%nat -> (adr + size_ that <= size_ v)%nat ->
  returns (set_vec v adr that) (fun r =>
    wf4 (fst r) /\ size_ (fst r) = size_ v /\
    (forall i, value (fst r) i =
       if (adr <=? i)%nat && (i <? adr + size_ that)%nat then value that (i - adr) else value v i) /\
    (snd r = false <-> forall i, (adr <= i < adr + size_ that)%nat -> value v i = value that (i - adr))).
Proof.
  intros Hv Ht Hn Ha. unfold set_vec. apply returns_assert; [by apply Nat.leb_le|].
  pose proof Hv as (La & Lb & Oa & Ob). pose proof Ht as (La' & Lb' & Oa' & Ob').
  pose proof (set_vec_plane_spec (size_ v) (abits_ v) (abits_ that) adr (size_ that)
    Oa Oa' Hn Ha La La') as [(A1 & A2 & A3) A4].
  pose proof (set_vec_plane_spec (size_ v) (bbits_ v) (bbits_ that) adr (size_ that)
    Ob Ob' Hn Ha Lb Lb') as [(B1 & B2 & B3) B4].
  destruct (set_vec_plane _ (abits_ v) _ _ _) as [a da].
  destruct (set_vec_plane _ (bbits_ v) _ _ _) as [b db]. cbn [fst snd] in *.
  apply returns_ret. cbn [fst snd]. pose proof (nstore_spec (size_ v)).
  assert (wf4 (mk_vector4 (size_ v) a b)) as Hwf by (split_and!; simpl; try done; lia).
  split; [done|]. split; [done|]. split.
  - intros i. destruct (decide (i < size_ v)%nat).
    2:{ rewrite !(value_ge _ i) by (simpl; lia). by rewrite (proj2 (Nat.ltb_ge i _)), andb_false_r by lia. }
    rewrite value_wsbit by done. cbn [abits_ bbits_]. rewrite A3, B3 by lia.
    destruct ((adr <=? i)%nat && (i <? adr + size_ that)%nat) eqn:E.
    + apply tb_range in E. by rewrite value_wsbit by (done || lia).
    + by rewrite value_wsbit.
  - unfold range_diff in A4, B4. rewrite orb_false_iff, A4, B4. split.
    + intros [H1 H2] i Hi. rewrite !value_wsbit by (done || lia). by rewrite H1, H2 by done.
    + intros H0. split; intros i Hi; specialize (H0 i Hi); revert H0;
        rewrite !value_wsbit, bit4_of_ab_inj by (done || lia); intros [? ?]; done.
Qed.

Lemma bits_splice v that r adr :
  (adr + size_ that <= size_ v)%nat -> size_ r = size_ v ->
  (forall i, value r i =
     if (adr <=? i)%nat && (i <? adr + size_ that)%nat then value that (i - adr) else value v i) ->
  bits r = take adr (bits v) ++ bits that ++ drop (adr + size_ that) (bits v).
Proof.
  intros Ha Hs Hval. apply bits_eq_list.
  - rewrite !length_app, length_take, length_drop, !length_bits. lia.
  - intros i Hi. rewrite Hval. destruct (Nat.leb_spec adr i); simpl.
    + rewrite lookup_app_r, length_take_le by (rewrite ?length_take, ?length_bits; lia).
      destruct (Nat.ltb_spec i (adr + size_ that)).
      * rewrite lookup_app_l by (rewrite length_bits; lia). apply lookup_bits. lia.
      * rewrite lookup_app_r by (rewrite length_bits; lia).
        rewrite lookup_drop, length_bits, lookup_bits by lia. do 2 f_equal. lia.
    + rewrite lookup_app_l by (rewrite length_take, length_bits; lia).
      rewrite lookup_take_lt by lia. apply lookup_bits. lia.
Qed.

(** *** [resize] *)

Lemma pad_word_ok w pad fill : word_ok w -> word_ok (pad_word w pad fill).
Proof. intros. unfold pad_word. auto with word_db. Qed.

#[export] Hint Resolve pad_word_ok : word_db.

Lemma tb_pad_word w pad p fill j :
  (fill < 64)%nat -> (j < 64)%nat -> (forall k, (k < 64)%nat -> tb pad k = p) ->
  tb (pad_word w pad fill) j = if (j <? fill)%nat then tb w j else p.
Proof.
  intros Hf Hj Hp. unfold pad_word.
  rewrite tb_lor, tb_land, tb_not, !tb_shl, tb_max, (proj2 (Nat.ltb_lt j 64)) by done.
  simpl. rewrite (proj2 (Nat.ltb_lt (j - fill) 64)) by lia. rewrite andb_true_r.
  destruct (Nat.leb_spec fill j), (Nat.ltb_spec j fill); simpl; try lia.
  - rewrite andb_false_r. apply Hp. lia.
  - by rewrite andb_true_r, orb_false_r.
Qed.

(** The bits of an old plane, extended by the padding bit. *)
Definition resized (size newsize : nat) (ws : list Z) (p : bool) (r : list Z) : Prop :=
  length r = nstore newsize /\ words_ok r /\
  forall i, (i < newsize)%nat -> wsbit r i = if (i <? size)%nat then wsbit ws i else p.

Lemma pad_tail_spec size newsize ws pad p n :
  words_ok ws -> length ws = n -> (nwords size <= n)%nat ->
  (forall k, (k < 64)%nat -> tb pad k = p) ->
  let fill := (size mod BITS_PER_WORD)%nat in
  let r := if (size <? newsize)%nat && (0 <? fill)%nat
           then <[(nwords size - 1)%nat := pad_word (wd ws (nwords size - 1)) pad fill]> ws else ws in
  length r = n /\ words_ok r /\
  forall i, (i < 64 * nwords size)%nat ->
    wsbit r i = if (size <? newsize)%nat && (size <=? i)%nat then p else wsbit ws i.
Proof.
  intros Hok Hl Hn Hp. cbv zeta. pose proof (nwords_spec size).
  destruct (Nat.ltb_spec size newsize); simpl; [|done].
  destruct (Nat.ltb_spec 0 (size mod 64)).
  - split; [by rewrite length_insert|]. split; [auto with word_db|]. intros i Hi.
    rewrite wsbit_insert. case_decide as Hd.
    + rewrite (tb_pad_word _ _ p); [|apply Nat.mod_upper_bound; lia..|done].
      destruct Hd as [Hd _]. unfold wsbit. rewrite Hd.
      destruct (Nat.ltb_spec (i mod 64) (size mod 64)), (Nat.leb_spec size i); try done; dlia.
    + rewrite (proj2 (Nat.leb_gt size i)); [done|].
      assert ((i / 64)%nat <> (nwords size - 1)%nat) by (intros ?; apply Hd; lia). dlia.
  - split; [done|]. split; [done|]. intros i Hi.
    rewrite (proj2 (Nat.leb_gt size i)); [done|]. dlia.
Qed.

Lemma resize_plane_spec size newsize ws pad p junk :
  words_ok ws -> word_ok pad -> word_ok junk -> length ws = nstore size -> size <> newsize ->
  (forall k, (k < 64)%nat -> tb pad k = p) ->
  resized size newsize ws p (resize_plane size newsize ws pad junk).
Proof.
  intros Hok Hpad Hj Hl Hne Hp. unfold resize_plane.
  pose proof (nwords_spec size) as Hw. pose proof (nwords_spec newsize) as Hw'.
  destruct (Nat.ltb_spec 64 newsize) as [Hlong|Hshort].
  2:{ assert (word_ok (wd ws 0)) by auto with word_db.
      assert (forall i, (i < newsize)%nat -> wsbit ws i = tb (wd ws 0) i) as H0
        by (intros; apply wsbit_val; lia).
      destruct (Nat.ltb_spec size newsize); unfold resized; rewrite nstore_short by done;
        (split; [done|]; split; [apply Forall_singleton; auto with word_db|]; intros i Hi;
         rewrite wsbit_cons_low by lia).
      - rewrite (tb_pad_word _ _ p) by (done || lia). by rewrite H0.
      - rewrite (proj2 (Nat.ltb_lt i size)) by lia. by rewrite H0. }
  unfold resized. rewrite nstore_long by done.
  destruct (Nat.eqb_spec (nwords newsize) (nwords size)) as [Heq|Hneq].
  - assert (64 < size)%nat by lia. rewrite nstore_long in Hl by done.
    destruct (pad_tail_spec size newsize ws pad p (nwords size)) as (H1 & H2 & H3); [done..|].
    split; [by rewrite Heq|]. split; [done|]. intros i Hi. rewrite H3 by lia.
    destruct (Nat.ltb_spec size newsize), (Nat.leb_spec size i), (Nat.ltb_spec i size);
      simpl; done || lia.
  - set (trans := if (1 <? nwords size)%nat then Nat.min (nwords size) (nwords newsize) else 1%nat).
    set (newbits := map (fun idx => if (idx <? trans)%nat then wd ws idx else junk)
      (seq 0 (nwords newsize))).
    assert (Hnb : words_ok newbits).
    { apply words_ok_map_seq. intros k. cbv beta. destruct (k <? trans)%nat; auto with word_db. }
    assert (Hnl : length newbits = nwords newsize) by (unfold newbits; by rewrite length_map, length_seq).
    assert (Hnbits : forall i, (i < size)%nat -> (i < newsize)%nat -> wsbit newbits i = wsbit ws i).
    { intros i Hi Hi'. unfold newbits. rewrite wsbit_map_seq by lia.
      rewrite (proj2 (Nat.ltb_lt _ trans)); [done|].
      unfold trans. destruct (Nat.ltb_spec 1 (nwords size)); dlia. }
    destruct (Nat.ltb_spec size newsize) as [Hgrow|Hshrink]; cbn [andb].
    + destruct (pad_tail_spec size newsize newbits pad p (nwords newsize))
        as (H1 & H2 & H3); [done|done|dlia|done|].
      rewrite (proj2 (Nat.ltb_lt size newsize)) in * by done. cbn [andb] in *.
      split; [by rewrite length_map, length_seq|].
      split; [apply words_ok_map_seq; intros k; cbv beta; destruct (nwords size <=? k)%nat; auto with word_db|].
      intros i Hi. rewrite wsbit_map_seq by lia.
      destruct (Nat.leb_spec (nwords size) (i / 64)).
      * rewrite (proj2 (Nat.ltb_ge i size)) by dlia. apply Hp, Nat.mod_upper_bound. lia.
      * match goal with |- tb (wd ?l _) _ = _ => fold (wsbit l i) end.
        rewrite H3 by dlia. destruct (Nat.leb_spec size i), (Nat.ltb_spec i size); try lia; [done|].
        by apply Hnbits.
    + split; [done|]. split; [done|]. intros i Hi.
      rewrite (proj2 (Nat.ltb_lt i size)) by lia. apply Hnbits; lia.
Qed.

Lemma word_pad_bits b k :
  (k < 64)%nat -> tb (word_pad_abits b) k = bit4_abit b /\ tb (word_pad_bbits b) k = bit4_bbit b.
Proof.
  intros Hk. assert (Hm : tb WORD_X_ABITS k = true).
  { change WORD_X_ABITS with w_max. rewrite tb_max. by apply Nat.ltb_lt. }
  destruct b; simpl; change WORD_1_ABITS with WORD_X_ABITS; change WORD_X_BBITS with WORD_X_ABITS;
    change WORD_Z_BBITS with WORD_X_ABITS; rewrite ?Hm; split; try done; apply tb_0.
Qed.

Lemma word_pad_ok b : word_ok (word_pad_abits b) /\ word_ok (word_pad_bbits b).
Proof. destruct b; vm_compute; repeat split; congruence. Qed.

Lemma resize_value v n b :
  wf4 v ->
  wf4 (resize v n b) /\ size_ (resize v n b) = n /\
  forall i, (i < n)%nat -> value (resize v n b) i = if (i <? size_ v)%nat then value v i else b.
Proof.
  intros Hv. pose proof Hv as (La & Lb & Oa & Ob). unfold resize.
  destruct (Nat.eqb_spec (size_ v) n) as [<-|Hne].
  { split; [done|]. split; [done|]. intros i Hi. by rewrite (proj2 (Nat.ltb_lt i _)). }
  destruct (word_pad_ok b) as [Pa Pb].
  destruct (resize_plane_spec (size_ v) n (abits_ v) (word_pad_abits b) (bit4_abit b) 0)
    as (A1 & A2 & A3); auto with word_db; [intros; by apply word_pad_bits|].
  destruct (resize_plane_spec (size_ v) n (bbits_ v) (word_pad_bbits b) (bit4_bbit b) 0)
    as (B1 & B2 & B3); auto with word_db; [intros; by apply word_pad_bits|].
  match goal with |- wf4 ?r /\ _ => assert (wf4 r) as Hwf by done end.
  split; [done|]. split; [done|]. intros i Hi. rewrite value_wsbit by done.
  cbn [abits_ bbits_]. rewrite A3, B3 by done. destruct (Nat.ltb_spec i (size_ v)).
  - by rewrite value_wsbit.
  - apply bit4_of_ab_bits.
Qed.

(** *** The part-select constructor *)

Lemma tb_part_low that off m j :
  (off < 64)%nat -> mask_range m 0 off -> (j < 64)%nat -> word_ok that ->
  tb (w_shr (Z.land that (w_not m)) off) j = (j <? 64 - off)%nat && tb that (j + off).
Proof.
  intros Ho [Hm Hb] Hj Ht. rewrite tb_shr, tb_land, tb_not by done.
  destruct (Nat.ltb_spec j (64 - off)).
  - rewrite (proj2 (Nat.ltb_lt (j + off) 64)), Hb by lia.
    rewrite (proj2 (Nat.ltb_ge (j + off) off)) by lia. by rewrite !andb_true_r.
  - rewrite (tb_high that) by (done || lia). done.
Qed.

Lemma part_long_spec src dst0 adr wid :
  words_ok src -> words_ok dst0 -> (wid <= 64 * length dst0)%nat -> (0 < wid)%nat ->
  returns (part_long_plane src dst0 adr wid) (fun ws =>
    length ws = length dst0 /\ words_ok ws /\
    forall i, (i < wid)%nat -> wsbit ws i = wsbit src (adr + i)).
Proof.
  intros Hs Hd Hw Hpos. unfold part_long_plane.
  set (off := (adr mod 64)%nat). set (base := (adr / 64)%nat).
  assert (off < 64)%nat as Ho by (apply Nat.mod_upper_bound; lia).
  assert (adr = 64 * base + off)%nat as Hadr by (unfold base, off; dlia).
  pose proof (mask_range_mask off Ho) as Hm.
  eapply returns_bind.
  { apply (returns_while (fun s => let '(trans, ptr, dst, ws) := s in
      length ws = length dst0 /\ words_ok ws /\
      ((trans < wid)%nat -> trans = (64 * dst)%nat /\ ptr = (base + dst)%nat) /\
      forall i, (i < wid)%nat -> (i < trans)%nat -> wsbit ws i = wsbit src (adr + i))
      (fun s => let '(trans, _, _, _) := s in (wid - trans)%nat)).
    - split; [done|]. split; [done|]. split; [lia|]. intros i _ Hi. lia.
    - lia.
    - intros [[[trans ptr] dst] ws] (Hl & Hok & Hpos' & Hb) Hc.
      apply Nat.ltb_lt in Hc. destruct (Hpos' Hc) as [-> ->]. clear Hpos'.
      assert (Hlow : forall j, (j < 64)%nat ->
        tb (w_shr (Z.land (wd src (base + dst)) (w_not (w_mask off))) off) j =
        (j <? 64 - off)%nat && wsbit src (adr + (64 * dst + j))).
      { intros j Hj. rewrite (tb_part_low _ _ _ _ Ho Hm Hj) by auto with word_db.
        apply andb_guard. intros Hr%Nat.ltb_lt. unfold wsbit. f_equal; [f_equal|]; dlia. }
      set (low := w_shr _ off) in *.
      assert (word_ok low) as Hlok by (unfold low; auto with word_db).
      assert (dst < length ws)%nat by lia.
      destruct (Nat.leb_spec wid (64 * dst + (64 - off))) as [Hbrk|Hgo].
      { apply returns_ret. split; [|lia]. split; [by rewrite length_insert|].
        split; [auto with word_db|]. split; [lia|]. intros i Hi Hi'.
        rewrite wsbit_insert. case_decide as Hd'.
        - rewrite Hlow by (apply Nat.mod_upper_bound; lia).
          rewrite (proj2 (Nat.ltb_lt (i mod 64) _)) by dlia. simpl. f_equal. dlia.
        - apply Hb; [done|]. assert ((i / 64)%nat <> dst) by tauto. dlia. }
      destruct (Nat.eqb_spec (64 - off) 64) as [Hal|Hnal]; cbn [negb].
      { apply returns_ret. split; [|lia]. split; [by rewrite length_insert|].
        split; [auto with word_db|]. split; [lia|]. intros i Hi Hi'.
        rewrite wsbit_insert. case_decide as Hd'.
        - rewrite Hlow by (apply Nat.mod_upper_bound; lia).
          rewrite (proj2 (Nat.ltb_lt (i mod 64) _)) by dlia. simpl. f_equal. dlia.
        - apply Hb; [done|]. assert ((i / 64)%nat <> dst) by tauto. dlia. }
      apply returns_ret. split; [|lia]. rewrite list_insert_insert_eq.
      split; [by rewrite length_insert|]. rewrite wd_insert, decide_True by done.
      split; [auto with word_db|]. split; [lia|]. intros i Hi Hi'.
      rewrite wsbit_insert. case_decide as Hd'.
      + assert (i mod 64 < 64)%nat by (apply Nat.mod_upper_bound; lia).
        rewrite tb_lor, Hlow, tb_shl, tb_land, tb_mask, (proj2 (Nat.ltb_lt (i mod 64) 64)) by lia.
        cbn [andb]. destruct (Nat.ltb_spec (i mod 64) (64 - off)).
        * rewrite (proj2 (Nat.leb_gt (64 - off) (i mod 64))) by lia. simpl.
          rewrite orb_false_r. f_equal. dlia.
        * rewrite (proj2 (Nat.leb_le (64 - off) (i mod 64))) by lia.
          rewrite (proj2 (Nat.ltb_lt (i mod 64 - (64 - off)) off)) by lia.
          simpl. rewrite andb_true_r. unfold wsbit. f_equal; [f_equal|]; dlia.
      + apply Hb; [done|]. assert ((i / 64)%nat <> dst) by tauto. dlia. }
  intros [[[trans ptr] dst] ws] [(Hl & Hok & _ & Hb) Hc]. apply Nat.ltb_ge in Hc.
  apply returns_ret. split; [done|]. split; [done|]. intros i Hi. apply Hb; lia.
Qed.

Lemma part_word_spec src adr wid :
  words_ok src -> (0 < wid <= 64)%nat ->
  word_ok (part_word_plane src adr wid) /\
  forall i, (i < wid)%nat -> tb (part_word_plane src adr wid) i = wsbit src (adr + i).
Proof.
  intros Hs Hw. unfold part_word_plane.
  set (off := (adr mod 64)%nat). set (base := (adr / 64)%nat).
  assert (off < 64)%nat as Ho by (apply Nat.mod_upper_bound; lia).
  assert (adr = 64 * base + off)%nat as Hadr by (unfold base, off; dlia).
  set (trans := Nat.min (64 - off) wid).
  destruct (Nat.eqb_spec trans 64).
  { split; [auto with word_db|]. intros i Hi. unfold wsbit. f_equal; [f_equal|]; dlia. }
  assert (Hlow : forall j, (j < 64)%nat ->
    tb (w_shr (Z.land (wd src base) (w_shl (w_mask trans) off)) off) j =
    (j <? trans)%nat && wsbit src (adr + j)).
  { intros j Hj. rewrite tb_shr, tb_land, tb_shl, tb_mask by lia.
    destruct (Nat.ltb_spec j trans).
    - rewrite (proj2 (Nat.ltb_lt (j + off) 64)), (proj2 (Nat.leb_le off (j + off))) by lia.
      rewrite (proj2 (Nat.ltb_lt (j + off - off) trans)) by lia. rewrite andb_true_r. simpl.
      unfold wsbit. f_equal; [f_equal|]; dlia.
    - rewrite (proj2 (Nat.ltb_ge (j + off - off) trans)) by lia. by rewrite !andb_false_r. }
  destruct (Nat.ltb_spec trans wid).
  - split; [auto with word_db|]. intros i Hi.
    rewrite tb_lor, Hlow, tb_shl, tb_land, tb_mask, (proj2 (Nat.ltb_lt i 64)) by lia.
    cbn [andb]. destruct (Nat.ltb_spec i trans).
    + rewrite (proj2 (Nat.leb_gt trans i)) by lia. simpl. by rewrite orb_false_r.
    + rewrite (proj2 (Nat.leb_le trans i)) by lia.
      rewrite (proj2 (Nat.ltb_lt (i - trans) (wid - trans))) by lia.
      simpl. rewrite andb_true_r. unfold wsbit. f_equal; [f_equal|]; dlia.
  - split; [auto with word_db|]. intros i Hi. rewrite Hlow by lia.
    by rewrite (proj2 (Nat.ltb_lt i trans)) by lia.
Qed.

Lemma vector4_part_returns that adr wid :
  wf4 that ->
  returns (vector4_part that adr wid) (fun r =>
    wf4 r /\ size_ r = wid /\ forall i, (i < wid)%nat -> value r i = value that (adr + i)).
Proof.
  intros Hwf. pose proof Hwf as (La & Lb & Oa & Ob). unfold vector4_part.
  change (allocate_words_ wid WORD_X_ABITS WORD_X_BBITS) with (vector4_fill wid BIT4_X).
  pose proof (size_fill wid BIT4_X) as Hsz.
  destruct (Nat.leb_spec (size_ that) adr) as [Hfar|Hnear].
  { apply returns_ret. split; [apply fill_wf|]. split; [done|]. intros i Hi.
    rewrite value_fill by done. by rewrite value_ge by lia. }
  destruct (Nat.ltb_spec (size_ that) (adr + wid)) as [Hover|Hin].
  { eapply returns_mono.
    - apply (returns_for (fun k t => wf4 t /\ size_ t = wid /\ forall i, (i < wid)%nat ->
        value t i = if (i <? k)%nat then value that (adr + i) else BIT4_X)).
      + split; [apply fill_wf|]. split; [done|]. intros i Hi. by rewrite value_fill.
      + intros k t Hk (H1 & H2 & H3). eapply returns_mono; [apply set_bit_returns; [done|lia]|].
        intros r (R1 & R2 & R3). split; [done|]. split; [lia|]. intros i Hi. rewrite R3, H3 by done.
        destruct (Nat.eqb_spec i k), (Nat.ltb_spec i k), (Nat.ltb_spec i (S k)); subst; done || lia.
    - intros r (H1 & H2 & H3). split; [done|]. split; [done|]. intros i Hi. rewrite H3 by done.
      destruct (Nat.ltb_spec i (0 + (size_ that - adr))); [done|]. by rewrite value_ge by lia. }
  assert (Hval : forall a b : list Z, wf4 (mk_vector4 wid a b) ->
    (forall i, (i < wid)%nat -> wsbit a i = wsbit (abits_ that) (adr + i)) ->
    (forall i, (i < wid)%nat -> wsbit b i = wsbit (bbits_ that) (adr + i)) ->
    forall i, (i < wid)%nat -> value (mk_vector4 wid a b) i = value that (adr + i)).
  { intros a b H Ha Hb i Hi. rewrite !value_wsbit by (done || lia). simpl. by rewrite Ha, Hb. }
  destruct (Nat.ltb_spec 64 wid) as [Hlong|Hshort].
  { destruct (fill_wf wid BIT4_X) as (Ka & Kb & Ja & Jb).
    rewrite Hsz in Ka, Kb. pose proof (nstore_spec wid).
    eapply returns_bind; [apply part_long_spec; [done|done|lia|lia]|].
    intros a (A1 & A2 & A3).
    eapply returns_bind; [apply part_long_spec; [done|done|lia|lia]|].
    intros b (B1 & B2 & B3). apply returns_ret.
    assert (wf4 (mk_vector4 wid a b)) by (split_and!; simpl; try done; lia).
    split; [done|]. split; [done|]. by apply Hval. }
  assert (Hone : forall a b, word_ok a -> word_ok b ->
    (forall i, (i < wid)%nat -> tb a i = wsbit (abits_ that) (adr + i)) ->
    (forall i, (i < wid)%nat -> tb b i = wsbit (bbits_ that) (adr + i)) ->
    returns (Some (mk_vector4 wid [a] [b])) (fun r =>
      wf4 r /\ size_ r = wid /\ forall i, (i < wid)%nat -> value r i = value that (adr + i))).
  { intros a b Ha Hb H1 H2. apply returns_ret. assert (wf4 (mk_vector4 wid [a] [b])) by auto with word_db.
    split; [done|]. split; [done|]. apply Hval; [done|..]; intros i Hi; rewrite wsbit_val by lia;
      [by apply H1|by apply H2]. }
  destruct (decide (wid = 0)%nat) as [->|Hw0].
  { destruct (Nat.ltb_spec 64 (size_ that)); [|cbn [Nat.eqb]]; apply Hone; intros; try lia.
    all: unfold part_word_plane, abits_val_, bbits_val_.
    all: rewrite ?Nat.min_0_r; cbn [Nat.eqb]; rewrite ?(proj2 (Nat.ltb_ge 0 0)) by lia;
      auto 6 with word_db. }
  destruct (Nat.ltb_spec 64 (size_ that)).
  { destruct (part_word_spec (abits_ that) adr wid Oa ltac:(lia)).
    destruct (part_word_spec (bbits_ that) adr wid Ob ltac:(lia)). by apply Hone. }
  pose proof (wf4_wd_a that 0 Hwf). pose proof (wf4_wd_b that 0 Hwf).
  destruct (Nat.eqb_spec wid 64).
  { apply Hone; [done|done|..]; intros i Hi; rewrite wsbit_val by lia; unfold abits_val_, bbits_val_;
      f_equal; lia. }
  assert (Hmask : forall w i, (i < wid)%nat ->
    tb (w_shr (Z.land w (w_shl (w_mask wid) adr)) adr) i = tb w (adr + i)).
  { intros w i Hi. rewrite tb_shr, tb_land, tb_shl, tb_mask by lia.
    rewrite (proj2 (Nat.ltb_lt (i + adr) 64)), (proj2 (Nat.leb_le adr (i + adr))) by lia.
    rewrite (proj2 (Nat.ltb_lt (i + adr - adr) wid)) by lia. simpl. rewrite andb_true_r. f_equal. lia. }
  apply Hone; unfold abits_val_, bbits_val_; auto with word_db;
    intros i Hi; rewrite Hmask, wsbit_val by lia; done.
Qed.

(** ** Properties *)

(** [set_vec] replaces exactly the addressed bits, whichever of its four
    word-shifting cases runs (one word, one word into several, aligned, shifted),
    its result tells whether a bit changed, and [subvalue] of the same part then
    reads the value back.  A part that does not fit fails the assertion. *)
Theorem set_vec_spec v adr that :
  wf4 v -> wf4 that -> (0 < size_ that)%nat ->
  if (adr + size_ that <=? size_ v)%nat then
    returns (set_vec v adr that) (fun '(r, diff) =>
      wf4 r /\
      bits r = take adr (bits v) ++ bits that ++ drop (adr + size_ that) (bits v) /\
      (diff = true <-> bits r <> bits v) /\
      returns (subvalue r adr (size_ that)) (fun p => bits p = bits that))
  else set_vec v adr that = None.
Proof.
  intros Hv Ht Hn. destruct (Nat.leb_spec (adr + size_ that) (size_ v)) as [Ha|Ha].
  2:{ unfold set_vec. by rewrite (proj2 (Nat.leb_gt _ _)). }
  eapply returns_mono; [by apply set_vec_returns|].
  intros [r d]; cbn [fst snd]. intros (H1 & H2 & H3 & H4).
  split; [done|]. split; [by apply bits_splice|]. split.
  - rewrite bits_ext, H2. destruct d; split; try done.
    + intros _ [_ H]. assert (true = false) as Hf; [|done].
      apply H4. intros i Hi. specialize (H i ltac:(lia)). rewrite H3 in H.
      rewrite (proj2 (tb_range _ _ _)) in H by lia. done.
    + intros H. destruct H. split; [done|]. intros i Hi. rewrite H3.
      destruct ((adr <=? i)%nat && (i <? adr + size_ that)%nat) eqn:E; [|done].
      apply tb_range in E. symmetry. by apply H4.
  - eapply returns_mono; [by apply vector4_part_returns|].
    intros p (P1 & P2 & P3). apply bits_ext. rewrite P2. split; [done|]. intros i Hi.
    rewrite P3, H3 by done. rewrite (proj2 (tb_range _ _ _)) by lia. f_equal. lia.
Qed.

(** Two 70-bit values into a 200-bit vector, at 3 (shifted) and at 64 (aligned). *)
Lemma set_vec_spec_witness :
  returns (set_vec (vector4_fill 200 BIT4_0) 3 (vector4_fill 70 BIT4_1)) (fun '(r, diff) =>
    diff = true /\ value r 72 = BIT4_1 /\ value r 73 = BIT4_0) /\
  set_vec (vector4_fill 100 BIT4_0) 64 (vector4_fill 70 BIT4_1) = None.
Proof.
  split.
  - pose proof (set_vec_spec (vector4_fill 200 BIT4_0) 3 (vector4_fill 70 BIT4_1)
      (fill_wf _ _) (fill_wf _ _) ltac:(simpl; lia)) as H. simpl in H.
    eapply returns_mono; [exact H|]. intros [r d] (Hr & Hb & Hd & _).
    assert (Hsz : size_ r = 200%nat) by (rewrite <- length_bits, Hb; vm_compute; reflexivity).
    split; [|split].
    + apply Hd. rewrite Hb. vm_compute. discriminate.
    + apply (inj Some). rewrite <- lookup_bits, Hb by lia. vm_compute. reflexivity.
    + apply (inj Some). rewrite <- lookup_bits, Hb by lia. vm_compute. reflexivity.
  - exact (set_vec_spec (vector4_fill 100 BIT4_0) 64 (vector4_fill 70 BIT4_1)
      (fill_wf _ _) (fill_wf _ _) ltac:(simpl; lia)).
Defined.

(** [subvalue] (the part-select constructor) always returns: the selected
    bits of the source, with X for every position beyond its end, in each of the
    six cases of the code; and [resize] keeps the low bits and fills with the
    padding bit. *)
Theorem subvalue_resize_spec v adr wid n pad :
  wf4 v ->
  returns (subvalue v adr wid) (fun r =>
    wf4 r /\ bits r = map (fun i => value v (adr + i)) (seq 0 wid)) /\
  wf4 (resize v n pad) /\
  bits (resize v n pad) = take n (bits v) ++ replicate (n - size_ v) pad.
Proof.
  intros Hv. split.
  - eapply returns_mono; [by apply vector4_part_returns|]. intros r (H1 & H2 & H3).
    split; [done|]. by apply bits_eq.
  - destruct (resize_value v n pad Hv) as (H1 & H2 & H3). split; [done|].
    apply bits_eq_list; rewrite H2.
    + rewrite length_app, length_take, length_replicate, length_bits. lia.
    + intros i Hi. rewrite H3 by done. destruct (Nat.ltb_spec i (size_ v)).
      * rewrite lookup_app_l by (rewrite length_take, length_bits; lia).
        rewrite lookup_take_lt by lia. by apply lookup_bits.
      * rewrite lookup_app_r by (rewrite length_take, length_bits; lia).
        apply lookup_replicate. rewrite length_take, length_bits. split; [done|lia].
Qed.

Lemma subvalue_resize_spec_witness :
  returns (subvalue (vector4_fill 130 BIT4_1) 60 100) (fun r =>
    bits r = replicate 70 BIT4_1 ++ replicate 30 BIT4_X) /\
  bits (resize (vector4_fill 130 BIT4_1) 200 BIT4_Z) = replicate 130 BIT4_1 ++ replicate 70 BIT4_Z.
Proof.
  destruct (subvalue_resize_spec (vector4_fill 130 BIT4_1) 60 100 200 BIT4_Z (fill_wf _ _))
    as (H1 & _ & H2).
  split.
  - eapply returns_mono; [exact H1|]. intros r (_ & ->). vm_compute. reflexivity.
  - rewrite H2. vm_compute. reflexivity.
Defined.
