(* ===== verification/Vec4Arith.v ===== *)
(** * Arithmetic, comparison and conversion of vectors ([vvp/vvp_net.cc])

    [add], [sub], [mul] and [operator +=] of [vvp_vector4_t], [compare_gtge] and
    [compare_gtge_signed], and the conversions [vector4_to_value] to the native
    integer types; they are related to arithmetic on the number a bit list
    stands for ([bits_to_Z]). *)

From Stdlib Require Import ZArith Lia Bool.
From stdpp Require Import base numbers list.
From S2P Require Import Prelude Bit4 Words Vec4.

Open Scope Z_scope.

(** ** Definitions *)

Section word_scope_definitions.
Open Scope word_scope.

(** *** [add] and [sub] *)

(** The loop over the whole words: it leaves through [x_out] ([None]) at the
    first word with an unknown bit.  [sub] adds the complement: [inv] is [~]
    there and the identity in [add]. *)
Fixpoint add_loop (inv : Z -> Z) (n idx : nat) (v that : vvp_vector4_t) (abits : list Z) (carry : Z) :
    option (list Z * Z) :=
  match n with
  | O => Some (abits, carry)
  | S n' =>
      if negb ((wd (bbits_ v) idx .| wd (bbits_ that) idx) =? 0) then None
      else
        let '(sum, carry) := add_with_carry (wd abits idx) (inv (wd (abits_ that) idx)) carry in
        add_loop inv n' (S idx) v that (<[idx := sum]> abits) carry
  end.

(** The tail word, masked. *)
Definition add_tail (inv : Z -> Z) (v that : vvp_vector4_t) (abits : list Z) (carry : Z) :
    option (list Z) :=
  let cnt := (size_ v / BITS_PER_WORD)%nat in
  let tail := (size_ v mod BITS_PER_WORD)%nat in
  if (0 <? tail)%nat then
    let mask := w_nmask tail in
    if negb (((wd (bbits_ v) cnt .| wd (bbits_ that) cnt) .& mask) =? 0) then None
    else
      let '(sum, _) := add_with_carry (wd abits cnt) (inv (wd (abits_ that) cnt)) carry in
      Some (<[cnt := sum .& mask]> abits)
  else Some abits.

(** The words written at [x_out]. *)
Definition x_out_words (size : nat) (x : Z) : list Z :=
  let cnt := (size / BITS_PER_WORD)%nat in
  let tail := (size mod BITS_PER_WORD)%nat in
  replicate cnt x ++ (if (0 <? tail)%nat then [x .& w_nmask tail] else []).

Definition add_long (inv : Z -> Z) (carry : Z) (v that : vvp_vector4_t) : vvp_vector4_t :=
  match ('(abits, carry) ← add_loop inv (size_ v / BITS_PER_WORD) 0 v that (abits_ v) carry;
         add_tail inv v that abits carry) with
  | Some abits => mk_vector4 (size_ v) abits (bbits_ v)
  | None => mk_vector4 (size_ v) (x_out_words (size_ v) WORD_X_ABITS)
                                 (x_out_words (size_ v) WORD_X_BBITS)
  end.

(** The two short cases; [op] is the word operation. *)
Definition arith_short (op : Z -> Z -> Z) (v that : vvp_vector4_t) : vvp_vector4_t :=
  if (size_ v <? BITS_PER_WORD)%nat then
    let mask := w_nmask (size_ v) in
    if negb (((bbits_val_ v .| bbits_val_ that) .& mask) =? 0)
    then mk_vector4 (size_ v) [abits_val_ v .| mask] [bbits_val_ v .| mask]
    else mk_vector4 (size_ v) [op (abits_val_ v) (abits_val_ that) .& mask] [bbits_val_ v]
  else
    if negb ((bbits_val_ v .| bbits_val_ that) =? 0)
    then mk_vector4 (size_ v) [WORD_X_ABITS] [WORD_X_BBITS]
    else mk_vector4 (size_ v) [op (abits_val_ v) (abits_val_ that)] [bbits_val_ v].

Definition vector4_add (v that : vvp_vector4_t) : option vvp_vector4_t :=
  assert_ (size_ v =? size_ that)%nat;;
  if (size_ v <=? BITS_PER_WORD)%nat then Some (arith_short w_add v that)
  else Some (add_long (fun w => w) 0 v that).

Definition vector4_sub (v that : vvp_vector4_t) : option vvp_vector4_t :=
  assert_ (size_ v =? size_ that)%nat;;
  if (size_ v <=? BITS_PER_WORD)%nat then Some (arith_short w_sub v that)
  else Some (add_long w_not 1 v that).

(** *** [mul] *)

(** The mask of the last word. *)
Definition mul_mask (size : nat) : Z :=
  let tail := (size mod BITS_PER_WORD)%nat in
  if (0 <? tail)%nat then w_nmask tail else w_max.

(** A word of a plane, the last one masked. *)
Definition masked_word (cnt : nat) (mask : Z) (ws : list Z) (idx : nat) : Z :=
  if (idx =? cnt - 1)%nat then wd ws idx .& mask else wd ws idx.

(** [for (mul_b = idx; mul_b < cnt - mul_a; ...)]: one row of the product. *)
Fixpoint mul_row (cnt : nat) (lval : Z) (mul_a : nat) (rvals : nat -> Z) (n mul_b : nat) (res : list Z) : list Z :=
  match n with
  | O => res
  | S n' =>
      let '(tmp, sum) := multiply_with_carry lval (rvals mul_b) in
      let base := (mul_a + mul_b)%nat in
      mul_row cnt lval mul_a rvals n' (S mul_b)
        (ripple add_with_carry base (cnt - base) tmp sum 0 res)
  end.

(** [for (mul_a = idx; mul_a < cnt; ...)] *)
Fixpoint mul_rows (cnt : nat) (lvals rvals : nat -> Z) (n mul_a : nat) (res : list Z) : list Z :=
  match n with
  | O => res
  | S n' =>
      mul_rows cnt lvals rvals n' (S mul_a)
        (mul_row cnt (lvals mul_a) mul_a rvals (cnt - mul_a) 0 res)
  end.

Definition mul_long (v that : vvp_vector4_t) : vvp_vector4_t :=
  let cnt := nwords (size_ v) in
  let mask := mul_mask (size_ v) in
  if existsb (fun idx => negb (masked_word cnt mask (bbits_ v) idx =? 0) ||
                         negb (masked_word cnt mask (bbits_ that) idx =? 0)) (seq 0 cnt)
  then
    mk_vector4 (size_ v) (replicate (cnt - 1) WORD_X_ABITS ++ [WORD_X_ABITS .& mask])
                         (replicate (cnt - 1) WORD_X_BBITS ++ [WORD_X_BBITS .& mask])
  else
    let res := mul_rows cnt (masked_word cnt mask (abits_ v)) (masked_word cnt mask (abits_ that))
                 cnt 0 (replicate cnt 0) in
    mk_vector4 (size_ v) (<[(cnt - 1)%nat := wd res (cnt - 1) .& mask]> res) (bbits_ v).

Definition vector4_mul (v that : vvp_vector4_t) : option vvp_vector4_t :=
  assert_ (size_ v =? size_ that)%nat;;
  if (size_ v <=? BITS_PER_WORD)%nat then Some (arith_short w_mul v that)
  else Some (mul_long v that).

End word_scope_definitions.

(** *** [operator += (int64_t)] *)

Definition vector4_add_int (v : vvp_vector4_t) (that : Z) : option vvp_vector4_t :=
  if has_xz v then Some (vector4_fill (size_ v) BIT4_X)
  else
    let cond s := let '(idx, that, carry, v) := s in
      (idx <? size_ v)%nat && negb ((that =? 0) && bit4_eqb carry BIT4_0) in
    let body s :=
      let '(idx, that, carry, v) := s in
      let that_bit := if Z.odd that then BIT4_1 else BIT4_0 in
      let that := Z.shiftr that 1 in
      if bit4_eqb that_bit BIT4_0 && bit4_eqb carry BIT4_0 then Some (S idx, that, carry, v)
      else
        let '(bit, carry) := bit4_add_with_carry (value v idx) that_bit carry in
        v ← set_bit v idx bit;
        Some (S idx, that, carry, v) in
    '(_, _, _, v) ← while_ (size_ v) cond body (0%nat, that, BIT4_0, v);
    Some v.

(** *** Comparison *)

(** The scan of the common bits, most significant first. *)
Fixpoint compare_bits (lef rig : vvp_vector4_t) (out_if_equal : vvp_bit4_t) (idx : nat) : vvp_bit4_t :=
  match idx with
  | O => out_if_equal
  | S i =>
      if bit4_eqb (value lef i) (value rig i) then compare_bits lef rig out_if_equal i
      else if bit4_eqb (value lef i) BIT4_1 then BIT4_1 else BIT4_0
  end.

Definition compare_gtge (lef rig : vvp_vector4_t) (out_if_equal : vvp_bit4_t) : vvp_bit4_t :=
  let min_size := Nat.min (size_ lef) (size_ rig) in
  if (min_size =? 0)%nat then BIT4_X
  else if has_xz lef then BIT4_X
  else if has_xz rig then BIT4_X
  else if existsb (fun i => bit4_eqb (value lef i) BIT4_1)
            (reverse (seq (size_ rig) (size_ lef - size_ rig))) then BIT4_1
  else if existsb (fun i => bit4_eqb (value rig i) BIT4_1)
            (reverse (seq (size_ lef) (size_ rig - size_ lef))) then BIT4_0
  else compare_bits lef rig out_if_equal min_size.

Definition compare_gtge_signed (a b : vvp_vector4_t) (out_if_equal : vvp_bit4_t) : option vvp_bit4_t :=
  assert_ (size_ a =? size_ b)%nat;;
  let sign_idx := (size_ a - 1)%nat in
  let a_sign := value a sign_idx in
  let b_sign := value b sign_idx in
  if bit4_is_xz a_sign then Some BIT4_X
  else if bit4_is_xz b_sign then Some BIT4_X
  else if bit4_eqb a_sign b_sign then Some (compare_gtge a b out_if_equal)
  else if has_xz a then Some BIT4_X
  else if has_xz b then Some BIT4_X
  else if bit4_eqb a_sign BIT4_0 then Some BIT4_1 else Some BIT4_0.

(** *** Conversion to native integers *)

(** The value of type [INT] with the low [w] bits of [x]: a native integer of
    [w] bits, signed or unsigned. *)
Definition int_cast (w : nat) (int_signed : bool) (x : Z) : Z :=
  let u := x mod 2 ^ Z.of_nat w in
  if int_signed && (2 ^ (Z.of_nat w - 1) <=? u) then u - 2 ^ Z.of_nat w else u.

(** The loop of [vector4_to_value]: [None] is [return false]. *)
Fixpoint to_value_loop (vec : vvp_vector4_t) (is_arithmetic : bool) (n idx : nat) (res msk : Z)
    (rc_flag : bool) : option (Z * bool) :=
  match n with
  | O => Some (res, rc_flag)
  | S n' =>
      match value vec idx with
      | BIT4_0 => to_value_loop vec is_arithmetic n' (S idx) res (2 * msk) rc_flag
      | BIT4_1 => to_value_loop vec is_arithmetic n' (S idx) (Z.lor res msk) (2 * msk) rc_flag
      | _ => if is_arithmetic then None
             else to_value_loop vec is_arithmetic n' (S idx) res (2 * msk) false
      end
  end.

(** [vector4_to_value(vec, val, is_signed, is_arithmetic)] for an [INT] of [w]
    bits: the new [val] if it is assigned, and the return value. *)
Definition vector4_to_value (w : nat) (int_signed : bool) (vec : vvp_vector4_t)
    (is_signed is_arithmetic : bool) : option Z * bool :=
  let size := Nat.min (size_ vec) w in
  match to_value_loop vec is_arithmetic size 0 0 1 true with
  | None => (None, false)
  | Some (res, rc_flag) =>
      let res :=
        if is_signed && bit4_eqb (value vec (size_ vec - 1)) BIT4_1 && (size_ vec <? w)%nat
        then Z.lor res (Z.shiftl (-1) (Z.of_nat (size_ vec))) else res in
      (Some (int_cast w int_signed res), rc_flag)
  end.

(** [vector4_to_value(vec, overflow_flag, val)] for an unsigned 64-bit type: the
    assigned value, the overflow flag and the return value. *)
Fixpoint to_value_ovf_loop (vec : vvp_vector4_t) (n idx : nat) (res msk : Z) (ovf : bool) :
    option (Z * bool) * bool :=
  match n with
  | O => (Some (res, ovf), ovf)
  | S n' =>
      match value vec idx with
      | BIT4_0 => to_value_ovf_loop vec n' (S idx) res (w_shl msk 1) ovf
      | BIT4_1 =>
          if msk =? 0 then to_value_ovf_loop vec n' (S idx) res (w_shl msk 1) true
          else to_value_ovf_loop vec n' (S idx) (Z.lor res msk) (w_shl msk 1) ovf
      | _ => (None, ovf)
      end
  end.

(** The assigned value if any, and the overflow flag. *)
Definition vector4_to_value_ovf (vec : vvp_vector4_t) : option Z * bool :=
  let '(r, ovf) := to_value_ovf_loop vec (size_ vec) 0 0 1 false in (fst <$> r, ovf).

(** *** Reference semantics *)

(** The signed number of a bit list. *)
Definition bits_to_signed_Z (l : list vvp_bit4_t) : Z :=
  bits_to_Z l - (if decide (last l = Some BIT4_1) then 2 ^ Z.of_nat (length l) else 0).

(** A Verilog arithmetic operator on bit lists of the same length: all X if any
    operand bit is unknown, else the low bits of the result. *)
Definition bits_arith (op : Z -> Z -> Z) (x y : list vvp_bit4_t) : list vvp_bit4_t :=
  if list_has_xz x || list_has_xz y then replicate (length x) BIT4_X
  else bits_of_Z (length x) (op (bits_to_Z x) (bits_to_Z y)).

(** A comparison: X if any operand bit is unknown. *)
Definition bits_compare (to_num : list vvp_bit4_t -> Z) (x y : list vvp_bit4_t)
    (out_if_equal : vvp_bit4_t) : vvp_bit4_t :=
  if list_has_xz x || list_has_xz y then BIT4_X
  else match to_num x ?= to_num y with
       | Gt => BIT4_1 | Lt => BIT4_0 | Eq => out_if_equal
       end.

(** ** Lemmas *)

Lemma bits_to_Z_bounds l : 0 <= bits_to_Z l < 2 ^ Z.of_nat (length l).
Proof.
  induction l as [|b l IH]; cbn [bits_to_Z length]; [lia|].
  rewrite Nat2Z.inj_succ, Z.pow_succ_r by lia. destruct (bit4_eqb b BIT4_1); lia.
Qed.

Lemma tb_bits_to_Z l i : tb (bits_to_Z l) i = bool_decide (l !! i = Some BIT4_1).
Proof.
  revert i. induction l as [|b l IH]; intros i; cbn [bits_to_Z].
  - rewrite tb_0, lookup_nil. symmetry. by apply bool_decide_eq_false.
  - unfold tb. destruct i as [|i].
    + change (Z.of_nat 0) with 0. rewrite Z.add_comm.
      destruct (bit4_eqb_spec b BIT4_1) as [->|Hb].
      * rewrite Z.testbit_odd_0. symmetry. by apply bool_decide_eq_true.
      * rewrite Z.add_0_r, Z.testbit_even_0. symmetry. apply bool_decide_eq_false.
        simpl. congruence.
    + rewrite Nat2Z.inj_succ. simpl. rewrite <- IH. unfold tb.
      destruct (bit4_eqb b BIT4_1).
      * rewrite Z.add_comm. apply Z.testbit_odd_succ. lia.
      * rewrite Z.add_0_l. apply Z.testbit_even_succ. lia.
Qed.

Lemma length_bits_of_Z n z : length (bits_of_Z n z) = n.
Proof. unfold bits_of_Z. by rewrite length_map, length_seq. Qed.

Lemma tb_bits_value v i : (i < size_ v)%nat -> tb (bits_to_Z (bits v)) i = bit4_eqb (value v i) BIT4_1.
Proof.
  intros Hi. rewrite tb_bits_to_Z, lookup_bits by done.
  destruct (bit4_eqb_spec (value v i) BIT4_1) as [->|H]; [by apply bool_decide_eq_true|].
  apply bool_decide_eq_false. congruence.
Qed.

(** A vector whose bits are the low bits of [z]. *)
Lemma bits_of_Z_intro v z :
  (forall i, (i < size_ v)%nat -> value v i = bit4_of_bool (tb z i)) -> bits v = bits_of_Z (size_ v) z.
Proof. intros H. unfold bits_of_Z. by apply bits_eq. Qed.

Lemma bits_of_Z_mod n x y : x mod 2 ^ Z.of_nat n = y mod 2 ^ Z.of_nat n -> bits_of_Z n x = bits_of_Z n y.
Proof.
  intros H. unfold bits_of_Z. apply list_eq_same_length with n; [by rewrite length_map, length_seq..|].
  intros i a b Hi. rewrite !lookup_map_seq by done. intros [= <-] [= <-].
  f_equal. by eapply tb_mod_eq.
Qed.

Lemma bits_to_of_Z n z : bits_to_Z (bits_of_Z n z) = z mod 2 ^ Z.of_nat n.
Proof.
  rewrite <- (Z.mod_small (bits_to_Z _) (2 ^ Z.of_nat n)).
  2:{ pose proof (bits_to_Z_bounds (bits_of_Z n z)). by rewrite length_bits_of_Z in *. }
  apply tb_mod_ext. intros i Hi. rewrite tb_bits_to_Z. unfold bits_of_Z.
  rewrite lookup_map_seq by done. by destruct (tb z i).
Qed.

Lemma no_xz_bits v :
  wf4 v -> list_has_xz (bits v) = false <->
  forall i, (i < size_ v)%nat -> wsbit (bbits_ v) i = false.
Proof.
  intros Hv. rewrite list_has_xz_false. split.
  - intros H i Hi. specialize (H i _ (lookup_bits v i Hi)).
    revert H. by rewrite value_wsbit, bit4_is_xz_bbit, bit4_of_ab_bbit by done.
  - intros H i x Hx. assert (i < size_ v)%nat as Hi
      by (rewrite <- length_bits; by eapply lookup_lt_Some).
    rewrite lookup_bits in Hx by done. injection Hx as <-.
    rewrite value_wsbit, bit4_is_xz_bbit, bit4_of_ab_bbit by done. auto.
Qed.

(** Without unknown bits the abits are the number. *)
Lemma abits_number v i :
  wf4 v -> list_has_xz (bits v) = false -> (i < size_ v)%nat ->
  tb (bits_to_Z (bits v)) i = wsbit (abits_ v) i.
Proof.
  intros Hv Hxz Hi. rewrite tb_bits_value, value_wsbit by done.
  rewrite (proj1 (no_xz_bits v Hv) Hxz i Hi). by destruct (wsbit (abits_ v) i).
Qed.

Lemma known_value v i a :
  wf4 v -> (i < size_ v)%nat -> wsbit (bbits_ v) i = false -> wsbit (abits_ v) i = a ->
  value v i = bit4_of_bool a.
Proof. intros Hv Hi Hb <-. rewrite value_wsbit, Hb by done. by destruct (wsbit (abits_ v) i). Qed.

(** The test of a masked or of bbits of both operands. *)
Lemma lor_land_zero x y n :
  (n < 64)%nat -> word_ok x -> word_ok y ->
  (Z.land (Z.lor x y) (w_nmask n) =? 0) = true <->
  forall i, (i < n)%nat -> tb x i = false /\ tb y i = false.
Proof.
  intros Hn Hx Hy. rewrite w_nmask_mask, Z.eqb_eq by done.
  rewrite <- (Z.land_0_l (w_mask n)), land_mask_eq by auto with word_db.
  split; intros H i Hi; specialize (H i Hi); rewrite tb_lor, tb_0 in *.
  - by apply orb_false_iff.
  - by apply orb_false_iff.
Qed.

Lemma lor_zero x y :
  word_ok x -> word_ok y ->
  (Z.lor x y =? 0) = true <-> forall i, (i < 64)%nat -> tb x i = false /\ tb y i = false.
Proof.
  intros Hx Hy. rewrite Z.eqb_eq, word_eq_bits by auto with word_db.
  split; intros H i Hi; specialize (H i Hi); rewrite tb_lor, tb_0 in *; by apply orb_false_iff.
Qed.

Lemma list_has_xz_or v w :
  wf4 v -> wf4 w -> size_ w = size_ v ->
  list_has_xz (bits v) || list_has_xz (bits w) = false <->
  forall i, (i < size_ v)%nat -> wsbit (bbits_ v) i = false /\ wsbit (bbits_ w) i = false.
Proof.
  intros Hv Hw Hs. rewrite orb_false_iff, !no_xz_bits, Hs by done.
  split; [intros [? ?]; auto|]. intros H. split; intros i Hi; by apply H.
Qed.

(** The result of an operation is [bits_arith]. *)
Lemma arith_intro op r v w :
  wf4 v -> wf4 w -> size_ w = size_ v -> size_ r = size_ v ->
  (list_has_xz (bits v) || list_has_xz (bits w) = true ->
     forall i, (i < size_ v)%nat -> value r i = BIT4_X) ->
  (list_has_xz (bits v) || list_has_xz (bits w) = false ->
     forall i, (i < size_ v)%nat ->
       value r i = bit4_of_bool (tb (op (bits_to_Z (bits v)) (bits_to_Z (bits w))) i)) ->
  bits r = bits_arith op (bits v) (bits w).
Proof.
  intros Hv Hw Hs Hr H1 H2. unfold bits_arith. rewrite length_bits, <- Hr.
  destruct (list_has_xz (bits v) || list_has_xz (bits w)).
  - apply bits_eq_list; [by rewrite length_replicate|]. intros i Hi.
    rewrite H1 by (done || congruence). by apply lookup_replicate_2.
  - apply bits_of_Z_intro. intros i Hi. apply H2; [done|]. congruence.
Qed.

(** *** The short case *)

(** A word operation that is arithmetic modulo any power of two below 2^64. *)
Definition word_arith (wop op : Z -> Z -> Z) : Prop :=
  (forall x y, word_ok (wop x y)) /\
  forall x y x' y' n, (n <= 64)%nat ->
    x mod 2 ^ Z.of_nat n = x' mod 2 ^ Z.of_nat n ->
    y mod 2 ^ Z.of_nat n = y' mod 2 ^ Z.of_nat n ->
    (wop x y) mod 2 ^ Z.of_nat n = (op x' y') mod 2 ^ Z.of_nat n.

Lemma wrap_mod_le x n : (n <= 64)%nat -> w_wrap x mod 2 ^ Z.of_nat n = x mod 2 ^ Z.of_nat n.
Proof.
  intros Hn. apply tb_mod_ext. intros i Hi. rewrite tb_wrap.
  by rewrite (proj2 (Nat.ltb_lt i 64)) by lia.
Qed.

Lemma w_add_arith : word_arith w_add Z.add.
Proof.
  split; [intros; apply w_wrap_ok|]. intros x y x' y' n Hn Hx Hy. unfold w_add.
  rewrite wrap_mod_le, Z.add_mod, Hx, Hy, <- Z.add_mod by (done || lia). done.
Qed.

Lemma w_sub_arith : word_arith w_sub Z.sub.
Proof.
  split; [intros; apply w_wrap_ok|]. intros x y x' y' n Hn Hx Hy. unfold w_sub.
  rewrite wrap_mod_le, Zminus_mod, Hx, Hy, <- Zminus_mod by (done || lia). done.
Qed.

Lemma w_mul_arith : word_arith w_mul Z.mul.
Proof.
  split; [intros; apply w_wrap_ok|]. intros x y x' y' n Hn Hx Hy. unfold w_mul.
  rewrite wrap_mod_le, Z.mul_mod, Hx, Hy, <- Z.mul_mod by (done || lia). done.
Qed.

Lemma word_mod_bits v :
  wf4 v -> (size_ v <= 64)%nat -> list_has_xz (bits v) = false ->
  abits_val_ v mod 2 ^ Z.of_nat (size_ v) = bits_to_Z (bits v) mod 2 ^ Z.of_nat (size_ v).
Proof.
  intros Hv Hs Hxz. apply tb_mod_ext. intros i Hi.
  rewrite abits_number by done. symmetry. apply wsbit_val. lia.
Qed.

Lemma arith_short_spec wop op v w :
  word_arith wop op -> wf4 v -> wf4 w -> size_ w = size_ v -> (size_ v <= 64)%nat ->
  wf4 (arith_short wop v w) /\ size_ (arith_short wop v w) = size_ v /\
  bits (arith_short wop v w) = bits_arith op (bits v) (bits w).
Proof.
  intros [Hok Har] Hv Hw Hs Hsz.
  pose proof (wf4_wd_a v 0 Hv) as Ha. pose proof (wf4_wd_b v 0 Hv) as Hb.
  pose proof (wf4_wd_b w 0 Hw) as Hb'.
  assert (Hx : forall i, (i < size_ v)%nat ->
    wsbit (bbits_ v) i = tb (bbits_val_ v) i /\ wsbit (bbits_ w) i = tb (bbits_val_ w) i /\
    wsbit (abits_ v) i = tb (abits_val_ v) i).
  { intros i Hi. split_and!; apply wsbit_val; lia. }
  assert (Hres : forall i, list_has_xz (bits v) || list_has_xz (bits w) = false -> (i < size_ v)%nat ->
    tb (wop (abits_val_ v) (abits_val_ w)) i =
    tb (op (bits_to_Z (bits v)) (bits_to_Z (bits w))) i).
  { intros i Hxz Hi. apply orb_false_iff in Hxz as [X1 X2].
    apply (tb_mod_eq _ _ (size_ v)); [|done]. apply Har; [done| |].
    - by apply word_mod_bits.
    - rewrite <- Hs. apply word_mod_bits; [done|lia|done]. }
  assert (Hsb : forall i, list_has_xz (bits v) || list_has_xz (bits w) = false -> (i < size_ v)%nat ->
    tb (bbits_val_ v) i = false).
  { intros i Hxz Hi. rewrite list_has_xz_or in Hxz by done. specialize (Hxz i Hi).
    destruct (Hx i Hi) as (E & _ & _). rewrite <- E. apply Hxz. }
  assert (Hxor : list_has_xz (bits v) || list_has_xz (bits w) = false <->
    forall i, (i < size_ v)%nat -> tb (bbits_val_ v) i = false /\ tb (bbits_val_ w) i = false).
  { rewrite list_has_xz_or by done.
    split; intros H i Hi; specialize (H i Hi); destruct (Hx i Hi) as (E1 & E2 & _);
      congruence. }
  assert (Hk : forall w', word_ok w' ->
    (forall i, (i < size_ v)%nat -> tb w' i = tb (wop (abits_val_ v) (abits_val_ w)) i) ->
    list_has_xz (bits v) || list_has_xz (bits w) = false ->
    let r := mk_vector4 (size_ v) [w'] [bbits_val_ v] in
    wf4 r /\ size_ r = size_ v /\ bits r = bits_arith op (bits v) (bits w)).
  { intros w' Hw' Hbits Hxz r. split; [by apply wf4_short|]. split; [done|].
    apply arith_intro; [done..|congruence|]. intros _ i Hi. unfold r.
    rewrite value_short, Hbits, Hres, Hsb by done. by destruct (tb _ i). }
  assert (Hu : forall a b, word_ok a -> word_ok b ->
    (forall i, (i < size_ v)%nat -> tb a i = true /\ tb b i = true) ->
    list_has_xz (bits v) || list_has_xz (bits w) <> false ->
    let r := mk_vector4 (size_ v) [a] [b] in
    wf4 r /\ size_ r = size_ v /\ bits r = bits_arith op (bits v) (bits w)).
  { intros a b Hoa Hob Hab Hxz r. split; [by apply wf4_short|]. split; [done|].
    apply arith_intro; [done..| |congruence]. intros _ i Hi. unfold r.
    rewrite value_short by done. by destruct (Hab i Hi) as [-> ->]. }
  unfold arith_short. destruct (Nat.ltb_spec (size_ v) 64) as [Hlt|Hge].
  - pose proof (word_ok_nmask (size_ v)) as Hm.
    destruct (Z.land (Z.lor (bbits_val_ v) (bbits_val_ w)) (w_nmask (size_ v)) =? 0) eqn:E; cbn [negb].
    + rewrite lor_land_zero, <- Hxor in E by done. apply Hk; [auto with word_db| |done].
      intros i Hi. by rewrite tb_land, tb_nmask, (proj2 (Nat.ltb_lt i (size_ v))), andb_true_r by lia.
    + apply Hu; [auto with word_db..| |].
      * intros i Hi. by rewrite !tb_lor, tb_nmask, (proj2 (Nat.ltb_lt i (size_ v))), !orb_true_r by lia.
      * rewrite Hxor, <- lor_land_zero by done. congruence.
  - assert (size_ v = 64)%nat as H64 by lia.
    destruct (Z.lor (bbits_val_ v) (bbits_val_ w) =? 0) eqn:E; cbn [negb].
    + rewrite lor_zero, <- H64, <- Hxor in E by done. by apply Hk.
    + change WORD_X_ABITS with w_max. change WORD_X_BBITS with w_max.
      apply Hu; [auto with word_db..| |].
      * intros i Hi. by rewrite !tb_max, (proj2 (Nat.ltb_lt i 64)) by lia.
      * rewrite Hxor, H64, <- lor_zero by done. congruence.
Qed.

(** *** The long case of [add] and [sub] *)

Lemma wsum_head f n : wsum f (S n) = f 0%nat + 2 ^ 64 * wsum (fun k => f (S k)) n.
Proof.
  change (S n) with (1 + n)%nat. rewrite wsum_app. simpl (wsum f 1).
  rewrite Z.mul_1_r. f_equal.
Qed.

Lemma add_loop_spec inv v w :
  (forall x, word_ok x -> word_ok (inv x)) -> wf4 v -> wf4 w ->
  forall n idx abits carry, words_ok abits -> 0 <= carry <= 1 -> (idx + n <= length abits)%nat ->
  match add_loop inv n idx v w abits carry with
  | None => exists k, (idx <= k < idx + n)%nat /\ Z.lor (wd (bbits_ v) k) (wd (bbits_ w) k) <> 0
  | Some (res, c) =>
      (forall k, (idx <= k < idx + n)%nat -> Z.lor (wd (bbits_ v) k) (wd (bbits_ w) k) = 0) /\
      length res = length abits /\ words_ok res /\ 0 <= c <= 1 /\
      (forall k, (k < idx \/ idx + n <= k)%nat -> wd res k = wd abits k) /\
      wsum (fun k => wd res (idx + k)) n + 2 ^ (64 * Z.of_nat n) * c =
      wsum (fun k => wd abits (idx + k)) n + wsum (fun k => inv (wd (abits_ w) (idx + k))) n + carry
  end.
Proof.
  intros Hinv Hv Hw. induction n as [|n IH]; intros idx abits carry Hok Hc Hlen; cbn [add_loop].
  - split_and!; [intros; lia|done|done|lia|lia|done|simpl; lia].
  - destruct (Z.lor (wd (bbits_ v) idx) (wd (bbits_ w) idx) =? 0) eqn:E; cbn [negb].
    2:{ apply Z.eqb_neq in E. exists idx. split; [lia|done]. }
    apply Z.eqb_eq in E.
    destruct (add_with_carry_adder (wd abits idx) (inv (wd (abits_ w) idx)) carry)
      as (Hs & Hc' & Hsum); [auto with word_db..|lia|].
    destruct (add_with_carry _ _ carry) as [s c']. cbn [fst snd] in *.
    specialize (IH (S idx) (<[idx := s]> abits) c' ltac:(auto with word_db) Hc').
    rewrite length_insert in IH. specialize (IH ltac:(lia)).
    destruct (add_loop inv n (S idx) v w (<[idx := s]> abits) c') as [[res c]|].
    + destruct IH as (Hz & Hl & Hres & Hcc & Hsame & Heq). split_and!; [|done|done|lia|lia|..].
      * intros k Hk. destruct (decide (k = idx)) as [->|]; [done|]. apply Hz. lia.
      * intros k Hk. rewrite Hsame, wd_insert by lia. by rewrite decide_False by lia.
      * rewrite !wsum_head, Nat.add_0_r, (Hsame idx), wd_insert, decide_True by (lia || done).
        rewrite (wsum_ext (fun k => wd res (idx + S k)) (fun k => wd res (S idx + k)))
          by (intros; f_equal; lia).
        rewrite (wsum_ext (fun k => wd abits (idx + S k)) (fun k => wd (<[idx := s]> abits) (S idx + k)))
          by (intros; rewrite wd_insert, decide_False by lia; f_equal; lia).
        rewrite (wsum_ext (fun k => inv (wd (abits_ w) (idx + S k)))
                          (fun k => inv (wd (abits_ w) (S idx + k))))
          by (intros; do 2 f_equal; lia).
        rewrite pow64_split. lia.
    + destruct IH as (k & Hk & Hne). exists k. split; [lia|done].
Qed.

(** A word of both bbits is zero when its bits are known, and conversely. *)
Lemma bbits_word_zero v w k :
  wf4 v -> wf4 w ->
  Z.lor (wd (bbits_ v) k) (wd (bbits_ w) k) = 0 <->
  forall j, (j < 64)%nat -> wsbit (bbits_ v) (64 * k + j) = false /\ wsbit (bbits_ w) (64 * k + j) = false.
Proof.
  intros Hv Hw. rewrite <- Z.eqb_eq, lor_zero by auto with word_db.
  split; intros H j Hj; specialize (H j Hj); revert H; unfold wsbit;
    by replace ((64 * k + j) / 64)%nat with k by dlia; replace ((64 * k + j) mod 64)%nat with j by dlia.
Qed.

Lemma bbits_words_known v w cnt :
  wf4 v -> wf4 w ->
  (forall k, (k < cnt)%nat -> Z.lor (wd (bbits_ v) k) (wd (bbits_ w) k) = 0) ->
  forall i, (i < 64 * cnt)%nat -> wsbit (bbits_ v) i = false /\ wsbit (bbits_ w) i = false.
Proof.
  intros Hv Hw H i Hi. rewrite (Nat.div_mod_eq i 64).
  apply bbits_word_zero; [done..| |dlia]. apply H. dlia.
Qed.

Lemma bbits_word_unknown v w k m :
  wf4 v -> wf4 w -> (64 * k + 64 <= m)%nat ->
  (forall i, (i < m)%nat -> wsbit (bbits_ v) i = false /\ wsbit (bbits_ w) i = false) ->
  Z.lor (wd (bbits_ v) k) (wd (bbits_ w) k) = 0.
Proof. intros Hv Hw Hk H. apply bbits_word_zero; [done..|]. intros j Hj. apply H. lia. Qed.

(** The tail word of both bbits under the mask. *)
Lemma bbits_tail_zero v w cnt tail :
  wf4 v -> wf4 w -> (tail < 64)%nat ->
  (Z.land (Z.lor (wd (bbits_ v) cnt) (wd (bbits_ w) cnt)) (w_nmask tail) =? 0) = true <->
  forall j, (j < tail)%nat ->
    wsbit (bbits_ v) (64 * cnt + j) = false /\ wsbit (bbits_ w) (64 * cnt + j) = false.
Proof.
  intros Hv Hw Ht. rewrite lor_land_zero by auto with word_db.
  split; intros H j Hj; specialize (H j Hj); revert H; unfold wsbit;
    by replace ((64 * cnt + j) / 64)%nat with cnt by dlia;
       replace ((64 * cnt + j) mod 64)%nat with j by dlia.
Qed.

(** The words computed by the loop and the tail step. *)
Lemma add_words_spec inv v w carry :
  (forall x, word_ok x -> word_ok (inv x)) -> wf4 v -> wf4 w -> size_ w = size_ v ->
  (64 < size_ v)%nat -> 0 <= carry <= 1 ->
  let n := nwords (size_ v) in
  match ('(abits, carry) ← add_loop inv (size_ v / 64) 0 v w (abits_ v) carry;
         add_tail inv v w abits carry) with
  | Some res =>
      list_has_xz (bits v) || list_has_xz (bits w) = false /\
      length res = n /\ words_ok res /\
      forall i, (i < size_ v)%nat ->
        wsbit res i = tb (wsum (wd (abits_ v)) n + wsum (fun k => inv (wd (abits_ w) k)) n + carry) i
  | None => list_has_xz (bits v) || list_has_xz (bits w) = true
  end.
Proof.
  intros Hinv Hv Hw Hs Hlong Hc n.
  pose proof Hv as (Hla & _ & Hoa & _). rewrite nstore_long in Hla by done. fold n in Hla.
  set (cnt := (size_ v / 64)%nat). set (tail := (size_ v mod 64)%nat).
  assert (size_ v = 64 * cnt + tail /\ tail < 64 /\ n = if 0 <? tail then S cnt else cnt)%nat as (Hsz & Htail & Hn).
  { unfold cnt, tail, n, nwords. destruct (Nat.ltb_spec 0 (size_ v mod 64)); dlia. }
  pose proof (add_loop_spec inv v w Hinv Hv Hw cnt 0 (abits_ v) carry Hoa Hc) as Hloop.
  rewrite Hla in Hloop. specialize (Hloop ltac:(clear -Hn; destruct (0 <? tail)%nat; lia)).
  destruct (add_loop inv cnt 0 v w (abits_ v) carry) as [[res c]|]; cbn [mbind option_bind].
  2:{ destruct Hloop as (k & Hk & Hne). apply not_false_is_true. intros Hxz. apply Hne.
      rewrite list_has_xz_or in Hxz by done. apply (bbits_word_unknown v w k (size_ v)); [done..|lia|done]. }
  destruct Hloop as (Hz & Hl & Hok & Hcc & Hsame & Heq). simpl in Heq.
  change (fun k => wd res k) with (wd res) in Heq.
  change (fun k => wd (abits_ v) k) with (wd (abits_ v)) in Heq.
  assert (Hknown := bbits_words_known v w cnt Hv Hw ltac:(intros; apply Hz; lia)).
  unfold add_tail. change BITS_PER_WORD with 64%nat. fold cnt tail.
  destruct (Nat.ltb_spec 0 tail) as [Ht|Ht]; subst n; rewrite Hn in *.
  - destruct (Z.land _ _ =? 0) eqn:E; cbn [negb].
    2:{ apply not_false_is_true. intros Hxz. apply not_true_iff_false in E. apply E.
        rewrite list_has_xz_or in Hxz by done. apply bbits_tail_zero; [done..|]. intros j Hj. apply Hxz. lia. }
    rewrite bbits_tail_zero in E by done.
    destruct (add_with_carry_adder (wd res cnt) (inv (wd (abits_ w) cnt)) c)
      as (Hs' & Hc' & Hsum); [auto with word_db..|lia|].
    destruct (add_with_carry _ _ c) as [s c']. cbn [fst snd] in *.
    split_and!; [|by rewrite length_insert|auto with word_db|].
    + apply list_has_xz_or; [done..|]. intros i Hi.
      destruct (Nat.lt_ge_cases i (64 * cnt)) as [|Hge]; [auto|].
      replace i with (64 * cnt + (i - 64 * cnt))%nat by lia. apply E. lia.
    + intros i Hi. cbn [wsum].
      set (total := _ + _ + carry).
      assert (total = wsum (wd (<[cnt := s]> res)) (S cnt) + c' * 2 ^ (64 * Z.of_nat (S cnt))) as ->.
      { unfold total. cbn [wsum]. rewrite pow64_split, wd_insert, decide_True by (split; [done|lia]).
        rewrite (wsum_ext (wd (<[cnt := s]> res)) (wd res))
          by (intros k Hk; by rewrite wd_insert, decide_False by lia).
        rewrite Hsame in Hsum by lia.
        replace s with (wd (abits_ v) cnt + inv (wd (abits_ w) cnt) + c - 2 ^ 64 * c') by lia.
        revert Heq. clear. generalize (2 ^ (64 * Z.of_nat cnt)). intros P Heq. lia. }
      rewrite tb_add_high, tb_wsum by (auto with word_db || lia).
      unfold wsbit. destruct (decide (i / 64 = cnt)%nat) as [Hic|Hic].
      * rewrite Hic, !wd_insert, !decide_True by (split; [done|lia]).
        rewrite tb_land, tb_nmask, (proj2 (Nat.ltb_lt _ tail)), andb_true_r; [done|dlia|done].
      * rewrite !wd_insert. by destruct (decide _); [lia|].
  - split_and!; [|done|done|].
    + apply list_has_xz_or; [done..|]. intros i Hi. apply Hknown. lia.
    + intros i Hi. rewrite <- Heq, Z.mul_comm, tb_add_high, tb_wsum by (auto with word_db || lia). done.
Qed.

Lemma w_not_sub x : word_ok x -> w_not x = 2 ^ 64 - 1 - x.
Proof.
  intros Hx. unfold word_ok in Hx. unfold w_not.
  rewrite w_wrap_mod. unfold Z.lnot.
  replace (Z.pred (- x)) with (2 ^ 64 - 1 - x + (-1) * 2 ^ 64) by lia.
  rewrite Z.mod_add, Z.mod_small by lia. done.
Qed.

Lemma wsum_not f n :
  (forall k, (k < n)%nat -> word_ok (f k)) ->
  wsum (fun k => w_not (f k)) n = 2 ^ (64 * Z.of_nat n) - 1 - wsum f n.
Proof.
  induction n as [|n IH]; intros H; [done|]. cbn [wsum].
  rewrite IH, w_not_sub, pow64_split by auto with lia. ring.
Qed.

Lemma number_wsum v :
  wf4 v -> list_has_xz (bits v) = false ->
  wsum (wd (abits_ v)) (nstore (size_ v)) mod 2 ^ Z.of_nat (size_ v) =
  bits_to_Z (bits v) mod 2 ^ Z.of_nat (size_ v).
Proof.
  intros Hv Hxz. apply tb_mod_ext. intros i Hi. pose proof (nstore_spec (size_ v)).
  rewrite tb_wsum, abits_number by (auto with word_db || lia). done.
Qed.

(** The words written at [x_out]. *)
Lemma x_out_words_spec n :
  (64 < n)%nat ->
  length (x_out_words n w_max) = nwords n /\ words_ok (x_out_words n w_max) /\
  forall i, (i < n)%nat -> wsbit (x_out_words n w_max) i = true.
Proof.
  intros Hn. unfold x_out_words. change BITS_PER_WORD with 64%nat.
  assert (words_ok (if (0 <? n mod 64)%nat then [Z.land w_max (w_nmask (n mod 64))] else [])) as Hok.
  { destruct (0 <? n mod 64)%nat; [|constructor]. apply Forall_singleton. auto with word_db. }
  split_and!.
  - rewrite length_app, length_replicate. unfold nwords. destruct (Nat.ltb_spec 0 (n mod 64)); simpl; dlia.
  - apply Forall_app. split; [by apply words_ok_replicate, word_ok_max|done].
  - intros i Hi. unfold wsbit, wd. destruct (decide (i / 64 < n / 64)%nat) as [Hlt|Hge].
    + rewrite app_nth1 by (by rewrite length_replicate).
      rewrite nth_lookup, lookup_replicate_2 by done. simpl.
      rewrite tb_max. apply Nat.ltb_lt. dlia.
    + rewrite app_nth2, length_replicate by (rewrite ?length_replicate; lia).
      rewrite (proj2 (Nat.ltb_lt 0 _)) by dlia.
      replace (i / 64 - n / 64)%nat with 0%nat by dlia. simpl nth.
      rewrite tb_land, tb_max, tb_nmask by dlia. apply andb_true_iff.
      split; apply Nat.ltb_lt; dlia.
Qed.

Lemma x_out_spec n :
  (64 < n)%nat ->
  let r := mk_vector4 n (x_out_words n WORD_X_ABITS) (x_out_words n WORD_X_BBITS) in
  wf4 r /\ forall i, (i < n)%nat -> value r i = BIT4_X.
Proof.
  intros Hn r. change WORD_X_ABITS with w_max in r. change WORD_X_BBITS with w_max in r.
  destruct (x_out_words_spec n Hn) as (Hl & Hok & Hb).
  assert (wf4 r) by (by apply wf4_long). split; [done|].
  intros i Hi. unfold r. rewrite value_long by done. by rewrite Hb.
Qed.

Definition same_mod (n : nat) (x y : Z) : Prop := x mod 2 ^ Z.of_nat n = y mod 2 ^ Z.of_nat n.

(** The long operation, for the two variants. *)
Lemma add_long_spec inv op carry v w :
  (forall x, word_ok x -> word_ok (inv x)) -> 0 <= carry <= 1 ->
  wf4 v -> wf4 w -> size_ w = size_ v -> (64 < size_ v)%nat ->
  (forall x y, same_mod (size_ v) x (bits_to_Z (bits v)) ->
     same_mod (size_ v) (wsum (wd (abits_ w)) (nwords (size_ v))) y ->
     same_mod (size_ v) (x + wsum (fun k => inv (wd (abits_ w) k)) (nwords (size_ v)) + carry)
       (op (bits_to_Z (bits v)) y)) ->
  wf4 (add_long inv carry v w) /\ size_ (add_long inv carry v w) = size_ v /\
  bits (add_long inv carry v w) = bits_arith op (bits v) (bits w).
Proof.
  intros Hinv Hc Hv Hw Hs Hlong Hop.
  pose proof (add_words_spec inv v w carry Hinv Hv Hw Hs Hlong Hc) as Hspec. cbv zeta in Hspec.
  unfold add_long. change BITS_PER_WORD with 64%nat.
  destruct ('(abits, carry) ← add_loop _ _ _ _ _ _ _; add_tail _ _ _ _ _) as [res|].
  - destruct Hspec as (Hxz & Hl & Hok & Hbits).
    assert (wf4 (mk_vector4 (size_ v) res (bbits_ v))) as Hwf.
    { destruct Hv as (_ & Hlb & _ & Hob). rewrite nstore_long in Hlb by done. by apply wf4_long. }
    split; [done|]. split; [done|]. apply arith_intro; [done..|congruence|]. intros _ i Hi.
    apply known_value; [done..| |].
    + rewrite list_has_xz_or in Hxz by done. by apply Hxz.
    + cbn [abits_]. rewrite Hbits by done. apply orb_false_iff in Hxz as [X1 X2].
      apply (tb_mod_eq _ _ (size_ v)); [|done]. apply Hop.
      * pose proof (number_wsum v Hv X1) as E. by rewrite nstore_long in E.
      * pose proof (number_wsum w Hw X2) as E. by rewrite Hs, nstore_long in E.
  - destruct (x_out_spec (size_ v) Hlong) as [Hwf Hx]. split; [done|]. split; [done|].
    apply arith_intro; [done..| |congruence]. intros _. apply Hx.
Qed.

Lemma vector4_add_spec v w :
  wf4 v -> wf4 w -> size_ w = size_ v ->
  returns (vector4_add v w) (fun r => wf4 r /\ size_ r = size_ v /\ bits r = bits_arith Z.add (bits v) (bits w)).
Proof.
  intros Hv Hw Hs. unfold vector4_add. apply returns_assert; [by apply Nat.eqb_eq|].
  destruct (Nat.leb_spec (size_ v) 64); apply returns_ret.
  - by apply arith_short_spec; [apply w_add_arith|..].
  - apply add_long_spec; [done|lia|done..|]. unfold same_mod. intros x y Hx Hy.
    change (fun k => wd (abits_ w) k) with (wd (abits_ w)).
    rewrite Z.add_0_r, Z.add_mod, Hx, Hy, <- Z.add_mod by lia. done.
Qed.

Lemma vector4_sub_spec v w :
  wf4 v -> wf4 w -> size_ w = size_ v ->
  returns (vector4_sub v w) (fun r => wf4 r /\ size_ r = size_ v /\ bits r = bits_arith Z.sub (bits v) (bits w)).
Proof.
  intros Hv Hw Hs. unfold vector4_sub. apply returns_assert; [by apply Nat.eqb_eq|].
  destruct (Nat.leb_spec (size_ v) 64) as [|Hlong]; apply returns_ret.
  - by apply arith_short_spec; [apply w_sub_arith|..].
  - apply add_long_spec; [intros; auto with word_db|lia|done..|]. unfold same_mod. intros x y Hx Hy.
    rewrite wsum_not by auto with word_db.
    pose proof (nwords_spec (size_ v)) as Hn.
    replace (64 * Z.of_nat (nwords (size_ v))) with
      (Z.of_nat (64 * nwords (size_ v) - size_ v) + Z.of_nat (size_ v)) by (clear -Hn; lia).
    rewrite Z.pow_add_r by apply Nat2Z.is_nonneg. set (q := 2 ^ Z.of_nat (64 * _ - _)). set (s := wsum _ _) in *.
    replace (x + (q * 2 ^ Z.of_nat (size_ v) - 1 - s) + 1) with (x - s + q * 2 ^ Z.of_nat (size_ v)) by lia.
    rewrite Z.mod_add, Zminus_mod, Hx, Hy, <- Zminus_mod by lia. done.
Qed.

(** *** The product *)

Lemma mul_row_spec cnt l a (r : nat -> Z) :
  word_ok l -> (forall k, word_ok (r k)) -> forall n b res,
  words_ok res -> length res = cnt -> (a + b + n = cnt)%nat ->
  let res' := mul_row cnt l a r n b res in
  length res' = cnt /\ words_ok res' /\
  exists q, wsum (wd res') cnt =
    wsum (wd res) cnt + l * wsum (fun k => r (b + k)%nat) n * 2 ^ (64 * Z.of_nat (a + b)) +
    q * 2 ^ (64 * Z.of_nat cnt).
Proof.
  intros Hl Hr. induction n as [|n IH]; intros b res Hok Hlen Hn; cbn [mul_row].
  - split; [done|]. split; [done|]. exists 0. simpl wsum. lia.
  - destruct (multiply_with_carry_multiplier l (r b) Hl (Hr b)) as (Hlo & Hhi & Hmul).
    destruct (multiply_with_carry l (r b)) as [lo hi]. cbn [fst snd] in *.
    destruct (ripple_spec add_with_carry add_with_carry_adder (cnt - (a + b)) (a + b) lo hi 0 res)
      as (Hl1 & Hok1 & q1 & H1); [done..|lia|lia|].
    destruct (IH (S b) _ Hok1) as (Hl2 & Hok2 & q2 & H2); [congruence|lia|].
    split; [done|]. split; [done|]. exists (q1 + q2). rewrite H2.
    replace (a + b + (cnt - (a + b)))%nat with cnt in H1 by lia. rewrite H1.
    rewrite wsum_head, Nat.add_0_r.
    rewrite (wsum_ext (fun k => r (b + S k)%nat) (fun k => r (S b + k)%nat)) by (intros; f_equal; lia).
    replace (a + S b)%nat with (S (a + b)) by lia. rewrite pow64_split.
    replace (lo + 0 + 2 ^ 64 * hi) with (l * r b) by lia. ring.
Qed.

Lemma mul_rows_spec cnt (l r : nat -> Z) :
  (forall k, word_ok (l k)) -> (forall k, word_ok (r k)) -> forall n a res,
  words_ok res -> length res = cnt -> (a + n = cnt)%nat ->
  let res' := mul_rows cnt l r n a res in
  length res' = cnt /\ words_ok res' /\
  exists q, wsum (wd res') cnt =
    wsum (wd res) cnt + wsum (fun k => l (a + k)%nat) n * 2 ^ (64 * Z.of_nat a) * wsum r cnt +
    q * 2 ^ (64 * Z.of_nat cnt).
Proof.
  intros Hl Hr. induction n as [|n IH]; intros a res Hok Hlen Hn; cbn [mul_rows].
  - split; [done|]. split; [done|]. exists 0. simpl wsum. lia.
  - destruct (mul_row_spec cnt (l a) a r (Hl a) Hr (cnt - a) 0 res) as (Hl1 & Hok1 & q1 & H1);
      [done..|lia|].
    destruct (IH (S a) _ Hok1 Hl1) as (Hl2 & Hok2 & q2 & H2); [lia|].
    split; [done|]. split; [done|]. rewrite H2, H1, Nat.add_0_r, wsum_head, Nat.add_0_r.
    rewrite (wsum_ext (fun k => l (a + S k)%nat) (fun k => l (S a + k)%nat)) by (intros; f_equal; lia).
    change (fun k => r (0 + k)%nat) with r.
    assert (exists t, wsum r cnt = wsum r (cnt - a) + 2 ^ (64 * Z.of_nat (cnt - a)) * t) as [t Ht].
    { exists (wsum (fun k => r (cnt - a + k)%nat) a).
      replace cnt with (cnt - a + a)%nat at 1 by lia. apply wsum_app. }
    assert (2 ^ (64 * Z.of_nat cnt) = 2 ^ (64 * Z.of_nat (cnt - a)) * 2 ^ (64 * Z.of_nat a)) as HM.
    { rewrite <- Z.pow_add_r by lia. f_equal. lia. }
    exists (q1 + q2 - l a * t). rewrite pow64_split.
    replace (wsum r (cnt - a)) with (wsum r cnt - 2 ^ (64 * Z.of_nat (cnt - a)) * t) by lia.
    rewrite HM. ring.
Qed.

Lemma masked_word_ok cnt mask ws k : word_ok mask -> words_ok ws -> word_ok (masked_word cnt mask ws k).
Proof. intros. unfold masked_word. destruct (k =? cnt - 1)%nat; auto with word_db. Qed.

Lemma mul_mask_spec n i :
  (0 < n)%nat -> (i < n)%nat -> (i / 64 = nwords n - 1)%nat -> tb (mul_mask n) (i mod 64) = true.
Proof.
  intros Hn Hi Hw. unfold mul_mask, nwords in *. change BITS_PER_WORD with 64%nat.
  destruct (Nat.ltb_spec 0 (n mod 64)).
  - rewrite tb_nmask by dlia. apply Nat.ltb_lt. dlia.
  - rewrite tb_max. apply Nat.ltb_lt. dlia.
Qed.

Lemma mul_mask_ok n : word_ok (mul_mask n).
Proof. unfold mul_mask. destruct (_ <? _)%nat; auto with word_db. Qed.
#[export] Hint Resolve mul_mask_ok masked_word_ok : word_db.

(** Below the size of the vector the mask does nothing. *)
Lemma tb_masked_word n ws i :
  (i < n)%nat -> tb (masked_word (nwords n) (mul_mask n) ws (i / 64)) (i mod 64) = wsbit ws i.
Proof.
  intros Hi. unfold masked_word, wsbit. destruct (Nat.eqb_spec (i / 64) (nwords n - 1)) as [E|]; [|done].
  by rewrite tb_land, mul_mask_spec, andb_true_r by (done || lia).
Qed.

(** The scan for unknown bits. *)
Lemma mul_scan_spec v w :
  wf4 v -> wf4 w -> size_ w = size_ v -> (64 < size_ v)%nat ->
  existsb (fun idx =>
     negb (masked_word (nwords (size_ v)) (mul_mask (size_ v)) (bbits_ v) idx =? 0) ||
     negb (masked_word (nwords (size_ v)) (mul_mask (size_ v)) (bbits_ w) idx =? 0))
    (seq 0 (nwords (size_ v))) = list_has_xz (bits v) || list_has_xz (bits w).
Proof.
  intros Hv Hw Hs Hlong. set (n := size_ v) in *.
  assert (forall x, wf4 x -> size_ x = n ->
    existsb (fun idx => negb (masked_word (nwords n) (mul_mask n) (bbits_ x) idx =? 0)) (seq 0 (nwords n)) =
    list_has_xz (bits x)) as Hone.
  { intros x Hx Hsx. apply eq_bool_prop_intro. rewrite !Is_true_true, <- !not_false_iff_true.
    apply not_iff_compat. rewrite no_xz_bits, Hsx by done.
    rewrite existsb_seq, negb_false_iff, forallb_seq. split.
    - intros H i Hi. rewrite <- (tb_masked_word n) by done. pose proof (nwords_spec n).
      specialize (H (i / 64)%nat ltac:(dlia)). rewrite negb_involutive, Z.eqb_eq in H.
      by rewrite H, tb_0.
    - intros H k Hk. rewrite negb_involutive, Z.eqb_eq.
      apply word_eq_bits; [apply masked_word_ok; [apply mul_mask_ok|apply Hx]|done|]. intros j Hj.
      rewrite tb_0. pose proof (nwords_spec n).
      destruct (Nat.lt_ge_cases (64 * k + j) n) as [Hlt|Hge].
      + replace k with ((64 * k + j) / 64)%nat at 1 by dlia.
        replace j with ((64 * k + j) mod 64)%nat at 2 by dlia. rewrite tb_masked_word by done. by apply H.
      + unfold masked_word. rewrite (proj2 (Nat.eqb_eq k (nwords n - 1))) by lia.
        rewrite tb_land. apply andb_false_intro2. unfold mul_mask. change BITS_PER_WORD with 64%nat.
        unfold nwords in *. rewrite (proj2 (Nat.ltb_lt _ _)) by dlia.
        rewrite tb_nmask by dlia. apply Nat.ltb_ge. dlia. }
  rewrite <- (Hone v), <- (Hone w) by done.
  generalize (seq 0 (nwords n)). intros l. induction l as [|k l IH]; [done|]. simpl. rewrite IH.
  destruct (masked_word _ _ _ _ =? 0), (masked_word _ _ _ _ =? 0); simpl;
    rewrite ?orb_true_r; done.
Qed.

Lemma masked_number v :
  wf4 v -> (64 < size_ v)%nat -> list_has_xz (bits v) = false ->
  wsum (masked_word (nwords (size_ v)) (mul_mask (size_ v)) (abits_ v)) (nwords (size_ v))
    mod 2 ^ Z.of_nat (size_ v) = bits_to_Z (bits v) mod 2 ^ Z.of_nat (size_ v).
Proof.
  intros Hv Hlong Hxz. apply tb_mod_ext. intros i Hi. pose proof (nwords_spec (size_ v)).
  rewrite tb_wsum, tb_masked_word, abits_number; [done..| |lia].
  intros k _. apply masked_word_ok; [apply mul_mask_ok|apply Hv].
Qed.

(** The X result of [mul]. *)
Lemma mul_x_spec n :
  (64 < n)%nat ->
  let ws := replicate (nwords n - 1) w_max ++ [Z.land w_max (mul_mask n)] in
  let r := mk_vector4 n ws ws in
  wf4 r /\ forall i, (i < n)%nat -> value r i = BIT4_X.
Proof.
  intros Hn ws r. pose proof (nwords_spec n) as Hw.
  assert (length ws = nwords n) as Hl by (unfold ws; rewrite length_app, length_replicate; simpl; lia).
  assert (words_ok ws) as Hok.
  { apply Forall_app. split; [apply words_ok_replicate, word_ok_max|].
    apply Forall_singleton. auto with word_db. }
  assert (wf4 r) as Hr by (by apply wf4_long). split; [done|].
  intros i Hi. unfold r. rewrite value_long by done.
  replace (wsbit ws i) with true; [done|]. symmetry. unfold wsbit, wd, ws.
  destruct (decide (i / 64 < nwords n - 1)%nat).
  - rewrite app_nth1 by (by rewrite length_replicate).
    rewrite nth_lookup, lookup_replicate_2 by done. simpl. rewrite tb_max. apply Nat.ltb_lt. dlia.
  - rewrite app_nth2, length_replicate by (rewrite ?length_replicate; lia).
    replace (i / 64 - (nwords n - 1))%nat with 0%nat by dlia. simpl nth.
    rewrite tb_land, tb_max, mul_mask_spec by dlia. rewrite andb_true_r. apply Nat.ltb_lt. dlia.
Qed.

Lemma mul_long_spec v w :
  wf4 v -> wf4 w -> size_ w = size_ v -> (64 < size_ v)%nat ->
  wf4 (mul_long v w) /\ size_ (mul_long v w) = size_ v /\
  bits (mul_long v w) = bits_arith Z.mul (bits v) (bits w).
Proof.
  intros Hv Hw Hs Hlong. unfold mul_long. rewrite mul_scan_spec by done.
  change WORD_X_ABITS with w_max. change WORD_X_BBITS with w_max.
  destruct (list_has_xz (bits v) || list_has_xz (bits w)) eqn:Hxz.
  - destruct (mul_x_spec (size_ v) Hlong) as [Hwf Hx]. split; [done|]. split; [done|].
    apply arith_intro; [done..| |congruence]. intros _. apply Hx.
  - set (n := nwords (size_ v)). set (l := masked_word _ _ (abits_ v)). set (r := masked_word _ _ (abits_ w)).
    assert (forall k, word_ok (l k)) as Hl by (intros; apply masked_word_ok; [apply mul_mask_ok|apply Hv]).
    assert (forall k, word_ok (r k)) as Hr by (intros; apply masked_word_ok; [apply mul_mask_ok|apply Hw]).
    pose proof (mul_rows_spec n l r Hl Hr n 0 (replicate n 0) (words_ok_replicate n 0 word_ok_0)
      (length_replicate n 0) eq_refl) as (Hlen & Hok & q & Heq).
    set (res := mul_rows n l r n 0 (replicate n 0)) in *.
    assert (words_ok (<[(n - 1)%nat := Z.land (wd res (n - 1)) (mul_mask (size_ v))]> res)) as Hok' by
      auto with word_db.
    assert (wf4 (mk_vector4 (size_ v)
      (<[(n - 1)%nat := Z.land (wd res (n - 1)) (mul_mask (size_ v))]> res) (bbits_ v))) as Hwf.
    { destruct Hv as (_ & Hlb & _ & Hob). rewrite nstore_long in Hlb by done.
      apply wf4_long; [done|by rewrite length_insert|done..]. }
    split; [done|]. split; [done|]. apply arith_intro; [done..|congruence|]. intros _ i Hi.
    pose proof (nwords_spec (size_ v)) as Hns. fold n in Hns.
    apply known_value; [done..|by apply (list_has_xz_or v w Hv Hw Hs)|].
    apply orb_false_iff in Hxz as [X1 X2]. cbn [abits_].
    transitivity (tb (wsum (wd res) n) i).
    + rewrite tb_wsum by (auto with word_db || lia). unfold wsbit. rewrite wd_insert.
      destruct (decide _) as [[E _]|]; [|done].
      rewrite tb_land, mul_mask_spec, andb_true_r by (done || lia). by rewrite E.
    + apply (tb_mod_eq _ _ (size_ v)); [|done]. rewrite Heq.
      assert (wsum (wd (replicate n 0)) n = 0) as ->.
      { rewrite (wsum_ext _ (fun _ => 0)); [clear; induction n; simpl; lia|].
        intros k Hk. unfold wd. by rewrite nth_lookup, lookup_replicate_2. }
      change (fun k => l (0 + k)%nat) with l. change (2 ^ (64 * Z.of_nat 0)) with 1.
      replace (64 * Z.of_nat n) with (Z.of_nat (64 * n - size_ v) + Z.of_nat (size_ v)) by (clear -Hns; lia).
      rewrite Z.pow_add_r, Z.mul_assoc, Z.mod_add, Z.add_0_l, Z.mul_1_r by (clear; lia).
      pose proof (masked_number v Hv Hlong X1) as E1. fold n l in E1.
      pose proof (masked_number w Hw ltac:(lia) X2) as E2. rewrite Hs in E2. fold n r in E2.
      rewrite Z.mul_mod, E1, E2 by (clear; lia). symmetry. apply Z.mul_mod. clear; lia.
Qed.

Lemma vector4_mul_spec v w :
  wf4 v -> wf4 w -> size_ w = size_ v ->
  returns (vector4_mul v w) (fun r => wf4 r /\ size_ r = size_ v /\ bits r = bits_arith Z.mul (bits v) (bits w)).
Proof.
  intros Hv Hw Hs. unfold vector4_mul. apply returns_assert; [by apply Nat.eqb_eq|].
  destruct (Nat.leb_spec (size_ v) 64); apply returns_ret.
  - by apply arith_short_spec; [apply w_mul_arith|..].
  - by apply mul_long_spec.
Qed.

(** *** [operator += (int64_t)] *)

Lemma shiftr_succ x i : Z.shiftr x (Z.of_nat (S i)) = Z.div2 (Z.shiftr x (Z.of_nat i)).
Proof. rewrite Nat2Z.inj_succ, <- Z.add_1_r, <- Z.shiftr_shiftr, <- Z.div2_spec by lia. done. Qed.

Lemma odd_shiftr x i : Z.odd (Z.shiftr x (Z.of_nat i)) = tb x i.
Proof. rewrite <- Z.bit0_odd, Z.shiftr_spec by lia. done. Qed.

(** One step of the bitwise addition. *)
Lemma add_bit_step S a t c :
  S = a + t + Z.b2z c ->
  Z.odd S = xorb (xorb (Z.odd a) (Z.odd t)) c /\
  Z.div2 S = Z.div2 a + Z.div2 t +
    Z.b2z ((Z.odd a && Z.odd t) || (c && (Z.odd a || Z.odd t))).
Proof.
  intros HS. pose proof (Z.div2_odd S). pose proof (Z.div2_odd a). pose proof (Z.div2_odd t).
  destruct (Z.odd S), (Z.odd a), (Z.odd t), c; cbn [Z.b2z xorb andb orb] in *; split; lia || reflexivity.
Qed.

Lemma bits_to_Z_value v i :
  (i < size_ v)%nat -> list_has_xz (bits v) = false ->
  value v i = bit4_of_bool (tb (bits_to_Z (bits v)) i).
Proof.
  intros Hi Hxz. rewrite tb_bits_value by done. rewrite list_has_xz_false in Hxz.
  specialize (Hxz i _ (lookup_bits v i Hi)). by destruct (value v i).
Qed.

Definition add_int_inv (v0 : vvp_vector4_t) (that0 : Z)
    (s : nat * Z * vvp_bit4_t * vvp_vector4_t) : Prop :=
  let '(idx, t, carry, v) := s in
  let N := bits_to_Z (bits v0) in
  wf4 v /\ size_ v = size_ v0 /\ (idx <= size_ v0)%nat /\
  (exists c, carry = bit4_of_bool c /\
     Z.shiftr (N + that0) (Z.of_nat idx) = Z.shiftr N (Z.of_nat idx) + t + Z.b2z c) /\
  forall i, (i < size_ v0)%nat ->
    value v i = bit4_of_bool (tb (if (i <? idx)%nat then N + that0 else N) i).

Lemma add_int_step v0 that0 idx t carry v r bit carry' :
  add_int_inv v0 that0 (idx, t, carry, v) -> (idx < size_ v0)%nat ->
  bit4_add_with_carry (value v idx) (if Z.odd t then BIT4_1 else BIT4_0) carry = (bit, carry') ->
  wf4 r -> size_ r = size_ v -> (forall i, value r i = if (i =? idx)%nat then bit else value v i) ->
  add_int_inv v0 that0 (S idx, Z.shiftr t 1, carry', r).
Proof.
  intros (Hwf & Hsz & Hle & (c & -> & HS) & Hval) Hi Hadd Hr Hsr Hvr.
  destruct (add_bit_step _ _ _ _ HS) as [Hodd Hdiv]. rewrite !odd_shiftr in *.
  rewrite (Hval idx), (proj2 (Nat.ltb_ge idx idx)) in Hadd by lia.
  change (if Z.odd t then BIT4_1 else BIT4_0) with (bit4_of_bool (Z.odd t)) in Hadd.
  rewrite bit4_add_known in Hadd. injection Hadd as <- <-.
  split_and!; [done|congruence|lia|..].
  - eexists. split; [reflexivity|]. rewrite !shiftr_succ, <- Z.div2_spec. exact Hdiv.
  - intros i Hi'. rewrite Hvr. destruct (Nat.eqb_spec i idx) as [->|Hne].
    + by rewrite (proj2 (Nat.ltb_lt idx (S idx))), Hodd by lia.
    + rewrite Hval by done. do 2 f_equal.
      destruct (Nat.ltb_spec i idx), (Nat.ltb_spec i (S idx)); lia || done.
Qed.

Lemma vector4_add_int_spec v that :
  wf4 v -> (0 < size_ v)%nat ->
  returns (vector4_add_int v that) (fun r => wf4 r /\ size_ r = size_ v /\
    bits r = if list_has_xz (bits v) then replicate (size_ v) BIT4_X
             else bits_of_Z (size_ v) (bits_to_Z (bits v) + that)).
Proof.
  intros Hwf Hpos. unfold vector4_add_int. rewrite has_xz_spec by done.
  destruct (list_has_xz (bits v)) eqn:Hxz.
  { apply returns_ret. split; [apply fill_wf|]. rewrite size_fill. split; [done|].
    apply bits_eq_list; [by rewrite length_replicate, size_fill|]. intros i Hi. rewrite size_fill in Hi.
    rewrite value_fill by done. by apply lookup_replicate_2. }
  eapply returns_bind.
  - apply (returns_while (add_int_inv v that) (fun s => let '(idx, _, _, _) := s in (size_ v - idx)%nat)).
    + split_and!; [done|done|lia| |].
      * exists false. split; [done|]. change (Z.of_nat 0) with 0. rewrite !Z.shiftr_0_r. simpl. lia.
      * intros i Hi. rewrite (proj2 (Nat.ltb_ge i 0)) by lia. by apply bits_to_Z_value.
    + lia.
    + intros [[[idx t] carry] u] Hinv Hc. pose proof Hinv as (Hu & Hsu & Hle & (c & Hcar & HS) & Hval).
      apply andb_true_iff in Hc as [Hi _]. apply Nat.ltb_lt in Hi. rewrite Hsu in Hi.
      cbv zeta. destruct (bit4_eqb _ _ && bit4_eqb carry BIT4_0) eqn:E.
      * apply returns_ret. split; [|lia]. apply andb_true_iff in E as [E1 E2].
        destruct (bit4_eqb_spec carry BIT4_0) as [Ec|]; [|done]. subst carry.
        destruct (Z.odd t) eqn:Ht; [done|]. apply (add_int_step v that idx t BIT4_0 u u (value u idx));
          [by rewrite <- Ec|done| |done..|].
        -- rewrite Ht, Ec, Hval by done. by destruct (tb _ idx).
        -- intros i. by destruct (Nat.eqb_spec i idx) as [->|].
      * destruct (bit4_add_with_carry _ _ carry) as [bit carry'] eqn:Ha.
        eapply returns_bind; [apply set_bit_returns; [done|lia]|]. intros r (Hr & Hsr & Hvr).
        apply returns_ret. split; [|lia]. by eapply add_int_step.
  - intros [[[idx t] carry] u] [(Hu & Hsu & Hle & (c & -> & HS) & Hval) Hc].
    apply returns_ret. split; [done|]. split; [done|]. rewrite <- Hsu. apply bits_of_Z_intro.
    intros i Hi. rewrite Hsu in Hi. rewrite Hval by done. f_equal.
    destruct (Nat.ltb_spec i idx) as [|Hge]; [done|].
    rewrite Hsu, (proj2 (Nat.ltb_lt idx (size_ v))) in Hc by lia.
    apply negb_false_iff, andb_true_iff in Hc as [Ht Hcz]. apply Z.eqb_eq in Ht as ->.
    assert (c = false) as -> by (by destruct c). cbn [Z.b2z] in HS. rewrite !Z.add_0_r in HS.
    assert (forall x, tb x i = tb (Z.shiftr x (Z.of_nat idx)) (i - idx)) as Hsh.
    { intros x. unfold tb. rewrite Z.shiftr_spec by lia. f_equal. lia. }
    rewrite (Hsh (_ + that)), HS, (Hsh (bits_to_Z _)). done.
Qed.

(** *** Comparison *)

Lemma bits_to_Z_app l r : bits_to_Z (l ++ r) = bits_to_Z l + 2 ^ Z.of_nat (length l) * bits_to_Z r.
Proof.
  induction l as [|b l IH]; cbn [app bits_to_Z length]; [lia|].
  rewrite IH, Nat2Z.inj_succ, Z.pow_succ_r by lia. lia.
Qed.

(** The number of the low [n] bits. *)
Definition low_bits (v : vvp_vector4_t) (n : nat) : Z := bits_to_Z (map (value v) (seq 0 n)).

Lemma low_bits_S v n :
  low_bits v (S n) = low_bits v n + (if bit4_eqb (value v n) BIT4_1 then 2 ^ Z.of_nat n else 0).
Proof.
  unfold low_bits. rewrite seq_S, map_app, bits_to_Z_app, length_map, length_seq. cbn [map bits_to_Z].
  rewrite Nat.add_0_l. destruct (bit4_eqb _ _); lia.
Qed.

Lemma low_bits_bounds v n : 0 <= low_bits v n < 2 ^ Z.of_nat n.
Proof.
  unfold low_bits. pose proof (bits_to_Z_bounds (map (value v) (seq 0 n))) as H.
  by rewrite length_map, length_seq in H.
Qed.

Lemma low_bits_grow v n m :
  (n <= m)%nat ->
  low_bits v n <= low_bits v m /\
  (existsb (fun i => bit4_eqb (value v i) BIT4_1) (reverse (seq n (m - n))) = true ->
     2 ^ Z.of_nat n <= low_bits v m) /\
  (existsb (fun i => bit4_eqb (value v i) BIT4_1) (reverse (seq n (m - n))) = false ->
     low_bits v m = low_bits v n).
Proof.
  induction 1 as [|m Hle (IH1 & IH2 & IH3)].
  - rewrite Nat.sub_diag. simpl. split_and!; [lia|done|done].
  - rewrite Nat.sub_succ_l, seq_S, reverse_snoc by done. cbn [existsb].
    replace (n + (m - n))%nat with m by lia. rewrite low_bits_S.
    assert (2 ^ Z.of_nat n <= 2 ^ Z.of_nat m) by (apply Z.pow_le_mono_r; lia).
    pose proof (low_bits_bounds v m).
    destruct (bit4_eqb (value v m) BIT4_1); simpl orb; split_and!; intros; try done; try lia.
    all: rewrite Z.add_0_r; auto.
Qed.

Lemma compare_bits_spec lef rig e n :
  (forall i, (i < n)%nat -> bit4_is_xz (value lef i) = false /\ bit4_is_xz (value rig i) = false) ->
  compare_bits lef rig e n =
  match low_bits lef n ?= low_bits rig n with Gt => BIT4_1 | Lt => BIT4_0 | Eq => e end.
Proof.
  induction n as [|n IH]; intros H; cbn [compare_bits]; [done|].
  rewrite IH, !low_bits_S by auto with lia. destruct (H n ltac:(lia)) as [H1 H2].
  pose proof (low_bits_bounds lef n). pose proof (low_bits_bounds rig n).
  destruct (value lef n), (value rig n); try done; cbn [bit4_eqb].
  - by rewrite !Z.add_0_r.
  - simpl. rewrite (proj2 (Z.compare_lt_iff _ _)) by lia. done.
  - simpl. rewrite (proj2 (Z.compare_gt_iff _ _)) by lia. done.
  - simpl. rewrite !(Z.add_comm _ (2 ^ Z.of_nat n)), Zcompare_plus_compat. done.
Qed.

Lemma low_bits_size v : low_bits v (size_ v) = bits_to_Z (bits v).
Proof. done. Qed.

Lemma no_xz_value v i :
  list_has_xz (bits v) = false -> (i < size_ v)%nat -> bit4_is_xz (value v i) = false.
Proof. intros H Hi. rewrite list_has_xz_false in H. eapply H. by apply lookup_bits. Qed.

Lemma compare_gtge_spec lef rig e :
  wf4 lef -> wf4 rig -> (0 < size_ lef)%nat -> (0 < size_ rig)%nat ->
  compare_gtge lef rig e = bits_compare bits_to_Z (bits lef) (bits rig) e.
Proof.
  intros Hl Hr Pl Pr. unfold compare_gtge, bits_compare.
  rewrite (proj2 (Nat.eqb_neq _ 0)), !has_xz_spec by (done || lia).
  destruct (list_has_xz (bits lef)) eqn:Xl; [done|]. destruct (list_has_xz (bits rig)) eqn:Xr; [done|].
  cbn [orb]. rewrite <- !low_bits_size.
  destruct (low_bits_grow lef (Nat.min (size_ lef) (size_ rig)) (size_ lef)) as (_ & G1 & G2); [lia|].
  destruct (low_bits_grow rig (Nat.min (size_ lef) (size_ rig)) (size_ rig)) as (_ & G3 & G4); [lia|].
  pose proof (low_bits_bounds lef (size_ lef)). pose proof (low_bits_bounds rig (size_ rig)).
  assert (Hcmp := compare_bits_spec lef rig e (Nat.min (size_ lef) (size_ rig))
    ltac:(intros; split; apply no_xz_value; (done || lia))).
  destruct (Nat.le_ge_cases (size_ lef) (size_ rig)) as [Hle|Hle].
  - rewrite Nat.min_l in * by lia. rewrite (proj2 (Nat.sub_0_le (size_ lef) (size_ rig))) by done.
    clear G1 G2.
    cbn [seq]. change (reverse (@nil nat)) with (@nil nat). cbn [existsb].
    destruct (existsb _ (reverse (seq (size_ lef) _))).
    + rewrite (proj2 (Z.compare_lt_iff _ _)); [done|]. specialize (G3 eq_refl). lia.
    + by rewrite Hcmp, (G4 eq_refl).
  - rewrite Nat.min_r in * by lia. rewrite (proj2 (Nat.sub_0_le (size_ rig) (size_ lef))) by done.
    clear G3 G4.
    cbn [seq]. change (reverse (@nil nat)) with (@nil nat). cbn [existsb].
    destruct (existsb _ (reverse (seq (size_ rig) _))).
    + rewrite (proj2 (Z.compare_gt_iff _ _)); [done|]. specialize (G1 eq_refl). lia.
    + by rewrite Hcmp, (G2 eq_refl).
Qed.

Lemma last_bits v : (0 < size_ v)%nat -> last (bits v) = Some (value v (size_ v - 1)).
Proof. intros H. rewrite last_lookup, length_bits, <- Nat.sub_1_r. apply lookup_bits. lia. Qed.

(** The sign bit decides between operands of different sign. *)
Lemma signed_split v :
  (0 < size_ v)%nat -> list_has_xz (bits v) = false ->
  let half := 2 ^ Z.of_nat (size_ v - 1) in
  (value v (size_ v - 1) = BIT4_0 /\ bits_to_signed_Z (bits v) = bits_to_Z (bits v) /\
     0 <= bits_to_Z (bits v) < half) \/
  (value v (size_ v - 1) = BIT4_1 /\ bits_to_signed_Z (bits v) = bits_to_Z (bits v) - 2 * half /\
     half <= bits_to_Z (bits v) < 2 * half).
Proof.
  intros Hpos Hxz half. unfold bits_to_signed_Z. rewrite last_bits, length_bits by done.
  pose proof (no_xz_value v (size_ v - 1) Hxz ltac:(lia)) as Hb.
  rewrite <- low_bits_size. pose proof (low_bits_S v (size_ v - 1)) as E.
  pose proof (low_bits_bounds v (size_ v - 1)) as Hlow.
  replace (S (size_ v - 1)) with (size_ v) in E by lia.
  assert (2 ^ Z.of_nat (size_ v) = 2 * half) as ->.
  { unfold half. rewrite <- Z.pow_succ_r by lia. f_equal. lia. }
  fold half in E, Hlow. rewrite E. clear E.
  destruct (value v (size_ v - 1)); try done.
  - left. rewrite decide_False by done. change (bit4_eqb BIT4_0 BIT4_1) with false. split_and!; done || lia.
  - right. rewrite decide_True by done. change (bit4_eqb BIT4_1 BIT4_1) with true. split_and!; done || lia.
Qed.

Lemma compare_gtge_signed_spec a b e :
  wf4 a -> wf4 b -> (0 < size_ a)%nat -> size_ b = size_ a ->
  compare_gtge_signed a b e = Some (bits_compare bits_to_signed_Z (bits a) (bits b) e).
Proof.
  intros Ha Hb Hpos Hs. unfold compare_gtge_signed.
  rewrite Hs, Nat.eqb_refl. cbn [assert_ mbind option_bind]. cbv zeta.
  rewrite compare_gtge_spec, !has_xz_spec by (done || lia).
  unfold bits_compare. destruct (list_has_xz (bits a)) eqn:Xa.
  { cbn [orb]. repeat (destruct (bit4_is_xz _); [done|]). by destruct (bit4_eqb _ _). }
  destruct (list_has_xz (bits b)) eqn:Xb.
  { cbn [orb]. repeat (destruct (bit4_is_xz _); [done|]). by destruct (bit4_eqb _ _). }
  cbn [orb]. destruct (signed_split a Hpos Xa) as [(Va & -> & Ba)|(Va & -> & Ba)];
    destruct (signed_split b ltac:(lia) Xb) as [(Vb & -> & Bb)|(Vb & -> & Bb)]; rewrite Hs in *;
    rewrite Va, Vb; remember (2 * 2 ^ Z.of_nat (size_ a - 1)) as q; cbn; f_equal.
  - by rewrite (proj2 (Z.compare_gt_iff _ _)) by lia.
  - by rewrite (proj2 (Z.compare_lt_iff _ _)) by lia.
  - rewrite <- !Z.add_opp_r, <- !(Z.add_comm (- q)), Zcompare_plus_compat. done.
Qed.

(** *** Conversion *)

Lemma land_pow2_above x n : 0 <= x < 2 ^ Z.of_nat n -> Z.land x (2 ^ Z.of_nat n) = 0.
Proof.
  intros Hb. apply Z.bits_inj'. intros j Hj. rewrite Z.land_spec, Z.bits_0, Z.pow2_bits_eqb by lia.
  destruct (Z.eqb_spec (Z.of_nat n) j) as [<-|]; [|by rewrite andb_false_r].
  rewrite andb_true_r. destruct (decide (x = 0)) as [->|]; [apply Z.bits_0|].
  apply Z.bits_above_log2; [lia|]. apply Z.log2_lt_pow2; lia.
Qed.

Lemma lor_disjoint x y : Z.land x y = 0 -> Z.lor x y = x + y.
Proof. intros H. pose proof (Z.add_lor_land x y). lia. Qed.

Lemma to_value_loop_spec vec is_arithmetic n :
  (n <= size_ vec)%nat -> forall k idx res rc, (k + idx = n)%nat ->
  res = low_bits vec idx ->
  to_value_loop vec is_arithmetic k idx res (2 ^ Z.of_nat idx) rc =
  let unknown := existsb (fun i => bit4_is_xz (value vec i)) (seq idx k) in
  if is_arithmetic && unknown then None else Some (low_bits vec n, rc && negb unknown).
Proof.
  intros Hn. induction k as [|k IH]; intros idx res rc Hk ->; cbn [to_value_loop seq existsb].
  - rewrite andb_false_r, andb_true_r. by replace n with idx by lia.
  - rewrite <- Z.pow_succ_r, <- Nat2Z.inj_succ by lia.
    assert (Hlor : Z.lor (low_bits vec idx) (2 ^ Z.of_nat idx) = low_bits vec idx + 2 ^ Z.of_nat idx).
    { apply lor_disjoint, land_pow2_above, low_bits_bounds. }
    pose proof (low_bits_S vec idx) as HS.
    destruct (value vec idx).
    + apply IH; [lia|]. rewrite HS. symmetry. apply Z.add_0_r.
    + rewrite Hlor. apply IH; [lia|]. by rewrite HS.
    + change (bit4_is_xz BIT4_X) with true. destruct is_arithmetic; [done|].
      rewrite IH; [cbn; by rewrite andb_false_r|lia|]. rewrite HS. symmetry. apply Z.add_0_r.
    + change (bit4_is_xz BIT4_Z) with true. destruct is_arithmetic; [done|].
      rewrite IH; [cbn; by rewrite andb_false_r|lia|]. rewrite HS. symmetry. apply Z.add_0_r.
Qed.

Lemma int_cast_mod w s x y : same_mod w x y -> int_cast w s x = int_cast w s y.
Proof. unfold same_mod, int_cast. by intros ->. Qed.

Lemma existsb_map {A B} (f : B -> bool) (g : A -> B) l : existsb f (map g l) = existsb (fun x => f (g x)) l.
Proof. induction l as [|x l IH]; simpl; [done|]. by rewrite IH. Qed.

Lemma take_seq k i n : take k (seq i n) = seq i (Nat.min k n).
Proof.
  revert i n. induction k as [|k IH]; intros i [|n]; simpl; try done. by rewrite IH.
Qed.

Lemma low_unknown vec w :
  existsb (fun i => bit4_is_xz (value vec i)) (seq 0 (Nat.min (size_ vec) w)) = list_has_xz (take w (bits vec)).
Proof.
  unfold list_has_xz, bits. by rewrite firstn_map, take_seq, existsb_map, Nat.min_comm.
Qed.

Lemma low_bits_mod vec w : (w <= size_ vec)%nat -> same_mod w (low_bits vec w) (bits_to_Z (bits vec)).
Proof.
  intros Hw. apply tb_mod_ext. intros i Hi. unfold low_bits. rewrite tb_bits_to_Z, tb_bits_value by lia.
  rewrite lookup_map_seq by done. destruct (bit4_eqb_spec (value vec i) BIT4_1) as [->|H].
  - by apply bool_decide_eq_true.
  - apply bool_decide_eq_false. congruence.
Qed.

Lemma lor_sign x n : 0 <= x < 2 ^ Z.of_nat n -> Z.lor x (Z.shiftl (-1) (Z.of_nat n)) = x - 2 ^ Z.of_nat n.
Proof.
  intros Hx. rewrite lor_disjoint.
  - rewrite Z.shiftl_mul_pow2 by lia. lia.
  - apply Z.bits_inj'. intros k Hk. rewrite Z.land_spec, Z.bits_0, Z.shiftl_spec by done.
    destruct (Z.lt_ge_cases k (Z.of_nat n)).
    + rewrite (Z.testbit_neg_r (-1)) by lia. apply andb_false_r.
    + destruct (decide (x = 0)) as [->|]; [by rewrite Z.bits_0|].
      rewrite (Z.bits_above_log2 x); [done|lia|]. apply Z.log2_lt_pow2; [lia|].
      eapply Z.lt_le_trans; [apply Hx|]. apply Z.pow_le_mono_r; lia.
Qed.

(** The assigned value when every bit of the vector is known. *)
Lemma to_value_number w s vec is_signed :
  (0 < size_ vec)%nat -> list_has_xz (bits vec) = false ->
  let res := low_bits vec (Nat.min (size_ vec) w) in
  int_cast w s (if is_signed && bit4_eqb (value vec (size_ vec - 1)) BIT4_1 && (size_ vec <? w)%nat
                then Z.lor res (Z.shiftl (-1) (Z.of_nat (size_ vec))) else res) =
  int_cast w s (if is_signed then bits_to_signed_Z (bits vec) else bits_to_Z (bits vec)).
Proof.
  intros Hpos Hxz res.
  assert (Hsg : bits_to_signed_Z (bits vec) = bits_to_Z (bits vec) -
    if bit4_eqb (value vec (size_ vec - 1)) BIT4_1 then 2 ^ Z.of_nat (size_ vec) else 0).
  { unfold bits_to_signed_Z. rewrite last_bits, length_bits by done. f_equal.
    destruct (bit4_eqb_spec (value vec (size_ vec - 1)) BIT4_1) as [->|H]; [by rewrite decide_True|].
    rewrite decide_False; [done|congruence]. }
  apply int_cast_mod. unfold res. destruct (Nat.ltb_spec (size_ vec) w) as [Hw|Hw].
  - rewrite Nat.min_l, low_bits_size, andb_true_r by lia.
    destruct is_signed; cbn [andb]; [|done]. rewrite Hsg.
    destruct (bit4_eqb _ _); [|by rewrite Z.sub_0_r].
    rewrite lor_sign; [done|]. rewrite <- low_bits_size. apply low_bits_bounds.
  - rewrite Nat.min_r, andb_false_r by done. pose proof (low_bits_mod vec w Hw) as Hm.
    destruct is_signed; [|done]. unfold same_mod in *. rewrite Hm, Hsg.
    destruct (bit4_eqb _ _); [|by rewrite Z.sub_0_r].
    replace (Z.of_nat (size_ vec)) with (Z.of_nat (size_ vec - w) + Z.of_nat w) by lia.
    rewrite Z.pow_add_r, <- Z.add_opp_r, <- Z.mul_opp_l, Z.mod_add by lia. done.
Qed.

Lemma vector4_to_value_unfold w s vec is_signed is_arithmetic :
  vector4_to_value w s vec is_signed is_arithmetic =
  let unknown := list_has_xz (take w (bits vec)) in
  let res := low_bits vec (Nat.min (size_ vec) w) in
  if is_arithmetic && unknown then (None, false)
  else (Some (int_cast w s
    (if is_signed && bit4_eqb (value vec (size_ vec - 1)) BIT4_1 && (size_ vec <? w)%nat
     then Z.lor res (Z.shiftl (-1) (Z.of_nat (size_ vec))) else res)), negb unknown).
Proof.
  unfold vector4_to_value. change 1 with (2 ^ Z.of_nat 0) at 1.
  rewrite (to_value_loop_spec vec is_arithmetic (Nat.min (size_ vec) w)) by (done || lia).
  rewrite low_unknown. cbv zeta. by destruct (is_arithmetic && _).
Qed.

(** The mask of the overflow version. *)
Definition ovf_mask (idx : nat) : Z := if (idx <? 64)%nat then 2 ^ Z.of_nat idx else 0.

Lemma ovf_mask_S idx : w_shl (ovf_mask idx) 1 = ovf_mask (S idx).
Proof.
  unfold ovf_mask, w_shl. rewrite Z.shiftl_mul_pow2, w_wrap_mod by lia.
  destruct (Nat.ltb_spec idx 64); destruct (Nat.ltb_spec (S idx) 64); try lia.
  - replace (Z.of_nat (S idx)) with (Z.of_nat idx + Z.of_nat 1) by lia.
    rewrite Z.pow_add_r by lia. apply Z.mod_small. split; [lia|].
    rewrite <- Z.pow_add_r by lia. apply Z.pow_lt_mono_r; lia.
  - by replace idx with 63%nat by lia.
Qed.

Lemma to_value_ovf_loop_spec vec n :
  (n <= size_ vec)%nat -> (forall i, (i < n)%nat -> bit4_is_xz (value vec i) = false) ->
  forall k idx, (k + idx = n)%nat ->
  to_value_ovf_loop vec k idx (low_bits vec idx mod 2 ^ 64) (ovf_mask idx) (2 ^ 64 <=? low_bits vec idx) =
  (Some (low_bits vec n mod 2 ^ 64, 2 ^ 64 <=? low_bits vec n), 2 ^ 64 <=? low_bits vec n).
Proof.
  intros Hn Hxz. induction k as [|k IH]; intros idx Hk; cbn [to_value_ovf_loop].
  { by replace n with idx by lia. }
  rewrite ovf_mask_S. specialize (IH (S idx) ltac:(lia)). rewrite low_bits_S in IH.
  pose proof (Hxz idx ltac:(lia)) as Hb. pose proof (low_bits_bounds vec idx) as Hlow.
  destruct (value vec idx); try done.
  - change (bit4_eqb BIT4_0 BIT4_1) with false in IH. cbv iota in IH. by rewrite Z.add_0_r in IH.
  - change (bit4_eqb BIT4_1 BIT4_1) with true in IH. cbv iota in IH.
    destruct (Nat.lt_ge_cases idx 64) as [Hlt|Hge].
    + assert (ovf_mask idx = 2 ^ Z.of_nat idx) as -> by (unfold ovf_mask; by rewrite (proj2 (Nat.ltb_lt idx 64))).
      assert (2 ^ Z.of_nat idx < 2 ^ 64) by (apply Z.pow_lt_mono_r; lia).
      assert (2 * 2 ^ Z.of_nat idx <= 2 ^ 64).
      { rewrite <- Z.pow_succ_r by lia. apply Z.pow_le_mono_r; lia. }
      rewrite (proj2 (Z.eqb_neq _ 0)) by lia.
      rewrite (proj2 (Z.leb_gt (2 ^ 64) (low_bits vec idx))) by lia.
      rewrite (proj2 (Z.leb_gt (2 ^ 64) (low_bits vec idx + _))) in IH by lia.
      rewrite (Z.mod_small (low_bits vec idx)) by lia. rewrite (Z.mod_small (low_bits vec idx + _)) in IH by lia.
      replace (Z.lor (low_bits vec idx) (2 ^ Z.of_nat idx)) with (low_bits vec idx + 2 ^ Z.of_nat idx); [done|].
      symmetry. by apply lor_disjoint, land_pow2_above.
    + assert (ovf_mask idx = 0) as -> by (unfold ovf_mask; by rewrite (proj2 (Nat.ltb_ge idx 64))).
      change (0 =? 0) with true. cbv iota.
      assert (2 ^ 64 <= 2 ^ Z.of_nat idx) by (apply Z.pow_le_mono_r; lia).
      rewrite (proj2 (Z.leb_le (2 ^ 64) (low_bits vec idx + _))) in IH by lia.
      replace (Z.of_nat idx) with (Z.of_nat (idx - 64) + 64) in IH by lia.
      rewrite Z.pow_add_r, Z.mod_add in IH by lia. exact IH.
Qed.

(** ** Properties *)

(** C31: [add], [sub], [mul] and [operator +=] of vectors of any width, inline or
    in arrays of words, compute modulo [2^size] the sum, the difference and the
    product of the numbers of their operands, and give all X as soon as one bit
    of an operand is unknown; none of them aborts on operands of one width. *)
Theorem vector4_arithmetic v w that :
  wf4 v -> wf4 w -> (0 < size_ v)%nat -> size_ w = size_ v ->
  returns (vector4_add v w) (fun r => wf4 r /\ bits r = bits_arith Z.add (bits v) (bits w)) /\
  returns (vector4_sub v w) (fun r => wf4 r /\ bits r = bits_arith Z.sub (bits v) (bits w)) /\
  returns (vector4_mul v w) (fun r => wf4 r /\ bits r = bits_arith Z.mul (bits v) (bits w)) /\
  returns (vector4_add_int v that) (fun r => wf4 r /\
    bits r = if list_has_xz (bits v) then replicate (size_ v) BIT4_X
             else bits_of_Z (size_ v) (bits_to_Z (bits v) + that)).
Proof.
  intros Hv Hw Hpos Hs. split_and!.
  - eapply returns_mono; [by apply vector4_add_spec|]. by intros r (? & _ & ?).
  - eapply returns_mono; [by apply vector4_sub_spec|]. by intros r (? & _ & ?).
  - eapply returns_mono; [by apply vector4_mul_spec|]. by intros r (? & _ & ?).
  - eapply returns_mono; [by apply vector4_add_int_spec|]. by intros r (? & _ & ?).
Qed.

Lemma vector4_arithmetic_witness :
  let v := allocate_words_ 70 w_max 0 in let w := allocate_words_ 70 5 0 in
  returns (vector4_mul v w) (fun r => wf4 r /\ bits r = bits_arith Z.mul (bits v) (bits w)) /\
  bits_to_Z (bits v) = 2 ^ 70 - 1.
Proof.
  split; [|by vm_compute].
  refine (proj1 (proj2 (proj2 (vector4_arithmetic (allocate_words_ 70 w_max 0) (allocate_words_ 70 5 0) 0
    (allocate_words_wf _ _ _ word_ok_max word_ok_0) (allocate_words_wf _ _ _ _ word_ok_0) _ eq_refl))));
    [unfold word_ok; lia|simpl; lia].
Defined.

(** The comparison functions give X for operands with an unknown bit and
    otherwise order the operands as unsigned numbers, whatever their widths, or
    as two's complement numbers of one width; equal operands give the answer
    the caller asked for. *)
Theorem compare_orders lef rig out_if_equal :
  wf4 lef -> wf4 rig -> (0 < size_ lef)%nat -> (0 < size_ rig)%nat ->
  compare_gtge lef rig out_if_equal = bits_compare bits_to_Z (bits lef) (bits rig) out_if_equal /\
  compare_gtge_signed lef rig out_if_equal =
    (if (size_ lef =? size_ rig)%nat
     then Some (bits_compare bits_to_signed_Z (bits lef) (bits rig) out_if_equal) else None).
Proof.
  intros Hl Hr Pl Pr. split; [by apply compare_gtge_spec|].
  destruct (Nat.eqb_spec (size_ lef) (size_ rig)) as [E|E]; [by apply compare_gtge_signed_spec|].
  unfold compare_gtge_signed. by rewrite (proj2 (Nat.eqb_neq _ _)).
Qed.

Lemma compare_orders_witness :
  let a := mk_vector4 4 [9] [0] in let b := mk_vector4 4 [5] [0] in
  compare_gtge a b BIT4_0 = BIT4_1 /\ compare_gtge_signed a b BIT4_0 = Some BIT4_0.
Proof.
  assert (forall n, word_ok n -> wf4 (mk_vector4 4 [n] [0])) as Hwf.
  { intros. by apply wf4_short; [lia|..]. }
  assert (Hab := compare_orders (mk_vector4 4 [9] [0]) (mk_vector4 4 [5] [0]) BIT4_0
    (Hwf 9 ltac:(unfold word_ok; lia)) (Hwf 5 ltac:(unfold word_ok; lia)) ltac:(simpl; lia) ltac:(simpl; lia)).
  cbv zeta. rewrite (proj1 Hab), (proj2 Hab). by vm_compute.
Defined.

(** [vector4_to_value] assigns the number of the vector, unsigned or two's
    complement as asked, converted to the native type of [w] bits, and returns
    whether the bits that fit the type are known; in arithmetic mode an unknown
    bit among them makes it return false and assign nothing.  The variant with
    the overflow flag raises it exactly when the number does not fit. *)
Theorem to_value_spec w int_signed vec is_signed is_arithmetic :
  (0 < size_ vec)%nat ->
  let r := vector4_to_value w int_signed vec is_signed is_arithmetic in
  snd r = negb (list_has_xz (take w (bits vec))) /\
  (is_arithmetic = true -> snd r = false -> fst r = None) /\
  (list_has_xz (bits vec) = false ->
     fst r = Some (int_cast w int_signed
               (if is_signed then bits_to_signed_Z (bits vec) else bits_to_Z (bits vec))) /\
     vector4_to_value_ovf vec =
       (Some (bits_to_Z (bits vec) mod 2 ^ 64), 2 ^ 64 <=? bits_to_Z (bits vec))).
Proof.
  intros Hpos r. unfold r. rewrite vector4_to_value_unfold. cbv zeta. split_and!.
  - destruct is_arithmetic, (list_has_xz (take w (bits vec))); done.
  - by intros ->; destruct (list_has_xz (take w (bits vec))).
  - intros Hxz. assert (list_has_xz (take w (bits vec)) = false) as ->.
    { rewrite list_has_xz_false in *. intros i x Hx. apply (Hxz i). by eapply lookup_take_Some. }
    rewrite andb_false_r. split; [by rewrite <- to_value_number|].
    unfold vector4_to_value_ovf.
    pose proof (to_value_ovf_loop_spec vec (size_ vec) (le_n _)
      (fun i Hi => no_xz_value vec i Hxz Hi) (size_ vec) 0 (Nat.add_0_r _)) as H.
    change (low_bits vec 0 mod 2 ^ 64) with 0 in H. change (ovf_mask 0) with 1 in H.
    change (2 ^ 64 <=? low_bits vec 0) with false in H. by rewrite H.
Qed.

Lemma to_value_spec_witness :
  let v := mk_vector4 4 [9] [0] in
  fst (vector4_to_value 8 true v true true) = Some (-7) /\ fst (vector4_to_value 8 true v false true) = Some 9.
Proof.
  assert (Hs := proj1 (proj2 (proj2 (to_value_spec 8 true (mk_vector4 4 [9] [0]) true true ltac:(simpl; lia))) eq_refl)).
  assert (Hu := proj1 (proj2 (proj2 (to_value_spec 8 true (mk_vector4 4 [9] [0]) false true ltac:(simpl; lia))) eq_refl)).
  cbv zeta. split; [rewrite Hs|rewrite Hu]; by vm_compute.
Defined.
