(* ===== verification/Vec4Array.v ===== *)
(** * Transfers between vectors and arrays of words ([vvp/vvp_net.cc])

    [vvp_vector4_t::subarray], which extracts a range of known bits into an
    array of native words, [setarray], its inverse, and [mov], which moves a
    range of bits inside a vector. *)

From Stdlib Require Import ZArith Lia Bool.
From stdpp Require Import base numbers list.
From S2P Require Import Prelude Bit4 Words Vec4 Vec4Move.

Open Scope Z_scope.

(** ** Definitions *)

Section word_scope_definitions.
Open Scope word_scope.

(** The treatment of the [btmp] of a piece: the abits to store, or [None] for
    the jump to [x_out]. *)
Definition known_bits (atmp btmp : Z) (xz_to_0 : bool) : option Z :=
  if negb (btmp =? 0) then (if xz_to_0 then Some (atmp .& ~~ btmp) else None) else Some atmp.

(** The loop of [subarray] over a long vector.  The state is [adr], [wid],
    [val_ptr], [val_off] and the array. *)
Definition subarray_step (v : vvp_vector4_t) (xz_to_0 : bool)
    (s : nat * nat * nat * nat * list Z) : option (nat * nat * nat * nat * list Z) :=
  let '(adr, wid, val_ptr, val_off, val) := s in
  let off := (adr mod BITS_PER_WORD)%nat in
  let atmp := wd (abits_ v) (adr / BITS_PER_WORD) >> off in
  let btmp := wd (bbits_ v) (adr / BITS_PER_WORD) >> off in
  let trans := (BITS_PER_WORD - off)%nat in
  let trans := if (BITS_PER_WORD - val_off <? trans)%nat then (BITS_PER_WORD - val_off)%nat else trans in
  let trans := if (wid <? trans)%nat then wid else trans in
  let atmp := if (trans <? BITS_PER_WORD)%nat then atmp .& w_mask trans else atmp in
  let btmp := if (trans <? BITS_PER_WORD)%nat then btmp .& w_mask trans else btmp in
  atmp ← known_bits atmp btmp xz_to_0;
  let val := <[val_ptr := wd val val_ptr .| (atmp << val_off)]> val in
  let val_off := (val_off + trans)%nat in
  let '(val_ptr, val_off) :=
    if (val_off =? BITS_PER_WORD)%nat then (S val_ptr, 0%nat) else (val_ptr, val_off) in
  Some ((adr + trans)%nat, (wid - trans)%nat, val_ptr, val_off, val).

(** [subarray(adr, wid, xz_to_0)]: [None] is the nil pointer. *)
Definition subarray (v : vvp_vector4_t) (adr wid : nat) (xz_to_0 : bool) : option (list Z) :=
  let val := replicate (nwords wid) 0 in
  if (size_ v <=? BITS_PER_WORD)%nat then
    let atmp := abits_val_ v >> adr in
    let btmp := bbits_val_ v >> adr in
    let atmp := if (wid <? BITS_PER_WORD)%nat then atmp .& w_mask wid else atmp in
    let btmp := if (wid <? BITS_PER_WORD)%nat then btmp .& w_mask wid else btmp in
    atmp ← known_bits atmp btmp xz_to_0;
    Some (<[0%nat := atmp]> val)
  else
    '(_, _, _, _, val) ← while_ wid (fun s => let '(_, wid, _, _, _) := s in (0 <? wid)%nat)
      (subarray_step v xz_to_0) (adr, wid, 0%nat, 0%nat, val);
    Some val.

(** The mask of [n] bits from bit [off], as [setarray] builds it. *)
Definition range_mask (off n : nat) : Z :=
  let lmask := w_mask off in
  let hmask := if (off + n <? BITS_PER_WORD)%nat then w_max << (off + n) else 0 in
  ~~ (hmask .| lmask).

(** The state is [wid], [off], [ptr], [val_off], [val_ptr] and the planes. *)
Definition setarray_step (val : list Z)
    (s : nat * nat * nat * nat * nat * list Z * list Z) :
    option (nat * nat * nat * nat * nat * list Z * list Z) :=
  let '(wid, off, ptr, val_off, val_ptr, abits, bbits) := s in
  let trans := wid in
  let trans := if (BITS_PER_WORD - val_off <? trans)%nat then (BITS_PER_WORD - val_off)%nat else trans in
  let trans := if (BITS_PER_WORD - off <? trans)%nat then (BITS_PER_WORD - off)%nat else trans in
  let mask := range_mask off trans in
  let src := if (off <=? val_off)%nat then wd val val_ptr >> (val_off - off)
             else wd val val_ptr << (off - val_off) in
  let abits := <[ptr := (wd abits ptr .& ~~ mask) .| (mask .& src)]> abits in
  let bbits := <[ptr := wd bbits ptr .& ~~ mask]> bbits in
  let val_off := (val_off + trans)%nat in
  let '(val_off, val_ptr) :=
    if (val_off =? BITS_PER_WORD)%nat then (0%nat, S val_ptr) else (val_off, val_ptr) in
  let off := (off + trans)%nat in
  let '(off, ptr) := if (off =? BITS_PER_WORD)%nat then (0%nat, S ptr) else (off, ptr) in
  Some ((wid - trans)%nat, off, ptr, val_off, val_ptr, abits, bbits).

Definition setarray (v : vvp_vector4_t) (adr wid : nat) (val : list Z) : option vvp_vector4_t :=
  assert_ (adr + wid <=? size_ v)%nat;;
  if (size_ v <=? BITS_PER_WORD)%nat then
    let mask := range_mask adr wid in
    Some (mk_vector4 (size_ v)
            [(abits_val_ v .& ~~ mask) .| (mask .& (wd val 0 << adr))]
            [bbits_val_ v .& ~~ mask])
  else
    '(_, _, _, _, _, abits, bbits) ←
      while_ wid (fun s => let '(wid, _, _, _, _, _, _) := s in (0 <? wid)%nat) (setarray_step val)
        (wid, (adr mod BITS_PER_WORD)%nat, (adr / BITS_PER_WORD)%nat, 0%nat, 0%nat, abits_ v, bbits_ v);
    Some (mk_vector4 (size_ v) abits bbits).

(** One plane of a piece of [mov]: [trans] bits from [soff] of word [sptr] to
    [doff] of word [dptr]. *)
Definition mov_word (ws : list Z) (sptr soff dptr doff trans : nat) : list Z :=
  let vmask := w_mask trans in
  let tmp := (wd ws sptr >> soff) .& vmask in
  <[dptr := (wd ws dptr .& ~~ (vmask << doff)) .| (tmp << doff)]> ws.

(** The state is [cnt], [sptr], [soff], [dptr], [doff] and the planes. *)
Definition mov_step (s : nat * nat * nat * nat * nat * list Z * list Z) :
    option (nat * nat * nat * nat * nat * list Z * list Z) :=
  let '(cnt, sptr, soff, dptr, doff, abits, bbits) := s in
  let trans := cnt in
  let trans := if (BITS_PER_WORD <? soff + trans)%nat then (BITS_PER_WORD - soff)%nat else trans in
  let trans := if (BITS_PER_WORD <? doff + trans)%nat then (BITS_PER_WORD - doff)%nat else trans in
  if (trans =? BITS_PER_WORD)%nat then
    Some ((cnt - BITS_PER_WORD)%nat, S sptr, soff, S dptr, doff,
          <[dptr := wd abits sptr]> abits, <[dptr := wd bbits sptr]> bbits)
  else
    let abits := mov_word abits sptr soff dptr doff trans in
    let bbits := mov_word bbits sptr soff dptr doff trans in
    let soff := (soff + trans)%nat in
    let '(soff, sptr) := if (BITS_PER_WORD <=? soff)%nat then (0%nat, S sptr) else (soff, sptr) in
    let doff := (doff + trans)%nat in
    let '(doff, dptr) := if (BITS_PER_WORD <=? doff)%nat then (0%nat, S dptr) else (doff, dptr) in
    Some ((cnt - trans)%nat, sptr, soff, dptr, doff, abits, bbits).

Definition mov (v : vvp_vector4_t) (dst src cnt : nat) : option vvp_vector4_t :=
  assert_ (dst + cnt <=? size_ v)%nat;;
  assert_ (src + cnt <=? size_ v)%nat;;
  if (size_ v <=? BITS_PER_WORD)%nat then
    Some (mk_vector4 (size_ v) (mov_word [abits_val_ v] 0 src 0 dst cnt)
                               (mov_word [bbits_val_ v] 0 src 0 dst cnt))
  else
    '(_, _, _, _, _, abits, bbits) ←
      while_ cnt (fun s => let '(cnt, _, _, _, _, _, _) := s in (0 <? cnt)%nat) mov_step
        (cnt, (src / BITS_PER_WORD)%nat, (src mod BITS_PER_WORD)%nat,
         (dst / BITS_PER_WORD)%nat, (dst mod BITS_PER_WORD)%nat, abits_ v, bbits_ v);
    Some (mk_vector4 (size_ v) abits bbits).

End word_scope_definitions.

(** ** Lemmas *)

(** [if (b > a) b = a] *)
Lemma if_ltb_min a b : (if (a <? b)%nat then a else b) = Nat.min a b.
Proof. destruct (Nat.ltb_spec a b); lia. Qed.

(** *** [subarray] *)

(** Bit [i] of the source as [subarray] sees it. *)
Definition sub_abit (v : vvp_vector4_t) (i : nat) : bool := wsbit (abits_ v) i && negb (wsbit (bbits_ v) i).

Lemma known_bits_spec a b xz n :
  word_ok a -> word_ok b -> (forall j, (n <= j < 64)%nat -> tb b j = false) ->
  match known_bits a b xz with
  | None => xz = false /\ exists j, (j < n)%nat /\ tb b j = true
  | Some r => word_ok r /\ (forall j, (j < 64)%nat -> tb r j = tb a j && negb (tb b j)) /\
              (xz = false -> forall j, (j < n)%nat -> tb b j = false)
  end.
Proof.
  intros Ha Hb Hn. unfold known_bits. destruct (Z.eqb_spec b 0) as [->|Hne]; cbn [negb].
  - split; [done|]. split; [|intros _ j _; apply tb_0].
    intros j _. by rewrite tb_0, andb_true_r.
  - destruct xz.
    + split; [auto with word_db|]. split; [|done].
      intros j Hj. by rewrite tb_land, tb_not, (proj2 (Nat.ltb_lt j 64)).
    + split; [done|]. exists (Z.to_nat (Z.log2 b)).
      assert (tb b (Z.to_nat (Z.log2 b)) = true) as Ht.
      { unfold tb. rewrite Z2Nat.id by apply Z.log2_nonneg. apply Z.bit_log2. unfold word_ok in Hb. lia. }
      split; [|done]. destruct (Nat.lt_ge_cases (Z.to_nat (Z.log2 b)) 64).
      * destruct (Nat.lt_ge_cases (Z.to_nat (Z.log2 b)) n); [done|]. rewrite Hn in Ht by done. done.
      * by rewrite tb_high in Ht.
Qed.

(** The piece of a word: [trans] bits from bit [off]. *)
Lemma tb_piece w off trans j :
  (off < 64)%nat -> (j < 64)%nat -> (off + trans <= 64)%nat ->
  tb (if (trans <? 64)%nat then Z.land (w_shr w off) (w_mask trans) else w_shr w off) j =
  (j <? trans)%nat && tb w (off + j).
Proof.
  intros Ho Hj Ht. destruct (Nat.ltb_spec trans 64).
  - rewrite tb_land, tb_shr, tb_mask, andb_comm, (Nat.add_comm j) by done. done.
  - rewrite tb_shr, (Nat.add_comm j), (proj2 (Nat.ltb_lt j trans)) by lia. done.
Qed.

Lemma wsbit_at ws k j : (j < 64)%nat -> wsbit ws (64 * k + j) = tb (wd ws k) j.
Proof.
  intros Hj. unfold wsbit. replace ((64 * k + j) / 64)%nat with k by dlia.
  by replace ((64 * k + j) mod 64)%nat with j by dlia.
Qed.

Lemma word_if_ok (c : bool) x y : word_ok x -> word_ok y -> word_ok (if c then x else y).
Proof. by destruct c. Qed.
#[export] Hint Resolve word_if_ok : word_db.

(** The bits that the array holds after [done] of them were transferred. *)
Definition sub_state (v : vvp_vector4_t) (adr0 wid0 done : nat) (val : list Z) : Prop :=
  length val = nwords wid0 /\ words_ok val /\
  forall i, (i < 64 * nwords wid0)%nat -> wsbit val i = (i <? done)%nat && sub_abit v (adr0 + i).

Definition sub_clear (v : vvp_vector4_t) (adr0 done : nat) : Prop :=
  forall i, (i < done)%nat -> wsbit (bbits_ v) (adr0 + i) = false.

(** The transfer of one piece. *)
Lemma sub_state_step v adr0 wid0 p o trans val a :
  let adr := (adr0 + (64 * p + o))%nat in
  sub_state v adr0 wid0 (64 * p + o) val -> (o < 64)%nat -> (p < nwords wid0)%nat ->
  (o + trans <= 64)%nat -> (adr mod 64 + trans <= 64)%nat -> word_ok a ->
  (forall j, (j < 64)%nat -> tb a j = (j <? trans)%nat && sub_abit v (adr + j)) ->
  sub_state v adr0 wid0 (64 * p + o + trans) (<[p := Z.lor (wd val p) (w_shl a o)]> val).
Proof.
  intros adr (Hl & Hok & Hbits) Ho Hp Ht1 Ht2 Ha Hab. split; [by rewrite length_insert|].
  split; [auto with word_db|]. intros i Hi. destruct (decide (i / 64 = p)%nat) as [E|E].
  - replace i with (64 * p + i mod 64)%nat by dlia. rewrite wsbit_at by dlia.
    set (j := (i mod 64)%nat). assert (j < 64)%nat by (unfold j; dlia).
    rewrite wd_insert, decide_True by (split; [done|lia]).
    rewrite tb_lor, tb_shl, <- wsbit_at, Hbits, (proj2 (Nat.ltb_lt j 64)) by (done || lia).
    destruct (Nat.leb_spec o j).
    + rewrite Hab by lia. rewrite (proj2 (Nat.ltb_ge (64 * p + j) (64 * p + o))) by lia.
      simpl. replace (adr + (j - o))%nat with (adr0 + (64 * p + j))%nat by (unfold adr; lia).
      f_equal. split_ifs; lia || done.
    + simpl. rewrite orb_false_r, !(proj2 (Nat.ltb_lt (64 * p + j) _)) by lia. done.
  - assert (wsbit (<[p := Z.lor (wd val p) (w_shl a o)]> val) i = wsbit val i) as ->.
    { unfold wsbit. rewrite wd_insert, decide_False; [done|]. by intros [? _]. }
    rewrite Hbits by done. f_equal. split_ifs; try done; dlia.
Qed.

Definition sub_inv (v : vvp_vector4_t) (adr0 wid0 : nat) (xz : bool)
    (s : nat * nat * nat * nat * list Z) : Prop :=
  let '(adr, wid, p, o, val) := s in
  adr = (adr0 + (64 * p + o))%nat /\ (o < 64)%nat /\ (64 * p + o + wid = wid0)%nat /\
  sub_state v adr0 wid0 (64 * p + o) val /\ (xz = false -> sub_clear v adr0 (64 * p + o)).

Lemma subarray_step_spec v adr0 wid0 xz s :
  wf4 v -> sub_inv v adr0 wid0 xz s -> (0 < (let '(_, wid, _, _, _) := s in wid))%nat ->
  match subarray_step v xz s with
  | Some s' => sub_inv v adr0 wid0 xz s' /\
      ((let '(_, wid, _, _, _) := s' in wid) < (let '(_, wid, _, _, _) := s in wid))%nat
  | None => xz = false /\ exists i, (i < wid0)%nat /\ wsbit (bbits_ v) (adr0 + i) = true
  end.
Proof.
  destruct s as [[[[adr wid] p] o] val]. intros Hv (Hadr & Ho & Hw & Hst & Hclr) Hpos. cbv beta iota in Hpos.
  unfold subarray_step. change BITS_PER_WORD with 64%nat.
  set (off := (adr mod 64)%nat). assert (off < 64)%nat as Hoff by (unfold off; dlia).
  set (t1 := if (64 - o <? 64 - off)%nat then (64 - o)%nat else (64 - off)%nat).
  set (trans := if (wid <? t1)%nat then wid else t1).
  assert (0 < trans /\ trans <= wid /\ o + trans <= 64 /\ off + trans <= 64)%nat as (T1 & T2 & T3 & T4).
  { unfold trans, t1. rewrite !if_ltb_min. clearbody off. clear -Ho Hoff Hpos. lia. }
  set (at_ := if (trans <? 64)%nat then Z.land (w_shr (wd (abits_ v) (adr / 64)) off) _ else _).
  set (bt := if (trans <? 64)%nat then Z.land (w_shr (wd (bbits_ v) (adr / 64)) off) _ else _).
  assert (Hsrc : forall ws j, (j < trans)%nat -> tb (wd ws (adr / 64)) (off + j) = wsbit ws (adr + j)).
  { intros ws j Hj. rewrite <- wsbit_at by lia. f_equal. unfold off. dlia. }
  assert (Hab : forall ws j, (j < 64)%nat ->
    (j <? trans)%nat && tb (wd ws (adr / 64)) (off + j) = (j <? trans)%nat && wsbit ws (adr + j)).
  { intros ws j Hj. apply andb_guard. intros Hlt. apply Hsrc. by apply Nat.ltb_lt. }
  assert (Hat : forall j, (j < 64)%nat -> tb at_ j = (j <? trans)%nat && wsbit (abits_ v) (adr + j)).
  { intros j Hj. unfold at_. by rewrite tb_piece, Hab. }
  assert (Hbt : forall j, (j < 64)%nat -> tb bt j = (j <? trans)%nat && wsbit (bbits_ v) (adr + j)).
  { intros j Hj. unfold bt. by rewrite tb_piece, Hab. }
  assert (word_ok at_ /\ word_ok bt) as [Hat_ok Hbt_ok].
  { unfold at_, bt. split; apply word_if_ok; auto with word_db. }
  pose proof (known_bits_spec at_ bt xz trans Hat_ok Hbt_ok) as Hk.
  destruct (known_bits at_ bt xz) as [a|]; cbn [mbind option_bind].
  2:{ destruct Hk as (-> & j & Hj & Ht).
      { intros j Hj. rewrite Hbt by lia. by rewrite (proj2 (Nat.ltb_ge j trans)) by lia. }
      split; [done|]. exists (64 * p + o + j)%nat. split; [lia|].
      rewrite Hbt in Ht by lia. apply andb_true_iff in Ht as [_ Ht].
      by replace (adr0 + (64 * p + o + j))%nat with (adr + j)%nat by lia. }
  destruct Hk as (Ha & Hbits & Hclr').
  { intros j Hj. rewrite Hbt by lia. by rewrite (proj2 (Nat.ltb_ge j trans)) by lia. }
  assert (Hst' : sub_state v adr0 wid0 (64 * p + o + trans) (<[p := Z.lor (wd val p) (w_shl a o)]> val)).
  { apply sub_state_step; [done|done| |lia| |done|].
    - pose proof (nwords_spec wid0). lia.
    - rewrite <- Hadr. fold off. lia.
    - intros j Hj. rewrite <- Hadr, Hbits, Hat, Hbt by done. unfold sub_abit.
      destruct (j <? trans)%nat; simpl; done. }
  assert (Hclr2 : xz = false -> sub_clear v adr0 (64 * p + o + trans)).
  { intros Hx i Hi. destruct (Nat.lt_ge_cases i (64 * p + o)) as [|Hge]; [by apply Hclr|].
    specialize (Hclr' Hx (i - (64 * p + o))%nat ltac:(lia)). rewrite Hbt in Hclr' by lia.
    rewrite (proj2 (Nat.ltb_lt _ trans)) in Hclr' by lia.
    by replace (adr0 + i)%nat with (adr + (i - (64 * p + o)))%nat by lia. }
  destruct (Nat.eqb_spec (o + trans) 64) as [E|E]; cbn [sub_inv]; (split; [|lia]).
  - replace (64 * S p + 0)%nat with (64 * p + o + trans)%nat by lia. split_and!; (done || lia).
  - replace (64 * p + (o + trans))%nat with (64 * p + o + trans)%nat by lia. split_and!; (done || lia).
Qed.

Lemma subarray_loop_spec v adr0 wid0 xz : wf4 v -> forall fuel s,
  sub_inv v adr0 wid0 xz s -> ((let '(_, wid, _, _, _) := s in wid) <= fuel)%nat ->
  match while_ fuel (fun s => let '(_, wid, _, _, _) := s in (0 <? wid)%nat) (subarray_step v xz) s with
  | Some (_, _, _, _, val) => sub_state v adr0 wid0 wid0 val /\ (xz = false -> sub_clear v adr0 wid0)
  | None => xz = false /\ exists i, (i < wid0)%nat /\ wsbit (bbits_ v) (adr0 + i) = true
  end.
Proof.
  intros Hv. induction fuel as [|fuel IH]; intros s Hinv Hf; cbn [while_].
  - destruct s as [[[[adr wid] p] o] val]. assert (wid = 0)%nat as -> by lia. simpl.
    destruct Hinv as (_ & _ & Hw & Hst & Hc). rewrite Nat.add_0_r in Hw. by subst wid0.
  - destruct s as [[[[adr wid] p] o] val]. destruct (Nat.ltb_spec 0 wid) as [Hpos|Hz].
    + pose proof (subarray_step_spec v adr0 wid0 xz _ Hv Hinv Hpos) as Hs.
      destruct (subarray_step v xz _) as [s'|]; cbn [mbind option_bind]; [|done].
      destruct Hs as [Hinv' Hlt]. apply IH; [done|]. simpl in Hf, Hlt. lia.
    + assert (wid = 0)%nat as -> by lia.
      destruct Hinv as (_ & _ & Hw & Hst & Hc). rewrite Nat.add_0_r in Hw. by subst wid0.
Qed.

Lemma subarray_spec v adr wid xz :
  wf4 v -> (0 < wid)%nat -> (adr + wid <= size_ v)%nat ->
  match subarray v adr wid xz with
  | Some val => sub_state v adr wid wid val /\ (xz = false -> sub_clear v adr wid)
  | None => xz = false /\ exists i, (i < wid)%nat /\ wsbit (bbits_ v) (adr + i) = true
  end.
Proof.
  intros Hv Hpos Hw. unfold subarray. change BITS_PER_WORD with 64%nat.
  destruct (Nat.leb_spec (size_ v) 64) as [Hs|Hl].
  - set (at_ := if (wid <? 64)%nat then Z.land (w_shr (abits_val_ v) adr) (w_mask wid) else w_shr (abits_val_ v) adr).
    set (bt := if (wid <? 64)%nat then Z.land (w_shr (bbits_val_ v) adr) (w_mask wid) else w_shr (bbits_val_ v) adr).
    assert (forall ws j, (j < 64)%nat ->
      (j <? wid)%nat && tb (wd ws 0) (adr + j) = (j <? wid)%nat && wsbit ws (adr + j)) as Hab.
    { intros ws j Hj. apply andb_guard. intros Hlt. apply Nat.ltb_lt in Hlt. by rewrite wsbit_val by lia. }
    assert (Hat : forall j, (j < 64)%nat -> tb at_ j = (j <? wid)%nat && wsbit (abits_ v) (adr + j)).
    { intros j Hj. unfold at_. rewrite tb_piece by lia. by apply Hab. }
    assert (Hbt : forall j, (j < 64)%nat -> tb bt j = (j <? wid)%nat && wsbit (bbits_ v) (adr + j)).
    { intros j Hj. unfold bt. rewrite tb_piece by lia. by apply Hab. }
    assert (word_ok at_ /\ word_ok bt) as [Hao Hbo].
    { pose proof (wf4_wd_a v 0 Hv). pose proof (wf4_wd_b v 0 Hv).
      unfold at_, bt, abits_val_, bbits_val_. split; apply word_if_ok; auto using word_ok_shr with word_db. }
    pose proof (known_bits_spec at_ bt xz wid Hao Hbo) as Hk.
    assert (Hn : forall j, (wid <= j < 64)%nat -> tb bt j = false).
    { intros j Hj. rewrite Hbt by lia. by rewrite (proj2 (Nat.ltb_ge j wid)) by lia. }
    assert (nwords wid = 1)%nat as Hnw by (pose proof (nwords_spec wid); lia).
    destruct (known_bits at_ bt xz) as [a|]; cbn [mbind option_bind].
    + destruct (Hk Hn) as (Ha & Hbits & Hc). rewrite Hnw. split.
      * unfold sub_state. rewrite Hnw. split; [done|]. split; [by apply Forall_singleton|].
        intros i Hi. rewrite wsbit_val by lia. simpl. change (wd [a] 0) with a.
        rewrite Hbits, Hat, Hbt by lia. unfold sub_abit. by destruct (i <? wid)%nat.
      * intros Hx i Hi. specialize (Hc Hx i Hi). rewrite Hbt in Hc by lia.
        by rewrite (proj2 (Nat.ltb_lt i wid)) in Hc by lia.
    + destruct (Hk Hn) as (-> & j & Hj & Ht). split; [done|]. exists j. split; [done|].
      rewrite Hbt in Ht by lia. by apply andb_true_iff in Ht as [_ Ht].
  - pose proof (subarray_loop_spec v adr wid xz Hv wid (adr, wid, 0%nat, 0%nat, replicate (nwords wid) 0)) as H.
    destruct (while_ wid _ _ _) as [[[[[? ?] ?] ?] val]|]; cbn [mbind option_bind].
    all: apply H; [|done]; split_and!; [lia|lia|lia| |intros _ i Hi; lia].
    all: split_and!; [apply length_replicate|apply words_ok_replicate, word_ok_0|].
    all: intros i Hi; unfold wsbit; rewrite wd_replicate; by destruct (_ <? _)%nat; rewrite tb_0.
Qed.

(** *** [setarray] *)

Lemma range_mask_spec off n : (off < 64)%nat -> (off + n <= 64)%nat -> mask_range (range_mask off n) off (off + n).
Proof.
  intros Ho Hn. split; [unfold range_mask; auto with word_db|]. intros j Hj. unfold range_mask.
  rewrite tb_not, tb_lor, tb_mask, (proj2 (Nat.ltb_lt j 64)) by done.
  destruct (Nat.ltb_spec (off + n) 64).
  - rewrite tb_shl, tb_max, (proj2 (Nat.ltb_lt j 64)), (proj2 (Nat.ltb_lt (j - _) 64)) by lia.
    split_ifs; simpl; lia || done.
  - rewrite tb_0. split_ifs; simpl; lia || done.
Qed.

(** The source word of a piece of [setarray], aligned on the destination. *)
Lemma tb_aligned_src w off val_off j :
  (off < 64)%nat -> (val_off < 64)%nat -> (off <= j < 64)%nat ->
  tb (if (off <=? val_off)%nat then w_shr w (val_off - off) else w_shl w (off - val_off)) j =
  tb w (val_off + (j - off)).
Proof.
  intros Ho Hv Hj. destruct (Nat.leb_spec off val_off).
  - rewrite tb_shr by lia. f_equal. lia.
  - rewrite tb_shl, (proj2 (Nat.ltb_lt j 64)), (proj2 (Nat.leb_le _ j)) by lia. simpl. f_equal. lia.
Qed.

Lemma masked_merge m l h w src j :
  mask_range m l h -> (j < 64)%nat ->
  tb (Z.lor (Z.land w (w_not m)) (Z.land m src)) j = if (l <=? j)%nat && (j <? h)%nat then tb src j else tb w j.
Proof.
  intros [_ Hm] Hj. rewrite tb_lor, !tb_land, tb_not, Hm, (proj2 (Nat.ltb_lt j 64)) by done.
  destruct ((l <=? j)%nat && (j <? h)%nat); simpl; by rewrite ?andb_false_r, ?andb_true_r, ?orb_false_r.
Qed.

Lemma masked_clear m l h w j :
  mask_range m l h -> (j < 64)%nat ->
  tb (Z.land w (w_not m)) j = if (l <=? j)%nat && (j <? h)%nat then false else tb w j.
Proof.
  intros [_ Hm] Hj. rewrite tb_land, tb_not, Hm, (proj2 (Nat.ltb_lt j 64)) by done.
  destruct ((l <=? j)%nat && (j <? h)%nat); simpl; by rewrite ?andb_false_r, ?andb_true_r.
Qed.

Definition setarray_inv (v : vvp_vector4_t) (adr wid0 : nat) (val : list Z)
    (s : nat * nat * nat * nat * nat * list Z * list Z) : Prop :=
  let '(wid, off, ptr, val_off, val_ptr, abits, bbits) := s in
  let hi := (64 * ptr + off)%nat in
  (hi + wid = adr + wid0)%nat /\ (64 * val_ptr + val_off + adr = hi)%nat /\
  (off < 64)%nat /\ (val_off < 64)%nat /\
  range_upd (abits_ v) (fun i => wsbit val (i - adr)) adr hi abits /\
  range_upd (bbits_ v) (fun _ => false) adr hi bbits.

Lemma setarray_step_spec v adr wid0 val s :
  wf4 v -> words_ok val -> (64 < size_ v)%nat -> (adr + wid0 <= size_ v)%nat ->
  setarray_inv v adr wid0 val s -> (0 < (let '(wid, _, _, _, _, _, _) := s in wid))%nat ->
  returns (setarray_step val s) (fun s' => setarray_inv v adr wid0 val s' /\
    ((let '(wid, _, _, _, _, _, _) := s' in wid) < (let '(wid, _, _, _, _, _, _) := s in wid))%nat).
Proof.
  destruct s as [[[[[[wid off] ptr] vo] vp] a] b].
  intros Hv Hval Hlong Hin (Hw & Hvp & Ho & Hvo & Ha & Hb) Hpos. cbv beta iota in Hpos.
  unfold setarray_step. rewrite !if_ltb_min.
  set (trans := Nat.min (64 - off) (Nat.min (64 - vo) wid)).
  assert (0 < trans /\ trans <= wid /\ off + trans <= 64 /\ vo + trans <= 64)%nat as (T1 & T2 & T3 & T4)
    by (unfold trans; lia). clearbody trans.
  pose proof (range_mask_spec off trans Ho T3) as Hm. set (mask := range_mask off trans) in *.
  pose proof Hv as (La & Lb & Oa & Ob). rewrite nstore_long in La, Lb by done.
  pose proof (nwords_spec (size_ v)) as Hns.
  assert (ptr < nwords (size_ v))%nat as Hptr by lia.
  set (src := if (off <=? vo)%nat then _ else _).
  assert (Hsrc : word_ok src) by (unfold src; apply word_if_ok; auto using word_ok_shr with word_db).
  assert (Ha' : range_upd (abits_ v) (fun i => wsbit val (i - adr)) adr (64 * ptr + (off + trans))
    (<[ptr := Z.lor (Z.land (wd a ptr) (w_not mask)) (Z.land mask src)]> a)).
  { eapply range_upd_step; [exact Ha|by rewrite La|done|lia|lia| |].
    - destruct Ha as (_ & Hoa & _). destruct Hm. auto with word_db.
    - intros j Hj. rewrite (masked_merge mask off (off + trans)) by done.
      destruct ((off <=? j)%nat && (j <? off + trans)%nat) eqn:E; [|done].
      apply tb_range in E. unfold src. rewrite tb_aligned_src by lia.
      rewrite <- wsbit_at by lia. f_equal. lia. }
  assert (Hb' : range_upd (bbits_ v) (fun _ => false) adr (64 * ptr + (off + trans))
    (<[ptr := Z.land (wd b ptr) (w_not mask)]> b)).
  { eapply range_upd_step; [exact Hb|by rewrite Lb|done|lia|lia| |].
    - destruct Hb as (_ & Hob & _). destruct Hm. auto with word_db.
    - intros j Hj. by rewrite (masked_clear mask off (off + trans)). }
  destruct (Nat.eqb_spec (vo + trans) 64), (Nat.eqb_spec (off + trans) 64);
    apply returns_ret; cbn [setarray_inv].
  all: try replace (64 * S ptr + 0)%nat with (64 * ptr + (off + trans))%nat by lia.
  all: split; [split_and!; (done || lia)|lia].
Qed.

Lemma setarray_returns v adr wid val :
  wf4 v -> words_ok val -> (0 < wid)%nat -> (adr + wid <= size_ v)%nat ->
  returns (setarray v adr wid val) (fun r => wf4 r /\ size_ r = size_ v /\
    forall i, (i < size_ v)%nat ->
      value r i = if (adr <=? i)%nat && (i <? adr + wid)%nat then bit4_of_bool (wsbit val (i - adr))
                  else value v i).
Proof.
  intros Hv Hval Hpos Hin. unfold setarray. apply returns_assert; [by apply Nat.leb_le|].
  destruct (Nat.leb_spec (size_ v) 64) as [Hs|Hl].
  - apply returns_ret. pose proof (range_mask_spec adr wid ltac:(lia) ltac:(lia)) as Hm.
    assert (word_ok (abits_val_ v) /\ word_ok (bbits_val_ v)) as [Oa Ob]
      by (split; [apply (wf4_wd_a v 0 Hv)|apply (wf4_wd_b v 0 Hv)]).
    set (mask := range_mask adr wid) in *. pose proof (proj1 Hm) as Hmo.
    assert (word_ok (Z.lor (Z.land (abits_val_ v) (w_not mask)) (Z.land mask (w_shl (wd val 0) adr)))
      /\ word_ok (Z.land (bbits_val_ v) (w_not mask))) as [O1 O2] by auto with word_db.
    split; [by apply wf4_short|]. split; [done|]. intros i Hi.
    rewrite value_short by done.
    rewrite (masked_merge mask adr (adr + wid)), (masked_clear mask adr (adr + wid)) by (done || lia).
    destruct ((adr <=? i)%nat && (i <? adr + wid)%nat) eqn:E; [|by rewrite value_short_words].
    apply tb_range in E. rewrite tb_shl, (proj2 (Nat.ltb_lt i 64)), (proj2 (Nat.leb_le adr i)) by lia.
    rewrite wsbit_val by lia. simpl. by destruct (tb _ _).
  - eapply returns_bind.
    + apply (returns_while (setarray_inv v adr wid val)
        (fun s => let '(wid, _, _, _, _, _, _) := s in wid)).
      * assert (adr = 64 * (adr / 64) + adr mod 64)%nat as Hadr by dlia. destruct Hv as (_ & _ & Oa & Ob).
        split_and!; [dlia|dlia|dlia|lia|..].
        all: change BITS_PER_WORD with 64%nat; rewrite <- Hadr; by apply range_upd_refl.
      * done.
      * intros s Hinv Hc. apply setarray_step_spec; [done..|].
        destruct s as [[[[[[w ?] ?] ?] ?] ?] ?]. by apply Nat.ltb_lt.
    + intros [[[[[[w off] ptr] vo] vp] a] b] [(Hw & Hvp & Ho & Hvo & Ha & Hb) Hc].
      apply Nat.ltb_ge in Hc. replace (64 * ptr + off)%nat with (adr + wid)%nat in * by lia.
      destruct Ha as (La & Oa & Ba), Hb as (Lb & Ob & Bb).
      pose proof Hv as (L1 & L2 & _ & _). rewrite nstore_long in L1, L2 by done.
      pose proof (nwords_spec (size_ v)) as Hns.
      assert (wf4 (mk_vector4 (size_ v) a b)) as Hwf by (apply wf4_long; [done|congruence..|done|done]).
      apply returns_ret. split; [done|]. split; [done|]. intros i Hi.
      rewrite value_long, Ba, Bb by (done || lia).
      destruct ((adr <=? i)%nat && (i <? adr + wid)%nat); [by destruct (wsbit val _)|].
      by rewrite value_wsbit.
Qed.

(** ** Properties *)

(** C38: [setarray] replaces exactly the addressed bits of a vector by the bits
    of the array, all known; reading the range back with [subarray] succeeds and
    gives the bits of the array; and [subarray] of any range is refused exactly
    when the range holds an unknown bit, unless the caller asked for such bits
    to read as 0. *)
Theorem setarray_subarray v adr wid val :
  wf4 v -> words_ok val -> (0 < wid)%nat -> (adr + wid <= size_ v)%nat ->
  (returns (setarray v adr wid val) (fun r =>
     wf4 r /\ bits r = take adr (bits v) ++ map (fun i => bit4_of_bool (wsbit val i)) (seq 0 wid)
                         ++ drop (adr + wid) (bits v) /\
     returns (subarray r adr wid false) (fun out => length out = nwords wid /\
       forall i, (i < wid)%nat -> wsbit out i = wsbit val i))) /\
  (subarray v adr wid false = None <-> list_has_xz (take wid (drop adr (bits v))) = true) /\
  returns (subarray v adr wid true) (fun out => forall i, (i < wid)%nat ->
    wsbit out i = bit4_eqb (value v (adr + i)) BIT4_1).
Proof.
  intros Hv Hval Hpos Hin. split_and!.
  - eapply returns_mono; [by apply setarray_returns|]. intros r (Hr & Hs & Hbits).
    split; [done|]. split.
    + apply bits_eq_list.
      * rewrite !length_app, length_take, length_drop, length_map, length_seq, length_bits. lia.
      * rewrite Hs. intros i Hi. rewrite Hbits by done.
        destruct (Nat.leb_spec adr i); simpl.
        -- rewrite lookup_app_r by (rewrite length_take, length_bits; lia).
           rewrite length_take, length_bits, Nat.min_l by lia.
           destruct (Nat.ltb_spec i (adr + wid)).
           ++ rewrite lookup_app_l by (rewrite length_map, length_seq; lia).
              by rewrite lookup_map_seq by lia.
           ++ rewrite lookup_app_r by (rewrite length_map, length_seq; lia).
              rewrite length_map, length_seq, lookup_drop.
              replace (adr + wid + (i - adr - wid))%nat with i by lia. by apply lookup_bits.
        -- rewrite lookup_app_l by (rewrite length_take, length_bits; lia).
           rewrite lookup_take_lt by lia. by apply lookup_bits.
    + pose proof (subarray_spec r adr wid false Hr Hpos ltac:(lia)) as Hsub.
      assert (Hk : forall i, (i < wid)%nat ->
        wsbit (abits_ r) (adr + i) = wsbit val i /\ wsbit (bbits_ r) (adr + i) = false).
      { intros i Hi. specialize (Hbits (adr + i)%nat ltac:(lia)). rewrite value_wsbit in Hbits by (done || lia).
        rewrite (proj2 (tb_range _ _ _)) in Hbits by lia. replace (adr + i - adr)%nat with i in Hbits by lia.
        by destruct (wsbit (abits_ r) _), (wsbit (bbits_ r) _), (wsbit val i). }
      destruct (subarray r adr wid false) as [out|].
      * exists out. destruct Hsub as [(Hl & Hok & Hb) _]. split; [done|]. split; [done|].
        intros i Hi. pose proof (nwords_spec wid). rewrite Hb by lia. unfold sub_abit.
        destruct (Hk i Hi) as [-> ->]. by rewrite (proj2 (Nat.ltb_lt i wid)), andb_true_r by done.
      * destruct Hsub as (_ & i & Hi & Hx). by rewrite (proj2 (Hk i Hi)) in Hx.
  - pose proof (subarray_spec v adr wid false Hv Hpos Hin) as Hsub.
    assert (Hl : list_has_xz (take wid (drop adr (bits v))) = false <-> sub_clear v adr wid).
    { rewrite list_has_xz_false. split.
      - intros H i Hi. specialize (H i (value v (adr + i))). rewrite lookup_take_lt, lookup_drop in H by done.
        specialize (H (lookup_bits v (adr + i) ltac:(lia))). revert H.
        by rewrite value_wsbit, bit4_is_xz_bbit, bit4_of_ab_bbit by (done || lia).
      - intros H i x Hx. assert (i < wid)%nat as Hi.
        { apply lookup_lt_Some in Hx. rewrite length_take in Hx. lia. }
        rewrite lookup_take_lt, lookup_drop, lookup_bits in Hx by lia. injection Hx as <-.
        rewrite value_wsbit, bit4_is_xz_bbit, bit4_of_ab_bbit by (done || lia). by apply H. }
    destruct (subarray v adr wid false) as [out|]; split; try done.
    + intros Hx. destruct Hsub as [_ Hc]. rewrite (proj2 Hl (Hc eq_refl)) in Hx. done.
    + intros _. apply not_false_iff_true. intros Hf. apply Hl in Hf.
      destruct Hsub as (_ & i & Hi & Hx). by rewrite (Hf i Hi) in Hx.
  - pose proof (subarray_spec v adr wid true Hv Hpos Hin) as Hsub.
    destruct (subarray v adr wid true) as [out|]; [|by destruct Hsub].
    exists out. split; [done|]. destruct Hsub as [(_ & _ & Hb) _]. intros i Hi.
    pose proof (nwords_spec wid). rewrite Hb by lia. unfold sub_abit.
    rewrite (proj2 (Nat.ltb_lt i wid)), value_wsbit by (done || lia).
    by destruct (wsbit (abits_ v) _), (wsbit (bbits_ v) _).
Qed.

Lemma setarray_subarray_witness :
  let v := allocate_words_ 70 w_max w_max in
  returns (setarray v 60 8 [165]) (fun r =>
     wf4 r /\ bits r = take 60 (bits v) ++ map (fun i => bit4_of_bool (wsbit [165] i)) (seq 0 8)
                         ++ drop 68 (bits v) /\
     returns (subarray r 60 8 false) (fun out => length out = nwords 8 /\
       forall i, (i < 8)%nat -> wsbit out i = wsbit [165] i)).
Proof.
  refine (proj1 (setarray_subarray (allocate_words_ 70 w_max w_max) 60 8 [165]
    (allocate_words_wf _ _ _ word_ok_max word_ok_max) _ _ _)).
  - apply Forall_singleton. unfold word_ok. lia.
  - lia.
  - simpl. lia.
Defined.
