(* ===== verification/Vec2.v ===== *)
(** * Two-valued vectors ([vvp/vvp_net.cc], [class vvp_vector2_t])

    [vvp_vector2_t] is the unsigned number of arbitrary width on which the
    engine multiplies, divides and shifts.  The file models its constructors,
    its shifts, its arithmetic, [div_mod], [pow] and the comparisons, and
    relates them to arithmetic on [num v], the number in its words. *)

From Stdlib Require Import ZArith Lia Bool.
From stdpp Require Import base numbers list.
From S2P Require Import Prelude Bit4 Words Vec4 Vec4Array Vec4Arith.

Open Scope Z_scope.

(** ** Definitions *)

(** The array and the width.  An object of width 0 is the NaN value and has no
    array. *)
Record vvp_vector2_t := mk_vector2 { vec_ : list Z; wid_ : nat }.

(** The width never exceeds the array ([trim] shrinks the width alone). *)
Definition wf2 (v : vvp_vector2_t) : Prop :=
  (nwords (wid_ v) <= length (vec_ v))%nat /\ words_ok (vec_ v).

(** The number in the words of the vector. *)
Definition num (v : vvp_vector2_t) : Z := wsum (wd (vec_ v)) (nwords (wid_ v)).

(** No bit is set beyond the width. *)
Definition clean (v : vvp_vector2_t) : Prop := num v < 2 ^ Z.of_nat (wid_ v).

Section word_scope_definitions.
Open Scope word_scope.

(** *** Constructors and assignment *)

Definition vector2_nan : vvp_vector2_t := mk_vector2 [] 0.

(** [vvp_vector2_t(unsigned long v, unsigned wid)] *)
Definition vector2_of_ulong (v : Z) (wid : nat) : vvp_vector2_t :=
  mk_vector2 (<[0%nat := v]> (replicate (nwords wid) 0)) wid.

(** [vvp_vector2_t(fill_t fill, unsigned wid)] *)
Definition vector2_fill (fill : bool) (wid : nat) : vvp_vector2_t :=
  mk_vector2 (replicate (nwords wid) (if fill then w_max else 0)) wid.

Definition vector2_value (v : vvp_vector2_t) (idx : nat) : bool :=
  if (wid_ v <=? idx)%nat then false
  else negb (wd (vec_ v) (idx / BITS_PER_WORD) .& (1 << (idx mod BITS_PER_WORD)) =? 0).

(** [vvp_vector2_t(that, base, wid)]: [junk] is the uninitialised memory that
    [new unsigned long[words]] returns, into which the bits are ORed. *)
Definition vector2_part (junk : list Z) (that : vvp_vector2_t) (base wid : nat) : vvp_vector2_t :=
  mk_vector2
    (loop_ 0 wid (fun idx vec =>
       if vector2_value that (base + idx) then
         let word := (idx / BITS_PER_WORD)%nat in
         let mask := 1 << (idx mod BITS_PER_WORD) in
         <[word := wd vec word .| mask]> vec
       else vec) junk) wid.

(** [copy_from_that_(const vvp_vector4_t&)]; the nil array never occurs with
    [xz_to_0]. *)
Definition vector2_copy_vector4 (that : vvp_vector4_t) : option vvp_vector2_t :=
  if (nwords (size_ that) =? 0)%nat then Some vector2_nan
  else vec ← subarray that 0 (size_ that) true; Some (mk_vector2 vec (size_ that)).

(** [vvp_vector2_t(const vvp_vector4_t&, enable_NaN)] *)
Definition vector2_of_vector4 (that : vvp_vector4_t) (enable_NaN : bool) : option vvp_vector2_t :=
  if enable_NaN && has_xz that then Some vector2_nan else vector2_copy_vector4 that.

(** [copy_from_that_(const vvp_vector2_t&)] *)
Definition vector2_copy (that : vvp_vector2_t) : vvp_vector2_t :=
  let words := nwords (wid_ that) in
  if (words =? 0)%nat then vector2_nan
  else mk_vector2 (map (wd (vec_ that)) (seq 0 words)) (wid_ that).

(** [vvp_vector2_t(that, newsize)] *)
Definition vector2_resize (that : vvp_vector2_t) (newsize : nat) : vvp_vector2_t :=
  if (newsize =? 0)%nat then mk_vector2 [] newsize
  else
    let words := nwords newsize in
    let twords := nwords (wid_ that) in
    mk_vector2 (map (fun idx => if (idx <? twords)%nat then wd (vec_ that) idx else 0) (seq 0 words)) newsize.

(** *** Shifts *)

(** [-1UL >> (BITS_PER_WORD - wid_ % BITS_PER_WORD)]: for a width that is a multiple
    of 64 this is a shift by 64, undefined in C++, and no shift on x86-64, where the
    mask keeps the whole word.  The operations on such widths rely on that. *)
Definition tail_mask (wid : nat) : Z := w_max >> (BITS_PER_WORD - wid mod BITS_PER_WORD).

(** [vec_[words - 1] &= mask] *)
Definition mask_tail (wid : nat) (vec : list Z) : list Z :=
  let words := nwords wid in <[(words - 1)%nat := wd vec (words - 1) .& tail_mask wid]> vec.

(** The word shift of [<<=]. *)
Definition shl_words (words wshift : nat) (vec : list Z) : list Z :=
  let vec := loop_ 0 (words - wshift) (fun idx vec =>
    let sel := (words - idx - 1)%nat in <[sel := wd vec (sel - wshift)]> vec) vec in
  loop_ 0 wshift (fun idx vec => <[idx := 0]> vec) vec.

(** The fine shift of [<<=]; the state is the array and [pad]. *)
Definition shl_bits (words oshift : nat) (vec : list Z) : list Z :=
  fst (loop_ 0 words (fun idx '(vec, pad) =>
    let next_pad := wd vec idx >> (BITS_PER_WORD - oshift) in
    (<[idx := (wd vec idx << oshift) .| pad]> vec, next_pad)) (vec, 0)).

(** [operator <<=] *)
Definition vector2_shl (v : vvp_vector2_t) (shift : nat) : vvp_vector2_t :=
  if (wid_ v =? 0)%nat then v
  else
    let words := nwords (wid_ v) in
    let wshift := (shift / BITS_PER_WORD)%nat in
    let oshift := (shift mod BITS_PER_WORD)%nat in
    if (words <=? wshift)%nat then
      mk_vector2 (loop_ 0 words (fun idx vec => <[idx := 0]> vec) (vec_ v)) (wid_ v)
    else
      let vec := if (0 <? wshift)%nat then shl_words words wshift (vec_ v) else vec_ v in
      let vec := if negb (oshift =? 0)%nat then mask_tail (wid_ v) (shl_bits words oshift vec) else vec in
      mk_vector2 vec (wid_ v).

Definition shr_words (words wshift : nat) (vec : list Z) : list Z :=
  let vec := loop_ 0 (words - wshift) (fun idx vec => <[idx := wd vec (idx + wshift)]> vec) vec in
  loop_ (words - wshift) wshift (fun idx vec => <[idx := 0]> vec) vec.

Definition shr_bits (words oshift : nat) (vec : list Z) : list Z :=
  fst (loop_down words (fun idx '(vec, pad) =>
    let new_pad := wd vec (idx - 1) << (BITS_PER_WORD - oshift) in
    (<[(idx - 1)%nat := pad .| (wd vec (idx - 1) >> oshift)]> vec, new_pad)) (vec, 0)).

(** The cleanup after the fine shift of [>>=]; the state of the loop is
    [use_words], [mask_shift] and the array. *)
Definition shr_cleanup (wid words oshift : nat) (vec : list Z) : option (list Z) :=
  let mask_shift := (BITS_PER_WORD - wid mod BITS_PER_WORD)%nat in
  let mask_shift := (mask_shift mod BITS_PER_WORD)%nat in
  let mask_shift := (mask_shift + oshift)%nat in
  '(use_words, mask_shift, vec) ←
    while_ 2 (fun s => let '(_, mask_shift, _) := s in (BITS_PER_WORD <=? mask_shift)%nat)
      (fun s => let '(use_words, mask_shift, vec) := s in
         Some ((use_words - 1)%nat, (mask_shift - BITS_PER_WORD)%nat, <[(use_words - 1)%nat := 0]> vec))
      (words, mask_shift, vec);
  if (0 <? mask_shift)%nat then
    assert_ (0 <? use_words)%nat;;
    let mask := w_max >> mask_shift in
    Some (<[(use_words - 1)%nat := wd vec (use_words - 1) .& mask]> vec)
  else Some vec.

(** [operator >>=] *)
Definition vector2_shr (v : vvp_vector2_t) (shift : nat) : option vvp_vector2_t :=
  if (wid_ v =? 0)%nat then Some v
  else
    let words := nwords (wid_ v) in
    let wshift := (shift / BITS_PER_WORD)%nat in
    let oshift := (shift mod BITS_PER_WORD)%nat in
    if (words <=? wshift)%nat then
      Some (mk_vector2 (loop_ 0 words (fun idx vec => <[idx := 0]> vec) (vec_ v)) (wid_ v))
    else
      let vec := if (0 <? wshift)%nat then shr_words words wshift (vec_ v) else vec_ v in
      if (0 <? oshift)%nat then
        vec ← shr_cleanup (wid_ v) words oshift (shr_bits words oshift vec);
        Some (mk_vector2 vec (wid_ v))
      else Some (mk_vector2 vec (wid_ v)).

(** *** Addition and subtraction *)

(** The carry loop of [+=] and [-=]; [inv] is [~] in [-=]. *)
Definition carry_loop (inv : Z -> Z) (words : nat) (carry : Z) (vec that : list Z) : list Z :=
  fst (loop_ 0 words (fun idx '(vec, carry) =>
    let '(out, carry) := add_carry (wd vec idx) (inv (wd that idx)) carry in
    (<[idx := out]> vec, carry)) (vec, carry)).

(** [operator +=] *)
Definition vector2_add (v that : vvp_vector2_t) : option vvp_vector2_t :=
  assert_ (wid_ v =? wid_ that)%nat;;
  if (wid_ v =? 0)%nat then Some v
  else Some (mk_vector2 (mask_tail (wid_ v)
               (carry_loop (fun w => w) (nwords (wid_ v)) 0 (vec_ v) (vec_ that))) (wid_ v)).

(** [operator -=] *)
Definition vector2_sub (v that : vvp_vector2_t) : option vvp_vector2_t :=
  assert_ (wid_ v =? wid_ that)%nat;;
  if (wid_ v =? 0)%nat then Some v
  else Some (mk_vector2 (carry_loop w_not (nwords (wid_ v)) 1 (vec_ v) (vec_ that)) (wid_ v)).

(** Unary [operator -] *)
Definition vector2_neg (that : vvp_vector2_t) : option vvp_vector2_t :=
  let neg := vector2_copy that in
  if (wid_ neg =? 0)%nat then Some neg
  else
    let words := nwords (wid_ neg) in
    let vec := loop_ 0 words (fun idx vec => <[idx := ~~ wd vec idx]> vec) (vec_ neg) in
    vector2_add (mk_vector2 vec (wid_ neg)) (vector2_of_ulong 1 (wid_ neg)).

(** *** Bits *)

(** [trim]: [wid_] is decremented while the top bit is 0. *)
Fixpoint trim_width (v : vvp_vector2_t) (wid : nat) : nat :=
  match wid with
  | O => O
  | S n => if negb (vector2_value (mk_vector2 (vec_ v) wid) n) && (1 <? wid)%nat then trim_width v n else wid
  end.

Definition trim (v : vvp_vector2_t) : vvp_vector2_t := mk_vector2 (vec_ v) (trim_width v (wid_ v)).

Fixpoint trim_neg_width (v : vvp_vector2_t) (wid : nat) : nat :=
  match wid with
  | O => O
  | S n => if vector2_value (mk_vector2 (vec_ v) wid) (wid - 2) && (32 <? wid)%nat
           then trim_neg_width v n else wid
  end.

Definition trim_neg (v : vvp_vector2_t) : vvp_vector2_t :=
  if vector2_value v (wid_ v - 1) && (32 <? wid_ v)%nat
  then mk_vector2 (vec_ v) (trim_neg_width v (wid_ v)) else v.

Definition vector2_value4 (v : vvp_vector2_t) (idx : nat) : vvp_bit4_t :=
  if vector2_value v idx then BIT4_1 else BIT4_0.

Definition vector2_set_bit (v : vvp_vector2_t) (idx : nat) (bit : bool) : option vvp_vector2_t :=
  assert_ (idx <? wid_ v)%nat;;
  let addr := (idx / BITS_PER_WORD)%nat in
  let mask := 1 << (idx mod BITS_PER_WORD) in
  Some (mk_vector2
    (<[addr := if bit then wd (vec_ v) addr .| mask else wd (vec_ v) addr .& ~~ mask]> (vec_ v)) (wid_ v)).

Definition vector2_set_vec (v : vvp_vector2_t) (adr : nat) (that : vvp_vector2_t) : option vvp_vector2_t :=
  assert_ (adr + wid_ that <=? wid_ v)%nat;;
  for_ 0 (wid_ that) (fun idx v => vector2_set_bit v (adr + idx) (vector2_value that idx)) v.

Definition is_NaN (v : vvp_vector2_t) : bool := (wid_ v =? 0)%nat.

Definition is_zero (v : vvp_vector2_t) : bool :=
  forallb (fun idx => wd (vec_ v) idx =? 0) (seq 0 (nwords (wid_ v))).

Definition is_one (v : vvp_vector2_t) : bool :=
  if negb (wd (vec_ v) 0 =? 1) then false
  else forallb (fun idx => wd (vec_ v) idx =? 0) (seq 1 (nwords (wid_ v) - 1)).

(** [(wid_ - 1) / BITS_PER_WORD] whole words, then the remaining bits. *)
Definition is_all_one (v : vvp_vector2_t) : bool :=
  let words := ((wid_ v - 1) / BITS_PER_WORD)%nat in
  forallb (fun idx => wd (vec_ v) idx =? w_max) (seq 0 words) &&
  forallb (fun idx => vector2_value v idx)
    (seq (words * BITS_PER_WORD) (wid_ v - words * BITS_PER_WORD)).

(** *** Multiplication, power and division *)

(** The inner loops of [operator *]. *)
Definition mul_word (words : nat) (a : list Z) (bdx : nat) (tmpb : Z) (adx : nat) (r : list Z) : list Z :=
  let tmpa := wd a adx in
  if tmpa =? 0 then r
  else
    let '(low, hig) := multiply_long tmpa tmpb in
    ripple add_carry (adx + bdx) (words - (adx + bdx)) low hig 0 r.

Definition vector2_mul (a b : vvp_vector2_t) : option vvp_vector2_t :=
  assert_ (wid_ a =? wid_ b)%nat;;
  let r := vector2_of_ulong 0 (wid_ a) in
  let words := nwords (wid_ r) in
  Some (mk_vector2
    (loop_ 0 words (fun bdx r =>
       let tmpb := wd (vec_ b) bdx in
       if tmpb =? 0 then r else loop_ 0 words (mul_word words (vec_ a) bdx tmpb) r) (vec_ r))
    (wid_ r)).

(** The comparisons walk the words from the top: [lt], [gt] and [eq] are the
    answers at the first difference and at the end. *)
Fixpoint compare_words (words : nat) (a b : vvp_vector2_t) (lt gt eq : bool) : bool :=
  match words with
  | O => eq
  | S idx =>
      let aw := if (S idx <=? nwords (wid_ a))%nat then wd (vec_ a) idx else 0 in
      let bw := if (S idx <=? nwords (wid_ b))%nat then wd (vec_ b) idx else 0 in
      if bw <? aw then gt else if aw <? bw then lt else compare_words idx a b lt gt eq
  end.

Definition max_words (a b : vvp_vector2_t) : nat :=
  let awords := nwords (wid_ a) in
  let bwords := nwords (wid_ b) in
  if (bwords <? awords)%nat then awords else bwords.

Definition vector2_gt (a b : vvp_vector2_t) : bool := compare_words (max_words a b) a b false true false.
Definition vector2_ge (a b : vvp_vector2_t) : bool := compare_words (max_words a b) a b false true true.
Definition vector2_lt (a b : vvp_vector2_t) : bool := compare_words (max_words a b) a b true false false.
Definition vector2_eq (a b : vvp_vector2_t) : bool := compare_words (max_words a b) a b false false true.

Definition vector2_le (a b : vvp_vector2_t) : option bool :=
  assert_ (wid_ a =? wid_ b)%nat;;
  Some (compare_words (nwords (wid_ a)) a b true false true).

(** [pow(x, y)]: the exponent is passed by reference and the recursion consumes
    it, so the result carries its final value; the recursion is bounded by
    [fuel]. *)
Fixpoint vector2_pow (fuel : nat) (x y : vvp_vector2_t) : option (vvp_vector2_t * vvp_vector2_t) :=
  match fuel with
  | O => None
  | S fuel' =>
      if vector2_eq y (vector2_of_ulong 0 1) then Some (vector2_of_ulong 1 (wid_ x), y)
      else if vector2_value y 0 then
        y ← vector2_set_bit y 0 false;
        '(p, y) ← vector2_pow fuel' x y;
        res ← vector2_mul x p;
        Some (res, y)
      else
        y ← vector2_shr y 1;
        '(z, y) ← vector2_pow fuel' x y;
        res ← vector2_mul z z;
        Some (res, y)
  end.

(** [div_mod]: the quotient and the remainder; [None] is also the [exit(255)]
    on a division by zero. *)
Definition div_mod (dividend divisor : vvp_vector2_t) : option (vvp_vector2_t * vvp_vector2_t) :=
  let quotient := vector2_of_ulong 0 (wid_ dividend) in
  if vector2_eq divisor quotient then None
  else if vector2_lt dividend divisor then Some (quotient, dividend)
  else
    let mask := vector2_of_ulong 1 (wid_ dividend) in
    let dividend := vector2_resize dividend (wid_ dividend + 1) in
    let divtmp := vector2_resize divisor (wid_ dividend) in
    '(divtmp, mask) ← while_ (wid_ dividend) (fun '(divtmp, mask) => vector2_lt divtmp dividend)
      (fun '(divtmp, mask) => Some (vector2_shl divtmp 1, vector2_shl mask 1)) (divtmp, mask);
    '(dividend, divtmp, mask, quotient) ←
      while_ (S (wid_ dividend)) (fun '(dividend, divtmp, mask, quotient) => vector2_ge dividend divisor)
        (fun '(dividend, divtmp, mask, quotient) =>
           le ← vector2_le divtmp dividend;
           '(dividend, quotient) ←
             (if le : bool then
                dividend ← vector2_sub dividend divtmp;
                quotient ← vector2_add quotient mask;
                Some (dividend, quotient)
              else Some (dividend, quotient));
           divtmp ← vector2_shr divtmp 1;
           mask ← vector2_shr mask 1;
           Some (dividend, divtmp, mask, quotient)) (dividend, divtmp, mask, quotient);
    Some (quotient, vector2_resize dividend (wid_ mask)).

Definition vector2_div (dividend divisor : vvp_vector2_t) : option vvp_vector2_t :=
  fst <$> div_mod dividend divisor.

Definition vector2_mod (dividend divisor : vvp_vector2_t) : option vvp_vector2_t :=
  snd <$> div_mod dividend divisor.

(** *** Conversions *)

Definition vector2_to_vector4 (that : vvp_vector2_t) (wid : nat) : option vvp_vector4_t :=
  for_ 0 wid (fun idx res => set_bit res idx (if vector2_value that idx then BIT4_1 else BIT4_0))
    (vector4_fill wid BIT4_X).

(** [vector2_to_value(a, val, is_signed)] into an [int32_t]: the value and the
    result.  The masks run through the 32 bits of the type. *)
Definition vector2_to_value (a : vvp_vector2_t) (is_signed : bool) : Z * bool :=
  let val := loop_ 0 (Nat.min (wid_ a) 32)
    (fun idx val => if vector2_value a idx then val .| 2 ^ Z.of_nat idx else val) 0 in
  let val :=
    if is_signed && (wid_ a <? 32)%nat && vector2_value a (wid_ a - 1)
    then val .| Z.shiftl (-1) (Z.of_nat (wid_ a)) else val in
  (int_cast 32 true val, (wid_ a <=? 32)%nat).

End word_scope_definitions.

(** ** Lemmas *)

(** *** Bits of the number *)

Lemma wsum_tb vec n i : words_ok vec -> (i < 64 * n)%nat -> tb (wsum (wd vec) n) i = wsbit vec i.
Proof. intros Hok Hi. rewrite tb_wsum by (auto with word_db). done. Qed.

Lemma wsum_of_bits vec n z :
  words_ok vec -> (forall i, (i < 64 * n)%nat -> wsbit vec i = tb z i) ->
  wsum (wd vec) n = z mod 2 ^ (64 * Z.of_nat n).
Proof.
  intros Hok H. pose proof (wsum_bounds (wd vec) n ltac:(auto with word_db)) as Hb.
  rewrite <- (Z.mod_small (wsum _ _) (2 ^ (64 * Z.of_nat n))) by done.
  replace (64 * Z.of_nat n) with (Z.of_nat (64 * n)) by lia.
  apply tb_mod_ext. intros i Hi. rewrite wsum_tb by done. by apply H.
Qed.

Lemma num_bounds v : wf2 v -> 0 <= num v < 2 ^ (64 * Z.of_nat (nwords (wid_ v))).
Proof. intros [_ Hok]. apply wsum_bounds. auto with word_db. Qed.

Lemma clean_bit v i :
  wf2 v -> clean v -> (wid_ v <= i)%nat -> (i < 64 * nwords (wid_ v))%nat -> wsbit (vec_ v) i = false.
Proof.
  intros Hv Hc Hi Hn. rewrite <- (wsum_tb _ (nwords (wid_ v))) by (apply Hv || done).
  fold (num v). pose proof (num_bounds v Hv) as Hb. unfold clean in Hc. unfold tb.
  destruct (decide (num v = 0)) as [->|]; [apply Z.bits_0|].
  apply Z.bits_above_log2; [lia|]. apply Z.log2_lt_pow2; [lia|].
  eapply Z.lt_le_trans; [exact Hc|]. apply Z.pow_le_mono_r; lia.
Qed.

Lemma pow_words n : 2 ^ Z.of_nat n <= 2 ^ (64 * Z.of_nat (nwords n)).
Proof. pose proof (nwords_spec n). apply Z.pow_le_mono_r; lia. Qed.

(** Numbers equal below the width, when the words hold nothing else. *)
Lemma num_of_bits v z :
  wf2 v ->
  (forall i, (i < 64 * nwords (wid_ v))%nat -> wsbit (vec_ v) i = (i <? wid_ v)%nat && tb z i) ->
  num v = z mod 2 ^ Z.of_nat (wid_ v).
Proof.
  intros Hv H. unfold num. rewrite (wsum_of_bits _ _ (z mod 2 ^ Z.of_nat (wid_ v))); [|apply Hv|].
  - apply Z.mod_small. pose proof (pow_words (wid_ v)).
    pose proof (Z.mod_pos_bound z (2 ^ Z.of_nat (wid_ v)) ltac:(lia)). lia.
  - intros i Hi. rewrite H by done. destruct (Nat.ltb_spec i (wid_ v)) as [|Hge].
    + by rewrite tb_mod.
    + symmetry. unfold tb. apply Z.mod_pow2_bits_high. lia.
Qed.

Lemma vector2_value_bit v i : wf2 v -> vector2_value v i = (i <? wid_ v)%nat && wsbit (vec_ v) i.
Proof.
  intros Hv. unfold vector2_value. destruct (Nat.leb_spec (wid_ v) i) as [Hge|Hlt]; [by rewrite (proj2 (Nat.ltb_ge i (wid_ v)))|].
  rewrite (proj2 (Nat.ltb_lt i (wid_ v))) by done.
  unfold wsbit. change BITS_PER_WORD with 64%nat. simpl.
  assert (i mod 64 < 64)%nat as Hm by dlia. revert Hm. generalize (i mod 64)%nat. intros j Hj.
  set (w := wd _ _). destruct (tb w j) eqn:E.
  - apply negb_true_iff, Z.eqb_neq. intros Hz. assert (tb (Z.land w (w_shl 1 j)) j = true) as H'.
    { rewrite tb_land, tb_shl, E, Nat.sub_diag, Nat.leb_refl, (proj2 (Nat.ltb_lt j 64)) by done. done. }
    by rewrite Hz, tb_0 in H'.
  - apply negb_false_iff, Z.eqb_eq. apply Z.bits_inj'. intros k Hk.
    rewrite Z.bits_0. change k with k. replace k with (Z.of_nat (Z.to_nat k)) by lia.
    change (Z.testbit ?x (Z.of_nat ?y)) with (tb x y). rewrite tb_land, tb_shl by done.
    destruct (decide (Z.to_nat k = j)) as [->|]; [by rewrite E|].
    rewrite tb_1. destruct (Nat.leb_spec j (Z.to_nat k)); simpl; [|by rewrite !andb_false_r].
    rewrite (proj2 (Nat.eqb_neq _ 0)) by lia. by rewrite !andb_false_r.
Qed.

(** *** Constructors *)

Lemma wf2_map f wid : (forall k, word_ok (f k)) -> wf2 (mk_vector2 (map f (seq 0 (nwords wid))) wid).
Proof.
  intros H. split; simpl; [by rewrite length_map, length_seq|].
  apply Forall_map, Forall_forall. intros; apply H.
Qed.

Lemma wd_map_seq_if f n k : wd (map f (seq 0 n)) k = if (k <? n)%nat then f k else 0.
Proof.
  unfold wd. destruct (Nat.ltb_spec k n).
  - by rewrite nth_lookup, lookup_map_seq.
  - apply nth_overflow. by rewrite length_map, length_seq.
Qed.

Lemma num_map f wid : num (mk_vector2 (map f (seq 0 (nwords wid))) wid) = wsum f (nwords wid).
Proof.
  unfold num. simpl. apply wsum_ext. intros k Hk. rewrite wd_map_seq_if.
  by rewrite (proj2 (Nat.ltb_lt k _)).
Qed.

Lemma vector2_of_ulong_wf v wid : word_ok v -> wf2 (vector2_of_ulong v wid).
Proof.
  intros H. split; simpl; [by rewrite length_insert, length_replicate|auto with word_db].
Qed.

Lemma wsum_zero n f : (forall k, (k < n)%nat -> f k = 0) -> wsum f n = 0.
Proof.
  induction n as [|n IH]; intros H; cbn [wsum]; [done|]. rewrite IH, H by auto with lia. done.
Qed.

Lemma num_of_ulong v wid : (0 < wid)%nat -> num (vector2_of_ulong v wid) = v.
Proof.
  intros Hw. unfold num, vector2_of_ulong. simpl.
  assert (0 < nwords wid)%nat as Hn by (pose proof (nwords_spec wid); lia).
  destruct (nwords wid) as [|n]; [lia|]. rewrite wsum_head, wsum_zero.
  - rewrite wd_insert, decide_True by (by rewrite length_replicate; split; [|lia]). lia.
  - intros k Hk. rewrite wd_insert, decide_False by lia. rewrite wd_replicate. by destruct (_ <? _)%nat.
Qed.

Lemma vector2_copy_spec v : wf2 v -> wf2 (vector2_copy v) /\ wid_ (vector2_copy v) = wid_ v /\ num (vector2_copy v) = num v.
Proof.
  intros Hv. unfold vector2_copy. destruct (Nat.eqb_spec (nwords (wid_ v)) 0) as [E|E].
  - pose proof (nwords_spec (wid_ v)). assert (wid_ v = 0)%nat as Hz by lia.
    split; [split; simpl; [done|constructor]|]. unfold num. rewrite E. by rewrite Hz.
  - split; [apply wf2_map; destruct Hv; auto with word_db|]. split; [done|]. by rewrite num_map.
Qed.

Lemma vector2_resize_spec v n :
  wf2 v -> (0 < n)%nat -> num v < 2 ^ (64 * Z.of_nat (nwords n)) ->
  wf2 (vector2_resize v n) /\ wid_ (vector2_resize v n) = n /\ num (vector2_resize v n) = num v.
Proof.
  intros Hv Hn Hlt. unfold vector2_resize. rewrite (proj2 (Nat.eqb_neq n 0)) by lia.
  split; [apply wf2_map; intros k; destruct Hv; destruct (_ <? _)%nat; auto with word_db|]. split; [done|].
  rewrite num_map. set (f := fun idx => _). pose proof (num_bounds v Hv) as Hb.
  assert (forall k, word_ok (f k)) as Hf by (intros k; unfold f; destruct Hv; destruct (_ <? _)%nat; auto with word_db).
  pose proof (wsum_bounds f (nwords n) ltac:(auto)) as Hb'.
  rewrite <- (Z.mod_small (wsum f _) (2 ^ Z.of_nat (64 * nwords n))) by (rewrite Nat2Z.inj_mul; done).
  rewrite <- (Z.mod_small (num v) (2 ^ Z.of_nat (64 * nwords n))) by (rewrite Nat2Z.inj_mul; lia).
  apply tb_mod_ext. intros i Hi. rewrite tb_wsum by auto. unfold f.
  destruct (Nat.ltb_spec (i / 64) (nwords (wid_ v))).
  - unfold num. rewrite tb_wsum; [done|destruct Hv; auto with word_db|dlia].
  - rewrite tb_0. symmetry. unfold tb. destruct (decide (num v = 0)) as [->|]; [apply Z.bits_0|].
    apply Z.bits_above_log2; [lia|]. apply Z.log2_lt_pow2; [lia|].
    eapply Z.lt_le_trans; [apply Hb|]. apply Z.pow_le_mono_r; [lia|]. dlia.
Qed.

(** *** Shifts *)

Lemma tail_mask_bits wid j :
  (0 < wid)%nat -> (j < 64)%nat ->
  tb (tail_mask wid) j = (64 * (nwords wid - 1) + j <? wid)%nat.
Proof.
  intros Hw Hj. unfold tail_mask. change BITS_PER_WORD with 64%nat. unfold nwords.
  destruct (Nat.eqb_spec (wid mod 64) 0) as [E|E].
  - rewrite E. change (w_shr w_max (64 - 0)) with w_max. rewrite tb_max. split_ifs; done || dlia.
  - rewrite tb_shr, tb_max by dlia. split_ifs; done || dlia.
Qed.

Lemma tail_mask_ok wid : word_ok (tail_mask wid).
Proof. unfold tail_mask. apply word_ok_shr, word_ok_max. Qed.
#[export] Hint Resolve tail_mask_ok : word_db.

Lemma mask_tail_spec wid vec :
  (0 < wid)%nat -> words_ok vec -> (nwords wid <= length vec)%nat ->
  length (mask_tail wid vec) = length vec /\ words_ok (mask_tail wid vec) /\
  forall i, (i < 64 * nwords wid)%nat -> wsbit (mask_tail wid vec) i = (i <? wid)%nat && wsbit vec i.
Proof.
  intros Hw Hok Hl. unfold mask_tail. pose proof (nwords_spec wid) as Hn.
  split; [by rewrite length_insert|]. split; [auto with word_db|]. intros i Hi.
  rewrite wsbit_insert. destruct (decide _) as [[E Hlt]|E].
  - rewrite tb_land, <- E, tail_mask_bits by dlia. rewrite E.
    replace (64 * (nwords wid - 1) + i mod 64)%nat with i by dlia. rewrite andb_comm. f_equal.
    rewrite <- E. done.
  - rewrite (proj2 (Nat.ltb_lt i wid)); [done|]. apply Nat.lt_nge. intros Hge. apply E. split; [dlia|lia].
Qed.

Lemma zero_words_spec n vec i :
  words_ok vec -> (i + n <= length vec)%nat ->
  let r := loop_ i n (fun idx vec => <[idx := 0]> vec) vec in
  length r = length vec /\ words_ok r /\
  forall k, wd r k = if (i <=? k)%nat && (k <? i + n)%nat then 0 else wd vec k.
Proof.
  intros Hok Hl r.
  apply (loop_inv (fun j t => length t = length vec /\ words_ok t /\
    forall k, wd t k = if (i <=? k)%nat && (k <? j)%nat then 0 else wd vec k)).
  - split; [done|]. split; [done|]. intros k. split_ifs; simpl; done || lia.
  - intros j t Hj (Ht & Hto & Hk). split; [by rewrite length_insert|]. split; [auto with word_db|].
    intros k. rewrite wd_insert. destruct (decide _) as [[-> _]|Hne].
    + rewrite (proj2 (tb_range i (S j) j)) by lia. done.
    + rewrite Hk. assert (k <> j) by (intros ->; apply Hne; split; [done|lia]).
      split_ifs; simpl; done || lia.
Qed.

Lemma shl_words_spec words wshift vec :
  words_ok vec -> (wshift < words)%nat -> (words <= length vec)%nat ->
  let r := shl_words words wshift vec in
  length r = length vec /\ words_ok r /\
  forall k, (k < words)%nat -> wd r k = if (k <? wshift)%nat then 0 else wd vec (k - wshift).
Proof.
  intros Hok Hw Hl r. unfold r, shl_words. set (t := loop_ 0 (words - wshift) _ vec).
  assert (length t = length vec /\ words_ok t /\
    forall k, wd t k = if (wshift <=? k)%nat && (k <? words)%nat then wd vec (k - wshift) else wd vec k)
    as (Ht & Hto & Hk).
  { pose proof (loop_inv (fun j t => length t = length vec /\ words_ok t /\
      forall k, wd t k = if (words - j <=? k)%nat && (k <? words)%nat then wd vec (k - wshift) else wd vec k)
      (fun idx vec => <[(words - idx - 1)%nat := wd vec (words - idx - 1 - wshift)]> vec)
      0 (words - wshift) vec) as H. cbv beta in H.
    replace (words - (0 + (words - wshift)))%nat with wshift in H by lia. apply H; clear H.
    - split; [done|]. split; [done|]. intros k. split_ifs; simpl; done || lia.
    - intros j u Hj (Hu & Huo & Hk). split; [by rewrite length_insert|]. split; [auto with word_db|].
      intros k. rewrite wd_insert. destruct (decide _) as [[-> _]|Hne].
      + rewrite Hk. split_ifs; simpl; done || lia.
      + rewrite Hk. assert (k <> words - j - 1)%nat by (intros ->; apply Hne; split; [done|lia]).
        split_ifs; simpl; done || lia. }
  destruct (zero_words_spec wshift t 0 Hto ltac:(lia)) as (H1 & H2 & H3).
  split; [by rewrite H1|]. split; [done|]. intros k Hkw. rewrite H3, Hk.
  split_ifs; simpl; done || lia.
Qed.

Lemma shl_bits_spec words o vec :
  words_ok vec -> (0 < o < 64)%nat -> (words <= length vec)%nat ->
  let r := shl_bits words o vec in
  length r = length vec /\ words_ok r /\
  forall i, (i < 64 * words)%nat -> wsbit r i = (o <=? i)%nat && wsbit vec (i - o).
Proof.
  intros Hok Ho Hl r. unfold r, shl_bits. set (body := fun idx => _).
  set (pad_of := fun k => if (k =? 0)%nat then 0 else w_shr (wd vec (k - 1)) (64 - o)).
  pose proof (loop_inv (fun j '(t, pad) => length t = length vec /\ words_ok t /\ pad = pad_of j /\
    forall k, wd t k = if (k <? j)%nat then Z.lor (w_shl (wd vec k) o) (pad_of k) else wd vec k)
    body 0 words (vec, 0)) as H.
  destruct (loop_ 0 words body (vec, 0)) as [t pad]. destruct H as (Ht & Hto & _ & Hk).
  - split_and!; try done.
  - intros j [u p] Hj (Hu & Huo & -> & Hk). unfold body.
    assert (word_ok (pad_of j)) as Hpo by (unfold pad_of; apply word_if_ok; auto using word_ok_shr with word_db).
    assert (wd u j = wd vec j) as Huj by (rewrite Hk; by rewrite (proj2 (Nat.ltb_ge j j))).
    split; [by rewrite length_insert|]. split; [auto with word_db|]. split.
    + unfold pad_of at 1. rewrite Huj. simpl. rewrite Nat.sub_0_r. done.
    + intros k. rewrite wd_insert. destruct (decide _) as [[-> _]|Hne].
      * by rewrite (proj2 (Nat.ltb_lt j (S j))), Huj by lia.
      * rewrite Hk. assert (k <> j) by (intros ->; apply Hne; split; [done|lia]).
        split_ifs; done || lia.
  - split; [done|]. split; [done|]. intros i Hi. unfold wsbit.
    change BITS_PER_WORD with 64%nat. rewrite Hk, (proj2 (Nat.ltb_lt _ words)) by dlia.
    rewrite tb_lor, tb_shl, (proj2 (Nat.ltb_lt (i mod 64) 64)) by dlia. cbn [andb].
    unfold pad_of. destruct (Nat.leb_spec o (i mod 64)) as [Hge|Hlt].
    + rewrite (proj2 (Nat.leb_le o i)) by dlia. cbn [andb].
      replace ((i - o) / 64)%nat with (i / 64)%nat by dlia.
      replace ((i - o) mod 64)%nat with (i mod 64 - o)%nat by dlia.
      destruct (Nat.eqb_spec (i / 64) 0); [by rewrite tb_0, orb_false_r|].
      rewrite tb_shr, (tb_high _ (i mod 64 + (64 - o))) by (auto with word_db || lia).
      by rewrite orb_false_r.
    + cbn [andb orb]. destruct (Nat.eqb_spec (i / 64) 0) as [E|E].
      * rewrite tb_0. destruct (Nat.leb_spec o i); [dlia|done].
      * rewrite tb_shr, (proj2 (Nat.leb_le o i)) by dlia. cbn [andb].
        replace ((i - o) / 64)%nat with (i / 64 - 1)%nat by dlia.
        by replace ((i - o) mod 64)%nat with (i mod 64 + (64 - o))%nat by dlia.
Qed.

(** The bits of the two passes. *)
Lemma shl_words_bits words wshift vec i :
  words_ok vec -> (wshift < words)%nat -> (words <= length vec)%nat -> (i < 64 * words)%nat ->
  wsbit (if (0 <? wshift)%nat then shl_words words wshift vec else vec) i =
  (64 * wshift <=? i)%nat && wsbit vec (i - 64 * wshift).
Proof.
  intros Hok Hw Hl Hi. destruct (Nat.ltb_spec 0 wshift) as [Hp|Hz].
  - destruct (shl_words_spec words wshift vec Hok Hw Hl) as (_ & _ & H). unfold wsbit.
    change BITS_PER_WORD with 64%nat. rewrite H by dlia.
    destruct (Nat.ltb_spec (i / 64) wshift), (Nat.leb_spec (64 * wshift) i); try dlia; [by rewrite tb_0|].
    cbn [andb]. replace ((i - 64 * wshift) / 64)%nat with (i / 64 - wshift)%nat by dlia.
    by replace ((i - 64 * wshift) mod 64)%nat with (i mod 64)%nat by dlia.
  - replace wshift with 0%nat by lia. simpl. by rewrite Nat.sub_0_r.
Qed.

Lemma vector2_shl_bits v shift :
  wf2 v -> (0 < wid_ v)%nat ->
  wf2 (vector2_shl v shift) /\ wid_ (vector2_shl v shift) = wid_ v /\
  forall i, (i < 64 * nwords (wid_ v))%nat ->
    wsbit (vec_ (vector2_shl v shift)) i =
    ((i <? wid_ v) || (shift mod 64 =? 0))%nat && ((shift <=? i)%nat && wsbit (vec_ v) (i - shift)).
Proof.
  intros [Hl Hok] Hw. unfold vector2_shl. change BITS_PER_WORD with 64%nat.
  rewrite (proj2 (Nat.eqb_neq _ 0)) by lia. set (W := nwords (wid_ v)) in *.
  destruct (Nat.leb_spec W (shift / 64)) as [Hall|Hlt].
  - destruct (zero_words_spec W (vec_ v) 0 Hok Hl) as (H1 & H2 & H3).
    split; [split; [simpl; by rewrite H1|done]|]. split; [done|]. intros i Hi. cbn [vec_].
    unfold wsbit at 1. change BITS_PER_WORD with 64%nat.
    rewrite H3, (proj2 (tb_range 0 (0 + W) _)) by dlia. rewrite tb_0, (proj2 (Nat.leb_gt shift i)) by dlia.
    by rewrite andb_false_r.
  - set (vec1 := if (0 <? shift / 64)%nat then _ else _).
    assert (length vec1 = length (vec_ v) /\ words_ok vec1) as [Hl1 Hok1].
    { unfold vec1. destruct (0 <? _)%nat; [|done].
      by destruct (shl_words_spec W (shift / 64) (vec_ v) Hok Hlt Hl) as (? & ? & _). }
    assert (Hb1 : forall i, (i < 64 * W)%nat ->
      wsbit vec1 i = (64 * (shift / 64) <=? i)%nat && wsbit (vec_ v) (i - 64 * (shift / 64))).
    { intros i Hi. by apply shl_words_bits. }
    destruct (Nat.eqb_spec (shift mod 64) 0) as [E|E]; cbn [negb].
    + split; [split; simpl; [by rewrite Hl1|done]|]. split; [done|]. intros i Hi. cbn [vec_].
      rewrite Hb1, orb_true_r by done. by replace (64 * (shift / 64))%nat with shift by dlia.
    + destruct (shl_bits_spec W (shift mod 64) vec1 Hok1) as (Hl2 & Hok2 & Hb2); [dlia|lia|].
      destruct (mask_tail_spec (wid_ v) (shl_bits W (shift mod 64) vec1) Hw Hok2) as (Hl3 & Hok3 & Hb3);
        [fold W; lia|].
      split; [split; simpl; [fold W; lia|done]|]. split; [done|]. intros i Hi. cbn [vec_].
      rewrite Hb3, Hb2, orb_false_r by done. f_equal.
      destruct (Nat.leb_spec (shift mod 64) i) as [Hge|Hlo].
      * rewrite Hb1 by lia. cbn [andb]. replace (i - shift mod 64 - 64 * (shift / 64))%nat with (i - shift)%nat by dlia.
        f_equal. split_ifs; done || dlia.
      * rewrite (proj2 (Nat.leb_gt shift i)) by dlia. done.
Qed.

Lemma shr_words_spec words wshift vec :
  words_ok vec -> (wshift < words)%nat -> (words <= length vec)%nat ->
  let r := shr_words words wshift vec in
  length r = length vec /\ words_ok r /\
  forall k, (k < words)%nat -> wd r k = if (k <? words - wshift)%nat then wd vec (k + wshift) else 0.
Proof.
  intros Hok Hw Hl r. unfold r, shr_words. set (t := loop_ 0 (words - wshift) _ vec).
  assert (length t = length vec /\ words_ok t /\
    forall k, wd t k = if (k <? 0 + (words - wshift))%nat then wd vec (k + wshift) else wd vec k)
    as (Ht & Hto & Hk).
  { apply (loop_inv (fun j t => length t = length vec /\ words_ok t /\
      forall k, wd t k = if (k <? j)%nat then wd vec (k + wshift) else wd vec k)).
    - split; [done|]. split; [done|]. intros k. done.
    - intros j u Hj (Hu & Huo & Hk). split; [by rewrite length_insert|]. split; [auto with word_db|].
      intros k. rewrite wd_insert. destruct (decide _) as [[-> _]|Hne].
      + rewrite Hk. split_ifs; done || lia.
      + rewrite Hk. assert (k <> j)%nat by (intros ->; apply Hne; split; [done|lia]).
        split_ifs; done || lia. }
  destruct (zero_words_spec wshift t (words - wshift) Hto ltac:(lia)) as (H1 & H2 & H3).
  split; [by rewrite H1|]. split; [done|]. intros k Hkw. rewrite H3, Hk.
  split_ifs; simpl; done || lia.
Qed.

Lemma shr_bits_spec words o vec :
  words_ok vec -> (0 < o < 64)%nat -> (words <= length vec)%nat ->
  let r := shr_bits words o vec in
  length r = length vec /\ words_ok r /\
  forall i, (i < 64 * words)%nat -> wsbit r i = (i + o <? 64 * words)%nat && wsbit vec (i + o).
Proof.
  intros Hok Ho Hl r. unfold r, shr_bits. set (body := fun idx => _).
  set (pad_of := fun k => if (k <? words)%nat then w_shl (wd vec k) (64 - o) else 0).
  pose proof (loop_down_inv (fun j '(t, pad) => length t = length vec /\ words_ok t /\ pad = pad_of j /\
    forall k, wd t k = if (j <=? k)%nat && (k <? words)%nat
                       then Z.lor (pad_of (S k)) (w_shr (wd vec k) o) else wd vec k)
    body words (vec, 0)) as H.
  destruct (loop_down words body (vec, 0)) as [t pad]. destruct H as (Ht & Hto & _ & Hk).
  - split_and!; try done.
    + unfold pad_of. by rewrite (proj2 (Nat.ltb_ge words words)).
    + intros k. split_ifs; simpl; done || lia.
  - intros j [u p] Hj (Hu & Huo & -> & Hk). unfold body. replace (S j - 1)%nat with j by lia.
    assert (word_ok (pad_of (S j))) as Hpo by (unfold pad_of; auto with word_db).
    assert (wd u j = wd vec j) as Huj by (rewrite Hk; by rewrite (proj2 (Nat.leb_gt (S j) j)) by lia).
    split; [by rewrite length_insert|]. split; [auto using word_ok_shr with word_db|]. split.
    + unfold pad_of at 1. rewrite Huj. by rewrite (proj2 (Nat.ltb_lt j words)).
    + intros k. rewrite wd_insert. destruct (decide _) as [[-> _]|Hne].
      * by rewrite (proj2 (tb_range j words j)), Huj by lia.
      * rewrite Hk. assert (k <> j)%nat by (intros ->; apply Hne; split; [done|lia]).
        split_ifs; simpl; done || lia.
  - split; [done|]. split; [done|]. intros i Hi. unfold wsbit.
    change BITS_PER_WORD with 64%nat. rewrite Hk, (proj2 (tb_range 0 words _)) by dlia.
    rewrite tb_lor, tb_shr by lia. unfold pad_of.
    destruct (Nat.lt_ge_cases (i mod 64 + o) 64) as [Hlt|Hge].
    + replace ((i + o) / 64)%nat with (i / 64)%nat by dlia.
      replace ((i + o) mod 64)%nat with (i mod 64 + o)%nat by dlia.
      rewrite (proj2 (Nat.ltb_lt (i + o) _)) by dlia. cbn [andb].
      destruct (Nat.ltb_spec (S (i / 64)) words); [|by rewrite tb_0].
      rewrite tb_shl, (proj2 (Nat.leb_gt (64 - o) _)) by lia. by rewrite andb_false_r.
    + rewrite (tb_high _ (i mod 64 + o)) by (auto with word_db). rewrite orb_false_r.
      replace ((i + o) / 64)%nat with (S (i / 64)) by dlia.
      replace ((i + o) mod 64)%nat with (i mod 64 + o - 64)%nat by dlia.
      destruct (Nat.ltb_spec (S (i / 64)) words).
      * rewrite tb_shl, (proj2 (Nat.ltb_lt (i mod 64) 64)), (proj2 (Nat.leb_le (64 - o) _)) by dlia.
        rewrite (proj2 (Nat.ltb_lt (i + o) _)) by dlia. cbn [andb]. f_equal. lia.
      * rewrite tb_0. rewrite (proj2 (Nat.ltb_ge (i + o) _)) by dlia. done.
Qed.

Lemma shr_words_bits words wshift vec i :
  words_ok vec -> (wshift < words)%nat -> (words <= length vec)%nat -> (i < 64 * words)%nat ->
  wsbit (if (0 <? wshift)%nat then shr_words words wshift vec else vec) i =
  (i + 64 * wshift <? 64 * words)%nat && wsbit vec (i + 64 * wshift).
Proof.
  intros Hok Hw Hl Hi. destruct (Nat.ltb_spec 0 wshift) as [Hp|Hz].
  - destruct (shr_words_spec words wshift vec Hok Hw Hl) as (_ & _ & H). unfold wsbit.
    change BITS_PER_WORD with 64%nat. rewrite H by dlia.
    destruct (Nat.ltb_spec (i / 64) (words - wshift)) as [H1|H1].
    + rewrite (proj2 (Nat.ltb_lt (i + _) _)) by dlia. cbn [andb].
      replace ((i + 64 * wshift) / 64)%nat with (i / 64 + wshift)%nat by dlia.
      by replace ((i + 64 * wshift) mod 64)%nat with (i mod 64)%nat by dlia.
    + rewrite (proj2 (Nat.ltb_ge (i + _) _)) by dlia. by rewrite tb_0.
  - replace wshift with 0%nat by lia. rewrite Nat.mul_0_r, Nat.add_0_r.
    by rewrite (proj2 (Nat.ltb_lt i _)).
Qed.

Lemma keep_low_spec vec k ms words :
  words_ok vec -> (ms < 64)%nat -> (k < words <= length vec)%nat ->
  (forall i, (64 * S k <= i < 64 * words)%nat -> wsbit vec i = false) ->
  let r := <[k := Z.land (wd vec k) (w_shr w_max ms)]> vec in
  length r = length vec /\ words_ok r /\
  forall i, (i < 64 * words)%nat -> wsbit r i = (i <? 64 * S k - ms)%nat && wsbit vec i.
Proof.
  intros Hok Hms Hk Hz r. split; [by apply length_insert|].
  split; [unfold r; auto using word_ok_shr with word_db|].
  intros i Hi. unfold r. rewrite wsbit_insert. destruct (decide _) as [[E _]|E].
  - rewrite tb_land, tb_shr, tb_max, andb_comm, <- E by lia. change BITS_PER_WORD with 64%nat. f_equal.
    split_ifs; done || dlia.
  - destruct (Nat.ltb_spec i (64 * S k - ms)); [done|]. apply Hz. split; [|done].
    apply Nat.nlt_ge. intros Hlt. apply E. split; [dlia|lia].
Qed.

Lemma shr_cleanup_spec wid o vec :
  words_ok vec -> (0 < wid)%nat -> (o < 64)%nat -> (o <= wid)%nat -> (nwords wid <= length vec)%nat ->
  returns (shr_cleanup wid (nwords wid) o vec) (fun r => length r = length vec /\ words_ok r /\
    forall i, (i < 64 * nwords wid)%nat -> wsbit r i = (i <? wid - o)%nat && wsbit vec i).
Proof.
  intros Hok Hw Ho How Hl. unfold shr_cleanup. change BITS_PER_WORD with 64%nat.
  set (ms := ((64 - wid mod 64) mod 64 + o)%nat). set (W := nwords wid) in *.
  assert (wid - o + ms = 64 * W /\ ms < 128)%nat as [Hms Hlt].
  { unfold ms, W, nwords. change BITS_PER_WORD with 64%nat. dlia. }
  clearbody ms W. cbn [while_]. destruct (Nat.leb_spec 64 ms) as [Hge|Hsm]; cbn [mbind option_bind].
  - rewrite (proj2 (Nat.leb_gt 64 (ms - 64))) by lia. cbn [mbind option_bind].
    set (v1 := <[(W - 1)%nat := 0]> vec).
    assert (length v1 = length vec) as L1 by apply length_insert.
    assert (words_ok v1) as O1 by (unfold v1; auto with word_db).
    assert (B1 : forall i, (i < 64 * W)%nat -> wsbit v1 i = (i <? 64 * (W - 1))%nat && wsbit vec i).
    { intros i Hi. unfold v1. rewrite wsbit_insert. destruct (decide _) as [[E _]|E].
      - rewrite tb_0. by rewrite (proj2 (Nat.ltb_ge i _)) by dlia.
      - rewrite (proj2 (Nat.ltb_lt i _)); [done|]. apply Nat.nle_gt. intros Hx. apply E. split; [dlia|lia]. }
    destruct (Nat.ltb_spec 0 (ms - 64)) as [Hp|Hz].
    + apply returns_assert; [apply Nat.ltb_lt; lia|]. apply returns_ret.
      destruct (keep_low_spec v1 (W - 1 - 1) (ms - 64) W O1) as (L2 & O2 & B2); [lia|lia| |].
      { intros i Hi. rewrite B1 by lia. by rewrite (proj2 (Nat.ltb_ge i _)) by lia. }
      split; [congruence|]. split; [done|]. intros i Hi. rewrite B2, B1 by done.
      rewrite andb_assoc. f_equal. split_ifs; simpl; done || lia.
    + apply returns_ret. split; [done|]. split; [done|]. intros i Hi. rewrite B1 by done.
      f_equal. split_ifs; done || lia.
  - destruct (Nat.ltb_spec 0 ms) as [Hp|Hz].
    + apply returns_assert; [apply Nat.ltb_lt; lia|]. apply returns_ret.
      destruct (keep_low_spec vec (W - 1) ms W Hok) as (L2 & O2 & B2); [lia|lia|intros; lia|].
      split; [done|]. split; [done|]. intros i Hi. rewrite B2 by done. f_equal. split_ifs; done || lia.
    + apply returns_ret. split; [done|]. split; [done|]. intros i Hi.
      by rewrite (proj2 (Nat.ltb_lt i _)) by lia.
Qed.

Lemma vector2_shr_bits v shift :
  wf2 v -> clean v -> (0 < wid_ v)%nat -> (shift mod 64 <= wid_ v)%nat ->
  returns (vector2_shr v shift) (fun r => wf2 r /\ wid_ r = wid_ v /\
    forall i, (i < 64 * nwords (wid_ v))%nat ->
      wsbit (vec_ r) i = (i + shift <? wid_ v)%nat && wsbit (vec_ v) (i + shift)).
Proof.
  intros Hv Hc Hw Hsh. pose proof Hv as [Hl Hok]. unfold vector2_shr. change BITS_PER_WORD with 64%nat.
  rewrite (proj2 (Nat.eqb_neq _ 0)) by lia. pose proof (nwords_spec (wid_ v)) as Hn.
  set (W := nwords (wid_ v)) in *.
  destruct (Nat.leb_spec W (shift / 64)) as [Hall|Hlt].
  - apply returns_ret. destruct (zero_words_spec W (vec_ v) 0 Hok Hl) as (H1 & H2 & H3).
    split; [split; [simpl; by rewrite H1|done]|]. split; [done|]. intros i Hi. cbn [vec_].
    unfold wsbit at 1. change BITS_PER_WORD with 64%nat.
    rewrite H3, (proj2 (tb_range 0 (0 + W) _)) by dlia. rewrite tb_0, (proj2 (Nat.ltb_ge (i + shift) _)) by dlia.
    done.
  - set (vec1 := if (0 <? shift / 64)%nat then _ else _).
    assert (length vec1 = length (vec_ v) /\ words_ok vec1) as [Hl1 Hok1].
    { unfold vec1. destruct (0 <? _)%nat; [|done].
      by destruct (shr_words_spec W (shift / 64) (vec_ v) Hok Hlt Hl) as (? & ? & _). }
    assert (Hb1 : forall i, (i < 64 * W)%nat ->
      wsbit vec1 i = (i + 64 * (shift / 64) <? wid_ v)%nat && wsbit (vec_ v) (i + 64 * (shift / 64))).
    { intros i Hi. unfold vec1. rewrite shr_words_bits by done.
      destruct (Nat.ltb_spec (i + 64 * (shift / 64)) (64 * W)) as [Hin|Hout].
      - destruct (Nat.ltb_spec (i + 64 * (shift / 64)) (wid_ v)); [done|]. simpl. by apply clean_bit.
      - by rewrite (proj2 (Nat.ltb_ge (i + _) (wid_ v))) by lia. }
    destruct (Nat.ltb_spec 0 (shift mod 64)) as [Hp|Hz].
    + destruct (shr_bits_spec W (shift mod 64) vec1 Hok1) as (Hl2 & Hok2 & Hb2); [dlia|lia|].
      eapply returns_bind; [apply shr_cleanup_spec; [done|done|dlia|done|fold W; lia]|].
      fold W. intros r (Hl3 & Hok3 & Hb3). apply returns_ret.
      split; [split; simpl; [fold W; lia|done]|]. split; [done|]. intros i Hi. cbn [vec_].
      rewrite Hb3, Hb2 by done.
      destruct (Nat.ltb_spec i (wid_ v - shift mod 64)) as [Hin|Hout].
      * rewrite (proj2 (Nat.ltb_lt (i + _) (64 * W))), Hb1 by lia. cbn [andb].
        by replace (i + shift mod 64 + 64 * (shift / 64))%nat with (i + shift)%nat by dlia.
      * by rewrite (proj2 (Nat.ltb_ge (i + shift) _)) by dlia.
    + apply returns_ret. split; [split; simpl; [by rewrite Hl1|done]|]. split; [done|]. intros i Hi. cbn [vec_].
      rewrite Hb1 by done. by replace (64 * (shift / 64))%nat with shift by dlia.
Qed.

(** The shifts on numbers. *)
Lemma tb_mul_pow2 z s i : tb (z * 2 ^ Z.of_nat s) i = (s <=? i)%nat && tb z (i - s).
Proof.
  rewrite <- Z.shiftl_mul_pow2 by lia. unfold tb. rewrite Z.shiftl_spec by lia.
  destruct (Nat.leb_spec s i); simpl; [f_equal; lia|apply Z.testbit_neg_r; lia].
Qed.

Lemma tb_div_pow2 z s i : tb (z / 2 ^ Z.of_nat s) i = tb z (i + s).
Proof. rewrite <- Z.shiftr_div_pow2 by lia. unfold tb. rewrite Z.shiftr_spec by lia. f_equal. lia. Qed.

Lemma num_tb v i : wf2 v -> (i < 64 * nwords (wid_ v))%nat -> tb (num v) i = wsbit (vec_ v) i.
Proof. intros [_ Hok] Hi. by apply wsum_tb. Qed.

Lemma vector2_shl_num v shift :
  wf2 v -> (0 < wid_ v)%nat -> (shift mod 64 <> 0)%nat ->
  wf2 (vector2_shl v shift) /\ wid_ (vector2_shl v shift) = wid_ v /\
  num (vector2_shl v shift) = num v * 2 ^ Z.of_nat shift mod 2 ^ Z.of_nat (wid_ v).
Proof.
  intros Hv Hw Hs. destruct (vector2_shl_bits v shift Hv Hw) as (Hwf & Hwid & Hb).
  split; [done|]. split; [done|]. rewrite <- Hwid. apply num_of_bits; [done|].
  rewrite Hwid. intros i Hi. rewrite Hb, (proj2 (Nat.eqb_neq _ _) Hs), orb_false_r by done.
  f_equal. rewrite tb_mul_pow2. apply andb_guard. intros Hle. by rewrite num_tb by (done || lia).
Qed.

Lemma vector2_shr_num v shift :
  wf2 v -> clean v -> (0 < wid_ v)%nat -> (shift mod 64 <= wid_ v)%nat ->
  returns (vector2_shr v shift) (fun r => wf2 r /\ wid_ r = wid_ v /\ clean r /\
    num r = num v / 2 ^ Z.of_nat shift).
Proof.
  intros Hv Hc Hw Hs. eapply returns_mono; [by apply vector2_shr_bits|].
  intros r (Hwf & Hwid & Hb).
  assert (num r = num v / 2 ^ Z.of_nat shift) as E.
  { pose proof (num_bounds v Hv) as Hnb. unfold clean in Hc.
    assert (0 <= num v / 2 ^ Z.of_nat shift < 2 ^ Z.of_nat (wid_ v)) as Hd.
    { split; [apply Z.div_pos; lia|]. apply Z.div_lt_upper_bound; [lia|]. nia. }
    rewrite <- (Z.mod_small (num v / _) (2 ^ Z.of_nat (wid_ v))) by done. rewrite <- Hwid.
    apply num_of_bits; [done|]. rewrite Hwid. intros i Hi. rewrite Hb, tb_div_pow2 by done.
    destruct (Nat.ltb_spec (i + shift) (wid_ v)) as [Hlt|Hge]; cbn [andb].
    - pose proof (nwords_spec (wid_ v)). rewrite num_tb, (proj2 (Nat.ltb_lt i _)) by (done || lia). done.
    - symmetry. apply andb_false_intro2. unfold tb.
      destruct (decide (num v = 0)) as [->|]; [apply Z.bits_0|].
      apply Z.bits_above_log2; [lia|]. apply Z.log2_lt_pow2; [lia|].
      eapply Z.lt_le_trans; [exact Hc|]. apply Z.pow_le_mono_r; lia. }
  split; [done|]. split; [done|]. split; [|done]. unfold clean in *. rewrite E, Hwid.
  pose proof (num_bounds v Hv). apply Z.div_lt_upper_bound; [lia|]. nia.
Qed.

(** *** Addition and subtraction *)

Lemma carry_loop_spec inv words c vec that :
  (forall x, word_ok x -> word_ok (inv x)) -> words_ok vec -> words_ok that -> 0 <= c <= 1 ->
  (words <= length vec)%nat ->
  let r := carry_loop inv words c vec that in
  length r = length vec /\ words_ok r /\
  wsum (wd r) words = (wsum (wd vec) words + wsum (fun k => inv (wd that k)) words + c) mod 2 ^ (64 * Z.of_nat words).
Proof.
  intros Hinv Hok Hokt Hc Hl r. unfold r, carry_loop. set (body := fun idx => _).
  pose proof (loop_inv (fun j '(t, cr) => length t = length vec /\ words_ok t /\ 0 <= cr <= 1 /\
    (forall k, (j <= k)%nat -> wd t k = wd vec k) /\
    wsum (wd t) j + cr * 2 ^ (64 * Z.of_nat j) = wsum (wd vec) j + wsum (fun k => inv (wd that k)) j + c)
    body 0 words (vec, c)) as H.
  destruct (loop_ 0 words body (vec, c)) as [t cr]. destruct H as (Ht & Hto & Hcr & _ & Hsum).
  - split_and!; try done; try lia. simpl. lia.
  - intros j [u p] Hj (Hu & Huo & Hp & Hsame & Hs). unfold body.
    destruct (add_carry_adder (wd u j) (inv (wd that j)) p) as (Ho & Hcc & Heq); [auto with word_db..|lia|].
    destruct (add_carry _ _ p) as [out p']. cbn [fst snd] in *.
    split; [by rewrite length_insert|]. split; [auto with word_db|]. split; [lia|]. split.
    + intros k Hk. rewrite wd_insert, decide_False by lia. apply Hsame. lia.
    + cbn [wsum]. rewrite wd_insert, decide_True by (split; [done|lia]).
      rewrite (wsum_ext (wd (<[j := out]> u)) (wd u)) by (intros k Hk; by rewrite wd_insert, decide_False by lia).
      rewrite Hsame in Heq by lia. rewrite pow64_split.
      replace out with (wd vec j + inv (wd that j) + p - 2 ^ 64 * p') by lia.
      revert Hs. generalize (2 ^ (64 * Z.of_nat j)). clear. intros P Hs. lia.
  - split; [done|]. split; [done|]. rewrite Nat.add_0_l in Hsum. rewrite <- Hsum.
    rewrite Z.mod_add by lia. symmetry. apply Z.mod_small. apply wsum_bounds. auto with word_db.
Qed.

Lemma pow_words_split n : exists k, 2 ^ (64 * Z.of_nat (nwords n)) = k * 2 ^ Z.of_nat n.
Proof.
  pose proof (nwords_spec n). exists (2 ^ Z.of_nat (64 * nwords n - n)). rewrite <- Z.pow_add_r by lia.
  f_equal. lia.
Qed.

Lemma mod_mod_words z n :
  (z mod 2 ^ (64 * Z.of_nat (nwords n))) mod 2 ^ Z.of_nat n = z mod 2 ^ Z.of_nat n.
Proof.
  apply Z.mod_mod_divide. destruct (pow_words_split n) as [k ->]. by exists k.
Qed.

Lemma mask_tail_num wid vec z :
  (0 < wid)%nat -> words_ok vec -> (nwords wid <= length vec)%nat ->
  wsum (wd vec) (nwords wid) = z mod 2 ^ (64 * Z.of_nat (nwords wid)) ->
  let r := mk_vector2 (mask_tail wid vec) wid in
  wf2 r /\ clean r /\ num r = z mod 2 ^ Z.of_nat wid.
Proof.
  intros Hw Hok Hl Hz r. destruct (mask_tail_spec wid vec Hw Hok Hl) as (H1 & H2 & H3).
  assert (wf2 r) as Hr by (split; simpl; [by rewrite H1|done]).
  assert (num r = z mod 2 ^ Z.of_nat wid) as E.
  { rewrite <- mod_mod_words, <- Hz. change wid with (wid_ r) at 2. apply num_of_bits; [done|].
    intros i Hi. simpl in Hi |- *. rewrite H3, wsum_tb by done. done. }
  split; [done|]. split; [|done]. unfold clean. rewrite E. simpl. apply Z.mod_pos_bound. lia.
Qed.

Lemma vector2_add_spec v that :
  wf2 v -> wf2 that -> wid_ v = wid_ that -> (0 < wid_ v)%nat ->
  returns (vector2_add v that) (fun r => wf2 r /\ wid_ r = wid_ v /\ clean r /\
    num r = (num v + num that) mod 2 ^ Z.of_nat (wid_ v)).
Proof.
  intros [Hl Hok] [Hlt Hokt] Hw Hp. unfold vector2_add. apply returns_assert; [by apply Nat.eqb_eq|].
  rewrite (proj2 (Nat.eqb_neq _ 0)) by lia. apply returns_ret.
  destruct (carry_loop_spec (fun w => w) (nwords (wid_ v)) 0 (vec_ v) (vec_ that)) as (H1 & H2 & H3);
    [done|done|done|lia|done|].
  destruct (mask_tail_num (wid_ v) _ (num v + num that) Hp H2) as (R1 & R2 & R3).
  - by rewrite H1.
  - rewrite H3, Z.add_0_r. unfold num. by rewrite Hw.
  - done.
Qed.

Lemma vector2_sub_spec v that :
  wf2 v -> wf2 that -> wid_ v = wid_ that -> (0 < wid_ v)%nat ->
  returns (vector2_sub v that) (fun r => wf2 r /\ wid_ r = wid_ v /\
    num r = (num v - num that) mod 2 ^ (64 * Z.of_nat (nwords (wid_ v)))).
Proof.
  intros [Hl Hok] [Hlt Hokt] Hw Hp. unfold vector2_sub. apply returns_assert; [by apply Nat.eqb_eq|].
  rewrite (proj2 (Nat.eqb_neq _ 0)) by lia. apply returns_ret.
  destruct (carry_loop_spec w_not (nwords (wid_ v)) 1 (vec_ v) (vec_ that)) as (H1 & H2 & H3);
    [intros; auto with word_db|done|done|lia|done|].
  split; [split; simpl; [by rewrite H1|done]|]. split; [done|].
  unfold num at 1. cbn [vec_ wid_]. rewrite H3, wsum_not by auto with word_db.
  unfold num. rewrite <- Hw. set (P := 2 ^ (64 * _)).
  replace (wsum (wd (vec_ v)) (nwords (wid_ v)) + (P - 1 - wsum (wd (vec_ that)) (nwords (wid_ v))) + 1)
    with (wsum (wd (vec_ v)) (nwords (wid_ v)) - wsum (wd (vec_ that)) (nwords (wid_ v)) + 1 * P) by lia.
  apply Z.mod_add. unfold P. lia.
Qed.

(** *** Comparison *)

Lemma compare_words_spec n a b lt gt eq :
  wf2 a -> wf2 b ->
  compare_words n a b lt gt eq =
  match wsum (fun k => if (k <? nwords (wid_ a))%nat then wd (vec_ a) k else 0) n ?=
        wsum (fun k => if (k <? nwords (wid_ b))%nat then wd (vec_ b) k else 0) n with
  | Lt => lt | Gt => gt | Eq => eq end.
Proof.
  intros [_ Ha] [_ Hb]. set (f := fun k => if (k <? nwords (wid_ a))%nat then _ else _).
  set (g := fun k => if (k <? nwords (wid_ b))%nat then _ else _).
  assert (forall k, word_ok (f k)) as Hf by (intros; unfold f; auto with word_db).
  assert (forall k, word_ok (g k)) as Hg by (intros; unfold g; auto with word_db).
  induction n as [|n IH]; cbn [compare_words wsum]; [done|].
  change (if (S n <=? nwords (wid_ a))%nat then wd (vec_ a) n else 0) with (f n).
  change (if (S n <=? nwords (wid_ b))%nat then wd (vec_ b) n else 0) with (g n).
  pose proof (wsum_bounds f n ltac:(auto)). pose proof (wsum_bounds g n ltac:(auto)).
  rewrite IH. destruct (Z.ltb_spec (g n) (f n)).
  - rewrite (proj2 (Z.compare_gt_iff _ _)); [done|]. nia.
  - destruct (Z.ltb_spec (f n) (g n)).
    + rewrite (proj2 (Z.compare_lt_iff _ _)); [done|]. nia.
    + replace (g n) with (f n) by lia. rewrite !(Z.add_comm (wsum _ n)), Zcompare_plus_compat. done.
Qed.

Lemma ext_num a n :
  (nwords (wid_ a) <= n)%nat ->
  wsum (fun k => if (k <? nwords (wid_ a))%nat then wd (vec_ a) k else 0) n = num a.
Proof.
  intros Hn. replace n with (nwords (wid_ a) + (n - nwords (wid_ a)))%nat by lia.
  rewrite wsum_app, (wsum_zero (n - _)), Z.mul_0_r, Z.add_0_r.
  - apply wsum_ext. intros k Hk. by rewrite (proj2 (Nat.ltb_lt k _)).
  - intros k Hk. by rewrite (proj2 (Nat.ltb_ge _ _)) by lia.
Qed.

Lemma compare_num a b lt gt eq :
  wf2 a -> wf2 b ->
  compare_words (max_words a b) a b lt gt eq =
  match num a ?= num b with Lt => lt | Gt => gt | Eq => eq end.
Proof.
  intros Ha Hb. rewrite compare_words_spec by done. unfold max_words.
  rewrite !ext_num; [done|..]; destruct (Nat.ltb_spec (nwords (wid_ b)) (nwords (wid_ a))); lia.
Qed.

Lemma vector2_compare_spec a b :
  wf2 a -> wf2 b ->
  vector2_lt a b = (num a <? num b) /\ vector2_gt a b = (num b <? num a) /\
  vector2_ge a b = (num b <=? num a) /\ vector2_eq a b = (num a =? num b) /\
  (wid_ a = wid_ b -> vector2_le a b = Some (num a <=? num b)).
Proof.
  intros Ha Hb. unfold vector2_lt, vector2_gt, vector2_ge, vector2_eq, vector2_le.
  rewrite !compare_num by done. split_and!.
  5: intros Hw; rewrite Hw, Nat.eqb_refl; cbn [assert_ mbind option_bind]; f_equal;
     rewrite <- Hw, compare_words_spec, !ext_num by (done || (rewrite Hw; done)).
  all: destruct (Z.compare_spec (num a) (num b)); symmetry;
    first [apply Z.ltb_lt; lia|apply Z.ltb_ge; lia|apply Z.leb_le; lia|apply Z.leb_gt; lia
          |apply Z.eqb_eq; lia|apply Z.eqb_neq; lia].
Qed.

(** *** Multiplication *)

(** Adding a multiple of a word at a position: the inner loops of [operator *]. *)
Lemma mul_word_spec words a bdx tmpb adx r :
  words_ok a -> word_ok tmpb -> words_ok r -> length r = words -> (adx < words)%nat -> (bdx < words)%nat ->
  let r' := mul_word words a bdx tmpb adx r in
  length r' = words /\ words_ok r' /\
  exists q, wsum (wd r') words = wsum (wd r) words +
    wd a adx * tmpb * 2 ^ (64 * Z.of_nat (adx + bdx)) + q * 2 ^ (64 * Z.of_nat words).
Proof.
  intros Ha Hb Hr Hl Hadx Hbdx. unfold mul_word. destruct (Z.eqb_spec (wd a adx) 0) as [E|E].
  { split; [done|]. split; [done|]. exists 0. rewrite E. lia. }
  destruct (multiply_long_multiplier (wd a adx) tmpb) as (Hlo & Hhi & Hmul); [auto with word_db|done|].
  destruct (multiply_long (wd a adx) tmpb) as [low hig]. cbn [fst snd] in *.
  destruct (Nat.le_gt_cases (adx + bdx) words) as [Hle|Hgt].
  - destruct (ripple_spec add_carry add_carry_adder (words - (adx + bdx)) (adx + bdx) low hig 0 r)
      as (H1 & H2 & q & H3); [done..|lia|lia|].
    replace (adx + bdx + (words - (adx + bdx)))%nat with words in H3 by lia.
    split; [congruence|]. split; [done|]. exists q. rewrite H3.
    replace (low + 0 + 2 ^ 64 * hig) with (wd a adx * tmpb) by lia. done.
  - replace (words - (adx + bdx))%nat with 0%nat by lia. cbn [ripple].
    split; [done|]. split; [done|]. exists (- (wd a adx * tmpb * 2 ^ (64 * Z.of_nat (adx + bdx - words)))).
    replace (64 * Z.of_nat (adx + bdx)) with (64 * Z.of_nat (adx + bdx - words) + 64 * Z.of_nat words) by lia.
    rewrite Z.pow_add_r by lia. ring.
Qed.

Lemma mul_inner_spec words a bdx tmpb r :
  words_ok a -> word_ok tmpb -> words_ok r -> length r = words -> (bdx < words)%nat ->
  let r' := loop_ 0 words (mul_word words a bdx tmpb) r in
  length r' = words /\ words_ok r' /\
  exists q, wsum (wd r') words = wsum (wd r) words +
    wsum (wd a) words * tmpb * 2 ^ (64 * Z.of_nat bdx) + q * 2 ^ (64 * Z.of_nat words).
Proof.
  intros Ha Hb Hr Hl Hbdx r'.
  apply (loop_inv (fun j t => length t = words /\ words_ok t /\
    exists q, wsum (wd t) words = wsum (wd r) words +
      wsum (wd a) j * tmpb * 2 ^ (64 * Z.of_nat bdx) + q * 2 ^ (64 * Z.of_nat words))).
  - split; [done|]. split; [done|]. exists 0. cbn [wsum]. lia.
  - intros j t Hj (Ht & Hto & q & Hq).
    destruct (mul_word_spec words a bdx tmpb j t) as (H1 & H2 & q' & H3); [done..|lia|done|].
    split; [done|]. split; [done|]. exists (q + q'). rewrite H3, Hq. cbn [wsum].
    rewrite Nat2Z.inj_add, Z.mul_add_distr_l, Z.pow_add_r by lia. ring.
Qed.

Lemma vector2_mul_spec a b :
  wf2 a -> wf2 b -> wid_ a = wid_ b ->
  returns (vector2_mul a b) (fun r => wf2 r /\ wid_ r = wid_ a /\
    num r = num a * num b mod 2 ^ (64 * Z.of_nat (nwords (wid_ a)))).
Proof.
  intros [Hla Ha] [Hlb Hb] Hw. unfold vector2_mul. apply returns_assert; [by apply Nat.eqb_eq|].
  apply returns_ret. cbn [wid_ vector2_of_ulong]. set (W := nwords (wid_ a)) in *.
  set (r0 := vec_ (vector2_of_ulong 0 (wid_ a))). set (body := fun bdx => _).
  assert (length r0 = W /\ words_ok r0 /\ wsum (wd r0) W = 0) as (L0 & O0 & S0).
  { unfold r0. cbn [vec_ vector2_of_ulong]. fold W.
    split; [by rewrite length_insert, length_replicate|]. split; [auto with word_db|].
    apply wsum_zero. intros k Hk. rewrite wd_insert. destruct (decide _); [done|].
    rewrite wd_replicate. by destruct (_ <? _)%nat. }
  pose proof (loop_inv (fun j t => length t = W /\ words_ok t /\
    exists q, wsum (wd t) W = wsum (wd (vec_ a)) W * wsum (wd (vec_ b)) j + q * 2 ^ (64 * Z.of_nat W))
    body 0 W r0) as H. destruct H as (H1 & H2 & q & H3).
  - split; [done|]. split; [done|]. exists 0. rewrite S0. cbn [wsum]. lia.
  - intros j t Hj (Ht & Hto & q & Hq). unfold body.
    destruct (Z.eqb_spec (wd (vec_ b) j) 0) as [E|E].
    + split; [done|]. split; [done|]. exists q. cbn [wsum]. rewrite E, Hq. lia.
    + destruct (mul_inner_spec W (vec_ a) j (wd (vec_ b) j) t) as (R1 & R2 & q' & R3);
        [done|auto with word_db|done|done|lia|].
      split; [done|]. split; [done|]. exists (q + q'). cbn [wsum]. rewrite R3, Hq. ring.
  - split; [split; simpl; [by rewrite H1|done]|]. split; [done|].
    unfold num at 1. cbn [vec_ wid_]. fold W.
    rewrite <- (Z.mod_small (wsum _ W) (2 ^ (64 * Z.of_nat W))) by (apply wsum_bounds; auto with word_db).
    rewrite H3, Nat.add_0_l, Z.mod_add by lia. unfold num. by rewrite <- Hw.
Qed.

(** *** Power *)

Lemma vector2_set_bit_spec v idx bit :
  wf2 v -> (idx < wid_ v)%nat ->
  returns (vector2_set_bit v idx bit) (fun r => wf2 r /\ wid_ r = wid_ v /\
    forall i, wsbit (vec_ r) i = if (i =? idx)%nat then bit else wsbit (vec_ v) i).
Proof.
  intros [Hl Hok] Hi. unfold vector2_set_bit. apply returns_assert; [by apply Nat.ltb_lt|].
  apply returns_ret. change BITS_PER_WORD with 64%nat. pose proof (nwords_spec (wid_ v)).
  set (w := if bit then _ else _). assert (word_ok w) as Hw by (unfold w; auto with word_db).
  split; [split; simpl; [by rewrite length_insert|auto with word_db]|]. split; [done|].
  intros i. cbn [vec_]. rewrite wsbit_insert. change BITS_PER_WORD with 64%nat. destruct (decide _) as [[E Hlt]|E].
  - unfold w. assert (i mod 64 < 64)%nat by dlia. assert (idx mod 64 < 64)%nat by dlia.
    assert (tb (w_shl 1 (idx mod 64)) (i mod 64) = (i =? idx)%nat) as Hbit.
    { rewrite tb_shl, tb_1 by done. split_ifs; simpl; done || dlia. }
    unfold wsbit. change BITS_PER_WORD with 64%nat. rewrite <- E. destruct bit.
    + rewrite tb_lor, Hbit. destruct (i =? idx)%nat; [apply orb_true_r|apply orb_false_r].
    + rewrite tb_land, tb_not, Hbit, (proj2 (Nat.ltb_lt _ 64)) by done.
      destruct (i =? idx)%nat; simpl; [apply andb_false_r|apply andb_true_r].
  - destruct (Nat.eqb_spec i idx) as [->|]; [|done]. exfalso. apply E. split; [done|dlia].
Qed.

(** The exponent loses its low bit. *)
Lemma clear_bit0 v :
  wf2 v -> clean v -> (0 < wid_ v)%nat -> vector2_value v 0 = true ->
  returns (vector2_set_bit v 0 false) (fun r => wf2 r /\ wid_ r = wid_ v /\ clean r /\ num r = num v - 1) /\
  Z.odd (num v) = true.
Proof.
  intros Hv Hc Hp Hb. rewrite vector2_value_bit in Hb by done. apply andb_true_iff in Hb as [_ Hb].
  pose proof (nwords_spec (wid_ v)) as Hn.
  assert (tb (num v) 0 = true) as H0 by (rewrite num_tb by (done || lia); done).
  assert (Z.odd (num v) = true) as Hodd by (by rewrite <- Z.bit0_odd).
  split; [|done]. eapply returns_mono; [by apply vector2_set_bit_spec|].
  intros r (Hr & Hw & Hbits). assert (num r = num v - 1) as E.
  { unfold num at 1. rewrite (wsum_of_bits _ _ (num v - 1)); [|apply Hr|].
    - apply Z.mod_small. pose proof (num_bounds v Hv). rewrite Hw.
      destruct (decide (num v = 0)) as [Hz|]; [|lia]. by rewrite Hz in Hodd.
    - rewrite Hw. intros i Hi. rewrite Hbits.
      pose proof (Z.div2_odd (num v)) as Hd. rewrite Hodd in Hd. cbn [Z.b2z] in Hd.
      destruct (Nat.eqb_spec i 0) as [->|Hne].
      + rewrite Hd. replace (2 * Z.div2 (num v) + 1 - 1) with (2 * Z.div2 (num v)) by lia.
        symmetry. unfold tb. apply Z.testbit_even_0.
      + rewrite <- num_tb by done. rewrite Hd.
        replace (2 * Z.div2 (num v) + 1 - 1) with (2 * Z.div2 (num v)) by lia.
        unfold tb. replace (Z.of_nat i) with (Z.succ (Z.of_nat (i - 1))) by lia.
        by rewrite Z.testbit_odd_succ, Z.testbit_even_succ by lia. }
  split; [done|]. split; [done|]. split; [|done]. unfold clean in *. rewrite E, Hw. lia.
Qed.

Lemma even_of_value v :
  wf2 v -> (0 < wid_ v)%nat -> vector2_value v 0 = false -> Z.odd (num v) = false.
Proof.
  intros Hv Hp Hb. rewrite vector2_value_bit, (proj2 (Nat.ltb_lt _ _) Hp) in Hb by done. cbn [andb] in Hb.
  pose proof (nwords_spec (wid_ v)). rewrite <- Z.bit0_odd. change (Z.testbit (num v) 0) with (tb (num v) 0).
  by rewrite num_tb by (done || lia).
Qed.

Lemma words_pow_nonzero n : 2 ^ (64 * Z.of_nat n) <> 0.
Proof. lia. Qed.

Lemma vector2_pow_spec x : wf2 x -> (0 < wid_ x)%nat -> forall k fuel y,
  wf2 y -> clean y -> (0 < wid_ y)%nat -> num y < 2 ^ Z.of_nat k -> (2 * k < fuel)%nat ->
  returns (vector2_pow fuel x y) (fun r => wf2 (fst r) /\ wid_ (fst r) = wid_ x /\
    num (fst r) = num x ^ num y mod 2 ^ (64 * Z.of_nat (nwords (wid_ x))) /\ num (snd r) = 0).
Proof.
  intros Hx Hwx. set (M := 2 ^ (64 * Z.of_nat (nwords (wid_ x)))).
  assert (Hbase : forall f y, wf2 y -> num y = 0 ->
    returns (vector2_pow (S f) x y) (fun r => wf2 (fst r) /\ wid_ (fst r) = wid_ x /\
      num (fst r) = num x ^ num y mod M /\ num (snd r) = 0)).
  { intros f y Hy Hz. cbn [vector2_pow].
    destruct (vector2_compare_spec y (vector2_of_ulong 0 1) Hy (vector2_of_ulong_wf 0 1 word_ok_0))
      as (_ & _ & _ & -> & _). rewrite num_of_ulong, Hz by lia. simpl (0 =? 0). cbv iota.
    apply returns_ret. cbn [fst snd]. split; [apply vector2_of_ulong_wf; unfold word_ok; lia|].
    split; [done|]. rewrite num_of_ulong, Hz, Z.pow_0_r by done. split; [|done].
    symmetry. apply Z.mod_small. unfold M. pose proof (nwords_spec (wid_ x)).
    split; [lia|]. apply Z.pow_gt_1; lia. }
  induction k as [|k IH]; intros fuel y Hy Hc Hwy Hk Hf.
  { destruct fuel; [lia|]. apply Hbase; [done|]. pose proof (num_bounds y Hy). simpl in Hk. lia. }
  assert (Heven : forall f y, wf2 y -> clean y -> (0 < wid_ y)%nat -> num y < 2 ^ Z.of_nat (S k) ->
    (2 * k < f)%nat -> Z.odd (num y) = false -> vector2_value y 0 = false ->
    returns (vector2_pow (S f) x y) (fun r => wf2 (fst r) /\ wid_ (fst r) = wid_ x /\
      num (fst r) = num x ^ num y mod M /\ num (snd r) = 0)).
  { clear fuel y Hy Hc Hwy Hk Hf. intros f y Hy Hc Hwy Hk Hf Hodd Hval.
    destruct (decide (num y = 0)) as [Hz|Hnz]; [by apply Hbase|]. cbn [vector2_pow].
    destruct (vector2_compare_spec y (vector2_of_ulong 0 1) Hy (vector2_of_ulong_wf 0 1 word_ok_0))
      as (_ & _ & _ & -> & _). rewrite num_of_ulong, (proj2 (Z.eqb_neq _ _) Hnz), Hval by lia.
    eapply returns_bind; [apply vector2_shr_num; [done|done|done|]|].
    { change (1 mod 64)%nat with 1%nat. lia. }
    intros y' (Hy' & Hw' & Hc' & Hn'). change (2 ^ Z.of_nat 1) with 2 in Hn'.
    eapply returns_bind; [apply (IH f y'); [done|done|lia| |done]|].
    { rewrite Hn'. rewrite Nat2Z.inj_succ, Z.pow_succ_r in Hk by lia. apply Z.div_lt_upper_bound; lia. }
    intros [z y''] (Hz & Hwz & Hnz' & Hny). cbn [fst snd] in *.
    eapply returns_bind; [by apply vector2_mul_spec|].
    intros r (Hr & Hwr & Hnr). apply returns_ret. cbn [fst snd].
    split; [done|]. split; [congruence|]. split; [|done]. rewrite Hnr, Hwz, Hnz'. fold M.
    rewrite <- Z.mul_mod, Hn' by (apply words_pow_nonzero).
    f_equal. rewrite <- Z.pow_add_r by (apply Z.div_pos; pose proof (num_bounds y Hy); lia). f_equal.
    pose proof (Z.div2_odd (num y)) as Hd. rewrite Hodd in Hd. cbn [Z.b2z] in Hd.
    rewrite Z.div2_div in Hd. clear -Hd. lia. }
  destruct fuel as [|f]; [lia|]. destruct (vector2_value y 0) eqn:Hval.
  2:{ apply Heven; try done; [lia|]. by apply even_of_value. }
  destruct (clear_bit0 y Hy Hc Hwy Hval) as [Hset Hodd].
  assert (num y <> 0) as Hnz by (intros Hz; by rewrite Hz in Hodd).
  cbn [vector2_pow].
  destruct (vector2_compare_spec y (vector2_of_ulong 0 1) Hy (vector2_of_ulong_wf 0 1 word_ok_0))
    as (_ & _ & _ & -> & _). rewrite num_of_ulong, (proj2 (Z.eqb_neq _ _) Hnz), Hval by lia.
  eapply returns_bind; [exact Hset|]. intros y' (Hy' & Hw' & Hc' & Hn').
  destruct f as [|f']; [lia|].
  assert (Z.odd (num y') = false) as Hodd' by (rewrite Hn', Z.odd_sub, Hodd; done).
  eapply returns_bind; [apply (Heven f' y'); [done|done|lia|lia|lia|done|]|].
  { rewrite vector2_value_bit by done. apply andb_false_intro2. pose proof (nwords_spec (wid_ y')).
    rewrite <- num_tb by (done || lia). unfold tb. change (Z.of_nat 0) with 0. by rewrite Z.bit0_odd. }
  intros [p y''] (Hp & Hwp & Hnp & Hny). cbn [fst snd] in *.
  eapply returns_bind; [by apply vector2_mul_spec|].
  intros r (Hr & Hwr & Hnr). apply returns_ret. cbn [fst snd].
  split; [done|]. split; [done|]. split; [|done]. rewrite Hnr, Hnp. fold M. rewrite Hn'.
  rewrite Z.mul_mod_idemp_r by apply words_pow_nonzero. f_equal.
  pose proof (num_bounds y Hy). rewrite <- Z.pow_succ_r by lia. f_equal. lia.
Qed.

(** *** Division *)

(** The mask of [div_mod]: the quotient bit under test; it is shifted out when
    it reaches bit [n] and stays 0 from then on. *)
Definition mask_num (n : nat) (overflow : bool) (k : nat) : Z := if overflow then 0 else 2 ^ Z.of_nat k.

(** The first loop: [divtmp] and [mask] after [k] doublings. *)
Definition div_inv1 (n : nat) (D d : Z) (s : vvp_vector2_t * vvp_vector2_t) : Prop :=
  let '(divtmp, mask) := s in
  wf2 divtmp /\ wf2 mask /\ wid_ divtmp = S n /\ wid_ mask = n /\
  exists k, (k <= n)%nat /\ num divtmp = d * 2 ^ Z.of_nat k /\
    num mask = 2 ^ Z.of_nat k mod 2 ^ Z.of_nat n /\ (k = 0%nat \/ d * 2 ^ Z.of_nat (k - 1) < D).

Lemma pow2_lt_inv a b : 2 ^ Z.of_nat a < 2 ^ Z.of_nat b -> (a < b)%nat.
Proof. intros H. apply Z.pow_lt_mono_r_iff in H; lia. Qed.

Lemma div_loop1 n D d dividend divtmp mask :
  wf2 dividend -> num dividend = D -> 0 < d -> D < 2 ^ Z.of_nat n -> (0 < n)%nat ->
  div_inv1 n D d (divtmp, mask) ->
  forall fuel, (n < fuel)%nat -> num mask = 1 mod 2 ^ Z.of_nat n -> num divtmp = d ->
  returns (while_ fuel (fun '(divtmp, mask) => vector2_lt divtmp dividend)
      (fun '(divtmp, mask) => Some (vector2_shl divtmp 1, vector2_shl mask 1)) (divtmp, mask))
    (fun s => div_inv1 n D d s /\ D <= num (fst s)).
Proof.
  intros Hdd HD Hd HDn Hn Hinv fuel Hf Hm0 Hd0.
  eapply returns_mono.
  - apply (returns_while (fun s => div_inv1 n D d s)
      (fun s => (S n - Z.to_nat (Z.log2 (num (fst s) / d)))%nat)); [done| |].
    + cbn [fst]. lia.
    + intros [dt mk] (H1 & H2 & W1 & W2 & k & Hk & N1 & N2 & _) Hc.
      destruct (vector2_compare_spec dt dividend H1 Hdd) as (E & _). rewrite E, HD, N1 in Hc.
      apply Z.ltb_lt in Hc.
      assert (k < n)%nat as Hkn by (apply pow2_lt_inv; nia).
      destruct (vector2_shl_num dt 1 H1 ltac:(lia) ltac:(done)) as (R1 & R2 & R3).
      destruct (vector2_shl_num mk 1 H2 ltac:(lia) ltac:(done)) as (Q1 & Q2 & Q3).
      apply returns_ret. cbn [fst].
      assert (Hnum : num (vector2_shl dt 1) = d * 2 ^ Z.of_nat (S k)).
      { rewrite R3, N1, W1. change (2 ^ Z.of_nat 1) with 2.
        replace (d * 2 ^ Z.of_nat k * 2) with (d * 2 ^ Z.of_nat (S k)) by
          (rewrite Nat2Z.inj_succ, Z.pow_succ_r by lia; lia).
        apply Z.mod_small. split; [lia|]. rewrite !Nat2Z.inj_succ, !Z.pow_succ_r by lia. lia. }
      split.
      * split; [done|]. split; [done|]. split; [congruence|]. split; [congruence|].
        exists (S k). split; [lia|]. split; [done|]. split.
        -- rewrite Q3, N2, W2. change (2 ^ Z.of_nat 1) with 2. rewrite Z.mul_mod_idemp_l by lia.
           f_equal. rewrite Nat2Z.inj_succ, Z.pow_succ_r by lia. lia.
        -- right. by replace (S k - 1)%nat with k by lia.
      * rewrite Hnum, N1, !(Z.mul_comm d), !Z.div_mul, !Z.log2_pow2 by lia. lia.
  - intros [dt mk] [Hi Hc]. split; [done|]. destruct Hi as (H1 & _).
    destruct (vector2_compare_spec dt dividend H1 Hdd) as (E & _). rewrite E, HD in Hc.
    by apply Z.ltb_ge in Hc.
Qed.

(** One round of the second loop; bit [j] of the quotient is tested. *)
Lemma div_step2 n D d divisor (overflow : bool) s :
  wf2 divisor -> num divisor = d -> 0 < d -> 0 <= D < 2 ^ Z.of_nat n -> (0 < n)%nat ->
  forall j q,
  (let '(dividend, divtmp, mask, quotient) := s in
   wf2 dividend /\ wf2 divtmp /\ wf2 mask /\ wf2 quotient /\
   wid_ dividend = S n /\ wid_ divtmp = S n /\ wid_ mask = n /\ wid_ quotient = n /\
   clean divtmp /\ clean mask /\ 0 <= q /\ D = q * d + num dividend /\
   0 <= num dividend < d * 2 ^ Z.of_nat (S j) /\ num quotient = (if overflow then 0 else q) /\
   num divtmp = d * 2 ^ Z.of_nat j /\ num mask = mask_num n overflow j) -> 
  (j <= n)%nat ->
  returns (let '(dividend, divtmp, mask, quotient) := s in
           le ← vector2_le divtmp dividend;
           '(dividend, quotient) ←
             (if le : bool then
                dividend ← vector2_sub dividend divtmp;
                quotient ← vector2_add quotient mask;
                Some (dividend, quotient)
              else Some (dividend, quotient));
           divtmp ← vector2_shr divtmp 1;
           mask ← vector2_shr mask 1;
           Some (dividend, divtmp, mask, quotient))
    (fun s' => let '(dividend, divtmp, mask, quotient) := s' in
       wf2 dividend /\ wf2 divtmp /\ wf2 mask /\ wf2 quotient /\
       wid_ dividend = S n /\ wid_ divtmp = S n /\ wid_ mask = n /\ wid_ quotient = n /\
       clean divtmp /\ clean mask /\
       exists q', 0 <= q' /\ D = q' * d + num dividend /\ 0 <= num dividend < d * 2 ^ Z.of_nat j /\
         num quotient = (if overflow then 0 else q') /\
         num divtmp = d * 2 ^ Z.of_nat j / 2 /\ num mask = mask_num n overflow j / 2).
Proof.
  destruct s as [[[dividend divtmp] mask] quotient].
  intros Hdv Hnd Hd HD Hn j q (H1 & H2 & H3 & H4 & W1 & W2 & W3 & W4 & C2 & C3 & Hq & HDq & Hr & Nq & N2 & N3) Hj.
  destruct (vector2_compare_spec divtmp dividend H2 H1) as (_ & _ & _ & _ & Hle).
  rewrite Hle by congruence. cbn [mbind option_bind]. rewrite Nat2Z.inj_succ, Z.pow_succ_r in Hr by lia.
  eapply (returns_bind _ _ (fun '((dd, qq) : vvp_vector2_t * vvp_vector2_t) => wf2 dd /\ wf2 qq /\ wid_ dd = S n /\ wid_ qq = n /\
    exists q', 0 <= q' /\ D = q' * d + num dd /\ 0 <= num dd < d * 2 ^ Z.of_nat j /\
         num qq = (if overflow then 0 else q'))).
  - destruct (Z.leb_spec (num divtmp) (num dividend)) as [Hge|Hlt].
    + eapply returns_bind; [apply vector2_sub_spec; [done|done|congruence|lia]|].
      intros dd (Hdd & Wdd & Ndd).
      eapply returns_bind; [apply vector2_add_spec; [done|done|congruence|lia]|].
      intros qq (Hqq & Wqq & Cqq & Nqq). apply returns_ret. split; [done|]. split; [done|].
      split; [congruence|]. split; [congruence|].
      assert (num dd = num dividend - d * 2 ^ Z.of_nat j) as Edd.
      { rewrite Ndd, N2. apply Z.mod_small. split; [lia|]. pose proof (num_bounds dividend H1). lia. }
      exists (q + 2 ^ Z.of_nat j). split; [lia|]. split; [lia|]. split; [lia|].
      rewrite Nqq, Nq, N3, W4. unfold mask_num. destruct overflow; [apply Z.mod_0_l; lia|].
      apply Z.mod_small. split; [lia|]. nia.
    + apply returns_ret. split; [done|]. split; [done|]. split; [done|]. split; [done|].
      exists q. split; [done|]. split; [done|]. split; [lia|]. done.
  - intros [dd qq] (Hdd & Hqq & Wdd & Wqq & q' & Hq' & HDq' & Hr' & Nq').
    eapply returns_bind; [apply vector2_shr_num; [done|done|lia|change (1 mod 64)%nat with 1%nat; lia]|].
    intros dt (Hdt & Wdt & Cdt & Ndt).
    eapply returns_bind; [apply vector2_shr_num; [done|done|lia|change (1 mod 64)%nat with 1%nat; lia]|].
    intros mk (Hmk & Wmk & Cmk & Nmk). apply returns_ret.
    split_and!; try done; try congruence. exists q'.
    rewrite Ndt, N2, Nmk, N3. split_and!; done || lia.
Qed.

Lemma mask_num_half n overflow j : mask_num n overflow (S j) / 2 = mask_num n overflow j.
Proof.
  unfold mask_num. destruct overflow; [done|]. rewrite Nat2Z.inj_succ, Z.pow_succ_r, Z.mul_comm by lia.
  by rewrite Z.div_mul.
Qed.

Lemma half_mul_pow d j : d * 2 ^ Z.of_nat (S j) / 2 = d * 2 ^ Z.of_nat j.
Proof.
  rewrite Nat2Z.inj_succ, Z.pow_succ_r by lia.
  replace (d * (2 * 2 ^ Z.of_nat j)) with (d * 2 ^ Z.of_nat j * 2) by ring. by rewrite Z.div_mul.
Qed.

(** The state of the second loop when [j] quotient bits are still to be tested
    and [q] is the quotient so far. *)
Definition div_inv2 (n : nat) (D d : Z) (overflow : bool) (j : nat) (q : Z)
    (s : vvp_vector2_t * vvp_vector2_t * vvp_vector2_t * vvp_vector2_t) : Prop :=
  let '(dividend, divtmp, mask, quotient) := s in
  wf2 dividend /\ wf2 divtmp /\ wf2 mask /\ wf2 quotient /\
  wid_ dividend = S n /\ wid_ divtmp = S n /\ wid_ mask = n /\ wid_ quotient = n /\
  clean divtmp /\ clean mask /\ 0 <= q /\ D = q * d + num dividend /\
  0 <= num dividend < d * 2 ^ Z.of_nat j /\ num quotient = (if overflow then 0 else q) /\
  match j with
  | O => True
  | S j' => num divtmp = d * 2 ^ Z.of_nat j' /\ num mask = mask_num n overflow j'
  end.

Lemma div_loop2 n D d divisor (overflow : bool) :
  wf2 divisor -> num divisor = d -> 0 < d -> 0 <= D < 2 ^ Z.of_nat n -> (0 < n)%nat ->
  forall j fuel q s, (j <= S n)%nat -> (j <= fuel)%nat -> div_inv2 n D d overflow j q s ->
  returns (while_ fuel (fun '(dividend, divtmp, mask, quotient) => vector2_ge dividend divisor)
        (fun '(dividend, divtmp, mask, quotient) =>
           le ← vector2_le divtmp dividend;
           '(dividend, quotient) ←
             (if le : bool then
                dividend ← vector2_sub dividend divtmp;
                quotient ← vector2_add quotient mask;
                Some (dividend, quotient)
              else Some (dividend, quotient));
           divtmp ← vector2_shr divtmp 1;
           mask ← vector2_shr mask 1;
           Some (dividend, divtmp, mask, quotient)) s)
    (fun '(dividend, divtmp, mask, quotient) =>
       wf2 dividend /\ wf2 quotient /\ wid_ dividend = S n /\ wid_ mask = n /\ wid_ quotient = n /\
       num dividend = D mod d /\ num quotient = (if overflow then 0 else D / d)).
Proof.
  intros Hdv Hnd Hd HD Hn.
  assert (Hend : forall j q s, div_inv2 n D d overflow j q s ->
    (let '(dividend, _, _, _) := s in vector2_ge dividend divisor) = false ->
    let '(dividend, _, mask, quotient) := s in
    wf2 dividend /\ wf2 quotient /\ wid_ dividend = S n /\ wid_ mask = n /\ wid_ quotient = n /\
    num dividend = D mod d /\ num quotient = (if overflow then 0 else D / d)).
  { intros j q [[[dividend divtmp] mask] quotient]
      (H1 & H2 & H3 & H4 & W1 & W2 & W3 & W4 & C2 & C3 & Hq & HDq & Hr & Nq & _) Hc.
    destruct (vector2_compare_spec dividend divisor H1 Hdv) as (_ & _ & E & _).
    rewrite E, Hnd in Hc. apply Z.leb_gt in Hc. split_and!; try done.
    - apply (Z.mod_unique_pos D d q); lia.
    - rewrite Nq. destruct overflow; [done|]. apply (Z.div_unique_pos D d q (num dividend)); lia. }
  assert (Hge : forall j q s, div_inv2 n D d overflow j q s ->
    (let '(dividend, _, _, _) := s in vector2_ge dividend divisor) = true -> (0 < j)%nat).
  { intros j q [[[dividend divtmp] mask] quotient]
      (H1 & H2 & H3 & H4 & W1 & W2 & W3 & W4 & C2 & C3 & Hq & HDq & Hr & Nq & _) Hc.
    destruct (vector2_compare_spec dividend divisor H1 Hdv) as (_ & _ & E & _).
    rewrite E, Hnd in Hc. apply Z.leb_le in Hc. destruct j; [simpl in Hr; lia|lia]. }
  induction j as [|j IH]; intros fuel q s Hj Hf Hinv.
  - specialize (Hend 0%nat q s Hinv). specialize (Hge 0%nat q s Hinv).
    destruct s as [[[dividend divtmp] mask] quotient].
    destruct fuel; cbn [while_]; destruct (vector2_ge dividend divisor); try (specialize (Hge eq_refl); lia);
      apply returns_ret; by apply Hend.
  - specialize (Hend (S j) q s Hinv). destruct s as [[[dividend divtmp] mask] quotient].
    destruct fuel as [|fuel]; [lia|]. cbn [while_]. destruct (vector2_ge dividend divisor);
      [|by apply returns_ret, Hend].
    destruct Hinv as (H1 & H2 & H3 & H4 & W1 & W2 & W3 & W4 & C2 & C3 & Hq & HDq & Hr & Nq & N2 & N3).
    eapply returns_bind.
    + apply (div_step2 n D d divisor overflow (dividend, divtmp, mask, quotient) Hdv Hnd Hd HD Hn j q);
        [split_and!; done || lia|lia].
    + intros s'. destruct s' as [[[dd dt] mk] qq].
      intros (R1 & R2 & R3 & R4 & V1 & V2 & V3 & V4 & D2 & D3 & q' & Hq' & HDq' & Hr' & Nq' & M2 & M3).
      apply (IH fuel q'); [lia|lia|]. split_and!; try done; try lia.
      destruct j as [|j]; [done|]. rewrite half_mul_pow in M2. rewrite mask_num_half in M3. done.
Qed.

(** The first quotient bit is shifted out of the mask. *)
Definition div_overflows (n : nat) (D d : Z) : bool := (d =? 1) && (2 ^ (Z.of_nat n - 1) <? D).

Lemma mask_num_overflow n D d k :
  0 < d -> 0 <= D < 2 ^ Z.of_nat n -> (0 < n)%nat -> (k <= n)%nat -> D <= d * 2 ^ Z.of_nat k ->
  (k = 0%nat \/ d * 2 ^ Z.of_nat (k - 1) < D) ->
  2 ^ Z.of_nat k mod 2 ^ Z.of_nat n = mask_num n (div_overflows n D d) k.
Proof.
  intros Hd HD Hn Hk Hge Hmin. unfold mask_num, div_overflows.
  destruct (decide (k = n)) as [->|Hne].
  - rewrite Z.mod_same by lia. destruct Hmin as [|Hmin]; [lia|].
    assert (2 ^ Z.of_nat n = 2 * 2 ^ Z.of_nat (n - 1)) as E2.
    { rewrite <- Z.pow_succ_r by lia. f_equal. lia. }
    replace (Z.of_nat n - 1) with (Z.of_nat (n - 1)) by lia.
    assert (d = 1) as -> by nia. rewrite Z.eqb_refl, (proj2 (Z.ltb_lt _ _)) by lia. done.
  - assert (div_overflows n D d = false) as E.
    { unfold div_overflows. destruct (Z.eqb_spec d 1) as [->|]; [|done]. apply Z.ltb_ge.
      rewrite Z.mul_1_l in Hge. etransitivity; [exact Hge|]. apply Z.pow_le_mono_r; lia. }
    unfold div_overflows in E. rewrite E. apply Z.mod_small. split; [lia|]. apply Z.pow_lt_mono_r; lia.
Qed.

Lemma div_mod_spec a b :
  wf2 a -> wf2 b -> wid_ a = wid_ b -> (0 < wid_ a)%nat -> clean a -> clean b -> num b <> 0 ->
  returns (div_mod a b) (fun '(q, r) => wf2 q /\ wf2 r /\ wid_ q = wid_ a /\ wid_ r = wid_ a /\
    num r = num a mod num b /\
    num q = if div_overflows (wid_ a) (num a) (num b) then 0 else num a / num b).
Proof.
  intros Ha Hb Hw Hp Hca Hcb Hnz. unfold clean in Hca, Hcb. rewrite <- Hw in Hcb.
  pose proof (num_bounds a Ha) as Ba. pose proof (num_bounds b Hb) as Bb. unfold div_mod.
  set (n := wid_ a) in *. set (D := num a) in *. set (d := num b) in *.
  pose proof (vector2_of_ulong_wf 0 n word_ok_0) as Hq0. pose proof (num_of_ulong 0 n Hp) as Nq0.
  destruct (vector2_compare_spec b (vector2_of_ulong 0 n) Hb Hq0) as (_ & _ & _ & -> & _).
  rewrite Nq0. fold d. rewrite (proj2 (Z.eqb_neq _ _) Hnz).
  destruct (vector2_compare_spec a b Ha Hb) as (-> & _). fold D d.
  destruct (Z.ltb_spec D d) as [Hlt|Hge].
  { apply returns_ret. split_and!; try done; [symmetry; apply Z.mod_small; fold D; lia|].
    rewrite Nq0, (Z.div_small D d) by lia. unfold div_overflows. by destruct (_ && _). }
  assert (word_ok 1) as Hok1 by (unfold word_ok; lia).
  assert (Hpow : 2 ^ Z.of_nat n < 2 ^ (64 * Z.of_nat (nwords (n + 1)))).
  { pose proof (nwords_spec (n + 1)). apply Z.pow_lt_mono_r; lia. }
  destruct (vector2_resize_spec a (n + 1) Ha ltac:(lia) ltac:(fold D; lia)) as (Hd1 & Wd1 & Nd1).
  rewrite Wd1. destruct (vector2_resize_spec b (n + 1) Hb ltac:(lia) ltac:(fold d; lia)) as (Ht1 & Wt1 & Nt1).
  fold D in Nd1. fold d in Nt1. rewrite Nat.add_1_r in *.
  assert (Hinv : div_inv1 n D d (vector2_resize b (S n), vector2_of_ulong 1 n)).
  { split; [done|]. split; [by apply vector2_of_ulong_wf|]. split; [done|]. split; [done|].
    exists 0%nat. rewrite num_of_ulong, Nt1 by done. change (2 ^ Z.of_nat 0) with 1.
    split; [lia|]. split; [lia|]. split; [|by left]. symmetry. apply Z.mod_small. split; [lia|].
    apply Z.pow_gt_1; lia. }
  eapply returns_bind.
  - apply (div_loop1 n D d (vector2_resize a (S n)) (vector2_resize b (S n)) (vector2_of_ulong 1 n));
      [done|done|lia|lia|done|done|lia| |done].
    rewrite num_of_ulong by done. symmetry. apply Z.mod_small. split; [lia|]. apply Z.pow_gt_1; lia.
  - intros [dt mk] [(H1 & H2 & W1 & W2 & k & Hk & N1 & N2 & Hmin) Hdone]. cbn [fst] in Hdone.
    rewrite N1 in Hdone.
    rewrite (mask_num_overflow n D d k) in N2 by (done || lia).
    eapply returns_bind.
    + apply (div_loop2 n D d b (div_overflows n D d) Hb eq_refl ltac:(lia) ltac:(lia) Hp (S k) _ 0);
        [lia|lia|].
      split_and!; try done; try lia.
      * unfold clean. rewrite N1, W1. destruct Hmin as [->|Hmin].
        { change (2 ^ Z.of_nat 0) with 1. assert (2 ^ Z.of_nat n < 2 ^ Z.of_nat (S n)) by (apply Z.pow_lt_mono_r; lia). lia. }
        rewrite Nat2Z.inj_succ, Z.pow_succ_r by lia.
        destruct k as [|k]; [change (2 ^ Z.of_nat 0) with 1; lia|].
        replace (S k - 1)%nat with k in Hmin by lia. rewrite Nat2Z.inj_succ, Z.pow_succ_r by lia. lia.
      * unfold clean. rewrite N2, W2. unfold mask_num. destruct (div_overflows n D d) eqn:E; [lia|].
        apply Z.pow_lt_mono_r; [lia|lia|]. destruct (decide (k = n)) as [->|]; [|lia].
        exfalso. pose proof (mask_num_overflow n D d n ltac:(lia) ltac:(lia) Hp ltac:(lia) Hdone Hmin) as Hm.
        rewrite E, Z.mod_same in Hm by lia. unfold mask_num in Hm. lia.
      * rewrite Nd1, Nat2Z.inj_succ, Z.pow_succ_r by lia. lia.
      * rewrite Nq0. by destruct (div_overflows n D d).
    + intros [[[dd dt'] mk'] qq] (R1 & R2 & V1 & V2 & V3 & M1 & M2). apply returns_ret.
      rewrite V2. pose proof (Z.mod_pos_bound D d ltac:(lia)).
      destruct (vector2_resize_spec dd n R1 Hp) as (S1 & S2 & S3).
      { rewrite M1. pose proof (pow_words n). lia. }
      split_and!; try done. by rewrite S3.
Qed.

Lemma vector2_neg_spec v :
  wf2 v -> (0 < wid_ v)%nat ->
  returns (vector2_neg v) (fun r => wf2 r /\ wid_ r = wid_ v /\ clean r /\
    num r = (- num v) mod 2 ^ Z.of_nat (wid_ v)).
Proof.
  intros Hv Hp. destruct (vector2_copy_spec v Hv) as (Hc & Hw & Hn). unfold vector2_neg.
  rewrite Hw, (proj2 (Nat.eqb_neq _ 0)) by lia. set (vec := loop_ 0 _ _ _).
  assert (length vec = length (vec_ (vector2_copy v)) /\ words_ok vec /\
    forall k, wd vec k = if (k <? 0 + nwords (wid_ v))%nat then w_not (wd (vec_ (vector2_copy v)) k)
                         else wd (vec_ (vector2_copy v)) k) as (Hl & Hok & Hk).
  { apply (loop_inv (fun j t => length t = length (vec_ (vector2_copy v)) /\ words_ok t /\
      forall k, wd t k = if (k <? j)%nat then w_not (wd (vec_ (vector2_copy v)) k)
                         else wd (vec_ (vector2_copy v)) k)).
    - split; [done|]. split; [apply Hc|]. done.
    - intros j t Hj (Ht & Hto & Hk). destruct Hc as [Hcl _]. rewrite Hw in Hcl.
      split; [by rewrite length_insert|]. split; [auto with word_db|]. intros k.
      rewrite wd_insert. destruct (decide _) as [[-> _]|Hne].
      + rewrite Hk. split_ifs; done || lia.
      + rewrite Hk. assert (k <> j)%nat by (intros ->; apply Hne; split; [done|lia]). split_ifs; done || lia. }
  assert (wf2 (mk_vector2 vec (wid_ v))) as Hwf.
  { destruct Hc as [Hcl _]. rewrite Hw in Hcl. split; simpl; [by rewrite Hl|done]. }
  assert (word_ok 1) by (unfold word_ok; lia).
  eapply returns_mono; [apply vector2_add_spec; [done|by apply vector2_of_ulong_wf|done|done]|].
  intros r (R1 & R2 & R3 & R4). split; [done|]. split; [done|]. split; [done|].
  rewrite R4, num_of_ulong by done. cbn [wid_].
  assert (num (mk_vector2 vec (wid_ v)) = 2 ^ (64 * Z.of_nat (nwords (wid_ v))) - 1 - num v) as ->.
  { rewrite <- Hn. unfold num. cbn [vec_ wid_]. rewrite Hw, <- wsum_not.
    - apply wsum_ext. intros k Hlt. rewrite Hk. by rewrite (proj2 (Nat.ltb_lt k _)).
    - intros k _. apply wd_ok, Hc. }
  destruct (pow_words_split (wid_ v)) as [k ->].
  replace (k * 2 ^ Z.of_nat (wid_ v) - 1 - num v + 1) with (- num v + k * 2 ^ Z.of_nat (wid_ v)) by lia.
  by rewrite Z.mod_add by lia.
Qed.

Lemma vector2_of_vector4_spec v :
  wf4 v -> (0 < size_ v)%nat ->
  returns (vector2_of_vector4 v false) (fun r => wf2 r /\ clean r /\ wid_ r = size_ v /\
    num r = bits_to_Z (bits v)).
Proof.
  intros Hv Hp. unfold vector2_of_vector4, vector2_copy_vector4. cbn [andb].
  pose proof (nwords_spec (size_ v)) as Hn. rewrite (proj2 (Nat.eqb_neq _ 0)) by lia.
  pose proof (subarray_spec v 0 (size_ v) true Hv Hp ltac:(lia)) as Hs.
  destruct (subarray v 0 (size_ v) true) as [vec|]; [|by destruct Hs].
  destruct Hs as [(Hl & Hok & Hb) _]. apply returns_ret.
  assert (wf2 (mk_vector2 vec (size_ v))) as Hwf by (split; simpl; [by rewrite Hl|done]).
  assert (num (mk_vector2 vec (size_ v)) = bits_to_Z (bits v)) as E.
  { pose proof (bits_to_Z_bounds (bits v)) as Hbd. rewrite length_bits in Hbd.
    rewrite <- (Z.mod_small (bits_to_Z (bits v)) (2 ^ Z.of_nat (size_ v))) by done.
    apply (num_of_bits (mk_vector2 vec (size_ v))); [done|]. cbn [vec_ wid_]. intros i Hi.
    rewrite Hb by done. apply andb_guard. intros Hlt. apply Nat.ltb_lt in Hlt.
    rewrite tb_bits_value, value_wsbit by done. unfold sub_abit. rewrite Nat.add_0_l.
    by destruct (wsbit (abits_ v) i), (wsbit (bbits_ v) i). }
  split; [done|]. split; [|split; [done|exact E]]. unfold clean. rewrite E. simpl.
  pose proof (bits_to_Z_bounds (bits v)) as Hbd. rewrite length_bits in Hbd. lia.
Qed.

Lemma vector2_to_vector4_spec v wid :
  wf2 v -> returns (vector2_to_vector4 v wid) (fun r => wf4 r /\ size_ r = wid /\
    bits r = map (fun i => bit4_of_bool (vector2_value v i)) (seq 0 wid)).
Proof.
  intros Hv. unfold vector2_to_vector4. eapply returns_mono.
  - apply (returns_for (fun j r => wf4 r /\ size_ r = wid /\ (j <= wid)%nat /\
      forall i, (i < j)%nat -> value r i = bit4_of_bool (vector2_value v i))).
    + split; [apply fill_wf|]. split; [apply size_fill|]. split; [lia|]. intros i Hi. lia.
    + intros k t Hk (Ht & Hs & Hj & Hb).
      eapply returns_mono; [apply set_bit_returns; [done|lia]|]. intros r (Hr & Hsr & Hbr).
      split; [done|]. split; [congruence|]. split; [lia|]. intros i Hi. rewrite Hbr.
      destruct (Nat.eqb_spec i k) as [->|]; [done|]. apply Hb. lia.
  - intros r (Hr & Hs & _ & Hb). split; [done|]. split; [done|]. apply bits_eq; [done|].
    intros i Hi. by apply Hb.
Qed.

(** *** Edge behaviour *)

(** [>>=] of a vector of one word by more than its width fails the assertion. *)
Lemma shr_beyond_width_aborts : vector2_shr (vector2_of_ulong 1 8) 10 = None.
Proof. by vm_compute. Qed.

(** [<<=] by whole words leaves bits beyond the width. *)
Lemma shl_whole_words_unclean :
  let v := vector2_shl (vector2_of_ulong 2 65) 64 in
  is_zero v = false /\ forall i, (i < 65)%nat -> vector2_value v i = false.
Proof.
  cbv zeta. split; [by vm_compute|]. intros i Hi. apply not_true_iff_false. intros H.
  assert (existsb (vector2_value (vector2_shl (vector2_of_ulong 2 65) 64)) (seq 0 65) = true) as E.
  { apply existsb_exists. exists i. split; [apply in_seq; lia|done]. }
  by vm_compute in E.
Qed.

(** A division by one of a vector with its top bit set loses the quotient. *)
Lemma div_by_one_loses_quotient :
  num <$> vector2_div (vector2_of_ulong 3 2) (vector2_of_ulong 1 2) = Some 0.
Proof. by vm_compute. Qed.

(** ** Properties *)

(** On operands of one width the arithmetic of [vvp_vector2_t] is arithmetic
    on unsigned numbers: [+=] and unary [-] are exact modulo [2^wid], [-=] and
    [*] modulo the size of the words, and the comparison operators order the
    numbers, whatever the widths. *)
Theorem vector2_arithmetic a b :
  wf2 a -> wf2 b -> wid_ a = wid_ b -> (0 < wid_ a)%nat ->
  let words := 2 ^ (64 * Z.of_nat (nwords (wid_ a))) in
  returns (vector2_add a b) (fun r => clean r /\ num r = (num a + num b) mod 2 ^ Z.of_nat (wid_ a)) /\
  returns (vector2_neg a) (fun r => clean r /\ num r = (- num a) mod 2 ^ Z.of_nat (wid_ a)) /\
  returns (vector2_sub a b) (fun r => wid_ r = wid_ a /\ num r = (num a - num b) mod words) /\
  returns (vector2_mul a b) (fun r => wid_ r = wid_ a /\ num r = (num a * num b) mod words) /\
  vector2_lt a b = (num a <? num b) /\ vector2_gt a b = (num b <? num a) /\
  vector2_ge a b = (num b <=? num a) /\ vector2_eq a b = (num a =? num b) /\
  vector2_le a b = Some (num a <=? num b).
Proof.
  intros Ha Hb Hw Hp words. destruct (vector2_compare_spec a b Ha Hb) as (H1 & H2 & H3 & H4 & H5).
  split_and!; try done; [..|by apply H5].
  - eapply returns_mono; [by apply vector2_add_spec|]. by intros r (_ & _ & ? & ?).
  - eapply returns_mono; [by apply vector2_neg_spec|]. by intros r (_ & _ & ? & ?).
  - eapply returns_mono; [by apply vector2_sub_spec|]. by intros r (_ & ? & ?).
  - eapply returns_mono; [by apply vector2_mul_spec|]. by intros r (_ & ? & ?).
Qed.

Lemma vector2_arithmetic_witness :
  returns (vector2_mul (vector2_of_ulong w_max 128) (vector2_of_ulong w_max 128)) (fun r =>
    num r = (2 ^ 64 - 1) * (2 ^ 64 - 1)).
Proof.
  assert (H := proj1 (proj2 (proj2 (proj2 (vector2_arithmetic (vector2_of_ulong w_max 128) (vector2_of_ulong w_max 128)
    (vector2_of_ulong_wf _ _ word_ok_max) (vector2_of_ulong_wf _ _ word_ok_max) eq_refl ltac:(simpl; lia)))))).
  destruct H as (r & Hr & _ & Hn). exists r. split; [exact Hr|]. rewrite Hn. by vm_compute.
Defined.

(** [<<=] by an amount that is not a whole number of words multiplies by the
    power of two modulo [2^wid], and [>>=] of a vector without bits beyond its
    width divides by it; the right shift does not fail its assertion as long as
    the shift within a word does not exceed the width. *)
Theorem vector2_shifts v shift :
  wf2 v -> (0 < wid_ v)%nat ->
  ((shift mod 64 <> 0)%nat ->
     clean (vector2_shl v shift) /\ wid_ (vector2_shl v shift) = wid_ v /\
     num (vector2_shl v shift) = num v * 2 ^ Z.of_nat shift mod 2 ^ Z.of_nat (wid_ v)) /\
  (clean v -> (shift mod 64 <= wid_ v)%nat ->
     returns (vector2_shr v shift) (fun r => wf2 r /\ wid_ r = wid_ v /\ clean r /\
       num r = num v / 2 ^ Z.of_nat shift)).
Proof.
  intros Hv Hp. split.
  - intros Hs. destruct (vector2_shl_num v shift Hv Hp Hs) as (_ & Hw & Hn).
    split; [|done]. unfold clean. rewrite Hn, Hw. apply Z.mod_pos_bound. lia.
  - intros Hc Hs. by apply vector2_shr_num.
Qed.

Lemma vector2_shifts_witness :
  num (vector2_shl (vector2_of_ulong 5 100) 70) = 5 * 2 ^ 70.
Proof.
  assert (word_ok 5) as H5 by (unfold word_ok; lia).
  rewrite (proj2 (proj2 (proj1 (vector2_shifts (vector2_of_ulong 5 100) 70 (vector2_of_ulong_wf _ _ H5)
    ltac:(simpl; lia)) ltac:(vm_compute; lia)))). by vm_compute.
Defined.

(** C34: [div_mod] of two vectors of one width terminates, and its remainder is
    the remainder of the division by a nonzero divisor.  Its quotient is the
    quotient of the numbers except when a dividend above [2^(wid-1)] is divided
    by one: the bit of the mask is then shifted out and the quotient is 0.  Widths
    that are multiples of 64 rely on the shift of [tail_mask] being that of x86-64. *)
Theorem div_mod_correct a b :
  wf2 a -> wf2 b -> wid_ a = wid_ b -> (0 < wid_ a)%nat -> clean a -> clean b -> num b <> 0 ->
  returns (vector2_mod a b) (fun r => wid_ r = wid_ a /\ num r = num a mod num b) /\
  returns (vector2_div a b) (fun q => wid_ q = wid_ a /\
    num q = if (num b =? 1) && (2 ^ (Z.of_nat (wid_ a) - 1) <? num a) then 0 else num a / num b).
Proof.
  intros Ha Hb Hw Hp Hca Hcb Hnz. unfold vector2_div, vector2_mod.
  destruct (div_mod_spec a b Ha Hb Hw Hp Hca Hcb Hnz) as ([q r] & -> & (_ & _ & Wq & Wr & Nr & Nq)).
  split; [exists r|exists q]; done.
Qed.

Lemma div_mod_correct_witness :
  returns (vector2_div (vector2_of_ulong 1000 70) (vector2_of_ulong 7 70)) (fun q => num q = 142).
Proof.
  assert (word_ok 1000 /\ word_ok 7) as [H1 H2] by (unfold word_ok; lia).
  assert (H := proj2 (div_mod_correct (vector2_of_ulong 1000 70) (vector2_of_ulong 7 70)
    (vector2_of_ulong_wf _ _ H1) (vector2_of_ulong_wf _ _ H2) eq_refl ltac:(simpl; lia)
    ltac:(by vm_compute) ltac:(by vm_compute) ltac:(by vm_compute))).
  destruct H as (q & Hq & _ & Hn). exists q. split; [exact Hq|]. rewrite Hn. by vm_compute.
Defined.

(** [pow] by squaring terminates and computes the power modulo the size of
    the words of its base; the exponent it was handed by reference is left 0. *)
Theorem pow_correct x y :
  wf2 x -> wf2 y -> clean y -> (0 < wid_ x)%nat -> (0 < wid_ y)%nat ->
  returns (vector2_pow (S (2 * wid_ y)) x y) (fun '(r, y') => wid_ r = wid_ x /\ num y' = 0 /\
    num r = num x ^ num y mod 2 ^ (64 * Z.of_nat (nwords (wid_ x)))).
Proof.
  intros Hx Hy Hc Hwx Hwy. eapply returns_mono.
  - apply (vector2_pow_spec x Hx Hwx (wid_ y)); [done|done|done|exact Hc|lia].
  - by intros [r y'] (_ & ? & ? & ?).
Qed.

Lemma pow_correct_witness :
  returns (vector2_pow 17 (vector2_of_ulong 3 70) (vector2_of_ulong 40 8)) (fun '(r, y') => num r = 3 ^ 40).
Proof.
  assert (word_ok 3 /\ word_ok 40) as [H1 H2] by (unfold word_ok; lia).
  assert (H := pow_correct (vector2_of_ulong 3 70) (vector2_of_ulong 40 8)
    (vector2_of_ulong_wf _ _ H1) (vector2_of_ulong_wf _ _ H2) ltac:(by vm_compute) ltac:(simpl; lia) ltac:(simpl; lia)).
  destruct H as ([r y'] & Hr & _ & _ & Hn). exists (r, y'). split; [exact Hr|]. rewrite Hn. by vm_compute.
Defined.
