(* ===== verification/VecRep.v ===== *)
(** * Vectors as lists of bits

    The interface of [vvp_vector4_t] to its clients: [rep4 v l] says that the
    object [v] is well formed and stands for the bits [l], least significant
    first.  One lemma for each operation carries the representation through it,
    so that the functors and the instructions of a thread are reasoned about on
    lists and never look at words. *)

From Stdlib Require Import ZArith Lia Bool.
From stdpp Require Import base numbers list.
From S2P Require Import Prelude Bit4 Words Vec4 Vec4Move Vec4Arith Vec4Array Vec2.

Open Scope Z_scope.

(** ** Definitions *)

Definition rep4 (v : vvp_vector4_t) (l : list vvp_bit4_t) : Prop := wf4 v /\ bits v = l.

(** Bit [i] of a list; X beyond the end, as [vvp_vector4_t::value] answers. *)
Definition bit_at (l : list vvp_bit4_t) (i : nat) : vvp_bit4_t := nth i l BIT4_X.

(** The part of a list, X beyond the end. *)
Definition part_at (l : list vvp_bit4_t) (adr wid : nat) : list vvp_bit4_t :=
  map (fun i => bit_at l (adr + i)) (seq 0 wid).

(** The list with a part replaced. *)
Definition splice (l : list vvp_bit4_t) (adr : nat) (m : list vvp_bit4_t) : list vvp_bit4_t :=
  take adr l ++ m ++ drop (adr + length m) l.

(** ** Lemmas *)

Create HintDb rep4_db.

Lemma rep4_wf v l : rep4 v l -> wf4 v.
Proof. by intros []. Qed.

Lemma rep4_size v l : rep4 v l -> size_ v = length l.
Proof. intros [_ <-]. by rewrite length_bits. Qed.

Lemma bit_at_lookup l i b : l !! i = Some b -> bit_at l i = b.
Proof. intros H. unfold bit_at. by rewrite nth_lookup, H. Qed.

Lemma bit_at_bits v i : bit_at (bits v) i = value v i.
Proof.
  unfold bit_at. rewrite nth_lookup. destruct (Nat.lt_ge_cases i (size_ v)).
  - by rewrite lookup_bits.
  - rewrite lookup_ge_None_2 by (rewrite length_bits; lia). by rewrite value_ge.
Qed.

Lemma rep4_value v l i : rep4 v l -> value v i = bit_at l i.
Proof. intros [_ <-]. by rewrite bit_at_bits. Qed.

Lemma rep4_intro v l :
  wf4 v -> size_ v = length l -> (forall i, (i < length l)%nat -> value v i = bit_at l i) -> rep4 v l.
Proof.
  intros Hw Hs Hv. split; [done|]. apply bits_eq_list; [done|]. intros i Hi. rewrite Hs in Hi.
  destruct (lookup_lt_is_Some_2 l i Hi) as [b Hb]. rewrite Hv by done. unfold bit_at. by rewrite nth_lookup, Hb.
Qed.

Lemma bit_at_ext l m : length l = length m -> (forall i, (i < length l)%nat -> bit_at l i = bit_at m i) -> l = m.
Proof.
  intros Hl Hi. apply (nth_ext _ _ BIT4_X BIT4_X Hl). exact Hi.
Qed.

Lemma bit_at_map_seq f n i : (i < n)%nat -> bit_at (map f (seq 0 n)) i = f i.
Proof. intros H. unfold bit_at. by rewrite nth_lookup, lookup_map_seq. Qed.

Lemma bit_at_replicate b n i : (i < n)%nat -> bit_at (replicate n b) i = b.
Proof. intros H. unfold bit_at. by rewrite nth_lookup, lookup_replicate_2. Qed.

Lemma bit_at_insert l i b j : (i < length l)%nat -> bit_at (<[i := b]> l) j = if (j =? i)%nat then b else bit_at l j.
Proof.
  intros H. unfold bit_at. rewrite !nth_lookup. destruct (Nat.eqb_spec j i) as [->|].
  - by rewrite list_lookup_insert_eq.
  - by rewrite list_lookup_insert_ne.
Qed.

Lemma bit_at_app l m i : bit_at (l ++ m) i = if (i <? length l)%nat then bit_at l i else bit_at m (i - length l).
Proof.
  unfold bit_at. destruct (Nat.ltb_spec i (length l)); [by apply app_nth1|by apply app_nth2; lia].
Qed.

Lemma bit_at_take l n i : (i < n)%nat -> bit_at (take n l) i = bit_at l i.
Proof. intros H. unfold bit_at. by rewrite !nth_lookup, lookup_take_lt. Qed.

Lemma bit_at_drop l n i : bit_at (drop n l) i = bit_at l (n + i).
Proof. unfold bit_at. by rewrite !nth_lookup, lookup_drop. Qed.

Lemma bit_at_out l i : (length l <= i)%nat -> bit_at l i = BIT4_X.
Proof. apply nth_overflow. Qed.

Lemma length_part_at l adr wid : length (part_at l adr wid) = wid.
Proof. unfold part_at. by rewrite length_map, length_seq. Qed.

Lemma bit_at_part l adr wid i : (i < wid)%nat -> bit_at (part_at l adr wid) i = bit_at l (adr + i).
Proof. intros H. unfold part_at. by rewrite bit_at_map_seq. Qed.

Lemma part_at_take_drop l adr wid : (adr + wid <= length l)%nat -> part_at l adr wid = take wid (drop adr l).
Proof.
  intros H. apply bit_at_ext; rewrite length_part_at.
  - rewrite length_take, length_drop. lia.
  - intros i Hi. by rewrite bit_at_part, bit_at_take, bit_at_drop.
Qed.

Lemma length_splice l adr m : (adr + length m <= length l)%nat -> length (splice l adr m) = length l.
Proof. intros H. unfold splice. rewrite !length_app, length_take, length_drop. lia. Qed.

Lemma bit_at_splice l adr m i :
  (adr + length m <= length l)%nat ->
  bit_at (splice l adr m) i = if (adr <=? i)%nat && (i <? adr + length m)%nat then bit_at m (i - adr) else bit_at l i.
Proof.
  intros H. unfold splice. rewrite !bit_at_app, length_take, Nat.min_l by lia.
  destruct (Nat.ltb_spec i adr).
  - rewrite bit_at_take by done. by rewrite (proj2 (Nat.leb_gt _ _)).
  - rewrite (proj2 (Nat.leb_le _ _)) by lia. cbn [andb].
    destruct (Nat.ltb_spec (i - adr) (length m)), (Nat.ltb_spec i (adr + length m)); try lia; [done|].
    rewrite bit_at_drop. f_equal. lia.
Qed.

Lemma list_has_xz_at l : list_has_xz l = false <-> forall i, (i < length l)%nat -> bit4_is_xz (bit_at l i) = false.
Proof.
  rewrite list_has_xz_false. split.
  - intros H i Hi. destruct (lookup_lt_is_Some_2 l i Hi) as [b Hb]. unfold bit_at. rewrite nth_lookup, Hb. by apply (H i).
  - intros H i b Hb. specialize (H i (lookup_lt_Some _ _ _ Hb)). unfold bit_at in H. by rewrite nth_lookup, Hb in H.
Qed.

(** *** Construction and bits *)

Lemma rep4_fill n b : rep4 (vector4_fill n b) (replicate n b).
Proof. split; [apply fill_wf|apply bits_fill]. Qed.

Lemma rep4_set_bit v l i b :
  rep4 v l -> (i < length l)%nat -> returns (set_bit v i b) (fun r => rep4 r (<[i := b]> l)).
Proof.
  intros Hr Hi. pose proof (rep4_size _ _ Hr) as Hs.
  eapply returns_mono; [apply set_bit_returns; [by apply Hr|lia]|]. intros r (H1 & H2 & H3).
  apply rep4_intro; [done|by rewrite length_insert, H2|]. intros j _. rewrite H3, bit_at_insert by done.
  by rewrite (rep4_value v l).
Qed.

(** A loop that assigns every bit from its old value. *)
Lemma rep4_loop v l (h : nat -> vvp_bit4_t -> vvp_bit4_t) :
  rep4 v l ->
  returns (for_ 0 (length l) (fun idx v => set_bit v idx (h idx (value v idx))) v)
    (fun r => rep4 r (map (fun i => h i (bit_at l i)) (seq 0 (length l)))).
Proof.
  intros Hr. eapply returns_mono.
  { apply (returns_for (fun k t => exists m, rep4 t m /\ length m = length l /\
      forall i, (i < length l)%nat -> bit_at m i = if (i <? k)%nat then h i (bit_at l i) else bit_at l i)).
    - exists l. split; [done|]. split; [done|]. done.
    - intros k t Hk (m & Hm & Hlen & Hval). rewrite (rep4_value _ _ k Hm).
      eapply returns_mono; [apply (rep4_set_bit t m); [done|lia]|]. intros r Hr'.
      eexists. split; [exact Hr'|]. rewrite length_insert. split; [done|]. intros i Hi.
      rewrite bit_at_insert by lia. destruct (Nat.eqb_spec i k) as [->|].
      + rewrite Hval, Nat.ltb_irrefl by done. by rewrite (proj2 (Nat.ltb_lt _ _)) by lia.
      + rewrite Hval by done. by split_ifs; try lia. }
  intros r (m & Hm & Hlen & Hval). cbn [Nat.add] in Hval. replace (map _ _) with m; [done|].
  apply bit_at_ext; [by rewrite length_map, length_seq|]. intros i Hi. rewrite Hlen in Hi.
  rewrite Hval, bit_at_map_seq by done. by rewrite (proj2 (Nat.ltb_lt _ _)).
Qed.

(** The loops over two vectors of one size. *)
Lemma rep4_loop2 v w l m (g : vvp_bit4_t -> vvp_bit4_t -> vvp_bit4_t) :
  rep4 v l -> rep4 w m -> length m = length l ->
  returns (for_ 0 (length l) (fun idx v => set_bit v idx (g (value v idx) (value w idx))) v)
    (fun r => rep4 r (zip_with g l m)).
Proof.
  intros Hv Hw Hlen. eapply returns_mono; [apply (rep4_loop v l (fun i b => g b (value w i)) Hv)|].
  intros r Hr. replace (zip_with g l m) with (map (fun i => g (bit_at l i) (value w i)) (seq 0 (length l))); [done|].
  apply bit_at_ext; [by rewrite length_zip_with, length_map, length_seq, Hlen, Nat.min_id|].
  intros i Hi. rewrite length_map, length_seq in Hi. rewrite bit_at_map_seq, (rep4_value w m) by done.
  unfold bit_at. rewrite !nth_lookup, lookup_zip_with.
  destruct (lookup_lt_is_Some_2 l i Hi) as [x ->], (lookup_lt_is_Some_2 m i ltac:(lia)) as [y ->]. done.
Qed.

(** *** Parts *)

Lemma rep4_set_vec v w l m adr :
  rep4 v l -> rep4 w m -> (0 < length m)%nat -> (adr + length m <= length l)%nat ->
  returns (set_vec v adr w) (fun r => rep4 (fst r) (splice l adr m)).
Proof.
  intros Hv Hw Hm Ha. pose proof (rep4_size _ _ Hv). pose proof (rep4_size _ _ Hw).
  eapply returns_mono; [apply set_vec_returns; [by apply Hv|by apply Hw|lia|lia]|].
  intros r (H1 & H2 & H3 & _). apply rep4_intro; [done|rewrite length_splice by lia; congruence|].
  intros i _. rewrite H3, bit_at_splice by lia. rewrite (rep4_value _ _ _ Hv), (rep4_value _ _ _ Hw).
  replace (size_ w) with (length m) by done. done.
Qed.

Lemma rep4_subvalue v l adr wid : rep4 v l -> returns (subvalue v adr wid) (fun r => rep4 r (part_at l adr wid)).
Proof.
  intros Hv. eapply returns_mono; [by apply vector4_part_returns, Hv|]. intros r (H1 & H2 & H3).
  apply rep4_intro; [done|by rewrite length_part_at|]. rewrite length_part_at. intros i Hi.
  by rewrite H3, bit_at_part, (rep4_value v l).
Qed.

Lemma rep4_resize v l n pad : rep4 v l -> rep4 (resize v n pad) (take n l ++ replicate (n - length l) pad).
Proof.
  intros Hv. pose proof (rep4_size _ _ Hv) as Hs. destruct (resize_value v n pad (rep4_wf _ _ Hv)) as (H1 & H2 & H3).
  apply rep4_intro; [done|rewrite H2, length_app, length_take, length_replicate; lia|].
  rewrite length_app, length_take, length_replicate. intros i Hi.
  rewrite H3, Hs, bit_at_app, length_take, (rep4_value v l) by (done || lia).
  destruct (Nat.ltb_spec i (length l)).
  - rewrite (proj2 (Nat.ltb_lt _ _)) by lia. by rewrite bit_at_take by lia.
  - rewrite (proj2 (Nat.ltb_ge _ _)) by lia. by rewrite bit_at_replicate by lia.
Qed.

(** *** Operators *)

Lemma rep4_and v w l m : rep4 v l -> rep4 w m -> length m = length l -> rep4 (vector4_and v w) (zip_with bit4_and l m).
Proof.
  intros Hv Hw Hl. pose proof (rep4_size _ _ Hv). pose proof (rep4_size _ _ Hw). destruct Hv as [Hv <-], Hw as [Hw <-].
  destruct (bitwise_op_value _ _ v w and_words_as Hv Hw ltac:(congruence)) as (? & ? & ?). split; [done|].
  by apply zip_with_bits; [congruence|..].
Qed.

Lemma rep4_or v w l m : rep4 v l -> rep4 w m -> length m = length l -> rep4 (vector4_or v w) (zip_with bit4_or l m).
Proof.
  intros Hv Hw Hl. pose proof (rep4_size _ _ Hv). pose proof (rep4_size _ _ Hw). destruct Hv as [Hv <-], Hw as [Hw <-].
  destruct (bitwise_op_value _ _ v w or_words_as Hv Hw ltac:(congruence)) as (? & ? & ?). split; [done|].
  by apply zip_with_bits; [congruence|..].
Qed.

Lemma rep4_invert v l : rep4 v l -> rep4 (invert v) (map bit4_not l).
Proof. intros [Hv <-]. destruct (invert_value v Hv) as (? & ? & ?). split; [done|]. by apply map_bits. Qed.

Lemma rep4_arith (f : vvp_vector4_t -> vvp_vector4_t -> option vvp_vector4_t) op v w l m :
  (wf4 v -> wf4 w -> size_ w = size_ v ->
   returns (f v w) (fun r => wf4 r /\ size_ r = size_ v /\ bits r = bits_arith op (bits v) (bits w))) ->
  rep4 v l -> rep4 w m -> length m = length l -> returns (f v w) (fun r => rep4 r (bits_arith op l m)).
Proof.
  intros Hf Hv Hw Hl. pose proof (rep4_size _ _ Hv). pose proof (rep4_size _ _ Hw). destruct Hv as [Hv <-], Hw as [Hw <-].
  eapply returns_mono; [apply Hf; [done..|congruence]|]. by intros r (? & _ & ?).
Qed.

Lemma rep4_add v w l m : rep4 v l -> rep4 w m -> length m = length l ->
  returns (vector4_add v w) (fun r => rep4 r (bits_arith Z.add l m)).
Proof. apply rep4_arith, vector4_add_spec. Qed.

Lemma rep4_sub v w l m : rep4 v l -> rep4 w m -> length m = length l ->
  returns (vector4_sub v w) (fun r => rep4 r (bits_arith Z.sub l m)).
Proof. apply rep4_arith, vector4_sub_spec. Qed.

Lemma rep4_mul v w l m : rep4 v l -> rep4 w m -> length m = length l ->
  returns (vector4_mul v w) (fun r => rep4 r (bits_arith Z.mul l m)).
Proof. apply rep4_arith, vector4_mul_spec. Qed.

Lemma rep4_eeq v w l m : rep4 v l -> rep4 w m -> eeq v w = bool_decide (l = m).
Proof.
  intros [Hv <-] [Hw <-]. pose proof (eeq_spec v w Hv Hw) as H. case_bool_decide; [by apply H|].
  apply not_true_is_false. by rewrite H.
Qed.

Lemma rep4_has_xz v l : rep4 v l -> (0 < length l)%nat -> has_xz v = list_has_xz l.
Proof. intros Hv Hl. pose proof (rep4_size _ _ Hv). destruct Hv as [Hv <-]. apply has_xz_spec; [done|lia]. Qed.

(** *** Words *)

(** The bits of an array of words. *)
Definition words_bits (ws : list Z) (n : nat) : list vvp_bit4_t := map (fun i => bit4_of_bool (wsbit ws i)) (seq 0 n).

Lemma rep4_setarray v l adr wid ws :
  rep4 v l -> words_ok ws -> (0 < wid)%nat -> (adr + wid <= length l)%nat ->
  returns (setarray v adr wid ws) (fun r => rep4 r (splice l adr (words_bits ws wid))).
Proof.
  intros Hv Hws Hp Ha. pose proof (rep4_size _ _ Hv).
  assert (Hlen : length (words_bits ws wid) = wid) by (unfold words_bits; by rewrite length_map, length_seq).
  eapply returns_mono; [apply setarray_returns; [by apply Hv|done|done|lia]|]. intros r (H1 & H2 & H3).
  apply rep4_intro; [done|rewrite length_splice by (rewrite Hlen; lia); congruence|].
  rewrite length_splice by (rewrite Hlen; lia). intros i Hi. rewrite H3, bit_at_splice, Hlen by (rewrite ?Hlen; lia).
  rewrite (rep4_value v l) by done. destruct ((adr <=? i)%nat && (i <? adr + wid)%nat) eqn:E; [|done].
  apply tb_range in E. unfold words_bits. by rewrite bit_at_map_seq by lia.
Qed.

(** The words of a vector without unknown bits hold its number. *)
Lemma rep4_subarray v l :
  rep4 v l -> (0 < length l)%nat ->
  match subarray v 0 (length l) false with
  | Some ws => list_has_xz l = false /\ length ws = nwords (length l) /\ words_ok ws /\
      wsum (wd ws) (nwords (length l)) = bits_to_Z l
  | None => list_has_xz l = true
  end.
Proof.
  intros Hv Hl. pose proof (rep4_size _ _ Hv) as Hs. pose proof (subarray_spec v 0 (length l) false (rep4_wf _ _ Hv) Hl ltac:(lia)) as H.
  destruct (subarray v 0 (length l) false) as [ws|].
  - destruct H as ((H1 & H2 & H3) & H4). specialize (H4 eq_refl).
    assert (Hx : list_has_xz l = false).
    { apply list_has_xz_at. intros i Hi. rewrite <- (rep4_value v l) by done.
      rewrite value_wsbit by (done || (rewrite Hs; done) || apply Hv). rewrite (H4 i Hi : wsbit (bbits_ v) i = false).
      by destruct (wsbit (abits_ v) i). }
    split; [done|]. split; [done|]. split; [done|].
    rewrite (wsum_of_bits ws _ (bits_to_Z l)); [apply Z.mod_small|done|].
    + pose proof (bits_to_Z_bounds l) as [B1 B2]. split; [done|]. eapply Z.lt_le_trans; [exact B2|].
      apply Z.pow_le_mono_r; [lia|]. pose proof (nwords_spec (length l)). lia.
    + intros i Hi. rewrite H3 by done. destruct Hv as [Hw <-]. rewrite length_bits in *.
      destruct (Nat.ltb_spec i (size_ v)) as [Hi'|Hi'].
      * cbn [andb]. rewrite tb_bits_value by done. rewrite value_wsbit by done. unfold sub_abit.
        cbn [Nat.add]. by destruct (wsbit (abits_ v) i), (wsbit (bbits_ v) i).
      * cbn [andb]. symmetry. rewrite tb_bits_to_Z, bool_decide_eq_false_2; [done|].
        rewrite lookup_ge_None_2 by (rewrite length_bits; lia). done.
  - destruct H as (_ & i & Hi & Hb). apply not_false_is_true. rewrite list_has_xz_at. intros H. specialize (H i Hi).
    rewrite <- (rep4_value v l) in H by done. rewrite value_wsbit in H by (done || (rewrite Hs; done) || apply Hv).
    rewrite (Hb : wsbit (bbits_ v) i = true) in H. by destruct (wsbit (abits_ v) i).
Qed.

#[export] Hint Resolve rep4_fill rep4_resize rep4_and rep4_or rep4_invert : rep4_db.
