(* ===== verification/Strength.v ===== *)
(** * Scalars and vectors with strength ([class vvp_scalar_t], [class vvp_vector8_t])

    A scalar packs into a byte a range of signed drive strengths: the high nibble
    is the end closest to [supply1], the low nibble the end closest to
    [supply0], each a value bit and three bits of strength.  [resolve] combines
    two drivers of a net.  The file gives the resolution its reading on ranges
    and models the vectors of scalars and their conversions. *)

From Stdlib Require Import ZArith Lia Bool Ascii String.
From stdpp Require Import base numbers list.
From S2P Require Import Prelude Bit4 Words Vec4 Vec2.

Open Scope Z_scope.

(** ** Definitions *)

Section word_scope_definitions.
Open Scope word_scope.

(** *** Scalars *)

(** [value_], an [unsigned char]. *)
Definition vvp_scalar_t : Type := Z.

Definition scalar_hiz : vvp_scalar_t := 0.

(** [vvp_scalar_t(val, str0, str1)] *)
Definition scalar_make (val : vvp_bit4_t) (str0 str1 : Z) : option vvp_scalar_t :=
  assert_ (str0 <=? 7);;
  assert_ (str1 <=? 7);;
  Some (if (str0 =? 0) && (str1 =? 0) then 0
        else match val with
             | BIT4_0 => str0 .| (str0 << 4)
             | BIT4_1 => str1 .| (str1 << 4) .| 0x88
             | BIT4_X => str0 .| (str1 << 4) .| 0x80
             | BIT4_Z => 0
             end).

Definition is_hiz (a : vvp_scalar_t) : bool := (a .& 0x77) =? 0.

Definition scalar_value (a : vvp_scalar_t) : vvp_bit4_t :=
  if (a .& 0x77) =? 0 then BIT4_Z
  else match a .& 0x88 with
       | 0x00 => BIT4_0
       | 0x88 => BIT4_1
       | _ => BIT4_X
       end.

(** The macros [UNAMBIG], [STREN1] and [STREN0]. *)
Definition UNAMBIG (v : Z) : bool := (v .& 0x0f) =? ((v >> 4) .& 0x0f).
Definition STREN1 (v : Z) : Z := (v .& 0x70) >> 4.
Definition STREN0 (v : Z) : Z := v .& 0x07.

(** The ambiguous end of [fully_featured_resolv_] for one unambiguous operand
    [a]: each nibble is the stronger one, [b]'s on a tie. *)
Definition sweep_up (a b : vvp_scalar_t) : vvp_scalar_t :=
  let hi := if (b .& 0x70) <? (a .& 0x70) then a .& 0xf0 else b .& 0xf0 in
  let lo := if (b .& 0x07) <? (a .& 0x07) then a .& 0x0f else b .& 0x0f in
  hi .| lo.

(** The signed strengths [sv1] and [sv0] of the two ends. *)
Definition sv1 (a : vvp_scalar_t) : Z := if negb ((a .& 0x80) =? 0) then STREN1 a else - STREN1 a.
Definition sv0 (a : vvp_scalar_t) : Z := if negb ((a .& 0x08) =? 0) then STREN0 a else - STREN0 a.

Definition fully_featured_resolv_ (a b : vvp_scalar_t) : vvp_scalar_t :=
  if UNAMBIG a && UNAMBIG b then
    if (a .& 0x07) <? (b .& 0x07) then b
    else if (b .& 0x77) =? (a .& 0x77) then (a .& 0x77) .| 0x80
    else a
  else if UNAMBIG a then sweep_up a b
  else if UNAMBIG b then sweep_up b a
  else
    let sv1a := sv1 a in let sv0a := sv0 a in
    let sv1b := sv1 b in let sv0b := sv0 b in
    let s1 := sv1a in
    let s0 := sv0a in
    let s1 := if s1 <? sv0a then sv0a else s1 in
    let s1 := if s1 <? sv1b then sv1b else s1 in
    let s1 := if s1 <? sv0b then sv0b else s1 in
    let s0 := if sv1a <? s0 then sv1a else s0 in
    let s0 := if sv1b <? s0 then sv1b else s0 in
    let s0 := if sv0b <? s0 then sv0b else s0 in
    let tmp := if 0 <? s1 then 0x80 .| (s1 << 4) else ((a .& b) .& 0x80) .| ((- s1) << 4) in
    let tmp := if 0 <? s0 then tmp .| 0x08 .| s0 else tmp .| (- s0) in
    let res := tmp .& 0xff in
    if (res .& 0x77) =? 0 then 0 else res.

(** [resolve(vvp_scalar_t, vvp_scalar_t)] *)
Definition resolve (a b : vvp_scalar_t) : vvp_scalar_t :=
  if is_hiz a then b
  else if is_hiz b then a
  else if a =? b then a
  else fully_featured_resolv_ a b.

(** [operator <<(ostream&, vvp_scalar_t)] *)
Definition scalar_print (a : vvp_scalar_t) : list ascii :=
  [ascii_of_N (Z.to_N (48 + STREN0 a)); ascii_of_N (Z.to_N (48 + STREN1 a));
   match scalar_value a with
   | BIT4_0 => "0"%char | BIT4_1 => "1"%char | BIT4_X => "X"%char | BIT4_Z => "Z"%char
   end].

Definition vvp_switch_strength_map (resistive : bool) : list Z :=
  if resistive then [0; 1; 1; 2; 2; 3; 5; 5] else [0; 1; 2; 3; 4; 5; 6; 6].

(** *** Vectors of scalars *)

(** The size of the inline array [val_]. *)
Definition VAL_SIZE : nat := 8.

(** The bytes are [val_], always [VAL_SIZE] of them, for a short vector and the
    array [ptr_] for a longer one. *)
Record vvp_vector8_t := mk_vector8 { size8_ : nat; bytes_ : list vvp_scalar_t }.

Definition store_size (size : nat) : nat := if (size <=? VAL_SIZE)%nat then VAL_SIZE else size.

Definition wf8 (v : vvp_vector8_t) : Prop :=
  length (bytes_ v) = store_size (size8_ v) /\
  forall i, (size8_ v <= i)%nat -> nth i (bytes_ v) 0 = 0.

(** [vvp_vector8_t(unsigned size)] *)
Definition vector8_make (size : nat) : vvp_vector8_t := mk_vector8 size (replicate (store_size size) 0).

Definition value8 (v : vvp_vector8_t) (idx : nat) : option vvp_scalar_t :=
  assert_ (idx <? size8_ v)%nat;;
  Some (nth idx (bytes_ v) 0).

Definition set_bit8 (v : vvp_vector8_t) (idx : nat) (val : vvp_scalar_t) : option vvp_vector8_t :=
  assert_ (idx <? size8_ v)%nat;;
  Some (mk_vector8 (size8_ v) (<[idx := val]> (bytes_ v))).

(** [vvp_vector8_t(const vvp_vector4_t&, str0, str1)]: the prefilled bytes, and
    one byte per bit. *)
Definition vector8_of_vector4 (that : vvp_vector4_t) (str0 str1 : Z) : option vvp_vector8_t :=
  for_ 0 (size_ that) (fun idx v =>
      s ← scalar_make (value that idx) str0 str1;
      Some (mk_vector8 (size8_ v) (<[idx := s]> (bytes_ v))))
    (vector8_make (size_ that)).

(** [vvp_vector8_t(const vvp_vector2_t&, str0, str1)] *)
Definition vector8_of_vector2 (that : vvp_vector2_t) (str0 str1 : Z) : option vvp_vector8_t :=
  for_ 0 (wid_ that) (fun idx v =>
      s ← scalar_make (if vector2_value that idx then BIT4_1 else BIT4_0) str0 str1;
      Some (mk_vector8 (size8_ v) (<[idx := s]> (bytes_ v))))
    (vector8_make (wid_ that)).

(** The copy constructor and [operator =]. *)
Definition vector8_copy (that : vvp_vector8_t) : vvp_vector8_t :=
  mk_vector8 (size8_ that) (take (store_size (size8_ that)) (bytes_ that)).

Definition eeq8 (v that : vvp_vector8_t) : bool :=
  if negb (size8_ v =? size8_ that)%nat then false
  else if (size8_ v =? 0)%nat then true
  else if (size8_ v <=? VAL_SIZE)%nat
  then forallb (fun i => nth i (bytes_ v) 0 =? nth i (bytes_ that) 0) (seq 0 VAL_SIZE)
  else forallb (fun i => nth i (bytes_ v) 0 =? nth i (bytes_ that) 0) (seq 0 (size8_ v)).

(** [subvalue(base, wid)]: the loop [while (idx < wid && base + idx < size_)]. *)
Definition subvalue8 (v : vvp_vector8_t) (base wid : nat) : vvp_vector8_t :=
  let tmp := vector8_make wid in
  mk_vector8 wid
    (loop_ 0 (Nat.min wid (size8_ v - base)) (fun idx t => <[idx := nth (base + idx) (bytes_ v) 0]> t) (bytes_ tmp)).

Definition set_vec8 (v : vvp_vector8_t) (base : nat) (that : vvp_vector8_t) : option vvp_vector8_t :=
  assert_ (base + size8_ that <=? size8_ v)%nat;;
  for_ 0 (size8_ that) (fun idx v => s ← value8 that idx; set_bit8 v (base + idx) s) v.

(** [part_expand(that, wid, off)] *)
Definition part_expand (that : vvp_vector8_t) (wid off : nat) : option vvp_vector8_t :=
  assert_ (off <? wid)%nat;;
  let tmp := vector8_make wid in
  Some (mk_vector8 wid
    (loop_ off (Nat.min (wid - off) (size8_ that)) (fun idx t => <[idx := nth (idx - off) (bytes_ that) 0]> t)
       (bytes_ tmp))).

(** [resolve(const vvp_vector8_t&, const vvp_vector8_t&)] *)
Definition resolve8 (a b : vvp_vector8_t) : option vvp_vector8_t :=
  assert_ (size8_ a =? size8_ b)%nat;;
  for_ 0 (size8_ a) (fun idx out =>
    x ← value8 a idx; y ← value8 b idx; set_bit8 out idx (resolve x y)) (vector8_make (size8_ a)).

(** [reduce4] *)
Definition reduce4 (that : vvp_vector8_t) : option vvp_vector4_t :=
  for_ 0 (size8_ that) (fun idx out => s ← value8 that idx; set_bit out idx (scalar_value s))
    (vector4_fill (size8_ that) BIT4_X).

(** *** C8 strings *)

(** The loop of [c8string_test] over the characters after [C8<]. *)
Fixpoint c8_chars_ok (cp : list ascii) : bool :=
  match cp with
  | [] => false
  | c :: rest =>
      if Ascii.eqb c ">" && (match rest with [] => true | _ => false end) then true
      else if ((48 <=? N_of_ascii c) && (N_of_ascii c <=? 57))%N then c8_chars_ok rest
      else if Ascii.eqb c "x" then c8_chars_ok rest
      else if Ascii.eqb c "z" then c8_chars_ok rest
      else false
  end.

(** [c8string_test]; the string is the list of its characters. *)
Definition c8string_test (str : list ascii) : bool :=
  match str with
  | c0 :: c1 :: c2 :: cp => Ascii.eqb c0 "C" && Ascii.eqb c1 "8" && Ascii.eqb c2 "<" && c8_chars_ok cp
  | _ => false
  end.

(** [cp[0] - '0'] as an [unsigned]. *)
Definition c8_digit (c : ascii) : Z := (Z.of_N (N_of_ascii c) - 48) mod 2 ^ 32.

(** The [switch]: any other character leaves the initial [BIT4_X]. *)
Definition c8_bit (c : ascii) : vvp_bit4_t :=
  if Ascii.eqb c "0" then BIT4_0 else if Ascii.eqb c "1" then BIT4_1
  else if Ascii.eqb c "x" then BIT4_X else if Ascii.eqb c "z" then BIT4_Z else BIT4_X.

(** The string has passed [c8string_test]: it has at least four characters. *)
Definition c8string_to_vector8 (str : list ascii) : option vvp_vector8_t :=
  let vsize := (length str - 4)%nat in
  assert_ (vsize mod 3 =? 0)%nat;;
  let vsize := (vsize / 3)%nat in
  for_ 0 vsize (fun idx tmp =>
      let cp := drop (3 + 3 * idx) str in
      s ← scalar_make (c8_bit (nth 2 cp zero)) (c8_digit (nth 0 cp zero)) (c8_digit (nth 1 cp zero));
      set_bit8 tmp (vsize - idx - 1) s)
    (vector8_make vsize).

(** [operator <<(ostream&, const vvp_vector8_t&)] *)
Definition vector8_print (that : vvp_vector8_t) : list ascii :=
  ["C"; "8"; "<"]%char ++
  concat (map (fun idx => scalar_print (nth (size8_ that - idx - 1) (bytes_ that) 0)) (seq 0 (size8_ that))) ++
  [">"]%char.

(** *** Reference semantics *)

(** The scalars that drivers and resolution produce: the range is not empty, and
    an unambiguous scalar has one strength. *)
Definition scalar_ok (a : vvp_scalar_t) : Prop := 0 <= a < 256 /\ sv0 a <= sv1 a.

(** The bits of a vector. *)
Definition bits8 (v : vvp_vector8_t) : list vvp_scalar_t := take (size8_ v) (bytes_ v).

(** The range of signed strengths of a scalar: negative towards 0. *)
Definition range_of (a : vvp_scalar_t) : Z * Z := (sv0 a, sv1 a).

(** One end of an ambiguous range swept by an unambiguous strength [s]. *)
Definition sweep_end (s e : Z) : Z := if Z.abs e <? Z.abs s then s else e.

(** Resolution on ranges: of two sure values the stronger wins, and equal
    strengths of opposite values span the range between them; a sure value
    sweeps up the weaker ends of an unsure one; two unsure values give the
    smallest range that holds both. *)
Definition resolve_range (a b : Z * Z) : Z * Z :=
  if (fst a =? snd a) && (fst b =? snd b) then
    if Z.abs (fst a) <? Z.abs (fst b) then b
    else if Z.abs (fst b) <? Z.abs (fst a) then a
    else (Z.min (fst a) (fst b), Z.max (snd a) (snd b))
  else if fst a =? snd a then (sweep_end (fst a) (fst b), sweep_end (fst a) (snd b))
  else if fst b =? snd b then (sweep_end (fst b) (fst a), sweep_end (fst b) (snd a))
  else (Z.min (fst a) (fst b), Z.max (snd a) (snd b)).

End word_scope_definitions.

(** ** Lemmas *)

(** *** Scalars, by exhaustion of the byte *)

Lemma byte_all (p : Z -> bool) :
  forallb (fun n => p (Z.of_nat n)) (seq 0 256) = true -> forall a, 0 <= a < 256 -> p a = true.
Proof.
  intros H a Ha. rewrite forallb_forall in H. specialize (H (Z.to_nat a)).
  rewrite Z2Nat.id in H by lia. apply H. apply in_seq. lia.
Qed.

Lemma byte_all2 (p : Z -> Z -> bool) :
  forallb (fun n => forallb (fun m => p (Z.of_nat n) (Z.of_nat m)) (seq 0 256)) (seq 0 256) = true ->
  forall a b, 0 <= a < 256 -> 0 <= b < 256 -> p a b = true.
Proof.
  intros H a b Ha Hb. revert b Hb. apply byte_all.
  apply (byte_all (fun a => forallb (fun m => p a (Z.of_nat m)) (seq 0 256))); done.
Qed.

Definition range_eqb (x y : Z * Z) : bool := (fst x =? fst y) && (snd x =? snd y).

Lemma range_eqb_eq x y : range_eqb x y = true -> x = y.
Proof.
  destruct x, y. unfold range_eqb. rewrite andb_true_iff, !Z.eqb_eq. simpl. by intros [-> ->].
Qed.

(** What the exhaustion checks of a pair of scalars. *)
Definition resolve_check (a b : Z) : bool :=
  if (sv0 a <=? sv1 a) && (sv0 b <=? sv1 b) then
    let r := resolve a b in
    (0 <=? r) && (r <? 256) && (sv0 r <=? sv1 r) && ((is_hiz a && is_hiz b) || (r =? resolve b a)) &&
    range_eqb (range_of r)
      (if is_hiz a then range_of b else if is_hiz b then range_of a
       else resolve_range (range_of a) (range_of b))
  else true.

Lemma resolve_check_all a b : 0 <= a < 256 -> 0 <= b < 256 -> resolve_check a b = true.
Proof. apply byte_all2. by vm_compute. Qed.

Lemma resolve_spec a b :
  scalar_ok a -> scalar_ok b ->
  scalar_ok (resolve a b) /\ (is_hiz a && is_hiz b = false -> resolve a b = resolve b a) /\
  range_of (resolve a b) =
    (if is_hiz a then range_of b else if is_hiz b then range_of a
     else resolve_range (range_of a) (range_of b)).
Proof.
  intros [Ha Va] [Hb Vb]. pose proof (resolve_check_all a b Ha Hb) as H. unfold resolve_check in H.
  rewrite (proj2 (Z.leb_le _ _) Va), (proj2 (Z.leb_le _ _) Vb) in H. cbn [andb] in H. cbv zeta in H.
  repeat (apply andb_true_iff in H as [H ?]). rewrite ?Z.leb_le, ?Z.ltb_lt in *.
  split; [split; lia|]. split; [|by apply range_eqb_eq]. intros Hz. rewrite Hz in *. by apply Z.eqb_eq.
Qed.

(** The unambiguous scalars. *)
Definition make_check (n m : Z) : bool :=
  implb ((n <=? 7) && (m <=? 7))
    (forallb (fun b => match scalar_make b n m with
       | Some s => (0 <=? s) && (s <? 256) && (sv0 s <=? sv1 s) &&
           bit4_eqb (scalar_value s)
             (if (match b with BIT4_0 => n | BIT4_1 => m | _ => 1 end =? 0) || ((n =? 0) && (m =? 0))
              then BIT4_Z else b) &&
           range_eqb (range_of s) (if (n =? 0) && (m =? 0) then (0, 0) else
             match b with BIT4_0 => (- n, - n) | BIT4_1 => (m, m) | BIT4_X => (- n, m) | BIT4_Z => (0, 0) end)
       | None => false end) [BIT4_0; BIT4_1; BIT4_X; BIT4_Z]).

Lemma scalar_make_spec b n m :
  0 <= n <= 7 -> 0 <= m <= 7 ->
  returns (scalar_make b n m) (fun s => scalar_ok s /\ (0 < n -> 0 < m -> scalar_value s = b) /\
    range_of s = if (n =? 0) && (m =? 0) then (0, 0) else
      match b with BIT4_0 => (- n, - n) | BIT4_1 => (m, m) | BIT4_X => (- n, m) | BIT4_Z => (0, 0) end).
Proof.
  intros Hn Hm. assert (make_check n m = true) as H.
  { apply (byte_all2 make_check); [by vm_compute|lia|lia]. }
  unfold make_check in H. rewrite (proj2 (Z.leb_le n 7)), (proj2 (Z.leb_le m 7)) in H by lia.
  cbn [andb implb] in H. rewrite forallb_forall in H. specialize (H b ltac:(destruct b; simpl; tauto)).
  destruct (scalar_make b n m) as [s|]; [|done]. exists s. split; [done|].
  repeat (apply andb_true_iff in H as [H ?]). rewrite ?Z.leb_le, ?Z.ltb_lt in *.
  split; [split; lia|]. split; [|by apply range_eqb_eq].
  intros Hn0 Hm0. destruct (bit4_eqb_spec (scalar_value s)
    (if (match b with BIT4_0 => n | BIT4_1 => m | _ => 1 end =? 0) || ((n =? 0) && (m =? 0)) then BIT4_Z else b))
    as [E|]; [|done].
  rewrite E, (proj2 (Z.eqb_neq n 0)), (proj2 (Z.eqb_neq m 0)) by lia. cbn [andb orb].
  destruct b; try done; by rewrite (proj2 (Z.eqb_neq _ 0)) by lia.
Qed.

(** *** Vectors *)

Lemma store_size_le n : (n <= store_size n)%nat.
Proof. unfold store_size. destruct (Nat.leb_spec n VAL_SIZE); lia. Qed.

Lemma vector8_make_wf n : wf8 (vector8_make n).
Proof.
  split; simpl; [apply length_replicate|]. intros i _. change (wd (replicate (store_size n) 0) i = 0).
  rewrite wd_replicate. by destruct (_ <? _)%nat.
Qed.

Lemma nth_insert (l : list Z) k x i :
  (k < length l)%nat -> nth i (<[k := x]> l) 0 = if (i =? k)%nat then x else nth i l 0.
Proof.
  intros Hk. rewrite !nth_lookup. destruct (Nat.eqb_spec i k) as [->|].
  - by rewrite list_lookup_insert_eq.
  - by rewrite list_lookup_insert_ne.
Qed.

(** A loop that assigns bytes [0 .. n) of a vector. *)
Definition assigned (n : nat) (f : nat -> Z) (j : nat) (v : vvp_vector8_t) : Prop :=
  wf8 v /\ size8_ v = n /\ forall i, (i < n)%nat -> nth i (bytes_ v) 0 = if (i <? j)%nat then f i else 0.

Lemma assigned_init n f : assigned n f 0 (vector8_make n).
Proof.
  split; [apply vector8_make_wf|]. split; [done|]. intros i Hi. rewrite (proj2 (Nat.ltb_ge i 0)) by lia.
  change (wd (replicate (store_size n) 0) i = 0). rewrite wd_replicate. by destruct (_ <? _)%nat.
Qed.

Lemma assigned_step n f j v :
  assigned n f j v -> (j < n)%nat -> assigned n f (S j) (mk_vector8 (size8_ v) (<[j := f j]> (bytes_ v))).
Proof.
  intros ([Hl Hz] & Hs & Hb) Hj. pose proof (store_size_le n) as Hst.
  assert (j < length (bytes_ v))%nat as Hjl by (rewrite Hl, Hs; lia).
  split; [split|].
  - simpl. by rewrite length_insert.
  - simpl. intros i Hi. rewrite nth_insert by done. rewrite (proj2 (Nat.eqb_neq i j)) by lia. by apply Hz.
  - split; [done|]. simpl. intros i Hi. rewrite nth_insert by done.
    destruct (Nat.eqb_spec i j) as [->|]; [by rewrite (proj2 (Nat.ltb_lt j (S j))) by lia|].
    rewrite Hb by done. split_ifs; done || lia.
Qed.

Lemma assigned_nth n f v i : assigned n f n v -> (i < n)%nat -> nth i (bytes_ v) 0 = f i.
Proof. intros (_ & _ & Hb) Hi. rewrite Hb by done. by rewrite (proj2 (Nat.ltb_lt i n)). Qed.

Lemma value8_spec v i : (i < size8_ v)%nat -> value8 v i = Some (nth i (bytes_ v) 0).
Proof. intros H. unfold value8. by rewrite (proj2 (Nat.ltb_lt i _)). Qed.

(** The byte of a driven bit. *)
Definition drive_byte (b : vvp_bit4_t) (s0 s1 : Z) : Z := match scalar_make b s0 s1 with Some s => s | None => 0 end.

Lemma scalar_make_some b n m : 0 <= n <= 7 -> 0 <= m <= 7 -> scalar_make b n m = Some (drive_byte b n m).
Proof.
  intros Hn Hm. destruct (scalar_make_spec b n m Hn Hm) as (s & E & _). unfold drive_byte. by rewrite E.
Qed.

Lemma vector8_of_vector4_spec v s0 s1 :
  0 <= s0 <= 7 -> 0 <= s1 <= 7 ->
  returns (vector8_of_vector4 v s0 s1) (assigned (size_ v) (fun i => drive_byte (value v i) s0 s1) (size_ v)).
Proof.
  intros H0 H1. unfold vector8_of_vector4.
  apply (returns_for (assigned (size_ v) (fun i => drive_byte (value v i) s0 s1))); [apply assigned_init|].
  intros k t Hk Ht. rewrite scalar_make_some by done. apply returns_ret. apply assigned_step; [done|lia].
Qed.

Lemma reduce4_spec v :
  returns (reduce4 v) (fun r => wf4 r /\ size_ r = size8_ v /\
    forall i, (i < size8_ v)%nat -> value r i = scalar_value (nth i (bytes_ v) 0)).
Proof.
  unfold reduce4. eapply returns_mono.
  - apply (returns_for (fun j r => wf4 r /\ size_ r = size8_ v /\
      forall i, (i < j)%nat -> value r i = scalar_value (nth i (bytes_ v) 0))).
    + split; [apply fill_wf|]. split; [apply size_fill|]. intros i Hi. lia.
    + intros k t Hk (Ht & Hs & Hb). rewrite value8_spec by lia. cbn [mbind option_bind].
      eapply returns_mono; [apply set_bit_returns; [done|lia]|]. intros r (Hr & Hsr & Hbr).
      split; [done|]. split; [congruence|]. intros i Hi. rewrite Hbr.
      destruct (Nat.eqb_spec i k) as [->|]; [done|]. apply Hb. lia.
  - intros r (Hr & Hs & Hb). split; [done|]. split; [done|]. intros i Hi. apply Hb. lia.
Qed.

Lemma resolve8_spec a b :
  size8_ a = size8_ b ->
  returns (resolve8 a b)
    (assigned (size8_ a) (fun i => resolve (nth i (bytes_ a) 0) (nth i (bytes_ b) 0)) (size8_ a)).
Proof.
  intros Hs. unfold resolve8. apply returns_assert; [by apply Nat.eqb_eq|].
  apply (returns_for (assigned (size8_ a) (fun i => resolve (nth i (bytes_ a) 0) (nth i (bytes_ b) 0))));
    [apply assigned_init|].
  intros k t Hk Ht. rewrite !value8_spec by lia. cbn [mbind option_bind]. unfold set_bit8.
  pose proof Ht as (_ & Hst & _). apply returns_assert; [apply Nat.ltb_lt; lia|]. apply returns_ret.
  apply (assigned_step _ _ k t Ht). lia.
Qed.

Lemma length_bits8 v : wf8 v -> length (bits8 v) = size8_ v.
Proof. intros [Hl _]. unfold bits8. pose proof (store_size_le (size8_ v)). rewrite length_take. lia. Qed.

Lemma lookup_bits8 v i : wf8 v -> (i < size8_ v)%nat -> bits8 v !! i = Some (nth i (bytes_ v) 0).
Proof.
  intros [Hl _] Hi. unfold bits8. rewrite lookup_take_lt by done. pose proof (store_size_le (size8_ v)).
  destruct (bytes_ v !! i) eqn:E; [by rewrite nth_lookup, E|]. apply lookup_ge_None in E. lia.
Qed.

Lemma bits8_eq v l :
  wf8 v -> size8_ v = length l -> (forall i, (i < size8_ v)%nat -> l !! i = Some (nth i (bytes_ v) 0)) ->
  bits8 v = l.
Proof.
  intros Hv Hl H. apply list_eq_same_length with (size8_ v); [done|by apply length_bits8|].
  intros i x y Hi. rewrite lookup_bits8, H by done. congruence.
Qed.

Lemma assigned_bits n f v : assigned n f n v -> bits8 v = map f (seq 0 n).
Proof.
  intros Ha. pose proof Ha as (Hv & Hs & _). apply bits8_eq; [done|by rewrite length_map, length_seq|].
  rewrite Hs. intros i Hi. by rewrite lookup_map_seq, (assigned_nth n f).
Qed.

Lemma eeq8_spec a b : wf8 a -> wf8 b -> eeq8 a b = bool_decide (bits8 a = bits8 b).
Proof.
  intros Ha Hb. unfold eeq8. destruct (Nat.eqb_spec (size8_ a) (size8_ b)) as [Hs|Hs]; cbn [negb].
  2:{ symmetry. apply bool_decide_eq_false. intros E. apply Hs.
      by rewrite <- (length_bits8 a), <- (length_bits8 b), E. }
  assert (Hall : forall n, (size8_ a <= n)%nat ->
    forallb (fun i => nth i (bytes_ a) 0 =? nth i (bytes_ b) 0) (seq 0 n) = bool_decide (bits8 a = bits8 b)).
  { intros n Hn. apply eq_bool_prop_intro. rewrite !Is_true_true, bool_decide_eq_true, forallb_seq.
    split.
    - intros H. apply bits8_eq; [done|by rewrite length_bits8|]. intros i Hi.
      rewrite lookup_bits8 by (done || lia). f_equal. symmetry. apply Z.eqb_eq, H. lia.
    - intros E k Hk. apply Z.eqb_eq. destruct (Nat.lt_ge_cases k (size8_ a)).
      + pose proof (lookup_bits8 a k Ha ltac:(lia)) as H1. pose proof (lookup_bits8 b k Hb ltac:(lia)) as H2.
        rewrite E in H1. congruence.
      + destruct Ha as [_ Za], Hb as [_ Zb]. by rewrite Za, Zb by lia. }
  destruct (Nat.eqb_spec (size8_ a) 0) as [E0|]; [by rewrite <- (Hall 0%nat) by lia|].
  destruct (Nat.leb_spec (size8_ a) VAL_SIZE); by apply Hall.
Qed.

(** *** C8 strings *)

(** A byte that a driver can make. *)
Definition driven (s : vvp_scalar_t) : Prop :=
  exists b n m, 0 <= n <= 7 /\ 0 <= m <= 7 /\ scalar_make b n m = Some s.

Definition parse_bit (cs : list ascii) : option vvp_scalar_t :=
  scalar_make (c8_bit (nth 2 cs zero)) (c8_digit (nth 0 cs zero)) (c8_digit (nth 1 cs zero)).

Definition print_check (n m : Z) : bool :=
  implb ((n <=? 7) && (m <=? 7))
    (forallb (fun b => match scalar_make b n m with
       | Some s => match parse_bit (scalar_print s) with
                   | Some s' => (s =? s') || is_hiz s && is_hiz s'
                   | None => false end
       | None => false end) [BIT4_0; BIT4_1; BIT4_X; BIT4_Z]).

Lemma parse_print_bit s :
  driven s -> exists s', parse_bit (scalar_print s) = Some s' /\ (s' = s \/ is_hiz s = true /\ is_hiz s' = true).
Proof.
  intros (b & n & m & Hn & Hm & Hs). assert (print_check n m = true) as H.
  { apply (byte_all2 print_check); [by vm_compute|lia|lia]. }
  unfold print_check in H. rewrite (proj2 (Z.leb_le n 7)), (proj2 (Z.leb_le m 7)) in H by lia.
  cbn [andb implb] in H. rewrite forallb_forall in H. specialize (H b ltac:(destruct b; simpl; tauto)).
  rewrite Hs in H. destruct (parse_bit (scalar_print s)) as [s'|]; [|done]. exists s'. split; [done|].
  apply orb_true_iff in H as [H|H]; [left; symmetry; by apply Z.eqb_eq|right; by apply andb_true_iff].
Qed.

Lemma length_scalar_print s : length (scalar_print s) = 3%nat.
Proof. done. Qed.

Lemma drop_triples (f : nat -> vvp_scalar_t) r n i k :
  (i < n)%nat -> exists t,
  drop (3 * i) (concat (map (fun j => scalar_print (f j)) (seq k n)) ++ r) = scalar_print (f (k + i)%nat) ++ t.
Proof.
  revert i k. induction n as [|n IH]; intros i k Hi; [lia|]. cbn [seq map concat].
  rewrite <- (assoc_L (++)). destruct i as [|i].
  - rewrite Nat.add_0_r. eexists. reflexivity.
  - replace (3 * S i)%nat with (length (scalar_print (f k)) + 3 * i)%nat by (rewrite length_scalar_print; lia).
    rewrite drop_app_add. destruct (IH i (S k) ltac:(lia)) as [t ->]. exists t.
    by replace (k + S i)%nat with (S k + i)%nat by lia.
Qed.

Lemma length_triples (f : nat -> vvp_scalar_t) n k :
  length (concat (map (fun j => scalar_print (f j)) (seq k n))) = (3 * n)%nat.
Proof.
  revert k. induction n as [|n IH]; intros k; [done|]. cbn [seq map concat].
  rewrite length_app, IH, length_scalar_print. lia.
Qed.

(** The byte read back: a high impedance byte loses its encoding. *)
Lemma c8string_roundtrip_spec v :
  wf8 v -> (forall i, (i < size8_ v)%nat -> driven (nth i (bytes_ v) 0)) ->
  returns (c8string_to_vector8 (vector8_print v)) (fun r => wf8 r /\ size8_ r = size8_ v /\
    forall i, (i < size8_ v)%nat -> nth i (bytes_ r) 0 = nth i (bytes_ v) 0 \/
      is_hiz (nth i (bytes_ v) 0) = true /\ is_hiz (nth i (bytes_ r) 0) = true).
Proof.
  intros Hv Hd. set (n := size8_ v) in *. unfold c8string_to_vector8.
  assert (length (vector8_print v) - 4 = 3 * n)%nat as ->.
  { unfold vector8_print. rewrite !length_app.
    rewrite (length_triples (fun idx => nth (size8_ v - idx - 1) (bytes_ v) 0)). fold n. simpl length. lia. }
  assert ((3 * n) / 3 = n /\ (3 * n) mod 3 = 0)%nat as [-> ->] by dlia.
  apply returns_assert; [done|].
  set (good := fun (t : vvp_vector8_t) i => nth i (bytes_ t) 0 = nth i (bytes_ v) 0 \/
    is_hiz (nth i (bytes_ v) 0) = true /\ is_hiz (nth i (bytes_ t) 0) = true).
  eapply returns_mono.
  - apply (returns_for (fun j t => wf8 t /\ size8_ t = n /\
      forall i, (n - j <= i < n)%nat -> good t i)).
    + split; [apply vector8_make_wf|]. split; [done|]. intros i Hi. lia.
    + intros k t Hk (Ht & Hs & Hb).
      assert (exists tl, drop (3 + 3 * k) (vector8_print v) = scalar_print (nth (n - k - 1) (bytes_ v) 0) ++ tl)
        as [tl Hdrop].
      { unfold vector8_print. change (3 + 3 * k)%nat with (length ["C"; "8"; "<"]%char + 3 * k)%nat.
        rewrite drop_app_add.
        destruct (drop_triples (fun idx => nth (size8_ v - idx - 1) (bytes_ v) 0) [">"%char] n k 0) as [tl E]; [lia|].
        exists tl. exact E. }
      rewrite Hdrop. destruct (parse_print_bit (nth (n - k - 1) (bytes_ v) 0)) as (s' & Hp & Hs'); [apply Hd; lia|].
      change (nth 2 (scalar_print ?s ++ tl) zero) with (nth 2 (scalar_print s) zero).
      change (nth 1 (scalar_print ?s ++ tl) zero) with (nth 1 (scalar_print s) zero).
      change (nth 0 (scalar_print ?s ++ tl) zero) with (nth 0 (scalar_print s) zero).
      unfold parse_bit in Hp. rewrite Hp. cbn [mbind option_bind]. unfold set_bit8.
      apply returns_assert; [apply Nat.ltb_lt; lia|]. apply returns_ret.
      pose proof Ht as [Hl Hz]. pose proof (store_size_le (size8_ t)) as Hst.
      assert (n - k - 1 < length (bytes_ t))%nat as Hlt by (rewrite Hl; lia).
      split; [split; simpl; [by rewrite length_insert|]|split; [done|]].
      * intros i Hi. rewrite nth_insert by done. rewrite (proj2 (Nat.eqb_neq i _)) by lia. by apply Hz.
      * intros i Hi. unfold good. simpl. rewrite nth_insert by done.
        destruct (Nat.eqb_spec i (n - k - 1)) as [->|]; [done|]. apply Hb. lia.
  - intros r (Hr & Hs & Hb). split; [done|]. split; [done|]. intros i Hi. apply Hb. lia.
Qed.

(** ** Properties *)

(** C35: Resolution of two drivers reads as an operation on ranges of signed
    strengths: high impedance is the neutral element, of two sure values the
    stronger wins and equal opposite ones span the range between them, a sure
    value sweeps up the weaker ends of an unsure one, and two unsure values
    give the smallest range that holds both.  The result is again a well-formed
    scalar and resolution is commutative. *)
Theorem resolve_ranges a b :
  scalar_ok a -> scalar_ok b ->
  scalar_ok (resolve a b) /\ resolve a a = a /\
  (is_hiz a && is_hiz b = false -> resolve a b = resolve b a) /\
  range_of (resolve a b) =
    (if is_hiz a then range_of b else if is_hiz b then range_of a
     else resolve_range (range_of a) (range_of b)).
Proof.
  intros Ha Hb. destruct (resolve_spec a b Ha Hb) as (H1 & H2 & H3).
  split; [done|]. split; [|done]. unfold resolve. rewrite Z.eqb_refl. by destruct (is_hiz a).
Qed.

Lemma resolve_ranges_witness :
  range_of (resolve 0x66 0xbb) = (-6, -6).
Proof.
  assert (forall a, 0 <= a < 256 -> (sv0 a <=? sv1 a) = true -> scalar_ok a) as Hok.
  { intros a Ha Hv. split; [done|by apply Z.leb_le]. }
  rewrite (proj2 (proj2 (proj2 (resolve_ranges 0x66 0xbb (Hok 0x66 ltac:(lia) ltac:(by vm_compute))
    (Hok 0xbb ltac:(lia) ltac:(by vm_compute)))))). by vm_compute.
Defined.

(** Resolution of vectors is bitwise; a vector driven at nonzero strengths
    gives back its bits when the strengths are reduced away; and the exact
    comparison of two vectors, inline or allocated, decides the equality of
    their scalars. *)
Theorem vector8_ops a b v str0 str1 :
  wf8 a -> wf8 b -> size8_ a = size8_ b -> 1 <= str0 <= 7 -> 1 <= str1 <= 7 ->
  returns (resolve8 a b) (fun r => wf8 r /\ bits8 r = zip_with resolve (bits8 a) (bits8 b)) /\
  returns (d ← vector8_of_vector4 v str0 str1; reduce4 d) (fun r => wf4 r /\ bits r = bits v) /\
  eeq8 a b = bool_decide (bits8 a = bits8 b).
Proof.
  intros Ha Hb Hs H0 H1. split_and!; [| |by apply eeq8_spec].
  - eapply returns_mono; [by apply resolve8_spec|]. intros r Hr. split; [apply Hr|].
    rewrite (assigned_bits _ _ _ Hr). apply list_eq_same_length with (size8_ a).
    + rewrite length_zip_with, !length_bits8 by done. lia.
    + by rewrite length_map, length_seq.
    + intros i x y Hi. rewrite lookup_map_seq by done. rewrite lookup_zip_with.
      rewrite !lookup_bits8 by (done || lia). simpl. congruence.
  - eapply returns_bind; [apply vector8_of_vector4_spec; lia|]. intros d Hd.
    pose proof Hd as (_ & Hsd & _). eapply returns_mono; [apply reduce4_spec|].
    intros r (Hr & Hsr & Hbr). split; [done|]. apply bits_eq_list; [by rewrite length_bits, Hsr|].
    rewrite Hsr, Hsd. intros i Hi. rewrite lookup_bits, Hbr by lia. f_equal.
    rewrite (assigned_nth _ _ _ _ Hd Hi).
    destruct (scalar_make_spec (value v i) str0 str1 ltac:(lia) ltac:(lia)) as (s & E & _ & Hval & _).
    unfold drive_byte. rewrite E. symmetry. apply Hval; lia.
Qed.

Lemma vector8_ops_witness :
  returns (d ← vector8_of_vector4 (mk_vector4 4 [10] [12]) 6 6; reduce4 d)
    (fun r => wf4 r /\ bits r = [BIT4_0; BIT4_1; BIT4_Z; BIT4_X]).
Proof.
  exact (proj1 (proj2 (vector8_ops (vector8_make 3) (vector8_make 3) (mk_vector4 4 [10] [12]) 6 6
    (vector8_make_wf 3) (vector8_make_wf 3) eq_refl ltac:(lia) ltac:(lia)))).
Defined.

(** A vector of driven scalars survives printing as a C8 string and parsing
    it back, up to the encoding of high impedance bits. *)
Theorem c8string_roundtrip v :
  wf8 v -> (forall i, (i < size8_ v)%nat -> driven (nth i (bytes_ v) 0)) ->
  returns (c8string_to_vector8 (vector8_print v)) (fun r => size8_ r = size8_ v /\
    forall i, (i < size8_ v)%nat -> nth i (bytes_ r) 0 = nth i (bytes_ v) 0 \/
      is_hiz (nth i (bytes_ v) 0) = true /\ is_hiz (nth i (bytes_ r) 0) = true).
Proof.
  intros Hv Hd. eapply returns_mono; [by apply c8string_roundtrip_spec|]. by intros r (_ & ? & ?).
Qed.

Lemma c8string_roundtrip_witness :
  let v := mk_vector8 2 [0x66; 0xdd; 0; 0; 0; 0; 0; 0] in
  returns (c8string_to_vector8 (vector8_print v)) (fun r => size8_ r = 2%nat /\
    forall i, (i < 2)%nat -> nth i (bytes_ r) 0 = nth i (bytes_ v) 0 \/
      is_hiz (nth i (bytes_ v) 0) = true /\ is_hiz (nth i (bytes_ r) 0) = true).
Proof.
  refine (c8string_roundtrip (mk_vector8 2 [0x66; 0xdd; 0; 0; 0; 0; 0; 0]) _ _).
  - split; [done|]. intros i Hi. do 8 (destruct i as [|i]; [simpl in *; done || lia|]). by destruct i.
  - intros [|[|i]] Hi; [|  |simpl in Hi; lia].
    + exists BIT4_0, 6, 6. split; [lia|]. split; [lia|]. by vm_compute.
    + exists BIT4_1, 5, 5. split; [lia|]. split; [lia|]. by vm_compute.
Defined.

(** A printed vector with an unknown bit is not recognised as a C8 string: the
    letter is printed in upper case and tested in lower case. *)
Lemma printed_x_not_recognised :
  c8string_test (vector8_print (mk_vector8 1 [0xe6; 0; 0; 0; 0; 0; 0; 0])) = false.
Proof. by vm_compute. Qed.
