(* ===== verification/Net.v ===== *)
(** * The netlist: fan-out lists and propagation ([class vvp_net_t])

    A net has four input ports, an output pointer and a functor.  The fan-out of
    a net is a linked list threaded through the ports of its receivers: the
    output points to a port, and the cell of that port points to the next one.
    The file models [link] and [unlink] on a store of nets and the [vvp_send_*]
    loops that walk the list, and shows that they maintain and follow an
    abstract list of receivers. *)

From Stdlib Require Import ZArith Lia Bool.
From stdpp Require Import base numbers list gmap.
From S2P Require Import Prelude Bit4 Words Vec4 Strength.

Open Scope Z_scope.

(** ** Definitions *)

(** The address of a net. *)
Abbreviation net_id := nat.

(** [vvp_net_ptr_t]: the nil pointer, or a net and one of its ports. *)
Definition vvp_net_ptr_t : Type := option (net_id * nat).

(** The cells of a net that hold the connectivity. *)
Record vvp_net_t := mk_net { port : list vvp_net_ptr_t; out_ : vvp_net_ptr_t }.

(** The store of all nets. *)
Abbreviation netlist := (gmap net_id vvp_net_t).

(** [vvp_net_t()] *)
Definition net_new : vvp_net_t := mk_net (replicate 4 None) None.

(** [net->port[p]] *)
Definition get_port (st : netlist) (q : net_id * nat) : option vvp_net_ptr_t :=
  net ← st !! fst q; port net !! snd q.

(** [net->port[p] = v] *)
Definition set_port (st : netlist) (q : net_id * nat) (v : vvp_net_ptr_t) : option netlist :=
  net ← st !! fst q;
  assert_ (snd q <? length (port net))%nat;;
  Some (<[fst q := mk_net (<[snd q := v]> (port net)) (out_ net)]> st).

Definition get_out (st : netlist) (self : net_id) : option vvp_net_ptr_t := out_ <$> st !! self.

Definition set_out (st : netlist) (self : net_id) (v : vvp_net_ptr_t) : option netlist :=
  net ← st !! self; Some (<[self := mk_net (port net) v]> st).

(** [self->link(port_to_link)] *)
Definition link (st : netlist) (self : net_id) (port_to_link : net_id * nat) : option netlist :=
  out ← get_out st self;
  st ← set_port st port_to_link out;
  set_out st self (Some port_to_link).

(** [while (cur_net && cur_net->port[cur_port] != dst_ptr)]: the cell that points
    to [dst], or [None] at the end of the list. *)
Fixpoint find_prev (fuel : nat) (st : netlist) (cur : vvp_net_ptr_t) (dst : net_id * nat) :
    option vvp_net_ptr_t :=
  match cur with
  | None => Some None
  | Some q =>
      next ← get_port st q;
      if decide (next = Some dst) then Some (Some q)
      else match fuel with O => None | S fuel' => find_prev fuel' st next dst end
  end.

(** [self->unlink(dst_ptr)] *)
Definition unlink (fuel : nat) (st : netlist) (self : net_id) (dst : net_id * nat) : option netlist :=
  out ← get_out st self;
  next ← get_port st dst;
  st ← (if decide (out = Some dst) then set_out st self next
        else match out with
             | None => Some st
             | Some _ =>
                 prev ← find_prev fuel st out dst;
                 match prev with
                 | Some q => set_port st q next
                 | None => Some st
                 end
             end);
  set_port st dst None.

(** The fan-out list that starts at a pointer. *)
Inductive chain (st : netlist) : vvp_net_ptr_t -> list (net_id * nat) -> Prop :=
  | chain_nil : chain st None []
  | chain_cons q next l :
      get_port st q = Some next -> chain st next l -> chain st (Some q) (q :: l).

(** The fan-out of a net. *)
Definition fanout (st : netlist) (self : net_id) (l : list (net_id * nat)) : Prop :=
  exists out, get_out st self = Some out /\ chain st out l.

(** *** Propagation *)

(** The answer of a filter, [vvp_net_fil_t::prop_t]: drop the value, let it pass,
    or send the replacement it has stored. *)
Inductive prop_t (V : Type) := STOP | PROP | REPL (rep : V).

Arguments STOP {V}.
Arguments PROP {V}.
Arguments REPL {V} rep.

Section propagate.
(** The state of the simulation, in which functors and filters live next to the
    netlist, and the reception of a value at a port. *)
Context {S V : Type} (topology : S -> netlist) (recv : net_id * nat -> V -> S -> option S).

(** [vvp_send_vec4] and its siblings: the next cell is read before the functor
    receives the value. *)
Fixpoint vvp_send (fuel : nat) (ptr : vvp_net_ptr_t) (val : V) (s : S) : option S :=
  match ptr with
  | None => Some s
  | Some q =>
      match fuel with
      | O => None
      | Datatypes.S fuel' =>
          next ← get_port (topology s) q;
          s ← recv q val s;
          vvp_send fuel' next val s
      end
  end.

(** [vvp_net_t::send_vec4] and its siblings: the filter of the net, if it has
    one, decides what its receivers get. *)
Definition net_send (fuel : nat) (fil : option (V -> S -> option (prop_t V * S))) (self : net_id)
    (val : V) (s : S) : option S :=
  out ← get_out (topology s) self;
  match fil with
  | None => vvp_send fuel out val s
  | Some filter_vec =>
      '(rc, s) ← filter_vec val s;
      out ← get_out (topology s) self;
      match rc with
      | STOP => Some s
      | PROP => vvp_send fuel out val s
      | REPL rep => vvp_send fuel out rep s
      end
  end.

(** The receptions of a list of ports, one after the other. *)
Fixpoint recv_all (l : list (net_id * nat)) (val : V) (s : S) : option S :=
  match l with
  | [] => Some s
  | q :: l' => s ← recv q val s; recv_all l' val s
  end.
End propagate.

(** ** Lemmas *)

#[global] Instance net_eq_dec : EqDecision vvp_net_t.
Proof. solve_decision. Defined.

Lemma set_port_some st q v st' :
  set_port st q v = Some st' ->
  get_port st' q = Some v /\ (forall q', q' <> q -> get_port st' q' = get_port st q') /\
  (forall self, get_out st' self = get_out st self).
Proof.
  unfold set_port, get_port, get_out. destruct q as [n p]. cbn [fst snd].
  destruct (st !! n) as [net|] eqn:E; [|done]. cbn [mbind option_bind].
  destruct (Nat.ltb_spec p (length (port net))) as [Hp|]; [|done].
  cbn [assert_ mbind option_bind]. intros [= <-]. split_and!.
  - rewrite lookup_insert_eq. cbn [mbind option_bind port]. by rewrite list_lookup_insert_eq.
  - intros [n' p'] Hne. cbn [fst snd]. destruct (decide (n' = n)) as [->|Hn].
    + rewrite lookup_insert_eq, E. cbn [mbind option_bind port]. rewrite list_lookup_insert_ne; [done|]. congruence.
    + by rewrite lookup_insert_ne.
  - intros self. destruct (decide (self = n)) as [->|Hn].
    + by rewrite lookup_insert_eq, E.
    + by rewrite lookup_insert_ne.
Qed.

Lemma set_out_some st self v st' :
  set_out st self v = Some st' ->
  get_out st' self = Some v /\ (forall self', self' <> self -> get_out st' self' = get_out st self') /\
  (forall q, get_port st' q = get_port st q).
Proof.
  unfold set_out, get_port, get_out. destruct (st !! self) as [net|] eqn:E; [|done]. cbn [mbind option_bind]. intros [= <-]. split_and!.
  - by rewrite lookup_insert_eq.
  - intros self' Hne. by rewrite lookup_insert_ne.
  - intros [n p]. cbn [fst snd]. destruct (decide (n = self)) as [->|].
    + by rewrite lookup_insert_eq, E.
    + by rewrite lookup_insert_ne.
Qed.

Lemma set_port_returns st q v : is_Some (get_port st q) -> is_Some (set_port st q v).
Proof.
  unfold get_port, set_port. intros [x H]. destruct (st !! fst q) as [net|]; [|done]. cbn in *.
  apply lookup_lt_Some in H. rewrite (proj2 (Nat.ltb_lt _ _)) by done. by eexists.
Qed.

Lemma set_out_returns st self v : is_Some (get_out st self) -> is_Some (set_out st self v).
Proof. unfold get_out, set_out. intros [x H]. destruct (st !! self); [|done]. by eexists. Qed.

(** A list depends on its own cells only. *)
Lemma chain_frame st st' ptr l :
  chain st ptr l -> (forall q, q ∈ l -> get_port st' q = get_port st q) -> chain st' ptr l.
Proof.
  induction 1 as [|q next l Hq Hc IH]; intros H; [constructor|].
  apply chain_cons with next.
  - rewrite H; [done|]. left.
  - apply IH. intros q' Hin. apply H. by right.
Qed.

Lemma chain_det st ptr l l' : chain st ptr l -> chain st ptr l' -> l = l'.
Proof.
  intros H. revert l'. induction H as [|q next l Hq Hc IH]; intros l' H'; inversion H' as [|? next' l'' Hq' Hc']; subst.
  - done.
  - rewrite Hq in Hq'. injection Hq' as <-. f_equal. by apply IH.
Qed.

(** A list never meets a port twice: its tail after a port is determined. *)
Lemma chain_suffix st ptr l q :
  chain st ptr l -> q ∈ l -> exists next l1 l2, l = l1 ++ q :: l2 /\ get_port st q = Some next /\ chain st next l2 /\ q ∉ l1.
Proof.
  induction 1 as [|q0 next l Hq Hc IH]; intros Hin; [by apply not_elem_of_nil in Hin|].
  destruct (decide (q = q0)) as [->|Hne].
  - exists next, [], l. split; [done|]. split; [done|]. split; [done|]. apply not_elem_of_nil.
  - apply elem_of_cons in Hin as [|Hin]; [done|].
    destruct (IH Hin) as (n' & l1 & l2 & -> & Hn' & Hc' & Hni). exists n', (q0 :: l1), l2.
    split; [done|]. split; [done|]. split; [done|]. apply not_elem_of_cons. done.
Qed.

Lemma chain_nodup st ptr l : chain st ptr l -> NoDup l.
Proof.
  induction 1 as [|q next l Hq Hc IH]; [constructor|]. constructor; [|done]. intros Hin.
  destruct (chain_suffix st next l q Hc Hin) as (n' & l1 & l2 & E & Hn' & Hc' & _).
  rewrite Hq in Hn'. injection Hn' as <-. pose proof (chain_det _ _ _ _ Hc Hc') as E'.
  rewrite E in E' at 1. apply (f_equal length) in E'. rewrite length_app in E'. simpl in E'. lia.
Qed.

Lemma chain_at st ptr l1 q l2 :
  chain st ptr (l1 ++ q :: l2) -> exists next, get_port st q = Some next /\ chain st next l2.
Proof.
  revert ptr. induction l1 as [|x l1 IH]; intros ptr Hc; inversion Hc; subst; [by eexists|]. by eapply IH.
Qed.

(** The list whose cell [q] is redirected to [next]. *)
Lemma chain_splice st st' ptr l1 q l2 l3 next :
  chain st ptr (l1 ++ q :: l2) -> get_port st' q = Some next -> chain st' next l3 ->
  (forall q', q' ∈ l1 -> get_port st' q' = get_port st q') -> chain st' ptr (l1 ++ q :: l3).
Proof.
  revert ptr. induction l1 as [|x l1 IH]; intros ptr Hc Hq Hn Hf; simpl in *.
  - inversion Hc; subst. by apply chain_cons with next.
  - inversion Hc as [|? nx ? Hx Hc']; subst. apply chain_cons with nx.
    + rewrite Hf; [done|]. left.
    + apply IH; [done..|]. intros q' Hin. apply Hf. by right.
Qed.

Lemma find_prev_spec st dst ptr l fuel :
  chain st ptr l -> dst ∈ l -> (length l <= fuel)%nat ->
  match ptr with Some q => q <> dst | None => True end ->
  exists l1 q l2, l = l1 ++ q :: dst :: l2 /\ find_prev fuel st ptr dst = Some (Some q) /\
    get_port st q = Some (Some dst).
Proof.
  intros Hc. revert fuel. induction Hc as [|q next l Hq Hc IH]; intros fuel Hin Hf Hne;
    [by apply not_elem_of_nil in Hin|].
  apply elem_of_cons in Hin as [->|Hin]; [done|]. destruct fuel as [|fuel]; [simpl in Hf; lia|].
  cbn [find_prev]. rewrite Hq. cbn [mbind option_bind]. destruct (decide (next = Some dst)) as [E|Hnx].
  - subst next. inversion Hc as [|? nx l' Hd Hc' Eq El]; subst.
    exists [], q, l'. rewrite decide_True by done. done.
  - destruct (IH fuel) as (l1 & q' & l2 & -> & Hfp & Hgp); [done|simpl in Hf; lia| |].
    { destruct next; [|done]. congruence. }
    exists (q :: l1), q', l2. rewrite decide_False by done. done.
Qed.

Lemma find_prev_none st dst ptr l fuel :
  chain st ptr l -> dst ∉ l -> (length l <= fuel)%nat -> find_prev fuel st ptr dst = Some None.
Proof.
  intros Hc. revert fuel. induction Hc as [|q next l Hq Hc IH]; intros fuel Hni Hf.
  - by destruct fuel.
  - apply not_elem_of_cons in Hni as [Hne Hni]. destruct fuel as [|fuel]; [simpl in Hf; lia|].
    cbn [find_prev]. rewrite Hq. cbn [mbind option_bind]. destruct (decide (next = Some dst)) as [E|Hnx].
    + subst next. inversion Hc; subst. exfalso. apply Hni. left.
    + rewrite decide_False by done. apply IH; [done|]. simpl in Hf. lia.
Qed.

(** The loop over a list that the receivers do not change. *)
Lemma vvp_send_chain {S V} (topology : S -> netlist) (recv : net_id * nat -> V -> S -> option S) fuel ptr l val s :
  (forall q v s s', recv q v s = Some s' -> topology s' = topology s) ->
  chain (topology s) ptr l -> (length l <= fuel)%nat ->
  vvp_send topology recv fuel ptr val s = recv_all recv l val s.
Proof.
  intros Hrecv Hc. remember (topology s) as st eqn:Est. revert fuel s Est.
  induction Hc as [|q next l Hq Hc IH]; intros fuel s -> Hf; [by destruct fuel|].
  destruct fuel as [|fuel]; [simpl in Hf; lia|]. cbn [vvp_send recv_all]. rewrite Hq. cbn [mbind option_bind].
  destruct (recv q val s) as [s1|] eqn:E; [|done]. cbn [mbind option_bind].
  apply IH; [by rewrite (Hrecv _ _ _ _ E)|simpl in Hf; lia].
Qed.

Lemma filter_ne_id {A} `{EqDecision A} (x : A) (l : list A) : x ∉ l -> filter (fun y => y <> x) l = l.
Proof.
  induction l as [|y l IH]; intros H; [done|]. apply not_elem_of_cons in H as [Hne H].
  rewrite filter_cons_True by congruence. by rewrite IH.
Qed.

Lemma filter_ne_middle {A} `{EqDecision A} (x : A) (l1 l2 : list A) :
  x ∉ l1 -> x ∉ l2 -> filter (fun y => y <> x) (l1 ++ x :: l2) = l1 ++ l2.
Proof.
  intros H1 H2. rewrite filter_app, filter_cons_False by (intros H; by apply H). by rewrite !filter_ne_id.
Qed.

(** What [unlink] leaves behind once the receiver is bridged. *)
Definition unlinked (st : netlist) (self : net_id) (dst : net_id * nat) (l : list (net_id * nat)) (st' : netlist) : Prop :=
  fanout st' self (filter (fun q => q <> dst) l) /\
  forall other l', other <> self -> fanout st other l' -> l' ## l -> dst ∉ l' -> fanout st' other l'.

(** Clearing the cell of a port that is in no list. *)
Lemma unlink_finish st self dst l st1 :
  is_Some (get_port st1 dst) -> unlinked st self dst l st1 ->
  returns (set_port st1 dst None) (fun st' => unlinked st self dst l st' /\ get_port st' dst = Some None).
Proof.
  intros Hp [Hfo Hot]. destruct (set_port_returns st1 dst None Hp) as [st2 E]. exists st2. split; [done|].
  destruct (set_port_some _ _ _ _ E) as (P1 & P2 & P3).
  assert (Hfr : forall o l0, fanout st1 o l0 -> dst ∉ l0 -> fanout st2 o l0).
  { intros o l0 (ou & Hou & Hcu) Hn. exists ou. rewrite P3. split; [done|].
    apply (chain_frame st1); [done|]. intros q' Hin. apply P2. congruence. }
  split; [split|done].
  - apply Hfr; [done|]. intros Hin. by apply list_elem_of_filter in Hin as [Hne _].
  - intros other l' Hne Hfo' Hdis Hn. apply Hfr; [|done]. by apply Hot.
Qed.

(** The receiver at the head of the list: the output is pulled forward. *)
Lemma unlink_head st self dst nx l2 :
  get_out st self = Some (Some dst) -> chain st (Some dst) (dst :: l2) -> get_port st dst = Some nx ->
  returns (set_out st self nx) (fun st1 => unlinked st self dst (dst :: l2) st1 /\ is_Some (get_port st1 dst)).
Proof.
  intros Ho Hc Hnx. pose proof (chain_nodup _ _ _ Hc) as Hnd.
  inversion Hc as [|? next l2' Hq Hc2]; subst. rewrite Hnx in Hq. injection Hq as <-.
  destruct (set_out_returns st self nx) as [st1 E]; [by eexists|]. exists st1. split; [done|].
  destruct (set_out_some _ _ _ _ E) as (O1 & O2 & O3). apply NoDup_cons in Hnd as [Hni Hnd].
  split; [split|rewrite O3; by eexists].
  - exists nx. split; [done|]. rewrite filter_cons_False by (intros H; by apply H). rewrite filter_ne_id by done.
    apply (chain_frame st); [done|]. intros; by rewrite O3.
  - intros other l' Hno (ou & Hou & Hcu) _ _. exists ou. rewrite O2 by done. split; [done|].
    apply (chain_frame st); [done|]. intros; by rewrite O3.
Qed.

(** The receiver behind the cell [q]. *)
Lemma unlink_inner st self dst nx o l1 q l2 :
  get_out st self = Some o -> chain st o (l1 ++ q :: dst :: l2) -> get_port st dst = Some nx ->
  get_port st q = Some (Some dst) ->
  returns (set_port st q nx) (fun st1 => unlinked st self dst (l1 ++ q :: dst :: l2) st1 /\ is_Some (get_port st1 dst)).
Proof.
  intros Ho Hc Hnx Hgp. pose proof (chain_nodup _ _ _ Hc) as Hnd.
  destruct (set_port_returns st q nx) as [st1 E]; [by eexists|]. exists st1. split; [done|].
  destruct (set_port_some _ _ _ _ E) as (P1 & P2 & P3).
  apply NoDup_app in Hnd as (Hnd1 & Hdis & Hnd2). apply NoDup_cons in Hnd2 as (Hqd & Hnd2).
  apply NoDup_cons in Hnd2 as (Hd2 & Hnd3). apply not_elem_of_cons in Hqd as [Hqd Hq2].
  assert (Hd1 : dst ∉ l1) by (intros H; apply (Hdis dst H); right; left).
  destruct (chain_at st o (l1 ++ [q]) dst l2) as (n' & Hn' & Hc2); [by rewrite <- (assoc_L (++))|].
  rewrite Hnx in Hn'. injection Hn' as <-. split; [split|rewrite P2 by done; by eexists].
  - exists o. rewrite P3. split; [done|].
    assert (Hfl : filter (fun x => x <> dst) (l1 ++ q :: dst :: l2) = l1 ++ q :: l2).
    { change (q :: dst :: l2) with ([q] ++ dst :: l2). rewrite (assoc_L (++)), filter_ne_middle; [by rewrite <- (assoc_L (++))| |done].
      rewrite not_elem_of_app, list_elem_of_singleton. done. }
    rewrite Hfl. apply (chain_splice st st1 o l1 q (dst :: l2) l2 nx Hc); [done| |].
    + apply (chain_frame st); [done|]. intros x Hx. apply P2. by intros ->.
    + intros x Hx. apply P2. intros ->. apply (Hdis q Hx). left.
  - intros other l' Hno (ou & Hou & Hcu) Hdj Hnd'. exists ou. rewrite P3. split; [done|].
    apply (chain_frame st); [done|]. intros x Hx. apply P2. intros ->. apply (Hdj q Hx).
    apply elem_of_app. right. left.
Qed.

(** ** Properties *)

(** [link] puts a free port at the head of the fan-out list of a net and
    leaves the fan-out of every other net alone. *)
Theorem link_fanout st self q l :
  fanout st self l -> is_Some (get_port st q) -> q ∉ l ->
  returns (link st self q) (fun st' => fanout st' self (q :: l) /\
    forall other l', other <> self -> fanout st other l' -> q ∉ l' -> fanout st' other l').
Proof.
  intros (out & Ho & Hc) Hq Hni. unfold link. rewrite Ho. cbn [mbind option_bind].
  destruct (set_port_returns st q out Hq) as [st1 E1]. rewrite E1. cbn [mbind option_bind].
  destruct (set_port_some _ _ _ _ E1) as (P1 & P2 & P3).
  destruct (set_out_returns st1 self (Some q)) as [st2 E2]; [rewrite P3, Ho; by eexists|].
  destruct (set_out_some _ _ _ _ E2) as (O1 & O2 & O3). exists st2. split; [done|].
  assert (Hf : forall ptr l0, chain st ptr l0 -> q ∉ l0 -> chain st2 ptr l0).
  { intros ptr l0 Hl0 Hn. apply (chain_frame st); [done|]. intros q' Hin. rewrite O3. apply P2. congruence. }
  split.
  - exists (Some q). split; [done|]. apply chain_cons with out; [by rewrite O3|]. by apply Hf.
  - intros other l' Hne (out' & Ho' & Hc') Hn. exists out'. rewrite O2, P3 by done. split; [done|]. by apply Hf.
Qed.

Lemma link_fanout_witness :
  let st : netlist := <[0%nat := net_new]> (<[1%nat := net_new]> ∅) in
  returns (link st 0%nat (1%nat, 2%nat)) (fun st' => fanout st' 0%nat [(1%nat, 2%nat)] /\
    forall other l', other <> 0%nat -> fanout st other l' -> (1%nat, 2%nat) ∉ l' -> fanout st' other l').
Proof.
  apply (link_fanout (<[0%nat := net_new]> (<[1%nat := net_new]> ∅)) 0%nat (1%nat, 2%nat) []).
  - exists None. split; [done|constructor].
  - by exists None.
  - apply not_elem_of_nil.
Defined.

(** C36: [unlink] removes exactly the given port from the fan-out list of a net,
    keeping the order of the others, empties the cell of the port, and leaves
    the fan-out of every net that shares no port with this one alone; the scan
    for the preceding cell ends within the length of the list. *)
Theorem unlink_fanout fuel st self dst l :
  fanout st self l -> is_Some (get_port st dst) -> (length l <= fuel)%nat ->
  (dst ∈ l \/ get_port st dst = Some None) ->
  returns (unlink fuel st self dst) (fun st' =>
    (fanout st' self (filter (fun q => q <> dst) l) /\
     forall other l', other <> self -> fanout st other l' -> l' ## l -> dst ∉ l' -> fanout st' other l') /\
    get_port st' dst = Some None).
Proof.
  intros (out & Ho & Hc) [nx Hnx] Hf Hd. unfold unlink. rewrite Ho, Hnx. cbn [mbind option_bind].
  destruct (decide (out = Some dst)) as [Eo|Hne].
  - subst out. rewrite decide_True by done. inversion Hc as [|? nx' l2]; subst.
    destruct (unlink_head st self dst nx l2 Ho Hc Hnx) as (st1 & -> & Hu & Hp). by apply unlink_finish.
  - rewrite decide_False by done. destruct (decide (dst ∈ l)) as [Hin|Hni].
    + destruct (find_prev_spec st dst out l fuel Hc Hin Hf) as (l1 & q & l2 & -> & Hfp & Hgp).
      { destruct out; [|done]. congruence. }
      destruct out as [o|]; [|inversion Hc; by destruct l1]. rewrite Hfp. cbn [mbind option_bind].
      destruct (unlink_inner st self dst nx (Some o) l1 q l2 Ho Hc Hnx Hgp) as (st1 & -> & Hu & Hp).
      by apply unlink_finish.
    + destruct Hd as [|Hnone]; [done|]. rewrite Hnx in Hnone. injection Hnone as ->.
      assert (Hu : unlinked st self dst l st).
      { split; [|by intros other l' _ H _ _]. exists out. by rewrite filter_ne_id. }
      destruct out as [o|]; [rewrite (find_prev_none _ _ _ l) by done|]; (apply unlink_finish; [by eexists|done]).
Qed.

Lemma unlink_fanout_witness :
  let st : netlist := <[0%nat := mk_net (replicate 4 None) (Some (1%nat, 0%nat))]>
    (<[1%nat := mk_net [Some (2%nat, 3%nat); None; None; None] None]> (<[2%nat := net_new]> ∅)) in
  returns (unlink 2 st 0%nat (2%nat, 3%nat)) (fun st' =>
    (fanout st' 0%nat [(1%nat, 0%nat)] /\
     forall other l', other <> 0%nat -> fanout st other l' -> l' ## [(1%nat, 0%nat); (2%nat, 3%nat)] ->
       (2%nat, 3%nat) ∉ l' -> fanout st' other l') /\
    get_port st' (2%nat, 3%nat) = Some None).
Proof.
  apply (unlink_fanout 2 (<[0%nat := mk_net (replicate 4 None) (Some (1%nat, 0%nat))]>
    (<[1%nat := mk_net [Some (2%nat, 3%nat); None; None; None] None]> (<[2%nat := net_new]> ∅)))
    0%nat (2%nat, 3%nat) [(1%nat, 0%nat); (2%nat, 3%nat)]).
  - exists (Some (1%nat, 0%nat)). split; [done|]. apply chain_cons with (Some (2%nat, 3%nat)); [done|].
    apply chain_cons with None; [done|]. constructor.
  - by exists None.
  - simpl. lia.
  - left. right. left.
Defined.

(** C37: A value sent by a net reaches every port of its fan-out exactly once, in
    the order of the list, when the receivers leave the connectivity alone: the
    loop ends within the length of the list, and fails only where a receiver
    does; a filter stops, keeps or replaces the value first. *)
Theorem net_send_delivers {S V} (topology : S -> netlist) (recv : net_id * nat -> V -> S -> option S) fuel fil self val s l :
  fanout (topology s) self l -> (length l <= fuel)%nat ->
  (forall q v s s', recv q v s = Some s' -> topology s' = topology s) ->
  match fil with
  | None => True
  | Some f => forall v s rc s', f v s = Some (rc, s') -> topology s' = topology s
  end ->
  net_send topology recv fuel fil self val s =
  match fil with
  | None => recv_all recv l val s
  | Some f =>
      '(rc, s) ← f val s;
      match rc with
      | STOP => Some s
      | PROP => recv_all recv l val s
      | REPL rep => recv_all recv l rep s
      end
  end.
Proof.
  intros (out & Ho & Hc) Hf Hrecv Hfil. unfold net_send. rewrite Ho. cbn [mbind option_bind].
  destruct fil as [f|]; [|by apply vvp_send_chain].
  destruct (f val s) as [[rc s1]|] eqn:E; [|done]. cbn [mbind option_bind].
  rewrite (Hfil _ _ _ _ E), Ho. cbn [mbind option_bind].
  destruct rc; [done|..]; (apply vvp_send_chain; [done| |done]); by rewrite (Hfil _ _ _ _ E).
Qed.

Lemma net_send_delivers_witness :
  let st : netlist := <[0%nat := mk_net (replicate 4 None) (Some (1%nat, 0%nat))]>
    (<[1%nat := mk_net [Some (2%nat, 3%nat); None; None; None] None]> (<[2%nat := net_new]> ∅)) in
  net_send fst (fun q (v : Z) (s : netlist * list (net_id * nat * Z)) => Some (fst s, snd s ++ [(q, v)]))
    2 (Some (fun v s => Some (REPL (v + 1), s))) 0%nat 6 (st, [])
  = Some (st, [((1%nat, 0%nat), 7); ((2%nat, 3%nat), 7)]).
Proof.
  intros st. rewrite (net_send_delivers fst _ 2 _ 0%nat 6 (st, []) [(1%nat, 0%nat); (2%nat, 3%nat)]).
  - reflexivity.
  - exists (Some (1%nat, 0%nat)). split; [done|]. apply chain_cons with (Some (2%nat, 3%nat)); [done|].
    apply chain_cons with None; [done|]. constructor.
  - simpl. lia.
  - by intros q v s s' [= <-].
  - by intros v s rc s' [= <- <-].
Defined.
