(* ===== verification/Ring.v ===== *)
(** * The circular lists of events ([vvp/schedule.cc])

    The queues of the scheduler are circular singly linked lists: the queue
    points to its last event and the [next] field of the last event points to
    the first.  The file models the three operations of the source on a store of
    [next] fields - [schedule_event_] appends, [schedule_event_push_] puts in
    front, the main loop pulls the first event - and shows that they implement
    the lists the file [Sched] works with, and leave the other queues alone. *)

From Stdlib Require Import Lia.
From stdpp Require Import base numbers list gmap.
From S2P Require Import Prelude.

(** ** Definitions *)

(** The address of an event, the [next] fields, and a queue. *)
Abbreviation addr := nat.
Abbreviation next_fields := (gmap addr addr).
Abbreviation queue := (option addr).

(** [cur->next = cur;] and the last statement of [schedule_event_]. *)
Definition ring_append (h : next_fields) (q : queue) (cur : addr) : option (next_fields * queue) :=
  let h := <[cur := cur]> h in
  match q with
  | None => Some (h, Some cur)
  | Some last =>
      first ← h !! last;
      Some (<[last := cur]> (<[cur := first]> h), Some cur)
  end.

(** The last statements of [schedule_event_push_]. *)
Definition ring_push (h : next_fields) (q : queue) (cur : addr) : option (next_fields * queue) :=
  match q with
  | None => Some (<[cur := cur]> h, Some cur)
  | Some last =>
      first ← h !! last;
      Some (<[last := cur]> (<[cur := first]> h), q)
  end.

(** [cur = q->next; if (cur->next == cur) q = 0; else q->next = cur->next;] *)
Definition ring_pull (h : next_fields) (q : queue) : option (addr * (next_fields * queue)) :=
  last ← q;
  cur ← h !! last;
  next ← h !! cur;
  if decide (next = cur) then Some (cur, (h, None))
  else Some (cur, (<[last := next]> h, q)).

(** The fields lead from [x] through the addresses [r] to [z]. *)
Fixpoint path (h : next_fields) (x : addr) (r : list addr) (z : addr) : Prop :=
  match r with
  | [] => h !! x = Some z
  | y :: r => h !! x = Some y /\ path h y r z
  end.

(** The queue holds the events [l], first one first. *)
Definition ring (h : next_fields) (q : queue) (l : list addr) : Prop :=
  NoDup l /\
  match l with
  | [] => q = None
  | x :: r => q = Some (List.last r x) /\ path h x r x
  end.

(** *** Sequences of operations *)

Inductive ring_op := OpAppend (cur : addr) | OpPush (cur : addr) | OpPull.

(** The operations on the circular list; the answer collects the pulled events. *)
Fixpoint run_ring (ops : list ring_op) (h : next_fields) (q : queue) : option (list addr * (next_fields * queue)) :=
  match ops with
  | [] => Some ([], (h, q))
  | OpAppend cur :: ops => '(h, q) ← ring_append h q cur; run_ring ops h q
  | OpPush cur :: ops => '(h, q) ← ring_push h q cur; run_ring ops h q
  | OpPull :: ops =>
      '(cur, (h, q)) ← ring_pull h q;
      '(l, s) ← run_ring ops h q;
      Some (cur :: l, s)
  end.

(** The same on a list; an event is in the queue once. *)
Fixpoint run_list (ops : list ring_op) (l : list addr) : option (list addr * list addr) :=
  match ops with
  | [] => Some ([], l)
  | OpAppend cur :: ops => if decide (cur ∈ l) then None else run_list ops (l ++ [cur])
  | OpPush cur :: ops => if decide (cur ∈ l) then None else run_list ops (cur :: l)
  | OpPull :: ops =>
      match l with
      | [] => None
      | cur :: l => '(p, l) ← run_list ops l; Some (cur :: p, l)
      end
  end.

(** The events whose cells the operations write. *)
Definition op_uses (ops : list ring_op) (a : addr) : Prop := (OpAppend a ∈ ops) \/ (OpPush a ∈ ops).

(** ** Lemmas *)

Lemma last_cons (x y : addr) r : List.last (y :: r) x = List.last r y.
Proof.
  revert x y. induction r as [|z r IH]; intros x y; [done|].
  transitivity (List.last (z :: r) x); [done|]. by rewrite (IH x z), (IH y z).
Qed.

Lemma last_cons_in (x : addr) r : List.last r x ∈ x :: r.
Proof.
  revert x. induction r as [|y r IH]; intros x; [left|]. right. rewrite last_cons. apply IH.
Qed.

Lemma last_snoc (x y : addr) r : List.last (r ++ [y]) x = y.
Proof. revert x. induction r as [|z r IH]; intros x; [done|]. cbn [app]. rewrite last_cons. apply IH. Qed.

(** The last field of a path. *)
Lemma path_end h x r z : path h x r z -> h !! List.last r x = Some z.
Proof. revert x. induction r as [|y r IH]; intros x; [done|]. intros [_ Hp]. rewrite last_cons. by apply IH. Qed.

Lemma path_frame h h' x r z : path h x r z -> (forall a, a ∈ x :: r -> h' !! a = h !! a) -> path h' x r z.
Proof.
  revert x. induction r as [|y r IH]; intros x Hp Hf; cbn [path] in *.
  - rewrite Hf; [done|left].
  - destruct Hp as [Hx Hp]. split; [rewrite Hf; [done|left]|]. apply IH; [done|]. intros a Ha. apply Hf. by right.
Qed.

(** Redirecting the last field. *)
Lemma path_redirect h x r z z' :
  NoDup (x :: r) -> path h x r z -> path (<[List.last r x := z']> h) x r z'.
Proof.
  revert x. induction r as [|y r IH]; intros x Hnd Hp; cbn [path] in *.
  - by rewrite lookup_insert_eq.
  - destruct Hp as [Hx Hp]. apply NoDup_cons in Hnd as [Hni Hnd]. rewrite last_cons. split; [|by apply IH].
    rewrite lookup_insert_ne; [done|]. intros E. apply Hni. rewrite <- E. apply last_cons_in.
Qed.

(** A path and one field more. *)
Lemma path_snoc h x r y z : path h x r y -> h !! y = Some z -> path h x (r ++ [y]) z.
Proof.
  revert x. induction r as [|w r IH]; intros x; cbn [path app]; [done|]. intros [Hx Hp] Hy. split; [done|]. by apply IH.
Qed.

(** The fields of other events do not matter. *)
Lemma ring_frame h h' q l : ring h q l -> (forall a, a ∈ l -> h' !! a = h !! a) -> ring h' q l.
Proof.
  intros [Hnd Hr] Hf. split; [done|]. destruct l as [|x r]; [done|]. destruct Hr as [-> Hp]. split; [done|].
  by apply (path_frame h).
Qed.

(** What an operation on the events [l] may write. *)
Definition only_at (l : list addr) (h h' : next_fields) : Prop := forall a, a ∉ l -> h' !! a = h !! a.

Lemma ring_insert_spec h x r cur :
  NoDup (x :: r) -> cur ∉ x :: r -> path h x r x ->
  let h' := <[List.last r x := cur]> (<[cur := x]> h) in
  path h' x r cur /\ h' !! cur = Some x /\ only_at (cur :: x :: r) h h'.
Proof.
  intros Hnd Hni Hp h'. pose proof (last_cons_in x r) as Hl.
  assert (Hne : List.last r x <> cur) by (intros E; by rewrite E in Hl). split; [|split].
  - apply (path_redirect _ _ _ x); [done|]. apply (path_frame h); [done|].
    intros a Ha. rewrite lookup_insert_ne; [done|]. by intros ->.
  - unfold h'. by rewrite lookup_insert_ne, lookup_insert_eq.
  - intros a Ha. apply not_elem_of_cons in Ha as [Ha1 Ha2]. unfold h'. rewrite !lookup_insert_ne; [done..|].
    intros E. apply Ha2. by rewrite <- E.
Qed.

Lemma ring_append_spec h q l cur :
  ring h q l -> cur ∉ l ->
  returns (ring_append h q cur) (fun '(h', q') => ring h' q' (l ++ [cur]) /\ only_at (cur :: l) h h').
Proof.
  intros [Hnd Hr] Hni. unfold ring_append. destruct l as [|x r].
  - rewrite Hr. apply returns_ret. split; [split; [apply NoDup_singleton|split; [done|cbn; by rewrite lookup_insert_eq]]|].
    intros a Ha. apply not_elem_of_cons in Ha as [Ha _]. by rewrite lookup_insert_ne.
  - destruct Hr as [-> Hp]. pose proof (last_cons_in x r) as Hl.
    rewrite lookup_insert_ne by (intros E; by rewrite E in Hni). rewrite (path_end _ _ _ _ Hp). cbn [mbind option_bind].
    rewrite insert_insert_eq. apply returns_ret.
    destruct (ring_insert_spec h x r cur Hnd Hni Hp) as (P1 & P2 & P3). split; [|done]. split.
    + apply NoDup_app. split; [done|]. split; [|apply NoDup_singleton]. intros y Hy ->%list_elem_of_singleton. done.
    + cbn [app]. split; [by rewrite last_snoc|]. by apply path_snoc.
Qed.

Lemma ring_push_spec h q l cur :
  ring h q l -> cur ∉ l ->
  returns (ring_push h q cur) (fun '(h', q') => ring h' q' (cur :: l) /\ only_at (cur :: l) h h').
Proof.
  intros [Hnd Hr] Hni. unfold ring_push. destruct l as [|x r].
  - rewrite Hr. apply returns_ret. split; [split; [apply NoDup_singleton|split; [done|cbn; by rewrite lookup_insert_eq]]|].
    intros a Ha. apply not_elem_of_cons in Ha as [Ha _]. by rewrite lookup_insert_ne.
  - destruct Hr as [-> Hp]. rewrite (path_end _ _ _ _ Hp). cbn [mbind option_bind]. apply returns_ret.
    destruct (ring_insert_spec h x r cur Hnd Hni Hp) as (P1 & P2 & P3). split; [|done]. split; [by apply NoDup_cons|].
    split; [by rewrite last_cons|]. by split.
Qed.

Lemma ring_pull_spec h q x r :
  ring h q (x :: r) ->
  returns (ring_pull h q) (fun '(cur, (h', q')) => cur = x /\ ring h' q' r /\ only_at (x :: r) h h').
Proof.
  intros [Hnd [-> Hp]]. unfold ring_pull. cbn [mbind option_bind]. rewrite (path_end _ _ _ _ Hp). cbn [mbind option_bind].
  destruct r as [|y r].
  - cbn [path] in Hp. rewrite Hp. cbn [mbind option_bind]. rewrite decide_True by done. apply returns_ret.
    split; [done|]. split; [|done]. split; [apply NoDup_nil_2|done].
  - destruct Hp as [Hx Hp]. rewrite Hx. cbn [mbind option_bind]. apply NoDup_cons in Hnd as [Hni Hnd].
    rewrite decide_False by (intros ->; apply Hni; left). apply returns_ret. split; [done|]. rewrite last_cons. split.
    + split; [done|]. split; [done|]. by apply (path_redirect _ _ _ x).
    + intros a Ha. rewrite lookup_insert_ne; [done|]. intros <-. apply Ha. right. apply last_cons_in.
Qed.

(** ** Properties *)

(** C26: The circular lists implement lists: any sequence of appends, pushes and
    pulls that uses an event's cell once at a time runs without following a bad
    pointer, pulls the events in the order of the list and ends with the list's
    content; the fields of events it does not use, hence every queue of other
    events, are unchanged. *)
Theorem ring_refines_list ops h q l pulled l' :
  ring h q l -> run_list ops l = Some (pulled, l') ->
  returns (run_ring ops h q) (fun '((p, (h', q')) : list addr * (next_fields * queue)) =>
    p = pulled /\ ring h' q' l' /\
    forall q0 l0, ring h q0 l0 -> (forall a, a ∈ l0 -> (a ∉ l) /\ ~ op_uses ops a) -> ring h' q0 l0).
Proof.
  revert h q l pulled. induction ops as [|op ops IH]; intros h q l pulled Hr Hl; cbn [run_ring run_list] in *.
  { injection Hl as <- <-. apply returns_ret. auto. }
  assert (Hstep : forall h1 q1 l1 cells pulled1, ring h1 q1 l1 -> run_list ops l1 = Some (pulled1, l') -> only_at cells h h1 ->
    (forall a, a ∈ l1 -> a ∈ cells) -> (forall a, a ∈ cells -> (a ∈ l) \/ op = OpAppend a \/ op = OpPush a) ->
    returns (run_ring ops h1 q1) (fun '((p, (h', q')) : list addr * (next_fields * queue)) => p = pulled1 /\ ring h' q' l' /\
      forall q0 l0, ring h q0 l0 -> (forall a, a ∈ l0 -> (a ∉ l) /\ ~ op_uses (op :: ops) a) -> ring h' q0 l0)).
  { intros h1 q1 l1 cells pulled1 H1 E1 Ho Hin Hc. eapply returns_mono; [by apply (IH h1 q1 l1)|].
    intros [p [h' q']] (-> & H' & Hf). split; [done|]. split; [done|]. intros q0 l0 H0 Hd. unfold op_uses in *.
    assert (Hcell : forall a, a ∈ l0 -> a ∉ cells).
    { intros a Ha Hx. destruct (Hd a Ha) as (D1 & D2). rewrite !elem_of_cons in D2.
      destruct (Hc a Hx) as [|[->| ->]]; tauto. }
    apply Hf; [by apply (ring_frame h); [|intros a Ha; apply Ho, Hcell]|]. intros a Ha.
    destruct (Hd a Ha) as (D1 & D2). rewrite !elem_of_cons in D2. split; [|tauto].
    intros Hx. by apply (Hcell a Ha), Hin. }
  destruct op as [cur|cur|].
  - destruct (decide (cur ∈ l)) as [|Hni]; [done|]. destruct (ring_append_spec h q l cur Hr Hni) as ([h1 q1] & -> & H1 & Ho).
    apply (Hstep h1 q1 (l ++ [cur]) (cur :: l)); [done..| |]; intros a;
      rewrite ?elem_of_app, ?list_elem_of_singleton, ?elem_of_cons; [tauto|]. intros [->|]; tauto.
  - destruct (decide (cur ∈ l)) as [|Hni]; [done|]. destruct (ring_push_spec h q l cur Hr Hni) as ([h1 q1] & -> & H1 & Ho).
    apply (Hstep h1 q1 (cur :: l) (cur :: l)); [done..|]. intros a [->|]%elem_of_cons; tauto.
  - destruct l as [|x r]; [done|]. destruct (ring_pull_spec h q x r Hr) as ([cur [h1 q1]] & -> & -> & H1 & Ho).
    destruct (run_list ops r) as [[p1 l1]|] eqn:E1; [|done]. injection Hl as <- ->. cbn [mbind option_bind].
    destruct (Hstep h1 q1 r (x :: r) p1) as ([p [h' q']] & -> & -> & H' & Hf); [done..|by right|tauto|].
    apply returns_ret. split; [done|]. split; [done|]. exact Hf.
Qed.

Lemma ring_refines_list_witness :
  returns (run_ring [OpAppend 4; OpAppend 7; OpPush 5; OpPull; OpAppend 9; OpPull; OpPull]%nat ∅ None)
    (fun '((p, (h', q')) : list addr * (next_fields * queue)) => p = [5; 4; 7]%nat /\ ring h' q' [9%nat] /\
       forall q0 l0, ring ∅ q0 l0 -> (forall a, a ∈ l0 -> (a ∉ @nil addr) /\
         ~ op_uses [OpAppend 4; OpAppend 7; OpPush 5; OpPull; OpAppend 9; OpPull; OpPull]%nat a) -> ring h' q0 l0).
Proof.
  apply (ring_refines_list _ ∅ None []); [split; [apply NoDup_nil_2|done]|reflexivity].
Defined.
