(* ===== verification/Sched.v ===== *)
(** * The stratified event queue ([vvp/schedule.cc])

    The queue of pending events is a list of time cells, each with the delay
    that separates it from the cell before and with one queue per region of the
    Verilog scheduling semantics.  The file models the scheduling calls, the
    main loop [schedule_simulate] with its callbacks as parameters, and the
    events themselves.  It shows that a scheduled event lands at its absolute
    time and at the end of its region, that the main loop runs the events of a
    time step in the order of the regions, and that every event runs exactly at
    the time it was scheduled for.

    The queues are lists here, first event first; the file [Ring] shows that
    the circular lists of the source implement them. *)

From Stdlib Require Import ZArith Lia Bool.
From stdpp Require Import base numbers list relations.
From S2P Require Import Prelude.

Open Scope Z_scope.

(** ** Definitions *)

(** [event_queue_t] *)
Inductive event_queue_t :=
  | SEQ_START | SEQ_ACTIVE | SEQ_INACTIVE | SEQ_NBASSIGN | SEQ_RWSYNC | SEQ_ROSYNC | DEL_THREAD.

#[global] Instance event_queue_eq_dec : EqDecision event_queue_t.
Proof. solve_decision. Defined.

(** [event_time_s]; the [next] pointer is the tail of the list the cell is in. *)
Record event_time_s (E : Type) := mk_time {
  delay : Z;
  start : list E;
  active : list E;
  inactive : list E;
  nbassign : list E;
  rwsync : list E;
  rosync : list E;
  del_thr : list E }.

Arguments mk_time {E} _ _ _ _ _ _ _ _.
Arguments delay {E} _.
Arguments start {E} _.
Arguments active {E} _.
Arguments inactive {E} _.
Arguments nbassign {E} _.
Arguments rwsync {E} _.
Arguments rosync {E} _.
Arguments del_thr {E} _.

(** The static variables of [schedule.cc]. *)
Record sched (E : Type) := mk_sched {
  sched_list : list (event_time_s E);
  schedule_init_list : list E;
  schedule_final_list : list E;
  schedule_time : Z;
  schedule_runnable : bool;
  schedule_stopped_flag : bool;
  schedule_single_step_flag : bool;
  sim_started : bool;
  sim_at_rosync : bool }.

Arguments mk_sched {E} _ _ _ _ _ _ _ _ _.
Arguments sched_list {E} _.
Arguments schedule_init_list {E} _.
Arguments schedule_final_list {E} _.
Arguments schedule_time {E} _.
Arguments schedule_runnable {E} _.
Arguments schedule_stopped_flag {E} _.
Arguments schedule_single_step_flag {E} _.
Arguments sim_started {E} _.
Arguments sim_at_rosync {E} _.

(** [schedule_time] and the flags as they are initialised. *)
Definition sched_init {E} : sched E := mk_sched [] [] [] 0 true false false false false.

Section assignments.
Context {E : Type}.
Implicit Types (s : sched E) (c : event_time_s E).

(** Assignments to the single variables. *)
Definition with_sched_list (l : list (event_time_s E)) s : sched E :=
  mk_sched l (schedule_init_list s) (schedule_final_list s) (schedule_time s) (schedule_runnable s)
    (schedule_stopped_flag s) (schedule_single_step_flag s) (sim_started s) (sim_at_rosync s).
Definition with_init_list (l : list E) s : sched E :=
  mk_sched (sched_list s) l (schedule_final_list s) (schedule_time s) (schedule_runnable s)
    (schedule_stopped_flag s) (schedule_single_step_flag s) (sim_started s) (sim_at_rosync s).
Definition with_final_list (l : list E) s : sched E :=
  mk_sched (sched_list s) (schedule_init_list s) l (schedule_time s) (schedule_runnable s)
    (schedule_stopped_flag s) (schedule_single_step_flag s) (sim_started s) (sim_at_rosync s).
Definition with_time (t : Z) s : sched E :=
  mk_sched (sched_list s) (schedule_init_list s) (schedule_final_list s) t (schedule_runnable s)
    (schedule_stopped_flag s) (schedule_single_step_flag s) (sim_started s) (sim_at_rosync s).
Definition with_runnable (b : bool) s : sched E :=
  mk_sched (sched_list s) (schedule_init_list s) (schedule_final_list s) (schedule_time s) b
    (schedule_stopped_flag s) (schedule_single_step_flag s) (sim_started s) (sim_at_rosync s).
Definition with_stopped (b : bool) s : sched E :=
  mk_sched (sched_list s) (schedule_init_list s) (schedule_final_list s) (schedule_time s) (schedule_runnable s)
    b (schedule_single_step_flag s) (sim_started s) (sim_at_rosync s).
Definition with_single_step (b : bool) s : sched E :=
  mk_sched (sched_list s) (schedule_init_list s) (schedule_final_list s) (schedule_time s) (schedule_runnable s)
    (schedule_stopped_flag s) b (sim_started s) (sim_at_rosync s).
Definition with_started (b : bool) s : sched E :=
  mk_sched (sched_list s) (schedule_init_list s) (schedule_final_list s) (schedule_time s) (schedule_runnable s)
    (schedule_stopped_flag s) (schedule_single_step_flag s) b (sim_at_rosync s).
Definition with_at_rosync (b : bool) s : sched E :=
  mk_sched (sched_list s) (schedule_init_list s) (schedule_final_list s) (schedule_time s) (schedule_runnable s)
    (schedule_stopped_flag s) (schedule_single_step_flag s) (sim_started s) b.

(** [new event_time_s] with its delay set. *)
Definition new_time (d : Z) : event_time_s E := mk_time d [] [] [] [] [] [] [].

Definition with_delay (d : Z) c : event_time_s E :=
  mk_time d (start c) (active c) (inactive c) (nbassign c) (rwsync c) (rosync c) (del_thr c).

(** The queue that [&ctim->start], [&ctim->active], ... point to. *)
Definition get_queue c (q : event_queue_t) : list E :=
  match q with
  | SEQ_START => start c
  | SEQ_ACTIVE => active c
  | SEQ_INACTIVE => inactive c
  | SEQ_NBASSIGN => nbassign c
  | SEQ_RWSYNC => rwsync c
  | SEQ_ROSYNC => rosync c
  | DEL_THREAD => del_thr c
  end.

Definition set_queue c (q : event_queue_t) (l : list E) : event_time_s E :=
  match q with
  | SEQ_START => mk_time (delay c) l (active c) (inactive c) (nbassign c) (rwsync c) (rosync c) (del_thr c)
  | SEQ_ACTIVE => mk_time (delay c) (start c) l (inactive c) (nbassign c) (rwsync c) (rosync c) (del_thr c)
  | SEQ_INACTIVE => mk_time (delay c) (start c) (active c) l (nbassign c) (rwsync c) (rosync c) (del_thr c)
  | SEQ_NBASSIGN => mk_time (delay c) (start c) (active c) (inactive c) l (rwsync c) (rosync c) (del_thr c)
  | SEQ_RWSYNC => mk_time (delay c) (start c) (active c) (inactive c) (nbassign c) l (rosync c) (del_thr c)
  | SEQ_ROSYNC => mk_time (delay c) (start c) (active c) (inactive c) (nbassign c) (rwsync c) l (del_thr c)
  | DEL_THREAD => mk_time (delay c) (start c) (active c) (inactive c) (nbassign c) (rwsync c) (rosync c) l
  end.

(** The last part of [schedule_event_]: the event goes to the end of the selected
    queue of [ctim]; [d] is what is left of the delay. *)
Definition put_event (cur : E) (d : Z) (select_queue : event_queue_t) c : option (event_time_s E) :=
  assert_ (match select_queue with SEQ_INACTIVE => d =? 0 | _ => true end);;
  Some (set_queue c select_queue (get_queue c select_queue ++ [cur])).

(** The search for the cell from [ctim] on, and the insertion of a new cell where
    none has the right time. *)
Fixpoint insert_time (cur : E) (select_queue : event_queue_t) (ctim : event_time_s E)
    (next : list (event_time_s E)) (d : Z) : option (list (event_time_s E)) :=
  match next with
  | ctim' :: next' =>
      if delay ctim <? d then
        l ← insert_time cur select_queue ctim' next' (w_sub d (delay ctim));
        Some (ctim :: l)
      else if delay ctim >? d then
        tmp ← put_event cur d select_queue (new_time d);
        Some (tmp :: with_delay (w_sub (delay ctim) d) ctim :: next)
      else
        ctim ← put_event cur d select_queue ctim;
        Some (ctim :: next)
  | [] =>
      if delay ctim >? d then
        tmp ← put_event cur d select_queue (new_time d);
        Some [tmp; with_delay (w_sub (delay ctim) d) ctim]
      else if delay ctim =? d then
        ctim ← put_event cur d select_queue ctim;
        Some [ctim]
      else
        tmp ← put_event cur d select_queue (new_time (w_sub d (delay ctim)));
        Some [ctim; tmp]
  end.

(** [schedule_event_] *)
Definition schedule_event_ (cur : E) (d : Z) (select_queue : event_queue_t) s : option (sched E) :=
  match sched_list s with
  | [] =>
      ctim ← put_event cur d select_queue (new_time d);
      Some (with_sched_list [ctim] s)
  | ctim :: next =>
      if delay ctim >? d then
        tmp ← put_event cur d select_queue (new_time d);
        Some (with_sched_list (tmp :: with_delay (w_sub (delay ctim) d) ctim :: next) s)
      else
        l ← insert_time cur select_queue ctim next d;
        Some (with_sched_list l s)
  end.

(** [schedule_event_push_] *)
Definition schedule_event_push_ (cur : E) s : option (sched E) :=
  match sched_list s with
  | [] => schedule_event_ cur 0 SEQ_ACTIVE s
  | ctim :: next =>
      if delay ctim >? 0 then schedule_event_ cur 0 SEQ_ACTIVE s
      else Some (with_sched_list (set_queue ctim SEQ_ACTIVE (cur :: active ctim) :: next) s)
  end.

(** [schedule_init_event], [schedule_final_event] *)
Definition schedule_init_event (cur : E) s : sched E := with_init_list (schedule_init_list s ++ [cur]) s.
Definition schedule_final_event (cur : E) s : sched E := with_final_list (schedule_final_list s ++ [cur]) s.

(** [schedule_finish], with the [clear_events] calls. *)
Definition clear_events c : event_time_s E :=
  mk_time (delay c) (start c) [] [] [] [] [] (del_thr c).
Definition schedule_finish s : sched E :=
  with_runnable false
    match sched_list s with
    | [] => s
    | ctim :: next => with_sched_list (clear_events ctim :: next) s
    end.

(** [schedule_stop], [schedule_single_step] *)
Definition schedule_stop s : sched E := with_stopped true s.
Definition schedule_single_step s : sched E := with_single_step true s.

(** Pulling the first event of a queue of the current time step, of the
    initialisation list and of the final list. *)
Definition pull_queue (q : event_queue_t) s : option (E * sched E) :=
  match sched_list s with
  | [] => None
  | ctim :: next =>
      match get_queue ctim q with
      | [] => None
      | cur :: l => Some (cur, with_sched_list (set_queue ctim q l :: next) s)
      end
  end.
Definition pull_init s : option (E * sched E) :=
  match schedule_init_list s with [] => None | cur :: l => Some (cur, with_init_list l s) end.
Definition pull_final s : option (E * sched E) :=
  match schedule_final_list s with [] => None | cur :: l => Some (cur, with_final_list l s) end.

(** "If there are no more active events, advance the event queues." *)
Definition advance_queues c : event_time_s E :=
  match active c with
  | _ :: _ => c
  | [] =>
      match inactive c with
      | _ :: _ => set_queue (set_queue c SEQ_ACTIVE (inactive c)) SEQ_INACTIVE []
      | [] =>
          match nbassign c with
          | _ :: _ => set_queue (set_queue c SEQ_ACTIVE (nbassign c)) SEQ_NBASSIGN []
          | [] => set_queue (set_queue c SEQ_ACTIVE (rwsync c)) SEQ_RWSYNC []
          end
      end
  end.
End assignments.

(** *** The main loop *)

(** What follows an iteration. *)
Inductive loop_ctl := Continue | Break.

(** What the scheduler calls and is not part of it. *)
Class SimHooks (E W : Type) := {
  run_run : E -> sched E * W -> option (sched E * W);
  stop_handler : sched E * W -> option (sched E * W);
  vpiNextSimTime : sched E * W -> option (sched E * W);
  vpiEndOfCompile : sched E * W -> option (sched E * W);
  vpiStartOfSim : sched E * W -> option (sched E * W);
  signals_capture : sched E * W -> option (sched E * W);
  signals_revert : sched E * W -> option (sched E * W);
  vpiPostsim : sched E * W -> option (sched E * W) }.

Section simulate.
Context {E W : Type} {H : SimHooks E W}.
Implicit Types (s : sched E * W).

Definition on_sched (f : sched E -> sched E) s : sched E * W := (f (fst s), snd s).

(** The loops [while (list) { pull; cur->run_run(); delete cur; }]. *)
Fixpoint drain (fuel : nat) (pull : sched E -> option (E * sched E)) s : option (sched E * W) :=
  match pull (fst s) with
  | None => Some s
  | Some (cur, sc) =>
      match fuel with
      | O => None
      | S fuel' => s ← run_run cur (sc, snd s); drain fuel' pull s
      end
  end.

(** [run_rosync] *)
Definition run_rosync (fuel : nat) s : option (sched E * W) :=
  let s := on_sched (with_at_rosync true) s in
  s ← drain fuel (pull_queue SEQ_ROSYNC) s;
  let s := on_sched (with_at_rosync false) s in
  drain fuel (pull_queue DEL_THREAD) s.

(** The time advances to the first cell. *)
Definition advance_time (fuel : nat) (ctim : event_time_s E) (next : list (event_time_s E)) s :
    option (sched E * W) :=
  let s := on_sched (fun sc => with_time (w_add (schedule_time sc) (delay ctim))
                                 (with_sched_list (with_delay 0 ctim :: next) sc)) s in
  s ← vpiNextSimTime s;
  drain fuel (pull_queue SEQ_START) s.

(** The second half of the loop body: the queues of the current step advance, and
    one event runs or the step ends.  The single-step flag turns into a stop. *)
Definition run_step (fuel : nat) s : option (sched E * W * loop_ctl) :=
  match sched_list (fst s) with
  | [] => None
  | ctim :: next =>
      let sc := with_sched_list (advance_queues ctim :: next) (fst s) in
      match pull_queue SEQ_ACTIVE sc with
      | None =>
          s ← run_rosync fuel (sc, snd s);
          Some (on_sched (fun sc => with_sched_list (tail (sched_list sc)) sc) s, Continue)
      | Some (cur, sc) =>
          let sc := if schedule_single_step_flag sc then with_single_step false (with_stopped true sc) else sc in
          s ← run_run cur (sc, snd s);
          Some (s, Continue)
      end
  end.

(** The body of [while (sched_list)]. *)
Definition sim_iter (fuel : nat) s : option (sched E * W * loop_ctl) :=
  if schedule_stopped_flag (fst s) then
    s ← stop_handler (on_sched (with_stopped false) s);
    Some (s, if negb (schedule_runnable (fst s)) then Break else Continue)
  else
    match sched_list (fst s) with
    | [] => None
    | ctim :: next =>
        if delay ctim >? 0 then
          if negb (schedule_runnable (fst s)) then Some (s, Break)
          else s ← advance_time fuel ctim next s; run_step fuel s
        else run_step fuel s
    end.

Fixpoint sim_loop (fuel : nat) s : option (sched E * W) :=
  match sched_list (fst s) with
  | [] => Some s
  | _ :: _ =>
      match fuel with
      | O => None
      | S fuel' =>
          '(s, ctl) ← sim_iter fuel' s;
          match ctl with Break => Some s | Continue => sim_loop fuel' s end
      end
  end.

(** [while (schedule_runnable && schedule_final_list)] *)
Definition pull_final_runnable (sc : sched E) : option (E * sched E) :=
  if schedule_runnable sc then pull_final sc else None.

(** [schedule_simulate] *)
Definition schedule_simulate (fuel : nat) s : option (sched E * W) :=
  let s := on_sched (fun sc => with_time 0 (with_started false sc)) s in
  s ← vpiEndOfCompile s;
  s ← drain fuel pull_init s;
  s ← vpiStartOfSim s;
  let s := on_sched (with_started true) s in
  s ← signals_capture s;
  let run_finals := schedule_runnable (fst s) in
  s ← (if run_finals then sim_loop fuel s else Some s);
  let s := on_sched (with_runnable run_finals) s in
  s ← drain fuel pull_final_runnable s;
  s ← signals_revert s;
  vpiPostsim s.
End simulate.

(** *** The abstract view *)

Section view.
Context {E : Type}.
Implicit Types (l : list (event_time_s E)) (s : sched E).

(** The events of region [q] that are due [t] after the current time, in the order
    in which they will run. *)
Fixpoint queue_at l (t : Z) (q : event_queue_t) : list E :=
  match l with
  | [] => []
  | c :: r => (if t =? delay c then get_queue c q else []) ++ queue_at r (t - delay c) q
  end.

(** A well-formed queue: the delays are 64-bit numbers, and only the first cell may
    be due now. *)
Definition times_ok l : Prop :=
  match l with
  | [] => True
  | c :: r => 0 <= delay c < 2 ^ 64 /\ Forall (fun c => 0 < delay c < 2 ^ 64) r
  end.

(** The first cell is the current time step. *)
Definition now_ok l : Prop := match l with [] => False | c :: _ => delay c = 0 end.

(** The events of the current time step that may still change the design, in the
    order of the Verilog regions: the first one, and what its removal leaves. *)
Definition rw_regions : list event_queue_t := [SEQ_ACTIVE; SEQ_INACTIVE; SEQ_NBASSIGN; SEQ_RWSYNC].

Fixpoint first_event (Q : event_queue_t -> list E) (regions : list event_queue_t) : option (E * event_queue_t * list E) :=
  match regions with
  | [] => None
  | q :: r => match Q q with [] => first_event Q r | e :: rest => Some (e, q, rest) end
  end.

(** The queues after the first event has been taken: what is left of its region is
    now active. *)
Definition promoted (Q : event_queue_t -> list E) (q : event_queue_t) (rest : list E) (q' : event_queue_t) : list E :=
  if decide (q' = SEQ_ACTIVE) then rest else if decide (q' = q) then [] else Q q'.

(** The calls an event may make on the scheduler while it runs.  [due] is a label
    of the events: the time they are meant for. *)
Inductive sched_call (due : E -> Z) : sched E -> sched E -> Prop :=
  | call_event cur d q s s' :
      0 <= d < 2 ^ 64 -> schedule_event_ cur d q s = Some s' ->
      due cur = w_add (schedule_time s) d -> sched_call due s s'
  | call_push cur s s' :
      schedule_event_push_ cur s = Some s' -> due cur = schedule_time s -> sched_call due s s'
  | call_init cur s : sched_call due s (schedule_init_event cur s)
  | call_final cur s : sched_call due s (schedule_final_event cur s)
  | call_finish s : sched_call due s (schedule_finish s)
  | call_stop s : sched_call due s (schedule_stop s)
  | call_single_step s : sched_call due s (schedule_single_step s).

(** Every pending event is due at the time its label says. *)
Definition on_time (due : E -> Z) s : Prop :=
  times_ok (sched_list s) /\ word_ok (schedule_time s) /\
  forall t q e, e ∈ queue_at (sched_list s) t q -> due e = w_wrap (schedule_time s + t).
End view.

(** The interface of the scheduler to its clients: an event, and the simulator
    around it, act on the scheduler by its calls only. *)
Class SchedClient {E W} (H : SimHooks E W) (due : E -> Z) := {
  client_run e s s' : run_run e s = Some s' -> rtc (sched_call due) (fst s) (fst s');
  client_stop s s' : stop_handler s = Some s' -> rtc (sched_call due) (fst s) (fst s');
  client_next s s' : vpiNextSimTime s = Some s' -> rtc (sched_call due) (fst s) (fst s') }.

(** The same simulation, in which an event that would run at another time than the
    one it was scheduled for aborts. *)
Definition timed_hooks {E W} (due : E -> Z) (H : SimHooks E W) : SimHooks E W := {|
  run_run e s := if due e =? schedule_time (fst s) then run_run e s else None;
  stop_handler := stop_handler;
  vpiNextSimTime := vpiNextSimTime;
  vpiEndOfCompile := vpiEndOfCompile;
  vpiStartOfSim := vpiStartOfSim;
  signals_capture := signals_capture;
  signals_revert := signals_revert;
  vpiPostsim := vpiPostsim |}.

(** ** Lemmas *)

Section lemmas.
Context {E : Type}.
Implicit Types (l r : list (event_time_s E)) (c : event_time_s E) (s : sched E) (e cur : E).

Lemma get_set_queue c q (l : list E) q' : get_queue (set_queue c q l) q' = if decide (q' = q) then l else get_queue c q'.
Proof. by destruct q, q'. Qed.

Lemma delay_set_queue c q (l : list E) : delay (set_queue c q l) = delay c.
Proof. by destruct q. Qed.

Lemma get_with_delay c d q : get_queue (with_delay d c) q = get_queue c q.
Proof. by destruct q. Qed.

Lemma get_new_time d q : get_queue (@new_time E d) q = [].
Proof. by destruct q. Qed.

Lemma w_sub_small a b : 0 <= b <= a -> a < 2 ^ 64 -> w_sub a b = a - b.
Proof. intros H1 H2. apply w_wrap_id. unfold word_ok. lia. Qed.

Lemma queue_at_past l t q : Forall (fun c => 0 < delay c < 2 ^ 64) l -> t <= 0 -> queue_at l t q = [].
Proof.
  intros H. revert t. induction H as [|c l Hc H IH]; intros t Ht; [done|]. cbn [queue_at].
  rewrite (proj2 (Z.eqb_neq _ _)) by lia. apply IH. lia.
Qed.

Lemma queue_at_far c l t q : Forall (fun c => 0 < delay c < 2 ^ 64) l -> t < delay c -> queue_at (c :: l) t q = [].
Proof.
  intros H Ht. cbn [queue_at]. rewrite (proj2 (Z.eqb_neq _ _)) by lia. apply queue_at_past; [done|lia].
Qed.

(** What an insertion does to the view. *)
Definition inserted l (cur : E) (d : Z) (q : event_queue_t) l' : Prop :=
  forall t q', queue_at l' t q' = queue_at l t q' ++ (if decide (t = d /\ q' = q) then [cur] else []).

Lemma put_event_spec cur d q c :
  put_event cur d q c = if decide (q = SEQ_INACTIVE /\ d <> 0) then None
                        else Some (set_queue c q (get_queue c q ++ [cur])).
Proof.
  unfold put_event. destruct (decide (q = SEQ_INACTIVE)) as [->|Hq].
  - destruct (Z.eqb_spec d 0); [rewrite decide_False by tauto|rewrite decide_True by done]; done.
  - rewrite decide_False by tauto. by destruct q.
Qed.

Lemma inserted_here cur d q c r :
  delay c = d -> Forall (fun c => 0 < delay c < 2 ^ 64) r ->
  inserted (c :: r) cur d q (set_queue c q (get_queue c q ++ [cur]) :: r).
Proof.
  intros Hd Hr t q'. cbn [queue_at]. rewrite delay_set_queue, get_set_queue.
  destruct (Z.eqb_spec t (delay c)) as [->|Hne].
  - rewrite !(queue_at_past r) by (done || lia). rewrite !app_nil_r.
    destruct (decide (q' = q)) as [->|Hq]; [by rewrite decide_True by done|].
    rewrite decide_False by tauto. by rewrite app_nil_r.
  - rewrite decide_False by (intros [? ?]; lia). by rewrite app_nil_r.
Qed.

Lemma inserted_before cur d q c r :
  d < delay c -> Forall (fun c => 0 < delay c < 2 ^ 64) r ->
  inserted (c :: r) cur d q (set_queue (new_time d) q (get_queue (new_time d) q ++ [cur]) :: with_delay (delay c - d) c :: r).
Proof.
  intros Hd Hr t q'. cbn [queue_at]. rewrite delay_set_queue, get_set_queue, get_with_delay, !get_new_time.
  cbn [delay with_delay new_time]. replace (t - d - (delay c - d)) with (t - delay c) by lia.
  replace (t - d =? delay c - d) with (t =? delay c) by (destruct (Z.eqb_spec t (delay c)), (Z.eqb_spec (t - d) (delay c - d)); lia).
  destruct (Z.eqb_spec t d) as [->|Hne].
  - rewrite (proj2 (Z.eqb_neq d (delay c))) by lia. rewrite (queue_at_past r) by (done || lia).
    destruct (decide (q' = q)) as [->|Hq]; [by rewrite decide_True by done|by rewrite decide_False by tauto].
  - rewrite decide_False by tauto. by rewrite app_nil_r.
Qed.

Lemma inserted_after cur d q c :
  delay c < d ->
  inserted [c] cur d q [c; set_queue (new_time (d - delay c)) q (get_queue (new_time (d - delay c)) q ++ [cur])].
Proof.
  intros Hd t q'. cbn [queue_at]. rewrite delay_set_queue, get_set_queue, !get_new_time.
  cbn [delay new_time]. rewrite !app_nil_r.
  replace (t - delay c =? d - delay c) with (t =? d) by (destruct (Z.eqb_spec t d), (Z.eqb_spec (t - delay c) (d - delay c)); lia).
  destruct (Z.eqb_spec t d) as [->|Hne].
  - destruct (decide (q' = q)) as [->|Hq]; [by rewrite decide_True by done|by rewrite decide_False by tauto].
  - by rewrite decide_False by tauto.
Qed.

Lemma inserted_tail cur d q c l l' : inserted l cur (d - delay c) q l' -> inserted (c :: l) cur d q (c :: l').
Proof.
  intros H t q'. cbn [queue_at]. rewrite H, (assoc_L (++)). f_equal.
  destruct (decide (q' = q)) as [->|Hq]; [|by rewrite !decide_False by tauto].
  destruct (decide (t = d)) as [->|Hne]; [by rewrite !decide_True by done|by rewrite !decide_False by lia].
Qed.

Lemma insert_time_spec cur q c r d :
  0 <= delay c < 2 ^ 64 -> Forall (fun c => 0 < delay c < 2 ^ 64) r -> 0 <= d < 2 ^ 64 ->
  (q = SEQ_INACTIVE -> d = 0) ->
  returns (insert_time cur q c r d) (fun l' => inserted (c :: r) cur d q l' /\
    match l' with
    | [] => False
    | c' :: r' => delay c' = Z.min (delay c) d /\ Forall (fun c => 0 < delay c < 2 ^ 64) r'
    end).
Proof.
  revert c d. induction r as [|c1 r IH]; intros c d Hc Hr Hd Hq; cbn [insert_time].
  - rewrite !put_event_spec. destruct (Z.gtb_spec (delay c) d).
    { rewrite decide_False by tauto. cbn [mbind option_bind]. apply returns_ret. rewrite w_sub_small by lia.
      split; [by apply inserted_before|]. rewrite delay_set_queue. cbn. split; [lia|]. constructor; [|done]. cbn. lia. }
    destruct (Z.eqb_spec (delay c) d).
    { rewrite decide_False by tauto. cbn [mbind option_bind]. apply returns_ret.
      split; [by apply inserted_here|]. rewrite delay_set_queue. split; [lia|done]. }
    rewrite decide_False by (intros [-> ?]; lia). cbn [mbind option_bind]. apply returns_ret.
    rewrite w_sub_small by lia. split; [apply inserted_after; lia|]. split; [lia|].
    constructor; [|done]. rewrite delay_set_queue. cbn. lia.
  - inversion Hr as [|? ? Hc1 Hr1]; subst. rewrite !put_event_spec. destruct (Z.ltb_spec (delay c) d).
    { destruct (IH c1 (w_sub d (delay c))) as (l' & -> & Hi & Hl); rewrite ?w_sub_small by lia; [lia|done|lia|lia|].
      cbn [mbind option_bind]. apply returns_ret. rewrite w_sub_small in Hi, Hl by lia.
      split; [by apply inserted_tail|]. split; [lia|]. destruct l' as [|c' r']; [done|].
      destruct Hl as [Hl1 Hl2]. constructor; [lia|done]. }
    rewrite !decide_False by tauto. cbn [mbind option_bind]. destruct (Z.gtb_spec (delay c) d).
    + apply returns_ret. rewrite w_sub_small by lia. split; [by apply inserted_before|].
      rewrite delay_set_queue. cbn. split; [lia|]. constructor; [cbn; lia|done].
    + apply returns_ret. split; [apply inserted_here; [lia|done]|]. rewrite delay_set_queue. split; [lia|done].
Qed.

(** [schedule_event_] in the abstract view. *)
Lemma schedule_event_view s cur d q :
  times_ok (sched_list s) -> 0 <= d < 2 ^ 64 -> (q = SEQ_INACTIVE -> d = 0) ->
  returns (schedule_event_ cur d q s) (fun s' => exists l',
    s' = with_sched_list l' s /\ times_ok l' /\ inserted (sched_list s) cur d q l' /\ (now_ok (sched_list s) -> now_ok l')).
Proof.
  intros Hok Hd Hq. unfold schedule_event_. destruct (sched_list s) as [|c r] eqn:El.
  { rewrite put_event_spec, decide_False by tauto. cbn [mbind option_bind]. apply returns_ret.
    eexists; split; [done|]. split; [|split; [|done]].
    - cbn [times_ok]. rewrite delay_set_queue. by split.
    - intros t q'. cbn [queue_at]. rewrite delay_set_queue, get_set_queue, !get_new_time, app_nil_r. cbn [delay new_time].
      destruct (Z.eqb_spec t d) as [->|]; [|by rewrite decide_False by tauto].
      destruct (decide (q' = q)); [by rewrite decide_True by done|by rewrite decide_False by tauto]. }
  destruct Hok as [Hc Hr]. destruct (Z.gtb_spec (delay c) d).
  - rewrite put_event_spec, decide_False by tauto. cbn [mbind option_bind]. apply returns_ret.
    eexists; split; [done|]. rewrite w_sub_small by lia. split; [|split; [by apply inserted_before|cbn; lia]].
    cbn [times_ok]. rewrite delay_set_queue. split; [done|]. constructor; [cbn; lia|done].
  - destruct (insert_time_spec cur q c r d Hc Hr Hd Hq) as (l' & -> & Hi & Hl). cbn [mbind option_bind].
    apply returns_ret. exists l'. split; [done|]. destruct l' as [|c' r']; [done|]. destruct Hl as [Hl1 Hl2].
    split; [split; [lia|done]|]. split; [done|]. cbn. lia.
Qed.

Lemma insert_time_aborts cur c r d :
  0 <= delay c < 2 ^ 64 -> Forall (fun c => 0 < delay c < 2 ^ 64) r -> 0 < d < 2 ^ 64 ->
  insert_time cur SEQ_INACTIVE c r d = None.
Proof.
  revert c d. induction r as [|c1 r IH]; intros c d Hc Hr Hd; cbn [insert_time];
    rewrite !put_event_spec, !(decide_True (P := SEQ_INACTIVE = SEQ_INACTIVE /\ d <> 0)) by (split; [done|lia]).
  - cbn [mbind option_bind]. destruct (Z.gtb_spec (delay c) d); [done|]. destruct (Z.eqb_spec (delay c) d); [done|].
    done.
  - inversion Hr as [|? ? Hc1 Hr1]; subst. cbn [mbind option_bind]. destruct (Z.ltb_spec (delay c) d).
    + rewrite w_sub_small, IH by (done || lia). done.
    + by destruct (delay c >? d).
Qed.

Lemma schedule_event_inactive s cur d :
  times_ok (sched_list s) -> 0 < d < 2 ^ 64 -> schedule_event_ cur d SEQ_INACTIVE s = None.
Proof.
  intros Hok Hd. unfold schedule_event_. rewrite !put_event_spec, !(decide_True (P := SEQ_INACTIVE = SEQ_INACTIVE /\ d <> 0)) by (split; [done|lia]).
  destruct (sched_list s) as [|c r]; [done|]. destruct Hok as [Hc Hr]. destruct (delay c >? d); [done|].
  by rewrite insert_time_aborts.
Qed.

(** [schedule_event_push_]: the event goes in front of the active events. *)
Lemma schedule_event_push_view s cur :
  times_ok (sched_list s) ->
  returns (schedule_event_push_ cur s) (fun s' => exists l',
    s' = with_sched_list l' s /\ times_ok l' /\ (now_ok (sched_list s) -> now_ok l') /\
    forall t q, queue_at l' t q = (if decide (t = 0 /\ q = SEQ_ACTIVE) then [cur] else []) ++ queue_at (sched_list s) t q).
Proof.
  intros Hok. unfold schedule_event_push_.
  destruct (schedule_event_view s cur 0 SEQ_ACTIVE Hok ltac:(lia) ltac:(done)) as (s' & Ev & l' & -> & Hl & Hi & Hn).
  assert (Hf : queue_at (sched_list s) 0 SEQ_ACTIVE = [] ->
    returns (Some (with_sched_list l' s)) (fun s' => exists l', s' = with_sched_list l' s /\ times_ok l' /\
      (now_ok (sched_list s) -> now_ok l') /\
      forall t q, queue_at l' t q = (if decide (t = 0 /\ q = SEQ_ACTIVE) then [cur] else []) ++ queue_at (sched_list s) t q)).
  { intros H0. apply returns_ret. exists l'. split_and!; [done..|]. intros t q. rewrite Hi.
    destruct (decide _) as [[-> ->]|]; [|by rewrite app_nil_r]. by rewrite H0. }
  destruct (sched_list s) as [|c r] eqn:El; [rewrite Ev; by apply Hf|]. destruct Hok as [Hc Hr].
  destruct (Z.gtb_spec (delay c) 0) as [Hp|Hp]; [rewrite Ev; apply Hf, queue_at_far; done|].
  apply returns_ret. eexists. split; [done|]. split; [cbn [times_ok]; rewrite delay_set_queue; done|].
  split; [cbn; done|]. intros t q. cbn [queue_at]. rewrite delay_set_queue, get_set_queue, (assoc_L (++)). f_equal.
  destruct (Z.eqb_spec t (delay c)) as [->|Hne].
  - destruct (decide (q = SEQ_ACTIVE)) as [->|Hq]; [rewrite decide_True by (split; [lia|done]); done|].
    by rewrite decide_False by tauto.
  - by rewrite decide_False by (intros [-> _]; lia).
Qed.

(** *** The label of the events *)

(** A list that holds no new event keeps its events on time. *)
Lemma on_time_incl due l' s :
  on_time due s -> times_ok l' ->
  (forall t q e, e ∈ queue_at l' t q -> exists q', e ∈ queue_at (sched_list s) t q') ->
  on_time due (with_sched_list l' s).
Proof.
  intros (Hok & Ht & H) Hl Hi. split; [done|]. split; [done|]. intros t q e He.
  destruct (Hi t q e He) as [q' He']. by apply (H t q').
Qed.

(** The first cell gives up some of its events. *)
Lemma on_time_head due c c' r s :
  on_time due s -> sched_list s = c :: r -> delay c' = delay c ->
  (forall q e, e ∈ get_queue c' q -> exists q', e ∈ get_queue c q') ->
  on_time due (with_sched_list (c' :: r) s).
Proof.
  intros Ho El Hd Hi. apply on_time_incl; [done| |].
  - destruct Ho as (Hok & _). rewrite El in Hok. cbn in *. by rewrite Hd.
  - intros t q e. rewrite El. cbn [queue_at]. rewrite Hd, elem_of_app. intros [He|He].
    + destruct (Z.eqb_spec t (delay c)); [|by apply not_elem_of_nil in He].
      destruct (Hi q e He) as [q' He']. exists q'. apply elem_of_app. by left.
    + exists q. apply elem_of_app. by right.
Qed.

Lemma sched_call_preserves due s s' :
  sched_call due s s' -> on_time due s ->
  on_time due s' /\ schedule_time s' = schedule_time s /\ (now_ok (sched_list s) -> now_ok (sched_list s')).
Proof.
  intros Hcall Ho. pose proof Ho as (Hok & Ht & H). destruct Hcall as [cur d q s s' Hd Ev Hdue|cur s s' Ev Hdue| | |s| |]; [| |done..| |done|done].
  - assert (Hq : q = SEQ_INACTIVE -> d = 0).
    { intros ->. destruct (Z.eq_dec d 0) as [|Hne]; [done|]. by rewrite schedule_event_inactive in Ev by (done || lia). }
    destruct (schedule_event_view s cur d q Hok Hd Hq) as (s1 & Ev1 & l' & -> & Hl & Hi & Hn).
    rewrite Ev in Ev1. injection Ev1 as ->. split; [|by split]. split; [done|]. split; [done|].
    intros t q' e. cbn [sched_list with_sched_list schedule_time]. rewrite Hi, elem_of_app. intros [He|He]; [by apply (H t q')|].
    destruct (decide _) as [[-> ->]|]; [|by apply not_elem_of_nil in He]. by apply list_elem_of_singleton in He as ->.
  - destruct (schedule_event_push_view s cur Hok) as (s1 & Ev1 & l' & -> & Hl & Hn & Hi).
    rewrite Ev in Ev1. injection Ev1 as ->. split; [|by split]. split; [done|]. split; [done|].
    intros t q' e. cbn [sched_list with_sched_list schedule_time]. rewrite Hi, elem_of_app. intros [He|He]; [|by apply (H t q')].
    destruct (decide _) as [[-> ->]|]; [|by apply not_elem_of_nil in He]. apply list_elem_of_singleton in He as ->.
    rewrite Z.add_0_r, w_wrap_id by done. done.
  - unfold schedule_finish. destruct (sched_list s) as [|c r] eqn:El; cbn; rewrite ?El; [done|].
    split; [|done]. apply (on_time_head due c (clear_events c) r s Ho El); [done|].
    intros q e. destruct q; cbn; intros He; (by apply not_elem_of_nil in He) || (by exists SEQ_START) || (by exists DEL_THREAD).
Qed.

Lemma sched_calls_preserve due s s' :
  rtc (sched_call due) s s' -> on_time due s ->
  on_time due s' /\ schedule_time s' = schedule_time s /\ (now_ok (sched_list s) -> now_ok (sched_list s')).
Proof.
  induction 1 as [s|s s1 s2 Hc _ IH]; intros Ho; [done|].
  destruct (sched_call_preserves due s s1 Hc Ho) as (Ho1 & Ht1 & Hn1).
  destruct (IH Ho1) as (Ho2 & Ht2 & Hn2). split_and!; [done|congruence|tauto].
Qed.

(** An event of the current time step is due now. *)
Lemma pull_queue_on_time due q s e s' :
  on_time due s -> now_ok (sched_list s) -> pull_queue q s = Some (e, s') ->
  due e = schedule_time s' /\ on_time due s' /\ now_ok (sched_list s') /\ schedule_time s' = schedule_time s.
Proof.
  unfold pull_queue. intros Ho Hn. destruct (sched_list s) as [|c r] eqn:El; [done|].
  destruct (get_queue c q) as [|e0 l] eqn:Eq; [done|]. intros [= -> <-]. cbn [sched_list with_sched_list schedule_time].
  pose proof Ho as (Hok & Ht & H). cbn [now_ok] in Hn. split; [|split; [|split; [cbn; by rewrite delay_set_queue|done]]].
  - rewrite (H 0 q), Z.add_0_r; [by apply w_wrap_id|]. rewrite El. cbn [queue_at]. rewrite Hn, Eq. left.
  - apply (on_time_head due c); [done..|apply delay_set_queue|]. intros q' e'. rewrite get_set_queue.
    destruct (decide _) as [->|]; [|by exists q']. intros He. exists q. rewrite Eq. by right.
Qed.

Lemma advance_queues_regions c q e : e ∈ get_queue (advance_queues c) q -> exists q', e ∈ get_queue c q'.
Proof.
  unfold advance_queues. destruct (active c) eqn:Ea; [|by exists q].
  destruct (inactive c) eqn:Ei; [destruct (nbassign c) eqn:En|]; rewrite !get_set_queue; intros He;
    repeat (case_decide; subst); try (by apply not_elem_of_nil in He); try (by exists q).
  - by exists SEQ_RWSYNC.
  - exists SEQ_NBASSIGN. cbn. by rewrite En.
  - exists SEQ_INACTIVE. cbn. by rewrite Ei.
Qed.

Lemma delay_advance_queues c : delay (advance_queues c) = delay c.
Proof. unfold advance_queues. destruct (active c), (inactive c), (nbassign c); by rewrite ?delay_set_queue. Qed.
End lemmas.

(** *** The main loop runs events on time *)

Section timed.
Context {E W : Type} {H : SimHooks E W} {due : E -> Z} {HC : SchedClient H due}.
Implicit Types (s : sched E * W).

(** The same computation with [timed_hooks], from states that satisfy [P]; the
    result satisfies [Q]. *)
Definition same_timed {A} (m : SimHooks E W -> sched E * W -> option A) (P : sched E -> Prop) (Q : sched E -> A -> Prop) : Prop :=
  forall s, P (fst s) -> m (timed_hooks due H) s = m H s /\ forall a, m H s = Some a -> Q (fst s) a.

Lemma drain_timed fuel pull (P : sched E -> Prop) :
  (forall sc e sc', P sc -> pull sc = Some (e, sc') -> due e = schedule_time sc' /\ P sc') ->
  (forall sc sc', P sc -> rtc (sched_call due) sc sc' -> P sc') ->
  same_timed (fun H => drain (H := H) fuel pull) P (fun _ s' => P (fst s')).
Proof.
  intros Hpull Hcalls. unfold same_timed. induction fuel as [|fuel IH]; intros s HP; cbn [drain].
  - destruct (pull (fst s)) as [[e sc]|]; (split; [done|]); intros a [=]; by subst.
  - destruct (pull (fst s)) as [[e sc]|] eqn:Ep; [|split; [done|]; intros a [=]; by subst].
    destruct (Hpull _ _ _ HP Ep) as [Hd HP']. cbn [run_run timed_hooks fst]. rewrite (proj2 (Z.eqb_eq _ _)) by done.
    destruct (run_run e (sc, snd s)) as [s1|] eqn:Er; [|by split]. cbn [mbind option_bind].
    apply IH. apply (Hcalls sc); [done|]. by apply (client_run e (sc, snd s)).
Qed.

Definition current (sc : sched E) : Prop := on_time due sc /\ now_ok (sched_list sc).

Lemma drain_queue_timed fuel q :
  same_timed (fun H => drain (H := H) fuel (pull_queue q)) current (fun _ s' => current (fst s')).
Proof.
  apply drain_timed.
  - intros sc e sc' [Ho Hn] Hp. destruct (pull_queue_on_time due q sc e sc' Ho Hn Hp) as (? & ? & ? & _). done.
  - intros sc sc' [Ho Hn] Hc. destruct (sched_calls_preserve due sc sc' Hc Ho) as (? & _ & ?). split; [done|tauto].
Qed.

Lemma run_rosync_timed fuel :
  same_timed (fun H => run_rosync (H := H) fuel) current (fun _ s' => current (fst s')).
Proof.
  intros s Hs. unfold run_rosync.
  destruct (drain_queue_timed fuel SEQ_ROSYNC (on_sched (with_at_rosync true) s) Hs) as [E1 P1]. rewrite E1.
  destruct (drain (H := H) fuel (pull_queue SEQ_ROSYNC) (on_sched (with_at_rosync true) s)) as [s1|]; [|by split].
  specialize (P1 s1 eq_refl). cbn [mbind option_bind].
  destruct (drain_queue_timed fuel DEL_THREAD (on_sched (with_at_rosync false) s1) P1) as [E2 P2]. by split.
Qed.

Lemma current_pop (sc : sched E) : current sc -> on_time due (with_sched_list (tail (sched_list sc)) sc).
Proof.
  intros [(Hok & Ht & Ho) Hn]. destruct (sched_list sc) as [|c r] eqn:El; [done|]. destruct Hok as [Hc Hr].
  cbn [now_ok] in Hn. cbn [tail]. split; [|split; [done|]].
  - cbn. destruct Hr as [|c1 r1 H1 Hr]; [done|]. split; [lia|done].
  - intros t q e He. apply (Ho t q). cbn [queue_at sched_list with_sched_list] in *. rewrite Hn, Z.sub_0_r. apply elem_of_app. by right.
Qed.

Lemma run_step_timed fuel :
  same_timed (fun H => run_step (H := H) fuel) current (fun _ a => on_time due (fst (fst a))).
Proof.
  intros s [Ho Hn]. unfold run_step. destruct (sched_list (fst s)) as [|c r] eqn:El; [done|].
  set (sc0 := with_sched_list (advance_queues c :: r) (fst s)).
  assert (Hc0 : current sc0).
  { split; [|cbn in *; by rewrite delay_advance_queues].
    apply (on_time_head due c); [done..|apply delay_advance_queues|]. intros q e. apply advance_queues_regions. }
  destruct (pull_queue SEQ_ACTIVE sc0) as [[e sc]|] eqn:Ep.
  - destruct Hc0 as [Ho0 Hn0]. destruct (pull_queue_on_time due SEQ_ACTIVE sc0 e sc Ho0 Hn0 Ep) as (Hd & Ho1 & Hn1 & Ht1).
    set (sc1 := if schedule_single_step_flag sc then with_single_step false (with_stopped true sc) else sc).
    assert (Hsc1 : on_time due sc1 /\ schedule_time sc1 = schedule_time sc) by (unfold sc1; by destruct (schedule_single_step_flag sc)).
    destruct Hsc1 as [Ho2 Ht2]. cbn [run_run timed_hooks fst]. rewrite (proj2 (Z.eqb_eq _ _)) by congruence.
    destruct (run_run e (sc1, snd s)) as [s1|] eqn:Er; [|by split]. split; [done|]. intros a [= <-]. cbn [fst].
    by destruct (sched_calls_preserve due sc1 (fst s1) (client_run _ _ _ Er) Ho2).
  - destruct (run_rosync_timed fuel (sc0, snd s) Hc0) as [E1 P1]. rewrite E1.
    destruct (run_rosync (H := H) fuel (sc0, snd s)) as [s1|]; [|by split]. split; [done|]. intros a [= <-]. cbn [fst on_sched].
    apply current_pop. by apply P1.
Qed.

Lemma advance_on_time (sc : sched E) c r :
  on_time due sc -> sched_list sc = c :: r ->
  current (with_time (w_add (schedule_time sc) (delay c)) (with_sched_list (with_delay 0 c :: r) sc)).
Proof.
  intros (Hok & Ht & Ho) El. rewrite El in Hok, Ho. destruct Hok as [Hc Hr]. split; [|done].
  split; [by split|]. split; [apply w_wrap_ok|]. cbn [schedule_time with_time sched_list with_sched_list].
  intros t q e He. rewrite (Ho (t + delay c) q).
  - rewrite !w_wrap_mod. unfold w_add. rewrite w_wrap_mod, Zplus_mod_idemp_l. f_equal. lia.
  - cbn [queue_at] in *. rewrite get_with_delay in He. cbn [delay with_delay] in He.
    replace (t + delay c - delay c) with (t - 0) by lia.
    replace (t + delay c =? delay c) with (t =? 0) by (destruct (Z.eqb_spec t 0), (Z.eqb_spec (t + delay c) (delay c)); lia).
    done.
Qed.

Lemma advance_time_timed fuel c r :
  same_timed (fun H => advance_time (H := H) fuel c r)
    (fun sc => on_time due sc /\ sched_list sc = c :: r) (fun _ s' => current (fst s')).
Proof.
  intros s [Ho El]. unfold advance_time. pose proof (advance_on_time (fst s) c r Ho El) as [Ho1 Hn1].
  change (vpiNextSimTime (SimHooks := timed_hooks due H)) with (vpiNextSimTime (SimHooks := H)).
  set (s0 := on_sched _ s). destruct (vpiNextSimTime s0) as [s1|] eqn:E1; [|by split]. cbn [mbind option_bind].
  destruct (sched_calls_preserve due (fst s0) (fst s1) (client_next _ _ E1) Ho1) as (Ho2 & _ & Hn2).
  apply drain_queue_timed. split; [done|]. by apply Hn2.
Qed.

Lemma sim_iter_timed fuel :
  same_timed (fun H => sim_iter (H := H) fuel) (fun sc => on_time due sc) (fun _ a => on_time due (fst (fst a))).
Proof.
  intros s Ho. unfold sim_iter. change (stop_handler (SimHooks := timed_hooks due H)) with (stop_handler (SimHooks := H)).
  destruct (schedule_stopped_flag (fst s)).
  { destruct (stop_handler (on_sched (with_stopped false) s)) as [s1|] eqn:E1; [|by split]. split; [done|].
    intros a [= <-]. by destruct (sched_calls_preserve due _ _ (client_stop _ _ E1) Ho). }
  destruct (sched_list (fst s)) as [|c r] eqn:El; [done|]. destruct (Z.gtb_spec (delay c) 0).
  - destruct (negb (schedule_runnable (fst s))); [split; [done|]; by intros a [= <-]|].
    destruct (advance_time_timed fuel c r s (conj Ho El)) as [E1 P1]. rewrite E1.
    destruct (advance_time (H := H) fuel c r s) as [s1|]; [|by split]. cbn [mbind option_bind]. apply run_step_timed. by apply P1.
  - apply run_step_timed. split; [done|]. rewrite El. destruct Ho as (Hok & _). rewrite El in Hok. destruct Hok as [Hc _]. cbn. lia.
Qed.

Lemma sim_loop_timed fuel s :
  on_time due (fst s) -> sim_loop (H := timed_hooks due H) fuel s = sim_loop (H := H) fuel s.
Proof.
  revert s. induction fuel as [|fuel IH]; intros s Ho; cbn [sim_loop]; destruct (sched_list (fst s)); try done.
  destruct (sim_iter_timed fuel s Ho) as [E1 P1]. rewrite E1. destruct (sim_iter (H := H) fuel s) as [[s1 ctl]|]; [|done].
  cbn [mbind option_bind]. destruct ctl; [|done]. apply IH. by apply (P1 _ eq_refl).
Qed.
End timed.

(** *** One step, and a simulation without new events *)

Section steps.
Context {E W : Type} {H : SimHooks E W}.
Implicit Types (s : sched E * W) (c : event_time_s E).

(** [advance_queues] brings the first region that is not empty to the front. *)
Lemma advance_queues_first c :
  match first_event (get_queue c) rw_regions with
  | Some (e, q, rest) => active (advance_queues c) = e :: rest /\
      forall q', get_queue (set_queue (advance_queues c) SEQ_ACTIVE rest) q' = promoted (get_queue c) q rest q'
  | None => advance_queues c = c /\ active c = [] /\ inactive c = [] /\ nbassign c = [] /\ rwsync c = []
  end.
Proof.
  unfold advance_queues, promoted. destruct c as [d st ac ia nb rw ro dt]. cbn.
  destruct ac; [|by split; [|intros []]]. destruct ia; [|by split; [|intros []]].
  destruct nb; [|by split; [|intros []]]. destruct rw; [done|]. by split; [|intros []].
Qed.

Lemma first_event_now c r : Forall (fun c => 0 < delay c < 2 ^ 64) r -> delay c = 0 ->
  forall q, queue_at (c :: r) 0 q = get_queue c q.
Proof. intros Hr Hc q. cbn [queue_at]. by rewrite Hc, queue_at_past, app_nil_r by (done || lia). Qed.

Lemma first_event_ext (Q Q' : event_queue_t -> list E) regions :
  (forall q, Q q = Q' q) -> first_event Q regions = first_event Q' regions.
Proof. intros HQ. induction regions as [|q r IH]; [done|]. cbn. rewrite HQ, IH. done. Qed.

(** Changing the first cell is seen at the current time only. *)
Lemma queue_at_head c c' r t q : delay c' = delay c -> t <> delay c -> queue_at (c' :: r) t q = queue_at (c :: r) t q.
Proof. intros Hd Ht. cbn [queue_at]. rewrite Hd. by rewrite (proj2 (Z.eqb_neq _ _)). Qed.

(** The events of a time step in the order they run. *)
Definition step_events c : list E :=
  active c ++ inactive c ++ nbassign c ++ rwsync c ++ rosync c ++ del_thr c.

(** All pending events in the order they run, if no event makes new ones. *)
Fixpoint run_order (l : list (event_time_s E)) : list E :=
  match l with
  | [] => []
  | c :: r => (if delay c >? 0 then start c else []) ++ step_events c ++ run_order r
  end.

(** An upper bound on the iterations. *)
Fixpoint loop_measure (l : list (event_time_s E)) : nat :=
  match l with
  | [] => O
  | c :: r => S (length (start c) + length (step_events c) + loop_measure r)
  end.

Fixpoint total_delay (l : list (event_time_s E)) : Z :=
  match l with [] => 0 | c :: r => delay c + total_delay r end.

Lemma step_events_first c :
  match first_event (get_queue c) rw_regions with
  | Some (e, q, rest) => step_events c = e :: step_events (set_queue (advance_queues c) SEQ_ACTIVE rest)
  | None => step_events c = rosync c ++ del_thr c
  end.
Proof.
  unfold step_events, advance_queues. destruct c as [d st ac ia nb rw ro dt]. cbn.
  destruct ac; [|done]. destruct ia; [|done]. destruct nb; [|done]. by destruct rw.
Qed.

(** The events leave the scheduler alone. *)
Variable f : E -> W -> W.
Hypothesis run_static : forall e s, run_run e s = Some (fst s, f e (snd s)).
Hypothesis next_static : forall s, vpiNextSimTime s = Some s.

Definition run_all (l : list E) (w : W) : W := fold_left (fun w e => f e w) l w.

Lemma drain_static fuel q c r sc w :
  sched_list sc = c :: r -> (length (get_queue c q) <= fuel)%nat ->
  drain fuel (pull_queue q) (sc, w) = Some (with_sched_list (set_queue c q [] :: r) sc, run_all (get_queue c q) w).
Proof.
  revert c sc w. induction fuel as [|fuel IH]; intros c sc w El Hf; cbn [drain fst]; unfold pull_queue; rewrite El;
    destruct (get_queue c q) as [|e l] eqn:Eq; cbn [length] in Hf; try lia.
  1, 2: replace (set_queue c q []) with c by (destruct c, q; cbn in *; by rewrite Eq); by destruct sc; cbn in *; subst.
  rewrite run_static. cbn [mbind option_bind fst snd].
  rewrite (IH (set_queue c q l)); [|done|by rewrite get_set_queue, decide_True by done; lia].
  rewrite get_set_queue, decide_True by done. f_equal. f_equal. unfold with_sched_list. cbn. by destruct c, q.
Qed.

Lemma run_step_static fuel sc w c r :
  sched_list sc = c :: r -> delay c = 0 -> (length (step_events c) <= fuel)%nat -> schedule_single_step_flag sc = false ->
  exists sc' w',
    run_step fuel (sc, w) = Some (sc', w', Continue) /\
    schedule_time sc' = schedule_time sc /\ schedule_runnable sc' = schedule_runnable sc /\
    schedule_stopped_flag sc' = schedule_stopped_flag sc /\ schedule_single_step_flag sc' = false /\
    ((sched_list sc' = r /\ w' = run_all (step_events c) w) \/
     (exists c', sched_list sc' = c' :: r /\ delay c' = 0 /\ start c' = start c /\
        (length (step_events c') < length (step_events c))%nat /\
        run_all (step_events c') w' = run_all (step_events c) w)).
Proof.
  intros El Hd Hf Hss. unfold run_step. cbn [fst]. rewrite El. cbn [snd].
  pose proof (advance_queues_first c) as Ha. pose proof (step_events_first c) as Hs. unfold pull_queue.
  cbn [sched_list with_sched_list get_queue].
  destruct (first_event (get_queue c) rw_regions) as [[[e q] rest]|].
  - destruct Ha as [Ha _]. rewrite Ha. cbn [schedule_single_step_flag with_sched_list]. rewrite Hss, run_static.
    cbn [mbind option_bind]. do 2 eexists. split; [done|]. split_and!; try done. right.
    exists (set_queue (advance_queues c) SEQ_ACTIVE rest). split; [done|].
    split; [by rewrite delay_set_queue, delay_advance_queues|]. split.
    { unfold advance_queues. destruct c as [d st [|? ac] [|? ia] [|? nb] rw ro dt]; done. }
    rewrite Hs. cbn [length run_all fold_left snd]. split; [lia|done].
  - destruct Ha as [Ha (Ea & _)]. rewrite Ha, Ea. unfold run_rosync. rewrite Hs, length_app in Hf.
    unfold on_sched. cbn [fst snd]. rewrite (drain_static fuel SEQ_ROSYNC c r) by (done || (cbn; lia)).
    cbn [mbind option_bind fst snd]. rewrite (drain_static fuel DEL_THREAD (set_queue c SEQ_ROSYNC []) r) by (done || (cbn; lia)).
    cbn [mbind option_bind fst snd]. do 2 eexists. split; [done|]. split_and!; try done. left. split; [done|].
    rewrite Hs. unfold run_all. by rewrite fold_left_app.
Qed.

Lemma sim_loop_static_aux fuel sc w :
  times_ok (sched_list sc) -> word_ok (schedule_time sc) -> schedule_runnable sc = true ->
  schedule_stopped_flag sc = false -> schedule_single_step_flag sc = false ->
  (loop_measure (sched_list sc) <= fuel)%nat ->
  exists sc', sim_loop fuel (sc, w) = Some (sc', run_all (run_order (sched_list sc)) w) /\
    sched_list sc' = [] /\ schedule_time sc' = w_wrap (schedule_time sc + total_delay (sched_list sc)).
Proof.
  revert sc w. induction fuel as [|fuel IH]; intros sc w Hok Ht Hr Hst Hss Hf; cbn [sim_loop fst];
    destruct (sched_list sc) as [|c r] eqn:El; cbn [loop_measure] in Hf; try lia.
  1, 2: exists sc; split; [done|]; split; [done|]; cbn [total_delay]; by rewrite Z.add_0_r, w_wrap_id.
  destruct Hok as [Hc Hrest]. unfold sim_iter. cbn [fst]. rewrite Hst, El, Hr. cbn [negb].
  assert (Hstep : forall sc0 w0 c0, sched_list sc0 = c0 :: r -> delay c0 = 0 -> step_events c0 = step_events c ->
    (length (start c0) <= length (start c))%nat -> word_ok (schedule_time sc0) ->
    schedule_runnable sc0 = true -> schedule_stopped_flag sc0 = false -> schedule_single_step_flag sc0 = false ->
    exists sc', ('(s, ctl) ← run_step fuel (sc0, w0);
        match ctl with Continue => sim_loop fuel s | Break => Some s end) = Some (sc', run_all (step_events c ++ run_order r) w0) /\
      sched_list sc' = [] /\ schedule_time sc' = w_wrap (schedule_time sc0 + total_delay r)).
  { intros sc0 w0 c0 El0 Hd0 Hse Hs0 Ht0 Hr0 Hst0 Hss0.
    destruct (run_step_static fuel sc0 w0 c0 r El0 Hd0 ltac:(rewrite Hse; lia) Hss0)
      as (sc1 & w1 & -> & T1 & R1 & S1 & SS1 & Hcase).
    cbn [mbind option_bind]. rewrite Hse in Hcase.
    destruct Hcase as [[El1 ->]|(c1 & El1 & Hd1 & Hs1 & Hlen & Hrun)].
    - destruct (IH sc1 (run_all (step_events c) w0)) as (sc' & E' & L' & T'); rewrite ?El1; try congruence; [|lia|].
      + destruct Hrest as [|c2 r2 H2 Hrest]; [done|]. split; [lia|done].
      + exists sc'. rewrite E', El1. unfold run_all. rewrite fold_left_app. split; [done|]. rewrite T', T1, El1. done.
    - destruct (IH sc1 w1) as (sc' & E' & L' & T'); rewrite ?El1; try congruence.
      + split; [lia|done].
      + cbn [loop_measure]. rewrite Hs1. lia.
      + exists sc'. rewrite E', El1. cbn [run_order]. rewrite Hd1. cbn [Z.gtb Z.compare app]. unfold run_all.
        rewrite !fold_left_app. fold (run_all (step_events c1) w1). rewrite Hrun. split; [done|]. split; [done|].
        rewrite T', T1, El1. cbn [total_delay]. by rewrite Hd1. }
  cbn [run_order total_delay]. destruct (Z.gtb_spec (delay c) 0) as [Hp|Hp].
  - unfold advance_time, on_sched. cbn [fst snd]. rewrite next_static. cbn [mbind option_bind].
    rewrite (drain_static fuel SEQ_START (with_delay 0 c) r) by (done || (cbn; lia)). cbn [mbind option_bind].
    match goal with |- context [run_step fuel (?sc0, _)] =>
      destruct (Hstep sc0 (run_all (start c) w) (set_queue (with_delay 0 c) SEQ_START [])) as (sc' & E' & L' & T');
      [reflexivity|done|done|cbn; lia|apply w_wrap_ok|done..|] end. exists sc'. split; [|split; [done|]].
    + etransitivity; [exact E'|]. unfold run_all. by rewrite !fold_left_app.
    + rewrite T'. cbn [schedule_time with_time with_sched_list]. unfold w_add.
      rewrite !w_wrap_mod, Zplus_mod_idemp_l. f_equal. lia.
  - cbn [app]. destruct (Hstep sc w c El ltac:(lia) eq_refl ltac:(lia) Ht Hr Hst Hss) as (sc' & E' & L' & T').
    exists sc'. split; [done|]. split; [done|]. rewrite T'. f_equal. lia.
Qed.
End steps.

(** ** Properties *)

(** C24: [schedule_event_] puts the event at the end of its region at its absolute
    time, whatever cells the queue has, moves no other event, and keeps the queue
    well formed (64-bit delays, strictly increasing times); it aborts exactly for
    an inactive event with a delay. *)
Theorem schedule_event_spec {E} (s : sched E) cur d q :
  times_ok (sched_list s) -> 0 <= d < 2 ^ 64 ->
  if decide (q = SEQ_INACTIVE /\ d <> 0) then schedule_event_ cur d q s = None
  else returns (schedule_event_ cur d q s) (fun s' => exists l',
    s' = with_sched_list l' s /\ times_ok l' /\
    forall t q', queue_at l' t q' = queue_at (sched_list s) t q' ++ (if decide (t = d /\ q' = q) then [cur] else [])).
Proof.
  intros Hok Hd. destruct (decide _) as [[-> Hne]|Hq]; [apply schedule_event_inactive; [done|lia]|].
  destruct (schedule_event_view s cur d q Hok Hd) as (s' & E1 & l' & -> & Hl & Hi & _).
  { intros ->. destruct (Z.eq_dec d 0); tauto. }
  exists (with_sched_list l' s). split; [done|]. by exists l'.
Qed.

(** Cells at the times 0, 5 and 12; an event is due at 7. *)
Lemma schedule_event_spec_witness :
  let s : sched Z := with_sched_list [mk_time 0 [] [1] [] [] [] [] []; mk_time 5 [] [] [] [2] [] [] [];
                                      mk_time 7 [] [3] [] [] [] [] []] sched_init in
  exists l', schedule_event_ 4 7 SEQ_NBASSIGN s = Some (with_sched_list l' s) /\
    map delay l' = [0; 5; 2; 5] /\ queue_at l' 7 SEQ_NBASSIGN = [4] /\ queue_at l' 12 SEQ_ACTIVE = [3] /\
    times_ok l' /\
    forall t q', queue_at l' t q' = queue_at (sched_list s) t q' ++ (if decide (t = 7 /\ q' = SEQ_NBASSIGN) then [4] else []).
Proof.
  pose proof (schedule_event_spec (with_sched_list [mk_time 0 [] [1] [] [] [] [] []; mk_time 5 [] [] [] [2] [] [] [];
                                      mk_time 7 [] [3] [] [] [] [] []] sched_init) 4 7 SEQ_NBASSIGN) as H.
  destruct H as (s' & E1 & l' & -> & Hok & Hv); [split; [cbn; lia|by repeat constructor]|lia|].
  eexists. split; [exact E1|]. injection E1 as <-. split; [done|]. split; [done|]. split; [done|]. split; [done|exact Hv].
Defined.

(** C23: The main loop follows the stratified event queue: within a time step it
    runs the first event of the first region that is not empty, in the order
    active, inactive, nonblocking assignments, read-write sync; what remains of
    that region becomes the active region, all later time steps are as before;
    only when the four regions are empty do the read-only sync events and the
    deletions of threads run and the time step end. *)
Theorem run_step_stratified {E W} {H : SimHooks E W} fuel (s : sched E) (w : W) c r :
  times_ok (sched_list s) -> sched_list s = c :: r -> delay c = 0 ->
  match first_event (queue_at (sched_list s) 0) rw_regions with
  | Some (e, q, rest) => exists s1,
      run_step fuel (s, w) = (s' ← run_run e (s1, w); Some (s', Continue)) /\
      schedule_time s1 = schedule_time s /\
      (forall q', queue_at (sched_list s1) 0 q' = promoted (queue_at (sched_list s) 0) q rest q') /\
      (forall t q', t <> 0 -> queue_at (sched_list s1) t q' = queue_at (sched_list s) t q')
  | None =>
      run_step fuel (s, w) =
      (s' ← run_rosync fuel (s, w); Some (on_sched (fun sc => with_sched_list (tail (sched_list sc)) sc) s', Continue))
  end.
Proof.
  intros Hok El Hd. rewrite El in *. destruct Hok as [Hc Hr].
  rewrite (first_event_ext _ (get_queue c)) by by apply first_event_now.
  unfold run_step. cbn [fst]. rewrite El. pose proof (advance_queues_first c) as Ha. unfold pull_queue. cbn [sched_list with_sched_list get_queue].
  destruct (first_event (get_queue c) rw_regions) as [[[e q] rest]|].
  - destruct Ha as [Ha Hp]. rewrite Ha. cbn [snd]. eexists. split; [reflexivity|]. cbn [schedule_single_step_flag with_sched_list].
    assert (Hd' : delay (set_queue (advance_queues c) SEQ_ACTIVE rest) = 0) by by rewrite delay_set_queue, delay_advance_queues.
    split; [by destruct (schedule_single_step_flag s)|]. split.
    + intros q'. transitivity (queue_at (set_queue (advance_queues c) SEQ_ACTIVE rest :: r) 0 q');
        [by destruct (schedule_single_step_flag s)|]. rewrite first_event_now, Hp by done. unfold promoted.
      repeat case_decide; by rewrite ?first_event_now.
    + intros t q' Ht. rewrite <- (queue_at_head c (set_queue (advance_queues c) SEQ_ACTIVE rest) r) by (by rewrite Hd, ?Hd').
      by destruct (schedule_single_step_flag s).
  - destruct Ha as [Ha (Ea & _)]. rewrite Ha, Ea. cbn [snd]. replace (with_sched_list (c :: r) s) with s by (destruct s; cbn in *; by subst).
    done.
Qed.

(** An active, two nonblocking and a later event. *)
Lemma run_step_stratified_witness :
  let H : SimHooks Z (list Z) := {|
    run_run e s := Some (fst s, snd s ++ [e]); stop_handler := Some; vpiNextSimTime := Some; vpiEndOfCompile := Some;
    vpiStartOfSim := Some; signals_capture := Some; signals_revert := Some; vpiPostsim := Some |} in
  let s := with_sched_list [mk_time 0 [] [] [] [1; 2] [9] [] []; mk_time 5 [] [3] [] [] [] [] []] sched_init in
  exists s1, run_step 9 (s, []) = (s' ← run_run 1 (s1, []); Some (s', Continue)) /\
    schedule_time s1 = schedule_time s /\
    (forall q', queue_at (sched_list s1) 0 q' = promoted (queue_at (sched_list s) 0) SEQ_NBASSIGN [2] q') /\
    (forall t q', t <> 0 -> queue_at (sched_list s1) t q' = queue_at (sched_list s) t q').
Proof.
  intros H s. apply (run_step_stratified 9 s [] (mk_time 0 [] [] [] [1; 2] [9] [] []) [mk_time 5 [] [3] [] [] [] [] []]);
    [split; [cbn; lia|by repeat constructor]|done|done].
Defined.

(** When the current time step is over, time advances to the next cell and to
    nothing else: the simulation time grows by its delay, every pending event is
    as far away from the old time as it was, no event was due before, and the
    start-of-time-step events run before the regions do; a finished simulation
    does not advance. *)
Theorem time_advances {E W} {H : SimHooks E W} fuel (s : sched E) (w : W) c r :
  times_ok (sched_list s) -> sched_list s = c :: r -> 0 < delay c -> schedule_stopped_flag s = false ->
  if schedule_runnable s then exists s1,
    sim_iter fuel (s, w) =
      (s' ← vpiNextSimTime (s1, w); s' ← drain fuel (pull_queue SEQ_START) s'; run_step fuel s') /\
    schedule_time s1 = w_add (schedule_time s) (delay c) /\ times_ok (sched_list s1) /\ now_ok (sched_list s1) /\
    (forall t q, queue_at (sched_list s1) t q = queue_at (sched_list s) (delay c + t) q) /\
    (forall t q, t < delay c -> queue_at (sched_list s) t q = [])
  else sim_iter fuel (s, w) = Some (s, w, Break).
Proof.
  intros Hok El Hd Hst. unfold sim_iter. cbn [fst]. rewrite Hst, El, (proj2 (Z.gtb_lt _ _)) by lia.
  rewrite El in Hok. destruct Hok as [Hc Hr]. destruct (schedule_runnable s); [|done]. cbn [negb].
  eexists. split.
  { unfold advance_time, on_sched. cbn [fst snd]. rewrite option_bind_assoc. reflexivity. }
  cbn [schedule_time sched_list with_time with_sched_list]. split; [done|]. split; [by split|]. split; [done|]. split.
  - intros t q. cbn [queue_at]. rewrite get_with_delay. cbn [delay with_delay]. rewrite Z.sub_0_r.
    replace (delay c + t - delay c) with t by lia.
    by replace (delay c + t =? delay c) with (t =? 0) by (destruct (Z.eqb_spec t 0), (Z.eqb_spec (delay c + t) (delay c)); lia).
  - intros t q Ht. by apply queue_at_far.
Qed.

Lemma time_advances_witness :
  let H : SimHooks Z (list Z) := {|
    run_run e s := Some (fst s, snd s ++ [e]); stop_handler := Some; vpiNextSimTime := Some; vpiEndOfCompile := Some;
    vpiStartOfSim := Some; signals_capture := Some; signals_revert := Some; vpiPostsim := Some |} in
  let s := with_sched_list [mk_time 5 [4] [3] [] [] [] [] []] sched_init in
  exists s1,
    sim_iter 9 (s, []) =
      (s' ← vpiNextSimTime (s1, []); s' ← drain 9 (pull_queue SEQ_START) s'; run_step 9 s') /\
    schedule_time s1 = w_add 0 5 /\ times_ok (sched_list s1) /\ now_ok (sched_list s1) /\
    (forall t q, queue_at (sched_list s1) t q = queue_at (sched_list s) (5 + t) q) /\
    (forall t q, t < 5 -> queue_at (sched_list s) t q = []).
Proof.
  intros H s. apply (time_advances 9 s [] (mk_time 5 [4] [3] [] [] [] [] []) []); [split; [cbn; lia|done]|done|cbn; lia|done].
Defined.

(** C22: Events run on time: if every pending event is labelled with the time it is
    due, and running events only schedule events under their right label, then
    the main loop never runs an event at another time; the simulation in which
    such a run aborts is the same. *)
Theorem events_run_on_time {E W} (H : SimHooks E W) (due : E -> Z) (HC : SchedClient H due) fuel s :
  times_ok (sched_list (fst s)) -> word_ok (schedule_time (fst s)) ->
  (forall t q e, e ∈ queue_at (sched_list (fst s)) t q -> due e = w_wrap (schedule_time (fst s) + t)) ->
  sim_loop (H := timed_hooks due H) fuel s = sim_loop (H := H) fuel s.
Proof. intros Hok Ht Hdue. by apply sim_loop_timed. Qed.

(** Events that are their due time: the event due at 3 schedules one 4 later. *)
Lemma events_run_on_time_witness :
  let H : SimHooks Z (list Z) := {|
    run_run e s := if e =? 3 then sc ← schedule_event_ 7 4 SEQ_NBASSIGN (fst s);
                                  if schedule_time (fst s) =? 3 then Some (sc, snd s ++ [e]) else None
                   else Some (fst s, snd s ++ [e]);
    stop_handler := Some; vpiNextSimTime := Some; vpiEndOfCompile := Some;
    vpiStartOfSim := Some; signals_capture := Some; signals_revert := Some; vpiPostsim := Some |} in
  let s : sched Z := with_sched_list [mk_time 3 [] [3] [] [] [] [] []; mk_time 3 [] [6] [] [] [] [] []] sched_init in
  sim_loop (H := timed_hooks id H) 20 (s, []) = sim_loop (H := H) 20 (s, []) /\
  snd <$> sim_loop (H := H) 20 (s, []) = Some [3; 6; 7].
Proof.
  intros H s. split; [|reflexivity]. apply (events_run_on_time H id).
  - split.
    + intros e [sc w] [sc' w']. cbn. destruct (Z.eqb_spec e 3) as [->|]; [|intros [= <- <-]; apply rtc_refl].
      destruct (schedule_event_ 7 4 SEQ_NBASSIGN sc) as [sc1|] eqn:E1; [|done]. cbn.
      destruct (Z.eqb_spec (schedule_time sc) 3) as [E3|]; [|done]. intros [= <- <-]. apply rtc_once.
      apply (call_event _ 7 4 SEQ_NBASSIGN); [lia|done|by rewrite E3].
    + intros sc sc' [= ->]. apply rtc_refl.
    + intros sc sc' [= ->]. apply rtc_refl.
  - split; [cbn; lia|by repeat constructor].
  - cbn. unfold word_ok. lia.
  - intros t q e. cbn. destruct (Z.eqb_spec t 3) as [->|]; [|destruct (Z.eqb_spec (t - 3) 3) as [E6|]].
    + destruct q; cbn; intros He; rewrite ?elem_of_nil, ?list_elem_of_singleton in He; by try subst e.
    + replace t with 6 by lia. destruct q; cbn; intros He; rewrite ?elem_of_nil, ?list_elem_of_singleton in He; by try subst e.
    + cbn. intros He. by apply not_elem_of_nil in He.
Defined.

(** C25: A simulation whose events schedule nothing new ends: the main loop
    returns, with a fuel that is linear in the number of cells and events, having
    run every event once, time step by time step and region by region, with no
    event left and the time of the last cell.  (Start events that are due at the
    current time are the exception: the step they belong to has begun.) *)
Theorem sim_loop_runs_all {E W} (H : SimHooks E W) (f : E -> W -> W) fuel s w :
  (forall e s, run_run e s = Some (fst s, f e (snd s))) -> (forall s, vpiNextSimTime s = Some s) ->
  times_ok (sched_list s) -> word_ok (schedule_time s) -> schedule_runnable s = true ->
  schedule_stopped_flag s = false -> schedule_single_step_flag s = false ->
  (loop_measure (sched_list s) <= fuel)%nat ->
  returns (sim_loop fuel (s, w)) (fun '(s', w') =>
    w' = fold_left (fun w e => f e w) (run_order (sched_list s)) w /\
    sched_list s' = [] /\ schedule_time s' = w_wrap (schedule_time s + total_delay (sched_list s))).
Proof.
  intros Hrun Hnext Hok Ht Hr Hst Hss Hf.
  destruct (sim_loop_static_aux f Hrun Hnext fuel s w Hok Ht Hr Hst Hss Hf) as (s' & E1 & H1 & H2). rewrite E1. by apply returns_ret.
Qed.

Lemma sim_loop_runs_all_witness :
  let H : SimHooks Z (list Z) := {|
    run_run e s := Some (fst s, e :: snd s); stop_handler := Some; vpiNextSimTime := Some; vpiEndOfCompile := Some;
    vpiStartOfSim := Some; signals_capture := Some; signals_revert := Some; vpiPostsim := Some |} in
  let s := with_sched_list [mk_time 0 [0] [1] [2] [3] [4] [5] [6]; mk_time 9 [7] [] [8] [] [] [] []] sched_init in
  returns (sim_loop 20 (s, [])) (fun '(s', w') => w' = [8; 7; 6; 5; 4; 3; 2; 1] /\ sched_list s' = [] /\ schedule_time s' = 9).
Proof.
  intros H s. apply (sim_loop_runs_all H (fun e w => e :: w) 20 s []); try done; [|cbn; lia].
  split; [cbn; lia|by repeat constructor].
Defined.

(** [schedule_finish] ends the simulation at the end of the current time step:
    the pending events of its regions are dropped, and once the threads that
    ended are deleted the main loop stops, with no other event run and the later
    time steps still pending. *)
Theorem finish_stops {E W} (H : SimHooks E W) fuel s (w : W) c r :
  times_ok (sched_list s) -> sched_list s = c :: r -> delay c = 0 -> schedule_stopped_flag s = false -> del_thr c = [] ->
  returns (sim_loop (3 + fuel) (schedule_finish s, w)) (fun '(s', w') =>
    w' = w /\ sched_list s' = r /\ schedule_time s' = schedule_time s /\ schedule_runnable s' = false).
Proof.
  intros Hok El Hd Hst Hdel. rewrite El in Hok. destruct Hok as [Hc Hr].
  assert (E1 : sim_iter (2 + fuel) (schedule_finish s, w) =
    Some (with_at_rosync false (with_sched_list r (schedule_finish s)), w, Continue)).
  { unfold sim_iter, schedule_finish. rewrite El. cbn. rewrite Hst, Hd. unfold run_step, pull_queue, run_rosync. cbn.
    unfold pull_queue. cbn. rewrite Hdel. done. }
  change (3 + fuel)%nat with (S (2 + fuel)). cbn [sim_loop]. rewrite E1.
  assert (E2 : sched_list (fst (schedule_finish s, w)) = clear_events c :: r) by (unfold schedule_finish; by rewrite El).
  rewrite E2. cbn [mbind option_bind]. change (2 + fuel)%nat with (S (1 + fuel)). cbn [sim_loop fst sched_list with_at_rosync with_sched_list].
  assert (T : schedule_time (schedule_finish s) = schedule_time s) by (unfold schedule_finish; by rewrite El).
  destruct r as [|c1 r]; [apply returns_ret; split_and!; try done; exact T|].
  inversion Hr as [|? ? Hc1 _]; subst. unfold sim_iter. cbn [fst schedule_stopped_flag with_at_rosync with_sched_list sched_list].
  replace (schedule_stopped_flag (schedule_finish s)) with false by (unfold schedule_finish; by rewrite El).
  rewrite (proj2 (Z.gtb_lt _ _)) by lia. apply returns_ret. split_and!; try done; exact T.
Qed.

Lemma finish_stops_witness :
  let H : SimHooks Z (list Z) := {|
    run_run e s := Some (fst s, snd s ++ [e]); stop_handler := Some; vpiNextSimTime := Some; vpiEndOfCompile := Some;
    vpiStartOfSim := Some; signals_capture := Some; signals_revert := Some; vpiPostsim := Some |} in
  let s := with_sched_list [mk_time 0 [] [] [] [1; 2] [9] [] []; mk_time 5 [] [3] [] [] [] [] []] sched_init in
  returns (sim_loop 5 (schedule_finish s, [])) (fun '(s', w') =>
    w' = [] /\ sched_list s' = [mk_time 5 [] [3] [] [] [] [] []] /\ schedule_time s' = 0 /\ schedule_runnable s' = false).
Proof.
  intros H s. apply (finish_stops H 2 s [] (mk_time 0 [] [] [] [1; 2] [9] [] []) [mk_time 5 [] [3] [] [] [] [] []]); try done.
  split; [cbn; lia|by repeat constructor].
Defined.

(** A start-of-time-step event that is scheduled for the present time never runs:
    here the queue is empty, the event is the only one, and the simulation ends
    without it. *)
Lemma start_event_now_is_lost :
  let H : SimHooks Z (list Z) := {|
    run_run e s := Some (fst s, snd s ++ [e]); stop_handler := Some; vpiNextSimTime := Some; vpiEndOfCompile := Some;
    vpiStartOfSim := Some; signals_capture := Some; signals_revert := Some; vpiPostsim := Some |} in
  exists s, schedule_event_ 1 0 SEQ_START sched_init = Some s /\
    snd <$> sim_loop 5 (s, []) = Some [].
Proof. eexists. split; reflexivity. Qed.
