(* ===== verification/Opcodes.v ===== *)
(** * The vector instructions of a thread ([vvp/vthread.cc])

    A thread evaluates expressions on a stack of four-valued vectors, with 256
    flag bits and 16 index registers.  The file models the instructions [of_*]
    that work on these - arithmetic, logic, comparison, reduction, selection,
    shifting, immediates, flags, index registers and jumps - as functions on the
    state of one thread, and shows what each computes on the lists of bits the
    stack stands for. *)

From Stdlib Require Import ZArith Lia Bool.
From stdpp Require Import base numbers list.
From S2P Require Import Prelude Bit4 Words Vec4 Vec4Move Vec4Arith Vec4Array VecRep.

Open Scope Z_scope.

(** ** Definitions *)

Section word_scope_definitions.
Open Scope word_scope.

(** [vthread_s], the parts the instructions of this file use; the back of the
    stack is the head of the list, an index register is its 64 bits unsigned. *)
Record vthread_s := mk_thread {
  pc : nat;
  flags : list vvp_bit4_t;
  words : list Z;
  stack_vec4_ : list vvp_vector4_t }.

(** [vvp_code_s]: the operands; [cptr] is the address of a jump, in a union with
    [number]. *)
Record vvp_code_s := mk_code { number : Z; bit_idx0 : Z; bit_idx1 : Z; cptr : nat }.

(** [unsigned wid = cp->number;] *)
Definition wid_of (cp : vvp_code_s) : nat := Z.to_nat (number cp mod 2 ^ 32).

Definition FLAGS_COUNT : nat := 256.
Definition WORDS_COUNT : nat := 16.

Definition with_stack (thr : vthread_s) (l : list vvp_vector4_t) : vthread_s :=
  mk_thread (pc thr) (flags thr) (words thr) l.
Definition set_flag (thr : vthread_s) (i : nat) (b : vvp_bit4_t) : vthread_s :=
  mk_thread (pc thr) (<[i := b]> (flags thr)) (words thr) (stack_vec4_ thr).
Definition set_word (thr : vthread_s) (i : nat) (w : Z) : vthread_s :=
  mk_thread (pc thr) (flags thr) (<[i := w]> (words thr)) (stack_vec4_ thr).
Definition set_pc (thr : vthread_s) (p : nat) : vthread_s :=
  mk_thread p (flags thr) (words thr) (stack_vec4_ thr).

(** *** The stack *)

Definition push_vec4 (thr : vthread_s) (v : vvp_vector4_t) : vthread_s := with_stack thr (v :: stack_vec4_ thr).

Definition pop_vec4 (thr : vthread_s) : option (vvp_vector4_t * vthread_s) :=
  match stack_vec4_ thr with [] => None | v :: l => Some (v, with_stack thr l) end.

Definition peek_vec4 (thr : vthread_s) (depth : nat) : option vvp_vector4_t := stack_vec4_ thr !! depth.

Definition poke_vec4 (thr : vthread_s) (depth : nat) (v : vvp_vector4_t) : option vthread_s :=
  assert_ (depth <? length (stack_vec4_ thr))%nat;;
  Some (with_stack thr (<[depth := v]> (stack_vec4_ thr))).

(** [pop_vec4(cnt)]; popping an empty [std::vector] is undefined, [None] here. *)
Definition pop_vec4_n (thr : vthread_s) (cnt : nat) : option vthread_s :=
  assert_ (cnt <=? length (stack_vec4_ thr))%nat;;
  Some (with_stack thr (drop cnt (stack_vec4_ thr))).

(** The instructions that pop the right operand and edit the left one in place. *)
Definition edit_top2 (thr : vthread_s) (f : vvp_vector4_t -> vvp_vector4_t -> option vvp_vector4_t) : option vthread_s :=
  '(r, thr) ← pop_vec4 thr;
  l ← peek_vec4 thr 0;
  v ← f l r;
  poke_vec4 thr 0 v.

Definition edit_top (thr : vthread_s) (f : vvp_vector4_t -> option vvp_vector4_t) : option vthread_s :=
  l ← peek_vec4 thr 0;
  v ← f l;
  poke_vec4 thr 0 v.

(** *** Immediate operands *)

(** The bit-by-bit loop of [get_immediate_rval]. *)
Fixpoint imm_loop (n idx : nat) (vala valb : Z) (val : vvp_vector4_t) : option vvp_vector4_t :=
  match n with
  | O => Some val
  | S n' =>
      if (vala .| valb) =? 0 then Some val
      else
        let ba := ((valb .& 1) << 1) .| (vala .& 1) in
        val ← (if ba =? 0 then Some val else set_bit val idx (bit4_cast ba));
        imm_loop n' (S idx) (vala >> 1) (valb >> 1) val
  end.

(** The same loop as [%concati/vec4] and [%pushi/vec4] have it, with a [switch]. *)
Fixpoint imm_switch_loop (n idx : nat) (vala valb : Z) (val : vvp_vector4_t) : option vvp_vector4_t :=
  match n with
  | O => Some val
  | S n' =>
      if (vala .| valb) =? 0 then Some val
      else
        let ba := ((valb .& 1) << 1) .| (vala .& 1) in
        val ← match ba with
              | 1 => set_bit val idx BIT4_1
              | 2 => set_bit val idx BIT4_Z
              | 3 => set_bit val idx BIT4_X
              | _ => Some val
              end;
        imm_switch_loop n' (S idx) (vala >> 1) (valb >> 1) val
  end.

Definition get_immediate_rval (cp : vvp_code_s) (val : vvp_vector4_t) : option vvp_vector4_t :=
  let vala := bit_idx0 cp in
  let valb := bit_idx1 cp in
  let wid := wid_of cp in
  if valb =? 0 then
    if vala =? 0 then Some val
    else setarray val 0 (Nat.min 64 wid) [vala]
  else imm_loop wid 0 vala valb val.

(** [vvp_vector4_t r(wid, BIT4_0); get_immediate_rval(cp, r);] *)
Definition immediate (cp : vvp_code_s) : option vvp_vector4_t :=
  get_immediate_rval cp (vector4_fill (wid_of cp) BIT4_0).

(** *** Arithmetic and logic *)

Definition of_ADD (thr : vthread_s) (cp : vvp_code_s) : option vthread_s := edit_top2 thr vector4_add.
Definition of_SUB (thr : vthread_s) (cp : vvp_code_s) : option vthread_s := edit_top2 thr vector4_sub.
Definition of_MUL (thr : vthread_s) (cp : vvp_code_s) : option vthread_s := edit_top2 thr vector4_mul.

Definition of_ADDI (thr : vthread_s) (cp : vvp_code_s) : option vthread_s :=
  edit_top thr (fun l => r ← immediate cp; vector4_add l r).
Definition of_SUBI (thr : vthread_s) (cp : vvp_code_s) : option vthread_s :=
  edit_top thr (fun l => r ← immediate cp; vector4_sub l r).
Definition of_MULI (thr : vthread_s) (cp : vvp_code_s) : option vthread_s :=
  edit_top thr (fun l => r ← immediate cp; vector4_mul l r).

Definition of_AND (thr : vthread_s) (cp : vvp_code_s) : option vthread_s :=
  edit_top2 thr (fun vala valb => assert_ (size_ vala =? size_ valb)%nat;; Some (vector4_and vala valb)).
Definition of_OR (thr : vthread_s) (cp : vvp_code_s) : option vthread_s :=
  edit_top2 thr (fun vala valb => Some (vector4_or vala valb)).

(** The loops of [%nand], [%nor], [%xor] and [%xnor]. *)
Definition bit_loop (g : vvp_bit4_t -> vvp_bit4_t -> vvp_bit4_t) (vall valr : vvp_vector4_t) : option vvp_vector4_t :=
  assert_ (size_ vall =? size_ valr)%nat;;
  for_ 0 (size_ vall) (fun idx vall => set_bit vall idx (g (value vall idx) (value valr idx))) vall.

Definition of_NAND (thr : vthread_s) (cp : vvp_code_s) : option vthread_s :=
  edit_top2 thr (bit_loop (fun lb rb => bit4_not (bit4_and lb rb))).
Definition of_NOR (thr : vthread_s) (cp : vvp_code_s) : option vthread_s :=
  edit_top2 thr (bit_loop (fun lb rb => bit4_not (bit4_or lb rb))).
Definition of_XOR (thr : vthread_s) (cp : vvp_code_s) : option vthread_s :=
  edit_top2 thr (bit_loop bit4_xor).
Definition of_XNOR (thr : vthread_s) (cp : vvp_code_s) : option vthread_s :=
  edit_top2 thr (bit_loop (fun lb rb => bit4_not (bit4_xor lb rb))).

Definition of_INV (thr : vthread_s) (cp : vvp_code_s) : option vthread_s :=
  edit_top thr (fun val => Some (invert val)).

Definition of_BLEND (thr : vthread_s) (cp : vvp_code_s) : option vthread_s :=
  '(vala, thr) ← pop_vec4 thr;
  '(valb, thr) ← pop_vec4 thr;
  assert_ (size_ vala =? size_ valb)%nat;;
  vala ← for_ 0 (size_ vala) (fun idx vala =>
      let v := value vala idx in
      if bit4_eqb v (value valb idx) && negb (bit4_eqb v BIT4_Z) then Some vala
      else set_bit vala idx BIT4_X) vala;
  Some (push_vec4 thr vala).

Definition of_CAST2 (thr : vthread_s) (cp : vvp_code_s) : option vthread_s :=
  edit_top thr (fun val => for_ 0 (size_ val) (fun idx val =>
    match value val idx with BIT4_0 | BIT4_1 => Some val | _ => set_bit val idx BIT4_0 end) val).

(** The reductions: [lb] turns into [out] at a bit [stop], which ends the loop,
    and into X at a bit that is not [neutral]. *)
Fixpoint reduce_loop (stop out neutral : vvp_bit4_t) (val : vvp_vector4_t) (n idx : nat) (lb : vvp_bit4_t) : vvp_bit4_t :=
  match n with
  | O => lb
  | S n' =>
      let rb := value val idx in
      if bit4_eqb rb stop then out
      else reduce_loop stop out neutral val n' (S idx) (if bit4_eqb rb neutral then lb else BIT4_X)
  end.

(** The loop of [%xor/r] and [%xnor/r]. *)
Fixpoint parity_loop (val : vvp_vector4_t) (n idx : nat) (lb : vvp_bit4_t) : vvp_bit4_t :=
  match n with
  | O => lb
  | S n' =>
      let rb := value val idx in
      if bit4_eqb rb BIT4_1 then parity_loop val n' (S idx) (bit4_not lb)
      else if negb (bit4_eqb rb BIT4_0) then BIT4_X
      else parity_loop val n' (S idx) lb
  end.

Definition reduce_top (thr : vthread_s) (f : vvp_vector4_t -> vvp_bit4_t) : option vthread_s :=
  '(val, thr) ← pop_vec4 thr;
  Some (push_vec4 thr (vector4_fill 1 (f val))).

Definition of_ANDR (thr : vthread_s) (cp : vvp_code_s) : option vthread_s :=
  reduce_top thr (fun val => reduce_loop BIT4_0 BIT4_0 BIT4_1 val (size_ val) 0 BIT4_1).
Definition of_NANDR (thr : vthread_s) (cp : vvp_code_s) : option vthread_s :=
  reduce_top thr (fun val => reduce_loop BIT4_0 BIT4_1 BIT4_1 val (size_ val) 0 BIT4_0).
Definition of_ORR (thr : vthread_s) (cp : vvp_code_s) : option vthread_s :=
  reduce_top thr (fun val => reduce_loop BIT4_1 BIT4_1 BIT4_0 val (size_ val) 0 BIT4_0).
Definition of_NORR (thr : vthread_s) (cp : vvp_code_s) : option vthread_s :=
  reduce_top thr (fun val => reduce_loop BIT4_1 BIT4_0 BIT4_0 val (size_ val) 0 BIT4_1).
Definition of_XORR (thr : vthread_s) (cp : vvp_code_s) : option vthread_s :=
  reduce_top thr (fun val => parity_loop val (size_ val) 0 BIT4_0).
Definition of_XNORR (thr : vthread_s) (cp : vvp_code_s) : option vthread_s :=
  reduce_top thr (fun val => parity_loop val (size_ val) 0 BIT4_1).

(** *** Comparison *)

Definition set_flags456 (thr : vthread_s) (eq lt eeq : vvp_bit4_t) : vthread_s :=
  set_flag (set_flag (set_flag thr 4 eq) 5 lt) 6 eeq.

(** The loop of [do_CMPE] and of [of_CMPU_the_hard_way]: [eq] and [eeq]. *)
Fixpoint cmpe_loop (lval rval : vvp_vector4_t) (n idx : nat) (eq eeq : vvp_bit4_t) : vvp_bit4_t * vvp_bit4_t :=
  match n with
  | O => (eq, eeq)
  | S n' =>
      let lv := value lval idx in
      let rv := value rval idx in
      let eeq := if negb (bit4_eqb lv rv) then BIT4_0 else eeq in
      let eq := if bit4_eqb eq BIT4_1 && (bit4_is_xz lv || bit4_is_xz rv) then BIT4_X else eq in
      let eq := if bit4_eqb lv BIT4_0 && bit4_eqb rv BIT4_1 then BIT4_0 else eq in
      let eq := if bit4_eqb lv BIT4_1 && bit4_eqb rv BIT4_0 then BIT4_0 else eq in
      if bit4_eqb eq BIT4_0 then (eq, eeq) else cmpe_loop lval rval n' (S idx) eq eeq
  end.

Definition bit4_of_test (b : bool) : vvp_bit4_t := if b then BIT4_1 else BIT4_0.

Definition do_CMPE (thr : vthread_s) (lval rval : vvp_vector4_t) : option vthread_s :=
  assert_ (size_ rval =? size_ lval)%nat;;
  if has_xz lval || has_xz rval then
    let '(eq, eeq) := cmpe_loop lval rval (size_ lval) 0 BIT4_1 BIT4_1 in
    Some (set_flag (set_flag thr 4 eq) 6 eeq)
  else
    let b := bit4_of_test (eeq lval rval) in
    Some (set_flag (set_flag thr 6 b) 4 b).

(** [thr->flags[i] = ~thr->flags[i];] *)
Definition invert_flag (thr : vthread_s) (i : nat) : option vthread_s :=
  b ← flags thr !! i; Some (set_flag thr i (bit4_not b)).

(** The comparisons of the two topmost values, and of the top with an immediate. *)
Definition compare2 (thr : vthread_s) (f : vthread_s -> vvp_vector4_t -> vvp_vector4_t -> option vthread_s) : option vthread_s :=
  rval ← peek_vec4 thr 0;
  lval ← peek_vec4 thr 1;
  thr ← f thr lval rval;
  pop_vec4_n thr 2.

Definition compare_imm (thr : vthread_s) (cp : vvp_code_s)
    (f : vthread_s -> vvp_vector4_t -> vvp_vector4_t -> option vthread_s) : option vthread_s :=
  lval ← peek_vec4 thr 0;
  rval ← immediate cp;
  thr ← f thr lval rval;
  pop_vec4_n thr 1.

Definition do_CMPNE (thr : vthread_s) (lval rval : vvp_vector4_t) : option vthread_s :=
  thr ← do_CMPE thr lval rval;
  thr ← invert_flag thr 4;
  invert_flag thr 6.

Definition of_CMPE (thr : vthread_s) (cp : vvp_code_s) : option vthread_s := compare2 thr do_CMPE.
Definition of_CMPNE (thr : vthread_s) (cp : vvp_code_s) : option vthread_s := compare2 thr do_CMPNE.
Definition of_CMPIE (thr : vthread_s) (cp : vvp_code_s) : option vthread_s := compare_imm thr cp do_CMPE.
Definition of_CMPINE (thr : vthread_s) (cp : vvp_code_s) : option vthread_s := compare_imm thr cp do_CMPNE.

(** The scan from the bit below the sign down: [eq], [lt] and [eeq]. *)
Fixpoint cmps_loop (lval rval : vvp_vector4_t) (wid n idx : nat) : vvp_bit4_t * vvp_bit4_t * vvp_bit4_t :=
  match n with
  | O => (BIT4_1, BIT4_0, BIT4_1)
  | S n' =>
      let lv := value lval (wid - 1 - idx) in
      let rv := value rval (wid - 1 - idx) in
      if bit4_eqb lv rv then cmps_loop lval rval wid n' (S idx)
      else (BIT4_0, if bit4_eqb lv BIT4_0 then BIT4_1 else BIT4_0, BIT4_0)
  end.

Definition do_CMPS (thr : vthread_s) (lval rval : vvp_vector4_t) : option vthread_s :=
  assert_ (size_ rval =? size_ lval)%nat;;
  if has_xz lval || has_xz rval then
    Some (set_flags456 thr BIT4_X BIT4_X (bit4_of_test (eeq lval rval)))
  else
    let wid := size_ lval in
    let sig1 := value lval (wid - 1) in
    let sig2 := value rval (wid - 1) in
    if bit4_eqb sig1 BIT4_1 && bit4_eqb sig2 BIT4_0 then Some (set_flags456 thr BIT4_0 BIT4_1 BIT4_0)
    else if bit4_eqb sig1 BIT4_0 && bit4_eqb sig2 BIT4_1 then Some (set_flags456 thr BIT4_0 BIT4_0 BIT4_0)
    else
      let '(eq, lt, eeq) := cmps_loop lval rval wid (wid - 1) 1 in
      Some (set_flags456 thr eq lt eeq).

Definition of_CMPS (thr : vthread_s) (cp : vvp_code_s) : option vthread_s := compare2 thr do_CMPS.
Definition of_CMPIS (thr : vthread_s) (cp : vvp_code_s) : option vthread_s := compare_imm thr cp do_CMPS.

Definition of_CMPU_the_hard_way (thr : vthread_s) (wid : nat) (lval rval : vvp_vector4_t) : option vthread_s :=
  let '(eq, eeq) := cmpe_loop lval rval wid 0 BIT4_1 BIT4_1 in
  Some (set_flags456 thr eq BIT4_X eeq).

(** The loop over the words, from the least significant one up. *)
Fixpoint cmpu_words (larray rarray : list Z) (n wdx : nat) (eq lt : vvp_bit4_t) : vvp_bit4_t * vvp_bit4_t :=
  match n with
  | O => (eq, lt)
  | S n' =>
      if wd larray wdx =? wd rarray wdx then cmpu_words larray rarray n' (S wdx) eq lt
      else cmpu_words larray rarray n' (S wdx) BIT4_0 (bit4_of_test (wd larray wdx <? wd rarray wdx))
  end.

Definition do_CMPU (thr : vthread_s) (lval rval : vvp_vector4_t) : option vthread_s :=
  assert_ (size_ rval =? size_ lval)%nat;;
  let wid := size_ lval in
  match subarray lval 0 wid false with
  | None => of_CMPU_the_hard_way thr wid lval rval
  | Some larray =>
      match subarray rval 0 wid false with
      | None => of_CMPU_the_hard_way thr wid lval rval
      | Some rarray =>
          let '(eq, lt) := cmpu_words larray rarray (nwords wid) 0 BIT4_1 BIT4_0 in
          Some (set_flags456 thr eq lt eq)
      end
  end.

Definition of_CMPU (thr : vthread_s) (cp : vvp_code_s) : option vthread_s := compare2 thr do_CMPU.
Definition of_CMPIU (thr : vthread_s) (cp : vvp_code_s) : option vthread_s := compare_imm thr cp do_CMPU.

(** The loops of [%cmp/x] and [%cmp/z]: a difference that [skip] does not excuse. *)
Fixpoint cmpxz_loop (skip : vvp_bit4_t -> bool) (lval rval : vvp_vector4_t) (n idx : nat) : vvp_bit4_t :=
  match n with
  | O => BIT4_1
  | S n' =>
      let lv := value lval idx in
      let rv := value rval idx in
      if negb (bit4_eqb lv rv) && negb (skip lv) && negb (skip rv) then BIT4_0
      else cmpxz_loop skip lval rval n' (S idx)
  end.

Definition cmpxz (skip : vvp_bit4_t -> bool) (thr : vthread_s) : option vthread_s :=
  '(rval, thr) ← pop_vec4 thr;
  '(lval, thr) ← pop_vec4 thr;
  assert_ (size_ rval =? size_ lval)%nat;;
  Some (set_flag thr 4 (cmpxz_loop skip lval rval (size_ lval) 0)).

Definition of_CMPX (thr : vthread_s) (cp : vvp_code_s) : option vthread_s := cmpxz bit4_is_xz thr.
Definition of_CMPZ (thr : vthread_s) (cp : vvp_code_s) : option vthread_s := cmpxz (bit4_eqb BIT4_Z) thr.

(** Wildcard equality, [==?]. *)
Fixpoint cmpwe_loop (lval rval : vvp_vector4_t) (n idx : nat) (eq : vvp_bit4_t) : vvp_bit4_t :=
  match n with
  | O => eq
  | S n' =>
      let lv := value lval idx in
      let rv := value rval idx in
      if bit4_is_xz rv then cmpwe_loop lval rval n' (S idx) eq
      else
        let eq := if bit4_eqb eq BIT4_1 && bit4_is_xz lv then BIT4_X else eq in
        let eq := if bit4_eqb lv BIT4_0 && bit4_eqb rv BIT4_1 then BIT4_0 else eq in
        let eq := if bit4_eqb lv BIT4_1 && bit4_eqb rv BIT4_0 then BIT4_0 else eq in
        if bit4_eqb eq BIT4_0 then eq else cmpwe_loop lval rval n' (S idx) eq
  end.

Definition do_CMPWE (thr : vthread_s) (lval rval : vvp_vector4_t) : option vthread_s :=
  assert_ (size_ rval =? size_ lval)%nat;;
  if has_xz lval || has_xz rval
  then Some (set_flag thr 4 (cmpwe_loop lval rval (size_ lval) 0 BIT4_1))
  else Some (set_flag thr 4 (bit4_of_test (eeq lval rval))).

Definition of_CMPWE (thr : vthread_s) (cp : vvp_code_s) : option vthread_s := compare2 thr do_CMPWE.
Definition of_CMPWNE (thr : vthread_s) (cp : vvp_code_s) : option vthread_s :=
  compare2 thr (fun thr lval rval => thr ← do_CMPWE thr lval rval; invert_flag thr 4).

(** [%cmp/ws] and [%cmp/wu]: two index registers. *)
Definition cmp_words (thr : vthread_s) (cp : vvp_code_s) (num : Z -> Z) : option vthread_s :=
  l ← words thr !! Z.to_nat (bit_idx0 cp);
  r ← words thr !! Z.to_nat (bit_idx1 cp);
  Some (set_flag (set_flag thr 4 (bit4_of_test (num l =? num r))) 5 (bit4_of_test (num l <? num r))).

Definition of_CMPWS (thr : vthread_s) (cp : vvp_code_s) : option vthread_s := cmp_words thr cp (int_cast 64 true).
Definition of_CMPWU (thr : vthread_s) (cp : vvp_code_s) : option vthread_s := cmp_words thr cp id.
End word_scope_definitions.

(** *** What the instructions compute *)

(** The state of a thread, its stack as lists of bits. *)
Definition state_is (t : vthread_s) (p : nat) (fl : list vvp_bit4_t) (ws : list Z) (st : list (list vvp_bit4_t)) : Prop :=
  pc t = p /\ flags t = fl /\ words t = ws /\ Forall2 rep4 (stack_vec4_ t) st.

(** The instruction ends in a state with this stack and these flags, the program
    counter and the index registers being what they were. *)
Definition leaves (o : option vthread_s) (p : nat) (fl : list vvp_bit4_t) (ws : list Z) (st : list (list vvp_bit4_t)) : Prop :=
  returns o (fun t => state_is t p fl ws st).

(** An immediate operand: bit [i] is encoded by the bits [i] of two 32-bit words. *)
Definition imm_bits (cp : vvp_code_s) : list vvp_bit4_t :=
  map (fun i => bit4_of_ab (tb (bit_idx0 cp) i) (tb (bit_idx1 cp) i)) (seq 0 (wid_of cp)).

(** The operands [bit_idx] are [uint32_t]. *)
Definition imm_ok (cp : vvp_code_s) : Prop := 0 <= bit_idx0 cp < 2 ^ 32 /\ 0 <= bit_idx1 cp < 2 ^ 32.

Definition blend_bit (a b : vvp_bit4_t) : vvp_bit4_t :=
  if bit4_eqb a b && negb (bit4_eqb a BIT4_Z) then a else BIT4_X.

Definition cast2_bit (a : vvp_bit4_t) : vvp_bit4_t := if bit4_is_xz a then BIT4_0 else a.

(** Bits known to differ. *)
Definition known_diff (p : vvp_bit4_t * vvp_bit4_t) : bool :=
  negb (bit4_is_xz (fst p)) && negb (bit4_is_xz (snd p)) && negb (bit4_eqb (fst p) (snd p)).

(** Verilog's [==]: 0 if some bit is known to differ, else X if some bit is
    unknown, else 1. *)
Definition logic_eq (l r : list vvp_bit4_t) : vvp_bit4_t :=
  if existsb known_diff (zip l r) then BIT4_0
  else if list_has_xz l || list_has_xz r then BIT4_X else BIT4_1.

(** [==?]: bits where the right operand is unknown are not compared. *)
Definition wild_eq (l r : list vvp_bit4_t) : vvp_bit4_t :=
  let cared := List.filter (fun p => negb (bit4_is_xz (snd p))) (zip l r) in
  logic_eq (cared.*1) (cared.*2).

(** The match of [casex] and [casez]. *)
Definition case_match (skip : vvp_bit4_t -> bool) (l r : list vvp_bit4_t) : bool :=
  forallb (fun p => bit4_eqb (fst p) (snd p) || skip (fst p) || skip (snd p)) (zip l r).

(** ** Lemmas *)

Lemma pop_state t p fl ws v st :
  state_is t p fl ws (v :: st) ->
  exists x t', pop_vec4 t = Some (x, t') /\ rep4 x v /\ state_is t' p fl ws st.
Proof.
  intros (H1 & H2 & H3 & H4). destruct (Forall2_cons_inv_r _ _ _ _ H4) as (x & l & Hx & Hl & E). unfold pop_vec4.
  rewrite E. by eexists _, _.
Qed.

Lemma peek_state t p fl ws st i v :
  state_is t p fl ws st -> st !! i = Some v -> exists x, peek_vec4 t i = Some x /\ rep4 x v.
Proof. intros (_ & _ & _ & H) Hi. destruct (Forall2_lookup_r _ _ _ _ _ H Hi) as (x & Hx & Hr). by exists x. Qed.

Lemma poke_state t p fl ws st i x v :
  state_is t p fl ws st -> (i < length st)%nat -> rep4 x v -> leaves (poke_vec4 t i x) p fl ws (<[i := v]> st).
Proof.
  intros (H1 & H2 & H3 & H4) Hi Hx. unfold poke_vec4, leaves. apply returns_assert.
  { apply Nat.ltb_lt. by rewrite (Forall2_length _ _ _ H4). }
  apply returns_ret. split_and!; [done..|]. by apply Forall2_insert.
Qed.

Lemma push_state t p fl ws st x v : state_is t p fl ws st -> rep4 x v -> state_is (push_vec4 t x) p fl ws (v :: st).
Proof. intros (H1 & H2 & H3 & H4) Hx. split_and!; [done..|]. by constructor. Qed.

Lemma pop_n_state t p fl ws st n :
  state_is t p fl ws st -> (n <= length st)%nat -> leaves (pop_vec4_n t n) p fl ws (drop n st).
Proof.
  intros (H1 & H2 & H3 & H4) Hn. unfold pop_vec4_n, leaves. apply returns_assert.
  { apply Nat.leb_le. by rewrite (Forall2_length _ _ _ H4). }
  apply returns_ret. split_and!; [done..|]. by apply Forall2_drop.
Qed.

Lemma set_flag_state t p fl ws st i b : state_is t p fl ws st -> state_is (set_flag t i b) p (<[i := b]> fl) ws st.
Proof. intros (H1 & H2 & H3 & H4). split_and!; [done|by cbn; rewrite H2|done|done]. Qed.

Lemma set_word_state t p fl ws st i w : state_is t p fl ws st -> state_is (set_word t i w) p fl (<[i := w]> ws) st.
Proof. intros (H1 & H2 & H3 & H4). split_and!; [done|done|by cbn; rewrite H3|done]. Qed.

Lemma leaves_ret t p fl ws st : state_is t p fl ws st -> leaves (Some t) p fl ws st.
Proof. intros H. by apply returns_ret. Qed.

Lemma leaves_bind {A} (o : option A) (Q : A -> Prop) k p fl ws st :
  returns o Q -> (forall x, Q x -> leaves (k x) p fl ws st) -> leaves (o ≫= k) p fl ws st.
Proof. apply returns_bind. Qed.

Lemma edit_top2_leaves t p fl ws r l st f m :
  state_is t p fl ws (r :: l :: st) ->
  (forall x y, rep4 x l -> rep4 y r -> returns (f x y) (fun z => rep4 z m)) ->
  leaves (edit_top2 t f) p fl ws (m :: st).
Proof.
  intros Ht Hf. unfold edit_top2. destruct (pop_state _ _ _ _ _ _ Ht) as (y & t' & -> & Hy & Ht'). cbn [mbind option_bind].
  destruct (peek_state _ _ _ _ _ 0 l Ht' eq_refl) as (x & -> & Hx). cbn [mbind option_bind].
  eapply leaves_bind; [by apply Hf|]. intros z Hz. apply (poke_state _ _ _ _ _ 0 z m Ht'); [cbn; lia|done].
Qed.

Lemma edit_top_leaves t p fl ws l st f m :
  state_is t p fl ws (l :: st) ->
  (forall x, rep4 x l -> returns (f x) (fun z => rep4 z m)) ->
  leaves (edit_top t f) p fl ws (m :: st).
Proof.
  intros Ht Hf. unfold edit_top. destruct (peek_state _ _ _ _ _ 0 l Ht eq_refl) as (x & -> & Hx). cbn [mbind option_bind].
  eapply leaves_bind; [by apply Hf|]. intros z Hz. apply (poke_state _ _ _ _ _ 0 z m Ht); [cbn; lia|done].
Qed.

(** *** Immediate operands *)

Lemma bind_congr {A B} (m m' : option A) (k k' : A -> option B) :
  m = m' -> (forall x, k x = k' x) -> m ≫= k = m' ≫= k'.
Proof. intros -> Hk. destruct m'; [apply Hk|done]. Qed.

Lemma land_1 x : Z.land x 1 = Z.b2z (tb x 0).
Proof.
  change 1 with (Z.ones 1). rewrite Z.land_ones by lia. unfold tb. change (Z.of_nat 0) with 0.
  by rewrite Z.bit0_mod.
Qed.

(** The pair of bits the loops look at. *)
Lemma imm_pair a b :
  Z.lor (w_shl (Z.land b 1) 1) (Z.land a 1) = 2 * Z.b2z (tb b 0) + Z.b2z (tb a 0).
Proof. rewrite !land_1. by destruct (tb a 0), (tb b 0). Qed.

Lemma imm_switch_is_loop n : forall idx a b val, imm_switch_loop n idx a b val = imm_loop n idx a b val.
Proof.
  induction n as [|n IH]; intros idx a b val; [done|]. cbn [imm_switch_loop imm_loop]. rewrite !imm_pair.
  destruct (_ =? 0); [done|]. apply bind_congr; [by destruct (tb b 0), (tb a 0)|]. intros x. apply IH.
Qed.

Lemma imm_loop_spec n : forall idx a b val l,
  rep4 val l -> length l = (idx + n)%nat -> (forall i, (idx <= i < length l)%nat -> bit_at l i = BIT4_0) ->
  0 <= a -> 0 <= b ->
  returns (imm_loop n idx a b val) (fun r =>
    rep4 r (take idx l ++ map (fun i => bit4_of_ab (tb a i) (tb b i)) (seq 0 n))).
Proof.
  induction n as [|n IH]; intros idx a b val l Hr Hlen Hz Ha Hb; cbn [imm_loop].
  { apply returns_ret. rewrite take_ge by lia. by rewrite app_nil_r. }
  destruct (Z.eqb_spec (Z.lor a b) 0) as [[Ha0 Hb0]%Z.lor_eq_0_iff|_].
  { subst. apply returns_ret. eapply rep4_intro; [by apply Hr| |].
    - rewrite length_app, length_take, length_map, length_seq, (rep4_size _ _ Hr). lia.
    - rewrite length_app, length_take, length_map, length_seq. intros i Hi.
      rewrite (rep4_value _ _ _ Hr), bit_at_app, length_take, Nat.min_l by lia.
      destruct (Nat.ltb_spec i idx); [by rewrite bit_at_take|].
      rewrite bit_at_map_seq by lia. rewrite !tb_0. apply Hz. lia. }
  rewrite imm_pair. set (bit := bit4_of_ab (tb a 0) (tb b 0)).
  assert (Hstep : returns (if 2 * Z.b2z (tb b 0) + Z.b2z (tb a 0) =? 0 then Some val
      else set_bit val idx (bit4_cast (2 * Z.b2z (tb b 0) + Z.b2z (tb a 0)))) (fun r => rep4 r (<[idx := bit]> l))).
  { destruct (Z.eqb_spec (2 * Z.b2z (tb b 0) + Z.b2z (tb a 0)) 0) as [E|E].
    - apply returns_ret. replace (<[idx := bit]> l) with l; [done|]. symmetry. apply list_insert_id.
      assert (bit = BIT4_0) as -> by (unfold bit; by destruct (tb a 0), (tb b 0)).
      rewrite <- (Hz idx) by lia. unfold bit_at.
      destruct (lookup_lt_is_Some_2 l idx ltac:(lia)) as [x Hx]. by rewrite nth_lookup, Hx.
    - replace (bit4_cast _) with bit; [apply rep4_set_bit; [done|lia]|].
      unfold bit. by destruct (tb a 0), (tb b 0). }
  eapply returns_bind; [exact Hstep|]. intros r Hr'.
  assert (0 <= w_shr a 1 /\ 0 <= w_shr b 1) as [Ha' Hb'] by (unfold w_shr; rewrite !Z.shiftr_nonneg; done).
  eapply returns_mono; [apply (IH (S idx) _ _ r (<[idx := bit]> l)); try done|].
  - rewrite length_insert. lia.
  - rewrite length_insert. intros i Hi. rewrite bit_at_insert by lia.
    rewrite (proj2 (Nat.eqb_neq _ _)) by lia. apply Hz. lia.
  - intros r' Hr2. replace (take idx l ++ _) with (take (S idx) (<[idx := bit]> l) ++
      map (fun i => bit4_of_ab (tb (w_shr a 1) i) (tb (w_shr b 1) i)) (seq 0 n)); [done|].
    rewrite (take_S_r _ _ bit) by (by rewrite list_lookup_insert_eq by lia).
    rewrite take_insert_ge, <- app_assoc by lia. f_equal. cbn [seq map app]. f_equal.
    rewrite <- seq_shift, map_map. apply map_ext. intros i. rewrite !tb_shr by lia. by rewrite Nat.add_1_r.
Qed.

Lemma length_imm_bits cp : length (imm_bits cp) = wid_of cp.
Proof. unfold imm_bits. by rewrite length_map, length_seq. Qed.

Lemma imm_switch_returns cp :
  imm_ok cp ->
  returns (imm_switch_loop (wid_of cp) 0 (bit_idx0 cp) (bit_idx1 cp) (vector4_fill (wid_of cp) BIT4_0))
    (fun r => rep4 r (imm_bits cp)).
Proof.
  intros [Ha Hb]. rewrite imm_switch_is_loop.
  eapply returns_mono; [apply imm_loop_spec; [apply rep4_fill|by rewrite length_replicate| |lia|lia]|done].
  intros i Hi. rewrite length_replicate in Hi. apply bit_at_replicate; lia.
Qed.

(** Writing the first word of a known operand in one go. *)
Lemma imm_setarray cp n :
  imm_ok cp -> bit_idx1 cp = 0 -> (0 < n)%nat -> n = Nat.min 64 (wid_of cp) ->
  returns (setarray (vector4_fill (wid_of cp) BIT4_0) 0 n [bit_idx0 cp]) (fun r => rep4 r (imm_bits cp)).
Proof.
  intros [Ha _] Hb Hn E.
  assert (Hw : word_ok (bit_idx0 cp)) by (unfold word_ok; lia).
  eapply returns_mono; [apply rep4_setarray; [apply rep4_fill|by apply Forall_singleton|done|rewrite length_replicate; lia]|].
  intros r Hr. replace (imm_bits cp) with (splice (replicate (wid_of cp) BIT4_0) 0 (words_bits [bit_idx0 cp] n)); [done|].
  assert (Hl : length (words_bits [bit_idx0 cp] n) = n) by (unfold words_bits; by rewrite length_map, length_seq).
  assert (Hs : length (splice (replicate (wid_of cp) BIT4_0) 0 (words_bits [bit_idx0 cp] n)) = wid_of cp).
  { rewrite length_splice; rewrite length_replicate; [done|]. rewrite Hl. lia. }
  apply bit_at_ext; [by rewrite length_imm_bits|]. intros i Hi. rewrite Hs in Hi.
  rewrite bit_at_splice by (rewrite length_replicate, Hl; lia). rewrite Hl. unfold imm_bits.
  rewrite bit_at_map_seq, Hb, tb_0, bit_at_replicate by done. cbn [Nat.leb andb]. rewrite Nat.sub_0_r.
  destruct (Nat.ltb_spec i (0 + n)).
  - rewrite (proj2 (Nat.leb_le 0 i)) by lia. cbn [andb]. unfold words_bits. rewrite bit_at_map_seq by lia.
    rewrite wsbit_cons_low by lia. by destruct (tb _ i).
  - rewrite andb_false_r. by rewrite tb_high by (done || lia).
Qed.

Lemma imm_zero cp : bit_idx0 cp = 0 -> bit_idx1 cp = 0 -> rep4 (vector4_fill (wid_of cp) BIT4_0) (imm_bits cp).
Proof.
  intros Ha Hb. replace (imm_bits cp) with (replicate (wid_of cp) BIT4_0); [apply rep4_fill|].
  apply bit_at_ext; [by rewrite length_imm_bits, length_replicate|]. intros i Hi. rewrite length_replicate in Hi.
  unfold imm_bits. by rewrite bit_at_replicate, bit_at_map_seq, Ha, Hb, tb_0.
Qed.

Lemma immediate_returns cp : imm_ok cp -> (0 < wid_of cp)%nat -> returns (immediate cp) (fun r => rep4 r (imm_bits cp)).
Proof.
  intros Hok Hw. unfold immediate, get_immediate_rval.
  destruct (Z.eqb_spec (bit_idx1 cp) 0) as [Hb|Hb].
  - destruct (Z.eqb_spec (bit_idx0 cp) 0) as [Ha|Ha]; [by apply returns_ret, imm_zero|].
    apply imm_setarray; [done|done|lia|done].
  - rewrite <- imm_switch_is_loop. by apply imm_switch_returns.
Qed.

(** *** Loops over the bits *)

Lemma bit_loop_returns g x y l r :
  rep4 x l -> rep4 y r -> length r = length l -> returns (bit_loop g x y) (fun z => rep4 z (zip_with g l r)).
Proof.
  intros Hx Hy Hl. unfold bit_loop. rewrite (rep4_size _ _ Hx), (rep4_size _ _ Hy).
  apply returns_assert; [by apply Nat.eqb_eq|]. by apply rep4_loop2.
Qed.

(** A loop that assigns some of the bits. *)
Lemma cond_loop_returns (body : nat -> vvp_vector4_t -> option vvp_vector4_t) x l (h : nat -> vvp_bit4_t -> vvp_bit4_t) :
  rep4 x l ->
  (forall i v, (body i v = Some v /\ h i (value v i) = value v i) \/ body i v = set_bit v i (h i (value v i))) ->
  returns (for_ 0 (size_ x) body x) (fun z => rep4 z (map (fun i => h i (bit_at l i)) (seq 0 (length l)))).
Proof.
  intros Hx Hbody. rewrite (rep4_size _ _ Hx). eapply returns_mono.
  { apply (returns_for (fun k t => exists m, rep4 t m /\ length m = length l /\
      forall i, (i < length l)%nat -> bit_at m i = if (i <? k)%nat then h i (bit_at l i) else bit_at l i)).
    - by exists l.
    - intros k t Hk (m & Hm & Hlen & Hv).
      assert (Ek : bit_at m k = bit_at l k) by (rewrite Hv, Nat.ltb_irrefl by lia; done).
      destruct (Hbody k t) as [[-> E]| ->]; rewrite (rep4_value _ _ _ Hm) in *.
      + apply returns_ret. exists m. split_and!; [done..|]. intros i Hi. rewrite Hv by done.
        destruct (Nat.eqb_spec i k) as [->|].
        * rewrite Nat.ltb_irrefl, (proj2 (Nat.ltb_lt _ _)) by lia. by rewrite <- Ek.
        * by split_ifs; try lia.
      + eapply returns_mono; [apply (rep4_set_bit t m); [done|lia]|]. intros r Hr. eexists. split; [exact Hr|].
        rewrite length_insert. split; [done|]. intros i Hi. rewrite bit_at_insert by lia.
        destruct (Nat.eqb_spec i k) as [->|].
        * rewrite (proj2 (Nat.ltb_lt _ _)) by lia. by rewrite Ek.
        * rewrite Hv by done. by split_ifs; try lia. }
  intros r (m & Hm & Hlen & Hval). replace (map _ _) with m; [done|].
  apply bit_at_ext; [by rewrite length_map, length_seq|]. intros i Hi. rewrite Hlen in Hi.
  rewrite Hval, bit_at_map_seq by done. cbn [Nat.add]. by rewrite (proj2 (Nat.ltb_lt _ _)).
Qed.

Lemma map_bit_at (f : vvp_bit4_t -> vvp_bit4_t) l : map (fun i => f (bit_at l i)) (seq 0 (length l)) = map f l.
Proof.
  apply bit_at_ext; rewrite !length_map, length_seq; [done|]. intros i Hi. rewrite bit_at_map_seq by done.
  unfold bit_at. rewrite !nth_lookup. rewrite list_lookup_fmap.
  by destruct (lookup_lt_is_Some_2 l i Hi) as [x ->].
Qed.

Lemma zip_bit_at (f : vvp_bit4_t -> vvp_bit4_t -> vvp_bit4_t) l m :
  length m = length l -> map (fun i => f (bit_at l i) (bit_at m i)) (seq 0 (length l)) = zip_with f l m.
Proof.
  intros Hlen. apply bit_at_ext; rewrite length_map, length_seq; [rewrite length_zip_with; lia|].
  intros i Hi. rewrite bit_at_map_seq by done. unfold bit_at. rewrite !nth_lookup, lookup_zip_with.
  destruct (lookup_lt_is_Some_2 l i Hi) as [x ->], (lookup_lt_is_Some_2 m i ltac:(lia)) as [y ->]. done.
Qed.

Lemma blend_returns x y l r :
  rep4 x l -> rep4 y r -> length r = length l ->
  returns (for_ 0 (size_ x) (fun idx vala =>
      let v := value vala idx in
      if bit4_eqb v (value y idx) && negb (bit4_eqb v BIT4_Z) then Some vala
      else set_bit vala idx BIT4_X) x) (fun z => rep4 z (zip_with blend_bit l r)).
Proof.
  intros Hx Hy Hl. rewrite <- zip_bit_at by done.
  apply (cond_loop_returns _ x l (fun i b => blend_bit b (bit_at r i)) Hx).
  intros i v. cbv zeta. rewrite (rep4_value _ _ _ Hy). unfold blend_bit. destruct (_ && _); auto.
Qed.

Lemma cast2_returns x l :
  rep4 x l ->
  returns (for_ 0 (size_ x) (fun idx val =>
    match value val idx with BIT4_0 | BIT4_1 => Some val | _ => set_bit val idx BIT4_0 end) x)
    (fun z => rep4 z (map cast2_bit l)).
Proof.
  intros Hx. rewrite <- map_bit_at.
  apply (cond_loop_returns _ x l (fun i b => cast2_bit b) Hx). intros i v. destruct (value v i); auto.
Qed.

(** *** Reductions *)

Lemma reduce_loop_spec stop out neutral v l n : forall idx lb,
  rep4 v l -> (idx + n = length l)%nat ->
  reduce_loop stop out neutral v n idx lb =
    if existsb (fun b => bit4_eqb b stop) (drop idx l) then out
    else if forallb (fun b => bit4_eqb b neutral) (drop idx l) then lb else BIT4_X.
Proof.
  induction n as [|n IH]; intros idx lb Hv Hlen; cbn [reduce_loop]; [by rewrite drop_ge by lia|].
  destruct (lookup_lt_is_Some_2 l idx ltac:(lia)) as [b Hb].
  rewrite (drop_S l b idx Hb), (rep4_value _ _ _ Hv). cbn [existsb forallb].
  rewrite (bit_at_lookup _ _ _ Hb).
  destruct (bit4_eqb b stop); cbn [orb]; [done|]. rewrite IH by (done || lia).
  destruct (existsb _ _); [done|]. destruct (bit4_eqb b neutral); cbn [andb]; [done|].
  by destruct (forallb _ _).
Qed.

Lemma reduce_and l :
  foldr bit4_and BIT4_1 l =
    if existsb (fun b => bit4_eqb b BIT4_0) l then BIT4_0
    else if forallb (fun b => bit4_eqb b BIT4_1) l then BIT4_1 else BIT4_X.
Proof.
  induction l as [|b l IH]; [done|]. cbn [foldr existsb forallb]. rewrite IH.
  destruct (existsb _ l), (forallb _ l); by destruct b.
Qed.

Lemma reduce_or l :
  foldr bit4_or BIT4_0 l =
    if existsb (fun b => bit4_eqb b BIT4_1) l then BIT4_1
    else if forallb (fun b => bit4_eqb b BIT4_0) l then BIT4_0 else BIT4_X.
Proof.
  induction l as [|b l IH]; [done|]. cbn [foldr existsb forallb]. rewrite IH.
  destruct (existsb _ l), (forallb _ l); by destruct b.
Qed.

Lemma parity_loop_spec v l n : forall idx lb,
  rep4 v l -> (idx + n = length l)%nat -> bit4_is_xz lb = false ->
  parity_loop v n idx lb = foldr bit4_xor lb (drop idx l).
Proof.
  induction n as [|n IH]; intros idx lb Hv Hlen Hlb; cbn [parity_loop]; [by rewrite drop_ge by lia|].
  destruct (lookup_lt_is_Some_2 l idx ltac:(lia)) as [b Hb].
  rewrite (drop_S l b idx Hb), (rep4_value _ _ _ Hv). cbn [foldr]. rewrite (bit_at_lookup _ _ _ Hb).
  assert (Hx : forall x, foldr bit4_xor (bit4_not x) (drop (S idx) l) = bit4_xor BIT4_1 (foldr bit4_xor x (drop (S idx) l))).
  { intros x. induction (drop (S idx) l) as [|c m IHm]; [by destruct x|]. cbn [foldr]. rewrite IHm.
    by destruct c, (foldr bit4_xor x m). }
  assert (H0 : forall m, bit4_xor BIT4_0 (foldr bit4_xor lb m) = foldr bit4_xor lb m).
  { intros m. destruct m as [|c m]; cbn [foldr]; [by destruct lb|]. by destruct c, (foldr bit4_xor lb m). }
  destruct b; cbn [bit4_eqb bit4_int Z.eqb negb Pos.eqb].
  - rewrite IH by (done || lia). by rewrite H0.
  - rewrite IH by (done || lia || by destruct lb). apply Hx.
  - by destruct (foldr _ _ _).
  - by destruct (foldr _ _ _).
Qed.

Lemma foldr_xor_neg l : foldr bit4_xor BIT4_1 l = bit4_not (foldr bit4_xor BIT4_0 l).
Proof. induction l as [|b l IH]; [done|]. cbn [foldr]. rewrite IH. by destruct b, (foldr bit4_xor BIT4_0 l). Qed.

Lemma reduce_top_leaves t p fl ws l st f b :
  state_is t p fl ws (l :: st) -> (forall v, rep4 v l -> f v = b) -> leaves (reduce_top t f) p fl ws ([b] :: st).
Proof.
  intros Ht Hf. unfold reduce_top. destruct (pop_state _ _ _ _ _ _ Ht) as (x & t' & -> & Hx & Ht'). cbn [mbind option_bind].
  apply leaves_ret. rewrite (Hf x Hx). apply push_state; [done|]. apply (rep4_fill 1).
Qed.

(** *** Comparisons *)

Definition pair_xz (p : vvp_bit4_t * vvp_bit4_t) : bool := bit4_is_xz (fst p) || bit4_is_xz (snd p).

Lemma zip_pair_xz l r : length r = length l -> existsb pair_xz (zip l r) = list_has_xz l || list_has_xz r.
Proof.
  revert r. induction l as [|a l IH]; intros [|b r] Hlen; try done. unfold list_has_xz in *. cbn in Hlen.
  cbn [zip_with existsb]. rewrite IH by lia. unfold pair_xz. cbn [fst snd]. by destruct (bit4_is_xz a), (bit4_is_xz b), (existsb _ l).
Qed.

Lemma logic_eq_pairs l r :
  length r = length l ->
  logic_eq l r = if existsb known_diff (zip l r) then BIT4_0 else if existsb pair_xz (zip l r) then BIT4_X else BIT4_1.
Proof. intros H. by rewrite zip_pair_xz. Qed.

Lemma logic_eq_known l r :
  length r = length l -> list_has_xz l || list_has_xz r = false -> logic_eq l r = bit4_of_test (bool_decide (l = r)).
Proof.
  intros Hlen Hx. unfold logic_eq. rewrite Hx.
  assert (Hd : existsb known_diff (zip l r) = negb (bool_decide (l = r))).
  { revert r Hlen Hx. induction l as [|a l IH]; intros [|b r] Hlen Hx; try done. cbn in Hlen.
    unfold list_has_xz in *. cbn [existsb] in Hx. rewrite !orb_false_iff in Hx. destruct Hx as [[Ha Hl] [Hb Hr]].
    cbn [zip_with existsb]. rewrite IH by (lia || by rewrite Hl, Hr). unfold known_diff. cbn [fst snd]. rewrite Ha, Hb. cbn [negb andb].
    destruct (bit4_eqb_spec a b) as [->|Hne]; cbn [negb orb].
    - f_equal. apply bool_decide_ext. split; [by intros ->|by intros [= ->]].
    - rewrite bool_decide_eq_false_2 by congruence. done. }
  rewrite Hd. by case_bool_decide.
Qed.

(** Reading two lists in step. *)
Lemma zip_drop (l r : list vvp_bit4_t) idx a b :
  l !! idx = Some a -> r !! idx = Some b -> zip (drop idx l) (drop idx r) = (a, b) :: zip (drop (S idx) l) (drop (S idx) r).
Proof. intros Ha Hb. by rewrite (drop_S l a idx Ha), (drop_S r b idx Hb). Qed.

Lemma cmpe_loop_spec x y l r n : forall idx eq eeq,
  rep4 x l -> rep4 y r -> length r = length l -> (idx + n = length l)%nat -> eq = BIT4_1 \/ eq = BIT4_X ->
  cmpe_loop x y n idx eq eeq =
    (if existsb known_diff (zip (drop idx l) (drop idx r)) then BIT4_0
     else if bit4_eqb eq BIT4_X || existsb pair_xz (zip (drop idx l) (drop idx r)) then BIT4_X else BIT4_1,
     if bool_decide (drop idx l = drop idx r) then eeq else BIT4_0).
Proof.
  induction n as [|n IH]; intros idx eq eeq Hx Hy Hl Hlen Heq; cbn [cmpe_loop].
  { rewrite !drop_ge by lia. cbn [zip_with existsb]. rewrite bool_decide_eq_true_2, orb_false_r by done. by destruct Heq as [->| ->]. }
  destruct (lookup_lt_is_Some_2 l idx ltac:(lia)) as [a Ha], (lookup_lt_is_Some_2 r idx ltac:(lia)) as [b Hb].
  rewrite (zip_drop _ _ _ _ _ Ha Hb), (rep4_value _ _ _ Hx), (rep4_value _ _ _ Hy).
  rewrite (bit_at_lookup _ _ _ Ha), (bit_at_lookup _ _ _ Hb). cbn [existsb].
  rewrite (drop_S l a idx Ha), (drop_S r b idx Hb).
  assert (Hd : bool_decide (a :: drop (S idx) l = b :: drop (S idx) r) = bit4_eqb a b && bool_decide (drop (S idx) l = drop (S idx) r)).
  { destruct (bit4_eqb_spec a b) as [->|Hne]; cbn [andb].
    - apply bool_decide_ext. split; [by intros [= ->]|by intros ->].
    - apply bool_decide_eq_false_2. congruence. }
  rewrite Hd. clear Hd.
  destruct Heq as [-> | ->], a, b; cbn -[existsb cmpe_loop bool_decide drop]; rewrite ?IH by auto with lia; cbn [bit4_eqb bit4_int Z.eqb Pos.eqb orb];
    try done; try (by destruct (existsb known_diff _)); by destruct (bool_decide _).
Qed.

Lemma cared_cons (a b : vvp_bit4_t) z :
  List.filter (fun p => negb (bit4_is_xz (snd p))) ((a, b) :: z) =
    if bit4_is_xz b then List.filter (fun p => negb (bit4_is_xz (snd p))) z
    else (a, b) :: List.filter (fun p => negb (bit4_is_xz (snd p))) z.
Proof. cbn [List.filter snd]. by destruct (bit4_is_xz b). Qed.

Lemma cared_known (l r : list vvp_bit4_t) :
  list_has_xz r = false -> List.filter (fun p => negb (bit4_is_xz (snd p))) (zip l r) = zip l r.
Proof.
  revert r. induction l as [|a l IH]; intros [|b r] Hr; try done. unfold list_has_xz in *. cbn [existsb] in Hr.
  apply orb_false_iff in Hr as [Hb Hr]. cbn [zip_with]. by rewrite cared_cons, Hb, IH.
Qed.

Lemma wild_eq_pairs l r :
  wild_eq l r =
    let c := List.filter (fun p => negb (bit4_is_xz (snd p))) (zip l r) in
    if existsb known_diff c then BIT4_0 else if existsb pair_xz c then BIT4_X else BIT4_1.
Proof.
  unfold wild_eq. cbv zeta. rewrite logic_eq_pairs by (by rewrite !length_fmap). by rewrite zip_fst_snd.
Qed.

Lemma cmpwe_loop_spec x y l r n : forall idx eq,
  rep4 x l -> rep4 y r -> length r = length l -> (idx + n = length l)%nat -> eq = BIT4_1 \/ eq = BIT4_X ->
  cmpwe_loop x y n idx eq =
    let c := List.filter (fun p => negb (bit4_is_xz (snd p))) (zip (drop idx l) (drop idx r)) in
    if existsb known_diff c then BIT4_0 else if bit4_eqb eq BIT4_X || existsb pair_xz c then BIT4_X else BIT4_1.
Proof.
  cbv zeta. induction n as [|n IH]; intros idx eq Hx Hy Hl Hlen Heq; cbn [cmpwe_loop].
  { rewrite !drop_ge by lia. by destruct Heq as [->| ->]. }
  destruct (lookup_lt_is_Some_2 l idx ltac:(lia)) as [a Ha], (lookup_lt_is_Some_2 r idx ltac:(lia)) as [b Hb].
  rewrite (zip_drop _ _ _ _ _ Ha Hb), cared_cons, (rep4_value _ _ _ Hx), (rep4_value _ _ _ Hy).
  rewrite (bit_at_lookup _ _ _ Ha), (bit_at_lookup _ _ _ Hb).
  destruct (bit4_is_xz b) eqn:Eb; [by apply IH; auto with lia|]. cbn [existsb].
  destruct Heq as [-> | ->], a, b; try discriminate Eb; cbn -[existsb cmpwe_loop drop]; rewrite ?IH by auto with lia;
    cbn [bit4_eqb bit4_int Z.eqb Pos.eqb orb]; try done; by destruct (existsb known_diff _).
Qed.

Lemma cmpxz_loop_spec skip x y l r n : forall idx,
  rep4 x l -> rep4 y r -> length r = length l -> (idx + n = length l)%nat ->
  cmpxz_loop skip x y n idx = bit4_of_test (case_match skip (drop idx l) (drop idx r)).
Proof.
  induction n as [|n IH]; intros idx Hx Hy Hl Hlen; cbn [cmpxz_loop]; [by rewrite !drop_ge by lia|].
  destruct (lookup_lt_is_Some_2 l idx ltac:(lia)) as [a Ha], (lookup_lt_is_Some_2 r idx ltac:(lia)) as [b Hb].
  unfold case_match. rewrite (zip_drop _ _ _ _ _ Ha Hb), (rep4_value _ _ _ Hx), (rep4_value _ _ _ Hy).
  rewrite (bit_at_lookup _ _ _ Ha), (bit_at_lookup _ _ _ Hb). cbn [forallb fst snd].
  rewrite <- !negb_orb. destruct (bit4_eqb a b || skip a || skip b); cbn [negb andb]; [|done].
  apply IH; done || lia.
Qed.

Lemma cmpxz_leaves skip t p fl ws r l st :
  state_is t p fl ws (r :: l :: st) -> length r = length l ->
  leaves (cmpxz skip t) p (<[4%nat := bit4_of_test (case_match skip l r)]> fl) ws st.
Proof.
  intros Ht Hlen. unfold cmpxz. destruct (pop_state _ _ _ _ _ _ Ht) as (y & t1 & -> & Hy & Ht1). cbn [mbind option_bind].
  destruct (pop_state _ _ _ _ _ _ Ht1) as (x & t2 & -> & Hx & Ht2). cbn [mbind option_bind].
  rewrite (rep4_size _ _ Hx), (rep4_size _ _ Hy). apply returns_assert; [by apply Nat.eqb_eq|].
  rewrite (cmpxz_loop_spec skip x y l r (length l) 0), !drop_0 by done. by apply leaves_ret, set_flag_state.
Qed.

(** The numbers of the low bits decide the signed and the unsigned order. *)
Lemma cmps_loop_spec x y wid n : forall idx,
  (idx + n = wid)%nat ->
  (forall i, (i < n)%nat -> bit4_is_xz (value x i) = false /\ bit4_is_xz (value y i) = false) ->
  cmps_loop x y wid n idx =
    (bit4_of_test (low_bits x n =? low_bits y n), bit4_of_test (low_bits x n <? low_bits y n),
     bit4_of_test (low_bits x n =? low_bits y n)).
Proof.
  induction n as [|n IH]; intros idx Hi Hk; [done|]. cbn [cmps_loop].
  replace (wid - 1 - idx)%nat with n by lia. rewrite IH by auto with lia. rewrite !low_bits_S.
  pose proof (low_bits_bounds x n). pose proof (low_bits_bounds y n). destruct (Hk n ltac:(lia)) as [H1 H2].
  destruct (value x n), (value y n); try discriminate H1; try discriminate H2;
    cbn [bit4_eqb bit4_int Z.eqb Pos.eqb]; rewrite ?Z.add_0_r.
  - done.
  - rewrite (proj2 (Z.eqb_neq _ _)), (proj2 (Z.ltb_lt _ _)) by lia. done.
  - rewrite (proj2 (Z.eqb_neq _ _)), (proj2 (Z.ltb_ge _ _)) by lia. done.
  - assert (forall a b c, (a + c =? b + c) = (a =? b)) as -> by (intros; destruct (Z.eqb_spec a b), (Z.eqb_spec (a + c) (b + c)); lia).
    assert (forall a b c, (a + c <? b + c) = (a <? b)) as -> by (intros; destruct (Z.ltb_spec a b), (Z.ltb_spec (a + c) (b + c)); lia).
    done.
Qed.

Lemma cmpu_words_spec la ra n : forall k eq lt,
  words_ok la -> words_ok ra ->
  eq = bit4_of_test (wsum (wd la) k =? wsum (wd ra) k) -> lt = bit4_of_test (wsum (wd la) k <? wsum (wd ra) k) ->
  cmpu_words la ra n k eq lt =
    (bit4_of_test (wsum (wd la) (k + n) =? wsum (wd ra) (k + n)), bit4_of_test (wsum (wd la) (k + n) <? wsum (wd ra) (k + n))).
Proof.
  induction n as [|n IH]; intros k eq lt Ha Hb -> ->; cbn [cmpu_words]; [by rewrite Nat.add_0_r|].
  pose proof (wsum_bounds (wd la) k ltac:(auto with word_db)). pose proof (wsum_bounds (wd ra) k ltac:(auto with word_db)).
  assert (Hn : (k + S n = S k + n)%nat) by lia. rewrite Hn.
  destruct (Z.eqb_spec (wd la k) (wd ra k)) as [E|E]; apply IH; try done; cbn [wsum]; f_equal.
  - rewrite E. destruct (Z.eqb_spec (wsum (wd la) k) (wsum (wd ra) k)) as [->|]; [by rewrite Z.eqb_refl|].
    symmetry. apply Z.eqb_neq. lia.
  - rewrite E. by destruct (Z.ltb_spec (wsum (wd la) k) (wsum (wd ra) k)), (Z.ltb_spec (wsum (wd la) k + wd ra k * 2 ^ (64 * Z.of_nat k)) (wsum (wd ra) k + wd ra k * 2 ^ (64 * Z.of_nat k))); lia.
  - destruct (Z.eqb_spec (wsum (wd la) k + wd la k * 2 ^ (64 * Z.of_nat k)) (wsum (wd ra) k + wd ra k * 2 ^ (64 * Z.of_nat k))); [|done]. nia.
  - destruct (Z.ltb_spec (wd la k) (wd ra k)); symmetry; [apply Z.ltb_lt|apply Z.ltb_ge]; nia.
Qed.

Lemma bits_to_Z_inj l r :
  length r = length l -> list_has_xz l || list_has_xz r = false -> bits_to_Z l = bits_to_Z r <-> l = r.
Proof.
  intros Hlen [Hl Hr]%orb_false_iff. split; [|by intros ->]. intros E.
  apply list_eq. intros i. rewrite list_has_xz_false in Hl, Hr.
  assert (H := f_equal (fun z => tb z i) E). cbv beta in H. rewrite !tb_bits_to_Z in H.
  destruct (l !! i) as [a|] eqn:Ea, (r !! i) as [b|] eqn:Eb; [| | |done].
  - specialize (Hl _ _ Ea). specialize (Hr _ _ Eb). by destruct a, b.
  - apply lookup_lt_Some in Ea. apply lookup_ge_None in Eb. lia.
  - apply lookup_lt_Some in Eb. apply lookup_ge_None in Ea. lia.
Qed.

Lemma signed_inj l r : length r = length l -> bits_to_signed_Z l = bits_to_signed_Z r -> bits_to_Z l = bits_to_Z r.
Proof.
  intros Hlen. pose proof (bits_to_Z_bounds l). pose proof (bits_to_Z_bounds r).
  unfold bits_to_signed_Z. rewrite Hlen in *. do 2 case_decide; lia.
Qed.

(** The flags 4, 5 and 6. *)
Definition flags456 (fl : list vvp_bit4_t) (eq lt eeq : vvp_bit4_t) : list vvp_bit4_t := <[6%nat := eeq]> (<[5%nat := lt]> (<[4%nat := eq]> fl)).

Lemma set_flags456_state t p fl ws st eq lt eeq :
  state_is t p fl ws st -> state_is (set_flags456 t eq lt eeq) p (flags456 fl eq lt eeq) ws st.
Proof. intros H. unfold set_flags456. by repeat apply set_flag_state. Qed.

Lemma invert_flag_leaves t p fl ws st i b :
  state_is t p fl ws st -> fl !! i = Some b -> leaves (invert_flag t i) p (<[i := bit4_not b]> fl) ws st.
Proof.
  intros Ht Hb. unfold invert_flag. assert (flags t = fl) as -> by apply Ht. rewrite Hb. cbn [mbind option_bind].
  by apply leaves_ret, set_flag_state.
Qed.

Lemma compare2_leaves t p fl ws r l st f fl' :
  state_is t p fl ws (r :: l :: st) ->
  (forall x y, rep4 x l -> rep4 y r -> leaves (f t x y) p fl' ws (r :: l :: st)) ->
  leaves (compare2 t f) p fl' ws st.
Proof.
  intros Ht Hf. unfold compare2.
  destruct (peek_state _ _ _ _ _ 0 r Ht eq_refl) as (y & -> & Hy), (peek_state _ _ _ _ _ 1 l Ht eq_refl) as (x & -> & Hx).
  cbn [mbind option_bind]. eapply leaves_bind; [by apply Hf|]. intros t' Ht'.
  apply (pop_n_state _ _ _ _ _ 2 Ht'). cbn [length]. lia.
Qed.

Lemma compare_imm_leaves t cp p fl ws l st f fl' :
  state_is t p fl ws (l :: st) -> imm_ok cp -> (0 < wid_of cp)%nat ->
  (forall x y, rep4 x l -> rep4 y (imm_bits cp) -> leaves (f t x y) p fl' ws (l :: st)) ->
  leaves (compare_imm t cp f) p fl' ws st.
Proof.
  intros Ht Hok Hw Hf. unfold compare_imm.
  destruct (peek_state _ _ _ _ _ 0 l Ht eq_refl) as (x & -> & Hx). cbn [mbind option_bind].
  eapply leaves_bind; [by apply immediate_returns|]. intros y Hy.
  eapply leaves_bind; [by apply Hf|]. intros t' Ht'. apply (pop_n_state _ _ _ _ _ 1 Ht'). cbn [length]. lia.
Qed.

Section compare.
Context (t : vthread_s) (p : nat) (fl : list vvp_bit4_t) (ws : list Z) (st : list (list vvp_bit4_t)).
Context (l r : list vvp_bit4_t) (x y : vvp_vector4_t).
Context (Ht : state_is t p fl ws st) (Hx : rep4 x l) (Hy : rep4 y r) (Hlen : length r = length l) (Hpos : (0 < length l)%nat).

Lemma has_xz_pair : has_xz x || has_xz y = list_has_xz l || list_has_xz r.
Proof. by rewrite (rep4_has_xz _ _ Hx), (rep4_has_xz _ _ Hy) by lia. Qed.

Lemma do_CMPE_leaves :
  leaves (do_CMPE t x y) p (<[6%nat := bit4_of_test (bool_decide (l = r))]> (<[4%nat := logic_eq l r]> fl)) ws st.
Proof.
  unfold do_CMPE. rewrite (rep4_size _ _ Hx), (rep4_size _ _ Hy), has_xz_pair. apply returns_assert; [by apply Nat.eqb_eq|].
  destruct (list_has_xz l || list_has_xz r) eqn:Exz.
  - rewrite (cmpe_loop_spec x y l r (length l) 0) by auto. rewrite !drop_0. cbn [bit4_eqb bit4_int Z.eqb Pos.eqb orb].
    rewrite <- logic_eq_pairs by done. apply leaves_ret.
    by repeat apply set_flag_state.
  - rewrite (rep4_eeq _ _ _ _ Hx Hy), logic_eq_known by done. apply leaves_ret.
    rewrite list_insert_insert_ne by done. by repeat apply set_flag_state.
Qed.

Lemma do_CMPS_leaves :
  let known := negb (list_has_xz l || list_has_xz r) in
  leaves (do_CMPS t x y) p
    (flags456 fl (if known then bit4_of_test (bits_to_signed_Z l =? bits_to_signed_Z r) else BIT4_X)
       (if known then bit4_of_test (bits_to_signed_Z l <? bits_to_signed_Z r) else BIT4_X)
       (bit4_of_test (bool_decide (l = r)))) ws st.
Proof.
  intros known. unfold do_CMPS, known. rewrite (rep4_size _ _ Hx), (rep4_size _ _ Hy), has_xz_pair.
  apply returns_assert; [by apply Nat.eqb_eq|].
  destruct (list_has_xz l || list_has_xz r) eqn:Exz; cbn [negb].
  { rewrite (rep4_eeq _ _ _ _ Hx Hy). by apply leaves_ret, set_flags456_state. }
  assert (Eeq : bool_decide (l = r) = (bits_to_signed_Z l =? bits_to_signed_Z r)).
  { destruct (Z.eqb_spec (bits_to_signed_Z l) (bits_to_signed_Z r)) as [E|E].
    - apply bool_decide_eq_true_2. apply bits_to_Z_inj; [done..|]. by apply signed_inj.
    - apply bool_decide_eq_false_2. congruence. }
  rewrite Eeq. clear Eeq. pose proof Exz as [Xl Xr]%orb_false_iff.
  pose proof (rep4_size _ _ Hx) as Sx. pose proof (rep4_size _ _ Hy) as Sy.
  destruct Hx as [_ Bx], Hy as [_ By]. rewrite <- Bx in Xl. rewrite <- By in Xr.
  pose proof (cmps_loop_spec x y (length l) (length l - 1) 1 ltac:(lia)
    ltac:(intros; split; apply no_xz_value; (done || lia))) as Hloop.
  pose proof (low_bits_S x (length l - 1)) as Lx. pose proof (low_bits_S y (length l - 1)) as Ly.
  replace (S (length l - 1)) with (length l) in Lx, Ly by lia.
  rewrite <- Sx, low_bits_size in Lx. rewrite <- Hlen, <- Sy, low_bits_size in Ly.
  rewrite <- Sx in Hloop. rewrite <- Sx.
  destruct (signed_split x ltac:(lia) Xl) as [(Vx & Ex & Ix)|(Vx & Ex & Ix)];
    destruct (signed_split y ltac:(lia) Xr) as [(Vy & Ey & Iy)|(Vy & Ey & Iy)];
    rewrite Sy, Hlen, <- Sx in *; rewrite Vx in *; rewrite Vy in *; cbn [bit4_eqb bit4_int Z.eqb Pos.eqb andb] in *;
    rewrite <- Bx, <- By, Ex, Ey in *.
  - rewrite Hloop. rewrite Lx, Ly, !Z.add_0_r. by apply leaves_ret, set_flags456_state.
  - apply leaves_ret. rewrite (proj2 (Z.eqb_neq _ _)), (proj2 (Z.ltb_ge _ _)) by lia. by apply set_flags456_state.
  - apply leaves_ret. rewrite (proj2 (Z.eqb_neq _ _)), (proj2 (Z.ltb_lt _ _)) by lia. by apply set_flags456_state.
  - rewrite Hloop. rewrite Lx, Ly.
    assert (forall a b h, (a + h - 2 * h =? b + h - 2 * h) = (a =? b)) as -> by (intros; destruct (Z.eqb_spec a b), (Z.eqb_spec (a + h - 2 * h) (b + h - 2 * h)); lia).
    assert (forall a b h, (a + h - 2 * h <? b + h - 2 * h) = (a <? b)) as -> by (intros; destruct (Z.ltb_spec a b), (Z.ltb_spec (a + h - 2 * h) (b + h - 2 * h)); lia).
    by apply leaves_ret, set_flags456_state.
Qed.

Lemma do_CMPU_leaves :
  let known := negb (list_has_xz l || list_has_xz r) in
  leaves (do_CMPU t x y) p
    (flags456 fl (logic_eq l r) (if known then bit4_of_test (bits_to_Z l <? bits_to_Z r) else BIT4_X)
       (bit4_of_test (bool_decide (l = r)))) ws st.
Proof.
  intros known. unfold do_CMPU, known. rewrite (rep4_size _ _ Hx), (rep4_size _ _ Hy).
  apply returns_assert; [by apply Nat.eqb_eq|].
  assert (Hhard : list_has_xz l || list_has_xz r = true ->
    leaves (of_CMPU_the_hard_way t (length l) x y) p
      (flags456 fl (logic_eq l r) BIT4_X (bit4_of_test (bool_decide (l = r)))) ws st).
  { intros _. unfold of_CMPU_the_hard_way. rewrite (cmpe_loop_spec x y l r (length l) 0) by auto. rewrite !drop_0.
    cbn [bit4_eqb bit4_int Z.eqb Pos.eqb orb]. rewrite <- logic_eq_pairs by done. by apply leaves_ret, set_flags456_state. }
  pose proof (rep4_subarray x l Hx Hpos) as Ha. destruct (subarray x _ _ _) as [la|].
  2:{ rewrite Ha in *. by apply Hhard. }
  pose proof (rep4_subarray y r Hy ltac:(lia)) as Hb. rewrite Hlen in Hb. destruct (subarray y _ _ _) as [ra|].
  2:{ rewrite Hb, orb_true_r in *. by apply Hhard. }
  destruct Ha as (Xl & _ & Oa & Sa), Hb as (Xr & _ & Ob & Sb).
  rewrite (cmpu_words_spec la ra (nwords (length l)) 0) by done. rewrite Nat.add_0_l, Sa, Sb.
  rewrite logic_eq_known by (done || by rewrite Xl, Xr). rewrite Xl, Xr. cbn [orb negb].
  replace (bool_decide (l = r)) with (bits_to_Z l =? bits_to_Z r); [by apply leaves_ret, set_flags456_state|].
  pose proof (bits_to_Z_inj l r Hlen ltac:(by rewrite Xl, Xr)).
  destruct (Z.eqb_spec (bits_to_Z l) (bits_to_Z r)); symmetry; [apply bool_decide_eq_true_2|apply bool_decide_eq_false_2]; tauto.
Qed.

Lemma do_CMPWE_leaves : leaves (do_CMPWE t x y) p (<[4%nat := wild_eq l r]> fl) ws st.
Proof.
  unfold do_CMPWE. rewrite (rep4_size _ _ Hx), (rep4_size _ _ Hy), has_xz_pair. apply returns_assert; [by apply Nat.eqb_eq|].
  destruct (list_has_xz l || list_has_xz r) eqn:Exz; apply leaves_ret.
  - rewrite (cmpwe_loop_spec x y l r (length l) 0) by auto. rewrite !drop_0. cbv zeta. cbn [bit4_eqb bit4_int Z.eqb Pos.eqb orb].
    rewrite <- wild_eq_pairs. by apply set_flag_state.
  - rewrite (rep4_eeq _ _ _ _ Hx Hy), <- logic_eq_known by done.
    replace (logic_eq l r) with (wild_eq l r); [by apply set_flag_state|].
    unfold wild_eq. apply orb_false_iff in Exz as [_ Xr]. rewrite cared_known by done. by rewrite fst_zip, snd_zip by lia.
Qed.
End compare.

(** *** Properties *)

(** A concrete stack of constant vectors. *)
Ltac fill_stack := repeat (apply Forall2_cons; split; [apply rep4_fill|]); apply Forall2_nil_2.

(** C27: the binary vector instructions pop the right operand and replace the
    left one by the Verilog result - sums, differences and products modulo the
    width, X when an operand bit is unknown, the bitwise operators bit by bit -
    and touch neither the flags nor the index registers. *)
Theorem binary_instructions t cp p fl ws r l st :
  state_is t p fl ws (r :: l :: st) -> length r = length l ->
  leaves (of_ADD t cp) p fl ws (bits_arith Z.add l r :: st) /\
  leaves (of_SUB t cp) p fl ws (bits_arith Z.sub l r :: st) /\
  leaves (of_MUL t cp) p fl ws (bits_arith Z.mul l r :: st) /\
  leaves (of_AND t cp) p fl ws (zip_with bit4_and l r :: st) /\
  leaves (of_OR t cp) p fl ws (zip_with bit4_or l r :: st) /\
  leaves (of_NAND t cp) p fl ws (zip_with (fun a b => bit4_not (bit4_and a b)) l r :: st) /\
  leaves (of_NOR t cp) p fl ws (zip_with (fun a b => bit4_not (bit4_or a b)) l r :: st) /\
  leaves (of_XOR t cp) p fl ws (zip_with bit4_xor l r :: st) /\
  leaves (of_XNOR t cp) p fl ws (zip_with (fun a b => bit4_not (bit4_xor a b)) l r :: st) /\
  leaves (of_BLEND t cp) p fl ws (zip_with blend_bit r l :: st).
Proof.
  intros Ht Hlen. split_and!; try (eapply edit_top2_leaves; [exact Ht|]; intros x y Hx Hy).
  - by apply rep4_add.
  - by apply rep4_sub.
  - by apply rep4_mul.
  - rewrite (rep4_size _ _ Hx), (rep4_size _ _ Hy). apply returns_assert; [by apply Nat.eqb_eq|]. apply returns_ret. auto with rep4_db.
  - apply returns_ret. auto with rep4_db.
  - by apply bit_loop_returns.
  - by apply bit_loop_returns.
  - by apply bit_loop_returns.
  - by apply bit_loop_returns.
  - unfold of_BLEND. destruct (pop_state _ _ _ _ _ _ Ht) as (x & t1 & -> & Hx & Ht1). cbn [mbind option_bind].
    destruct (pop_state _ _ _ _ _ _ Ht1) as (y & t2 & -> & Hy & Ht2). cbn [mbind option_bind].
    apply returns_assert; [apply Nat.eqb_eq; by rewrite (rep4_size _ _ Hx), (rep4_size _ _ Hy)|].
    eapply leaves_bind; [by apply (blend_returns x y r l)|]. intros z Hz. by apply leaves_ret, push_state.
Qed.

Lemma binary_instructions_witness :
  let t := mk_thread 7 [] [] [vector4_fill 4 BIT4_1; vector4_fill 4 BIT4_1] in
  leaves (of_ADD t (mk_code 0 0 0 0)) 7 [] [] [bits_arith Z.add (replicate 4 BIT4_1) (replicate 4 BIT4_1)] /\
  bits_arith Z.add (replicate 4 BIT4_1) (replicate 4 BIT4_1) = [BIT4_0; BIT4_1; BIT4_1; BIT4_1].
Proof.
  cbv zeta. split; [|reflexivity].
  apply (binary_instructions _ _ 7 [] [] (replicate 4 BIT4_1) (replicate 4 BIT4_1) []); [|reflexivity].
  split_and!; [reflexivity..|]. fill_stack.
Defined.

(** The instructions with an immediate operand use the value that the two
    32-bit operands encode bit by bit, zero-extended to the width; the unary and
    reduction instructions compute the complement, the two-state cast and the
    folds of the Verilog operators, NAND, NOR and XNOR being the complements. *)
Theorem unary_instructions t cp p fl ws l st :
  state_is t p fl ws (l :: st) ->
  leaves (of_INV t cp) p fl ws (map bit4_not l :: st) /\
  leaves (of_CAST2 t cp) p fl ws (map cast2_bit l :: st) /\
  leaves (of_ANDR t cp) p fl ws ([foldr bit4_and BIT4_1 l] :: st) /\
  leaves (of_ORR t cp) p fl ws ([foldr bit4_or BIT4_0 l] :: st) /\
  leaves (of_XORR t cp) p fl ws ([foldr bit4_xor BIT4_0 l] :: st) /\
  leaves (of_NANDR t cp) p fl ws ([bit4_not (foldr bit4_and BIT4_1 l)] :: st) /\
  leaves (of_NORR t cp) p fl ws ([bit4_not (foldr bit4_or BIT4_0 l)] :: st) /\
  leaves (of_XNORR t cp) p fl ws ([bit4_not (foldr bit4_xor BIT4_0 l)] :: st) /\
  (imm_ok cp -> (0 < wid_of cp)%nat -> wid_of cp = length l ->
     leaves (of_ADDI t cp) p fl ws (bits_arith Z.add l (imm_bits cp) :: st) /\
     leaves (of_SUBI t cp) p fl ws (bits_arith Z.sub l (imm_bits cp) :: st) /\
     leaves (of_MULI t cp) p fl ws (bits_arith Z.mul l (imm_bits cp) :: st)).
Proof.
  intros Ht. split_and!.
  - eapply edit_top_leaves; [exact Ht|]. intros x Hx. apply returns_ret. auto with rep4_db.
  - eapply edit_top_leaves; [exact Ht|]. intros x Hx. by apply cast2_returns.
  - eapply reduce_top_leaves; [exact Ht|]. intros v Hv. rewrite (rep4_size _ _ Hv), reduce_and. by rewrite (reduce_loop_spec _ _ _ v l _ 0), drop_0 by done.
  - eapply reduce_top_leaves; [exact Ht|]. intros v Hv. rewrite (rep4_size _ _ Hv), reduce_or. by rewrite (reduce_loop_spec _ _ _ v l _ 0), drop_0 by done.
  - eapply reduce_top_leaves; [exact Ht|]. intros v Hv. by rewrite (rep4_size _ _ Hv), (parity_loop_spec v l _ 0), drop_0 by done.
  - eapply reduce_top_leaves; [exact Ht|]. intros v Hv. rewrite (rep4_size _ _ Hv), reduce_and.
    rewrite (reduce_loop_spec _ _ _ v l _ 0) by done. rewrite drop_0. destruct (existsb _ l); [done|]. by destruct (forallb _ l).
  - eapply reduce_top_leaves; [exact Ht|]. intros v Hv. rewrite (rep4_size _ _ Hv), reduce_or.
    rewrite (reduce_loop_spec _ _ _ v l _ 0) by done. rewrite drop_0. destruct (existsb _ l); [done|]. by destruct (forallb _ l).
  - eapply reduce_top_leaves; [exact Ht|]. intros v Hv. rewrite (rep4_size _ _ Hv), <- foldr_xor_neg.
    by rewrite (parity_loop_spec v l _ 0), drop_0 by done.
  - intros Hok Hw Hlen.
    split_and!; (eapply edit_top_leaves; [exact Ht|]; intros x Hx; eapply returns_bind; [by apply immediate_returns|]; intros y Hy).
    + by apply rep4_add; rewrite ?length_imm_bits.
    + by apply rep4_sub; rewrite ?length_imm_bits.
    + by apply rep4_mul; rewrite ?length_imm_bits.
Qed.

Lemma unary_instructions_witness :
  let t := mk_thread 7 [] [] [vector4_fill 4 BIT4_1] in
  leaves (of_XORR t (mk_code 4 5 0 0)) 7 [] [] [[BIT4_0]] /\
  leaves (of_ADDI t (mk_code 4 5 0 0)) 7 [] [] [[BIT4_0; BIT4_0; BIT4_1; BIT4_0]].
Proof.
  cbv zeta.
  destruct (unary_instructions (mk_thread 7 [] [] [vector4_fill 4 BIT4_1]) (mk_code 4 5 0 0) 7 [] [] (replicate 4 BIT4_1) [])
    as (_ & _ & _ & _ & H1 & _ & _ & _ & H2).
  - split_and!; [reflexivity..|]. fill_stack.
  - split; [exact H1|]. apply H2; [split; cbn; lia|vm_compute; lia|reflexivity].
Defined.

(** C28: the comparison instructions pop their operands and set the flags: flag 4
    is the (signed, unsigned, wildcard or case) equality, flag 5 the order and
    flag 6 the identity of the bits; with unknown operand bits flag 4 of [%cmp/e]
    and [%cmp/u] is still 0 when two bits are known to differ, while [%cmp/s]
    answers X.  ([opcodes.txt] says that [%cmp/u] and [%cmp/s] differ in the lt
    bit, flag 5, only.) *)
Theorem compare_instructions t cp p fl ws r l st :
  state_is t p fl ws (r :: l :: st) -> length r = length l -> (0 < length l)%nat -> length fl = FLAGS_COUNT ->
  let known := negb (list_has_xz l || list_has_xz r) in
  let same := bit4_of_test (bool_decide (l = r)) in
  leaves (of_CMPE t cp) p (<[6%nat := same]> (<[4%nat := logic_eq l r]> fl)) ws st /\
  leaves (of_CMPNE t cp) p (<[6%nat := bit4_not same]> (<[4%nat := bit4_not (logic_eq l r)]> fl)) ws st /\
  leaves (of_CMPS t cp) p
    (flags456 fl (if known then bit4_of_test (bits_to_signed_Z l =? bits_to_signed_Z r) else BIT4_X)
       (if known then bit4_of_test (bits_to_signed_Z l <? bits_to_signed_Z r) else BIT4_X) same) ws st /\
  leaves (of_CMPU t cp) p
    (flags456 fl (logic_eq l r) (if known then bit4_of_test (bits_to_Z l <? bits_to_Z r) else BIT4_X) same) ws st /\
  leaves (of_CMPX t cp) p (<[4%nat := bit4_of_test (case_match bit4_is_xz l r)]> fl) ws st /\
  leaves (of_CMPZ t cp) p (<[4%nat := bit4_of_test (case_match (bit4_eqb BIT4_Z) l r)]> fl) ws st /\
  leaves (of_CMPWE t cp) p (<[4%nat := wild_eq l r]> fl) ws st /\
  leaves (of_CMPWNE t cp) p (<[4%nat := bit4_not (wild_eq l r)]> fl) ws st.
Proof.
  intros Ht Hlen Hpos Hfl known same. unfold same, known.
  split_and!; try (eapply compare2_leaves; [exact Ht|]; intros x y Hx Hy).
  - by apply do_CMPE_leaves.
  - unfold do_CMPNE. eapply leaves_bind; [by apply (do_CMPE_leaves t p fl ws (r :: l :: st) l r x y)|]. intros t1 H1.
    eapply leaves_bind; [apply (invert_flag_leaves _ _ _ _ _ 4 (logic_eq l r) H1)|].
    { rewrite list_lookup_insert_ne, list_lookup_insert_eq by (done || rewrite ?length_insert, Hfl; unfold FLAGS_COUNT; lia). done. }
    intros t2 H2. rewrite (list_insert_insert_ne _ 4 6), list_insert_insert_eq in H2 by done.
    eapply returns_mono; [apply (invert_flag_leaves _ _ _ _ _ 6 (bit4_of_test (bool_decide (l = r))) H2)|].
    { rewrite list_lookup_insert_eq by (rewrite ?length_insert, Hfl; unfold FLAGS_COUNT; lia). done. }
    intros t3 H3. by rewrite list_insert_insert_eq in H3.
  - by apply do_CMPS_leaves.
  - by apply do_CMPU_leaves.
  - by apply cmpxz_leaves.
  - by apply cmpxz_leaves.
  - by apply do_CMPWE_leaves.
  - eapply leaves_bind; [by apply (do_CMPWE_leaves t p fl ws (r :: l :: st) l r x y)|]. intros t1 H1.
    eapply returns_mono; [apply (invert_flag_leaves _ _ _ _ _ 4 (wild_eq l r) H1)|].
    { rewrite list_lookup_insert_eq by (rewrite Hfl; unfold FLAGS_COUNT; lia). done. }
    intros t2 H2. by rewrite list_insert_insert_eq in H2.
Qed.

Lemma compare_instructions_witness :
  let t := mk_thread 7 (replicate 256 BIT4_0) [] [vector4_fill 4 BIT4_1; vector4_fill 4 BIT4_0] in
  leaves (of_CMPS t (mk_code 0 0 0 0)) 7 (flags456 (replicate 256 BIT4_0) BIT4_0 BIT4_0 BIT4_0) [] [] /\
  leaves (of_CMPU t (mk_code 0 0 0 0)) 7 (flags456 (replicate 256 BIT4_0) BIT4_0 BIT4_1 BIT4_0) [] [].
Proof.
  cbv zeta.
  destruct (compare_instructions (mk_thread 7 (replicate 256 BIT4_0) [] [vector4_fill 4 BIT4_1; vector4_fill 4 BIT4_0])
    (mk_code 0 0 0 0) 7 (replicate 256 BIT4_0) [] (replicate 4 BIT4_1) (replicate 4 BIT4_0) []) as (_ & _ & H1 & H2 & _).
  - split_and!; [reflexivity..|]. fill_stack.
  - reflexivity.
  - cbn; lia.
  - reflexivity.
  - split; [exact H1|exact H2].
Defined.

(** The comparisons with an immediate operand set the same flags as the
    comparisons of two stack values, and pop the one operand. *)
Theorem compare_immediates t cp p fl ws l st :
  state_is t p fl ws (l :: st) -> imm_ok cp -> wid_of cp = length l -> (0 < length l)%nat -> length fl = FLAGS_COUNT ->
  let r := imm_bits cp in
  let known := negb (list_has_xz l || list_has_xz r) in
  let same := bit4_of_test (bool_decide (l = r)) in
  leaves (of_CMPIE t cp) p (<[6%nat := same]> (<[4%nat := logic_eq l r]> fl)) ws st /\
  leaves (of_CMPIS t cp) p
    (flags456 fl (if known then bit4_of_test (bits_to_signed_Z l =? bits_to_signed_Z r) else BIT4_X)
       (if known then bit4_of_test (bits_to_signed_Z l <? bits_to_signed_Z r) else BIT4_X) same) ws st /\
  leaves (of_CMPIU t cp) p
    (flags456 fl (logic_eq l r) (if known then bit4_of_test (bits_to_Z l <? bits_to_Z r) else BIT4_X) same) ws st.
Proof.
  intros Ht Hok Hlen Hpos Hfl r known same. unfold same, known, r.
  split_and!; (eapply compare_imm_leaves; [exact Ht|done|lia|]; intros x y Hx Hy).
  - by apply do_CMPE_leaves; rewrite ?length_imm_bits.
  - by apply do_CMPS_leaves; rewrite ?length_imm_bits.
  - by apply do_CMPU_leaves; rewrite ?length_imm_bits.
Qed.

Lemma compare_immediates_witness :
  let t := mk_thread 7 (replicate 256 BIT4_0) [] [vector4_fill 4 BIT4_1] in
  leaves (of_CMPIU t (mk_code 4 14 0 0)) 7 (flags456 (replicate 256 BIT4_0) BIT4_0 BIT4_0 BIT4_0) [] [].
Proof.
  cbv zeta. apply (compare_immediates (mk_thread 7 (replicate 256 BIT4_0) [] [vector4_fill 4 BIT4_1])
    (mk_code 4 14 0 0) 7 (replicate 256 BIT4_0) [] (replicate 4 BIT4_1) []).
  - split_and!; [reflexivity..|]. fill_stack.
  - split; cbn; lia.
  - reflexivity.
  - cbn; lia.
  - reflexivity.
Defined.
