(* ===== verification/OpSelect.v ===== *)
(** * Selecting, moving and shifting vectors, flags, index registers and jumps ([vvp/vthread.cc])

    The instructions that rearrange the bits of the vectors on the stack -
    concatenation, replication, part selects, padding, shifts - with the ones
    that move values between the stack, the flags and the index registers, and
    the jumps.  The state is that of the file [Opcodes]; the theorems say what
    each instruction leaves on the stack as lists of bits. *)

From Stdlib Require Import ZArith Lia Bool.
From stdpp Require Import base numbers list.
From S2P Require Import Prelude Bit4 Words Vec4 Vec4Move Vec4Arith Vec4Array VecRep Opcodes.

Open Scope Z_scope.

(** ** Definitions *)

Section word_scope_definitions.
Open Scope word_scope.

(** *** Concatenation and replication *)

(** [vvp_vector4_t res(msb.size() + lsb.size(), BIT4_X);] and the two [set_vec]. *)
Definition concat2 (msb lsb : vvp_vector4_t) : option vvp_vector4_t :=
  let res := vector4_fill (size_ msb + size_ lsb) BIT4_X in
  r ← set_vec res 0 lsb;
  r ← set_vec (fst r) (size_ lsb) msb;
  Some (fst r).

Definition of_CONCAT_VEC4 (thr : vthread_s) (cp : vvp_code_s) : option vthread_s :=
  lsb ← peek_vec4 thr 0;
  msb ← peek_vec4 thr 1;
  res ← concat2 msb lsb;
  thr ← pop_vec4_n thr 1;
  poke_vec4 thr 0 res.

Definition of_CONCATI_VEC4 (thr : vthread_s) (cp : vvp_code_s) : option vthread_s :=
  msb ← peek_vec4 thr 0;
  lsb ← imm_switch_loop (wid_of cp) 0 (bit_idx0 cp) (bit_idx1 cp) (vector4_fill (wid_of cp) BIT4_0);
  res ← concat2 msb lsb;
  poke_vec4 thr 0 res.

(** [rept] is an [int]; the width of the result is computed in 32 bits. *)
Definition of_REPLICATE (thr : vthread_s) (cp : vvp_code_s) : option vthread_s :=
  let rept := int_cast 32 true (number cp) in
  '(val, thr) ← pop_vec4 thr;
  let res := vector4_fill (Z.to_nat (int_cast 32 false (Z.of_nat (size_ val) * rept))) BIT4_X in
  res ← for_ 0 (Z.to_nat rept) (fun idx res => r ← set_vec res (idx * size_ val) val; Some (fst r)) res;
  Some (push_vec4 thr res).

Definition of_PUSHI_VEC4 (thr : vthread_s) (cp : vvp_code_s) : option vthread_s :=
  let vala := bit_idx0 cp in
  let valb := bit_idx1 cp in
  let wid := wid_of cp in
  let val := vector4_fill wid BIT4_0 in
  if (vala =? 0) && (valb =? 0) then Some (push_vec4 thr val)
  else if (valb =? 0) && (wid <=? 64)%nat then
    val ← setarray val 0 wid [vala];
    Some (push_vec4 thr val)
  else
    val ← imm_switch_loop wid 0 vala valb val;
    Some (push_vec4 thr val).

Definition of_DUP_VEC4 (thr : vthread_s) (cp : vvp_code_s) : option vthread_s :=
  v ← peek_vec4 thr 0; Some (push_vec4 thr v).

Definition of_POP_VEC4 (thr : vthread_s) (cp : vvp_code_s) : option vthread_s :=
  pop_vec4_n thr (Z.to_nat (number cp)).

Definition of_SPLIT_VEC4 (thr : vthread_s) (cp : vvp_code_s) : option vthread_s :=
  let lsb_wid := wid_of cp in
  val ← peek_vec4 thr 0;
  assert_ (lsb_wid <? size_ val)%nat;;
  lsb ← subvalue val 0 lsb_wid;
  val ← subvalue val lsb_wid (size_ val - lsb_wid);
  thr ← poke_vec4 thr 0 val;
  Some (push_vec4 thr lsb).

(** *** Padding and part selects *)

(** [val.resize(wid)] has the default argument [BIT4_X] for the padding, of
    which there is none. *)
Definition of_PAD_S (thr : vthread_s) (cp : vvp_code_s) : option vthread_s :=
  let wid := wid_of cp in
  edit_top thr (fun val =>
    let old_size := size_ val in
    if (old_size <? wid)%nat then Some (resize val wid (value val (old_size - 1)))
    else Some (resize val wid BIT4_X)).

Definition of_PAD_U (thr : vthread_s) (cp : vvp_code_s) : option vthread_s :=
  edit_top thr (fun val => Some (resize val (wid_of cp) BIT4_0)).

(** The selection of [wid] bits at the [int32_t] address [base], bits outside
    the vector reading X; [of_PARTI_base] has a copy of this code. *)
Definition part_select (value : vvp_vector4_t) (base : Z) (wid : nat) : option vvp_vector4_t :=
  let res := vector4_fill wid BIT4_X in
  let size := Z.of_nat (size_ value) in
  if int_cast 32 true size <=? base then Some res
  else if int_cast 32 true (base + int_cast 32 true (Z.of_nat wid)) <=? 0 then Some res
  else
    let '(vbase, wid, base) :=
      if base <? 0 then
        let vbase := int_cast 32 true (- base) in
        (vbase, int_cast 32 false (Z.of_nat wid - vbase), 0)
      else (0, Z.of_nat wid, base) in
    let wid := if size <? int_cast 32 false (base + wid) then int_cast 32 false (size - base) else wid in
    sub ← subvalue value (Z.to_nat base) (Z.to_nat wid);
    r ← set_vec res (Z.to_nat vbase) sub;
    Some (fst r).

Definition of_PART_base (thr : vthread_s) (cp : vvp_code_s) (signed_flag : bool) : option vthread_s :=
  let wid := wid_of cp in
  '(base4, thr) ← pop_vec4 thr;
  value ← peek_vec4 thr 0;
  match vector4_to_value 32 true base4 signed_flag true with
  | (Some base, true) => res ← part_select value base wid; poke_vec4 thr 0 res
  | _ => poke_vec4 thr 0 (vector4_fill wid BIT4_X)
  end.

Definition of_PART_S (thr : vthread_s) (cp : vvp_code_s) : option vthread_s := of_PART_base thr cp true.
Definition of_PART_U (thr : vthread_s) (cp : vvp_code_s) : option vthread_s := of_PART_base thr cp false.

(** [use_base |= -1UL << bwid] when the sign bit of the immediate is set; the
    shift [1 << (bwid-1)] is an [int]'s. *)
Definition parti_use_base (base : Z) (bwid : nat) (signed_flag : bool) : Z :=
  let use_base := int_cast 32 true base in
  if signed_flag && (bwid <? 32)%nat && Z.testbit base ((Z.of_nat bwid - 1) mod 32)
  then int_cast 32 true (Z.lor (w_wrap use_base) (w_max << bwid))
  else use_base.

Definition of_PARTI_base (thr : vthread_s) (cp : vvp_code_s) (signed_flag : bool) : option vthread_s :=
  let wid := wid_of cp in
  let use_base := parti_use_base (bit_idx0 cp) (Z.to_nat (bit_idx1 cp)) signed_flag in
  edit_top thr (fun value => part_select value use_base wid).

Definition of_PARTI_S (thr : vthread_s) (cp : vvp_code_s) : option vthread_s := of_PARTI_base thr cp true.
Definition of_PARTI_U (thr : vthread_s) (cp : vvp_code_s) : option vthread_s := of_PARTI_base thr cp false.

(** *** Shifts *)

(** The amount is an index register; flag 4 tells that it is unknown (1) or
    that it did not fit (X). *)
Definition of_SHIFTL (thr : vthread_s) (cp : vvp_code_s) : option vthread_s :=
  shift ← words thr !! Z.to_nat (number cp);
  f4 ← flags thr !! 4%nat;
  edit_top thr (fun val =>
    let wid := size_ val in
    if bit4_eqb f4 BIT4_1 then Some (vector4_fill wid BIT4_X)
    else if bit4_eqb f4 BIT4_X || (Z.of_nat wid <=? shift) then Some (vector4_fill wid BIT4_0)
    else if 0 <? shift then
      blk ← subvalue val 0 (wid - Z.to_nat shift);
      r ← set_vec val 0 (vector4_fill (Z.to_nat shift) BIT4_0);
      r ← set_vec (fst r) (Z.to_nat shift) blk;
      Some (fst r)
    else Some val).

(** [%shiftr] and [%shiftr/s] differ in the bit that is shifted in. *)
Definition shift_right (thr : vthread_s) (cp : vvp_code_s) (fill : vvp_vector4_t -> vvp_bit4_t) : option vthread_s :=
  shift ← words thr !! Z.to_nat (number cp);
  f4 ← flags thr !! 4%nat;
  '(val, thr) ← pop_vec4 thr;
  let wid := size_ val in
  val ← (if bit4_eqb f4 BIT4_1 then Some (vector4_fill wid BIT4_X)
         else if bit4_eqb f4 BIT4_X || (Z.of_nat wid <? shift) then Some (vector4_fill wid (fill val))
         else if 0 <? shift then
           blk ← subvalue val (Z.to_nat shift) (wid - Z.to_nat shift);
           let tmp := vector4_fill (Z.to_nat shift) (fill val) in
           r ← set_vec val 0 blk;
           r ← set_vec (fst r) (wid - Z.to_nat shift) tmp;
           Some (fst r)
         else Some val);
  Some (push_vec4 thr val).

Definition of_SHIFTR (thr : vthread_s) (cp : vvp_code_s) : option vthread_s :=
  shift_right thr cp (fun _ => BIT4_0).
Definition of_SHIFTR_S (thr : vthread_s) (cp : vvp_code_s) : option vthread_s :=
  shift_right thr cp (fun val => value val (size_ val - 1)).

(** *** Flags *)

Definition of_FLAG_GET_VEC4 (thr : vthread_s) (cp : vvp_code_s) : option vthread_s :=
  b ← flags thr !! Z.to_nat (number cp);
  Some (push_vec4 thr (vector4_fill 1 b)).

Definition of_FLAG_INV (thr : vthread_s) (cp : vvp_code_s) : option vthread_s :=
  invert_flag thr (Z.to_nat (bit_idx0 cp)).

Definition of_FLAG_MOV (thr : vthread_s) (cp : vvp_code_s) : option vthread_s :=
  b ← flags thr !! Z.to_nat (bit_idx1 cp);
  Some (set_flag thr (Z.to_nat (bit_idx0 cp)) b).

Definition of_FLAG_OR (thr : vthread_s) (cp : vvp_code_s) : option vthread_s :=
  a ← flags thr !! Z.to_nat (bit_idx0 cp);
  b ← flags thr !! Z.to_nat (bit_idx1 cp);
  Some (set_flag thr (Z.to_nat (bit_idx0 cp)) (bit4_or a b)).

Definition map_bit (vali : Z) : option vvp_bit4_t :=
  match vali with 0 => Some BIT4_0 | 1 => Some BIT4_1 | 2 => Some BIT4_Z | 3 => Some BIT4_X | _ => None end.

Definition of_FLAG_SET_IMM (thr : vthread_s) (cp : vvp_code_s) : option vthread_s :=
  assert_ (Z.to_nat (number cp) <? FLAGS_COUNT)%nat;;
  b ← map_bit (bit_idx0 cp);
  Some (set_flag thr (Z.to_nat (number cp)) b).

Definition of_FLAG_SET_VEC4 (thr : vthread_s) (cp : vvp_code_s) : option vthread_s :=
  assert_ (Z.to_nat (number cp) <? FLAGS_COUNT)%nat;;
  val ← peek_vec4 thr 0;
  pop_vec4_n (set_flag thr (Z.to_nat (number cp)) (value val 0)) 1.

(** *** Index registers *)

Definition get_as_64_bit (low_32 high_32 : Z) : Z := (high_32 << 32) .| low_32.

Definition edit_word (thr : vthread_s) (i : Z) (f : Z -> Z) : option vthread_s :=
  w ← words thr !! Z.to_nat i; Some (set_word thr (Z.to_nat i) (f w)).

Definition imm_64 (cp : vvp_code_s) : Z := get_as_64_bit (bit_idx0 cp) (bit_idx1 cp).

Definition of_IX_ADD (thr : vthread_s) (cp : vvp_code_s) : option vthread_s :=
  edit_word thr (number cp) (fun w => w_add w (imm_64 cp)).
Definition of_IX_SUB (thr : vthread_s) (cp : vvp_code_s) : option vthread_s :=
  edit_word thr (number cp) (fun w => w_sub w (imm_64 cp)).
Definition of_IX_MUL (thr : vthread_s) (cp : vvp_code_s) : option vthread_s :=
  edit_word thr (number cp) (fun w => w_mul w (imm_64 cp)).
Definition of_IX_LOAD (thr : vthread_s) (cp : vvp_code_s) : option vthread_s :=
  edit_word thr (number cp) (fun _ => imm_64 cp).
Definition of_IX_MOV (thr : vthread_s) (cp : vvp_code_s) : option vthread_s :=
  w ← words thr !! Z.to_nat (bit_idx1 cp);
  edit_word thr (bit_idx0 cp) (fun _ => w).

(** The loop over the words of the vector: [v] and the overflow. *)
Fixpoint index_loop (signed_flag : bool) (bits : list Z) (n k : nat) (v : Z) : Z * bool :=
  match n with
  | O => (v, false)
  | S n' =>
      let tmp := wd bits k in
      if (64 * k <? 64)%nat then index_loop signed_flag bits n' (S k) (v .| (tmp << (64 * k)))
      else
        let overflow := if signed_flag && negb (v >> 63 =? 0) then negb (~~ tmp =? 0) else negb (tmp =? 0) in
        if overflow then (v, true) else index_loop signed_flag bits n' (S k) v
  end.

(** The high bits that [subarray] does not necessarily fill in. *)
Definition index_fill (signed_flag : bool) (val_size : nat) (v : Z) : Z :=
  if (val_size <? 64)%nat then
    if signed_flag && negb ((v .& (1 << (val_size - 1))) =? 0) then v .| (w_max << val_size)
    else v .& ~~ (w_max << val_size)
  else v.

Definition vec4_to_index (thr : vthread_s) (signed_flag : bool) : option (Z * vthread_s) :=
  val ← peek_vec4 thr 0;
  let val_size := size_ val in
  thr ← pop_vec4_n thr 1;
  match subarray val 0 val_size false with
  | None => Some (0, set_flag thr 4 BIT4_1)
  | Some bits =>
      let '(v, overflow) := index_loop signed_flag bits (nwords val_size) 0 0 in
      Some (index_fill signed_flag val_size v, set_flag thr 4 (if overflow then BIT4_X else BIT4_0))
  end.

Definition ix_vec4 (thr : vthread_s) (cp : vvp_code_s) (signed_flag : bool) : option vthread_s :=
  '(v, thr) ← vec4_to_index thr signed_flag;
  Some (set_word thr (Z.to_nat (number cp)) v).
Definition of_IX_VEC4 (thr : vthread_s) (cp : vvp_code_s) : option vthread_s := ix_vec4 thr cp false.
Definition of_IX_VEC4_S (thr : vthread_s) (cp : vvp_code_s) : option vthread_s := ix_vec4 thr cp true.

(** *** Jumps

    The result is the thread, the delays of the calls of [schedule_vthread] and
    the return value, which tells the processor to go on to the next
    instruction. *)

Definition jump_if (stopped taken : bool) (thr : vthread_s) (cp : vvp_code_s) : vthread_s * list Z * bool :=
  let thr := if taken then set_pc thr (cptr cp) else thr in
  if stopped then (thr, [0], false) else (thr, [], true).

Definition jump_flag (stopped : bool) (test : vvp_bit4_t -> bool) (thr : vthread_s) (cp : vvp_code_s) :
    option (vthread_s * list Z * bool) :=
  b ← flags thr !! Z.to_nat (bit_idx0 cp);
  Some (jump_if stopped (test b) thr cp).

Definition of_JMP (stopped : bool) (thr : vthread_s) (cp : vvp_code_s) : option (vthread_s * list Z * bool) :=
  Some (jump_if stopped true thr cp).
Definition of_JMP0 (stopped : bool) (thr : vthread_s) (cp : vvp_code_s) : option (vthread_s * list Z * bool) :=
  jump_flag stopped (bit4_eqb BIT4_0) thr cp.
Definition of_JMP0XZ (stopped : bool) (thr : vthread_s) (cp : vvp_code_s) : option (vthread_s * list Z * bool) :=
  jump_flag stopped (fun b => negb (bit4_eqb b BIT4_1)) thr cp.
Definition of_JMP1 (stopped : bool) (thr : vthread_s) (cp : vvp_code_s) : option (vthread_s * list Z * bool) :=
  jump_flag stopped (bit4_eqb BIT4_1) thr cp.
Definition of_JMP1XZ (stopped : bool) (thr : vthread_s) (cp : vvp_code_s) : option (vthread_s * list Z * bool) :=
  jump_flag stopped (fun b => negb (bit4_eqb b BIT4_0)) thr cp.

End word_scope_definitions.

(** *** What the instructions compute *)

(** Bit [k] of a list for any integer [k]: X outside the list. *)
Definition bit_atZ (l : list vvp_bit4_t) (k : Z) : vvp_bit4_t := if 0 <=? k then bit_at l (Z.to_nat k) else BIT4_X.

(** The [wid] bits at the address [base], which may be negative. *)
Definition window (l : list vvp_bit4_t) (base : Z) (wid : nat) : list vvp_bit4_t :=
  map (fun i => bit_atZ l (base + Z.of_nat i)) (seq 0 wid).

(** The shifts: an amount that is unknown gives X, one that does not fit the
    index register shifts everything out. *)
Definition shifted (f4 : vvp_bit4_t) (shift : Z) (fill : vvp_bit4_t) (l : list vvp_bit4_t) (f : nat -> list vvp_bit4_t) : list vvp_bit4_t :=
  if bit4_eqb f4 BIT4_1 then replicate (length l) BIT4_X
  else if bit4_eqb f4 BIT4_X || (Z.of_nat (length l) <=? shift) then replicate (length l) fill
  else f (Z.to_nat shift).

(** ** Lemmas *)

(** Replacing the middle of a list that is known by its parts. *)
Lemma splice_parts a b c m : length m = length b -> splice (a ++ b ++ c) (length a) m = a ++ m ++ c.
Proof.
  intros H. unfold splice. rewrite take_app_length, H, <- length_app, (assoc_L app a b c), drop_app_length. done.
Qed.

Lemma insert_wd ws k : <[k := wd ws k]> ws = ws.
Proof.
  destruct (Nat.lt_ge_cases k (length ws)) as [H|H]; [|by apply list_insert_ge].
  apply list_insert_id. destruct (lookup_lt_is_Some_2 ws k H) as [w Hw]. unfold wd. by rewrite nth_lookup, Hw.
Qed.

(** Storing an empty vector changes nothing. *)
Lemma set_vec_empty v that : wf4 v -> wf4 that -> size_ that = 0%nat -> set_vec v 0 that = Some (v, false).
Proof.
  intros Hv Ht H0. unfold set_vec. rewrite H0. cbn [Nat.add assert_ mbind option_bind Nat.leb].
  assert (Hplane : forall ws that, length ws = nstore (size_ v) -> words_ok ws -> set_vec_plane (size_ v) ws that 0 0 = (ws, false)).
  { intros ws th Hlen Hok. unfold set_vec_plane.
    assert (Hst : forall k m, store_at ws k 0 (Z.land m 0) false = (ws, false)).
    { intros k m. unfold store_at, masked_store. rewrite !Z.land_0_r. cbn. f_equal. apply insert_wd. }
    destruct (Nat.leb_spec (size_ v) 64).
    - destruct ws as [|w [|]]; rewrite nstore_short in Hlen by done; try discriminate Hlen.
      unfold set_vec_word, masked_store. change (hmask_of (0 + 0)) with 0. rewrite Z.land_0_l, !Z.land_0_r. done.
    - cbn [Nat.leb]. unfold set_vec_small_plane. rewrite Nat.Div0.mod_0_l. change (hmask_of (0 + 0)) with 0.
      rewrite Z.land_0_l, Hst. done. }
  pose proof Hv as (La & Lb & Oa & Ob). rewrite !Hplane by done. by destruct v.
Qed.

(** Assigning a low part, which may be empty, and the rest. *)
Lemma set_halves v l x la y lb :
  rep4 v l -> rep4 x la -> rep4 y lb -> (0 < length lb)%nat -> (length la + length lb = length l)%nat ->
  returns (r ← set_vec v 0 x; r ← set_vec (fst r) (length la) y; Some (fst r)) (fun r => rep4 r (la ++ lb)).
Proof.
  intros Hv Hx Hy Hb Hlen.
  assert (H1 : returns (set_vec v 0 x) (fun r => rep4 (fst r) (la ++ drop (length la) l))).
  { destruct (decide (length la = 0)%nat) as [E|E].
    - rewrite set_vec_empty by (apply Hv || apply Hx || by rewrite (rep4_size _ _ Hx)).
      apply returns_ret. destruct la; [done|discriminate E].
    - eapply returns_mono; [apply (rep4_set_vec v x l la 0 Hv Hx); lia|]. done. }
  eapply returns_bind; [exact H1|]. intros r Hr.
  eapply returns_bind; [apply (rep4_set_vec _ y _ lb (length la) Hr Hy Hb)|].
  - rewrite length_app, length_drop. lia.
  - intros r' Hr'. apply returns_ret. rewrite <- (app_nil_r (drop _ l)), splice_parts, app_nil_r in Hr' by (rewrite length_drop; lia). done.
Qed.

Lemma concat2_returns msb lsb m l :
  rep4 msb m -> rep4 lsb l -> (0 < length m)%nat -> returns (concat2 msb lsb) (fun r => rep4 r (l ++ m)).
Proof.
  intros Hm Hl Pm. unfold concat2. rewrite (rep4_size _ _ Hm), (rep4_size _ _ Hl).
  eapply set_halves; [apply rep4_fill|done|done|done|]. rewrite length_replicate. lia.
Qed.

Lemma int_cast_32 x : - 2 ^ 31 <= x < 2 ^ 31 -> int_cast 32 true x = x.
Proof.
  intros H. unfold int_cast. change (Z.of_nat 32) with 32. cbn [andb].
  destruct (Z.leb_spec (2 ^ (32 - 1)) (x mod 2 ^ 32)) as [Hle|Hlt]; dlia.
Qed.

Lemma int_cast_32_range x : - 2 ^ 31 <= int_cast 32 true x < 2 ^ 31.
Proof.
  unfold int_cast. change (Z.of_nat 32) with 32. cbn [andb].
  destruct (Z.leb_spec (2 ^ (32 - 1)) (x mod 2 ^ 32)); dlia.
Qed.

Lemma uint_cast_32 x : 0 <= x < 2 ^ 32 -> int_cast 32 false x = x.
Proof. intros H. unfold int_cast. change (Z.of_nat 32) with 32. cbn [andb]. by apply Z.mod_small. Qed.

Lemma replicate_returns val l n :
  rep4 val l -> (0 < length l)%nat ->
  returns (for_ 0 n (fun idx res => r ← set_vec res (idx * length l) val; Some (fst r))
            (vector4_fill (length l * n) BIT4_X))
    (fun r => rep4 r (concat (replicate n l))).
Proof.
  intros Hv Hp.
  assert (Hlen : forall k, length (concat (replicate k l)) = (length l * k)%nat).
  { induction k as [|k IH]; cbn [replicate concat]; [cbn; lia|]. rewrite length_app, IH. lia. }
  eapply returns_mono.
  { apply (returns_for (fun k t => rep4 t (concat (replicate k l) ++ replicate (length l * (n - k)) BIT4_X))).
    - cbn [replicate concat app]. rewrite Nat.sub_0_r. apply rep4_fill.
    - intros k t Hk Ht. replace (n - k)%nat with (S (n - S k)) in Ht by lia.
      rewrite Nat.mul_succ_r, Nat.add_comm, replicate_add in Ht. set (rest := replicate (length l * _) BIT4_X) in *.
      eapply returns_bind; [apply (rep4_set_vec _ _ _ _ (k * length l) Ht Hv Hp)|].
      + rewrite !length_app, Hlen, length_replicate. lia.
      + intros r Hr. apply returns_ret. replace (concat (replicate (S k) l) ++ rest) with (splice (concat (replicate k l) ++ replicate (length l) BIT4_X ++ rest) (k * length l) l); [done|].
        rewrite (Nat.mul_comm k), <- (Hlen k), splice_parts by (by rewrite length_replicate).
        rewrite <- (Nat.add_1_r k), replicate_add, concat_app. cbn [replicate concat]. by rewrite app_nil_r, <- (assoc_L app). }
  intros r Hr. cbn [Nat.add] in Hr. rewrite Nat.sub_diag, Nat.mul_0_r in Hr. cbn [replicate] in Hr. by rewrite app_nil_r in Hr.
Qed.

Lemma length_window l base wid : length (window l base wid) = wid.
Proof. unfold window. by rewrite length_map, length_seq. Qed.

Lemma bit_at_window l base wid i : (i < wid)%nat -> bit_at (window l base wid) i = bit_atZ l (base + Z.of_nat i).
Proof. intros H. unfold window. by rewrite bit_at_map_seq. Qed.

Lemma bit_atZ_out l k : k < 0 \/ Z.of_nat (length l) <= k -> bit_atZ l k = BIT4_X.
Proof.
  intros H. unfold bit_atZ. destruct (Z.leb_spec 0 k); [|done]. apply bit_at_out. lia.
Qed.

Lemma bit_atZ_in l i : bit_atZ l (Z.of_nat i) = bit_at l i.
Proof. unfold bit_atZ. rewrite (proj2 (Z.leb_le _ _)), Nat2Z.id by lia. done. Qed.

Lemma window_outside l base wid :
  base + Z.of_nat wid <= 0 \/ Z.of_nat (length l) <= base -> window l base wid = replicate wid BIT4_X.
Proof.
  intros H. apply bit_at_ext; rewrite length_window; [by rewrite length_replicate|]. intros i Hi.
  rewrite bit_at_window, bit_at_replicate by done. apply bit_atZ_out. lia.
Qed.

(** The part that lies inside the vector, written into a vector of X. *)
Lemma window_inside l base wid vb b w :
  Z.of_nat b = base + Z.of_nat vb -> (vb + w <= wid)%nat -> (b + w <= length l)%nat ->
  (vb = 0 \/ b = 0)%nat -> (vb + w = wid \/ b + w = length l)%nat ->
  splice (replicate wid BIT4_X) vb (part_at l b w) = window l base wid.
Proof.
  intros Hb Hw Hl Hlow Hhigh.
  assert (Hs : length (splice (replicate wid BIT4_X) vb (part_at l b w)) = wid)
    by (rewrite length_splice; rewrite length_replicate; rewrite ?length_part_at; lia).
  apply bit_at_ext; rewrite Hs; [by rewrite length_window|]. intros i Hi.
  rewrite bit_at_splice, length_part_at, bit_at_window by (rewrite ?length_part_at, ?length_replicate; lia).
  destruct (Nat.leb_spec vb i); cbn [andb].
  - destruct (Nat.ltb_spec i (vb + w)).
    + rewrite bit_at_part by lia. replace (base + Z.of_nat i) with (Z.of_nat (b + (i - vb))) by lia. by rewrite bit_atZ_in.
    + rewrite bit_at_replicate by lia. symmetry. apply bit_atZ_out. lia.
  - rewrite bit_at_replicate by lia. symmetry. apply bit_atZ_out. lia.
Qed.

Lemma part_select_returns value l base wid :
  rep4 value l -> (0 < wid)%nat -> (0 < length l)%nat -> Z.of_nat wid < 2 ^ 30 -> Z.of_nat (length l) < 2 ^ 30 ->
  - 2 ^ 31 <= base < 2 ^ 31 ->
  returns (part_select value base wid) (fun r => rep4 r (window l base wid)).
Proof.
  intros Hv Hw Hl Bw Bl Bb. unfold part_select. rewrite (rep4_size _ _ Hv).
  rewrite (int_cast_32 (Z.of_nat (length l))), (int_cast_32 (Z.of_nat wid)) by lia.
  destruct (Z.leb_spec (Z.of_nat (length l)) base).
  { apply returns_ret. rewrite window_outside by lia. apply rep4_fill. }
  rewrite (int_cast_32 (base + _)) by lia.
  destruct (Z.leb_spec (base + Z.of_nat wid) 0).
  { apply returns_ret. rewrite window_outside by lia. apply rep4_fill. }
  assert (Hgen : forall vb b w, 0 <= vb -> 0 <= b -> 0 < w -> b = base + vb -> vb + w <= Z.of_nat wid -> b + w <= Z.of_nat (length l) ->
    (vb = 0 \/ b = 0) -> (vb + w = Z.of_nat wid \/ b + w = Z.of_nat (length l)) ->
    returns (sub ← subvalue value (Z.to_nat b) (Z.to_nat w);
             r ← set_vec (vector4_fill wid BIT4_X) (Z.to_nat vb) sub; Some (fst r))
      (fun r => rep4 r (window l base wid))).
  { intros vb b w Pv Pb Pw Eb Hvw Hbw Hlow Hhigh. eapply returns_bind; [by apply rep4_subvalue|]. intros s Hs.
    eapply returns_bind; [apply (rep4_set_vec _ s _ _ (Z.to_nat vb) (rep4_fill wid BIT4_X) Hs)|].
    - rewrite length_part_at. lia.
    - rewrite length_part_at, length_replicate. lia.
    - intros r Hr. apply returns_ret. by rewrite (window_inside l base) in Hr by lia. }
  destruct (Z.ltb_spec base 0).
  - rewrite (int_cast_32 (- base)) by lia. rewrite (uint_cast_32 (Z.of_nat wid - - base)) by lia.
    rewrite (uint_cast_32 (0 + _)), (uint_cast_32 (Z.of_nat (length l) - 0)) by lia.
    destruct (Z.ltb_spec (Z.of_nat (length l)) (0 + (Z.of_nat wid - - base))); apply Hgen; lia.
  - rewrite (uint_cast_32 (base + Z.of_nat wid)), (uint_cast_32 (Z.of_nat (length l) - base)) by lia.
    destruct (Z.ltb_spec (Z.of_nat (length l)) (base + Z.of_nat wid)); apply Hgen; lia.
Qed.


(** *** Shifts *)

Lemma shift_left_returns val l s :
  rep4 val l -> (0 < s < length l)%nat ->
  returns (blk ← subvalue val 0 (length l - s);
           r ← set_vec val 0 (vector4_fill s BIT4_0); r ← set_vec (fst r) s blk; Some (fst r))
    (fun r => rep4 r (replicate s BIT4_0 ++ take (length l - s) l)).
Proof.
  intros Hv Hs. eapply returns_bind; [by apply rep4_subvalue|]. intros blk Hblk. rewrite part_at_take_drop, drop_0 in Hblk by lia.
  pose proof (set_halves val l _ _ blk _ Hv (rep4_fill s BIT4_0) Hblk) as H. rewrite length_replicate, length_take in H. apply H; lia.
Qed.

Lemma shift_right_returns val l s fill :
  rep4 val l -> (0 < s <= length l)%nat ->
  returns (blk ← subvalue val s (length l - s);
           let tmp := vector4_fill s fill in
           r ← set_vec val 0 blk; r ← set_vec (fst r) (length l - s) tmp; Some (fst r))
    (fun r => rep4 r (drop s l ++ replicate s fill)).
Proof.
  intros Hv Hs. eapply returns_bind; [by apply rep4_subvalue|]. intros blk Hblk.
  rewrite part_at_take_drop, take_ge in Hblk by (rewrite ?length_drop; lia).
  pose proof (set_halves val l blk _ _ _ Hv Hblk (rep4_fill s fill)) as H. rewrite length_replicate, length_drop in H. apply H; lia.
Qed.

(** *** Index registers *)

Lemma get_as_64_bit_spec lo hi : 0 <= lo < 2 ^ 32 -> 0 <= hi < 2 ^ 32 -> get_as_64_bit lo hi = lo + 2 ^ 32 * hi.
Proof.
  intros Hlo Hhi. unfold get_as_64_bit, w_shl. change (Z.of_nat (32 mod 64)) with 32.
  rewrite Z.shiftl_mul_pow2, w_wrap_id by (unfold word_ok; lia). rewrite lor_disjoint; [lia|].
  apply Z.bits_inj'. intros i Hi. rewrite Z.bits_0, Z.land_spec, <- Z.shiftl_mul_pow2 by lia.
  destruct (Z.lt_ge_cases i 32); [by rewrite Z.shiftl_spec_low|].
  rewrite <- (Z.mod_small lo (2 ^ 32)), Z.mod_pow2_bits_high, andb_false_r by lia. done.
Qed.

(** The word the high words must be equal to. *)
Definition fill_word (signed_flag : bool) (v : Z) : Z := if signed_flag && tb v 63 then w_max else 0.

Lemma index_loop_high s ws n : forall k v,
  words_ok ws -> word_ok v -> (0 < k)%nat ->
  index_loop s ws n k v = (v, negb (forallb (fun j => wd ws j =? fill_word s v) (seq k n))).
Proof.
  induction n as [|n IH]; intros k v Hws Hv Hk; cbn [index_loop seq forallb]; [done|].
  rewrite (proj2 (Nat.ltb_ge _ _)) by lia. rewrite IH by (done || lia).
  assert (Hsh : negb (w_shr v 63 =? 0) = tb v 63).
  { unfold w_shr, tb. change (Z.of_nat (63 mod 64)) with 63. change (Z.of_nat 63) with 63. destruct Hv as [V0 V1].
    rewrite Z.testbit_odd. rewrite Z.shiftr_div_pow2 in * by lia.
    assert (v / 2 ^ 63 = 0 \/ v / 2 ^ 63 = 1) as [-> | ->] by dlia; done. }
  rewrite Hsh. unfold fill_word. pose proof (wd_ok ws k Hws) as Hw. destruct (s && tb v 63).
  - assert (E : (w_not (wd ws k) =? 0) = (wd ws k =? w_max)).
    { rewrite w_not_sub by done. change w_max with (2 ^ 64 - 1). destruct (Z.eqb_spec (2 ^ 64 - 1 - wd ws k) 0), (Z.eqb_spec (wd ws k) (2 ^ 64 - 1)); lia. }
    rewrite E. by destruct (wd ws k =? w_max).
  - by destruct (wd ws k =? 0).
Qed.

Lemma wsum_fill f n (b : bool) :
  (forall k, word_ok (f k)) ->
  forallb (fun j => f j =? if b then w_max else 0) (seq 0 n) = (wsum f n =? if b then 2 ^ (64 * Z.of_nat n) - 1 else 0).
Proof.
  intros Hf. induction n as [|n IH]; [by destruct b|].
  rewrite seq_S, forallb_app, IH. cbn [forallb wsum Nat.add]. rewrite andb_true_r.
  pose proof (wsum_bounds f n ltac:(auto)). pose proof (Hf n) as Hn. unfold word_ok in Hn.
  replace (64 * Z.of_nat (S n)) with (64 * Z.of_nat n + 64) by lia. rewrite Z.pow_add_r by lia.
  assert (1 <= 2 ^ (64 * Z.of_nat n)) by (pose proof (Z.pow_pos_nonneg 2 (64 * Z.of_nat n)); lia).
  set (P := 2 ^ (64 * Z.of_nat n)) in *. destruct b.
  - change w_max with (2 ^ 64 - 1).
    destruct (Z.eqb_spec (wsum f n) (P - 1)), (Z.eqb_spec (f n) (2 ^ 64 - 1)), (Z.eqb_spec (wsum f n + f n * P) (P * 2 ^ 64 - 1)); cbn [andb]; try done; exfalso; nia.
  - destruct (Z.eqb_spec (wsum f n) 0), (Z.eqb_spec (f n) 0), (Z.eqb_spec (wsum f n + f n * P) 0); cbn [andb]; try done; exfalso; nia.
Qed.

Definition index_number (s : bool) (l : list vvp_bit4_t) : Z := if s then bits_to_signed_Z l else bits_to_Z l.

(** The register and flag 4 after a conversion. *)
Definition index_value (s : bool) (l : list vvp_bit4_t) : Z := if list_has_xz l then 0 else index_number s l mod 2 ^ 64.
Definition index_fits (s : bool) (x : Z) : bool := if s then (- 2 ^ 63 <=? x) && (x <? 2 ^ 63) else x <? 2 ^ 64.
Definition index_flag (s : bool) (l : list vvp_bit4_t) : vvp_bit4_t :=
  if list_has_xz l then BIT4_1 else if index_fits s (index_number s l) then BIT4_0 else BIT4_X.

Lemma tb_above x n i : 0 <= x < 2 ^ Z.of_nat n -> (n <= i)%nat -> tb x i = false.
Proof. intros Hx Hi. unfold tb. rewrite <- (Z.mod_small x (2 ^ Z.of_nat n)), Z.mod_pow2_bits_high by lia. done. Qed.

Lemma tb_mod64 x i : (i < 64)%nat -> tb (x mod 2 ^ 64) i = tb x i.
Proof. intros Hi. unfold tb. by rewrite Z.mod_pow2_bits_low by lia. Qed.

Lemma index_fill_spec s len v :
  (0 < len < 64)%nat -> 0 <= v < 2 ^ Z.of_nat len ->
  index_fill s len v = (if s && tb v (len - 1) then v - 2 ^ Z.of_nat len else v) mod 2 ^ 64.
Proof.
  intros Hlen Hv. assert (Hw : word_ok v).
  { unfold word_ok. assert (2 ^ Z.of_nat len <= 2 ^ 64) by (apply Z.pow_le_mono_r; lia). lia. }
  unfold index_fill. rewrite (proj2 (Nat.ltb_lt _ _)) by lia.
  assert (Hsign : negb (Z.land v (w_shl 1 (len - 1)) =? 0) = tb v (len - 1)).
  { assert (E : w_shl 1 (len - 1) = 2 ^ Z.of_nat (len - 1)).
    { unfold w_shl. rewrite Nat.mod_small, Z.shiftl_1_l by lia. apply w_wrap_id. split; [lia|]. apply Z.pow_lt_mono_r; lia. }
    rewrite E. destruct (tb v (len - 1)) eqn:Eb.
    - apply negb_true_iff, Z.eqb_neq. intros H0. apply (f_equal (fun x => tb x (len - 1))) in H0. rewrite tb_land, Eb, tb_0 in H0.
      unfold tb in H0. rewrite Z.pow2_bits_true in H0 by lia. done.
    - apply negb_false_iff, Z.eqb_eq. apply Z.bits_inj'. intros i Hi. rewrite Z.bits_0, Z.land_spec, Z.pow2_bits_eqb by lia.
      destruct (Z.eqb_spec (Z.of_nat (len - 1)) i) as [<-|]; [|apply andb_false_r]. unfold tb in Eb. by rewrite Eb. }
  rewrite Hsign. destruct (s && tb v (len - 1)).
  - apply tb_ext; [auto with word_db|unfold word_ok; apply Z.mod_pos_bound; lia|]. intros i Hi.
    rewrite tb_mod64, <- lor_sign, !tb_lor, tb_shl, tb_max by (done || lia).
    destruct (tb v i); cbn [orb]; [done|]. rewrite (proj2 (Nat.ltb_lt i 64)) by done. cbn [andb].
    unfold tb. rewrite Z.shiftl_spec by lia. destruct (Nat.leb_spec len i); cbn [andb].
    + rewrite (proj2 (Nat.ltb_lt _ _)) by lia. symmetry. apply Z.bits_m1. lia.
    + symmetry. apply Z.testbit_neg_r. lia.
  - rewrite Z.mod_small by (apply Hw). apply tb_ext; [auto with word_db|done|]. intros i Hi.
    rewrite tb_land, tb_not, tb_shl, tb_max by lia. rewrite (proj2 (Nat.ltb_lt i 64)) by done. cbn [andb].
    destruct (Nat.leb_spec len i); cbn [andb negb]; [|apply andb_true_r]. by rewrite (tb_above v len) by done.
Qed.

Lemma forallb_map_seq (f : nat -> bool) (g : nat -> nat) l : forallb f (map g l) = forallb (fun x => f (g x)) l.
Proof. induction l as [|a l IH]; cbn [map forallb]; [done|]. by rewrite IH. Qed.

Lemma index_fill_wide s len v : (64 <= len)%nat -> index_fill s len v = v.
Proof. intros H. unfold index_fill. by rewrite (proj2 (Nat.ltb_ge _ _)). Qed.

Lemma index_words s ws n :
  words_ok ws -> (0 < n)%nat ->
  let num := wsum (wd ws) n in
  index_loop s ws n 0 0 =
    (num mod 2 ^ 64, negb (num / 2 ^ 64 =? if s && tb (num mod 2 ^ 64) 63 then 2 ^ (64 * Z.of_nat (n - 1)) - 1 else 0)).
Proof.
  intros Hws Hn num. destruct n as [|m]; [lia|]. unfold num. clear num.
  rewrite wsum_head. set (U := wsum _ m). cbn [index_loop]. rewrite Nat.mul_0_r, (proj2 (Nat.ltb_lt 0 64)) by lia.
  pose proof (wd_ok ws 0 Hws) as H0.
  assert (E0 : Z.lor 0 (w_shl (wd ws 0) 0) = wd ws 0).
  { rewrite Z.lor_0_l. unfold w_shl. change (Z.of_nat (0 mod 64)) with 0. rewrite Z.shiftl_0_r. by apply w_wrap_id. }
  rewrite E0, index_loop_high by (done || lia). unfold word_ok in H0.
  rewrite (Z.mul_comm (2 ^ 64) U), Z.mod_add, Z.div_add, Z.mod_small, Z.div_small, Z.add_0_l by lia.
  f_equal. f_equal. replace (S m - 1)%nat with m by lia. unfold U.
  rewrite <- wsum_fill by (intros; auto with word_db). rewrite <- seq_shift. by rewrite forallb_map_seq.
Qed.

Lemma tb_top x n : 0 <= x < 2 ^ Z.of_nat (S n) -> tb x n = (2 ^ Z.of_nat n <=? x).
Proof.
  rewrite Nat2Z.inj_succ, Z.pow_succ_r by lia. intros Hx. unfold tb. rewrite Z.testbit_odd, Z.shiftr_div_pow2 by lia.
  pose proof (Z.pow_pos_nonneg 2 (Z.of_nat n) ltac:(lia) ltac:(lia)). destruct (Z.leb_spec (2 ^ Z.of_nat n) x).
  - replace (x / 2 ^ Z.of_nat n) with 1; [done|]. apply (Z.div_unique _ _ _ (x - 2 ^ Z.of_nat n)); lia.
  - by rewrite Z.div_small by lia.
Qed.

Lemma last_bit_sign l : (0 < length l)%nat -> bits_to_signed_Z l = bits_to_Z l - if tb (bits_to_Z l) (length l - 1) then 2 ^ Z.of_nat (length l) else 0.
Proof.
  intros H. unfold bits_to_signed_Z. rewrite tb_bits_to_Z, last_lookup, Nat.sub_1_r. case_decide as E.
  - by rewrite bool_decide_eq_true_2.
  - by rewrite bool_decide_eq_false_2.
Qed.

(** The number computed from the words of a known vector, unless the vector is
    signed and its last word is partial. *)
Lemma index_number_spec s l ws :
  (0 < length l)%nat -> words_ok ws -> wsum (wd ws) (nwords (length l)) = bits_to_Z l ->
  (s = false \/ length l <= 64 \/ length l mod 64 = 0)%nat ->
  let '(v, overflow) := index_loop s ws (nwords (length l)) 0 0 in
  index_fill s (length l) v = index_number s l mod 2 ^ 64 /\ overflow = negb (index_fits s (index_number s l)).
Proof.
  intros Hp Hws Hsum Hcase. pose proof (nwords_spec (length l)) as Hn.
  rewrite index_words, Hsum by (done || lia). cbv beta iota. set (num := bits_to_Z l) in *.
  pose proof (bits_to_Z_bounds l : 0 <= num < _) as Hnum. unfold index_number, index_fits. fold num.
  rewrite (last_bit_sign l Hp). fold num. destruct (Nat.lt_ge_cases 64 (length l)) as [Hlong|Hshort].
  - rewrite index_fill_wide by lia. destruct s; cbn [andb].
    2:{ split; [done|]. f_equal. destruct (Z.eqb_spec (num / 2 ^ 64) 0), (Z.ltb_spec num (2 ^ 64)); try done; exfalso; dlia. }
    assert (Hmul : (length l = 64 * nwords (length l))%nat) by (destruct Hcase as [?|[?|?]]; [done|lia|dlia]).
    set (n := nwords (length l)) in *.
    assert (E : 2 ^ Z.of_nat (length l) = 2 ^ 64 * 2 ^ (64 * Z.of_nat (n - 1))) by (rewrite <- Z.pow_add_r by lia; f_equal; lia).
    assert (P1 : 2 ^ 64 <= 2 ^ (64 * Z.of_nat (n - 1))) by (apply Z.pow_le_mono_r; lia).
    assert (Hhalf : tb num (length l - 1) = (2 ^ 63 * 2 ^ (64 * Z.of_nat (n - 1)) <=? num)).
    { assert (E2 : 2 ^ 63 * 2 ^ (64 * Z.of_nat (n - 1)) = 2 ^ Z.of_nat (length l - 1)) by (rewrite <- Z.pow_add_r by lia; f_equal; lia).
      rewrite E2. apply tb_top. replace (S (length l - 1)) with (length l) by lia. done. }
    rewrite Hhalf, (tb_top _ 63) by (apply (Z.mod_pos_bound num (2 ^ 64)); lia).
    rewrite E in *. change (2 ^ Z.of_nat 63) with (2 ^ 63).
    set (P := 2 ^ (64 * Z.of_nat (n - 1))) in *. clearbody P n num. clear Hhalf Hsum Hws Hcase Hmul Hn. split.
    + destruct (2 ^ 63 * P <=? num); [|by rewrite Z.sub_0_r].
      replace (num - 2 ^ 64 * P) with (num + (- P) * 2 ^ 64) by lia. by rewrite Z.mod_add by lia.
    + f_equal. pose proof (Z.div_mod num (2 ^ 64) ltac:(lia)) as Hdm. pose proof (Z.mod_pos_bound num (2 ^ 64) ltac:(lia)) as Hm.
      set (q := num / 2 ^ 64) in *. set (r := num mod 2 ^ 64) in *. clearbody q r.
      apply eq_true_iff_eq. rewrite andb_true_iff, Z.leb_le, Z.ltb_lt, Z.eqb_eq.
      destruct (Z.leb_spec (2 ^ 63) r), (Z.leb_spec (2 ^ 63 * P) num); lia.
  - assert (Hsmall : num < 2 ^ 64) by (assert (2 ^ Z.of_nat (length l) <= 2 ^ 64) by (apply Z.pow_le_mono_r; lia); lia).
    rewrite Z.mod_small, Z.div_small by lia. assert (nwords (length l) = 1%nat) as -> by lia. cbn [Nat.sub Z.of_nat].
    assert (H0 : (if s && tb num 63 then 2 ^ (64 * Z.of_nat 0) - 1 else 0) = 0) by (by destruct (s && tb num 63)).
    rewrite H0, Z.eqb_refl. cbn [negb]. pose proof (tb_top num (length l - 1)) as Htop.
    replace (S (length l - 1)) with (length l) in Htop by lia. specialize (Htop ltac:(lia)).
    assert (Hh : 2 * 2 ^ Z.of_nat (length l - 1) = 2 ^ Z.of_nat (length l)) by (rewrite <- Z.pow_succ_r by lia; f_equal; lia).
    assert (Hq : 2 ^ Z.of_nat (length l - 1) <= 2 ^ 63) by (apply Z.pow_le_mono_r; lia).
    split.
    + destruct (decide (length l = 64)%nat) as [E|E].
      * rewrite index_fill_wide, E by lia. change (2 ^ Z.of_nat 64) with (2 ^ 64). destruct s; [|rewrite Z.mod_small; lia].
        destruct (tb num _); [|rewrite Z.sub_0_r, Z.mod_small; lia].
        replace (num - 2 ^ 64) with (num + (-1) * 2 ^ 64) by lia. by rewrite Z.mod_add, Z.mod_small by lia.
      * rewrite index_fill_spec by lia. destruct s; cbn [andb]; [|f_equal; lia]. f_equal. destruct (tb num (length l - 1)); lia.
    + symmetry. apply negb_false_iff. destruct s; [|by apply Z.ltb_lt]. rewrite Htop.
      apply andb_true_iff. rewrite Z.leb_le, Z.ltb_lt. destruct (Z.leb_spec (2 ^ Z.of_nat (length l - 1)) num); lia.
Qed.

Lemma vec4_to_index_returns t p fl ws l st s :
  state_is t p fl ws (l :: st) -> (0 < length l)%nat ->
  (s = false \/ length l <= 64 \/ length l mod 64 = 0)%nat ->
  returns (vec4_to_index t s) (fun r =>
    fst r = index_value s l /\ state_is (snd r) p (<[4%nat := index_flag s l]> fl) ws st).
Proof.
  intros Ht Hp Hc. unfold vec4_to_index. destruct (peek_state _ _ _ _ _ 0 l Ht eq_refl) as (x & -> & Hx). cbn [mbind option_bind].
  eapply returns_bind; [apply (pop_n_state _ _ _ _ _ 1 Ht); cbn; lia|]. intros t' Ht'. cbn [drop] in Ht'.
  rewrite (rep4_size _ _ Hx). pose proof (rep4_subarray x l Hx Hp) as Hsub. unfold index_value, index_flag.
  destruct (subarray x _ _ _) as [bits|].
  - destruct Hsub as (-> & _ & Hok & Hsum). pose proof (index_number_spec s l bits Hp Hok Hsum Hc) as H.
    destruct (index_loop _ _ _ _ _) as [v o]. destruct H as [H1 H2]. apply returns_ret. cbn [fst snd].
    split; [done|]. rewrite H2. by destruct (index_fits _ _); apply set_flag_state.
  - rewrite Hsub. apply returns_ret. split; [done|]. by apply set_flag_state.
Qed.

(** A signed vector of 65 bits that holds -1 is reported as not fitting: the
    last word holds one bit only, and is compared with a word of ones. *)
Lemma partial_word_overflows :
  let t := mk_thread 0 (replicate 256 BIT4_0) [0] [vector4_fill 65 BIT4_1] in
  exists t', of_IX_VEC4_S t (mk_code 0 0 0 0) = Some t' /\
    flags t' !! 4%nat = Some BIT4_X /\ index_flag true (replicate 65 BIT4_1) = BIT4_0.
Proof. vm_compute. eexists. split; [reflexivity|]. split; reflexivity. Qed.

Lemma parti_use_base_signed base bwid :
  0 < bwid <= 32 -> 0 <= base < 2 ^ bwid ->
  parti_use_base base (Z.to_nat bwid) true = if 2 ^ (bwid - 1) <=? base then base - 2 ^ bwid else base.
Proof.
  intros Hb Hbase. assert (E : exists n, bwid = Z.of_nat (S n) /\ (n < 32)%nat) by (exists (Z.to_nat (bwid - 1)); lia).
  destruct E as (n & -> & Hn). unfold parti_use_base. rewrite Nat2Z.id.
  replace (Z.of_nat (S n) - 1) with (Z.of_nat n) by lia. rewrite (Z.mod_small (Z.of_nat n)) by lia.
  change (Z.testbit base (Z.of_nat n)) with (tb base n). rewrite tb_top by done. cbn [andb].
  assert (Hle : 2 ^ Z.of_nat (S n) <= 2 ^ 32) by (apply Z.pow_le_mono_r; lia).
  destruct (Nat.ltb_spec (S n) 32) as [Hs|Hs]; cbn [andb].
  - assert (Hle' : 2 ^ Z.of_nat (S n) <= 2 ^ 31) by (apply Z.pow_le_mono_r; lia).
    rewrite (int_cast_32 base) by lia. destruct (Z.leb_spec (2 ^ Z.of_nat n) base); [|done].
    rewrite w_wrap_id by (unfold word_ok; lia).
    rewrite <- (int_cast_32 (base - 2 ^ Z.of_nat (S n))) by lia. apply int_cast_mod. unfold same_mod.
    change (Z.of_nat 32) with 32. apply Z.bits_inj'. intros i Hi.
    destruct (Z.lt_ge_cases i 32); [|by rewrite !Z.mod_pow2_bits_high by lia].
    rewrite !Z.mod_pow2_bits_low, <- lor_sign, !Z.lor_spec by lia. f_equal.
    assert (E := tb_shl w_max (S n) (Z.to_nat i) ltac:(lia)). rewrite tb_max in E. unfold tb in E. rewrite !Z2Nat.id in E by lia.
    rewrite E, Z.shiftl_spec by lia. rewrite (proj2 (Nat.ltb_lt _ 64)) by lia. cbn [andb].
    destruct (Nat.leb_spec (S n) (Z.to_nat i)); cbn [andb].
    + rewrite (proj2 (Nat.ltb_lt _ _)) by lia. symmetry. apply Z.bits_m1. lia.
    + symmetry. apply Z.testbit_neg_r. lia.
  - assert (n = 31%nat) as -> by lia. change (Z.of_nat 31) with 31. change (2 ^ Z.of_nat 32) with (2 ^ 32) in *.
    unfold int_cast. change (Z.of_nat 32) with 32. rewrite Z.mod_small by lia. done.
Qed.

(** *** Properties *)

(** Concatenation puts the second operand above the first, replication
    repeats the operand, duplication and splitting leave the parts, padding
    zero- or sign-extends or cuts to the width, and an immediate pushes the bits
    its two operand words encode. *)
Theorem vector_building t cp p fl ws l m st :
  state_is t p fl ws (l :: m :: st) -> (0 < length l)%nat -> (0 < length m)%nat ->
  let w := wid_of cp in
  leaves (of_CONCAT_VEC4 t cp) p fl ws ((l ++ m) :: st) /\
  leaves (of_DUP_VEC4 t cp) p fl ws (l :: l :: m :: st) /\
  leaves (of_PAD_U t cp) p fl ws ((take w l ++ replicate (w - length l) BIT4_0) :: m :: st) /\
  leaves (of_PAD_S t cp) p fl ws ((take w l ++ replicate (w - length l) (bit_at l (length l - 1))) :: m :: st) /\
  (0 <= number cp < 2 ^ 31 -> Z.of_nat (length l) * number cp < 2 ^ 32 ->
     leaves (of_REPLICATE t cp) p fl ws (concat (replicate w l) :: m :: st)) /\
  ((0 < w < length l)%nat -> leaves (of_SPLIT_VEC4 t cp) p fl ws (take w l :: drop w l :: m :: st)) /\
  (imm_ok cp -> (0 < w)%nat ->
     leaves (of_PUSHI_VEC4 t cp) p fl ws (imm_bits cp :: l :: m :: st) /\
     leaves (of_CONCATI_VEC4 t cp) p fl ws ((imm_bits cp ++ l) :: m :: st)).
Proof.
  intros Ht Pl Pm w. unfold w.
  destruct (peek_state _ _ _ _ _ 0 l Ht eq_refl) as (x & Ex & Hx), (peek_state _ _ _ _ _ 1 m Ht eq_refl) as (y & Ey & Hy).
  split_and!.
  - unfold of_CONCAT_VEC4. rewrite Ex, Ey. cbn [mbind option_bind].
    eapply leaves_bind; [by apply concat2_returns|]. intros z Hz.
    eapply leaves_bind; [apply (pop_n_state _ _ _ _ _ 1 Ht); cbn; lia|]. intros t' Ht'.
    apply (poke_state _ _ _ _ _ 0 z _ Ht'); [cbn; lia|done].
  - unfold of_DUP_VEC4. rewrite Ex. by apply leaves_ret, push_state.
  - eapply edit_top_leaves; [exact Ht|]. intros v Hv. apply returns_ret. by apply rep4_resize.
  - eapply edit_top_leaves; [exact Ht|]. intros v Hv. rewrite (rep4_size _ _ Hv). cbv zeta.
    destruct (Nat.ltb_spec (length l) (wid_of cp)) as [Hlt|Hge]; apply returns_ret.
    + rewrite (rep4_value _ _ _ Hv). by apply rep4_resize.
    + rewrite (proj2 (Nat.sub_0_le _ _)) by done. pose proof (rep4_resize v l (wid_of cp) BIT4_X Hv) as H.
      by rewrite (proj2 (Nat.sub_0_le _ _)) in H by done.
  - intros Hn Hsz. unfold of_REPLICATE. rewrite int_cast_32 by lia.
    destruct (pop_state _ _ _ _ _ _ Ht) as (v & t' & -> & Hv & Ht'). cbn [mbind option_bind].
    rewrite (rep4_size _ _ Hv), uint_cast_32 by nia.
    assert (Ew : Z.to_nat (number cp) = wid_of cp) by (unfold wid_of; by rewrite Z.mod_small by lia).
    rewrite Ew. replace (Z.to_nat (Z.of_nat (length l) * number cp)) with (length l * wid_of cp)%nat by (rewrite <- Ew; nia).
    eapply leaves_bind; [by apply (replicate_returns v l)|]. intros z Hz. by apply leaves_ret, push_state.
  - intros Hw. unfold of_SPLIT_VEC4. rewrite Ex. cbn [mbind option_bind]. rewrite (rep4_size _ _ Hx).
    apply returns_assert; [apply Nat.ltb_lt; lia|].
    eapply leaves_bind; [by apply rep4_subvalue|]. intros lsb Hlsb.
    eapply leaves_bind; [by apply rep4_subvalue|]. intros msb Hmsb.
    rewrite part_at_take_drop, drop_0 in Hlsb by lia. rewrite part_at_take_drop, take_ge in Hmsb by (rewrite ?length_drop; lia).
    eapply leaves_bind; [apply (poke_state _ _ _ _ _ 0 msb (drop (wid_of cp) l) Ht); [cbn; lia|done]|]. intros t' Ht'. by apply leaves_ret, push_state.
  - intros Hok Hw. split.
    + unfold of_PUSHI_VEC4. destruct ((bit_idx0 cp =? 0) && (bit_idx1 cp =? 0)) eqn:E0.
      { apply andb_true_iff in E0 as [E1%Z.eqb_eq E2%Z.eqb_eq]. by apply leaves_ret, push_state, imm_zero. }
      assert (Hpush : forall o, returns o (fun r => rep4 r (imm_bits cp)) ->
        leaves (val ← o; Some (push_vec4 t val)) p fl ws (imm_bits cp :: l :: m :: st)).
      { intros o Ho. eapply leaves_bind; [exact Ho|]. intros z Hz. by apply leaves_ret, push_state. }
      destruct ((bit_idx1 cp =? 0) && (wid_of cp <=? 64)%nat) eqn:E1; apply Hpush; [|by apply imm_switch_returns].
      apply andb_true_iff in E1 as [E1%Z.eqb_eq E2%Nat.leb_le]. apply imm_setarray; [done|done|lia|lia].
    + unfold of_CONCATI_VEC4. rewrite Ex. cbn [mbind option_bind].
      eapply leaves_bind; [by apply imm_switch_returns|]. intros z Hz.
      eapply leaves_bind; [by apply (concat2_returns x z l (imm_bits cp))|]. intros r Hr.
      apply (poke_state _ _ _ _ _ 0 r _ Ht); [cbn; lia|done].
Qed.

Lemma vector_building_witness :
  let t := mk_thread 7 [] [] [vector4_fill 2 BIT4_1; vector4_fill 3 BIT4_0] in
  leaves (of_CONCAT_VEC4 t (mk_code 4 0 0 0)) 7 [] [] [[BIT4_1; BIT4_1; BIT4_0; BIT4_0; BIT4_0]] /\
  leaves (of_PAD_S t (mk_code 4 0 0 0)) 7 [] [] [replicate 4 BIT4_1; replicate 3 BIT4_0] /\
  leaves (of_PUSHI_VEC4 t (mk_code 4 5 4 0)) 7 [] []
    [[BIT4_1; BIT4_0; BIT4_X; BIT4_0]; replicate 2 BIT4_1; replicate 3 BIT4_0].
Proof.
  cbv zeta. assert (Hs : state_is (mk_thread 7 [] [] [vector4_fill 2 BIT4_1; vector4_fill 3 BIT4_0]) 7 [] [] [replicate 2 BIT4_1; replicate 3 BIT4_0]).
  { split_and!; [reflexivity..|]. fill_stack. }
  destruct (vector_building _ (mk_code 4 0 0 0) 7 [] [] (replicate 2 BIT4_1) (replicate 3 BIT4_0) [] Hs ltac:(cbn; lia) ltac:(cbn; lia)) as (H1 & _ & _ & H2 & _).
  destruct (vector_building _ (mk_code 4 5 4 0) 7 [] [] (replicate 2 BIT4_1) (replicate 3 BIT4_0) [] Hs ltac:(cbn; lia) ltac:(cbn; lia)) as (_ & _ & _ & _ & _ & _ & H3).
  split; [exact H1|]. split; [exact H2|]. apply H3; [split; cbn; lia|vm_compute; lia].
Defined.

(** The base that [%part] uses: a 32-bit integer. *)
Definition base32 (s : bool) (b : list vvp_bit4_t) : Z :=
  int_cast 32 true ((if s : bool then bits_to_signed_Z else bits_to_Z) (take 32 b)).

(** For a known base it is the number of the base when that fits 32 bits. *)
Lemma int32_id z : - 2 ^ 31 <= z < 2 ^ 31 -> int_cast 32 true z = z.
Proof.
  intros Hz. unfold int_cast. change (2 ^ Z.of_nat 32) with (2 ^ 32). change (2 ^ (Z.of_nat 32 - 1)) with (2 ^ 31).
  destruct (Z.le_gt_cases 0 z) as [H|H].
  - rewrite Z.mod_small by lia. by rewrite (proj2 (Z.leb_gt _ _)) by lia.
  - replace (z mod 2 ^ 32) with (z + 2 ^ 32); [by rewrite (proj2 (Z.leb_le _ _)) by lia; cbn [andb]; lia|].
    apply (Z.mod_unique z (2 ^ 32) (-1)); lia.
Qed.

Lemma take_known n b : list_has_xz b = false -> list_has_xz (take n b) = false.
Proof. rewrite !list_has_xz_false. intros Hk i u Hu. apply (Hk i). by eapply lookup_take_Some. Qed.

Lemma base32_value x s :
  (0 < size_ x)%nat -> list_has_xz (take 32 (bits x)) = false ->
  vector4_to_value 32 true x s true = (Some (base32 s (bits x)), true).
Proof.
  intros Hp Hk. rewrite vector4_to_value_unfold, Hk. cbv zeta. cbn [andb negb]. do 2 f_equal. unfold base32.
  destruct (Nat.ltb_spec (size_ x) 32) as [Hlt|Hge].
  - rewrite take_ge in Hk |- * by (rewrite length_bits; lia). pose proof (to_value_number 32 true x s Hp Hk) as H. cbv zeta in H.
    rewrite (proj2 (Nat.ltb_lt _ _) Hlt) in H. rewrite H. by destruct s.
  - rewrite andb_false_r, Nat.min_r by done. apply int_cast_mod. unfold low_bits, bits. rewrite firstn_map, take_seq, Nat.min_l by done.
    destruct s; [|done]. unfold same_mod, bits_to_signed_Z. rewrite length_map, length_seq.
    destruct (decide _); [|by rewrite Z.sub_0_r]. set (n := bits_to_Z _). replace (n - 2 ^ Z.of_nat 32) with (n + (-1) * 2 ^ Z.of_nat 32) by lia.
    by rewrite Z.mod_add by lia.
Qed.

Lemma signed_mod s b : same_mod (length b) ((if s : bool then bits_to_signed_Z else bits_to_Z) b) (bits_to_Z b).
Proof.
  destruct s; [|done]. unfold same_mod, bits_to_signed_Z. destruct (decide _); [|by rewrite Z.sub_0_r].
  set (n := bits_to_Z b). replace (n - 2 ^ Z.of_nat (length b)) with (n + (-1) * 2 ^ Z.of_nat (length b)) by lia. by rewrite Z.mod_add by lia.
Qed.

Lemma base32_known s b z :
  (if s : bool then bits_to_signed_Z else bits_to_Z) b = z -> - 2 ^ 31 <= z < 2 ^ 31 -> base32 s b = z.
Proof.
  intros Hz Hr. rewrite <- (int32_id z Hr). unfold base32. destruct (Nat.le_gt_cases (length b) 32) as [Hle|Hgt].
  { by rewrite take_ge, Hz by lia. }
  apply int_cast_mod. unfold same_mod. pose proof (signed_mod s (take 32 b)) as H. rewrite length_take, Nat.min_l in H by lia. rewrite H.
  transitivity (bits_to_Z b mod 2 ^ Z.of_nat 32).
  - apply tb_mod_ext. intros i Hi. rewrite !tb_bits_to_Z. by rewrite lookup_take_lt by lia.
  - rewrite <- Hz. symmetry. pose proof (signed_mod s b) as Hs. unfold same_mod in Hs.
    replace (Z.of_nat (length b)) with (Z.of_nat 32 + Z.of_nat (length b - 32)) in Hs by lia.
    rewrite Z.pow_add_r in Hs by lia. rewrite <- (Z.mod_mod_divide _ (2 ^ Z.of_nat 32 * 2 ^ Z.of_nat (length b - 32)) (2 ^ Z.of_nat 32)) by apply Z.divide_factor_l.
    rewrite Hs. apply Z.mod_mod_divide, Z.divide_factor_l.
Qed.

(** C29: a part select delivers the bits at the addresses base, base + 1, ..., with
    X for every address outside the vector, below it as well as above, when the base
    is known and fits 32 bits as a signed number, as the immediate base of [%parti/s]
    always does.  In general the base is the signed integer that its low 32 bits are
    ([base32]), so that a base of [%part/u] from 2^31 on addresses bits below the
    vector and may reach into it ([part_u_wraps]), and the result is X when one of
    the low 32 bits of the base is unknown; the others are not looked at. *)
Theorem part_selects t cp p fl ws b l st :
  state_is t p fl ws (b :: l :: st) -> (0 < length b)%nat -> (0 < length l)%nat -> Z.of_nat (length l) < 2 ^ 30 ->
  let w := wid_of cp in
  (0 < w)%nat -> Z.of_nat w < 2 ^ 30 ->
  (list_has_xz b = false ->
     (- 2 ^ 31 <= bits_to_signed_Z b < 2 ^ 31 -> leaves (of_PART_S t cp) p fl ws (window l (bits_to_signed_Z b) w :: st)) /\
     (bits_to_Z b < 2 ^ 31 -> leaves (of_PART_U t cp) p fl ws (window l (bits_to_Z b) w :: st))) /\
  (list_has_xz (take 32 b) = false ->
     leaves (of_PART_S t cp) p fl ws (window l (base32 true b) w :: st) /\
     leaves (of_PART_U t cp) p fl ws (window l (base32 false b) w :: st)) /\
  (list_has_xz (take 32 b) = true ->
     leaves (of_PART_S t cp) p fl ws (replicate w BIT4_X :: st) /\
     leaves (of_PART_U t cp) p fl ws (replicate w BIT4_X :: st)) /\
  (let base := bit_idx0 cp in let bwid := bit_idx1 cp in
   Z.of_nat (length b) < 2 ^ 30 -> 0 < bwid <= 32 -> 0 <= base < 2 ^ bwid ->
     leaves (of_PARTI_S t cp) p fl ws (window b (if 2 ^ (bwid - 1) <=? base then base - 2 ^ bwid else base) w :: l :: st) /\
     leaves (of_PARTI_U t cp) p fl ws (window b (int_cast 32 true base) w :: l :: st)).
Proof.
  intros Ht Pb Pl Bl w Pw Bw. unfold w in *.
  destruct (pop_state _ _ _ _ _ _ Ht) as (x & t' & Ex & Hx & Ht'), (peek_state _ _ _ _ _ 0 l Ht' eq_refl) as (y & Ey & Hy).
  assert (Hpoke : forall z v, rep4 z v -> leaves (poke_vec4 t' 0 z) p fl ws (v :: st)).
  { intros z v Hz. apply (poke_state _ _ _ _ _ 0 z v Ht'); [cbn; lia|done]. }
  assert (Hsize : size_ x = length b) by apply (rep4_size _ _ Hx). destruct Hx as [_ Hbits].
  assert (Hgen : forall s, list_has_xz (take 32 b) = false -> leaves (of_PART_base t cp s) p fl ws (window l (base32 s b) (wid_of cp) :: st)).
  { intros s Hk. unfold of_PART_base. rewrite Ex. cbn [mbind option_bind]. rewrite Ey. cbn [mbind option_bind].
    rewrite base32_value by (rewrite ?Hbits; done || lia). rewrite Hbits. cbn [negb].
    unfold base32. eapply leaves_bind; [by apply part_select_returns; auto using int_cast_32_range|]. intros z Hz. by apply Hpoke. }
  split_and!.
  - intros Hk. pose proof (take_known 32 b Hk) as Hk'. pose proof (bits_to_Z_bounds b). split; intros Hr.
    + rewrite <- (base32_known true b _ eq_refl Hr). by apply (Hgen true).
    + rewrite <- (base32_known false b _ eq_refl) by lia. by apply (Hgen false).
  - intros Hk. split; [by apply (Hgen true)|by apply (Hgen false)].
  - intros Hk. assert (H : forall s, leaves (of_PART_base t cp s) p fl ws (replicate (wid_of cp) BIT4_X :: st)).
    { intros s. unfold of_PART_base. rewrite Ex. cbn [mbind option_bind]. rewrite Ey. cbn [mbind option_bind].
      rewrite vector4_to_value_unfold, Hbits, Hk. cbn [andb negb]. apply Hpoke, rep4_fill. }
    split; [apply (H true)|apply (H false)].
  - intros Bb Hbw Hba. rewrite <- parti_use_base_signed by done.
    change (int_cast 32 true (bit_idx0 cp)) with (parti_use_base (bit_idx0 cp) (Z.to_nat (bit_idx1 cp)) false).
    assert (H : forall s, leaves (of_PARTI_base t cp s) p fl ws (window b (parti_use_base (bit_idx0 cp) (Z.to_nat (bit_idx1 cp)) s) (wid_of cp) :: l :: st)).
    { intros s. eapply edit_top_leaves; [exact Ht|]. intros v Hv. apply part_select_returns; try done.
      unfold parti_use_base. destruct (_ && _); apply int_cast_32_range. }
    split; [apply (H true)|apply (H false)].
Qed.

Lemma part_selects_witness :
  let t := mk_thread 7 [] [] [vector4_fill 2 BIT4_1; vector4_fill 3 BIT4_0] in
  leaves (of_PART_S t (mk_code 4 0 0 0)) 7 [] [] [[BIT4_X; BIT4_0; BIT4_0; BIT4_0]] /\
  leaves (of_PARTI_S t (mk_code 3 1 3 0)) 7 [] [] [[BIT4_1; BIT4_X; BIT4_X]; replicate 3 BIT4_0].
Proof.
  cbv zeta. assert (Hs : state_is (mk_thread 7 [] [] [vector4_fill 2 BIT4_1; vector4_fill 3 BIT4_0]) 7 [] [] [replicate 2 BIT4_1; replicate 3 BIT4_0]).
  { split_and!; [reflexivity..|]. fill_stack. }
  destruct (part_selects _ (mk_code 4 0 0 0) 7 [] [] (replicate 2 BIT4_1) (replicate 3 BIT4_0) [] Hs) as (_ & H1 & _); [cbn; lia..|vm_compute; lia|vm_compute; done|].
  destruct (part_selects _ (mk_code 3 1 3 0) 7 [] [] (replicate 2 BIT4_1) (replicate 3 BIT4_0) [] Hs) as (_ & _ & _ & H2); [cbn; lia..|vm_compute; lia|vm_compute; done|].
  split; [apply (H1 eq_refl)|apply H2; cbn; lia].
Defined.

(** The base 2^32 - 1 of [%part/u] is taken for -1, and an unknown bit 32 of the base
    is not seen. *)
Example part_u_wraps :
  let run := fun base => t' ← of_PART_U (mk_thread 0 [] [] [base; vector4_fill 3 BIT4_1]) (mk_code 2 0 0 0); Some (map bits (stack_vec4_ t')) in
  run (vector4_fill 32 BIT4_1) = Some [[BIT4_X; BIT4_1]] /\
  run (mk_vector4 33 [2 ^ 32] [2 ^ 32]) = Some [[BIT4_1; BIT4_1]].
Proof. split; vm_compute; reflexivity. Qed.

(** The shifts move the vector by the index register, filling with 0 or with
    the sign bit; an amount of the width or more shifts everything out, an
    amount that did not fit the register (flag 4 is X) too, and an unknown one
    (flag 4 is 1) gives X. *)
Theorem shifts t cp p fl ws l st shift f4 :
  state_is t p fl ws (l :: st) -> (0 < length l)%nat ->
  ws !! Z.to_nat (number cp) = Some shift -> 0 <= shift -> fl !! 4%nat = Some f4 ->
  leaves (of_SHIFTL t cp) p fl ws
    (shifted f4 shift BIT4_0 l (fun s => replicate s BIT4_0 ++ take (length l - s) l) :: st) /\
  leaves (of_SHIFTR t cp) p fl ws
    (shifted f4 shift BIT4_0 l (fun s => drop s l ++ replicate s BIT4_0) :: st) /\
  leaves (of_SHIFTR_S t cp) p fl ws
    (shifted f4 shift (bit_at l (length l - 1)) l (fun s => drop s l ++ replicate s (bit_at l (length l - 1))) :: st).
Proof.
  intros Ht Pl Hw Hs Hf. assert (Hfl : flags t = fl) by apply Ht. assert (Hwd : words t = ws) by apply Ht.
  assert (Hr : forall fill fb, (forall v, rep4 v l -> fill v = fb) ->
    leaves (shift_right t cp fill) p fl ws (shifted f4 shift fb l (fun s => drop s l ++ replicate s fb) :: st)).
  { intros fill fb Hfill. unfold shift_right. rewrite Hfl, Hwd, Hw, Hf. cbn [mbind option_bind].
    destruct (pop_state _ _ _ _ _ _ Ht) as (x & t' & -> & Hx & Ht'). cbn [mbind option_bind].
    rewrite (rep4_size _ _ Hx), (Hfill _ Hx). unfold shifted.
    eapply leaves_bind; [|intros z Hz; apply leaves_ret, push_state; [done|exact Hz]].
    destruct (bit4_eqb f4 BIT4_1); [apply returns_ret, rep4_fill|].
    destruct (bit4_eqb f4 BIT4_X); cbn [orb]; [apply returns_ret, rep4_fill|].
    destruct (Z.ltb_spec (Z.of_nat (length l)) shift).
    { rewrite (proj2 (Z.leb_le _ _)) by lia. apply returns_ret, rep4_fill. }
    destruct (Z.ltb_spec 0 shift).
    - replace (if Z.of_nat (length l) <=? shift then _ else _) with (drop (Z.to_nat shift) l ++ replicate (Z.to_nat shift) fb).
      + by apply shift_right_returns; [|lia].
      + destruct (Z.leb_spec (Z.of_nat (length l)) shift); [|done]. rewrite drop_ge by lia. cbn [app]. f_equal. lia.
    - rewrite (proj2 (Z.leb_gt _ _)) by lia. assert (shift = 0) as -> by lia. apply returns_ret.
      change (Z.to_nat 0) with 0%nat. by rewrite drop_0, app_nil_r. }
  split_and!.
  - unfold of_SHIFTL. rewrite Hfl, Hwd, Hw, Hf. cbn [mbind option_bind].
    eapply edit_top_leaves; [exact Ht|]. intros x Hx. rewrite (rep4_size _ _ Hx). unfold shifted. cbv zeta.
    destruct (bit4_eqb f4 BIT4_1); [apply returns_ret, rep4_fill|].
    destruct (_ || _) eqn:E; [apply returns_ret, rep4_fill|]. apply orb_false_iff in E as [_ E%Z.leb_gt].
    destruct (Z.ltb_spec 0 shift).
    + apply shift_left_returns; [done|lia].
    + assert (shift = 0) as -> by lia. apply returns_ret. change (Z.to_nat 0) with 0%nat.
      cbn [replicate app]. by rewrite Nat.sub_0_r, firstn_all.
  - by apply Hr.
  - apply Hr. intros v Hv. by rewrite (rep4_size _ _ Hv), (rep4_value _ _ _ Hv).
Qed.

Lemma shifts_witness :
  let t := mk_thread 7 (replicate 256 BIT4_0) [1] [vector4_fill 3 BIT4_1] in
  leaves (of_SHIFTL t (mk_code 0 0 0 0)) 7 (replicate 256 BIT4_0) [1] [[BIT4_0; BIT4_1; BIT4_1]] /\
  leaves (of_SHIFTR_S t (mk_code 0 0 0 0)) 7 (replicate 256 BIT4_0) [1] [[BIT4_1; BIT4_1; BIT4_1]].
Proof.
  cbv zeta.
  destruct (shifts (mk_thread 7 (replicate 256 BIT4_0) [1] [vector4_fill 3 BIT4_1]) (mk_code 0 0 0 0) 7 (replicate 256 BIT4_0) [1]
    (replicate 3 BIT4_1) [] 1 BIT4_0) as (H1 & _ & H2); [split_and!; [reflexivity..|]; fill_stack|cbn; lia|reflexivity|lia|reflexivity|].
  split; [exact H1|exact H2].
Defined.

(** C30: a vector is converted to an index register by its number, reduced to 64
    bits, and flag 4 tells unknown bits (1) from a number that does not fit (X);
    for the signed conversion of a vector longer than a word the length is a
    multiple of 64. *)
Theorem index_conversion t cp p fl ws l st :
  state_is t p fl ws (l :: st) -> (0 < length l)%nat ->
  leaves (of_IX_VEC4 t cp) p (<[4%nat := index_flag false l]> fl) (<[Z.to_nat (number cp) := index_value false l]> ws) st /\
  ((length l <= 64 \/ length l mod 64 = 0)%nat ->
   leaves (of_IX_VEC4_S t cp) p (<[4%nat := index_flag true l]> fl) (<[Z.to_nat (number cp) := index_value true l]> ws) st).
Proof.
  intros Ht Pl. assert (H : forall s, (s = false \/ length l <= 64 \/ length l mod 64 = 0)%nat ->
    leaves (ix_vec4 t cp s) p (<[4%nat := index_flag s l]> fl) (<[Z.to_nat (number cp) := index_value s l]> ws) st).
  { intros s Hc. unfold ix_vec4. eapply leaves_bind; [by apply vec4_to_index_returns|]. intros [v t'] [E Ht']. cbn [fst snd] in *.
    rewrite <- E. by apply leaves_ret, set_word_state. }
  split; [apply (H false); auto|intros Hc; apply (H true); auto].
Qed.

Lemma index_conversion_witness :
  let t := mk_thread 7 (replicate 256 BIT4_0) [5] [vector4_fill 3 BIT4_1] in
  leaves (of_IX_VEC4_S t (mk_code 0 0 0 0)) 7 (<[4%nat := BIT4_0]> (replicate 256 BIT4_0)) [2 ^ 64 - 1] [].
Proof.
  cbv zeta. apply (index_conversion (mk_thread 7 (replicate 256 BIT4_0) [5] [vector4_fill 3 BIT4_1]) (mk_code 0 0 0 0) 7 (replicate 256 BIT4_0) [5]
    (replicate 3 BIT4_1) []); [split_and!; [reflexivity..|]; fill_stack|cbn; lia|left; cbn; lia].
Defined.
