(* ===== verification/ThreadLife.v ===== *)
(** * The life cycle of threads ([vvp/vthread.cc])

    Threads form trees: [%fork] makes a child, [%join] waits for one child that
    has ended and reaps it, [%join/detach] lets the remaining children run on
    their own, [%end] turns a thread into a zombie or frees it, [%disable] kills
    a thread with its descendants.  The file models these instructions on a
    store of threads linked by pointers, and proves that they keep the parent
    and child links consistent, never run into an [assert] and never lose the
    wake-up of a parent that joins. *)

From Stdlib Require Import ZArith Lia Bool.
From stdpp Require Import base numbers sorting gmap sets.
From S2P Require Import Prelude.

Open Scope Z_scope.

(** ** Definitions *)

(** A thread, a scope and a context are known by their addresses, and [set]s of
    threads are ordered by address. *)
Abbreviation tid := positive.

(** The part of [vthread_s] that the life cycle uses; [pc] is [None] when it is
    [codespace_null()], where the processor finds [%zombie]. *)
Record vthread_l := mk_life {
  pc : option nat;
  parent : option tid;
  parent_scope : positive;
  children : gset tid;
  detached_children : gset tid;
  task_func_children : gset tid;
  wait_next : option tid;
  wt_context : option positive;
  rd_context : option positive;
  i_am_joining : bool;
  i_am_detached : bool;
  i_am_waiting : bool;
  i_am_in_function : bool;
  i_have_ended : bool;
  i_was_disabled : bool;
  waiting_for_event : bool;
  is_scheduled : bool;
  delay_delete : bool }.

Inductive scope_type := vpiFunction | vpiTask | vpiOtherScope.

Record scope_s := mk_scope { is_automatic : bool; get_type_code : scope_type; scope_threads : gset tid }.

(** The calls of the scheduler: [schedule_vthread], [schedule_init_vthread] and
    [schedule_final_vthread] with the thread marked, and [schedule_del_thr]. *)
Inductive sched_call :=
  | CallVthread (thr : tid) (delay : Z) (push_flag : bool) | CallInitVthread (thr : tid) | CallFinalVthread (thr : tid)
  | CallDelThr (thr : tid).

(** The program state: [vthread_s] objects that are allocated, the scopes, the
    stack links of the contexts, and the calls of the scheduler so far, the
    last one first. *)
Record state := mk_state {
  threads : gmap tid vthread_l;
  scopes : gmap positive scope_s;
  stacked : gmap positive (option positive);
  calls : list sched_call }.

Definition with_threads (f : gmap tid vthread_l -> gmap tid vthread_l) (s : state) : state :=
  mk_state (f (threads s)) (scopes s) (stacked s) (calls s).

(** Access through a pointer; [None] when the object has been freed. *)
Definition get (thr : tid) (s : state) : option vthread_l := threads s !! thr.
Definition put (thr : tid) (x : vthread_l) (s : state) : state := with_threads (<[thr := x]>) s.
Definition edit (thr : tid) (f : vthread_l -> vthread_l) (s : state) : option state :=
  x ← get thr s; Some (put thr (f x) s).

(** The assignments to the members. *)
Definition set_pc (v : option nat) (x : vthread_l) : vthread_l :=
  mk_life v (parent x) (parent_scope x) (children x) (detached_children x) (task_func_children x) (wait_next x) (wt_context x) (rd_context x)
    (i_am_joining x) (i_am_detached x) (i_am_waiting x) (i_am_in_function x) (i_have_ended x) (i_was_disabled x) (waiting_for_event x) (is_scheduled x) (delay_delete x).
Definition set_parent (v : option tid) (x : vthread_l) : vthread_l :=
  mk_life (pc x) v (parent_scope x) (children x) (detached_children x) (task_func_children x) (wait_next x) (wt_context x) (rd_context x)
    (i_am_joining x) (i_am_detached x) (i_am_waiting x) (i_am_in_function x) (i_have_ended x) (i_was_disabled x) (waiting_for_event x) (is_scheduled x) (delay_delete x).
Definition set_children (f : gset tid -> gset tid) (x : vthread_l) : vthread_l :=
  mk_life (pc x) (parent x) (parent_scope x) (f (children x)) (detached_children x) (task_func_children x) (wait_next x) (wt_context x) (rd_context x)
    (i_am_joining x) (i_am_detached x) (i_am_waiting x) (i_am_in_function x) (i_have_ended x) (i_was_disabled x) (waiting_for_event x) (is_scheduled x) (delay_delete x).
Definition set_detached_children (f : gset tid -> gset tid) (x : vthread_l) : vthread_l :=
  mk_life (pc x) (parent x) (parent_scope x) (children x) (f (detached_children x)) (task_func_children x) (wait_next x) (wt_context x) (rd_context x)
    (i_am_joining x) (i_am_detached x) (i_am_waiting x) (i_am_in_function x) (i_have_ended x) (i_was_disabled x) (waiting_for_event x) (is_scheduled x) (delay_delete x).
Definition set_task_func_children (f : gset tid -> gset tid) (x : vthread_l) : vthread_l :=
  mk_life (pc x) (parent x) (parent_scope x) (children x) (detached_children x) (f (task_func_children x)) (wait_next x) (wt_context x) (rd_context x)
    (i_am_joining x) (i_am_detached x) (i_am_waiting x) (i_am_in_function x) (i_have_ended x) (i_was_disabled x) (waiting_for_event x) (is_scheduled x) (delay_delete x).
Definition set_wait_next (v : option tid) (x : vthread_l) : vthread_l :=
  mk_life (pc x) (parent x) (parent_scope x) (children x) (detached_children x) (task_func_children x) v (wt_context x) (rd_context x)
    (i_am_joining x) (i_am_detached x) (i_am_waiting x) (i_am_in_function x) (i_have_ended x) (i_was_disabled x) (waiting_for_event x) (is_scheduled x) (delay_delete x).
Definition set_contexts (w r : option positive) (x : vthread_l) : vthread_l :=
  mk_life (pc x) (parent x) (parent_scope x) (children x) (detached_children x) (task_func_children x) (wait_next x) w r
    (i_am_joining x) (i_am_detached x) (i_am_waiting x) (i_am_in_function x) (i_have_ended x) (i_was_disabled x) (waiting_for_event x) (is_scheduled x) (delay_delete x).
Definition set_joining (v : bool) (x : vthread_l) : vthread_l :=
  mk_life (pc x) (parent x) (parent_scope x) (children x) (detached_children x) (task_func_children x) (wait_next x) (wt_context x) (rd_context x)
    v (i_am_detached x) (i_am_waiting x) (i_am_in_function x) (i_have_ended x) (i_was_disabled x) (waiting_for_event x) (is_scheduled x) (delay_delete x).
Definition set_detached (v : bool) (x : vthread_l) : vthread_l :=
  mk_life (pc x) (parent x) (parent_scope x) (children x) (detached_children x) (task_func_children x) (wait_next x) (wt_context x) (rd_context x)
    (i_am_joining x) v (i_am_waiting x) (i_am_in_function x) (i_have_ended x) (i_was_disabled x) (waiting_for_event x) (is_scheduled x) (delay_delete x).
Definition set_waiting (v : bool) (x : vthread_l) : vthread_l :=
  mk_life (pc x) (parent x) (parent_scope x) (children x) (detached_children x) (task_func_children x) (wait_next x) (wt_context x) (rd_context x)
    (i_am_joining x) (i_am_detached x) v (i_am_in_function x) (i_have_ended x) (i_was_disabled x) (waiting_for_event x) (is_scheduled x) (delay_delete x).
Definition set_in_function (v : bool) (x : vthread_l) : vthread_l :=
  mk_life (pc x) (parent x) (parent_scope x) (children x) (detached_children x) (task_func_children x) (wait_next x) (wt_context x) (rd_context x)
    (i_am_joining x) (i_am_detached x) (i_am_waiting x) v (i_have_ended x) (i_was_disabled x) (waiting_for_event x) (is_scheduled x) (delay_delete x).
Definition set_ended (disabled : bool) (x : vthread_l) : vthread_l :=
  mk_life None (parent x) (parent_scope x) (children x) (detached_children x) (task_func_children x) (wait_next x) (wt_context x) (rd_context x)
    (i_am_joining x) (i_am_detached x) (i_am_waiting x) (i_am_in_function x) true (disabled || i_was_disabled x) (waiting_for_event x) (is_scheduled x) (delay_delete x).
Definition set_waiting_for_event (v : bool) (x : vthread_l) : vthread_l :=
  mk_life (pc x) (parent x) (parent_scope x) (children x) (detached_children x) (task_func_children x) (wait_next x) (wt_context x) (rd_context x)
    (i_am_joining x) (i_am_detached x) (i_am_waiting x) (i_am_in_function x) (i_have_ended x) (i_was_disabled x) v (is_scheduled x) (delay_delete x).
Definition set_scheduled (v : bool) (x : vthread_l) : vthread_l :=
  mk_life (pc x) (parent x) (parent_scope x) (children x) (detached_children x) (task_func_children x) (wait_next x) (wt_context x) (rd_context x)
    (i_am_joining x) (i_am_detached x) (i_am_waiting x) (i_am_in_function x) (i_have_ended x) (i_was_disabled x) (waiting_for_event x) v (delay_delete x).

(** The elements of a [set<vthread_t>] in the order of iteration. *)
Definition in_order (X : gset tid) : list tid := merge_sort Pos.le (elements X).
Definition set_begin (X : gset tid) : option tid := head (in_order X).

Fixpoint for_each (l : list tid) (body : tid -> state -> option state) (s : state) : option state :=
  match l with [] => Some s | c :: l => s ← body c s; for_each l body s end.

Definition scope_erase (sc : positive) (thr : tid) (s : state) : option state :=
  x ← scopes s !! sc;
  Some (mk_state (threads s) (<[sc := mk_scope (is_automatic x) (get_type_code x) (scope_threads x ∖ {[thr]})]> (scopes s)) (stacked s) (calls s)).

Definition scope_insert (sc : positive) (thr : tid) (s : state) : option state :=
  x ← scopes s !! sc;
  Some (mk_state (threads s) (<[sc := mk_scope (is_automatic x) (get_type_code x) ({[thr]} ∪ scope_threads x)]> (scopes s)) (stacked s) (calls s)).

Definition log_call (c : sched_call) (s : state) : state := mk_state (threads s) (scopes s) (stacked s) (c :: calls s).

(** *** Creation, scheduling and deletion *)

(** [thr] is the address that [new] returns. *)
Definition vthread_new (thr : tid) (pc : nat) (scope : positive) (s : state) : option state :=
  assert_ (bool_decide (threads s !! thr = None));;
  scope_insert scope thr
    (put thr (mk_life (Some pc) None scope ∅ ∅ ∅ None None None false false false false false false false false false) s).

(** [vthread_mark_scheduled]: the whole list that starts with the thread. *)
Fixpoint vthread_mark_scheduled (fuel : nat) (thr : option tid) (s : state) : option state :=
  match thr with
  | None => Some s
  | Some t =>
      match fuel with
      | O => None
      | S fuel' =>
          x ← get t s;
          assert_ (negb (is_scheduled x));;
          s ← edit t (set_scheduled true) s;
          vthread_mark_scheduled fuel' (wait_next x) s
      end
  end.

(** Every thread can be marked once, so that the number of threads is fuel enough. *)
Definition schedule_vthread (thr : tid) (delay : Z) (push_flag : bool) (s : state) : option state :=
  s ← vthread_mark_scheduled (S (size (threads s))) (Some thr) s;
  Some (log_call (CallVthread thr delay push_flag) s).

Definition schedule_init_vthread (thr : tid) (s : state) : option state :=
  s ← vthread_mark_scheduled (S (size (threads s))) (Some thr) s;
  Some (log_call (CallInitVthread thr) s).

Definition schedule_final_vthread (thr : tid) (s : state) : option state :=
  s ← vthread_mark_scheduled (S (size (threads s))) (Some thr) s;
  Some (log_call (CallFinalVthread thr) s).

Definition vthread_delete (thr : tid) (s : state) : option state :=
  _ ← get thr s; Some (with_threads (delete thr) s).

Definition vthread_reap (thr : tid) (s : state) : option state :=
  x ← get thr s;
  s ← for_each (in_order (children x)) (fun child s =>
        y ← get child s;
        assert_ (bool_decide (parent y = Some thr));;
        edit child (set_parent (parent x)) s) s;
  s ← for_each (in_order (detached_children x)) (fun child s =>
        y ← get child s;
        assert_ (bool_decide (parent y = Some thr));;
        assert_ (i_am_detached y);;
        edit child (fun y => set_detached false (set_parent None y)) s) s;
  s ← match parent x with
      | None => Some s
      | Some p =>
          y ← get p s;
          if i_am_detached x then
            assert_ (bool_decide (thr ∈ detached_children y));;
            edit p (set_detached_children (fun X => X ∖ {[thr]})) s
          else
            assert_ (bool_decide (thr ∈ children y));;
            edit p (set_children (fun X => X ∖ {[thr]})) s
      end;
  s ← edit thr (set_parent None) s;
  s ← scope_erase (parent_scope x) thr s;
  s ← edit thr (set_pc None) s;
  x ← get thr s;
  if negb (is_scheduled x) && negb (waiting_for_event x) then
    assert_ (bool_decide (children x = ∅));;
    assert_ (bool_decide (wait_next x = None));;
    if delay_delete x then Some (log_call (CallDelThr thr) s) else vthread_delete thr s
  else Some s.

Definition of_ZOMBIE (thr : tid) (s : state) : option (bool * state) :=
  s ← edit thr (set_pc None) s;
  x ← get thr s;
  if bool_decide (parent x = None) && bool_decide (children x = ∅) then
    if delay_delete x then Some (false, log_call (CallDelThr thr) s)
    else s ← vthread_delete thr s; Some (false, s)
  else Some (false, s).

(** *** Joining *)

(** While the thread has task or function children, only these can be joined. *)
Definition test_joinable (x : vthread_l) (child : tid) : bool :=
  bool_decide (task_func_children x = ∅) || bool_decide (child ∈ task_func_children x).

(** The context of an automatic child moves from the write to the read stack. *)
Definition move_context (thr : tid) (y : vthread_l) (s : state) : option state :=
  x ← get thr s;
  match wt_context y with
  | None => Some s
  | Some _ =>
      if bool_decide (wt_context x = rd_context x) then Some s
      else
        child_context ← wt_context x;
        up ← stacked s !! child_context;
        let s := mk_state (threads s) (scopes s) (<[child_context := rd_context x]> (stacked s)) (calls s) in
        edit thr (set_contexts up (Some child_context)) s
  end.

Definition do_join (thr child : tid) (s : state) : option state :=
  y ← get child s;
  assert_ (bool_decide (parent y = Some thr));;
  s ← edit thr (set_task_func_children (fun X => X ∖ {[child]})) s;
  s ← move_context thr y s;
  vthread_reap child s.

(** The first child, in the order of the set, that has ended and can be joined. *)
Fixpoint find_ended (x : vthread_l) (l : list tid) (s : state) : option (option tid) :=
  match l with
  | [] => Some None
  | curp :: l =>
      y ← get curp s;
      if i_have_ended y && test_joinable x curp then Some (Some curp) else find_ended x l s
  end.

Definition do_join_opcode (thr : tid) (s : state) : option (bool * state) :=
  x ← get thr s;
  assert_ (negb (i_am_joining x));;
  assert_ (negb (bool_decide (children x = ∅)));;
  found ← find_ended x (in_order (children x)) s;
  match found with
  | Some curp => s ← do_join thr curp s; Some (true, s)
  | None => s ← edit thr (set_joining true) s; Some (false, s)
  end.

Definition of_JOIN (thr : tid) (s : state) : option (bool * state) := do_join_opcode thr s.

(** The body of the loop of [%join/detach], which runs until no child is left. *)
Definition detach_step (thr : tid) (s : state) : option state :=
  x ← get thr s;
  child ← set_begin (children x);
  y ← get child s;
  assert_ (bool_decide (parent y = Some thr));;
  assert_ (bool_decide (wt_context y = None) || negb (bool_decide (wt_context x = wt_context y)));;
  if i_have_ended y then vthread_reap child s
  else
    s ← edit thr (set_children (fun X => X ∖ {[child]})) s;
    s ← edit child (set_detached true) s;
    edit thr (set_detached_children (fun X => {[child]} ∪ X)) s.

Definition has_children (thr : tid) (s : state) : bool :=
  match get thr s with Some x => negb (bool_decide (children x = ∅)) | None => false end.

Definition of_JOIN_DETACH (thr : tid) (count : nat) (s : state) : option (bool * state) :=
  x ← get thr s;
  assert_ (bool_decide (task_func_children x = ∅));;
  assert_ (count =? size (children x))%nat;;
  s ← while_ (size (children x)) (has_children thr) (detach_step thr) s;
  Some (true, s).

(** *** Forking *)

(** [run] is [vthread_run]: the instructions of a function body, which runs at
    once instead of being scheduled. *)
Definition of_FORK (run : tid -> state -> option state) (thr child : tid) (cptr2 : nat) (scope : positive) (s : state) :
    option (bool * state) :=
  s ← vthread_new child cptr2 scope s;
  sc ← scopes s !! scope;
  x ← get thr s;
  s ← (if is_automatic sc then edit child (set_contexts (wt_context x) (wt_context x)) s else Some s);
  s ← edit child (set_parent (Some thr)) s;
  s ← edit thr (set_children (fun X => {[child]} ∪ X)) s;
  s ← match get_type_code sc with
      | vpiFunction => None
      | vpiTask => edit thr (set_task_func_children (fun X => {[child]} ∪ X)) s
      | vpiOtherScope => Some s
      end;
  if i_am_in_function x then
    s ← edit child (set_scheduled true) s;
    s ← edit child (set_in_function true) s;
    s ← run child s;
    Some (true, s)
  else
    s ← schedule_vthread child 0 true s;
    Some (true, s).

(** [%callf/void]: fork and join a function. *)
Definition do_callf_void (run : tid -> state -> option state) (thr child : tid) (s : state) : option (bool * state) :=
  x ← get thr s;
  y ← get child s;
  sc ← scopes s !! parent_scope y;
  s ← (if is_automatic sc then edit child (set_contexts (wt_context x) (wt_context x)) s else Some s);
  s ← edit child (set_parent (Some thr)) s;
  s ← edit thr (set_children (fun X => {[child]} ∪ X)) s;
  x ← get thr s;
  assert_ (size (children x) =? 1)%nat;;
  assert_ (match get_type_code sc with vpiFunction => true | _ => false end);;
  s ← edit thr (set_task_func_children (fun X => {[child]} ∪ X)) s;
  s ← edit child (set_scheduled true) s;
  s ← edit child (set_in_function true) s;
  s ← run child s;
  x ← get thr s;
  assert_ (test_joinable x child);;
  y ← get child s;
  if i_have_ended y then s ← do_join thr child s; Some (true, s)
  else s ← edit thr (set_joining true) s; Some (false, s).

(** *** Ending *)

(** The loop that detaches the detached children fully. *)
Definition release_step (thr : tid) (s : state) : option state :=
  x ← get thr s;
  child ← set_begin (detached_children x);
  y ← get child s;
  assert_ (bool_decide (parent y = Some thr));;
  assert_ (i_am_detached y);;
  s ← edit child (fun y => set_detached false (set_parent None y)) s;
  edit thr (set_detached_children (fun X => X ∖ {[child]})) s.

Definition has_detached (thr : tid) (s : state) : bool :=
  match get thr s with Some x => negb (bool_decide (detached_children x = ∅)) | None => false end.

(** The last part of [%end], for a thread without a joining parent. *)
Definition end_unjoined (thr : tid) (s : state) : option state :=
  x ← get thr s;
  s ← (if i_am_detached x then
         tmp ← parent x;
         y ← get tmp s;
         assert_ (bool_decide (thr ∈ detached_children y));;
         s ← edit tmp (set_detached_children (fun X => X ∖ {[thr]})) s;
         y ← get tmp s;
         s ← (if i_am_waiting y && bool_decide (detached_children y = ∅) then
                s ← edit tmp (set_waiting false) s; schedule_vthread tmp 0 true s
              else Some s);
         edit thr (fun x => set_parent None (set_detached false x)) s
       else Some s);
  x ← get thr s;
  match parent x with None => vthread_reap thr s | Some _ => Some s end.

Definition of_END (thr : tid) (s : state) : option (bool * state) :=
  x ← get thr s;
  assert_ (negb (waiting_for_event x));;
  s ← edit thr (set_ended false) s;
  s ← while_ (size (detached_children x)) (has_detached thr) (release_step thr) s;
  x ← get thr s;
  assert_ (bool_decide (children x = ∅));;
  match (if i_am_detached x then None else parent x) with
  | None => s ← end_unjoined thr s; Some (false, s)
  | Some tmp =>
      y ← get tmp s;
      if i_am_joining y then
        if negb (test_joinable y thr) then Some (false, s)
        else
          s ← edit tmp (set_joining false) s;
          s ← schedule_vthread tmp 0 true s;
          s ← do_join tmp thr s;
          Some (false, s)
      else s ← end_unjoined thr s; Some (false, s)
  end.

(** *** Disabling *)

(** What [do_disable] does when no child is left. *)
Definition disable_finish (thr : tid) (s : state) : option state :=
  x ← get thr s;
  match parent x with
  | None => vthread_reap thr s
  | Some p =>
      y ← get p s;
      if i_am_joining y && test_joinable y thr then
        s ← edit p (set_joining false) s;
        s ← (if i_have_ended y then Some s else schedule_vthread p 0 true s);
        do_join p thr s
      else Some s
  end.

(** The loop over the children of the thread; [disable] is the recursive call. *)
Definition disable_children (disable : tid -> state -> option (bool * state)) (fuel : nat) (thr : tid) (s : state) : option (bool * state) :=
  while_ fuel (fun fs => has_children thr (snd fs)) (fun fs : bool * state =>
    let '(flag, s) := fs in
    x ← get thr s;
    tmp ← set_begin (children x);
    y ← get tmp s;
    assert_ (bool_decide (parent y = Some thr));;
    s ← edit thr (set_joining false) s;
    '(f, s) ← disable tmp s;
    s ← vthread_reap tmp s;
    Some (flag || f, s)) (false, s).

(** The fuel bounds the depth of the tree and the number of children. *)
Fixpoint do_disable (fuel : nat) (thr mtch : tid) (s : state) : option (bool * state) :=
  match fuel with
  | O => None
  | S fuel' =>
      x ← get thr s;
      s ← scope_erase (parent_scope x) thr s;
      s ← edit thr (set_ended true) s;
      '(flag, s) ← disable_children (fun tmp => do_disable fuel' tmp mtch) fuel' thr s;
      s ← disable_finish thr s;
      Some (flag || bool_decide (thr = mtch), s)
  end.

(** The threads of the scope, one after the other; every pass takes a thread
    out of the scope. *)
Definition of_DISABLE (thr : tid) (scope : positive) (s : state) : option (bool * state) :=
  sc ← scopes s !! scope;
  '(disabled_myself_flag, s) ← while_ (size (scope_threads sc))
      (fun fs => match scopes (snd fs) !! scope with Some sc => negb (bool_decide (scope_threads sc = ∅)) | None => false end)
      (fun fs : bool * state =>
         let '(flag, s) := fs in
         sc ← scopes s !! scope;
         cur ← set_begin (scope_threads sc);
         '(f, s) ← do_disable (S (size (threads s))) cur thr s;
         Some (flag || f, s)) (false, s);
  Some (negb disabled_myself_flag, s).

Definition of_DISABLE_FORK (thr : tid) (s : state) : option (bool * state) :=
  x ← get thr s;
  assert_ (negb (i_am_joining x));;
  assert_ (bool_decide (children x = ∅));;
  s ← while_ (size (detached_children x)) (has_detached thr) (fun s =>
        x ← get thr s;
        child ← set_begin (detached_children x);
        y ← get child s;
        assert_ (bool_decide (parent y = Some thr));;
        '(res, s) ← do_disable (S (size (threads s))) child thr s;
        assert_ (negb res);;
        vthread_reap child s) s;
  Some (true, s).

(** *** Waiting *)

Definition of_WAIT_FORK (thr : tid) (s : state) : option (bool * state) :=
  x ← get thr s;
  assert_ (negb (i_am_in_function x));;
  assert_ (negb (i_am_joining x));;
  assert_ (negb (i_am_waiting x));;
  assert_ (bool_decide (children x = ∅));;
  if bool_decide (detached_children x = ∅) then Some (true, s)
  else s ← edit thr (set_waiting true) s; Some (false, s).

(** [next] is what [add_waiting_thread] of the event functor returns: the head
    of its list so far. *)
Definition of_WAIT (thr : tid) (next : option tid) (s : state) : option (bool * state) :=
  x ← get thr s;
  assert_ (negb (i_am_in_function x));;
  assert_ (negb (waiting_for_event x));;
  s ← edit thr (set_waiting_for_event true) s;
  s ← edit thr (set_wait_next next) s;
  Some (false, s).

(** The event functor wakes the threads on its list. *)
Fixpoint clear_waiting (fuel : nat) (cur : option tid) (s : state) : option state :=
  match cur with
  | None => Some s
  | Some t =>
      match fuel with
      | O => None
      | S fuel' =>
          x ← get t s;
          assert_ (waiting_for_event x);;
          s ← edit t (set_waiting_for_event false) s;
          clear_waiting fuel' (wait_next x) s
      end
  end.

Definition vthread_schedule_list (thr : tid) (s : state) : option state :=
  s ← clear_waiting (S (size (threads s))) (Some thr) s;
  schedule_vthread thr 0 false s.

(** *** Well-formedness *)

(** The links as functions of the store. *)
Definition par (m : gmap tid vthread_l) (c : tid) : option tid := m !! c ≫= parent.
Definition kids (m : gmap tid vthread_l) (t : tid) : gset tid := from_option children ∅ (m !! t).
Definition dkids (m : gmap tid vthread_l) (t : tid) : gset tid := from_option detached_children ∅ (m !! t).
Definition det (m : gmap tid vthread_l) (c : tid) : bool := from_option i_am_detached false (m !! c).
Definition ended (m : gmap tid vthread_l) (c : tid) : bool := from_option i_have_ended false (m !! c).

(** A thread that can still be the parent of others: it has not ended, or it is
    a zombie that its parent has yet to join, or it is just being disabled. *)
Definition alive (E : gset tid) (m : gmap tid vthread_l) (t : tid) : Prop :=
  exists x, m !! t = Some x /\ (t ∈ E \/ i_have_ended x = false \/ parent x <> None).

(** The members of one thread.  [E] are the threads that are being ended. *)
Record local_ok (E : gset tid) (m : gmap tid vthread_l) (t : tid) (x : vthread_l) : Prop := mk_local_ok {
  ok_ended : i_have_ended x = true -> pc x = None /\
    (t ∉ E -> children x = ∅ /\ i_am_joining x = false /\ (parent x <> None -> i_am_detached x = false));
  ok_orphan : i_have_ended x = false -> parent x = None -> i_am_detached x = false;
  ok_task : i_have_ended x = false -> task_func_children x ⊆ children x;
  ok_join : i_am_joining x = true ->
    is_scheduled x = false /\ waiting_for_event x = false /\ i_am_waiting x = false /\ children x <> ∅ /\
    (forall c, c ∈ children x -> c ∉ E -> ended m c = true -> test_joinable x c = false);
  ok_waiting : i_am_waiting x = true ->
    is_scheduled x = false /\ waiting_for_event x = false /\ detached_children x <> ∅;
  ok_next : wait_next x <> None -> waiting_for_event x = true \/ is_scheduled x = true;
  ok_event : waiting_for_event x = true -> is_scheduled x = false }.

(** The forest of threads. *)
Record wf_threads (E : gset tid) (m : gmap tid vthread_l) : Prop := mk_wf_threads {
  wf_kids : forall t c, c ∈ kids m t <-> par m c = Some t /\ det m c = false;
  wf_dkids : forall t c, alive E m t -> (c ∈ dkids m t <-> par m c = Some t /\ det m c = true);
  wf_alive : forall c p, par m c = Some p -> alive E m p;
  wf_local : forall t x, m !! t = Some x -> local_ok E m t x;
  wf_rank : exists rank : tid -> nat, forall c p, par m c = Some p -> (rank p < rank c)%nat }.

(** The threads of a scope are allocated and know their scope, which exists. *)
Record wf_scopes (E : gset tid) (s : state) : Prop := mk_wf_scopes {
  wf_scope_of : forall t x, threads s !! t = Some x -> is_Some (scopes s !! parent_scope x);
  wf_scope_threads : forall sc y t, scopes s !! sc = Some y -> t ∈ scope_threads y ->
    alive E (threads s) t /\ (exists x, threads s !! t = Some x /\ parent_scope x = sc) }.

Definition wfs (E : gset tid) (s : state) : Prop := wf_threads E (threads s) /\ wf_scopes E s.
Definition wf (s : state) : Prop := wfs ∅ s.

(** A thread that executes an instruction. *)
Definition running (s : state) (t : tid) (x : vthread_l) : Prop :=
  threads s !! t = Some x /\ i_have_ended x = false /\ i_am_joining x = false /\ i_am_waiting x = false /\
  waiting_for_event x = false /\ is_scheduled x = false.

(** ** Lemmas *)

(** *** Sets in order *)

Lemma elem_of_in_order X c : c ∈ in_order X <-> c ∈ X.
Proof. unfold in_order. rewrite merge_sort_Permutation. apply elem_of_elements. Qed.

Lemma set_begin_some X c : set_begin X = Some c -> c ∈ X.
Proof. unfold set_begin. intros H%head_Some_elem_of. by apply elem_of_in_order. Qed.

Lemma set_begin_ne X : X <> ∅ -> exists c, set_begin X = Some c /\ c ∈ X.
Proof.
  intros H. destruct (set_begin X) as [c|] eqn:E; [by exists c; eauto using set_begin_some|].
  unfold set_begin in E. apply head_None in E. exfalso. apply H. apply set_eq. intros c.
  rewrite <- elem_of_in_order, E. set_solver.
Qed.

(** *** The links under updates *)

Lemma par_insert m t x c : par (<[t := x]> m) c = if decide (c = t) then parent x else par m c.
Proof. unfold par. by case_decide as H; [rewrite H, lookup_insert_eq|rewrite lookup_insert_ne]. Qed.
Lemma kids_insert m t x c : kids (<[t := x]> m) c = if decide (c = t) then children x else kids m c.
Proof. unfold kids. by case_decide as H; [rewrite H, lookup_insert_eq|rewrite lookup_insert_ne]. Qed.
Lemma dkids_insert m t x c : dkids (<[t := x]> m) c = if decide (c = t) then detached_children x else dkids m c.
Proof. unfold dkids. by case_decide as H; [rewrite H, lookup_insert_eq|rewrite lookup_insert_ne]. Qed.
Lemma det_insert m t x c : det (<[t := x]> m) c = if decide (c = t) then i_am_detached x else det m c.
Proof. unfold det. by case_decide as H; [rewrite H, lookup_insert_eq|rewrite lookup_insert_ne]. Qed.
Lemma ended_insert m t x c : ended (<[t := x]> m) c = if decide (c = t) then i_have_ended x else ended m c.
Proof. unfold ended. by case_decide as H; [rewrite H, lookup_insert_eq|rewrite lookup_insert_ne]. Qed.

Lemma links_at m t x : m !! t = Some x ->
  par m t = parent x /\ kids m t = children x /\ dkids m t = detached_children x /\ det m t = i_am_detached x /\ ended m t = i_have_ended x.
Proof. intros H. unfold par, kids, dkids, det, ended. by rewrite H. Qed.

Lemma dkids_at m t x : m !! t = Some x -> dkids m t = detached_children x.
Proof. apply links_at. Qed.

Lemma alive_insert E m t x u :
  alive E (<[t := x]> m) u <->
  if decide (u = t) then (t ∈ E \/ i_have_ended x = false \/ parent x <> None) else alive E m u.
Proof.
  unfold alive. case_decide as H.
  - subst. rewrite lookup_insert_eq. split; [by intros (? & [= <-] & ?)|]. intros ?. by exists x.
  - by rewrite lookup_insert_ne.
Qed.

Lemma alive_at E m t x : m !! t = Some x -> alive E m t <-> t ∈ E \/ i_have_ended x = false \/ parent x <> None.
Proof. intros Hx. unfold alive. rewrite Hx. split; [intros (y & [= ->] & H); done|eauto]. Qed.

(** An update that leaves the links and the end of the thread alone. *)
Lemma wf_update E m t x x' :
  wf_threads E m -> m !! t = Some x ->
  parent x' = parent x -> children x' = children x -> detached_children x' = detached_children x ->
  i_am_detached x' = i_am_detached x -> i_have_ended x' = i_have_ended x ->
  local_ok E (<[t := x']> m) t x' -> wf_threads E (<[t := x']> m).
Proof.
  intros [W1 W2 W3 W4 W5] Hx E1 E2 E3 E4 E5 Hl. destruct (links_at _ _ _ Hx) as (P1 & P2 & P3 & P4 & P5).
  assert (Hp : forall c, par (<[t := x']> m) c = par m c) by (intros c; rewrite par_insert; case_decide; congruence).
  assert (Hk : forall c, kids (<[t := x']> m) c = kids m c) by (intros c; rewrite kids_insert; case_decide; congruence).
  assert (Hdk : forall c, dkids (<[t := x']> m) c = dkids m c) by (intros c; rewrite dkids_insert; case_decide; congruence).
  assert (Hd : forall c, det (<[t := x']> m) c = det m c) by (intros c; rewrite det_insert; case_decide; congruence).
  assert (He : forall c, ended (<[t := x']> m) c = ended m c) by (intros c; rewrite ended_insert; case_decide; congruence).
  assert (Ha : forall u, alive E (<[t := x']> m) u <-> alive E m u).
  { intros u. rewrite alive_insert. case_decide as Hu; [|done]. subst. by rewrite (alive_at _ _ _ _ Hx), E1, E5. }
  split.
  - intros u c. by rewrite Hk, Hp, Hd.
  - intros u c. rewrite Ha, Hdk, Hp, Hd. apply W2.
  - intros c p. rewrite Hp, Ha. apply W3.
  - intros u y [[<- <-]|[Hne Hy]]%lookup_insert_Some; [done|]. destruct (W4 u y Hy) as [L1 L2 L3 L4 L5 L6 L7]. split; try done.
    intros Hj. destruct (L4 Hj) as (? & ? & ? & ? & HL). split_and!; try done. intros c. rewrite He. apply HL.
  - destruct W5 as [r Hr]. exists r. intros c p. rewrite Hp. apply Hr.
Qed.

Lemma alive_mono E E' m u : E ⊆ E' -> alive E m u -> alive E' m u.
Proof. intros HE (x & Hx & H). exists x. split; [done|]. set_solver. Qed.

Lemma par_rank E m c p : wf_threads E m -> par m c = Some p -> c <> p.
Proof. intros [_ _ _ _ [r Hr]] H ->. specialize (Hr _ _ H). lia. Qed.

(** A thread ends: it joins the exceptions. *)
Lemma wf_end E m t x d :
  wf_threads E m -> m !! t = Some x -> alive E m t -> wf_threads ({[t]} ∪ E) (<[t := set_ended d x]> m).
Proof.
  intros [W1 W2 W3 W4 W5] Hx Hal. destruct (links_at _ _ _ Hx) as (P1 & P2 & P3 & P4 & P5).
  assert (Hp : forall c, par (<[t := set_ended d x]> m) c = par m c) by (intros c; rewrite par_insert; case_decide; by subst).
  assert (Hd : forall c, det (<[t := set_ended d x]> m) c = det m c) by (intros c; rewrite det_insert; case_decide; by subst).
  assert (Ha : forall u, alive ({[t]} ∪ E) (<[t := set_ended d x]> m) u <-> alive E m u).
  { intros u. rewrite alive_insert. case_decide as Hu; [subst; split; [done|]; intros _; left; set_solver|].
    unfold alive. split; intros (y & Hy & H); exists y; (split; [done|]); set_solver. }
  split.
  - intros u c. rewrite Hp, Hd, <- W1, kids_insert. case_decide; [subst; cbn; by rewrite P2|done].
  - intros u c. rewrite Ha, Hp, Hd. intros H. rewrite <- W2 by done. rewrite dkids_insert. case_decide; [subst; cbn; by rewrite P3|done].
  - intros c p. rewrite Hp, Ha. apply W3.
  - intros u y [[<- <-]|[Hne Hy]]%lookup_insert_Some.
    + destruct (W4 t x Hx) as [L1 L2 L3 L4 L5 L6 L7]. split; cbn; try done.
      * intros _. split; [done|]. intros []. set_solver.
      * intros Hj. destruct (L4 Hj) as (? & ? & ? & ? & HL). split_and!; try done. intros c Hc HE. rewrite ended_insert.
        rewrite decide_False by set_solver. intros He. by apply HL; [|set_solver|].
    + destruct (W4 u y Hy) as [L1 L2 L3 L4 L5 L6 L7]. split; try done.
      * intros He. destruct (L1 He) as [? HL]. split; [done|]. intros HE. apply HL. set_solver.
      * intros Hj. destruct (L4 Hj) as (? & ? & ? & ? & HL). split_and!; try done. intros c Hc HE. rewrite ended_insert.
        rewrite decide_False by set_solver. intros He. by apply HL; [|set_solver|].
  - destruct W5 as [r Hr]. exists r. intros c p. rewrite Hp. apply Hr.
Qed.

(** A child that runs becomes a detached child. *)
Lemma wf_detach E m t x c y :
  wf_threads E m -> m !! t = Some x -> m !! c = Some y -> c ∈ children x ->
  i_have_ended y = false -> i_am_joining x = false -> i_have_ended x = false -> c ∉ task_func_children x ->
  wf_threads E (<[t := set_detached_children (fun X => {[c]} ∪ X) (set_children (fun X => X ∖ {[c]}) x)]> (<[c := set_detached true y]> m)).
Proof.
  intros W Hx Hy Hc Hey Hj Hex Htask. set (x' := set_detached_children _ _). pose proof W as [W1 W2 W3 W4 W5].
  destruct (links_at _ _ _ Hx) as (P1 & P2 & P3 & P4 & P5), (links_at _ _ _ Hy) as (Q1 & Q2 & Q3 & Q4 & Q5).
  assert (Hpc : par m c = Some t /\ det m c = false) by (apply W1; by rewrite P2). destruct Hpc as [Hpc Hdc].
  pose proof (par_rank _ _ _ _ W Hpc) as Hne.
  set (m' := <[t := x']> _).
  assert (Hp : forall u, par m' u = par m u).
  { intros u. unfold m'. rewrite !par_insert. repeat case_decide; subst; congruence || done. }
  assert (Hk : forall u, kids m' u = kids m u ∖ {[c]}).
  { intros u. unfold m'. rewrite !kids_insert. repeat case_decide; subst; cbn; rewrite ?P2, ?Q2; [done| |].
    - apply set_eq. intros z. rewrite elem_of_difference, <- Q2. split; [|naive_solver]. intros Hz. split; [done|].
      intros ->%elem_of_singleton. apply W1 in Hz as [Hz _]. congruence.
    - apply set_eq. intros z. rewrite elem_of_difference. split; [|naive_solver]. intros Hz. split; [done|].
      intros ->%elem_of_singleton. apply W1 in Hz as [Hz _]. congruence. }
  assert (Hd : forall u, det m' u = if decide (u = c) then true else det m u).
  { intros u. unfold m'. rewrite !det_insert. repeat case_decide; subst; done || congruence. }
  assert (He : forall u, ended m' u = ended m u).
  { intros u. unfold m'. rewrite !ended_insert. repeat case_decide; subst; done || congruence. }
  assert (Ha : forall u, alive E m' u <-> alive E m u).
  { intros u. unfold m'. rewrite alive_insert. case_decide as Hu; [|rewrite alive_insert; case_decide as Hu'; [|done]].
    - rewrite Hu. by rewrite (alive_at _ _ _ _ Hx).
    - rewrite Hu'. by rewrite (alive_at _ _ _ _ Hy). }
  split.
  - intros u z. rewrite Hk, Hp, Hd, elem_of_difference, W1, elem_of_singleton. case_decide; [subst; naive_solver|naive_solver].
  - intros u z. rewrite Ha, Hp, Hd. intros Hau. unfold m'. rewrite !dkids_insert. case_decide as Hu; [|case_decide as Hu'].
    + subst u. cbn. rewrite elem_of_union, elem_of_singleton, <- P3, (W2 t) by done. case_decide; [subst; naive_solver|naive_solver].
    + subst u. cbn. rewrite <- Q3, (W2 c) by done. case_decide; [subst; naive_solver|naive_solver].
    + rewrite (W2 u) by done. case_decide; [subst; naive_solver|naive_solver].
  - intros u q. rewrite Hp, Ha. apply W3.
  - intros u z. unfold m'. intros [[<- <-]|[Hne1 [[<- <-]|[Hne2 Hz]]%lookup_insert_Some]]%lookup_insert_Some.
    + destruct (W4 t x Hx) as [L1 L2 L3 L4 L5 L6 L7]. split; cbn; try done; try congruence.
      * intros _. specialize (L3 Hex). set_solver.
      * intros Hw. destruct (L5 Hw) as (? & ? & ?). split_and!; try done. set_solver.
    + destruct (W4 c y Hy) as [L1 L2 L3 L4 L5 L6 L7]. split; cbn; try done; try congruence.
      intros Hjc. destruct (L4 Hjc) as (? & ? & ? & ? & HL). split_and!; try done. intros w. fold m'. rewrite He. apply HL.
    + destruct (W4 u z Hz) as [L1 L2 L3 L4 L5 L6 L7]. split; try done.
      intros Hju. destruct (L4 Hju) as (? & ? & ? & ? & HL). split_and!; try done. intros w. fold m'. rewrite He. apply HL.
  - destruct W5 as [r Hr]. exists r. intros u q. rewrite Hp. apply Hr.
Qed.

(** A new child. *)
Lemma wf_new_child E m t x c y x' :
  wf_threads E m -> m !! t = Some x -> m !! c = None -> i_have_ended x = false ->
  parent y = Some t -> children y = ∅ -> detached_children y = ∅ -> i_am_detached y = false -> i_have_ended y = false ->
  local_ok E m c y ->
  parent x' = parent x -> children x' = {[c]} ∪ children x -> detached_children x' = detached_children x ->
  i_am_detached x' = i_am_detached x -> i_have_ended x' = false ->
  local_ok E m t x' ->
  wf_threads E (<[t := x']> (<[c := y]> m)).
Proof.
  intros W Hx Hc Hex Y1 Y2 Y3 Y4 Y5 Ly X1 X2 X3 X4 X5 Lx. pose proof W as [W1 W2 W3 W4 W5].
  destruct (links_at _ _ _ Hx) as (P1 & P2 & P3 & P4 & P5).
  assert (Hne : c <> t) by congruence.
  assert (Hfresh : forall u, par m u <> Some c).
  { intros u Hu. destruct (W3 _ _ Hu) as (z & Hz & _). congruence. }
  assert (Hcp : par m c = None) by (unfold par; by rewrite Hc).
  set (m' := <[t := x']> _).
  assert (Hp : forall u, par m' u = if decide (u = c) then Some t else par m u).
  { intros u. unfold m'. rewrite !par_insert. repeat case_decide; subst; congruence || done. }
  assert (Hd : forall u, det m' u = if decide (u = c) then false else det m u).
  { intros u. unfold m'. rewrite !det_insert. repeat case_decide; subst; congruence || done. }
  assert (He : forall u, ended m' u = ended m u).
  { intros u. unfold m'. rewrite !ended_insert. repeat case_decide; subst; rewrite ?P5; try congruence; try done.
    unfold ended. rewrite Hc. done. }
  assert (Ha : forall u, u <> c -> alive E m' u <-> alive E m u).
  { intros u Hu. unfold m'. rewrite alive_insert. case_decide as Hut; [|rewrite alive_insert; by rewrite decide_False].
    rewrite Hut, (alive_at _ _ _ _ Hx). naive_solver. }
  assert (Hloc : forall u z, local_ok E m u z -> local_ok E m' u z).
  { intros u z [L1 L2 L3 L4 L5 L6 L7]. split; try done. intros Hj. destruct (L4 Hj) as (? & ? & ? & ? & HL). split_and!; try done.
    intros w. rewrite He. apply HL. }
  split.
  - intros u z. rewrite Hp, Hd. unfold m'. rewrite !kids_insert. case_decide as Hu; [|case_decide as Hu'].
    + subst u. rewrite X2, elem_of_union, elem_of_singleton, <- P2, W1. case_decide; [subst; naive_solver|naive_solver].
    + subst u. rewrite Y2. case_decide; [subst; set_solver|]. split; [set_solver|]. intros [Hbad%Hfresh _]. done.
    + rewrite W1. case_decide; [subst; naive_solver|done].
  - intros u z Hau. destruct (decide (u = c)) as [->|Hu].
    + unfold m'. rewrite !dkids_insert, decide_False, decide_True, Y3, Hp, Hd by done.
      case_decide; [naive_solver|]. split; [set_solver|]. intros [Hbad%Hfresh _]. done.
    + rewrite Ha in Hau by done. rewrite Hp, Hd. unfold m'. rewrite !dkids_insert. case_decide as Hu1; [subst u|].
      * rewrite X3, <- P3, (W2 t) by done. case_decide; [subst; naive_solver|done].
      * rewrite decide_False by done. rewrite (W2 u) by done. case_decide; [subst; naive_solver|done].
  - intros u q. rewrite Hp. case_decide as Hu.
    + intros [= <-]. apply (Ha t); [done|]. apply (alive_at _ _ _ _ Hx). auto.
    + intros H. apply Ha; [|by apply (W3 u)]. intros ->. by apply (Hfresh u).
  - intros u z. unfold m'. intros [[<- <-]|[Hne1 [[<- <-]|[Hne2 Hz]]%lookup_insert_Some]]%lookup_insert_Some; apply Hloc; auto.
  - destruct W5 as [r Hr]. exists (fun u => if decide (u = c) then S (r t) else r u). intros u q. rewrite Hp.
    case_decide as Hu.
    + intros [= <-]. rewrite decide_False by done. lia.
    + intros H. rewrite decide_False by (intros ->; by apply (Hfresh u)). by apply Hr.
Qed.

(** [%end] releases a detached child, or leaves its parent: the link is cut. *)
Lemma wf_release E m t x c y x' :
  wf_threads E m -> m !! t = Some x -> m !! c = Some y -> alive E m t ->
  c ∈ detached_children x -> (i_have_ended y = false \/ c ∈ E) ->
  parent x' = parent x -> children x' = children x -> detached_children x' = detached_children x ∖ {[c]} ->
  i_am_detached x' = i_am_detached x -> i_have_ended x' = i_have_ended x ->
  local_ok E m t x' ->
  wf_threads E (<[t := x']> (<[c := set_detached false (set_parent None y)]> m)).
Proof.
  intros W Hx Hy Hat Hc Hey X1 X2 X3 X4 X5 Lx. pose proof W as [W1 W2 W3 W4 W5].
  destruct (links_at _ _ _ Hx) as (P1 & P2 & P3 & P4 & P5), (links_at _ _ _ Hy) as (Q1 & Q2 & Q3 & Q4 & Q5).
  assert (Hpc : par m c = Some t /\ det m c = true) by (apply W2; [done|by rewrite P3]). destruct Hpc as [Hpc Hdc].
  pose proof (par_rank _ _ _ _ W Hpc) as Hne.
  set (m' := <[t := x']> _).
  assert (Hp : forall u, par m' u = if decide (u = c) then None else par m u).
  { intros u. unfold m'. rewrite !par_insert. repeat case_decide; subst; congruence || done. }
  assert (Hk : forall u, kids m' u = kids m u).
  { intros u. unfold m'. rewrite !kids_insert. repeat case_decide; subst; congruence || done. }
  assert (Hd : forall u, det m' u = if decide (u = c) then false else det m u).
  { intros u. unfold m'. rewrite !det_insert. repeat case_decide; subst; congruence || done. }
  assert (He : forall u, ended m' u = ended m u).
  { intros u. unfold m'. rewrite !ended_insert. repeat case_decide; subst; congruence || done. }
  assert (Ha : forall u, alive E m' u <-> alive E m u).
  { intros u. unfold m'. rewrite alive_insert. case_decide as Hu; [|rewrite alive_insert; case_decide as Hu'; [|done]].
    - rewrite Hu, (alive_at _ _ _ _ Hx). by rewrite X1, X5.
    - rewrite Hu', (alive_at _ _ _ _ Hy). cbn. naive_solver. }
  assert (Hloc : forall u z, local_ok E m u z -> local_ok E m' u z).
  { intros u z [L1 L2 L3 L4 L5 L6 L7]. split; try done. intros Hj. destruct (L4 Hj) as (? & ? & ? & ? & HL). split_and!; try done.
    intros w. rewrite He. apply HL. }
  split.
  - intros u z. rewrite Hk, Hp, Hd, W1. case_decide as Hz; [|done]. rewrite Hz, Hdc. split; [by intros [_ ?]|by intros [? _]].
  - intros u z. rewrite Ha, Hp, Hd. intros Hau. unfold m'. rewrite !dkids_insert. case_decide as Hu; [|case_decide as Hu'].
    + subst u. rewrite X3, elem_of_difference, elem_of_singleton, <- P3, (W2 t) by done. case_decide as Hz; [|tauto].
      split; [by intros [_ []]|by intros [? _]].
    + subst u. cbn. rewrite <- Q3, (W2 c) by done. case_decide as Hz; [|done]. rewrite Hz. split; [intros [? _]; congruence|by intros [? _]].
    + rewrite (W2 u) by done. case_decide as Hz; [|done]. rewrite Hz. split; [intros [? _]; congruence|by intros [? _]].
  - intros u q. rewrite Hp, Ha. case_decide; [done|]. apply W3.
  - intros u z. unfold m'. intros [[<- <-]|[Hne1 [[<- <-]|[Hne2 Hz]]%lookup_insert_Some]]%lookup_insert_Some; apply Hloc; auto.
    destruct (W4 c y Hy) as [L1 L2 L3 L4 L5 L6 L7]. split; cbn; try done. intros H. destruct (L1 H) as [? HL]. split; [done|].
    intros HE. destruct (HL HE) as (? & ? & _). done.
  - destruct W5 as [r Hr]. exists r. intros u q. rewrite Hp. case_decide; [done|]. apply Hr.
Qed.

Definition orphan (y : vthread_l) : vthread_l := set_detached false (set_parent None y).
Definition remove_child (t : tid) (detached : bool) (z : vthread_l) : vthread_l :=
  if detached then set_detached_children (fun X => X ∖ {[t]}) z else set_children (fun X => X ∖ {[t]}) z.

(** What [vthread_reap] makes of the store: the detached children of the thread
    are orphans, its parent has forgotten it, and it is freed or a zombie. *)
Definition reaped (m : gmap tid vthread_l) (t : tid) (x : vthread_l) (m' : gmap tid vthread_l) : Prop :=
  (forall u, u <> t -> m' !! u =
     if decide (u ∈ detached_children x) then orphan <$> m !! u
     else if decide (parent x = Some u) then remove_child t (i_am_detached x) <$> m !! u else m !! u) /\
  (m' !! t = None \/ m' !! t = Some (set_pc None (set_parent None x))).

Section reap.
Context (E : gset tid) (m m' : gmap tid vthread_l) (t : tid) (x : vthread_l).
Context (W : wf_threads E m) (Hx : m !! t = Some x) (Hal : alive E m t) (Hend : i_have_ended x = true) (Hch : children x = ∅).
Context (Hpar : forall p z, parent x = Some p -> m !! p = Some z ->
  if i_am_detached x then i_am_waiting z = false
  else (i_am_joining z = false /\ (i_have_ended z = false -> t ∉ task_func_children z))).
Context (Hre : reaped m t x m').

Lemma reap_parent_not_child u : parent x = Some u -> (u ∉ detached_children x) /\ u <> t.
Proof.
  intros Hu. assert (Hpt : par m t = Some u) by (unfold par; by rewrite Hx). pose proof W as [_ W2 _ _ [r Hr]].
  split; [|intros ->; by apply (par_rank _ _ _ _ W Hpt)]. intros Hin.
  assert (Hd : u ∈ dkids m t) by (by rewrite (proj1 (proj2 (proj2 (links_at _ _ _ Hx))))).
  apply W2 in Hd as [Hq _]; [|done].
  pose proof (Hr _ _ Hpt). pose proof (Hr _ _ Hq). lia.
Qed.

Lemma reap_par u : u <> t -> par m' u = if decide (u ∈ detached_children x) then None else par m u.
Proof.
  intros Hu. unfold par. rewrite (proj1 Hre u Hu). repeat case_decide; try done; destruct (m !! u); try done.
  cbn. unfold remove_child. by destruct (i_am_detached x).
Qed.

Lemma reap_det u : u <> t -> det m' u = if decide (u ∈ detached_children x) then false else det m u.
Proof.
  intros Hu. unfold det. rewrite (proj1 Hre u Hu). repeat case_decide; try done; destruct (m !! u); try done.
  cbn. unfold remove_child. by destruct (i_am_detached x).
Qed.

Lemma reap_ended u : u <> t -> ended m' u = ended m u.
Proof.
  intros Hu. unfold ended. rewrite (proj1 Hre u Hu). repeat case_decide; try done; destruct (m !! u); try done.
  cbn. unfold remove_child. by destruct (i_am_detached x).
Qed.

Lemma reap_t : par m' t = None /\ kids m' t = ∅ /\ ~ alive (E ∖ {[t]}) m' t.
Proof.
  unfold par, kids. destruct (proj2 Hre) as [Ht|Ht].
  - rewrite Ht. split_and!; [done..|]. intros (z & Hz & _). congruence.
  - pose proof (alive_at (E ∖ {[t]}) m' t _ Ht) as Ha. rewrite Ht. split_and!; [done|done|]. rewrite Ha. cbn. rewrite Hend.
    intros [[_ ?]%elem_of_difference|[?|?]]; [set_solver|done..].
Qed.

Lemma reap_kids u : u <> t -> kids m' u = kids m u ∖ {[t]}.
Proof.
  intros Hu. unfold kids. rewrite (proj1 Hre u Hu).
  assert (Hnot : ~ (parent x = Some u /\ i_am_detached x = false) -> from_option children ∅ (m !! u) = from_option children ∅ (m !! u) ∖ {[t]}).
  { intros Hn. pose proof W as [W1 _ _ _ _]. apply set_eq. intros c. rewrite elem_of_difference, elem_of_singleton.
    split; [|tauto]. intros Hc. split; [done|]. intros ->. apply Hn.
    change (t ∈ kids m u) in Hc. apply W1 in Hc as [Hp Hd]. unfold par, det in Hp, Hd. by rewrite Hx in Hp, Hd. }
  case_decide as Hd.
  - rewrite <- Hnot; [by destruct (m !! u)|]. intros [Hp _]. by apply reap_parent_not_child in Hp as [? _].
  - case_decide as Hp; [|by apply Hnot; tauto]. destruct (i_am_detached x) eqn:Edx.
    + rewrite <- Hnot by naive_solver. unfold remove_child. by destruct (m !! u).
    + unfold remove_child. destruct (m !! u); cbn; [done|set_solver].
Qed.

Lemma reap_dkids u : u <> t -> alive E m u -> dkids m' u = dkids m u ∖ {[t]}.
Proof.
  intros Hu Hau. unfold dkids. rewrite (proj1 Hre u Hu).
  assert (Hnot : ~ (parent x = Some u /\ i_am_detached x = true) -> from_option detached_children ∅ (m !! u) = from_option detached_children ∅ (m !! u) ∖ {[t]}).
  { intros Hn. pose proof W as [_ W2 _ _ _]. apply set_eq. intros c. rewrite elem_of_difference, elem_of_singleton.
    split; [|tauto]. intros Hc. split; [done|]. intros ->. apply Hn.
    change (t ∈ dkids m u) in Hc. apply W2 in Hc as [Hp Hd]; [|done]. unfold par, det in Hp, Hd. by rewrite Hx in Hp, Hd. }
  case_decide as Hd.
  - rewrite <- Hnot; [by destruct (m !! u)|]. intros [Hp _]. by apply reap_parent_not_child in Hp as [? _].
  - case_decide as Hp; [|by apply Hnot; tauto]. destruct (i_am_detached x) eqn:Edx.
    + unfold remove_child. destruct (m !! u); cbn; [done|set_solver].
    + rewrite <- Hnot by naive_solver. unfold remove_child. by destruct (m !! u).
Qed.

Lemma reap_detached_child u : u ∈ detached_children x -> par m u = Some t /\ det m u = true.
Proof.
  intros H. pose proof W as [_ W2 _ _ _]. apply W2; [done|]. by rewrite (dkids_at _ _ _ Hx).
Qed.

Lemma reap_no_child u : par m u = Some t -> u ∈ detached_children x.
Proof.
  intros H. pose proof W as [W1 W2 _ _ _]. destruct (links_at _ _ _ Hx) as (_ & K & D & _). rewrite <- D. destruct (det m u) eqn:Ed.
  - by apply W2.
  - assert (u ∈ kids m t) as Hk by (by apply W1). rewrite K, Hch in Hk. set_solver.
Qed.

Lemma reap_alive u : u <> t -> alive (E ∖ {[t]}) m' u <-> alive E m u.
Proof.
  intros Hu. unfold alive. rewrite (proj1 Hre u Hu). pose proof W as [_ _ _ W4 _].
  assert (HE : u ∈ E ∖ {[t]} <-> u ∈ E) by set_solver. setoid_rewrite HE. case_decide as Hd.
  - destruct (reap_detached_child u Hd) as [Hp Hdet]. unfold par, det in Hp, Hdet.
    destruct (m !! u) as [y|] eqn:Ey; [|done]. cbn in Hp, Hdet |- *. destruct (W4 u y Ey) as [L1 _ _ _ _ _ _].
    split; intros (z & [= <-] & H); eexists; (split; [reflexivity|]); cbn in *; [naive_solver|].
    destruct H as [H|[H|H]]; auto. destruct (decide (u ∈ E)); [by left|]. destruct (i_have_ended y) eqn:Ee; [|auto].
    destruct (L1 eq_refl) as [_ HL]. destruct (HL n) as (_ & _ & Hf). rewrite Hf in Hdet by done. done.
  - case_decide; [|done]. destruct (m !! u) as [y|]; [|split; by intros (? & ? & _)]. cbn.
    assert (Hsame : i_have_ended (remove_child t (i_am_detached x) y) = i_have_ended y /\ parent (remove_child t (i_am_detached x) y) = parent y)
      by (unfold remove_child; by destruct (i_am_detached x)). destruct Hsame as [S1 S2].
    split; intros (z & [= <-] & H'); eexists; (split; [reflexivity|]); rewrite ?S1, ?S2 in *; done.
Qed.

Lemma reap_local u z : u <> t -> m' !! u = Some z -> local_ok (E ∖ {[t]}) m' u z.
Proof.
  intros Hu Hz. pose proof W as [W1 _ _ W4 _]. rewrite (proj1 Hre u Hu) in Hz.
  assert (Hloc : forall y, m !! u = Some y -> local_ok (E ∖ {[t]}) m' u (set_children (fun X => X ∖ {[t]}) y) \/ t ∈ children y).
  { intros y Hy. destruct (decide (t ∈ children y)) as [|Hn]; [by right|left].
    destruct (W4 u y Hy) as [L1 L2 L3 L4 L5 L6 L7]. assert (Ek : children y ∖ {[t]} = children y) by set_solver.
    split; cbn; try done.
    - intros He. destruct (L1 He) as [? HL]. split; [done|]. intros HE. rewrite Ek. apply HL. set_solver.
    - rewrite Ek. done.
    - intros Hj. destruct (L4 Hj) as (? & ? & ? & ? & HL). rewrite Ek. split_and!; try done. intros c Hc HE.
      assert (c <> t) by (intros ->; done). rewrite reap_ended by done. intros He.
      apply (HL c Hc); [set_solver|done]. }
  assert (Hid : forall y, t ∉ children y -> set_children (fun X => X ∖ {[t]}) y = y).
  { intros [] Hn. cbn in Hn. unfold set_children. cbn. f_equal. set_solver. }
  case_decide as Hd; [|case_decide as Hp].
  - destruct (m !! u) as [y|] eqn:Ey; [|done]. injection Hz as <-.
    destruct (reap_detached_child u Hd) as [Hpu Hdu]. unfold par, det in Hpu, Hdu. rewrite Ey in Hpu, Hdu. cbn in Hpu, Hdu.
    assert (Hn : t ∉ children y).
    { intros Hin. assert (t ∈ kids m u) as [Hq _]%W1 by (unfold kids; by rewrite Ey).
      unfold par in Hq. rewrite Hx in Hq. by apply (reap_parent_not_child u) in Hq as [? _]. }
    destruct (Hloc y eq_refl) as [L|]; [|done]. rewrite (Hid y Hn) in L. destruct L as [L1 L2 L3 L4 L5 L6 L7]. split; cbn; try done.
    intros He. destruct (L1 He) as [? HL]. split; [done|]. intros HE. destruct (HL HE) as (? & ? & _). done.
  - destruct (m !! u) as [y|] eqn:Ey; [|done]. injection Hz as <-. unfold remove_child.
    specialize (Hpar u y Hp Ey). destruct (i_am_detached x) eqn:Edx.
    + assert (Hn : t ∉ children y).
      { intros Hin. assert (t ∈ kids m u) as [_ Hq]%W1 by (unfold kids; by rewrite Ey).
        unfold det in Hq. rewrite Hx in Hq. cbn in Hq. congruence. }
      destruct (Hloc y eq_refl) as [L|]; [|done]. rewrite (Hid y Hn) in L. destruct L as [L1 L2 L3 L4 L5 L6 L7]. split; cbn; try done.
      intros Hw. congruence.
    + destruct (W4 u y Ey) as [L1 L2 L3 L4 L5 L6 L7]. split; cbn; try done.
      * intros He. destruct (L1 He) as [? HL]. split; [done|]. intros HE. destruct (HL ltac:(set_solver)) as (-> & ? & ?). split; [set_solver|done].
      * intros He. specialize (L3 He). pose proof (proj2 Hpar He). set_solver.
      * intros Hj. destruct Hpar. congruence.
  - destruct (decide (t ∈ children z)) as [Hin|Hn].
    + assert (t ∈ kids m u) as [Hq _]%W1 by (unfold kids; by rewrite Hz). unfold par in Hq. by rewrite Hx in Hq.
    + destruct (Hloc z Hz) as [L|]; [|done]. by rewrite (Hid z Hn) in L.
Qed.

Lemma wf_reap : wf_threads (E ∖ {[t]}) m'.
Proof.
  pose proof W as [W1 W2 W3 W4 W5]. destruct reap_t as (Tp & Tk & Ta).
  split.
  - intros u c. destruct (decide (u = t)) as [->|Hu].
    + rewrite Tk. split; [set_solver|]. intros [Hp _]. destruct (decide (c = t)) as [->|Hc]; [congruence|].
      rewrite reap_par in Hp by done. case_decide as Hd; [done|]. by apply reap_no_child in Hp.
    + rewrite reap_kids by done. rewrite elem_of_difference, elem_of_singleton, W1. destruct (decide (c = t)) as [->|Hc].
      * rewrite Tp. split; [tauto|]. by intros [? _].
      * rewrite reap_par, reap_det by done. case_decide as Hd; [|tauto]. destruct (reap_detached_child c Hd).
        split; [intros [[? ?] _]; congruence|by intros [? _]].
  - intros u c Hau. destruct (decide (u = t)) as [->|Hu]; [done|]. apply reap_alive in Hau; [|done].
    rewrite reap_dkids by done. rewrite elem_of_difference, elem_of_singleton, W2 by done. destruct (decide (c = t)) as [->|Hc].
    + rewrite Tp. split; [tauto|]. by intros [? _].
    + rewrite reap_par, reap_det by done. case_decide as Hd; [|tauto]. destruct (reap_detached_child c Hd).
      split; [intros [[? ?] _]; congruence|by intros [? _]].
  - intros c u Hp. destruct (decide (c = t)) as [->|Hc]; [congruence|]. rewrite reap_par in Hp by done.
    case_decide as Hd; [done|]. assert (u <> t) by (intros ->; by apply reap_no_child in Hp). apply reap_alive; [done|]. by apply (W3 c).
  - intros u z Hz. destruct (decide (u = t)) as [->|Hu]; [|by apply reap_local].
    destruct (proj2 Hre) as [Ht|Ht]; rewrite Ht in Hz; [done|]. injection Hz as <-.
    destruct (W4 t x Hx) as [L1 L2 L3 L4 L5 L6 L7]. split; cbn; try done.
    + intros _. split; [done|]. intros _. split; [done|]. split; [|done]. destruct (i_am_joining x) eqn:Ej; [|done].
      destruct (L4 eq_refl) as (_ & _ & _ & ? & _). done.
    + congruence.
    + intros Hj. destruct (L4 Hj) as (_ & _ & _ & ? & _). done.
  - destruct W5 as [r Hr]. exists r. intros c u Hp. destruct (decide (c = t)) as [->|Hc]; [congruence|].
    rewrite reap_par in Hp by done. case_decide; [done|]. by apply Hr.
Qed.
End reap.

(** *** The operations return *)

Lemma get_state s t x : threads s !! t = Some x -> get t s = Some x.
Proof. done. Qed.

Lemma edit_returns t x f s : threads s !! t = Some x -> edit t f s = Some (put t (f x) s).
Proof. intros H. unfold edit, get. by rewrite H. Qed.

Lemma assert_bool_decide {A} (P : Prop) `{Decision P} (k : unit -> option A) : P -> (assert_ (bool_decide P) ≫= k) = k tt.
Proof. intros HP. by rewrite bool_decide_eq_true_2. Qed.

(** Editing every thread of a list. *)
Lemma for_each_edit (l : list tid) (body : tid -> state -> option state) (f : vthread_l -> vthread_l) s :
  NoDup l ->
  (forall c s', c ∈ l -> threads s' !! c = threads s !! c -> exists y, threads s !! c = Some y /\ body c s' = Some (put c (f y) s')) ->
  exists m', for_each l body s = Some (with_threads (fun _ => m') s) /\
    forall u, m' !! u = if decide (u ∈ l) then f <$> threads s !! u else threads s !! u.
Proof.
  revert s. induction l as [|c l IH]; intros s Hnd Hb; cbn [for_each].
  - exists (threads s). split; [by destruct s|]. intros u. by rewrite decide_False by set_solver.
  - apply NoDup_cons in Hnd as [Hc Hnd]. destruct (Hb c s ltac:(set_solver) eq_refl) as (y & Hy & ->). cbn [mbind option_bind].
    destruct (IH (put c (f y) s) Hnd) as (m' & -> & Hm').
    + intros u s' Hu Hs'. cbn in Hs' |- *. rewrite lookup_insert_ne in Hs' |- * by (intros ->; done). apply Hb; [set_solver|done].
    + exists m'. split; [done|]. intros u. rewrite Hm'. cbn. destruct (decide (u = c)) as [->|Hu].
      * rewrite decide_False, decide_True by set_solver. by rewrite lookup_insert_eq, Hy.
      * rewrite lookup_insert_ne by done. repeat case_decide; try done; set_solver.
Qed.

Lemma in_order_NoDup X : NoDup (in_order X).
Proof. unfold in_order. rewrite merge_sort_Permutation. apply NoDup_elements. Qed.

Lemma in_order_empty : in_order ∅ = [].
Proof. done. Qed.

(** The scopes with a thread taken out of one of them. *)
Definition without (sc : positive) (t : tid) (ss : gmap positive scope_s) : gmap positive scope_s :=
  alter (fun x => mk_scope (is_automatic x) (get_type_code x) (scope_threads x ∖ {[t]})) sc ss.

Lemma scope_erase_returns sc t s :
  is_Some (scopes s !! sc) -> scope_erase sc t s = Some (mk_state (threads s) (without sc t (scopes s)) (stacked s) (calls s)).
Proof.
  intros [y Hy]. unfold scope_erase. rewrite Hy. cbn. do 2 f_equal. unfold without. apply map_eq. intros i.
  destruct (decide (i = sc)) as [->|]; [by rewrite lookup_insert_eq, lookup_alter_eq, Hy|by rewrite lookup_insert_ne, lookup_alter_ne].
Qed.

Lemma vthread_reap_returns E t x s :
  wf_threads E (threads s) -> threads s !! t = Some x -> alive E (threads s) t -> i_have_ended x = true -> children x = ∅ ->
  is_Some (scopes s !! parent_scope x) ->
  returns (vthread_reap t s) (fun s' =>
    reaped (threads s) t x (threads s') /\ scopes s' = without (parent_scope x) t (scopes s) /\ stacked s' = stacked s /\
    (calls s' = calls s \/ calls s' = CallDelThr t :: calls s) /\
    (is_scheduled x || waiting_for_event x || delay_delete x = false -> threads s' !! t = None)).
Proof.
  intros W Hx Hal Hend Hch Hsc. pose proof W as [W1 W2 W3 W4 W5]. unfold vthread_reap.
  rewrite (get_state _ _ _ Hx). cbn [mbind option_bind]. rewrite Hch, in_order_empty. cbn [mbind option_bind for_each].
  assert (Hdet : forall c, c ∈ detached_children x -> exists y, threads s !! c = Some y /\ parent y = Some t /\ i_am_detached y = true).
  { intros c Hc. destruct (reap_detached_child E (threads s) t x W Hx Hal c Hc) as [Hp Hd]. unfold par, det in Hp, Hd.
    destruct (threads s !! c) as [y|]; [|done]. by exists y. }
  destruct (for_each_edit (in_order (detached_children x)) (fun child s =>
        y ← get child s; assert_ (bool_decide (parent y = Some t));; assert_ (i_am_detached y);;
        edit child (fun y => set_detached false (set_parent None y)) s) orphan s (in_order_NoDup _)) as (m1 & -> & Hm1).
  { intros c s' Hc%elem_of_in_order Hs'. destruct (Hdet c Hc) as (y & Hy & Hp & Hd). exists y. split; [done|].
    rewrite Hy in Hs'. rewrite (get_state _ _ _ Hs'). cbn [mbind option_bind]. rewrite assert_bool_decide, Hd by done. cbn.
    by rewrite (edit_returns _ _ _ _ Hs'). }
  cbn [mbind option_bind].
  assert (Hm1' : forall u, m1 !! u = if decide (u ∈ detached_children x) then orphan <$> threads s !! u else threads s !! u).
  { intros u. rewrite Hm1. destruct (decide (u ∈ in_order _)) as [Hi|Hi]; rewrite elem_of_in_order in Hi; [by rewrite decide_True|by rewrite decide_False]. }
  clear Hm1. set (s1 := with_threads _ s). set (finish := fun s2 : state => _ : option state).
  assert (Hnt : t ∉ detached_children x).
  { intros Hc. destruct (reap_detached_child E (threads s) t x W Hx Hal t Hc) as [Hp _]. by apply (par_rank _ _ _ _ W Hp). }
  assert (Hpar : exists m2, match parent x with
      | None => Some s1
      | Some p => y ← get p s1;
          if i_am_detached x then
            assert_ (bool_decide (t ∈ detached_children y));; edit p (set_detached_children (fun X => X ∖ {[t]})) s1
          else assert_ (bool_decide (t ∈ children y));; edit p (set_children (fun X => X ∖ {[t]})) s1
      end = Some (with_threads (fun _ => m2) s) /\ m2 !! t = Some x /\
      forall u, u <> t -> m2 !! u = if decide (u ∈ detached_children x) then orphan <$> threads s !! u
        else if decide (parent x = Some u) then remove_child t (i_am_detached x) <$> threads s !! u else threads s !! u).
  { destruct (parent x) as [p|] eqn:Ep.
    2:{ exists m1. split; [done|]. split; [by rewrite Hm1', decide_False|]. intros u _. rewrite Hm1'. by repeat case_decide. }
    destruct (reap_parent_not_child E (threads s) t x W Hx Hal p Ep) as [Hpd Hpt].
    assert (Hpp : par (threads s) t = Some p) by (unfold par; by rewrite Hx).
    destruct (W3 _ _ Hpp) as (y & Hy & Hya). assert (Hs1 : threads s1 !! p = Some y) by (cbn; by rewrite Hm1', decide_False).
    rewrite (get_state _ _ _ Hs1). cbn [mbind option_bind].
    assert (Hmem : if i_am_detached x then t ∈ detached_children y else t ∈ children y).
    { destruct (links_at _ _ _ Hy) as (_ & K & D & _), (links_at _ _ _ Hx) as (_ & _ & _ & Q & _).
      destruct (i_am_detached x) eqn:Ed; [rewrite <- D; apply W2; [by exists y|done]|rewrite <- K; by apply W1]. }
    exists (<[p := remove_child t (i_am_detached x) y]> m1).
    split; [destruct (i_am_detached x); rewrite assert_bool_decide by done; by rewrite (edit_returns _ _ _ _ Hs1)|].
    split; [by rewrite lookup_insert_ne, Hm1', decide_False|]. intros u Hu. destruct (decide (u = p)) as [->|Hup].
    - by rewrite lookup_insert_eq, decide_False, decide_True, Hy by done.
    - rewrite lookup_insert_ne, Hm1' by done. repeat case_decide; try done. congruence. }
  destruct Hpar as (m2 & -> & Hm2t & Hm2). cbn [mbind option_bind]. subst finish. cbv beta.
  rewrite (edit_returns t x) by done. cbn [mbind option_bind]. rewrite scope_erase_returns by done. cbn [mbind option_bind].
  rewrite (edit_returns t (set_parent None x)) by (cbn; apply lookup_insert_eq). cbn [mbind option_bind].
  rewrite (get_state _ t (set_pc None (set_parent None x))) by (cbn; apply lookup_insert_eq).
  cbn [mbind option_bind put with_threads threads scopes stacked calls is_scheduled waiting_for_event children wait_next delay_delete set_pc set_parent].
  assert (Hrest : forall m4, (m4 !! t = None \/ m4 !! t = Some (set_pc None (set_parent None x))) ->
    (forall u, u <> t -> m4 !! u = m2 !! u) -> reaped (threads s) t x m4).
  { intros m4 H1 H2. split; [|done]. intros u Hu. rewrite H2 by done. by apply Hm2. }
  destruct (negb (is_scheduled x) && negb (waiting_for_event x)) eqn:Esw.
  - apply andb_true_iff in Esw as [E1%negb_true_iff E2%negb_true_iff].
    rewrite assert_bool_decide by done. rewrite assert_bool_decide.
    2:{ destruct (W4 t x Hx) as [_ _ _ _ _ L6 _]. destruct (wait_next x); [|done]. destruct L6; [done|congruence..]. }
    destruct (delay_delete x).
    + apply returns_ret. cbn. split_and!; [|done|done|by right|by rewrite E1, E2]. apply Hrest; [right; apply lookup_insert_eq|].
      intros u Hu. by rewrite !lookup_insert_ne.
    + unfold vthread_delete. rewrite (get_state _ t (set_pc None (set_parent None x))) by (cbn; apply lookup_insert_eq).
      apply returns_ret. cbn. split_and!; [|done|done|by left|intros _; apply lookup_delete_eq]. apply Hrest; [left; apply lookup_delete_eq|].
      intros u Hu. by rewrite lookup_delete_ne, !lookup_insert_ne.
  - apply returns_ret. cbn. split_and!; [|done|done|by left|by destruct (is_scheduled x), (waiting_for_event x)]. apply Hrest; [right; apply lookup_insert_eq|].
    intros u Hu. by rewrite !lookup_insert_ne.
Qed.

(** *** State-level preservation *)

Lemma scopes_put E E' s t x x' :
  wf_scopes E s -> threads s !! t = Some x -> parent_scope x' = parent_scope x ->
  (forall u, alive E (threads s) u -> alive E' (<[t := x']> (threads s)) u) -> wf_scopes E' (put t x' s).
Proof.
  intros [S1 S2] Hx Hp Ha. split.
  - intros u y Hu. cbn in Hu |- *. apply lookup_insert_Some in Hu as [[<- <-]|[Hne Hy]]; [rewrite Hp|]; eauto.
  - cbn. intros sc y u Hsc Hu. destruct (S2 sc y u Hsc Hu) as [Hau (z & Hz & Hzp)]. split; [by apply Ha|].
    destruct (decide (u = t)) as [->|Hne].
    + exists x'. rewrite lookup_insert_eq. split; [done|]. congruence.
    + exists z. by rewrite lookup_insert_ne.
Qed.

Lemma wfs_put E s t x x' :
  wfs E s -> threads s !! t = Some x ->
  parent x' = parent x -> parent_scope x' = parent_scope x -> children x' = children x -> detached_children x' = detached_children x ->
  i_am_detached x' = i_am_detached x -> i_have_ended x' = i_have_ended x ->
  (local_ok E (<[t := x']> (threads s)) t x -> local_ok E (<[t := x']> (threads s)) t x') -> wfs E (put t x' s).
Proof.
  intros [W S] Hx E1 E2 E3 E4 E5 E6 Hl. split.
  - eapply wf_update; try done. apply Hl. destruct W as [_ _ _ W4 _]. destruct (W4 t x Hx) as [L1 L2 L3 L4 L5 L6 L7]. split; try done.
    intros Hj. destruct (L4 Hj) as (? & ? & ? & ? & HL). split_and!; try done. intros c Hc HE. rewrite ended_insert.
    case_decide as Hct; [|by apply HL]. rewrite E6. intros He. apply HL; [done..|]. rewrite Hct. unfold ended. by rewrite Hx.
  - eapply scopes_put; [done|done|done|]. intros u. rewrite alive_insert. case_decide as Hu; [|done].
    rewrite Hu, (alive_at _ _ _ _ Hx). by rewrite E1, E6.
Qed.

Lemma wfs_log E s c : wfs E s -> wfs E (log_call c s).
Proof. intros [W [S1 S2]]. split; [done|]. by split. Qed.

Lemma wfs_stacked E s m : wfs E s -> wfs E (mk_state (threads s) (scopes s) m (calls s)).
Proof. intros [W [S1 S2]]. split; [done|]. by split. Qed.

Lemma wfs_end E s t x d :
  wfs E s -> threads s !! t = Some x -> alive E (threads s) t -> wfs ({[t]} ∪ E) (put t (set_ended d x) s).
Proof.
  intros [W S] Hx Ha. split; [by apply wf_end|]. eapply scopes_put; [done|done|done|]. intros u Hu. rewrite alive_insert.
  case_decide; [left; set_solver|]. eapply alive_mono; [|done]. set_solver.
Qed.

(** A zombie that its parent cannot or does not want to join yet. *)
Lemma wfs_zombie E s t x :
  wfs ({[t]} ∪ E) s -> threads s !! t = Some x -> children x = ∅ -> i_am_detached x = false ->
  parent x <> None ->
  (forall p z, parent x = Some p -> threads s !! p = Some z -> i_am_joining z = true -> test_joinable z t = false) ->
  wfs E s.
Proof.
  intros [[W1 W2 W3 W4 W5] [S1 S2]] Hx Hc Hd Hp Hpar.
  assert (Ha : forall u, alive ({[t]} ∪ E) (threads s) u <-> alive E (threads s) u).
  { intros u. unfold alive. split; intros (z & Hz & H); exists z; (split; [done|]); [|set_solver].
    destruct (decide (u = t)) as [->|]; [|set_solver]. right. right. congruence. }
  split; [split|split]; [done| | | |done|done|].
  - intros u c. rewrite <- Ha. apply W2.
  - intros u c Hu. apply Ha. by apply (W3 u).
  - intros u z Hz. destruct (W4 u z Hz) as [L1 L2 L3 L4 L5 L6 L7]. split; try done.
    + intros He. destruct (L1 He) as [? HL]. split; [done|]. intros HE. destruct (decide (u = t)) as [->|Hne]; [|apply HL; set_solver].
      assert (z = x) as -> by congruence. split; [done|]. split; [|done]. destruct (i_am_joining x) eqn:Ej; [|done].
      destruct (L4 eq_refl) as (_ & _ & _ & ? & _). done.
    + intros Hj. destruct (L4 Hj) as (? & ? & ? & ? & HL). split_and!; try done. intros c Hcc HE He.
      destruct (decide (c = t)) as [->|Hne]; [|apply HL; [done|set_solver|done]]. apply (Hpar u z); [|done|done].
      assert (t ∈ kids (threads s) u) as [Hq _]%W1 by (unfold kids; by rewrite Hz). unfold par in Hq. by rewrite Hx in Hq.
  - intros sc y u Hsc Hu. rewrite <- Ha. by apply (S2 sc y).
Qed.

Lemma wfs_reap E s t x :
  wfs E s -> threads s !! t = Some x -> alive E (threads s) t -> i_have_ended x = true -> children x = ∅ ->
  (forall p z, parent x = Some p -> threads s !! p = Some z ->
    if i_am_detached x then i_am_waiting z = false
    else (i_am_joining z = false /\ (i_have_ended z = false -> t ∉ task_func_children z))) ->
  returns (vthread_reap t s) (fun s' => wfs (E ∖ {[t]}) s' /\ reaped (threads s) t x (threads s') /\
    scopes s' = without (parent_scope x) t (scopes s) /\ (calls s' = calls s \/ calls s' = CallDelThr t :: calls s) /\
    (is_scheduled x || waiting_for_event x || delay_delete x = false -> threads s' !! t = None)).
Proof.
  intros [W [S1 S2]] Hx Hal Hend Hch Hpar. eapply returns_mono; [apply (vthread_reap_returns E t x s); eauto|].
  intros s' (Hre & Hsc & _ & Hcalls & Hfree). pose proof (wf_reap E (threads s) (threads s') t x W Hx Hal Hend Hch Hpar Hre) as W'.
  split; [|done]. split; [done|].
  assert (Hkeep : forall u z, u <> t -> threads s !! u = Some z -> exists z', threads s' !! u = Some z' /\ parent_scope z' = parent_scope z).
  { intros u z Hu Hz. rewrite (proj1 Hre u Hu), Hz. repeat case_decide; cbn; eexists; (split; [done|]); try done.
    unfold remove_child. by destruct (i_am_detached x). }
  assert (Hback : forall u z', threads s' !! u = Some z' -> exists z, threads s !! u = Some z /\ parent_scope z' = parent_scope z).
  { intros u z' Hz. destruct (decide (u = t)) as [->|Hu].
    - destruct (proj2 Hre) as [Ht|Ht]; rewrite Ht in Hz; [done|]. injection Hz as <-. by exists x.
    - rewrite (proj1 Hre u Hu) in Hz. repeat case_decide; destruct (threads s !! u) as [z|]; try done; injection Hz as <-; exists z; (split; [done|]); try done.
      unfold remove_child. by destruct (i_am_detached x). }
  split.
  - intros u z' Hz. destruct (Hback u z' Hz) as (z & Hz0 & ->). rewrite Hsc. unfold without.
    destruct (S1 u z Hz0) as [y Hy]. destruct (decide (parent_scope z = parent_scope x)) as [->|]; [|rewrite lookup_alter_ne by done; eauto].
    rewrite lookup_alter_eq. destruct (S1 t x Hx) as [w ->]. by eexists.
  - intros sc y u Hy Hu. rewrite Hsc in Hy. unfold without in Hy.
    assert (Hu' : exists y0, scopes s !! sc = Some y0 /\ u ∈ scope_threads y0 /\ u <> t).
    { destruct (decide (sc = parent_scope x)) as [->|Hne].
      - rewrite lookup_alter_eq in Hy. destruct (scopes s !! _) as [y0|] eqn:E0; [|done]. injection Hy as <-. cbn in Hu. exists y0. set_solver.
      - rewrite lookup_alter_ne in Hy by done. exists y. split_and!; [done..|]. intros ->. destruct (S2 _ _ _ Hy Hu) as [_ (z & Hz & Hzs)]. congruence. }
    destruct Hu' as (y0 & Hy0 & Hu0 & Hne). destruct (S2 _ _ _ Hy0 Hu0) as [Hau (z & Hz & Hzs)]. split.
    + by apply (reap_alive E (threads s) (threads s') t x W Hx Hal Hend Hch Hpar Hre).
    + destruct (Hkeep u z Hne Hz) as (z' & ? & ?). exists z'. split; [done|]. congruence.
Qed.

Lemma mark_returns s t x fuel :
  threads s !! t = Some x -> is_scheduled x = false -> wait_next x = None ->
  vthread_mark_scheduled (S fuel) (Some t) s = Some (put t (set_scheduled true x) s).
Proof.
  intros Hx Hs Hw. cbn [vthread_mark_scheduled]. rewrite (get_state _ _ _ Hx). cbn [mbind option_bind].
  rewrite Hs. cbn [negb assert_ mbind option_bind]. rewrite (edit_returns _ _ _ _ Hx). cbn [mbind option_bind]. rewrite Hw.
  by destruct fuel.
Qed.

Lemma schedule_returns s t x d p :
  threads s !! t = Some x -> is_scheduled x = false -> wait_next x = None ->
  schedule_vthread t d p s = Some (log_call (CallVthread t d p) (put t (set_scheduled true x) s)).
Proof. intros Hx Hs Hw. unfold schedule_vthread. by rewrite (mark_returns _ _ _ _ Hx Hs Hw). Qed.

Lemma wfs_release E s t x c x' :
  wfs E s -> threads s !! t = Some x -> alive E (threads s) t -> c ∈ detached_children x ->
  parent x' = parent x -> parent_scope x' = parent_scope x -> children x' = children x ->
  detached_children x' = detached_children x ∖ {[c]} ->
  i_am_detached x' = i_am_detached x -> i_have_ended x' = i_have_ended x ->
  (local_ok E (threads s) t x -> local_ok E (threads s) t x') ->
  exists y, threads s !! c = Some y /\ parent y = Some t /\ i_am_detached y = true /\ (c ≠ t) /\
    wfs E (put t x' (put c (orphan y) s)).
Proof.
  intros [W S] Hx Hal Hc X1 X2 X3 X4 X5 X6 Lx. pose proof W as [W1 W2 W3 W4 W5].
  destruct (reap_detached_child E (threads s) t x W Hx Hal c Hc) as [Hp Hd]. pose proof (par_rank _ _ _ _ W Hp) as Hne.
  unfold par, det in Hp, Hd. destruct (threads s !! c) as [y|] eqn:Hy; [|done]. cbn in Hp, Hd. exists y. split_and!; try done.
  assert (Hey : i_have_ended y = false \/ c ∈ E).
  { destruct (W4 c y Hy) as [L1 _ _ _ _ _ _]. destruct (i_have_ended y) eqn:Ee; [|by left]. destruct (L1 eq_refl) as [_ HL].
    destruct (decide (c ∈ E)) as [|HE]; [by right|]. destruct (HL HE) as (_ & _ & HL'). rewrite HL' in Hd by congruence. done. }
  assert (S' : wf_scopes E (put c (orphan y) s)).
  { eapply scopes_put; [done|done|done|]. intros u Hu. rewrite alive_insert. case_decide as Huc; [|done]. cbn. tauto. }
  split.
  - cbn. apply (wf_release E (threads s) t x c y x'); auto.
  - assert (Hx1 : threads (put c (orphan y) s) !! t = Some x) by (cbn; by rewrite lookup_insert_ne).
    eapply scopes_put; [exact S'|exact Hx1|done|]. intros u Hu. rewrite alive_insert. case_decide as Hut; [|done].
    rewrite Hut, (alive_at _ _ _ _ Hx1) in Hu. by rewrite X1, X6.
Qed.

(** The size of the set of detached children, the measure of the loops. *)
Definition count_detached (t : tid) (s : state) : nat := from_option (fun x => size (detached_children x)) 0%nat (get t s).

Lemma release_loop E s t x :
  wfs E s -> threads s !! t = Some x -> alive E (threads s) t -> i_am_waiting x = false ->
  returns (while_ (size (detached_children x)) (has_detached t) (release_step t) s) (fun s' =>
    wfs E s' /\ threads s' !! t = Some (set_detached_children (fun _ => ∅) x) /\
    (forall u, u <> t -> u ∉ detached_children x -> threads s' !! u = threads s !! u) /\
    calls s' = calls s /\ stacked s' = stacked s).
Proof.
  intros W Hx Hal Hw. set (I := fun s' => wfs E s' /\ (exists D, threads s' !! t = Some (set_detached_children (fun _ => D) x)) /\
    (forall u, u <> t -> u ∉ detached_children x -> threads s' !! u = threads s !! u) /\ calls s' = calls s /\ stacked s' = stacked s /\
    forall x', threads s' !! t = Some x' -> detached_children x' ⊆ detached_children x).
  eapply returns_mono; [apply (returns_while I (count_detached t))|].
  - unfold I. split_and!; try done; [|naive_solver]. exists (detached_children x). rewrite Hx. by destruct x.
  - unfold count_detached. by rewrite (get_state _ _ _ Hx).
  - intros s1 (W1 & (D & Hx1) & Hfr & Hc & Hst & Hsub) Hcond. specialize (Hsub _ Hx1). cbn in Hsub.
    unfold has_detached in Hcond. rewrite (get_state _ _ _ Hx1) in Hcond. cbn in Hcond.
    apply negb_true_iff, bool_decide_eq_false in Hcond. destruct (set_begin_ne D Hcond) as (c & Hb & Hin).
    assert (Hal1 : alive E (threads s1) t) by (rewrite (alive_at _ _ _ _ Hx1); by rewrite (alive_at _ _ _ _ Hx) in Hal).
    destruct (wfs_release E s1 t _ c (set_detached_children (fun X => X ∖ {[c]}) (set_detached_children (fun _ => D) x)) W1 Hx1 Hal1 Hin)
      as (y & Hy & Hp & Hd & Hne & W2); try done.
    { intros [L1 L2 L3 L4 L5 L6 L7]. split; try done. cbn. congruence. }
    assert (Hx2 : threads (put c (orphan y) s1) !! t = Some (set_detached_children (fun _ => D) x)) by (cbn; by rewrite lookup_insert_ne).
    unfold release_step. rewrite (get_state _ _ _ Hx1). cbn [mbind option_bind detached_children set_detached_children]. rewrite Hb. cbn [mbind option_bind].
    rewrite (get_state _ _ _ Hy). cbn [mbind option_bind]. rewrite assert_bool_decide, Hd by done. cbn [assert_ mbind option_bind].
    rewrite (edit_returns _ _ _ _ Hy). cbn [mbind option_bind]. change (set_detached false (set_parent None y)) with (orphan y).
    rewrite (edit_returns _ _ _ _ Hx2). apply returns_ret.
    assert (Hx3 : threads (put t (set_detached_children (fun X => X ∖ {[c]}) (set_detached_children (fun _ => D) x)) (put c (orphan y) s1)) !! t
      = Some (set_detached_children (fun _ => D ∖ {[c]}) x)) by (cbn; by rewrite lookup_insert_eq).
    split; [split; [exact W2|]; split_and!|].
    + by exists (D ∖ {[c]}).
    + intros u Hu Hu'. cbn. rewrite lookup_insert_ne, lookup_insert_ne by set_solver. by apply Hfr.
    + done.
    + done.
    + intros x' Hx'. rewrite Hx3 in Hx'. injection Hx' as <-. cbn. set_solver.
    + unfold count_detached. rewrite (get_state _ _ _ Hx1), (get_state _ _ _ Hx3). cbn. apply subset_size. set_solver.
  - intros s' ((W' & (D & Hx') & Hfr & Hc & Hst & _) & Hcond). unfold has_detached in Hcond. rewrite (get_state _ _ _ Hx') in Hcond. cbn in Hcond.
    apply negb_false_iff, bool_decide_eq_true in Hcond. subst D. done.
Qed.

(** The context of an automatic child can be moved to the read stack. *)
Definition ctx_ready (s : state) (x y : vthread_l) : Prop :=
  wt_context y = None \/ wt_context x = rd_context x \/ exists c, wt_context x = Some c /\ is_Some (stacked s !! c).

(** The parent after a join: it has forgotten the child. *)
Definition joined (t : tid) (z z' : vthread_l) : Prop :=
  children z' = children z ∖ {[t]} /\ task_func_children z' = task_func_children z ∖ {[t]} /\
  detached_children z' = detached_children z /\ i_am_joining z' = i_am_joining z /\ i_am_waiting z' = i_am_waiting z /\
  i_have_ended z' = i_have_ended z /\ is_scheduled z' = is_scheduled z /\ waiting_for_event z' = waiting_for_event z /\
  parent z' = parent z.

Lemma move_context_returns E p z x s :
  wfs E s -> threads s !! p = Some z -> ctx_ready s z x ->
  exists s', move_context p x s = Some s' /\ wfs E s' /\ calls s' = calls s /\
    (forall u, u <> p -> threads s' !! u = threads s !! u) /\ (exists w r, threads s' !! p = Some (set_contexts w r z)) /\ (wt_context x = None -> s' = s).
Proof.
  intros W Hz Hctx. unfold move_context. rewrite (get_state _ _ _ Hz). cbn [mbind option_bind].
  assert (Hsame : exists w r, threads s !! p = Some (set_contexts w r z)).
  { exists (wt_context z), (rd_context z). rewrite Hz. by destruct z. }
  destruct (wt_context x) as [cx|] eqn:Ew; [|by exists s]. case_bool_decide as Heq; [by exists s|].
  destruct Hctx as [Hn|[Hn|(c & Hcw & [up Hup])]]; [congruence|done|]. rewrite Hcw. cbn [mbind option_bind]. rewrite Hup. cbn [mbind option_bind].
  cbv zeta. rewrite (edit_returns p z) by done. eexists. split; [done|]. split_and!.
  - eapply (wfs_put E (mk_state _ _ _ _) p z); try done; [by apply wfs_stacked|]. by intros [L1 L2 L3 L4 L5 L6 L7].
  - done.
  - intros u Hu. cbn. by rewrite lookup_insert_ne.
  - eexists _, _. cbn. apply lookup_insert_eq.
  - done.
Qed.

Lemma do_join_returns E s p z t x :
  wfs E s -> threads s !! p = Some z -> threads s !! t = Some x -> parent x = Some p -> i_am_detached x = false ->
  i_have_ended x = true -> children x = ∅ -> i_am_joining z = false -> ctx_ready s z x ->
  returns (do_join p t s) (fun s' => wfs (E ∖ {[t]}) s' /\
    (exists z', threads s' !! p = Some z' /\ joined t z z') /\
    (is_scheduled x || waiting_for_event x || delay_delete x = false -> threads s' !! t = None) /\
    (calls s' = calls s \/ calls s' = CallDelThr t :: calls s) /\
    (wt_context x = None -> reaped (<[p := set_task_func_children (fun X => X ∖ {[t]}) z]> (threads s)) t x (threads s') /\
       scopes s' = without (parent_scope x) t (scopes s))).
Proof.
  intros W Hz Hx Hp Hd He Hc Hj Hctx. unfold do_join. rewrite (get_state _ _ _ Hx). cbn [mbind option_bind].
  rewrite assert_bool_decide by done. rewrite (edit_returns _ _ _ _ Hz). cbn [mbind option_bind].
  set (z1 := set_task_func_children _ z).
  assert (Hne : t <> p).
  { apply (par_rank E (threads s)); [apply W|]. unfold par. by rewrite Hx. }
  assert (W1 : wfs E (put p z1 s)).
  { eapply wfs_put; try done. intros [L1 L2 L3 L4 L5 L6 L7]. split; cbn; try done.
    - intros Hez. specialize (L3 Hez). set_solver.
    - congruence. }
  destruct (move_context_returns E p z1 x (put p z1 s) W1) as (s2 & -> & W2 & Hc2 & Hfr & (w & r & Hz2) & Hsame); [cbn; apply lookup_insert_eq|done|].
  cbn [mbind option_bind]. assert (Hx2 : threads s2 !! t = Some x) by (rewrite Hfr by done; cbn; by rewrite lookup_insert_ne).
  assert (Hal : alive E (threads s2) t) by (rewrite (alive_at _ _ _ _ Hx2); right; right; congruence).
  eapply returns_mono; [apply (wfs_reap E s2 t x W2 Hx2 Hal He Hc)|].
  - intros q y Hq Hy. assert (q = p) as -> by congruence. rewrite Hz2 in Hy. injection Hy as <-. rewrite Hd. cbn. split; [done|]. intros _. set_solver.
  - intros s' (W' & Hre & Hsc & Hcalls & Hfree). split; [done|]. split; [|split_and!; [done|change (calls (put p z1 s)) with (calls s) in Hc2; by rewrite <- Hc2|]].
    2:{ intros Hn. by rewrite (Hsame Hn) in Hre, Hsc. }
    destruct Hre as [Hre _]. specialize (Hre p ltac:(done)). rewrite Hz2 in Hre.
    destruct (reap_parent_not_child E (threads s2) t x (proj1 W2) Hx2 Hal p Hp) as [Hnp _].
    rewrite decide_False, decide_True in Hre by done. rewrite Hre. cbn. eexists. split; [done|]. rewrite Hd. done.
Qed.

(** *** Ending *)

Lemma single_out (t : tid) : ({[t]} ∪ ∅) ∖ {[t]} = (∅ : gset tid).
Proof. set_solver. Qed.

(** The parent after its last detached child, which it waits for, has ended. *)
Definition woken (z : vthread_l) : Prop := is_scheduled z = true /\ i_am_joining z = false /\ i_am_waiting z = false.

(** A thread without parent goes away. *)
Lemma reap_orphan s t x :
  wfs ({[t]} ∪ ∅) s -> threads s !! t = Some x -> i_have_ended x = true -> children x = ∅ -> parent x = None ->
  returns (vthread_reap t s) (fun s' => wf s' /\ (forall u, u <> t -> u ∉ detached_children x -> threads s' !! u = threads s !! u) /\
    (calls s' = calls s \/ calls s' = CallDelThr t :: calls s) /\
    (is_scheduled x || waiting_for_event x || delay_delete x = false -> threads s' !! t = None) /\
    reaped (threads s) t x (threads s') /\ scopes s' = without (parent_scope x) t (scopes s)).
Proof.
  intros W Hx He Hc Hp. eapply returns_mono; [apply (wfs_reap _ s t x W Hx)|]; try done.
  - rewrite (alive_at _ _ _ _ Hx). left. set_solver.
  - congruence.
  - intros s' (W' & Hre' & Hsc & Hcalls & Hfree). pose proof (proj1 Hre') as Hre. rewrite single_out in W'. split_and!; try done.
    intros u Hu Hd. rewrite Hre, decide_False, decide_False by (done || congruence). done.
Qed.

Lemma end_detached s t x p z :
  wfs ({[t]} ∪ ∅) s -> threads s !! t = Some x -> threads s !! p = Some z -> parent x = Some p -> i_am_detached x = true ->
  i_have_ended x = true -> children x = ∅ -> detached_children x = ∅ ->
  returns (end_unjoined t s) (fun s' => wf s' /\
    (is_scheduled x || waiting_for_event x || delay_delete x = false -> threads s' !! t = None) /\
    (i_am_waiting z = true -> detached_children z = {[t]} ->
       CallVthread p 0 true ∈ calls s' /\ exists z', threads s' !! p = Some z' /\ woken z')).
Proof.
  intros W Hx Hz Hp Hd He Hc Hdc.
  assert (Hne : t <> p) by (apply (par_rank ({[t]} ∪ ∅) (threads s)); [apply W|unfold par; by rewrite Hx]).
  assert (Hpp : par (threads s) t = Some p) by (unfold par; by rewrite Hx).
  assert (Halp : alive ({[t]} ∪ ∅) (threads s) p) by (destruct W as [[_ _ W3 _ _] _]; by apply (W3 t)).
  assert (Hin : t ∈ detached_children z).
  { rewrite <- (dkids_at _ _ _ Hz). apply W; [done|]. unfold par, det. by rewrite Hx. }
  unfold end_unjoined. rewrite (get_state _ _ _ Hx). cbn [mbind option_bind]. rewrite Hd, Hp. cbn [mbind option_bind].
  rewrite (get_state _ _ _ Hz). cbn [mbind option_bind]. rewrite assert_bool_decide by done.
  rewrite (edit_returns _ _ _ _ Hz). cbn [mbind option_bind]. set (z1 := set_detached_children _ z).
  set (s1 := put p z1 s). assert (Hz1 : threads s1 !! p = Some z1) by (cbn; apply lookup_insert_eq).
  rewrite (get_state _ _ _ Hz1). cbn [mbind option_bind].
  assert (Hloc : local_ok ({[t]} ∪ ∅) (threads s) p z) by (destruct W as [[_ _ _ W4 _] _]; by apply W4).
  set (o := set_parent None (set_detached false x)).
  assert (Hfin : forall z' cs, parent z' = parent z -> parent_scope z' = parent_scope z -> children z' = children z ->
    detached_children z' = detached_children z ∖ {[t]} -> i_am_detached z' = i_am_detached z -> i_have_ended z' = i_have_ended z ->
    (local_ok ({[t]} ∪ ∅) (threads s) p z -> local_ok ({[t]} ∪ ∅) (threads s) p z') ->
    returns (vthread_reap t (mk_state (<[t := o]> (<[p := z']> (threads s))) (scopes s) (stacked s) cs)) (fun s' =>
      wf s' /\ threads s' !! p = Some z' /\ (cs = calls s' \/ calls s' = CallDelThr t :: cs) /\
      (is_scheduled x || waiting_for_event x || delay_delete x = false -> threads s' !! t = None))).
  { intros z' cs E1 E2 E3 E4 E5 E6 Hl.
    destruct (wfs_release _ s p z t z' W Hz Halp Hin E1 E2 E3 E4 E5 E6 Hl) as (y & Hy & _ & _ & _ & W2).
    assert (y = x) as -> by congruence.
    eapply returns_mono; [apply (reap_orphan (mk_state (<[t := o]> (<[p := z']> (threads s))) (scopes s) (stacked s) cs) t o)|].
    - replace (<[t := o]> (<[p := z']> (threads s))) with (threads (put p z' (put t (orphan x) s))); [|cbn; by rewrite insert_insert_ne].
      destruct W2 as [W2 [S1 S2]]. split; [done|]. by split.
    - cbn. apply lookup_insert_eq.
    - done.
    - done.
    - done.
    - intros s' (W' & Hfr & Hcalls & Hfree & _). split_and!; try done.
      + rewrite Hfr by (cbn; rewrite ?Hdc; set_solver || done). cbn. by rewrite lookup_insert_ne, lookup_insert_eq.
      + destruct Hcalls as [->| ->]; auto. }
  change (i_am_waiting z1) with (i_am_waiting z). change (detached_children z1) with (detached_children z ∖ {[t]}).
  destruct (i_am_waiting z && bool_decide (detached_children z ∖ {[t]} = ∅)) eqn:Ew.
  - apply andb_true_iff in Ew as [Ew Hemp%bool_decide_eq_true]. destruct Hloc as [L1 L2 L3 L4 L5 L6 L7].
    destruct (L5 Ew) as (Hs & Hwe & _).
    assert (Hjz : i_am_joining z = false) by (destruct (i_am_joining z); [destruct (L4 eq_refl) as (_ & _ & ? & _); congruence|done]).
    assert (Hwn : wait_next z = None) by (destruct (wait_next z); [destruct L6; [done|congruence..]|done]).
    rewrite (edit_returns _ _ _ _ Hz1). cbn [mbind option_bind].
    rewrite (schedule_returns _ p (set_waiting false z1)) by (done || cbn; apply lookup_insert_eq). cbn [mbind option_bind].
    rewrite (edit_returns t x) by (cbn; by rewrite !lookup_insert_ne). cbn [mbind option_bind].
    rewrite (get_state _ t o) by (cbn; apply lookup_insert_eq). cbn [mbind option_bind o parent set_parent].
    set (z2 := set_scheduled true (set_waiting false z1)).
    match goal with |- returns (vthread_reap t ?st) _ =>
      replace st with (mk_state (<[t := o]> (<[p := z2]> (threads s))) (scopes s) (stacked s) (CallVthread p 0 true :: calls s))
        by (unfold put, with_threads, log_call; cbn; by rewrite !insert_insert_eq) end.
    eapply returns_mono; [apply (Hfin z2 (CallVthread p 0 true :: calls s)); try done|].
    + intros _. split; cbn; try done; (congruence || by right).
    + intros s' (W' & Hz' & Hcalls & Hfree). split; [done|]. split; [done|]. intros _ _. split.
      * destruct Hcalls as [<-| ->]; set_solver.
      * exists z2. split; [done|]. by split_and!.
  - cbn [mbind option_bind]. rewrite (edit_returns t x) by (cbn; by rewrite lookup_insert_ne). cbn [mbind option_bind].
    rewrite (get_state _ t o) by (cbn; apply lookup_insert_eq). cbn [mbind option_bind o parent set_parent].
    eapply returns_mono; [apply (Hfin z1 (calls s)); try done|].
    + intros [L1 L2 L3 L4 L5 L6 L7]. split; cbn; try done. intros Hw. destruct (L5 Hw) as (? & ? & ?). split_and!; try done.
      rewrite Hw in Ew. by apply bool_decide_eq_false in Ew.
    + intros s' (W' & Hz' & Hcalls & Hfree). split; [done|]. split; [done|]. intros Hw Hone. exfalso.
      rewrite Hw in Ew. apply bool_decide_eq_false in Ew. apply Ew. set_solver.
Qed.

Lemma local_at E s t x : wfs E s -> threads s !! t = Some x -> local_ok E (threads s) t x.
Proof. intros [[_ _ _ W4 _] _]. apply W4. Qed.

(** A joining parent is neither scheduled nor on the list of an event. *)
Lemma joining_idle E s p z :
  wfs E s -> threads s !! p = Some z -> i_am_joining z = true -> is_scheduled z = false /\ wait_next z = None /\ i_am_waiting z = false.
Proof.
  intros W Hz Hj. destruct (local_at _ _ _ _ W Hz) as [_ _ _ L4 _ L6 _]. destruct (L4 Hj) as (? & ? & ? & _).
  split_and!; try done. destruct (wait_next z); [destruct L6; [done|congruence..]|done].
Qed.

(** Waking a joining parent. *)
Lemma wake_joining E s p z t x :
  wfs E s -> threads s !! p = Some z -> threads s !! t = Some x -> t <> p -> i_am_joining z = true ->
  exists s1, (s ← edit p (set_joining false) s; schedule_vthread p 0 true s) = Some s1 /\ wfs E s1 /\
    threads s1 !! p = Some (set_scheduled true (set_joining false z)) /\ threads s1 !! t = Some x /\
    calls s1 = CallVthread p 0 true :: calls s /\ stacked s1 = stacked s /\
    (forall u, u <> p -> threads s1 !! u = threads s !! u) /\ scopes s1 = scopes s.
Proof.
  intros W Hz Hx Hne Hj. destruct (joining_idle _ _ _ _ W Hz Hj) as (Hs & Hw & Hwt).
  rewrite (edit_returns _ _ _ _ Hz). cbn [mbind option_bind].
  assert (Hz1 : threads (put p (set_joining false z) s) !! p = Some (set_joining false z)) by (cbn; apply lookup_insert_eq).
  rewrite (schedule_returns _ _ _ 0 true Hz1) by done. eexists. split; [reflexivity|]. split_and!.
  - apply wfs_log. replace (put p (set_scheduled true (set_joining false z)) (put p (set_joining false z) s))
      with (put p (set_scheduled true (set_joining false z)) s) by (unfold put, with_threads; cbn; by rewrite insert_insert_eq).
    eapply wfs_put; try done. intros [L1 L2 L3 L4 L5 L6 L7]. split; cbn; try done; try (by right); [|congruence|destruct (L4 Hj) as (_ & ? & _); congruence].
    intros He. destruct (L1 He) as [? HL]. split; [done|]. intros HE. destruct (HL HE) as (? & ? & ?). done.
  - cbn. apply lookup_insert_eq.
  - cbn. by rewrite !lookup_insert_ne.
  - done.
  - done.
  - intros u Hu. cbn. by rewrite !lookup_insert_ne.
  - done.
Qed.

Lemma test_joinable_flags x x' t : task_func_children x' = task_func_children x -> test_joinable x' t = test_joinable x t.
Proof. unfold test_joinable. by intros ->. Qed.

Lemma of_END_returns s t x :
  wf s -> running s t x -> children x = ∅ ->
  (forall p z, parent x = Some p -> threads s !! p = Some z -> ctx_ready s z x) ->
  returns (of_END t s) (fun r => fst r = false /\ wf (snd r) /\
    (forall p z, parent x = Some p -> threads s !! p = Some z ->
       if i_am_detached x then
         i_am_waiting z = true -> detached_children z = {[t]} ->
         CallVthread p 0 true ∈ calls (snd r) /\ exists z', threads (snd r) !! p = Some z' /\ woken z'
       else
         i_am_joining z = true -> test_joinable z t = true ->
         CallVthread p 0 true ∈ calls (snd r) /\ exists z', threads (snd r) !! p = Some z' /\ woken z' /\ t ∉ children z')).
Proof.
  intros W (Hx & He & Hj & Hw & Hwe & Hs) Hc Hctx. unfold of_END. rewrite (get_state _ _ _ Hx). cbn [mbind option_bind].
  rewrite Hwe. cbn [negb assert_ mbind option_bind]. rewrite (edit_returns _ _ _ _ Hx). cbn [mbind option_bind].
  assert (Hal : alive ∅ (threads s) t) by (rewrite (alive_at _ _ _ _ Hx); auto).
  pose proof (wfs_end ∅ s t x false W Hx Hal) as W1. set (s1 := put t (set_ended false x) s) in *.
  assert (Hx1 : threads s1 !! t = Some (set_ended false x)) by (cbn; apply lookup_insert_eq).
  assert (Hal1 : alive ({[t]} ∪ ∅) (threads s1) t) by (rewrite (alive_at _ _ _ _ Hx1); left; set_solver).
  eapply returns_bind; [apply (release_loop ({[t]} ∪ ∅) s1 t _ W1 Hx1 Hal1 Hw)|].
  intros s2 (W2 & Hx2 & Hfr & Hcalls & Hst). set (x2 := set_detached_children (fun _ => ∅) (set_ended false x)) in *.
  rewrite (get_state _ _ _ Hx2). cbn [mbind option_bind]. rewrite assert_bool_decide by done.
  change (i_am_detached x2) with (i_am_detached x). change (parent x2) with (parent x).
  assert (Hpar : forall p z, parent x = Some p -> threads s !! p = Some z -> t <> p /\ threads s2 !! p = Some z).
  { intros p z Hp Hz. destruct (reap_parent_not_child ∅ (threads s) t x (proj1 W) Hx Hal p Hp) as [Hn Hne].
    split; [done|]. rewrite Hfr by done. cbn. by rewrite lookup_insert_ne. }
  destruct (i_am_detached x) eqn:Ed.
  { destruct (parent x) as [p|] eqn:Ep.
    2:{ destruct (local_at _ _ _ _ W Hx) as [_ L2 _ _ _ _ _]. specialize (L2 He Ep). congruence. }
    assert (Hpp : par (threads s) t = Some p) by (unfold par; by rewrite Hx).
    assert (exists z, threads s !! p = Some z) as [z Hz] by (destruct W as [[_ _ W3 _ _] _]; destruct (W3 _ _ Hpp) as (z & ? & _); by exists z).
    destruct (Hpar p z eq_refl Hz) as [Hne Hz2].
    eapply returns_bind; [apply (end_detached s2 t x2 p z W2 Hx2 Hz2 Ep Ed eq_refl Hc eq_refl)|].
    intros s3 (W3 & Hfree & Hwake). apply returns_ret. cbn [fst snd]. split; [done|]. split; [done|].
    intros p' z' [= <-] Hz'. assert (z' = z) as -> by congruence. exact Hwake. }
  assert (Hun : forall p z, parent x = Some p -> threads s !! p = Some z -> i_am_joining z = false ->
    returns (s ← end_unjoined t s2; Some (false, s)) (fun r => fst r = false /\ wf (snd r))).
  { intros p z Hp Hz Hjz. destruct (Hpar p z Hp Hz) as [Hne Hz2]. unfold end_unjoined. rewrite (get_state _ _ _ Hx2). cbn [mbind option_bind].
    change (i_am_detached x2) with (i_am_detached x). change (parent x2) with (parent x). rewrite Ed. cbn [mbind option_bind].
    rewrite (get_state _ _ _ Hx2). cbn [mbind option_bind]. change (parent x2) with (parent x). rewrite Hp. apply returns_ret. split; [done|].
    apply (wfs_zombie ∅ s2 t x2); try done; [by cbn; rewrite Hp|]. intros q y Hq Hy Hjy. assert (q = p) as -> by (cbn in Hq; congruence). congruence. }
  destruct (parent x) as [p|] eqn:Ep.
  2:{ unfold end_unjoined. rewrite (get_state _ _ _ Hx2). cbn [mbind option_bind].
    change (i_am_detached x2) with (i_am_detached x). rewrite Ed. cbn [mbind option_bind]. rewrite (get_state _ _ _ Hx2). cbn [mbind option_bind].
    change (parent x2) with (parent x). rewrite Ep. eapply returns_bind; [apply (reap_orphan s2 t x2 W2 Hx2 eq_refl Hc Ep)|].
    intros s3 (W3 & _). apply returns_ret. split; [done|]. split; [done|]. by intros ? ? ?. }
  assert (Hpp : par (threads s) t = Some p) by (unfold par; by rewrite Hx).
  assert (exists z, threads s !! p = Some z) as [z Hz] by (destruct W as [[_ _ W3 _ _] _]; destruct (W3 _ _ Hpp) as (z & ? & _); by exists z).
  destruct (Hpar p z eq_refl Hz) as [Hne Hz2]. rewrite (get_state _ _ _ Hz2). cbn [mbind option_bind].
  destruct (i_am_joining z) eqn:Ejz.
  2:{ eapply returns_mono; [by apply (Hun p z)|]. intros r [? ?]. split_and!; try done. intros p' z' [= <-] Hz'. congruence. }
  destruct (test_joinable z t) eqn:Et; cbn [negb].
  2:{ apply returns_ret. split; [done|]. split.
    - apply (wfs_zombie ∅ s2 t x2); try done; [by cbn; rewrite Ep|]. intros q y Hq Hy _.
      assert (q = p) as -> by (cbn in Hq; congruence). congruence.
    - intros p' z' [= <-] Hz'. congruence. }
  destruct (wake_joining _ s2 p z t x2 W2 Hz2 Hx2 Hne Ejz) as (s3 & E3 & W3 & Hz3 & Hx3 & Hc3 & Hst3 & _).
  assert (Hjoin : returns (s ← do_join p t s3; Some (false, s)) (fun r => fst r = false /\ wf (snd r) /\
    CallVthread p 0 true ∈ calls (snd r) /\ exists z', threads (snd r) !! p = Some z' /\ woken z' /\ t ∉ children z')).
  { eapply returns_bind; [apply (do_join_returns _ s3 p _ t x2 W3 Hz3 Hx3 Ep Ed eq_refl Hc eq_refl)|].
    - pose proof (Hctx p z eq_refl Hz) as Hcr. unfold ctx_ready in *. cbn. rewrite Hst3, Hst. exact Hcr.
    - intros s4 (W4 & (z' & Hz' & J1 & _ & _ & J4 & J5 & _ & J7 & _) & _ & Hcalls4 & _). rewrite single_out in W4. apply returns_ret.
      split; [done|]. split; [done|]. split; [cbn [snd]; destruct Hcalls4 as [->| ->]; rewrite Hc3; set_solver|].
      exists z'. split; [done|]. split; [|rewrite J1; cbn; set_solver]. split_and!; [by rewrite J7|by rewrite J4|].
      rewrite J5. cbn. by destruct (joining_idle _ _ _ _ W Hz Ejz) as (_ & _ & ?). }
  destruct (edit p (set_joining false) s2) as [s2'|]; [|done]. cbn [mbind option_bind] in *. rewrite E3. cbn [mbind option_bind].
  eapply returns_mono; [exact Hjoin|]. intros r (R1 & R2 & R3 & R4). split; [done|]. split; [done|]. intros p' z' [= <-] _. auto.
Qed.

(** *** Joining, detaching, forking, waiting *)

Lemma child_at E s t x c :
  wfs E s -> threads s !! t = Some x -> c ∈ children x ->
  exists y, threads s !! c = Some y /\ parent y = Some t /\ i_am_detached y = false /\ c <> t.
Proof.
  intros [W _] Hx Hc. assert (Hk : c ∈ kids (threads s) t) by (unfold kids; by rewrite Hx).
  apply (wf_kids _ _ W) in Hk as [Hp Hd]. pose proof (par_rank _ _ _ _ W Hp). unfold par, det in Hp, Hd.
  destruct (threads s !! c) as [y|]; [|done]. by exists y.
Qed.

Lemma find_ended_spec x l s :
  (forall c, c ∈ l -> is_Some (threads s !! c)) ->
  exists r, find_ended x l s = Some r /\
    match r with
    | Some c => c ∈ l /\ ended (threads s) c = true /\ test_joinable x c = true
    | None => forall c, c ∈ l -> ended (threads s) c = true -> test_joinable x c = false
    end.
Proof.
  induction l as [|c l IH]; intros Hl; cbn [find_ended]; [exists None; split; [done|]; set_solver|].
  destruct (Hl c ltac:(set_solver)) as [y Hy]. rewrite (get_state _ _ _ Hy). cbn [mbind option_bind].
  assert (He : ended (threads s) c = i_have_ended y) by (unfold ended; by rewrite Hy).
  destruct (i_have_ended y && test_joinable x c) eqn:E.
  - apply andb_true_iff in E as [E1 E2]. exists (Some c). split; [done|]. split; [set_solver|]. by rewrite He.
  - destruct IH as (r & Hr & Hs); [intros u Hu; apply Hl; set_solver|]. exists r. split; [done|]. destruct r as [u|].
    + destruct Hs as (? & ? & ?). split; [set_solver|done].
    + intros u [->|Hu]%elem_of_cons; [|by apply Hs]. rewrite He. intros Heq. by rewrite Heq in E.
Qed.

Lemma of_JOIN_returns s t x :
  wf s -> running s t x -> children x <> ∅ ->
  (forall c y, c ∈ children x -> threads s !! c = Some y -> ctx_ready s x y) ->
  returns (of_JOIN t s) (fun r => wf (snd r) /\
    if fst r then
      exists c y x', c ∈ children x /\ threads s !! c = Some y /\ i_have_ended y = true /\ test_joinable x c = true /\
        threads (snd r) !! t = Some x' /\ joined c x x' /\
        (is_scheduled y || waiting_for_event y || delay_delete y = false -> threads (snd r) !! c = None)
    else
      (forall c, c ∈ children x -> ended (threads s) c = true -> test_joinable x c = false) /\
      snd r = put t (set_joining true x) s).
Proof.
  intros W (Hx & He & Hj & Hw & Hwe & Hs) Hc Hctx. unfold of_JOIN, do_join_opcode. rewrite (get_state _ _ _ Hx). cbn [mbind option_bind].
  rewrite Hj. cbn [negb assert_ mbind option_bind]. rewrite bool_decide_eq_false_2 by done. cbn [negb assert_ mbind option_bind].
  destruct (find_ended_spec x (in_order (children x)) s) as (r & -> & Hr).
  { intros c Hin%elem_of_in_order. destruct (child_at _ _ _ _ _ W Hx Hin) as (y & Hy & _). by exists y. }
  cbn [mbind option_bind]. destruct r as [c|].
  - destruct Hr as (Hin%elem_of_in_order & Hec & Htj). destruct (child_at _ _ _ _ _ W Hx Hin) as (y & Hy & Hp & Hd & Hne).
    assert (Hey : i_have_ended y = true) by (unfold ended in Hec; by rewrite Hy in Hec).
    destruct (local_at _ _ _ _ W Hy) as [L1 _ _ _ _ _ _]. destruct (L1 Hey) as [_ HL]. destruct (HL ltac:(set_solver)) as (Hcy & _ & _).
    eapply returns_bind; [apply (do_join_returns ∅ s t x c y W Hx Hy Hp Hd Hey Hcy Hj); by eapply Hctx|].
    intros s' (W' & (x' & Hx' & HJ) & Hfree & _). apply returns_ret. cbn [fst snd].
    replace (∅ ∖ {[c]}) with (∅ : gset tid) in W' by set_solver. split; [done|]. by exists c, y, x'.
  - rewrite (edit_returns _ _ _ _ Hx). apply returns_ret. cbn [fst snd]. split.
    + eapply wfs_put; try done. intros [L1 L2 L3 L4 L5 L6 L7]. split; cbn; try done; try congruence. intros _. split_and!; try done.
      intros c Hin HE. rewrite ended_insert. case_decide as Hct; [cbn; congruence|]. intros Hec.
      change (test_joinable x c = false). apply Hr; [by apply elem_of_in_order|done].
    + split; [|done]. intros c Hin. apply Hr. by apply elem_of_in_order.
Qed.

Lemma of_WAIT_FORK_returns s t x :
  wf s -> running s t x -> children x = ∅ -> i_am_in_function x = false ->
  returns (of_WAIT_FORK t s) (fun r => wf (snd r) /\ fst r = bool_decide (detached_children x = ∅)).
Proof.
  intros W (Hx & He & Hj & Hw & Hwe & Hs) Hc Hf. unfold of_WAIT_FORK. rewrite (get_state _ _ _ Hx). cbn [mbind option_bind].
  rewrite Hf, Hj, Hw. cbn [negb assert_ mbind option_bind]. rewrite assert_bool_decide by done.
  case_bool_decide as Hd; [by apply returns_ret|]. rewrite (edit_returns _ _ _ _ Hx). apply returns_ret. split; [|done].
  eapply wfs_put; try done. intros [L1 L2 L3 L4 L5 L6 L7]. split; cbn; try done; try congruence.
Qed.

Lemma of_ZOMBIE_returns s t x :
  wf s -> threads s !! t = Some x -> i_have_ended x = true ->
  returns (of_ZOMBIE t s) (fun r => fst r = false /\ wf (snd r) /\
    (parent x = None -> delay_delete x = false -> threads (snd r) !! t = None)).
Proof.
  intros W Hx He. pose proof W as [[W1 W2 W3 W4 W5] [S1 S2]].
  destruct (local_at _ _ _ _ W Hx) as [L1 _ _ _ _ _ _]. destruct (L1 He) as [Hpc HL]. destruct (HL ltac:(set_solver)) as (Hc & _ & _).
  assert (Hput : put t (set_pc None x) s = s).
  { unfold put, with_threads. destruct s as [m ss st cs]. cbn in *. f_equal. apply insert_id. rewrite Hx. f_equal. destruct x. cbn in Hpc. by subst. }
  unfold of_ZOMBIE. rewrite (edit_returns _ _ _ _ Hx). cbn [mbind option_bind]. rewrite Hput, (get_state _ _ _ Hx). cbn [mbind option_bind].
  rewrite (bool_decide_eq_true_2 _ Hc), andb_true_r. case_bool_decide as Hp; [|apply returns_ret; split; [done|]; by split].
  destruct (delay_delete x).
  { apply returns_ret. split; [done|]. split; [by apply wfs_log|done]. }
  unfold vthread_delete. rewrite (get_state _ _ _ Hx). apply returns_ret. split; [done|].
  split; [|intros _ _; cbn; apply lookup_delete_eq]. cbn [snd].
  assert (Hdead : ~ alive ∅ (threads s) t) by (rewrite (alive_at _ _ _ _ Hx); intros [Hm|[Hm|Hm]]; [by apply not_elem_of_empty in Hm|congruence..]).
  (* a dead thread is nobody's child and nobody's parent: freeing it is a reap *)
  assert (Hre : forall u, u <> t -> threads (with_threads (delete t) s) !! u = threads s !! u) by (intros u Hu; cbn; by rewrite lookup_delete_ne).
  assert (Hpar : forall u, par (delete t (threads s)) u = par (threads s) u).
  { intros u. unfold par. destruct (decide (u = t)) as [->|]; [by rewrite lookup_delete_eq, Hx|by rewrite lookup_delete_ne]. }
  assert (Hal : forall u, alive ∅ (delete t (threads s)) u <-> alive ∅ (threads s) u).
  { intros u. destruct (decide (u = t)) as [->|Hu].
    - split; [intros (? & Hd & _); by rewrite lookup_delete_eq in Hd|done].
    - unfold alive. by rewrite lookup_delete_ne. }
  assert (Hdet : forall u, u <> t -> det (delete t (threads s)) u = det (threads s) u) by (intros u Hu; unfold det; by rewrite lookup_delete_ne).
  assert (Hnt : par (threads s) t = None) by (unfold par; by rewrite Hx).
  split; [split|split].
  - intros u c. rewrite Hpar. assert (Hk : kids (delete t (threads s)) u = kids (threads s) u).
    { unfold kids. destruct (decide (u = t)) as [->|]; [by rewrite lookup_delete_eq, Hx|by rewrite lookup_delete_ne]. }
    cbn. rewrite Hk, W1. destruct (decide (c = t)) as [->|Hct]; [rewrite Hnt; by split; intros [? _]|by rewrite Hdet].
  - intros u c Hu. cbn in *. assert (u <> t) by (intros ->; by apply Hdead, Hal). rewrite Hal in Hu. rewrite Hpar.
    assert (Hk : dkids (delete t (threads s)) u = dkids (threads s) u) by (unfold dkids; by rewrite lookup_delete_ne).
    rewrite Hk, W2 by done. destruct (decide (c = t)) as [->|Hct]; [rewrite Hnt; by split; intros [? _]|by rewrite Hdet].
  - intros u c. cbn. rewrite Hpar, Hal. apply W3.
  - intros u y. cbn. intros [Hu Hy]%lookup_delete_Some. destruct (W4 u y Hy) as [M1 M2 M3 M4 M5 M6]. split; try done.
    intros Hj. destruct (M4 Hj) as (? & ? & ? & ? & HM). split_and!; try done. intros c Hcc HE Hec.
    apply HM; [done..|]. destruct (decide (c = t)) as [->|]; unfold ended in *; [by rewrite lookup_delete_eq in Hec|by rewrite lookup_delete_ne in Hec].
  - destruct W5 as [r Hr]. exists r. intros c q. cbn. rewrite Hpar. apply Hr.
  - intros u y. cbn. intros [Hu Hy]%lookup_delete_Some. by apply (S1 u).
  - intros sc y u Hsc Hu. cbn in *. destruct (S2 sc y u Hsc Hu) as [Hau (z & Hz & Hzs)]. split; [by apply Hal|].
    exists z. split; [|done]. rewrite lookup_delete_ne; [done|]. intros ->. done.
Qed.

Definition count_children (t : tid) (s : state) : nat := from_option (fun x => size (children x)) 0%nat (get t s).

(** One step of the loop of [%join/detach]. *)
Lemma detach_step_returns s t x :
  wf s -> running s t x -> children x <> ∅ -> task_func_children x = ∅ ->
  (forall c y, c ∈ children x -> threads s !! c = Some y -> wt_context y = None \/ wt_context x <> wt_context y) ->
  returns (detach_step t s) (fun s' => wf s' /\ exists c x', c ∈ children x /\ threads s' !! t = Some x' /\
    children x' = children x ∖ {[c]} /\ task_func_children x' = ∅ /\ wt_context x' = wt_context x /\ running s' t x' /\
    detached_children x' = (if ended (threads s) c then ∅ else {[c]}) ∪ detached_children x /\
    (forall u y, u ∈ children x' -> threads s' !! u = Some y -> threads s !! u = Some y)).
Proof.
  intros W (Hx & He & Hj & Hw & Hwe & Hs) Hc Htask Hctx. unfold detach_step. rewrite (get_state _ _ _ Hx). cbn [mbind option_bind].
  destruct (set_begin_ne _ Hc) as (c & -> & Hin). cbn [mbind option_bind].
  destruct (child_at _ _ _ _ _ W Hx Hin) as (y & Hy & Hp & Hd & Hne). rewrite (get_state _ _ _ Hy). cbn [mbind option_bind].
  rewrite assert_bool_decide by done.
  assert (Hok : bool_decide (wt_context y = None) || negb (bool_decide (wt_context x = wt_context y)) = true).
  { destruct (Hctx c y Hin Hy) as [Hn|Hn]; [by rewrite bool_decide_eq_true_2|].
    rewrite (bool_decide_eq_false_2 _ Hn). apply orb_true_r. }
  rewrite Hok. cbn [assert_ mbind option_bind]. assert (Hend : ended (threads s) c = i_have_ended y) by (unfold ended; by rewrite Hy).
  destruct (i_have_ended y) eqn:Ey.
  - destruct (local_at _ _ _ _ W Hy) as [L1 _ _ _ _ _ _]. destruct (L1 Ey) as [_ HL]. destruct (HL ltac:(set_solver)) as (Hcy & _ & _).
    assert (Halc : alive ∅ (threads s) c) by (rewrite (alive_at _ _ _ _ Hy); right; right; congruence).
    eapply returns_mono; [apply (wfs_reap ∅ s c y W Hy Halc Ey Hcy)|].
    + intros q z Hq Hz. rewrite Hp in Hq. injection Hq as <-. rewrite Hx in Hz. injection Hz as <-. rewrite Hd. split; [done|]. intros _. rewrite Htask. apply not_elem_of_empty.
    + intros s' (W' & Hre & _ & _). replace (∅ ∖ {[c]}) with (∅ : gset tid) in W' by (clear; set_solver). split; [done|].
      destruct (reap_parent_not_child ∅ (threads s) c y (proj1 W) Hy Halc t Hp) as [Hnt _].
      destruct Hre as [Hre _]. pose proof (Hre t ltac:(done)) as Ht. rewrite decide_False, decide_True, Hx, Hd in Ht by done. cbn in Ht.
      eexists c, _. split; [done|]. split; [exact Ht|]. rewrite Hend. cbn. split_and!; try done; [|].
      * by rewrite union_empty_l_L.
      * intros u z Hu Hz. assert (Hu' : u ∈ children x) by (by apply elem_of_difference in Hu as [? _]).
        destruct (child_at _ _ _ _ _ W Hx Hu') as (z0 & Hz0 & Hpz & Hdz & _).
        rewrite Hre in Hz by (apply elem_of_difference in Hu as [_ Hu]; by rewrite elem_of_singleton in Hu). case_decide as Hdc.
        { destruct (reap_detached_child ∅ (threads s) c y (proj1 W) Hy Halc u Hdc) as [_ Hdd]. unfold det in Hdd. rewrite Hz0 in Hdd. cbn in Hdd. congruence. }
        case_decide as Hpu; [|done]. assert (u = t) as -> by congruence. destruct (child_at _ _ _ _ _ W Hx Hu') as (_ & _ & _ & _ & ?). done.
  - rewrite (edit_returns _ _ _ _ Hx). cbn [mbind option_bind].
    rewrite (edit_returns c y) by (cbn; by rewrite lookup_insert_ne). cbn [mbind option_bind].
    rewrite (edit_returns t (set_children (fun X => X ∖ {[c]}) x)) by (cbn; by rewrite lookup_insert_ne, lookup_insert_eq).
    set (x' := set_detached_children _ _). apply returns_ret.
    assert (Est : put t x' (put c (set_detached true y) (put t (set_children (fun X => X ∖ {[c]}) x) s)) = put t x' (put c (set_detached true y) s)).
    { unfold put, with_threads. cbn. f_equal. rewrite (insert_insert_ne _ c t) by done. by rewrite insert_insert_eq. }
    rewrite Est. assert (Htc : threads (put c (set_detached true y) s) !! t = Some x) by (cbn; by rewrite lookup_insert_ne). split.
    + destruct W as [W S]. split; [apply (wf_detach ∅ (threads s) t x c y); try done; by rewrite Htask|].
      apply (scopes_put ∅ ∅ _ t x); [|exact Htc|done|].
      * apply (scopes_put ∅ ∅ _ c y); [exact S|exact Hy|done|]. intros u Hu. rewrite alive_insert. destruct (decide (u = c)) as [Huc|]; [|exact Hu]. rewrite Huc, (alive_at _ _ _ _ Hy) in Hu. exact Hu.
      * intros u Hu. rewrite alive_insert. destruct (decide (u = t)) as [Hut|]; [|exact Hu]. rewrite Hut, (alive_at _ _ _ _ Htc) in Hu. done.
    + exists c, x'. split; [done|]. split; [cbn; apply lookup_insert_eq|]. rewrite Hend. split_and!; try done.
      * split_and!; try done. cbn. apply lookup_insert_eq.
      * intros u z Hu Hz. apply elem_of_difference in Hu as [Hu' Huc]. rewrite elem_of_singleton in Huc. destruct (child_at _ _ _ _ _ W Hx Hu') as (_ & _ & _ & _ & ?).
        cbn in Hz. rewrite lookup_insert_ne, lookup_insert_ne in Hz by done. done.
Qed.

(** The children that have ended are reaped, the others detached. *)
Lemma of_JOIN_DETACH_returns s t x :
  wf s -> running s t x -> task_func_children x = ∅ ->
  (forall c y, c ∈ children x -> threads s !! c = Some y -> wt_context y = None \/ wt_context x <> wt_context y) ->
  returns (of_JOIN_DETACH t (size (children x)) s) (fun r => fst r = true /\ wf (snd r) /\
    exists x', running (snd r) t x' /\ children x' = ∅ /\
      forall c, c ∈ detached_children x' <-> c ∈ detached_children x \/ (c ∈ children x /\ ended (threads s) c = false)).
Proof.
  intros W Hr Htask Hctx. pose proof Hr as (Hx & _). unfold of_JOIN_DETACH. rewrite (get_state _ _ _ Hx). cbn [mbind option_bind].
  rewrite assert_bool_decide by done. rewrite Nat.eqb_refl. cbn [assert_ mbind option_bind].
  eapply returns_bind.
  - apply (returns_while (fun s' => wf s' /\ exists x', running s' t x' /\ children x' ⊆ children x /\ task_func_children x' = ∅ /\ wt_context x' = wt_context x /\
      (forall u y, u ∈ children x' -> threads s' !! u = Some y -> threads s !! u = Some y) /\
      forall c, c ∈ detached_children x' <-> c ∈ detached_children x \/ (c ∈ children x ∖ children x' /\ ended (threads s) c = false)) (count_children t)).
    + split; [done|]. exists x. split_and!; try done. set_solver +.
    + unfold count_children. by rewrite (get_state _ _ _ Hx).
    + intros s1 (W1 & x1 & Hr1 & Hsub & Ht1 & Hw1 & Hfr & Hdet) Hcond. pose proof Hr1 as (Hx1 & _).
      unfold has_children in Hcond. rewrite (get_state _ _ _ Hx1) in Hcond. apply negb_true_iff, bool_decide_eq_false in Hcond.
      eapply returns_mono; [apply (detach_step_returns s1 t x1 W1 Hr1 Hcond Ht1)|].
      { intros c y Hc Hy. rewrite Hw1. apply (Hctx c y); [set_solver +Hsub Hc|by apply (Hfr c)]. }
      intros s2 (W2 & c & x2 & Hin & Hx2 & Hc2 & Ht2 & Hw2 & Hr2 & Hd2 & Hfr2).
      assert (Hec : ended (threads s1) c = ended (threads s) c).
      { destruct (child_at _ _ _ _ _ W1 Hx1 Hin) as (y & Hy & _). unfold ended. by rewrite Hy, (Hfr c y Hin Hy). }
      split; [split; [done|]|].
      * exists x2. split_and!; try done; [set_solver +Hsub Hc2|congruence| |].
        { intros u y Hu Hy. apply (Hfr u y); [set_solver +Hc2 Hu|]. by apply Hfr2. }
        intros u. rewrite Hd2, Hec, elem_of_union, Hdet, Hc2.
        assert (Hcx : c ∈ children x) by (by apply Hsub). rewrite !elem_of_difference, elem_of_singleton. clear - Hcx Hin.
        destruct (decide (u = c)) as [->|Huc]; [destruct (ended (threads s) c); rewrite ?elem_of_empty, ?elem_of_singleton; naive_solver|].
        destruct (decide (u ∈ children x1)), (ended (threads s) c); rewrite ?elem_of_empty, ?elem_of_singleton; naive_solver.
      * unfold count_children. rewrite (get_state _ _ _ Hx1), (get_state _ _ _ Hx2). cbn. rewrite Hc2. apply subset_size. set_solver +Hin.
  - intros s' [(W' & x' & Hr' & _ & _ & _ & _ & Hdet) Hcond]. pose proof Hr' as (Hx' & _). unfold has_children in Hcond. rewrite (get_state _ _ _ Hx') in Hcond.
    apply negb_false_iff, bool_decide_eq_true in Hcond. apply returns_ret. split; [done|]. split; [done|]. exists x'. split; [done|]. split; [done|].
    intros c. rewrite Hdet, Hcond. set_solver +.
Qed.

(** *** Disabling *)

(** A thread that has ended or is gone. *)
Definition dead (m : gmap tid vthread_l) (u : tid) : bool := from_option i_have_ended true (m !! u).

(** What [do_disable] leaves of a thread: it can end and lose its parent. *)
Definition weaker (y y' : vthread_l) : Prop :=
  parent_scope y' = parent_scope y /\ wt_context y' = wt_context y /\ (i_am_detached y' = true -> i_am_detached y = true) /\
  (i_have_ended y = true -> i_have_ended y' = true) /\ (forall p, parent y' = Some p -> parent y = Some p).

Lemma weaker_refl y : weaker y y.
Proof. by split_and!. Qed.

Lemma weaker_trans y y' y'' : weaker y y' -> weaker y' y'' -> weaker y y''.
Proof. unfold weaker. intros (A1 & A2 & A3 & A4 & A5) (B1 & B2 & B3 & B4 & B5). split_and!; [congruence|congruence|auto..]. Qed.

(** The threads and the members of the scopes that are left, and what holds of them. *)
Record shrinks (s s' : state) : Prop := mk_shrinks {
  sh_threads : forall u y', threads s' !! u = Some y' -> exists y, threads s !! u = Some y /\ weaker y y';
  sh_scopes : forall sc y, scopes s !! sc = Some y -> exists y', scopes s' !! sc = Some y' /\ scope_threads y' ⊆ scope_threads y /\
    forall u, u ∈ scope_threads y -> u ∉ scope_threads y' -> dead (threads s') u = true }.

Lemma weaker_dead s s' u :
  (forall u y', threads s' !! u = Some y' -> exists y, threads s !! u = Some y /\ weaker y y') ->
  dead (threads s) u = true -> dead (threads s') u = true.
Proof.
  unfold dead. intros H Hd. destruct (threads s' !! u) as [y'|] eqn:E; [|done]. destruct (H u y' E) as (y & Hy & Hw).
  rewrite Hy in Hd. by apply Hw.
Qed.

Lemma shrinks_dead s s' u : shrinks s s' -> dead (threads s) u = true -> dead (threads s') u = true.
Proof. intros [H _]. by apply weaker_dead. Qed.

Lemma shrinks_same_scopes s s' :
  (forall u y', threads s' !! u = Some y' -> exists y, threads s !! u = Some y /\ weaker y y') -> scopes s' = scopes s -> shrinks s s'.
Proof. intros H Es. split; [done|]. intros sc y Hy. exists y. rewrite Es. split_and!; try done. Qed.

#[export] Instance shrinks_preorder : PreOrder shrinks.
Proof.
  split.
  - intros s. apply shrinks_same_scopes; [|done]. intros u y Hy. exists y. split; [done|apply weaker_refl].
  - intros s1 s2 s3 [A1 A2] [B1 B2]. split.
    + intros u y Hy. destruct (B1 u y Hy) as (y2 & Hy2 & Hw2). destruct (A1 u y2 Hy2) as (y1 & Hy1 & Hw1).
      exists y1. split; [done|]. by eapply weaker_trans.
    + intros sc y Hy. destruct (A2 sc y Hy) as (y2 & Hy2 & Hs2 & Hd2). destruct (B2 sc y2 Hy2) as (y3 & Hy3 & Hs3 & Hd3).
      exists y3. split; [done|]. split; [by transitivity (scope_threads y2)|]. intros u Hu Hnu.
      destruct (decide (u ∈ scope_threads y2)) as [Hu2|Hu2]; [by apply Hd3|]. apply (weaker_dead s2 s3 u B1). by apply Hd2.
Qed.

Lemma shrinks_put s t x x' : threads s !! t = Some x -> weaker x x' -> shrinks s (put t x' s).
Proof.
  intros Hx Hw. apply shrinks_same_scopes; [|done]. cbn. intros u y [[<- <-]|[Hne Hy]]%lookup_insert_Some; [by exists x|].
  exists y. split; [done|apply weaker_refl].
Qed.

Lemma shrinks_without s s' sc t :
  (forall u y', threads s' !! u = Some y' -> exists y, threads s !! u = Some y /\ weaker y y') ->
  scopes s' = without sc t (scopes s) -> dead (threads s') t = true -> shrinks s s'.
Proof.
  intros H Es Hd. split; [done|]. rewrite Es. intros sc' y Hy. unfold without.
  destruct (decide (sc' = sc)) as [->|]; [|rewrite lookup_alter_ne by done; exists y; split_and!; done].
  rewrite lookup_alter_eq, Hy. eexists. split; [done|]. cbn. split; [set_solver +|]. intros u Hu Hnu.
  assert (u = t) as -> by (destruct (decide (u = t)) as [|Hne]; [done|]; exfalso; apply Hnu; apply elem_of_difference; by rewrite elem_of_singleton). done.
Qed.

Lemma without_not_in sc t ss y : without sc t ss !! sc = Some y -> t ∉ scope_threads y.
Proof. unfold without. rewrite lookup_alter_eq. destruct (ss !! sc); [|done]. intros [= <-]. cbn. set_solver. Qed.

Lemma reaped_dead m m' t x u : m !! t = Some x -> i_have_ended x = true -> reaped m t x m' -> dead m' u = dead m u.
Proof.
  intros Hx He [Hu Ht]. unfold dead. destruct (decide (u = t)) as [->|Hne].
  - rewrite Hx. cbn. rewrite He. by destruct Ht as [-> | ->].
  - rewrite Hu by done. repeat case_decide; destruct (m !! u); try done. cbn. unfold remove_child. by destruct (i_am_detached x).
Qed.

Lemma shrinks_reap s s' t x sc :
  threads s !! t = Some x -> i_have_ended x = true -> reaped (threads s) t x (threads s') -> scopes s' = without sc t (scopes s) -> shrinks s s'.
Proof.
  intros Hx He Hre Hsc. apply (shrinks_without _ _ sc t); [|done|rewrite (reaped_dead _ _ _ _ _ Hx He Hre); unfold dead; by rewrite Hx].
  destruct Hre as [Hu Ht]. intros u y' Hy'. destruct (decide (u = t)) as [->|Hne].
  - destruct Ht as [Ht|Ht]; rewrite Ht in Hy'; [done|]. injection Hy' as <-. exists x. split; [done|]. by split_and!.
  - rewrite Hu in Hy' by done. repeat case_decide; destruct (threads s !! u) as [y|]; try done; injection Hy' as <-; exists y; (split; [done|]).
    + by split_and!.
    + unfold remove_child. destruct (i_am_detached x); by split_and!.
    + apply weaker_refl.
Qed.

Lemma dead_put s t x u : dead (threads (put t x s)) u = if decide (u = t) then i_have_ended x else dead (threads s) u.
Proof. unfold dead. cbn. case_decide as H; [by rewrite H, lookup_insert_eq|by rewrite lookup_insert_ne]. Qed.

(** A rank of the threads: parents come before their children. *)
Definition ranks (rank : tid -> nat) (m : gmap tid vthread_l) : Prop := forall c p, par m c = Some p -> (rank p < rank c)%nat.

Lemma shrinks_ranks rank s s' : shrinks s s' -> ranks rank (threads s) -> ranks rank (threads s').
Proof.
  intros [H _] Hr c p Hp. apply Hr. unfold par in *. destruct (threads s' !! c) as [y'|] eqn:E; [|done].
  destruct (H c y' E) as (y & -> & Hw). by apply Hw.
Qed.

(** The part of [do_disable] that does not depend on a joining parent: the
    thread is a zombie without children. *)
Definition disabled (x : vthread_l) : vthread_l := set_children (fun _ => ∅) (set_joining false (set_ended true x)).

Record disables (rank : tid -> nat) (mtch : tid) (E : gset tid) (s : state) (t : tid) (x : vthread_l) (r : bool * state) : Prop := mk_disables {
  dis_wf : wfs ({[t]} ∪ E) (snd r);
  dis_self : threads (snd r) !! t = Some (disabled x);
  dis_frame : forall u, u <> t -> (rank u <= rank t)%nat -> threads (snd r) !! u = threads s !! u;
  dis_shrinks : shrinks s (snd r);
  dis_scope : forall y, scopes (snd r) !! parent_scope x = Some y -> t ∉ scope_threads y;
  dis_dead : dead (threads (snd r)) mtch = fst r || dead (threads s) mtch }.

Section disable.
Context (rank : tid -> nat) (mtch : tid).

(** The threads that can still be disabled. *)
Definition left_over (E : gset tid) (s : state) : gset tid := dom (threads s) ∖ E.

Lemma shrinks_left_over E s s' : shrinks s s' -> left_over E s' ⊆ left_over E s.
Proof.
  intros [H _] u. unfold left_over. rewrite !elem_of_difference, !elem_of_dom. intros [[y' Hy'] HE]. split; [|done].
  destruct (H u y' Hy') as (y & -> & _). by eexists.
Qed.

Lemma children_left_over E s t x :
  wfs E s -> ranks rank (threads s) -> (forall e, e ∈ E -> (rank e <= rank t)%nat) -> threads s !! t = Some x ->
  children x ⊆ left_over E s.
Proof.
  intros W Hr HE Hx c Hc. destruct (child_at _ _ _ _ _ W Hx Hc) as (y & Hy & Hp & _ & _). unfold left_over.
  rewrite elem_of_difference, elem_of_dom. split; [by eexists|]. intros Hin. specialize (HE c Hin).
  assert (par (threads s) c = Some t) as Hpc%Hr by (unfold par; by rewrite Hy). lia.
Qed.

(** One pass of the loop: the child is disabled and reaped. *)
Lemma disable_child E s t y c (r : bool * state) z :
  wfs E s -> ranks rank (threads s) -> threads s !! t = Some y -> i_have_ended y = true -> i_am_joining y = false -> c ∈ children y ->
  threads s !! c = Some z -> c ∉ E -> disables rank mtch E s c z r ->
  returns (vthread_reap c (snd r)) (fun s' => wfs E s' /\ threads s' !! t = Some (set_children (fun X => X ∖ {[c]}) y) /\
    (forall u, u <> t -> (rank u <= rank t)%nat -> threads s' !! u = threads s !! u) /\ shrinks s s' /\
    dead (threads s') mtch = fst r || dead (threads s) mtch).
Proof.
  intros W Hr Hy Hey Hj Hc Hz HcE [D1 D2 D3 D4 D5 D6]. destruct (child_at _ _ _ _ _ W Hy Hc) as (z' & Hz' & Hp & Hd & Hne).
  assert (z' = z) as -> by congruence. assert (Hpar : par (threads s) c = Some t) by (unfold par; by rewrite Hz).
  pose proof (Hr _ _ Hpar) as Hrank.
  assert (Hal : alive ({[c]} ∪ E) (threads (snd r)) c) by (rewrite (alive_at _ _ _ _ D2); left; set_solver +).
  assert (Hy' : threads (snd r) !! t = Some y) by (rewrite D3; [done|done|lia]).
  eapply returns_mono; [apply (wfs_reap ({[c]} ∪ E) (snd r) c (disabled z) D1 D2 Hal)|]; try done.
  - intros p q Hq1 Hq2. cbn in Hq1 |- *. rewrite Hd. assert (p = t) as -> by congruence. assert (q = y) as -> by congruence.
    split; [done|]. congruence.
  - intros s' (W' & Hre & Hsc & _). replace (({[c]} ∪ E) ∖ {[c]}) with E in W' by (apply set_eq; intros u; destruct (decide (u = c)) as [->|]; set_solver +HcE).
    assert (Hin : forall u, (rank u <= rank t)%nat -> u ∉ detached_children (disabled z)).
    { intros u Hu Hin. destruct (reap_detached_child ({[c]} ∪ E) (threads (snd r)) c _ (proj1 D1) D2 Hal u Hin) as [Hpu _].
      apply (shrinks_ranks rank _ _ D4 Hr) in Hpu. lia. }
    pose proof (shrinks_reap (snd r) s' c _ _ D2 eq_refl Hre Hsc) as Hshr. split_and!; [done| | |by transitivity (snd r)|].
    + rewrite (proj1 Hre), decide_False, decide_True, Hy' by (done || apply Hin; lia). cbn. by rewrite Hd.
    + intros u Hu Hru. assert (u <> c) by (intros ->; lia). rewrite (proj1 Hre), decide_False, decide_False; [apply D3; [done|lia]| |by apply Hin|done].
      cbn. congruence.
    + by rewrite (reaped_dead _ _ _ _ _ D2 eq_refl Hre), D6.
Qed.

(** The loop, when the recursive call does what it should. *)
Lemma disable_children_returns disable fuel E s t x :
  wfs E s -> ranks rank (threads s) -> threads s !! t = Some x -> i_have_ended x = true -> (forall e, e ∈ E -> (rank e <= rank t)%nat) ->
  (size (left_over E s) < fuel)%nat ->
  (forall s' c z, wfs E s' -> ranks rank (threads s') -> threads s' !! c = Some z -> (exists y, parent z = Some t /\ threads s' !! t = Some y /\ i_am_joining y = false) ->
    (rank t < rank c)%nat -> left_over E s' ⊆ left_over E s -> returns (disable c s') (disables rank mtch E s' c z)) ->
  returns (disable_children disable fuel t s) (fun r => wfs E (snd r) /\ threads (snd r) !! t = Some (set_children (fun _ => ∅) (set_joining false x)) /\
    (forall u, u <> t -> (rank u <= rank t)%nat -> threads (snd r) !! u = threads s !! u) /\ shrinks s (snd r) /\
    dead (threads (snd r)) mtch = fst r || dead (threads s) mtch).
Proof.
  intros W Hr Hx Hex HE Hfuel Hdis.
  set (I := fun fs : bool * state => wfs E (snd fs) /\ (exists y, threads (snd fs) !! t = Some y /\ set_children (fun _ => ∅) (set_joining false y) = set_children (fun _ => ∅) (set_joining false x) /\ children y ⊆ children x) /\
    (forall u, u <> t -> (rank u <= rank t)%nat -> threads (snd fs) !! u = threads s !! u) /\ shrinks s (snd fs) /\
    dead (threads (snd fs)) mtch = fst fs || dead (threads s) mtch).
  unfold disable_children. eapply returns_mono; [apply (returns_while I (fun fs => count_children t (snd fs)))|].
  - split_and!; [done|by exists x|done|done|done].
  - unfold count_children. cbn [snd]. rewrite (get_state _ _ _ Hx). cbn. apply Nat.lt_le_incl. eapply Nat.le_lt_trans; [|exact Hfuel].
    apply subseteq_size. by apply (children_left_over E s t x).
  - intros [flag s1] (W1 & (y & Hy & Ey & Hsub) & Hfr & Hsh & Hdead) Hcond. cbn [fst snd] in *.
    unfold has_children in Hcond. rewrite (get_state _ _ _ Hy) in Hcond. apply negb_true_iff, bool_decide_eq_false in Hcond.
    destruct (set_begin_ne _ Hcond) as (c & Hb & Hin). rewrite (get_state _ _ _ Hy). cbn [mbind option_bind]. rewrite Hb. cbn [mbind option_bind].
    destruct (child_at _ _ _ _ _ W1 Hy Hin) as (z & Hz & Hp & Hd & Hne). rewrite (get_state _ _ _ Hz). cbn [mbind option_bind].
    rewrite assert_bool_decide by done. rewrite (edit_returns _ _ _ _ Hy). cbn [mbind option_bind]. set (s2 := put t (set_joining false y) s1).
    pose proof (shrinks_ranks rank _ _ Hsh Hr) as Hr1.
    assert (Hey : i_have_ended y = true) by (assert (H : i_have_ended (set_children (fun _ => ∅) (set_joining false y)) = i_have_ended x) by (by rewrite Ey); by rewrite <- Hex, <- H).
    assert (W2 : wfs E s2) by (eapply wfs_put; try done; intros [L1 L2 L3 L4 L5 L6 L7]; split; cbn; try done; intros H; destruct (L1 H) as [? HL]; split; [done|]; intros HE'; destruct (HL HE') as (? & ? & ?); done).
    assert (Hsh2 : shrinks s1 s2) by (apply (shrinks_put _ _ _ _ Hy); by split_and!).
    assert (Hy2 : threads s2 !! t = Some (set_joining false y)) by (cbn; apply lookup_insert_eq).
    assert (Hz2 : threads s2 !! c = Some z) by (cbn; by rewrite lookup_insert_ne).
    pose proof (shrinks_ranks rank _ _ Hsh2 Hr1) as Hr2.
    assert (Hrank : (rank t < rank c)%nat) by (apply Hr2; unfold par; by rewrite Hz2).
    eapply returns_bind; [apply (Hdis s2 c z W2 Hr2 Hz2)|].
    { by exists (set_joining false y). }
    { done. }
    { apply shrinks_left_over. by transitivity s1. }
    intros [f s3] D. cbn [mbind option_bind].
    eapply returns_bind; [apply (disable_child E s2 t (set_joining false y) c (f, s3) z W2 Hr2 Hy2 Hey eq_refl Hin Hz2); [|exact D]|].
    { intros Hc. specialize (HE c Hc). lia. }
    intros s4 (W4 & Hy4 & Hfr4 & Hsh4 & Hdead4). apply returns_ret. cbn [fst snd] in *. split; [split_and!|].
    + done.
    + eexists. split; [exact Hy4|]. split; [by rewrite <- Ey|]. cbn. set_solver +Hsub.
    + intros u Hu Hru. rewrite Hfr4 by done. cbn. rewrite lookup_insert_ne by done. by apply Hfr.
    + transitivity s1; [done|]. by transitivity s2.
    + cbn [fst snd]. rewrite Hdead4. unfold s2. rewrite dead_put. case_decide as Hm.
      * assert (dead (threads s1) mtch = true) as Hd1 by (unfold dead; rewrite Hm, Hy; exact Hey). rewrite Hd1 in Hdead. cbn [i_have_ended set_joining]. rewrite Hey.
        destruct f, flag; cbn in *; done.
      * rewrite Hdead. by destruct f, flag.
    + unfold count_children. rewrite (get_state _ _ _ Hy), (get_state _ _ _ Hy4). cbn. apply subset_size. set_solver +Hin.
  - intros [flag s1] [(W1 & (y & Hy & Ey & Hsub) & Hfr & Hsh & Hdead) Hcond]. cbn [fst snd] in *.
    unfold has_children in Hcond. rewrite (get_state _ _ _ Hy) in Hcond. apply negb_false_iff, bool_decide_eq_true in Hcond.
    split_and!; try done. rewrite Hy, <- Ey. destruct (local_at _ _ _ _ W1 Hy) as [_ _ _ L4 _ _ _]. destruct (i_am_joining y) eqn:Ej; [by destruct (L4 eq_refl) as (_ & _ & _ & ? & _)|].
    destruct y. cbn in *. by subst.
Qed.

Definition disable_spec (fuel : nat) : Prop := forall E s t x,
  wfs E s -> ranks rank (threads s) -> threads s !! t = Some x -> alive E (threads s) t -> t ∉ E ->
  (forall e, e ∈ E -> (rank e < rank t)%nat) -> (size (left_over E s) < fuel)%nat ->
  (exists p y, parent x = Some p /\ threads s !! p = Some y /\ i_am_joining y = false) ->
  returns (do_disable fuel t mtch s) (disables rank mtch E s t x).

Lemma do_disable_front fuel E s t x (P : bool * state -> Prop) :
  disable_spec fuel -> wfs E s -> ranks rank (threads s) -> threads s !! t = Some x -> alive E (threads s) t -> t ∉ E ->
  (forall e, e ∈ E -> (rank e < rank t)%nat) -> (size (left_over E s) < S fuel)%nat ->
  (forall flag s', disables rank mtch E s t x (flag || bool_decide (t = mtch), s') ->
     returns (disable_finish t s') (fun s'' => P (flag || bool_decide (t = mtch), s''))) ->
  returns (do_disable (S fuel) t mtch s) P.
Proof.
  intros IH W Hr Hx Hal HtE HE Hfuel HP. cbn [do_disable]. rewrite (get_state _ _ _ Hx). cbn [mbind option_bind].
  destruct (wf_scope_of _ _ (proj2 W) _ _ Hx) as [sc Hsc].
  rewrite scope_erase_returns by (by eexists). cbn [mbind option_bind]. set (s1 := mk_state _ _ _ _).
  assert (W1 : wfs E s1).
  { destruct W as [W [S1 S2]]. split; [done|]. split.
    - intros u y Hy. destruct (S1 u y Hy) as [w Hw]. cbn. unfold without. destruct (decide (parent_scope y = parent_scope x)) as [->|]; [rewrite lookup_alter_eq, Hsc|rewrite lookup_alter_ne by done]; by eexists.
    - intros sc' y u Hy Hu. cbn in Hy. unfold without in Hy. destruct (decide (sc' = parent_scope x)) as [->|Hne].
      + rewrite lookup_alter_eq, Hsc in Hy. injection Hy as <-. cbn in Hu. apply (S2 (parent_scope x) sc u Hsc). set_solver +Hu.
      + rewrite lookup_alter_ne in Hy by done. by apply (S2 sc' y). }
  assert (Hx1 : threads s1 !! t = Some x) by done. rewrite (edit_returns _ _ _ _ Hx1). cbn [mbind option_bind].
  pose proof (wfs_end E s1 t x true W1 Hx1 Hal) as W2. set (s2 := put t (set_ended true x) s1) in *.
  assert (Hsh2 : shrinks s s2).
  { apply (shrinks_without s s2 (parent_scope x) t); [|done|unfold dead; cbn; by rewrite lookup_insert_eq].
    intros u y' Hy'. cbn in Hy'. apply lookup_insert_Some in Hy' as [[<- <-]|[_ Hy']]; [exists x; split; [done|by split_and!]|].
    exists y'. split; [done|apply weaker_refl]. }
  assert (Hx2 : threads s2 !! t = Some (set_ended true x)) by (cbn; apply lookup_insert_eq).
  assert (Hsize : (size (left_over ({[t]} ∪ E) s2) < fuel)%nat).
  { eapply Nat.lt_le_trans; [|apply Nat.lt_succ_r; exact Hfuel]. apply subset_size. unfold left_over. cbn. rewrite dom_insert_lookup by (by eexists).
    assert (t ∈ dom (threads s)) by (apply elem_of_dom; by eexists). set_solver. }
  eapply returns_bind.
  - apply (disable_children_returns _ fuel ({[t]} ∪ E) s2 t _ W2 (shrinks_ranks rank _ _ Hsh2 Hr) Hx2 eq_refl).
    + intros e [->%elem_of_singleton|He]%elem_of_union; [done|]. specialize (HE e He). lia.
    + done.
    + intros s' c z W' Hr' Hz (y & Hp & Hy & Hj) Hrank Hleft. apply IH; try done.
      * rewrite (alive_at _ _ _ _ Hz). right. right. congruence.
      * intros [->%elem_of_singleton|He]%elem_of_union; [lia|]. specialize (HE c He). lia.
      * intros e [->%elem_of_singleton|He]%elem_of_union; [done|]. specialize (HE e He). lia.
      * eapply Nat.le_lt_trans; [|exact Hsize]. by apply subseteq_size.
      * by exists t, y.
  - intros [flag s'] (W' & Hx' & Hfr & Hsh & Hdead). cbn [mbind option_bind fst snd] in *. eapply returns_bind; [apply (HP flag s')|].
    + split; cbn [fst snd]; [done|done| |by transitivity s2| |].
      * intros u Hu Hru. rewrite Hfr by done. cbn. by rewrite lookup_insert_ne.
      * intros y Hy. assert (Hy2 : without (parent_scope x) t (scopes s) !! parent_scope x = Some (mk_scope (is_automatic sc) (get_type_code sc) (scope_threads sc ∖ {[t]})))
          by (unfold without; by rewrite lookup_alter_eq, Hsc).
        destruct (sh_scopes _ _ Hsh _ _ Hy2) as (y' & Hy' & Hsub & _). assert (y' = y) as -> by congruence. cbn in Hsub. set_solver +Hsub.
      * rewrite Hdead. unfold s2. rewrite dead_put. destruct (decide (mtch = t)) as [Hm|Hm]; [rewrite bool_decide_eq_true_2 by done; by destruct flag|].
        rewrite bool_decide_eq_false_2 by congruence. by rewrite orb_false_r.
    + intros s'' Hs''. by apply returns_ret.
Qed.

Lemma do_disable_nested fuel : disable_spec fuel.
Proof.
  induction fuel as [|fuel IH]; intros E s t x W Hr Hx Hal HtE HE Hfuel (p & y & Hp & Hy & Hj); [lia|].
  apply (do_disable_front fuel E s t x); try done. intros flag s' D. pose proof D as [D1 D2 D3 D4 D5 D6]. cbn [fst snd] in *.
  assert (Hrank : (rank p < rank t)%nat) by (apply Hr; unfold par; by rewrite Hx).
  unfold disable_finish. rewrite (get_state _ _ _ D2). cbn [mbind option_bind]. change (parent (disabled x)) with (parent x). rewrite Hp.
  rewrite (get_state s' p y) by (rewrite D3; [done|intros ->; lia|lia]). cbn [mbind option_bind]. rewrite Hj. by apply returns_ret.
Qed.
End disable.

(** The disabled thread is the root of what [do_disable] kills: it is reaped
    when nobody joins it or when its parent waits for it. *)
Lemma do_disable_returns mtch s t x :
  wf s -> threads s !! t = Some x -> alive ∅ (threads s) t -> i_am_detached x = false ->
  wt_context x = None ->
  returns (do_disable (S (size (threads s))) t mtch s) (fun r => wf (snd r) /\ shrinks s (snd r) /\
    (forall y, scopes (snd r) !! parent_scope x = Some y -> t ∉ scope_threads y) /\ dead (threads (snd r)) t = true /\
    dead (threads (snd r)) mtch = fst r || dead (threads s) mtch /\
    forall p z, parent x = Some p -> threads s !! p = Some z -> i_am_joining z = true -> test_joinable z t = true ->
      CallVthread p 0 true ∈ calls (snd r) /\ exists z', threads (snd r) !! p = Some z' /\ woken z' /\ t ∉ children z').
Proof.
  intros W Hx Hal Hd Hctx. destruct (wf_rank _ _ (proj1 W)) as [rank Hr].
  apply (do_disable_front rank mtch (size (threads s)) ∅ s t x); try done.
  - apply do_disable_nested.
  - unfold left_over. rewrite difference_empty_L, size_dom. lia.
  - intros flag s' [D1 D2 D3 D4 D5 D6]. cbn [fst snd] in *. unfold disable_finish. rewrite (get_state _ _ _ D2). cbn [mbind option_bind].
    change (parent (disabled x)) with (parent x). destruct (parent x) as [p|] eqn:Ep.
    + assert (Hpp : par (threads s) t = Some p) by (unfold par; by rewrite Hx). pose proof (Hr _ _ Hpp) as Hrank.
      assert (exists z, threads s !! p = Some z) as [z Hz] by (destruct W as [[_ _ W3 _ _] _]; destruct (W3 _ _ Hpp) as (z & ? & _); by exists z).
      assert (Hne : t <> p) by (intros ->; lia).
      assert (Hz' : threads s' !! p = Some z) by (rewrite D3; [done|congruence|lia]). rewrite (get_state _ _ _ Hz'). cbn [mbind option_bind].
      destruct (i_am_joining z && test_joinable z t) eqn:Ej.
      * apply andb_true_iff in Ej as [Ej Et]. assert (Hez : i_have_ended z = false).
        { destruct (local_at _ _ _ _ W Hz) as [L1 _ _ _ _ _ _]. destruct (i_have_ended z) eqn:E; [|done]. destruct (L1 eq_refl) as [_ HL].
          destruct (HL ltac:(done)) as (_ & ? & _). congruence. }
        destruct (wake_joining _ s' p z t _ D1 Hz' D2 Hne Ej) as (s3 & E3 & W3 & Hz3 & Hx3 & Hc3 & _ & Hfr3 & Hes3). rewrite Hez.
        destruct (edit p (set_joining false) s') as [s4|]; [|done]. cbn [mbind option_bind] in *. rewrite E3. cbn [mbind option_bind].
        set (z3 := set_scheduled true (set_joining false z)) in *.
        assert (Hw3 : weaker z z3) by (by split_and!).
        assert (Et3 : threads s3 = <[p := z3]> (threads s')).
        { apply map_eq. intros u. destruct (decide (u = p)) as [->|Hu]; [by rewrite lookup_insert_eq|rewrite lookup_insert_ne by done; by apply Hfr3]. }
        eapply returns_mono; [apply (do_join_returns _ s3 p z3 t _ W3 Hz3 Hx3 Ep Hd eq_refl eq_refl eq_refl)|]; [by left|].
        intros s5 (W5 & (z' & Hz5 & J1 & _ & _ & J4 & J5 & _ & J7 & _) & _ & Hcalls5 & Hre). rewrite single_out in W5. destruct (Hre Hctx) as [Hre5 Hsc5].
        set (z4 := set_task_func_children (fun X => X ∖ {[t]}) z3) in *. set (s4' := put p z4 s').
        assert (Hx4 : threads s4' !! t = Some (disabled x)) by (cbn; rewrite lookup_insert_ne by done; exact D2).
        rewrite Et3, insert_insert_eq in Hre5. change (<[p := z4]> (threads s')) with (threads s4') in Hre5.
        rewrite Hes3 in Hsc5. change (scopes s') with (scopes s4') in Hsc5.
        pose proof (shrinks_reap s4' s5 t _ _ Hx4 eq_refl Hre5 Hsc5) as Hsh5.
        assert (Hsh4 : shrinks s' s4') by (apply (shrinks_put _ _ z); [done|by split_and!]).
        cbn [fst snd]. split_and!; [done|transitivity s'; [done|by transitivity s4']| | | |].
        -- intros y Hy. rewrite Hsc5 in Hy. by eapply without_not_in.
        -- rewrite (reaped_dead _ _ _ _ _ Hx4 eq_refl Hre5). unfold dead. by rewrite Hx4.
        -- rewrite (reaped_dead _ _ _ _ _ Hx4 eq_refl Hre5), <- D6. unfold s4'. rewrite dead_put. destruct (decide (mtch = p)) as [Hm|Hm]; [|done]. unfold dead. by rewrite Hm, Hz'.
        -- intros q y [= <-] Hy _ _. split; [destruct Hcalls5 as [->| ->]; rewrite Hc3; set_solver +|]. exists z'. split; [done|].
           split; [|rewrite J1; cbn; set_solver +]. split_and!; [by rewrite J7|by rewrite J4|rewrite J5; cbn; by destruct (joining_idle _ _ _ _ W Hz Ej) as (_ & _ & ?)].
      * apply returns_ret. cbn [fst snd]. split_and!; try done.
        -- apply (wfs_zombie ∅ s' t (disabled x)); try done; [by cbn; rewrite Ep|]. intros q y Hq Hy Hjy. assert (q = p) as -> by (cbn in Hq; congruence).
           assert (y = z) as -> by congruence. rewrite Hjy in Ej. exact Ej.
        -- unfold dead. by rewrite D2.
        -- intros q y [= <-] Hy Hjy Hty. assert (y = z) as -> by congruence. by rewrite Hjy, Hty in Ej.
    + eapply returns_mono; [apply (reap_orphan s' t (disabled x) D1 D2 eq_refl eq_refl Ep)|].
      intros s5 (W5 & _ & _ & _ & Hre5 & Hsc5). cbn [fst snd].
      pose proof (shrinks_reap s' s5 t _ _ D2 eq_refl Hre5 Hsc5) as Hsh5. split_and!; [done|by transitivity s'| | | |done].
      * intros y Hy. rewrite Hsc5 in Hy. by eapply without_not_in.
      * rewrite (reaped_dead _ _ _ _ _ D2 eq_refl Hre5). unfold dead. by rewrite D2.
      * by rewrite (reaped_dead _ _ _ _ _ D2 eq_refl Hre5), <- D6.
Qed.

Definition count_members (sc : positive) (s : state) : nat := from_option (fun y => size (scope_threads y)) 0%nat (scopes s !! sc).

(** [%disable]: no thread of the scope is left; the threads are not detached
    ones and have no context of an automatic task. *)
Lemma of_DISABLE_returns s t scope sc :
  wf s -> scopes s !! scope = Some sc ->
  (forall u x, u ∈ scope_threads sc -> threads s !! u = Some x -> i_am_detached x = false /\ wt_context x = None) ->
  returns (of_DISABLE t scope s) (fun r => wf (snd r) /\
    (exists sc', scopes (snd r) !! scope = Some sc' /\ scope_threads sc' = ∅) /\
    (forall u, u ∈ scope_threads sc -> dead (threads (snd r)) u = true) /\
    dead (threads (snd r)) t = negb (fst r) || dead (threads s) t).
Proof.
  intros W Hsc Hin. unfold of_DISABLE. rewrite Hsc. cbn [mbind option_bind].
  set (I := fun fs : bool * state => wf (snd fs) /\ shrinks s (snd fs) /\
    (exists sc', scopes (snd fs) !! scope = Some sc' /\ scope_threads sc' ⊆ scope_threads sc /\
       forall u, u ∈ scope_threads sc -> u ∉ scope_threads sc' -> dead (threads (snd fs)) u = true) /\
    dead (threads (snd fs)) t = fst fs || dead (threads s) t).
  eapply returns_bind; [apply (returns_while I (fun fs => count_members scope (snd fs)))|].
  - split_and!; [done|done| |done]. exists sc. split_and!; done.
  - unfold count_members. cbn [snd]. by rewrite Hsc.
  - intros [flag s1] (W1 & Hsh & (sc1 & Hsc1 & Hsub & Hgone) & Hdead) Hcond. cbn [fst snd] in *.
    rewrite Hsc1 in Hcond |- *. apply negb_true_iff, bool_decide_eq_false in Hcond. cbn [mbind option_bind].
    destruct (set_begin_ne _ Hcond) as (c & -> & Hc). cbn [mbind option_bind].
    destruct (wf_scope_threads _ _ (proj2 W1) _ _ _ Hsc1 Hc) as [Hal (x & Hx & Hps)].
    destruct (sh_threads _ _ Hsh _ _ Hx) as (x0 & Hx0 & Hw1 & Hw2 & Hw3 & _). destruct (Hin c x0 (Hsub c Hc) Hx0) as [Hd0 Hctx0].
    eapply returns_bind; [apply (do_disable_returns t s1 c x W1 Hx Hal)|].
    { destruct (i_am_detached x); [rewrite Hw3 in Hd0; done|done]. }
    { congruence. }
    intros [f s2] (W2 & Hsh2 & Hout & Hdc & Hdt & _). apply returns_ret. cbn [fst snd] in *.
    destruct (sh_scopes _ _ Hsh2 _ _ Hsc1) as (sc2 & Hsc2 & Hsub2 & Hd2). rewrite Hps in Hout. specialize (Hout sc2 Hsc2). split; [split_and!|].
    + done.
    + by transitivity s1.
    + exists sc2. split; [done|]. split; [set_solver +Hsub Hsub2|]. intros u Hu Hnu. destruct (decide (u = c)) as [->|Hne]; [done|].
      destruct (decide (u ∈ scope_threads sc1)) as [Hu1|Hu1]; [by apply Hd2|by apply (shrinks_dead s1 s2); [|apply Hgone]].
    + cbn [fst snd]. rewrite Hdt, Hdead. by destruct f, flag.
    + unfold count_members. rewrite Hsc1, Hsc2. apply subset_size. set_solver +Hout Hsub2 Hc.
  - intros [flag s'] [(W' & _ & (sc' & Hsc' & _ & Hgone) & Hdead) Hcond]. cbn [fst snd] in *. rewrite Hsc' in Hcond.
    apply negb_false_iff, bool_decide_eq_true in Hcond. apply returns_ret. cbn [fst snd]. split_and!; [done|by exists sc'| |by rewrite negb_involutive].
    intros u Hu. apply Hgone; [done|]. rewrite Hcond. set_solver +.
Qed.

(** [%disable/fork]: the detached children are killed and reaped, and the
    assertion that the thread itself is not among them holds. *)
Lemma of_DISABLE_FORK_returns s t x :
  wf s -> running s t x -> children x = ∅ ->
  returns (of_DISABLE_FORK t s) (fun r => fst r = true /\ wf (snd r) /\
    running (snd r) t (set_detached_children (fun _ => ∅) x) /\
    forall c, c ∈ detached_children x -> dead (threads (snd r)) c = true).
Proof.
  intros W (Hx & He & Hj & Hw & Hwe & Hs) Hc. destruct (wf_rank _ _ (proj1 W)) as [rank Hr].
  unfold of_DISABLE_FORK. rewrite (get_state _ _ _ Hx). cbn [mbind option_bind]. rewrite Hj, assert_bool_decide by done. cbn [negb assert_ mbind option_bind].
  set (I := fun s' => wf s' /\ shrinks s s' /\ (exists D, threads s' !! t = Some (set_detached_children (fun _ => D) x) /\ D ⊆ detached_children x /\
     forall c, c ∈ detached_children x -> c ∉ D -> dead (threads s') c = true)).
  eapply returns_bind; [apply (returns_while I (count_detached t))|].
  - split_and!; [done|done|]. exists (detached_children x). split_and!; [rewrite Hx; by destruct x|done|done].
  - unfold count_detached. by rewrite (get_state _ _ _ Hx).
  - intros s1 (W1 & Hsh & D & Hx1 & Hsub & Hgone) Hcond. unfold has_detached in Hcond. rewrite (get_state _ _ _ Hx1) in Hcond |- *.
    apply negb_true_iff, bool_decide_eq_false in Hcond. cbn [mbind option_bind]. set (x1 := set_detached_children _ x) in *.
    destruct (set_begin_ne _ Hcond) as (c & -> & Hin). cbn [mbind option_bind].
    assert (Hal1 : alive ∅ (threads s1) t) by (rewrite (alive_at _ _ _ _ Hx1); auto).
    destruct (reap_detached_child ∅ (threads s1) t x1 (proj1 W1) Hx1 Hal1 c Hin) as [Hp Hd]. pose proof (shrinks_ranks rank _ _ Hsh Hr) as Hr1.
    pose proof (Hr1 _ _ Hp) as Hrank. unfold par, det in Hp, Hd. destruct (threads s1 !! c) as [y|] eqn:Hy; [|done]. cbn in Hp, Hd.
    rewrite (get_state _ _ _ Hy). cbn [mbind option_bind]. rewrite assert_bool_decide by done.
    eapply returns_bind; [apply (do_disable_nested rank t (S (size (threads s1))) ∅ s1 c y W1 Hr1 Hy)|].
    { rewrite (alive_at _ _ _ _ Hy). right. right. congruence. }
    { done. }
    { done. }
    { unfold left_over. rewrite difference_empty_L, size_dom. lia. }
    { by exists t, x1. }
    intros [f s2] [D1 D2 D3 D4 D5 D6]. cbn [fst snd] in *. assert (Hx2 : threads s2 !! t = Some x1) by (rewrite D3; [done|intros ->; lia|lia]).
    unfold dead in D6. rewrite Hx2, Hx1 in D6. cbn in D6. rewrite He, orb_false_r in D6. subst f. cbn [negb assert_ mbind option_bind].
    assert (Hal2 : alive ({[c]} ∪ ∅) (threads s2) c) by (rewrite (alive_at _ _ _ _ D2); left; set_solver +).
    assert (Hne : t <> c) by (intros ->; lia).
    eapply returns_mono; [apply (wfs_reap _ s2 c _ D1 D2 Hal2 eq_refl eq_refl)|].
    { intros p z Hpz Hz. cbn in Hpz |- *. assert (p = t) as -> by congruence. assert (z = x1) as -> by congruence. by rewrite Hd. }
    intros s3 (W3 & Hre & Hsc3 & _). rewrite single_out in W3. pose proof (shrinks_reap _ _ _ _ _ D2 eq_refl Hre Hsc3) as Hsh3.
    assert (Hx3 : threads s3 !! t = Some (set_detached_children (fun _ => D ∖ {[c]}) x)).
    { rewrite (proj1 Hre) by done. rewrite decide_False; [rewrite decide_True, Hx2 by done; cbn; by rewrite Hd|].
      intros Hin2. destruct (reap_detached_child _ _ c _ (proj1 D1) D2 Hal2 t Hin2) as [Hpt _]. apply (shrinks_ranks rank _ _ D4 Hr1) in Hpt. lia. }
    split; [split_and!|].
    + done.
    + transitivity s1; [done|]. by transitivity s2.
    + eexists. split; [exact Hx3|]. split; [set_solver +Hsub|]. intros u Hu Hnu. apply (shrinks_dead s2 s3 u Hsh3).
      destruct (decide (u = c)) as [->|Huc]; [unfold dead; by rewrite D2|]. apply (shrinks_dead s1 s2 u D4), Hgone; [done|]. set_solver +Hnu Huc.
    + unfold count_detached. rewrite (get_state _ _ _ Hx1), (get_state _ _ _ Hx3). cbn. apply subset_size. set_solver +Hin.
  - intros s' [(W' & _ & D & Hx' & _ & Hgone) Hcond]. unfold has_detached in Hcond. rewrite (get_state _ _ _ Hx') in Hcond. cbn in Hcond.
    apply negb_false_iff, bool_decide_eq_true in Hcond. subst D. apply returns_ret. cbn [fst snd]. split_and!; try done.
    intros c Hin. apply Hgone; [done|set_solver +].
Qed.
