(* ===== verification/ThreadSteps.v ===== *)
(** * The threads as a transition system ([vvp/vthread.cc])

    The operations of [ThreadLife] are the steps of a transition system: threads
    are created, the scheduler runs a thread, the thread executes an instruction
    of its life cycle, an event wakes the threads on its list.  The forest of
    threads is an invariant of the system, no step runs into an [assert] or a
    freed thread, and no thread is left waiting for a child that it could
    join. *)

From Stdlib Require Import ZArith Lia Bool.
From stdpp Require Import base numbers sorting gmap sets.
From S2P Require Import Prelude ThreadLife.

Open Scope Z_scope.

(** ** Definitions *)

(** [vthread_run] takes the thread off its list and marks it as not scheduled;
    the result is the next thread of the list. *)
Definition vthread_begin (thr : tid) (s : state) : option (option tid * state) :=
  x ← get thr s;
  s ← edit thr (set_wait_next None) s;
  assert_ (is_scheduled x);;
  s ← edit thr (set_scheduled false) s;
  Some (wait_next x, s).

(** The flag of a thread statement: [$push], [$init], [$final] or another. *)
Inductive thread_flag := FLAG_PUSH | FLAG_INIT | FLAG_FINAL | FLAG_OTHER.

(** A thread statement of the program: the thread starts in the scope. *)
Definition compile_thread (thr : tid) (pc : nat) (scope : positive) (flag : thread_flag) (s : state) : option state :=
  s ← vthread_new thr pc scope s;
  match flag with
  | FLAG_INIT => schedule_init_vthread thr s
  | FLAG_FINAL => schedule_final_vthread thr s
  | FLAG_PUSH => schedule_vthread thr 0 true s
  | FLAG_OTHER => schedule_vthread thr 0 false s
  end.

Inductive instr :=
  | FORK (child : tid) (cptr2 : nat) (scope : positive) | JOIN | JOIN_DETACH (count : nat)
  | END | DISABLE (scope : positive) | DISABLE_FORK | WAIT_FORK | WAIT (next : option tid).

(** Outside of functions a forked thread is scheduled, never run at once. *)
Definition exec (t : tid) (i : instr) (s : state) : option (bool * state) :=
  match i with
  | FORK child cptr2 scope => of_FORK (fun _ _ => None) t child cptr2 scope s
  | JOIN => of_JOIN t s
  | JOIN_DETACH n => of_JOIN_DETACH t n s
  | END => of_END t s
  | DISABLE scope => of_DISABLE t scope s
  | DISABLE_FORK => of_DISABLE_FORK t s
  | WAIT_FORK => of_WAIT_FORK t s
  | WAIT next => of_WAIT t next s
  end.

Inductive event :=
  | New (thr : tid) (pc : nat) (scope : positive) (flag : thread_flag)
  | Begin (thr : tid)
  | Exec (thr : tid) (i : instr)
  | Wake (thr : tid).

(** The thread that begins executes [%zombie] when it has ended. *)
Definition step (e : event) (s : state) : option state :=
  match e with
  | New thr pc scope flag => compile_thread thr pc scope flag s
  | Begin t =>
      '(_, s) ← vthread_begin t s;
      x ← get t s;
      if i_have_ended x then '(_, s) ← of_ZOMBIE t s; Some s else Some s
  | Exec t i => '(_, s) ← exec t i s; Some s
  | Wake t => vthread_schedule_list t s
  end.

(** The threads on the list that starts with a thread. *)
Inductive wait_chain (m : gmap tid vthread_l) : option tid -> list tid -> Prop :=
  | chain_end : wait_chain m None []
  | chain_next t x l : m !! t = Some x -> wait_chain m (wait_next x) l -> t ∉ l -> wait_chain m (Some t) (t :: l).

(** What the compiler and the rest of the processor see to when an instruction
    is executed: the code of [%fork] names a task or a block, [%join] has a
    child to join, [%end] is not executed before the children are joined, the
    contexts of automatic tasks are in order, [%disable] names a scope without
    detached and without automatic threads. *)
Definition enabled_instr (t : tid) (x : vthread_l) (i : instr) (s : state) : Prop :=
  match i with
  | FORK child _ scope => threads s !! child = None /\ i_am_in_function x = false /\
      exists sc, scopes s !! scope = Some sc /\ get_type_code sc <> vpiFunction
  | JOIN => children x <> ∅ /\ forall c y, c ∈ children x -> threads s !! c = Some y -> ctx_ready s x y
  | JOIN_DETACH n => n = size (children x) /\ task_func_children x = ∅ /\
      forall c y, c ∈ children x -> threads s !! c = Some y -> wt_context y = None \/ wt_context x <> wt_context y
  | END => children x = ∅ /\ forall p z, parent x = Some p -> threads s !! p = Some z -> ctx_ready s z x
  | DISABLE scope => exists sc, scopes s !! scope = Some sc /\
      forall u y, u ∈ scope_threads sc -> threads s !! u = Some y -> i_am_detached y = false /\ wt_context y = None
  | DISABLE_FORK => children x = ∅
  | WAIT_FORK => children x = ∅ /\ i_am_in_function x = false
  | WAIT _ => i_am_in_function x = false
  end.

Definition enabled (e : event) (s : state) : Prop :=
  match e with
  | New thr _ scope _ => threads s !! thr = None /\ is_Some (scopes s !! scope)
  | Begin t => exists x, threads s !! t = Some x /\ is_scheduled x = true
  | Exec t i => exists x, running s t x /\ enabled_instr t x i s
  | Wake t => exists l, wait_chain (threads s) (Some t) l /\
      forall u x, u ∈ l -> threads s !! u = Some x -> waiting_for_event x = true
  end.

Inductive reachable (s0 : state) : state -> Prop :=
  | reach_init : reachable s0 s0
  | reach_step s e s' : reachable s0 s -> enabled e s -> step e s = Some s' -> reachable s0 s'.

(** No thread has started yet. *)
Definition initial (s : state) : Prop :=
  threads s = ∅ /\ forall sc y, scopes s !! sc = Some y -> scope_threads y = ∅.

(** ** Lemmas *)

Lemma wf_initial s : initial s -> wf s.
Proof.
  intros [Hm Hsc]. split; [split|split]; rewrite ?Hm.
  - intros t c. unfold kids, par. rewrite !lookup_empty. cbn. split; [intros []%elem_of_empty|by intros [? _]].
  - intros t c (x & Hx & _). by rewrite lookup_empty in Hx.
  - intros c p Hp. unfold par in Hp. by rewrite lookup_empty in Hp.
  - intros t x Hx. by rewrite lookup_empty in Hx.
  - exists (fun _ => 0%nat). intros c p Hp. unfold par in Hp. by rewrite lookup_empty in Hp.
  - intros t x Hx. by rewrite lookup_empty in Hx.
  - intros sc y t Hy Ht. rewrite (Hsc sc y Hy) in Ht. by apply not_elem_of_empty in Ht.
Qed.

(** A thread that joins a parentless thread to the store. *)
Lemma wf_new_root E m c y :
  wf_threads E m -> m !! c = None ->
  parent y = None -> children y = ∅ -> detached_children y = ∅ -> i_am_detached y = false ->
  local_ok E m c y -> wf_threads E (<[c := y]> m).
Proof.
  intros W Hc Y1 Y2 Y3 Y4 Ly. pose proof W as [W1 W2 W3 W4 W5].
  assert (Hfresh : forall u, par m u <> Some c).
  { intros u Hu. destruct (W3 _ _ Hu) as (z & Hz & _). congruence. }
  assert (Hcp : par m c = None) by (unfold par; by rewrite Hc).
  assert (Hcd : det m c = false) by (unfold det; by rewrite Hc).
  assert (Hp : forall u, par (<[c := y]> m) u = par m u) by (intros u; rewrite par_insert; case_decide; congruence).
  assert (Hd : forall u, det (<[c := y]> m) u = det m u) by (intros u; rewrite det_insert; case_decide; congruence).
  assert (Hk : forall u, kids (<[c := y]> m) u = kids m u).
  { intros u. rewrite kids_insert. case_decide as Hu; [|done]. subst. unfold kids. by rewrite Hc. }
  assert (Hdk : forall u, dkids (<[c := y]> m) u = dkids m u).
  { intros u. rewrite dkids_insert. case_decide as Hu; [|done]. subst. unfold dkids. by rewrite Hc. }
  assert (Ha : forall u, u <> c -> alive E (<[c := y]> m) u <-> alive E m u).
  { intros u Hu. rewrite alive_insert. by rewrite decide_False. }
  assert (Hloc : forall u z, children z ⊆ kids m u -> local_ok E m u z -> local_ok E (<[c := y]> m) u z).
  { intros u z Hz [L1 L2 L3 L4 L5 L6 L7]. split; try done. intros Hj. destruct (L4 Hj) as (? & ? & ? & ? & HL). split_and!; try done.
    intros w Hw HE. rewrite ended_insert. case_decide as Hwc; [|by apply HL]. subst w. apply Hz, W1 in Hw as [Hw _]. congruence. }
  split.
  - intros u z. rewrite Hk, Hp, Hd. apply W1.
  - intros u z Hu. rewrite Hdk, Hp, Hd. destruct (decide (u = c)) as [->|Huc]; [|by apply W2, Ha].
    unfold dkids. rewrite Hc. cbn. split; [intros []%elem_of_empty|]. by intros [?%Hfresh _].
  - intros u p. rewrite Hp. intros Hup. apply Ha; [by intros ->; apply Hfresh in Hup|by apply (W3 u)].
  - intros u z [[<- <-]|[Hne Hz]]%lookup_insert_Some; apply Hloc; auto; [rewrite Y2; apply empty_subseteq|].
    unfold kids. by rewrite Hz.
  - destruct W5 as [r Hr]. exists r. intros u p. rewrite Hp. apply Hr.
Qed.

(** A thread joins its scope. *)
Definition with_member (sc : positive) (t : tid) (ss : gmap positive scope_s) : gmap positive scope_s :=
  alter (fun x => mk_scope (is_automatic x) (get_type_code x) ({[t]} ∪ scope_threads x)) sc ss.

Lemma scope_insert_returns sc t s :
  is_Some (scopes s !! sc) -> scope_insert sc t s = Some (mk_state (threads s) (with_member sc t (scopes s)) (stacked s) (calls s)).
Proof.
  intros [y Hy]. unfold scope_insert. rewrite Hy. cbn. do 2 f_equal. unfold with_member. apply map_eq. intros i.
  destruct (decide (i = sc)) as [->|]; [by rewrite lookup_insert_eq, lookup_alter_eq, Hy|by rewrite lookup_insert_ne, lookup_alter_ne].
Qed.

Lemma scopes_member E s m' t x sc cs :
  wf_scopes E s -> threads s !! t = None -> m' !! t = Some x -> parent_scope x = sc -> is_Some (scopes s !! sc) ->
  alive E m' t ->
  (forall u, u <> t -> from_option (fun y => Some (parent_scope y)) None (m' !! u) = from_option (fun y => Some (parent_scope y)) None (threads s !! u)) ->
  (forall u, u <> t -> alive E (threads s) u -> alive E m' u) ->
  wf_scopes E (mk_state m' (with_member sc t (scopes s)) (stacked s) cs).
Proof.
  intros [S1 S2] Ht Hx Hp Hsc Hat Hps Hal.
  assert (Hsome : forall sc', is_Some (scopes s !! sc') -> is_Some (with_member sc t (scopes s) !! sc')).
  { intros sc' [y Hy]. unfold with_member. destruct (decide (sc' = sc)) as [->|]; [rewrite lookup_alter_eq|rewrite lookup_alter_ne by done]; rewrite Hy; by eexists. }
  split; cbn.
  - intros u y Hy. apply Hsome. destruct (decide (u = t)) as [->|Hu]; [congruence|]. specialize (Hps u Hu). rewrite Hy in Hps. cbn in Hps.
    destruct (threads s !! u) as [z|] eqn:Hz; [|done]. cbn in Hps. injection Hps as Hps. rewrite Hps. by apply (S1 u).
  - intros sc' y u Hy Hu. assert (Hcase : (u = t /\ sc' = sc) \/ (u <> t /\ exists y0, scopes s !! sc' = Some y0 /\ u ∈ scope_threads y0)).
    { unfold with_member in Hy. destruct (decide (sc' = sc)) as [->|Hne].
      - rewrite lookup_alter_eq in Hy. destruct (scopes s !! sc) as [y0|] eqn:E0; [|done]. injection Hy as <-. cbn in Hu.
        destruct (decide (u = t)) as [->|Hut]; [by left|]. right. split; [done|]. exists y0. split; [done|]. set_solver +Hu Hut.
      - rewrite lookup_alter_ne in Hy by done. right. split; [|by exists y]. intros ->. destruct (S2 sc' y t Hy Hu) as [_ (z & Hz & _)]. congruence. }
    destruct Hcase as [[-> ->]|[Hut (y0 & Hy0 & Hu0)]]; [split; [done|by exists x]|].
    destruct (S2 sc' y0 u Hy0 Hu0) as [Hau (z & Hz & Hzs)]. split; [by apply Hal|]. specialize (Hps u Hut). rewrite Hz in Hps. cbn in Hps.
    destruct (m' !! u) as [z'|]; [|done]. injection Hps as Hps. exists z'. split; [done|]. congruence.
Qed.

Definition fresh (pc : nat) (scope : positive) : vthread_l :=
  mk_life (Some pc) None scope ∅ ∅ ∅ None None None false false false false false false false false false.

Lemma vthread_new_returns t pc scope s :
  threads s !! t = None -> is_Some (scopes s !! scope) ->
  vthread_new t pc scope s = Some (mk_state (<[t := fresh pc scope]> (threads s)) (with_member scope t (scopes s)) (stacked s) (calls s)).
Proof.
  intros Ht Hsc. unfold vthread_new. rewrite assert_bool_decide by done. by rewrite scope_insert_returns.
Qed.

(** How the thread is scheduled. *)
Definition thread_call (t : tid) (flag : thread_flag) : sched_call :=
  match flag with
  | FLAG_INIT => CallInitVthread t
  | FLAG_FINAL => CallFinalVthread t
  | FLAG_PUSH => CallVthread t 0 true
  | FLAG_OTHER => CallVthread t 0 false
  end.

Lemma compile_thread_returns t pc scope flag s :
  wf s -> threads s !! t = None -> is_Some (scopes s !! scope) ->
  returns (compile_thread t pc scope flag s) (fun s' => wf s' /\ calls s' = thread_call t flag :: calls s /\
    threads s' = <[t := set_scheduled true (fresh pc scope)]> (threads s)).
Proof.
  intros [W S] Ht Hsc. unfold compile_thread. rewrite vthread_new_returns by done. cbn [mbind option_bind].
  set (s0 := mk_state _ _ _ _). assert (Hm : forall n, vthread_mark_scheduled (Datatypes.S n) (Some t) s0 = Some (put t (set_scheduled true (fresh pc scope)) s0)).
  { intros n. apply mark_returns; [apply lookup_insert_eq|done..]. }
  set (s' := log_call (thread_call t flag) (put t (set_scheduled true (fresh pc scope)) s0)).
  replace (match flag with FLAG_PUSH => _ | _ => _ end) with (Some s').
  2:{ destruct flag; unfold schedule_init_vthread, schedule_final_vthread, schedule_vthread; by rewrite Hm. }
  apply returns_ret.
  assert (Es : s' = mk_state (<[t := set_scheduled true (fresh pc scope)]> (threads s)) (with_member scope t (scopes s)) (stacked s) (thread_call t flag :: calls s)).
  { unfold s', s0, log_call, put, with_threads. cbn. by rewrite insert_insert_eq. }
  rewrite Es.
  assert (Hl : local_ok ∅ (threads s) t (set_scheduled true (fresh pc scope))) by (split; done).
  split; [|done]. split; cbn [threads].
  - by apply wf_new_root.
  - apply (scopes_member ∅ s _ t (set_scheduled true (fresh pc scope))); try done.
    + apply lookup_insert_eq.
    + rewrite alive_insert, decide_True by done. auto.
    + intros u Hu. by rewrite lookup_insert_ne.
    + intros u Hu. rewrite alive_insert. by rewrite decide_False.
Qed.

(** The records of the child and of its parent after [%fork]. *)
Definition forked (x : vthread_l) (automatic : bool) (t : tid) (pc : nat) (scope : positive) : vthread_l :=
  let y := fresh pc scope in
  set_scheduled true (set_parent (Some t) (if automatic then set_contexts (wt_context x) (wt_context x) y else y)).
Definition forking (x : vthread_l) (task : bool) (child : tid) : vthread_l :=
  let x := set_children (fun X => {[child]} ∪ X) x in
  if task then set_task_func_children (fun X => {[child]} ∪ X) x else x.

Lemma edit_at t m ss st cs x f : m !! t = Some x -> edit t f (mk_state m ss st cs) = Some (mk_state (<[t := f x]> m) ss st cs).
Proof. intros Hx. unfold edit, get. cbn. by rewrite Hx. Qed.

Lemma of_FORK_returns run s t x child pc scope sc :
  wf s -> running s t x -> threads s !! child = None -> i_am_in_function x = false ->
  scopes s !! scope = Some sc -> get_type_code sc <> vpiFunction ->
  returns (of_FORK run t child pc scope s) (fun r => fst r = true /\ wf (snd r) /\
    threads (snd r) = <[t := forking x (match get_type_code sc with vpiTask => true | _ => false end) child]>
      (<[child := forked x (is_automatic sc) t pc scope]> (threads s)) /\
    calls (snd r) = CallVthread child 0 true :: calls s).
Proof.
  intros [W S] (Hx & He & Hj & Hw & Hwe & Hs) Hc Hf Hsc Hty. assert (Hne : child <> t) by congruence.
  unfold of_FORK. rewrite vthread_new_returns by (done || by eexists). cbn [mbind option_bind].
  set (ss := with_member scope child (scopes s)).
  assert (Hss : ss !! scope = Some (mk_scope (is_automatic sc) (get_type_code sc) ({[child]} ∪ scope_threads sc))).
  { unfold ss, with_member. by rewrite lookup_alter_eq, Hsc. }
  cbn [scopes]. rewrite Hss. cbn [mbind option_bind is_automatic get_type_code].
  unfold get at 1. cbn [threads]. rewrite (lookup_insert_ne _ child t) by done. rewrite Hx. cbn [mbind option_bind]. rewrite Hf.
  set (y := if is_automatic sc then set_contexts (wt_context x) (wt_context x) (fresh pc scope) else fresh pc scope).
  assert (Hmk : (if is_automatic sc then edit child (set_contexts (wt_context x) (wt_context x)) (mk_state (<[child := fresh pc scope]> (threads s)) ss (stacked s) (calls s))
    else Some (mk_state (<[child := fresh pc scope]> (threads s)) ss (stacked s) (calls s))) = Some (mk_state (<[child := y]> (threads s)) ss (stacked s) (calls s))).
  { unfold y. destruct (is_automatic sc); [|done]. rewrite (edit_at _ _ _ _ _ (fresh pc scope)) by apply lookup_insert_eq. by rewrite insert_insert_eq. }
  rewrite Hmk. cbn [mbind option_bind]. clear Hmk.
  rewrite (edit_at child _ _ _ _ y) by apply lookup_insert_eq. cbn [mbind option_bind]. rewrite insert_insert_eq.
  rewrite (edit_at t _ _ _ _ x) by (by rewrite lookup_insert_ne). cbn [mbind option_bind].
  set (task := match get_type_code sc with vpiTask => true | _ => false end).
  set (m1 := <[child := set_parent (Some t) y]> (threads s)).
  assert (Htask : forall k : state -> option (bool * state),
    (s ← match get_type_code sc with
      | vpiFunction => None
      | vpiTask => edit t (set_task_func_children (fun X => {[child]} ∪ X)) (mk_state (<[t := set_children (fun X => {[child]} ∪ X) x]> m1) ss (stacked s) (calls s))
      | vpiOtherScope => Some (mk_state (<[t := set_children (fun X => {[child]} ∪ X) x]> m1) ss (stacked s) (calls s))
      end; k s) = k (mk_state (<[t := forking x task child]> m1) ss (stacked s) (calls s))).
  { intros k. unfold forking, task. destruct (get_type_code sc); [done| |done].
    rewrite (edit_at t _ _ _ _ (set_children (fun X => {[child]} ∪ X) x)) by apply lookup_insert_eq. cbn [mbind option_bind]. by rewrite insert_insert_eq. }
  rewrite Htask. clear Htask.
  assert (Hy1 : threads (mk_state (<[t := forking x task child]> m1) ss (stacked s) (calls s)) !! child = Some (set_parent (Some t) y)).
  { cbn. rewrite lookup_insert_ne by done. apply lookup_insert_eq. }
  assert (Hsy : is_scheduled y = false /\ wait_next y = None) by (unfold y; by destruct (is_automatic sc)).
  rewrite (schedule_returns _ child _ 0 true Hy1) by apply Hsy. apply returns_ret. cbn [fst snd]. split; [done|].
  set (s' := log_call _ _). assert (Es : s' = mk_state (<[t := forking x task child]> (<[child := forked x (is_automatic sc) t pc scope]> (threads s))) ss (stacked s) (CallVthread child 0 true :: calls s)).
  { unfold s', log_call, put, with_threads, m1. cbn. f_equal. rewrite (insert_insert_ne _ child t) by done. by rewrite insert_insert_eq. }
  rewrite Es. split; [|done]. clear Es s' Hy1.
  assert (Hflags : i_have_ended (forking x task child) = false /\ parent (forking x task child) = parent x /\ children (forking x task child) = {[child]} ∪ children x /\
    detached_children (forking x task child) = detached_children x /\ i_am_detached (forking x task child) = i_am_detached x /\ parent_scope (forking x task child) = parent_scope x).
  { unfold forking. by destruct task. }
  destruct Hflags as (F1 & F2 & F3 & F4 & F5 & F6).
  assert (Hck : parent (forked x (is_automatic sc) t pc scope) = Some t /\ children (forked x (is_automatic sc) t pc scope) = ∅ /\
    detached_children (forked x (is_automatic sc) t pc scope) = ∅ /\ i_am_detached (forked x (is_automatic sc) t pc scope) = false /\
    i_have_ended (forked x (is_automatic sc) t pc scope) = false /\ parent_scope (forked x (is_automatic sc) t pc scope) = scope).
  { unfold forked. by destruct (is_automatic sc). }
  destruct Hck as (C1 & C2 & C3 & C4 & C5 & C6).
  split.
  - cbn [threads]. apply (wf_new_child ∅ (threads s) t x child); try done.
    + unfold forked. destruct (is_automatic sc); split; done.
    + destruct (wf_local _ _ W _ _ Hx) as [L1 L2 L3 L4 L5 L6 L7]. specialize (L3 He).
      unfold forking. destruct task; split; cbn; try done; try congruence; intros _; set_solver +L3.
  - apply (scopes_member ∅ s _ child (forked x (is_automatic sc) t pc scope)); try done.
    + rewrite lookup_insert_ne by done. apply lookup_insert_eq.
    + rewrite alive_insert, decide_False, alive_insert, decide_True by done. auto.
    + intros u Hu. destruct (decide (u = t)) as [->|Hut]; [rewrite lookup_insert_eq, Hx; cbn; by rewrite F6|].
      by rewrite !lookup_insert_ne.
    + intros u Hu. rewrite alive_insert. destruct (decide (u = t)) as [->|Hut]; [auto|]. rewrite alive_insert. by rewrite decide_False.
Qed.

(** A scheduled thread begins. *)
Lemma vthread_begin_returns s t x :
  wf s -> threads s !! t = Some x -> is_scheduled x = true ->
  returns (vthread_begin t s) (fun r => fst r = wait_next x /\ wf (snd r) /\
    threads (snd r) = <[t := set_scheduled false (set_wait_next None x)]> (threads s) /\
    (i_have_ended x = false -> running (snd r) t (set_scheduled false (set_wait_next None x)))).
Proof.
  intros W Hx Hs. unfold vthread_begin. rewrite (get_state _ _ _ Hx). cbn [mbind option_bind]. rewrite (edit_returns _ _ _ _ Hx). cbn [mbind option_bind].
  rewrite Hs. cbn [assert_ mbind option_bind]. rewrite (edit_returns t (set_wait_next None x)) by (cbn; apply lookup_insert_eq). apply returns_ret.
  set (x' := set_scheduled false _). cbn [fst snd].
  assert (Es : put t x' (put t (set_wait_next None x) s) = put t x' s) by (unfold put, with_threads; cbn; by rewrite insert_insert_eq).
  rewrite Es. destruct (local_at _ _ _ _ W Hx) as [L1 L2 L3 L4 L5 L6 L7]. split; [done|]. split; [|split; [done|]].
  - eapply wfs_put; try done. intros [K1 K2 K3 K4 K5 K6 K7]. split; cbn; try done; intros H.
    + destruct (L4 H) as (? & _). congruence.
    + destruct (L5 H) as (? & _). congruence.
  - intros He. split; [cbn; apply lookup_insert_eq|]. cbn. split_and!; try done.
    + destruct (i_am_joining x); [destruct (L4 eq_refl); congruence|done].
    + destruct (i_am_waiting x); [destruct (L5 eq_refl); congruence|done].
    + destruct (waiting_for_event x); [specialize (L7 eq_refl); congruence|done].
Qed.

Lemma of_WAIT_returns s t x next :
  wf s -> running s t x -> i_am_in_function x = false ->
  returns (of_WAIT t next s) (fun r => fst r = false /\ wf (snd r) /\
    snd r = put t (set_wait_next next (set_waiting_for_event true x)) s).
Proof.
  intros W (Hx & He & Hj & Hw & Hwe & Hs) Hf. unfold of_WAIT. rewrite (get_state _ _ _ Hx). cbn [mbind option_bind].
  rewrite Hf, Hwe. cbn [negb assert_ mbind option_bind]. rewrite (edit_returns _ _ _ _ Hx). cbn [mbind option_bind].
  rewrite (edit_returns t (set_waiting_for_event true x)) by (cbn; apply lookup_insert_eq). apply returns_ret. cbn [fst snd].
  set (x' := set_wait_next _ _).
  assert (Es : put t x' (put t (set_waiting_for_event true x) s) = put t x' s) by (unfold put, with_threads; cbn; by rewrite insert_insert_eq).
  rewrite Es. split; [done|]. split; [|done]. eapply wfs_put; try done. intros [K1 K2 K3 K4 K5 K6 K7].
  split; cbn; try done; try congruence. by left.
Qed.

(** *** Waking the threads of an event *)

(** The links of two threads are the same. *)
Definition same_links (x x' : vthread_l) : Prop :=
  parent x' = parent x /\ children x' = children x /\ detached_children x' = detached_children x /\
  i_am_detached x' = i_am_detached x /\ i_have_ended x' = i_have_ended x /\ parent_scope x' = parent_scope x.

Lemma same_links_maps m m' : (forall u, option_Forall2 same_links (m !! u) (m' !! u)) ->
  forall u, par m' u = par m u /\ kids m' u = kids m u /\ dkids m' u = dkids m u /\ det m' u = det m u /\ ended m' u = ended m u.
Proof.
  intros H u. unfold par, kids, dkids, det, ended. destruct (H u) as [x x' (? & ? & ? & ? & ? & ?)|]; [|done].
  cbn. by split_and!.
Qed.

Lemma same_links_alive E m m' u : (forall u, option_Forall2 same_links (m !! u) (m' !! u)) -> alive E m u -> alive E m' u.
Proof.
  intros H (x & Hx & Ha). specialize (H u). rewrite Hx in H. inversion H as [x0 x' (Hp & _ & _ & _ & He & _) E1 E2|]. subst.
  exists x'. split; [done|]. by rewrite Hp, He.
Qed.

Lemma option_Forall2_flip {A} (R : A -> A -> Prop) (a b : option A) :
  (forall x y, R x y -> R y x) -> option_Forall2 R a b -> option_Forall2 R b a.
Proof. intros HR [x y H|]; constructor. by apply HR. Qed.

Lemma wfs_relabel E s m' cs :
  wfs E s -> (forall u, option_Forall2 same_links (threads s !! u) (m' !! u)) ->
  (forall t x', m' !! t = Some x' -> local_ok E m' t x') -> wfs E (mk_state m' (scopes s) (stacked s) cs).
Proof.
  intros [[W1 W2 W3 W4 W5] [S1 S2]] H HL. pose proof (same_links_maps _ _ H) as Hm.
  assert (Hback : forall u, option_Forall2 same_links (m' !! u) (threads s !! u)).
  { intros u. apply option_Forall2_flip; [|apply H]. intros x y (? & ? & ? & ? & ? & ?). by split_and!. }
  assert (Ha : forall u, alive E m' u <-> alive E (threads s) u) by (intros u; split; by apply same_links_alive).
  split; [split|split]; cbn [threads scopes].
  - intros t c. destruct (Hm t) as (_ & -> & _). destruct (Hm c) as (-> & _ & _ & -> & _). apply W1.
  - intros t c Ht. destruct (Hm t) as (_ & _ & -> & _). destruct (Hm c) as (-> & _ & _ & -> & _). by apply W2, Ha.
  - intros c p. destruct (Hm c) as (-> & _). rewrite Ha. apply W3.
  - done.
  - destruct W5 as [r Hr]. exists r. intros c p. destruct (Hm c) as (-> & _). apply Hr.
  - intros t x' Hx. specialize (Hback t). rewrite Hx in Hback. inversion Hback as [y x (_ & _ & _ & _ & _ & Hps) E1 E2|]. subst.
    rewrite <- Hps. by apply (S1 t).
  - intros sc y t Hy Ht. destruct (S2 sc y t Hy Ht) as [Hal (x & Hx & Hps)]. split; [by apply Ha|].
    specialize (H t). rewrite Hx in H. inversion H as [y' x' (_ & _ & _ & _ & _ & Hps') E1 E2|]. subst. by exists x'.
Qed.

(** Every thread of a list is changed. *)
Definition marks (f : vthread_l -> vthread_l) (l : list tid) (m : gmap tid vthread_l) : gmap tid vthread_l :=
  foldl (fun m t => alter f t m) m l.

Lemma lookup_marks f l m u : NoDup l -> marks f l m !! u = if decide (u ∈ l) then f <$> m !! u else m !! u.
Proof.
  revert m. induction l as [|t l IH]; intros m Hnd; [by rewrite decide_False by set_solver|].
  apply NoDup_cons in Hnd as [Ht Hnd]. change (marks f (t :: l) m) with (marks f l (alter f t m)). rewrite IH by done. destruct (decide (u = t)) as [->|Hu].
  - rewrite decide_False, decide_True by set_solver. by rewrite lookup_alter_eq.
  - rewrite lookup_alter_ne by done. repeat case_decide; done || set_solver.
Qed.

Lemma wait_chain_NoDup m h l : wait_chain m h l -> NoDup l.
Proof. induction 1; constructor; done. Qed.

Lemma wait_chain_dom m h l : wait_chain m h l -> forall u, u ∈ l -> is_Some (m !! u).
Proof. induction 1 as [|t x l Hx Hc IH Ht]; [set_solver|]. intros u [->|Hu]%elem_of_cons; [by eexists|by apply IH]. Qed.

Lemma wait_chain_length m h l : wait_chain m h l -> (length l <= size m)%nat.
Proof.
  intros H. rewrite <- (size_list_to_set (C := gset tid) l) by (by eapply wait_chain_NoDup). rewrite <- (size_dom (D := gset tid) m).
  apply subseteq_size. intros u. rewrite elem_of_list_to_set, elem_of_dom. by eapply wait_chain_dom.
Qed.

Lemma wait_chain_alter m f t h l : (forall x, wait_next (f x) = wait_next x) -> wait_chain m h l -> wait_chain (alter f t m) h l.
Proof.
  intros Hf. induction 1 as [|u x l Hx Hc IH Hu]; [constructor|]. destruct (decide (u = t)) as [->|Hne].
  - apply (chain_next _ t (f x)); [by rewrite lookup_alter_eq, Hx|by rewrite Hf|done].
  - apply (chain_next _ u x); [by rewrite lookup_alter_ne|done|done].
Qed.

Lemma alter_insert_id (m : gmap tid vthread_l) t x f : m !! t = Some x -> <[t := f x]> m = alter f t m.
Proof.
  intros Hx. apply map_eq. intros u. destruct (decide (u = t)) as [->|]; [by rewrite lookup_insert_eq, lookup_alter_eq, Hx|].
  by rewrite lookup_insert_ne, lookup_alter_ne.
Qed.

Lemma clear_waiting_returns l : forall fuel h m ss st cs,
  wait_chain m h l -> (length l <= fuel)%nat -> (forall u x, u ∈ l -> m !! u = Some x -> waiting_for_event x = true) ->
  clear_waiting fuel h (mk_state m ss st cs) = Some (mk_state (marks (set_waiting_for_event false) l m) ss st cs).
Proof.
  induction l as [|t l IH]; intros fuel h m ss st cs Hc Hlen Hw; inversion Hc as [|t' x l' Hx Hc' Ht]; subst.
  - by destruct fuel.
  - destruct fuel as [|fuel]; [cbn in Hlen; lia|]. cbn [clear_waiting]. unfold get at 1. cbn [threads]. rewrite Hx. cbn [mbind option_bind].
    rewrite (Hw t x) by (done || set_solver). cbn [assert_ mbind option_bind]. rewrite (edit_at _ _ _ _ _ x) by done. cbn [mbind option_bind].
    rewrite (alter_insert_id _ _ _ _ Hx). rewrite IH; [done| |cbn in Hlen; lia|].
    + by apply wait_chain_alter.
    + intros u y Hu. rewrite lookup_alter_ne by (intros ->; done). apply Hw. set_solver.
Qed.

Lemma mark_scheduled_returns l : forall fuel h m ss st cs,
  wait_chain m h l -> (length l <= fuel)%nat -> (forall u x, u ∈ l -> m !! u = Some x -> is_scheduled x = false) ->
  vthread_mark_scheduled fuel h (mk_state m ss st cs) = Some (mk_state (marks (set_scheduled true) l m) ss st cs).
Proof.
  induction l as [|t l IH]; intros fuel h m ss st cs Hc Hlen Hw; inversion Hc as [|t' x l' Hx Hc' Ht]; subst.
  - by destruct fuel.
  - destruct fuel as [|fuel]; [cbn in Hlen; lia|]. cbn [vthread_mark_scheduled]. unfold get at 1. cbn [threads]. rewrite Hx. cbn [mbind option_bind].
    rewrite (Hw t x) by (done || set_solver). cbn [negb assert_ mbind option_bind]. rewrite (edit_at _ _ _ _ _ x) by done. cbn [mbind option_bind].
    rewrite (alter_insert_id _ _ _ _ Hx). rewrite IH; [done| |cbn in Hlen; lia|].
    + by apply wait_chain_alter.
    + intros u y Hu. rewrite lookup_alter_ne by (intros ->; done). apply Hw. set_solver.
Qed.

Lemma wait_chain_marks m f l' h l : (forall x, wait_next (f x) = wait_next x) -> wait_chain m h l -> wait_chain (marks f l' m) h l.
Proof. intros Hf. revert m. induction l' as [|t l' IH]; intros m H; cbn; [done|]. apply IH. by apply wait_chain_alter. Qed.

(** The threads on the list are scheduled, as one list, and wait no more. *)
Lemma vthread_schedule_list_returns s t l :
  wf s -> wait_chain (threads s) (Some t) l ->
  (forall u x, u ∈ l -> threads s !! u = Some x -> waiting_for_event x = true) ->
  returns (vthread_schedule_list t s) (fun s' => wf s' /\ calls s' = CallVthread t 0 false :: calls s /\
    forall u, threads s' !! u = if decide (u ∈ l) then (fun x => set_scheduled true (set_waiting_for_event false x)) <$> threads s !! u else threads s !! u).
Proof.
  intros W Hc Hw. pose proof (wait_chain_length _ _ _ Hc) as Hlen. pose proof (wait_chain_NoDup _ _ _ Hc) as Hnd.
  destruct s as [m ss st cs]. cbn [threads] in *. unfold vthread_schedule_list. cbn [threads].
  rewrite (clear_waiting_returns l) by (done || lia). cbn [mbind option_bind]. unfold schedule_vthread. cbn [threads].
  set (m1 := marks _ l m).
  assert (Hm1 : forall u, m1 !! u = if decide (u ∈ l) then set_waiting_for_event false <$> m !! u else m !! u) by (intros u; by apply lookup_marks).
  pose proof (wait_chain_marks m (set_waiting_for_event false) l _ _ (fun x => eq_refl) Hc) as Hc1. fold m1 in Hc1.
  pose proof (wait_chain_length _ _ _ Hc1) as Hlen1.
  rewrite (mark_scheduled_returns l); [|done|lia|].
  2:{ intros u x Hu Hx. rewrite Hm1, decide_True in Hx by done. destruct (m !! u) as [y|] eqn:Hy; [|done]. injection Hx as <-. cbn.
    apply (ok_event _ _ _ _ (local_at _ _ _ _ W Hy)). by apply (Hw u). }
  cbn [mbind option_bind]. apply returns_ret. set (m2 := marks _ l m1).
  assert (Hm2 : forall u, m2 !! u = if decide (u ∈ l) then (fun x => set_scheduled true (set_waiting_for_event false x)) <$> m !! u else m !! u).
  { intros u. unfold m2. rewrite lookup_marks by done. rewrite Hm1. case_decide; [|done]. by destruct (m !! u). }
  split; [|done]. apply (wfs_relabel ∅ (mk_state m ss st cs) m2 _ W).
  - intros u. rewrite Hm2. cbn [threads]. case_decide; destruct (m !! u); constructor; by split_and!.
  - intros u x' Hx'. assert (Hended : forall c, ended m2 c = ended m c).
    { intros c. unfold ended. rewrite Hm2. case_decide; [|done]. by destruct (m !! c). }
    assert (Hmono : forall y, local_ok ∅ m u y -> local_ok ∅ m2 u y).
    { intros y [L1 L2 L3 L4 L5 L6 L7]. split; try done. intros Hj. destruct (L4 Hj) as (? & ? & ? & ? & HL). split_and!; try done.
      intros c. rewrite Hended. apply HL. }
    rewrite Hm2 in Hx'. case_decide as Hin; [|by apply Hmono, (local_at ∅ (mk_state m ss st cs))].
    destruct (m !! u) as [y|] eqn:Hy; [|done]. injection Hx' as <-. specialize (Hw u y Hin Hy).
    destruct (Hmono y (local_at ∅ (mk_state m ss st cs) u y W Hy)) as [L1 L2 L3 L4 L5 L6 L7]. split; cbn; try done.
    + intros Hj. destruct (L4 Hj) as (_ & ? & _). congruence.
    + intros Hj. destruct (L5 Hj) as (_ & ? & _). congruence.
    + intros _. by right.
Qed.

(** *** The steps *)

Lemma exec_returns s t x i :
  wf s -> running s t x -> enabled_instr t x i s -> returns (exec t i s) (fun r => wf (snd r)).
Proof.
  intros W Hr He. destruct i as [child pc scope| |n| |scope| | |next]; cbn [exec enabled_instr] in *.
  - destruct He as (Hc & Hf & sc & Hsc & Hty). eapply returns_mono; [by eapply of_FORK_returns|]. by intros r (_ & ? & _).
  - destruct He as (Hc & Hctx). eapply returns_mono; [by eapply of_JOIN_returns|]. by intros r (? & _).
  - destruct He as (-> & Ht & Hctx). eapply returns_mono; [by eapply of_JOIN_DETACH_returns|]. by intros r (_ & ? & _).
  - destruct He as (Hc & Hctx). eapply returns_mono; [by eapply of_END_returns|]. by intros r (_ & ? & _).
  - destruct He as (sc & Hsc & Hd). eapply returns_mono; [by eapply of_DISABLE_returns|]. by intros r (? & _).
  - eapply returns_mono; [by eapply of_DISABLE_FORK_returns|]. by intros r (_ & ? & _).
  - destruct He as (Hc & Hf). eapply returns_mono; [by eapply of_WAIT_FORK_returns|]. by intros r (? & _).
  - eapply returns_mono; [by eapply of_WAIT_returns|]. by intros r (_ & ? & _).
Qed.

Lemma step_returns s e : wf s -> enabled e s -> returns (step e s) wf.
Proof.
  intros W He. destruct e as [t pc scope push|t|t i|t]; cbn [step enabled] in *.
  - destruct He as (Ht & Hsc). eapply returns_mono; [by apply compile_thread_returns|]. by intros s' (? & _).
  - destruct He as (x & Hx & Hs). eapply returns_bind; [by apply (vthread_begin_returns s t x)|].
    intros [nx s'] (_ & W' & Em & _). cbn [fst snd] in *. set (x' := set_scheduled false _) in *.
    assert (Hx' : threads s' !! t = Some x') by (rewrite Em; apply lookup_insert_eq). rewrite (get_state _ _ _ Hx'). cbn [mbind option_bind].
    destruct (i_have_ended x') eqn:Ee; [|by apply returns_ret]. eapply returns_bind; [by apply (of_ZOMBIE_returns s' t x')|].
    intros [f s2] (_ & ? & _). by apply returns_ret.
  - destruct He as (x & Hr & Hi). eapply returns_bind; [by eapply exec_returns|]. intros [f s'] W'. by apply returns_ret.
  - destruct He as (l & Hc & Hw). eapply returns_mono; [by eapply vthread_schedule_list_returns|]. by intros s' (? & _).
Qed.

Lemma reachable_wf s0 s : wf s0 -> reachable s0 s -> wf s.
Proof.
  intros W0. induction 1 as [|s e s' _ IH He Hs]; [done|]. exact (returns_eq _ _ _ (step_returns s e IH He) Hs).
Qed.


(** ** Properties *)


(** Two threads: the main thread forks a block and joins it. *)
Definition two_scopes : state :=
  mk_state ∅ {[ 1%positive := mk_scope false vpiOtherScope ∅; 2%positive := mk_scope false vpiOtherScope ∅ ]} ∅ [].
Fixpoint run (l : list event) (s : state) : option state :=
  match l with [] => Some s | e :: l => s ← step e s; run l s end.
Definition after (l : list event) : state := default two_scopes (run l two_scopes).

Lemma initial_two_scopes : initial two_scopes.
Proof.
  split; [done|]. intros sc y Hy. cbn in Hy. apply lookup_insert_Some in Hy as [[_ <-]|[_ Hy]]; [done|].
  by apply lookup_singleton_Some in Hy as [_ <-].
Qed.

Definition forked_block : list event := [New 10 0 1 FLAG_OTHER; Begin 10; Exec 10 (FORK 11 5 2)].
Definition demo : list event := forked_block ++ [Exec 10 JOIN; Begin 11].

Lemma forked_reachable : reachable two_scopes (after forked_block).
Proof.
  assert (H1 : reachable two_scopes (after [New 10 0 1 FLAG_OTHER])).
  { apply (reach_step two_scopes two_scopes (New 10 0 1 FLAG_OTHER)); [constructor|split; [done|by eexists]|vm_compute; reflexivity]. }
  assert (H2 : reachable two_scopes (after [New 10 0 1 FLAG_OTHER; Begin 10])).
  { eapply (reach_step _ _ (Begin 10)); [exact H1|eexists; split; vm_compute; reflexivity|vm_compute; reflexivity]. }
  eapply (reach_step _ _ (Exec 10 (FORK 11 5 2))); [exact H2| |vm_compute; reflexivity]. eexists. split; [vm_compute; by split_and!|].
  split_and!; [done|done|]. eexists. by split.
Qed.

Lemma demo_reachable : reachable two_scopes (after demo).
Proof.
  assert (H4 : reachable two_scopes (after (forked_block ++ [Exec 10 JOIN]))).
  { eapply (reach_step _ _ (Exec 10 JOIN)); [exact forked_reachable| |vm_compute; reflexivity]. eexists. split; [vm_compute; by split_and!|]. split; [done|].
    intros c y Hc Hy. left. change (c ∈ ({[11%positive]} ∪ ∅ : gset tid)) in Hc. apply elem_of_union in Hc as [->%elem_of_singleton|[]%elem_of_empty].
    by injection Hy as <-. }
  eapply (reach_step _ _ (Begin 11)); [exact H4|eexists; split; vm_compute; reflexivity|vm_compute; reflexivity].
Qed.


(** C5: [%end] suspends the thread for good and keeps the forest.  When the
    parent is waiting in [%join] and may join this child, the parent is
    scheduled and no longer has the child; when the thread is the last detached
    child of a parent that waits in [%wait/fork], the parent is scheduled. *)
Theorem end_wakes_parent (s : state) (t : tid) (x : vthread_l)
  (W : wf s) (Hr : running s t x) (Hc : children x = ∅)
  (Hctx : forall p z, parent x = Some p -> threads s !! p = Some z -> ctx_ready s z x) :
  returns (of_END t s) (fun r => fst r = false /\ wf (snd r) /\
    forall p z, parent x = Some p -> threads s !! p = Some z ->
      if i_am_detached x then
        i_am_waiting z = true -> detached_children z = {[t]} ->
        CallVthread p 0 true ∈ calls (snd r) /\ exists z', threads (snd r) !! p = Some z' /\ woken z'
      else
        i_am_joining z = true -> test_joinable z t = true ->
        CallVthread p 0 true ∈ calls (snd r) /\ exists z', threads (snd r) !! p = Some z' /\ woken z' /\ t ∉ children z').
Proof. by apply of_END_returns. Qed.

Lemma end_wakes_parent_witness : returns (of_END 11 (after demo)) (fun r => CallVthread 10 0 true ∈ calls (snd r)).
Proof.
  eapply returns_mono.
  - eapply (end_wakes_parent (after demo) 11).
    + exact (reachable_wf _ _ (wf_initial _ initial_two_scopes) demo_reachable).
    + by split_and!.
    + reflexivity.
    + intros p z Hp Hz. left. reflexivity.
  - intros r (_ & _ & H). eapply H; reflexivity.
Defined.

(** C6: [%join] reaps one child that has ended, whichever it is - one of the tasks
    and functions when there are any - and the child is freed unless the scheduler
    still refers to it; without such a child the thread waits, and nothing else
    changes.  The context of an automatic child must be one that can be moved
    ([ctx_ready]).  The documents of the engine say that [%join] waits for the top
    child; [join_takes_any_child] computes that the code does not. *)
Theorem join_reaps_ended (s : state) (t : tid) (x : vthread_l)
  (W : wf s) (Hr : running s t x) (Hc : children x <> ∅)
  (Hctx : forall c y, c ∈ children x -> threads s !! c = Some y -> ctx_ready s x y) :
  returns (of_JOIN t s) (fun r => wf (snd r) /\
    if fst r then
      exists c y x', c ∈ children x /\ threads s !! c = Some y /\ i_have_ended y = true /\ test_joinable x c = true /\
        threads (snd r) !! t = Some x' /\ joined c x x' /\
        (is_scheduled y || waiting_for_event y || delay_delete y = false -> threads (snd r) !! c = None)
    else
      (forall c, c ∈ children x -> ended (threads s) c = true -> test_joinable x c = false) /\
      snd r = put t (set_joining true x) s).
Proof. by apply of_JOIN_returns. Qed.

(** The block ends before the join: it is a zombie. *)
Definition late_join : list event := forked_block ++ [Begin 11; Exec 11 END].

Lemma late_join_reachable : reachable two_scopes (after late_join).
Proof.
  assert (H4 : reachable two_scopes (after (forked_block ++ [Begin 11]))).
  { eapply (reach_step _ _ (Begin 11)); [exact forked_reachable|eexists; split; vm_compute; reflexivity|vm_compute; reflexivity]. }
  eapply (reach_step _ _ (Exec 11 END)); [exact H4| |vm_compute; reflexivity]. eexists. split; [vm_compute; by split_and!|].
  split; [done|]. intros p z Hp Hz. by left.
Qed.

Lemma join_reaps_ended_witness : returns (of_JOIN 10 (after late_join)) (fun r => wf (snd r)).
Proof.
  eapply returns_mono.
  - eapply (join_reaps_ended (after late_join) 10).
    + exact (reachable_wf _ _ (wf_initial _ initial_two_scopes) late_join_reachable).
    + vm_compute. by split_and!.
    + vm_compute. discriminate.
    + intros c y Hc Hy. left. change (c ∈ ({[11%positive]} ∪ ∅ : gset tid)) in Hc.
      apply elem_of_union in Hc as [->%elem_of_singleton|[]%elem_of_empty]. vm_compute in Hy. by injection Hy as <-.
  - intros r (H & _). exact H.
Defined.

(** [README.txt] and [opcodes.txt] have [%join] wait for the top of a stack of
    children.  The thread 10 forks 11 and then 12, the top; 11 ends, 12 does not:
    [%join] takes 11 and goes on. *)
Definition top_child_runs : list event :=
  [New 10 0 1 FLAG_OTHER; Begin 10; Exec 10 (FORK 11 5 2); Exec 10 (FORK 12 6 2); Begin 11; Exec 11 END; Begin 12].

Example join_takes_any_child :
  (r ← of_JOIN 10 (after top_child_runs);
   Some (fst r, (fun x => (i_am_joining x, elements (children x))) <$> threads (snd r) !! 10%positive,
         i_have_ended <$> threads (snd r) !! 12%positive)) =
  Some (true, Some (false, [12%positive]), Some false).
Proof. vm_compute. reflexivity. Qed.

(** C11: On a scope none of whose threads is detached or has an automatic context,
    [%disable] terminates, leaves no thread in the scope, has ended or freed all the
    threads that were in it, keeps the forest, and continues exactly when the
    executing thread itself has not been killed.  The examples at the end
    of the file compute what it does to detached threads. *)
Theorem disable_kills (s : state) (t : tid) (scope : positive) (sc : scope_s) (x : vthread_l)
  (W : wf s) (Hr : running s t x) (Hsc : scopes s !! scope = Some sc)
  (Hin : forall u y, u ∈ scope_threads sc -> threads s !! u = Some y -> i_am_detached y = false /\ wt_context y = None) :
  returns (of_DISABLE t scope s) (fun r => wf (snd r) /\
    (exists sc', scopes (snd r) !! scope = Some sc' /\ scope_threads sc' = ∅) /\
    (forall u, u ∈ scope_threads sc -> dead (threads (snd r)) u = true) /\
    fst r = negb (dead (threads (snd r)) t)).
Proof.
  eapply returns_mono; [by apply (of_DISABLE_returns s t scope sc)|]. intros r (W' & He & Hd & Hf). split_and!; [done..|].
  rewrite Hf. destruct Hr as (Hx & Hex & _). unfold dead at 1. rewrite Hx. cbn. rewrite Hex, orb_false_r. by rewrite negb_involutive.
Qed.

(** The forked block disables the scope of the main thread, which contains it. *)
Lemma disable_kills_witness : returns (of_DISABLE 11 1 (after demo)) (fun r => dead (threads (snd r)) 10 = true).
Proof.
  eapply returns_mono.
  - eapply (disable_kills (after demo) 11 1).
    + exact (reachable_wf _ _ (wf_initial _ initial_two_scopes) demo_reachable).
    + vm_compute. by split_and!.
    + vm_compute. reflexivity.
    + intros u y Hu Hy. change (u ∈ ({[10%positive]} ∪ ∅ : gset tid)) in Hu.
      apply elem_of_union in Hu as [->%elem_of_singleton|[]%elem_of_empty]. vm_compute in Hy. injection Hy as <-. by split.
  - intros r (_ & _ & Hd & _). apply Hd. vm_compute. reflexivity.
Defined.

(** *** Detached threads that are disabled *)

(** The thread 10 has the detached child 11 in scope 2. *)
Definition three_scopes : state :=
  mk_state ∅ {[ 1%positive := mk_scope false vpiOtherScope ∅; 2%positive := mk_scope false vpiOtherScope ∅;
                3%positive := mk_scope false vpiOtherScope ∅ ]} ∅ [].
Definition detached : list event := [New 10 0 1 FLAG_OTHER; Begin 10; Exec 10 (FORK 11 5 2); Exec 10 (JOIN_DETACH 1)].

(** The parent waits in [%join] for another child, 12, when the detached child
    is disabled: the parent is scheduled although 12 runs on, while [%end] of a
    detached thread never wakes a parent that joins. *)
Definition joining_another : list event := detached ++ [Exec 10 (FORK 12 6 3); Exec 10 JOIN; New 13 7 3 FLAG_OTHER; Begin 13].

Example disabled_detached_ends_join :
  (let before := default three_scopes (run joining_another three_scopes) in
   let s := default three_scopes (run [Exec 13 (DISABLE 2)] before) in
   (i_am_joining <$> threads before !! 10%positive,
    (fun x => (i_am_joining x, is_scheduled x, elements (children x))) <$> threads s !! 10%positive,
    i_have_ended <$> threads s !! 12%positive)) =
  (Some true, Some (false, true, [12%positive]), Some false).
Proof. vm_compute. reflexivity. Qed.

(** The parent waits in [%wait/fork] for the detached child, which is disabled:
    the parent is neither scheduled nor woken, and no thread is left that could
    wake it. *)
Definition waiting_detached : list event :=
  detached ++ [Exec 10 WAIT_FORK; New 13 7 3 FLAG_OTHER; Begin 13; Exec 13 (DISABLE 2); Begin 11; Exec 13 END].

Example disabled_detached_blocks_wait_fork :
  (let s := default three_scopes (run waiting_detached three_scopes) in
   ((fun x => (i_am_waiting x, is_scheduled x, elements (detached_children x))) <$> threads s !! 10%positive,
    i_have_ended <$> threads s !! 11%positive, size (threads s))) =
  (Some (true, false, [11%positive]), Some true, 2%nat).
Proof. vm_compute. reflexivity. Qed.

(** A detached child that is disabled has a detached child, 12, of its own.
    When the parent ends it lets the zombie go, which is freed with its link to
    12 in place; then 12 ends and looks into the freed thread. *)
Definition orphaned_detached : list event :=
  [New 10 0 1 FLAG_OTHER; Begin 10; Exec 10 (FORK 11 5 2); Exec 10 (JOIN_DETACH 1); Begin 11; Exec 11 (FORK 12 6 3); Exec 11 (JOIN_DETACH 1);
   Exec 11 (WAIT None); Wake 11; Exec 10 (DISABLE 2); Exec 10 END; Begin 11; Begin 12].

Example disabled_detached_use_after_free :
  (let s := default three_scopes (run orphaned_detached three_scopes) in
   ((fun x => (parent x, i_am_detached x)) <$> threads s !! 12%positive, threads s !! 11%positive, step (Exec 12 END) s)) =
  (Some (Some 11%positive, true), None, None).
Proof. vm_compute. reflexivity. Qed.
