(* ===== verification/Symbols.v ===== *)
(** * The symbol tables of the vvp compiler ([vvp/symbols.cc])

    A symbol table is a B-tree of nodes linked by pointers in both directions.
    The file models the tree on a store of nodes and proves that the table is a
    finite map from strings to values: lookups find what was set last, names are
    created on demand, the tree stays sorted and no node overflows its array. *)

From Stdlib Require Import ZArith Lia Bool String Sorted.
From stdpp Require Import base numbers gmap sets list strings.
From S2P Require Import Prelude.

Open Scope nat_scope.

(** ** Definitions *)

Definition leaf_width : nat := 254.
Definition node_width : nat := 508.

(** The union of pointers that a symbol stands for, as a number; [def.ptr = 0]. *)
Abbreviation symbol_value_t := Z.
Definition null : symbol_value_t := 0%Z.

(** Nodes are known by their address.  The array in use and [count] are a list;
    a write beyond the width of the array aborts. *)
Abbreviation loc := positive.
Abbreviation tree_data_ := (string * symbol_value_t)%type.
Inductive slots := leaf (l : list tree_data_) | child (l : list loc).
Record tree_node_ := mk_node { parent : option loc; body : slots }.

(** The string heap counts the chunks of 65528 bytes and the bytes used in the
    last one; a key is represented by its characters. *)
Record symbol_table_s := mk_table {
  nodes : gmap loc tree_node_;
  root : loc;
  next_loc : loc;
  chunks : nat;
  str_used : Z }.

Definition chunk_size : Z := 65528.

Definition with_nodes (m : gmap loc tree_node_) (t : symbol_table_s) : symbol_table_s :=
  mk_table m (root t) (next_loc t) (chunks t) (str_used t).

Definition key_strdup_ (str : string) (t : symbol_table_s) : option symbol_table_s :=
  let len := Z.of_nat (String.length str) in
  assert_ (len + 1 <=? chunk_size)%Z;;
  let t := if (chunk_size - str_used t <? len + 1)%Z
           then mk_table (nodes t) (root t) (next_loc t) (S (chunks t)) 0 else t in
  Some (mk_table (nodes t) (root t) (next_loc t) (chunks t) (str_used t + (len + 1))).

(** [new struct tree_node_] *)
Definition new_node (x : tree_node_) (t : symbol_table_s) : loc * symbol_table_s :=
  (next_loc t, mk_table (<[next_loc t := x]> (nodes t)) (root t) (Pos.succ (next_loc t)) (chunks t) (str_used t)).

Definition get (c : loc) (t : symbol_table_s) : option tree_node_ := nodes t !! c.
Definition set_body (c : loc) (b : slots) (t : symbol_table_s) : option symbol_table_s :=
  x ← get c t; Some (with_nodes (<[c := mk_node (parent x) b]> (nodes t)) t).
Definition set_parent (c : loc) (p : loc) (t : symbol_table_s) : option symbol_table_s :=
  x ← get c t; Some (with_nodes (<[c := mk_node (Some p) (body x)]> (nodes t)) t).

Definition leaf_of (x : tree_node_) : option (list tree_data_) := match body x with leaf l => Some l | child _ => None end.
Definition child_of (x : tree_node_) : option (list loc) := match body x with child l => Some l | leaf _ => None end.

(** The assignments [child[idx]->parent = p] of a loop. *)
Fixpoint adopt (cs : list loc) (p : loc) (t : symbol_table_s) : option symbol_table_s :=
  match cs with [] => Some t | c :: cs => t ← set_parent c p t; adopt cs p t end.

(** Entries behind [idx] are moved back by one place. *)
Definition insert_at {A} (idx : nat) (x : A) (l : list A) : list A := take idx l ++ x :: drop idx l.

Fixpoint node_last_key (fuel : nat) (c : loc) (t : symbol_table_s) : option string :=
  match fuel with
  | O => None
  | S fuel' =>
      x ← get c t;
      match body x with
      | child cs => d ← last cs; node_last_key fuel' d t
      | leaf l => '(k, _) ← last l; Some k
      end
  end.

(** [while (cur->parent->child[idx] != cur)] *)
Fixpoint find_child (cur : loc) (cs : list loc) : option nat :=
  match cs with
  | [] => None
  | c :: cs => if decide (c = cur) then Some O else idx ← find_child cur cs; Some (S idx)
  end.

(** A new child behind [cur] in its parent. *)
Definition hook (cur new p : loc) (t : symbol_table_s) : option symbol_table_s :=
  x ← get p t;
  cs ← child_of x;
  idx ← find_child cur cs;
  assert_ (length cs <? node_width);;
  set_body p (child (insert_at (S idx) new cs)) t.

(** The last half of the children goes to a new node.  A full root becomes the
    parent of two new nodes. *)
Fixpoint split_node_ (fuel : nat) (cur : loc) (t : symbol_table_s) : option symbol_table_s :=
  x ← get cur t;
  cs ← child_of x;
  if length cs =? node_width then
    match fuel with
    | O => None
    | S fuel' =>
        let half := length cs - length cs / 2 in
        let '(new, t) := new_node (mk_node (parent x) (child (drop half cs))) t in
        t ← adopt (drop half cs) new t;
        t ← set_body cur (child (take half cs)) t;
        assert_ (0 <? length (drop half cs));;
        assert_ (0 <? length (take half cs));;
        match parent x with
        | None =>
            t ← set_parent new cur t;
            let '(new2, t) := new_node (mk_node (Some cur) (child (take half cs))) t in
            t ← adopt (take half cs) new2 t;
            set_body cur (child [new2; new]) t
        | Some p =>
            t ← hook cur new p t;
            split_node_ fuel' p t
        end
    end
  else Some t.

Definition split_leaf_ (cur : loc) (t : symbol_table_s) : option symbol_table_s :=
  x ← get cur t;
  l ← leaf_of x;
  p ← parent x;
  let half := length l - length l / 2 in
  let '(new, t) := new_node (mk_node (Some p) (leaf (drop half l))) t in
  t ← set_body cur (leaf (take half l)) t;
  assert_ (0 <? length (drop half l));;
  assert_ (0 <? length (take half l));;
  t ← hook cur new p t;
  y ← get p t;
  cs ← child_of y;
  if length cs =? node_width then split_node_ (size (nodes t)) p t else Some t.

(** The scan of a leaf: the place of the key and whether it is there. *)
Fixpoint leaf_scan (key : string) (l : list tree_data_) : nat * bool :=
  match l with
  | [] => (O, false)
  | (k, _) :: l =>
      match String.compare key k with
      | Eq => (O, true)
      | Lt => (O, false)
      | Gt => let '(idx, found) := leaf_scan key l in (S idx, found)
      end
  end.

(** A new entry in a leaf. *)
Definition leaf_add (cur : loc) (idx : nat) (key : string) (val : symbol_value_t) (l : list tree_data_) (t : symbol_table_s) :
    option symbol_table_s :=
  assert_ (length l <? leaf_width);;
  t ← key_strdup_ key t;
  t ← set_body cur (leaf (insert_at idx (key, val) l)) t;
  if S (length l) =? leaf_width then split_leaf_ cur t else Some t.

(** The part of [find_value_] for a leaf. *)
Definition leaf_find (cur : loc) (key : string) (val : symbol_value_t) (force_flag : bool) (l : list tree_data_) (t : symbol_table_s) :
    option (symbol_value_t * symbol_table_s) :=
  let '(idx, found) := leaf_scan key l in
  if found then
    '(k, v) ← l !! idx;
    if force_flag then t ← set_body cur (leaf (<[idx := (k, val)]> l)) t; Some (val, t)
    else Some (v, t)
  else t ← leaf_add cur idx key val l t; Some (val, t).

(** The binary search in an inner node, where [cs] has [count] children. *)
Fixpoint node_search (fuel : nat) (key : string) (cs : list loc) (min max idx : nat) (t : symbol_table_s) : option nat :=
  match fuel with
  | O => None
  | S fuel' =>
      c ← cs !! idx;
      k ← node_last_key (size (nodes t)) c t;
      match String.compare key k with
      | Eq => Some idx
      | Gt =>
          let min := idx + 1 in
          if min =? length cs then Some idx
          else if min =? max then Some max
          else node_search fuel' key cs min max (min + (max - min) / 2) t
      | Lt =>
          let max := idx in
          if idx =? min then Some idx
          else node_search fuel' key cs min max (min + (max - min) / 2) t
      end
  end.

Fixpoint find_value_ (fuel : nat) (cur : loc) (key : string) (val : symbol_value_t) (force_flag : bool) (t : symbol_table_s) :
    option (symbol_value_t * symbol_table_s) :=
  match fuel with
  | O => None
  | S fuel' =>
      x ← get cur t;
      match body x with
      | leaf l => leaf_find cur key val force_flag l t
      | child cs =>
          idx ← node_search (S (length cs)) key cs 0 (length cs) (length cs / 2) t;
          c ← cs !! idx;
          find_value_ fuel' c key val force_flag t
      end
  end.

(** The table starts as a root without children. *)
Definition symbol_table_new : symbol_table_s := mk_table {[ 1%positive := mk_node None (child []) ]} 1 2 1 0.

(** The very first value makes the first leaf. *)
Definition first_value (key : string) (val : symbol_value_t) (t : symbol_table_s) : option symbol_table_s :=
  let '(cur, t) := new_node (mk_node (Some (root t)) (leaf [(key, val)])) t in
  t ← key_strdup_ key t;
  set_body (root t) (child [cur]) t.

Definition root_count (t : symbol_table_s) : option nat := x ← get (root t) t; cs ← child_of x; Some (length cs).

Definition sym_set_value (key : string) (val : symbol_value_t) (t : symbol_table_s) : option symbol_table_s :=
  n ← root_count t;
  if n =? 0 then first_value key val t
  else '(_, t) ← find_value_ (size (nodes t)) (root t) key val true t; Some t.

Definition sym_get_value (key : string) (t : symbol_table_s) : option (symbol_value_t * symbol_table_s) :=
  n ← root_count t;
  if n =? 0 then t ← first_value key null t; Some (null, t)
  else find_value_ (size (nodes t)) (root t) key null false t.

(** *** The tree *)

(** The links and the contents of a node. *)
Definition par (m : gmap loc tree_node_) (c : loc) : option loc := m !! c ≫= parent.
Definition kids (m : gmap loc tree_node_) (c : loc) : list loc := match body <$> m !! c with Some (child l) => l | _ => [] end.
Definition items (m : gmap loc tree_node_) (c : loc) : list tree_data_ := match body <$> m !! c with Some (leaf l) => l | _ => [] end.

(** The entries below a node from left to right. *)
Fixpoint flatn (n : nat) (m : gmap loc tree_node_) (u : loc) : list tree_data_ :=
  match n with O => [] | S n' => items m u ++ concat (map (flatn n' m) (kids m u)) end.
Definition flat (m : gmap loc tree_node_) (u : loc) : list tree_data_ := flatn (size m) m u.

(** The pointers in both directions agree, and the height decreases from the
    parent to the child. *)
Record linked (h : loc -> nat) (N : nat) (m : gmap loc tree_node_) : Prop := mk_linked {
  lk_links : forall q c, c ∈ kids m q <-> par m c = Some q;
  lk_nodup : forall q, NoDup (kids m q);
  lk_rank : forall c q, par m c = Some q -> h c < h q;
  lk_bound : forall c, is_Some (m !! c) -> h c < N;
  lk_size : N <= size m }.

(** How full the nodes are; one node may have to be split. *)
Definition sized (o : option loc) (m : gmap loc tree_node_) : Prop := forall u x, m !! u = Some x ->
  match body x with
  | leaf l => 1 <= length l /\ (length l < leaf_width \/ (length l = leaf_width /\ o = Some u))
  | child cs => 1 <= length cs /\ (length cs < node_width \/ (length cs = node_width /\ o = Some u))
  end.

Definition key_lt (a b : tree_data_) : Prop := String.compare a.1 b.1 = Lt.

(** The table as a B-tree whose leaves hold the entries [X]. *)
Record binv (h : loc -> nat) (N : nat) (o : option loc) (t : symbol_table_s) (X : list tree_data_) : Prop := mk_binv {
  bt_links : linked h N (nodes t);
  bt_sized : sized o (nodes t);
  bt_fresh : forall c, is_Some (nodes t !! c) -> (c < next_loc t)%positive;
  bt_root : kids (nodes t) (root t) <> [] /\ par (nodes t) (root t) = None;
  bt_flat : flat (nodes t) (root t) = X;
  bt_heap : (0 <= str_used t <= chunk_size)%Z }.
Definition btree (o : option loc) (t : symbol_table_s) (X : list tree_data_) : Prop := exists h N, binv h N o t X.

(** ** Lemmas *)

(** *** The store *)

Lemma spar_insert m t x c : par (<[t := x]> m) c = if decide (c = t) then parent x else par m c.
Proof. unfold par. by case_decide as H; [rewrite H, lookup_insert_eq|rewrite lookup_insert_ne]. Qed.
Lemma skids_insert m t x c : kids (<[t := x]> m) c = if decide (c = t) then match body x with child l => l | _ => [] end else kids m c.
Proof. unfold kids. by case_decide as H; [rewrite H, lookup_insert_eq|rewrite lookup_insert_ne]. Qed.
Lemma items_insert m t x c : items (<[t := x]> m) c = if decide (c = t) then match body x with leaf l => l | _ => [] end else items m c.
Proof. unfold items. by case_decide as H; [rewrite H, lookup_insert_eq|rewrite lookup_insert_ne]. Qed.

Lemma kids_items m c : kids m c <> [] -> items m c = [].
Proof. unfold kids, items. by destruct (m !! c) as [[p [l|l]]|]. Qed.

Lemma kids_some m c d : d ∈ kids m c -> is_Some (m !! c).
Proof. unfold kids. destruct (m !! c); [by eexists|]. intros H. by apply elem_of_nil in H. Qed.

Lemma par_some m c q : par m c = Some q -> is_Some (m !! c).
Proof. unfold par. destruct (m !! c); [by eexists|done]. Qed.

Lemma list_choose {A} (l : list A) : l <> [] -> exists x, x ∈ l.
Proof. destruct l as [|x l]; [done|]. exists x. set_solver. Qed.

Lemma child_ne h N m c q : linked h N m -> c ∈ kids m q -> c <> q.
Proof. intros L H ->. apply (lk_links _ _ _ L) in H. apply (lk_rank _ _ _ L) in H. lia. Qed.

Lemma concat_map_ext {A B} (f g : A -> list B) l : (forall x, x ∈ l -> f x = g x) -> concat (map f l) = concat (map g l).
Proof. intros H. f_equal. apply map_ext_in. intros x Hx. apply H. by apply list_elem_of_In. Qed.

Lemma flatn_stable h N m : linked h N m -> forall n n' u, h u < n -> h u < n' -> flatn n m u = flatn n' m u.
Proof.
  intros L n. induction n as [|n IH]; intros n' u H1 H2; [lia|]. destruct n' as [|n']; [lia|]. cbn. f_equal.
  apply concat_map_ext. intros c Hc. apply (lk_links _ _ _ L), (lk_rank _ _ _ L) in Hc. apply IH; lia.
Qed.

Lemma flat_enough h N m n u : linked h N m -> is_Some (m !! u) -> h u < n -> flatn n m u = flat m u.
Proof.
  intros L Hu Hn. apply (flatn_stable h N m L); [done|]. pose proof (lk_bound _ _ _ L u Hu). pose proof (lk_size _ _ _ L). lia.
Qed.

Lemma flat_unfold h N m u : linked h N m -> is_Some (m !! u) -> flat m u = items m u ++ concat (map (flat m) (kids m u)).
Proof.
  intros L Hu. rewrite <- (flat_enough h N m (S (h u)) u L Hu) by lia. cbn. f_equal. apply concat_map_ext. intros c Hc.
  assert (Hp : par m c = Some u) by (by apply (lk_links _ _ _ L)). pose proof (lk_rank _ _ _ L _ _ Hp).
  apply (flat_enough h N); [done|by apply (par_some m c u)|done].
Qed.

(** *** Splitting a node *)

(** A node that is not the root is split in two. *)
Section split.
Context (h : loc -> nat) (N : nat) (m m' : gmap loc tree_node_) (c new p : loc) (l1 l2 K1 K2 : list loc) (I1 I2 : list tree_data_).
Context (L : linked h N m) (Hc : is_Some (m !! c)) (Hnew : m !! new = None) (Hsize : size m <= size m').
Context (Hp : kids m p = l1 ++ c :: l2) (Kc : kids m c = K1 ++ K2) (Ic : items m c = I1 ++ I2) (Hor : I1 ++ I2 = [] \/ K1 ++ K2 = []).
Context (Hkids : forall u, kids m' u = if decide (u = new) then K2 else if decide (u = c) then K1
  else if decide (u = p) then l1 ++ c :: new :: l2 else kids m u).
Context (Hitems : forall u, items m' u = if decide (u = new) then I2 else if decide (u = c) then I1 else items m u).
Context (Hpar : forall u, par m' u = if decide (u = new) then Some p else if decide (u ∈ K2) then Some new else par m u).
Context (Hdom : forall u, is_Some (m' !! u) <-> u = new \/ is_Some (m !! u)).

Lemma split_parent : par m c = Some p.
Proof using L Hp. apply (lk_links _ _ _ L). rewrite Hp. set_solver +. Qed.

Lemma split_fresh u : new ∉ kids m u.
Proof using L Hnew. intros H. apply (lk_links _ _ _ L), par_some in H. rewrite Hnew in H. by destruct H. Qed.

Lemma split_ne : c <> new /\ p <> new /\ c <> p.
Proof using L Hc Hnew Hp.
  assert (Hk : c ∈ kids m p) by (rewrite Hp; set_solver +). split_and!.
  - intros E. rewrite <- E, eq_None_not_Some in Hnew. by apply Hnew.
  - intros E. apply kids_some in Hk. rewrite <- E, eq_None_not_Some in Hnew. by apply Hnew.
  - by apply (child_ne h N m).
Qed.

Lemma split_K2 u : u ∈ K2 -> par m u = Some c /\ u <> c /\ u <> new /\ u ∉ K1.
Proof.
  intros Hu. assert (Hk : u ∈ kids m c) by (rewrite Kc; set_solver). split; [by apply (lk_links _ _ _ L)|].
  split; [by apply (child_ne h N m)|]. split; [intros ->; by apply split_fresh in Hk|].
  pose proof (lk_nodup _ _ _ L c) as Hnd. rewrite Kc in Hnd. apply NoDup_app in Hnd as (_ & Hd & _). intros Hu1. by apply (Hd u).
Qed.

Definition split_height (u : loc) : nat := if decide (u = new) then h c else h u.

Lemma split_linked : linked split_height N m'.
Proof using All.
  destruct split_ne as (N1 & N2 & N3). pose proof split_parent as Hcp.
  split.
  - intros q d. rewrite Hkids, Hpar. destruct (decide (d = new)) as [->|Hd].
    + destruct (decide (q = new)) as [->|Hq]; [split; [intros Hin; by apply split_K2 in Hin as (_ & _ & ? & _)|congruence]|].
      destruct (decide (q = c)) as [->|Hqc].
      { split; [|congruence]. intros Hin. exfalso. apply (split_fresh c). rewrite Kc. set_solver. }
      destruct (decide (q = p)) as [->|Hqp]; [set_solver|]. split; [intros Hin; by apply split_fresh in Hin|congruence].
    + destruct (decide (q = new)) as [->|Hq].
      { destruct (decide (d ∈ K2)) as [Hd2|Hd2]; [by split|]. split; [done|]. intros Hdp.
        apply (lk_links _ _ _ L), kids_some in Hdp. rewrite Hnew in Hdp. by destruct Hdp. }
      destruct (decide (q = c)) as [->|Hqc].
      { destruct (decide (d ∈ K2)) as [Hd2|Hd2].
        - split; [intros Hin; by apply split_K2 in Hd2 as (_ & _ & _ & ?)|congruence].
        - rewrite <- (lk_links _ _ _ L), Kc. set_solver. }
      destruct (decide (d ∈ K2)) as [Hd2|Hd2].
      { destruct (split_K2 d Hd2) as (Hpd & Hdc & _). split; [|congruence]. intros Hin.
        destruct (decide (q = p)) as [->|Hqp].
        - assert (d ∈ kids m p) as Hk%(lk_links _ _ _ L); [rewrite Hp; set_solver|congruence].
        - apply (lk_links _ _ _ L) in Hin. congruence. }
      rewrite <- (lk_links _ _ _ L). destruct (decide (q = p)) as [->|Hqp]; [rewrite Hp; set_solver|done].
  - intros q. rewrite Hkids. pose proof (lk_nodup _ _ _ L c) as Hnc. rewrite Kc in Hnc. apply NoDup_app in Hnc as (Hn1 & Hn2 & Hn3).
    destruct (decide (q = new)); [done|]. destruct (decide (q = c)); [done|]. destruct (decide (q = p)) as [->|]; [|apply (lk_nodup _ _ _ L)].
    pose proof (lk_nodup _ _ _ L p) as Hnp. pose proof (split_fresh p) as Hfp. rewrite Hp in Hnp, Hfp.
    apply NoDup_app in Hnp as (Hm1 & Hm2 & Hm3). apply NoDup_cons in Hm3 as (Hm3 & Hm4). apply NoDup_app. split; [done|]. split; [set_solver|].
    apply NoDup_cons. split; [set_solver|]. apply NoDup_cons. split; [set_solver|done].
  - intros d q. rewrite Hpar. unfold split_height. destruct (decide (d = new)) as [->|Hd].
    + intros [= <-]. rewrite decide_False by done. by apply (lk_rank _ _ _ L).
    + destruct (decide (d ∈ K2)) as [Hd2|Hd2].
      * intros [= <-]. rewrite decide_True by done. apply (lk_rank _ _ _ L). by apply split_K2.
      * intros Hq. rewrite decide_False; [by apply (lk_rank _ _ _ L)|]. intros ->. apply (lk_links _ _ _ L), kids_some in Hq.
        rewrite Hnew in Hq. by destruct Hq.
  - intros u [->|Hu]%Hdom; unfold split_height; [rewrite decide_True by done; by apply (lk_bound _ _ _ L)|].
    rewrite decide_False; [by apply (lk_bound _ _ _ L)|]. intros ->. rewrite Hnew in Hu. by destruct Hu.
  - pose proof (lk_size _ _ _ L). lia.
Qed.

Lemma split_flatn n : (forall u, u <> c -> u <> new -> flatn n m' u = flatn n m u) /\ flatn n m' c ++ flatn n m' new = flatn n m c.
Proof.
  destruct split_ne as (N1 & N2 & N3).
  induction n as [|n [IH1 IH2]]; [done|]. split.
  - intros u Huc Hun. cbn. rewrite Hitems, Hkids, !(decide_False (P := u = new)), !(decide_False (P := u = c)) by done. f_equal.
    destruct (decide (u = p)) as [->|Hup].
    + pose proof (lk_nodup _ _ _ L p) as Hnp. pose proof (split_fresh p) as Hfp. rewrite Hp in Hnp, Hfp |- *.
      apply NoDup_app in Hnp as (_ & Hm2 & Hm3). apply NoDup_cons in Hm3 as (Hm3 & _).
      rewrite !map_app, !concat_app. cbn. rewrite <- IH2, <- !app_assoc.
      rewrite (concat_map_ext (flatn n m') (flatn n m) l1), (concat_map_ext (flatn n m') (flatn n m) l2); [done| |];
        intros d Hd; apply IH1; set_solver.
    + apply concat_map_ext. intros d Hd. apply IH1; [|intros ->; by apply split_fresh in Hd].
      intros ->. apply (lk_links _ _ _ L) in Hd. rewrite split_parent in Hd. congruence.
  - cbn. rewrite !Hitems, !Hkids, !(decide_True (P := new = new)), !(decide_False (P := c = new)), !(decide_True (P := c = c)) by done.
    rewrite Kc, Ic, map_app, concat_app.
    assert (HK : forall d, d ∈ K1 ++ K2 -> flatn n m' d = flatn n m d).
    { intros d Hd. rewrite <- Kc in Hd. apply IH1; [by apply (child_ne h N m)|intros ->; by apply split_fresh in Hd]. }
    rewrite (concat_map_ext (flatn n m') (flatn n m) K1), (concat_map_ext (flatn n m') (flatn n m) K2) by (intros d Hd; apply HK; set_solver).
    destruct Hor as [HI|HK0].
    + apply app_nil in HI as [-> ->]. done.
    + apply app_nil in HK0 as [-> ->]. cbn. by rewrite !app_nil_r.
Qed.

Lemma split_flat u : is_Some (m !! u) -> u <> c -> flat m' u = flat m u.
Proof using All.
  intros Hu Huc. assert (Hun : u <> new) by (intros ->; rewrite Hnew in Hu; by destruct Hu).
  rewrite <- (flat_enough _ _ _ (S (h u)) u split_linked) by (rewrite ?Hdom; auto; unfold split_height; rewrite decide_False by done; lia).
  rewrite (proj1 (split_flatn _)) by done. apply (flat_enough h N); [done|done|lia].
Qed.
End split.

(** The root is split into two new nodes and becomes their parent. *)
Section split_root.
Context (h : loc -> nat) (N : nat) (m m' : gmap loc tree_node_) (c new2 new : loc) (K1 K2 : list loc).
Context (L : linked h N m) (Hc : par m c = None) (Hnew : m !! new = None) (Hnew2 : m !! new2 = None) (Hnn : new <> new2) (Hsize : S (size m) <= size m').
Context (Kc : kids m c = K1 ++ K2) (HK : K1 ++ K2 <> []).
Context (Hkids : forall u, kids m' u = if decide (u = new) then K2 else if decide (u = new2) then K1
  else if decide (u = c) then [new2; new] else kids m u).
Context (Hitems : forall u, items m' u = if decide (u = new) then [] else if decide (u = new2) then [] else items m u).
Context (Hpar : forall u, par m' u = if decide (u = new) then Some c else if decide (u = new2) then Some c else
  if decide (u ∈ K2) then Some new else if decide (u ∈ K1) then Some new2 else par m u).
Context (Hdom : forall u, is_Some (m' !! u) <-> u = new \/ u = new2 \/ is_Some (m !! u)).

Lemma root_fresh u : (new ∉ kids m u) /\ (new2 ∉ kids m u).
Proof.
  split; intros H; apply (lk_links _ _ _ L), par_some in H; [rewrite Hnew in H|rewrite Hnew2 in H]; by destruct H.
Qed.

Lemma root_some : is_Some (m !! c).
Proof. destruct (list_choose _ (eq_ind_r (fun l => l <> []) HK Kc)) as [d Hd]. by apply (kids_some m c d). Qed.

Lemma root_ne : c <> new /\ c <> new2.
Proof. pose proof root_some as Hs. split; intros ->; [rewrite Hnew in Hs|rewrite Hnew2 in Hs]; by destruct Hs. Qed.

Lemma root_child q : c ∈ kids m q -> False.
Proof. intros H. apply (lk_links _ _ _ L) in H. congruence. Qed.

Lemma root_K u : u ∈ K1 \/ u ∈ K2 -> par m u = Some c /\ u <> c /\ u <> new /\ u <> new2.
Proof.
  intros Hu. assert (Hk : u ∈ kids m c) by (rewrite Kc; set_solver). split; [by apply (lk_links _ _ _ L)|].
  split; [by apply (child_ne h N m)|]. destruct (root_fresh c). split; intros ->; done.
Qed.

Definition root_height (u : loc) : nat := if decide (u = c) then S (h c) else if decide (u = new) then h c else if decide (u = new2) then h c else h u.

Lemma root_disjoint u : u ∈ K1 -> u ∈ K2 -> False.
Proof.
  pose proof (lk_nodup _ _ _ L c) as Hnd. rewrite Kc in Hnd. apply NoDup_app in Hnd as (_ & Hd & _). intros H1 H2. by apply (Hd u).
Qed.

Lemma root_linked : linked root_height (S N) m'.
Proof using All.
  destruct root_ne as (N1 & N2).
  assert (Hno : forall d q, par m d = Some q -> q <> new /\ q <> new2).
  { intros d q H. apply (lk_links _ _ _ L), kids_some in H. split; intros ->; [rewrite Hnew in H|rewrite Hnew2 in H]; by destruct H. }
  split.
  - intros q d. rewrite Hkids, Hpar. pose proof (root_K d) as HKd. pose proof (root_disjoint d) as Hdis.
    pose proof (lk_links _ _ _ L q d) as Hl. pose proof (Hno d q) as Hnq.
    destruct (decide (d = new)) as [->|D1]; [|destruct (decide (d = new2)) as [->|D2]].
    + destruct (root_fresh q) as [F1 F2]. repeat case_decide; subst; set_solver.
    + destruct (root_fresh q) as [F1 F2]. repeat case_decide; subst; set_solver.
    + destruct (decide (d ∈ K2)) as [H2|H2]; [|destruct (decide (d ∈ K1)) as [H1|H1]].
      * destruct HKd as (Hpd & Hdc & _); [by right|]. repeat case_decide; subst; try (split; [|congruence]); try done.
        -- intros Hin. by destruct (Hdis Hin H2).
        -- intros Hin. set_solver.
        -- intros Hin%Hl. congruence.
      * destruct HKd as (Hpd & Hdc & _); [by left|]. repeat case_decide; subst; try (split; [|congruence]); try done.
        -- intros Hin. set_solver.
        -- intros Hin%Hl. congruence.
      * repeat case_decide; subst.
        -- split; [done|]. intros Hz. by destruct (Hnq Hz).
        -- split; [done|]. intros Hz. by destruct (Hnq Hz).
        -- split; [set_solver|]. intros Hz%Hl. rewrite Kc in Hz. set_solver.
        -- done.
  - intros q. rewrite Hkids. pose proof (lk_nodup _ _ _ L c) as Hnc. rewrite Kc in Hnc. apply NoDup_app in Hnc as (Hn1 & Hn2 & Hn3).
    repeat case_decide; try done; [|apply (lk_nodup _ _ _ L)]. apply NoDup_cons. split; [set_solver|]. apply NoDup_singleton.
  - intros d q. rewrite Hpar. unfold root_height.
    destruct (decide (d = new)) as [->|D1]; [|destruct (decide (d = new2)) as [->|D2]; [|destruct (decide (d ∈ K2)) as [H2|H2]; [|destruct (decide (d ∈ K1)) as [H1|H1]]]].
    + intros [= <-]. repeat case_decide; congruence || lia.
    + intros [= <-]. repeat case_decide; congruence || lia.
    + intros [= <-]. destruct (root_K d) as (Hpd & Hdc & _); [by right|]. pose proof (lk_rank _ _ _ L _ _ Hpd). repeat case_decide; congruence || lia.
    + intros [= <-]. destruct (root_K d) as (Hpd & Hdc & _); [by left|]. pose proof (lk_rank _ _ _ L _ _ Hpd). repeat case_decide; congruence || lia.
    + intros Hq. pose proof (lk_rank _ _ _ L _ _ Hq) as Hr. destruct (Hno _ _ Hq).
      assert (d <> c) by congruence. destruct (decide (q = c)) as [Hqc|]; [rewrite Hqc in Hr|]; repeat case_decide; congruence || lia.
  - pose proof (lk_bound _ _ _ L c root_some) as Hb. intros u Hu. apply Hdom in Hu. unfold root_height.
    repeat case_decide; try lia. destruct Hu as [->|[->|Hu]]; [done..|]. pose proof (lk_bound _ _ _ L u Hu). lia.
  - pose proof (lk_size _ _ _ L). lia.
Qed.

Lemma root_flatn n : (forall u, u <> c -> u <> new -> u <> new2 -> flatn n m' u = flatn n m u) /\ flatn (S n) m' c = flatn n m c.
Proof.
  destruct root_ne as (N1 & N2).
  assert (H1 : forall n u, u <> c -> u <> new -> u <> new2 -> flatn n m' u = flatn n m u).
  { intros k. induction k as [|k IH]; [done|]. intros u U1 U2 U3. cbn. rewrite Hitems, Hkids, !(decide_False (P := u = new)), !(decide_False (P := u = new2)), (decide_False (P := u = c)) by done.
    f_equal. apply concat_map_ext. intros d Hd. destruct (root_fresh u). apply IH; [|by intros ->|by intros ->]. intros ->. by apply (root_child u). }
  split; [apply H1|]. destruct n as [|n].
  - cbn. rewrite Hitems, Hkids, !(decide_False (P := c = new)), !(decide_False (P := c = new2)), (decide_True (P := c = c)) by done.
    rewrite kids_items by (by rewrite Kc). done.
  - assert (Hin : items m c = []) by (apply kids_items; by rewrite Kc).
    change (flatn (S (S n)) m' c) with (items m' c ++ concat (map (flatn (S n) m') (kids m' c))).
    rewrite Hitems, Hkids, !(decide_False (P := c = new)), !(decide_False (P := c = new2)), (decide_True (P := c = c)) by done.
    cbn. rewrite !Hitems, !Hkids, Hin, !(decide_True (P := new = new)), !(decide_False (P := new2 = new)), !(decide_True (P := new2 = new2)) by done.
    cbn. rewrite app_nil_r, Kc, map_app, concat_app. f_equal; apply concat_map_ext; intros d Hd; apply H1; apply (root_K d); auto.
Qed.

Lemma root_flat : flat m' c = flat m c.
Proof using All.
  rewrite <- (flat_enough _ _ _ (S (S (h c))) c root_linked); [|rewrite Hdom; right; right; apply root_some|unfold root_height; rewrite decide_True by done; lia].
  rewrite (proj2 (root_flatn _)). apply (flat_enough h N); [done|apply root_some|lia].
Qed.
End split_root.

(** *** The operations on the store *)

Definition adopted (p : loc) (x : tree_node_) : tree_node_ := mk_node (Some p) (body x).

Lemma adopt_returns cs p t :
  NoDup cs -> (forall c, c ∈ cs -> is_Some (nodes t !! c)) ->
  exists m', adopt cs p t = Some (with_nodes m' t) /\
    forall u, m' !! u = if decide (u ∈ cs) then adopted p <$> (nodes t !! u) else nodes t !! u.
Proof.
  revert t. induction cs as [|c cs IH]; intros t Hnd Hcs; cbn [adopt].
  - exists (nodes t). split; [by destruct t|]. intros u. by rewrite decide_False by set_solver.
  - apply NoDup_cons in Hnd as [Hc Hnd]. destruct (Hcs c ltac:(set_solver)) as [x Hx]. unfold set_parent, get. rewrite Hx. cbn [mbind option_bind].
    destruct (IH (with_nodes (<[c := mk_node (Some p) (body x)]> (nodes t)) t) Hnd) as (m' & -> & Hm').
    { intros d Hd. cbn. rewrite lookup_insert_ne by (intros ->; done). apply Hcs. set_solver. }
    exists m'. split; [done|]. intros u. rewrite Hm'. cbn. destruct (decide (u = c)) as [->|Hu].
    + rewrite decide_False, decide_True by set_solver. by rewrite lookup_insert_eq, Hx.
    + rewrite lookup_insert_ne by done. repeat case_decide; done || set_solver.
Qed.

Lemma find_child_spec c l1 l2 : c ∉ l1 -> find_child c (l1 ++ c :: l2) = Some (length l1).
Proof.
  induction l1 as [|d l1 IH]; intros Hc; cbn; [by rewrite decide_True|]. rewrite decide_False by set_solver.
  rewrite IH by set_solver. done.
Qed.

Lemma insert_at_middle {A} (l1 l2 : list A) c x : insert_at (S (length l1)) x (l1 ++ c :: l2) = l1 ++ c :: x :: l2.
Proof.
  unfold insert_at. replace (l1 ++ c :: l2) with ((l1 ++ [c]) ++ l2) by (by rewrite <- app_assoc).
  replace (S (length l1)) with (length (l1 ++ [c])) by (rewrite length_app; cbn; lia).
  by rewrite take_app_length, drop_app_length, <- app_assoc.
Qed.

Lemma kids_at m c x l : m !! c = Some x -> body x = child l -> kids m c = l.
Proof. intros H1 H2. unfold kids. rewrite H1. cbn. by rewrite H2. Qed.

Lemma items_at m c x l : m !! c = Some x -> body x = leaf l -> items m c = l.
Proof. intros H1 H2. unfold items. rewrite H1. cbn. by rewrite H2. Qed.

Lemma kids_node m c d : d ∈ kids m c -> exists x, m !! c = Some x /\ body x = child (kids m c).
Proof.
  unfold kids. destruct (m !! c) as [[p [l|l]]|]; cbn; intros H; try (by apply elem_of_nil in H). by eexists.
Qed.

(** The links of the split node, read off the store. *)
Section split_store.
Context (m m' : gmap loc tree_node_) (c new p : loc) (l1 l2 K2 : list loc) (b1 b2 : slots).
Context (Hnew : m !! new = None) (Hcn : c <> new) (Hpn : p <> new) (Hpc : c <> p) (HK2 : (c ∉ K2) /\ (p ∉ K2)) (Hp : kids m p = l1 ++ c :: l2).
Context (HK2m : forall u, u ∈ K2 -> is_Some (m !! u)) (Hpar : par m c = Some p).
Context (Hlook : forall u, m' !! u = if decide (u = new) then Some (mk_node (Some p) b2)
  else if decide (u = c) then Some (mk_node (Some p) b1)
  else if decide (u = p) then Some (mk_node (par m p) (child (l1 ++ c :: new :: l2)))
  else if decide (u ∈ K2) then adopted new <$> (m !! u) else m !! u).

Lemma split_store_kids u : kids m' u = if decide (u = new) then match b2 with child l => l | _ => [] end
  else if decide (u = c) then match b1 with child l => l | _ => [] end
  else if decide (u = p) then l1 ++ c :: new :: l2 else kids m u.
Proof using All. unfold kids. rewrite Hlook. repeat case_decide; try done. by destruct (m !! u). Qed.

Lemma split_store_items u : items m' u = if decide (u = new) then match b2 with leaf l => l | _ => [] end
  else if decide (u = c) then match b1 with leaf l => l | _ => [] end else items m u.
Proof using All.
  destruct (decide (u = p)) as [->|Hup].
  - rewrite decide_False, decide_False by congruence. rewrite (kids_items m p) by (rewrite Hp; by destruct l1).
    unfold items. by rewrite Hlook, decide_False, decide_False, decide_True by congruence.
  - unfold items. rewrite Hlook. repeat case_decide; try done. by destruct (m !! u).
Qed.

Lemma split_store_par u : par m' u = if decide (u = new) then Some p else if decide (u ∈ K2) then Some new else par m u.
Proof using All.
  destruct HK2 as [Hc2 Hp2]. destruct (decide (u = new)) as [->|Hun]; [unfold par; by rewrite Hlook, decide_True|].
  destruct (decide (u = c)) as [->|Huc]; [rewrite decide_False, Hpar by done; unfold par; by rewrite Hlook, decide_False, decide_True|].
  destruct (decide (u = p)) as [->|Hup]; [rewrite decide_False by done; unfold par at 1; by rewrite Hlook, decide_False, decide_False, decide_True|].
  unfold par at 1. rewrite Hlook, !decide_False by done. case_decide as Hu; [|done]. destruct (HK2m u Hu) as [x Hx]. by rewrite Hx.
Qed.

Lemma split_store_dom u : is_Some (m !! c) -> (is_Some (m' !! u) <-> u = new \/ is_Some (m !! u)).
Proof using All.
  intros Hc. assert (Hps : is_Some (m !! p)) by (apply (kids_some m p c); rewrite Hp; set_solver).
  rewrite Hlook. repeat case_decide; subst; try (split; [by auto|intros _; by eexists]).
  - rewrite fmap_is_Some. split; [by auto|]. by intros [?|?].
  - split; [by auto|]. by intros [?|?].
Qed.

Lemma split_store_size : is_Some (m !! c) -> size m' = S (size m).
Proof using All.
  intros Hc. rewrite <- !(size_dom (D := gset loc)). replace (dom m' : gset loc) with ({[new]} ∪ dom m : gset loc).
  - rewrite size_union, size_singleton; [done|]. apply disjoint_singleton_l. by rewrite not_elem_of_dom.
  - apply set_eq. intros u. rewrite elem_of_union, elem_of_singleton, !elem_of_dom. symmetry. by apply split_store_dom.
Qed.
End split_store.

Lemma hook_returns t c new p x l1 l2 :
  nodes t !! p = Some x -> body x = child (l1 ++ c :: l2) -> c ∉ l1 -> length (l1 ++ c :: l2) < node_width ->
  hook c new p t = Some (with_nodes (<[p := mk_node (parent x) (child (l1 ++ c :: new :: l2))]> (nodes t)) t).
Proof.
  intros Hx Hb Hc Hl. unfold hook, get, child_of. rewrite Hx. cbn [mbind option_bind]. rewrite Hb. cbn [mbind option_bind].
  rewrite find_child_spec by done. cbn [mbind option_bind]. rewrite (proj2 (Nat.ltb_lt _ _)) by done. cbn [assert_ mbind option_bind].
  unfold set_body, get. rewrite Hx. cbn [mbind option_bind]. by rewrite insert_at_middle.
Qed.

Lemma fresh_none h N o t X : binv h N o t X -> nodes t !! next_loc t = None.
Proof.
  intros B. destruct (nodes t !! next_loc t) as [x|] eqn:E; [|done].
  assert (next_loc t < next_loc t)%positive by (apply (bt_fresh _ _ _ _ _ B); by eexists). lia.
Qed.

(** The place of a node in its parent. *)
Lemma parent_slot h N o t X c p : binv h N o t X -> par (nodes t) c = Some p ->
  exists x l1 l2, nodes t !! p = Some x /\ body x = child (l1 ++ c :: l2) /\ kids (nodes t) p = l1 ++ c :: l2 /\ (c ∉ l1) /\
    par (nodes t) p = parent x /\ c <> p.
Proof.
  intros B Hp. pose proof (bt_links _ _ _ _ _ B) as L. assert (Hk : c ∈ kids (nodes t) p) by (by apply (lk_links _ _ _ L)).
  destruct (kids_node _ _ _ Hk) as (x & Hx & Hb). pose proof (lk_nodup _ _ _ L p) as Hnd.
  apply list_elem_of_split in Hk as Hk'. destruct Hk' as (l1 & l2 & E). rewrite E in *. exists x, l1, l2. split_and!; try done.
  - apply NoDup_app in Hnd as (_ & Hd & _). intros Hc. apply (Hd c Hc). set_solver.
  - unfold par. by rewrite Hx.
  - apply (child_ne h N (nodes t)); [done|]. by rewrite E.
Qed.

(** What a split does to the invariant: the parent may be full now. *)
Lemma split_step h N t X c x p m' K1 K2 I1 I2 b1 b2 xp l1 l2 :
  binv h N (Some c) t X -> nodes t !! c = Some x -> parent x = Some p ->
  kids (nodes t) c = K1 ++ K2 -> items (nodes t) c = I1 ++ I2 -> (I1 ++ I2 = [] \/ K1 ++ K2 = []) ->
  (b1 = child K1 /\ b2 = child K2 /\ I1 = [] /\ I2 = [] /\ 1 <= length K1 < node_width /\ 1 <= length K2 < node_width) \/
  (b1 = leaf I1 /\ b2 = leaf I2 /\ K1 = [] /\ K2 = [] /\ 1 <= length I1 < leaf_width /\ 1 <= length I2 < leaf_width) ->
  nodes t !! p = Some xp -> body xp = child (l1 ++ c :: l2) ->
  (forall u, m' !! u = if decide (u = next_loc t) then Some (mk_node (Some p) b2)
    else if decide (u = c) then Some (mk_node (Some p) b1)
    else if decide (u = p) then Some (mk_node (parent xp) (child (l1 ++ c :: next_loc t :: l2)))
    else if decide (u ∈ K2) then adopted (next_loc t) <$> (nodes t !! u) else nodes t !! u) ->
  binv (split_height h c (next_loc t)) N (Some p) (mk_table m' (root t) (Pos.succ (next_loc t)) (chunks t) (str_used t)) X.
Proof.
  intros B Hx Hpx HK HI Hor Hb Hxp Hbp Hlook. pose proof (fresh_none _ _ _ _ _ B) as Hnew. pose proof B as [L Hs Hf [Hr1 Hr2] HX Hh].
  set (new := next_loc t) in *. set (m := nodes t) in *.
  assert (Hc : is_Some (m !! c)) by (by eexists). assert (Hparc : par m c = Some p) by (unfold par; by rewrite Hx).
  assert (Hkp : kids m p = l1 ++ c :: l2) by (by apply (kids_at m p xp)). assert (Hparp : par m p = parent xp) by (unfold par; by rewrite Hxp).
  destruct (split_ne h N m c new p l1 l2 L Hc Hnew Hkp) as (N1 & N2 & N3).
  assert (HK2 : (c ∉ K2) /\ (p ∉ K2) /\ forall u, u ∈ K2 -> is_Some (m !! u)).
  { assert (Hin : forall u, u ∈ K2 -> par m u = Some c) by (intros u Hu; apply (lk_links _ _ _ L); rewrite HK; set_solver +Hu).
    split_and!.
    - intros Hu%Hin. apply (lk_rank _ _ _ L) in Hu. lia.
    - intros Hu%Hin. apply (lk_rank _ _ _ L) in Hu, Hparc. lia.
    - intros u Hu%Hin. by apply (par_some m u c). }
  destruct HK2 as (HKc & HKp & HKm). rewrite <- Hparp in Hlook.
  assert (E1 : match b1 with child l => l | _ => [] end = K1 /\ match b2 with child l => l | _ => [] end = K2 /\
    match b1 with leaf l => l | _ => [] end = I1 /\ match b2 with leaf l => l | _ => [] end = I2).
  { by destruct Hb as [(-> & -> & -> & -> & _)|(-> & -> & -> & -> & _)]. }
  destruct E1 as (E1 & E2 & E3 & E4).
  pose proof (split_store_kids m m' c new p l1 l2 K2 b1 b2 Hnew N1 N2 N3 (conj HKc HKp) Hkp HKm Hparc Hlook) as Sk. rewrite E1, E2 in Sk.
  pose proof (split_store_items m m' c new p l1 l2 K2 b1 b2 Hnew N1 N2 N3 (conj HKc HKp) Hkp HKm Hparc Hlook) as Si. rewrite E3, E4 in Si.
  pose proof (split_store_par m m' c new p l1 l2 K2 b1 b2 Hnew N1 N2 N3 (conj HKc HKp) Hkp HKm Hparc Hlook) as Sp.
  pose proof (fun u => split_store_dom m m' c new p l1 l2 K2 b1 b2 Hnew N1 N2 N3 (conj HKc HKp) Hkp HKm Hparc Hlook u Hc) as Sd.
  pose proof (split_store_size m m' c new p l1 l2 K2 b1 b2 Hnew N1 N2 N3 (conj HKc HKp) Hkp HKm Hparc Hlook Hc) as Ss.
  assert (Hrc : root t <> c) by (intros E; rewrite E in Hr2; congruence).
  assert (Hrn : root t <> new) by (intros E; unfold m in Hr1; rewrite E in Hr1; unfold kids in Hr1; fold m in Hr1; by rewrite Hnew in Hr1).
  assert (Hrm : is_Some (m !! root t)) by (destruct (list_choose _ Hr1) as [d Hd]; by apply (kids_some m _ d)).
  split; cbn [nodes root next_loc str_used].
  - apply (split_linked h N m m' c new p l1 l2 K1 K2 I1 I2); try done. lia.
  - intros u y Hy. rewrite Hlook in Hy.
    destruct (decide (u = new)) as [->|Hun]; [injection Hy as <-; cbn; destruct Hb as [(-> & -> & _ & _ & ? & ?)|(-> & -> & _ & _ & ? & ?)]; lia|].
    destruct (decide (u = c)) as [->|Huc]; [injection Hy as <-; cbn; destruct Hb as [(-> & -> & _ & _ & ? & ?)|(-> & -> & _ & _ & ? & ?)]; lia|].
    destruct (decide (u = p)) as [->|Hup].
    { injection Hy as <-. cbn. specialize (Hs p xp Hxp). rewrite Hbp in Hs. destruct Hs as [Hs1 Hs2].
      assert (length (l1 ++ c :: l2) < node_width) by (destruct Hs2 as [|[_ [= E]]]; [done|congruence]).
      rewrite length_app in *. cbn in *. split; [lia|]. destruct (decide (S (length l1 + S (length l2)) = node_width)); [right; split; [lia|done]|left; lia]. }
    destruct (decide (u ∈ K2)) as [Hu|Hu].
    + destruct (m !! u) as [z|] eqn:Ez; [|done]. injection Hy as <-. cbn. specialize (Hs u z Ez).
      destruct (body z); destruct Hs as [Hs1 [Hs2|[_ [= E]]]]; (congruence || (split; [done|by left])).
    + specialize (Hs u y Hy). destruct (body y); destruct Hs as [Hs1 [Hs2|[_ [= E]]]]; (congruence || (split; [done|by left])).
  - intros u Hu%Sd. destruct Hu as [->|Hu]; [lia|]. specialize (Hf u Hu). fold new in Hf. lia.
  - rewrite Sk, Sp, !decide_False by done. split.
    + case_decide; [by destruct l1|done].
    + rewrite (decide_False (P := root t = new)), decide_False; [done| |done]. intros Hu. assert (par m (root t) = Some c) by (apply (lk_links _ _ _ L); rewrite HK; set_solver +Hu). congruence.
  - rewrite <- HX. apply (split_flat h N m m' c new p l1 l2 K1 K2 I1 I2); try done. lia.
  - done.
Qed.

Lemma root_step h N t X c m' K1 K2 :
  binv h N (Some c) t X -> par (nodes t) c = None -> kids (nodes t) c = K1 ++ K2 ->
  1 <= length K1 < node_width -> 1 <= length K2 < node_width ->
  (forall u, m' !! u = if decide (u = next_loc t) then Some (mk_node (Some c) (child K2))
    else if decide (u = Pos.succ (next_loc t)) then Some (mk_node (Some c) (child K1))
    else if decide (u = c) then Some (mk_node None (child [Pos.succ (next_loc t); next_loc t]))
    else if decide (u ∈ K2) then adopted (next_loc t) <$> (nodes t !! u)
    else if decide (u ∈ K1) then adopted (Pos.succ (next_loc t)) <$> (nodes t !! u) else nodes t !! u) ->
  btree None (mk_table m' (root t) (Pos.succ (Pos.succ (next_loc t))) (chunks t) (str_used t)) X.
Proof.
  intros B Hc HK Hl1 Hl2 Hlook. pose proof (fresh_none _ _ _ _ _ B) as Hnew. pose proof B as [L Hs Hf [Hr1 Hr2] HX Hh].
  assert (Hnew2 : nodes t !! Pos.succ (next_loc t) = None).
  { apply eq_None_not_Some. intros Hx%Hf. lia. }
  assert (Hnn : next_loc t <> Pos.succ (next_loc t)) by lia.
  set (new := next_loc t) in *. set (new2 := Pos.succ new) in *. set (m := nodes t) in *.
  assert (HKne : K1 ++ K2 <> []) by (destruct K1; [cbn in Hl1; lia|done]).
  assert (Hck : kids m c <> []) by (by rewrite HK).
  assert (Hcs : is_Some (m !! c)) by (destruct (list_choose _ Hck) as [d Hd]; by apply (kids_some m c d)).
  assert (N1 : c <> new) by (intros E; rewrite E in Hcs; rewrite Hnew in Hcs; by destruct Hcs).
  assert (N2 : c <> new2) by (intros E; rewrite E in Hcs; rewrite Hnew2 in Hcs; by destruct Hcs).
  assert (HKin : forall u, u ∈ K1 \/ u ∈ K2 -> par m u = Some c).
  { intros u Hu. apply (lk_links _ _ _ L). rewrite HK. apply elem_of_app. tauto. }
  assert (HKc : (c ∉ K1) /\ (c ∉ K2)) by (split; intros Hu; (assert (par m c = Some c) by (apply HKin; auto)); congruence).
  assert (HKm : forall u, u ∈ K1 \/ u ∈ K2 -> is_Some (m !! u)) by (intros u Hu%HKin; by apply (par_some m u c)).
  assert (Sk : forall u, kids m' u = if decide (u = new) then K2 else if decide (u = new2) then K1 else if decide (u = c) then [new2; new] else kids m u).
  { intros u. unfold kids. rewrite Hlook. repeat case_decide; try done; by destruct (m !! u). }
  assert (Si : forall u, items m' u = if decide (u = new) then [] else if decide (u = new2) then [] else items m u).
  { intros u. destruct (decide (u = c)) as [->|Huc].
    - rewrite (kids_items m c Hck). unfold items. rewrite Hlook. by repeat case_decide.
    - unfold items. rewrite Hlook. repeat case_decide; try done; by destruct (m !! u). }
  assert (Sp : forall u, par m' u = if decide (u = new) then Some c else if decide (u = new2) then Some c else if decide (u ∈ K2) then Some new
    else if decide (u ∈ K1) then Some new2 else par m u).
  { intros u. unfold par at 1. rewrite Hlook. destruct (decide (u = new)); [done|]. destruct (decide (u = new2)); [done|].
    destruct (decide (u = c)) as [->|Huc]; [destruct HKc; rewrite !decide_False by done; by rewrite Hc|].
    destruct (decide (u ∈ K2)) as [Hu|Hu]; [destruct (HKm u (or_intror Hu)) as [x Hx]; by rewrite Hx|].
    destruct (decide (u ∈ K1)) as [Hu1|Hu1]; [destruct (HKm u (or_introl Hu1)) as [x Hx]; by rewrite Hx|done]. }
  assert (Sd : forall u, is_Some (m' !! u) <-> u = new \/ u = new2 \/ is_Some (m !! u)).
  { intros u. rewrite Hlook. repeat case_decide; subst; try (split; [by auto|intros _; by eexists]); rewrite ?fmap_is_Some; (split; [by auto|]); by intros [?|[?|?]]. }
  assert (Ss : size m' = S (S (size m))).
  { rewrite <- !(size_dom (D := gset loc)). replace (dom m' : gset loc) with ({[new]} ∪ ({[new2]} ∪ dom m) : gset loc).
    - rewrite size_union, size_union, !size_singleton; [done| |].
      + apply disjoint_singleton_l. by rewrite not_elem_of_dom.
      + apply disjoint_singleton_l. rewrite not_elem_of_union, not_elem_of_singleton, not_elem_of_dom. done.
    - apply set_eq. intros u. rewrite !elem_of_union, !elem_of_singleton, !elem_of_dom. symmetry. apply Sd. }
  assert (Hrm : is_Some (m !! root t)) by (destruct (list_choose _ Hr1) as [d Hd]; by apply (kids_some m _ d)).
  assert (Hrn : root t <> new /\ root t <> new2) by (split; intros E; rewrite E in Hrm; rewrite ?Hnew, ?Hnew2 in Hrm; by destruct Hrm).
  destruct Hrn as [Hrn Hrn2].
  assert (Hge : S (size m) <= size m') by lia.
  exists (root_height h c new2 new), (S N). split; cbn [nodes root next_loc str_used].
  - by apply (root_linked h N m m' c new2 new K1 K2).
  - intros u y Hy. rewrite Hlook in Hy.
    destruct (decide (u = new)); [injection Hy as <-; cbn; lia|]. destruct (decide (u = new2)); [injection Hy as <-; cbn; lia|].
    destruct (decide (u = c)) as [->|Huc]; [injection Hy as <-; cbn; unfold node_width; lia|].
    assert (Hgen : forall z, m !! u = Some z -> match body z with leaf l => 1 <= length l /\ (length l < leaf_width \/ (length l = leaf_width /\ None = Some u))
      | child cs => 1 <= length cs /\ (length cs < node_width \/ (length cs = node_width /\ None = Some u)) end).
    { intros z Hz. specialize (Hs u z Hz). destruct (body z); destruct Hs as [Hs1 [Hs2|[_ [= E]]]]; (congruence || (split; [done|by left])). }
    repeat case_decide; try (destruct (m !! u) as [z|]; [|done]; injection Hy as <-; exact (Hgen z eq_refl)); exact (Hgen y Hy).
  - intros u Hu%Sd. destruct Hu as [->|[->|Hu]]; [lia..|]. specialize (Hf u Hu). lia.
  - rewrite Sk, Sp. split.
    + rewrite (decide_False (P := root t = new)), (decide_False (P := root t = new2)) by done. by case_decide.
    + assert (HnK : (root t ∉ K1) /\ (root t ∉ K2)) by (split; intros Hu; (assert (par m (root t) = Some c) by (apply HKin; auto)); congruence).
      destruct HnK. by repeat case_decide.
  - rewrite <- HX. destruct (decide (root t = c)) as [->|Hrc]; [by apply (root_flat h N m m' c new2 new K1 K2)|].
    pose proof (root_linked h N m m' c new2 new K1 K2 L Hc Hnew Hnew2 Hnn Hge HK HKne Sk Si Sp Sd) as L'.
    rewrite <- (flat_enough _ _ _ (S (h (root t))) (root t) L'); [|apply Sd; auto|unfold root_height; rewrite !decide_False by done; lia].
    destruct (root_flatn h N m m' c new2 new K1 K2 L Hc Hnew Hnew2 Hnn Hge HK HKne Sk Si Sp Sd (S (h (root t)))) as [Hfl _].
    rewrite Hfl by done. apply (flat_enough h N); [done|done|lia].
  - done.
Qed.

Lemma set_body_returns c b x t : nodes t !! c = Some x -> set_body c b t = Some (with_nodes (<[c := mk_node (parent x) b]> (nodes t)) t).
Proof. intros Hx. unfold set_body, get. by rewrite Hx. Qed.

Lemma set_parent_returns c p x t : nodes t !! c = Some x -> set_parent c p t = Some (with_nodes (<[c := mk_node (Some p) (body x)]> (nodes t)) t).
Proof. intros Hx. unfold set_parent, get. by rewrite Hx. Qed.

(** The halves of a full node. *)
Lemma halves {A} (l : list A) n : length l = n -> 4 <= n ->
  let half := n - n / 2 in take half l ++ drop half l = l /\ 1 <= length (take half l) < n /\ 1 <= length (drop half l) < n.
Proof.
  intros Hl Hn half. split; [apply take_drop|]. rewrite length_take, length_drop, Hl.
  assert (n / 2 < n /\ 1 <= n / 2) by (split; [apply Nat.div_lt; lia|apply Nat.div_le_lower_bound; lia]). unfold half. lia.
Qed.

Lemma split_node_returns fuel : forall cur t X h N,
  binv h N (Some cur) t X -> kids (nodes t) cur <> [] -> N - h cur <= fuel ->
  returns (split_node_ fuel cur t) (fun t' => btree None t' X /\ root t' = root t).
Proof.
  induction fuel as [|fuel IH]; intros cur t X h N B Hk Hfuel; pose proof (fresh_none _ _ _ _ _ B) as Hnew; pose proof B as [L Hs Hf [Hr1 Hr2] HX Hh];
    destruct (list_choose _ Hk) as [d Hd]; destruct (kids_node _ _ _ Hd) as (x & Hx & Hb);
    pose proof (lk_bound _ _ _ L cur ltac:(by eexists)) as Hbound; [lia|].
  cbn [split_node_]. unfold get, child_of. rewrite Hx. cbn [mbind option_bind]. rewrite Hb. cbn [mbind option_bind].
  set (cs := kids (nodes t) cur) in *. destruct (Nat.eqb_spec (length cs) node_width) as [Hfull|Hnot].
  2:{ apply returns_ret. split; [|done]. exists h, N. split; try done. intros u y Hy. specialize (Hs u y Hy).
    destruct (body y) eqn:Ey; destruct Hs as [Hs1 [Hs2|[Hs2 [= E]]]]; try (split; [done|by left]).
    - subst u. rewrite Hx in Hy. injection Hy as <-. congruence.
    - subst u. rewrite Hx in Hy. injection Hy as <-. congruence. }
  rewrite Hfull. destruct (halves cs node_width Hfull ltac:(unfold node_width; lia)) as (HK & Hl1 & Hl2).
  set (half := node_width - node_width / 2) in *. set (K1 := take half cs) in *. set (K2 := drop half cs) in *.
  unfold new_node. cbv beta iota zeta. set (new := next_loc t) in *.
  assert (HKin : forall u, u ∈ K1 \/ u ∈ K2 -> par (nodes t) u = Some cur).
  { intros u Hu. apply (lk_links _ _ _ L). fold cs. rewrite <- HK. apply elem_of_app. tauto. }
  assert (HKm : forall u, u ∈ K1 \/ u ∈ K2 -> is_Some (nodes t !! u)) by (intros u Hu%HKin; by apply (par_some _ u cur)).
  pose proof (lk_nodup _ _ _ L cur) as Hnd. fold cs in Hnd. rewrite <- HK in Hnd. apply NoDup_app in Hnd as (Hnd1 & Hnd12 & Hnd2).
  assert (HKc : (cur ∉ K1) /\ (cur ∉ K2)) by (split; intros Hu; (assert (par (nodes t) cur = Some cur) as Hcc by (apply HKin; auto)); apply (lk_rank _ _ _ L) in Hcc; lia).
  assert (HKn : (new ∉ K1) /\ (new ∉ K2)) by (split; intros Hu; (assert (is_Some (nodes t !! new)) as Hss by (apply HKm; auto)); rewrite Hnew in Hss; by destruct Hss).
  assert (Hcn : cur <> new) by congruence. destruct HKc as [HKc1 HKc2]. destruct HKn as [HKn1 HKn2].
  destruct (adopt_returns K2 new (mk_table (<[new := mk_node (parent x) (child K2)]> (nodes t)) (root t) (Pos.succ new) (chunks t) (str_used t)) Hnd2) as (m2 & -> & Hm2).
  { intros u Hu. cbn. rewrite lookup_insert_ne by congruence. apply HKm. auto. }
  cbn [nodes] in Hm2. cbn [mbind option_bind].
  assert (Hx2 : m2 !! cur = Some x) by (by rewrite Hm2, decide_False, lookup_insert_ne).
  rewrite (set_body_returns cur _ x) by done. cbn [mbind option_bind].
  rewrite !(proj2 (Nat.ltb_lt 0 _)) by (apply Hl1 || apply Hl2). cbn [assert_ mbind option_bind].
  unfold with_nodes. cbn [nodes root next_loc chunks str_used].
  destruct (parent x) as [p|] eqn:Ep.
  - assert (Hpc : par (nodes t) cur = Some p) by (unfold par; by rewrite Hx).
    destruct (parent_slot _ _ _ _ _ _ _ B Hpc) as (xp & l1 & l2 & Hxp & Hbp & Hkp & Hcl & Hpp & Hne).
    assert (Hp2 : p ∉ K2) by (intros Hu; (assert (par (nodes t) p = Some cur) as H1 by (apply HKin; auto)); apply (lk_rank _ _ _ L) in H1, Hpc; lia).
    assert (Hpn : p <> new) by congruence.
    assert (Hxp3 : <[cur := mk_node (Some p) (child K1)]> m2 !! p = Some xp).
    { rewrite lookup_insert_ne by done. by rewrite Hm2, decide_False, lookup_insert_ne. }
    assert (Hlp : length (l1 ++ cur :: l2) < node_width).
    { specialize (Hs p xp Hxp). rewrite Hbp in Hs. destruct Hs as [_ [Hlt|[_ [= E]]]]; [done|congruence]. }
    rewrite (hook_returns _ cur new p xp l1 l2) by done. cbn [mbind option_bind]. unfold with_nodes. cbn [nodes root next_loc chunks str_used].
    eapply returns_mono; [apply (IH p _ X (split_height h cur new) N)|].
    + apply (split_step h N t X cur x p _ K1 K2 [] [] (child K1) (child K2) xp l1 l2); try done; [by apply (kids_items (nodes t) cur)|by left|by left|].
      intros u. fold new. destruct (decide (u = new)) as [->|Hun].
      { rewrite !lookup_insert_ne by done. by rewrite Hm2, decide_False, lookup_insert_eq. }
      destruct (decide (u = cur)) as [->|Huc]; [by rewrite lookup_insert_ne, lookup_insert_eq|].
      destruct (decide (u = p)) as [->|Hup]; [by rewrite lookup_insert_eq|]. rewrite !lookup_insert_ne by done. rewrite Hm2. by rewrite lookup_insert_ne.
    + unfold kids. cbn [nodes]. rewrite lookup_insert_eq. cbn. by destruct l1.
    + unfold split_height. rewrite decide_False by done. apply (lk_rank _ _ _ L) in Hpc. lia.
    + intros t' [? ?]. done.
  - rewrite (set_parent_returns new cur (mk_node None (child K2))) by (cbn; rewrite lookup_insert_ne by done; by rewrite Hm2, decide_False, lookup_insert_eq).
    cbn [mbind option_bind]. unfold with_nodes. cbn [nodes root next_loc chunks str_used body]. set (new2 := Pos.succ new) in *.
    assert (Hnew2 : nodes t !! new2 = None) by (apply eq_None_not_Some; intros Hss%Hf; unfold new2, new in Hss; lia).
    assert (Hnn : new <> new2) by (unfold new2; lia).
    assert (HK12 : new2 ∉ K1) by (intros Hu; (assert (is_Some (nodes t !! new2)) as Hss by (apply HKm; auto)); rewrite Hnew2 in Hss; by destruct Hss).
    assert (HK22 : new2 ∉ K2) by (intros Hu; (assert (is_Some (nodes t !! new2)) as Hss by (apply HKm; auto)); rewrite Hnew2 in Hss; by destruct Hss).
    assert (Hc2 : cur <> new2) by congruence.
    set (m5 := <[new2 := _]> (<[new := _]> (<[cur := _]> m2))).
    destruct (adopt_returns K1 new2 (mk_table m5 (root t) (Pos.succ new2) (chunks t) (str_used t)) Hnd1) as (m6 & -> & Hm6).
    { intros u Hu. cbn. unfold m5. rewrite !lookup_insert_ne by congruence. rewrite Hm2, decide_False by (by apply Hnd12).
      rewrite lookup_insert_ne by congruence. apply HKm. auto. }
    cbn [nodes] in Hm6. cbn [mbind option_bind].
    rewrite (set_body_returns cur _ (mk_node None (child K1))).
    2:{ cbn [nodes with_nodes]. rewrite Hm6, decide_False by done. unfold m5. rewrite lookup_insert_ne, lookup_insert_ne by done. apply lookup_insert_eq. }
    apply returns_ret. split; [|done]. unfold with_nodes. cbn [nodes root next_loc chunks str_used parent].
    apply (root_step h N t X cur _ K1 K2); try done; [unfold par; by rewrite Hx|].
    intros u. fold new. fold new2. destruct (decide (u = cur)) as [->|Huc].
    { rewrite lookup_insert_eq. by rewrite decide_False, decide_False. }
    rewrite lookup_insert_ne by done. rewrite Hm6. unfold m5.
    destruct (decide (u = new)) as [->|Hun]; [rewrite decide_False by done; by rewrite lookup_insert_ne, lookup_insert_eq|].
    destruct (decide (u = new2)) as [->|Hun2]; [rewrite decide_False by done; by rewrite lookup_insert_eq|].
    rewrite !lookup_insert_ne by done. rewrite Hm2. rewrite lookup_insert_ne by done.
    destruct (decide (u ∈ K1)) as [Hu1|Hu1]; [rewrite decide_False by (by apply Hnd12); by rewrite decide_False by (by apply Hnd12)|done].
Qed.

Lemma split_leaf_returns cur t X h N x l p :
  binv h N (Some cur) t X -> nodes t !! cur = Some x -> body x = leaf l -> length l = leaf_width -> parent x = Some p ->
  returns (split_leaf_ cur t) (fun t' => btree None t' X /\ root t' = root t).
Proof.
  intros B Hx Hb Hfull Hp. pose proof (fresh_none _ _ _ _ _ B) as Hnew. pose proof B as [L Hs Hf [Hr1 Hr2] HX Hh].
  unfold split_leaf_, get, leaf_of. rewrite Hx. cbn [mbind option_bind]. rewrite Hb, Hp. cbn [mbind option_bind].
  rewrite Hfull. destruct (halves l leaf_width Hfull ltac:(unfold leaf_width; lia)) as (HI & Hl1 & Hl2).
  set (half := leaf_width - leaf_width / 2) in *. set (I1 := take half l) in *. set (I2 := drop half l) in *.
  unfold new_node. cbv beta iota zeta. set (new := next_loc t) in *. assert (Hcn : cur <> new) by congruence.
  rewrite (set_body_returns cur _ x) by (cbn; by rewrite lookup_insert_ne). cbn [mbind option_bind].
  rewrite !(proj2 (Nat.ltb_lt 0 _)) by (apply Hl1 || apply Hl2). cbn [assert_ mbind option_bind].
  unfold with_nodes. cbn [nodes root next_loc chunks str_used]. rewrite Hp.
  assert (Hpc : par (nodes t) cur = Some p) by (unfold par; by rewrite Hx).
  destruct (parent_slot _ _ _ _ _ _ _ B Hpc) as (xp & l1 & l2 & Hxp & Hbp & Hkp & Hcl & Hpp & Hne).
  assert (Hpn : p <> new) by congruence.
  assert (Hlp : length (l1 ++ cur :: l2) < node_width).
  { specialize (Hs p xp Hxp). rewrite Hbp in Hs. destruct Hs as [_ [Hlt|[_ [= E]]]]; [done|congruence]. }
  rewrite (hook_returns _ cur new p xp l1 l2); [|cbn; by rewrite !lookup_insert_ne by done|done|done|done]. cbn [mbind option_bind].
  unfold with_nodes. cbn [nodes root next_loc chunks str_used]. rewrite lookup_insert_eq. cbn [mbind option_bind child_of body].
  set (t1 := mk_table _ _ _ _ _).
  assert (B1 : binv (split_height h cur new) N (Some p) t1 X).
  { apply (split_step h N t X cur x p _ [] [] I1 I2 (leaf I1) (leaf I2) xp l1 l2); try done.
    - unfold kids. rewrite Hx. cbn. by rewrite Hb.
    - rewrite (items_at _ _ x l) by done. by rewrite HI.
    - by right.
    - by right.
    - intros u. fold new. destruct (decide (u = new)) as [->|Hun]; [by rewrite !lookup_insert_ne, lookup_insert_eq by done|].
      destruct (decide (u = cur)) as [->|Huc]; [by rewrite lookup_insert_ne, lookup_insert_eq|].
      destruct (decide (u = p)) as [->|Hup]; [by rewrite lookup_insert_eq|]. by rewrite !lookup_insert_ne by done. }
  assert (Hkt : kids (nodes t1) p = l1 ++ cur :: new :: l2) by (unfold kids; cbn; by rewrite lookup_insert_eq).
  destruct (Nat.eqb_spec (length (l1 ++ cur :: new :: l2)) node_width) as [Hpf|Hpf].
  - eapply returns_mono; [apply (split_node_returns _ p t1 X (split_height h cur new) N B1)|].
    + rewrite Hkt. by destruct l1.
    + etransitivity; [apply Nat.le_sub_l|exact (lk_size _ _ _ (bt_links _ _ _ _ _ B1))].
    + intros t' [? ?]. done.
  - apply returns_ret. split; [|done]. exists (split_height h cur new), N. destruct B1 as [L1 Hs1 Hf1 Hr HX1 Hh1]. split; try done.
    intros u y Hy. specialize (Hs1 u y Hy). destruct (body y) eqn:Ey; destruct Hs1 as [K1 [K2|[K2 [= E]]]]; try (split; [done|by left]).
    + subst u. unfold kids in Hkt. rewrite Hy in Hkt. cbn in Hkt. rewrite Ey in Hkt. by destruct l1.
    + subst u. assert (l0 = l1 ++ cur :: new :: l2) as -> by (rewrite <- Hkt; unfold kids; rewrite Hy; cbn; by rewrite Ey). congruence.
Qed.

(** *** Descending the tree *)

(** The entries on the left and on the right of a node below another. *)
Inductive ctx (m : gmap loc tree_node_) : loc -> list tree_data_ -> loc -> list tree_data_ -> Prop :=
  | ctx_here c : ctx m c [] c []
  | ctx_down u l1 d l2 A c B : kids m u = l1 ++ d :: l2 -> ctx m d A c B ->
      ctx m u (concat (map (flat m) l1) ++ A) c (B ++ concat (map (flat m) l2)).

(** A node on the way up from another. *)
Inductive below (m : gmap loc tree_node_) (d : loc) : loc -> Prop :=
  | below_refl : below m d d
  | below_up c p : par m c = Some p -> below m d p -> below m d c.

Lemma below_height h N m d c : linked h N m -> below m d c -> h c <= h d.
Proof. intros L. induction 1 as [|c p Hp _ IH]; [done|]. apply (lk_rank _ _ _ L) in Hp. lia. Qed.

Lemma below_child h N m d c u : linked h N m -> c ∈ kids m d -> below m c u -> below m d u.
Proof.
  intros L Hc. induction 1 as [|e p Hp _ IH]; [apply (below_up _ _ _ d); [by apply (lk_links _ _ _ L)|constructor]|by apply (below_up _ _ _ p)].
Qed.

Lemma below_unique h N m d d' u c : linked h N m -> d ∈ kids m u -> d' ∈ kids m u -> below m d c -> below m d' c -> d = d'.
Proof.
  intros L Hd Hd'. apply (lk_links _ _ _ L) in Hd, Hd'. pose proof (lk_rank _ _ _ L _ _ Hd) as R. pose proof (lk_rank _ _ _ L _ _ Hd') as R'.
  induction 1 as [|c p Hp Hb IH].
  - intros H. inversion H as [|? q Hq Hb]; [done|]. subst. apply (below_height _ _ _ _ _ L) in Hb. assert (q = u) as -> by congruence. lia.
  - intros H. inversion H as [E|? q Hq Hb']; subst.
    + assert (p = u) as -> by congruence. apply (below_height _ _ _ _ _ L) in Hb. lia.
    + assert (q = p) as -> by congruence. by apply IH.
Qed.

Lemma ctx_below h N m u A c B : linked h N m -> ctx m u A c B -> below m u c.
Proof.
  intros L. induction 1 as [|u l1 d l2 A c B Hk _ IH]; [constructor|]. apply (below_child h N m u d); [done|rewrite Hk; set_solver|done].
Qed.

Lemma ctx_trans m u A d B A' c B' : ctx m u A d B -> ctx m d A' c B' -> ctx m u (A ++ A') c (B' ++ B).
Proof.
  intros H. revert A' B'. induction H as [|u l1 e l2 A c' B Hk _ IH]; intros A' B' H'; [by rewrite app_nil_r|].
  rewrite <- (app_assoc _ A A'), (app_assoc B' B). apply (ctx_down _ _ _ e); [done|]. by apply IH.
Qed.

(** The entries below a node do not depend on the nodes elsewhere. *)
Lemma flatn_local h N m m' n d :
  linked h N m -> (forall u, below m d u -> m' !! u = m !! u) -> flatn n m' d = flatn n m d.
Proof.
  intros L. revert d. induction n as [|n IH]; intros d Hd; [done|]. cbn.
  assert (Hm : m' !! d = m !! d) by (apply Hd; constructor). unfold items, kids. rewrite Hm. f_equal. apply concat_map_ext.
  intros c Hc. apply IH. intros u Hu. apply Hd. apply (below_child h N m d c); [done|exact Hc|done].
Qed.

(** A leaf changes. *)
Section change_leaf.
Context (h : loc -> nat) (N : nat) (m : gmap loc tree_node_) (c : loc) (x : tree_node_) (l l' : list tree_data_).
Context (L : linked h N m) (Hx : m !! c = Some x) (Hb : body x = leaf l).
Let m' := <[c := mk_node (parent x) (leaf l')]> m.

Lemma change_links u : par m' u = par m u /\ kids m' u = kids m u /\ (is_Some (m' !! u) <-> is_Some (m !! u)) /\ size m' = size m.
Proof.
  unfold m'. rewrite spar_insert, skids_insert. split_and!.
  - case_decide as Hu; [|done]. rewrite Hu. unfold par. by rewrite Hx.
  - case_decide as Hu; [|done]. rewrite Hu. unfold kids. rewrite Hx. cbn. by rewrite Hb.
  - destruct (decide (u = c)) as [->|Hu]; [rewrite lookup_insert_eq, Hx; split; by eexists|by rewrite lookup_insert_ne].
  - apply map_size_insert_Some. by eexists.
Qed.

Lemma change_linked : linked h N m'.
Proof.
  destruct L as [L1 L2 L3 L4 L5]. split.
  - intros q d. destruct (change_links q) as (_ & -> & _). destruct (change_links d) as (-> & _). apply L1.
  - intros q. destruct (change_links q) as (_ & -> & _). apply L2.
  - intros d q. destruct (change_links d) as (-> & _). apply L3.
  - intros d. destruct (change_links d) as (_ & _ & -> & _). apply L4.
  - destruct (change_links c) as (_ & _ & _ & ->). done.
Qed.

Lemma change_flat u A B : is_Some (m !! u) -> ctx m u A c B -> flat m' u = A ++ l' ++ B.
Proof using L Hx Hb.
  intros Hu H. remember c as c' eqn:Ec in H. induction H as [c'|u l1 d l2 A c' B Hk H IH]; subst c'.
  - rewrite (flat_unfold h N m' c change_linked) by (by apply change_links). destruct (change_links c) as (_ & -> & _).
    unfold kids. rewrite Hx. cbn. rewrite Hb. cbn. unfold items, m'. rewrite lookup_insert_eq. cbn. by rewrite !app_nil_r.
  - rewrite (flat_unfold h N m' u change_linked) by (by apply change_links). destruct (change_links u) as (_ & Hk' & _).
    assert (Hkn : kids m' u <> []) by (rewrite Hk', Hk; by destruct l1). rewrite (kids_items m' u Hkn), Hk', Hk. cbn [app].
    pose proof (lk_nodup _ _ _ L u) as Hnd. rewrite Hk in Hnd. apply NoDup_app in Hnd as (_ & Hd1 & Hnd2). apply NoDup_cons in Hnd2 as [Hd2 _].
    assert (Hdk : d ∈ kids m u) by (rewrite Hk; set_solver +).
    assert (Hdm : is_Some (m !! d)) by (apply (par_some m d u); by apply (lk_links _ _ _ L)).
    assert (Hside : forall e, e ∈ kids m u -> e <> d -> flat m' e = flat m e).
    { intros e He Hed. assert (Hem : is_Some (m !! e)) by (apply (par_some m e u); by apply (lk_links _ _ _ L)).
      unfold flat. destruct (change_links c) as (_ & _ & _ & ->). apply (flatn_local h N); [done|]. intros w Hw. unfold m'.
      rewrite lookup_insert_ne; [done|]. intros E. subst w. apply Hed. apply (below_unique h N m e d u c); try done. by apply (ctx_below h N m d A c B). }
    rewrite map_app, concat_app. cbn. rewrite (IH Hdm eq_refl).
    rewrite (concat_map_ext (flat m') (flat m) l1) by (intros e He; apply Hside; [rewrite Hk; set_solver +He|intros ->; apply (Hd1 d He); set_solver +]).
    rewrite (concat_map_ext (flat m') (flat m) l2) by (intros e He; apply Hside; [rewrite Hk; set_solver +He|intros ->; done]).
    by rewrite <- !app_assoc.
Qed.
End change_leaf.

Lemma ctx_flat h N m u A c B : linked h N m -> is_Some (m !! u) -> ctx m u A c B -> flat m u = A ++ flat m c ++ B.
Proof.
  intros L Hu H. induction H as [c|u l1 d l2 A c B Hk H IH]; [by rewrite app_nil_r|].
  assert (Hkn : kids m u <> []) by (rewrite Hk; by destruct l1). rewrite (flat_unfold h N m u L Hu), (kids_items m u Hkn), Hk.
  assert (Hdm : is_Some (m !! d)) by (apply (par_some m d u); apply (lk_links _ _ _ L); rewrite Hk; set_solver +).
  rewrite map_app, concat_app. cbn. rewrite (IH Hdm). by rewrite <- !app_assoc.
Qed.

(** *** Keys in order *)

Lemma ascii_compare_lt a b : Ascii.compare a b = Lt <-> (Ascii.N_of_ascii a < Ascii.N_of_ascii b)%N.
Proof. unfold Ascii.compare. apply N.compare_lt_iff. Qed.

Lemma compare_refl a : String.compare a a = Eq.
Proof. pose proof (String.compare_antisym a a) as H. by destruct (String.compare a a). Qed.

Lemma compare_gt a b : String.compare a b = Gt <-> String.compare b a = Lt.
Proof. rewrite (String.compare_antisym a b). by destruct (String.compare b a). Qed.

Lemma compare_trans a : forall b c, String.compare a b = Lt -> String.compare b c = Lt -> String.compare a c = Lt.
Proof.
  induction a as [|x a IH]; intros [|y b] [|z c]; try done. cbn.
  destruct (Ascii.compare x y) eqn:E1, (Ascii.compare y z) eqn:E2; intros H1 H2; try done.
  - apply Ascii.compare_eq_iff in E1 as ->. rewrite E2. by apply (IH b).
  - apply Ascii.compare_eq_iff in E1 as ->. by rewrite E2.
  - apply Ascii.compare_eq_iff in E2 as ->. by rewrite E1.
  - rewrite ascii_compare_lt in E1, E2. by rewrite (proj2 (ascii_compare_lt x z)) by (by apply (N.lt_trans _ (Ascii.N_of_ascii y))).
Qed.

#[export] Instance key_lt_trans : Transitive key_lt.
Proof. intros a b c. apply compare_trans. Qed.

Lemma key_lt_irrefl a b : key_lt a b -> a.1 <> b.1.
Proof. unfold key_lt. intros H E. by rewrite E, compare_refl in H. Qed.

Lemma sorted_app (X Y : list tree_data_) :
  StronglySorted key_lt (X ++ Y) <-> StronglySorted key_lt X /\ StronglySorted key_lt Y /\ forall a b, a ∈ X -> b ∈ Y -> key_lt a b.
Proof.
  induction X as [|x X IH]; cbn; [split; [intros H; split_and!; [constructor|done|set_solver]|by intros (_ & ? & _)]|].
  split.
  - intros H. inversion H as [|? ? H1 H2]; subst. apply IH in H1 as (S1 & S2 & S3). rewrite Forall_app in H2. destruct H2 as [F1 F2]. split_and!; [by constructor|done|].
    intros a b [->|Ha]%elem_of_cons Hb; [rewrite Forall_forall in F2; by apply F2|by apply S3].
  - intros (H1 & H2 & H3). inversion H1 as [|? ? H4 H5]; subst. constructor; [apply IH; split_and!; [done|done|intros a b Ha; apply H3; set_solver +Ha]|].
    rewrite Forall_app. split; [done|]. apply Forall_forall. intros b Hb. apply H3; [set_solver +|done].
Qed.

Lemma sorted_nodup (X : list tree_data_) : StronglySorted key_lt X -> NoDup X.*1.
Proof.
  induction 1 as [|x X HS IH HF]; [constructor|]. cbn. apply NoDup_cons. split; [|done]. intros ([k v] & E & Hin)%list_elem_of_fmap.
  rewrite Forall_forall in HF. specialize (HF _ Hin). by apply key_lt_irrefl in HF.
Qed.

(** The finite map of a sorted list. *)
Definition map_of (X : list tree_data_) : gmap string Z := list_to_map X.

Lemma map_of_lookup X k v : StronglySorted key_lt X -> map_of X !! k = Some v <-> (k, v) ∈ X.
Proof. intros H. unfold map_of. symmetry. apply elem_of_list_to_map. by apply sorted_nodup. Qed.

Lemma map_of_middle A k v B : StronglySorted key_lt (A ++ (k, v) :: B) -> map_of (A ++ (k, v) :: B) !! k = Some v.
Proof. intros H. apply map_of_lookup; [done|]. set_solver. Qed.

Lemma sorted_replace A k v v' B : StronglySorted key_lt (A ++ (k, v) :: B) -> StronglySorted key_lt (A ++ (k, v') :: B).
Proof.
  rewrite !sorted_app. intros (H1 & H2 & H3). inversion H2 as [|? ? H4 H5]; subst. split_and!; [done|by constructor|].
  intros a b Ha [->|Hb]%elem_of_cons; [exact (H3 a (k, v) Ha ltac:(set_solver +))|apply H3; [done|set_solver +Hb]].
Qed.

Lemma map_of_replace A k v v' B : StronglySorted key_lt (A ++ (k, v) :: B) -> map_of (A ++ (k, v') :: B) = <[k := v']> (map_of (A ++ (k, v) :: B)).
Proof.
  intros HS. pose proof (sorted_replace A k v v' B HS) as HS'. apply map_eq. intros j. destruct (decide (j = k)) as [->|Hj].
  - rewrite lookup_insert_eq. by apply map_of_middle.
  - rewrite lookup_insert_ne by done. apply option_eq. intros w. rewrite !map_of_lookup by done. rewrite !elem_of_app, !elem_of_cons.
    split; intros [?|[[= -> ->]|?]]; auto; done.
Qed.

Lemma sorted_add A k v B : StronglySorted key_lt (A ++ B) ->
  (forall a, a ∈ A -> String.compare a.1 k = Lt) -> (forall b, b ∈ B -> String.compare k b.1 = Lt) -> StronglySorted key_lt (A ++ (k, v) :: B).
Proof.
  rewrite !sorted_app. intros (H1 & H2 & H3) HA HB. split_and!; [done| |].
  - constructor; [done|]. apply Forall_forall. intros b Hb. by apply HB.
  - intros a b Ha [->|Hb]%elem_of_cons; [by apply HA|by apply H3].
Qed.

Lemma map_of_add A k v B : StronglySorted key_lt (A ++ (k, v) :: B) -> StronglySorted key_lt (A ++ B) ->
  map_of (A ++ (k, v) :: B) = <[k := v]> (map_of (A ++ B)) /\ map_of (A ++ B) !! k = None.
Proof.
  intros HS HS'. assert (Hn : map_of (A ++ B) !! k = None).
  { apply eq_None_not_Some. intros [w Hw]. apply map_of_lookup in Hw; [|done]. apply sorted_app in HS as (_ & H2 & H3).
    inversion H2 as [|? ? _ H5]; subst. rewrite Forall_forall in H5. apply elem_of_app in Hw as [Hw|Hw].
    - assert (key_lt (k, w) (k, v)) as Hk by (apply H3; [done|set_solver +]). by apply key_lt_irrefl in Hk.
    - apply H5 in Hw. by apply key_lt_irrefl in Hw. }
  split; [|done]. apply map_eq. intros j. destruct (decide (j = k)) as [->|Hj].
  - rewrite lookup_insert_eq. by apply map_of_middle.
  - rewrite lookup_insert_ne by done. apply option_eq. intros w. rewrite !map_of_lookup by done. rewrite !elem_of_app, !elem_of_cons.
    split; [intros [?|[[= -> ->]|?]]; auto; done|]. intros [?|?]; auto.
Qed.

(** *** The searches *)

Lemma leaf_scan_spec key l : StronglySorted key_lt l ->
  exists l1 l2, fst (leaf_scan key l) = length l1 /\
    if snd (leaf_scan key l) then exists v, l = l1 ++ (key, v) :: l2
    else l = l1 ++ l2 /\ (forall a, a ∈ l1 -> String.compare a.1 key = Lt) /\ (forall b, b ∈ l2 -> String.compare key b.1 = Lt).
Proof.
  induction l as [|[k v] l IH]; intros HS; cbn [leaf_scan].
  - exists [], []. split; [done|]. split; [done|]. split; set_solver.
  - inversion HS as [|? ? H1 H2]; subst. rewrite Forall_forall in H2. destruct (String.compare key k) eqn:E; cbn [fst snd].
    + apply String.compare_eq_iff in E as ->. exists [], l. split; [done|]. by exists v.
    + exists [], ((k, v) :: l). split; [done|]. split; [done|]. split; [set_solver|].
      intros b [->|Hb]%elem_of_cons; [done|]. apply (compare_trans key k); [done|]. by apply (H2 b Hb).
    + destruct (IH H1) as (l1 & l2 & E1 & E2). destruct (leaf_scan key l) as [idx found]. cbn [fst snd] in *.
      exists ((k, v) :: l1), l2. split; [cbn; by rewrite E1|]. destruct found.
      * destruct E2 as [w ->]. by exists w.
      * destruct E2 as (-> & HA & HB). split; [done|]. split; [|done]. intros a [->|Ha]%elem_of_cons; [by apply compare_gt|by apply HA].
Qed.

(** The binary search finds the first child whose last key is not below the
    key, or the last child. *)
Lemma node_search_spec key cs ks t :
  length cs = length ks -> (forall i c k, cs !! i = Some c -> ks !! i = Some k -> node_last_key (size (nodes t)) c t = Some k) ->
  (forall i j a b, i < j -> ks !! i = Some a -> ks !! j = Some b -> String.compare a b = Lt) ->
  forall fuel min max idx, min <= idx -> idx < max -> max <= length cs -> max - min < fuel ->
  (forall j k, j < min -> ks !! j = Some k -> String.compare k key = Lt) ->
  (max = length cs \/ exists k, ks !! max = Some k /\ String.compare key k = Lt) ->
  exists i, node_search fuel key cs min max idx t = Some i /\ i < length cs /\
    (forall j k, j < i -> ks !! j = Some k -> String.compare k key = Lt) /\
    (S i = length cs \/ exists k, ks !! i = Some k /\ String.compare key k <> Gt).
Proof.
  intros Hlen Hlast Hmono fuel. induction fuel as [|fuel IH]; intros min max idx H1 H2 H3 Hf Hmin Hmax; [lia|].
  cbn [node_search]. destruct (lookup_lt_is_Some_2 cs idx ltac:(lia)) as [c Hc]. destruct (lookup_lt_is_Some_2 ks idx ltac:(lia)) as [k Hk].
  rewrite Hc. cbn [mbind option_bind]. rewrite (Hlast idx c k Hc Hk). cbn [mbind option_bind].
  assert (Hdiv : forall a b, a < b -> a + (b - a) / 2 < b /\ a <= a + (b - a) / 2).
  { intros a b Hab. pose proof (Nat.div_lt (b - a) 2 ltac:(lia) ltac:(lia)). lia. }
  destruct (String.compare key k) eqn:E.
  - exists idx. split; [done|]. split; [lia|]. split; [|right; exists k; split; [done|by rewrite E]].
    intros j a Hj Ha. apply String.compare_eq_iff in E as ->. by apply (Hmono j idx).
  - destruct (Nat.eqb_spec idx min) as [->|Hne].
    + exists min. split; [done|]. split; [lia|]. split; [done|]. right. exists k. split; [done|]. by rewrite E.
    + destruct (Hdiv min idx ltac:(lia)) as [D1 D2]. apply IH; try lia; [done|]. right. by exists k.
  - assert (Hbelow : forall j a, j < idx + 1 -> ks !! j = Some a -> String.compare a key = Lt).
    { intros j a Hj Ha. destruct (decide (j = idx)) as [->|Hji]; [apply compare_gt; congruence|].
      apply (compare_trans a k); [apply (Hmono j idx); [lia|done..]|by apply compare_gt]. }
    destruct (Nat.eqb_spec (idx + 1) (length cs)) as [Hl|Hl].
    { exists idx. split; [done|]. split; [lia|]. split; [|left; lia]. intros j a Hj. apply Hbelow. lia. }
    destruct (Nat.eqb_spec (idx + 1) max) as [Hm|Hm].
    + exists max. split; [done|]. split; [lia|]. split; [intros j a Hj; apply Hbelow; lia|]. destruct Hmax as [|(km & Hkm & Ekm)]; [lia|].
      right. exists km. split; [done|]. by rewrite Ekm.
    + destruct (Hdiv (idx + 1) max ltac:(lia)) as [D1 D2]. apply IH; try lia; done.
Qed.

Lemma node_last_key_spec fuel : forall h N o t c,
  linked h N (nodes t) -> sized o (nodes t) -> is_Some (nodes t !! c) -> h c < fuel ->
  exists F k v, flat (nodes t) c = F ++ [(k, v)] /\ node_last_key fuel c t = Some k.
Proof.
  induction fuel as [|fuel IH]; intros h N o t c L Hs [x Hx] Hf; [lia|]. cbn [node_last_key]. unfold get. rewrite Hx. cbn [mbind option_bind].
  specialize (Hs c x Hx) as Hsx. rewrite (flat_unfold h N _ c L) by (by eexists). unfold items, kids. rewrite Hx. cbn.
  destruct (body x) as [l|cs] eqn:Hb.
  - destruct Hsx as [H1 _]. destruct l as [|[k v] l _] using rev_ind; [cbn in H1; lia|]. rewrite last_snoc. cbn [mbind option_bind].
    exists l, k, v. cbn. rewrite app_nil_r. done.
  - destruct Hsx as [H1 _]. destruct cs as [|d cs _] using rev_ind; [cbn in H1; lia|]. rewrite last_snoc. cbn [mbind option_bind].
    assert (Hpd : par (nodes t) d = Some c) by (apply (lk_links _ _ _ L); unfold kids; rewrite Hx; cbn; rewrite Hb; set_solver +).
    destruct (IH h N o t d L Hs (par_some _ _ _ Hpd)) as (F & k & v & E & ->).
    { apply (lk_rank _ _ _ L) in Hpd. lia. }
    rewrite map_app, concat_app. cbn. rewrite E. exists (concat (map (flat (nodes t)) cs) ++ F), k, v. split; [|done].
    by rewrite app_nil_r, app_assoc.
Qed.

Lemma binv_heap h N o t X ch u : binv h N o t X -> (0 <= u <= chunk_size)%Z -> binv h N o (mk_table (nodes t) (root t) (next_loc t) ch u) X.
Proof. intros [B1 B2 B3 B4 B5 B6] Hu. by split. Qed.

Lemma change_step h N t X cur x l l' A B :
  binv h N None t X -> nodes t !! cur = Some x -> body x = leaf l -> ctx (nodes t) (root t) A cur B -> 1 <= length l' <= leaf_width ->
  binv h N (if decide (length l' = leaf_width) then Some cur else None) (with_nodes (<[cur := mk_node (parent x) (leaf l')]> (nodes t)) t) (A ++ l' ++ B).
Proof.
  intros [L Hs Hf [Hr1 Hr2] HX Hh] Hx Hb Hctx Hl. pose proof (fun u => change_links (nodes t) cur x l l' Hx Hb u) as Hch.
  assert (Hrm : is_Some (nodes t !! root t)) by (destruct (list_choose _ Hr1) as [d Hd]; by apply (kids_some _ _ d)).
  split; cbn [nodes root next_loc str_used with_nodes].
  - by apply (change_linked h N (nodes t) cur x l l').
  - intros u y [[<- <-]|[Hne Hy]]%lookup_insert_Some; [cbn|].
    + split; [lia|]. case_decide; [right; by split|left; lia].
    + specialize (Hs u y Hy). destruct (body y); destruct Hs as [Hs1 [Hs2|[_ [=]]]]; (split; [done|by left]).
  - intros u Hu. apply Hf. by apply (Hch u).
  - destruct (Hch (root t)) as (-> & -> & _). done.
  - by apply (change_flat h N (nodes t) cur x l l').
  - done.
Qed.

Lemma key_strdup_returns h N o t X key :
  binv h N o t X -> (Z.of_nat (String.length key) < chunk_size)%Z ->
  exists ch u, key_strdup_ key t = Some (mk_table (nodes t) (root t) (next_loc t) ch u) /\ (0 <= u <= chunk_size)%Z.
Proof.
  intros [_ _ _ _ _ Hh] Hk. unfold key_strdup_. rewrite (proj2 (Z.leb_le _ _)) by lia. cbn [assert_ mbind option_bind]. cbv zeta.
  destruct (Z.ltb_spec (chunk_size - str_used t) (Z.of_nat (String.length key) + 1)) as [Hlt|Hge]; cbn [str_used nodes root next_loc chunks];
    eexists _, _; (split; [done|]); lia.
Qed.

(** The result of a search: the value of the key and the new contents. *)
Definition found_value (key : string) (val : symbol_value_t) (force : bool) (M : gmap string Z) (v : symbol_value_t) (M' : gmap string Z) : Prop :=
  match M !! key with
  | Some old => v = (if force then val else old) /\ M' = (if force then <[key := val]> M else M)
  | None => v = val /\ M' = <[key := val]> M
  end.

Lemma ctx_parent h N m u A c B : linked h N m -> ctx m u A c B -> u <> c -> exists p, par m c = Some p.
Proof. intros L H Hne. apply (ctx_below h N) in H; [|done]. inversion H as [|? p Hp _]; [done|]. by exists p. Qed.

Lemma leaf_find_returns h N t X cur x l A B key val force :
  binv h N None t X -> StronglySorted key_lt X -> nodes t !! cur = Some x -> body x = leaf l -> ctx (nodes t) (root t) A cur B ->
  (forall a, a ∈ A -> String.compare a.1 key = Lt) -> (forall b, b ∈ B -> String.compare key b.1 = Lt) ->
  (Z.of_nat (String.length key) < chunk_size)%Z ->
  returns (leaf_find cur key val force l t) (fun r => exists X', btree None (snd r) X' /\ StronglySorted key_lt X' /\ root (snd r) = root t /\ found_value key val force (map_of X) (fst r) (map_of X')).
Proof.
  intros B0 HS Hx Hb Hctx HA HB Hkey. pose proof B0 as [L Hs Hf [Hr1 Hr2] HX Hh].
  assert (Hrm : is_Some (nodes t !! root t)) by (destruct (list_choose _ Hr1) as [d Hd]; by apply (kids_some _ _ d)).
  assert (Hkc : kids (nodes t) cur = []) by (unfold kids; rewrite Hx; cbn; by rewrite Hb).
  assert (HXl : X = A ++ l ++ B).
  { rewrite <- HX, (ctx_flat h N _ _ _ _ _ L Hrm Hctx). do 2 f_equal. rewrite (flat_unfold h N _ cur L) by (by eexists).
    rewrite Hkc, (items_at _ _ x l) by done. cbn. by rewrite app_nil_r. }
  assert (HSl : StronglySorted key_lt l) by (rewrite HXl, !sorted_app in HS; apply HS).
  specialize (Hs cur x Hx) as Hsx. rewrite Hb in Hsx. destruct Hsx as [Hl1 Hl2]. assert (Hlt : length l < leaf_width) by (by destruct Hl2 as [|[_ [=]]]).
  unfold leaf_find. destruct (leaf_scan_spec key l HSl) as (l1 & l2 & Ei & Ef). destruct (leaf_scan key l) as [idx found]. cbn [fst snd] in Ei, Ef. subst idx.
  destruct found.
  - destruct Ef as [v ->]. rewrite lookup_app_r, Nat.sub_diag by lia. cbn [lookup list_lookup mbind option_bind].
    replace (A ++ (l1 ++ (key, v) :: l2) ++ B) with ((A ++ l1) ++ (key, v) :: (l2 ++ B)) in HXl by (by rewrite <- !app_assoc).
    rewrite HXl in HS. assert (Hm : map_of X !! key = Some v) by (rewrite HXl; by apply map_of_middle). destruct force.
    + rewrite insert_app_r_alt, Nat.sub_diag by lia. cbn [insert list_insert]. rewrite (set_body_returns cur _ x) by done. cbn [mbind option_bind].
      apply returns_ret. cbn [fst snd]. exists ((A ++ l1) ++ (key, val) :: (l2 ++ B)). split; [|split; [by eapply sorted_replace|split; [done|]]].
      * exists h, N. pose proof (change_step h N t X cur x _ (l1 ++ (key, val) :: l2) A B B0 Hx Hb Hctx) as Hc.
        rewrite length_app in *. cbn in *. rewrite decide_False in Hc by lia. replace ((A ++ l1) ++ (key, val) :: l2 ++ B) with (A ++ (l1 ++ (key, val) :: l2) ++ B) by (by rewrite <- !app_assoc).
        apply Hc. lia.
      * unfold found_value. rewrite Hm. split; [done|]. rewrite HXl. by apply map_of_replace.
    + apply returns_ret. cbn [fst snd]. exists X. split_and!; [by exists h, N|by rewrite HXl|done|]. unfold found_value. by rewrite Hm.
  - destruct Ef as (-> & Hk1 & Hk2). unfold leaf_add. rewrite (proj2 (Nat.ltb_lt _ _)) by done. cbn [assert_ mbind option_bind].
    destruct (key_strdup_returns h N None t X key B0 Hkey) as (ch & u & -> & Hu). cbn [mbind option_bind].
    pose proof (binv_heap h N None t X ch u B0 Hu) as B1. rewrite (set_body_returns cur _ x) by done. cbn [mbind option_bind].
    assert (Ei : insert_at (length l1) (key, val) (l1 ++ l2) = l1 ++ (key, val) :: l2).
    { unfold insert_at. by rewrite take_app_length, drop_app_length. }
    rewrite Ei. clear Ei. set (l' := l1 ++ (key, val) :: l2). assert (Hl' : length l' = S (length (l1 ++ l2))) by (unfold l'; rewrite !length_app; cbn; lia).
    set (X' := (A ++ l1) ++ (key, val) :: (l2 ++ B)).
    assert (EX : X' = A ++ l' ++ B) by (unfold X', l'; by rewrite <- !app_assoc).
    replace (A ++ (l1 ++ l2) ++ B) with ((A ++ l1) ++ (l2 ++ B)) in HXl by (by rewrite <- !app_assoc).
    assert (HS' : StronglySorted key_lt X').
    { apply sorted_add; [by rewrite <- HXl| |]; intros a [Ha|Ha]%elem_of_app; auto. }
    rewrite HXl in HS. destruct (map_of_add (A ++ l1) key val (l2 ++ B) HS' HS) as [Hm1 Hm2].
    pose proof (change_step h N _ X cur x _ l' A B B1 Hx Hb Hctx ltac:(lia)) as B2. rewrite <- EX in B2. cbn [nodes with_nodes root next_loc chunks str_used] in B2 |- *.
    assert (Hfound : found_value key val force (map_of X) val (map_of X')) by (unfold found_value; rewrite HXl, Hm2; done).
    rewrite <- Hl'. destruct (Nat.eqb_spec (length l') leaf_width) as [Hw|Hw].
    + rewrite decide_True in B2 by done. destruct (ctx_parent h N _ _ _ _ _ L Hctx) as [p Hp]; [intros E; rewrite E in Hr1; by rewrite Hkc in Hr1|].
      assert (Hpx : parent x = Some p) by (unfold par in Hp; by rewrite Hx in Hp).
      eapply returns_bind; [apply (split_leaf_returns cur _ X' h N (mk_node (parent x) (leaf l')) l' p B2)|]; [cbn; apply lookup_insert_eq|done|done|done|].
      intros t' [B3 E3]. apply returns_ret. cbn [fst snd]. exists X'. split_and!; done.
    + rewrite decide_False in B2 by done. apply returns_ret. cbn [fst snd]. exists X'. split_and!; try done. by exists h, N.
Qed.

(** The child that the search selects splits the entries. *)
Lemma select_child h N t X cur cs A B key :
  binv h N None t X -> StronglySorted key_lt X -> ctx (nodes t) (root t) A cur B -> kids (nodes t) cur = cs -> cs <> [] ->
  (forall a, a ∈ A -> String.compare a.1 key = Lt) -> (forall b, b ∈ B -> String.compare key b.1 = Lt) ->
  exists i d A' B', node_search (S (length cs)) key cs 0 (length cs) (length cs / 2) t = Some i /\ cs !! i = Some d /\
    ctx (nodes t) (root t) A' d B' /\
    (forall a, a ∈ A' -> String.compare a.1 key = Lt) /\ (forall b, b ∈ B' -> String.compare key b.1 = Lt).
Proof.
  intros [L Hs Hf [Hr1 Hr2] HX Hh] HS Hctx Hcs Hne HA HB. set (m := nodes t) in *.
  assert (Hrm : is_Some (m !! root t)) by (destruct (list_choose _ Hr1) as [d Hd]; by apply (kids_some _ _ d)).
  assert (Hcm : is_Some (m !! cur)) by (destruct (list_choose _ Hne) as [d Hd]; rewrite <- Hcs in Hd; by apply (kids_some _ _ d)).
  assert (Hpar : forall c, c ∈ cs -> par m c = Some cur) by (intros c Hc; apply (lk_links _ _ _ L); by rewrite Hcs).
  (* the last key of every child *)
  assert (Hlast : forall c, c ∈ cs -> exists F k v, flat m c = F ++ [(k, v)] /\ node_last_key (size m) c t = Some k).
  { intros c Hc. apply Hpar in Hc. apply (node_last_key_spec (size m) h N None t c); [done|done|by apply (par_some m c cur)|].
    pose proof (lk_bound _ _ _ L c (par_some _ _ _ Hc)). pose proof (lk_size _ _ _ L). lia. }
  set (ks := map (fun c => from_option fst EmptyString (last (flat m c))) cs).
  assert (Hks : forall i c, cs !! i = Some c -> exists F k v, flat m c = F ++ [(k, v)] /\ ks !! i = Some k /\ node_last_key (size m) c t = Some k).
  { intros i c Hc. destruct (Hlast c (list_elem_of_lookup_2 _ _ _ Hc)) as (F & k & v & E & Ek). exists F, k, v. split; [done|]. split; [|done].
    unfold ks. rewrite list_lookup_fmap, Hc. cbn. by rewrite E, last_snoc. }
  (* the entries of the node *)
  assert (Hflat : X = A ++ concat (map (flat m) cs) ++ B).
  { rewrite <- HX, (ctx_flat h N _ _ _ _ _ L Hrm Hctx). do 2 f_equal. rewrite (flat_unfold h N _ cur L Hcm), Hcs, kids_items by (by rewrite Hcs). done. }
  assert (Hsplit : forall i c, cs !! i = Some c -> X = (A ++ concat (map (flat m) (take i cs))) ++ flat m c ++ (concat (map (flat m) (drop (S i) cs)) ++ B)).
  { intros i c Hc. rewrite Hflat. rewrite <- (take_drop_middle cs i c Hc) at 1. rewrite map_app, concat_app. cbn. by rewrite <- !app_assoc. }
  assert (Hin : forall i c e, cs !! i = Some c -> e ∈ flat m c -> e ∈ concat (map (flat m) cs)).
  { intros i c e Hc He. apply list_elem_of_In, in_concat. exists (flat m c). split; [apply in_map, list_elem_of_In; by apply list_elem_of_lookup_2 in Hc|by apply list_elem_of_In]. }
  assert (Htake : forall i e, e ∈ concat (map (flat m) (take i cs)) -> exists j c, j < i /\ cs !! j = Some c /\ e ∈ flat m c).
  { intros i e He%list_elem_of_In%in_concat. destruct He as (l & Hl%in_map_iff & Hel). destruct Hl as (c & <- & Hc%list_elem_of_In).
    apply list_elem_of_lookup in Hc as [j Hj]. apply lookup_take_Some in Hj as [Hj Hlt]. exists j, c. split_and!; [done|done|by apply list_elem_of_In]. }
  assert (Hmono : forall i j a b, i < j -> ks !! i = Some a -> ks !! j = Some b -> String.compare a b = Lt).
  { intros i j a b Hij Ha Hb. assert (Hi : i < length cs) by (apply lookup_lt_Some in Ha; unfold ks in Ha; by rewrite length_map in Ha).
    assert (Hj : j < length cs) by (apply lookup_lt_Some in Hb; unfold ks in Hb; by rewrite length_map in Hb).
    destruct (lookup_lt_is_Some_2 cs i Hi) as [c Hc]. destruct (lookup_lt_is_Some_2 cs j Hj) as [d Hd].
    destruct (Hks i c Hc) as (F & k & v & E1 & E2 & _). destruct (Hks j d Hd) as (F' & k' & v' & E1' & E2' & _).
    assert (k = a) as -> by congruence. assert (k' = b) as -> by congruence.
    rewrite (Hsplit j d Hd), sorted_app in HS. destruct HS as (_ & _ & H3). apply (H3 (a, v) (b, v')).
    - apply elem_of_app. right. apply list_elem_of_In, in_concat. exists (flat m c). split; [|apply list_elem_of_In; rewrite E1; set_solver +].
      apply in_map, list_elem_of_In. apply list_elem_of_lookup. exists i. rewrite lookup_take_lt by done. done.
    - apply elem_of_app. left. rewrite E1'. set_solver +. }
  assert (Hlen : length cs = length ks) by (unfold ks; by rewrite length_map).
  assert (Hn : 0 < length cs) by (destruct cs; [done|cbn; lia]).
  pose proof (Nat.div_lt (length cs) 2 Hn ltac:(lia)) as Hd2.
  destruct (node_search_spec key cs ks t Hlen) with (fuel := S (length cs)) (min := 0) (max := length cs) (idx := length cs / 2) as (i & Ei & Hi & Hbef & Haft); try lia; try done.
  { intros i c k Hc Hk. destruct (Hks i c Hc) as (F & k' & v & _ & E2 & E3). fold m. congruence. }
  destruct (lookup_lt_is_Some_2 cs i Hi) as [d Hd]. exists i, d, (A ++ concat (map (flat m) (take i cs))), (concat (map (flat m) (drop (S i) cs)) ++ B).
  split; [done|]. split; [done|]. split; [|split].
  - eapply ctx_trans; [exact Hctx|]. rewrite <- (app_nil_r (concat (map (flat m) (take i cs)))). change (concat (map (flat m) (drop (S i) cs))) with ([] ++ concat (map (flat m) (drop (S i) cs))).
    apply (ctx_down _ _ _ d); [|constructor]. rewrite Hcs. by rewrite take_drop_middle.
  - intros e [He|He]%elem_of_app; [by apply HA|]. destruct (Htake i e He) as (j & c & Hj & Hc & Hec). destruct (Hks j c Hc) as (F & k & v & E1 & E2 & _).
    specialize (Hbef j k Hj E2). rewrite E1 in Hec. apply elem_of_app in Hec as [Hec|Hec]; [|apply list_elem_of_singleton in Hec as ->; exact Hbef].
    apply (compare_trans _ k); [|exact Hbef]. rewrite (Hsplit j c Hc), E1, !sorted_app in HS. destruct HS as (_ & ((HF & _ & H3) & _ & _) & _).
    exact (H3 e (k, v) Hec ltac:(set_solver +)).
  - intros e [He|He]%elem_of_app; [|by apply HB]. destruct Haft as [Hl|(k & Hk & Ek)].
    { rewrite drop_ge in He by lia. by apply elem_of_nil in He. }
    destruct (Hks i d Hd) as (F & k' & v & E1 & E2 & _). assert (k' = k) as -> by congruence.
    assert (Hke : String.compare k e.1 = Lt).
    { rewrite (Hsplit i d Hd), E1, !sorted_app in HS. destruct HS as (_ & (_ & _ & H3) & _). apply (H3 (k, v) e); [set_solver +|set_solver +He]. }
    destruct (String.compare key k) eqn:E; [apply String.compare_eq_iff in E as ->; done|by apply (compare_trans key k)|done].
Qed.

Lemma find_value_returns fuel : forall cur A B h N t X key val force,
  binv h N None t X -> StronglySorted key_lt X -> ctx (nodes t) (root t) A cur B -> is_Some (nodes t !! cur) -> h cur < fuel ->
  (forall a, a ∈ A -> String.compare a.1 key = Lt) -> (forall b, b ∈ B -> String.compare key b.1 = Lt) ->
  (Z.of_nat (String.length key) < chunk_size)%Z ->
  returns (find_value_ fuel cur key val force t)
    (fun r => exists X', btree None (snd r) X' /\ StronglySorted key_lt X' /\ root (snd r) = root t /\ found_value key val force (map_of X) (fst r) (map_of X')).
Proof.
  induction fuel as [|fuel IH]; intros cur A B h N t X key val force Bt HS Hctx [x Hx] Hf HA HB Hkey; [lia|].
  cbn [find_value_]. unfold get. rewrite Hx. cbn [mbind option_bind]. destruct (body x) as [l|cs] eqn:Hb.
  - by eapply leaf_find_returns.
  - assert (Hcs : kids (nodes t) cur = cs) by (by apply (kids_at _ _ x)).
    assert (Hne : cs <> []). { pose proof (bt_sized _ _ _ _ _ Bt cur x Hx) as Hs. rewrite Hb in Hs. destruct cs; [cbn in Hs; lia|done]. }
    destruct (select_child h N t X cur cs A B key Bt HS Hctx Hcs Hne HA HB) as (i & d & A' & B' & -> & Hd & Hctx' & HA' & HB').
    cbn [mbind option_bind]. rewrite Hd. cbn [mbind option_bind].
    assert (Hp : par (nodes t) d = Some cur) by (apply (lk_links _ _ _ (bt_links _ _ _ _ _ Bt)); rewrite Hcs; by apply list_elem_of_lookup_2 in Hd).
    apply (IH d A' B' h N); try done; [by apply (par_some _ d cur)|]. apply (lk_rank _ _ _ (bt_links _ _ _ _ _ Bt)) in Hp. lia.
Qed.

(** *** The operations of the table *)

(** The table stands for a finite map: it is empty or a B-tree with the entries
    of the map in order. *)
Definition models (t : symbol_table_s) (M : gmap string Z) : Prop :=
  (nodes t = {[ root t := mk_node None (child []) ]} /\ (root t < next_loc t)%positive /\ (0 <= str_used t <= chunk_size)%Z /\ M = ∅) \/
  (exists X, btree None t X /\ StronglySorted key_lt X /\ M = map_of X).

Lemma models_new : models symbol_table_new ∅.
Proof. left. split_and!; done. Qed.

(** The first leaf. *)
Lemma first_value_returns key val t :
  nodes t = {[ root t := mk_node None (child []) ]} -> (root t < next_loc t)%positive -> (0 <= str_used t <= chunk_size)%Z ->
  (Z.of_nat (String.length key) < chunk_size)%Z ->
  returns (first_value key val t) (fun t' => models t' {[ key := val ]}).
Proof.
  intros Hn Hlt Hu Hkey. unfold first_value, new_node. cbv beta iota zeta. set (new := next_loc t).
  assert (Hne : root t <> new) by (unfold new; lia).
  unfold key_strdup_. rewrite (proj2 (Z.leb_le _ _)) by lia. cbn [assert_ mbind option_bind]. cbv zeta.
  match goal with |- context [set_body _ _ ?y] => set (t1 := y) end.
  assert (E1 : nodes t1 = <[new := mk_node (Some (root t)) (leaf [(key, val)])]> (nodes t) /\ root t1 = root t /\ next_loc t1 = Pos.succ new /\
    (0 <= str_used t1 <= chunk_size)%Z).
  { unfold t1. cbn [str_used]. destruct (Z.ltb_spec (chunk_size - str_used t) (Z.of_nat (String.length key) + 1)); cbn; split_and!; try done; lia. }
  destruct E1 as (En & Er & El & Eu). rewrite Er, (set_body_returns (root t) _ (mk_node None (child []))).
  2:{ rewrite En, lookup_insert_ne by done. rewrite Hn. apply lookup_singleton_eq. }
  apply returns_ret. rewrite En. cbn [parent]. right. exists [(key, val)].
  set (m := <[root t := mk_node None (child [new])]> (<[new := mk_node (Some (root t)) (leaf [(key, val)])]> (nodes t))).
  assert (Hm : forall u, m !! u = if decide (u = root t) then Some (mk_node None (child [new])) else if decide (u = new) then Some (mk_node (Some (root t)) (leaf [(key, val)])) else None).
  { intros u. unfold m. destruct (decide (u = root t)) as [->|Hur]; [by rewrite lookup_insert_eq|]. rewrite lookup_insert_ne by done.
    destruct (decide (u = new)) as [->|Hun]; [by rewrite lookup_insert_eq|]. rewrite lookup_insert_ne by done. rewrite Hn. by rewrite lookup_singleton_ne. }
  assert (Hk : forall u, kids m u = if decide (u = root t) then [new] else []) by (intros u; unfold kids; rewrite Hm; by repeat case_decide).
  assert (Hi : forall u, items m u = if decide (u = root t) then [] else if decide (u = new) then [(key, val)] else []) by (intros u; unfold items; rewrite Hm; by repeat case_decide).
  assert (Hp : forall u, par m u = if decide (u = root t) then None else if decide (u = new) then Some (root t) else None) by (intros u; unfold par; rewrite Hm; by repeat case_decide).
  assert (Hsize : size m = 2).
  { unfold m. rewrite map_size_insert_Some, map_size_insert_None, Hn; [by rewrite map_size_singleton| |].
    - rewrite Hn. by apply lookup_singleton_ne.
    - rewrite lookup_insert_ne by done. rewrite Hn, lookup_singleton_eq. by eexists. }
  split; [|split; [repeat constructor|unfold map_of; cbn; by rewrite insert_empty]].
  exists (fun u => if decide (u = root t) then 1 else 0), 2. split; cbn [nodes root next_loc str_used with_nodes]; fold m; rewrite ?Er.
  - split.
    + intros q c. rewrite Hk, Hp. destruct (decide (q = root t)) as [->|Hq].
      * rewrite list_elem_of_singleton. repeat case_decide; naive_solver.
      * split; [intros H; by apply elem_of_nil in H|]. repeat case_decide; naive_solver.
    + intros q. rewrite Hk. case_decide; [apply NoDup_singleton|constructor].
    + intros c q. rewrite Hp. repeat case_decide; naive_solver lia.
    + intros c _. case_decide; lia.
    + lia.
  - intros u x Hx. rewrite Hm in Hx. repeat case_decide; try done; injection Hx as <-; cbn; unfold leaf_width, node_width; lia.
  - intros c. rewrite Hm, El. intros [x Hx]. repeat case_decide; try done; subst; unfold new in *; lia.
  - rewrite Hk, Hp, !decide_True by done. done.
  - unfold flat. rewrite Hsize. cbn. rewrite !Hi, !Hk. rewrite !(decide_True (P := root t = root t)) by done. cbn. rewrite !Hi, !Hk.
    rewrite !(decide_False (P := new = root t)), !(decide_True (P := new = new)) by done. done.
  - done.
Qed.

Lemma root_count_some t o X : btree o t X -> exists n, root_count t = Some (S n).
Proof.
  intros (h & N & B). destruct (bt_root _ _ _ _ _ B) as [Hr _]. destruct (list_choose _ Hr) as [d Hd]. destruct (kids_node _ _ _ Hd) as (x & Hx & Hb).
  unfold root_count, get, child_of. rewrite Hx. cbn. rewrite Hb. cbn. destruct (kids (nodes t) (root t)) as [|c l]; [done|]. by exists (length l).
Qed.

Lemma find_root_returns t X key val force :
  btree None t X -> StronglySorted key_lt X -> (Z.of_nat (String.length key) < chunk_size)%Z ->
  returns (find_value_ (size (nodes t)) (root t) key val force t)
    (fun r => exists M', models (snd r) M' /\ found_value key val force (map_of X) (fst r) M').
Proof.
  intros (h & N & B) HS Hkey. pose proof (bt_links _ _ _ _ _ B) as L.
  assert (Hrm : is_Some (nodes t !! root t)) by (destruct (bt_root _ _ _ _ _ B) as [Hr _]; destruct (list_choose _ Hr) as [d Hd]; by apply (kids_some _ _ d)).
  eapply returns_mono; [apply (find_value_returns _ (root t) [] [] h N t X); try done|].
  - constructor.
  - pose proof (lk_bound _ _ _ L _ Hrm). pose proof (lk_size _ _ _ L). lia.
  - set_solver.
  - set_solver.
  - intros [v t'] (X' & B' & HS' & _ & HF). exists (map_of X'). split; [|done]. right. by exists X'.
Qed.

Lemma sym_set_value_returns t M key val :
  models t M -> (Z.of_nat (String.length key) < chunk_size)%Z ->
  returns (sym_set_value key val t) (fun t' => models t' (<[key := val]> M)).
Proof.
  intros [(Hn & Hl & Hu & ->)|(X & B & HS & ->)] Hkey; unfold sym_set_value.
  - assert (root_count t = Some 0) as -> by (unfold root_count, get; rewrite Hn, lookup_singleton_eq; done). cbn [mbind option_bind Nat.eqb].
    rewrite insert_empty. by apply first_value_returns.
  - destruct (root_count_some t _ X B) as [n ->]. cbn [mbind option_bind Nat.eqb].
    eapply returns_bind; [by apply (find_root_returns t X key val true)|]. intros [v t'] (M' & HM & HF). apply returns_ret. cbn [fst snd] in *.
    unfold found_value in HF. by destruct (map_of X !! key); destruct HF as [_ ->].
Qed.

Lemma sym_get_value_returns t M key :
  models t M -> (Z.of_nat (String.length key) < chunk_size)%Z ->
  returns (sym_get_value key t) (fun r => fst r = default null (M !! key) /\ models (snd r) (match M !! key with Some _ => M | None => <[key := null]> M end)).
Proof.
  intros [(Hn & Hl & Hu & ->)|(X & B & HS & ->)] Hkey; unfold sym_get_value.
  - assert (root_count t = Some 0) as -> by (unfold root_count, get; rewrite Hn, lookup_singleton_eq; done). cbn [mbind option_bind Nat.eqb].
    eapply returns_bind; [by apply (first_value_returns key null)|]. intros t' HM. apply returns_ret. rewrite lookup_empty. by rewrite insert_empty.
  - destruct (root_count_some t _ X B) as [n ->]. cbn [mbind option_bind Nat.eqb].
    eapply returns_mono; [by apply (find_root_returns t X key null false)|]. intros [v t'] (M' & HM & HF). cbn [fst snd] in *.
    unfold found_value in HF. destruct (map_of X !! key); destruct HF as [-> ->]; done.
Qed.

(** ** Properties *)

(** A sequence of uses of a table. *)
Inductive table_op := Set_value (key : string) (val : symbol_value_t) | Get_value (key : string).
Definition table_step (op : table_op) (t : symbol_table_s) : option (list symbol_value_t * symbol_table_s) :=
  match op with
  | Set_value k v => t ← sym_set_value k v t; Some ([], t)
  | Get_value k => '(v, t) ← sym_get_value k t; Some ([v], t)
  end.
Fixpoint table_run (ops : list table_op) (t : symbol_table_s) : option (list symbol_value_t * symbol_table_s) :=
  match ops with
  | [] => Some ([], t)
  | op :: ops => '(r, t) ← table_step op t; '(rs, t) ← table_run ops t; Some (r ++ rs, t)
  end.

(** The specification: a finite map, where a missing name reads as null. *)
Definition spec_step (op : table_op) (M : gmap string Z) : list Z * gmap string Z :=
  match op with
  | Set_value k v => ([], <[k := v]> M)
  | Get_value k => ([default null (M !! k)], match M !! k with Some _ => M | None => <[k := null]> M end)
  end.
Fixpoint spec_run (ops : list table_op) (M : gmap string Z) : list Z * gmap string Z :=
  match ops with
  | [] => ([], M)
  | op :: ops => let '(r, M) := spec_step op M in let '(rs, M) := spec_run ops M in (r ++ rs, M)
  end.
Definition op_key (op : table_op) : string := match op with Set_value k _ => k | Get_value k => k end.

Lemma table_run_spec ops : forall t M,
  models t M -> Forall (fun op => Z.of_nat (String.length (op_key op)) < chunk_size)%Z ops ->
  returns (table_run ops t) (fun r => fst r = fst (spec_run ops M) /\ models (snd r) (snd (spec_run ops M))).
Proof.
  induction ops as [|op ops IH]; intros t M HM HF; cbn [table_run spec_run]; [by apply returns_ret|].
  inversion HF as [|? ? Hk HF']; subst.
  assert (Hs : returns (table_step op t) (fun r => fst r = fst (spec_step op M) /\ models (snd r) (snd (spec_step op M)))).
  { destruct op as [k v|k]; cbn [table_step spec_step op_key] in *.
    - eapply returns_bind; [by apply (sym_set_value_returns t M)|]. intros t' HM'. by apply returns_ret.
    - eapply returns_bind; [by apply (sym_get_value_returns t M)|]. intros [v t'] [Ev HM']. cbn [fst snd] in Ev, HM'. subst v. by apply returns_ret. }
  eapply returns_bind; [exact Hs|]. intros [r t'] [Er HM']. destruct (spec_step op M) as [r' M']. cbn [fst snd] in *. subst r.
  eapply returns_bind; [by apply (IH t' M')|]. intros [rs t2] [Ers HM2]. destruct (spec_run ops M') as [rs' M2]. cbn [fst snd] in *. subst rs. by apply returns_ret.
Qed.

(** C3: A new symbol table behaves as a finite map under any sequence of
    [sym_set_value] and [sym_get_value] with names that fit a chunk of the
    string heap: every lookup returns the value that was set last, or null for a
    name that it creates; no node overflows, no assertion fails, every search
    and every cascade of splits ends. *)
Theorem symbol_table_is_map (ops : list table_op)
  (Hkeys : Forall (fun op => (Z.of_nat (String.length (op_key op)) < chunk_size)%Z) ops) :
  returns (table_run ops symbol_table_new) (fun r =>
    fst r = fst (spec_run ops ∅) /\ models (snd r) (snd (spec_run ops ∅))).
Proof. apply table_run_spec; [apply models_new|done]. Qed.

Definition sample_ops : list table_op := [Get_value "a"; Set_value "b" 7; Set_value "a" 3; Get_value "b"; Get_value "a"; Get_value "c"].

Lemma symbol_table_is_map_witness : (fun r => fst r) <$> table_run sample_ops symbol_table_new = Some [0; 7; 3; 0]%Z.
Proof.
  assert (H : returns (table_run sample_ops symbol_table_new) (fun r => fst r = fst (spec_run sample_ops ∅) /\ models (snd r) (snd (spec_run sample_ops ∅)))).
  { apply (symbol_table_is_map sample_ops). repeat constructor. }
  destruct H as (r & -> & Hr & _). cbn. rewrite Hr. reflexivity.
Defined.
