(* ===== verification/Delay.v ===== *)
(** * Delays ([vvp/delay.h], [vvp/delay.cc])

    [vvp_delay_t] gives the delay of a transition of a bit.  [vvp_fun_delay] is
    the functor that passes its input on after that delay, and drops pulses that
    are shorter: it keeps the changes that are still to come in a list of events
    and asks the scheduler to be run when they are due.  The file models both and
    proves that the functor implements an inertial delay with at most one change
    to come, as long as a change that is due is run before the next input
    arrives; two examples show what the code does otherwise.

    The list of events is a circular linked list entered at its last element,
    with the code of the queues in [Ring]; here it is a list, first event first.
    The scheduler's time is an argument; what a functor sends and schedules is a
    list of effects, in order. *)

From Stdlib Require Import ZArith Lia Bool.
From stdpp Require Import base numbers sets list.
From S2P Require Import Prelude Bit4 Words Vec4 Vec4Arith Vec2 VecRep Strength.

Open Scope Z_scope.

(** ** Definitions *)

(** *** The delay of a transition *)

Record vvp_delay_t := mk_delay {
  rise_ : Z;
  fall_ : Z;
  decay_ : Z;
  min_delay_ : Z;
  ignore_decay_ : bool
}.

Definition calculate_min_delay_ (d : vvp_delay_t) : vvp_delay_t :=
  let min_delay := rise_ d in
  let min_delay := if fall_ d <? min_delay then fall_ d else min_delay in
  if ignore_decay_ d then mk_delay (rise_ d) (fall_ d) min_delay min_delay true
  else
    let min_delay := if decay_ d <? min_delay then decay_ d else min_delay in
    mk_delay (rise_ d) (fall_ d) (decay_ d) min_delay false.

(** The constructors with two and with three delays. *)
Definition delay_make2 (rise fall : Z) : vvp_delay_t :=
  let decay := if fall <? rise then fall else rise in mk_delay rise fall decay decay false.

Definition delay_make3 (rise fall decay : Z) : vvp_delay_t :=
  calculate_min_delay_ (mk_delay rise fall decay 0 false).

Definition set_ignore_decay (d : vvp_delay_t) : vvp_delay_t :=
  calculate_min_delay_ (mk_delay (rise_ d) (fall_ d) (decay_ d) (min_delay_ d) true).

Definition get_delay (d : vvp_delay_t) (from to : vvp_bit4_t) : Z :=
  match from, to with
  | BIT4_0, BIT4_0 => 0
  | BIT4_0, BIT4_1 => rise_ d
  | BIT4_0, BIT4_X => min_delay_ d
  | BIT4_0, BIT4_Z => decay_ d
  | BIT4_1, BIT4_0 => fall_ d
  | BIT4_1, BIT4_1 => 0
  | BIT4_1, BIT4_X => min_delay_ d
  | BIT4_1, BIT4_Z => decay_ d
  | BIT4_X, BIT4_0 => fall_ d
  | BIT4_X, BIT4_1 => rise_ d
  | BIT4_X, BIT4_X => 0
  | BIT4_X, BIT4_Z => decay_ d
  | BIT4_Z, BIT4_0 => fall_ d
  | BIT4_Z, BIT4_1 => rise_ d
  | BIT4_Z, BIT4_X => min_delay_ d
  | BIT4_Z, BIT4_Z => 0
  end.

Definition get_min_delay (d : vvp_delay_t) : Z := min_delay_ d.

Definition set_rise (val : Z) (d : vvp_delay_t) : vvp_delay_t :=
  let d := mk_delay val (fall_ d) (decay_ d) (min_delay_ d) (ignore_decay_ d) in
  if val <? min_delay_ d
  then mk_delay (rise_ d) (fall_ d) (if ignore_decay_ d then val else decay_ d) val (ignore_decay_ d)
  else calculate_min_delay_ d.

Definition set_fall (val : Z) (d : vvp_delay_t) : vvp_delay_t :=
  let d := mk_delay (rise_ d) val (decay_ d) (min_delay_ d) (ignore_decay_ d) in
  if val <? min_delay_ d
  then mk_delay (rise_ d) (fall_ d) (if ignore_decay_ d then val else decay_ d) val (ignore_decay_ d)
  else calculate_min_delay_ d.

Definition set_decay (val : Z) (d : vvp_delay_t) : option vvp_delay_t :=
  assert_ (negb (ignore_decay_ d));;
  let d := mk_delay (rise_ d) (fall_ d) val (min_delay_ d) (ignore_decay_ d) in
  Some (if val <? min_delay_ d then mk_delay (rise_ d) (fall_ d) (decay_ d) val (ignore_decay_ d)
        else calculate_min_delay_ d).

(** *** The state of the functor *)

Inductive delay_type_t := UNKNOWN_DELAY | VEC4_DELAY | VEC8_DELAY | REAL_DELAY.

(** The member functions a [run_run_ptr] points to. *)
Inductive run_run_fun := run_run_vec4_ | run_run_vec8_ | run_run_real_.

#[export] Instance delay_type_eq_dec : EqDecision delay_type_t.
Proof. solve_decision. Defined.
#[export] Instance run_run_fun_eq_dec : EqDecision run_run_fun.
Proof. solve_decision. Defined.

Section delay.

(** Real values: the type, its zero and its comparison [==]. *)
Context {real : Type} (real_0 : real) (real_eq : real -> real -> bool).

Record event_ := mk_event {
  run_run_ptr : run_run_fun;
  sim_time : Z;
  ptr_vec4 : vvp_vector4_t;
  ptr_vec8 : vvp_vector8_t;
  ptr_real : real
}.

Record vvp_fun_delay := mk_fun_delay {
  delay_ : vvp_delay_t;
  type_ : delay_type_t;
  initial_ : bool;
  cur_vec4_ : vvp_vector4_t;
  cur_vec8_ : vvp_vector8_t;
  cur_real_ : real;
  round_ : Z;
  scale_ : Z;
  list_ : list event_
}.

(** What the functor asks of its net and of the scheduler. *)
Inductive effect :=
  | send_vec4 (v : vvp_vector4_t)
  | send_vec8 (v : vvp_vector8_t)
  | send_real (r : real)
  | schedule_generic (delay : Z)
  | init_propagate_vec4 (v : vvp_vector4_t)
  | init_propagate_real (r : real).

Definition with_delay_ (x : vvp_delay_t) (f : vvp_fun_delay) : vvp_fun_delay :=
  mk_fun_delay x (type_ f) (initial_ f) (cur_vec4_ f) (cur_vec8_ f) (cur_real_ f) (round_ f) (scale_ f) (list_ f).
Definition with_type_ (x : delay_type_t) (f : vvp_fun_delay) : vvp_fun_delay :=
  mk_fun_delay (delay_ f) x (initial_ f) (cur_vec4_ f) (cur_vec8_ f) (cur_real_ f) (round_ f) (scale_ f) (list_ f).
Definition with_initial_ (x : bool) (f : vvp_fun_delay) : vvp_fun_delay :=
  mk_fun_delay (delay_ f) (type_ f) x (cur_vec4_ f) (cur_vec8_ f) (cur_real_ f) (round_ f) (scale_ f) (list_ f).
Definition with_cur_vec4_ (x : vvp_vector4_t) (f : vvp_fun_delay) : vvp_fun_delay :=
  mk_fun_delay (delay_ f) (type_ f) (initial_ f) x (cur_vec8_ f) (cur_real_ f) (round_ f) (scale_ f) (list_ f).
Definition with_cur_vec8_ (x : vvp_vector8_t) (f : vvp_fun_delay) : vvp_fun_delay :=
  mk_fun_delay (delay_ f) (type_ f) (initial_ f) (cur_vec4_ f) x (cur_real_ f) (round_ f) (scale_ f) (list_ f).
Definition with_cur_real_ (x : real) (f : vvp_fun_delay) : vvp_fun_delay :=
  mk_fun_delay (delay_ f) (type_ f) (initial_ f) (cur_vec4_ f) (cur_vec8_ f) x (round_ f) (scale_ f) (list_ f).
Definition with_list_ (x : list event_) (f : vvp_fun_delay) : vvp_fun_delay :=
  mk_fun_delay (delay_ f) (type_ f) (initial_ f) (cur_vec4_ f) (cur_vec8_ f) (cur_real_ f) (round_ f) (scale_ f) x.

(** [for (lp = 0; lp < pow; lp += 1) x *= 10;] from 1. *)
Definition power_of_10 (pow : Z) : Z := loop_ 0 (Z.to_nat pow) (fun _ x => w_mul x 10) 1.

(** The empty vectors of the default constructors. *)
Definition empty_vec4 : vvp_vector4_t := vector4_fill 0 BIT4_X.
Definition empty_vec8 : vvp_vector8_t := vector8_make 0.

(** The constructor, with the time units and precision of the scope the functor
    is made in and the precision of the simulation, as powers of ten. *)
Definition fun_delay_make (width : nat) (d : vvp_delay_t) (time_units time_precision sim_precision : Z) :
    option (vvp_fun_delay * list effect) :=
  let cur_real := real_0 in
  '(cur_vec4, cur_vec8, eff) ←
    (if (0 <? width)%nat then
       let cur_vec4 := vector4_fill width BIT4_X in
       cur_vec8 ← vector8_of_vector4 cur_vec4 6 6;
       Some (cur_vec4, cur_vec8, [init_propagate_vec4 cur_vec4])
     else Some (empty_vec4, empty_vec8, [init_propagate_real cur_real]));
  let round := power_of_10 (time_units - time_precision) in
  let scale := power_of_10 (time_precision - sim_precision) in
  Some (mk_fun_delay d UNKNOWN_DELAY true cur_vec4 cur_vec8 cur_real round scale [], eff).

Definition enqueue_ (cur : event_) (l : list event_) : list event_ := l ++ [cur].

Definition dequeue_ (l : list event_) : option (event_ * list event_) :=
  match l with
  | [] => None
  | cur :: l => Some (cur, l)
  end.

(** [clean_pulse_events_(use_delay)]: the events that are not due are dropped,
    up to the first that is. *)
Fixpoint clean_loop (now use_delay : Z) (l : list event_) : list event_ :=
  match l with
  | [] => []
  | cur :: next =>
      if w_add (sim_time cur) use_delay <=? w_add use_delay now then l else clean_loop now use_delay next
  end.

Definition clean_pulse_events_ (now use_delay : Z) (f : vvp_fun_delay) : option vvp_fun_delay :=
  assert_ (match list_ f with [] => false | _ => true end);;
  Some (with_list_ (clean_loop now use_delay (list_ f)) f).

(** The overloads for the three kinds of value share their shape: [same] is the
    comparison of the first event with the new value. *)
Definition clean_pulse_events_if (now use_delay : Z) (same : event_ -> bool) (f : vvp_fun_delay) :
    option (bool * vvp_fun_delay) :=
  match list_ f with
  | [] => Some (false, f)
  | first :: _ =>
      if same first then Some (true, f)
      else f ← clean_pulse_events_ now use_delay f; Some (false, f)
  end.

Definition clean_pulse_events_vec4 (now use_delay : Z) (bit : vvp_vector4_t) :=
  clean_pulse_events_if now use_delay (fun e => eeq (ptr_vec4 e) bit).
Definition clean_pulse_events_vec8 (now use_delay : Z) (bit : vvp_vector8_t) :=
  clean_pulse_events_if now use_delay (fun e => eeq8 (ptr_vec8 e) bit).
Definition clean_pulse_events_real (now use_delay : Z) (bit : real) :=
  clean_pulse_events_if now use_delay (fun e => real_eq (ptr_real e) bit).

(** *** The handlers *)

(** The largest delay of the bits [0 .. n-1], and at least that of bit 0. *)
Definition scan_delay (d : vvp_delay_t) (from to : nat -> vvp_bit4_t) (n : nat) : Z :=
  loop_ 1 (n - 1) (fun idx use_delay =>
      let tmp := get_delay d (from idx) (to idx) in if use_delay <? tmp then tmp else use_delay)
    (get_delay d (from 0%nat) (to 0%nat)).

(** The reference for the delay: an event that is due now, or the output. *)
Definition due_now (now : Z) (f : vvp_fun_delay) : option event_ :=
  match list_ f with
  | first :: _ => if sim_time first =? now then Some first else None
  | [] => None
  end.

(** The control ports of [recv_vec4]: a delay in the time unit of the scope. *)
Definition recv_delay_vec4 (port : nat) (bit : vvp_vector4_t) (f : vvp_fun_delay) : option vvp_fun_delay :=
  let bval := default 0 (fst (vector4_to_value 64 false bit false true)) in
  let val := w_mul (w_mul bval (round_ f)) (scale_ f) in
  match port with
  | 1%nat => Some (with_delay_ (set_rise val (delay_ f)) f)
  | 2%nat => Some (with_delay_ (set_fall val (delay_ f)) f)
  | 3%nat => d ← set_decay val (delay_ f); Some (with_delay_ d f)
  | _ => Some f
  end.

(** The event a handler makes for a change to come. *)
Definition vec4_event (t : Z) (bit : vvp_vector4_t) : event_ := mk_event run_run_vec4_ t bit empty_vec8 real_0.
Definition vec8_event (t : Z) (bit : vvp_vector8_t) : event_ := mk_event run_run_vec8_ t empty_vec4 bit real_0.
Definition real_event (t : Z) (bit : real) : event_ := mk_event run_run_real_ t empty_vec4 empty_vec8 bit.

(** [if (use_delay == 0 && list_ == 0)] at the end of the three handlers. *)
Definition no_wait (use_delay : Z) (f : vvp_fun_delay) : bool :=
  (use_delay =? 0) && match list_ f with [] => true | _ => false end.

(** The delay of the new value, and the state with the type set. *)
Definition use_delay_vec4 (now : Z) (bit : vvp_vector4_t) (f : vvp_fun_delay) : option (Z * vvp_fun_delay) :=
  if initial_ f then
    v8 ← vector8_of_vector4 (vector4_fill 0 BIT4_X) 6 6;
    let f := with_cur_vec8_ v8 (with_type_ VEC4_DELAY f) in
    let cur_val := value (cur_vec4_ f) 0 in
    Some (scan_delay (delay_ f) (fun _ => cur_val) (value bit) (size_ bit), f)
  else
    assert_ (bool_decide (type_ f = VEC4_DELAY));;
    let use_vec4 := match due_now now f with Some e => ptr_vec4 e | None => cur_vec4_ f end in
    let use_wid := if (size_ bit <? size_ use_vec4)%nat then size_ bit else size_ use_vec4 in
    Some (scan_delay (delay_ f) (value use_vec4) (value bit) use_wid, f).

Definition recv_vec4 (now : Z) (port : nat) (bit : vvp_vector4_t) (f : vvp_fun_delay) :
    option (vvp_fun_delay * list effect) :=
  if (0 <? port)%nat then f ← recv_delay_vec4 port bit f; Some (f, [])
  else
    '(use_delay, f) ← use_delay_vec4 now bit f;
    '(skip, f) ← clean_pulse_events_vec4 now use_delay bit f;
    if (skip : bool) then Some (f, [])
    else
      let use_simtime := w_add now use_delay in
      if no_wait use_delay f then
        let f := with_initial_ false (with_cur_vec4_ bit f) in
        Some (f, [send_vec4 (cur_vec4_ f)])
      else Some (with_list_ (enqueue_ (vec4_event use_simtime bit) (list_ f)) f, [schedule_generic use_delay]).

(** The same on vectors with strength; [value(idx)] asserts its range. *)
Definition scan_delay8 (d : vvp_delay_t) (from to : nat -> option vvp_scalar_t) (n : nat) : option Z :=
  a ← from 0%nat; b ← to 0%nat;
  for_ 1 (n - 1) (fun idx use_delay =>
      a ← from idx; b ← to idx;
      let tmp := get_delay d (scalar_value a) (scalar_value b) in
      Some (if use_delay <? tmp then tmp else use_delay))
    (get_delay d (scalar_value a) (scalar_value b)).

Definition use_delay_vec8 (now : Z) (bit : vvp_vector8_t) (f : vvp_fun_delay) : option (Z * vvp_fun_delay) :=
  if initial_ f then
    let f := with_cur_vec4_ (vector4_fill 0 BIT4_X) (with_type_ VEC8_DELAY f) in
    u ← scan_delay8 (delay_ f) (fun _ => value8 (cur_vec8_ f) 0) (value8 bit) (size8_ bit);
    Some (u, f)
  else
    assert_ (bool_decide (type_ f = VEC8_DELAY));;
    let use_vec8 := match due_now now f with Some e => ptr_vec8 e | None => cur_vec8_ f end in
    let use_wid := if (size8_ bit <? size8_ use_vec8)%nat then size8_ bit else size8_ use_vec8 in
    u ← scan_delay8 (delay_ f) (value8 use_vec8) (value8 bit) use_wid;
    Some (u, f).

Definition recv_vec8 (now : Z) (port : nat) (bit : vvp_vector8_t) (f : vvp_fun_delay) :
    option (vvp_fun_delay * list effect) :=
  assert_ (port =? 0)%nat;;
  '(use_delay, f) ← use_delay_vec8 now bit f;
  '(skip, f) ← clean_pulse_events_vec8 now use_delay bit f;
  if (skip : bool) then Some (f, [])
  else
    let use_simtime := w_add now use_delay in
    if no_wait use_delay f then
      let f := with_initial_ false (with_cur_vec8_ bit f) in
      Some (f, [send_vec8 (cur_vec8_ f)])
    else Some (with_list_ (enqueue_ (vec8_event use_simtime bit) (list_ f)) f, [schedule_generic use_delay]).

(** The data port of [recv_real]; its control ports compute with reals. *)
Definition type_real (f : vvp_fun_delay) : option vvp_fun_delay :=
  if initial_ f then
    let cur_vec4 := vector4_fill 0 BIT4_X in
    v8 ← vector8_of_vector4 cur_vec4 6 6;
    Some (with_cur_vec8_ v8 (with_cur_vec4_ cur_vec4 (with_type_ REAL_DELAY f)))
  else assert_ (bool_decide (type_ f = REAL_DELAY));; Some f.

Definition recv_real (now : Z) (bit : real) (f : vvp_fun_delay) : option (vvp_fun_delay * list effect) :=
  f ← type_real f;
  let use_delay := get_min_delay (delay_ f) in
  '(skip, f) ← clean_pulse_events_real now use_delay bit f;
  if (skip : bool) then Some (f, [])
  else if real_eq (cur_real_ f) bit then Some (f, [])
  else
    let use_simtime := w_add now use_delay in
    if no_wait use_delay f then
      let f := with_initial_ false (with_cur_real_ bit f) in
      Some (f, [send_real (cur_real_ f)])
    else Some (with_list_ (enqueue_ (real_event use_simtime bit) (list_ f)) f, [schedule_generic use_delay]).

(** The three member functions. *)
Definition run_event (cur : event_) (f : vvp_fun_delay) : vvp_fun_delay * list effect :=
  match run_run_ptr cur with
  | run_run_vec4_ => let f := with_cur_vec4_ (ptr_vec4 cur) f in (f, [send_vec4 (cur_vec4_ f)])
  | run_run_vec8_ => let f := with_cur_vec8_ (ptr_vec8 cur) f in (f, [send_vec8 (cur_vec8_ f)])
  | run_run_real_ => let f := with_cur_real_ (ptr_real cur) f in (f, [send_real (cur_real_ f)])
  end.

Definition run_run (now : Z) (f : vvp_fun_delay) : vvp_fun_delay * list effect :=
  match list_ f with
  | [] => (f, [])
  | first :: _ =>
      if now <? sim_time first then (f, [])
      else
        match dequeue_ (list_ f) with
        | None => (f, [])
        | Some (cur, l) =>
            let '(f, eff) := run_event cur (with_list_ l f) in
            (with_initial_ false f, eff)
        end
  end.

End delay.

(** ** The abstract specification: an inertial delay

    The output of an inertial delay holds a value; at most one change is to come.
    A new input replaces the change to come, and happens at once when it needs no
    delay.  Times are unbounded here; a step that would pass the end of the
    64-bit time, that arrives before a due change has been run, or that sets a
    delay the functor does not have, is not specified. *)

Record inertial := mk_inertial {
  idelay : vvp_delay_t;
  iunit : Z * Z;
  out : list vvp_bit4_t;
  pending : option (Z * list vvp_bit4_t)
}.

Inductive input :=
  | Data (bit : vvp_vector4_t)
  | Control (port : nat) (bit : vvp_vector4_t)
  | Run.

Inductive output := Sent (l : list vvp_bit4_t) | Wake (delay : Z).

(** The largest delay of the bits. *)
Definition largest_delay (d : vvp_delay_t) (from to : list vvp_bit4_t) : Z :=
  foldr Z.max 0 (zip_with (get_delay d) from to).

Definition pending_time (st : inertial) : Z := match pending st with Some (t, _) => t | None => 0 end.

(** A change is due that has not been run. *)
Definition overdue (now : Z) (st : inertial) : bool :=
  match pending st with Some (t, _) => t <=? now | None => false end.

(** The number of a control vector, 0 when it has unknown bits, in the precision
    of the simulation. *)
Definition control_value (st : inertial) (bit : vvp_vector4_t) : Z :=
  w_mul (w_mul (if list_has_xz (take 64 (bits bit)) then 0 else bits_to_Z (bits bit) mod 2 ^ 64) (fst (iunit st))) (snd (iunit st)).

Definition inertial_recv (now : Z) (b : list vvp_bit4_t) (st : inertial) : option (inertial * list output) :=
  let d := largest_delay (idelay st) (out st) b in
  if overdue now st || (2 ^ 64 <=? Z.max now (pending_time st) + d) then None
  else if bool_decide (snd <$> pending st = Some b) then Some (st, [])
  else if d =? 0 then Some (mk_inertial (idelay st) (iunit st) b None, [Sent b])
  else Some (mk_inertial (idelay st) (iunit st) (out st) (Some (now + d, b)), [Wake d]).

Definition inertial_run (now : Z) (st : inertial) : inertial * list output :=
  match pending st with
  | Some (t, b) =>
      if t <=? now then (mk_inertial (idelay st) (iunit st) b None, [Sent b]) else (st, [])
  | None => (st, [])
  end.

Definition inertial_control (port : nat) (val : Z) (st : inertial) : option inertial :=
  let set d := mk_inertial d (iunit st) (out st) (pending st) in
  match port with
  | 1%nat => Some (set (set_rise val (idelay st)))
  | 2%nat => Some (set (set_fall val (idelay st)))
  | 3%nat => set <$> set_decay val (idelay st)
  | _ => None
  end.

Definition inertial_step (now : Z) (i : input) (st : inertial) : option (inertial * list output) :=
  match i with
  | Data bit => if (size_ bit =? length (out st))%nat then inertial_recv now (bits bit) st else None
  | Control port bit => st ← inertial_control port (control_value st bit) st; Some (st, [])
  | Run => Some (inertial_run now st)
  end.

Fixpoint inertial_steps (tr : list (Z * input)) (st : inertial) : option (inertial * list output) :=
  match tr with
  | [] => Some (st, [])
  | (now, i) :: tr =>
      '(st, o) ← inertial_step now i st;
      '(st, os) ← inertial_steps tr st;
      Some (st, o ++ os)
  end.

(** The same steps of the functor. *)
Section functor.

Context {real : Type} (real_0 : real).

Definition delay_step (now : Z) (i : input) (f : @vvp_fun_delay real) : option (@vvp_fun_delay real * list (@effect real)) :=
  match i with
  | Data bit => recv_vec4 real_0 now 0 bit f
  | Control port bit => recv_vec4 real_0 now port bit f
  | Run => Some (run_run now f)
  end.

Fixpoint delay_steps (tr : list (Z * input)) (f : @vvp_fun_delay real) : option (@vvp_fun_delay real * list (@effect real)) :=
  match tr with
  | [] => Some (f, [])
  | (now, i) :: tr =>
      '(f, o) ← delay_step now i f;
      '(f, os) ← delay_steps tr f;
      Some (f, o ++ os)
  end.

Definition delays_ok (d : vvp_delay_t) : Prop :=
  0 <= rise_ d /\ 0 <= fall_ d /\ 0 <= decay_ d /\ 0 <= min_delay_ d.

(** The functor implements the inertial delay. *)
Definition implements (f : @vvp_fun_delay real) (st : inertial) : Prop :=
  delay_ f = idelay st /\ delays_ok (idelay st) /\ (round_ f, scale_ f) = iunit st /\
  rep4 (cur_vec4_ f) (out st) /\ (0 < length (out st))%nat /\
  (if initial_ f then out st = replicate (length (out st)) BIT4_X else type_ f = VEC4_DELAY) /\
  match pending st with
  | None => list_ f = []
  | Some (t, b) =>
      exists e, list_ f = [e] /\ run_run_ptr e = run_run_vec4_ /\ sim_time e = t /\ 0 <= t /\
        rep4 (ptr_vec4 e) b /\ length b = length (out st) /\ (initial_ f = true -> type_ f = VEC4_DELAY)
  end.

(** What the functor does is what the specification says. *)
Definition same_output (e : @effect real) (o : output) : Prop :=
  match e, o with
  | send_vec4 v, Sent l => rep4 v l
  | schedule_generic d, Wake d' => d = d'
  | _, _ => False
  end.

End functor.

(** ** Lemmas *)

Lemma get_delay_nonneg d a b : delays_ok d -> 0 <= get_delay d a b.
Proof. intros (? & ? & ? & ?). destruct a, b; cbn [get_delay]; lia. Qed.

Lemma largest_delay_nonneg d l m : 0 <= largest_delay d l m.
Proof. unfold largest_delay. revert m. induction l as [|a l IH]; intros [|b m]; cbn [zip_with foldr]; [lia..|]. specialize (IH m). lia. Qed.

(** The scan of the source computes the maximum. *)
Lemma scan_delay_from d (from to : nat -> vvp_bit4_t) n i acc : 0 <= acc ->
  loop_ i n (fun idx u => let tmp := get_delay d (from idx) (to idx) in if u <? tmp then tmp else u) acc =
  foldr Z.max acc (map (fun idx => get_delay d (from idx) (to idx)) (seq i n)).
Proof.
  revert i acc. induction n as [|n IH]; intros i acc Hacc; cbn [loop_ seq map foldr]; [done|].
  set (t := get_delay d (from i) (to i)). rewrite IH by (destruct (Z.ltb_spec acc t); lia).
  generalize (map (fun idx => get_delay d (from idx) (to idx)) (seq (S i) n)) as l.
  induction l as [|x l IHl]; cbn [foldr]; [destruct (Z.ltb_spec acc t); lia|]. rewrite IHl. lia.
Qed.

Lemma foldr_max_init x l : 0 <= x -> Forall (fun y => 0 <= y) l -> foldr Z.max x l = Z.max x (foldr Z.max 0 l).
Proof. intros Hx. induction 1; cbn [foldr]; lia. Qed.

Lemma scan_delay_largest d (from to : nat -> vvp_bit4_t) l m :
  delays_ok d -> (0 < length l)%nat -> length m = length l ->
  (forall i, (i < length l)%nat -> from i = bit_at l i /\ to i = bit_at m i) ->
  scan_delay d from to (length l) = largest_delay d l m.
Proof.
  intros Hd Hpos Hlen H. unfold scan_delay, largest_delay.
  rewrite scan_delay_from by (by apply get_delay_nonneg).
  assert (zip_with (get_delay d) l m = map (fun idx => get_delay d (from idx) (to idx)) (seq 0 (length l))) as ->.
  { clear Hpos. revert m from to Hlen H. induction l as [|a l IH]; intros [|b m] from to; cbn [length zip_with seq map]; [done..|].
    intros [= Hlen] H. destruct (H 0%nat ltac:(lia)) as [-> ->]. f_equal.
    rewrite (IH m (fun i => from (S i)) (fun i => to (S i)) Hlen); [|by intros i Hi; apply (H (S i)); lia].
    rewrite <- seq_shift, map_map. done. }
  destruct (length l) as [|n]; [lia|]. replace (S n - 1)%nat with n by lia. cbn [seq map foldr].
  apply foldr_max_init; [by apply get_delay_nonneg|]. apply Forall_map, Forall_forall. intros i _. by apply get_delay_nonneg.
Qed.

(** The state of a functor with an input value and the delay it needs. *)
Section step_lemmas.

Context {real : Type} (real_0 : real).
Implicit Types f : @vvp_fun_delay real.

Lemma empty_vec8_of_vec4 : returns (vector8_of_vector4 (vector4_fill 0 BIT4_X) 6 6) (fun _ => True).
Proof. by eexists. Qed.

(** Before anything is due, the delay is taken against the output. *)
Lemma use_delay_spec now bit f st b :
  implements f st -> rep4 bit b -> length b = length (out st) -> overdue now st = false ->
  returns (use_delay_vec4 now bit f) (fun r =>
    fst r = largest_delay (idelay st) (out st) b /\ implements (snd r) st /\ type_ (snd r) = VEC4_DELAY).
Proof.
  intros (Hd & Hok & Hu & Hrep & Hpos & Hinit & Hp) Hb Hlen Hdue. unfold use_delay_vec4.
  pose proof (rep4_size _ _ Hb) as Hsb. pose proof (rep4_size _ _ Hrep) as Hsc.
  destruct (initial_ f) eqn:Hi.
  - eapply returns_bind; [apply empty_vec8_of_vec4|]. intros v8 _. apply returns_ret. cbn [fst snd delay_ with_cur_vec8_ with_type_ type_].
    split_and!; [|red; cbn|done].
    + rewrite Hsb, Hlen, Hd. apply scan_delay_largest; try done. intros i Hil. cbn.
      rewrite (rep4_value _ _ _ Hb), (rep4_value _ _ _ Hrep). split; [|done]. rewrite Hinit, !bit_at_replicate; done.
    + rewrite Hi. split_and!; try done. destruct (pending st) as [[t v]|]; [|done]. destruct Hp as (e & ? & ? & ? & ? & ? & ? & _). by exists e.
  - rewrite bool_decide_true by done. apply returns_assert; [done|]. apply returns_ret. cbn [fst snd].
    split_and!; [|red; by rewrite Hi|done].
    assert (due_now now f = None) as ->.
    { unfold due_now. unfold overdue in Hdue. destruct (pending st) as [[t v]|]; [|by rewrite Hp].
      destruct Hp as (e & -> & _ & <- & _). destruct (Z.leb_spec (sim_time e) now); [done|]. destruct (Z.eqb_spec (sim_time e) now); [lia|done]. }
    rewrite Hsb, Hsc, Hlen, Nat.ltb_irrefl, Hd. apply scan_delay_largest; try done. intros i Hil.
    by rewrite (rep4_value _ _ _ Hb), (rep4_value _ _ _ Hrep).
Qed.

(** A change to come that is not due is dropped when the new value differs. *)
Lemma clean_spec now bit f st b d :
  implements f st -> rep4 bit b -> overdue now st = false -> 0 <= now -> 0 <= d -> Z.max now (pending_time st) + d < 2 ^ 64 ->
  returns (clean_pulse_events_vec4 now d bit f) (fun r =>
    (fst r = true /\ snd r = f /\ snd <$> pending st = Some b) \/
    (fst r = false /\ snd r = with_list_ [] f /\ snd <$> pending st <> Some b)).
Proof.
  intros (_ & _ & _ & _ & _ & _ & Hp) Hb Hdue Hnow Hd Hfit.
  unfold clean_pulse_events_vec4, clean_pulse_events_if, overdue, pending_time in *.
  destruct (pending st) as [[t v]|].
  - destruct Hp as (e & Hl & _ & Ht & Ht0 & Hv & _). rewrite Hl. rewrite (rep4_eeq _ _ _ _ Hv Hb).
    case_bool_decide as Hvb; [apply returns_ret; left; by subst|].
    unfold clean_pulse_events_. rewrite Hl. apply returns_ret. right. cbn [clean_loop fst snd fmap option_fmap option_map].
    unfold w_add. rewrite !w_wrap_id by (unfold word_ok; lia). destruct (Z.leb_spec t now); [done|].
    destruct (Z.leb_spec (sim_time e + d) (d + now)); [lia|]. split_and!; [done..|congruence].
  - rewrite Hp. apply returns_ret. right. split_and!; [done| |done]. cbn [snd]. destruct f; cbn in *; by subst.
Qed.

Lemma recv_vec4_implements now bit f st b st' os :
  implements f st -> rep4 bit b -> length b = length (out st) -> 0 <= now ->
  inertial_recv now b st = Some (st', os) ->
  returns (recv_vec4 real_0 now 0 bit f) (fun r => implements (fst r) st' /\ Forall2 same_output (snd r) os).
Proof.
  intros HR Hb Hlen Hnow Hst. unfold inertial_recv in Hst. cbv zeta in Hst.
  set (d := largest_delay (idelay st) (out st) b) in *. assert (0 <= d) as Hd0 by apply largest_delay_nonneg.
  destruct (overdue now st) eqn:Hdue; [done|]. destruct (Z.leb_spec (2 ^ 64) (Z.max now (pending_time st) + d)); [done|].
  cbn [orb] in Hst. unfold recv_vec4. cbn [Nat.ltb Nat.leb].
  eapply returns_bind; [by apply use_delay_spec|]. intros [u g] (Hud & Hg & Htype). cbn [fst snd] in *. fold d in Hud. subst u.
  eapply returns_bind; [by apply clean_spec|]. intros [skip g'] [(Hskip & Hg' & Hsame)|(Hskip & Hg' & Hsame)]; cbn [fst snd] in *; subst skip g'.
  { rewrite bool_decide_true in Hst by done. injection Hst as <- <-. apply returns_ret. split; [done|constructor]. }
  rewrite bool_decide_false in Hst by done. unfold no_wait. cbn [list_ with_list_]. rewrite andb_true_r.
  destruct Hg as (Hgd & Hok & Hu & Hrep & Hpos & Hinit & Hp).
  destruct (Z.eqb_spec d 0) as [Hd|Hd]; injection Hst as <- <-; apply returns_ret.
  - cbn. split; [|by constructor; [|constructor]]. split_and!; try done; try apply Hok; try congruence. cbn [out]. lia.
  - cbn. split; [|by constructor; [|constructor]]. split_and!; try done; [by apply Hok..|]. eexists. split_and!; try done; cbn.
    + unfold w_add. rewrite w_wrap_id; [done|]. unfold word_ok. lia.
    + lia.
Qed.

Lemma run_run_implements now f st :
  implements f st -> implements (fst (run_run now f)) (fst (inertial_run now st)) /\
  Forall2 same_output (snd (run_run now f)) (snd (inertial_run now st)).
Proof.
  intros HR. pose proof HR as (Hgd & Hok & Hu & Hrep & Hpos & Hinit & Hp). unfold run_run, inertial_run.
  destruct (pending st) as [[t v]|] eqn:Hpend; [|rewrite Hp; split; [done|constructor]].
  destruct Hp as (e & Hl & Hptr & Ht & Ht0 & Hv & Hlen & Hty). rewrite Hl, Ht.
  destruct (Z.ltb_spec now t), (Z.leb_spec t now); try lia; [split; [done|constructor]|].
  cbn [dequeue_]. unfold run_event. rewrite Hptr. cbn. split; [|by constructor; [|constructor]].
  split_and!; try done; try apply Hok; cbn [out fst]; [lia|]. cbn. destruct (initial_ f); auto.
Qed.

Lemma set_delay_ok val d : 0 <= val -> delays_ok d ->
  delays_ok (set_rise val d) /\ delays_ok (set_fall val d) /\ (forall d', set_decay val d = Some d' -> delays_ok d').
Proof.
  unfold delays_ok, set_rise, set_fall, set_decay, calculate_min_delay_. intros Hv (? & ? & ? & ?).
  destruct d as [r fl dc m ig]; cbn in *.
  split_and!; try (intros d' Hd'; destruct ig; [done|]; injection Hd' as <-);
    repeat match goal with |- context [?a <? ?b] => destruct (Z.ltb_spec a b) end; try destruct ig; cbn;
    repeat match goal with |- context [?a <? ?b] => destruct (Z.ltb_spec a b) end; cbn; lia.
Qed.

(** A control vector stands for a number of units. *)
Lemma control_value_spec bit st f : implements f st ->
  w_mul (w_mul (default 0 (fst (vector4_to_value 64 false bit false true))) (round_ f)) (scale_ f) = control_value st bit.
Proof.
  intros (_ & _ & Hu & _). unfold control_value. rewrite <- Hu. cbn [fst snd]. do 2 f_equal.
  rewrite vector4_to_value_unfold. cbv zeta. destruct (list_has_xz (take 64 (bits bit))); cbn [andb fst default]; [done|].
  unfold int_cast. cbn [andb]. destruct (Nat.le_ge_cases (size_ bit) 64) as [Hs|Hs].
  - by rewrite Nat.min_l, low_bits_size.
  - rewrite Nat.min_r by done. by apply (low_bits_mod bit 64).
Qed.

Lemma control_value_nonneg st bit : 0 <= control_value st bit.
Proof. unfold control_value, w_mul. apply w_wrap_ok. Qed.

Lemma control_implements now port bit f st st' :
  implements f st -> inertial_control port (control_value st bit) st = Some st' ->
  returns (recv_vec4 real_0 now port bit f) (fun r => implements (fst r) st' /\ snd r = []).
Proof.
  intros HR Hst. pose proof (control_value_nonneg st bit) as Hv. pose proof (control_value_spec bit st f HR) as Hval.
  pose proof HR as (Hgd & Hok & Hrest).
  destruct (set_delay_ok (control_value st bit) (idelay st) Hv Hok) as (H1 & H2 & H3).
  assert (forall d, delays_ok d -> implements (with_delay_ d f) (mk_inertial d (iunit st) (out st) (pending st))) as Hset.
  { intros d Hd. red. cbn [delay_ with_delay_ idelay round_ scale_ iunit cur_vec4_ out initial_ type_ pending list_]. tauto. }
  destruct port as [|[|[|[|port]]]]; [done| | | |done]; unfold recv_vec4, recv_delay_vec4; cbn [Nat.ltb Nat.leb]; rewrite Hval, Hgd;
    cbn [inertial_control] in Hst.
  - injection Hst as <-. apply returns_ret. split; [by apply Hset|done].
  - injection Hst as <-. apply returns_ret. split; [by apply Hset|done].
  - destruct (set_decay (control_value st bit) (idelay st)) as [d|] eqn:Hd; [|done]. injection Hst as <-.
    apply returns_ret. split; [by apply Hset, H3|done].
Qed.

Lemma delay_step_implements now i f st st' os :
  0 <= now -> (match i with Data bit | Control _ bit => wf4 bit | Run => True end) ->
  implements f st -> inertial_step now i st = Some (st', os) ->
  returns (delay_step real_0 now i f) (fun r => implements (fst r) st' /\ Forall2 same_output (snd r) os).
Proof.
  intros Hnow Hwf HR Hst. destruct i as [bit|port bit|]; cbn [inertial_step delay_step] in *.
  - destruct (Nat.eqb_spec (size_ bit) (length (out st))) as [Hs|]; [|done].
    eapply recv_vec4_implements; [done|by split|by rewrite length_bits|done..].
  - destruct (inertial_control port (control_value st bit) st) as [st1|] eqn:Hc; [|done]. injection Hst as <- <-.
    eapply returns_mono; [by eapply control_implements|]. intros r [? ->]. split; [done|constructor].
  - injection Hst as Hst. pose proof (run_run_implements now f st HR) as Hrun. rewrite Hst in Hrun. by apply returns_ret.
Qed.

Lemma fun_delay_make_implements width d units :
  (0 < width)%nat -> delays_ok d ->
  returns (fun_delay_make real_0 width d (fst (fst units)) (snd (fst units)) (snd units)) (fun r =>
    implements (fst r) (mk_inertial d (power_of_10 (fst (fst units) - snd (fst units)), power_of_10 (snd (fst units) - snd units))
      (replicate width BIT4_X) None) /\ snd r = [init_propagate_vec4 (vector4_fill width BIT4_X)]).
Proof.
  intros Hw Hd. unfold fun_delay_make. destruct (Nat.ltb_spec 0 width); [|lia].
  eapply (returns_bind _ _ (fun r => exists v8, r = (vector4_fill width BIT4_X, v8, [init_propagate_vec4 (vector4_fill width BIT4_X)]))).
  - eapply returns_bind; [by apply (vector8_of_vector4_spec _ 6 6)|]. intros v8 _. apply returns_ret. by exists v8.
  - intros r [v8 ->]. apply returns_ret. cbn [fst snd]. split; [|done].
    split_and!; try done; try apply Hd; try apply rep4_fill; cbn; rewrite length_replicate; done.
Qed.

End step_lemmas.

(** *** What a state can receive *)

(** Any value that reaches the functor, with the control ports and the runs. *)
Section kinds.

Context {real : Type} (real_0 : real) (real_eq : real -> real -> bool).
Implicit Types f : @vvp_fun_delay real.

Inductive any_input :=
  | In4 (bit : vvp_vector4_t)
  | In8 (bit : vvp_vector8_t)
  | InReal (bit : real)
  | InControl (port : nat) (bit : vvp_vector4_t)
  | InRun.

Definition any_step (now : Z) (i : any_input) f : option (@vvp_fun_delay real * list (@effect real)) :=
  match i with
  | In4 bit => recv_vec4 real_0 now 0 bit f
  | In8 bit => recv_vec8 real_0 now 0 bit f
  | InReal bit => recv_real real_eq now bit f
  | InControl port bit => recv_vec4 real_0 now port bit f
  | InRun => Some (run_run now f)
  end.

Fixpoint any_steps (tr : list (Z * any_input)) f : option (@vvp_fun_delay real * list (@effect real)) :=
  match tr with
  | [] => Some (f, [])
  | (now, i) :: tr =>
      '(f, o) ← any_step now i f;
      '(f, os) ← any_steps tr f;
      Some (f, o ++ os)
  end.

(** The inputs of a functor of kind [K]; without a decay delay there is no third
    control port. *)
Definition accepts (K : delay_type_t) (ignore : bool) (i : any_input) : Prop :=
  match i with
  | In4 _ => K = VEC4_DELAY
  | In8 bit => K = VEC8_DELAY /\ (0 < size8_ bit)%nat
  | InReal _ => K = REAL_DELAY
  | InControl port _ => (0 < port)%nat /\ (ignore = true -> port <> 3%nat)
  | InRun => True
  end.

Definition event_kind (e : @event_ real) : delay_type_t :=
  match run_run_ptr e with run_run_vec4_ => VEC4_DELAY | run_run_vec8_ => VEC8_DELAY | run_run_real_ => REAL_DELAY end.

Definition sends_kind (K : delay_type_t) (e : @effect real) : Prop :=
  match e with
  | send_vec4 _ => K = VEC4_DELAY
  | send_vec8 _ => K = VEC8_DELAY
  | send_real _ => K = REAL_DELAY
  | _ => True
  end.

Definition event_typed (K : delay_type_t) (e : @event_ real) : Prop :=
  event_kind e = K /\ (K = VEC8_DELAY -> (0 < size8_ (ptr_vec8 e))%nat).

(** The type is settled once a value has arrived, and everything that is kept
    for later is of that type. *)
Definition typed (K : delay_type_t) (ignore : bool) f : Prop :=
  ignore_decay_ (delay_ f) = ignore /\
  (initial_ f = false \/ list_ f <> [] -> type_ f = K) /\
  Forall (event_typed K) (list_ f) /\
  (K = VEC8_DELAY -> (0 < size8_ (cur_vec8_ f))%nat).

Definition typed_result (K : delay_type_t) (ignore : bool) (r : @vvp_fun_delay real * list (@effect real)) : Prop :=
  typed K ignore (fst r) /\ Forall (sends_kind K) (snd r).

Lemma clean_loop_suffix now d (l : list (@event_ real)) : exists k, clean_loop now d l = drop k l.
Proof.
  induction l as [|e l [k IH]]; [by exists 0%nat|]. cbn [clean_loop]. destruct (_ <=? _); [by exists 0%nat|]. by exists (S k).
Qed.

(** Cleaning keeps the type. *)
Lemma clean_typed now d same f K ig : typed K ig f -> type_ f = K ->
  returns (clean_pulse_events_if now d same f) (fun r => typed K ig (snd r) /\ type_ (snd r) = K).
Proof.
  intros (H1 & H2 & H3 & H4) Ht. unfold clean_pulse_events_if. destruct (list_ f) as [|e l] eqn:Hl.
  - apply returns_ret. cbn [snd]. split; [|done]. red. by rewrite Hl.
  - destruct (same e).
    + apply returns_ret. cbn [snd]. split; [|done]. red. by rewrite Hl.
    + unfold clean_pulse_events_. rewrite Hl. apply returns_ret. destruct (clean_loop_suffix now d (e :: l)) as [k Hk].
      split; [|done]. split_and!; try done. cbn [snd list_ with_list_]. rewrite Hk. by apply Forall_drop.
Qed.

(** The end of the handlers: a value sent at once or an event. *)
Lemma enqueue_typed K ig e d f : typed K ig f -> type_ f = K -> event_typed K e ->
  typed_result K ig (with_list_ (enqueue_ e (list_ f)) f, [schedule_generic d]).
Proof.
  intros (H1 & H2 & H3 & H4) Ht He. split; [|by repeat constructor]. split_and!; try done.
  cbn. unfold enqueue_. apply Forall_app. split; [done|]. by constructor; [|constructor].
Qed.

Lemma recv_vec4_typed now bit f ig : typed VEC4_DELAY ig f -> returns (recv_vec4 real_0 now 0 bit f) (typed_result VEC4_DELAY ig).
Proof.
  intros HT. unfold recv_vec4. cbn [Nat.ltb Nat.leb].
  apply (returns_bind _ _ (fun r => typed VEC4_DELAY ig (snd r) /\ type_ (snd r) = VEC4_DELAY)).
  { destruct HT as (H1 & H2 & H3 & H4). unfold use_delay_vec4. destruct (initial_ f) eqn:Hi.
    - eapply returns_bind; [apply empty_vec8_of_vec4|]. intros v8 _. by apply returns_ret.
    - rewrite bool_decide_true by auto. apply returns_assert; [done|]. apply returns_ret. split; [|by auto].
      split_and!; auto. }
  intros [u g] [Hg Hty]. eapply returns_bind; [by apply clean_typed|]. intros [skip g'] [Hg' Hty']. cbn [snd] in *.
  destruct skip; [by apply returns_ret|]. destruct (no_wait u g'); apply returns_ret; [|by apply enqueue_typed].
  destruct Hg' as (H1 & H2 & H3 & H4). split; [|by constructor]. by split_and!.
Qed.

Lemma scan_delay8_returns d (from to : nat -> option vvp_scalar_t) n :
  (forall i, (i < Nat.max 1 n)%nat -> is_Some (from i) /\ is_Some (to i)) -> returns (scan_delay8 d from to n) (fun _ => True).
Proof.
  intros H. unfold scan_delay8. destruct (H 0%nat ltac:(lia)) as [[a ->] [b ->]]. cbn [mbind option_bind].
  eapply returns_mono; [apply (returns_for (fun _ _ => True)); [done|]|done].
  intros k acc Hk _. destruct (H k ltac:(lia)) as [[x ->] [y ->]]. by apply returns_ret.
Qed.

Lemma value8_some v i : (i < size8_ v)%nat -> is_Some (value8 v i).
Proof. intros H. rewrite value8_spec by done. by eexists. Qed.

Lemma use_delay_vec8_typed now bit f ig : typed VEC8_DELAY ig f -> (0 < size8_ bit)%nat ->
  returns (use_delay_vec8 now bit f) (fun r => typed VEC8_DELAY ig (snd r) /\ type_ (snd r) = VEC8_DELAY).
Proof.
  intros (H1 & H2 & H3 & H4) Hb. specialize (H4 eq_refl). unfold use_delay_vec8. destruct (initial_ f) eqn:Hi.
  - eapply returns_bind; [apply scan_delay8_returns|intros u _; by apply returns_ret].
    intros i Hil. cbn. split; apply value8_some; [done|lia].
  - rewrite bool_decide_true by auto. apply returns_assert; [done|].
    set (use := match due_now now f with Some e => ptr_vec8 e | None => cur_vec8_ f end).
    assert (0 < size8_ use)%nat as Huse.
    { unfold use, due_now. destruct (list_ f) as [|e l]; [done|]. destruct (_ =? _); [|done].
      apply Forall_cons in H3 as [[_ He] _]. by apply He. }
    eapply returns_bind; [apply scan_delay8_returns|].
    + intros i Hil. split; apply value8_some; destruct (Nat.ltb_spec (size8_ bit) (size8_ use)); lia.
    + intros u _. apply returns_ret. split; [|by auto]. split_and!; auto.
Qed.

Lemma recv_vec8_typed now bit f ig : typed VEC8_DELAY ig f -> (0 < size8_ bit)%nat ->
  returns (recv_vec8 real_0 now 0 bit f) (typed_result VEC8_DELAY ig).
Proof.
  intros HT Hb. unfold recv_vec8. apply returns_assert; [done|].
  eapply returns_bind; [by apply use_delay_vec8_typed|].
  intros [u g] [Hg Hty]. eapply returns_bind; [by apply clean_typed|]. intros [skip g'] [Hg' Hty']. cbn [snd] in *.
  destruct skip; [by apply returns_ret|]. destruct (no_wait u g'); apply returns_ret; [|by apply enqueue_typed].
  destruct Hg' as (H1 & H2 & H3 & H4). split; [|by constructor]. by split_and!.
Qed.

Lemma recv_real_typed now bit f ig : typed REAL_DELAY ig f -> returns (recv_real real_eq now bit f) (typed_result REAL_DELAY ig).
Proof.
  intros HT. unfold recv_real.
  apply (returns_bind _ _ (fun g => typed REAL_DELAY ig g /\ type_ g = REAL_DELAY)).
  { destruct HT as (H1 & H2 & H3 & H4). unfold type_real. destruct (initial_ f) eqn:Hi.
    - eapply returns_bind; [apply empty_vec8_of_vec4|]. intros v8 _. by apply returns_ret.
    - rewrite bool_decide_true by auto. apply returns_assert; [done|]. apply returns_ret. split; [|by auto].
      split_and!; auto. }
  intros g [Hg Hty]. eapply returns_bind; [by apply clean_typed|]. intros [skip g'] [Hg' Hty']. cbn [snd] in *.
  destruct skip; [by apply returns_ret|]. destruct (real_eq _ _); [by apply returns_ret|].
  destruct (no_wait _ g'); apply returns_ret; [|by apply enqueue_typed].
  destruct Hg' as (H1 & H2 & H3 & H4). split; [|by constructor]. by split_and!.
Qed.

Lemma set_keeps_ignore val d : ignore_decay_ (set_rise val d) = ignore_decay_ d /\ ignore_decay_ (set_fall val d) = ignore_decay_ d.
Proof.
  unfold set_rise, set_fall, calculate_min_delay_. destruct d as [r fl dc m ig]; cbn.
  split; destruct (val <? m); cbn; by destruct ig.
Qed.

Lemma set_decay_returns val d : ignore_decay_ d = false -> returns (set_decay val d) (fun d' => ignore_decay_ d' = false).
Proof.
  intros Hi. unfold set_decay. rewrite Hi. apply returns_assert; [done|]. apply returns_ret.
  unfold calculate_min_delay_. destruct d as [r fl dc m ig]; cbn in *. subst ig. by destruct (val <? m).
Qed.

Lemma control_typed now port bit f K ig : typed K ig f -> (0 < port)%nat -> (ig = true -> port <> 3%nat) ->
  returns (recv_vec4 real_0 now port bit f) (typed_result K ig).
Proof.
  intros HT Hp H3. assert (forall d, ignore_decay_ d = ig -> typed_result K ig (with_delay_ d f, [])) as Hset.
  { intros d Hd. destruct HT as (H1 & H2 & H4 & H5). split; [|constructor]. by split_and!. }
  unfold recv_vec4. destruct (Nat.ltb_spec 0 port); [|lia]. unfold recv_delay_vec4.
  pose proof (proj1 HT) as Hig.
  destruct port as [|[|[|[|port]]]]; [lia| | | |].
  - apply returns_ret, Hset. by rewrite (proj1 (set_keeps_ignore _ _)).
  - apply returns_ret, Hset. by rewrite (proj2 (set_keeps_ignore _ _)).
  - destruct ig; [by specialize (H3 eq_refl)|].
    destruct (set_decay_returns (w_mul (w_mul (default 0 (fst (vector4_to_value 64 false bit false true))) (round_ f)) (scale_ f)) (delay_ f) Hig)
      as (d & -> & Hd). apply returns_ret. by apply Hset.
  - apply returns_ret. split; [done|constructor].
Qed.

Lemma run_run_typed now f K ig : typed K ig f -> typed_result K ig (run_run now f).
Proof.
  intros HT. pose proof HT as (H1 & H2 & H3 & H4). unfold run_run. destruct (list_ f) as [|e l] eqn:Hl; [by split|].
  destruct (now <? sim_time e); [by split|]. cbn [dequeue_]. unfold run_event.
  apply Forall_cons in H3 as [[Hk Hsz] H3]. specialize (H2 ltac:(by right)). unfold event_kind in Hk.
  destruct (run_run_ptr e); cbn; (split; [split_and!; cbn; auto|by constructor; [|constructor]]).
Qed.

End kinds.

(** *** Values of the specification *)

(** The time at which the last input is on the output. *)
Definition change_time (now : Z) (st : inertial) : Z := match pending st with Some (t, _) => t | None => now end.

Lemma largest_delay_same d l : largest_delay d l l = 0.
Proof. unfold largest_delay. induction l as [|a l IH]; cbn [zip_with foldr]; [done|]. rewrite IH. by destruct a. Qed.

(** ** Theorems *)

(** C18: a functor made for vectors of [width] bits implements an inertial delay:
    whatever it receives, on the data port and on the control ports, it sends and
    schedules what the specification says and ends in a state that implements
    the specification's - as long as the specification has a step, that is, as a
    change that is due has been run before the next value arrives. *)
Theorem inertial_refinement {real} (real_0 : real) width d units tr st os :
  (0 < width)%nat -> delays_ok d ->
  Forall (fun ni => 0 <= fst ni /\ match snd ni with Data bit | Control _ bit => wf4 bit | Run => True end) tr ->
  inertial_steps tr (mk_inertial d (power_of_10 (fst (fst units) - snd (fst units)), power_of_10 (snd (fst units) - snd units))
    (replicate width BIT4_X) None) = Some (st, os) ->
  returns ('(f, _) ← fun_delay_make real_0 width d (fst (fst units)) (snd (fst units)) (snd units); delay_steps real_0 tr f)
    (fun r => implements (fst r) st /\ Forall2 same_output (snd r) os).
Proof.
  intros Hw Hd Htr Hst. eapply returns_bind; [by apply fun_delay_make_implements|]. intros [f e] [HR _]. cbn [fst] in HR.
  clear Hw Hd. revert f HR st os Hst. generalize (mk_inertial d (power_of_10 (fst (fst units) - snd (fst units)), power_of_10 (snd (fst units) - snd units)) (replicate width BIT4_X) None) as st0.
  induction Htr as [|[now i] tr [Hnow Hwf] _ IH]; intros st0 f HR st os Hst; cbn [inertial_steps delay_steps] in *.
  - injection Hst as <- <-. by apply returns_ret.
  - destruct (inertial_step now i st0) as [[st1 o]|] eqn:H1; [|done]. cbn [mbind option_bind] in Hst.
    destruct (inertial_steps tr st1) as [[st2 os']|] eqn:H2; [|done]. injection Hst as <- <-.
    eapply returns_bind; [by eapply delay_step_implements|]. intros [f1 o1] [HR1 Ho1]. cbn [fst snd] in *.
    eapply returns_bind; [by eapply IH|]. intros [f2 o2] [HR2 Ho2]. apply returns_ret. split; [done|]. by apply Forall2_app.
Qed.

Lemma inertial_refinement_witness :
  let v n := vector4_fill 2 n in
  returns ('(f, _) ← fun_delay_make 0 2 (delay_make3 3 5 4) 0 0 0;
    delay_steps 0 [(10, Data (v BIT4_1)); (12, Control 2 (mk_vector4 4 [2] [0])); (13, Run); (20, Data (v BIT4_0)); (21, Data (v BIT4_1))] f)
    (fun r => rep4 (cur_vec4_ (fst r)) [BIT4_1; BIT4_1] /\
       Forall2 same_output (snd r) [Wake 3; Sent [BIT4_1; BIT4_1]; Wake 2; Sent [BIT4_1; BIT4_1]]).
Proof.
  intros v. assert (forall n, wf4 (v n)) as Hv by (intros n; apply fill_wf).
  eapply returns_mono; [apply (inertial_refinement 0 2 (delay_make3 3 5 4) (0, 0, 0)
    [(10, Data (v BIT4_1)); (12, Control 2 (mk_vector4 4 [2] [0])); (13, Run); (20, Data (v BIT4_0)); (21, Data (v BIT4_1))]
    (mk_inertial (mk_delay 3 2 4 2 false) (1, 1) [BIT4_1; BIT4_1] None) [Wake 3; Sent [BIT4_1; BIT4_1]; Wake 2; Sent [BIT4_1; BIT4_1]])|].
  - lia.
  - by repeat split.
  - repeat (constructor; [split; [cbn; lia|first [apply Hv|exact I|apply wf4_short; [simpl; lia|by unfold word_ok..]]]|]). constructor.
  - by vm_compute.
  - intros r [HR Hos]. split; [apply HR|done].
Defined.

(** C19: a value that arrives when nothing is overdue reaches the output: it is
    sent at once or at a time [t] that is scheduled, and whenever the functor is
    next run at [t] or later, it shows the value and has nothing left to come.
    A pulse is filtered: if the old value returns before [t] the functor sends
    that and never the other. *)
Theorem delay_settles {real} (real_0 : real) now bit (f : @vvp_fun_delay real) st st' os :
  implements f st -> wf4 bit -> size_ bit = length (out st) -> 0 <= now ->
  inertial_recv now (bits bit) st = Some (st', os) ->
  let t := change_time now st' in
  exists f' eff, recv_vec4 real_0 now 0 bit f = Some (f', eff) /\ Forall2 same_output eff os /\
    (forall t', t <= t' ->
       rep4 (cur_vec4_ (fst (run_run t' f'))) (bits bit) /\ list_ (fst (run_run t' f')) = []) /\
    (forall t' back, pending st = None -> rep4 back (out st) -> now <= t' < t ->
       returns (recv_vec4 real_0 t' 0 back f') (fun r =>
         rep4 (cur_vec4_ (fst r)) (out st) /\ list_ (fst r) = [] /\ Forall2 same_output (snd r) [Sent (out st)])).
Proof.
  intros HR Hwf Hs Hnow Hst t.
  destruct (recv_vec4_implements real_0 now bit f st (bits bit) st' os HR ltac:(by split) ltac:(by rewrite length_bits) Hnow Hst)
    as ([f' eff] & Hrecv & HR' & Heff). cbn [fst snd] in *.
  assert ((exists t0, pending st' = Some (t0, bits bit) /\ now < t0 < 2 ^ 64 /\
             (pending st = None -> out st' = out st)) \/ pending st' = None /\ out st' = bits bit) as Hcases.
  { revert Hst. unfold inertial_recv, overdue, pending_time. cbv zeta.
    set (d := largest_delay (idelay st) (out st) (bits bit)). assert (0 <= d) by apply largest_delay_nonneg.
    destruct (_ || _) eqn:Hg; [done|]. apply orb_false_iff in Hg as [Hg1 Hg2]. apply Z.leb_gt in Hg2.
    case_bool_decide as Hsame.
    - intros [= <- <-]. destruct (pending st) as [[t1 b1]|]; [|done]. injection Hsame as ->. apply Z.leb_gt in Hg1.
      left. exists t1. split_and!; [done|lia|lia|done].
    - destruct (Z.eqb_spec d 0); intros [= <- <-]; [by right|]. left. exists (now + d). cbn. split_and!; [done|lia|lia|done]. }
  exists f', eff. split_and!; [done|done| |].
  - intros t' Ht. destruct (run_run_implements t' f' st' HR') as [(_ & _ & _ & Hrep & _ & _ & Hp) _].
    unfold inertial_run, t, change_time in *. destruct Hcases as [(t0 & Hpend & Ht0 & _)|[Hpend Ho]]; rewrite Hpend in *; cbn in *.
    + rewrite (proj2 (Z.leb_le t0 t')) in Hrep, Hp by done. done.
    + rewrite Ho in Hrep. by rewrite Hpend in Hp.
  - intros t' back Hnone Hback Ht. unfold t, change_time in Ht. destruct Hcases as [(t0 & Hpend & Ht0 & Hout)|[Hpend Ho]]; rewrite Hpend in *; [|lia].
    specialize (Hout Hnone). rewrite <- Hout in *.
    eapply returns_mono; [eapply (recv_vec4_implements real_0 t' back f' st' (out st') (mk_inertial (idelay st') (iunit st') (out st') None) [Sent (out st')]);
      [done..|lia|]|].
    + unfold inertial_recv, overdue, pending_time. cbv zeta. rewrite Hpend, largest_delay_same.
      destruct (Z.leb_spec t0 t'); [lia|]. destruct (Z.leb_spec (2 ^ 64) (t' `max` t0 + 0)); [lia|]. cbn [orb].
      rewrite bool_decide_false; [done|]. intros [= Heq].
      (* a change to the value of the output needs no delay *)
      rewrite Heq in Hst. revert Hst. unfold inertial_recv, overdue, pending_time. cbv zeta. rewrite Hnone, Hout, largest_delay_same.
      destruct (_ || _); [done|]. rewrite bool_decide_false by done. cbn. intros [= <- _]. done.
    + intros r [(_ & _ & _ & Hrep & _ & _ & Hp) Hs']. done.
Qed.


(** The functor after its first value has been run. *)
Definition settled_functor : @vvp_fun_delay Z :=
  mk_fun_delay (delay_make3 3 5 4) VEC4_DELAY false (vector4_fill 2 BIT4_1) empty_vec8 0 1 1 [].

Definition settled_state : inertial := mk_inertial (delay_make3 3 5 4) (1, 1) [BIT4_1; BIT4_1] None.

Lemma settled_implements : implements settled_functor settled_state.
Proof. split_and!; try done; cbn; try lia. apply (rep4_fill 2). Qed.

Lemma delay_settles_witness :
  let low := vector4_fill 2 BIT4_0 in
  let high := vector4_fill 2 BIT4_1 in
  exists f' eff, recv_vec4 0 20 0 low settled_functor = Some (f', eff) /\ Forall2 same_output eff [Wake 5] /\
    rep4 (cur_vec4_ (fst (run_run 25 f'))) [BIT4_0; BIT4_0] /\
    returns (recv_vec4 0 22 0 high f') (fun r => Forall2 same_output (snd r) [Sent [BIT4_1; BIT4_1]]).
Proof.
  intros low high.
  destruct (delay_settles 0 20 low settled_functor settled_state
    (mk_inertial (delay_make3 3 5 4) (1, 1) [BIT4_1; BIT4_1] (Some (25, [BIT4_0; BIT4_0]))) [Wake 5]
    settled_implements (fill_wf 2 BIT4_0) eq_refl ltac:(lia) ltac:(by vm_compute))
    as (f' & eff & Hrecv & Heff & Hrun & Hpulse).
  exists f', eff. split_and!; [done|done|by apply (Hrun 25)|].
  eapply returns_mono; [apply (Hpulse 22 high eq_refl)|by intros r (_ & _ & H)]; [apply (rep4_fill 2)|].
  change (20 <= 22 < 25). lia.
Defined.

(** C20: a functor that receives values of one kind never runs into an [assert],
    is of that kind once a value has arrived, keeps only events of that kind and
    sends values of that kind only. *)
Theorem delay_typed {real} (real_0 : real) (real_eq : real -> real -> bool) K ignore tr (f : @vvp_fun_delay real) :
  typed K ignore f -> Forall (fun ni => accepts K ignore (snd ni)) tr ->
  returns (any_steps real_0 real_eq tr f) (typed_result K ignore).
Proof.
  intros HT Htr. revert f HT. induction Htr as [|[now i] tr Hi _ IH]; intros f HT; cbn [any_steps].
  - apply returns_ret. split; [done|constructor].
  - apply (returns_bind _ _ (typed_result K ignore)).
    + destruct i; cbn [any_step accepts snd] in *.
      * subst K. by apply recv_vec4_typed.
      * destruct Hi as [-> Hb]. by apply recv_vec8_typed.
      * subst K. by apply recv_real_typed.
      * destruct Hi. by apply control_typed.
      * by apply returns_ret, run_run_typed.
    + intros [f1 o1] [H1 Ho1]. eapply returns_bind; [by apply IH|]. intros [f2 o2] [H2 Ho2].
      apply returns_ret. split; [done|]. by apply Forall_app.
Qed.

Lemma delay_typed_witness :
  returns ('(f, _) ← fun_delay_make 0 0 (delay_make2 3 5) 0 0 0;
    any_steps 0 Z.eqb [(10, InReal 7); (11, InControl 1 (vector4_fill 4 BIT4_1)); (13, InRun); (20, InReal 9)] f)
    (typed_result REAL_DELAY false).
Proof.
  eapply (returns_bind _ _ (fun r => typed REAL_DELAY false (fst r))).
  - eexists. split; [by vm_compute|]. split_and!; try done; try constructor. by intros [|].
  - intros [f o] Hf. apply delay_typed; [done|]. repeat (constructor; [done || (split; [lia|done])|]). constructor.
Defined.

(** *** The delays *)

Inductive delay_op := SetRise (val : Z) | SetFall (val : Z) | SetDecay (val : Z) | SetIgnore.

Definition delay_op_step (o : delay_op) (d : vvp_delay_t) : option vvp_delay_t :=
  match o with
  | SetRise val => Some (set_rise val d)
  | SetFall val => Some (set_fall val d)
  | SetDecay val => set_decay val d
  | SetIgnore => Some (set_ignore_decay d)
  end.

Fixpoint delay_ops (os : list delay_op) (d : vvp_delay_t) : option vvp_delay_t :=
  match os with
  | [] => Some d
  | o :: os => d ← delay_op_step o d; delay_ops os d
  end.

(** The minimum is kept, and is what the ignored decay delay is set to. *)
Definition delay_consistent (d : vvp_delay_t) : Prop :=
  min_delay_ d = Z.min (Z.min (rise_ d) (fall_ d)) (decay_ d) /\
  (ignore_decay_ d = true -> decay_ d = Z.min (rise_ d) (fall_ d)).

Lemma calculate_consistent d : delay_consistent (calculate_min_delay_ d).
Proof.
  unfold delay_consistent, calculate_min_delay_. destruct d as [r fl dc m ig]. cbn.
  destruct (Z.ltb_spec fl r), ig; cbn; try destruct (Z.ltb_spec dc fl); try destruct (Z.ltb_spec dc r); cbn; split; try done; lia.
Qed.

Lemma delay_op_consistent o d : delay_consistent d ->
  match delay_op_step o d with Some d' => delay_consistent d' | None => exists val, o = SetDecay val /\ ignore_decay_ d = true end.
Proof.
  intros [H1 H2]. destruct o as [val|val|val|]; cbn [delay_op_step]; [| | |apply calculate_consistent];
    unfold set_rise, set_fall, set_decay; destruct d as [r fl dc m ig]; cbn [rise_ fall_ decay_ min_delay_ ignore_decay_] in *.
  3: destruct ig; cbn [negb assert_ mbind option_bind]; [by exists val|].
  all: destruct (Z.ltb_spec val m); [|apply calculate_consistent].
  all: unfold delay_consistent; cbn; try destruct ig; split; try done; try specialize (H2 eq_refl); lia.
Qed.

Lemma delay_ops_consistent os d : delay_consistent d ->
  match delay_ops os d with
  | Some d' => delay_consistent d'
  | None => (ignore_decay_ d = true \/ SetIgnore ∈ os) /\ exists val, SetDecay val ∈ os
  end.
Proof.
  revert d. induction os as [|o os IH]; intros d Hd; cbn [delay_ops]; [done|].
  pose proof (delay_op_consistent o d Hd) as Ho. destruct (delay_op_step o d) as [d1|] eqn:E; cbn [mbind option_bind].
  - specialize (IH d1 Ho). destruct (delay_ops os d1); [done|]. destruct IH as [Hig [val Hval]].
    split; [|exists val; by right]. destruct Hig as [Hig|Hig]; [|right; by right].
    destruct o as [v|v|v|]; cbn [delay_op_step] in E; [| | |right; left].
    + injection E as <-. left. by rewrite <- (proj1 (set_keeps_ignore v d)).
    + injection E as <-. left. by rewrite <- (proj2 (set_keeps_ignore v d)).
    + left. destruct (ignore_decay_ d) eqn:Hi; [done|].
      by rewrite (returns_eq _ _ _ (set_decay_returns v d Hi) E) in Hig.
  - destruct Ho as (val & -> & Hig). split; [by left|]. exists val. left.
Qed.

Lemma get_delay_cases d from to : delay_consistent d ->
  get_delay d from to =
    (if decide (from = to) then 0
     else match to with BIT4_0 => fall_ d | BIT4_1 => rise_ d | BIT4_Z => decay_ d | BIT4_X => min_delay_ d end) /\
  (from <> to -> min_delay_ d <= get_delay d from to).
Proof. intros [Hm _]. split; [by destruct from, to|]. destruct from, to; cbn [get_delay]; try done; lia. Qed.

(** The delays stay consistent however they are set: the minimum is the
    least of the three, only setting an ignored decay delay fails, and the delay
    of a transition is zero for no change, the delay of the value it leads to
    otherwise, and never less than the minimum. *)
Theorem delay_invariant os rise fall decay d0 :
  d0 ∈ [delay_make2 rise fall; delay_make3 rise fall decay] ->
  match delay_ops os d0 with
  | Some d =>
      delay_consistent d /\
      forall from to, get_delay d from to =
        (if decide (from = to) then 0
         else match to with BIT4_0 => fall_ d | BIT4_1 => rise_ d | BIT4_Z => decay_ d | BIT4_X => get_min_delay d end) /\
        (from <> to -> get_min_delay d <= get_delay d from to)
  | None => SetIgnore ∈ os /\ exists val, SetDecay val ∈ os
  end.
Proof.
  intros Hd0. assert (delay_consistent d0 /\ ignore_decay_ d0 = false) as [Hc Hi].
  { assert (d0 = delay_make2 rise fall \/ d0 = delay_make3 rise fall decay) as [->| ->] by set_solver.
    - unfold delay_make2. cbv zeta. split; [|done]. split; [|done]. cbn. destruct (Z.ltb_spec fall rise); lia.
    - unfold delay_make3. split; [apply calculate_consistent|done]. }
  pose proof (delay_ops_consistent os d0 Hc) as Hos. destruct (delay_ops os d0) as [d|].
  - split; [done|]. intros from to. by apply get_delay_cases.
  - rewrite Hi in Hos. destruct Hos as [[?|?] ?]; done.
Qed.

Lemma delay_invariant_witness :
  match delay_ops [SetIgnore; SetRise 2; SetFall 9] (delay_make2 7 5) with
  | Some d => get_min_delay d = 2 /\ decay_ d = 2 /\ delay_consistent d
  | None => False
  end.
Proof.
  assert (H := delay_invariant [SetIgnore; SetRise 2; SetFall 9] 7 5 0 (delay_make2 7 5) ltac:(left)).
  revert H. change (delay_ops [SetIgnore; SetRise 2; SetFall 9] (delay_make2 7 5)) with (Some (mk_delay 2 9 2 2 true)).
  intros [H _]. by split_and!.
Defined.

(** *** Changes that are overdue

    The comment in [clean_pulse_events_] says "the most recent event"; the code
    looks at [list_->next], the oldest one.  With one
    event in the list there is no difference; a value that arrives before an
    event that is due has been run makes a second one. *)

Definition overdue_functor : @vvp_fun_delay Z :=
  mk_fun_delay (delay_make3 2 5 3) VEC4_DELAY false (vector4_fill 1 BIT4_0) empty_vec8 0 1 1 [].

Definition v1 (b : vvp_bit4_t) : vvp_vector4_t := vector4_fill 1 b.

(** The input returns to 1 while a change to 1 is overdue: the value is taken
    for the one that comes and dropped, and the output ends at 0. *)
Example overdue_value_dropped :
  match delay_steps 0
    [(8, Data (v1 BIT4_1)); (10, Data (v1 BIT4_0)); (10, Data (v1 BIT4_1)); (10, Run); (15, Run); (100, Run)] overdue_functor with
  | Some (f, _) => value (cur_vec4_ f) 0 = BIT4_0 /\ list_ f = []
  | None => False
  end.
Proof. by vm_compute. Qed.

(** Two changes behind an overdue one are not in order of time: the one that is
    due first is behind the other, its run does nothing, and it stays in the
    list when the last run that was scheduled is over. *)
Example overdue_event_stuck :
  match delay_steps 0
    [(8, Data (v1 BIT4_1)); (10, Data (v1 BIT4_0)); (10, Data (v1 BIT4_Z)); (10, Run); (13, Run); (15, Run)] overdue_functor with
  | Some (f, _) => value (cur_vec4_ f) 0 = BIT4_0 /\ map sim_time (list_ f) = [13]
  | None => False
  end.
Proof. by vm_compute. Qed.
