(* ===== verification/Modpath.v ===== *)
(** * Module paths ([vvp/delay.h], [vvp/delay.cc])

    The output of a module path is delayed from the time its input changed.
    [vvp_fun_modpath_src] watches an input and its condition and remembers when
    it last changed; [vvp_fun_modpath] selects among the sources in its lists
    those that changed last and delays the output by the least of their delays
    for the edge.  The sources are objects linked by [next_]; the file models
    them on a store, and shows which sources are selected and which delay
    results. *)

From Stdlib Require Import ZArith Lia Bool.
From stdpp Require Import base numbers list gmap.
From S2P Require Import Prelude Bit4 Words Vec4 VecRep.

Open Scope Z_scope.

(** ** Definitions *)

Inductive delay_edge_t :=
  | DELAY_EDGE_01 | DELAY_EDGE_10 | DELAY_EDGE_0z | DELAY_EDGE_z1 | DELAY_EDGE_1z | DELAY_EDGE_z0
  | DELAY_EDGE_0x | DELAY_EDGE_x1 | DELAY_EDGE_1x | DELAY_EDGE_x0 | DELAY_EDGE_xz | DELAY_EDGE_zx.

#[export] Instance delay_edge_eq_dec : EqDecision delay_edge_t.
Proof. solve_decision. Defined.

Definition delay_edge_int (e : delay_edge_t) : nat :=
  match e with
  | DELAY_EDGE_01 => 0 | DELAY_EDGE_10 => 1 | DELAY_EDGE_0z => 2 | DELAY_EDGE_z1 => 3
  | DELAY_EDGE_1z => 4 | DELAY_EDGE_z0 => 5 | DELAY_EDGE_0x => 6 | DELAY_EDGE_x1 => 7
  | DELAY_EDGE_1x => 8 | DELAY_EDGE_x0 => 9 | DELAY_EDGE_xz => 10 | DELAY_EDGE_zx => 11
  end%nat.

(** *** The sources *)

(** The class of a source: [vvp_fun_modpath_src], or [vvp_fun_modpath_edge] with
    its fields. *)
Inductive src_class :=
  | modpath_src
  | modpath_edge (old_value_ : vvp_bit4_t) (posedge_ negedge_ : bool).

Abbreviation src_id := nat.

Record vvp_fun_modpath_src := mk_src {
  delay12_ : list Z;
  next_ : option src_id;
  wake_time_ : Z;
  condition_flag_ : bool;
  class_ : src_class
}.

Definition modpath_src_make (del : list Z) : vvp_fun_modpath_src := mk_src del None 0 true modpath_src.
Definition modpath_edge_make (del : list Z) (pos neg : bool) : vvp_fun_modpath_src :=
  mk_src del None 0 true (modpath_edge BIT4_X pos neg).

Definition get_delay12 (s : vvp_fun_modpath_src) : list Z := delay12_ s.
Definition put_delay12 (val : list Z) (s : vvp_fun_modpath_src) : vvp_fun_modpath_src :=
  mk_src val (next_ s) (wake_time_ s) (condition_flag_ s) (class_ s).

(** The virtual [test_vec4]: its answer and the class afterwards. *)
Definition test_vec4 (bit : vvp_vector4_t) (c : src_class) : bool * src_class :=
  match c with
  | modpath_src => (true, c)
  | modpath_edge tmp posedge negedge =>
      let old_value := value bit 0 in
      let c := modpath_edge old_value posedge negedge in
      let edge_flag := edge tmp old_value in
      if 0 <? edge_flag then (posedge, c)
      else if edge_flag <? 0 then (negedge, c)
      else (false, c)
  end.

Definition src_recv_vec4 (now : Z) (port : nat) (bit : vvp_vector4_t) (s : vvp_fun_modpath_src) : vvp_fun_modpath_src :=
  match port with
  | 0%nat =>
      let '(hit, c) := test_vec4 bit (class_ s) in
      mk_src (delay12_ s) (next_ s) (if hit : bool then now else wake_time_ s) (condition_flag_ s) c
  | 1%nat => mk_src (delay12_ s) (next_ s) (wake_time_ s) (bit4_eqb (value bit 0) BIT4_1) (class_ s)
  | _ => s
  end.

(** *** The functor *)

Record vvp_fun_modpath := mk_modpath {
  cur_vec4_ : vvp_vector4_t;
  src_list_ : option src_id;
  ifnone_list_ : option src_id
}.

Abbreviation sources := (gmap src_id vvp_fun_modpath_src).

(** The constructor; it also schedules the propagation of its unknown value. *)
Definition modpath_make (width : nat) : vvp_fun_modpath := mk_modpath (vector4_fill width BIT4_X) None None.

Definition set_next (n : option src_id) (s : vvp_fun_modpath_src) : vvp_fun_modpath_src :=
  mk_src (delay12_ s) n (wake_time_ s) (condition_flag_ s) (class_ s).

Definition add_modpath_src (that : src_id) (ifnone : bool) (m : vvp_fun_modpath) (st : sources) :
    option (vvp_fun_modpath * sources) :=
  s ← st !! that;
  assert_ (bool_decide (next_ s = None));;
  Some (if ifnone
        then (mk_modpath (cur_vec4_ m) (src_list_ m) (Some that), <[that := set_next (ifnone_list_ m) s]> st)
        else (mk_modpath (cur_vec4_ m) (Some that) (ifnone_list_ m), <[that := set_next (src_list_ m) s]> st)).

(** The table of [delay_from_edge], indexed by the values of the enumeration. *)
Definition edge_table : list (list delay_edge_t) :=
  [[DELAY_EDGE_01; DELAY_EDGE_01; DELAY_EDGE_0z; DELAY_EDGE_0x];
   [DELAY_EDGE_10; DELAY_EDGE_10; DELAY_EDGE_1z; DELAY_EDGE_1x];
   [DELAY_EDGE_z0; DELAY_EDGE_z1; DELAY_EDGE_z0; DELAY_EDGE_zx];
   [DELAY_EDGE_x0; DELAY_EDGE_x1; DELAY_EDGE_xz; DELAY_EDGE_x0]].

Definition table_edge (a b : vvp_bit4_t) : delay_edge_t :=
  nth (Z.to_nat (bit4_int b)) (nth (Z.to_nat (bit4_int a)) edge_table []) DELAY_EDGE_01.

Definition delay_from_edge (a b : vvp_bit4_t) (array : list Z) : Z := nth (delay_edge_int (table_edge a b)) array 0.

(** [for (cur = list; cur; cur = cur->next_) body] *)
Fixpoint for_srcs {S} (fuel : nat) (st : sources) (cur : option src_id)
    (body : src_id -> vvp_fun_modpath_src -> S -> S) (s : S) : option S :=
  match cur with
  | None => Some s
  | Some i =>
      match fuel with
      | O => None
      | Datatypes.S fuel => x ← st !! i; for_srcs fuel st (next_ x) body (body i x s)
      end
  end.

(** The bodies of the two loops that collect candidates: the list and the wake
    time of its members. *)
Definition src_candidate (i : src_id) (cur : vvp_fun_modpath_src) (s : list src_id * Z) : list src_id * Z :=
  let '(candidate_list, candidate_wake_time) := s in
  if negb (condition_flag_ cur) then s
  else match candidate_list with
  | [] => ([i], wake_time_ cur)
  | _ =>
      if wake_time_ cur =? candidate_wake_time then (candidate_list ++ [i], candidate_wake_time)
      else if candidate_wake_time <? wake_time_ cur then ([i], wake_time_ cur)
      else s
  end.

Definition ifnone_candidate (candidate_wake_time : Z) (i : src_id) (cur : vvp_fun_modpath_src) (s : list src_id * Z) :
    list src_id * Z :=
  let '(candidate_list, ifnone_wake_time) := s in
  match candidate_list with
  | [] => ([i], wake_time_ cur)
  | _ =>
      if (wake_time_ cur =? ifnone_wake_time) && (candidate_wake_time <? ifnone_wake_time)
      then (candidate_list ++ [i], ifnone_wake_time)
      else if ifnone_wake_time <? wake_time_ cur then ([i], wake_time_ cur)
      else s
  end.

Definition candidates (fuel : nat) (m : vvp_fun_modpath) (st : sources) : option (list src_id) :=
  '(candidate_list, candidate_wake_time) ← for_srcs fuel st (src_list_ m) src_candidate ([], 0);
  fst <$> for_srcs fuel st (ifnone_list_ m) (ifnone_candidate candidate_wake_time) (candidate_list, candidate_wake_time).

(** The time from now to a delay of a source. *)
Definition out_time (now : Z) (src : vvp_fun_modpath_src) (idx : nat) : Z :=
  let tmp := w_add (wake_time_ src) (nth idx (delay12_ src) 0) in
  if tmp <=? now then 0 else w_sub tmp now.

(** [out_at]: the first candidate fills it, the others lower it. *)
Definition out_at_make (now : Z) (src : vvp_fun_modpath_src) : list Z := map (out_time now src) (seq 0 12).

Definition out_at_min (now : Z) (src : vvp_fun_modpath_src) (out_at : list Z) : list Z :=
  loop_ 0 12 (fun idx out_at =>
    let tmp := out_time now src idx in if tmp <? nth idx out_at 0 then <[idx := tmp]> out_at else out_at) out_at.

Fixpoint out_at_rest (now : Z) (st : sources) (l : list src_id) (out_at : list Z) : option (list Z) :=
  match l with
  | [] => Some out_at
  | i :: l => src ← st !! i; out_at_rest now st l (out_at_min now src out_at)
  end.

Inductive modpath_effect := schedule_generic (delay : Z) | send_vec4 (v : vvp_vector4_t).

(** The last loop: the other bits that change must need the same delay. *)
Definition same_delays (cur bit : vvp_vector4_t) (out_at : list Z) (use_delay : Z) : option unit :=
  for_ 1 (size_ bit - 1) (fun idx _ =>
    let tmp := delay_from_edge (value cur idx) (value bit idx) out_at in
    if bit4_eqb (value cur idx) (value bit idx) then Some tt else assert_ (tmp =? use_delay)) tt.

Definition recv_vec4 (fuel : nat) (now : Z) (port : nat) (bit : vvp_vector4_t) (m : vvp_fun_modpath) (st : sources) :
    option (vvp_fun_modpath * list modpath_effect) :=
  if (0 <? port)%nat then Some (m, [])
  else if eeq (cur_vec4_ m) bit then Some (m, [])
  else
    candidate_list ← candidates fuel m st;
    match candidate_list with
    | [] => Some (mk_modpath bit (src_list_ m) (ifnone_list_ m), [schedule_generic 0])
    | i :: rest =>
        src ← st !! i;
        out_at ← out_at_rest now st rest (out_at_make now src);
        let use_delay := delay_from_edge (value (cur_vec4_ m) 0) (value bit 0) out_at in
        same_delays (cur_vec4_ m) bit out_at use_delay;;
        Some (mk_modpath bit (src_list_ m) (ifnone_list_ m), [schedule_generic use_delay])
    end.

Definition modpath_run_run (m : vvp_fun_modpath) : list modpath_effect := [send_vec4 (cur_vec4_ m)].

(** *** [modpath_src_put_delays]: one, two, three, six or twelve delays for twelve edges *)

Definition put_map (no_of_delays : nat) : option (list nat) :=
  match no_of_delays with
  | 1 => Some [0; 0; 0; 0; 0; 0; 0; 0; 0; 0; 0; 0]
  | 2 => Some [0; 1; 0; 0; 1; 1; 0; 0; 0; 0; 0; 0]
  | 3 => Some [0; 1; 2; 0; 2; 1; 0; 0; 0; 0; 0; 0]
  | 6 => Some [0; 1; 2; 3; 4; 5; 0; 0; 0; 0; 0; 0]
  | 12 => Some [0; 1; 2; 3; 4; 5; 6; 7; 8; 9; 10; 11]
  | _ => None
  end%nat.

Definition at_edge (tmp : list Z) (e : delay_edge_t) : Z := nth (delay_edge_int e) tmp 0.

(** The delays [da], converted to simulation time, spread over the edges. *)
Definition put_delays (da : list Z) : option (list Z) :=
  use_map ← put_map (length da);
  let tmp := map (fun i => nth i da 0) use_map in
  let set e v tmp := <[delay_edge_int e := v]> tmp in
  Some (if (length da <=? 6)%nat then
    let tmp := set DELAY_EDGE_0x (if at_edge tmp DELAY_EDGE_0z <? at_edge tmp DELAY_EDGE_01 then at_edge tmp DELAY_EDGE_0z else at_edge tmp DELAY_EDGE_01) tmp in
    let tmp := set DELAY_EDGE_x1 (if at_edge tmp DELAY_EDGE_01 <? at_edge tmp DELAY_EDGE_z1 then at_edge tmp DELAY_EDGE_z1 else at_edge tmp DELAY_EDGE_01) tmp in
    let tmp := set DELAY_EDGE_1x (if at_edge tmp DELAY_EDGE_1z <? at_edge tmp DELAY_EDGE_10 then at_edge tmp DELAY_EDGE_1z else at_edge tmp DELAY_EDGE_10) tmp in
    let tmp := set DELAY_EDGE_x0 (if at_edge tmp DELAY_EDGE_10 <? at_edge tmp DELAY_EDGE_z0 then at_edge tmp DELAY_EDGE_z0 else at_edge tmp DELAY_EDGE_10) tmp in
    let tmp := set DELAY_EDGE_xz (if at_edge tmp DELAY_EDGE_0z <? at_edge tmp DELAY_EDGE_1z then at_edge tmp DELAY_EDGE_1z else at_edge tmp DELAY_EDGE_0z) tmp in
    set DELAY_EDGE_zx (if at_edge tmp DELAY_EDGE_z1 <? at_edge tmp DELAY_EDGE_z0 then at_edge tmp DELAY_EDGE_z1 else at_edge tmp DELAY_EDGE_z0) tmp
  else tmp).

(** ** Specification *)

(** The sources of a list, in its order. *)
Inductive src_chain (st : sources) : option src_id -> list (src_id * vvp_fun_modpath_src) -> Prop :=
  | chain_end : src_chain st None []
  | chain_cons i s l : st !! i = Some s -> src_chain st (next_ s) l -> src_chain st (Some i) ((i, s) :: l).

Definition enabled (l : list (src_id * vvp_fun_modpath_src)) : list (src_id * vvp_fun_modpath_src) :=
  filter (fun p => condition_flag_ (snd p) = true) l.

(** The time of the last change, and the sources that changed then. *)
Definition last_wake (l : list (src_id * vvp_fun_modpath_src)) : Z := foldr Z.max 0 (map (wake_time_ ∘ snd) l).
Definition latest (l : list (src_id * vvp_fun_modpath_src)) : list (src_id * vvp_fun_modpath_src) :=
  filter (fun p => wake_time_ (snd p) = last_wake l) l.

(** The sources that determine the delay: the enabled paths that changed last;
    the [ifnone] paths when one of them changed later, or when no path is
    enabled - of those without any change so far the first. *)
Definition selected (paths ifnones : list (src_id * vvp_fun_modpath_src)) : list (src_id * vvp_fun_modpath_src) :=
  if last_wake (enabled paths) <? last_wake ifnones then latest ifnones
  else match enabled paths with [] => firstn 1 ifnones | _ => latest (enabled paths) end.

(** The delay a source leaves for an edge at time [now]. *)
Definition time_left (now : Z) (e : delay_edge_t) (s : vvp_fun_modpath_src) : Z :=
  Z.max 0 (wake_time_ s + at_edge (delay12_ s) e - now).

Definition least (l : list Z) : Z := match l with [] => 0 | x :: l => foldr Z.min x l end.

(** The edge of a change. *)
Definition edge_of (a b : vvp_bit4_t) : option delay_edge_t :=
  match a, b with
  | BIT4_0, BIT4_1 => Some DELAY_EDGE_01 | BIT4_0, BIT4_Z => Some DELAY_EDGE_0z | BIT4_0, BIT4_X => Some DELAY_EDGE_0x
  | BIT4_1, BIT4_0 => Some DELAY_EDGE_10 | BIT4_1, BIT4_Z => Some DELAY_EDGE_1z | BIT4_1, BIT4_X => Some DELAY_EDGE_1x
  | BIT4_Z, BIT4_0 => Some DELAY_EDGE_z0 | BIT4_Z, BIT4_1 => Some DELAY_EDGE_z1 | BIT4_Z, BIT4_X => Some DELAY_EDGE_zx
  | BIT4_X, BIT4_0 => Some DELAY_EDGE_x0 | BIT4_X, BIT4_1 => Some DELAY_EDGE_x1 | BIT4_X, BIT4_Z => Some DELAY_EDGE_xz
  | _, _ => None
  end.

Definition src_ok (s : vvp_fun_modpath_src) : Prop :=
  length (delay12_ s) = 12%nat /\ 0 <= wake_time_ s /\
  Forall (fun d => 0 <= d /\ wake_time_ s + d < 2 ^ 64) (delay12_ s).

(** ** Lemmas *)

Lemma for_srcs_chain {S} st cur l fuel (body : src_id -> vvp_fun_modpath_src -> S -> S) s :
  src_chain st cur l -> (length l <= fuel)%nat ->
  for_srcs fuel st cur body s = Some (fold_left (fun s p => body (fst p) (snd p) s) l s).
Proof.
  intros H. revert fuel s. induction H as [|i x l Hi _ IH]; intros fuel s Hf; [by destruct fuel|].
  destruct fuel as [|fuel]; cbn in Hf; [lia|]. cbn [for_srcs fold_left fst snd]. rewrite Hi. cbn [mbind option_bind]. apply IH. lia.
Qed.

Lemma filter_none {A} (P : A -> Prop) `{forall x, Decision (P x)} l : (forall x, x ∈ l -> ~ P x) -> filter P l = [].
Proof.
  induction l as [|x l IH]; intros Hn; [done|]. rewrite filter_cons_False by (apply Hn; left). apply IH. intros y Hy. apply Hn. by right.
Qed.

Lemma Forall_filtered {A} (Q P : A -> Prop) `{forall x, Decision (P x)} l : Forall Q l -> Forall Q (filter P l).
Proof. rewrite !Forall_forall. intros HQ x [_ Hx]%list_elem_of_filter. by apply HQ. Qed.

Lemma last_wake_nonneg l : 0 <= last_wake l.
Proof. unfold last_wake. induction l as [|p l IH]; cbn [map foldr]; lia. Qed.

Lemma last_wake_bound l p : p ∈ l -> wake_time_ (snd p) <= last_wake l.
Proof.
  unfold last_wake. induction 1 as [p l|p q l _ IH]; cbn [map foldr compose]; [|lia].
  unfold compose. lia.
Qed.

Lemma last_wake_snoc l p : last_wake (l ++ [p]) = Z.max (last_wake l) (wake_time_ (snd p)) \/ wake_time_ (snd p) < 0.
Proof.
  unfold last_wake. rewrite map_app. cbn [map]. unfold compose.
  destruct (Z.lt_ge_cases (wake_time_ (snd p)) 0) as [H|H]; [by right|left].
  induction (map (fun x => wake_time_ (snd x)) l) as [|x m IH]; cbn [app foldr]; lia.
Qed.

Lemma latest_snoc l p : 0 <= wake_time_ (snd p) ->
  latest (l ++ [p]) =
    if last_wake l <? wake_time_ (snd p) then [p]
    else if wake_time_ (snd p) =? last_wake l then latest l ++ [p] else latest l.
Proof.
  intros Hp. unfold latest. rewrite filter_app. destruct (last_wake_snoc l p) as [->|]; [|lia].
  destruct (Z.ltb_spec (last_wake l) (wake_time_ (snd p))).
  - rewrite Z.max_r by lia. rewrite (filter_none _ l).
    + cbn [app]. rewrite filter_cons_True by done. by rewrite filter_nil.
    + intros q Hq Heq. pose proof (last_wake_bound l q Hq). lia.
  - rewrite Z.max_l by lia. destruct (Z.eqb_spec (wake_time_ (snd p)) (last_wake l)).
    + by rewrite filter_cons_True, filter_nil.
    + by rewrite filter_cons_False, filter_nil, app_nil_r.
Qed.

Lemma latest_nonempty l : Forall (fun p => 0 <= wake_time_ (snd p)) l -> l <> [] -> latest l <> [].
Proof.
  induction l as [|p l IH] using rev_ind; [done|]. intros [Hl Hp]%Forall_app _.
  rewrite Forall_singleton in Hp. rewrite latest_snoc by done.
  destruct (Z.ltb_spec (last_wake l) (wake_time_ (snd p))); [done|].
  destruct (Z.eqb_spec (wake_time_ (snd p)) (last_wake l)); [by destruct (latest l)|].
  apply IH; [done|]. intros ->. unfold last_wake in *. cbn in *. lia.
Qed.

(** The state of the first loop after a list of sources. *)
Lemma src_candidates_fold l : Forall (fun p => 0 <= wake_time_ (snd p)) l ->
  fold_left (fun s p => src_candidate (fst p) (snd p) s) l ([], 0) = (map fst (latest (enabled l)), last_wake (enabled l)).
Proof.
  induction l as [|p l IH] using rev_ind; [done|]. intros [Hl Hp]%Forall_app. rewrite Forall_singleton in Hp.
  rewrite fold_left_app, IH by done. cbn [fold_left]. unfold enabled. rewrite filter_app. fold (enabled l).
  unfold src_candidate. destruct (condition_flag_ (snd p)) eqn:Hc; cbn [negb].
  - rewrite filter_cons_True, filter_nil by done. rewrite latest_snoc by done.
    destruct (last_wake_snoc (enabled l) p) as [->|]; [|lia].
    destruct (decide (enabled l = [])) as [->|Hne].
    + unfold latest, last_wake. cbn. destruct (Z.ltb_spec 0 (wake_time_ (snd p))); [by rewrite Z.max_r by lia|].
      destruct (Z.eqb_spec (wake_time_ (snd p)) 0); [|lia]. by replace (0 `max` wake_time_ (snd p)) with (wake_time_ (snd p)) by lia.
    + assert (map fst (latest (enabled l)) <> []) as Hmap.
      { intros E%map_eq_nil. revert E. apply latest_nonempty; [|done]. by apply Forall_filtered. }
      destruct (map fst (latest (enabled l))) as [|i0 m] eqn:Hm; [done|].
      destruct (Z.eqb_spec (wake_time_ (snd p)) (last_wake (enabled l))).
      * destruct (Z.ltb_spec (last_wake (enabled l)) (wake_time_ (snd p))); [lia|].
        rewrite map_app, Hm, Z.max_l by lia. done.
      * destruct (Z.ltb_spec (last_wake (enabled l)) (wake_time_ (snd p))); [by rewrite Z.max_r by lia|].
        rewrite Hm, Z.max_l by lia. done.
  - rewrite filter_cons_False, filter_nil, app_nil_r by congruence. done.
Qed.

(** The state of the second loop. *)
Lemma ifnone_candidates_fold C W l : Forall (fun p => 0 <= wake_time_ (snd p)) l -> 0 <= W -> (C = [] -> W = 0) ->
  fold_left (fun s p => ifnone_candidate W (fst p) (snd p) s) l (C, W) =
    if W <? last_wake l then (map fst (latest l), last_wake l)
    else (match C with [] => map fst (firstn 1 l) | _ => C end, W).
Proof.
  induction l as [|p l IH] using rev_ind; intros Hl HW HC.
  { cbn. destruct (Z.ltb_spec W 0); [lia|]. by destruct C. }
  apply Forall_app in Hl as [Hl Hp]. rewrite Forall_singleton in Hp.
  rewrite fold_left_app, IH by done. cbn [fold_left]. rewrite latest_snoc by done.
  destruct (last_wake_snoc l p) as [->|]; [|lia]. unfold ifnone_candidate.
  destruct (Z.ltb_spec W (last_wake l)) as [HWl|HWl].
  - destruct (map fst (latest l)) as [|i0 m] eqn:Hm.
    { exfalso. apply map_eq_nil in Hm. revert Hm. apply latest_nonempty; [done|]. intros ->. unfold last_wake in HWl. cbn in HWl. lia. }
    destruct (Z.ltb_spec W (last_wake l `max` wake_time_ (snd p))); [|lia].
    destruct (Z.eqb_spec (wake_time_ (snd p)) (last_wake l)); cbn [andb].
    + rewrite (proj2 (Z.ltb_lt W (last_wake l))) by done. destruct (Z.ltb_spec (last_wake l) (wake_time_ (snd p))); [lia|].
      by rewrite map_app, Hm, Z.max_l by lia.
    + destruct (Z.ltb_spec (last_wake l) (wake_time_ (snd p))); [by rewrite Z.max_r by lia|]. by rewrite Hm, Z.max_l by lia.
  - destruct (decide (C = [] /\ l = [])) as [[-> ->]|Hne].
    + specialize (HC eq_refl). subst W. unfold latest, last_wake. cbn.
      destruct (Z.ltb_spec 0 (wake_time_ (snd p))); [rewrite (proj2 (Z.ltb_lt 0 _)) by lia; by rewrite Z.max_r by lia|].
      rewrite (proj2 (Z.ltb_ge 0 _)) by lia. do 2 f_equal. lia.
    + assert (match C with [] => map fst (firstn 1 (l ++ [p])) | _ => C end = match C with [] => map fst (firstn 1 l) | _ => C end) as ->.
      { destruct C; [|done]. destruct l; [by destruct Hne|done]. }
      assert (match C with [] => map fst (firstn 1 l) | _ => C end <> []) as Hs.
      { destruct C; [|done]. destruct l; [by destruct Hne|done]. }
      destruct (match C with [] => map fst (firstn 1 l) | _ => C end) as [|i0 m]; [done|].
      rewrite (Z.ltb_irrefl W), andb_false_r.
      destruct (Z.ltb_spec W (wake_time_ (snd p))).
      * rewrite (proj2 (Z.ltb_lt W _)) by lia. rewrite (proj2 (Z.ltb_lt (last_wake l) _)) by lia. by rewrite Z.max_r by lia.
      * by rewrite (proj2 (Z.ltb_ge W _)) by lia.
Qed.

Lemma candidates_selected fuel m st paths ifnones :
  src_chain st (src_list_ m) paths -> src_chain st (ifnone_list_ m) ifnones ->
  Forall (fun p => 0 <= wake_time_ (snd p)) (paths ++ ifnones) -> (length paths + length ifnones <= fuel)%nat ->
  candidates fuel m st = Some (map fst (selected paths ifnones)).
Proof.
  intros Hp Hi [Hwp Hwi]%Forall_app Hf. unfold candidates.
  rewrite (for_srcs_chain _ _ _ _ _ _ Hp) by lia. cbn [mbind option_bind]. rewrite src_candidates_fold by done.
  rewrite (for_srcs_chain _ _ _ _ _ _ Hi) by lia. cbn [fmap option_fmap option_map].
  assert (Forall (fun p => 0 <= wake_time_ (snd p)) (enabled paths)) as Hen by (by apply Forall_filtered).
  rewrite ifnone_candidates_fold; [|done|apply last_wake_nonneg|].
  2: { intros E%map_eq_nil. destruct (enabled paths) eqn:He; [done|]. exfalso. revert E. by apply latest_nonempty. }
  unfold selected. destruct (_ <? _); cbn [fst]; [done|]. destruct (enabled paths) as [|p l] eqn:He; [done|].
  destruct (map fst (latest (p :: l))) as [|i0 m0] eqn:Hm; [|done].
  exfalso. apply map_eq_nil in Hm. revert Hm. by apply latest_nonempty.
Qed.

Lemma at_edge_range e : (delay_edge_int e < 12)%nat.
Proof. destruct e; cbn; lia. Qed.

Lemma out_time_left now s e : src_ok s -> 0 <= now < 2 ^ 64 -> out_time now s (delay_edge_int e) = time_left now e s.
Proof.
  intros (Hl & Hw & Hd) Hnow. unfold out_time, time_left. fold (at_edge (delay12_ s) e).
  assert (0 <= at_edge (delay12_ s) e /\ wake_time_ s + at_edge (delay12_ s) e < 2 ^ 64) as [H1 H2].
  { unfold at_edge. rewrite Forall_forall in Hd. apply Hd. rewrite nth_lookup. pose proof (at_edge_range e).
    destruct (lookup_lt_is_Some_2 (delay12_ s) (delay_edge_int e) ltac:(lia)) as [d Hlk]. rewrite Hlk. by eapply list_elem_of_lookup_2. }
  unfold w_add, w_sub. rewrite (w_wrap_id (_ + _)) by (unfold word_ok; lia).
  destruct (Z.leb_spec (wake_time_ s + at_edge (delay12_ s) e) now); [lia|]. rewrite w_wrap_id by (unfold word_ok; lia). lia.
Qed.

(** An array of times holds [g e] for every edge. *)
Definition holds (a : list Z) (g : delay_edge_t -> Z) : Prop := length a = 12%nat /\ forall e, at_edge a e = g e.

Lemma out_at_make_holds now s : src_ok s -> 0 <= now < 2 ^ 64 -> holds (out_at_make now s) (fun e => time_left now e s).
Proof.
  intros Hs Hnow. split; [done|]. intros e. unfold at_edge, out_at_make. pose proof (at_edge_range e).
  rewrite (nth_indep _ 0 (out_time now s 0)) by (rewrite length_map, length_seq; lia).
  rewrite map_nth, seq_nth by lia. by apply out_time_left.
Qed.

Lemma out_at_min_holds now s a g : src_ok s -> 0 <= now < 2 ^ 64 -> holds a g ->
  holds (out_at_min now s a) (fun e => Z.min (g e) (time_left now e s)).
Proof.
  intros Hs Hnow [Hl Hg]. unfold out_at_min.
  pose proof (loop_inv (fun k t => length t = 12%nat /\ forall e,
    at_edge t e = if (delay_edge_int e <? k)%nat then Z.min (g e) (time_left now e s) else g e)
    (fun idx out_at => let tmp := out_time now s idx in if tmp <? nth idx out_at 0 then <[idx := tmp]> out_at else out_at) 0 12 a) as [H1 H2].
  - split; [done|]. intros e. by rewrite Hg.
  - intros k t Hk [Ht He]. cbv zeta.
    assert (exists ek, delay_edge_int ek = k) as [ek <-].
    { assert (k ∈ map delay_edge_int [DELAY_EDGE_01; DELAY_EDGE_10; DELAY_EDGE_0z; DELAY_EDGE_z1; DELAY_EDGE_1z; DELAY_EDGE_z0;
        DELAY_EDGE_0x; DELAY_EDGE_x1; DELAY_EDGE_1x; DELAY_EDGE_x0; DELAY_EDGE_xz; DELAY_EDGE_zx]) as Hin.
      { do 12 (destruct k as [|k]; [cbn; repeat (first [left|right])|]). lia. }
      apply list_elem_of_In, in_map_iff in Hin as (x & Hx & _). by exists x. }
    rewrite out_time_left by done. fold (at_edge t ek). rewrite He, Nat.ltb_irrefl.
    assert (forall e, e <> ek -> delay_edge_int e <> delay_edge_int ek) as Hinj by (intros e Hne; destruct e, ek; cbn; congruence).
    split; [destruct (_ <? _); by rewrite ?length_insert|]. intros e. destruct (decide (e = ek)) as [->|Hne].
    + rewrite (proj2 (Nat.ltb_lt (delay_edge_int ek) _)) by lia. destruct (Z.ltb_spec (time_left now ek s) (g ek)).
      * unfold at_edge. rewrite nth_lookup, list_lookup_insert_eq by lia. cbn. lia.
      * rewrite He, Nat.ltb_irrefl. lia.
    + transitivity (at_edge t e).
      { destruct (time_left now ek s <? g ek); [|done]. unfold at_edge. rewrite !nth_lookup, list_lookup_insert_ne; [done|]. intros E. by apply (Hinj e Hne). }
      rewrite He. specialize (Hinj e Hne). split_ifs; done || lia.
  - split; [done|]. intros e. rewrite H2. pose proof (at_edge_range e). by rewrite (proj2 (Nat.ltb_lt (delay_edge_int e) (0 + 12))) by lia.
Qed.

Lemma foldr_min_init a x l : foldr Z.min (Z.min a x) l = Z.min x (foldr Z.min a l).
Proof. induction l as [|y l IH]; cbn [foldr]; lia. Qed.

Lemma out_at_rest_holds now st l a g : 0 <= now < 2 ^ 64 ->
  Forall (fun p => st !! fst p = Some (snd p) /\ src_ok (snd p)) l -> holds a g ->
  returns (out_at_rest now st (map fst l) a) (fun a => holds a (fun e => foldr Z.min (g e) (map (time_left now e ∘ snd) l))).
Proof.
  intros Hnow Hl. revert a g. induction Hl as [|p l [Hp Hs] _ IH]; intros a g Ha; cbn [map out_at_rest]; [by apply returns_ret|].
  rewrite Hp. cbn [mbind option_bind]. eapply returns_mono; [apply IH, (out_at_min_holds now (snd p) a g); done|].
  intros a' [H1 H2]. split; [done|]. intros e. rewrite H2, foldr_min_init. done.
Qed.

Lemma table_edge_of a b e : edge_of a b = Some e -> table_edge a b = e.
Proof. by destruct a, b; intros [= <-]. Qed.

Lemma forallb_pointwise {A} (f g : A -> bool) l : (forall x, f x = g x) -> forallb f l = forallb g l.
Proof. intros H. induction l as [|x l IH]; cbn [forallb]; [done|]. by rewrite H, IH. Qed.

(** The last loop. *)
Lemma same_delays_spec cur bit l b a u : rep4 cur l -> rep4 bit b ->
  same_delays cur bit a u =
    assert_ (forallb (fun i => bit4_eqb (bit_at l i) (bit_at b i) || (delay_from_edge (bit_at l i) (bit_at b i) a =? u)) (seq 1 (length b - 1))).
Proof.
  intros Hl Hb. unfold same_delays. rewrite (rep4_size _ _ Hb). generalize (length b - 1)%nat as n. generalize 1%nat as i.
  intros i n. revert i. induction n as [|n IH]; intros i; cbn [for_ seq forallb]; [done|].
  rewrite (rep4_value _ _ _ Hl), (rep4_value _ _ _ Hb).
  destruct (bit4_eqb _ _); cbn [orb andb mbind option_bind]; [apply IH|]. destruct (_ =? _); cbn [andb assert_ mbind option_bind]; [apply IH|done].
Qed.

Lemma chain_lookup st cur l : src_chain st cur l -> Forall (fun p => st !! fst p = Some (snd p)) l.
Proof. induction 1; by constructor. Qed.

Lemma selected_forall (P : src_id * vvp_fun_modpath_src -> Prop) paths ifnones :
  Forall P (paths ++ ifnones) -> Forall P (selected paths ifnones).
Proof.
  intros [H1 H2]%Forall_app. unfold selected, latest, enabled. destruct (_ <? _); [by apply Forall_filtered|].
  destruct (filter _ paths) eqn:E; [by apply Forall_take|]. rewrite <- E. by apply Forall_filtered, Forall_filtered.
Qed.

(** ** Theorems *)

(** C21: the delay of a module path.  A value equal to the present one is
    ignored.  Another becomes the value of the path at once, and is scheduled to
    be sent after the least time that the selected sources leave for the edge of
    bit 0 - the time from the change of the source to its delay, as far as it is
    still to come - or without delay when there is no source.  The other bits
    that change must need the same delay, or the [assert] fails. *)
Theorem modpath_delay fuel now bit m st paths ifnones l b :
  src_chain st (src_list_ m) paths -> src_chain st (ifnone_list_ m) ifnones ->
  Forall (fun p => src_ok (snd p)) (paths ++ ifnones) -> (length paths + length ifnones <= fuel)%nat ->
  0 <= now < 2 ^ 64 -> rep4 (cur_vec4_ m) l -> rep4 bit b ->
  let least_delay e := least (map (time_left now e ∘ snd) (selected paths ifnones)) in
  let delay i := least_delay (table_edge (bit_at l i) (bit_at b i)) in
  recv_vec4 fuel now 0 bit m st =
    (if decide (l = b) then Some (m, [])
     else
       let done_after d := Some (mk_modpath bit (src_list_ m) (ifnone_list_ m), [schedule_generic d]) in
       match selected paths ifnones with
       | [] => done_after 0
       | _ =>
           if forallb (fun i => bit4_eqb (bit_at l i) (bit_at b i) || (delay i =? delay 0%nat)) (seq 1 (length b - 1))
           then done_after (delay 0%nat) else None
       end) /\
  forall e, edge_of (bit_at l 0) (bit_at b 0) = Some e -> delay 0%nat = least_delay e.
Proof.
  intros Hp Hi Hok Hf Hnow Hl Hb least_delay delay. split.
  - unfold recv_vec4. cbn [Nat.ltb Nat.leb]. rewrite (rep4_eeq _ _ _ _ Hl Hb). destruct (decide (l = b)) as [Heq|Hne].
    { by rewrite bool_decide_true. }
    rewrite bool_decide_false by done. rewrite (candidates_selected _ _ _ paths ifnones) by (done || (eapply Forall_impl; [done|]; by intros p (_ & H & _))).
    cbn [mbind option_bind].
    assert (Forall (fun p => st !! fst p = Some (snd p) /\ src_ok (snd p)) (selected paths ifnones)) as Hsel.
    { apply selected_forall. apply Forall_and. split; [|done]. apply Forall_app. split; by eapply chain_lookup. }
    subst least_delay delay. cbv zeta. destruct (selected paths ifnones) as [|p rest] eqn:Hs; [done|]. cbn [map].
    apply Forall_cons in Hsel as [[Hlk Hp1] Hrest]. rewrite Hlk. cbn [mbind option_bind].
    destruct (out_at_rest_holds now st rest (out_at_make now (snd p)) (fun e => time_left now e (snd p)) Hnow Hrest) as (a & -> & Ha1 & Ha2).
    { by apply out_at_make_holds. }
    cbn [mbind option_bind]. rewrite (rep4_value _ _ _ Hl), (rep4_value _ _ _ Hb), (same_delays_spec _ _ l b) by done.
    unfold delay_from_edge. rewrite (forallb_pointwise _ (fun i => bit4_eqb (bit_at l i) (bit_at b i) ||
      (least (time_left now (table_edge (bit_at l i) (bit_at b i)) (snd p) :: map (time_left now (table_edge (bit_at l i) (bit_at b i)) ∘ snd) rest) =?
       least (time_left now (table_edge (bit_at l 0) (bit_at b 0)) (snd p) :: map (time_left now (table_edge (bit_at l 0) (bit_at b 0)) ∘ snd) rest)))).
    + fold (at_edge a (table_edge (bit_at l 0) (bit_at b 0))). rewrite Ha2. cbn [least map].
      destruct (forallb _ _); done.
    + intros i. f_equal. fold (at_edge a (table_edge (bit_at l i) (bit_at b i))) (at_edge a (table_edge (bit_at l 0) (bit_at b 0))). by rewrite !Ha2.
  - intros e He. unfold delay. by rewrite (table_edge_of _ _ _ He).
Qed.

(** Two paths with the delays 3 (rise), 5 (fall) and 7 on the other edges; the
    second input changed last. *)
Definition two_paths : sources :=
  <[0%nat := mk_src [3; 5; 7; 7; 7; 7; 7; 7; 7; 7; 7; 7] (Some 1%nat) 10 true modpath_src]>
  {[1%nat := mk_src [4; 6; 7; 7; 7; 7; 7; 7; 7; 7; 7; 7] None 12 true modpath_src]}.

Definition path_at (l : vvp_vector4_t) : vvp_fun_modpath := mk_modpath l (Some 0%nat) None.

Lemma modpath_delay_witness :
  recv_vec4 2 12 0 (mk_vector4 2 [3] [0]) (path_at (mk_vector4 2 [0] [0])) two_paths =
    Some (path_at (mk_vector4 2 [3] [0]), [schedule_generic 4]).
Proof.
  refine (eq_trans (proj1 (modpath_delay 2 12 (mk_vector4 2 [3] [0]) (path_at (mk_vector4 2 [0] [0])) two_paths
    [(0%nat, mk_src [3; 5; 7; 7; 7; 7; 7; 7; 7; 7; 7; 7] (Some 1%nat) 10 true modpath_src);
     (1%nat, mk_src [4; 6; 7; 7; 7; 7; 7; 7; 7; 7; 7; 7] None 12 true modpath_src)] []
    [BIT4_0; BIT4_0] [BIT4_1; BIT4_1] _ _ _ _ _ _ _)) _).
  - by repeat (econstructor; [done|]); constructor.
  - constructor.
  - repeat constructor; cbn; lia.
  - cbn. lia.
  - lia.
  - split; [apply wf4_short; [lia|by unfold word_ok..]|done].
  - split; [apply wf4_short; [lia|by unfold word_ok..]|done].
  - by vm_compute.
Defined.

(** The delay is taken for the edge of bit 0 even when bit 0 does not change; the
    table then gives the edge of a rise or a fall, and a change of another bit
    in the other direction fails the assertion. *)
Example unchanged_bit_aborts :
  recv_vec4 2 12 0 (mk_vector4 2 [3] [0]) (path_at (mk_vector4 2 [1] [0])) two_paths = None.
Proof. by vm_compute. Qed.

(** A source reacts to the edges it was made for: towards 1, towards 0, X and Z
    between them. *)
Lemma modpath_edge_reacts now bit d n w c old pos neg :
  let s := src_recv_vec4 now 0 bit (mk_src d n w c (modpath_edge old pos neg)) in
  let rise := bit4_level (value bit 0) - bit4_level old in
  wake_time_ s = (if (0 <? rise) && pos || (rise <? 0) && neg then now else w) /\
  class_ s = modpath_edge (value bit 0) pos neg.
Proof.
  cbn [src_recv_vec4 class_ test_vec4]. rewrite edge_spec. cbv zeta.
  destruct (value bit 0), old; cbn; destruct pos, neg; done.
Qed.
