(* ===== verification/Event.v ===== *)
(** * Event functors ([vvp/event.h], [vvp/event.cc])

    An event functor watches its inputs.  When an input makes an edge it is set
    for - or any change, or any input at all - it runs the event controls that
    were queued on it, wakes the threads that wait on it, and passes the input
    on.  The file models the list of event controls with its [last] pointer, the
    list of waiting threads (on the threads of [ThreadLife]), the edge, any-edge
    and or functors in their static and automatic variants, and proves that a
    thread that waits is woken by the next edge and that every event control
    runs at the edge it was queued for. *)

From Stdlib Require Import ZArith Lia Bool.
From stdpp Require Import base numbers sorting gmap sets list.
From S2P Require Import Prelude Bit4 Words Vec4 Vec4Move VecRep ThreadLife ThreadSteps.

Open Scope Z_scope.

(** ** Definitions *)

(** An event control: the events it still waits for and what it then does. *)
Abbreviation ctl_id := positive.

Record evctl (A : Type) := mk_evctl { ecount_ : Z; ctl_next : option ctl_id; ctl_action : A }.
Arguments mk_evctl {A} _ _ _.
Arguments ecount_ {A} _.
Arguments ctl_next {A} _.
Arguments ctl_action {A} _.

(** The state around one functor (or one instance of an automatic one): the
    event controls that are allocated, [event_ctls], [last] - the control whose
    [next] field it points to, or [None] for [event_ctls] itself -, the list of
    waiting threads, the inputs the functor remembers, the threads, and the rest
    of the world. *)
Record ev_state (A B W : Type) := mk_ev {
  ctls : gmap ctl_id (evctl A);
  event_ctls : option ctl_id;
  last : option ctl_id;
  wthreads : option tid;
  old_bits : B;
  life : ThreadLife.state;
  env : W
}.
Arguments mk_ev {A B W} _ _ _ _ _ _ _.
Arguments ctls {A B W} _.
Arguments event_ctls {A B W} _.
Arguments last {A B W} _.
Arguments wthreads {A B W} _.
Arguments old_bits {A B W} _.
Arguments life {A B W} _.
Arguments env {A B W} _.

Section event.

Context {A B W : Type}.
Implicit Types s : ev_state A B W.

Definition with_ctls (m : gmap ctl_id (evctl A)) s : ev_state A B W :=
  mk_ev m (event_ctls s) (last s) (wthreads s) (old_bits s) (life s) (env s).
Definition with_event_ctls (h : option ctl_id) s : ev_state A B W :=
  mk_ev (ctls s) h (last s) (wthreads s) (old_bits s) (life s) (env s).
Definition with_last (l : option ctl_id) s : ev_state A B W :=
  mk_ev (ctls s) (event_ctls s) l (wthreads s) (old_bits s) (life s) (env s).
Definition with_wthreads (t : option tid) s : ev_state A B W :=
  mk_ev (ctls s) (event_ctls s) (last s) t (old_bits s) (life s) (env s).
Definition with_old_bits (b : B) s : ev_state A B W :=
  mk_ev (ctls s) (event_ctls s) (last s) (wthreads s) b (life s) (env s).
Definition with_world (w : ThreadLife.state * W) s : ev_state A B W :=
  mk_ev (ctls s) (event_ctls s) (last s) (wthreads s) (old_bits s) (fst w) (snd w).

(** [*last = p] *)
Definition write_last (p : option ctl_id) s : option (ev_state A B W) :=
  match last s with
  | None => Some (with_event_ctls p s)
  | Some i =>
      x ← ctls s !! i;
      Some (with_ctls (<[i := mk_evctl (ecount_ x) p (ctl_action x)]> (ctls s)) s)
  end.

(** [schedule_evctl]: [i] is the address of the new control. *)
Definition schedule_evctl (i : ctl_id) (ecount : Z) (a : A) s : option (ev_state A B W) :=
  assert_ (bool_decide (ctls s !! i = None));;
  let s := with_ctls (<[i := mk_evctl ecount None a]> (ctls s)) s in
  s ← write_last (Some i) s;
  Some (with_last (Some i) s).

(** The virtual [run_run] of the controls. *)
Context (run_run : A -> ev_state A B W -> option (ev_state A B W)).

Definition dec_and_run (i : ctl_id) s : option (bool * ev_state A B W) :=
  x ← ctls s !! i;
  assert_ (negb (ecount_ x =? 0));;
  let s := with_ctls (<[i := mk_evctl (w_sub (ecount_ x) 1) (ctl_next x) (ctl_action x)]> (ctls s)) s in
  s ← (if w_sub (ecount_ x) 1 =? 0 then run_run (ctl_action x) s else Some s);
  x ← ctls s !! i;
  Some (ecount_ x =? 0, s).

(** The loop of [run_waiting_threads_] over the controls. *)
Fixpoint run_controls (fuel : nat) (cur : option ctl_id) s : option (ev_state A B W) :=
  match cur with
  | None => Some s
  | Some i =>
      match fuel with
      | O => None
      | S fuel =>
          '(ran, s) ← dec_and_run i s;
          x ← ctls s !! i;
          if ran : bool then
            let nxt := ctl_next x in
            let s := with_ctls (delete i (ctls s)) s in
            s ← write_last nxt s;
            run_controls fuel nxt s
          else run_controls fuel (ctl_next x) (with_last (Some i) s)
      end
  end.

Definition run_waiting_threads_ (fuel : nat) s : option (ev_state A B W) :=
  s ← run_controls fuel (event_ctls s) (with_last None s);
  match wthreads s with
  | None => Some s
  | Some tmp =>
      let s := with_wthreads None s in
      l ← vthread_schedule_list tmp (life s);
      Some (with_world (l, env s) s)
  end.

(** [add_waiting_thread] and the rest of [%wait]. *)
Definition add_waiting_thread (t : tid) s : option tid * ev_state A B W :=
  let tmp := wthreads s in (tmp, with_wthreads (Some t) s).

Definition wait_on (t : tid) s : option (ev_state A B W) :=
  let '(next, s) := add_waiting_thread t s in
  '(_, l) ← of_WAIT t next (life s);
  Some (with_world (l, env s) s).

End event.

(** *** The functors *)

(** A change of one input: the answer says whether the functor passes it on. *)
Section functors.

Context {A W : Type}.
Abbreviation edge_state := (ev_state A (list vvp_bit4_t) W).
Abbreviation any_state := (ev_state A (list vvp_vector4_t) W).

Definition vvp_edge_none : Z := 0.

(** [vvp_fun_edge::recv_vec4_] on the input [port]. *)
Definition edge_recv_vec4_ (run_run : A -> edge_state -> option edge_state) (fuel : nat) (edge_ : Z) (port : nat) (bit : vvp_vector4_t)
    (s : edge_state) : option (bool * edge_state) :=
  old_bit ← old_bits s !! port;
  let mask := VVP_EDGE old_bit (value bit 0) in
  let s := with_old_bits (<[port := value bit 0]> (old_bits s)) s in
  if (edge_ =? vvp_edge_none) || negb (Z.land edge_ mask =? 0) then
    s ← run_waiting_threads_ run_run fuel s; Some (true, s)
  else Some (false, s).

(** [vvp_fun_anyedge::recv_vec4_]: does the vector change, and from what. *)
Definition any_changed (old bit : vvp_vector4_t) : bool :=
  if negb (size_ old =? size_ bit)%nat then
    if (size_ old =? 0)%nat then negb (eeq (vector4_fill (size_ bit) BIT4_X) bit) else true
  else existsb (fun idx => negb (bit4_eqb (value old idx) (value bit idx))) (seq 0 (size_ bit)).

(** The vector that is remembered when nothing changes. *)
Definition any_reference (old bit : vvp_vector4_t) : vvp_vector4_t :=
  if negb (size_ old =? size_ bit)%nat && (size_ old =? 0)%nat then vector4_fill (size_ bit) BIT4_X else old.

Definition any_recv_vec4_ (run_run : A -> any_state -> option any_state) (fuel : nat) (port : nat) (bit : vvp_vector4_t)
    (s : any_state) : option (bool * any_state) :=
  old ← old_bits s !! port;
  if any_changed old bit then
    s ← run_waiting_threads_ run_run fuel (with_old_bits (<[port := bit]> (old_bits s)) s); Some (true, s)
  else Some (false, with_old_bits (<[port := any_reference old bit]> (old_bits s)) s).

(** What a functor sends on: the value and the context. *)
Definition sent (V : Type) : Type := V * option positive.

(** *** The statically allocated functors *)

Definition edge_sa_recv_vec4 run_run (fuel : nat) (edge_ : Z) (port : nat) (bit : vvp_vector4_t) (s : edge_state) :
    option (edge_state * list (sent vvp_vector4_t)) :=
  '(fired, s) ← edge_recv_vec4_ run_run fuel edge_ port bit s;
  Some (s, if fired : bool then [(bit, None)] else []).

(** The part of a vector: only its first bit is looked at, and the part is passed on. *)
Definition edge_sa_recv_vec4_pv run_run (fuel : nat) (edge_ : Z) (port : nat) (bit : vvp_vector4_t) (base wid vwid : nat) (s : edge_state) :
    option (edge_state * list (sent (vvp_vector4_t * nat * nat * nat))) :=
  assert_ (base =? 0)%nat;;
  '(fired, s) ← edge_recv_vec4_ run_run fuel edge_ port bit s;
  Some (s, if fired : bool then [((bit, base, wid, vwid), None)] else []).

Definition any_sa_recv_vec4 run_run (fuel : nat) (port : nat) (bit : vvp_vector4_t) (s : any_state) :
    option (any_state * list (sent vvp_vector4_t)) :=
  '(fired, s) ← any_recv_vec4_ run_run fuel port bit s;
  Some (s, if fired : bool then [(bit, None)] else []).

Definition any_sa_recv_vec4_pv run_run (fuel : nat) (port : nat) (bit : vvp_vector4_t) (base wid vwid : nat) (s : any_state) :
    option (any_state * list (sent vvp_vector4_t)) :=
  tmp ← old_bits s !! port;
  let tmp := if (size_ tmp =? 0)%nat then vector4_fill vwid BIT4_Z else tmp in
  assert_ (wid =? size_ bit)%nat;;
  assert_ (base + wid <=? vwid)%nat;;
  assert_ (size_ tmp =? vwid)%nat;;
  tmp ← fst <$> set_vec tmp base bit;
  '(fired, s) ← any_recv_vec4_ run_run fuel port tmp s;
  Some (s, if fired : bool then [(bit, None)] else []).

(** [vvp_fun_event_or_sa], and [vvp_named_event_sa] up to its VPI callbacks. *)
Definition or_sa_recv_vec4 {B} (run_run : A -> ev_state A B W -> option (ev_state A B W)) (fuel : nat) (bit : vvp_vector4_t) (s : ev_state A B W) :
    option (ev_state A B W * list (sent vvp_vector4_t)) :=
  s ← run_waiting_threads_ run_run fuel s;
  Some (s, [(bit, None)]).

End functors.

(** *** The automatically allocated functors

    Every context of the scope has an instance with its own inputs and threads;
    the event controls are shared.  [live] is the list of [live_contexts]. *)
Section automatic.

Context {A B W : Type}.

Record aa_state := mk_aa { base_ : ev_state A B W; insts : gmap positive (B * option tid) }.

(** [reset_instance]; [alloc_instance] makes the item first. *)
Definition reset_instance (ctx : positive) (a : aa_state) : option aa_state :=
  _ ← insts a !! ctx;
  Some (mk_aa (base_ a) (<[ctx := (old_bits (base_ a), None)]> (insts a))).

Definition alloc_instance (initial : B) (ctx : positive) (a : aa_state) : option aa_state :=
  reset_instance ctx (mk_aa (base_ a) (<[ctx := (initial, None)]> (insts a))).

(** Runs [f] on the instance of a context. *)
Definition in_context {R} (ctx : positive) (f : ev_state A B W -> option (R * ev_state A B W)) (a : aa_state) :
    option (R * aa_state) :=
  '(b, t) ← insts a !! ctx;
  '(r, s) ← f (with_old_bits b (with_wthreads t (base_ a)));
  Some (r, mk_aa (with_old_bits (old_bits (base_ a)) (with_wthreads (wthreads (base_ a)) s))
             (<[ctx := (old_bits s, wthreads s)]> (insts a))).

(** The context item is that of the running thread. *)
Definition aa_add_waiting_thread (ctx : positive) (t : tid) (a : aa_state) : option (option tid * aa_state) :=
  in_context ctx (fun s => Some (add_waiting_thread t s)) a.

Fixpoint aa_each (recv : ev_state A B W -> option (bool * ev_state A B W)) (bit : vvp_vector4_t) (live : list positive) (a : aa_state) :
    option (aa_state * list (sent vvp_vector4_t)) :=
  match live with
  | [] => Some (a, [])
  | ctx :: live =>
      '(fired, a) ← in_context ctx recv a;
      '(a, l) ← aa_each recv bit live a;
      Some (a, (if fired : bool then [(bit, Some ctx)] else []) ++ l)
  end.

(** [recv_vec4] of the automatic functors: in a context, or in every live one
    and then for the contexts to come. *)
Definition aa_recv_vec4 (recv : ev_state A B W -> option (bool * ev_state A B W)) (remember : B -> B) (bit : vvp_vector4_t)
    (context : option positive) (live : list positive) (a : aa_state) : option (aa_state * list (sent vvp_vector4_t)) :=
  match context with
  | Some ctx => aa_each recv bit [ctx] a
  | None =>
      '(a, l) ← aa_each recv bit live a;
      Some (mk_aa (with_old_bits (remember (old_bits (base_ a))) (base_ a)) (insts a), l)
  end.

End automatic.

Definition edge_aa_recv_vec4 {A W} (run_run : A -> ev_state A (list vvp_bit4_t) W -> option (ev_state A (list vvp_bit4_t) W)) (fuel : nat) (edge_ : Z)
    (port : nat) (bit : vvp_vector4_t) :=
  aa_recv_vec4 (edge_recv_vec4_ run_run fuel edge_ port bit) (fun bits_ => <[port := value bit 0]> bits_) bit.

Definition any_aa_recv_vec4 {A W} (run_run : A -> ev_state A (list vvp_vector4_t) W -> option (ev_state A (list vvp_vector4_t) W)) (fuel : nat)
    (port : nat) (bit : vvp_vector4_t) :=
  aa_recv_vec4 (any_recv_vec4_ run_run fuel port bit) (fun bits_ => <[port := bit]> bits_) bit.

Definition or_aa_recv_vec4 {A B W} (run_run : A -> ev_state A B W -> option (ev_state A B W)) (fuel : nat) (bit : vvp_vector4_t) :=
  aa_recv_vec4 (fun s => s ← run_waiting_threads_ run_run fuel s; Some (true, s)) id bit.

(** ** Specification *)

Section spec.

Context {A B W : Type}.
Implicit Types s : ev_state A B W.

(** The controls queued from a pointer on, up to the pointer [e]: address, events
    to wait for, action. *)
Fixpoint ctl_seg (m : gmap ctl_id (evctl A)) (h : option ctl_id) (l : list (ctl_id * (Z * A))) (e : option ctl_id) : Prop :=
  match l with
  | [] => h = e
  | (i, (n, a)) :: l => h = Some i /\ exists nx, m !! i = Some (mk_evctl n nx a) /\ ctl_seg m nx l e
  end.

(** The controls of the functor, first one first. *)
Definition controls s (l : list (ctl_id * (Z * A))) : Prop :=
  ctl_seg (ctls s) (event_ctls s) l None /\ NoDup (map fst l) /\ last s = fst <$> list.last l /\
  Forall (fun p => 1 <= fst (snd p) < 2 ^ 64) l.

(** One event: the actions that run, and the controls that remain. *)
Definition tick_ran (l : list (ctl_id * (Z * A))) : list A :=
  map (snd ∘ snd) (filter (fun p => fst (snd p) = 1) l).
Definition tick_rest (l : list (ctl_id * (Z * A))) : list (ctl_id * (Z * A)) :=
  map (fun p => (fst p, (fst (snd p) - 1, snd (snd p)))) (filter (fun p => fst (snd p) <> 1) l).

(** The threads [l] wait on the functor. *)
Definition waits_in (st : ThreadLife.state) (h : option tid) (l : list tid) : Prop :=
  wf st /\ wait_chain (threads st) h l /\
  forall u x, u ∈ l -> threads st !! u = Some x -> waiting_for_event x = true.

Definition waits s (l : list tid) : Prop := waits_in (life s) (wthreads s) l.

(** After the event the threads [l] are scheduled and wait no more, the others
    are as they were. *)
Definition list_woken (l : list tid) (st st' : ThreadLife.state) : Prop :=
  wf st' /\ calls st' = match l with t :: _ => CallVthread t 0 false :: calls st | [] => calls st end /\
  forall u, threads st' !! u =
    if decide (u ∈ l) then (fun x => set_scheduled true (set_waiting_for_event false x)) <$> threads st !! u else threads st !! u.

(** Event controls act on the rest of the world: they send a value to a net,
    which may schedule threads, but leave those that wait here. *)
Context (act : A -> ThreadLife.state * W -> ThreadLife.state * W).

Definition run_act (a : A) s : option (ev_state A B W) := Some (with_world (act a (life s, env s)) s).

Definition acts (l : list A) (w : ThreadLife.state * W) : ThreadLife.state * W := fold_left (fun w a => act a w) l w.

Definition act_ok : Prop := forall a h l w, waits_in (fst w) h l -> waits_in (fst (act a w)) h l.

End spec.

(** ** Lemmas *)

Section lemmas.

Context {A B W : Type}.
Implicit Types s : ev_state A B W.
Implicit Types l k r : list (ctl_id * (Z * A)).

Lemma ctl_seg_eq (m m' : gmap ctl_id (evctl A)) h l e : (forall i, i ∈ map fst l -> m' !! i = m !! i) -> ctl_seg m h l e -> ctl_seg m' h l e.
Proof.
  revert h. induction l as [|[j [n a]] l IH]; intros h Hm Hc; [done|]. cbn [map fst] in Hm.
  destruct Hc as [-> (nx & Hj & Hc)]. split; [done|]. exists nx. rewrite Hm by left. split; [done|]. apply IH; [|done].
  intros i Hi. apply Hm. by right.
Qed.

Lemma ctl_seg_app (m : gmap ctl_id (evctl A)) h k r e : ctl_seg m h (k ++ r) e <-> exists x, ctl_seg m h k x /\ ctl_seg m x r e.
Proof.
  revert h. induction k as [|[j [n a]] k IH]; intros h; cbn [app ctl_seg].
  - split; [by eexists|]. by intros (x & -> & ?).
  - setoid_rewrite IH. firstorder.
Qed.

(** [*last = p], where [last] is the last of the controls [k] kept so far. *)
Lemma write_last_returns s k x p :
  ctl_seg (ctls s) (event_ctls s) k x -> last s = fst <$> list.last k -> NoDup (map fst k) ->
  returns (write_last p s) (fun s' => ctl_seg (ctls s') (event_ctls s') k p /\
    (forall i, i ∉ map fst k -> ctls s' !! i = ctls s !! i) /\ last s' = last s /\
    wthreads s' = wthreads s /\ old_bits s' = old_bits s /\ life s' = life s /\ env s' = env s).
Proof.
  intros Hc Hl Hnd. unfold write_last. rewrite Hl.
  destruct k as [|[i [n a]] k _] using rev_ind; cbn [fmap option_fmap option_map list.last]; [by apply returns_ret|].
  rewrite last_snoc. cbn [fmap option_fmap option_map fst].
  apply ctl_seg_app in Hc as (y & Hk & [-> (nx & Hi & ->)]). rewrite Hi. apply returns_ret.
  rewrite map_app in *. cbn [map fst] in *. apply NoDup_app in Hnd as (Hnd & Hik & _).
  cbn. split_and!; try done; [| |by rewrite Hl, last_snoc].
  - apply ctl_seg_app. exists (Some i). split.
    + eapply ctl_seg_eq; [|done]. intros j Hj. rewrite lookup_insert_ne; [done|]. intros ->. apply (Hik j Hj). left.
    + split; [done|]. exists p. by rewrite lookup_insert_eq.
  - intros j Hj. rewrite lookup_insert_ne; [done|]. intros ->. set_solver.
Qed.

Lemma ctl_seg_in (m : gmap ctl_id (evctl A)) h l e i : ctl_seg m h l e -> i ∈ map fst l -> is_Some (m !! i).
Proof.
  revert h. induction l as [|[j [n a]] l IH]; intros h Hc Hi; [by apply elem_of_nil in Hi|].
  destruct Hc as [-> (nx & Hj & Hc)]. cbn [map fst] in Hi. apply elem_of_cons in Hi as [->|Hi]; [by eexists|by eapply IH].
Qed.

Lemma schedule_evctl_returns i n a s l :
  controls s l -> ctls s !! i = None -> 1 <= n < 2 ^ 64 ->
  returns (schedule_evctl i n a s) (fun s' => controls s' (l ++ [(i, (n, a))]) /\
    wthreads s' = wthreads s /\ old_bits s' = old_bits s /\ life s' = life s /\ env s' = env s).
Proof.
  intros (Hc & Hnd & Hl & Hn) Hi Hn1. unfold schedule_evctl. apply returns_assert; [by rewrite bool_decide_true|].
  assert (i ∉ map fst l) as Hil by (intros Hin; destruct (ctl_seg_in _ _ _ _ _ Hc Hin); congruence).
  eapply returns_bind.
  - apply (write_last_returns (with_ctls (<[i := mk_evctl n None a]> (ctls s)) s) l None (Some i)); [|done..].
    eapply ctl_seg_eq; [|done]. intros j Hj. cbn. rewrite lookup_insert_ne; [done|]. by intros ->.
  - intros s' (H1 & H2 & _ & H3). apply returns_ret. split; [|done]. split_and!; cbn; try done.
    + apply ctl_seg_app. exists (Some i). split; [done|]. split; [done|]. exists None. rewrite H2 by done. cbn. by rewrite lookup_insert_eq.
    + rewrite map_app. apply NoDup_app. split_and!; [done| |apply NoDup_singleton]. intros x Hx ->%list_elem_of_singleton. done.
    + by rewrite last_snoc.
    + apply Forall_app. split; [done|]. by constructor; [|constructor].
Qed.

(** *** The loop over the controls *)

Context (act : A -> ThreadLife.state * W -> ThreadLife.state * W).

Lemma run_controls_returns r : forall k fuel s cur,
  ctl_seg (ctls s) (event_ctls s) k cur -> ctl_seg (ctls s) cur r None -> NoDup (map fst (k ++ r)) ->
  last s = fst <$> list.last k -> (length r <= fuel)%nat -> Forall (fun p => 1 <= fst (snd p) < 2 ^ 64) r ->
  returns (run_controls (run_act act) fuel cur s) (fun s' =>
    ctl_seg (ctls s') (event_ctls s') (k ++ tick_rest r) None /\ last s' = fst <$> list.last (k ++ tick_rest r) /\
    wthreads s' = wthreads s /\ old_bits s' = old_bits s /\ (life s', env s') = acts act (tick_ran r) (life s, env s)).
Proof.
  induction r as [|[i [n a]] r IH]; intros k fuel s cur Hk Hr Hnd Hl Hf Hn.
  { cbn [ctl_seg] in Hr. subst cur. destruct fuel; apply returns_ret; rewrite app_nil_r; by split_and!. }
  destruct Hr as [-> (nx & Hi & Hr)]. apply Forall_cons in Hn as [Hn1 Hn]. cbn [fst snd] in Hn1.
  destruct fuel as [|fuel]; cbn in Hf; [lia|]. cbn [run_controls]. unfold dec_and_run. rewrite Hi. cbn [mbind option_bind ecount_ ctl_next ctl_action].
  destruct (Z.eqb_spec n 0); [lia|]. cbn [negb assert_ mbind option_bind].
  assert (w_sub n 1 = n - 1) as -> by (unfold w_sub; apply w_wrap_id; unfold word_ok; lia).
  rewrite map_app in Hnd. cbn [map fst] in Hnd. apply NoDup_app in Hnd as (Hnk & Hkr & Hnr). apply NoDup_cons in Hnr as [Hir Hnr].
  assert (i ∉ map fst k) as Hik by (intros H; apply (Hkr _ H); left).
  destruct (Z.eqb_spec (n - 1) 0) as [Hz|Hz].
  - unfold run_act. do 2 (cbn [mbind option_bind ctls with_world with_ctls]; rewrite lookup_insert_eq). cbn [mbind option_bind ecount_ ctl_next].
    rewrite (proj2 (Z.eqb_eq (n - 1) 0)) by done.
    set (s1 := with_ctls _ _).
    eapply returns_bind; [apply (write_last_returns s1 k (Some i) nx)|].
    + eapply ctl_seg_eq; [|done]. intros j Hj. cbn. rewrite lookup_delete_ne, lookup_insert_ne; [done|by intros ->..].
    + done.
    + done.
    + intros s2 (H1 & H2 & H3 & H4 & H5 & H6 & H7). eapply returns_mono; [apply (IH k fuel s2 nx)|].
      * done.
      * eapply ctl_seg_eq; [|done]. intros j Hj. rewrite H2.
        -- cbn. rewrite lookup_delete_ne, lookup_insert_ne; [done|by intros ->..].
        -- intros Hjk. apply (Hkr j Hjk). by right.
      * rewrite map_app. apply NoDup_app. split_and!; [done| |done]. intros j Hj Hjr. apply (Hkr j Hj). by right.
      * by rewrite H3.
      * lia.
      * done.
      * intros s3 (G1 & G2 & G3 & G4 & G5).
        assert (tick_rest ((i, (n, a)) :: r) = tick_rest r /\ tick_ran ((i, (n, a)) :: r) = a :: tick_ran r) as [-> ->].
        { unfold tick_rest, tick_ran. rewrite filter_cons_False by (cbn; lia). rewrite filter_cons_True by (cbn; lia). done. }
        split_and!; [done|done|by rewrite G3, H4|by rewrite G4, H5|].
        rewrite G5, H6, H7. cbn. by rewrite <- surjective_pairing.
  - do 2 (cbn [mbind option_bind ctls with_ctls]; rewrite lookup_insert_eq). cbn [mbind option_bind ecount_ ctl_next].
    rewrite (proj2 (Z.eqb_neq (n - 1) 0)) by done.
    eapply returns_mono; [apply (IH (k ++ [(i, (n - 1, a))]) fuel)|].
    + apply ctl_seg_app. exists (Some i). split.
      * eapply ctl_seg_eq; [|done]. intros j Hj. cbn. rewrite lookup_insert_ne; [done|by intros ->].
      * split; [done|]. exists nx. cbn. by rewrite lookup_insert_eq.
    + eapply ctl_seg_eq; [|done]. intros j Hj. cbn. rewrite lookup_insert_ne; [done|by intros ->].
    + rewrite !map_app. cbn [map fst]. rewrite <- app_assoc. apply NoDup_app. split_and!; [done|done|]. by apply NoDup_cons.
    + cbn. by rewrite last_snoc.
    + lia.
    + done.
    + intros s3 (G1 & G2 & G3 & G4 & G5).
      assert (tick_rest ((i, (n, a)) :: r) = (i, (n - 1, a)) :: tick_rest r /\ tick_ran ((i, (n, a)) :: r) = tick_ran r) as [-> ->].
      { unfold tick_rest, tick_ran. rewrite filter_cons_True by (cbn; lia). rewrite filter_cons_False by (cbn; lia). done. }
      rewrite <- app_assoc in G1, G2. by split_and!.
Qed.

Lemma tick_rest_ok l : NoDup (map fst l) -> Forall (fun p => 1 <= fst (snd p) < 2 ^ 64) l ->
  NoDup (map fst (tick_rest l)) /\ Forall (fun p => 1 <= fst (snd p) < 2 ^ 64) (tick_rest l).
Proof.
  intros Hnd Hn. unfold tick_rest. rewrite map_map. cbn [fst]. split.
  - eapply sublist_NoDup; [exact Hnd|]. apply (fmap_sublist fst), sublist_filter.
  - apply Forall_map. rewrite Forall_forall in Hn |- *. intros p [Hp1 Hp]%list_elem_of_filter. specialize (Hn p Hp). cbn. lia.
Qed.

Lemma acts_waits h lt (al : list A) w : act_ok act -> waits_in (fst w) h lt -> waits_in (fst (acts act al w)) h lt.
Proof. intros Hact. unfold acts. revert w. induction al as [|a al IH]; intros w Hw; cbn [fold_left]; [done|]. by apply IH, Hact. Qed.

(** An event: the controls tick, the threads wake. *)
Lemma run_waiting_returns fuel s l lt :
  act_ok act -> controls s l -> waits s lt -> (length l <= fuel)%nat ->
  returns (run_waiting_threads_ (run_act act) fuel s) (fun s' =>
    let w := acts act (tick_ran l) (life s, env s) in
    controls s' (tick_rest l) /\ wthreads s' = None /\ old_bits s' = old_bits s /\ env s' = snd w /\ list_woken lt (fst w) (life s') /\ wf (life s')).
Proof.
  intros Hact (Hc & Hnd & Hl & Hn) Hw Hf. unfold run_waiting_threads_.
  eapply returns_bind; [apply (run_controls_returns l [] fuel (with_last None s)); done|]. cbn [app].
  intros s1 (H1 & H2 & H3 & H4 & H5). destruct (tick_rest_ok l Hnd Hn) as [Ht1 Ht2].
  assert (controls s1 (tick_rest l)) as Hcs by by split_and!.
  assert (waits_in (life s1) (wthreads s1) lt) as (W1 & W2 & W3).
  { change (life s1) with (fst (life s1, env s1)). rewrite H5, H3. by apply acts_waits. }
  cbv zeta. cbn in H5. rewrite <- H5. cbn [fst snd].
  destruct (wthreads s1) as [t|] eqn:Ht.
  - inversion W2 as [|t' x lt' Hx Hch Htn]; subst. cbn [life with_wthreads].
    eapply returns_bind; [by eapply vthread_schedule_list_returns|]. intros st' (G1 & G2 & G3). by apply returns_ret.
  - inversion W2; subst. apply returns_ret. by split_and!.
Qed.

End lemmas.

(** *** Edges *)

(** The changes an edge functor reacts to. *)
Definition edge_fires (edge_ : Z) (from to : vvp_bit4_t) : bool :=
  (edge_ =? vvp_edge_none) || negb (Z.land edge_ (VVP_EDGE from to) =? 0).

Lemma edge_fires_levels from to :
  edge_fires vvp_edge_posedge from to = (bit4_level from <? bit4_level to) /\
  edge_fires vvp_edge_negedge from to = (bit4_level to <? bit4_level from) /\
  edge_fires vvp_edge_none from to = true.
Proof. by destruct from, to. Qed.

(** The inputs of one port, one after the other. *)
Fixpoint edge_inputs {A W} run_run (fuel : nat) (edge_ : Z) (port : nat) (vs : list vvp_vector4_t) (s : ev_state A (list vvp_bit4_t) W) :
    option (ev_state A (list vvp_bit4_t) W * list (sent vvp_vector4_t)) :=
  match vs with
  | [] => Some (s, [])
  | v :: vs =>
      '(s, l) ← edge_sa_recv_vec4 run_run fuel edge_ port v s;
      '(s, l') ← edge_inputs run_run fuel edge_ port vs s;
      Some (s, l ++ l')
  end.

(** None of the inputs makes an edge. *)
Fixpoint quiet (edge_ : Z) (old : vvp_bit4_t) (vs : list vvp_vector4_t) : Prop :=
  match vs with
  | [] => True
  | v :: vs => edge_fires edge_ old (value v 0) = false /\ quiet edge_ (value v 0) vs
  end.

(** The bit that is remembered in the end. *)
Definition last_bit (old : vvp_bit4_t) (vs : list vvp_vector4_t) : vvp_bit4_t := fold_left (fun _ v => value v 0) vs old.

Section edges.

Context {A W : Type} (act : A -> ThreadLife.state * W -> ThreadLife.state * W).
Implicit Types s : ev_state A (list vvp_bit4_t) W.

Lemma edge_recv_quiet fuel edge_ port v s old :
  old_bits s !! port = Some old -> edge_fires edge_ old (value v 0) = false ->
  edge_sa_recv_vec4 (run_act act) fuel edge_ port v s = Some (with_old_bits (<[port := value v 0]> (old_bits s)) s, []).
Proof.
  intros Ho Hf. unfold edge_sa_recv_vec4, edge_recv_vec4_. rewrite Ho. cbn [mbind option_bind]. unfold edge_fires in Hf. by rewrite Hf.
Qed.

Lemma edge_recv_fires fuel edge_ port v s old l lt :
  act_ok act -> controls s l -> waits s lt -> (length l <= fuel)%nat ->
  old_bits s !! port = Some old -> edge_fires edge_ old (value v 0) = true ->
  returns (edge_sa_recv_vec4 (run_act act) fuel edge_ port v s) (fun r => let s' := fst r in
    let w := acts act (tick_ran l) (life s, env s) in
    snd r = [(v, None)] /\ controls s' (tick_rest l) /\ wthreads s' = None /\ old_bits s' = <[port := value v 0]> (old_bits s) /\
    env s' = snd w /\ list_woken lt (fst w) (life s')).
Proof.
  intros Hact Hc Hw Hfuel Ho Hf. unfold edge_sa_recv_vec4, edge_recv_vec4_. rewrite Ho. cbn [mbind option_bind]. unfold edge_fires in Hf. rewrite Hf.
  set (s0 := with_old_bits _ s).
  destruct (run_waiting_returns act fuel s0 l lt Hact Hc Hw Hfuel) as (s' & -> & H1 & H2 & H3 & H4 & H5 & _).
  apply returns_ret. cbn [fst snd]. by split_and!.
Qed.

Lemma quiet_inputs fuel edge_ port vs : forall s old,
  old_bits s !! port = Some old -> quiet edge_ old vs ->
  edge_inputs (run_act act) fuel edge_ port vs s = Some (with_old_bits (<[port := last_bit old vs]> (old_bits s)) s, []).
Proof.
  induction vs as [|v vs IH]; intros s old Ho Hq; cbn [edge_inputs].
  - cbn [last_bit fold_left]. rewrite list_insert_id by done. by destruct s.
  - destruct Hq as [Hq1 Hq2]. rewrite (edge_recv_quiet _ _ _ _ _ old) by done. cbn [mbind option_bind].
    rewrite (IH _ (value v 0)); [|cbn; by apply list_lookup_insert_eq; eapply lookup_lt_Some|done].
    cbn. by rewrite list_insert_insert_eq.
Qed.

(** A running thread that waits joins the list. *)
Lemma wait_on_returns s t x l lt :
  controls s l -> waits s lt -> running (life s) t x -> i_am_in_function x = false ->
  returns (wait_on t s) (fun s' => controls s' l /\ waits s' (t :: lt) /\ old_bits s' = old_bits s /\
    threads (life s') !! t = Some (set_wait_next (wthreads s) (set_waiting_for_event true x))).
Proof.
  intros Hc (W1 & W2 & W3) Hr Hf. unfold wait_on, add_waiting_thread. cbn [life with_wthreads].
  pose proof Hr as (Hx & _ & _ & _ & Hwe & _).
  assert (t ∉ lt) as Htl by (intros Hin; specialize (W3 t x Hin Hx); congruence).
  eapply returns_bind; [by eapply of_WAIT_returns|]. intros [b st'] (_ & Hwf & Hst). cbn [fst snd] in *. subst st'. apply returns_ret.
  set (x' := set_wait_next _ _) in *. split_and!; [done| |done|cbn; by rewrite lookup_insert_eq].
  assert (forall u, u <> t -> threads (put t x' (life s)) !! u = threads (life s) !! u) as Hne by (intros u Hu; cbn; by rewrite lookup_insert_ne).
  split_and!; cbn [fst snd life with_world wthreads with_wthreads].
  - done.
  - apply (chain_next _ t x'); [cbn; by rewrite lookup_insert_eq| |done].
    change (wait_next x') with (wthreads s). clearbody x'. clear -W2 Htl Hne. revert W2 Htl.
    induction 1 as [|u y lt Hu _ IH Hul]; intros Htl; [constructor|].
    apply not_elem_of_cons in Htl as [Hut Htl]. apply (chain_next _ u y); [by rewrite Hne|by apply IH|done].
  - intros u y Hu Hy. destruct (decide (u = t)) as [->|Hut].
    + cbn in Hy. rewrite lookup_insert_eq in Hy. by injection Hy as <-.
    + rewrite Hne in Hy by done. apply elem_of_cons in Hu as [->|Hu]; [done|]. by apply (W3 u).
Qed.

End edges.

(** *** Any change *)

Lemma any_changed_spec old bit lo lb :
  rep4 old lo -> rep4 bit lb ->
  any_changed old bit = bool_decide ((if decide (lo = []) then replicate (length lb) BIT4_X else lo) <> lb) /\
  rep4 (any_reference old bit) (if decide (lo = []) then replicate (length lb) BIT4_X else lo).
Proof.
  intros Ho Hb. unfold any_changed, any_reference. rewrite (rep4_size _ _ Ho), (rep4_size _ _ Hb).
  destruct (Nat.eqb_spec (length lo) (length lb)) as [Hl|Hl]; cbn [negb andb].
  - assert (existsb (fun idx => negb (bit4_eqb (value old idx) (value bit idx))) (seq 0 (length lb)) = bool_decide (lo <> lb)) as ->.
    { apply eq_true_iff_eq. rewrite bool_decide_eq_true, existsb_exists. split.
      - intros (i & _ & Hi) ->. rewrite (rep4_value _ _ _ Ho), (rep4_value _ _ _ Hb) in Hi. by destruct (bit4_eqb_spec (bit_at lb i) (bit_at lb i)).
      - intros Hne. destruct (existsb (fun i => negb (bit4_eqb (bit_at lo i) (bit_at lb i))) (seq 0 (length lb))) eqn:E.
        + apply existsb_exists in E as (i & Hi & HE). exists i. split; [done|]. by rewrite (rep4_value _ _ _ Ho), (rep4_value _ _ _ Hb).
        + exfalso. apply Hne, bit_at_ext; [done|]. intros i Hi. destruct (bit4_eqb_spec (bit_at lo i) (bit_at lb i)) as [|Hd]; [done|].
          assert (existsb (fun i => negb (bit4_eqb (bit_at lo i) (bit_at lb i))) (seq 0 (length lb)) = true) as E'; [|congruence].
          apply existsb_exists. exists i. split; [apply in_seq; lia|]. by destruct (bit4_eqb_spec (bit_at lo i) (bit_at lb i)). }
    destruct (decide (lo = [])) as [->|]; [|done]. destruct lb; [|done]. done.
  - destruct lo as [|b lo]; cbn [length Nat.eqb andb].
    + rewrite decide_True by done. split; [|apply rep4_fill]. rewrite (rep4_eeq _ _ _ _ (rep4_fill _ _) Hb).
      by rewrite bool_decide_not.
    + rewrite decide_False by done. split; [|done]. symmetry. apply bool_decide_true. by intros [= <-].
Qed.

(** ** Theorems *)

(** C12: a thread that waits on an edge functor keeps waiting as long as the inputs
    make no edge of the functor's kind - up for posedge, down for negedge, any
    input for an event without a kind - and the first input that does schedules
    it, together with the other threads that wait, empties the list and is
    passed on; nothing was passed on before. *)
Theorem wait_until_edge {A W} (act : A -> ThreadLife.state * W -> ThreadLife.state * W) fuel edge_ port
    (s : ev_state A (list vvp_bit4_t) W) l lt t x old vs v :
  act_ok act -> controls s l -> waits s lt -> (length l <= fuel)%nat ->
  running (life s) t x -> i_am_in_function x = false ->
  old_bits s !! port = Some old -> quiet edge_ old vs -> edge_fires edge_ (last_bit old vs) (value v 0) = true ->
  returns (s ← wait_on t s; '(s1, q) ← edge_inputs (run_act act) fuel edge_ port vs s;
           '(s2, o) ← edge_sa_recv_vec4 (run_act act) fuel edge_ port v s1; Some (s1, q, s2, o))
    (fun '(s1, q, s2, o) =>
       q = [] /\ o = [(v, None)] /\
       threads (life s1) !! t = Some (set_wait_next (wthreads s) (set_waiting_for_event true x)) /\ wthreads s1 = Some t /\
       wthreads s2 = None /\ list_woken (t :: lt) (fst (acts act (tick_ran l) (life s1, env s1))) (life s2) /\
       (forall u, u ∈ t :: lt -> exists y, threads (life s2) !! u = Some y /\ is_scheduled y = true /\ waiting_for_event y = false) /\
       controls s2 (tick_rest l)).
Proof.
  intros Hact Hc Hw Hfuel Hr Hf Ho Hq Hfire.
  destruct (wait_on_returns s t x l lt Hc Hw Hr Hf) as (s0 & Es0 & Hc0 & Hw0 & Ho0 & Ht0). rewrite Es0. cbn [mbind option_bind].
  assert (wthreads s0 = Some t) as Hh.
  { destruct Hw0 as (_ & W2 & _). inversion W2. done. }
  rewrite <- Ho0 in Ho. rewrite (quiet_inputs act _ _ _ _ _ old) by done. cbn [mbind option_bind].
  set (s1 := with_old_bits _ s0).
  destruct (edge_recv_fires act fuel edge_ port v s1 (last_bit old vs) l (t :: lt) Hact Hc0 Hw0 Hfuel) as ([s2 o] & -> & H1 & H2 & H3 & H4 & H5 & H6).
  { cbn. apply list_lookup_insert_eq. by eapply lookup_lt_Some. }
  { done. }
  cbn [mbind option_bind fst snd] in *. apply returns_ret. split_and!; try done.
  intros u Hu. pose proof (acts_waits act _ (t :: lt) (tick_ran l) (life s1, env s1) Hact Hw0) as (_ & W2 & _).
  destruct H6 as (_ & _ & H6). rewrite H6, decide_True by done.
  destruct (wait_chain_dom _ _ _ W2 u Hu) as [y ->]. by eexists.
Qed.

(** An any-edge functor fires exactly when the vector changes, the first time
    from all X, and remembers the input. *)
Theorem any_edge_on_change {A W} (act : A -> ThreadLife.state * W -> ThreadLife.state * W) fuel port
    (s : ev_state A (list vvp_vector4_t) W) l lt old bit lo lb :
  act_ok act -> controls s l -> waits s lt -> (length l <= fuel)%nat ->
  old_bits s !! port = Some old -> rep4 old lo -> rep4 bit lb ->
  let before := if decide (lo = []) then replicate (length lb) BIT4_X else lo in
  returns (any_sa_recv_vec4 (run_act act) fuel port bit s) (fun r => let s' := fst r in
    (exists new, old_bits s' = <[port := new]> (old_bits s) /\ rep4 new lb) /\
    if decide (before = lb) then
      snd r = [] /\ s' = with_old_bits (old_bits s') s
    else
      let w := acts act (tick_ran l) (life s, env s) in
      snd r = [(bit, None)] /\ controls s' (tick_rest l) /\ wthreads s' = None /\ env s' = snd w /\ list_woken lt (fst w) (life s')).
Proof.
  intros Hact Hc Hw Hfuel Ho Hlo Hlb before. unfold any_sa_recv_vec4, any_recv_vec4_. rewrite Ho. cbn [mbind option_bind].
  destruct (any_changed_spec old bit lo lb Hlo Hlb) as [-> Href]. fold before in Href |- *.
  destruct (decide (before = lb)) as [Heq|Hne].
  - rewrite bool_decide_false by tauto. apply returns_ret. cbn [fst snd]. split; [|done]. eexists. split; [done|]. by rewrite <- Heq.
  - rewrite bool_decide_true by done. set (s0 := with_old_bits _ s).
    destruct (run_waiting_returns act fuel s0 l lt Hact Hc Hw Hfuel) as (s' & -> & H1 & H2 & H3 & H4 & H5 & _).
    apply returns_ret. cbn [fst snd]. split; [by exists bit|]. by split_and!.
Qed.

(** The controls after [k] events, and the actions of the events up to [k]. *)
Definition left_after {A} (k : nat) (l : list (ctl_id * (Z * A))) : list (ctl_id * (Z * A)) :=
  map (fun p => (fst p, (fst (snd p) - Z.of_nat k, snd (snd p)))) (filter (fun p => Z.of_nat k < fst (snd p)) l).
Definition due_at {A} (j : nat) (l : list (ctl_id * (Z * A))) : list A :=
  map (snd ∘ snd) (filter (fun p => fst (snd p) = Z.of_nat j) l).

Lemma left_after_0 {A} (l : list (ctl_id * (Z * A))) : Forall (fun p => 1 <= fst (snd p) < 2 ^ 64) l -> left_after 0 l = l.
Proof.
  induction 1 as [|[i [n a]] l Hn _ IH]; [done|]. unfold left_after in *. cbn in Hn. rewrite filter_cons_True by (cbn; lia).
  cbn [map fst snd]. rewrite IH. by rewrite Z.sub_0_r.
Qed.

Lemma left_after_tick {A} k (l : list (ctl_id * (Z * A))) :
  tick_rest (left_after k l) = left_after (S k) l /\ tick_ran (left_after k l) = due_at (S k) l.
Proof.
  unfold tick_rest, tick_ran, left_after, due_at. induction l as [|[i [n a]] l [IH1 IH2]]; [done|].
  destruct (Z.lt_ge_cases (Z.of_nat k) n) as [Hk|Hk].
  - rewrite (filter_cons_True (fun p => Z.of_nat k < fst (snd p))) by done. cbn [map fst snd].
    destruct (decide (n = Z.of_nat (S k))) as [->|Hn].
    + rewrite (filter_cons_False (fun p => _ <> 1)) by (cbn; lia). rewrite (filter_cons_True (fun p => _ = 1)) by (cbn; lia).
      rewrite (filter_cons_False (fun p => Z.of_nat (S k) < _)) by (cbn; lia). rewrite (filter_cons_True (fun p => _ = Z.of_nat (S k))) by done.
      cbn [map compose]. by rewrite IH1, IH2.
    + rewrite (filter_cons_True (fun p => _ <> 1)) by (cbn; lia). rewrite (filter_cons_False (fun p => _ = 1)) by (cbn; lia).
      rewrite (filter_cons_True (fun p => Z.of_nat (S k) < _)) by (cbn; lia). rewrite (filter_cons_False (fun p => _ = Z.of_nat (S k))) by done.
      cbn [map fst snd]. rewrite IH1, IH2. split; [|done]. do 3 f_equal. lia.
  - rewrite (filter_cons_False (fun p => Z.of_nat k < _)) by (cbn; lia).
    rewrite (filter_cons_False (fun p => Z.of_nat (S k) < _)) by (cbn; lia). rewrite (filter_cons_False (fun p => _ = Z.of_nat (S k))) by (cbn; lia).
    done.
Qed.

(** The actions of the events [1 .. k], in order. *)
Definition due_until {A} (k : nat) (l : list (ctl_id * (Z * A))) : list A := concat (map (fun j => due_at j l) (seq 1 k)).

(** C17: the event controls of a functor run their actions at the event they count
    down to, in the order in which they were queued, and leave the queue; an
    event control that is queued now joins it at the end. *)
Theorem event_controls_run {A W} (act : A -> ThreadLife.state * W -> ThreadLife.state * W) (f : A -> W -> W) fuel
    (s : ev_state A unit W) l lt i n a k :
  act_ok act -> (forall a w, snd (act a w) = f a (snd w)) ->
  controls s l -> waits s lt -> ctls s !! i = None -> (length l < fuel)%nat -> 1 <= n < 2 ^ 64 ->
  let queue := l ++ [(i, (n, a))] in
  returns (s ← schedule_evctl i n a s; for_ 0 k (fun _ s => fst <$> or_sa_recv_vec4 (run_act act) fuel (vector4_fill 1 BIT4_X) s) s)
    (fun s' => controls s' (left_after k queue) /\ env s' = fold_left (fun e a => f a e) (due_until k queue) (env s)).
Proof.
  intros Hact Hf Hc Hw Hi Hfuel Hn queue. eapply returns_bind; [by apply (schedule_evctl_returns i n a s l)|].
  intros s0 (Hc0 & Ht & Ho & Hlf & He). fold queue in Hc0. assert (waits s0 lt) as Hw0 by (unfold waits; by rewrite Ht, Hlf).
  rewrite <- He. eapply returns_mono; [apply (returns_for (fun j t => controls t (left_after j queue) /\ (exists lt, waits t lt) /\
    env t = fold_left (fun e a => f a e) (due_until j queue) (env s0)))|].
  - split_and!; [|by exists lt|done]. rewrite left_after_0; [done|]. apply Hc0.
  - intros j t _ (H1 & (lt' & H2) & H3). unfold or_sa_recv_vec4.
    assert (length (left_after j queue) <= fuel)%nat as Hfj.
    { unfold left_after. rewrite length_map. etransitivity; [apply length_filter|]. unfold queue. rewrite length_app. cbn. lia. }
    destruct (run_waiting_returns act fuel t _ lt' Hact H1 H2 Hfj) as (t' & -> & G1 & G2 & G3 & G4 & G5 & G6). cbn [mbind option_bind fmap option_fmap option_map fst].
    apply returns_ret. destruct (left_after_tick j queue) as [E1 E2]. rewrite E1, E2 in *. split_and!; [done| |].
    + exists []. unfold waits. rewrite G2. split_and!; [done|constructor|]. intros u x Hu. by apply elem_of_nil in Hu.
    + rewrite G4. unfold due_until in H3 |- *. rewrite seq_S, map_app, concat_app, fold_left_app. cbn [map concat]. rewrite app_nil_r, <- H3.
      assert (forall al w, snd (acts act al w) = fold_left (fun e a => f a e) al (snd w)) as ->; [|done].
      induction al as [|b al IH]; intros w; cbn [fold_left]; [done|]. unfold acts in *. cbn [fold_left]. by rewrite IH, Hf.
  - intros s' (H1 & _ & H3). done.
Qed.

(** *** Examples *)

(** Event controls that append a number to a log. *)
Definition log_act (a : nat) (w : ThreadLife.state * list nat) : ThreadLife.state * list nat := (fst w, snd w ++ [a]).

Lemma log_act_ok : act_ok log_act.
Proof. by intros a h l w. Qed.

(** The thread 11 of the demonstration in [ThreadSteps] runs; nothing waits. *)
Definition quiet_functor {B} (bits : B) : ev_state nat B (list nat) :=
  mk_ev {[ 1%positive := mk_evctl 2 None 7%nat ]} (Some 1%positive) (Some 1%positive) None bits (after demo) [].

Lemma quiet_functor_controls {B} (bits : B) : controls (quiet_functor bits) [(1%positive, (2, 7%nat))].
Proof. split_and!; [split; [done|by exists None]|apply NoDup_singleton|done|by repeat constructor]. Qed.

Lemma quiet_functor_waits {B} (bits : B) : waits (quiet_functor bits) [].
Proof.
  split_and!; [exact (reachable_wf _ _ (wf_initial _ initial_two_scopes) demo_reachable)|constructor|].
  intros u x Hu. by apply elem_of_nil in Hu.
Qed.

Lemma wait_until_edge_witness :
  exists x, threads (after demo) !! 11%positive = Some x /\
  returns (s ← wait_on 11 (quiet_functor (replicate 4 BIT4_X));
           '(s1, q) ← edge_inputs (run_act log_act) 1 vvp_edge_posedge 0 [mk_vector4 1 [0] [0]; mk_vector4 1 [0] [0]] s;
           '(s2, o) ← edge_sa_recv_vec4 (run_act log_act) 1 vvp_edge_posedge 0 (mk_vector4 1 [1] [0]) s1; Some (s1, q, s2, o))
    (fun '(s1, q, s2, o) => o = [(mk_vector4 1 [1] [0], None)] /\
       exists y, threads (life s2) !! 11%positive = Some y /\ is_scheduled y = true /\ waiting_for_event y = false).
Proof.
  eexists. split; [by vm_compute|]. eapply returns_mono.
  - eapply (wait_until_edge log_act 1 vvp_edge_posedge 0 (quiet_functor (replicate 4 BIT4_X)) [(1%positive, (2, 7%nat))] [] 11);
      [exact log_act_ok|apply quiet_functor_controls|apply quiet_functor_waits|done|vm_compute; by split_and!|done|done|by vm_compute|by vm_compute].
  - intros [[[s1 q] s2] o] (_ & Ho & _ & _ & _ & _ & Hw & _). split; [done|]. apply Hw. left.
Defined.

Lemma any_edge_on_change_witness :
  returns (any_sa_recv_vec4 (run_act log_act) 1 0 (mk_vector4 1 [1] [0]) (quiet_functor (replicate 4 (vector4_fill 0 BIT4_X))))
    (fun r => snd r = [(mk_vector4 1 [1] [0], None)]).
Proof.
  eapply returns_mono.
  - eapply (any_edge_on_change log_act 1 0 (quiet_functor (replicate 4 (vector4_fill 0 BIT4_X))) [(1%positive, (2, 7%nat))] [] (vector4_fill 0 BIT4_X)
      (mk_vector4 1 [1] [0]) [] [BIT4_1]);
      [exact log_act_ok|apply quiet_functor_controls|apply quiet_functor_waits|done|done|apply (rep4_fill 0)|].
    split; [apply wf4_short; [lia|by unfold word_ok..]|by vm_compute].
  - intros r [_ H]. by apply H.
Defined.

Lemma event_controls_run_witness :
  returns (s ← schedule_evctl 2 1 8%nat (quiet_functor tt);
           for_ 0 2 (fun _ s => fst <$> or_sa_recv_vec4 (run_act log_act) 2 (vector4_fill 1 BIT4_X) s) s)
    (fun s' => env s' = [8%nat; 7%nat] /\ controls s' []).
Proof.
  eapply returns_mono; [apply (event_controls_run log_act (fun a e => e ++ [a]) 2 (quiet_functor tt) [(1%positive, (2, 7%nat))] [] 2 1 8%nat 2)|].
  - exact log_act_ok.
  - done.
  - apply quiet_functor_controls.
  - apply quiet_functor_waits.
  - done.
  - cbn. lia.
  - lia.
  - intros s' [H1 H2]. by split.
Defined.

(** An event control whose action changes the input of its own event: the action
    of [a <= @(a) v] sends [v] to [a], which reaches the event functor while it
    runs its controls.  The control is still in the list with its count at zero,
    and the assertion of [dec_and_run] fails, whatever the nested calls do. *)
Fixpoint feedback (n : nat) (v : vvp_vector4_t) (s : ev_state vvp_vector4_t (list vvp_vector4_t) unit) :
    option (ev_state vvp_vector4_t (list vvp_vector4_t) unit) :=
  match n with
  | O => Some s
  | S n => snd <$> any_recv_vec4_ (feedback n) 4 0 v s
  end.

Definition self_event : ev_state vvp_vector4_t (list vvp_vector4_t) unit :=
  mk_ev {[ 1%positive := mk_evctl 1 None (mk_vector4 1 [0] [0]) ]} (Some 1%positive) (Some 1%positive) None
    (replicate 4 (vector4_fill 1 BIT4_X)) (mk_state ∅ ∅ ∅ []) tt.

Example self_event_aborts n :
  is_Some (any_recv_vec4_ (feedback 0) 4 0 (mk_vector4 1 [1] [0]) self_event) /\
  any_recv_vec4_ (feedback (S n)) 4 0 (mk_vector4 1 [1] [0]) self_event = None.
Proof. split; [by eexists|]. by destruct n. Qed.
