(* ===== verification/Resolv.v ===== *)
(** * Resolution of the drivers of a net ([vvp/resolv.h], [vvp/resolv.cc])

    A resolver has as many inputs as a net has drivers.  It keeps their values in
    a quaternary tree, flattened into one array with the inputs first, and when
    an input changes it resolves only the groups on the way from there to the
    root, and stops when a group has not changed.  The file models the tree of
    [resolv_tri], which resolves strengths, and of [resolv_triand] and
    [resolv_trior], which apply wired logic, and proves that the incremental
    evaluation computes the resolution of all inputs, and that the shape of the
    tree does not matter where the operation is associative. *)

From Stdlib Require Import ZArith Lia Bool.
From stdpp Require Import base numbers list strings.
From S2P Require Import Prelude Bit4 Words Vec4 Vec4Move Vec2 VecRep Strength.

Open Scope nat_scope.

(** ** Definitions *)

(** The values a resolver works on. *)
Class ResolvValue (V : Type) := {
  rv_size : V -> nat;
  rv_eeq : V -> V -> bool;
  rv_math : V -> V -> option V;
  rv_empty : V
}.

(** The loop of the constructors that counts the branch nodes, and the array. *)
Fixpoint count_nodes (fuel nports nnodes : nat) : nat :=
  match fuel with
  | O => nnodes
  | S fuel =>
      if 4 <? nports then let nports := (nports + 3) / 4 in count_nodes fuel nports (nnodes + nports) else nnodes
  end.

Definition resolv_nnodes (nports : nat) : nat :=
  let nnodes := count_nodes nports nports nports in if 1 <? nnodes then nnodes + 1 else nnodes.

Section resolv.

Context {V : Type} `{!ResolvValue V}.

Definition val_make (nports : nat) : list V := replicate (resolv_nnodes nports) rv_empty.

(** The resolved value of the nodes from [ip] up to [ll]. *)
Definition resolve_group (val_ : list V) (ip ll : nat) : option V :=
  out ← val_ !! ip;
  for_ (ip + 1) (ll - (ip + 1)) (fun ip out =>
    v ← val_ !! ip;
    if rv_size v =? 0 then Some out
    else if rv_size out =? 0 then Some v
    else rv_math out v) out.

(** The loop [while (span > 1)]: the array, and the base and the port at the end
    unless the loop returned. *)
Fixpoint walk (fuel : nat) (base span port : nat) (val_ : list V) : option (list V * option (nat * nat)) :=
  if 1 <? span then
    match fuel with
    | O => None
    | S fuel =>
        let next_base := base + span in
        let ip := base + Nat.ldiff port 3 in
        let op := next_base + port / 4 in
        let ll := Nat.min (ip + 4) next_base in
        out ← resolve_group val_ ip ll;
        old ← val_ !! op;
        if rv_eeq old out then Some (val_, None)
        else walk fuel next_base ((span + 3) / 4) (port / 4) (<[op := out]> val_)
    end
  else Some (val_, Some (base, port)).

End resolv.

(** *** [resolv_tri] *)

#[export] Instance vector8_resolv : ResolvValue vvp_vector8_t :=
  {| rv_size := size8_; rv_eeq := eeq8; rv_math := resolve8; rv_empty := vector8_make 0 |}.

(** The pull is resolved into every bit. *)
Definition pull_bits (hiz_value : vvp_scalar_t) (v : vvp_vector8_t) : option vvp_vector8_t :=
  for_ 0 (size8_ v) (fun idx v => s ← value8 v idx; set_bit8 v idx (resolve s hiz_value)) v.

(** What [recv_vec8_] does at the root: the array and the value it sends. *)
Definition tri_output (hiz_value : vvp_scalar_t) (base port : nat) (base_val : vvp_vector8_t) (val_ : list vvp_vector8_t) :
    option (list vvp_vector8_t * list vvp_vector8_t) :=
  v ← val_ !! base;
  if negb (is_hiz hiz_value) then
    v ← pull_bits hiz_value v;
    let val_ := <[base := v]> val_ in
    p ← val_ !! port;
    if (base =? port) && eeq8 p base_val then Some (val_, []) else Some (val_, [v])
  else Some (val_, [v]).

Definition tri_recv_vec8_ (nports : nat) (hiz_value : vvp_scalar_t) (port : nat) (bit : vvp_vector8_t) (val_ : list vvp_vector8_t) :
    option (list vvp_vector8_t * list vvp_vector8_t) :=
  assert_ (port <? nports);;
  base_val ← val_ !! port;
  if eeq8 base_val bit then Some (val_, [])
  else
    '(val_, r) ← walk nports 0 nports port (<[port := bit]> val_);
    match r with
    | None => Some (val_, [])
    | Some (base, port) => tri_output hiz_value base port base_val val_
    end.

Definition tri_recv_vec4_ (nports : nat) (hiz_value : vvp_scalar_t) (port : nat) (bit : vvp_vector4_t) (val_ : list vvp_vector8_t) :
    option (list vvp_vector8_t * list vvp_vector8_t) :=
  v ← vector8_of_vector4 bit 6 6; tri_recv_vec8_ nports hiz_value port v val_.

(** *** [resolv_wired_logic] *)

Definition wired_logic_math_ (bit_math : vvp_bit4_t -> vvp_bit4_t -> vvp_bit4_t) (a b : vvp_vector4_t) : option vvp_vector4_t :=
  assert_ (size_ a =? size_ b);;
  for_ 0 (size_ a) (fun idx out => set_bit out idx (bit_math (value a idx) (value b idx))) (vector4_fill (size_ a) BIT4_X).

Definition triand_bit (abit bbit : vvp_bit4_t) : vvp_bit4_t :=
  if bit4_eqb abit BIT4_Z then bbit
  else if bit4_eqb bbit BIT4_Z then abit
  else if bit4_eqb abit BIT4_0 || bit4_eqb bbit BIT4_0 then BIT4_0
  else if bit4_eqb abit BIT4_X || bit4_eqb bbit BIT4_X then BIT4_X
  else BIT4_1.

Definition trior_bit (abit bbit : vvp_bit4_t) : vvp_bit4_t :=
  if bit4_eqb abit BIT4_Z then bbit
  else if bit4_eqb bbit BIT4_Z then abit
  else if bit4_eqb abit BIT4_1 || bit4_eqb bbit BIT4_1 then BIT4_1
  else if bit4_eqb abit BIT4_X || bit4_eqb bbit BIT4_X then BIT4_X
  else BIT4_0.

Definition wired_resolv (bit_math : vvp_bit4_t -> vvp_bit4_t -> vvp_bit4_t) : ResolvValue vvp_vector4_t :=
  {| rv_size := size_; rv_eeq := eeq; rv_math := wired_logic_math_ bit_math; rv_empty := vector4_fill 0 BIT4_X |}.

Definition wired_recv_vec4_ (bit_math : vvp_bit4_t -> vvp_bit4_t -> vvp_bit4_t) (nports port : nat) (bit : vvp_vector4_t)
    (val_ : list vvp_vector4_t) : option (list vvp_vector4_t * list vvp_vector4_t) :=
  assert_ (port <? nports);;
  old ← val_ !! port;
  if eeq old bit then Some (val_, [])
  else
    '(val_, r) ← walk (ResolvValue0 := wired_resolv bit_math) nports 0 nports port (<[port := bit]> val_);
    match r with
    | None => Some (val_, [])
    | Some (base, _) => v ← val_ !! base; Some (val_, [v])
    end.

Definition wired_recv_vec8_ (bit_math : vvp_bit4_t -> vvp_bit4_t -> vvp_bit4_t) (nports port : nat) (bit : vvp_vector8_t)
    (val_ : list vvp_vector4_t) : option (list vvp_vector4_t * list vvp_vector4_t) :=
  v ← reduce4 bit; wired_recv_vec4_ bit_math nports port v val_.

(** *** The functors of a resolver *)

Inductive resolv_core := resolv_tri (hiz_value : vvp_scalar_t) | resolv_triand | resolv_trior.

(** The functor [compile_resolver] makes; an unknown type is an error, [None] in
    the result. *)
Definition resolver_core (type : string) : option (option resolv_core) :=
  if decide (type = "tri"%string) then h ← scalar_make BIT4_Z 0 0; Some (Some (resolv_tri h))
  else if decide (type = "tri0"%string) then h ← scalar_make BIT4_0 5 5; Some (Some (resolv_tri h))
  else if decide (type = "tri1"%string) then h ← scalar_make BIT4_1 5 5; Some (Some (resolv_tri h))
  else if decide (type = "triand"%string) then Some (Some resolv_triand)
  else if decide (type = "trior"%string) then Some (Some resolv_trior)
  else Some None.

(** Its loop over [base]: the ports a functor has, behind the port it begins at. *)
Fixpoint resolver_functors (fuel base argc : nat) : list (nat * nat) :=
  if base <? argc then
    match fuel with
    | O => []
    | S fuel => let nports := if 4 <? argc - base then 4 else argc - base in (base, nports) :: resolver_functors fuel (base + 4) argc
    end
  else [].

(** [resolv_extend]: the port of the core. *)
Definition extend_port (port_base port : nat) : nat := port_base + port.

(** *** Parts of vectors, and the drivers *)

(** [resolv_core::recv_vec4_pv_] up to the call of [recv_vec4_]. *)
Definition recv_vec4_pv_ (bit : vvp_vector4_t) (base wid vwid : nat) : option vvp_vector4_t :=
  assert_ (size_ bit =? wid);;
  let res := vector4_fill vwid BIT4_X in
  res ← for_ 0 base (fun idx res => set_bit res idx BIT4_Z) res;
  res ← for_ 0 (Nat.min wid (vwid - base)) (fun idx res => set_bit res (idx + base) (value bit idx)) res;
  for_ (base + wid) (vwid - (base + wid)) (fun idx res => set_bit res idx BIT4_Z) res.

(** [resolv_core::recv_vec8_pv_] up to the call of [recv_vec8_]. *)
Definition recv_vec8_pv_ (bit : vvp_vector8_t) (base wid vwid : nat) : option vvp_vector8_t :=
  assert_ (size8_ bit =? wid);;
  let res := vector8_make vwid in
  res ← for_ 0 base (fun idx res => set_bit8 res idx scalar_hiz) res;
  res ← for_ 0 (Nat.min wid (vwid - base)) (fun idx res => s ← value8 bit idx; set_bit8 res (idx + base) s) res;
  for_ (base + wid) (vwid - (base + wid)) (fun idx res => set_bit8 res idx scalar_hiz) res.

Definition tri_count_drivers (nports bit_idx : nat) (counts : nat * nat * nat) (val_ : list vvp_vector8_t) : option (nat * nat * nat) :=
  for_ 0 nports (fun idx counts =>
    v ← val_ !! idx;
    if size8_ v =? 0 then Some counts
    else s ← value8 v bit_idx; Some (update_driver_counts (scalar_value s) counts)) counts.

Definition wired_count_drivers (nports bit_idx : nat) (counts : nat * nat * nat) (val_ : list vvp_vector4_t) : option (nat * nat * nat) :=
  for_ 0 nports (fun idx counts =>
    v ← val_ !! idx;
    if size_ v =? 0 then Some counts else Some (update_driver_counts (value v bit_idx) counts)) counts.

(** ** Specification *)

Section spec.

Context {T : Type} (f : T -> T -> T).

(** Two drivers of a net; a port that is not driven yet has no bits. *)
Definition combine2 (a b : list T) : list T :=
  match b with [] => a | _ => match a with [] => b | _ => zip_with f a b end end.

(** All of them, from the left. *)
Definition combine (l : list (list T)) : list T := fold_left combine2 l [].

(** The nodes of an array from [ip] up to [ll]. *)
Definition nodes (l : list (list T)) (ip ll : nat) : list (list T) := map (fun i => default [] (l !! i)) (seq ip (ll - ip)).

Definition group_range (base span j : nat) : nat * nat := (base + 4 * j, Nat.min (base + 4 * j + 4) (base + span)).

Definition group_value (l : list (list T)) (base span j : nat) : list T :=
  combine (nodes l (fst (group_range base span j)) (snd (group_range base span j))).

(** The tree over a list of values. *)
Definition groups (l : list (list T)) : list (list T) := map (group_value l 0 (length l)) (seq 0 ((length l + 3) / 4)).

Fixpoint tree (fuel : nat) (l : list (list T)) : list T :=
  match fuel with
  | O => default [] (head l)
  | S fuel => if 1 <? length l then tree fuel (groups l) else default [] (head l)
  end.

(** The pull at the root. *)
Context (post : list T -> list T).

(** What a resolver with these inputs drives. *)
Definition resolved (ins : list (list T)) : list T := post (tree (length ins) ins).

(** Every branch node from a level on holds the value of its group. *)
Inductive consistent (l : list (list T)) : nat -> nat -> nat -> Prop :=
  | consistent_root base : consistent l base 1 base
  | consistent_level base span root :
      1 < span ->
      (forall j, j < (span + 3) / 4 ->
         l !! (base + span + j) = Some ((if (span + 3) / 4 =? 1 then post else id) (group_value l base span j))) ->
      consistent l (base + span) ((span + 3) / 4) root ->
      consistent l base span root.

End spec.

(** A sequence of inputs, and all that the resolver sends. *)
Fixpoint run_recv {V W : Type} (recv : nat -> W -> list V -> option (list V * list V)) (msgs : list (nat * W)) (val_ : list V) :
    option (list V * list V) :=
  match msgs with
  | [] => Some (val_, [])
  | (port, w) :: msgs =>
      '(val_, sent) ← recv port w val_;
      '(val_, more) ← run_recv recv msgs val_;
      Some (val_, sent ++ more)
  end.

(** The values the ports have after it. *)
Definition inputs {W T : Type} (bits_of : W -> list T) (msgs : list (nat * W)) (ins : list (list T)) : list (list T) :=
  fold_left (fun ins m => <[fst m := bits_of (snd m)]> ins) msgs ins.

(** The bits of the vectors, and the vectors of one net. *)
Definition rep8 (v : vvp_vector8_t) (l : list vvp_scalar_t) : Prop := wf8 v /\ bits8 v = l.

Definition fits_net {T} (P : T -> Prop) (w : nat) (l : list T) : Prop := (l = [] \/ length l = w) /\ Forall P l.

(** What the pull makes of the bits of a net. *)
Definition pulled (hiz_value : vvp_scalar_t) (l : list vvp_scalar_t) : list vvp_scalar_t :=
  if is_hiz hiz_value then l else map (fun s => resolve s hiz_value) l.

(** The drives of [recv_vec4]: strong, or not at all. *)
Definition strong_drives : list vvp_scalar_t := [0x00; 0x66; 0xee; 0xe6]%Z.

(** ** Lemmas *)

(** What the operations of the values mean on lists of bits. *)
Class ResolvLaws {V T : Type} `{EqDecision T} (RV : ResolvValue V) (rep : V -> list T -> Prop) (f : T -> T -> T) (fits : list T -> Prop) : Prop := {
  law_size v l : rep v l -> rv_size v = length l;
  law_eeq v w l m : rep v l -> rep w m -> rv_eeq v w = bool_decide (l = m);
  law_math v w l m : rep v l -> rep w m -> fits l -> fits m -> l <> [] -> m <> [] -> returns (rv_math v w) (fun r => rep r (zip_with f l m));
  law_fits l m : fits l -> fits m -> l <> [] -> m <> [] -> fits (zip_with f l m);
  law_fits_nil : fits []
}.

Section walk.

Context {V T : Type} `{EqDecision T} {RV : ResolvValue V} {rep : V -> list T -> Prop} {f : T -> T -> T} {fits : list T -> Prop}.
Context `{!ResolvLaws RV rep f fits}.
Implicit Types labs : list (list T).

Lemma combine2_fits a b : fits a -> fits b -> fits (combine2 f a b).
Proof.
  intros Ha Hb. destruct b as [|y b]; [done|]. destruct a as [|x a]; [done|]. cbn [combine2]. by apply (law_fits (x :: a) (y :: b)).
Qed.

Lemma combine_fits_from a (l : list (list T)) : fits a -> Forall fits l -> fits (fold_left (combine2 f) l a).
Proof. intros Ha Hl. revert a Ha. induction Hl; intros a Ha; cbn [fold_left]; [done|]. apply IHHl. by apply combine2_fits. Qed.

Lemma nodes_fits labs ip ll : Forall fits labs -> Forall fits (nodes labs ip ll).
Proof.
  intros H. unfold nodes. apply Forall_map, Forall_forall. intros i _. cbn. destruct (labs !! i) as [l|] eqn:E; [|apply law_fits_nil].
  by eapply Forall_lookup_1 in E.
Qed.

Lemma nodes_congr labs labs' ip ll : (forall i, ip <= i < ll -> labs' !! i = labs !! i) -> nodes labs' ip ll = nodes labs ip ll.
Proof. intros H. apply map_ext_in. intros i Hi%in_seq. by rewrite H by lia. Qed.

(** The loop over a group. *)
Lemma resolve_group_returns val_ labs ip ll :
  Forall2 rep val_ labs -> Forall fits labs -> ip < ll <= length labs ->
  returns (resolve_group val_ ip ll) (fun v => rep v (combine f (nodes labs ip ll))).
Proof.
  intros Hrep Hfits Hll. unfold resolve_group.
  destruct (lookup_lt_is_Some_2 labs ip ltac:(lia)) as [l0 Hl0]. destruct (Forall2_lookup_r _ _ _ _ _ Hrep Hl0) as (v0 & Hv0 & Hr0).
  rewrite Hv0. cbn [mbind option_bind].
  assert (forall n i v a, rep v a -> fits a -> i + n <= length labs ->
    returns (for_ i n (fun ip out => v ← val_ !! ip; if rv_size v =? 0 then Some out else if rv_size out =? 0 then Some v else rv_math out v) v)
      (fun r => rep r (fold_left (combine2 f) (map (fun i => default [] (labs !! i)) (seq i n)) a))) as Hloop.
  { induction n as [|n IH]; intros i v a Hv Ha Hlen; cbn [for_ seq map fold_left]; [by apply returns_ret|].
    destruct (lookup_lt_is_Some_2 labs i ltac:(lia)) as [l Hl]. destruct (Forall2_lookup_r _ _ _ _ _ Hrep Hl) as (w & Hw & Hr).
    assert (fits l) as Hfl by (by eapply Forall_lookup_1 in Hl). rewrite Hw, Hl. cbn [mbind option_bind default].
    eapply returns_bind.
    - instantiate (1 := fun r => rep r (combine2 f a l)). rewrite (law_size _ _ Hr), (law_size _ _ Hv).
      destruct l as [|y l]; [by apply returns_ret|]. cbn [length Nat.eqb]. destruct a as [|x a]; [by apply returns_ret|]. cbn [length Nat.eqb].
      by apply (law_math v w (x :: a) (y :: l)).
    - intros r Hr'. apply IH; [done|by apply combine2_fits|lia]. }
  unfold combine, nodes. replace (ll - ip) with (S (ll - (ip + 1))) by lia. cbn [seq map fold_left]. rewrite Hl0. cbn [default].
  assert (fits l0) by (by eapply Forall_lookup_1 in Hl0). rewrite Nat.add_1_r in *.
  destruct l0 as [|x0 l0]; (apply Hloop; [done..|lia]).
Qed.

Context (post : list T -> list T).

Lemma consistent_frame labs labs' base span root :
  (forall i, base <= i -> labs' !! i = labs !! i) -> consistent f post labs base span root -> consistent f post labs' base span root.
Proof.
  intros Hf Hc. revert Hf. induction Hc as [base|base span root Hs Hj _ IH]; intros Hf; constructor.
  - done.
  - intros j Hjs. rewrite Hf by lia. rewrite Hj by done. do 2 f_equal. unfold group_value. f_equal. symmetry. apply nodes_congr.
    intros i Hi. apply Hf. unfold group_range in Hi. cbn in Hi. lia.
  - apply IH. intros i Hi. apply Hf. lia.
Qed.

Lemma quarter n : 4 * (n / 4) <= n < 4 * (n / 4) + 4.
Proof. pose proof (Nat.div_mod n 4 ltac:(lia)). pose proof (Nat.mod_upper_bound n 4 ltac:(lia)). lia. Qed.

Lemma span_shrinks span : 1 < span -> 1 <= (span + 3) / 4 < span.
Proof. intros H. pose proof (quarter (span + 3)). lia. Qed.

Lemma consistent_root_ge labs base span root : consistent f post labs base span root -> base <= root /\ (1 < span -> base + span <= root).
Proof. induction 1 as [base|base span root Hs Hj _ [IH1 IH2]]; [lia|]. split; lia. Qed.

Lemma consistent_span_root labs base span root p : consistent f post labs base span root -> p < span -> base + p <= root.
Proof. intros Hc Hp. destruct (consistent_root_ge _ _ _ _ Hc) as [H1 H2]. destruct (decide (span = 1)); [lia|]. specialize (H2 ltac:(lia)). lia. Qed.

Lemma group_index span p : p < span -> p / 4 < (span + 3) / 4.
Proof. intros H. pose proof (quarter (span + 3)). pose proof (quarter p). lia. Qed.

Lemma ldiff_3 p : Nat.ldiff p 3 = 4 * (p / 4).
Proof.
  change 3 with (Nat.ones 2). rewrite Nat.ldiff_ones_r, Nat.shiftl_mul_pow2, Nat.shiftr_div_pow2. change (2 ^ 2) with 4. apply Nat.mul_comm.
Qed.

(** The group of a node, and the groups that do not have it. *)
Lemma group_has base span p : p < span -> base + 4 * (p / 4) <= base + p < Nat.min (base + 4 * (p / 4) + 4) (base + span).
Proof. intros H. pose proof (quarter p). lia. Qed.

Lemma group_value_congr labs labs' base span j p :
  (forall i, base <= i < base + span -> i <> base + p -> labs' !! i = labs !! i) -> j <> p / 4 ->
  group_value f labs' base span j = group_value f labs base span j.
Proof.
  intros H Hj. unfold group_value, combine. f_equal. apply nodes_congr. intros i Hi. cbn in Hi. apply H; [lia|]. intros ->.
  apply Hj. apply (Nat.div_unique p 4 j (p - 4 * j)); lia.
Qed.

Context (post_idem : forall l, fits l -> post (post l) = post l).

(** The branch node that holds the value of a group. *)
Definition level_post (span : nat) : list T -> list T := if (span + 3) / 4 =? 1 then post else id.

Lemma consistent_level' labs base span root :
  1 < span -> (forall j, j < (span + 3) / 4 -> labs !! (base + span + j) = Some (level_post span (group_value f labs base span j))) ->
  consistent f post labs (base + span) ((span + 3) / 4) root -> consistent f post labs base span root.
Proof. apply consistent_level. Qed.

Section level.

(** One level, of which the node [p] has changed. *)
Context (labs0 labs : list (list T)) (base span root p : nat).
Context (Hs : 1 < span) (Hp : p < span) (Hag : forall i, base <= i -> i <> base + p -> labs !! i = labs0 !! i).
Context (Hj : forall j, j < (span + 3) / 4 -> labs0 !! (base + span + j) = Some (level_post span (group_value f labs0 base span j))).

Lemma other_groups j : j <> p / 4 -> group_value f labs base span j = group_value f labs0 base span j.
Proof using All. intros Hjp. apply (group_value_congr _ _ _ _ _ p); [|done]. intros i Hi Hip. apply Hag; lia. Qed.

(** The branch node has not changed. *)
Lemma level_kept :
  Forall fits labs0 -> consistent f post labs0 (base + span) ((span + 3) / 4) root ->
  labs !! (base + span + p / 4) = Some (group_value f labs base span (p / 4)) -> consistent f post labs base span root.
Proof using All.
  intros Hfits0 Hc Hop. apply consistent_level'; [done| |by eapply consistent_frame; [|done]; intros i Hi; apply Hag; lia].
  intros j Hjs. destruct (decide (j = p / 4)) as [->|Hjp]; [|by rewrite other_groups, Hag, Hj by lia].
  rewrite Hop. f_equal. rewrite Hag, Hj in Hop by lia. injection Hop as <-. unfold level_post.
  destruct ((span + 3) / 4 =? 1); [|done]. symmetry. apply post_idem. apply combine_fits_from; [apply law_fits_nil|by apply nodes_fits].
Qed.

(** The branch node is set, and the rest of the walk gives [labs']. *)
Lemma level_rebuilt labs' :
  (forall i, i < base + span -> labs' !! i = labs !! i) ->
  (forall j, j < (span + 3) / 4 -> labs' !! (base + span + j) =
     if decide (j = p / 4) then Some (level_post span (group_value f labs base span (p / 4))) else labs0 !! (base + span + j)) ->
  consistent f post labs' (base + span) ((span + 3) / 4) root -> consistent f post labs' base span root.
Proof using All.
  intros Hlow Hnext Hc. apply consistent_level'; [done| |done]. intros j Hjs.
  assert (group_value f labs' base span j = group_value f labs base span j) as ->.
  { unfold group_value. f_equal. apply nodes_congr. intros i Hi. apply Hlow. cbn in Hi. lia. }
  rewrite Hnext by done. case_decide as Hjp; [by subst j|]. rewrite Hj by done. by rewrite other_groups.
Qed.

End level.

(** The walk from a node that has changed.  [labs0] is the array before. *)
Lemma walk_returns labs0 base span root : Forall fits labs0 -> consistent f post labs0 base span root ->
  forall fuel p val_ labs,
  p < span -> span <= fuel -> Forall2 rep val_ labs -> Forall fits labs -> root < length labs ->
  (forall i, base <= i -> i <> base + p -> labs !! i = labs0 !! i) ->
  returns (walk fuel base span p val_) (fun r => exists labs', Forall2 rep (fst r) labs' /\ Forall fits labs' /\ length labs' = length labs /\
    (forall i, i < base + span -> labs' !! i = labs !! i) /\
    match snd r with
    | None => 1 < span /\ consistent f post labs' base span root /\ labs' !! root = labs0 !! root
    | Some (b, p') => b = root /\ p' = 0 /\ exists v, labs' !! root = Some v /\ consistent f post (<[root := post v]> labs') base span root
    end).
Proof.
  intros Hfits0. induction 1 as [base|base span root Hs Hj Hc IH]; intros fuel p val_ labs Hp Hfuel Hrep Hfits Hroot Hag.
  { assert (walk fuel base 1 p val_ = Some (val_, Some (base, p))) as -> by (by destruct fuel).
    apply returns_ret; exists labs. cbn [fst snd]. destruct (lookup_lt_is_Some_2 labs base ltac:(lia)) as [v Hv].
    split_and!; [done..|lia|]. exists v. by split; [|constructor]. }
  pose proof (span_shrinks span Hs) as Hns. destruct (consistent_root_ge _ _ _ _ Hc) as [Hge Hge'].
  pose proof (group_has base span p Hp) as Hgh. destruct fuel as [|fuel]; [lia|].
  cbn [walk]. rewrite (proj2 (Nat.ltb_lt 1 span)) by done. rewrite ldiff_3.
  eapply returns_bind; [apply (resolve_group_returns val_ labs); [done|done|lia]|]. intros out Hout.
  change (combine f _) with (group_value f labs base span (p / 4)) in Hout.
  assert (fits (group_value f labs base span (p / 4))) as Hfg by (apply combine_fits_from; [apply law_fits_nil|by apply nodes_fits]).
  pose proof (group_index span p Hp) as Hp4. pose proof (consistent_span_root _ _ _ _ _ Hc Hp4) as Hopr.
  destruct (lookup_lt_is_Some_2 labs (base + span + p / 4) ltac:(lia)) as [lop Hop].
  destruct (Forall2_lookup_r _ _ _ _ _ Hrep Hop) as (vop & Hvop & Hrop).
  rewrite Hvop. cbn [mbind option_bind]. rewrite (law_eeq _ _ _ _ Hrop Hout). case_bool_decide as Heq.
  { apply returns_ret. exists labs. cbn [fst snd]. split_and!; [done..| |by apply Hag; lia].
    apply (level_kept labs0 labs base span root p); [done..|]. by rewrite Hop, Heq. }
  eapply returns_mono.
  { apply (IH fuel (p / 4) (<[base + span + p / 4 := out]> val_) (<[base + span + p / 4 := group_value f labs base span (p / 4)]> labs));
      [done|lia|by apply Forall2_insert|by apply Forall_insert|by rewrite length_insert|].
    intros i Hi Hne. rewrite list_lookup_insert_ne by lia. apply Hag; lia. }
  intros [val' r] (labs' & Hrep' & Hfits' & Hlen' & Hlow & Hr). cbn [fst snd] in *. exists labs'. rewrite length_insert in Hlen'.
  assert (forall i, i < base + span -> labs' !! i = labs !! i) as Hlow' by (intros i Hi; rewrite Hlow, list_lookup_insert_ne by lia; done).
  assert (forall j, j < (span + 3) / 4 -> labs' !! (base + span + j) =
    if decide (j = p / 4) then Some (group_value f labs base span (p / 4)) else labs0 !! (base + span + j)) as Hnext.
  { intros j Hjs. rewrite Hlow by lia. case_decide as Hjp; [subst j; by rewrite list_lookup_insert_eq by lia|].
    rewrite list_lookup_insert_ne by lia. apply Hag; lia. }
  split_and!; [done..|]. destruct r as [[b p']|].
  - destruct Hr as (-> & -> & v & Hv & Hcv). split_and!; [done..|]. exists v. split; [done|].
    apply (level_rebuilt labs0 labs base span root p); [done..| | |done].
    { intros i Hi. rewrite list_lookup_insert_ne by lia. by apply Hlow'. }
    intros j Hjs. unfold level_post. destruct (decide ((span + 3) / 4 = 1)) as [E|E].
    + rewrite E in Hc. assert (root = base + span) as -> by (by inversion Hc; [|lia]). assert (j = 0 /\ p / 4 = 0) as [-> Hp0] by lia.
      specialize (Hnext 0 Hjs). rewrite Hp0, Nat.add_0_r in *. rewrite decide_True in * by done.
      rewrite list_lookup_insert_eq by lia. rewrite E. cbn [Nat.eqb]. congruence.
    + rewrite (proj2 (Nat.eqb_neq _ 1)) by done. rewrite list_lookup_insert_ne by (specialize (Hge' ltac:(lia)); lia). by apply Hnext.
  - destruct Hr as (Hs' & Hcl & Hrt). split_and!; [done| |by rewrite Hrt].
    apply (level_rebuilt labs0 labs base span root p); [done..| |done].
    intros j Hjs. unfold level_post. rewrite (proj2 (Nat.eqb_neq _ 1)) by lia. by apply Hnext.
Qed.

(** *** The state of a resolver *)

Lemma length_nodes labs base span : length (nodes labs base (base + span)) = span.
Proof. unfold nodes. rewrite length_map, length_seq. lia. Qed.

Lemma lookup_nodes labs base span i : i < span -> nodes labs base (base + span) !! i = Some (default [] (labs !! (base + i))).
Proof. intros Hi. unfold nodes. rewrite list_lookup_fmap, lookup_seq_lt by lia. done. Qed.

Lemma tree_single fuel l : tree f fuel [l] = l.
Proof. by destruct fuel. Qed.

Lemma groups_nodes labs base span :
  groups f (nodes labs base (base + span)) = map (group_value f labs base span) (seq 0 ((span + 3) / 4)).
Proof.
  unfold groups. rewrite length_nodes. apply map_ext_in. intros j Hj%in_seq. unfold group_value. f_equal. unfold nodes at 1 3.
  cbn [group_range fst snd].
  replace (Nat.min (base + 4 * j + 4) (base + span) - (base + 4 * j)) with (Nat.min (0 + 4 * j + 4) (0 + span) - (0 + 4 * j)) by lia.
  apply list_eq_same_length with (Nat.min (0 + 4 * j + 4) (0 + span) - (0 + 4 * j)); [by rewrite length_map, length_seq..|].
  intros i x y Hi. rewrite !list_lookup_fmap, !lookup_seq_lt by done. cbn [fmap option_fmap option_map].
  rewrite lookup_nodes by lia. rewrite Nat.add_assoc, Nat.add_0_l. cbn. congruence.
Qed.

(** The values of a level, resolved over the tree. *)
Lemma consistent_tree labs base span root fuel :
  consistent f post labs base span root -> 1 < span <= fuel -> labs !! root = Some (post (tree f fuel (nodes labs base (base + span)))).
Proof.
  intros Hc. revert fuel. induction Hc as [base|base span root Hs Hj Hc IH]; intros fuel Hf; [lia|].
  destruct fuel as [|fuel]; [lia|]. pose proof (span_shrinks span Hs) as Hns. pose proof (length_nodes labs base span) as Hl.
  cbn [tree]. rewrite Hl, (proj2 (Nat.ltb_lt 1 span)) by done. rewrite groups_nodes.
  destruct (decide ((span + 3) / 4 = 1)) as [E|E].
  - rewrite E in *. assert (root = base + span) as -> by (by inversion Hc; [|lia]). specialize (Hj 0 ltac:(lia)).
    rewrite Nat.add_0_r in Hj. cbn [seq map]. rewrite tree_single. exact Hj.
  - rewrite (IH fuel) by lia. do 3 f_equal. unfold nodes. rewrite Nat.add_sub'. apply list_eq_same_length with ((span + 3) / 4).
    + by rewrite length_map, length_seq.
    + by rewrite length_map, length_seq.
    + intros i x y Hi. rewrite !list_lookup_fmap, !lookup_seq_lt by done. cbn. rewrite Hj by done.
      rewrite (proj2 (Nat.eqb_neq _ 1)) by done. cbn. congruence.
Qed.

(** The array of a new resolver. *)
Definition resolv_root (nports : nat) : nat := resolv_nnodes nports - 1.

Lemma count_nodes_acc fuel n acc : count_nodes fuel n acc = acc + count_nodes fuel n 0.
Proof.
  revert n acc. induction fuel as [|fuel IH]; intros n acc; cbn [count_nodes]; [lia|]. destruct (4 <? n); [|lia].
  rewrite IH, (IH _ (0 + _)). lia.
Qed.

Lemma nnodes_more nports : 1 < nports -> resolv_nnodes nports = nports + count_nodes nports nports 0 + 1.
Proof. intros H. unfold resolv_nnodes. rewrite count_nodes_acc. by rewrite (proj2 (Nat.ltb_lt _ _)) by lia. Qed.

Lemma group_value_empty labs base span j : (forall i, labs !! i = Some [] \/ labs !! i = None) -> group_value f labs base span j = [].
Proof.
  intros H. unfold group_value, combine, nodes. generalize (seq (fst (group_range base span j)) (snd (group_range base span j) - fst (group_range base span j))).
  intros l. induction l as [|i l IH]; cbn [map fold_left]; [done|]. by destruct (H i) as [->| ->].
Qed.

Context (post_nil : post [] = []).

Lemma consistent_empty n fuel base span :
  1 < span <= fuel -> base + span + count_nodes fuel span 0 < n -> consistent f post (replicate n []) base span (base + span + count_nodes fuel span 0).
Proof.
  assert (forall i, replicate n (@nil T) !! i = Some [] \/ replicate n (@nil T) !! i = None) as Hall.
  { intros i. destruct (decide (i < n)) as [Hi|Hi]; [left; by apply lookup_replicate_2|right; apply lookup_ge_None_2; rewrite length_replicate; lia]. }
  revert base span. induction fuel as [|fuel IH]; intros base span Hs Hn; [lia|]. pose proof (span_shrinks span ltac:(lia)) as Hns.
  cbn [count_nodes] in *. destruct (Nat.ltb_spec 4 span) as [H4|H4].
  - rewrite count_nodes_acc in *. pose proof (quarter (span + 3)). apply consistent_level'; [lia| |].
    + intros j Hj. rewrite lookup_replicate_2 by lia. rewrite group_value_empty by done. unfold level_post. by destruct (_ =? 1); rewrite ?post_nil.
    + rewrite Nat.add_0_l, Nat.add_assoc. apply IH; lia.
  - pose proof (quarter (span + 3)). assert ((span + 3) / 4 = 1) as E by lia. rewrite Nat.add_0_r in *. apply consistent_level'; [lia| |].
    + rewrite E. intros j Hj. rewrite lookup_replicate_2 by lia. rewrite group_value_empty by done. unfold level_post. rewrite E. cbn [Nat.eqb]. by rewrite post_nil.
    + rewrite E. constructor.
Qed.

Context (post_fits : forall l, fits l -> fits (post l)).

(** The array [labs] of a resolver whose ports have the values [ins]: with one
    port, the port is the root, and holds the value with the pull. *)
Definition port_post (nports : nat) : list T -> list T := if nports =? 1 then post else id.

Record resolv_inv (nports : nat) (val_ : list V) (ins labs : list (list T)) : Prop := {
  ri_rep : Forall2 rep val_ labs;
  ri_fits : Forall fits labs;
  ri_length : length labs = resolv_nnodes nports;
  ri_ins : Forall fits ins;
  ri_nports : length ins = nports;
  ri_ports p l : ins !! p = Some l -> labs !! p = Some (port_post nports l);
  ri_consistent : consistent f post labs 0 nports (resolv_root nports)
}.

Lemma nnodes_pos nports : 0 < nports -> nports <= resolv_nnodes nports /\ resolv_root nports < resolv_nnodes nports /\ (1 < nports -> nports <= resolv_root nports).
Proof.
  intros H. unfold resolv_root. destruct (decide (nports = 1)) as [->|]; [vm_compute; lia|]. rewrite nnodes_more by lia. lia.
Qed.

Lemma consistent_one labs base : consistent f post labs base 1 base.
Proof. constructor. Qed.

Lemma inv_initial nports empty : 0 < nports -> rep empty [] -> resolv_inv nports (replicate (resolv_nnodes nports) empty) (replicate nports []) (replicate (resolv_nnodes nports) []).
Proof.
  intros Hn He. pose proof (nnodes_pos nports Hn) as (H1 & H2 & H3). constructor.
  - apply Forall2_replicate, He.
  - apply Forall_replicate, law_fits_nil.
  - apply length_replicate.
  - apply Forall_replicate, law_fits_nil.
  - apply length_replicate.
  - intros p l [-> Hp]%lookup_replicate_1. rewrite lookup_replicate_2 by lia. unfold port_post. by destruct (_ =? 1); rewrite ?post_nil.
  - destruct (decide (nports = 1)) as [->|]; [apply consistent_one|]. pose proof (nnodes_more nports ltac:(lia)) as E. unfold resolv_root in *. rewrite E in *.
    replace (nports + count_nodes nports nports 0 + 1 - 1) with (0 + nports + count_nodes nports nports 0) by lia. apply consistent_empty; lia.
Qed.

(** The root holds what the inputs resolve to. *)
Lemma inv_root nports val_ ins labs : 0 < nports -> resolv_inv nports val_ ins labs -> labs !! resolv_root nports = Some (resolved f post ins).
Proof.
  intros Hn H. unfold resolved. rewrite (ri_nports _ _ _ _ H). destruct (decide (nports = 1)) as [->|].
  - pose proof (ri_nports _ _ _ _ H). destruct ins as [|l [|]]; try done. rewrite tree_single. by apply (ri_ports _ _ _ _ H 0 l).
  - rewrite (consistent_tree _ _ _ _ nports (ri_consistent _ _ _ _ H)) by lia. do 3 f_equal.
    pose proof (ri_nports _ _ _ _ H) as Hl. apply list_eq_same_length with nports; [done|apply (length_nodes labs 0)|].
    intros i x y Hi. rewrite (lookup_nodes labs 0 nports i Hi). intros [= <-] Hy. cbn. rewrite (ri_ports _ _ _ _ H i y Hy).
    unfold port_post. by rewrite (proj2 (Nat.eqb_neq _ _)).
Qed.

(** The ports after a change of one. *)
Lemma ports_changed nports val_ ins labs labs' port l : resolv_inv nports val_ ins labs -> port < nports ->
  (forall i, i < nports -> labs' !! i = <[port := if nports =? 1 then post l else l]> labs !! i) ->
  forall p m, <[port := l]> ins !! p = Some m -> labs' !! p = Some (port_post nports m).
Proof.
  intros H Hp Hlow p m Hm. pose proof (ri_nports _ _ _ _ H) as Hnp. pose proof (ri_length _ _ _ _ H) as Hlen. pose proof (nnodes_pos nports ltac:(lia)) as (Hn1 & _).
  pose proof (lookup_lt_Some _ _ _ Hm) as Hpl. rewrite length_insert in Hpl. rewrite Hlow by lia. destruct (decide (p = port)) as [->|Hne].
  - rewrite list_lookup_insert_eq in Hm by lia. injection Hm as <-. rewrite list_lookup_insert_eq by lia. unfold port_post. by destruct (nports =? 1).
  - rewrite list_lookup_insert_ne in Hm by done. rewrite list_lookup_insert_ne by done. by apply (ri_ports _ _ _ _ H).
Qed.

(** The walk from a port that has changed. *)
Lemma recv_walk nports val_ ins labs port bit l : resolv_inv nports val_ ins labs -> port < nports -> rep bit l -> fits l ->
  returns (walk nports 0 nports port (<[port := bit]> val_)) (fun r =>
    match snd r with
    | None => (exists labs', resolv_inv nports (fst r) (<[port := l]> ins) labs') /\ resolved f post (<[port := l]> ins) = resolved f post ins
    | Some (b, p') => b = resolv_root nports /\ p' = 0 /\ exists v w, fst r !! b = Some v /\ rep v w /\ fits w /\ b < length (fst r) /\
        forall v', rep v' (post w) ->
          (exists labs', resolv_inv nports (<[b := v']> (fst r)) (<[port := l]> ins) labs') /\ resolved f post (<[port := l]> ins) = post w
    end).
Proof.
  intros H Hp Hbit Hl. pose proof (nnodes_pos nports ltac:(lia)) as (Hn1 & Hn2 & Hn3). pose proof (ri_length _ _ _ _ H) as Hlen.
  pose proof (ri_nports _ _ _ _ H) as Hnp.
  eapply returns_mono; [apply (walk_returns labs 0 nports (resolv_root nports) (ri_fits _ _ _ _ H) (ri_consistent _ _ _ _ H) nports port
      (<[port := bit]> val_) (<[port := l]> labs))|].
  1,2: lia. { apply Forall2_insert; [apply H|done]. } { apply Forall_insert; [apply H|done]. } { by rewrite length_insert, Hlen. }
  { intros i _ Hi. by apply list_lookup_insert_ne. }
  intros [val' r] (labs' & Hrep & Hfits & Hlen' & Hlow & Hr). cbn [fst snd] in *. rewrite length_insert, Hlen in Hlen'.
  assert (Forall fits (<[port := l]> ins)) as Hins by (apply Forall_insert; [apply H|done]).
  assert (length (<[port := l]> ins) = nports) as Hnp' by by rewrite length_insert.
  destruct r as [[b p']|].
  - destruct Hr as (-> & -> & w & Hw & Hc). split; [done|]. split; [done|]. destruct (Forall2_lookup_r _ _ _ _ _ Hrep Hw) as (v & Hv & Hvw).
    assert (fits w) as Hfw by (by eapply Forall_lookup_1 in Hw). exists v, w. split_and!; [done..|by apply lookup_lt_Some in Hv|].
    intros v' Hv'. assert (resolv_inv nports (<[resolv_root nports := v']> val') (<[port := l]> ins) (<[resolv_root nports := post w]> labs')) as Hinv.
    { constructor; [by apply Forall2_insert|by apply Forall_insert; [|apply post_fits]|by rewrite length_insert|done|done| |done].
      apply (ports_changed _ _ _ _ _ _ _ H Hp). intros i Hi. destruct (Nat.eqb_spec nports 1) as [E|E].
      - assert (i = 0 /\ port = 0) as [-> ->] by lia. assert (resolv_root nports = 0) as E0 by by rewrite E.
        rewrite E0 in *. rewrite !list_lookup_insert_eq by lia. do 2 f_equal. rewrite Hlow in Hw by lia. rewrite list_lookup_insert_eq in Hw by lia. congruence.
      - rewrite list_lookup_insert_ne by lia. by apply Hlow. }
    split; [by eexists|]. pose proof (inv_root nports _ _ _ ltac:(lia) Hinv) as Hr. rewrite list_lookup_insert_eq in Hr by lia. congruence.
  - destruct Hr as (Hs & Hc & Hrt). assert (resolv_inv nports val' (<[port := l]> ins) labs') as Hinv.
    { constructor; [done..| |done]. apply (ports_changed _ _ _ _ _ _ _ H Hp). rewrite (proj2 (Nat.eqb_neq _ _)) by lia. exact Hlow. }
    split; [by eexists|]. pose proof (inv_root nports _ _ _ ltac:(lia) Hinv). pose proof (inv_root nports _ _ _ ltac:(lia) H). congruence.
Qed.

(** An input that has not changed. *)
Lemma recv_same nports val_ ins labs port l : resolv_inv nports val_ ins labs -> port < nports -> fits l -> labs !! port = Some l ->
  resolv_inv nports val_ (<[port := l]> ins) labs /\ resolved f post (<[port := l]> ins) = resolved f post ins.
Proof.
  intros H Hp Hl Hlp. pose proof (ri_nports _ _ _ _ H) as Hnp. destruct (lookup_lt_is_Some_2 ins port ltac:(lia)) as [m Hm].
  pose proof (ri_ports _ _ _ _ H _ _ Hm) as Hpm. assert (resolv_inv nports val_ (<[port := l]> ins) labs) as Hinv.
  { destruct H. constructor; [done..|by apply Forall_insert|by rewrite length_insert| |done].
    intros p k Hk. destruct (decide (p = port)) as [->|Hne].
    - rewrite list_lookup_insert_eq in Hk by lia. injection Hk as <-. rewrite Hlp. f_equal. rewrite Hlp in Hpm. injection Hpm as ->.
      unfold port_post. destruct (nports =? 1); [|done]. symmetry. apply post_idem. by eapply Forall_lookup_1 in Hm.
    - rewrite list_lookup_insert_ne in Hk by done. auto. }
  split; [done|]. pose proof (inv_root nports _ _ _ ltac:(lia) Hinv). pose proof (inv_root nports _ _ _ ltac:(lia) H). congruence.
Qed.

(** A handler keeps the invariant and sends what the inputs resolve to. *)
Definition resolves {W} (nports : nat) (recv : nat -> W -> list V -> option (list V * list V)) (port : nat) (w : W) (l : list T) : Prop :=
  forall val_ ins labs, resolv_inv nports val_ ins labs -> port < nports ->
  returns (recv port w val_) (fun r => (exists labs', resolv_inv nports (fst r) (<[port := l]> ins) labs') /\
    match last (snd r) with
    | None => resolved f post (<[port := l]> ins) = resolved f post ins
    | Some v => rep v (resolved f post (<[port := l]> ins))
    end).

Lemma run_resolves {W} nports recv (bits_of : W -> list T) msgs val_ ins labs :
  Forall (fun m => fst m < nports /\ resolves nports recv (fst m) (snd m) (bits_of (snd m))) msgs -> resolv_inv nports val_ ins labs ->
  returns (run_recv recv msgs val_) (fun r => match last (snd r) with
    | None => resolved f post (inputs bits_of msgs ins) = resolved f post ins
    | Some v => rep v (resolved f post (inputs bits_of msgs ins))
    end).
Proof.
  intros Hm. revert val_ ins labs. induction Hm as [|[port w] msgs [Hp Hr] _ IH]; intros val_ ins labs H; cbn [run_recv fst snd] in *.
  - by apply returns_ret.
  - eapply returns_bind; [by apply (Hr val_ ins labs)|]. intros [val' sent] [(labs' & H') Hsent]. cbn [fst snd] in *.
    eapply returns_bind; [by apply (IH val' (<[port := bits_of w]> ins) labs')|]. intros [val'' more] Hmore. cbn [fst snd] in *.
    change (inputs bits_of ((port, w) :: msgs) ins) with (inputs bits_of msgs (<[port := bits_of w]> ins)). apply returns_ret. cbn [snd].
    rewrite last_app. destruct (last more); [done|]. rewrite Hmore. by destruct (last sent).
Qed.

Lemma inputs_forall {W} (Q : list T -> Prop) (bits_of : W -> list T) msgs ins :
  Forall (fun m => Q (bits_of (snd m))) msgs -> Forall Q ins -> Forall Q (inputs bits_of msgs ins) /\ length (inputs bits_of msgs ins) = length ins.
Proof.
  intros Hm. revert ins. induction Hm as [|m msgs Hq _ IH]; intros ins Hi; [done|]. destruct (IH (<[fst m := bits_of (snd m)]> ins)) as [H1 H2].
  { by apply Forall_insert. }
  split; [exact H1|]. rewrite length_insert in H2. exact H2.
Qed.

(** A new resolver, and what it is sent. *)
Lemma run_start {W} nports recv (bits_of : W -> list T) msgs empty :
  0 < nports -> rep empty [] -> Forall (fun m => fst m < nports /\ resolves nports recv (fst m) (snd m) (bits_of (snd m))) msgs ->
  returns (run_recv recv msgs (replicate (resolv_nnodes nports) empty)) (fun r =>
    let R := post (tree f nports (inputs bits_of msgs (replicate nports []))) in match last (snd r) with Some v => rep v R | None => R = [] end).
Proof.
  intros Hn He Hm. pose proof (inv_initial nports empty Hn He) as H. pose proof (inv_root _ _ _ _ Hn H) as Hr.
  apply lookup_replicate_1 in Hr as [Hr _]. assert (length (inputs bits_of msgs (replicate nports [])) = nports) as Hlen.
  { rewrite (proj2 (inputs_forall (fun _ => True) bits_of msgs (replicate nports []) ltac:(by apply Forall_forall) ltac:(by apply Forall_forall))).
    apply length_replicate. }
  eapply returns_mono; [by eapply run_resolves|]. intros r Hl. cbn zeta. unfold resolved at 1 2 in Hl. rewrite Hlen in Hl.
  destruct (last (snd r)); [done|]. by rewrite Hr in Hl.
Qed.

End walk.

(** *** Associative resolution *)

Section flat.

Context {T : Type} (f : T -> T -> T) (P : T -> Prop).
Context (f_closed : forall a b, P a -> P b -> P (f a b)) (f_assoc : forall a b c, P a -> P b -> P c -> f (f a b) c = f a (f b c)).

Lemma zip_closed l m : Forall P l -> Forall P m -> Forall P (zip_with f l m).
Proof. intros Hl. revert m. induction Hl; intros m Hm; destruct Hm; cbn; constructor; auto. Qed.

Lemma zip_assoc l m n : Forall P l -> Forall P m -> Forall P n -> zip_with f (zip_with f l m) n = zip_with f l (zip_with f m n).
Proof.
  intros Hl. revert m n. induction Hl as [|x l Hx _ IH]; intros m n Hm Hn; [done|]. destruct Hm as [|y m Hy Hm]; [done|].
  destruct Hn as [|z n Hz Hn]; [done|]. cbn. by rewrite f_assoc, IH.
Qed.

Lemma combine2_closed l m : Forall P l -> Forall P m -> Forall P (combine2 f l m).
Proof. intros Hl Hm. unfold combine2. destruct m; [done|]. destruct l; [done|]. by apply zip_closed. Qed.

Lemma combine2_assoc l m n : Forall P l -> Forall P m -> Forall P n -> combine2 f (combine2 f l m) n = combine2 f l (combine2 f m n).
Proof.
  intros Hl Hm Hn. destruct n as [|z n]; [done|]. destruct m as [|y m]; [done|]. destruct l as [|x l]; [done|].
  apply (zip_assoc (x :: l) (y :: m) (z :: n) Hl Hm Hn).
Qed.

Lemma combine2_nil l : combine2 f [] l = l.
Proof. by destruct l. Qed.

Lemma fold_combine2 ls l m : Forall P l -> Forall P m -> Forall (Forall P) ls ->
  fold_left (combine2 f) ls (combine2 f l m) = combine2 f l (fold_left (combine2 f) ls m).
Proof.
  intros Hl Hm Hls. revert m Hm. induction Hls as [|k ls Hk _ IH]; intros m Hm; cbn [fold_left]; [done|].
  rewrite combine2_assoc by done. apply IH. by apply combine2_closed.
Qed.

Lemma combine_closed ls : Forall (Forall P) ls -> Forall P (combine f ls).
Proof.
  unfold combine. intros H. assert (Forall P []) as Hn by constructor. revert Hn. generalize (@nil T) as a.
  induction H as [|k ls Hk _ IH]; intros a Ha; cbn [fold_left]; [done|]. apply IH. by apply combine2_closed.
Qed.

Lemma combine_app ls ms : Forall (Forall P) ls -> Forall (Forall P) ms -> combine f (ls ++ ms) = combine2 f (combine f ls) (combine f ms).
Proof.
  intros Hl Hm. unfold combine at 1. rewrite fold_left_app. fold (combine f ls). pose proof (combine_closed ls Hl) as Hc.
  change (combine f ms) with (fold_left (combine2 f) ms []). rewrite <- fold_combine2; [done|done|constructor|done].
Qed.

(** The groups of four, from the left. *)
Lemma nodes_slice (ls : list (list T)) a b : a <= b <= length ls -> nodes ls a b = take (b - a) (drop a ls).
Proof.
  intros H. unfold nodes. apply list_eq_same_length with (b - a).
  - rewrite length_take, length_drop. lia.
  - by rewrite length_map, length_seq.
  - intros i x y Hi. rewrite list_lookup_fmap, lookup_seq_lt, lookup_take_lt, lookup_drop by done. intros [= <-]. cbn. by intros ->.
Qed.

Lemma group_value_closed ls base span j : Forall (Forall P) ls -> Forall P (group_value f ls base span j).
Proof.
  intros H. apply combine_closed. unfold nodes. apply Forall_map, Forall_forall. intros i _. cbn.
  destruct (ls !! i) as [l|] eqn:E; [by eapply Forall_lookup_1 in E|constructor].
Qed.

Lemma combine_single (l : list T) : combine f [l] = l.
Proof. apply combine2_nil. Qed.

Lemma combine_groups ls k : Forall (Forall P) ls -> 4 * k <= length ls + 3 ->
  combine f (map (group_value f ls 0 (length ls)) (seq 0 k)) = combine f (take (4 * k) ls).
Proof.
  intros Hls. induction k as [|k IH]; intros Hk; [done|]. rewrite seq_S, map_app.
  assert (group_value f ls 0 (length ls) k = combine f (take 4 (drop (4 * k) ls))) as Hg.
  { unfold group_value. cbn [group_range fst snd]. rewrite nodes_slice by lia. f_equal. rewrite !Nat.add_0_l.
    destruct (Nat.min_spec (4 * k + 4) (length ls)) as [[? ->]|[? ->]]; [f_equal; lia|]. rewrite !take_ge by (rewrite length_drop; lia). done. }
  assert (Forall (Forall P) (take 4 (drop (4 * k) ls))) as Ht by by apply Forall_take, Forall_drop.
  assert (Forall (Forall P) (map (group_value f ls 0 (length ls)) (seq 0 k))) as Hm.
  { apply Forall_map, Forall_forall. intros j _. by apply group_value_closed. }
  cbn [map Nat.add]. rewrite Hg, combine_app, IH, combine_single; [|lia|done|].
  - rewrite <- combine_app; [|by apply Forall_take|done]. f_equal. rewrite take_take_drop. f_equal. lia.
  - constructor; [by apply combine_closed|constructor].
Qed.

(** The tree gives what the ports give in one row. *)
Lemma tree_flat fuel ls : Forall (Forall P) ls -> 0 < length ls <= fuel -> tree f fuel ls = combine f ls.
Proof.
  revert ls. induction fuel as [|fuel IH]; intros ls Hls Hl; [lia|]. cbn [tree]. destruct (Nat.ltb_spec 1 (length ls)) as [H1|H1].
  - pose proof (quarter (length ls + 3)). pose proof (span_shrinks _ H1).
    assert (combine f (groups f ls) = combine f ls) as <-.
    { unfold groups. rewrite combine_groups by (done || lia). rewrite take_ge by lia. done. }
    apply IH; unfold groups; [|rewrite length_map, length_seq; lia]. apply Forall_map, Forall_forall. intros j _. by apply group_value_closed.
  - destruct ls as [|l [|]]; try (cbn in *; lia). by rewrite combine_single.
Qed.

End flat.

(** *** Vectors with strength *)

Lemma rep8_size v l : rep8 v l -> size8_ v = length l.
Proof. intros [Hw <-]. by rewrite length_bits8. Qed.

Lemma rep8_value v l i s : rep8 v l -> l !! i = Some s -> value8 v i = Some s.
Proof.
  intros [Hw <-] Hi. pose proof (lookup_lt_Some _ _ _ Hi) as Hlt. rewrite length_bits8 in Hlt by done.
  rewrite lookup_bits8 in Hi by done. rewrite value8_spec by done. congruence.
Qed.

Lemma fits_zip {T} (P : T -> Prop) (f : T -> T -> T) w l m : (forall a b, P a -> P b -> P (f a b)) ->
  fits_net P w l -> fits_net P w m -> l <> [] -> m <> [] -> length l = length m /\ fits_net P w (zip_with f l m).
Proof.
  intros Hf [[->|Hl] Hpl] [[->|Hm] Hpm] Hnl Hnm; try done. split; [congruence|]. split; [right; rewrite length_zip_with; lia|]. by apply zip_closed.
Qed.

Lemma resolve_ok a b : scalar_ok a -> scalar_ok b -> scalar_ok (resolve a b).
Proof. intros [Ha Ha'] [Hb Hb']. pose proof (resolve_spec a b (conj Ha Ha') (conj Hb Hb')). tauto. Qed.

#[export] Instance vector8_laws w : ResolvLaws vector8_resolv rep8 resolve (fits_net scalar_ok w).
Proof.
  constructor.
  - apply rep8_size.
  - intros v u l m [Hv <-] [Hu <-]. by apply eeq8_spec.
  - intros v u l m Hv Hu Hl Hm Hnl Hnm. destruct (fits_zip scalar_ok resolve w l m resolve_ok Hl Hm Hnl Hnm) as [Hlen _].
    eapply returns_mono; [apply resolve8_spec; by rewrite (rep8_size _ _ Hv), (rep8_size _ _ Hu)|]. intros r Hr. split; [apply Hr|].
    rewrite (assigned_bits _ _ _ Hr), (rep8_size _ _ Hv). destruct Hv as [Hv <-], Hu as [Hu <-]. apply list_eq_same_length with (length (bits8 v)).
    + rewrite length_zip_with. lia.
    + by rewrite length_map, length_seq.
    + intros i x y Hi. rewrite list_lookup_fmap, lookup_seq_lt, lookup_zip_with by done. rewrite !length_bits8 in * by done.
      rewrite !lookup_bits8 by (done || lia). cbn. congruence.
  - intros l m Hl Hm Hnl Hnm. apply (fits_zip scalar_ok resolve w l m resolve_ok Hl Hm Hnl Hnm).
  - split; [by left|constructor].
Qed.

(** The pulls of the types of nets. *)
Definition pulls : list vvp_scalar_t := [0x00; 0x55; 0xdd]%Z.

Lemma pulls_ok h : h ∈ pulls -> scalar_ok h.
Proof. intros H. repeat (apply elem_of_cons in H as [->|H]; [by vm_compute; split; [split|]|]). by apply not_elem_of_nil in H. Qed.

Lemma pull_idem h s : h ∈ pulls -> scalar_ok s -> resolve (resolve s h) h = resolve s h.
Proof.
  intros Hh [Hs Hs']. assert (forallb (fun h => negb (sv0 s <=? sv1 s)%Z || (resolve (resolve s h) h =? resolve s h)%Z) pulls = true) as H.
  { clear Hs'. revert s Hs. apply (byte_all (fun s => forallb (fun h => negb (sv0 s <=? sv1 s)%Z || (resolve (resolve s h) h =? resolve s h)%Z) pulls)). by vm_compute. }
  rewrite forallb_forall in H. specialize (H h ltac:(by apply list_elem_of_In)). rewrite (proj2 (Z.leb_le _ _) Hs') in H. by apply Z.eqb_eq in H.
Qed.

Lemma rep8_set_bit v l i s : rep8 v l -> i < length l -> returns (set_bit8 v i s) (fun r => rep8 r (<[i := s]> l)).
Proof.
  intros Hr Hi. pose proof (rep8_size _ _ Hr) as Hs. destruct Hr as [[Hlen Hz] <-]. unfold set_bit8.
  apply returns_assert; [apply Nat.ltb_lt; lia|]. apply returns_ret. pose proof (store_size_le (size8_ v)).
  assert (i < length (bytes_ v)) as Hib by (rewrite Hlen; lia). split; [split|]; cbn [size8_ bytes_].
  - by rewrite length_insert.
  - intros k Hk. rewrite nth_insert by exact Hib. rewrite (proj2 (Nat.eqb_neq _ _)) by lia. by apply Hz.
  - unfold bits8. cbn [size8_ bytes_]. by rewrite take_insert_lt by lia.
Qed.

Lemma pull_bits_returns h v l : rep8 v l -> returns (pull_bits h v) (fun r => rep8 r (map (fun s => resolve s h) l)).
Proof.
  intros Hr. unfold pull_bits. rewrite (rep8_size _ _ Hr). eapply returns_mono.
  - apply (returns_for (fun j r => rep8 r (map (fun s => resolve s h) (take j l) ++ drop j l))); [done|].
    intros k t Hk Ht. destruct (lookup_lt_is_Some_2 l k ltac:(lia)) as [s Hs].
    assert ((map (fun s => resolve s h) (take k l) ++ drop k l) !! k = Some s) as Hks.
    { rewrite lookup_app_r, length_map, length_take by (rewrite length_map, length_take; lia). rewrite lookup_drop. rewrite <- Hs. f_equal. lia. }
    rewrite (rep8_value _ _ _ _ Ht Hks). cbn [mbind option_bind].
    eapply returns_mono; [apply (rep8_set_bit _ _ k (resolve s h) Ht); by apply lookup_lt_Some in Hks|]. intros r Hr'.
    rewrite insert_app_r_alt, length_map, length_take in Hr' by (rewrite length_map, length_take; lia).
    rewrite (take_S_r _ _ _ Hs), map_app, <- app_assoc. rewrite (drop_S _ _ _ Hs) in Hr'. cbn [map app].
    replace (k - Nat.min k (length l)) with 0 in Hr' by lia. exact Hr'.
  - intros r Hr'. rewrite Nat.add_0_l, take_ge, drop_ge, app_nil_r in Hr' by lia. exact Hr'.
Qed.

Lemma pulled_fits h w l : h ∈ pulls -> fits_net scalar_ok w l -> fits_net scalar_ok w (pulled h l).
Proof.
  intros Hh [Hl Hp]. unfold pulled. destruct (is_hiz h); [done|]. split; [destruct Hl as [->|<-]; [by left|right; by rewrite length_map]|].
  apply Forall_map. eapply Forall_impl; [exact Hp|]. intros s Hs. apply resolve_ok; [done|by apply pulls_ok].
Qed.

Lemma pulled_idem h w l : h ∈ pulls -> fits_net scalar_ok w l -> pulled h (pulled h l) = pulled h l.
Proof.
  intros Hh [_ Hp]. unfold pulled. destruct (is_hiz h); [done|]. rewrite map_map. apply map_ext_in. intros s Hs%list_elem_of_In.
  rewrite Forall_forall in Hp. apply pull_idem; auto.
Qed.

Lemma pulled_nil h : pulled h [] = [].
Proof. unfold pulled. by destruct (is_hiz h). Qed.

Lemma list_last_one {A} (x : A) : last [x] = Some x.
Proof. done. Qed.

Lemma tri_recv_resolves h w nports port bit : h ∈ pulls -> wf8 bit -> fits_net scalar_ok w (bits8 bit) ->
  resolves (rep := rep8) (f := resolve) (fits := fits_net scalar_ok w) (pulled h) nports (tri_recv_vec8_ nports h) port bit (bits8 bit).
Proof.
  intros Hh Hb Hf val_ ins labs H Hp. pose proof (fun l => pulled_idem h w l Hh) as Hid. pose proof (fun l => pulled_fits h w l Hh) as Hpf.
  pose proof (nnodes_pos nports ltac:(lia)) as (Hn1 & Hn2 & Hn3). unfold tri_recv_vec8_.
  apply returns_assert; [by apply Nat.ltb_lt|]. destruct (lookup_lt_is_Some_2 labs port) as [l0 Hl0]; [rewrite (ri_length _ _ _ _ _ H); lia|].
  destruct (Forall2_lookup_r _ _ _ _ _ (ri_rep _ _ _ _ _ H) Hl0) as (v0 & Hv0 & Hr0). rewrite Hv0. cbn [mbind option_bind].
  rewrite eeq8_spec by (done || apply Hr0). rewrite (proj2 Hr0). case_bool_decide as Heq.
  { apply returns_ret. subst l0. destruct (recv_same (pulled h) Hid nports val_ ins labs port (bits8 bit) H Hp Hf Hl0) as [H' Hr]. split; [by eexists|done]. }
  eapply returns_bind; [exact (recv_walk (pulled h) Hid Hpf nports val_ ins labs port bit (bits8 bit) H Hp (conj Hb eq_refl) Hf)|].
  intros [val' [[b p']|]] Hr; cbn [fst snd] in Hr; [|apply returns_ret; by destruct Hr].
  destruct Hr as (-> & -> & v & m & Hv & Hvm & Hfm & Hb' & Hput). unfold tri_output. rewrite Hv. cbn [mbind option_bind].
  assert (pulled h m = if is_hiz h then m else map (fun s => resolve s h) m) as Epm by done. rewrite Epm in Hput.
  pose proof (Hput v) as Hsame. clear Epm. destruct (is_hiz h); cbn [negb].
  { apply returns_ret. cbn [fst snd]. destruct (Hsame Hvm) as [[labs' H'] Hr]. rewrite list_insert_id in H' by done. split; [by eexists|].
    cbn [last]. by rewrite Hr. }
  eapply returns_bind; [by apply pull_bits_returns|]. intros v' Hv'. destruct (Hput v' Hv') as [[labs' H'] Hr].
  assert (0 < length val') as Hl by lia. destruct (lookup_lt_is_Some_2 (<[resolv_root nports := v']> val') 0) as [p Hpv]; [by rewrite length_insert|].
  rewrite Hpv. cbn [mbind option_bind]. destruct ((resolv_root nports =? 0) && eeq8 p v0) eqn:E; apply returns_ret; cbn [fst snd]; (split; [by eexists|]); [|cbn [last]; by rewrite Hr].
  apply andb_true_iff in E as [E1%Nat.eqb_eq E2]. assert (nports = 1) as -> by lia. assert (port = 0) as -> by lia.
  rewrite E1 in Hpv. rewrite list_lookup_insert_eq in Hpv by done. injection Hpv as <-.
  rewrite eeq8_spec in E2 by (apply Hv' || apply Hr0). apply bool_decide_eq_true in E2. rewrite (proj2 Hv'), (proj2 Hr0) in E2.
  cbn [last]. rewrite Hr, E2. pose proof (inv_root (pulled h) 1 _ _ _ ltac:(lia) H) as Hroot. rewrite E1, Hl0 in Hroot. congruence.
Qed.

(** *** Vectors without strength *)

Lemma wired_math_returns g v u l m : rep4 v l -> rep4 u m -> length m = length l ->
  returns (wired_logic_math_ g v u) (fun r => rep4 r (zip_with g l m)).
Proof.
  intros Hv Hu Hlen. unfold wired_logic_math_. rewrite (rep4_size _ _ Hv), (rep4_size _ _ Hu).
  apply returns_assert; [by rewrite Hlen, Nat.eqb_refl|]. eapply returns_mono.
  - pose proof (rep4_loop _ _ (fun i _ => g (value v i) (value u i)) (rep4_fill (length l) BIT4_X)) as H. rewrite length_replicate in H. exact H.
  - intros r Hr. cbn beta in Hr. replace (zip_with g l m) with (map (fun i => g (value v i) (value u i)) (seq 0 (length l))); [done|].
    apply list_eq_same_length with (length l).
    + rewrite length_zip_with. lia.
    + by rewrite length_map, length_seq.
    + intros i x y Hi. rewrite list_lookup_fmap, lookup_seq_lt, lookup_zip_with by done. cbn [fmap option_fmap option_map].
      rewrite ?Nat.add_0_l, (rep4_value v l i Hv), (rep4_value u m i Hu). unfold bit_at. rewrite !nth_lookup.
      destruct (l !! i), (m !! i); cbn; congruence.
Qed.

#[export] Instance wired_laws g w : ResolvLaws (wired_resolv g) rep4 g (fits_net (fun _ => True) w).
Proof.
  constructor.
  - apply rep4_size.
  - apply rep4_eeq.
  - intros v u l m Hv Hu Hl Hm Hnl Hnm. destruct (fits_zip _ g w l m (fun _ _ _ _ => I) Hl Hm Hnl Hnm) as [Hlen _]. by apply wired_math_returns.
  - intros l m Hl Hm Hnl Hnm. apply (fits_zip _ g w l m (fun _ _ _ _ => I) Hl Hm Hnl Hnm).
  - split; [by left|constructor].
Qed.

Lemma wired_recv_resolves g w nports port bit : wf4 bit -> (bits bit = [] \/ length (bits bit) = w) ->
  resolves (rep := rep4) (f := g) (fits := fits_net (fun _ => True) w) id nports (wired_recv_vec4_ g nports) port bit (bits bit).
Proof.
  intros Hb Hbw val_ ins labs H Hp. assert (fits_net (fun _ => True) w (bits bit)) as Hf by (split; [done|]; by apply Forall_forall).
  pose proof (nnodes_pos nports ltac:(lia)) as (Hn1 & Hn2 & Hn3). unfold wired_recv_vec4_.
  apply returns_assert; [by apply Nat.ltb_lt|]. destruct (lookup_lt_is_Some_2 labs port) as [l0 Hl0]; [rewrite (ri_length _ _ _ _ _ H); lia|].
  destruct (Forall2_lookup_r _ _ _ _ _ (ri_rep _ _ _ _ _ H) Hl0) as (v0 & Hv0 & Hr0). rewrite Hv0. cbn [mbind option_bind].
  rewrite (rep4_eeq _ _ l0 (bits bit)) by done. case_bool_decide as Heq.
  { apply returns_ret. subst l0. destruct (recv_same id (fun _ _ => eq_refl) nports val_ ins labs port (bits bit) H Hp Hf Hl0) as [H' Hr].
    split; [by eexists|done]. }
  eapply returns_bind; [exact (recv_walk id (fun _ _ => eq_refl) (fun _ Hl => Hl) nports val_ ins labs port bit (bits bit) H Hp (conj Hb eq_refl) Hf)|].
  intros [val' [[b p']|]] Hr; cbn [fst snd] in Hr; [|apply returns_ret; by destruct Hr].
  destruct Hr as (-> & -> & v & m & Hv & Hvm & Hfm & Hb' & Hput). rewrite Hv. cbn [mbind option_bind].
  destruct (Hput v Hvm) as [[labs' H'] Hr]. rewrite list_insert_id in H' by done. apply returns_ret. cbn [fst snd]. split; [by eexists|].
  cbn [last]. by rewrite Hr.
Qed.

Lemma strong_closed a b : a ∈ strong_drives -> b ∈ strong_drives -> resolve a b ∈ strong_drives.
Proof.
  assert (forallb (fun a => forallb (fun b => bool_decide (resolve a b ∈ strong_drives)) strong_drives) strong_drives = true) as H by by vm_compute.
  intros Ha%list_elem_of_In Hb%list_elem_of_In. rewrite forallb_forall in H. specialize (H a Ha). rewrite forallb_forall in H.
  by eapply bool_decide_eq_true_1, H.
Qed.

Lemma strong_assoc a b c : a ∈ strong_drives -> b ∈ strong_drives -> c ∈ strong_drives -> resolve (resolve a b) c = resolve a (resolve b c).
Proof.
  assert (forallb (fun a => forallb (fun b => forallb (fun c => resolve (resolve a b) c =? resolve a (resolve b c))%Z strong_drives) strong_drives) strong_drives = true) as H
    by by vm_compute.
  intros Ha%list_elem_of_In Hb%list_elem_of_In Hc%list_elem_of_In. rewrite forallb_forall in H. specialize (H a Ha). rewrite forallb_forall in H.
  specialize (H b Hb). rewrite forallb_forall in H. by apply Z.eqb_eq, H.
Qed.

(** *** Parts, and the ports of the functors *)

Lemma set_range v l (pos : nat -> nat) off i n g : (forall k, pos k = k + off) -> rep4 v l -> (n <> 0 -> i + n + off <= length l) ->
  returns (for_ i n (fun idx r => set_bit r (pos idx) (g idx)) v) (fun r => exists m, rep4 r m /\ length m = length l /\
    forall j, bit_at m j = if (i + off <=? j) && (j <? i + n + off) then g (j - off) else bit_at l j).
Proof.
  intros Hpos Hr Hl. apply (returns_for (fun k r => exists m, rep4 r m /\ length m = length l /\
    forall j, bit_at m j = if (i + off <=? j) && (j <? k + off) then g (j - off) else bit_at l j)).
  - exists l. split_and!; [done..|]. intros j. destruct (Nat.leb_spec (i + off) j), (Nat.ltb_spec j (i + off)); cbn; done || lia.
  - intros k t Hk (m & Hm & Hlm & Hb). rewrite Hpos. eapply returns_mono; [apply (rep4_set_bit _ _ _ (g k) Hm); lia|].
    intros r Hr'. exists (<[k + off := g k]> m). split_and!; [done|by rewrite length_insert|]. intros j. rewrite bit_at_insert by lia. rewrite Hb.
    destruct (Nat.eqb_spec j (k + off)) as [->|].
    + rewrite Nat.add_sub. rewrite (proj2 (Nat.leb_le _ _)), (proj2 (Nat.ltb_lt _ _)) by lia. done.
    + destruct (Nat.leb_spec (i + off) j), (Nat.ltb_spec j (k + off)), (Nat.ltb_spec j (S k + off)); cbn; done || lia.
Qed.

(** A part of a vector is received as the vector with Z around the part. *)
Lemma recv_vec4_pv_spec bit l base wid vwid : rep4 bit l -> wid = length l -> base <= vwid ->
  returns (recv_vec4_pv_ bit base wid vwid) (fun r => exists m, rep4 r m /\ length m = vwid /\
    forall j, j < vwid -> bit_at m j = if (base <=? j) && (j <? base + wid) then bit_at l (j - base) else BIT4_Z).
Proof.
  intros Hl -> Hb. unfold recv_vec4_pv_. apply returns_assert; [by rewrite (rep4_size _ _ Hl), Nat.eqb_refl|]. cbv zeta.
  eapply returns_bind.
  { apply (set_range _ (replicate vwid BIT4_X) (fun k => k) 0 0 base (fun _ => BIT4_Z)); [intros; lia|apply rep4_fill|rewrite length_replicate; lia]. }
  intros r1 (m1 & Hr1 & Hl1 & Hb1). rewrite length_replicate in Hl1. eapply returns_bind.
  { apply (set_range _ m1 (fun k => k + base) base 0 _ (value bit)); [done|exact Hr1|lia]. }
  intros r2 (m2 & Hr2 & Hl2 & Hb2). eapply returns_mono.
  { apply (set_range _ m2 (fun k => k) 0 (base + length l) (vwid - (base + length l)) (fun _ => BIT4_Z)); [intros; lia|exact Hr2|lia]. }
  intros r (m & Hr & Hlm & Hbm). exists m. split_and!; [done|congruence|]. intros j Hj. rewrite Hbm, Hb2, Hb1, bit_at_replicate by done.
  rewrite (rep4_value _ _ _ Hl).
  destruct (Nat.leb_spec (base + length l + 0) j), (Nat.ltb_spec j (base + length l + (vwid - (base + length l)) + 0)),
    (Nat.leb_spec (0 + base) j), (Nat.ltb_spec j (0 + Nat.min (length l) (vwid - base) + base)), (Nat.leb_spec base j), (Nat.ltb_spec j (base + length l)),
    (Nat.leb_spec (0 + 0) j), (Nat.ltb_spec j (0 + base + 0)); cbn [andb]; done || lia.
Qed.

(** The ports of the functors of a resolver are the ports of the core. *)
Lemma resolver_functors_cover fuel base argc : argc <= base + fuel ->
  concat (map (fun p => map (extend_port (fst p)) (seq 0 (snd p))) (resolver_functors fuel base argc)) = seq base (argc - base).
Proof.
  revert base. induction fuel as [|fuel IH]; intros base Hf; cbn [resolver_functors].
  - rewrite (proj2 (Nat.ltb_ge _ _)) by lia. by replace (argc - base) with 0 by lia.
  - destruct (Nat.ltb_spec base argc); [|by replace (argc - base) with 0 by lia]. cbn [map concat fst snd]. rewrite IH by lia.
    set (n := if 4 <? argc - base then 4 else argc - base).
    assert (forall k, map (extend_port base) (seq k n) = seq (base + k) n) as ->.
    { clear. induction n as [|n IHn]; intros k; [done|]. cbn [seq map]. rewrite IHn. unfold extend_port. f_equal. f_equal. lia. }
    assert (argc - base = n + (argc - (base + 4))) as E by (unfold n; destruct (Nat.ltb_spec 4 (argc - base)); lia).
    rewrite E, seq_app, Nat.add_0_r. f_equal. unfold n. destruct (Nat.ltb_spec 4 (argc - base)); [done|]. by replace (argc - (base + 4)) with 0 by lia.
Qed.

(** ** Properties *)

(** C13: A [resolv_tri], fed with any sequence of vectors of one width, with or
    without a pull, has last sent what the tree of its inputs resolves to, with the
    pull resolved into every bit, although it stops at the first branch that does
    not change; and while it has sent nothing that value is empty.  When all drives
    are strong or absent, as those of four-valued inputs are, the tree is
    the resolution of the inputs in one row. *)
Theorem tri_resolves h w nports msgs :
  h ∈ pulls -> 0 < nports ->
  Forall (fun m => fst m < nports /\ wf8 (snd m) /\ size8_ (snd m) = w /\ Forall scalar_ok (bits8 (snd m))) msgs ->
  let ins := inputs bits8 msgs (replicate nports []) in
  returns (run_recv (tri_recv_vec8_ nports h) msgs (val_make nports)) (fun r =>
    match last (snd r) with Some v => bits8 v | None => [] end = pulled h (tree resolve nports ins)) /\
  (Forall (fun m => Forall (fun s => s ∈ strong_drives) (bits8 (snd m))) msgs -> tree resolve nports ins = combine resolve ins).
Proof.
  intros Hh Hn Hm ins. split.
  - eapply returns_mono.
    + apply (run_start (RV := vector8_resolv) (rep := rep8) (fits := fits_net scalar_ok w) (pulled h) (pulled_nil h) nports (tri_recv_vec8_ nports h) bits8 msgs);
        [done|by split; [apply vector8_make_wf|]|].
      eapply Forall_impl; [exact Hm|]. intros [port bit] (Hp & Hw & Hs & Ho). split; [done|].
      apply tri_recv_resolves; [done..|]. split; [right; by rewrite length_bits8|done].
    + intros [val' sent] Hr. cbn [fst snd] in *. fold ins in Hr. cbv zeta in Hr. by destruct (last sent); [apply Hr|].
  - intros Hst. destruct (inputs_forall (Forall (fun s => s ∈ strong_drives)) bits8 msgs (replicate nports []) Hst) as [Hi Hl].
    { apply Forall_replicate. constructor. }
    rewrite length_replicate in Hl. apply (tree_flat resolve (fun s => s ∈ strong_drives)); [apply strong_closed|apply strong_assoc|done|unfold ins; lia].
Qed.

(** A vector of two drives. *)
Definition two_drives (a b : vvp_scalar_t) : vvp_vector8_t := mk_vector8 2 [a; b; 0; 0; 0; 0; 0; 0]%Z.

Lemma two_drives_ok a b : scalar_ok a -> scalar_ok b ->
  wf8 (two_drives a b) /\ size8_ (two_drives a b) = 2 /\ Forall scalar_ok (bits8 (two_drives a b)).
Proof.
  intros Ha Hb. split; [split|]; [done| |split; [done|by constructor; [|constructor; [|constructor]]]].
  intros i Hi. cbn [two_drives size8_ bytes_] in *. do 2 (destruct i as [|i]; [lia|]). cbn [nth]. by do 6 (destruct i as [|i]; [done|]); destruct i.
Qed.

Lemma tri_resolves_witness :
  exists r, run_recv (tri_recv_vec8_ 6 0x55%Z) [(5, two_drives 0x66%Z 0%Z); (0, two_drives 0xee%Z 0%Z)] (val_make 6) = Some r /\
    match last (snd r) with Some v => bits8 v | None => [] end = [0xe6; 0x55]%Z.
Proof.
  destruct (tri_resolves 0x55%Z 2 6 [(5, two_drives 0x66%Z 0%Z); (0, two_drives 0xee%Z 0%Z)]) as [(r & Hr & H) _].
  - by right; left.
  - lia.
  - assert (scalar_ok 0%Z /\ scalar_ok 0x66%Z /\ scalar_ok 0xee%Z) as (H0 & H1 & H2) by by vm_compute.
    constructor; [split; [cbn; lia|by apply two_drives_ok]|]. constructor; [split; [cbn; lia|by apply two_drives_ok]|]. constructor.
  - exists r. split; [exact Hr|]. rewrite H. by vm_compute.
Defined.

(** C16: A [resolv_triand] or [resolv_trior], fed with any sequence of vectors of
    one width, has last sent the wired operation of all its inputs in one row,
    whatever the number of ports: the tree gives what one row gives, because the
    operation of bits is associative. *)
Theorem wired_resolves g w nports msgs :
  g = triand_bit \/ g = trior_bit -> 0 < nports ->
  Forall (fun m => fst m < nports /\ wf4 (snd m) /\ size_ (snd m) = w) msgs ->
  returns (run_recv (wired_recv_vec4_ g nports) msgs (val_make (ResolvValue0 := wired_resolv g) nports)) (fun r =>
    match last (snd r) with Some v => bits v | None => [] end = combine g (inputs bits msgs (replicate nports []))).
Proof.
  intros Hg Hn Hm. eapply returns_mono.
  - apply (run_start (RV := wired_resolv g) (rep := rep4) (fits := fits_net (fun _ => True) w) id eq_refl nports (wired_recv_vec4_ g nports) bits msgs);
      [done|apply (rep4_fill 0 BIT4_X)|].
    eapply Forall_impl; [exact Hm|]. intros [port bit] (Hp & Hw & Hs). split; [done|].
    apply (wired_recv_resolves g w); [done|]. right. rewrite <- Hs. symmetry. by apply rep4_size.
  - intros [val' sent] Hr. cbn [fst snd] in *. cbv zeta in Hr. unfold id in Hr. rewrite (tree_flat g (fun _ => True)) in Hr.
    + by destruct (last sent); [apply Hr|].
    + done.
    + intros a b c _ _ _. by destruct Hg as [-> | ->]; destruct a, b, c.
    + apply Forall_forall. intros l _. by apply Forall_forall.
    + rewrite (proj2 (inputs_forall (fun _ => True) bits msgs (replicate nports []) ltac:(by apply Forall_forall) ltac:(by apply Forall_forall))), length_replicate. lia.
Qed.

Lemma wired_resolves_witness :
  exists r, run_recv (wired_recv_vec4_ triand_bit 5) [(4, vector4_fill 3 BIT4_1); (1, vector4_fill 3 BIT4_0)] (val_make (ResolvValue0 := wired_resolv triand_bit) 5) = Some r /\
    match last (snd r) with Some v => bits v | None => [] end = [BIT4_0; BIT4_0; BIT4_0].
Proof.
  destruct (wired_resolves triand_bit 3 5 [(4, vector4_fill 3 BIT4_1); (1, vector4_fill 3 BIT4_0)]) as (r & Hr & H).
  - by left.
  - lia.
  - repeat (constructor; [cbn [fst snd]; split_and!; [lia|apply fill_wf|done]|]). constructor.
  - exists r. split; [exact Hr|]. rewrite H. by vm_compute.
Defined.

(** The order of the ports matters for unsure drives: a net that is pulled to 0 and
    to 1 and may be driven to 0 strongly is 0, or unknown. *)
Example port_order_matters :
  map scalar_value (combine resolve [[0x33]; [0x85]; [0xbb]]%Z) = [BIT4_0] /\
  map scalar_value (combine resolve [[0x33]; [0xbb]; [0x85]]%Z) = [BIT4_X].
Proof. by vm_compute. Qed.
