(* ===== verification/Logic.v ===== *)
(** * Gates ([vvp/logic.h], [vvp/logic.cc], [vvp/reduce.cc])

    A gate keeps its inputs.  When one changes, it schedules itself, unless it is
    scheduled already ([net_] is the net it is scheduled for, or null); when it
    runs it computes its output from the inputs it has by then.  The file models
    the gates, their scheduling and the choice of the gate by [compile_functor],
    and the reductions, and proves that a gate that is not scheduled has sent what its
    present inputs make: the function of the gate for the inverters, the
    exclusive or gates and the multiplexer, and for the and and or gates as long
    as ports 2 and 3 keep a value that does not count.  A net list connects these
    ports as well, and then the gates leave them out
    ([Logic.three_input_and]). *)

From Stdlib Require Import ZArith Lia Bool.
From stdpp Require Import base numbers list strings.
From S2P Require Import Prelude Bit4 Words Vec4 Vec4Move VecRep.

Open Scope nat_scope.

(** ** Definitions *)

(** What a handler does besides changing the functor. *)
Inductive effect :=
  | schedule_functor
  | send_vec4 (bit : vvp_vector4_t)
  | send_vec4_pv (bit : vvp_vector4_t) (base wid vwid : nat).

(** [if (net_ == 0) { net_ = ptr.ptr(); schedule_functor(this); }] *)
Definition wake (net_ : bool) : bool * list effect := if negb net_ then (true, [schedule_functor]) else (net_, []).

(** *** [vvp_fun_boolean_] *)

Record vvp_fun_boolean_ := mk_boolean { input_ : list vvp_vector4_t; boolean_net_ : bool }.

Definition boolean_make (wid : nat) : vvp_fun_boolean_ := mk_boolean (replicate 4 (vector4_fill wid BIT4_Z)) false.

Definition boolean_recv_vec4 (port : nat) (bit : vvp_vector4_t) (f : vvp_fun_boolean_) : option (vvp_fun_boolean_ * list effect) :=
  old ← input_ f !! port;
  if eeq old bit then Some (f, [])
  else let '(net_, e) := wake (boolean_net_ f) in Some (mk_boolean (<[port := bit]> (input_ f)) net_, e).

Definition boolean_recv_vec4_pv (port : nat) (bit : vvp_vector4_t) (base wid vwid : nat) (f : vvp_fun_boolean_) :
    option (vvp_fun_boolean_ * list effect) :=
  assert_ (size_ bit =? wid);;
  assert_ (base + wid <=? vwid);;
  old ← input_ f !! port;
  '(new, flag) ← set_vec old base bit;
  let input := <[port := new]> (input_ f) in
  if negb flag then Some (mk_boolean input (boolean_net_ f), [])
  else let '(net_, e) := wake (boolean_net_ f) in Some (mk_boolean input net_, e).

(** The inner loop over [pdx] for one bit. *)
Fixpoint gate_bit (op : vvp_bit4_t -> vvp_bit4_t -> vvp_bit4_t) (inputs : list vvp_vector4_t) (idx : nat) (bitbit : vvp_bit4_t) : vvp_bit4_t :=
  match inputs with
  | [] => bitbit
  | i :: inputs => if size_ i <? idx then BIT4_X else gate_bit op inputs idx (op bitbit (value i idx))
  end.

Definition gate_loop (op : vvp_bit4_t -> vvp_bit4_t -> vvp_bit4_t) (invert_ : bool) (inputs : list vvp_vector4_t) (result : vvp_vector4_t) :
    option vvp_vector4_t :=
  for_ 0 (size_ result) (fun idx result =>
    let bitbit := gate_bit op inputs idx (value result idx) in
    set_bit result idx (if invert_ then bit4_not bitbit else bitbit)) result.

(** [vvp_fun_and::run_run] and [vvp_fun_or::run_run], which differ in the
    operators; and [vvp_fun_xor::run_run]. *)
Definition and_or_run (op : vvp_bit4_t -> vvp_bit4_t -> vvp_bit4_t) (op_eq : vvp_vector4_t -> vvp_vector4_t -> vvp_vector4_t) (invert_ : bool)
    (f : vvp_fun_boolean_) : option (vvp_fun_boolean_ * list effect) :=
  result ← input_ f !! 0;
  input1 ← input_ f !! 1;
  result ←
    (if size_ result =? size_ input1 then
       let result := op_eq result input1 in Some (if invert_ then invert result else result)
     else gate_loop op invert_ (drop 1 (input_ f)) result);
  Some (mk_boolean (input_ f) false, [send_vec4 result]).

Definition and_run : bool -> vvp_fun_boolean_ -> option (vvp_fun_boolean_ * list effect) := and_or_run bit4_and vector4_and.

Definition or_run : bool -> vvp_fun_boolean_ -> option (vvp_fun_boolean_ * list effect) := and_or_run bit4_or vector4_or.

Definition xor_run (invert_ : bool) (f : vvp_fun_boolean_) : option (vvp_fun_boolean_ * list effect) :=
  result ← input_ f !! 0;
  result ← gate_loop bit4_xor invert_ (drop 1 (input_ f)) result;
  Some (mk_boolean (input_ f) false, [send_vec4 result]).

(** *** [vvp_fun_buf] and [vvp_fun_not] *)

Record unary_gate := mk_unary { unary_input_ : vvp_vector4_t; unary_net_ : bool }.

Definition unary_make (wid : nat) : unary_gate := mk_unary (vector4_fill wid BIT4_Z) false.

Definition unary_recv_vec4 (port : nat) (bit : vvp_vector4_t) (f : unary_gate) : option (unary_gate * list effect) :=
  if negb (port =? 0) then Some (f, [])
  else if eeq (unary_input_ f) bit then Some (f, [])
  else let '(net_, e) := wake (unary_net_ f) in Some (mk_unary bit net_, e).

Definition unary_recv_vec4_pv (port : nat) (bit : vvp_vector4_t) (base wid vwid : nat) (f : unary_gate) : option (unary_gate * list effect) :=
  if negb (port =? 0) then Some (f, [])
  else
    assert_ (size_ bit =? wid);;
    assert_ (base + wid <=? vwid);;
    '(new, flag) ← set_vec (unary_input_ f) base bit;
    if negb flag then Some (mk_unary new (unary_net_ f), [])
    else let '(net_, e) := wake (unary_net_ f) in Some (mk_unary new net_, e).

Definition buf_run (f : unary_gate) : unary_gate * list effect := (mk_unary (unary_input_ f) false, [send_vec4 (change_z2x (unary_input_ f))]).

Definition not_run (f : unary_gate) : unary_gate * list effect :=
  (mk_unary (unary_input_ f) false, [send_vec4 (copy_inverted_from_ (unary_input_ f))]).

(** *** [vvp_fun_bufz] *)

Definition bufz_recv_vec4 (port : nat) (bit : vvp_vector4_t) : list effect := if negb (port =? 0) then [] else [send_vec4 bit].

Definition bufz_recv_vec4_pv (port : nat) (bit : vvp_vector4_t) (base wid vwid : nat) : list effect :=
  if negb (port =? 0) then [] else [send_vec4_pv bit base wid vwid].

(** *** [vvp_fun_muxz] *)

Inductive sel_type := SEL_PORT0 | SEL_PORT1 | SEL_BOTH.

#[export] Instance sel_type_eq_dec : EqDecision sel_type.
Proof. solve_decision. Defined.

Record vvp_fun_muxz := mk_muxz { a_ : vvp_vector4_t; b_ : vvp_vector4_t; muxz_net_ : bool; select_ : sel_type; has_run_ : bool }.

Definition muxz_make (wid : nat) : vvp_fun_muxz := mk_muxz (vector4_fill wid BIT4_Z) (vector4_fill wid BIT4_Z) false SEL_BOTH false.

Definition muxz_wake (f : vvp_fun_muxz) : vvp_fun_muxz * list effect :=
  let '(net_, e) := wake (muxz_net_ f) in (mk_muxz (a_ f) (b_ f) net_ (select_ f) (has_run_ f), e).

Definition with_a (a : vvp_vector4_t) (f : vvp_fun_muxz) : vvp_fun_muxz := mk_muxz a (b_ f) (muxz_net_ f) (select_ f) (has_run_ f).

Definition with_b (b : vvp_vector4_t) (f : vvp_fun_muxz) : vvp_fun_muxz := mk_muxz (a_ f) b (muxz_net_ f) (select_ f) (has_run_ f).

Definition with_select (s : sel_type) (f : vvp_fun_muxz) : vvp_fun_muxz := mk_muxz (a_ f) (b_ f) (muxz_net_ f) s (has_run_ f).

Definition muxz_recv_vec4 (port : nat) (bit : vvp_vector4_t) (f : vvp_fun_muxz) : option (vvp_fun_muxz * list effect) :=
  match port with
  | 0 =>
      if eeq (a_ f) bit && has_run_ f then Some (f, [])
      else let f := with_a bit f in if decide (select_ f = SEL_PORT1) then Some (f, []) else Some (muxz_wake f)
  | 1 =>
      if eeq (b_ f) bit && has_run_ f then Some (f, [])
      else let f := with_b bit f in if decide (select_ f = SEL_PORT0) then Some (f, []) else Some (muxz_wake f)
  | 2 =>
      assert_ (size_ bit =? 1);;
      match value bit 0 with
      | BIT4_0 => if decide (select_ f = SEL_PORT0) then Some (f, []) else Some (muxz_wake (with_select SEL_PORT0 f))
      | BIT4_1 => if decide (select_ f = SEL_PORT1) then Some (f, []) else Some (muxz_wake (with_select SEL_PORT1 f))
      | _ => if bool_decide (select_ f = SEL_BOTH) && has_run_ f then Some (f, []) else Some (muxz_wake (with_select SEL_BOTH f))
      end
  | _ => Some (f, [])
  end.

Definition muxz_recv_vec4_pv (port : nat) (bit : vvp_vector4_t) (base wid vwid : nat) (f : vvp_fun_muxz) : option (vvp_fun_muxz * list effect) :=
  assert_ (size_ bit =? wid);;
  assert_ (base + wid <=? vwid);;
  match port with
  | 0 =>
      '(a, flag) ← set_vec (a_ f) base bit;
      let f := with_a a f in
      if negb flag && has_run_ f then Some (f, [])
      else if decide (select_ f = SEL_PORT1) then Some (f, []) else Some (muxz_wake f)
  | 1 =>
      '(b, flag) ← set_vec (b_ f) base bit;
      let f := with_b b f in
      if negb flag && has_run_ f then Some (f, [])
      else if decide (select_ f = SEL_PORT0) then Some (f, []) else Some (muxz_wake f)
  | 2 => assert_ ((base =? 0) && (wid =? 1));; muxz_recv_vec4 port bit f
  | _ => Some (f, [])
  end.

(** The blended value. *)
Definition muxz_blend (a b : vvp_vector4_t) : option vvp_vector4_t :=
  let min_size := if size_ b <? size_ a then size_ b else size_ a in
  let max_size := if size_ a <? size_ b then size_ b else size_ a in
  res ← for_ 0 min_size (fun idx res =>
    let v := value a idx in
    if bit4_eqb v (value b idx) && negb (bit4_eqb v BIT4_Z) then set_bit res idx (value a idx) else set_bit res idx BIT4_X)
    (vector4_fill max_size BIT4_X);
  for_ min_size (max_size - min_size) (fun idx res => set_bit res idx BIT4_X) res.

Definition muxz_run (f : vvp_fun_muxz) : option (vvp_fun_muxz * list effect) :=
  let f := mk_muxz (a_ f) (b_ f) false (select_ f) true in
  match select_ f with
  | SEL_PORT0 => Some (f, [send_vec4 (a_ f)])
  | SEL_PORT1 => Some (f, [send_vec4 (b_ f)])
  | SEL_BOTH => res ← muxz_blend (a_ f) (b_ f); Some (f, [send_vec4 res])
  end.

(** *** The functors *)

Inductive functor :=
  | vvp_fun_and (invert_ : bool) (f : vvp_fun_boolean_)
  | vvp_fun_or (invert_ : bool) (f : vvp_fun_boolean_)
  | vvp_fun_xor (invert_ : bool) (f : vvp_fun_boolean_)
  | vvp_fun_buf (f : unary_gate)
  | vvp_fun_not (f : unary_gate)
  | vvp_fun_muxz_ (f : vvp_fun_muxz).

(** The calls of the virtual methods. *)
Definition map_state {A B} (c : A -> B) (m : option (A * list effect)) : option (B * list effect) := '(f, e) ← m; Some (c f, e).

Definition recv_vec4 (port : nat) (bit : vvp_vector4_t) (f : functor) : option (functor * list effect) :=
  match f with
  | vvp_fun_and i f => map_state (vvp_fun_and i) (boolean_recv_vec4 port bit f)
  | vvp_fun_or i f => map_state (vvp_fun_or i) (boolean_recv_vec4 port bit f)
  | vvp_fun_xor i f => map_state (vvp_fun_xor i) (boolean_recv_vec4 port bit f)
  | vvp_fun_buf f => map_state vvp_fun_buf (unary_recv_vec4 port bit f)
  | vvp_fun_not f => map_state vvp_fun_not (unary_recv_vec4 port bit f)
  | vvp_fun_muxz_ f => map_state vvp_fun_muxz_ (muxz_recv_vec4 port bit f)
  end.

Definition recv_vec4_pv (port : nat) (bit : vvp_vector4_t) (base wid vwid : nat) (f : functor) : option (functor * list effect) :=
  match f with
  | vvp_fun_and i f => map_state (vvp_fun_and i) (boolean_recv_vec4_pv port bit base wid vwid f)
  | vvp_fun_or i f => map_state (vvp_fun_or i) (boolean_recv_vec4_pv port bit base wid vwid f)
  | vvp_fun_xor i f => map_state (vvp_fun_xor i) (boolean_recv_vec4_pv port bit base wid vwid f)
  | vvp_fun_buf f => map_state vvp_fun_buf (unary_recv_vec4_pv port bit base wid vwid f)
  | vvp_fun_not f => map_state vvp_fun_not (unary_recv_vec4_pv port bit base wid vwid f)
  | vvp_fun_muxz_ f => map_state vvp_fun_muxz_ (muxz_recv_vec4_pv port bit base wid vwid f)
  end.

Definition run_run (f : functor) : option (functor * list effect) :=
  match f with
  | vvp_fun_and i f => map_state (vvp_fun_and i) (and_run i f)
  | vvp_fun_or i f => map_state (vvp_fun_or i) (or_run i f)
  | vvp_fun_xor i f => map_state (vvp_fun_xor i) (xor_run i f)
  | vvp_fun_buf f => map_state vvp_fun_buf (Some (buf_run f))
  | vvp_fun_not f => map_state vvp_fun_not (Some (not_run f))
  | vvp_fun_muxz_ f => map_state vvp_fun_muxz_ (muxz_run f)
  end.

(** What [compile_functor] makes of a type: a gate of this file, another functor,
    or an error; and whether the output needs a [vvp_fun_drive]. *)
Inductive made := made_gate (f : functor) | made_other (strength_aware : bool) | made_error.

Definition functor_of_type (type : string) (width : nat) : made :=
  if decide (type = "OR"%string) then made_gate (vvp_fun_or false (boolean_make width))
  else if decide (type = "AND"%string) then made_gate (vvp_fun_and false (boolean_make width))
  else if decide (type = "BUF"%string) then made_gate (vvp_fun_buf (unary_make width))
  else if decide (type ∈ ["BUFIF0"; "BUFIF1"; "NOTIF0"; "NOTIF1"]%string) then made_other true
  else if decide (type = "NAND"%string) then made_gate (vvp_fun_and true (boolean_make width))
  else if decide (type = "NOR"%string) then made_gate (vvp_fun_or true (boolean_make width))
  else if decide (type ∈ ["BUFT"; "BUFZ"; "MUXR"; "CMOS"; "NMOS"; "PMOS"; "RCMOS"; "RNMOS"; "RPMOS"]%string) then made_other false
  else if decide (type = "MUXZ"%string) then made_gate (vvp_fun_muxz_ (muxz_make width))
  else if decide (type = "NOT"%string) then made_gate (vvp_fun_not (unary_make width))
  else if decide (type = "XNOR"%string) then made_gate (vvp_fun_xor true (boolean_make width))
  else if decide (type = "XOR"%string) then made_gate (vvp_fun_xor false (boolean_make width))
  else made_error.

Definition needs_drive (m : made) (ostr0 ostr1 : Z) : bool :=
  negb (match m with made_other s => s | _ => false end || ((ostr0 =? 6) && (ostr1 =? 6))%Z).

(** *** Reductions *)

(** [vvp_reduce_base], with [calculate_result] of the six classes. *)
Inductive reduce_type := reduce_and | reduce_or | reduce_xor | reduce_nand | reduce_nor | reduce_xnor.

Definition reduce_loop (op : vvp_bit4_t -> vvp_bit4_t -> vvp_bit4_t) (init : vvp_bit4_t) (bits_ : vvp_vector4_t) : vvp_bit4_t :=
  loop_ 0 (size_ bits_) (fun idx res => op res (value bits_ idx)) init.

Definition calculate_result (t : reduce_type) (bits_ : vvp_vector4_t) : vvp_bit4_t :=
  match t with
  | reduce_and => reduce_loop bit4_and BIT4_1 bits_
  | reduce_or => reduce_loop bit4_or BIT4_0 bits_
  | reduce_xor => reduce_loop bit4_xor BIT4_0 bits_
  | reduce_nand => bit4_not (reduce_loop bit4_and BIT4_1 bits_)
  | reduce_nor => bit4_not (reduce_loop bit4_or BIT4_0 bits_)
  | reduce_xnor => bit4_not (reduce_loop bit4_xor BIT4_0 bits_)
  end.

Definition reduce_recv_vec4 (t : reduce_type) (bit bits_ : vvp_vector4_t) : vvp_vector4_t * list effect :=
  (bit, [send_vec4 (vector4_fill 1 (calculate_result t bit))]).

Definition reduce_recv_vec4_pv (t : reduce_type) (bit : vvp_vector4_t) (base wid vwid : nat) (bits_ : vvp_vector4_t) :
    option (vvp_vector4_t * list effect) :=
  let bits_ := if size_ bits_ =? 0 then vector4_fill vwid BIT4_X else bits_ in
  assert_ (size_ bits_ =? vwid);;
  assert_ (size_ bit =? wid);;
  '(bits_, _) ← set_vec bits_ base bit;
  Some (bits_, [send_vec4 (vector4_fill 1 (calculate_result t bits_))]).

(** ** Specification *)

Inductive gate_kind := AND (invert_ : bool) | OR (invert_ : bool) | XOR (invert_ : bool) | BUF | NOT | MUXZ.

Definition kind_of (f : functor) : gate_kind :=
  match f with
  | vvp_fun_and i _ => AND i
  | vvp_fun_or i _ => OR i
  | vvp_fun_xor i _ => XOR i
  | vvp_fun_buf _ => BUF
  | vvp_fun_not _ => NOT
  | vvp_fun_muxz_ _ => MUXZ
  end.

Definition net_of (f : functor) : bool :=
  match f with
  | vvp_fun_and _ f | vvp_fun_or _ f | vvp_fun_xor _ f => boolean_net_ f
  | vvp_fun_buf f | vvp_fun_not f => unary_net_ f
  | vvp_fun_muxz_ f => muxz_net_ f
  end.

(** The width of a port, and the values of the four ports. *)
Definition port_width (k : gate_kind) (w port : nat) : nat := match k, port with MUXZ, 2 => 1 | _, _ => w end.

Definition initial_ports (k : gate_kind) (w : nat) : list (list vvp_bit4_t) := map (fun port => replicate (port_width k w port) BIT4_Z) (seq 0 4).

Definition port (vals : list (list vvp_bit4_t)) (p : nat) : list vvp_bit4_t := default [] (vals !! p).

Definition may_invert (invert_ : bool) (l : list vvp_bit4_t) : list vvp_bit4_t := if invert_ then map bit4_not l else l.

Definition blend_bit (a b : vvp_bit4_t) : vvp_bit4_t := if bit4_eqb a b && negb (bit4_eqb a BIT4_Z) then a else BIT4_X.

Definition select_of (b : vvp_bit4_t) : sel_type := match b with BIT4_0 => SEL_PORT0 | BIT4_1 => SEL_PORT1 | _ => SEL_BOTH end.

(** The function of a gate: AND, OR and XOR combine all four ports. *)
Definition all_ports (op : vvp_bit4_t -> vvp_bit4_t -> vvp_bit4_t) (vals : list (list vvp_bit4_t)) : list vvp_bit4_t :=
  zip_with op (zip_with op (zip_with op (port vals 0) (port vals 1)) (port vals 2)) (port vals 3).

Definition gate_value (k : gate_kind) (vals : list (list vvp_bit4_t)) : list vvp_bit4_t :=
  match k with
  | AND i => may_invert i (all_ports bit4_and vals)
  | OR i => may_invert i (all_ports bit4_or vals)
  | XOR i => may_invert i (all_ports bit4_xor vals)
  | BUF => map bit4_z2x (port vals 0)
  | NOT => map bit4_not (port vals 0)
  | MUXZ =>
      match select_of (bit_at (port vals 2) 0) with
      | SEL_PORT0 => port vals 0
      | SEL_PORT1 => port vals 1
      | SEL_BOTH => zip_with blend_bit (port vals 0) (port vals 1)
      end
  end.

(** The ports 2 and 3 of an AND or OR have no input of their own: the code
    generator ties them to the constant that is neutral. *)
Definition spare_neutral (k : gate_kind) (w : nat) (vals : list (list vvp_bit4_t)) : Prop :=
  match k with
  | AND _ => port vals 2 = replicate w BIT4_1 /\ port vals 3 = replicate w BIT4_1
  | OR _ => port vals 2 = replicate w BIT4_0 /\ port vals 3 = replicate w BIT4_0
  | _ => True
  end.

(** What [run_run] sends.  For vectors of one width AND and OR take a shortcut that
    looks at two ports only. *)
Definition gate_output (k : gate_kind) (vals : list (list vvp_bit4_t)) : list vvp_bit4_t :=
  match k with
  | AND i => may_invert i (zip_with bit4_and (port vals 0) (port vals 1))
  | OR i => may_invert i (zip_with bit4_or (port vals 0) (port vals 1))
  | k => gate_value k vals
  end.

(** A gate and its scheduler: an event that was scheduled runs the gate. *)
Inductive gate_step := Whole (p : nat) (bit : vvp_vector4_t) | Part (p : nat) (bit : vvp_vector4_t) (base vwid : nat) | Run.

Record gate_sim := mk_sim { sim_f : functor; sim_events : nat; sim_sent : list vvp_vector4_t }.

Definition apply_effect (s : gate_sim) (e : effect) : gate_sim :=
  match e with
  | schedule_functor => mk_sim (sim_f s) (S (sim_events s)) (sim_sent s)
  | send_vec4 v => mk_sim (sim_f s) (sim_events s) (sim_sent s ++ [v])
  | send_vec4_pv _ _ _ _ => s
  end.

Definition with_result (s : gate_sim) (r : functor * list effect) : gate_sim :=
  fold_left apply_effect (snd r) (mk_sim (fst r) (sim_events s) (sim_sent s)).

Definition sim_step (i : gate_step) (s : gate_sim) : option gate_sim :=
  match i with
  | Whole p bit => r ← recv_vec4 p bit (sim_f s); Some (with_result s r)
  | Part p bit base vwid => r ← recv_vec4_pv p bit base (size_ bit) vwid (sim_f s); Some (with_result s r)
  | Run =>
      match sim_events s with
      | O => Some s
      | S n => r ← run_run (sim_f s); Some (with_result (mk_sim (sim_f s) n (sim_sent s)) r)
      end
  end.

Fixpoint sim_run (l : list gate_step) (s : gate_sim) : option gate_sim :=
  match l with [] => Some s | i :: l => s ← sim_step i s; sim_run l s end.

(** The values of the ports after a step, and the steps that fit the widths. *)
Definition step_ports (i : gate_step) (vals : list (list vvp_bit4_t)) : list (list vvp_bit4_t) :=
  match i with
  | Whole p bit => <[p := bits bit]> vals
  | Part p bit base _ => alter (fun l => splice l base (bits bit)) p vals
  | Run => vals
  end.

Definition step_fits (k : gate_kind) (w : nat) (i : gate_step) : Prop :=
  match i with
  | Whole p bit => p < 4 /\ wf4 bit /\ size_ bit = port_width k w p
  | Part p bit base vwid => p < 4 /\ wf4 bit /\ vwid = port_width k w p /\ 0 < size_ bit /\ base + size_ bit <= vwid
  | Run => True
  end.

Definition ports_ok (k : gate_kind) (w : nat) (vals : list (list vvp_bit4_t)) : Prop :=
  length vals = 4 /\ forall p l, vals !! p = Some l -> length l = port_width k w p.

(** The state of a gate whose ports have these values. *)
Definition holds (f : functor) (vals : list (list vvp_bit4_t)) : Prop :=
  match f with
  | vvp_fun_and _ f | vvp_fun_or _ f | vvp_fun_xor _ f => Forall2 rep4 (input_ f) vals
  | vvp_fun_buf f | vvp_fun_not f => rep4 (unary_input_ f) (port vals 0)
  | vvp_fun_muxz_ f => rep4 (a_ f) (port vals 0) /\ rep4 (b_ f) (port vals 1) /\ select_ f = select_of (bit_at (port vals 2) 0)
  end.

(** ** Lemmas *)

Section gates.

Implicit Types (vals : list (list vvp_bit4_t)) (k : gate_kind).

Lemma port_insert vals p q l : p < length vals -> port (<[p := l]> vals) q = if decide (q = p) then l else port vals q.
Proof. intros Hp. unfold port. case_decide as E; [subst q; by rewrite list_lookup_insert_eq|by rewrite list_lookup_insert_ne]. Qed.

Lemma port_lookup vals p : p < length vals -> vals !! p = Some (port vals p).
Proof. intros [l Hl]%lookup_lt_is_Some_2. unfold port. by rewrite Hl. Qed.

Lemma alter_insert_port vals p g : p < length vals -> alter g p vals = <[p := g (port vals p)]> vals.
Proof.
  intros Hp. apply list_eq. intros q. destruct (decide (q = p)) as [->|Hne].
  - rewrite list_lookup_alter_eq, list_lookup_insert_eq, port_lookup by done. done.
  - by rewrite list_lookup_alter_ne, list_lookup_insert_ne.
Qed.

Lemma ports_ok_length k w vals p : ports_ok k w vals -> p < 4 -> length (port vals p) = port_width k w p.
Proof. intros [Hl H] Hp. apply H. apply port_lookup. lia. Qed.

Lemma ports_ok_insert k w vals p l : ports_ok k w vals -> length l = port_width k w p -> ports_ok k w (<[p := l]> vals).
Proof.
  intros [Hl H] Hw. split; [by rewrite length_insert|]. intros q m Hm. destruct (decide (q = p)) as [->|Hne].
  - pose proof (lookup_lt_Some _ _ _ Hm) as Hlt. rewrite length_insert in Hlt. rewrite list_lookup_insert_eq in Hm by done. congruence.
  - rewrite list_lookup_insert_ne in Hm by done. by apply H.
Qed.

Lemma initial_ports_ok k w : ports_ok k w (initial_ports k w).
Proof.
  split; [done|]. intros p l Hl. pose proof (lookup_lt_Some _ _ _ Hl) as Hp. unfold initial_ports in *. rewrite length_map, length_seq in Hp.
  rewrite list_lookup_fmap, lookup_seq_lt in Hl by done. injection Hl as <-. by rewrite length_replicate.
Qed.

(** A part of a port, and whether it changed. *)
Lemma set_vec_flag v l bit base : rep4 v l -> wf4 bit -> 0 < size_ bit -> base + size_ bit <= length l ->
  returns (set_vec v base bit) (fun r => rep4 (fst r) (splice l base (bits bit)) /\ length (splice l base (bits bit)) = length l /\
    (snd r = false -> splice l base (bits bit) = l)).
Proof.
  intros Hv Hb Hs Hl. pose proof (rep4_size _ _ Hv) as Hsv. assert (length (bits bit) = size_ bit) as Hlb by (symmetry; by apply rep4_size).
  destruct (rep4_set_vec v bit l (bits bit) base Hv (conj Hb eq_refl)) as (r & Hr & Hr4); [lia|lia|].
  destruct (set_vec_returns v base bit (proj1 Hv) Hb Hs) as (r' & Hr' & H1 & H2 & H3 & H4); [lia|]. rewrite Hr in Hr'. injection Hr' as <-.
  exists r. assert (length (splice l base (bits bit)) = length l) as Hsl by (apply length_splice; lia). split_and!; [done..|].
  intros Hf. apply bit_at_ext; [done|]. intros i Hi. rewrite bit_at_splice by lia. rewrite <- (rep4_value v l i Hv).
  destruct (Nat.leb_spec base i), (Nat.ltb_spec i (base + length (bits bit))); cbn [andb]; try done.
  rewrite bit_at_bits. symmetry. apply H4; [done|lia].
Qed.

(** A loop that sets every bit. *)
Lemma rep4_build v l (g : nat -> vvp_bit4_t) body : rep4 v l -> (forall i r, body i r = set_bit r i (g i)) ->
  returns (for_ 0 (length l) body v) (fun r => rep4 r (map g (seq 0 (length l)))).
Proof.
  intros Hv Hbody. eapply returns_mono.
  - apply (returns_for (fun n r => exists m, rep4 r m /\ length m = length l /\ forall i, i < n -> bit_at m i = g i)).
    + exists l. split_and!; [done..|]. intros i Hi. lia.
    + intros n t Hn (m & Hm & Hlm & Hb). rewrite Hbody. eapply returns_mono; [apply (rep4_set_bit _ _ n (g n) Hm); lia|].
      intros r Hr. exists (<[n := g n]> m). split_and!; [done|by rewrite length_insert|]. intros i Hi. rewrite bit_at_insert by lia.
      destruct (Nat.eqb_spec i n) as [->|]; [done|]. apply Hb. lia.
  - intros r (m & Hm & Hlm & Hb). cbn [Nat.add] in Hb. replace (map g (seq 0 (length l))) with m; [done|].
    apply bit_at_ext; [by rewrite length_map, length_seq|]. intros i Hi. rewrite bit_at_map_seq by lia. apply Hb. lia.
Qed.

(** *** Receiving a value *)

(** What a handler returns: the state of a gate for the new values, and whether
    it has been scheduled.  A gate that is left alone has the output it had. *)
Definition received (f : functor) vals vals' (r : functor * list effect) : Prop :=
  kind_of (fst r) = kind_of f /\ holds (fst r) vals' /\
  (snd r = [] /\ net_of (fst r) = net_of f /\ (net_of f = false -> gate_output (kind_of f) vals' = gate_output (kind_of f) vals) \/
   snd r = [schedule_functor] /\ net_of f = false /\ net_of (fst r) = true).

Lemma wake_cases n : wake n = (true, if n then [] else [schedule_functor]).
Proof. by destruct n. Qed.

Lemma boolean_received (c : vvp_fun_boolean_ -> functor) f vals vals' m :
  (forall g, kind_of (c g) = kind_of (c f)) -> (forall g, net_of (c g) = boolean_net_ g) -> (forall g v, holds (c g) v <-> Forall2 rep4 (input_ g) v) ->
  returns m (fun r => Forall2 rep4 (input_ (fst r)) vals' /\
    (boolean_net_ (fst r) = boolean_net_ f /\ snd r = [] /\ vals' = vals \/
     boolean_net_ (fst r) = true /\ snd r = (if boolean_net_ f then [] else [schedule_functor]))) ->
  returns (map_state c m) (received (c f) vals vals').
Proof.
  intros Hk Hn Hh Hm. eapply returns_bind; [exact Hm|]. intros [g e] (Hg & He). cbn [fst snd] in *. apply returns_ret.
  unfold received. cbn [fst snd]. rewrite Hk, Hh, !Hn. split_and!; [done..|].
  destruct He as [(H1 & H2 & ->)|(H1 & H2)]; [by left|]. rewrite H1. destruct (boolean_net_ f); [by left|by right].
Qed.

Lemma boolean_recv_returns p bit f vals : p < length vals -> wf4 bit -> Forall2 rep4 (input_ f) vals ->
  returns (boolean_recv_vec4 p bit f) (fun r => Forall2 rep4 (input_ (fst r)) (<[p := bits bit]> vals) /\
    (boolean_net_ (fst r) = boolean_net_ f /\ snd r = [] /\ <[p := bits bit]> vals = vals \/
     boolean_net_ (fst r) = true /\ snd r = (if boolean_net_ f then [] else [schedule_functor]))).
Proof.
  intros Hp Hb Hf. pose proof (port_lookup vals p Hp) as Hl. destruct (Forall2_lookup_r _ _ _ _ _ Hf Hl) as (old & Ho & Hr).
  unfold boolean_recv_vec4. rewrite Ho. cbn [mbind option_bind]. rewrite (rep4_eeq _ _ _ (bits bit) Hr (conj Hb eq_refl)).
  rewrite wake_cases. case_bool_decide as E; apply returns_ret; cbn [fst snd].
  - rewrite <- E, list_insert_id by done. split; [done|by left].
  - cbn [fst snd input_ boolean_net_]. split; [by apply Forall2_insert|by right].
Qed.

Lemma boolean_recv_pv_returns p bit base vwid f vals : p < length vals -> wf4 bit -> 0 < size_ bit -> base + size_ bit <= vwid -> length (port vals p) = vwid ->
  Forall2 rep4 (input_ f) vals ->
  returns (boolean_recv_vec4_pv p bit base (size_ bit) vwid f) (fun r =>
    Forall2 rep4 (input_ (fst r)) (alter (fun l => splice l base (bits bit)) p vals) /\
    (boolean_net_ (fst r) = boolean_net_ f /\ snd r = [] /\ alter (fun l => splice l base (bits bit)) p vals = vals \/
     boolean_net_ (fst r) = true /\ snd r = (if boolean_net_ f then [] else [schedule_functor]))).
Proof.
  intros Hp Hb Hs Hv Hw Hf. pose proof (port_lookup vals p Hp) as Hl. destruct (Forall2_lookup_r _ _ _ _ _ Hf Hl) as (old & Ho & Hr).
  unfold boolean_recv_vec4_pv. apply returns_assert; [by apply Nat.eqb_eq|]. apply returns_assert; [by apply Nat.leb_le|].
  rewrite Ho. cbn [mbind option_bind]. rewrite (alter_insert_port vals p _ Hp).
  eapply returns_bind; [apply (set_vec_flag _ _ bit base Hr Hb Hs); lia|]. intros [new flag] (H1 & H2 & H3). cbn [fst snd] in *.
  destruct flag; cbn [negb].
  - rewrite wake_cases. apply returns_ret. cbn [fst snd input_ boolean_net_]. split; [by apply Forall2_insert|by right].
  - apply returns_ret. cbn [fst snd input_ boolean_net_]. split; [by apply Forall2_insert|left]. rewrite H3 by done. by rewrite list_insert_id.
Qed.

Lemma unary_received (c : unary_gate -> functor) f vals vals' m :
  (forall g, kind_of (c g) = kind_of (c f)) -> (forall g, net_of (c g) = unary_net_ g) -> (forall g v, holds (c g) v <-> rep4 (unary_input_ g) (port v 0)) ->
  (forall v v', port v 0 = port v' 0 -> gate_output (kind_of (c f)) v = gate_output (kind_of (c f)) v') ->
  returns m (fun r => rep4 (unary_input_ (fst r)) (port vals' 0) /\
    (unary_net_ (fst r) = unary_net_ f /\ snd r = [] /\ port vals' 0 = port vals 0 \/
     unary_net_ (fst r) = true /\ snd r = (if unary_net_ f then [] else [schedule_functor]))) ->
  returns (map_state c m) (received (c f) vals vals').
Proof.
  intros Hk Hn Hh Hv Hm. eapply returns_bind; [exact Hm|]. intros [g e] (Hg & He). cbn [fst snd] in *. apply returns_ret.
  unfold received. cbn [fst snd]. rewrite Hk, Hh, !Hn. split_and!; [done..|].
  destruct He as [(H1 & H2 & H3)|(H1 & H2)]; [left; auto|]. rewrite H1. destruct (unary_net_ f); [by left|by right].
Qed.

Lemma unary_recv_returns p bit f vals : p < length vals -> wf4 bit -> rep4 (unary_input_ f) (port vals 0) ->
  returns (unary_recv_vec4 p bit f) (fun r => rep4 (unary_input_ (fst r)) (port (<[p := bits bit]> vals) 0) /\
    (unary_net_ (fst r) = unary_net_ f /\ snd r = [] /\ port (<[p := bits bit]> vals) 0 = port vals 0 \/
     unary_net_ (fst r) = true /\ snd r = (if unary_net_ f then [] else [schedule_functor]))).
Proof.
  intros Hp Hb Hf. unfold unary_recv_vec4. rewrite port_insert by done. destruct (Nat.eqb_spec p 0) as [->|Hne]; cbn [negb].
  2:{ apply returns_ret. cbn [fst snd]. rewrite decide_False by done. split; [done|by left]. }
  rewrite decide_True by done. rewrite (rep4_eeq _ _ _ (bits bit) Hf (conj Hb eq_refl)). rewrite wake_cases.
  case_bool_decide as E; apply returns_ret; cbn [fst snd].
  - rewrite <- E. split; [done|by left].
  - cbn [fst snd unary_input_ unary_net_]. split; [done|by right].
Qed.

Lemma unary_recv_pv_returns p bit base vwid f vals : p < length vals -> wf4 bit -> 0 < size_ bit -> base + size_ bit <= vwid -> length (port vals p) = vwid ->
  rep4 (unary_input_ f) (port vals 0) ->
  returns (unary_recv_vec4_pv p bit base (size_ bit) vwid f) (fun r =>
    rep4 (unary_input_ (fst r)) (port (alter (fun l => splice l base (bits bit)) p vals) 0) /\
    (unary_net_ (fst r) = unary_net_ f /\ snd r = [] /\ port (alter (fun l => splice l base (bits bit)) p vals) 0 = port vals 0 \/
     unary_net_ (fst r) = true /\ snd r = (if unary_net_ f then [] else [schedule_functor]))).
Proof.
  intros Hp Hb Hs Hv Hw Hf. rewrite (alter_insert_port vals p _ Hp), port_insert by done. unfold unary_recv_vec4_pv.
  destruct (Nat.eqb_spec p 0) as [->|Hne]; cbn [negb].
  2:{ apply returns_ret. cbn [fst snd]. rewrite decide_False by done. split; [done|by left]. }
  rewrite decide_True by done. apply returns_assert; [by apply Nat.eqb_eq|]. apply returns_assert; [by apply Nat.leb_le|].
  eapply returns_bind; [apply (set_vec_flag _ _ bit base Hf Hb Hs); lia|]. intros [new flag] (H1 & H2 & H3). cbn [fst snd] in *.
  destruct flag; cbn [negb].
  - rewrite wake_cases. apply returns_ret. cbn [fst snd unary_input_ unary_net_]. split; [done|by right].
  - apply returns_ret. cbn [fst snd unary_input_ unary_net_]. split; [done|left]. by rewrite H3.
Qed.

(** The multiplexer. *)
Definition mux_holds (f : vvp_fun_muxz) vals : Prop :=
  rep4 (a_ f) (port vals 0) /\ rep4 (b_ f) (port vals 1) /\ select_ f = select_of (bit_at (port vals 2) 0).

Definition mux_received (f : vvp_fun_muxz) vals vals' (r : vvp_fun_muxz * list effect) : Prop :=
  mux_holds (fst r) vals' /\
  (snd r = [] /\ muxz_net_ (fst r) = muxz_net_ f /\ gate_output MUXZ vals' = gate_output MUXZ vals \/
   muxz_net_ (fst r) = true /\ snd r = (if muxz_net_ f then [] else [schedule_functor])).

Lemma muxz_wake_eq f : muxz_wake f = (mk_muxz (a_ f) (b_ f) true (select_ f) (has_run_ f), if muxz_net_ f then [] else [schedule_functor]).
Proof. unfold muxz_wake. by rewrite wake_cases. Qed.

Lemma mux_value_eq vals vals' : port vals' 2 = port vals 2 ->
  (select_of (bit_at (port vals 2) 0) <> SEL_PORT1 -> port vals' 0 = port vals 0) ->
  (select_of (bit_at (port vals 2) 0) <> SEL_PORT0 -> port vals' 1 = port vals 1) -> gate_output MUXZ vals' = gate_output MUXZ vals.
Proof.
  intros H2 H0 H1. unfold gate_output, gate_value. rewrite H2. destruct (select_of (bit_at (port vals 2) 0)).
  - by apply H0.
  - by apply H1.
  - by rewrite H0, H1.
Qed.

(** The state after a data input, scheduled or not. *)
Lemma mux_data_received f f' vals vals' (off : sel_type) :
  mux_holds f' vals' -> select_ f' = select_ f -> muxz_net_ f' = muxz_net_ f -> (select_ f = off -> gate_output MUXZ vals' = gate_output MUXZ vals) ->
  returns (if decide (select_ f' = off) then Some (f', []) else Some (muxz_wake f')) (mux_received f vals vals').
Proof.
  intros H Hs Hn Hv. rewrite muxz_wake_eq. rewrite Hs. case_decide as E; apply returns_ret; unfold mux_received; cbn [fst snd muxz_net_].
  - split; [done|left; auto].
  - rewrite <- Hn, <- Hs. split; [exact H|by right].
Qed.

Lemma mux_same f f' vals vals' : mux_holds f' vals' -> muxz_net_ f' = muxz_net_ f -> gate_output MUXZ vals' = gate_output MUXZ vals ->
  mux_received f vals vals' (f', []).
Proof. intros H Hn Hv. split; [done|by left]. Qed.

Lemma select_received f vals vals' (s : sel_type) :
  mux_holds f vals -> select_of (bit_at (port vals' 2) 0) = s -> port vals' 0 = port vals 0 -> port vals' 1 = port vals 1 ->
  mux_received f vals vals' (muxz_wake (with_select s f)) /\
  (select_ f = s -> mux_received f vals vals' (f, [])).
Proof.
  intros (H0 & H1 & H2) Hs E0 E1. split.
  - rewrite muxz_wake_eq. split; cbn [fst snd muxz_net_ with_select]; [|by right]. unfold mux_holds. cbn [a_ b_ select_ with_select]. by rewrite E0, E1, Hs.
  - intros Hf. apply mux_same; [by unfold mux_holds; rewrite E0, E1, Hs|done|]. unfold gate_output, gate_value. rewrite Hs, <- Hf, H2, E0, E1. done.
Qed.

Lemma muxz_recv_returns p bit w f vals : ports_ok MUXZ w vals -> p < 4 -> wf4 bit -> size_ bit = port_width MUXZ w p -> mux_holds f vals ->
  returns (muxz_recv_vec4 p bit f) (mux_received f vals (<[p := bits bit]> vals)).
Proof.
  intros Hok Hp Hb Hs Hf. destruct Hok as [Hl _]. pose proof Hf as (H0 & H1 & H2). pose proof (port_insert vals p) as Hport. unfold muxz_recv_vec4.
  destruct p as [|[|[|p]]].
  - rewrite (rep4_eeq _ _ _ (bits bit) H0 (conj Hb eq_refl)). destruct (bool_decide (port vals 0 = bits bit) && has_run_ f) eqn:E.
    + apply andb_true_iff in E as [E%bool_decide_eq_true _]. apply returns_ret. rewrite <- E, list_insert_id by by apply port_lookup; lia. by apply mux_same.
    + apply mux_data_received; [split_and!; rewrite Hport by lia; by cbn|done|done|]. intros Hsel. rewrite H2 in Hsel.
      apply mux_value_eq; rewrite ?Hport by lia; [done|by intros []|done].
  - rewrite (rep4_eeq _ _ _ (bits bit) H1 (conj Hb eq_refl)). destruct (bool_decide (port vals 1 = bits bit) && has_run_ f) eqn:E.
    + apply andb_true_iff in E as [E%bool_decide_eq_true _]. apply returns_ret. rewrite <- E, list_insert_id by by apply port_lookup; lia. by apply mux_same.
    + apply mux_data_received; [split_and!; rewrite Hport by lia; by cbn|done|done|]. intros Hsel. rewrite H2 in Hsel.
      apply mux_value_eq; rewrite ?Hport by lia; [done|done|by intros []].
  - apply returns_assert; [by rewrite Hs|]. assert (port (<[2 := bits bit]> vals) 2 = bits bit) as E2 by by rewrite Hport by lia.
    rewrite <- (bit_at_bits bit 0).
    assert (forall s, select_of (bit_at (bits bit) 0) = s ->
      mux_received f vals (<[2 := bits bit]> vals) (muxz_wake (with_select s f)) /\ (select_ f = s -> mux_received f vals (<[2 := bits bit]> vals) (f, []))) as Hsr.
    { intros s Es. apply select_received; [done|by rewrite E2|by rewrite Hport by lia|by rewrite Hport by lia]. }
    destruct (bit_at (bits bit) 0); destruct (Hsr _ eq_refl) as [Hw Hk].
    + case_decide; apply returns_ret; auto.
    + case_decide; apply returns_ret; auto.
    + case_bool_decide; cbn [andb]; [destruct (has_run_ f)|]; apply returns_ret; auto.
    + case_bool_decide; cbn [andb]; [destruct (has_run_ f)|]; apply returns_ret; auto.
  - apply returns_ret. assert (forall q, q < 3 -> port (<[S (S (S p)) := bits bit]> vals) q = port vals q) as Hq.
    { intros q Hq. rewrite Hport by lia. by rewrite decide_False by lia. }
    apply mux_same; [by unfold mux_holds; rewrite !Hq by lia|done|]. apply mux_value_eq; by rewrite !Hq by lia.
Qed.

Lemma muxz_recv_pv_returns p bit base vwid w f vals : ports_ok MUXZ w vals -> step_fits MUXZ w (Part p bit base vwid) -> mux_holds f vals ->
  returns (muxz_recv_vec4_pv p bit base (size_ bit) vwid f) (mux_received f vals (alter (fun l => splice l base (bits bit)) p vals)).
Proof.
  intros Hok (Hp & Hb & Hv & Hs & Hbs) Hf. pose proof Hok as [Hl _]. pose proof Hf as (H0 & H1 & H2). pose proof (port_insert vals p) as Hport.
  unfold muxz_recv_vec4_pv. apply returns_assert; [by apply Nat.eqb_eq|]. apply returns_assert; [by apply Nat.leb_le|].
  rewrite alter_insert_port by lia. pose proof (ports_ok_length _ _ _ p Hok Hp) as Hlp. rewrite <- Hv in Hlp.
  destruct p as [|[|[|p]]].
  - eapply returns_bind; [apply (set_vec_flag _ _ bit base H0 Hb Hs); lia|]. intros [a flag] (E1 & E2 & E3). cbn [fst snd] in *.
    destruct (negb flag && has_run_ (with_a a f)) eqn:E.
    + apply andb_true_iff in E as [E%negb_true_iff _]. rewrite E3 in * by done. apply returns_ret. rewrite list_insert_id by by apply port_lookup; lia.
      apply mux_same; [by split|done|done].
    + apply mux_data_received; [split_and!; rewrite Hport by lia; by cbn|done|done|]. intros Hsel. rewrite H2 in Hsel.
      apply mux_value_eq; rewrite ?Hport by lia; [done|by intros []|done].
  - eapply returns_bind; [apply (set_vec_flag _ _ bit base H1 Hb Hs); lia|]. intros [b flag] (E1 & E2 & E3). cbn [fst snd] in *.
    destruct (negb flag && has_run_ (with_b b f)) eqn:E.
    + apply andb_true_iff in E as [E%negb_true_iff _]. rewrite E3 in * by done. apply returns_ret. rewrite list_insert_id by by apply port_lookup; lia.
      apply mux_same; [by split|done|done].
    + apply mux_data_received; [split_and!; rewrite Hport by lia; by cbn|done|done|]. intros Hsel. rewrite H2 in Hsel.
      apply mux_value_eq; rewrite ?Hport by lia; [done|done|by intros []].
  - cbn in Hv. assert (base = 0 /\ size_ bit = 1) as [-> E1] by lia. apply returns_assert; [by rewrite E1|].
    assert (splice (port vals 2) 0 (bits bit) = bits bit) as ->; [|by apply (muxz_recv_returns 2 bit w)].
    unfold splice. rewrite drop_ge, app_nil_r; [done|]. rewrite <- (rep4_size bit (bits bit)) by done. lia.
  - rewrite (rep4_size bit (bits bit)) in Hbs by done. apply returns_ret.
    assert (forall q, q < 3 -> port (<[S (S (S p)) := splice (port vals (S (S (S p)))) base (bits bit)]> vals) q = port vals q) as Hq.
    { intros q Hq. rewrite Hport by lia. by rewrite decide_False by lia. }
    apply mux_same; [by unfold mux_holds; rewrite !Hq by lia|done|]. apply mux_value_eq; by rewrite !Hq by lia.
Qed.

Lemma recv_returns p bit k w f vals : kind_of f = k -> ports_ok k w vals -> step_fits k w (Whole p bit) -> holds f vals ->
  returns (recv_vec4 p bit f) (received f vals (<[p := bits bit]> vals)).
Proof.
  intros Hk Hok (Hp & Hb & Hs) Hf. pose proof Hok as [Hl _]. destruct f as [i f|i f|i f|f|f|f]; cbn [holds recv_vec4 kind_of] in *; subst k.
  1-3: apply boolean_received; [done..|by apply boolean_recv_returns; [lia|..]].
  1-2: apply unary_received; [done..| |apply unary_recv_returns; [lia|done|done]]; intros v v' E; cbn; by rewrite E.
  eapply returns_bind; [by eapply (muxz_recv_returns p bit w)|]. intros [g e] [H1 H2]. cbn [fst snd] in *. apply returns_ret. split; [done|]. split; [done|].
  cbn [fst snd net_of kind_of]. destruct H2 as [(E1 & E2 & E3)|(E1 & E2)]; [by left|]. rewrite E1. destruct (muxz_net_ f); [by left|by right].
Qed.

Lemma recv_pv_returns p bit base vwid k w f vals : kind_of f = k -> ports_ok k w vals -> step_fits k w (Part p bit base vwid) -> holds f vals ->
  returns (recv_vec4_pv p bit base (size_ bit) vwid f) (received f vals (alter (fun l => splice l base (bits bit)) p vals)).
Proof.
  intros Hk Hok Hfit Hf. pose proof Hfit as (Hp & Hb & Hv & Hs & Hbs). pose proof Hok as [Hl _]. pose proof (ports_ok_length _ _ _ p Hok Hp) as Hlp.
  destruct f as [i f|i f|i f|f|f|f]; cbn [holds recv_vec4_pv kind_of] in *; subst k.
  1-3: apply boolean_received; [done..|apply boolean_recv_pv_returns; (done || lia)].
  1-2: apply unary_received; [done..| |apply unary_recv_pv_returns; (done || lia)]; intros v v' E; cbn; by rewrite E.
  eapply returns_bind; [by eapply (muxz_recv_pv_returns p bit base vwid w)|]. intros [g e] [H1 H2]. cbn [fst snd] in *. apply returns_ret. split; [done|]. split; [done|].
  cbn [fst snd net_of kind_of]. destruct H2 as [(E1 & E2 & E3)|(E1 & E2)]; [by left|]. rewrite E1. destruct (muxz_net_ f); [by left|by right].
Qed.

(** *** Running *)

Lemma map_zip_seq (op : vvp_bit4_t -> vvp_bit4_t -> vvp_bit4_t) l m : length m = length l ->
  map (fun i => op (bit_at l i) (bit_at m i)) (seq 0 (length l)) = zip_with op l m.
Proof.
  intros Hl. apply bit_at_ext; [rewrite length_map, length_seq, length_zip_with; lia|]. intros i Hi. rewrite length_map, length_seq in Hi.
  rewrite bit_at_map_seq by done. unfold bit_at. rewrite !nth_lookup, lookup_zip_with.
  destruct (lookup_lt_is_Some_2 l i Hi) as [x ->], (lookup_lt_is_Some_2 m i ltac:(lia)) as [y ->]. done.
Qed.

Lemma rep4_z2x v l : rep4 v l -> rep4 (change_z2x v) (map bit4_z2x l).
Proof.
  intros Hv. destruct (change_z2x_value v (proj1 Hv)) as (H1 & H2 & H3). pose proof (rep4_size _ _ Hv) as Hs.
  apply rep4_intro; [done|by rewrite length_map, H2|]. intros i Hi. rewrite length_map in Hi. rewrite H3, (rep4_value _ _ _ Hv) by lia.
  unfold bit_at. rewrite !nth_lookup, list_lookup_fmap. by destruct (lookup_lt_is_Some_2 l i Hi) as [b ->].
Qed.

Lemma rep4_copy_inverted v l : rep4 v l -> rep4 (copy_inverted_from_ v) (map bit4_not l).
Proof.
  intros Hv. destruct (copy_inverted_value v (proj1 Hv)) as (H1 & H2 & H3). pose proof (rep4_size _ _ Hv) as Hs.
  apply rep4_intro; [done|by rewrite length_map, H2|]. intros i Hi. rewrite length_map in Hi. rewrite H3, (rep4_value _ _ _ Hv) by lia.
  unfold bit_at. rewrite !nth_lookup, list_lookup_fmap. by destruct (lookup_lt_is_Some_2 l i Hi) as [b ->].
Qed.

Lemma rep4_may_invert (i : bool) v l : rep4 v l -> rep4 (if i then invert v else v) (may_invert i l).
Proof. intros Hv. destruct i; [by apply rep4_invert|done]. Qed.

(** The shortcut of AND and OR. *)
Lemma and_or_run_returns op op_eq i f vals w :
  (forall v u l m, rep4 v l -> rep4 u m -> length m = length l -> rep4 (op_eq v u) (zip_with op l m)) ->
  length (port vals 0) = w -> length (port vals 1) = w -> length vals = 4 -> Forall2 rep4 (input_ f) vals ->
  returns (and_or_run op op_eq i f) (fun r => input_ (fst r) = input_ f /\ boolean_net_ (fst r) = false /\
    exists v, snd r = [send_vec4 v] /\ rep4 v (may_invert i (zip_with op (port vals 0) (port vals 1)))).
Proof.
  intros Hop H0 H1 Hl Hf. unfold and_or_run.
  destruct (Forall2_lookup_r _ _ _ _ _ Hf (port_lookup vals 0 ltac:(lia))) as (v0 & E0 & R0).
  destruct (Forall2_lookup_r _ _ _ _ _ Hf (port_lookup vals 1 ltac:(lia))) as (v1 & E1 & R1).
  rewrite E0, E1. cbn [mbind option_bind]. rewrite (rep4_size _ _ R0), (rep4_size _ _ R1), H0, H1, Nat.eqb_refl. cbn [mbind option_bind].
  apply returns_ret. cbn [fst snd]. split_and!; [done..|]. eexists. split; [done|]. apply rep4_may_invert, Hop; [done|done|congruence].
Qed.

(** The loop of XOR; [inputs] are the other ports. *)
Lemma gate_bit_all op inputs idx b : Forall (fun v => idx <= size_ v) inputs -> gate_bit op inputs idx b = fold_left (fun b v => op b (value v idx)) inputs b.
Proof.
  intros H. revert b. induction H as [|v inputs Hv _ IH]; intros b; cbn [gate_bit fold_left]; [done|]. rewrite (proj2 (Nat.ltb_ge _ _)) by done. apply IH.
Qed.

Lemma gate_loop_returns op (i : bool) inputs v l : rep4 v l ->
  returns (gate_loop op i inputs v) (fun r => rep4 r (map (fun n => let b := gate_bit op inputs n (bit_at l n) in if i then bit4_not b else b) (seq 0 (length l)))).
Proof.
  intros Hv. unfold gate_loop. rewrite (rep4_size _ _ Hv).
  apply (rep4_loop v l (fun n b => let b := gate_bit op inputs n b in if i then bit4_not b else b) Hv).
Qed.

Lemma may_invert_map (i : bool) (g : nat -> vvp_bit4_t) n : map (fun j => if i then bit4_not (g j) else g j) (seq 0 n) = may_invert i (map g (seq 0 n)).
Proof. destruct i; cbn [may_invert]; [by rewrite map_map|done]. Qed.

Lemma four_inputs (inputs : list vvp_vector4_t) vals : Forall2 rep4 inputs vals -> length vals = 4 ->
  exists v0 v1 v2 v3, inputs = [v0; v1; v2; v3] /\ rep4 v0 (port vals 0) /\ rep4 v1 (port vals 1) /\ rep4 v2 (port vals 2) /\ rep4 v3 (port vals 3).
Proof.
  intros Hf Hl. pose proof (Forall2_length _ _ _ Hf) as Hlen. rewrite Hl in Hlen.
  destruct inputs as [|v0 [|v1 [|v2 [|v3 [|]]]]]; try discriminate Hlen. exists v0, v1, v2, v3. split; [done|].
  assert (forall p v, [v0; v1; v2; v3] !! p = Some v -> rep4 v (port vals p)) as H; [|split_and!; by apply H].
  intros p v Hp. destruct (Forall2_lookup_l _ _ _ _ _ Hf Hp) as (l & Hpl & Hv). unfold port. by rewrite Hpl.
Qed.

Lemma xor_run_returns i f vals w : (forall p : nat, p < 4 -> length (port vals p) = w) -> length vals = 4 -> Forall2 rep4 (input_ f) vals ->
  returns (xor_run i f) (fun r => input_ (fst r) = input_ f /\ boolean_net_ (fst r) = false /\
    exists v, snd r = [send_vec4 v] /\ rep4 v (gate_output (XOR i) vals)).
Proof.
  intros Hw Hl Hf. unfold xor_run. destruct (four_inputs _ _ Hf Hl) as (v0 & v1 & v2 & v3 & Ei & R0 & R1 & R2 & R3). rewrite Ei.
  pose proof (Hw 0 ltac:(lia)) as W0. pose proof (Hw 1 ltac:(lia)) as W1. pose proof (Hw 2 ltac:(lia)) as W2. pose proof (Hw 3 ltac:(lia)) as W3.
  cbn [lookup list_lookup mbind option_bind drop]. eapply returns_bind; [by apply gate_loop_returns|]. intros v Hv. apply returns_ret.
  cbn [fst snd input_ boolean_net_]. split_and!; [done..|]. exists v. split; [done|]. cbv zeta in Hv. rewrite may_invert_map in Hv. cbn [gate_output gate_value]. unfold all_ports.
  replace (zip_with bit4_xor (zip_with bit4_xor (zip_with bit4_xor (port vals 0) (port vals 1)) (port vals 2)) (port vals 3))
    with (map (fun n => gate_bit bit4_xor [v1; v2; v3] n (bit_at (port vals 0) n)) (seq 0 (length (port vals 0)))); [done|].
  rewrite <- !map_zip_seq by (rewrite ?length_map, ?length_seq, ?length_zip_with; lia). rewrite !length_map, !length_seq.
  apply map_ext_in. intros n Hn%in_seq. rewrite gate_bit_all.
  - cbn [fold_left]. rewrite !bit_at_map_seq by lia. by rewrite (rep4_value _ _ _ R1), (rep4_value _ _ _ R2), (rep4_value _ _ _ R3).
  - pose proof (rep4_size _ _ R1). pose proof (rep4_size _ _ R2). pose proof (rep4_size _ _ R3).
    constructor; [lia|]. constructor; [lia|]. constructor; [lia|]. constructor.
Qed.

Lemma muxz_blend_returns a b l m : rep4 a l -> rep4 b m -> length m = length l -> returns (muxz_blend a b) (fun r => rep4 r (zip_with blend_bit l m)).
Proof.
  intros Ha Hb Hl. unfold muxz_blend. rewrite (rep4_size _ _ Ha), (rep4_size _ _ Hb), Hl, Nat.ltb_irrefl, Nat.sub_diag.
  eapply returns_bind.
  - pose proof (rep4_build (vector4_fill (length l) BIT4_X) _ (fun i => blend_bit (value a i) (value b i))
      (fun idx res => let v := value a idx in if bit4_eqb v (value b idx) && negb (bit4_eqb v BIT4_Z) then set_bit res idx (value a idx) else set_bit res idx BIT4_X)
      (rep4_fill (length l) BIT4_X)) as H. rewrite length_replicate in H. apply H. intros i r. unfold blend_bit. cbv zeta. by destruct (_ && _).
  - intros r Hr. cbn [for_]. apply returns_ret. rewrite <- map_zip_seq by done.
    erewrite map_ext; [exact Hr|]. intros i. cbn beta. by rewrite (rep4_value _ _ _ Ha), (rep4_value _ _ _ Hb).
Qed.

(** Whatever runs sends the value of the gate. *)
Definition has_run (f : functor) vals (r : functor * list effect) : Prop :=
  kind_of (fst r) = kind_of f /\ holds (fst r) vals /\ net_of (fst r) = false /\ exists v, snd r = [send_vec4 v] /\ rep4 v (gate_output (kind_of f) vals).

Lemma boolean_has_run (c : vvp_fun_boolean_ -> functor) f vals m :
  (forall g, kind_of (c g) = kind_of (c f)) -> (forall g, net_of (c g) = boolean_net_ g) -> (forall g v, holds (c g) v <-> Forall2 rep4 (input_ g) v) ->
  Forall2 rep4 (input_ f) vals ->
  returns m (fun r => input_ (fst r) = input_ f /\ boolean_net_ (fst r) = false /\ exists v, snd r = [send_vec4 v] /\ rep4 v (gate_output (kind_of (c f)) vals)) ->
  returns (map_state c m) (has_run (c f) vals).
Proof.
  intros Hk Hn Hh Hf Hm. eapply returns_bind; [exact Hm|]. intros [g e] (Hg & H0 & He). cbn [fst snd] in *. apply returns_ret.
  unfold has_run. cbn [fst snd]. rewrite Hk, Hh, Hn, Hg. by split_and!.
Qed.

Lemma run_returns k w f vals : kind_of f = k -> ports_ok k w vals -> holds f vals -> returns (run_run f) (has_run f vals).
Proof.
  intros Hk Hok Hf. pose proof Hok as [Hl _]. pose proof (fun p => ports_ok_length k w vals p Hok) as Hw.
  pose proof (Hw 0 ltac:(lia)) as W0. pose proof (Hw 1 ltac:(lia)) as W1.
  destruct f as [i f|i f|i f|f|f|f]; cbn [holds run_run kind_of] in *; subst k; cbn [port_width] in *.
  - apply boolean_has_run; [done..|]. by apply (and_or_run_returns bit4_and vector4_and i f vals w rep4_and).
  - apply boolean_has_run; [done..|]. by apply (and_or_run_returns bit4_or vector4_or i f vals w rep4_or).
  - apply boolean_has_run; [done..|]. by apply (xor_run_returns i f vals w).
  - apply returns_ret. unfold has_run. cbn. split_and!; [done..|]. eexists. split; [done|]. apply rep4_z2x, Hf.
  - apply returns_ret. unfold has_run. cbn. split_and!; [done..|]. eexists. split; [done|]. apply rep4_copy_inverted, Hf.
  - destruct Hf as (H0 & H1 & H2). unfold muxz_run. cbn [select_ a_ b_]. cbn [gate_output gate_value]. unfold has_run. cbn [kind_of gate_output gate_value]. rewrite <- H2.
    destruct (select_ f) eqn:E.
    + apply returns_ret. cbn. rewrite <- H2. split_and!; [done..|]. by eexists.
    + apply returns_ret. cbn. rewrite <- H2. split_and!; [done..|]. by eexists.
    + destruct (muxz_blend_returns _ _ _ _ H0 H1) as (r & -> & Hr); [lia|]. apply returns_ret. cbn. rewrite <- H2. split_and!; [done..|]. by eexists.
Qed.

(** *** The function of a gate and what it sends *)

Lemma zip_neutral (op : vvp_bit4_t -> vvp_bit4_t -> vvp_bit4_t) x l m n :
  (forall a b, op (op a b) x = op a b) -> length m = length l -> length l = n ->
  zip_with op (zip_with op l m) (replicate n x) = zip_with op l m.
Proof.
  intros Hop Hm <-. revert m Hm. induction l as [|a l IH]; intros [|b m] Hm; try done. injection Hm as Hm. cbn. by rewrite Hop, IH.
Qed.

Lemma neutral_output k w vals : ports_ok k w vals -> spare_neutral k w vals -> gate_output k vals = gate_value k vals.
Proof.
  intros Hok Hn. pose proof (fun p => ports_ok_length k w vals p Hok) as Hw.
  pose proof (Hw 0 ltac:(lia)) as W0. pose proof (Hw 1 ltac:(lia)) as W1.
  destruct k; try done; cbn [gate_output gate_value spare_neutral port_width] in *; destruct Hn as [E2 E3]; unfold all_ports;
    rewrite E2, E3, !(zip_neutral _ _ (port vals 0) (port vals 1) w); try done; try (by intros [] []); congruence.
Qed.

Lemma initial_output k w : gate_output k (initial_ports k w) = gate_value k (initial_ports k w).
Proof.
  assert (forall (op : vvp_bit4_t -> vvp_bit4_t -> vvp_bit4_t) x, zip_with op (replicate w x) (replicate w BIT4_Z) = replicate w (op x BIT4_Z)) as Hx.
  { intros op x. clear. induction w as [|w IH]; [done|]. cbn. by rewrite IH. }
  destruct k; try done; cbn [gate_output gate_value]; unfold all_ports, port; cbn; by rewrite !Hx.
Qed.

(** *** A gate and its scheduler *)

Record sim_ok k w (s : gate_sim) vals0 vals : Prop := {
  so_kind : kind_of (sim_f s) = k;
  so_ports : ports_ok k w vals;
  so_holds : holds (sim_f s) vals;
  so_events : sim_events s = if net_of (sim_f s) then 1 else 0;
  so_sent : sim_events s = 0 ->
    match last (sim_sent s) with Some v => rep4 v (gate_output k vals) | None => gate_output k vals = gate_output k vals0 end
}.

Lemma received_ok k w s vals0 vals vals' r :
  sim_ok k w s vals0 vals -> ports_ok k w vals' -> received (sim_f s) vals vals' r -> sim_ok k w (with_result s r) vals0 vals'.
Proof.
  intros [Hk Hp Hh He Hs] Hp' (Rk & Rh & Re). destruct r as [f e]. cbn [fst snd] in *. rewrite Hk in *.
  destruct Re as [(-> & Hn & Hv)|(-> & Hn & Hn')]; unfold with_result; cbn [fst snd fold_left apply_effect sim_f sim_events sim_sent].
  - constructor; cbn [sim_f sim_events sim_sent]; [done..|by rewrite He, Hn|]. intros E. rewrite He in E. destruct (net_of (sim_f s)) eqn:En; [done|].
    specialize (Hs He). rewrite Hv by done. exact Hs.
  - constructor; cbn [sim_f sim_events sim_sent]; [done..|by rewrite He, Hn, Hn'|done].
Qed.

Lemma sim_step_ok k w i s vals0 vals : sim_ok k w s vals0 vals -> step_fits k w i ->
  returns (sim_step i s) (fun s' => sim_ok k w s' vals0 (step_ports i vals)).
Proof.
  intros H Hi. pose proof H as [Hk Hp Hh He Hs]. pose proof Hp as [Hl _]. destruct i as [p bit|p bit base vwid|]; cbn [sim_step step_ports].
  - eapply returns_bind; [by eapply recv_returns|]. intros r Hr. apply returns_ret. eapply received_ok; [done| |done].
    destruct Hi as (Hip & Hb & Hw). apply ports_ok_insert; [done|]. rewrite <- Hw. symmetry. by apply rep4_size.
  - eapply returns_bind; [by eapply recv_pv_returns|]. intros r Hr. apply returns_ret. eapply received_ok; [done| |done].
    destruct Hi as (Hip & Hb & Hv & Hs0 & Hbs). rewrite alter_insert_port by lia. apply ports_ok_insert; [done|].
    pose proof (ports_ok_length _ _ _ p Hp Hip). rewrite (rep4_size bit (bits bit)) in Hbs by done. rewrite length_splice; lia.
  - destruct (sim_events s) as [|n] eqn:En; [by apply returns_ret|]. eapply returns_bind; [by eapply run_returns|].
    intros [f e] (Rk & Rh & Rn & v & Re & Rv). cbn [fst snd] in *. subst e. apply returns_ret. unfold with_result. cbn [fst snd fold_left apply_effect sim_f sim_events sim_sent].
    constructor; cbn [sim_f sim_events sim_sent]; [congruence|done|done| |].
    + rewrite Rn. destruct (net_of (sim_f s)); lia.
    + intros _. rewrite last_snoc. by rewrite <- Hk.
Qed.

Lemma sim_run_ok k w l s vals0 vals : sim_ok k w s vals0 vals -> Forall (step_fits k w) l ->
  returns (sim_run l s) (fun s' => sim_ok k w s' vals0 (fold_left (fun v i => step_ports i v) l vals)).
Proof.
  intros H Hl. revert s vals H. induction Hl as [|i l Hi _ IH]; intros s vals H; cbn [sim_run fold_left]; [by apply returns_ret|].
  eapply returns_bind; [by eapply sim_step_ok|]. intros s' H'. by apply IH.
Qed.

Lemma rep4_z w : rep4 (vector4_fill w BIT4_Z) (replicate w BIT4_Z).
Proof. apply rep4_fill. Qed.

(** The gates as [compile_functor] makes them. *)
Lemma made_ok type w f : functor_of_type type w = made_gate f ->
  net_of f = false /\ holds f (initial_ports (kind_of f) w).
Proof.
  unfold functor_of_type. intros H. assert (forall g, made_gate g = made_gate f -> g = f) as Hinj by congruence.
  repeat (case_decide; [try discriminate H; apply Hinj in H as <-; (split; [done|])|]); try discriminate H; cbn [holds kind_of].
  all: try (cbn; by repeat (constructor; [apply rep4_z|])).
  all: by try apply rep4_z.
Qed.

(** *** Reductions *)

Lemma reduce_loop_fold op b v l : rep4 v l -> reduce_loop op b v = fold_left op l b.
Proof.
  intros Hv. unfold reduce_loop. rewrite (rep4_size _ _ Hv).
  enough (loop_ 0 (length l) (fun idx res => op res (value v idx)) b = fold_left op (take (0 + length l) l) b) as -> by by rewrite take_ge.
  apply (loop_inv (fun n res => res = fold_left op (take n l) b)); [done|]. intros n res Hn ->.
  destruct (lookup_lt_is_Some_2 l n ltac:(lia)) as [x Hx]. rewrite (take_S_r _ _ _ Hx), fold_left_app. cbn [fold_left].
  by rewrite (rep4_value _ _ _ Hv), (bit_at_lookup _ _ _ Hx).
Qed.

Definition reduction (t : reduce_type) (l : list vvp_bit4_t) : vvp_bit4_t :=
  match t with
  | reduce_and => fold_left bit4_and l BIT4_1
  | reduce_or => fold_left bit4_or l BIT4_0
  | reduce_xor => fold_left bit4_xor l BIT4_0
  | reduce_nand => bit4_not (fold_left bit4_and l BIT4_1)
  | reduce_nor => bit4_not (fold_left bit4_or l BIT4_0)
  | reduce_xnor => bit4_not (fold_left bit4_xor l BIT4_0)
  end.

Lemma calculate_reduction t v l : rep4 v l -> calculate_result t v = reduction t l.
Proof. intros Hv. by destruct t; cbn [calculate_result reduction]; rewrite (reduce_loop_fold _ _ _ _ Hv). Qed.

Lemma bits_one b : bits (vector4_fill 1 b) = [b].
Proof. apply (rep4_fill 1 b). Qed.

Lemma reduce_pv_returns t v l bit base : rep4 v l -> wf4 bit -> 0 < size_ bit -> base + size_ bit <= length l ->
  returns (reduce_recv_vec4_pv t bit base (size_ bit) (length l) v) (fun p => exists r,
    bits (fst p) = splice l base (bits bit) /\ snd p = [send_vec4 r] /\ bits r = [reduction t (splice l base (bits bit))]).
Proof.
  intros Hv Hb Hs Hl. unfold reduce_recv_vec4_pv. cbv zeta. pose proof (rep4_size _ _ Hv) as Hsz.
  rewrite (proj2 (Nat.eqb_neq (size_ v) 0)) by lia. apply returns_assert; [by apply Nat.eqb_eq|]. apply returns_assert; [by apply Nat.eqb_eq|].
  eapply returns_bind; [by apply set_vec_flag|]. intros [r flag] (H1 & H2 & H3). cbn [fst snd] in *. apply returns_ret. cbn [fst snd].
  eexists. split; [apply H1|]. split; [done|]. by rewrite bits_one, (calculate_reduction _ _ _ H1).
Qed.

End gates.

(** ** Properties *)

(** C14: Every gate made by [compile_functor], under any sequence of whole and
    partial inputs of its widths and of runs of its scheduled events, returns, is
    never scheduled twice, and when no event is left the last value it has sent is the
    gate's function of the values its four ports have by then, or, if it has sent
    nothing, the function at the start.  For AND, NAND, OR and NOR this takes that the
    ports 2 and 3 have their neutral constant, as gates of two inputs have it; in
    general these send their function of the ports 0 and 1 ([gate_output]), so that
    gates of three and four inputs are wrong ([three_input_and]). *)
Theorem gates_settle type w f l :
  functor_of_type type w = made_gate f -> Forall (step_fits (kind_of f) w) l ->
  let k := kind_of f in
  let vals := fold_left (fun v i => step_ports i v) l (initial_ports k w) in
  returns (sim_run l (mk_sim f 0 [])) (fun s => sim_events s <= 1 /\
    (sim_events s = 0 ->
     let out := match last (sim_sent s) with Some v => bits v | None => gate_value k (initial_ports k w) end in
     (spare_neutral k w vals -> out = gate_value k vals) /\ out = gate_output k vals)).
Proof.
  intros Hf Hl k vals. destruct (made_ok _ _ _ Hf) as [Hn Hh].
  eapply returns_mono; [apply (sim_run_ok k w l _ (initial_ports k w) (initial_ports k w)); [|done]|].
  - constructor; cbn [sim_f sim_events sim_sent last]; [done|apply initial_ports_ok|done|by rewrite Hn|done].
  - intros s [Hk Hp Hs He Hsent]. split; [rewrite He; by destruct (net_of (sim_f s)); auto|]. intros E out. specialize (Hsent E).
    assert (out = gate_output k vals) as Hout.
    { unfold out. destruct (last (sim_sent s)); [apply Hsent|]. by rewrite <- initial_output. }
    split; [|done]. intros Hneu. rewrite Hout. by apply (neutral_output k w).
Qed.

Lemma gates_settle_witness :
  exists s, sim_run [Whole 0 (vector4_fill 2 BIT4_1); Part 1 (vector4_fill 1 BIT4_0) 1 2; Run; Whole 1 (vector4_fill 2 BIT4_1); Run] (mk_sim (vvp_fun_xor true (boolean_make 2)) 0 []) = Some s /\
    sim_events s <= 1.
Proof.
  destruct (gates_settle "XNOR" 2 (vvp_fun_xor true (boolean_make 2))
    [Whole 0 (vector4_fill 2 BIT4_1); Part 1 (vector4_fill 1 BIT4_0) 1 2; Run; Whole 1 (vector4_fill 2 BIT4_1); Run]) as (s & Hs & He & _).
  - reflexivity.
  - constructor; [split_and!; [lia|apply fill_wf|done]|]. constructor; [split_and!; [lia|apply fill_wf|done|by apply Nat.ltb_lt|by apply Nat.leb_le]|].
    constructor; [done|]. constructor; [split_and!; [lia|apply fill_wf|done]|]. by constructor.
  - exists s. by split.
Defined.

(** An AND of three inputs: the code generator gives it the ports a, b, c and a
    constant 1, but the shortcut for vectors of one width looks at a and b only. *)
Example three_input_and :
  gate_value (AND false) [[BIT4_1]; [BIT4_1]; [BIT4_0]; [BIT4_1]] = [BIT4_0] /\
  (s ← sim_run [Whole 0 (vector4_fill 1 BIT4_1); Whole 1 (vector4_fill 1 BIT4_1); Whole 2 (vector4_fill 1 BIT4_0); Whole 3 (vector4_fill 1 BIT4_1); Run]
        (mk_sim (vvp_fun_and false (boolean_make 1)) 0 []); Some (map bits (sim_sent s))) = Some [[BIT4_1]].
Proof. by vm_compute. Qed.

(** A reduction sends one bit, the operation over all bits of its input; of
    the vector with the part replaced when a part arrives, which is all X when
    nothing has arrived before. *)
Theorem reductions t v l bit base :
  rep4 v l -> wf4 bit -> 0 < size_ bit -> base + size_ bit <= length l ->
  (forall old, exists r, reduce_recv_vec4 t v old = (v, [send_vec4 r]) /\ bits r = [reduction t l]) /\
  forall old m, (old = v /\ m = l) \/ (old = vector4_fill 0 BIT4_X /\ m = replicate (length l) BIT4_X) ->
  returns (reduce_recv_vec4_pv t bit base (size_ bit) (length l) old) (fun p => exists r,
    bits (fst p) = splice m base (bits bit) /\ snd p = [send_vec4 r] /\ bits r = [reduction t (splice m base (bits bit))]).
Proof.
  intros Hv Hb Hs Hl. split.
  - intros old. eexists. split; [done|]. by rewrite bits_one, (calculate_reduction _ _ _ Hv).
  - intros old m [[-> ->]|[-> ->]]; [by apply reduce_pv_returns|].
    pose proof (reduce_pv_returns t _ _ bit base (rep4_fill (length l) BIT4_X) Hb Hs) as H. rewrite length_replicate in H. specialize (H Hl).
    unfold reduce_recv_vec4_pv in *. cbv zeta in *. rewrite size_fill in *. rewrite (proj2 (Nat.eqb_neq (length l) 0)) in H by lia. exact H.
Qed.

Lemma reductions_witness :
  exists p r, reduce_recv_vec4_pv reduce_or (vector4_fill 1 BIT4_1) 1 1 2 (vector4_fill 0 BIT4_X) = Some p /\ snd p = [send_vec4 r] /\ bits r = [BIT4_1].
Proof.
  destruct (reductions reduce_or (vector4_fill 2 BIT4_0) [BIT4_0; BIT4_0] (vector4_fill 1 BIT4_1) 1) as [_ H].
  - apply (rep4_fill 2).
  - apply fill_wf.
  - by apply Nat.ltb_lt.
  - by apply Nat.leb_le.
  - destruct (H _ _ (or_intror (conj eq_refl eq_refl))) as (p & Hp & r & H1 & H2 & H3). exists p, r. split; [exact Hp|]. split; [exact H2|]. exact H3.
Defined.
