(* ===== verification/Switch.v ===== *)
(** * Tristate buffers, switches and drivers ([vvp/bufif.cc], [vvp/npmos.cc],
    [vvp_fun_drive] of [vvp/vvp_net.cc])

    These functors compute at once: they keep their inputs and send a vector with
    strengths whenever one arrives.  The theorems read the strengths as the ranges
    of [Strength]: a device that is off drives nothing, one that is on passes its
    data, with the drive of the device or with the strength reduced by the table
    for switches, and one with an unknown control spans the range between both. *)

From Stdlib Require Import ZArith Lia Bool.
From stdpp Require Import base numbers list.
From S2P Require Import Prelude Bit4 Words Vec4 Vec4Move Vec2 VecRep Strength.

Open Scope Z_scope.

(** ** Definitions *)

(** [for (idx < n) out.set_bit(idx, ...)] into a new vector. *)
Definition fill_out (n : nat) (bit : nat -> option vvp_scalar_t) : option vvp_vector8_t :=
  for_ 0 n (fun idx out => s ← bit idx; set_bit8 out idx s) (vector8_make n).

(** *** [vvp_fun_bufif] *)

Record vvp_fun_bufif := mk_bufif { pol_ : bool; inv_ : bool; bufif_bit_ : vvp_vector4_t; bufif_en_ : vvp_vector4_t; drive0_ : Z; drive1_ : Z }.

Definition bufif_make (en_invert out_invert : bool) (str0 str1 : Z) : vvp_fun_bufif :=
  mk_bufif en_invert out_invert (vector4_fill 0 BIT4_X) (vector4_fill 0 BIT4_X) str0 str1.

(** One bit of the output. *)
Definition bufif_bit (d0 d1 : Z) (b_en b_bit : vvp_bit4_t) : option vvp_scalar_t :=
  match b_en with
  | BIT4_0 => scalar_make BIT4_Z d0 d1
  | BIT4_1 => if bit4_is_xz b_bit then scalar_make BIT4_X d0 d1 else scalar_make b_bit d0 d1
  | _ =>
      match b_bit with
      | BIT4_0 => scalar_make BIT4_X d0 0
      | BIT4_1 => scalar_make BIT4_X 0 d1
      | _ => scalar_make BIT4_X d0 d1
      end
  end.

Definition bufif_recv_vec4 (port : nat) (bit : vvp_vector4_t) (f : vvp_fun_bufif) : option (vvp_fun_bufif * list vvp_vector8_t) :=
  let go f :=
    out ← fill_out (size_ bit) (fun idx => bufif_bit (drive0_ f) (drive1_ f) (value (bufif_en_ f) idx) (value (bufif_bit_ f) idx));
    Some (f, [out]) in
  match port with
  | 0%nat => go (mk_bufif (pol_ f) (inv_ f) (if inv_ f then invert bit else bit) (bufif_en_ f) (drive0_ f) (drive1_ f))
  | 1%nat => go (mk_bufif (pol_ f) (inv_ f) (bufif_bit_ f) (if pol_ f then invert bit else bit) (drive0_ f) (drive1_ f))
  | _ => Some (f, [])
  end.

(** *** [vvp_fun_pmos_] and [vvp_fun_cmos_] *)

(** The bit with the strengths a switch leaves of it; a switch with an unknown
    control may also be off. *)
Definition switch_strength (resistive : bool) (b_bit : vvp_scalar_t) : option vvp_scalar_t :=
  s0 ← vvp_switch_strength_map resistive !! Z.to_nat (STREN0 b_bit);
  s1 ← vvp_switch_strength_map resistive !! Z.to_nat (STREN1 b_bit);
  scalar_make (scalar_value b_bit) s0 s1.

Definition switch_unknown (b_bit : vvp_scalar_t) : option vvp_scalar_t :=
  match scalar_value b_bit with
  | BIT4_0 => scalar_make BIT4_X (STREN0 b_bit) 0
  | BIT4_1 => scalar_make BIT4_X 0 (STREN1 b_bit)
  | _ => Some b_bit
  end.

Record vvp_fun_pmos_ := mk_pmos { pmos_bit_ : vvp_vector8_t; pmos_en_ : vvp_vector4_t; inv_en_ : bool; pmos_resistive_ : bool }.

Definition pmos_make (enable_invert resistive : bool) : vvp_fun_pmos_ :=
  mk_pmos (vector8_make 0) (vector4_fill 0 BIT4_X) enable_invert resistive.

Definition pmos_bit (resistive : bool) (b_en : vvp_bit4_t) (b_bit : vvp_scalar_t) : option vvp_scalar_t :=
  b_bit ← switch_strength resistive b_bit;
  match b_en with
  | BIT4_0 => Some b_bit
  | BIT4_1 => scalar_make BIT4_Z 0 0
  | _ => switch_unknown b_bit
  end.

Definition pmos_generate_output_ (f : vvp_fun_pmos_) : option (list vvp_vector8_t) :=
  out ← fill_out (size8_ (pmos_bit_ f)) (fun idx => b ← value8 (pmos_bit_ f) idx; pmos_bit (pmos_resistive_ f) (value (pmos_en_ f) idx) b);
  Some (if (0 <? size8_ out)%nat then [out] else []).

Definition pmos_enable (bit : vvp_vector4_t) (f : vvp_fun_pmos_) : option (vvp_fun_pmos_ * list vvp_vector8_t) :=
  let f := mk_pmos (pmos_bit_ f) (if inv_en_ f then invert bit else bit) (inv_en_ f) (pmos_resistive_ f) in
  out ← pmos_generate_output_ f; Some (f, out).

(** [vvp_fun_pmos::recv_vec8] and [vvp_fun_rpmos::recv_vec8], which are the same. *)
Definition pmos_recv_vec8 (port : nat) (bit : vvp_vector8_t) (f : vvp_fun_pmos_) : option (vvp_fun_pmos_ * list vvp_vector8_t) :=
  match port with
  | 1%nat => en ← reduce4 bit; pmos_enable en f
  | 0%nat => let f := mk_pmos bit (pmos_en_ f) (inv_en_ f) (pmos_resistive_ f) in out ← pmos_generate_output_ f; Some (f, out)
  | _ => Some (f, [])
  end.

Definition pmos_recv_vec4 (port : nat) (bit : vvp_vector4_t) (f : vvp_fun_pmos_) : option (vvp_fun_pmos_ * list vvp_vector8_t) :=
  match port with
  | 0%nat => tmp ← vector8_of_vector4 bit 6 6; pmos_recv_vec8 0 tmp f
  | 1%nat => pmos_enable bit f
  | _ => Some (f, [])
  end.

Record vvp_fun_cmos_ := mk_cmos { cmos_bit_ : vvp_vector8_t; n_en_ : vvp_vector4_t; p_en_ : vvp_vector4_t; cmos_resistive_ : bool }.

Definition cmos_make (resistive : bool) : vvp_fun_cmos_ := mk_cmos (vector8_make 0) (vector4_fill 0 BIT4_X) (vector4_fill 0 BIT4_X) resistive.

Definition cmos_bit (resistive : bool) (b_n_en b_p_en : vvp_bit4_t) (b_bit : vvp_scalar_t) : option vvp_scalar_t :=
  b_bit ← switch_strength resistive b_bit;
  if bit4_eqb b_n_en BIT4_1 || bit4_eqb b_p_en BIT4_0 then Some b_bit
  else if bit4_eqb b_n_en BIT4_0 && bit4_eqb b_p_en BIT4_1 then scalar_make BIT4_Z 0 0
  else switch_unknown b_bit.

Definition cmos_generate_output_ (f : vvp_fun_cmos_) : option (list vvp_vector8_t) :=
  out ← fill_out (size8_ (cmos_bit_ f)) (fun idx =>
    b ← value8 (cmos_bit_ f) idx; cmos_bit (cmos_resistive_ f) (value (n_en_ f) idx) (value (p_en_ f) idx) b);
  Some (if (0 <? size8_ out)%nat then [out] else []).

Definition cmos_enable (port : nat) (bit : vvp_vector4_t) (f : vvp_fun_cmos_) : option (vvp_fun_cmos_ * list vvp_vector8_t) :=
  let f := if (port =? 1)%nat then mk_cmos (cmos_bit_ f) bit (p_en_ f) (cmos_resistive_ f)
           else mk_cmos (cmos_bit_ f) (n_en_ f) bit (cmos_resistive_ f) in
  out ← cmos_generate_output_ f; Some (f, out).

(** [vvp_fun_cmos::recv_vec8], and [vvp_fun_rcmos::recv_vec8], which lacks port 2. *)
Definition cmos_recv_vec8 (port : nat) (bit : vvp_vector8_t) (f : vvp_fun_cmos_) : option (vvp_fun_cmos_ * list vvp_vector8_t) :=
  if (port =? 1)%nat || ((port =? 2)%nat && negb (cmos_resistive_ f)) then en ← reduce4 bit; cmos_enable port en f
  else if negb (port =? 0)%nat then Some (f, [])
  else let f := mk_cmos bit (n_en_ f) (p_en_ f) (cmos_resistive_ f) in out ← cmos_generate_output_ f; Some (f, out).

Definition cmos_recv_vec4 (port : nat) (bit : vvp_vector4_t) (f : vvp_fun_cmos_) : option (vvp_fun_cmos_ * list vvp_vector8_t) :=
  if (port =? 0)%nat then tmp ← vector8_of_vector4 bit 6 6; cmos_recv_vec8 0 tmp f
  else if negb (port =? 1)%nat && negb (port =? 2)%nat then Some (f, [])
  else cmos_enable port bit f.

(** *** [vvp_fun_drive], and parts of vectors *)

Definition drive_recv_vec4 (str0 str1 : Z) (port : nat) (bit : vvp_vector4_t) : option (list vvp_vector8_t) :=
  assert_ (port =? 0)%nat;; out ← vector8_of_vector4 bit str0 str1; Some [out].

(** [vvp_net_fun_t::recv_vec4_pv_] and [recv_vec8_pv_], up to the call of the
    handler of whole vectors. *)
Definition fun_recv_vec4_pv_ (bit : vvp_vector4_t) (base wid vwid : nat) : option vvp_vector4_t :=
  assert_ (size_ bit =? wid)%nat;;
  assert_ (base + wid <=? vwid)%nat;;
  '(tmp, _) ← set_vec (vector4_fill vwid BIT4_Z) base bit; Some tmp.

Definition fun_recv_vec8_pv_ (bit : vvp_vector8_t) (base wid vwid : nat) : option vvp_vector8_t :=
  assert_ (size8_ bit =? wid)%nat;;
  assert_ (base + wid <=? vwid)%nat;;
  set_vec8 (vector8_make vwid) base bit.

(** ** Specification *)

(** The control of a device: on, off, or unknown. *)
Definition control (en : vvp_bit4_t) : option bool := match en with BIT4_0 => Some false | BIT4_1 => Some true | _ => None end.

(** What a device with this control makes of the range of its data. *)
Definition switched (c : option bool) (r : Z * Z) : Z * Z :=
  match c with Some true => r | Some false => (0, 0) | None => (Z.min 0 (fst r), Z.max 0 (snd r)) end.

(** The range of a driven bit. *)
Definition drive_range (d0 d1 : Z) (b : vvp_bit4_t) : Z * Z :=
  match b with BIT4_0 => (- d0, - d0) | BIT4_1 => (d1, d1) | _ => (- d0, d1) end.

(** The strength a switch leaves. *)
Definition reduced (resistive : bool) (strength : Z) : Z := nth (Z.to_nat strength) (vvp_switch_strength_map resistive) 0.

Definition reduced_range (resistive : bool) (s : vvp_scalar_t) : Z * Z :=
  match scalar_value s with
  | BIT4_0 => (- reduced resistive (STREN0 s), - reduced resistive (STREN0 s))
  | BIT4_1 => (reduced resistive (STREN1 s), reduced resistive (STREN1 s))
  | BIT4_X => (- reduced resistive (STREN0 s), reduced resistive (STREN1 s))
  | BIT4_Z => (0, 0)
  end.

Definition cmos_control (n p : vvp_bit4_t) : option bool :=
  if bit4_eqb n BIT4_1 || bit4_eqb p BIT4_0 then Some true
  else if bit4_eqb n BIT4_0 && bit4_eqb p BIT4_1 then Some false else None.

(** ** Lemmas *)

Definition bit_all : list vvp_bit4_t := [BIT4_0; BIT4_1; BIT4_X; BIT4_Z].

Lemma in_bit_all b : In b bit_all.
Proof. destruct b; cbn; tauto. Qed.

(** What a computed bit has to be. *)
Definition bit_is (r : Z * Z) (m : option vvp_scalar_t) : bool :=
  match m with Some s => (0 <=? s) && (s <? 256) && (sv0 s <=? sv1 s) && range_eqb (range_of s) r | None => false end.

Lemma bit_is_returns r m : bit_is r m = true -> returns m (fun s => scalar_ok s /\ range_of s = r).
Proof.
  unfold bit_is. destruct m as [s|]; [|done]. intros H. repeat (apply andb_true_iff in H as [H ?]). rewrite ?Z.leb_le, ?Z.ltb_lt in *.
  exists s. split; [done|]. split; [split; lia|by apply range_eqb_eq].
Qed.

Lemma strength_all (p : Z -> bool) : forallb p [0; 1; 2; 3; 4; 5; 6; 7] = true -> forall d, 0 <= d <= 7 -> p d = true.
Proof. rewrite forallb_forall. intros H d Hd. apply H. assert (d = 0 \/ d = 1 \/ d = 2 \/ d = 3 \/ d = 4 \/ d = 5 \/ d = 6 \/ d = 7) by lia. cbn. intuition congruence. Qed.

Lemma bufif_bit_range d0 d1 en b : 0 <= d0 <= 7 -> 0 <= d1 <= 7 ->
  returns (bufif_bit d0 d1 en b) (fun s => scalar_ok s /\ range_of s = switched (control en) (drive_range d0 d1 b)).
Proof.
  intros H0 H1. apply bit_is_returns. revert d1 H1. apply strength_all. revert d0 H0. apply strength_all. by destruct en, b; vm_compute.
Qed.

Lemma pmos_bit_range resistive en b : 0 <= b < 256 ->
  returns (pmos_bit resistive en b) (fun s => scalar_ok s /\ range_of s = switched (option_map negb (control en)) (reduced_range resistive b)).
Proof.
  intros Hb. apply bit_is_returns. revert b Hb.
  apply (byte_all (fun b => bit_is (switched (option_map negb (control en)) (reduced_range resistive b)) (pmos_bit resistive en b))).
  by destruct resistive, en; vm_compute.
Qed.

Lemma cmos_bit_range resistive n p b : 0 <= b < 256 ->
  returns (cmos_bit resistive n p b) (fun s => scalar_ok s /\ range_of s = switched (cmos_control n p) (reduced_range resistive b)).
Proof.
  intros Hb. apply bit_is_returns. revert b Hb.
  apply (byte_all (fun b => bit_is (switched (cmos_control n p) (reduced_range resistive b)) (cmos_bit resistive n p b))).
  by destruct resistive, n, p; vm_compute.
Qed.

(** An output vector, bit by bit. *)
Definition outputs (n : nat) (r : nat -> Z * Z) (v : vvp_vector8_t) : Prop :=
  wf8 v /\ size8_ v = n /\ forall i, (i < n)%nat -> returns (value8 v i) (fun s => scalar_ok s /\ range_of s = r i).

Lemma set_bit8_value v i s : wf8 v -> (i < size8_ v)%nat ->
  returns (set_bit8 v i s) (fun r => wf8 r /\ size8_ r = size8_ v /\ forall j, (j < size8_ v)%nat -> value8 r j = if (j =? i)%nat then Some s else value8 v j).
Proof.
  intros [Hl Hz] Hi. pose proof (store_size_le (size8_ v)). assert (i < length (bytes_ v))%nat as Hib by (rewrite Hl; lia).
  unfold set_bit8. apply returns_assert; [by apply Nat.ltb_lt|]. apply returns_ret. split; [split|split]; cbn [size8_ bytes_].
  - by rewrite length_insert.
  - intros j Hj. rewrite nth_insert by exact Hib. rewrite (proj2 (Nat.eqb_neq _ _)) by lia. by apply Hz.
  - done.
  - intros j Hj. rewrite !value8_spec by done. cbn [bytes_]. rewrite nth_insert by exact Hib. by destruct (j =? i)%nat.
Qed.

Lemma fill_out_returns n bit (r : nat -> Z * Z) :
  (forall i, (i < n)%nat -> returns (bit i) (fun s => scalar_ok s /\ range_of s = r i)) -> returns (fill_out n bit) (outputs n r).
Proof.
  intros Hbit. eapply returns_mono.
  - apply (returns_for (fun k v => wf8 v /\ size8_ v = n /\ forall i, (i < k)%nat -> returns (value8 v i) (fun s => scalar_ok s /\ range_of s = r i))).
    + split; [apply vector8_make_wf|]. split; [done|]. intros i Hi. lia.
    + intros k v Hk (Hw & Hs & Hv). destruct (Hbit k ltac:(lia)) as (s & -> & Hsok). cbn [mbind option_bind].
      eapply returns_mono; [apply set_bit8_value; [done|lia]|]. intros v' (Hw' & Hs' & Hv'). split; [done|]. split; [congruence|].
      intros i Hi. rewrite Hv' by lia. destruct (Nat.eqb_spec i k) as [->|]; [by apply returns_ret|]. apply Hv. lia.
  - intros v (Hw & Hs & Hv). by split_and!.
Qed.

(** The bytes of a vector that holds proper scalars. *)
Definition bytes_ok (v : vvp_vector8_t) : Prop := wf8 v /\ forall i, (i < size8_ v)%nat -> 0 <= nth i (bytes_ v) 0 < 256.

Lemma pmos_output_returns f : bytes_ok (pmos_bit_ f) ->
  returns (pmos_generate_output_ f) (fun l => exists v,
    l = (if (0 <? size8_ (pmos_bit_ f))%nat then [v] else []) /\
    outputs (size8_ (pmos_bit_ f)) (fun i => switched (option_map negb (control (value (pmos_en_ f) i))) (reduced_range (pmos_resistive_ f) (nth i (bytes_ (pmos_bit_ f)) 0))) v).
Proof.
  intros [Hw Hb]. unfold pmos_generate_output_. eapply returns_bind.
  - apply (fill_out_returns _ _ (fun i => switched (option_map negb (control (value (pmos_en_ f) i))) (reduced_range (pmos_resistive_ f) (nth i (bytes_ (pmos_bit_ f)) 0)))).
    intros i Hi. rewrite value8_spec by done. cbn [mbind option_bind]. by apply pmos_bit_range, Hb.
  - intros v Hv. apply returns_ret. exists v. split; [by rewrite (proj1 (proj2 Hv))|done].
Qed.

Lemma cmos_output_returns f : bytes_ok (cmos_bit_ f) ->
  returns (cmos_generate_output_ f) (fun l => exists v,
    l = (if (0 <? size8_ (cmos_bit_ f))%nat then [v] else []) /\
    outputs (size8_ (cmos_bit_ f)) (fun i => switched (cmos_control (value (n_en_ f) i) (value (p_en_ f) i)) (reduced_range (cmos_resistive_ f) (nth i (bytes_ (cmos_bit_ f)) 0))) v).
Proof.
  intros [Hw Hb]. unfold cmos_generate_output_. eapply returns_bind.
  - apply (fill_out_returns _ _ (fun i => switched (cmos_control (value (n_en_ f) i) (value (p_en_ f) i)) (reduced_range (cmos_resistive_ f) (nth i (bytes_ (cmos_bit_ f)) 0)))).
    intros i Hi. rewrite value8_spec by done. cbn [mbind option_bind]. by apply cmos_bit_range, Hb.
  - intros v Hv. apply returns_ret. exists v. split; [by rewrite (proj1 (proj2 Hv))|done].
Qed.

(** ** Properties *)

(** Whatever input a tristate buffer receives, it sends a vector as wide as
    that input, in which a bit whose (inverted, where the type says so) enable
    is 1 has the drive of the buffer with the value of the data, an unknown value for
    unknown data, a bit whose enable is 0 is not driven, and a bit whose enable
    is unknown ranges from not driven to driven. *)
Theorem bufif_drives f port bit :
  wf4 bit -> (port < 2)%nat -> 0 <= drive0_ f <= 7 -> 0 <= drive1_ f <= 7 ->
  returns (bufif_recv_vec4 port bit f) (fun '(f', sent) =>
    bufif_bit_ f' = (if (port =? 0)%nat then if inv_ f then invert bit else bit else bufif_bit_ f) /\
    bufif_en_ f' = (if (port =? 1)%nat then if pol_ f then invert bit else bit else bufif_en_ f) /\
    exists out, sent = [out] /\
      outputs (size_ bit) (fun i => switched (control (value (bufif_en_ f') i)) (drive_range (drive0_ f) (drive1_ f) (value (bufif_bit_ f') i))) out).
Proof.
  intros Hb Hp H0 H1. unfold bufif_recv_vec4. destruct port as [|[|port]]; [| |lia]; cbn [Nat.eqb].
  all: eapply returns_bind; [apply fill_out_returns; intros i Hi; by apply bufif_bit_range|].
  all: intros out Hout; apply returns_ret; split; [done|]; split; [done|]; by exists out.
Qed.

Lemma bufif_drives_witness :
  exists f' out, bufif_recv_vec4 0 (vector4_fill 3 BIT4_0) (bufif_make true true 6 6) = Some (f', [out]) /\ size8_ out = 3%nat.
Proof.
  destruct (bufif_drives (bufif_make true true 6 6) 0 (vector4_fill 3 BIT4_0) (fill_wf 3 BIT4_0)) as ([f' sent] & E & _ & _ & out & -> & Ho).
  - lia.
  - by vm_compute.
  - by vm_compute.
  - exists f', out. split; [exact E|]. exact (proj1 (proj2 Ho)).
Defined.

(** A switch sends its data with the strengths its table leaves, nothing
    where it is off, and the range from nothing to the data where its control is unknown; a
    PMOS (NMOS with the enable inverted) is on for 0, a CMOS is on if either
    control is on and off if both are off.  It sends nothing before it has data. *)
Theorem switches_pass f g bit en port :
  bytes_ok bit -> bytes_ok (pmos_bit_ f) -> bytes_ok (cmos_bit_ g) ->
  let passes data resistive c sent := exists out, sent = (if (0 <? size8_ data)%nat then [out] else []) /\
    outputs (size8_ data) (fun i => switched (c i) (reduced_range resistive (nth i (bytes_ data) 0))) out in
  returns (pmos_recv_vec8 0 bit f) (fun '(f', sent) => pmos_bit_ f' = bit /\ pmos_en_ f' = pmos_en_ f /\
    passes bit (pmos_resistive_ f) (fun i => option_map negb (control (value (pmos_en_ f) i))) sent) /\
  returns (pmos_recv_vec4 1 en f) (fun '(f', sent) => pmos_bit_ f' = pmos_bit_ f /\ pmos_en_ f' = (if inv_en_ f then invert en else en) /\
    passes (pmos_bit_ f) (pmos_resistive_ f) (fun i => option_map negb (control (value (pmos_en_ f') i))) sent) /\
  returns (cmos_recv_vec8 0 bit g) (fun '(g', sent) => cmos_bit_ g' = bit /\ n_en_ g' = n_en_ g /\ p_en_ g' = p_en_ g /\
    passes bit (cmos_resistive_ g) (fun i => cmos_control (value (n_en_ g) i) (value (p_en_ g) i)) sent) /\
  (port = 1%nat \/ port = 2%nat ->
   returns (cmos_recv_vec4 port en g) (fun '(g', sent) => cmos_bit_ g' = cmos_bit_ g /\
    n_en_ g' = (if (port =? 1)%nat then en else n_en_ g) /\ p_en_ g' = (if (port =? 2)%nat then en else p_en_ g) /\
    passes (cmos_bit_ g) (cmos_resistive_ g) (fun i => cmos_control (value (n_en_ g') i) (value (p_en_ g') i)) sent)).
Proof.
  intros Hb Hf Hg passes. split_and!.
  - eapply returns_bind; [by apply pmos_output_returns|]. intros out Hout. apply returns_ret. by split_and!.
  - eapply returns_bind; [by apply pmos_output_returns|]. intros out Hout. apply returns_ret. by split_and!.
  - eapply returns_bind; [by apply cmos_output_returns|]. intros out Hout. apply returns_ret. by split_and!.
  - intros [-> | ->]; (eapply returns_bind; [by apply cmos_output_returns|]); intros out Hout; apply returns_ret; by split_and!.
Qed.

(** A strong 0, a pull 1 and an undriven bit. *)
Definition three_bits : vvp_vector8_t := mk_vector8 3 [0x66; 0xdd; 0; 0; 0; 0; 0; 0].

Lemma three_bits_ok : bytes_ok three_bits.
Proof.
  split; [split; [done|]|].
  - intros i Hi. cbn [three_bits size8_ bytes_] in *. do 3 (destruct i as [|i]; [lia|]). cbn [nth]. by do 5 (destruct i as [|i]; [done|]); destruct i.
  - intros i Hi. cbn [three_bits size8_ bytes_] in *. do 3 (destruct i as [|i]; [cbn; lia|]). lia.
Qed.

Lemma switches_pass_witness :
  exists f' out, pmos_recv_vec4 1 (vector4_fill 3 BIT4_1) (mk_pmos three_bits (vector4_fill 0 BIT4_X) true true) = Some (f', [out]) /\ size8_ out = 3%nat.
Proof.
  destruct (switches_pass (mk_pmos three_bits (vector4_fill 0 BIT4_X) true true) (mk_cmos three_bits (vector4_fill 0 BIT4_X) (vector4_fill 0 BIT4_X) false)
    three_bits (vector4_fill 3 BIT4_1) 1 three_bits_ok three_bits_ok three_bits_ok) as (_ & H & _).
  destruct H as ([f' sent] & E & _ & _ & out & Hs & Ho). exists f', out. split; [|exact (proj1 (proj2 Ho))]. rewrite E. f_equal. f_equal. exact Hs.
Defined.

(** A control of a resistive CMOS that arrives as a vector with strengths is ignored
    on port 2 only. *)
Example rcmos_port_2 :
  option_map snd (cmos_recv_vec8 2 three_bits (mk_cmos three_bits (vector4_fill 3 BIT4_0) (vector4_fill 3 BIT4_1) true)) = Some [] /\
  option_map (length ∘ snd) (cmos_recv_vec8 1 three_bits (mk_cmos three_bits (vector4_fill 3 BIT4_0) (vector4_fill 3 BIT4_1) true)) = Some 1%nat.
Proof. by vm_compute. Qed.
