(* ===== verification/Signal.v ===== *)
(** * Signals, and forcing them ([vvp/vvp_net_sig.h], [vvp/vvp_net_sig.cc])

    The value of a net or variable passes through a filter ([vvp_wire_vec4]) on
    its way from the functor to the ports of other nets.  The filter keeps the value
    that is driven and the value that is forced, with a mask of the forced bits.
    A variable has a functor of its own ([vvp_fun_signal4_sa]), which keeps the
    variable's value and the mask of a procedural continuous assignment.  The file
    models both with the instructions that force, release, assign and deassign,
    and proves that the nets behind a signal always see the filtered value. *)

From Stdlib Require Import ZArith Lia Bool.
From stdpp Require Import base numbers list.
From S2P Require Import Prelude Bit4 Words Vec4 Vec4Move Vec2 VecRep Strength.

Open Scope nat_scope.

(** ** Definitions *)

(** What the methods do outside of the net. *)
Inductive effect :=
  | run_vpi_callbacks
  | out_vec4 (val : vvp_vector4_t)
  | out_vec4_pv (val : vvp_vector4_t) (base wid vwid : nat)
  | out_vec8 (val : vvp_vector8_t)
  | out_vec8_pv (val : vvp_vector8_t) (base wid vwid : nat).

Inductive prop_t := STOP | PROP | REPL.

(** *** [vvp_net_fil_t] *)

(** What the templates use of a type of vectors. *)
Class Vector (T B : Type) := {
  vec_size : T -> nat;
  vec_value : T -> nat -> option B;
  vec_set_bit : T -> nat -> B -> option T
}.

#[export] Instance vector4_vector : Vector vvp_vector4_t vvp_bit4_t :=
  {| vec_size := size_; vec_value v i := Some (value v i); vec_set_bit := set_bit |}.

#[export] Instance vector8_vector : Vector vvp_vector8_t vvp_scalar_t :=
  {| vec_size := size8_; vec_value := value8; vec_set_bit := set_bit8 |}.

Record vvp_net_fil_t := mk_fil { force_mask_ : vvp_vector2_t; force_propagate_ : bool }.

Definition fil_make : vvp_net_fil_t := mk_fil vector2_nan false.

Definition force_mask (mask : vvp_vector2_t) (m : vvp_net_fil_t) : option vvp_net_fil_t :=
  let fm := if wid_ (force_mask_ m) =? 0 then vector2_fill false (wid_ mask) else force_mask_ m in
  assert_ (wid_ fm =? wid_ mask);;
  for_ 0 (wid_ mask) (fun idx m =>
    if negb (vector2_value mask idx) then Some m
    else fm ← vector2_set_bit (force_mask_ m) idx true; Some (mk_fil fm true)) (mk_fil fm (force_propagate_ m)).

Definition release_mask (mask : vvp_vector2_t) (m : vvp_net_fil_t) : option vvp_net_fil_t :=
  if wid_ (force_mask_ m) =? 0 then Some m
  else
    assert_ (wid_ (force_mask_ m) =? wid_ mask);;
    fm ← for_ 0 (wid_ mask) (fun idx fm => if vector2_value mask idx then vector2_set_bit fm idx false else Some fm) (force_mask_ m);
    Some (mk_fil (if is_zero fm then vector2_nan else fm) (force_propagate_ m)).

Definition test_force_mask (bit : nat) (m : vvp_net_fil_t) : bool :=
  if wid_ (force_mask_ m) <=? bit then false else vector2_value (force_mask_ m) bit.

Definition test_force_mask_is_zero (m : vvp_net_fil_t) : bool := (wid_ (force_mask_ m) =? 0) || is_zero (force_mask_ m).

Section filter.

Context {T B : Type} `{!Vector T B}.

(** [filter_mask_(val, force, filter, base)]: the answer, the filtered value and
    the callbacks. *)
Definition filter_mask_ (val force filter : T) (base : nat) (m : vvp_net_fil_t) : option (vvp_net_fil_t * prop_t * T * list effect) :=
  if negb (test_force_mask_is_zero m) then
    let propagate_flag := force_propagate_ m in
    let m := mk_fil (force_mask_ m) false in
    assert_ (wid_ (force_mask_ m) =? vec_size force);;
    assert_ (base + vec_size val <=? wid_ (force_mask_ m));;
    '(filter, propagate_flag) ← for_ 0 (vec_size val) (fun idx '(filter, propagate_flag) =>
      if vector2_value (force_mask_ m) (base + idx) then
        b ← vec_value force (base + idx); filter ← vec_set_bit filter idx b; Some (filter, propagate_flag)
      else Some (filter, true)) (val, propagate_flag);
    if (propagate_flag : bool) then Some (m, REPL, filter, [run_vpi_callbacks]) else Some (m, STOP, filter, [])
  else Some (m, PROP, filter, [run_vpi_callbacks]).

(** [filter_input_mask_]: no state is changed. *)
Definition filter_input_mask_ (val force rep : T) (m : vvp_net_fil_t) : option (prop_t * T) :=
  if test_force_mask_is_zero m then Some (PROP, rep)
  else
    assert_ (wid_ (force_mask_ m) =? vec_size force);;
    rep ← for_ 0 (vec_size val) (fun idx rep =>
      if vector2_value (force_mask_ m) idx then b ← vec_value force idx; vec_set_bit rep idx b else Some rep) val;
    Some (REPL, rep).

End filter.

(** *** [vvp_wire_vec4] *)

Record vvp_wire_vec4 := mk_wire { needs_init_ : bool; bits4_ : vvp_vector4_t; force4_ : vvp_vector4_t; wire_fil_ : vvp_net_fil_t }.

Definition wire_make (wid : nat) (init : vvp_bit4_t) : vvp_wire_vec4 := mk_wire true (vector4_fill wid init) (vector4_fill 0 BIT4_X) fil_make.

Definition filtered_value_ (w : vvp_wire_vec4) (idx : nat) : vvp_bit4_t :=
  if test_force_mask idx (wire_fil_ w) then value (force4_ w) idx else value (bits4_ w) idx.

Definition vec4_value (w : vvp_wire_vec4) : option vvp_vector4_t :=
  if test_force_mask_is_zero (wire_fil_ w) then Some (bits4_ w)
  else for_ 0 (size_ (bits4_ w)) (fun idx val => set_bit val idx (filtered_value_ w idx)) (bits4_ w).

Definition no_rep : vvp_vector4_t := vector4_fill 0 BIT4_X.

(** The end of the filter functions: the new driven value is filtered. *)
Definition wire_filter (bit : vvp_vector4_t) (base : nat) (bits4 : vvp_vector4_t) (w : vvp_wire_vec4) :
    option (vvp_wire_vec4 * prop_t * vvp_vector4_t * list effect) :=
  '(m, rc, rep, e) ← filter_mask_ bit (force4_ w) no_rep base (wire_fil_ w);
  Some (mk_wire false bits4 (force4_ w) m, rc, rep, e).

Definition wire_filter_vec4 (bit : vvp_vector4_t) (base vwid : nat) (w : vvp_wire_vec4) :
    option (vvp_wire_vec4 * prop_t * vvp_vector4_t * list effect) :=
  if (base =? 0) && (vwid =? 0) then
    let tmp := vector4_fill (size_ (bits4_ w)) BIT4_X in
    if eeq (bits4_ w) tmp && negb (needs_init_ w) then Some (w, STOP, no_rep, []) else wire_filter tmp 0 tmp w
  else
    assert_ (size_ (bits4_ w) =? vwid);;
    if (base =? 0) && (size_ bit =? vwid) then
      if eeq (bits4_ w) bit && negb (needs_init_ w) then Some (w, STOP, no_rep, []) else wire_filter bit base bit w
    else
      '(bits4, rc) ← set_vec (bits4_ w) base bit;
      if negb rc && negb (needs_init_ w) then Some (mk_wire (needs_init_ w) bits4 (force4_ w) (wire_fil_ w), STOP, no_rep, [])
      else wire_filter bit base bits4 w.

(** [filter_vec8] of the same class: the state is kept in four values, the filter
    works on the strengths. *)
Definition wire_filter_vec8 (bit : vvp_vector8_t) (base vwid : nat) (w : vvp_wire_vec4) :
    option (vvp_wire_vec4 * prop_t * vvp_vector8_t * list effect) :=
  assert_ (size_ (bits4_ w) =? vwid);;
  bit4 ← reduce4 bit;
  force8 ← vector8_of_vector4 (force4_ w) 6 6;
  let go bits4 :=
    '(m, rc, rep, e) ← filter_mask_ bit force8 (vector8_make 0) base (wire_fil_ w);
    Some (mk_wire false bits4 (force4_ w) m, rc, rep, e) in
  if (base =? 0) && (size_ bit4 =? vwid) then
    if eeq (bits4_ w) bit4 && negb (needs_init_ w) then Some (w, STOP, vector8_make 0, []) else go bit4
  else
    '(bits4, rc) ← set_vec (bits4_ w) base bit4;
    if negb rc && negb (needs_init_ w) then Some (mk_wire (needs_init_ w) bits4 (force4_ w) (wire_fil_ w), STOP, vector8_make 0, [])
    else go bits4.

Definition force_fil_vec4 (val : vvp_vector4_t) (mask : vvp_vector2_t) (w : vvp_wire_vec4) : option (vvp_wire_vec4 * list effect) :=
  m ← force_mask mask (wire_fil_ w);
  force4 ←
    (if size_ (force4_ w) =? 0 then Some val
     else for_ 0 (wid_ mask) (fun idx force4 => if negb (vector2_value mask idx) then Some force4 else set_bit force4 idx (value val idx)) (force4_ w));
  Some (mk_wire (needs_init_ w) (bits4_ w) force4 m, [run_vpi_callbacks]).

(** *** Sending through the filter: [vvp_net_t::send_vec4], [send_vec4_pv] *)

Definition net_send_vec4 (val : vvp_vector4_t) (w : vvp_wire_vec4) : option (vvp_wire_vec4 * list effect) :=
  '(w, rc, rep, e) ← wire_filter_vec4 val 0 (size_ val) w;
  Some (w, e ++ match rc with STOP => [] | PROP => [out_vec4 val] | REPL => [out_vec4 rep] end).

Definition net_send_vec4_pv (val : vvp_vector4_t) (base wid vwid : nat) (w : vvp_wire_vec4) : option (vvp_wire_vec4 * list effect) :=
  assert_ (size_ val =? wid);;
  '(w, rc, rep, e) ← wire_filter_vec4 val base vwid w;
  Some (w, e ++ match rc with STOP => [] | PROP => [out_vec4_pv val base wid vwid] | REPL => [out_vec4_pv rep base wid vwid] end).

Definition net_send_vec8 (val : vvp_vector8_t) (w : vvp_wire_vec4) : option (vvp_wire_vec4 * list effect) :=
  '(w, rc, rep, e) ← wire_filter_vec8 val 0 (size8_ val) w;
  Some (w, e ++ match rc with STOP => [] | PROP => [out_vec8 val] | REPL => [out_vec8 rep] end).

Definition net_send_vec8_pv (val : vvp_vector8_t) (base wid vwid : nat) (w : vvp_wire_vec4) : option (vvp_wire_vec4 * list effect) :=
  assert_ (size8_ val =? wid);;
  '(w, rc, rep, e) ← wire_filter_vec8 val base vwid w;
  Some (w, e ++ match rc with STOP => [] | PROP => [out_vec8_pv val base wid vwid] | REPL => [out_vec8_pv rep base wid vwid] end).

(** [vvp_net_t::force_vec4] *)
Definition net_force_vec4 (val : vvp_vector4_t) (mask : vvp_vector2_t) (w : vvp_wire_vec4) : option (vvp_wire_vec4 * list effect) :=
  '(w, e) ← force_fil_vec4 val mask w; Some (w, e ++ [out_vec4 val]).

(** *** [vvp_fun_signal4_sa] *)

Record vvp_fun_signal4_sa := mk_signal { sig_needs_init_ : bool; sig_bits4_ : vvp_vector4_t; assign_mask_ : vvp_vector2_t }.

Definition signal_make (wid : nat) (init : vvp_bit4_t) : vvp_fun_signal4_sa := mk_signal true (vector4_fill wid init) vector2_nan.

Definition coerce_to_width (that : vvp_vector4_t) (width : nat) : option vvp_vector4_t :=
  if size_ that =? width then Some that
  else
    assert_ (width <? size_ that);;
    for_ 0 width (fun idx res => set_bit res idx (value that idx)) (vector4_fill width BIT4_X).

(** The loop under a mask, with the flag [changed]. *)
Definition assign_unmasked (mask : vvp_vector2_t) (bit : vvp_vector4_t) (base n : nat) (bits4 : vvp_vector4_t) : option (vvp_vector4_t * bool) :=
  for_ 0 n (fun idx '(bits4, changed) =>
    if size_ bits4 <=? base + idx then Some (bits4, changed)
    else if vector2_value mask (base + idx) then Some (bits4, changed)
    else bits4 ← set_bit bits4 (base + idx) (value bit idx); Some (bits4, true)) (bits4, false).

(** What a handler sends to the net, if anything. *)
Definition signal_recv_vec4 (port : nat) (bit : vvp_vector4_t) (s : vvp_fun_signal4_sa) : option (vvp_fun_signal4_sa * option vvp_vector4_t) :=
  match port with
  | 0 =>
      if wid_ (assign_mask_ s) =? 0 then
        if sig_needs_init_ s || negb (eeq (sig_bits4_ s) bit) then
          assert_ (size_ bit =? size_ (sig_bits4_ s));;
          Some (mk_signal false bit (assign_mask_ s), Some bit)
        else Some (s, None)
      else
        assert_ (size_ (sig_bits4_ s) =? wid_ (assign_mask_ s));;
        '(bits4, changed) ← assign_unmasked (assign_mask_ s) bit 0 (size_ bit) (sig_bits4_ s);
        if (changed : bool) then Some (mk_signal false bits4 (assign_mask_ s), Some bits4)
        else Some (mk_signal (sig_needs_init_ s) bits4 (assign_mask_ s), None)
  | 1 =>
      bits4 ← coerce_to_width bit (size_ (sig_bits4_ s));
      Some (mk_signal (sig_needs_init_ s) bits4 (vector2_fill true (size_ bits4)), Some bits4)
  | _ => None
  end.

Definition signal_recv_vec4_pv (port : nat) (bit : vvp_vector4_t) (base wid vwid : nat) (s : vvp_fun_signal4_sa) :
    option (vvp_fun_signal4_sa * option vvp_vector4_t) :=
  assert_ (size_ bit =? wid);;
  assert_ (size_ (sig_bits4_ s) =? vwid);;
  match port with
  | 0 =>
      if wid_ (assign_mask_ s) =? 0 then
        bits4 ← for_ 0 wid (fun idx bits4 => if size_ bits4 <=? base + idx then Some bits4 else set_bit bits4 (base + idx) (value bit idx)) (sig_bits4_ s);
        Some (mk_signal false bits4 (assign_mask_ s), Some bits4)
      else
        assert_ (size_ (sig_bits4_ s) =? wid_ (assign_mask_ s));;
        '(bits4, changed) ← assign_unmasked (assign_mask_ s) bit base wid (sig_bits4_ s);
        if (changed : bool) then Some (mk_signal false bits4 (assign_mask_ s), Some bits4)
        else Some (mk_signal (sig_needs_init_ s) bits4 (assign_mask_ s), None)
  | 1 =>
      let mask := if wid_ (assign_mask_ s) =? 0 then vector2_fill false (size_ (sig_bits4_ s)) else assign_mask_ s in
      '(bits4, mask) ← for_ 0 wid (fun idx '(bits4, mask) =>
        if size_ bits4 <=? base + idx then Some (bits4, mask)
        else
          bits4 ← set_bit bits4 (base + idx) (value bit idx);
          mask ← vector2_set_bit mask (base + idx) true;
          Some (bits4, mask)) (sig_bits4_ s, mask);
      Some (mk_signal (sig_needs_init_ s) bits4 mask, Some bits4)
  | _ => None
  end.

Definition deassign (s : vvp_fun_signal4_sa) : vvp_fun_signal4_sa := mk_signal (sig_needs_init_ s) (sig_bits4_ s) vector2_nan.

Definition deassign_pv (base wid : nat) (s : vvp_fun_signal4_sa) : option vvp_fun_signal4_sa :=
  mask ← for_ 0 wid (fun idx mask => vector2_set_bit mask (base + idx) false) (assign_mask_ s);
  Some (mk_signal (sig_needs_init_ s) (sig_bits4_ s) (if is_zero mask then vector2_nan else mask)).

(** *** A signal: the functor of a variable, and the filter *)

(** A net has no functor of its own here: it is driven by another one. *)
Record signal_net := mk_net { fun_ : option vvp_fun_signal4_sa; fil_ : vvp_wire_vec4 }.

Definition var_recv_vec4 (port : nat) (bit : vvp_vector4_t) (n : signal_net) : option (signal_net * list effect) :=
  s ← fun_ n;
  '(s, sent) ← signal_recv_vec4 port bit s;
  match sent with
  | None => Some (mk_net (Some s) (fil_ n), [])
  | Some v => '(w, e) ← net_send_vec4 v (fil_ n); Some (mk_net (Some s) w, e)
  end.

Definition var_recv_vec4_pv (port : nat) (bit : vvp_vector4_t) (base wid vwid : nat) (n : signal_net) : option (signal_net * list effect) :=
  s ← fun_ n;
  '(s, sent) ← signal_recv_vec4_pv port bit base wid vwid s;
  match sent with
  | None => Some (mk_net (Some s) (fil_ n), [])
  | Some v => '(w, e) ← net_send_vec4 v (fil_ n); Some (mk_net (Some s) w, e)
  end.

(** [vvp_wire_vec4::release] *)
Definition release (net_flag : bool) (n : signal_net) : option (signal_net * list effect) :=
  let w := fil_ n in
  let mask := vector2_fill true (size_ (bits4_ w)) in
  if net_flag then
    m ← release_mask mask (wire_fil_ w);
    '(w, e) ← net_send_vec4 (bits4_ w) (mk_wire (negb (eeq (force4_ w) (bits4_ w))) (bits4_ w) (force4_ w) m);
    Some (mk_net (fun_ n) w, e ++ [run_vpi_callbacks])
  else
    res ← for_ 0 (size_ (bits4_ w)) (fun idx res => set_bit res idx (filtered_value_ w idx)) (vector4_fill (size_ (bits4_ w)) BIT4_X);
    m ← release_mask mask (wire_fil_ w);
    var_recv_vec4 0 res (mk_net (fun_ n) (mk_wire (needs_init_ w) (bits4_ w) (force4_ w) m)).

Definition part_mask (size base wid : nat) : option vvp_vector2_t :=
  for_ 0 wid (fun idx mask => vector2_set_bit mask (base + idx) true) (vector2_fill false size).

Definition release_pv (base wid : nat) (net_flag : bool) (n : signal_net) : option (signal_net * list effect) :=
  let w := fil_ n in
  assert_ (base + wid <=? size_ (bits4_ w));;
  mask ← part_mask (size_ (bits4_ w)) base wid;
  if net_flag then
    m ← release_mask mask (wire_fil_ w);
    f ← subvalue (force4_ w) base wid;
    b ← subvalue (bits4_ w) base wid;
    '(w', e) ← net_send_vec4_pv b base wid (size_ (bits4_ w)) (mk_wire (negb (eeq f b)) (bits4_ w) (force4_ w) m);
    Some (mk_net (fun_ n) w', e ++ [run_vpi_callbacks])
  else
    res ← for_ 0 wid (fun idx res => set_bit res idx (filtered_value_ w (base + idx))) (vector4_fill wid BIT4_X);
    m ← release_mask mask (wire_fil_ w);
    var_recv_vec4_pv 0 res base wid (size_ (bits4_ w)) (mk_net (fun_ n) (mk_wire (needs_init_ w) (bits4_ w) (force4_ w) m)).

(** *** The instructions *)

Definition lift_fil (f : vvp_wire_vec4 -> option (vvp_wire_vec4 * list effect)) (n : signal_net) : option (signal_net * list effect) :=
  '(w, e) ← f (fil_ n); Some (mk_net (fun_ n) w, e).

(** [of_FORCE_VEC4] and [vvp_fun_force::recv_vec4] *)
Definition force_vec4 (value : vvp_vector4_t) (n : signal_net) : option (signal_net * list effect) :=
  let size := size_ (bits4_ (fil_ n)) in
  value ← coerce_to_width value size;
  lift_fil (net_force_vec4 value (vector2_fill true size)) n.

(** [of_FORCE_VEC4_OFF]: [base] is a signed word, and positions are 32 bits wide. *)
Definition u32 (z : Z) : nat := Z.to_nat (z mod 2 ^ 32).

Definition force_vec4_off (flag4 : vvp_bit4_t) (base : Z) (value : vvp_vector4_t) (n : signal_net) : option (signal_net * list effect) :=
  if bit4_eqb flag4 BIT4_1 then Some (n, [])
  else
    let use_size := size_ (bits4_ (fil_ n)) in
    if (Z.of_nat use_size <=? base)%Z then Some (n, [])
    else if (base <? - Z.of_nat use_size)%Z then Some (n, [])
    else
      let wid := if (Z.of_nat use_size <? base + Z.of_nat (size_ value))%Z then u32 (Z.of_nat use_size - base) else size_ value in
      mask ← for_ 0 wid (fun idx mask => vector2_set_bit mask (u32 (base + Z.of_nat idx)) true) (vector2_fill false use_size);
      tmp ← vec4_value (fil_ n);
      '(tmp, _) ← set_vec tmp (u32 base) value;
      lift_fil (net_force_vec4 tmp mask) n.

(** [force_vector4_event_s::run_run] *)
Definition force_vector4_run (base vwid : nat) (val : vvp_vector4_t) (n : signal_net) : option (signal_net * list effect) :=
  let wid := if vwid <? base + size_ val then vwid - base else size_ val in
  mask ← part_mask vwid base wid;
  tmp ← vec4_value (fil_ n);
  '(tmp, _) ← set_vec tmp base val;
  lift_fil (net_force_vec4 tmp mask) n.

(** [do_release_vec], after the link of a force has been removed *)
Definition do_release_vec (net_flag : bool) (base width : nat) (n : signal_net) : option (signal_net * list effect) :=
  let size := size_ (bits4_ (fil_ n)) in
  if size <=? base then Some (n, [])
  else
    let width := if size <? base + width then size - base else width in
    if (base =? 0) && (width =? size) then release net_flag n else release_pv base width net_flag n.

(** [of_DEASSIGN], of a variable that is not linked to the source of an assignment *)
Definition of_DEASSIGN (base width : nat) (n : signal_net) : option (signal_net * list effect) :=
  let size := size_ (bits4_ (fil_ n)) in
  s ← fun_ n;
  if size <=? base then Some (n, [])
  else
    let width := if size <? base + width then size - base else width in
    if (base =? 0) && (width =? size) then Some (mk_net (Some (deassign s)) (fil_ n), [])
    else s ← deassign_pv base width s; Some (mk_net (Some s) (fil_ n), []).

(** [of_CASSIGN_VEC4_OFF], after [cassign_unlink] *)
Definition cassign_vec4_off (flag4 : vvp_bit4_t) (base : Z) (value : vvp_vector4_t) (n : signal_net) : option (signal_net * list effect) :=
  if bit4_eqb flag4 BIT4_1 then Some (n, [])
  else
    let size := size_ (bits4_ (fil_ n)) in
    let wid := size_ value in
    if (base <? 0)%Z && (wid <=? u32 (- base)) then Some (n, [])
    else if (Z.of_nat size <=? base)%Z then Some (n, [])
    else
      let '(base, wid, value) := if (base <? 0)%Z then let wid := wid - u32 (- base) in (0, wid, resize value wid BIT4_X) else (Z.to_nat base, wid, value) in
      let '(wid, value) := if size <? base + wid then let wid := size - base in (wid, resize value wid BIT4_X) else (wid, value) in
      var_recv_vec4_pv 1 value base wid size n.


(** *** What the other nets see *)

(** The value at the ports behind the signal, after what has been sent to them. *)
Definition observe1 (seen : list vvp_bit4_t) (e : effect) : list vvp_bit4_t :=
  match e with
  | run_vpi_callbacks => seen
  | out_vec4 v => bits v
  | out_vec4_pv v base _ _ => splice seen base (bits v)
  | out_vec8 v => match reduce4 v with Some r => bits r | None => seen end
  | out_vec8_pv v base _ _ => match reduce4 v with Some r => splice seen base (bits r) | None => seen end
  end.

Definition observe (seen : list vvp_bit4_t) (es : list effect) : list vvp_bit4_t := fold_left observe1 es seen.

(** The value of the signal, as its readers get it. *)
Definition view (w : vvp_wire_vec4) : list vvp_bit4_t := map (filtered_value_ w) (seq 0 (size_ (bits4_ w))).

Definition in_part (base n i : nat) : bool := (base <=? i) && (i <? base + n).

Definition forced (w : vvp_wire_vec4) (i : nat) : bool := test_force_mask i (wire_fil_ w).

Definition assigned (s : vvp_fun_signal4_sa) (i : nat) : bool := vector2_value (assign_mask_ s) i.

(** The signal's value, with a part replaced. *)
Definition part_forced (N base : nat) (v : vvp_vector4_t) (w w' : vvp_wire_vec4) : Prop :=
  forall i, i < N -> filtered_value_ w' i = if in_part base (size_ v) i then value v (i - base) else filtered_value_ w i.

(** The bits of a part that a continuous assignment drives are not forced. *)
Definition free_to_release (N base wid : nat) (n : signal_net) : Prop :=
  forall s i, fun_ n = Some s -> i < N -> in_part base wid i = true -> assigned s i = true -> forced (fil_ n) i = false.

(** *** The operations on a signal *)

(** A net is driven from outside; a variable is set at port 0, and continuously
    assigned at port 1. *)
Inductive signal_op :=
  | drive (v : vvp_vector4_t)
  | drive_part (v : vvp_vector4_t) (base : nat)
  | put (port : nat) (v : vvp_vector4_t)
  | put_part (port : nat) (v : vvp_vector4_t) (base : nat)
  | force_whole (v : vvp_vector4_t)
  | force_offset (flag4 : vvp_bit4_t) (base : Z) (v : vvp_vector4_t)
  | force_later (base : nat) (v : vvp_vector4_t)
  | release_part (base width : nat)
  | deassign_part (base width : nat)
  | cassign_offset (flag4 : vvp_bit4_t) (base : Z) (v : vvp_vector4_t).

Definition run_op (N : nat) (op : signal_op) (n : signal_net) : option (signal_net * list effect) :=
  match op with
  | drive v => lift_fil (net_send_vec4 v) n
  | drive_part v base => lift_fil (net_send_vec4_pv v base (size_ v) N) n
  | put port v => var_recv_vec4 port v n
  | put_part port v base => var_recv_vec4_pv port v base (size_ v) N n
  | force_whole v => force_vec4 v n
  | force_offset flag4 base v => force_vec4_off flag4 base v n
  | force_later base v => force_vector4_run base N v n
  | release_part base width => do_release_vec (match fun_ n with Some _ => false | None => true end) base width n
  | deassign_part base width => of_DEASSIGN base width n
  | cassign_offset flag4 base v => cassign_vec4_off flag4 base v n
  end.

(** The operations the theorem is about.  A net is driven and a variable is set, and
    values have the width of their target.  Three cases are left out in which the code
    runs but fails, each with an example at the end of the file: a part that is
    released has no bit that is both assigned and forced ([assigned_forced_released]),
    a forced part does not cross an end of the vector ([force_beyond_the_end],
    [force_below_the_vector]), and a part is deassigned only of a variable that has
    been assigned ([deassign_unassigned]). *)
Definition applies (N : nat) (op : signal_op) (n : signal_net) : Prop :=
  match op with
  | drive v => fun_ n = None /\ wf4 v /\ size_ v = N
  | drive_part v base => fun_ n = None /\ wf4 v /\ 0 < size_ v /\ base + size_ v <= N
  | put port v => fun_ n <> None /\ wf4 v /\ (port = 0 /\ size_ v = N \/ port = 1 /\ N <= size_ v)
  | put_part port v base => fun_ n <> None /\ wf4 v /\ port <= 1
  | force_whole v => wf4 v /\ N <= size_ v
  | force_offset flag4 base v =>
      wf4 v /\ 0 < size_ v /\ (flag4 = BIT4_1 \/ (Z.of_nat N <= base)%Z \/ (base < - Z.of_nat N)%Z \/ (0 <= base /\ base + Z.of_nat (size_ v) <= Z.of_nat N)%Z)
  | force_later base v => wf4 v /\ 0 < size_ v /\ base + size_ v <= N
  | release_part base width => 0 < width /\ free_to_release N base width n
  | deassign_part base width => exists s, fun_ n = Some s /\ (wid_ (assign_mask_ s) <> 0 \/ N <= base \/ (base = 0 /\ N <= width))
  | cassign_offset flag4 base v => fun_ n <> None /\ wf4 v
  end.

(** A net (or a variable) of [N] bits, and what can happen to it. *)
Definition start (N : nat) (init : vvp_bit4_t) (variable : bool) : signal_net :=
  mk_net (if variable then Some (signal_make N init) else None) (wire_make N init).

Inductive reachable (N : nat) (init : vvp_bit4_t) : signal_net -> list effect -> Prop :=
  | reach_start variable : reachable N init (start N init variable) []
  | reach_step n es op n' e :
      reachable N init n es -> applies N op n -> run_op N op n = Some (n', e) -> reachable N init n' (es ++ e).

Fixpoint run_ops (N : nat) (ops : list signal_op) (n : signal_net) : option (signal_net * list effect) :=
  match ops with
  | [] => Some (n, [])
  | op :: ops => '(n, e) ← run_op N op n; '(n, es) ← run_ops N ops n; Some (n, e ++ es)
  end.

(** ** Lemmas *)


(** *** Loops over the bits of a vector *)

Lemma in_part_step base k i : in_part base (S k) i = in_part base k i || (i =? base + k).
Proof. unfold in_part. destruct (Nat.eqb_spec i (base + k)); split_ifs; simpl; try done; lia. Qed.

Lemma in_part_spec base n i : in_part base n i = true <-> base <= i < base + n.
Proof. unfold in_part. rewrite andb_true_iff, Nat.leb_le, Nat.ltb_lt. lia. Qed.

Lemma in_part_0 n i : in_part 0 n i = (i <? n).
Proof. done. Qed.

(** The vector after the positions of a part that [c] selects are set. *)
Definition set_where (base n : nat) (c : nat -> bool) (g : nat -> vvp_bit4_t) (v r : vvp_vector4_t) : Prop :=
  wf4 r /\ size_ r = size_ v /\
  forall i, value r i = if in_part base n i && c (i - base) then g (i - base) else value v i.

Lemma set_where_0 base c g v : wf4 v -> set_where base 0 c g v v.
Proof. intros H. split; [done|]. split; [done|]. intros i. unfold in_part. rewrite Nat.add_0_r. split_ifs; simpl; try done; lia. Qed.

Lemma set_where_step base k (c : nat -> bool) g v t :
  set_where base k c g v t -> (c k = true -> base + k < size_ v) ->
  returns (if c k then set_bit t (base + k) (g k) else Some t) (set_where base (S k) c g v).
Proof.
  intros (H1 & H2 & H3) Hk. destruct (c k) eqn:E.
  - eapply returns_mono; [apply set_bit_returns; [done|rewrite H2; auto]|]. intros r (R1 & R2 & R3).
    split; [done|]. split; [congruence|]. intros i. rewrite R3, H3, in_part_step.
    destruct (Nat.eqb_spec i (base + k)) as [->|]; [|by rewrite orb_false_r].
    replace (base + k - base) with k by lia. by rewrite E, orb_true_r.
  - apply returns_ret. split; [done|]. split; [done|]. intros i. rewrite H3, in_part_step.
    destruct (Nat.eqb_spec i (base + k)) as [->|]; [|by rewrite orb_false_r].
    replace (base + k - base) with k by lia. by rewrite E, !andb_false_r.
Qed.

Lemma set_where_loop base n (c : nat -> bool) g v (body : nat -> vvp_vector4_t -> option vvp_vector4_t) :
  wf4 v -> (forall k, k < n -> c k = true -> base + k < size_ v) ->
  (forall k t, k < n -> size_ t = size_ v -> body k t = if c k then set_bit t (base + k) (g k) else Some t) ->
  returns (for_ 0 n body v) (set_where base n c g v).
Proof.
  intros Hv Hn Hb. apply (returns_for (fun k => set_where base k c g v)); [by apply set_where_0|].
  intros k t Hk Ht. rewrite Hb by (try lia; apply Ht). apply set_where_step; [done|apply Hn; lia].
Qed.

(** A loop that also sets a flag when [d] holds. *)
Lemma set_where_flag base n (c d : nat -> bool) g v fl (body : nat -> vvp_vector4_t * bool -> option (vvp_vector4_t * bool)) :
  wf4 v -> (forall k, k < n -> c k = true -> base + k < size_ v) ->
  (forall k t f, k < n -> size_ t = size_ v ->
    body k (t, f) = ((if c k then set_bit t (base + k) (g k) else Some t) ≫= fun r => Some (r, f || d k))) ->
  returns (for_ 0 n body (v, fl)) (fun r => set_where base n c g v (fst r) /\ (snd r = fl || existsb d (seq 0 n))).
Proof.
  intros Hv Hn Hb.
  apply (returns_for (fun k r => set_where base k c g v (fst r) /\ snd r = fl || existsb d (seq 0 k))).
  - split; [by apply set_where_0|]. cbn. by rewrite orb_false_r.
  - intros k [t f] Hk [Ht Hf]. cbn [fst snd] in *. rewrite Hb by (try lia; apply Ht).
    eapply returns_bind; [apply set_where_step; [done|apply Hn; lia]|]. intros r Hr. apply returns_ret. split; [done|].
    cbn [snd]. rewrite Hf, seq_S, existsb_app. cbn. by rewrite orb_false_r, orb_assoc.
Qed.

(** *** Masks *)

Lemma set_mask_bit m i b :
  wf2 m -> i < wid_ m ->
  returns (vector2_set_bit m i b) (fun r => wf2 r /\ wid_ r = wid_ m /\
    forall j, vector2_value r j = if j =? i then b else vector2_value m j).
Proof.
  intros Hm Hi. eapply returns_mono; [by apply vector2_set_bit_spec|]. intros r (H1 & H2 & H3).
  split; [done|]. split; [done|]. intros j. rewrite !vector2_value_bit, H2, H3 by done.
  destruct (Nat.eqb_spec j i) as [->|]; [by rewrite (proj2 (Nat.ltb_lt _ _))|done].
Qed.

(** The mask after the positions of a part that [c] selects are set to [b]. *)
Definition mask_where (base n : nat) (c : nat -> bool) (b : bool) (m r : vvp_vector2_t) : Prop :=
  wf2 r /\ wid_ r = wid_ m /\
  forall i, vector2_value r i = if in_part base n i && c (i - base) then b else vector2_value m i.

Lemma mask_where_0 base c b m : wf2 m -> mask_where base 0 c b m m.
Proof. intros H. split; [done|]. split; [done|]. intros i. unfold in_part. rewrite Nat.add_0_r. split_ifs; simpl; try done; lia. Qed.

Lemma mask_where_step base k (c : nat -> bool) b m t :
  mask_where base k c b m t -> (c k = true -> base + k < wid_ m) ->
  returns (if c k then vector2_set_bit t (base + k) b else Some t) (mask_where base (S k) c b m).
Proof.
  intros (H1 & H2 & H3) Hk. destruct (c k) eqn:E.
  - eapply returns_mono; [apply set_mask_bit; [done|rewrite H2; auto]|]. intros r (R1 & R2 & R3).
    split; [done|]. split; [congruence|]. intros i. rewrite R3, H3, in_part_step.
    destruct (Nat.eqb_spec i (base + k)) as [->|]; [|by rewrite orb_false_r].
    replace (base + k - base) with k by lia. by rewrite E, orb_true_r.
  - apply returns_ret. split; [done|]. split; [done|]. intros i. rewrite H3, in_part_step.
    destruct (Nat.eqb_spec i (base + k)) as [->|]; [|by rewrite orb_false_r].
    replace (base + k - base) with k by lia. by rewrite E, !andb_false_r.
Qed.

Lemma mask_where_loop base n (c : nat -> bool) b m (body : nat -> vvp_vector2_t -> option vvp_vector2_t) :
  wf2 m -> (forall k, k < n -> c k = true -> base + k < wid_ m) ->
  (forall k t, k < n -> body k t = if c k then vector2_set_bit t (base + k) b else Some t) ->
  returns (for_ 0 n body m) (mask_where base n c b m).
Proof.
  intros Hv Hn Hb. apply (returns_for (fun k => mask_where base k c b m)); [by apply mask_where_0|].
  intros k t Hk Ht. rewrite Hb by lia. apply mask_where_step; [done|apply Hn; lia].
Qed.

Lemma mask_fill b n : wf2 (vector2_fill b n) /\ wid_ (vector2_fill b n) = n /\
  forall i, vector2_value (vector2_fill b n) i = (i <? n) && b.
Proof.
  assert (wf2 (vector2_fill b n)) as Hw.
  { split; simpl; [by rewrite length_replicate|]. apply words_ok_replicate. destruct b; [apply word_ok_max|apply word_ok_0]. }
  split; [done|]. split; [done|]. intros i. rewrite vector2_value_bit by done. cbn [wid_ vec_ vector2_fill].
  destruct (Nat.ltb_spec i n) as [Hi|]; [|done]. cbn [andb]. unfold wsbit. rewrite wd_replicate. pose proof (nwords_spec n).
  change BITS_PER_WORD with 64. rewrite (proj2 (Nat.ltb_lt _ _)) by dlia.
  destruct b; [|apply tb_0]. rewrite tb_max. apply Nat.ltb_lt. dlia.
Qed.

Lemma is_zero_value m i : wf2 m -> is_zero m = true -> vector2_value m i = false.
Proof.
  intros Hm Hz. unfold is_zero in Hz. rewrite forallb_forall in Hz. rewrite vector2_value_bit by done.
  destruct (Nat.ltb_spec i (wid_ m)) as [Hi|]; [|done]. cbn [andb]. pose proof (nwords_spec (wid_ m)).
  unfold wsbit. change BITS_PER_WORD with 64. assert (wd (vec_ m) (i / 64) = 0%Z) as ->; [|apply tb_0].
  apply Z.eqb_eq, Hz, in_seq. dlia.
Qed.

Lemma wf2_nan : wf2 vector2_nan.
Proof. split; [done|constructor]. Qed.

Lemma value_beyond m i : wid_ m <= i -> vector2_value m i = false.
Proof. intros H. unfold vector2_value. by rewrite (proj2 (Nat.leb_le _ _)). Qed.

(** *** The filter *)

Record wire_ok (N : nat) (w : vvp_wire_vec4) : Prop := {
  ok_bits : wf4 (bits4_ w);
  ok_size : size_ (bits4_ w) = N;
  ok_force : wf4 (force4_ w);
  ok_force_size : size_ (force4_ w) = 0 \/ size_ (force4_ w) = N;
  ok_mask : wf2 (force_mask_ (wire_fil_ w));
  ok_mask_size : wid_ (force_mask_ (wire_fil_ w)) = 0 \/ (wid_ (force_mask_ (wire_fil_ w)) = N /\ size_ (force4_ w) = N)
}.

Lemma wire_ok_make N init : wire_ok N (wire_make N init).
Proof. split; simpl; [apply fill_wf|apply size_fill|apply fill_wf|by left|apply wf2_nan|by left]. Qed.

Lemma wire_ok_update N w b bits4 m :
  wire_ok N w -> wf4 bits4 -> size_ bits4 = N -> force_mask_ m = force_mask_ (wire_fil_ w) -> wire_ok N (mk_wire b bits4 (force4_ w) m).
Proof. intros [] ? ? E. split; simpl; rewrite ?E; done. Qed.

Lemma forced_value w i : forced w i = vector2_value (force_mask_ (wire_fil_ w)) i.
Proof.
  unfold forced, test_force_mask. destruct (Nat.leb_spec (wid_ (force_mask_ (wire_fil_ w))) i); [|done].
  symmetry. by apply value_beyond.
Qed.

Lemma filtered_forced w i : filtered_value_ w i = if forced w i then value (force4_ w) i else value (bits4_ w) i.
Proof. done. Qed.

Lemma forced_zero w i : wf2 (force_mask_ (wire_fil_ w)) -> test_force_mask_is_zero (wire_fil_ w) = true -> forced w i = false.
Proof.
  intros Hm Hz. rewrite forced_value. unfold test_force_mask_is_zero in Hz. apply orb_true_iff in Hz as [Hz|Hz].
  - apply value_beyond. apply Nat.eqb_eq in Hz. lia.
  - by apply is_zero_value.
Qed.

Lemma mask_size N w : wire_ok N w -> test_force_mask_is_zero (wire_fil_ w) = false ->
  wid_ (force_mask_ (wire_fil_ w)) = N /\ size_ (force4_ w) = N.
Proof.
  intros Hw Hz. destruct (ok_mask_size _ _ Hw) as [H|H]; [|done]. unfold test_force_mask_is_zero in Hz. by rewrite H in Hz.
Qed.

(** What the nets behind the signal have seen, after a vector is sent to them. *)
Definition sent_part (rc : prop_t) (bit rep : vvp_vector4_t) : option vvp_vector4_t :=
  match rc with STOP => None | PROP => Some bit | REPL => Some rep end.

(** The callbacks do not change what is seen. *)
Definition callbacks (es : list effect) : Prop := es = [] \/ es = [run_vpi_callbacks].

Lemma wire_filter_ok N bit base bits4 w :
  wire_ok N w -> wf4 bit -> wf4 bits4 -> size_ bits4 = N -> base + size_ bit <= N ->
  (forall i, i < size_ bit -> value bits4 (base + i) = value bit i) ->
  returns (wire_filter bit base bits4 w) (fun '(w', rc, rep, e) =>
    wire_ok N w' /\ bits4_ w' = bits4 /\ force4_ w' = force4_ w /\ (forall i, forced w' i = forced w i) /\ callbacks e /\
    match sent_part rc bit rep with
    | None => forall i, i < size_ bit -> forced w (base + i) = true
    | Some v => wf4 v /\ size_ v = size_ bit /\ forall i, i < size_ bit -> value v i = filtered_value_ w' (base + i)
    end).
Proof.
  intros Hw Hbit Hbits HN Hpart Hval. unfold wire_filter, filter_mask_. cbn [vec_size vec_value vec_set_bit vector4_vector].
  destruct (test_force_mask_is_zero (wire_fil_ w)) eqn:Hz; cbn [negb].
  { apply returns_ret. assert (forall i, forced w i = false) as Hf by (intros; apply forced_zero; [apply Hw|done]).
    split; [by apply wire_ok_update|]. split; [done|]. split; [done|]. split; [done|]. split; [by right|]. split; [done|]. split; [done|].
    intros i Hi. rewrite filtered_forced. change (forced (mk_wire _ _ _ _) ?j) with (forced w j). rewrite Hf. cbn [bits4_]. by rewrite Hval. }
  destruct (mask_size N w Hw Hz) as [Hm Hf]. cbn [force_mask_].
  eapply returns_bind.
  { apply returns_assert; [apply Nat.eqb_eq; lia|]. apply returns_assert; [apply Nat.leb_le; lia|].
    eapply returns_bind.
    { apply (set_where_flag 0 (size_ bit) (fun i => forced w (base + i)) (fun i => negb (forced w (base + i)))
        (fun i => value (force4_ w) (base + i))); [done|lia|].
      intros k t f Hk Ht. rewrite !forced_value. destruct (vector2_value _ _); cbn [negb mbind option_bind]; [|by rewrite orb_true_r].
      by rewrite orb_false_r. }
    intros [filter flag] [(F1 & F2 & F3) Hflag]. cbn [fst snd] in *.
    instantiate (1 := fun '(m, rc, rep, e) => force_mask_ m = force_mask_ (wire_fil_ w) /\ callbacks e /\
      match sent_part rc bit rep with
      | None => forall i, i < size_ bit -> forced w (base + i) = true
      | Some v => wf4 v /\ size_ v = size_ bit /\ forall i, i < size_ bit -> value v i = if forced w (base + i) then value (force4_ w) (base + i) else value bit i
      end).
    destruct flag; apply returns_ret; (split; [done|]); [split; [by right|]|split; [by left|]]; cbn [sent_part].
    - split; [done|]. split; [done|]. intros i Hi. rewrite F3. unfold in_part. rewrite Nat.sub_0_r, (proj2 (Nat.ltb_lt _ _)) by lia. done.
    - intros i Hi. symmetry in Hflag. apply orb_false_iff in Hflag as [_ Hflag].
      destruct (forced w (base + i)) eqn:E; [done|]. apply not_true_iff_false in Hflag. exfalso. apply Hflag.
      apply existsb_exists. exists i. split; [apply in_seq; lia|]. by rewrite E. }
  intros [[[m rc] rep] e] (M1 & M2 & M3). apply returns_ret.
  assert (forall i, forced (mk_wire false bits4 (force4_ w) m) i = forced w i) as Hforced by (intros; by rewrite !forced_value; cbn; rewrite M1).
  split; [by apply wire_ok_update|]. split; [done|]. split; [done|]. split; [done|]. split; [done|].
  destruct (sent_part rc bit rep) as [v|]; [|done]. destruct M3 as (V1 & V2 & V3). split; [done|]. split; [done|].
  intros i Hi. rewrite V3, filtered_forced, Hforced by done. cbn [force4_ bits4_]. by rewrite Hval.
Qed.

(** What the nets behind the signal have seen is the filtered value. *)
Definition sees (N : nat) (seen : list vvp_bit4_t) (w : vvp_wire_vec4) : Prop :=
  length seen = N /\ forall i, i < N -> bit_at seen i = filtered_value_ w i.

(** The same, but for bits of a part that are not forced and about to be driven. *)
Definition nearly_sees (N : nat) (seen : list vvp_bit4_t) (bit : vvp_vector4_t) (base : nat) (w : vvp_wire_vec4) : Prop :=
  length seen = N /\ forall i, i < N ->
    bit_at seen i = filtered_value_ w i \/
    (in_part base (size_ bit) i = true /\ forced w i = false /\ (needs_init_ w = true \/ bit_at seen i = value bit (i - base))).

Lemma sees_nearly N seen bit base w : sees N seen w -> nearly_sees N seen bit base w.
Proof. intros [H1 H2]. split; [done|]. intros i Hi. left. by apply H2. Qed.

Definition driven_part (bit : vvp_vector4_t) (base : nat) (w w' : vvp_wire_vec4) : Prop :=
  forall i, value (bits4_ w') i = if in_part base (size_ bit) i then value bit (i - base) else value (bits4_ w) i.

Lemma filtered_outside bit base w w' i :
  driven_part bit base w w' -> force4_ w' = force4_ w -> forced w' i = forced w i ->
  in_part base (size_ bit) i = false \/ forced w i = true -> filtered_value_ w' i = filtered_value_ w i.
Proof.
  intros Hd Hf Hm H. rewrite !filtered_forced, Hm, Hf, Hd. destruct (forced w i); [done|]. by destruct H as [->|].
Qed.

(** Nothing is sent since the driven value is the same. *)
Lemma nearly_stop N seen bit base w w' :
  nearly_sees N seen bit base w -> needs_init_ w = false -> driven_part bit base w w' ->
  (forall i, i < N -> value (bits4_ w') i = value (bits4_ w) i) ->
  force4_ w' = force4_ w -> (forall i, forced w' i = forced w i) -> sees N seen w'.
Proof.
  intros [Hl H] Hn Hd Hv Hf Hm. split; [done|]. intros i Hi. rewrite filtered_forced, Hm, Hf, Hv by done.
  destruct (H i Hi) as [->|(Hp & Hu & [Ht|Hs])]; [done|congruence|]. rewrite Hu, Hs. rewrite <- Hv by done. rewrite Hd, Hp. done.
Qed.

Lemma nearly_sent N seen bit base w w' v :
  nearly_sees N seen bit base w -> base + size_ bit <= N -> driven_part bit base w w' ->
  force4_ w' = force4_ w -> (forall i, forced w' i = forced w i) ->
  wf4 v -> size_ v = size_ bit -> (forall i, i < size_ bit -> value v i = filtered_value_ w' (base + i)) ->
  sees N (splice seen base (bits v)) w'.
Proof.
  intros [Hl H] Hb Hd Hf Hm Hv Hs Hval. pose proof (rep4_size v (bits v) ltac:(done)) as Hsz.
  split; [rewrite length_splice; lia|]. intros i Hi. rewrite bit_at_splice, bit_at_bits by lia.
  rewrite <- Hsz, Hs. destruct (in_part base (size_ bit) i) eqn:E.
  - pose proof (proj1 (in_part_spec _ _ _) E). unfold in_part in E. rewrite E, Hval by lia. f_equal. lia.
  - rewrite (filtered_outside bit base w w' i) by auto. unfold in_part in E. rewrite E.
    destruct (H i Hi) as [->|(Hp & _)]; [done|]. unfold in_part in Hp. congruence.
Qed.

Lemma nearly_blocked N seen bit base w w' :
  nearly_sees N seen bit base w -> driven_part bit base w w' ->
  force4_ w' = force4_ w -> (forall i, forced w' i = forced w i) ->
  (forall i, i < size_ bit -> forced w (base + i) = true) -> sees N seen w'.
Proof.
  intros [Hl H] Hd Hf Hm Hall. split; [done|]. intros i Hi.
  assert (in_part base (size_ bit) i = true -> forced w i = true) as Hp.
  { intros Hp. apply in_part_spec in Hp. replace i with (base + (i - base)) by lia. apply Hall. lia. }
  rewrite (filtered_outside bit base w w' i); [|done..|destruct (in_part _ _ i); [right; auto|by left]].
  destruct (H i Hi) as [->|(Hp' & Hu & _)]; [done|]. rewrite Hp in Hu by done. done.
Qed.

(** The result of a filter function. *)
Definition filtered (N : nat) (seen : list vvp_bit4_t) (bit : vvp_vector4_t) (base : nat) (w : vvp_wire_vec4)
    (r : vvp_wire_vec4 * prop_t * vvp_vector4_t * list effect) : Prop :=
  let '(w', rc, rep, e) := r in
  wire_ok N w' /\ driven_part bit base w w' /\ force4_ w' = force4_ w /\ (forall i, forced w' i = forced w i) /\ callbacks e /\
  match sent_part rc bit rep with
  | None => sees N seen w'
  | Some v => wf4 v /\ size_ v = size_ bit /\ sees N (splice seen base (bits v)) w'
  end.

Lemma wire_filter_filtered N seen bit base bits4 w :
  wire_ok N w -> wf4 bit -> wf4 bits4 -> size_ bits4 = N -> base + size_ bit <= N -> nearly_sees N seen bit base w ->
  (forall i, value bits4 i = if in_part base (size_ bit) i then value bit (i - base) else value (bits4_ w) i) ->
  returns (wire_filter bit base bits4 w) (filtered N seen bit base w).
Proof.
  intros Hw Hbit Hbits HN Hpart Hs Hval. eapply returns_mono.
  { apply (wire_filter_ok N bit base bits4 w); try done. intros i Hi. rewrite Hval.
    rewrite (proj2 (in_part_spec base (size_ bit) (base + i))) by lia. f_equal. lia. }
  intros [[[w' rc] rep] e] (H1 & H2 & H3 & H4 & H5 & H6).
  assert (driven_part bit base w w') as Hd by (intros i; rewrite H2; apply Hval).
  split; [done|]. split; [done|]. split; [done|]. split; [done|]. split; [done|].
  destruct (sent_part rc bit rep) as [v|].
  - destruct H6 as (V1 & V2 & V3). split; [done|]. split; [done|]. by eapply nearly_sent.
  - by eapply nearly_blocked.
Qed.

Lemma wire_filter_vec4_ok N seen bit base w :
  0 < N -> wire_ok N w -> wf4 bit -> 0 < size_ bit -> base + size_ bit <= N -> nearly_sees N seen bit base w ->
  returns (wire_filter_vec4 bit base N w) (filtered N seen bit base w).
Proof.
  intros HN Hw Hbit Hpos Hpart Hs. pose proof (ok_bits _ _ Hw) as Hb. pose proof (ok_size _ _ Hw) as Hsz. unfold wire_filter_vec4.
  rewrite (proj2 (Nat.eqb_neq N 0)) by lia. rewrite andb_false_r.
  apply returns_assert; [by apply Nat.eqb_eq|].
  destruct ((base =? 0) && (size_ bit =? N)) eqn:Ewhole.
  - apply andb_true_iff in Ewhole as [E1 E2]. apply Nat.eqb_eq in E1, E2. subst base.
    assert (forall i, value bit i = if in_part 0 (size_ bit) i then value bit (i - 0) else value (bits4_ w) i) as Hval.
    { intros i. destruct (in_part 0 (size_ bit) i) eqn:E; [by rewrite Nat.sub_0_r|]. apply not_true_iff_false in E.
      rewrite in_part_spec in E. rewrite !value_ge by lia. done. }
    destruct (eeq (bits4_ w) bit && negb (needs_init_ w)) eqn:E; [|by apply wire_filter_filtered].
    apply andb_true_iff in E as [E1 E3]. apply negb_true_iff in E3. rewrite eeq_spec in E1 by done.
    assert (forall i, value (bits4_ w) i = value bit i) as Heq by (intros; by rewrite <- !bit_at_bits, E1).
    apply returns_ret. cbn [filtered sent_part]. assert (driven_part bit 0 w w) as Hd by (intros i; etransitivity; [apply Heq|apply Hval]).
    split; [done|]. split; [done|]. split; [done|]. split; [done|]. split; [by left|]. by eapply nearly_stop.
  - eapply returns_bind; [apply set_vec_returns; [done|done|done|lia]|].
    intros [bits4 rc] (B1 & B2 & B3 & B4). cbn [fst snd] in *.
    destruct (negb rc && negb (needs_init_ w)) eqn:E; [|apply wire_filter_filtered; try done; lia].
    apply andb_true_iff in E as [E1 E3]. apply negb_true_iff in E1, E3. subst rc.
    assert (forall i, value bits4 i = value (bits4_ w) i) as Heq.
    { intros i. rewrite B3. destruct (in_part base (size_ bit) i) eqn:Ep; unfold in_part in Ep; rewrite Ep; [|done].
      symmetry. apply (proj1 B4 eq_refl). by apply in_part_spec. }
    apply returns_ret. cbn [filtered sent_part]. split.
    { destruct (wire_fil_ w) eqn:Ef. apply wire_ok_update; [done..|lia|by rewrite Ef]. }
    split; [exact B3|]. split; [done|]. split; [done|]. split; [by left|]. apply (nearly_stop N seen bit base w); try done.
Qed.

(** *** Sending *)

Definition delivered (N : nat) (seen : list vvp_bit4_t) (bit : vvp_vector4_t) (base : nat) (w : vvp_wire_vec4) (r : vvp_wire_vec4 * list effect) : Prop :=
  let '(w', es) := r in
  wire_ok N w' /\ driven_part bit base w w' /\ force4_ w' = force4_ w /\ (forall i, forced w' i = forced w i) /\ sees N (observe seen es) w'.

Lemma observe_callbacks seen e es : callbacks e -> observe seen (e ++ es) = observe seen es.
Proof. by intros [->| ->]. Qed.

Lemma splice_whole l m : length m = length l -> splice l 0 m = m.
Proof. intros H. unfold splice. rewrite take_0, drop_ge by lia. by rewrite app_nil_r. Qed.

Lemma net_send_vec4_pv_ok N seen bit base w :
  0 < N -> wire_ok N w -> wf4 bit -> 0 < size_ bit -> base + size_ bit <= N -> nearly_sees N seen bit base w ->
  returns (net_send_vec4_pv bit base (size_ bit) N w) (delivered N seen bit base w).
Proof.
  intros HN Hw Hb Hp Hle Hs. unfold net_send_vec4_pv. apply returns_assert; [by apply Nat.eqb_eq|].
  eapply returns_bind; [by apply wire_filter_vec4_ok|]. intros [[[w' rc] rep] e] (H1 & H2 & H3 & H4 & H5 & H6).
  apply returns_ret. split; [done|]. split; [done|]. split; [done|]. split; [done|]. rewrite observe_callbacks by done.
  destruct rc; cbn [sent_part observe fold_left observe1] in *; [done|apply H6..].
Qed.

Lemma net_send_vec4_ok N seen bit w :
  0 < N -> wire_ok N w -> wf4 bit -> size_ bit = N -> nearly_sees N seen bit 0 w ->
  returns (net_send_vec4 bit w) (delivered N seen bit 0 w).
Proof.
  intros HN Hw Hb Hz Hs. unfold net_send_vec4. rewrite Hz.
  eapply returns_bind; [apply wire_filter_vec4_ok; try done; lia|]. intros [[[w' rc] rep] e] (H1 & H2 & H3 & H4 & H5 & H6).
  apply returns_ret. split; [done|]. split; [done|]. split; [done|]. split; [done|]. rewrite observe_callbacks by done.
  assert (forall v, size_ v = size_ bit -> length (bits v) = length seen) as Hlen.
  { intros v Hv. destruct Hs as [-> _]. rewrite <- Hz, <- Hv. unfold bits. by rewrite length_map, length_seq. }
  destruct rc; cbn [sent_part observe fold_left observe1] in *; [done|..]; destruct H6 as (_ & E & H6); rewrite splice_whole in H6; auto.
Qed.

(** *** Masks of the filter *)

Lemma mask_force_ok N mask w :
  wire_ok N w -> wf2 mask -> wid_ mask = N ->
  returns (force_mask mask (wire_fil_ w)) (fun m => wf2 (force_mask_ m) /\ wid_ (force_mask_ m) = N /\
    forall i, i < N -> test_force_mask i m = vector2_value mask i || forced w i).
Proof.
  intros Hw Hm HN. unfold force_mask. set (fm := if _ =? 0 then _ else _).
  assert (wf2 fm /\ wid_ fm = N /\ forall i, vector2_value fm i = forced w i) as (F1 & F2 & F3).
  { unfold fm. destruct (Nat.eqb_spec (wid_ (force_mask_ (wire_fil_ w))) 0) as [E|E].
    - destruct (mask_fill false (wid_ mask)) as (M1 & M2 & M3). split; [done|]. split; [congruence|].
      intros i. rewrite M3, andb_false_r, forced_value. symmetry. apply value_beyond. lia.
    - split; [apply Hw|]. split; [destruct (ok_mask_size _ _ Hw); [lia|tauto]|]. intros i. by rewrite forced_value. }
  apply returns_assert; [apply Nat.eqb_eq; congruence|].
  eapply returns_mono.
  { apply (returns_for (fun k m => mask_where 0 k (vector2_value mask) true fm (force_mask_ m))); [by apply mask_where_0|].
    intros k m Hk Hm'. rewrite HN in Hk. pose proof (mask_where_step 0 k (vector2_value mask) true fm _ Hm' ltac:(rewrite F2; lia)) as H.
    destruct (vector2_value mask k); cbn [negb]; [|by destruct H as (? & [= <-] & H); apply returns_ret].
    eapply returns_bind; [exact H|]. intros r Hr. by apply returns_ret. }
  intros m (M1 & M2 & M3). split; [done|]. split; [congruence|]. intros i Hi. unfold test_force_mask. cbn [Nat.add] in M2.
  rewrite (proj2 (Nat.leb_gt _ _)), M3, F3, Nat.sub_0_r by (rewrite M2, F2; lia).
  unfold in_part. rewrite (proj2 (Nat.ltb_lt _ _)) by lia. cbn [andb Nat.leb]. by destruct (vector2_value mask i).
Qed.

Lemma mask_release_ok N mask w :
  wire_ok N w -> wf2 mask -> wid_ mask = N ->
  returns (release_mask mask (wire_fil_ w)) (fun m => wire_ok N (mk_wire (needs_init_ w) (bits4_ w) (force4_ w) m) /\
    forall i, i < N -> test_force_mask i m = forced w i && negb (vector2_value mask i)).
Proof.
  intros Hw Hm HN. unfold release_mask. destruct (Nat.eqb_spec (wid_ (force_mask_ (wire_fil_ w))) 0) as [E|E].
  { apply returns_ret. split; [apply wire_ok_update; [done|apply Hw..|done]|]. intros i Hi. unfold test_force_mask.
    change (test_force_mask _ _) with (forced w i). rewrite forced_value, (proj2 (Nat.leb_le _ _)), value_beyond by lia. done. }
  destruct (ok_mask_size _ _ Hw) as [|[Hwid Hfs]]; [done|].
  apply returns_assert; [apply Nat.eqb_eq; congruence|].
  eapply returns_bind.
  { apply (mask_where_loop 0 (wid_ mask) (vector2_value mask) false); [apply Hw|lia|]. done. }
  intros fm (F1 & F2 & F3). apply returns_ret.
  assert (forall i, i < N -> vector2_value fm i = forced w i && negb (vector2_value mask i)) as Hv.
  { intros i Hi. rewrite F3, Nat.sub_0_r, forced_value, in_part_0, (proj2 (Nat.ltb_lt _ _)) by lia. cbn [andb].
    destruct (vector2_value mask i); cbn [negb]; [by rewrite andb_false_r|by rewrite andb_true_r]. }
  destruct (is_zero fm) eqn:Ez; (split; [destruct Hw; split; simpl; first [done|apply wf2_nan|by left|right; split; congruence]|]); intros i Hi; unfold test_force_mask; cbn [force_mask_].
  - rewrite <- Hv, (is_zero_value fm) by done. done.
  - rewrite (proj2 (Nat.leb_gt _ _)) by (rewrite F2; lia). by apply Hv.
Qed.

(** *** The functor of a variable *)

Record sig_ok (N : nat) (s : vvp_fun_signal4_sa) : Prop := {
  sig_wf : wf4 (sig_bits4_ s);
  sig_size : size_ (sig_bits4_ s) = N;
  assign_wf : wf2 (assign_mask_ s);
  assign_size : wid_ (assign_mask_ s) = 0 \/ wid_ (assign_mask_ s) = N
}.

(** A handler sends all bits of the variable, or nothing has changed. *)
Definition received (N : nat) (s : vvp_fun_signal4_sa) (r : vvp_fun_signal4_sa * option vvp_vector4_t) : Prop :=
  let '(s', sent) := r in
  sig_ok N s' /\ (sent = Some (sig_bits4_ s') \/ sent = None /\ forall i, value (sig_bits4_ s') i = value (sig_bits4_ s) i).

(** At port 0 the bits that are not assigned take the new value. *)
Definition received0 (N : nat) (bit : vvp_vector4_t) (base : nat) (s : vvp_fun_signal4_sa) (r : vvp_fun_signal4_sa * option vvp_vector4_t) : Prop :=
  received N s r /\ forall i, i < N ->
    value (sig_bits4_ (fst r)) i = if in_part base (size_ bit) i && negb (assigned s i) then value bit (i - base) else value (sig_bits4_ s) i.

Lemma sig_update N s ni b : sig_ok N s -> wf4 b -> size_ b = N -> sig_ok N (mk_signal ni b (assign_mask_ s)).
Proof. intros [] ? ?. by split. Qed.

Lemma no_assign s i : wid_ (assign_mask_ s) = 0 -> assigned s i = false.
Proof. intros H. apply value_beyond. lia. Qed.

Definition unassigned (N base : nat) (mask : vvp_vector2_t) (k : nat) : bool := (base + k <? N) && negb (vector2_value mask (base + k)).

Lemma assign_unmasked_ok N mask bit base n bits4 :
  wf4 bits4 -> size_ bits4 = N ->
  returns (assign_unmasked mask bit base n bits4) (fun r =>
    set_where base n (unassigned N base mask) (value bit) bits4 (fst r) /\ snd r = existsb (unassigned N base mask) (seq 0 n)).
Proof.
  intros Hb HN. apply (set_where_flag base n (unassigned N base mask) (unassigned N base mask) (value bit) bits4 false); [done|..].
  - intros k _ Hk. apply andb_true_iff in Hk as [Hk _]. apply Nat.ltb_lt in Hk. lia.
  - intros k t f _ Ht. unfold unassigned. rewrite Ht, HN. destruct (Nat.leb_spec N (base + k)), (Nat.ltb_spec (base + k) N); try lia; cbn [andb].
    + by rewrite orb_false_r.
    + destruct (vector2_value mask (base + k)); cbn [negb]; [by rewrite orb_false_r|by rewrite orb_true_r].
Qed.

(** The case of a variable with a mask, at port 0. *)
Lemma recv_masked N bit base s :
  sig_ok N s ->
  returns ('(bits4, changed) ← assign_unmasked (assign_mask_ s) bit base (size_ bit) (sig_bits4_ s);
    if (changed : bool) then Some (mk_signal false bits4 (assign_mask_ s), Some bits4)
    else Some (mk_signal (sig_needs_init_ s) bits4 (assign_mask_ s), None)) (received0 N bit base s).
Proof.
  intros Hs. pose proof (sig_size _ _ Hs) as HN. eapply returns_bind; [apply (assign_unmasked_ok N); [apply Hs|done]|].
  intros [b changed] [(B1 & B2 & B3) Hc]. cbn [fst snd] in *.
  assert (forall i, i < N -> value b i = if in_part base (size_ bit) i && negb (assigned s i) then value bit (i - base) else value (sig_bits4_ s) i) as Hval.
  { intros i Hi. rewrite B3. unfold unassigned, assigned. destruct (in_part base (size_ bit) i) eqn:E; [|done]. apply in_part_spec in E.
    replace (base + (i - base)) with i by lia. by rewrite (proj2 (Nat.ltb_lt _ _)) by done. }
  destruct changed; apply returns_ret; (split; [|exact Hval]); (split; [apply sig_update; [done..|congruence]|]); [by left|right].
  split; [done|]. intros i. cbn [sig_bits4_]. rewrite B3. destruct (in_part base (size_ bit) i) eqn:E; [|done]. apply in_part_spec in E. cbn [andb].
  destruct (unassigned N base (assign_mask_ s) (i - base)) eqn:Eu; [|done]. exfalso. symmetry in Hc. apply not_true_iff_false in Hc.
  apply Hc, existsb_exists. exists (i - base). split; [apply in_seq; lia|done].
Qed.

Lemma recv_vec4_0 N bit s : sig_ok N s -> wf4 bit -> size_ bit = N -> returns (signal_recv_vec4 0 bit s) (received0 N bit 0 s).
Proof.
  intros Hs Hb HN. cbn [signal_recv_vec4]. destruct (Nat.eqb_spec (wid_ (assign_mask_ s)) 0) as [E|E].
  - assert (forall i, i < N -> value bit i = if in_part 0 (size_ bit) i && negb (assigned s i) then value bit (i - 0) else value (sig_bits4_ s) i) as Hval.
    { intros i Hi. by rewrite in_part_0, HN, (proj2 (Nat.ltb_lt _ _)), no_assign, Nat.sub_0_r by done. }
    destruct (sig_needs_init_ s || negb (eeq (sig_bits4_ s) bit)) eqn:Ec.
    + apply returns_assert; [apply Nat.eqb_eq; by rewrite (sig_size _ _ Hs)|]. apply returns_ret. split; [|exact Hval]. split; [by apply sig_update|by left].
    + apply orb_false_iff in Ec as [_ Ec]. apply negb_false_iff, eeq_spec in Ec; [|apply Hs|done]. apply returns_ret.
      split; [split; [done|by right]|]. intros i Hi. rewrite <- Hval by done. cbn [fst]. by rewrite <- !bit_at_bits, Ec.
  - apply returns_assert; [apply Nat.eqb_eq; destruct (assign_size _ _ Hs), (sig_size _ _ Hs); lia|]. by apply recv_masked.
Qed.

Lemma recv_vec4_pv_0 N bit base s : sig_ok N s -> wf4 bit -> returns (signal_recv_vec4_pv 0 bit base (size_ bit) N s) (received0 N bit base s).
Proof.
  intros Hs Hb. pose proof (sig_size _ _ Hs) as HN. unfold signal_recv_vec4_pv.
  apply returns_assert; [by apply Nat.eqb_eq|]. apply returns_assert; [by apply Nat.eqb_eq|].
  destruct (Nat.eqb_spec (wid_ (assign_mask_ s)) 0) as [E|E].
  - eapply returns_bind.
    { apply (set_where_loop base (size_ bit) (fun k => base + k <? N) (value bit)); [apply Hs|..].
      - intros k _ Hk%Nat.ltb_lt. lia.
      - intros k t _ Ht. rewrite Ht, HN. destruct (Nat.leb_spec N (base + k)), (Nat.ltb_spec (base + k) N); lia || done. }
    intros b (B1 & B2 & B3). apply returns_ret. split; [split; [apply sig_update; [done..|congruence]|by left]|].
    intros i Hi. cbn [fst sig_bits4_]. rewrite B3, no_assign by done. destruct (in_part base (size_ bit) i) eqn:Ep; [|done].
    apply in_part_spec in Ep. by rewrite (proj2 (Nat.ltb_lt _ _)) by lia.
  - apply returns_assert; [apply Nat.eqb_eq; destruct (assign_size _ _ Hs); lia|]. by apply recv_masked.
Qed.

Lemma coerce_ok v n : wf4 v -> n <= size_ v -> returns (coerce_to_width v n) (fun r => wf4 r /\ size_ r = n /\ forall i, i < n -> value r i = value v i).
Proof.
  intros Hv Hn. unfold coerce_to_width. destruct (Nat.eqb_spec (size_ v) n) as [E|E]; [by apply returns_ret|].
  apply returns_assert; [apply Nat.ltb_lt; lia|]. eapply returns_mono.
  { apply (set_where_loop 0 n (fun _ => true) (value v)); [apply fill_wf|intros; rewrite size_fill; lia|done]. }
  intros r (R1 & R2 & R3). rewrite size_fill in R2. split; [done|]. split; [done|]. intros i Hi.
  by rewrite R3, in_part_0, (proj2 (Nat.ltb_lt _ _)), Nat.sub_0_r by done.
Qed.

Lemma recv_vec4_1 N bit s : sig_ok N s -> wf4 bit -> N <= size_ bit -> returns (signal_recv_vec4 1 bit s) (received N s).
Proof.
  intros Hs Hb Hle. cbn [signal_recv_vec4]. rewrite (sig_size _ _ Hs). eapply returns_bind; [by apply coerce_ok|].
  intros b (B1 & B2 & _). apply returns_ret. destruct (mask_fill true (size_ b)) as (M1 & M2 & _).
  split; [|by left]. split; simpl; try done. right. congruence.
Qed.

Lemma recv_vec4_pv_1 N bit base s : sig_ok N s -> wf4 bit -> returns (signal_recv_vec4_pv 1 bit base (size_ bit) N s) (received N s).
Proof.
  intros Hs Hb. pose proof (sig_size _ _ Hs) as HN. unfold signal_recv_vec4_pv.
  apply returns_assert; [by apply Nat.eqb_eq|]. apply returns_assert; [by apply Nat.eqb_eq|]. cbv zeta.
  set (mask := if _ =? 0 then _ else _). assert (wf2 mask /\ wid_ mask = N) as [M1 M2].
  { unfold mask. destruct (Nat.eqb_spec (wid_ (assign_mask_ s)) 0); [rewrite HN; split; apply mask_fill|].
    split; [apply Hs|]. destruct (assign_size _ _ Hs); lia. }
  eapply returns_bind.
  { apply (returns_for (fun k r => set_where base k (fun k => base + k <? N) (value bit) (sig_bits4_ s) (fst r) /\
      mask_where base k (fun k => base + k <? N) true mask (snd r))).
    - split; [apply set_where_0, Hs|by apply mask_where_0].
    - intros k [b m] Hk [Hb' Hm']. cbn [fst snd] in *.
      pose proof (set_where_step base k _ _ _ b Hb') as Hsb. pose proof (mask_where_step base k _ _ _ m Hm') as Hsm. cbv beta in Hsb, Hsm.
      rewrite (proj1 (proj2 Hb')), HN. destruct (Nat.leb_spec N (base + k)), (Nat.ltb_spec (base + k) N); try lia.
      + apply returns_ret. destruct Hsb as (? & [= <-] & Hsb); [done|]. destruct Hsm as (? & [= <-] & Hsm); done.
      + eapply returns_bind; [apply Hsb; lia|]. intros b' Hb''. eapply returns_bind; [apply Hsm; lia|]. intros m' Hm''. by apply returns_ret. }
  intros [b m] [(B1 & B2 & _) (N1 & N2 & _)]. cbn [fst snd Nat.add] in *. apply returns_ret. split; [|by left].
  split; simpl; try done; [congruence|right; congruence].
Qed.

(** *** The net *)

(** The functor and the filter keep the same value. *)
Definition net_ok (N : nat) (n : signal_net) : Prop :=
  wire_ok N (fil_ n) /\
  match fun_ n with
  | Some s => sig_ok N s /\ forall i, value (sig_bits4_ s) i = value (bits4_ (fil_ n)) i
  | None => True
  end.

Definition settled (N : nat) (seen : list vvp_bit4_t) (r : signal_net * list effect) : Prop :=
  net_ok N (fst r) /\ sees N (observe seen (snd r)) (fil_ (fst r)).

Lemma var_send_ok N seen s v w :
  0 < N -> wire_ok N w -> sig_ok N s -> sig_bits4_ s = v -> nearly_sees N seen v 0 w ->
  returns ('(w, e) ← net_send_vec4 v w; Some (mk_net (Some s) w, e)) (settled N seen).
Proof.
  intros HN Hw Hs <- Hsee. eapply returns_bind.
  { apply (net_send_vec4_ok N seen); [done|done|apply Hs|apply Hs|done]. }
  intros [w' e] (H1 & H2 & _ & _ & H5). apply returns_ret. split; [|done]. split; [done|]. cbn [fun_ fil_ fst]. split; [done|].
  intros i. rewrite H2, in_part_0, (sig_size _ _ Hs), Nat.sub_0_r. destruct (Nat.ltb_spec i N); [done|].
  rewrite !value_ge; [done|by rewrite (ok_size _ _ Hw)|by rewrite (sig_size _ _ Hs)].
Qed.

(** What follows a handler of the functor, when the filter is unchanged. *)
Lemma var_received N seen s w r :
  0 < N -> wire_ok N w -> (forall i, value (sig_bits4_ s) i = value (bits4_ w) i) -> sees N seen w -> received N s r ->
  returns (match snd r with
    | None => Some (mk_net (Some (fst r)) w, [])
    | Some v => '(w, e) ← net_send_vec4 v w; Some (mk_net (Some (fst r)) w, e)
    end) (settled N seen).
Proof.
  intros HN Hw Hv Hsee. destruct r as [s' sent]. intros [H1 [->|[-> H2]]]; cbn [fst snd].
  - by apply var_send_ok, sees_nearly.
  - apply returns_ret. split; [|done]. split; [done|]. cbn [fun_ fil_ fst]. split; [done|]. intros i. by rewrite H2.
Qed.

Definition unforced (N base wid : nat) (w : vvp_wire_vec4) : Prop := forall i, i < N -> in_part base wid i = true -> forced w i = false.

(** The functor of a released variable takes the value that was forced. *)
Lemma var_released N seen bit base s w r :
  0 < N -> wire_ok N w -> (forall i, value (sig_bits4_ s) i = value (bits4_ w) i) ->
  length seen = N -> unforced N base (size_ bit) w ->
  (forall i, i < N -> bit_at seen i = if in_part base (size_ bit) i && negb (assigned s i) then value bit (i - base) else filtered_value_ w i) ->
  received0 N bit base s r ->
  returns (match snd r with
    | None => Some (mk_net (Some (fst r)) w, [])
    | Some v => '(w, e) ← net_send_vec4 v w; Some (mk_net (Some (fst r)) w, e)
    end) (settled N seen).
Proof.
  intros HN Hw Hv Hl Hu Hsee. destruct r as [s' sent]. intros [[H1 H2] H3]; cbn [fst snd] in *.
  assert (forall i, i < N -> bit_at seen i = filtered_value_ w i \/ (forced w i = false /\ bit_at seen i = value (sig_bits4_ s') i)) as Hcases.
  { intros i Hi. rewrite Hsee, H3 by done. destruct (in_part base (size_ bit) i && negb (assigned s i)) eqn:E; [right|by left].
    apply andb_true_iff in E as [E _]. split; [by apply Hu|done]. }
  destruct H2 as [->|[-> H2]].
  - apply var_send_ok; try done. split; [done|]. intros i Hi. destruct (Hcases i Hi) as [?|[H4 H5]]; [by left|right].
    rewrite in_part_0, (sig_size _ _ H1), (proj2 (Nat.ltb_lt _ _)), Nat.sub_0_r by done. auto.
  - apply returns_ret. split; [split; [done|]; cbn [fun_ fil_ fst]; split; [done|]; intros i; by rewrite H2|].
    split; [done|]. intros i Hi. cbn [snd observe fold_left fil_ fst].
    destruct (Hcases i Hi) as [?|[H4 H5]]; [done|]. by rewrite H5, H2, Hv, filtered_forced, H4.
Qed.

(** *** Forcing *)

Lemma vec4_value_ok N w : wire_ok N w -> returns (vec4_value w) (fun r => wf4 r /\ size_ r = N /\ forall i, i < N -> value r i = filtered_value_ w i).
Proof.
  intros Hw. unfold vec4_value. destruct (test_force_mask_is_zero (wire_fil_ w)) eqn:E.
  - apply returns_ret. split; [apply Hw|]. split; [apply Hw|]. intros i _. by rewrite filtered_forced, forced_zero by (apply Hw || done).
  - eapply returns_mono.
    { apply (set_where_loop 0 (size_ (bits4_ w)) (fun _ => true) (filtered_value_ w)); [apply Hw|intros; lia|done]. }
    intros r (R1 & R2 & R3). rewrite (ok_size _ _ Hw) in *. split; [done|]. split; [done|]. intros i Hi.
    by rewrite R3, in_part_0, (proj2 (Nat.ltb_lt _ _)), Nat.sub_0_r by done.
Qed.

Lemma net_force_ok N seen val mask n :
  net_ok N n -> wf4 val -> size_ val = N -> wf2 mask -> wid_ mask = N ->
  (forall i, i < N -> vector2_value mask i = false -> value val i = filtered_value_ (fil_ n) i) ->
  returns (lift_fil (net_force_vec4 val mask) n) (fun r => settled N seen r /\ forall i, i < N -> filtered_value_ (fil_ (fst r)) i = value val i).
Proof.
  destruct n as [fo w]. intros [Hw Hn] Hv Hz Hm Hwid Hval. unfold lift_fil, net_force_vec4, force_fil_vec4. cbn [fil_ fun_] in *.
  eapply returns_bind with (Q := fun '(w', es) => wire_ok N w' /\ bits4_ w' = bits4_ w /\ sees N (observe seen es) w' /\
      forall i, i < N -> filtered_value_ w' i = value val i);
    [|intros [w' e] (H1 & H2 & H3 & H4); apply returns_ret; split; [split; [split; [done|]; cbn [fun_ fil_ fst]; destruct fo; [by rewrite H2|done]|done]|done]].
  eapply returns_bind with (Q := fun '(w', e) => wire_ok N w' /\ bits4_ w' = bits4_ w /\ callbacks e /\ forall i, i < N -> filtered_value_ w' i = value val i).
  - eapply returns_bind; [by apply mask_force_ok|]. intros m (M1 & M2 & M3).
    eapply returns_bind with (Q := fun f => wf4 f /\ size_ f = N /\
      forall i, i < N -> value f i = if (size_ (force4_ w) =? 0) || vector2_value mask i then value val i else value (force4_ w) i).
    + destruct (Nat.eqb_spec (size_ (force4_ w)) 0) as [E|E]; [by apply returns_ret|].
      destruct (ok_force_size _ _ Hw) as [|Hf]; [done|]. eapply returns_mono.
      { apply (set_where_loop 0 (wid_ mask) (vector2_value mask) (value val)); [apply Hw|intros; lia|].
        intros k t Hk _. by destruct (vector2_value mask k). }
      intros r (R1 & R2 & R3). rewrite Hwid in *. split; [done|]. split; [congruence|]. intros i Hi.
      by rewrite R3, in_part_0, (proj2 (Nat.ltb_lt _ _)), Nat.sub_0_r by done.
    + intros f (F1 & F2 & F3). apply returns_ret. split; [split; simpl; try done; try apply Hw; by right|].
      split; [done|]. split; [by right|]. intros i Hi. rewrite filtered_forced. cbn [force4_ bits4_].
      change (forced _ i) with (test_force_mask i m). rewrite M3, F3 by done. destruct (vector2_value mask i) eqn:Em; cbn [orb]; [by rewrite orb_true_r|].
      rewrite Hval, filtered_forced by done. rewrite orb_false_r. destruct (forced w i) eqn:Ef; [|done].
      destruct (Nat.eqb_spec (size_ (force4_ w)) 0) as [E|E]; [|done]. exfalso.
      rewrite forced_value in Ef. destruct (ok_mask_size _ _ Hw) as [E'|[_ E']]; [rewrite value_beyond in Ef by lia; done|lia].
  - intros [w' e] (H1 & H2 & H3 & H4). apply returns_ret. split; [done|]. split; [done|]. split; [|done]. rewrite observe_callbacks by done.
    cbn [observe fold_left observe1]. split; [unfold bits; by rewrite length_map, length_seq|]. intros i Hi. by rewrite bit_at_bits, H4.
Qed.

(** *** Releasing *)

Lemma part_mask_ok N base wid : base + wid <= N ->
  returns (part_mask N base wid) (fun m => wf2 m /\ wid_ m = N /\ forall i, vector2_value m i = in_part base wid i).
Proof.
  intros H. destruct (mask_fill false N) as (F1 & F2 & F3). unfold part_mask. eapply returns_mono.
  { apply (mask_where_loop base wid (fun _ => true) true); [done|intros; rewrite F2; lia|done]. }
  intros m (M1 & M2 & M3). split; [done|]. split; [congruence|]. intros i. rewrite M3, F3, !andb_false_r, andb_true_r.
  by destruct (in_part base wid i).
Qed.

Lemma wire_ok_needs N b w m :
  wire_ok N (mk_wire (needs_init_ w) (bits4_ w) (force4_ w) m) -> wire_ok N (mk_wire b (bits4_ w) (force4_ w) m).
Proof. intros []. by split. Qed.

(** A net drives its own value again. *)
Lemma net_released N seen base b fo w m (bit : vvp_vector4_t) :
  0 < N -> net_ok N (mk_net fo w) -> sees N seen w -> wire_ok N (mk_wire (needs_init_ w) (bits4_ w) (force4_ w) m) ->
  (forall i, i < N -> test_force_mask i m = forced w i && negb (in_part base (size_ bit) i)) ->
  wf4 bit -> 0 < size_ bit -> base + size_ bit <= N -> (forall i, i < size_ bit -> value bit i = value (bits4_ w) (base + i)) ->
  (b = false -> forall i, i < size_ bit -> value (force4_ w) (base + i) = value bit i) ->
  nearly_sees N seen bit base (mk_wire b (bits4_ w) (force4_ w) m) /\
  (forall r, delivered N seen bit base (mk_wire b (bits4_ w) (force4_ w) m) r ->
    settled N seen (mk_net fo (fst r), snd r ++ [run_vpi_callbacks])).
Proof.
  intros HN [Hw Hf] [Hl Hsee] Hm Hmask Hb Hpos Hle Hval Heq. split.
  - split; [done|]. intros i Hi. rewrite Hsee, !filtered_forced by done. change (forced (mk_wire _ _ _ m) i) with (test_force_mask i m).
    rewrite Hmask by done. destruct (in_part base (size_ bit) i) eqn:E; cbn [negb]; [|left; by rewrite andb_true_r].
    rewrite andb_false_r. right. split; [done|]. split; [done|]. cbn [needs_init_ force4_ bits4_]. destruct b; [by left|right].
    apply in_part_spec in E. assert (i = base + (i - base)) as Ei by lia. specialize (Hval (i - base) ltac:(lia)).
    specialize (Heq eq_refl (i - base) ltac:(lia)). rewrite <- Ei in Hval, Heq. rewrite Heq, Hval. by destruct (forced w i).
  - intros [w' es] (D1 & D2 & D3 & D4 & D5). cbn [fst snd].
    split; [split; [done|]|]; cbn [fun_ fil_ fst snd] in *.
    + destruct fo as [s|]; [|done]. destruct Hf as [H1 H2]. split; [done|]. intros i. rewrite H2, D2. cbn [bits4_].
      destruct (in_part base (size_ bit) i) eqn:E; [|done]. apply in_part_spec in E. rewrite Hval by lia. f_equal. lia.
    + unfold observe in *. by rewrite fold_left_app.
Qed.

Lemma release_net_ok N seen n :
  0 < N -> net_ok N n -> sees N seen (fil_ n) -> returns (release true n) (settled N seen).
Proof.
  destruct n as [fo w]. intros HN Hn Hsee. pose proof (proj1 Hn) as Hw. cbn [fil_] in *. unfold release. cbn [fil_ fun_].
  rewrite (ok_size _ _ Hw). destruct (mask_fill true N) as (F1 & F2 & F3).
  eapply returns_bind; [by apply mask_release_ok|]. intros m (M1 & M2).
  destruct (net_released N seen 0 (negb (eeq (force4_ w) (bits4_ w))) fo w m (bits4_ w)) as [H1 H2]; try done.
  - intros i Hi. by rewrite M2, F3, in_part_0, (ok_size _ _ Hw), andb_true_r.
  - apply Hw.
  - by rewrite (ok_size _ _ Hw).
  - by rewrite (ok_size _ _ Hw).
  - intros E i _. apply negb_false_iff, eeq_spec in E; [|apply Hw..]. cbn [Nat.add]. by rewrite <- !bit_at_bits, E.
  - eapply returns_bind; [apply (net_send_vec4_ok N seen); [done|by apply wire_ok_needs|apply Hw|apply Hw|done]|].
    intros [w' e] Hd. apply returns_ret. apply (H2 _ Hd).
Qed.

Lemma release_net_pv_ok N seen base wid n :
  0 < wid -> base + wid <= N -> net_ok N n -> sees N seen (fil_ n) -> returns (release_pv base wid true n) (settled N seen).
Proof.
  destruct n as [fo w]. intros Hp Hle Hn Hsee. pose proof (proj1 Hn) as Hw. cbn [fil_] in *. unfold release_pv. cbn [fil_ fun_].
  rewrite (ok_size _ _ Hw). apply returns_assert; [by apply Nat.leb_le|].
  eapply returns_bind; [by apply part_mask_ok|]. intros mask (F1 & F2 & F3).
  eapply returns_bind; [by apply mask_release_ok|]. intros m (M1 & M2).
  eapply returns_bind; [apply vector4_part_returns, Hw|]. intros f (P1 & P2 & P3).
  eapply returns_bind; [apply vector4_part_returns, Hw|]. intros b (B1 & B2 & B3).
  assert (forall i, i < size_ b -> value b i = value (bits4_ w) (base + i)) as Hb by (intros; rewrite B3 by lia; done).
  destruct (net_released N seen base (negb (eeq f b)) fo w m b) as [H1 H2]; try done; try lia.
  - intros i Hi. by rewrite M2, F3, B2.
  - intros E i Hi. apply negb_false_iff, eeq_spec in E; [|done..].
    transitivity (value f i); [by rewrite P3 by lia|]. by rewrite <- !bit_at_bits, E.
  - rewrite <- B2. eapply returns_bind; [apply (net_send_vec4_pv_ok N seen); [lia|by apply wire_ok_needs|done|lia|lia|done]|].
    intros [w' e] Hd. apply returns_ret. apply (H2 _ Hd).
Qed.

(** A variable takes the value that was forced. *)
Lemma var_release_cases N seen base w m (res : vvp_vector4_t) s :
  sees N seen w -> free_to_release N base (size_ res) (mk_net (Some s) w) ->
  (forall i, i < N -> test_force_mask i m = forced w i && negb (in_part base (size_ res) i)) ->
  (forall i, i < size_ res -> base + i < N -> value res i = filtered_value_ w (base + i)) ->
  unforced N base (size_ res) (mk_wire (needs_init_ w) (bits4_ w) (force4_ w) m) /\
  forall i, i < N -> bit_at seen i =
    if in_part base (size_ res) i && negb (assigned s i) then value res (i - base)
    else filtered_value_ (mk_wire (needs_init_ w) (bits4_ w) (force4_ w) m) i.
Proof.
  intros [Hl Hsee] Hfree Hm Hres. split.
  - intros i Hi Hp. change (forced _ i) with (test_force_mask i m). rewrite Hm, Hp by done. apply andb_false_r.
  - intros i Hi. rewrite Hsee by done. rewrite (filtered_forced (mk_wire _ _ _ m)). change (forced (mk_wire _ _ _ m) i) with (test_force_mask i m).
    rewrite Hm by done. destruct (in_part base (size_ res) i) eqn:Ep; cbn [andb negb force4_ bits4_]; [|by rewrite andb_true_r].
    rewrite andb_false_r. destruct (assigned s i) eqn:Ea; cbn [negb].
    + pose proof (Hfree s i eq_refl Hi Ep Ea) as Hu. cbn [fil_] in Hu. by rewrite filtered_forced, Hu.
    + apply in_part_spec in Ep. rewrite Hres by lia. f_equal. lia.
Qed.

Lemma release_reg_ok N seen s w :
  0 < N -> net_ok N (mk_net (Some s) w) -> sees N seen w -> free_to_release N 0 N (mk_net (Some s) w) ->
  returns (release false (mk_net (Some s) w)) (settled N seen).
Proof.
  intros HN [Hw [Hs Hv]] Hsee Hfree. unfold release. cbn [fil_ fun_] in *. rewrite (ok_size _ _ Hw). destruct (mask_fill true N) as (F1 & F2 & F3).
  eapply returns_bind.
  { apply (set_where_loop 0 N (fun _ => true) (filtered_value_ w)); [apply fill_wf|intros; rewrite size_fill; lia|done]. }
  intros res (R1 & R2 & R3). rewrite size_fill in R2.
  eapply returns_bind; [by apply mask_release_ok|]. intros m (M1 & M2).
  destruct (var_release_cases N seen 0 w m res s) as [C1 C2]; try done.
  - by rewrite R2.
  - intros i Hi. by rewrite M2, F3, R2, in_part_0, andb_true_r.
  - intros i Hi _. rewrite R3, in_part_0, R2 in *. by rewrite (proj2 (Nat.ltb_lt _ _)), Nat.sub_0_r.
  - unfold var_recv_vec4. cbn [fun_ fil_ mbind option_bind]. eapply returns_bind; [by apply recv_vec4_0|].
    intros [s' sent] Hr. eapply returns_mono; [eapply (var_released N seen res 0 s _ (s', sent)); try done; apply Hsee|]. done.
Qed.

Lemma release_reg_pv_ok N seen base wid s w :
  0 < wid -> base + wid <= N -> net_ok N (mk_net (Some s) w) -> sees N seen w -> free_to_release N base wid (mk_net (Some s) w) ->
  returns (release_pv base wid false (mk_net (Some s) w)) (settled N seen).
Proof.
  intros Hp Hle [Hw [Hs Hv]] Hsee Hfree. unfold release_pv. cbn [fil_ fun_] in *. rewrite (ok_size _ _ Hw).
  apply returns_assert; [by apply Nat.leb_le|]. eapply returns_bind; [by apply part_mask_ok|]. intros mask (F1 & F2 & F3).
  eapply returns_bind.
  { apply (set_where_loop 0 wid (fun _ => true) (fun i => filtered_value_ w (base + i))); [apply fill_wf|intros; rewrite size_fill; lia|done]. }
  intros res (R1 & R2 & R3). rewrite size_fill in R2.
  eapply returns_bind; [by apply mask_release_ok|]. intros m (M1 & M2).
  destruct (var_release_cases N seen base w m res s) as [C1 C2]; try done.
  - by rewrite R2.
  - intros i Hi. by rewrite M2, F3, R2.
  - intros i Hi _. rewrite R3, in_part_0, R2 in *. by rewrite (proj2 (Nat.ltb_lt _ _)), Nat.sub_0_r.
  - unfold var_recv_vec4_pv. cbn [fun_ fil_ mbind option_bind]. rewrite <- R2. eapply returns_bind; [by apply recv_vec4_pv_0|].
    intros [s' sent] Hr. eapply returns_mono; [eapply (var_released N seen res base s _ (s', sent)); try done; [lia|apply Hsee]|]. done.
Qed.

(** *** The operations *)

Lemma drive_ok N seen v base w n :
  0 < N -> net_ok N n -> fun_ n = None ->
  forall r, delivered N seen v base w r -> settled N seen (mk_net (fun_ n) (fst r), snd r).
Proof. intros HN Hn Hf [w' es] (D1 & D2 & D3 & D4 & D5). split; [|done]. cbn. by rewrite Hf. Qed.

Lemma put_ok N seen port v n :
  0 < N -> net_ok N n -> sees N seen (fil_ n) -> applies N (put port v) n -> returns (var_recv_vec4 port v n) (settled N seen).
Proof.
  destruct n as [[s|] w]; [|by intros _ _ _ [? _]]. intros HN [Hw [Hs Hv]] Hsee (_ & Hwf & Hport). unfold var_recv_vec4. cbn [fun_ fil_ mbind option_bind] in *.
  eapply returns_bind with (Q := received N s).
  - destruct Hport as [[-> Hz]|[-> Hz]]; [|by apply recv_vec4_1]. eapply returns_mono; [by apply recv_vec4_0|]. by intros r [Hr _].
  - intros [s' sent] Hr. by apply (var_received N seen s w (s', sent)).
Qed.

Lemma put_part_ok N seen port v base n :
  0 < N -> net_ok N n -> sees N seen (fil_ n) -> applies N (put_part port v base) n ->
  returns (var_recv_vec4_pv port v base (size_ v) N n) (settled N seen).
Proof.
  destruct n as [[s|] w]; [|by intros _ _ _ [? _]]. intros HN [Hw [Hs Hv]] Hsee (_ & Hwf & Hport). unfold var_recv_vec4_pv. cbn [fun_ fil_ mbind option_bind] in *.
  eapply returns_bind with (Q := received N s).
  - destruct port as [|[|]]; [|by apply recv_vec4_pv_1|lia]. eapply returns_mono; [by apply recv_vec4_pv_0|]. by intros r [Hr _].
  - intros [s' sent] Hr. by apply (var_received N seen s w (s', sent)).
Qed.

Lemma force_ok N seen v n : net_ok N n -> wf4 v -> N <= size_ v -> returns (force_vec4 v n) (settled N seen).
Proof.
  intros Hn Hv Hz. unfold force_vec4. rewrite (ok_size _ _ (proj1 Hn)). eapply returns_bind; [by apply coerce_ok|].
  intros r (R1 & R2 & _). destruct (mask_fill true N) as (F1 & F2 & F3).
  eapply returns_mono; [apply (net_force_ok N seen); try done|by intros x [Hx _]]. intros i Hi. by rewrite F3, (proj2 (Nat.ltb_lt _ _)).
Qed.

(** The value with a part replaced, under the mask of the part. *)
Lemma force_part_ok N seen base v mask n :
  net_ok N n -> wf4 v -> 0 < size_ v -> base + size_ v <= N -> wf2 mask -> wid_ mask = N ->
  (forall i, vector2_value mask i = in_part base (size_ v) i) ->
  returns (tmp ← vec4_value (fil_ n); '(tmp, _) ← set_vec tmp base v; lift_fil (net_force_vec4 tmp mask) n)
    (fun r => settled N seen r /\ part_forced N base v (fil_ n) (fil_ (fst r))).
Proof.
  intros Hn Hv Hp Hle Hm Hwid Hval. eapply returns_bind; [apply vec4_value_ok, Hn|]. intros tmp (T1 & T2 & T3).
  eapply returns_bind; [apply set_vec_returns; [done|done|done|lia]|]. intros [r c] (R1 & R2 & R3 & _). cbn [fst] in *.
  eapply returns_mono; [apply (net_force_ok N seen); try done; [congruence|]|].
  - intros i Hi Hmi. rewrite R3. rewrite Hval in Hmi. unfold in_part in Hmi. rewrite Hmi. by apply T3.
  - intros x [H1 H2]. split; [done|]. intros i Hi. rewrite H2, R3 by done. fold (in_part base (size_ v) i). destruct (in_part _ _ _); [done|by apply T3].
Qed.

Lemma force_later_ok N seen base v n :
  net_ok N n -> wf4 v -> 0 < size_ v -> base + size_ v <= N ->
  returns (force_vector4_run base N v n) (fun r => settled N seen r /\ part_forced N base v (fil_ n) (fil_ (fst r))).
Proof.
  intros Hn Hv Hp Hle. unfold force_vector4_run. rewrite (proj2 (Nat.ltb_ge _ _)) by lia.
  eapply returns_bind; [by apply part_mask_ok|]. intros m (M1 & M2 & M3). by apply force_part_ok.
Qed.

Lemma u32_of_nat n : (Z.of_nat n < 2 ^ 32)%Z -> u32 (Z.of_nat n) = n.
Proof. intros H. unfold u32. rewrite Z.mod_small by lia. apply Nat2Z.id. Qed.

Lemma force_offset_ok N seen flag4 base v n :
  (Z.of_nat N < 2 ^ 32)%Z -> net_ok N n -> sees N seen (fil_ n) -> applies N (force_offset flag4 base v) n -> returns (force_vec4_off flag4 base v n) (settled N seen).
Proof.
  intros Hbig Hn Hsee (Hv & Hp & Happ). unfold force_vec4_off. rewrite (ok_size _ _ (proj1 Hn)). assert (returns (Some (n, [])) (settled N seen)) as Hskip by (by apply returns_ret).
  destruct (bit4_eqb flag4 BIT4_1) eqn:Ef; [done|].
  destruct (Z.leb_spec (Z.of_nat N) base); [done|]. destruct (Z.ltb_spec base (- Z.of_nat N)); [done|].
  destruct Happ as [->|[?|[?|[Hb1 Hb2]]]]; [done|lia|lia|].
  assert (exists b, base = Z.of_nat b) as [b ->] by (exists (Z.to_nat base); lia).
  rewrite (proj2 (Z.ltb_ge (Z.of_nat N) _)) by lia. rewrite (u32_of_nat b) by lia. destruct (mask_fill false N) as (F1 & F2 & F3).
  eapply returns_bind.
  { apply (mask_where_loop b (size_ v) (fun _ => true) true); [done|intros; rewrite F2; lia|].
    intros k t Hk. rewrite <- Nat2Z.inj_add, u32_of_nat by lia. done. }
  intros m (M1 & M2 & M3). eapply returns_mono; [apply (force_part_ok N seen b v m); try done; [lia|]|by intros x [Hx _]]. intros i. rewrite M3, F3, andb_true_r, andb_false_r. by destruct (in_part b (size_ v) i).
Qed.

Lemma release_ok N seen base width n :
  0 < N -> net_ok N n -> sees N seen (fil_ n) -> applies N (release_part base width) n ->
  returns (do_release_vec (match fun_ n with Some _ => false | None => true end) base width n) (settled N seen).
Proof.
  intros HN Hn Hsee [Hp Hfree]. unfold do_release_vec. rewrite (ok_size _ _ (proj1 Hn)). destruct (Nat.leb_spec N base) as [|Hb]; [by apply returns_ret|].
  cbv zeta. set (width' := if N <? base + width then _ else _).
  assert (0 < width' /\ base + width' <= N /\ forall i, i < N -> in_part base width' i = in_part base width i) as (W1 & W2 & W3).
  { unfold width'. destruct (Nat.ltb_spec N (base + width)); (split; [lia|]); (split; [lia|]); [|done]. intros i Hi. unfold in_part.
    replace (base + (N - base)) with N by lia. rewrite !(proj2 (Nat.ltb_lt _ _)) by lia. done. }
  assert (free_to_release N base width' n) as Hfree' by (intros s i Hs Hi; rewrite W3 by done; by apply Hfree).
  clearbody width'. destruct ((base =? 0) && (width' =? N)) eqn:E.
  - apply andb_true_iff in E as [E1 E2]. apply Nat.eqb_eq in E1, E2. subst base width'.
    destruct n as [[s|] w]; [by apply release_reg_ok|by apply release_net_ok].
  - destruct n as [[s|] w]; [by apply release_reg_pv_ok|by apply release_net_pv_ok].
Qed.

Lemma deassign_ok N seen base width n :
  net_ok N n -> sees N seen (fil_ n) -> applies N (deassign_part base width) n -> returns (of_DEASSIGN base width n) (settled N seen).
Proof.
  destruct n as [fo w]. intros Hn Hsee (s & Hs & Happ). unfold of_DEASSIGN. cbn [fun_ fil_] in *. subst fo. destruct Hn as [Hw [Hs Hv]].
  cbn [fil_ fun_ mbind option_bind] in *. rewrite (ok_size _ _ Hw). destruct (Nat.leb_spec N base) as [|Hb]; [by apply returns_ret|].
  cbv zeta. set (width' := if N <? base + width then _ else _). assert (base + width' <= N) as Hle by (unfold width'; split_ifs; lia).
  destruct ((base =? 0) && (width' =? N)) eqn:E.
  - apply returns_ret. split; [|done]. split; [done|]. split; [|done]. destruct Hs. split; simpl; auto using wf2_nan.
  - assert (wid_ (assign_mask_ s) = N) as HA.
    { destruct (assign_size _ _ Hs) as [H0|]; [|done]. exfalso. destruct Happ as [|[|[-> ?]]]; [done|lia|].
      unfold width' in E. cbn in E. destruct (Nat.ltb_spec N width); rewrite (proj2 (Nat.eqb_eq _ _)) in E by lia; done. }
    eapply returns_bind.
    { eapply returns_bind with (Q := fun m => wf2 m /\ wid_ m = N).
      - eapply returns_mono; [apply (mask_where_loop base width' (fun _ => true) false); [apply Hs|intros; lia|done]|].
        intros m (M1 & M2 & _). split; [done|congruence].
      - intros m [M1 M2]. apply returns_ret. instantiate (1 := fun s' => sig_ok N s' /\ sig_bits4_ s' = sig_bits4_ s). split; [|done].
        destruct Hs. split; simpl; try done; destruct (is_zero m); auto using wf2_nan. }
    intros s' [S1 S2]. apply returns_ret. split; [|done]. split; [done|]. split; [done|]. cbn [fil_ fst]. by rewrite S2.
Qed.

Lemma cassign_offset_ok N seen flag4 base v n :
  0 < N -> net_ok N n -> sees N seen (fil_ n) -> applies N (cassign_offset flag4 base v) n ->
  returns (cassign_vec4_off flag4 base v n) (settled N seen).
Proof.
  intros HN Hn Hsee [Hf Hv]. unfold cassign_vec4_off. rewrite (ok_size _ _ (proj1 Hn)). cbv zeta.
  assert (returns (Some (n, [])) (settled N seen)) as Hskip by (by apply returns_ret).
  assert (forall b v', wf4 v' -> returns (var_recv_vec4_pv 1 v' b (size_ v') N n) (settled N seen)) as Hput by (intros; by apply put_part_ok).
  destruct (bit4_eqb flag4 BIT4_1); [done|]. destruct (_ && _); [done|]. destruct (Z.of_nat N <=? base)%Z; [done|].
  assert (forall b v', wf4 v' -> returns (let '(wid, v') := if N <? b + size_ v' then (N - b, resize v' (N - b) BIT4_X) else (size_ v', v') in
    var_recv_vec4_pv 1 v' b wid N n) (settled N seen)) as Hclip.
  { intros b v' Hv'. destruct (N <? b + size_ v'); [|by apply Hput]. destruct (resize_value v' (N - b) BIT4_X Hv') as (H1 & H2 & _).
    rewrite <- H2 at 2. by apply Hput. }
  destruct (base <? 0)%Z; [|by apply Hclip]. destruct (resize_value v (size_ v - u32 (- base)) BIT4_X Hv) as (H1 & H2 & _).
  specialize (Hclip 0 _ H1). rewrite H2 in Hclip. exact Hclip.
Qed.

Lemma op_ok N seen op n :
  0 < N -> (Z.of_nat N < 2 ^ 32)%Z -> net_ok N n -> sees N seen (fil_ n) -> applies N op n -> returns (run_op N op n) (settled N seen).
Proof.
  intros HN Hbig Hn Hsee Happ. pose proof (proj1 Hn) as Hw. destruct op; cbn [run_op].
  - destruct Happ as (Hf & Hv & Hz). eapply returns_bind; [apply (net_send_vec4_ok N seen); try done; by apply sees_nearly|].
    intros [w' e] Hd. apply returns_ret. by apply (drive_ok N seen v 0 (fil_ n) n HN Hn Hf (w', e)).
  - destruct Happ as (Hf & Hv & Hz & Hb). eapply returns_bind; [apply (net_send_vec4_pv_ok N seen); try done; by apply sees_nearly|].
    intros [w' e] Hd. apply returns_ret. by apply (drive_ok N seen v base (fil_ n) n HN Hn Hf (w', e)).
  - by apply put_ok.
  - by apply put_part_ok.
  - destruct Happ. by apply force_ok.
  - by apply force_offset_ok.
  - destruct Happ as (? & ? & ?). eapply returns_mono; [by apply force_later_ok|]. by intros x [Hx _].
  - by apply release_ok.
  - by apply deassign_ok.
  - by apply cassign_offset_ok.
Qed.

(** ** The theorems *)

Lemma reachable_ok N init n es :
  0 < N -> (Z.of_nat N < 2 ^ 32)%Z -> reachable N init n es -> net_ok N n /\ sees N (observe (replicate N init) es) (fil_ n).
Proof.
  intros HN Hbig. induction 1 as [variable|n es op n' e Hr [IH1 IH2] Happ Hrun].
  - assert (wire_ok N (wire_make N init)) as Hw by apply wire_ok_make. split; [split; [done|]|].
    + destruct variable; [|done]. cbn. split; [|done]. split; simpl; [apply fill_wf|apply size_fill|apply wf2_nan|by left].
    + split; [apply length_replicate|]. intros i Hi. cbn [observe fold_left]. rewrite bit_at_replicate by done.
      rewrite filtered_forced, forced_zero by (apply wf2_nan || done). symmetry. by apply value_fill.
  - pose proof (returns_eq _ _ _ (op_ok N _ op n HN Hbig IH1 IH2 Happ) Hrun) as [H1 H2]. split; [done|].
    unfold observe in *. by rewrite fold_left_app.
Qed.

Lemma sees_view N seen w : wire_ok N w -> sees N seen w -> seen = view w.
Proof.
  intros Hw [Hl H]. unfold view. rewrite (ok_size _ _ Hw). apply bit_at_ext; [by rewrite length_map, length_seq|].
  intros i Hi. rewrite bit_at_map_seq by lia. apply H. lia.
Qed.

(** C10: After any sequence of the operations of [applies] on a net or a variable
    (driving or setting all of it or a part, continuous assignment and deassignment,
    forcing all of it or a part, releasing parts without a bit that is both assigned
    and forced), the nets behind it have seen exactly the value its readers get, and
    no such operation runs into an assertion.  A forced part shows the forced value
    and the other bits are unchanged; a driven net changes where it is not forced.
    Releasing a part that is both assigned and forced breaks this
    ([assigned_forced_released]). *)
Theorem signals_are_seen N init n es :
  0 < N -> (Z.of_nat N < 2 ^ 32)%Z -> reachable N init n es ->
  observe (replicate N init) es = view (fil_ n) /\
  (forall op, applies N op n -> is_Some (run_op N op n)) /\
  (forall base v n' e, applies N (force_later base v) n -> run_op N (force_later base v) n = Some (n', e) ->
     part_forced N base v (fil_ n) (fil_ n')) /\
  (forall v n' e, applies N (drive v) n -> run_op N (drive v) n = Some (n', e) ->
     forall i, i < N -> filtered_value_ (fil_ n') i = if forced (fil_ n) i then filtered_value_ (fil_ n) i else value v i).
Proof.
  intros HN Hbig Hr. destruct (reachable_ok N init n es HN Hbig Hr) as [Hn Hsee]. pose proof (proj1 Hn) as Hw.
  split; [by apply (sees_view N)|]. split; [|split].
  - intros op Happ. destruct (op_ok N _ op n HN Hbig Hn Hsee Happ) as (r & -> & _). by eexists.
  - intros base v n' e (Hv & Hp & Hle) Hrun. by apply (returns_eq _ _ _ (force_later_ok N (observe (replicate N init) es) base v n Hn Hv Hp Hle) Hrun).
  - intros v n' e (_ & Hv & Hz) Hrun i Hi. cbn [run_op] in Hrun. unfold lift_fil in Hrun.
    destruct (net_send_vec4_ok N (observe (replicate N init) es) v (fil_ n) HN Hw Hv Hz ltac:(by apply sees_nearly)) as ([w' e'] & Hs & D1 & D2 & D3 & D4 & D5).
    rewrite Hs in Hrun. injection Hrun as <- <-. cbn [fil_]. rewrite !filtered_forced, D4, D3, D2, in_part_0, Hz, Nat.sub_0_r.
    rewrite (proj2 (Nat.ltb_lt _ _)) by done. by destruct (forced _ _).
Qed.

(** A net is driven, two bits are forced, and another value is driven. *)
Definition forced_net : option (signal_net * list effect) :=
  run_ops 4 [drive (mk_vector4 4 [5%Z] [0%Z]); force_later 1 (mk_vector4 2 [3%Z] [0%Z])] (start 4 BIT4_Z false).

Lemma signals_are_seen_witness :
  exists n es, forced_net = Some (n, es) /\ observe (replicate 4 BIT4_Z) es = view (fil_ n) /\ view (fil_ n) = [BIT4_1; BIT4_1; BIT4_1; BIT4_0] /\
    is_Some (run_op 4 (drive (mk_vector4 4 [0%Z] [0%Z])) n).
Proof.
  destruct (run_op 4 (drive (mk_vector4 4 [5%Z] [0%Z])) (start 4 BIT4_Z false)) as [[n1 e1]|] eqn:E1; [|by vm_compute in E1].
  destruct (run_op 4 (force_later 1 (mk_vector4 2 [3%Z] [0%Z])) n1) as [[n2 e2]|] eqn:E2; [|by vm_compute in E1; injection E1 as <- <-; vm_compute in E2].
  assert (forall x, word_ok (Z.of_nat (x mod 16))) as Hok by (intros x; unfold word_ok; pose proof (Nat.mod_upper_bound x 16 ltac:(lia)); lia).
  assert (reachable 4 BIT4_Z n2 (([] ++ e1) ++ e2)) as Hr.
  { econstructor; [econstructor; [apply (reach_start 4 BIT4_Z false)| |exact E1]| |exact E2].
    - cbn. split; [done|]. split; [apply wf4_short; [lia|apply (Hok 5)|apply (Hok 0)]|done].
    - cbn. split; [apply wf4_short; [lia|apply (Hok 3)|apply (Hok 0)]|lia]. }
  destruct (signals_are_seen 4 BIT4_Z n2 _ ltac:(lia) ltac:(lia) Hr) as (H1 & H2 & _).
  exists n2, (([] ++ e1) ++ e2). split; [|split; [done|split]].
  - unfold forced_net. cbn [run_ops]. rewrite E1. cbn [mbind option_bind]. rewrite E2. cbn [mbind option_bind app]. by rewrite app_nil_r.
  - vm_compute in E1. injection E1 as <- <-. vm_compute in E2. by injection E2 as <- <-.
  - apply H2. vm_compute in E1. injection E1 as <- <-. vm_compute in E2. injection E2 as <- <-. cbn.
    split; [done|]. split; [apply wf4_short; [lia|apply (Hok 0)..]|done].
Defined.

(** ** What the code does outside of the theorem *)

(** A variable that is both assigned and forced: when the force is released, the
    variable's readers get the assigned value again, but nothing is sent, and the
    nets behind the variable keep the forced value. *)
Example assigned_forced_released :
  ('(n, es) ← run_ops 1 [put 1 (mk_vector4 1 [0%Z] [0%Z]); force_whole (mk_vector4 1 [1%Z] [0%Z]); release_part 0 1] (start 1 BIT4_X true);
   Some (observe [BIT4_X] es, view (fil_ n))) = Some ([BIT4_1], [BIT4_0]).
Proof. by vm_compute. Qed.

(** A forced part that reaches beyond the end of the vector: the width is cut but
    not the value, and [set_vec] fails its assertion; a part that begins below the
    vector fails the one of [set_bit]. *)
Example force_beyond_the_end :
  force_vec4_off BIT4_0 2 (mk_vector4 4 [5%Z] [0%Z]) (start 4 BIT4_X false) = None /\
  force_vector4_run 2 4 (mk_vector4 4 [5%Z] [0%Z]) (start 4 BIT4_X false) = None.
Proof. by vm_compute. Qed.

Example force_below_the_vector : force_vec4_off BIT4_0 (-1) (mk_vector4 2 [1%Z] [0%Z]) (start 4 BIT4_X false) = None.
Proof.
  assert (vector2_set_bit (vector2_fill false 4) (u32 (-1 + Z.of_nat 0)) true = None) as Hu.
  { assert ((u32 (-1 + Z.of_nat 0) <? 4) = false) as Hu by (apply Nat.ltb_ge; unfold u32; lia).
    unfold vector2_set_bit. change (wid_ (vector2_fill false 4)) with 4. by rewrite Hu. }
  unfold force_vec4_off. change (bit4_eqb BIT4_0 BIT4_1) with false. change (size_ (bits4_ (fil_ (start 4 BIT4_X false)))) with 4. cbv zeta.
  change (Z.of_nat 4 <=? -1)%Z with false. change (-1 <? - Z.of_nat 4)%Z with false.
  change (Z.of_nat 4 <? -1 + Z.of_nat (size_ (mk_vector4 2 [1%Z] [0%Z])))%Z with false. cbn [size_ for_].
  by rewrite Hu.
Qed.

(** Deassigning a part of a variable that is not assigned. *)
Example deassign_unassigned : of_DEASSIGN 0 1 (start 2 BIT4_X true) = None.
Proof. by vm_compute. Qed.

(** A continuous assignment to a part that begins below the vector takes the low
    bits of the value (here 01 at offset -1 of a vector of two bits), where
    [of_ASSIGN_VEC4_OFF_D] takes the high bits. *)
Example cassign_below_the_vector :
  ('(n, _) ← run_ops 2 [cassign_offset BIT4_0 (-1) (mk_vector4 2 [1%Z] [0%Z])] (start 2 BIT4_X true);
   Some (view (fil_ n))) = Some [BIT4_1; BIT4_X].
Proof. by vm_compute. Qed.
