(* ===== verification/Udp.v ===== *)
(** * User defined primitives ([vvp/udp.cc], [vvp/udp.h])

    A primitive is defined by a table of rows, each a string with a character for
    the present output (of a sequential primitive), one for each input, and one for
    the next output.  The code compiles the rows to bit masks, one bit for each
    input, and looks up the inputs by comparing masks.  The file models the
    compilation, the lookup and the functor of an instance, and proves that the
    instance follows the rows as the table states them. *)

From Stdlib Require Import ZArith Lia Bool Ascii String.
From stdpp Require Import base numbers list.
From S2P Require Import Prelude Bit4 Words Vec4 VecRep.

Open Scope nat_scope.
Open Scope word_scope.

(** ** Definitions *)

(** A C string: its characters, without the terminating zero. *)
Abbreviation row := (list ascii).

Definition row_of (s : string) : row := list_ascii_of_string s.

(** *** The masks of a row *)

Record udp_levels_table := mk_levels { mask0 : Z; mask1 : Z; maskx : Z }.

Definition no_levels : udp_levels_table := mk_levels 0 0 0.

Definition or0 (m : Z) (t : udp_levels_table) : udp_levels_table := mk_levels (mask0 t .| m) (mask1 t) (maskx t).
Definition or1 (m : Z) (t : udp_levels_table) : udp_levels_table := mk_levels (mask0 t) (mask1 t .| m) (maskx t).
Definition orx (m : Z) (t : udp_levels_table) : udp_levels_table := mk_levels (mask0 t) (mask1 t) (maskx t .| m).

Definition or_based_on_char (cur : udp_levels_table) (flag : ascii) (mask_bit : Z) : option udp_levels_table :=
  match flag with
  | "0"%char => Some (or0 mask_bit cur)
  | "1"%char => Some (or1 mask_bit cur)
  | "x"%char => Some (orx mask_bit cur)
  | "b"%char => Some (or1 mask_bit (or0 mask_bit cur))
  | "l"%char => Some (orx mask_bit (or0 mask_bit cur))
  | "h"%char => Some (or1 mask_bit (orx mask_bit cur))
  | "?"%char => Some (or1 mask_bit (orx mask_bit (or0 mask_bit cur)))
  | _ => None
  end.

(** The test of one row: all bits of [cur] are set in the row. *)
Definition row_match (cur r : udp_levels_table) : bool :=
  (mask0 cur =? mask0 cur .& mask0 r)%Z && (mask1 cur =? mask1 cur .& mask1 r)%Z && (maskx cur =? maskx cur .& maskx r)%Z.

(** The outputs of a row: 0, 1, x and [-], no change. *)
Inductive row_out := OUT0 | OUT1 | OUTX | OUTL.

#[export] Instance row_out_eq_dec : EqDecision row_out.
Proof. solve_decision. Defined.

Definition out_of_char (c : ascii) : option row_out :=
  match c with
  | "0"%char => Some OUT0
  | "1"%char => Some OUT1
  | "x"%char => Some OUTX
  | "-"%char => Some OUTL
  | _ => None
  end.

(** An array of one output, [nlevels0_] and so on: the count of the first pass
    bounds what the second pass stores. *)
Definition bump {A} (o : row_out) (f : A -> A) (t : row_out -> A) : row_out -> A := fun o' => if decide (o' = o) then f (t o') else t o'.

Definition store {A} (n : nat) (o : row_out) (x : A) (t : row_out -> list A) : option (row_out -> list A) :=
  assert_ (length (t o) <? n);; Some (bump o (fun l => l ++ [x]) t).

(** *** [vvp_udp_comb_s] *)

(** [comb_levels OUT0] is [levels0_] and [comb_levels OUT1] is [levels1_]. *)
Record vvp_udp_comb_s := mk_comb { comb_ports : nat; comb_levels : row_out -> list udp_levels_table }.

Definition test_levels (u : vvp_udp_comb_s) (cur : udp_levels_table) : vvp_bit4_t :=
  if existsb (row_match cur) (comb_levels u OUT0) then BIT4_0
  else if existsb (row_match cur) (comb_levels u OUT1) then BIT4_1
  else BIT4_X.

Definition comb_count (ports : nat) (r : row) (n : row_out -> nat) : option (row_out -> nat) :=
  assert_ (length r =? ports + 1);;
  c ← r !! ports;
  o ← out_of_char c;
  match o with
  | OUT0 | OUT1 => Some (bump o S n)
  | OUTX => Some n
  | OUTL => None
  end.

Definition comb_fill (ports : nat) (n : row_out -> nat) (r : row) (t : row_out -> list udp_levels_table) :
    option (row_out -> list udp_levels_table) :=
  assert_ (ports <=? 64);;
  cur ← for_ 0 ports (fun pp cur => c ← r !! pp; or_based_on_char cur c (1 << pp)) no_levels;
  c ← r !! ports;
  match out_of_char c with
  | Some OUT0 => store (n OUT0) OUT0 cur t
  | Some OUT1 => store (n OUT1) OUT1 cur t
  | _ => Some t
  end.

(** A loop over the rows of a table. *)
Fixpoint each {A} (f : row -> A -> option A) (tab : list row) (x : A) : option A :=
  match tab with [] => Some x | r :: tab => y ← f r x; each f tab y end.

Definition comb_compile (ports : nat) (tab : list row) : option vvp_udp_comb_s :=
  n ← each (comb_count ports) tab (fun _ => 0);
  t ← each (comb_fill ports n) tab (fun _ => []);
  assert_ (length (t OUT0) =? n OUT0);;
  assert_ (length (t OUT1) =? n OUT1);;
  Some (mk_comb ports t).

(** *** [vvp_udp_seq_s] *)

Record udp_edges_table := mk_edges {
  edge_position : nat; edge_mask0 : bool; edge_mask1 : bool; edge_maskx : bool;
  edge_levels : udp_levels_table  (* mask0, mask1 and maskx *)
}.

Definition no_edges : udp_edges_table := mk_edges 0 false false false no_levels.

(** [1 << pos] of an [int], converted to [unsigned long]. *)
Definition int_bit (pos : nat) : Z :=
  if pos mod 32 =? 31 then w_wrap (- 2 ^ 31) else (2 ^ Z.of_nat (pos mod 32))%Z.

(** The masks of an edge: to the levels that are given, from the ones in
    [from0], [fromx] and [from1]. *)
Definition or_levels (to0 to1 tox : bool) (m : Z) (t : udp_levels_table) : udp_levels_table :=
  let t := if to0 then or0 m t else t in let t := if to1 then or1 m t else t in if tox then orx m t else t.

Definition set_edge (pos : nat) (to0 to1 tox from0 fromx from1 : bool) (cur : udp_edges_table) : udp_edges_table :=
  mk_edges (pos mod 256) from0 from1 fromx (or_levels to0 to1 tox (int_bit pos) (edge_levels cur)).

Definition edge_based_on_char (cur : udp_edges_table) (chr : ascii) (pos : nat) : option udp_edges_table :=
  let edge to0 to1 tox from0 fromx from1 := Some (set_edge pos to0 to1 tox from0 fromx from1 cur) in
  match chr with
  | "B"%char => edge true true false false true false
  | "f"%char => edge true false false false false true
  | "F"%char => edge true false false false true false
  | "M"%char => edge false false true false false true
  | "N"%char => edge true false true false false true
  | "P"%char => edge false true true true false false
  | "q"%char => edge false false true true false true
  | "Q"%char => edge false false true true false false
  | "r"%char => edge false true false true false false
  | "R"%char => edge false true false false true false
  | "%"%char => edge false false true true false true
  | "+"%char => edge false true false true true false
  | "_"%char => edge true false false false true true
  | _ =>
      t ← or_based_on_char (edge_levels cur) chr (int_bit pos);
      Some (mk_edges (edge_position cur) (edge_mask0 cur) (edge_mask1 cur) (edge_maskx cur) t)
  end.

(** [levels_ OUT0] is [levels0_], and so on; [edges_ OUTX] is always empty. *)
Record vvp_udp_seq_s := mk_seq { seq_ports : nat; levels_ : row_out -> list udp_levels_table; edges_ : row_out -> list udp_edges_table }.

Definition level_chars : list ascii := ["0"; "1"; "x"; "b"; "l"; "h"; "?"]%char.

Definition char_in (c : ascii) (l : list ascii) : bool := existsb (Ascii.eqb c) l.

Fixpoint strspn (r : row) (accept : list ascii) : nat :=
  match r with
  | [] => 0
  | c :: r => if char_in c accept then S (strspn r accept) else 0
  end.

(** Rows that have n or p edges are expanded into two rows, [*] into three. *)
Definition extra_rows (r : row) : nat :=
  let extra := 0 in
  let extra := if char_in "n" r then 1 else extra in
  let extra := if char_in "p" r then 1 else extra in
  if char_in "*" r then 2 else extra.

Definition seq_count (ports : nat) (r : row) (s : (row_out -> nat) * (row_out -> nat)) : option ((row_out -> nat) * (row_out -> nat)) :=
  assert_ (length r =? ports + 2);;
  c ← r !! (ports + 1);
  o ← out_of_char c;
  if ports + 1 <=? strspn r level_chars then Some (bump o S (fst s), snd s)
  else
    match o with
    | OUTX => Some s
    | _ => Some (fst s, bump o (fun k => k + (1 + extra_rows r)) (snd s))
    end.

(** The three tables of an edge row, and whether the extra ones are needed. *)
Record edge_row := mk_edge_row { row_cur : udp_edges_table; row_ext0 : udp_edges_table; row_ext1 : udp_edges_table; need_ext0 : bool; need_ext1 : bool }.

Definition edge_row_char (c : ascii) (pp : nat) (s : edge_row) : option edge_row :=
  match c with
  | "n"%char =>
      cur ← edge_based_on_char (row_cur s) "N" pp;
      ext0 ← edge_based_on_char (row_ext0 s) "_" pp;
      Some (mk_edge_row cur ext0 (row_ext1 s) true (need_ext1 s))
  | "p"%char =>
      cur ← edge_based_on_char (row_cur s) "P" pp;
      ext0 ← edge_based_on_char (row_ext0 s) "+" pp;
      Some (mk_edge_row cur ext0 (row_ext1 s) true (need_ext1 s))
  | "*"%char =>
      cur ← edge_based_on_char (row_cur s) "P" pp;
      ext0 ← edge_based_on_char (row_ext0 s) "N" pp;
      ext1 ← edge_based_on_char (row_ext1 s) "B" pp;
      Some (mk_edge_row cur ext0 ext1 true true)
  | _ =>
      cur ← edge_based_on_char (row_cur s) c pp;
      ext0 ← edge_based_on_char (row_ext0 s) c pp;
      ext1 ← edge_based_on_char (row_ext1 s) c pp;
      Some (mk_edge_row cur ext0 ext1 (need_ext0 s) (need_ext1 s))
  end.

(** The masks of the row and of the present output. *)
Definition level_row (ports : nat) (r : row) : option udp_levels_table :=
  cur ← for_ 0 ports (fun pp cur => c ← r !! (pp + 1); or_based_on_char cur c (1 << pp)) no_levels;
  c ← r !! 0;
  or_based_on_char cur c (1 << ports).

Definition edge_rows (ports : nat) (r : row) : option edge_row :=
  s ← for_ 0 ports (fun pp s => c ← r !! (pp + 1); edge_row_char c pp s) (mk_edge_row no_edges no_edges no_edges false false);
  c ← r !! 0;
  cur ← edge_based_on_char (row_cur s) c ports;
  ext0 ← edge_based_on_char (row_ext0 s) c ports;
  ext1 ← edge_based_on_char (row_ext1 s) c ports;
  Some (mk_edge_row cur ext0 ext1 (need_ext0 s) (need_ext1 s)).

Definition store_edges (n : nat) (o : row_out) (s : edge_row) (t : row_out -> list udp_edges_table) : option (row_out -> list udp_edges_table) :=
  t ← store n o (row_cur s) t;
  t ← (if need_ext0 s then store n o (row_ext0 s) t else Some t);
  if need_ext1 s then store n o (row_ext1 s) t else Some t.

Definition seq_fill (ports : nat) (n : (row_out -> nat) * (row_out -> nat)) (r : row) (u : vvp_udp_seq_s) : option vvp_udp_seq_s :=
  c ← r !! (ports + 1);
  if ports + 1 <=? strspn r level_chars then
    cur ← level_row ports r;
    o ← out_of_char c;
    t ← store (fst n o) o cur (levels_ u);
    Some (mk_seq ports t (edges_ u))
  else
    s ← edge_rows ports r;
    o ← out_of_char c;
    match o with
    | OUTX => Some u
    | _ => t ← store_edges (snd n o) o s (edges_ u); Some (mk_seq ports (levels_ u) t)
    end.

Definition seq_compile (ports : nat) (tab : list row) : option vvp_udp_seq_s :=
  n ← each (seq_count ports) tab (fun _ => 0, fun _ => 0);
  u ← each (seq_fill ports n) tab (mk_seq ports (fun _ => []) (fun _ => []));
  assert_ (length (edges_ u OUT0) =? snd n OUT0);;
  assert_ (length (edges_ u OUT1) =? snd n OUT1);;
  assert_ (length (edges_ u OUTL) =? snd n OUTL);;
  Some u.

(** The present output, from the masks. *)
Definition no_change (u : vvp_udp_seq_s) (cur : udp_levels_table) : option vvp_bit4_t :=
  if negb (mask0 cur .& int_bit (seq_ports u) =? 0)%Z then Some BIT4_0
  else if negb (mask1 cur .& int_bit (seq_ports u) =? 0)%Z then Some BIT4_1
  else if negb (maskx cur .& int_bit (seq_ports u) =? 0)%Z then Some BIT4_X
  else None.

Definition test_levels_ (u : vvp_udp_seq_s) (cur : udp_levels_table) : option vvp_bit4_t :=
  if existsb (row_match cur) (levels_ u OUT0) then Some BIT4_0
  else if existsb (row_match cur) (levels_ u OUT1) then Some BIT4_1
  else if existsb (row_match cur) (levels_ u OUTX) then Some BIT4_X
  else if existsb (row_match cur) (levels_ u OUTL) then no_change u cur
  else Some BIT4_Z.

Definition edge_match (pos : nat) (e0 ex e1 : bool) (cur : udp_levels_table) (r : udp_edges_table) : bool :=
  (edge_position r =? pos) && negb (e0 && negb (edge_mask0 r)) && negb (ex && negb (edge_maskx r)) && negb (e1 && negb (edge_mask1 r)) &&
  row_match cur (edge_levels r).

Definition test_edges_ (u : vvp_udp_seq_s) (cur prev : udp_levels_table) : option vvp_bit4_t :=
  let edge_mask := (mask0 cur .^ mask0 prev .| maskx cur .^ maskx prev .| mask1 cur .^ mask1 prev) .& ~~ (w_max << seq_ports u) in
  if (edge_mask =? 0)%Z then Some BIT4_X
  else
    '(edge_mask, edge_position) ← while_ 64 (fun '(m, _) => (m .& 1 =? 0)%Z) (fun '(m, p) => Some (m >> 1, S p)) (edge_mask, 0);
    assert_ (edge_mask =? 1)%Z;;
    let edge_mask := 1 << edge_position in
    let e0 := negb (mask0 prev .& edge_mask =? 0)%Z in
    let ex := negb (maskx prev .& edge_mask =? 0)%Z in
    let e1 := negb (mask1 prev .& edge_mask =? 0)%Z in
    if existsb (edge_match edge_position e0 ex e1 cur) (edges_ u OUT0) then Some BIT4_0
    else if existsb (edge_match edge_position e0 ex e1 cur) (edges_ u OUT1) then Some BIT4_1
    else if existsb (edge_match edge_position e0 ex e1 cur) (edges_ u OUTL) then no_change u cur
    else Some BIT4_X.

Definition levels_eqb (a b : udp_levels_table) : bool := (mask0 a =? mask0 b)%Z && (mask1 a =? mask1 b)%Z && (maskx a =? maskx b)%Z.

Definition or_bit (b : vvp_bit4_t) (m : Z) (t : udp_levels_table) : udp_levels_table :=
  match b with BIT4_0 => or0 m t | BIT4_1 => or1 m t | _ => orx m t end.

Definition seq_output (u : vvp_udp_seq_s) (cur prev : udp_levels_table) (cur_out : vvp_bit4_t) : option vvp_bit4_t :=
  if levels_eqb cur prev then Some cur_out
  else
    let cur_tmp := or_bit cur_out (1 << seq_ports u) cur in
    lev ← test_levels_ u cur_tmp;
    if bit4_eqb lev BIT4_Z then test_edges_ u cur_tmp prev else Some lev.

(** *** An instance: [vvp_udp_fun_core] *)

Inductive vvp_udp_s := comb (u : vvp_udp_comb_s) | sequ (u : vvp_udp_seq_s) (init : vvp_bit4_t).

Definition port_count (d : vvp_udp_s) : nat := match d with comb u => comb_ports u | sequ u _ => seq_ports u end.

Definition get_init (d : vvp_udp_s) : vvp_bit4_t := match d with comb _ => BIT4_X | sequ _ b => b end.

Definition calculate_output (d : vvp_udp_s) (cur prev : udp_levels_table) (cur_out : vvp_bit4_t) : option vvp_bit4_t :=
  match d with comb u => Some (test_levels u cur) | sequ u _ => seq_output u cur prev cur_out end.

(** [compile_udp_def] *)
Definition compile_udp_def (seq : bool) (nin init : nat) (table : list row) : option vvp_udp_s :=
  if seq then
    let init4 := match init with 0 => BIT4_0 | 1 => BIT4_1 | _ => BIT4_X end in
    u ← seq_compile nin table; Some (sequ u init4)
  else u ← comb_compile nin table; Some (comb u).

Record vvp_udp_fun_core := mk_core { def_ : vvp_udp_s; cur_out_ : vvp_bit4_t; current_ : udp_levels_table }.

(** The constructor also schedules the object. *)
Definition core_make (d : vvp_udp_s) : vvp_udp_fun_core := mk_core d (get_init d) (mk_levels 0 0 (~~ (w_max << port_count d))).

(** [run_run]: the vector that is sent *)
Definition core_run_run (c : vvp_udp_fun_core) : option vvp_vector4_t := set_bit (vector4_fill 1 BIT4_X) 0 (cur_out_ c).

(** [dispatch_vec4_from_input_] and [recv_vec4_from_inputs]; the answer tells
    whether the object is scheduled. *)
Definition recv_vec4_from_inputs (port : nat) (bit : vvp_vector4_t) (c : vvp_udp_fun_core) : option (vvp_udp_fun_core * bool) :=
  assert_ (port <? port_count (def_ c));;
  assert_ (size_ bit =? 1);;
  let mask := 1 << port in
  let prev := current_ c in
  let current :=
    match value bit 0 with
    | BIT4_0 => mk_levels (mask0 prev .| mask) (mask1 prev .& ~~ mask) (maskx prev .& ~~ mask)
    | BIT4_1 => mk_levels (mask0 prev .& ~~ mask) (mask1 prev .| mask) (maskx prev .& ~~ mask)
    | _ => mk_levels (mask0 prev .& ~~ mask) (mask1 prev .& ~~ mask) (maskx prev .| mask)
    end in
  out_bit ← calculate_output (def_ c) current prev (cur_out_ c);
  if bit4_eqb out_bit (cur_out_ c) then Some (mk_core (def_ c) (cur_out_ c) current, false)
  else Some (mk_core (def_ c) out_bit current, true).

(** *** What a table means *)

(** A character for the level of an input; z counts as x. *)
Definition level_char (c : ascii) (b : vvp_bit4_t) : bool :=
  match c, b with
  | "0"%char, BIT4_0 => true
  | "1"%char, BIT4_1 => true
  | "x"%char, (BIT4_X | BIT4_Z) => true
  | "b"%char, (BIT4_0 | BIT4_1) => true
  | "l"%char, (BIT4_0 | BIT4_X | BIT4_Z) => true
  | "h"%char, (BIT4_1 | BIT4_X | BIT4_Z) => true
  | "?"%char, _ => true
  | _, _ => false
  end.

(** The changes an edge character stands for. *)
Definition transitions (c : ascii) : list (vvp_bit4_t * vvp_bit4_t) :=
  match c with
  | "r"%char => [(BIT4_0, BIT4_1)]
  | "f"%char => [(BIT4_1, BIT4_0)]
  | "Q"%char => [(BIT4_0, BIT4_X)]
  | "M"%char => [(BIT4_1, BIT4_X)]
  | "R"%char => [(BIT4_X, BIT4_1)]
  | "F"%char => [(BIT4_X, BIT4_0)]
  | "B"%char => [(BIT4_X, BIT4_0); (BIT4_X, BIT4_1)]
  | "P"%char => [(BIT4_0, BIT4_X); (BIT4_0, BIT4_1)]
  | "N"%char => [(BIT4_1, BIT4_X); (BIT4_1, BIT4_0)]
  | ("q" | "%")%char => [(BIT4_0, BIT4_X); (BIT4_1, BIT4_X)]
  | "+"%char => [(BIT4_0, BIT4_1); (BIT4_X, BIT4_1)]
  | "_"%char => [(BIT4_1, BIT4_0); (BIT4_X, BIT4_0)]
  | "p"%char => [(BIT4_0, BIT4_1); (BIT4_0, BIT4_X); (BIT4_X, BIT4_1)]
  | "n"%char => [(BIT4_1, BIT4_0); (BIT4_1, BIT4_X); (BIT4_X, BIT4_0)]
  | "*"%char => [(BIT4_0, BIT4_1); (BIT4_0, BIT4_X); (BIT4_1, BIT4_0); (BIT4_1, BIT4_X); (BIT4_X, BIT4_0); (BIT4_X, BIT4_1)]
  | _ => []
  end.

Definition edge_char (c : ascii) (p q : vvp_bit4_t) : bool :=
  existsb (fun t => bit4_eqb (fst t) (bit4_z2x p) && bit4_eqb (snd t) (bit4_z2x q)) (transitions c).

Definition char_at (r : row) (i : nat) : ascii := nth i r zero.

(** The row's levels fit the bits. *)
Definition level_fits (n : nat) (r : row) (l : list vvp_bit4_t) : bool :=
  forallb (fun i => level_char (char_at r i) (bit_at l i)) (seq 0 n).

(** The row has the edge of input [pos] from [p], and its levels fit the others. *)
Definition edge_fits (ports : nat) (r : row) (out : vvp_bit4_t) (l : list vvp_bit4_t) (pos : nat) (p : vvp_bit4_t) : bool :=
  level_char (char_at r 0) out &&
  forallb (fun i => if i =? pos then edge_char (char_at r (i + 1)) p (bit_at l i) else level_char (char_at r (i + 1)) (bit_at l i)) (seq 0 ports).

Definition has_out (i : nat) (o : row_out) (r : row) : bool :=
  match out_of_char (char_at r i) with Some o' => bool_decide (o' = o) | None => false end.

Definition comb_meaning (ports : nat) (tab : list row) (l : list vvp_bit4_t) : vvp_bit4_t :=
  let fits o := existsb (fun r => has_out ports o r && level_fits ports r l) tab in
  if fits OUT0 then BIT4_0 else if fits OUT1 then BIT4_1 else BIT4_X.

(** The rows with levels are stronger than those with an edge. *)
Definition seq_meaning (ports : nat) (tab : list row) (out : vvp_bit4_t) (l : list vvp_bit4_t) (pos : nat) (p : vvp_bit4_t) : vvp_bit4_t :=
  let fits o := existsb (fun r => has_out (ports + 1) o r && level_fits (ports + 1) r (out :: l)) tab in
  let edge o := existsb (fun r => has_out (ports + 1) o r && edge_fits ports r out l pos p) tab in
  if fits OUT0 then BIT4_0 else if fits OUT1 then BIT4_1 else if fits OUTX then BIT4_X else if fits OUTL then out
  else if edge OUT0 then BIT4_0 else if edge OUT1 then BIT4_1 else if edge OUTL then out else BIT4_X.

(** The next output when input [pos] becomes [b]. *)
Definition next_output (seq : bool) (ports : nat) (tab : list row) (out : vvp_bit4_t) (l : list vvp_bit4_t) (pos : nat) (b : vvp_bit4_t) : vvp_bit4_t :=
  if seq then
    if bit4_eqb (bit4_z2x (bit_at l pos)) (bit4_z2x b) then out
    else seq_meaning ports tab out (<[pos := b]> l) pos (bit_at l pos)
  else comb_meaning ports tab (<[pos := b]> l).

(** The tables that Verilog allows. *)
Definition comb_row_ok (ports : nat) (r : row) : bool :=
  (length r =? ports + 1) && forallb (fun i => char_in (char_at r i) level_chars) (seq 0 ports) &&
  (has_out ports OUT0 r || has_out ports OUT1 r || has_out ports OUTX r).

Definition is_edge (c : ascii) : bool := match transitions c with [] => false | _ => true end.

Definition seq_row_ok (ports : nat) (r : row) : bool :=
  (length r =? ports + 2) && char_in (char_at r 0) level_chars &&
  forallb (fun i => char_in (char_at r (i + 1)) level_chars || is_edge (char_at r (i + 1))) (seq 0 ports) &&
  (length (filter (fun i => is_edge (char_at r (i + 1)) = true) (seq 0 ports)) <=? 1) &&
  match out_of_char (char_at r (ports + 1)) with Some _ => true | None => false end.

(** *** An instance with its events *)

(** [pending] counts the events of the object that [schedule_functor] has put in
    the queue; [sent] holds what [run_run] has sent. *)
Record instance := mk_instance { core : vvp_udp_fun_core; pending : nat; sent : list vvp_vector4_t }.

Inductive action := input (port : nat) (bit : vvp_vector4_t) | run_event.

Definition act (a : action) (i : instance) : option instance :=
  match a with
  | input port bit =>
      '(c, scheduled) ← recv_vec4_from_inputs port bit (core i);
      Some (mk_instance c (if scheduled : bool then S (pending i) else pending i) (sent i))
  | run_event =>
      match pending i with
      | O => Some i
      | S n => v ← core_run_run (core i); Some (mk_instance (core i) n (sent i ++ [v]))
      end
  end.

Fixpoint acts (l : list action) (i : instance) : option instance :=
  match l with [] => Some i | a :: l => i ← act a i; acts l i end.

(** The object is scheduled when it is made. *)
Definition instance_make (d : vvp_udp_s) : instance := mk_instance (core_make d) 1 [].

(** The machine of the table: the inputs and the output. *)
Definition meaning_act (seq : bool) (ports : nat) (tab : list row) (s : list vvp_bit4_t * vvp_bit4_t) (a : action) : list vvp_bit4_t * vvp_bit4_t :=
  match a with
  | input port bit => (<[port := value bit 0]> (fst s), next_output seq ports tab (snd s) (fst s) port (value bit 0))
  | run_event => s
  end.

Definition meaning_start (seq : bool) (ports init : nat) : list vvp_bit4_t * vvp_bit4_t :=
  (replicate ports BIT4_X, if seq then match init with 0 => BIT4_0 | 1 => BIT4_1 | _ => BIT4_X end else BIT4_X).

Definition action_ok (ports : nat) (a : action) : Prop :=
  match a with input port bit => port < ports /\ wf4 bit /\ size_ bit = 1 | run_event => True end.

Definition table_rows_ok (seq : bool) (ports : nat) (tab : list row) : Prop :=
  if seq then ports <= 30 /\ forallb (seq_row_ok ports) tab = true else ports <= 63 /\ forallb (comb_row_ok ports) tab = true.

(** ** Lemmas *)

(** *** Masks *)

Definition mask_of (v : vvp_bit4_t) (t : udp_levels_table) : Z :=
  match v with BIT4_0 => mask0 t | BIT4_1 => mask1 t | _ => maskx t end.

Definition lev_ok (t : udp_levels_table) : Prop := word_ok (mask0 t) /\ word_ok (mask1 t) /\ word_ok (maskx t).

(** The masks accept the levels that [acc] accepts at each position. *)
Definition accepts (t : udp_levels_table) (acc : nat -> vvp_bit4_t -> bool) : Prop :=
  lev_ok t /\ forall v i, v <> BIT4_Z -> tb (mask_of v t) i = acc i v.

(** The masks of a vector of inputs. *)
Definition shows (t : udp_levels_table) (l : list vvp_bit4_t) : Prop :=
  accepts t (fun i v => (i <? length l) && bit4_eqb v (bit4_z2x (bit_at l i))).

Lemma no_levels_accepts : accepts no_levels (fun _ _ => false).
Proof. split; [split_and!; apply word_ok_0|]. intros [] i _; apply tb_0. Qed.

Lemma accepts_ext t acc acc' : accepts t acc -> (forall i v, v <> BIT4_Z -> acc i v = acc' i v) -> accepts t acc'.
Proof. intros [H1 H2] H. split; [done|]. intros v i Hv. rewrite H2 by done. by apply H. Qed.

Lemma level_char_accepts t acc c m :
  accepts t acc -> word_ok m -> char_in c level_chars = true ->
  returns (or_based_on_char t c m) (fun r => accepts r (fun i v => acc i v || (level_char c v && tb m i))).
Proof.
  intros [(H0 & H1 & Hx) H] Hm Hc. unfold char_in, level_chars in Hc. cbn [existsb] in Hc.
  repeat (apply orb_true_iff in Hc as [Hc|Hc]; [apply Ascii.eqb_eq in Hc; subst c; apply returns_ret;
    (split; [split_and!; cbn; auto with word_db; by repeat apply word_ok_lor|]);
    intros [] i Hv; try done; cbn [mask_of mask0 mask1 maskx or0 or1 orx level_char]; rewrite ?tb_lor;
    rewrite ?(H BIT4_0), ?(H BIT4_1), ?(H BIT4_X), ?orb_false_r by done; done|]). done.
Qed.

Lemma subset_spec m r : word_ok m -> word_ok r -> (m =? m .& r)%Z = true <-> forall i, tb m i = true -> tb r i = true.
Proof.
  intros Hm Hr. rewrite Z.eqb_eq. split.
  - intros E i Hi. rewrite E, tb_land in Hi. by apply andb_true_iff in Hi as [_ Hi].
  - intros H. apply tb_ext; [apply Hm|by apply word_ok_land|]. intros i. rewrite tb_land. specialize (H i).
    destruct (tb m i); [by rewrite H|done].
Qed.

Lemma mask_of_ok t v : lev_ok t -> word_ok (mask_of v t).
Proof. intros (H0 & H1 & Hx). by destruct v. Qed.

Lemma z2x_not_z b : bit4_z2x b <> BIT4_Z.
Proof. by destruct b. Qed.

Lemma row_match_spec cur r l acc :
  shows cur l -> accepts r acc -> row_match cur r = true <-> forall i, i < length l -> acc i (bit4_z2x (bit_at l i)) = true.
Proof.
  intros [Hc Hs] [Hr Ha].
  assert (row_match cur r = true <-> forall v, v <> BIT4_Z -> forall i, tb (mask_of v cur) i = true -> tb (mask_of v r) i = true) as ->.
  { unfold row_match. rewrite !andb_true_iff. change (mask0 ?t) with (mask_of BIT4_0 t). change (mask1 ?t) with (mask_of BIT4_1 t).
    change (maskx ?t) with (mask_of BIT4_X t). rewrite !subset_spec by (by apply mask_of_ok). split.
    - intros [[H0 H1] Hx] [] Hv; done.
    - intros H. split_and!; by apply H. }
  split.
  - intros H i Hi. rewrite <- Ha by apply z2x_not_z. apply H; [apply z2x_not_z|]. rewrite Hs by apply z2x_not_z.
    rewrite (proj2 (Nat.ltb_lt _ _)) by done. by destruct (bit4_z2x _).
  - intros H v Hv i. rewrite Hs, Ha by done. intros E. apply andb_true_iff in E as [Hi E]. apply Nat.ltb_lt in Hi.
    specialize (H i Hi). destruct v, (bit4_z2x (bit_at l i)); done.
Qed.

Lemma level_char_z2x c b : level_char c (bit4_z2x b) = level_char c b.
Proof. destruct b; [done..|]. destruct c as [[] [] [] [] [] [] [] []]; done. Qed.

Lemma tb_shl_1 n i : n < 64 -> tb (1 << n) i = (i =? n).
Proof.
  intros Hn. rewrite tb_shl, tb_1 by done. destruct (Nat.eqb_spec i n) as [->|].
  - by rewrite Nat.leb_refl, Nat.sub_diag, (proj2 (Nat.ltb_lt _ _)).
  - destruct (Nat.leb_spec n i); [|by rewrite andb_false_r]. rewrite (proj2 (Nat.eqb_neq _ 0)) by lia. by rewrite andb_false_r.
Qed.

(** *** Rows of levels *)

Lemma char_at_lookup (r : row) i : i < length r -> r !! i = Some (char_at r i).
Proof. intros H. destruct (lookup_lt_is_Some_2 r i H) as [c Hc]. unfold char_at. by rewrite nth_lookup, Hc. Qed.

Lemma levels_loop r n off (body : nat -> udp_levels_table -> option udp_levels_table) :
  n <= 64 -> (forall k t, body k t = (c ← r !! (k + off); or_based_on_char t c (1 << k))) -> n + off <= length r -> (forall i, i < n -> char_in (char_at r (i + off)) level_chars = true) ->
  returns (for_ 0 n body no_levels)
    (fun t => accepts t (fun i v => (i <? n) && level_char (char_at r (i + off)) v)).
Proof.
  intros Hn Hbody Hl Hc. apply (returns_for (fun k t => accepts t (fun i v => (i <? k) && level_char (char_at r (i + off)) v))).
  - eapply accepts_ext; [apply no_levels_accepts|done].
  - intros k t Hk Ht. rewrite Hbody, char_at_lookup by lia. cbn [mbind option_bind].
    eapply returns_mono; [apply level_char_accepts; [done|auto with word_db|apply Hc; lia]|].
    intros t' Ht'. eapply accepts_ext; [exact Ht'|]. intros i v Hv. cbn beta. rewrite tb_shl_1 by lia.
    destruct (Nat.eqb_spec i k) as [->|].
    + rewrite Nat.ltb_irrefl, andb_true_r. by rewrite (proj2 (Nat.ltb_lt _ _)) by lia.
    + rewrite andb_false_r, orb_false_r. f_equal. destruct (Nat.ltb_spec i k), (Nat.ltb_spec i (S k)); lia || done.
Qed.

Lemma level_fits_spec n r l : level_fits n r l = true <-> forall i, i < n -> level_char (char_at r i) (bit_at l i) = true.
Proof.
  unfold level_fits. rewrite forallb_forall. split.
  - intros H i Hi. apply H, in_seq. lia.
  - intros H i Hi%in_seq. apply H. lia.
Qed.

(** A compiled row matches the inputs that fit it. *)
Lemma level_row_match n r l cur t :
  length l = n -> shows cur l -> accepts t (fun i v => (i <? n) && level_char (char_at r i) v) -> row_match cur t = level_fits n r l.
Proof.
  intros Hl Hs Ht. apply eq_iff_eq_true. rewrite (row_match_spec cur t l _ Hs Ht), level_fits_spec, Hl.
  split; intros H i Hi; specialize (H i Hi); cbn beta in *.
  - rewrite level_char_z2x in H. by apply andb_true_iff in H as [_ H].
  - by rewrite level_char_z2x, (proj2 (Nat.ltb_lt _ _)).
Qed.

(** *** Loops over rows *)

Lemma returns_each {A} (I : list row -> A -> Prop) (f : row -> A -> option A) tab x :
  I [] x -> (forall done_ r rest y, tab = done_ ++ r :: rest -> I done_ y -> returns (f r y) (I (done_ ++ [r]))) -> returns (each f tab x) (I tab).
Proof.
  intros H0 Hstep. assert (forall rest done_ y, tab = done_ ++ rest -> I done_ y -> returns (each f rest y) (I tab)) as H.
  { induction rest as [|r rest IH]; intros done_ y E Hy; cbn [each].
    - apply returns_ret. by rewrite E, app_nil_r.
    - eapply returns_bind; [by apply (Hstep done_ r rest y)|]. intros z Hz. apply (IH (done_ ++ [r])); [|done]. by rewrite E, <- app_assoc. }
  by apply (H tab []).
Qed.

(** The number of entries that the rows of a table take. *)
Definition entries (f : row -> nat) (tab : list row) : nat := fold_right (fun r n => f r + n) 0 tab.

Lemma entries_app f a b : entries f (a ++ b) = entries f a + entries f b.
Proof. unfold entries. induction a; cbn; [done|]. by rewrite IHa, Nat.add_assoc. Qed.

Lemma entries_snoc f a r : entries f (a ++ [r]) = entries f a + f r.
Proof. rewrite entries_app. cbn. lia. Qed.

Lemma entries_prefix f a r rest : entries f a + f r <= entries f (a ++ r :: rest).
Proof. rewrite entries_app. cbn. lia. Qed.

Lemma bump_spec {A} o f (t : row_out -> A) o' : bump o f t o' = if bool_decide (o' = o) then f (t o') else t o'.
Proof. unfold bump. by case_decide; [rewrite bool_decide_true|rewrite bool_decide_false]. Qed.

Lemma store_ok {A} n o (x : A) t : length (t o) < n ->
  returns (store n o x t) (fun t' => t' o = t o ++ [x] /\ forall o', o' <> o -> t' o' = t o').
Proof.
  intros H. unfold store. apply returns_assert; [by apply Nat.ltb_lt|]. apply returns_ret. unfold bump. split.
  - by rewrite decide_True.
  - intros o' Ho. by rewrite decide_False.
Qed.

(** *** Combinational primitives *)

Definition comb_entry (ports : nat) (o : row_out) (r : row) : nat := if has_out ports o r then 1 else 0.

Lemma has_out_unique i o o' r : has_out i o r = true -> has_out i o' r = bool_decide (o' = o).
Proof.
  unfold has_out. destruct (out_of_char (char_at r i)) as [x|]; [|done]. intros H. apply bool_decide_eq_true in H. subst x.
  by apply bool_decide_ext.
Qed.

Lemma has_out_char i o r : has_out i o r = true -> out_of_char (char_at r i) = Some o.
Proof. unfold has_out. destruct (out_of_char _); [|done]. intros H%bool_decide_eq_true. by subst. Qed.

Lemma comb_row_cases ports r : comb_row_ok ports r = true ->
  length r = ports + 1 /\ (forall i, i < ports -> char_in (char_at r i) level_chars = true) /\
  exists o, has_out ports o r = true /\ o <> OUTL.
Proof.
  unfold comb_row_ok. rewrite !andb_true_iff. intros [[Hl Hc] Ho]. split; [by apply Nat.eqb_eq|]. split.
  - rewrite forallb_forall in Hc. intros i Hi. apply Hc, in_seq. lia.
  - repeat (apply orb_true_iff in Ho as [Ho|Ho]); by eexists.
Qed.

Lemma comb_count_ok ports tab :
  forallb (comb_row_ok ports) tab = true ->
  returns (each (comb_count ports) tab (fun _ => 0)) (fun n => n OUT0 = entries (comb_entry ports OUT0) tab /\ n OUT1 = entries (comb_entry ports OUT1) tab).
Proof.
  intros Htab. rewrite forallb_forall in Htab.
  apply (returns_each (fun tab n => n OUT0 = entries (comb_entry ports OUT0) tab /\ n OUT1 = entries (comb_entry ports OUT1) tab)); [done|].
  intros d r rest n E [H0 H1]. destruct (comb_row_cases ports r) as (Hl & Hc & o & Ho & Hno); [apply Htab; rewrite E; apply in_elt|].
  unfold comb_count. apply returns_assert; [by apply Nat.eqb_eq|]. rewrite char_at_lookup by lia. cbn [mbind option_bind].
  rewrite (has_out_char _ _ _ Ho). cbn [mbind option_bind]. rewrite !entries_snoc. unfold comb_entry in *. rewrite !(has_out_unique _ _ _ _ Ho).
  rewrite <- H0, <- H1. destruct o; try done; apply returns_ret; split; rewrite ?bump_spec; 
    first [rewrite !bool_decide_true by done|rewrite !bool_decide_false by done]; lia.
Qed.

Lemma comb_compile_ok ports tab :
  ports <= 64 -> forallb (comb_row_ok ports) tab = true ->
  returns (comb_compile ports tab) (fun u => comb_ports u = ports /\
    forall cur l, length l = ports -> shows cur l -> test_levels u cur = comb_meaning ports tab l).
Proof.
  intros Hp Htab. unfold comb_compile. eapply returns_bind; [by apply comb_count_ok|]. intros n [N0 N1].
  rewrite forallb_forall in Htab.
  eapply returns_bind.
  { apply (returns_each (fun d t => forall o, o = OUT0 \/ o = OUT1 -> length (t o) = entries (comb_entry ports o) d /\
      forall cur l, length l = ports -> shows cur l ->
        existsb (row_match cur) (t o) = existsb (fun r => has_out ports o r && level_fits ports r l) d)); [done|].
    intros d r rest t E Ht. destruct (comb_row_cases ports r) as (Hl & Hc & o & Ho & Hno); [apply Htab; rewrite E; apply in_elt|].
    unfold comb_fill. apply returns_assert; [by apply Nat.leb_le|].
    eapply returns_bind; [apply (levels_loop r ports 0)|].
    { done. }
    { intros k t'. by rewrite Nat.add_0_r. }
    { lia. }
    { intros i Hi. rewrite Nat.add_0_r. by apply Hc. }
    intros cur Hcur.
    assert (forall cur' l, length l = ports -> shows cur' l -> row_match cur' cur = level_fits ports r l) as Hmatch.
    { intros cur' l Hll Hs. apply level_row_match; [done..|]. eapply accepts_ext; [exact Hcur|]. intros i v _. cbn beta. by rewrite Nat.add_0_r. }
    rewrite char_at_lookup by lia. cbn [mbind option_bind]. rewrite (has_out_char _ _ _ Ho).
    assert (o <> OUTX -> returns (store (n o) o cur t) (fun t => forall o, o = OUT0 \/ o = OUT1 -> length (t o) = entries (comb_entry ports o) (d ++ [r]) /\
      forall cur l, length l = ports -> shows cur l ->
        existsb (row_match cur) (t o) = existsb (fun r => has_out ports o r && level_fits ports r l) (d ++ [r]))) as Hstore.
    { intros Hnx. assert (o = OUT0 \/ o = OUT1) as Hoo by (destruct o; auto; done). eapply returns_mono.
      - apply store_ok. rewrite (proj1 (Ht o Hoo)). pose proof (entries_prefix (comb_entry ports o) d r rest) as He. rewrite <- E in He.
        unfold comb_entry at 2 in He. rewrite Ho in He. destruct Hoo as [-> | ->]; lia.
      - intros t' [T1 T2] o' Ho'. destruct (Ht o' Ho') as [L1 L2]. rewrite entries_snoc. unfold comb_entry at 2. rewrite (has_out_unique _ _ o' _ Ho).
        destruct (decide (o' = o)) as [->|Hne].
        + rewrite bool_decide_true by done. rewrite T1, length_app, L1. split; [done|]. intros cur' l Hll Hs.
          rewrite !existsb_app, (L2 cur' l) by done. cbn [existsb]. by rewrite (Hmatch cur' l), Ho by done.
        + rewrite bool_decide_false by done. rewrite T2, L1 by done. split; [lia|]. intros cur' l Hll Hs.
          rewrite (L2 cur' l), existsb_app by done. cbn [existsb]. rewrite (has_out_unique _ _ o' _ Ho), bool_decide_false by done. by rewrite orb_false_r. }
    destruct o; [by apply Hstore..| |done]. apply returns_ret. intros o' Ho'. destruct (Ht o' Ho') as [L1 L2]. rewrite entries_snoc.
    assert (o' <> OUTX) as Hne by (destruct Ho' as [-> | ->]; done).
    unfold comb_entry at 2. rewrite (has_out_unique _ _ o' _ Ho), bool_decide_false by done. split; [lia|]. intros cur' l Hll Hs.
    rewrite (L2 cur' l), existsb_app by done. cbn [existsb]. rewrite (has_out_unique _ _ o' _ Ho), bool_decide_false by done. by rewrite orb_false_r. }
  intros t Ht. destruct (Ht OUT0 ltac:(by left)) as [L0 M0]. destruct (Ht OUT1 ltac:(by right)) as [L1 M1].
  apply returns_assert; [apply Nat.eqb_eq; lia|]. apply returns_assert; [apply Nat.eqb_eq; lia|].
  apply returns_ret. split; [done|]. intros cur l Hl Hs. unfold test_levels, comb_meaning. cbn [comb_levels]. by rewrite (M0 cur l), (M1 cur l).
Qed.

(** *** Edges *)

Lemma int_bit_ok p : p < 31 -> int_bit p = (2 ^ Z.of_nat p)%Z.
Proof. intros H. unfold int_bit. rewrite Nat.mod_small by lia. by rewrite (proj2 (Nat.eqb_neq _ _)) by lia. Qed.

Lemma int_bit_word p : p < 31 -> word_ok (int_bit p).
Proof. intros H. rewrite int_bit_ok by done. split; [lia|]. apply Z.pow_lt_mono_r; lia. Qed.

Lemma tb_int_bit p i : p < 31 -> tb (int_bit p) i = (i =? p).
Proof.
  intros H. rewrite int_bit_ok by done. unfold tb. destruct (Nat.eqb_spec i p) as [->|]; [apply Z.pow2_bits_true; lia|apply Z.pow2_bits_false; lia].
Qed.

(** The characters that [edge_based_on_char] takes. *)
Definition simple (c : ascii) : bool := char_in c ["B"; "f"; "F"; "M"; "N"; "P"; "q"; "Q"; "r"; "R"; "%"; "+"; "_"]%char.

Definition to_char (c : ascii) (v : vvp_bit4_t) : bool := level_char c v || existsb (fun t => bit4_eqb (snd t) v) (transitions c).
Definition from_char (c : ascii) (v : vvp_bit4_t) : bool := existsb (fun t => bit4_eqb (fst t) v) (transitions c).

Lemma or_levels_accepts t acc (to0 to1 tox : bool) m :
  accepts t acc -> word_ok m ->
  accepts (or_levels to0 to1 tox m t) (fun i v => acc i v || (match v with BIT4_0 => to0 | BIT4_1 => to1 | _ => tox end && tb m i)).
Proof.
  intros [(H0 & H1 & Hx) H] Hm. unfold or_levels. split.
  - destruct to0, to1, tox; split_and!; cbn; try done; by apply word_ok_lor.
  - intros v i Hv. pose proof (H v i Hv) as E.
    destruct v, to0, to1, tox; try done; cbn [mask_of mask0 mask1 maskx or0 or1 orx andb] in *; rewrite ?tb_lor, E, ?orb_false_r; done.
Qed.

(** What a character of a row does to its table. *)
Definition edge_step (p : nat) (c : ascii) (acc : nat -> vvp_bit4_t -> bool) (e r : udp_edges_table) : Prop :=
  accepts (edge_levels r) (fun i v => acc i v || (to_char c v && (i =? p))) /\
  if is_edge c then edge_position r = p /\ edge_mask0 r = from_char c BIT4_0 /\ edge_mask1 r = from_char c BIT4_1 /\ edge_maskx r = from_char c BIT4_X
  else edge_position r = edge_position e /\ edge_mask0 r = edge_mask0 e /\ edge_mask1 r = edge_mask1 e /\ edge_maskx r = edge_maskx e.

Lemma level_not_edge c : char_in c level_chars = true -> transitions c = [].
Proof. destruct c as [[] [] [] [] [] [] [] []]; done. Qed.

Lemma edge_char_step e acc c p :
  p < 31 -> accepts (edge_levels e) acc -> char_in c level_chars || simple c = true ->
  returns (edge_based_on_char e c p) (edge_step p c acc e).
Proof.
  intros Hp Ha Hc. pose proof (int_bit_word p Hp) as Hw. apply orb_true_iff in Hc as [Hc|Hc].
  - assert (edge_based_on_char e c p = (t ← or_based_on_char (edge_levels e) c (int_bit p);
      Some (mk_edges (edge_position e) (edge_mask0 e) (edge_mask1 e) (edge_maskx e) t))) as -> by (by destruct c as [[] [] [] [] [] [] [] []]).
    eapply returns_bind; [by apply level_char_accepts|]. intros t Ht. apply returns_ret. unfold edge_step, is_edge, to_char.
    rewrite (level_not_edge c Hc). split; [|done]. eapply accepts_ext; [exact Ht|]. intros i v Hv. cbn. by rewrite tb_int_bit, orb_false_r.
  - unfold simple, char_in in Hc. cbn [existsb] in Hc.
    repeat (apply orb_true_iff in Hc as [Hc|Hc]; [apply Ascii.eqb_eq in Hc; subst c; apply returns_ret; split;
      [eapply accepts_ext; [apply or_levels_accepts; [exact Ha|exact Hw]|intros i v Hv; cbn beta; rewrite tb_int_bit by done; by destruct v]
      |cbn; rewrite Nat.mod_small by lia; done]|]). done.
Qed.

(** The table of a row whose inputs have the characters [d], after [k] of them. *)
Definition edge_inv (d : nat -> ascii) (k : nat) (e : udp_edges_table) : Prop :=
  accepts (edge_levels e) (fun i v => (i <? k) && to_char (d i) v) /\
  forall p, p < k -> is_edge (d p) = true ->
    edge_position e = p /\ edge_mask0 e = from_char (d p) BIT4_0 /\ edge_mask1 e = from_char (d p) BIT4_1 /\ edge_maskx e = from_char (d p) BIT4_X.

Lemma edge_inv_0 d : edge_inv d 0 no_edges.
Proof. split; [|lia]. eapply accepts_ext; [apply no_levels_accepts|done]. Qed.

Lemma edge_inv_ext d d' k e : (forall i, i < k -> d i = d' i) -> edge_inv d k e -> edge_inv d' k e.
Proof.
  intros H [H1 H2]. split.
  - eapply accepts_ext; [exact H1|]. intros i v _. cbn beta. destruct (Nat.ltb_spec i k); [by rewrite H|done].
  - intros p Hp. rewrite <- H by done. by apply H2.
Qed.

Lemma edge_inv_step d k e :
  k < 31 -> edge_inv d k e -> char_in (d k) level_chars || simple (d k) = true ->
  (forall p, p < k -> is_edge (d p) = true -> is_edge (d k) = false) ->
  returns (edge_based_on_char e (d k) k) (edge_inv d (S k)).
Proof.
  intros Hk [H1 H2] Hc Hone. eapply returns_mono; [by apply edge_char_step|]. intros r [R1 R2]. split.
  - eapply accepts_ext; [exact R1|]. intros i v Hv. cbn beta. destruct (Nat.eqb_spec i k) as [->|].
    + rewrite Nat.ltb_irrefl, andb_true_r. by rewrite (proj2 (Nat.ltb_lt _ _)) by lia.
    + rewrite andb_false_r, orb_false_r. f_equal. destruct (Nat.ltb_spec i k), (Nat.ltb_spec i (S k)); lia || done.
  - intros p Hp Hedge. destruct (decide (p = k)) as [->|Hne]; [by rewrite Hedge in R2|].
    specialize (Hone p ltac:(lia) Hedge). rewrite Hone in R2. destruct (H2 p ltac:(lia) Hedge) as (E1 & E2 & E3 & E4), R2 as (F1 & F2 & F3 & F4). by rewrite F1, F2, F3, F4.
Qed.

(** *** The three tables of an edge row *)

Definition sub_cur (c : ascii) : ascii := match c with "n" => "N" | "p" => "P" | "*" => "P" | _ => c end%char.
Definition sub_ext0 (c : ascii) : ascii := match c with "n" => "_" | "p" => "+" | "*" => "N" | _ => c end%char.
Definition sub_ext1 (c : ascii) : ascii := match c with "*" => "B" | _ => c end%char.

Definition in_np (c : ascii) : bool := char_in c ["n"; "p"]%char.

Lemma edge_char_cases c : char_in c level_chars || is_edge c = true ->
  c = "n"%char \/ c = "p"%char \/ c = "*"%char \/
  (char_in c level_chars || simple c = true /\ sub_cur c = c /\ sub_ext0 c = c /\ sub_ext1 c = c /\ in_np c = false /\ c <> "*"%char /\
   forall pp s, edge_row_char c pp s =
     (cur ← edge_based_on_char (row_cur s) c pp; ext0 ← edge_based_on_char (row_ext0 s) c pp; ext1 ← edge_based_on_char (row_ext1 s) c pp;
      Some (mk_edge_row cur ext0 ext1 (need_ext0 s) (need_ext1 s)))).
Proof.
  destruct c as [[] [] [] [] [] [] [] []]; intros H; try discriminate H; auto;
    (right; right; right; split; [done|]; split; [done|]; split; [done|]; split; [done|]; split; [done|]; split; [done|]; intros; reflexivity).
Qed.

Definition edge_row_inv (c : nat -> ascii) (k : nat) (s : edge_row) : Prop :=
  edge_inv (fun i => sub_cur (c i)) k (row_cur s) /\ edge_inv (fun i => sub_ext0 (c i)) k (row_ext0 s) /\
  ((forall i, i < k -> in_np (c i) = false) -> edge_inv (fun i => sub_ext1 (c i)) k (row_ext1 s)) /\
  need_ext0 s = existsb (fun i => in_np (c i) || Ascii.eqb (c i) "*") (seq 0 k) /\
  need_ext1 s = existsb (fun i => Ascii.eqb (c i) "*") (seq 0 k).

Lemma sub_edges c : is_edge (sub_cur c) = is_edge c /\ is_edge (sub_ext0 c) = is_edge c /\ is_edge (sub_ext1 c) = is_edge c.
Proof. by destruct c as [[] [] [] [] [] [] [] []]. Qed.

Lemma edge_char_returns e c p : char_in c level_chars || simple c = true -> is_Some (edge_based_on_char e c p).
Proof. destruct c as [[] [] [] [] [] [] [] []]; intros H; try discriminate H; by eexists. Qed.

Lemma edge_row_char_step c k s :
  k < 31 -> edge_row_inv c k s -> char_in (c k) level_chars || is_edge (c k) = true ->
  (forall p, p < k -> is_edge (c p) = true -> is_edge (c k) = false) ->
  returns (edge_row_char (c k) k s) (edge_row_inv c (S k)).
Proof.
  intros Hk (I1 & I2 & I3 & I4 & I5) Hc Hone.
  pose proof (edge_inv_step (fun i => sub_cur (c i)) k (row_cur s) Hk I1) as S1.
  pose proof (edge_inv_step (fun i => sub_ext0 (c i)) k (row_ext0 s) Hk I2) as S2.
  pose proof (fun H => edge_inv_step (fun i => sub_ext1 (c i)) k (row_ext1 s) Hk (I3 H)) as S3. cbn beta in S1, S2, S3.
  assert (forall sub, (forall x, is_edge (sub x) = is_edge x) -> forall p, p < k -> is_edge (sub (c p)) = true -> is_edge (sub (c k)) = false) as Hsub.
  { intros sub H p Hp. rewrite !H. by apply Hone. }
  specialize (fun H => S1 H (Hsub sub_cur (fun x => proj1 (sub_edges x)))).
  specialize (fun H => S2 H (Hsub sub_ext0 (fun x => proj1 (proj2 (sub_edges x))))).
  specialize (fun H0 H => S3 H0 H (Hsub sub_ext1 (fun x => proj2 (proj2 (sub_edges x))))).
  clear Hsub. unfold edge_row_inv. rewrite !seq_S, !existsb_app, <- I4, <- I5. cbn [existsb Nat.add].
  destruct (edge_char_cases (c k) Hc) as [E|[E|[E|(Hok & E1 & E2 & E3 & E4 & E5 & Hrun)]]].
  - rewrite E in S1, S2, S3 |- *. eapply returns_bind; [by apply S1|]. intros cur Hcur. eapply returns_bind; [by apply S2|]. intros e0 He0. apply returns_ret.
    split; [done|]. split; [done|]. split; [intros H; specialize (H k ltac:(lia)); by rewrite E in H|]. cbn. by rewrite !orb_true_r, orb_false_r.
  - rewrite E in S1, S2, S3 |- *. eapply returns_bind; [by apply S1|]. intros cur Hcur. eapply returns_bind; [by apply S2|]. intros e0 He0. apply returns_ret.
    split; [done|]. split; [done|]. split; [intros H; specialize (H k ltac:(lia)); by rewrite E in H|]. cbn. by rewrite !orb_true_r, orb_false_r.
  - rewrite E in S1, S2, S3 |- *. assert (forall i, i < k -> in_np (c i) = false) as Hnp.
    { intros i Hi. destruct (in_np (c i)) eqn:En; [|done]. assert (is_edge (c i) = true) as He.
      { unfold in_np, char_in in En. cbn [existsb] in En. rewrite orb_false_r in En. apply orb_true_iff in En as [En|En]; apply Ascii.eqb_eq in En; by rewrite En. }
      specialize (Hone i Hi He). by rewrite E in Hone. }
    eapply returns_bind; [by apply S1|]. intros cur Hcur. eapply returns_bind; [by apply S2|]. intros e0 He0.
    eapply returns_bind; [by apply S3|]. intros e1 He1. apply returns_ret. split; [done|]. split; [done|]. split; [done|]. cbn. by rewrite !orb_true_r.
  - rewrite Hrun. rewrite E1 in S1. rewrite E2 in S2. rewrite E3 in S3.
    assert (Ascii.eqb (c k) "*" = false) as Hstar by (by apply Ascii.eqb_neq).
    eapply returns_bind; [by apply S1|]. intros cur Hcur. eapply returns_bind; [by apply S2|]. intros e0 He0.
    destruct (edge_char_returns (row_ext1 s) (c k) k Hok) as [e1 He1]. rewrite He1. apply returns_ret.
    split; [done|]. split; [done|]. split; [|rewrite E4, Hstar; cbn; by rewrite !orb_false_r].
    intros H. refine (returns_eq _ _ _ (S3 _ Hok) He1). intros i Hi. apply H. lia.
Qed.

(** The characters of a row in the order of the masks: the inputs, then the
    present output. *)
Definition mask_char (ports : nat) (r : row) (i : nat) : ascii := if i =? ports then char_at r 0 else char_at r (i + 1).

Definition edge_rows_inv (ports : nat) (r : row) (s : edge_row) : Prop :=
  let c := mask_char ports r in
  edge_inv (fun i => sub_cur (c i)) (S ports) (row_cur s) /\ edge_inv (fun i => sub_ext0 (c i)) (S ports) (row_ext0 s) /\
  ((forall i, i < ports -> in_np (c i) = false) -> edge_inv (fun i => sub_ext1 (c i)) (S ports) (row_ext1 s)) /\
  need_ext0 s = existsb (fun i => in_np (c i) || Ascii.eqb (c i) "*") (seq 0 ports) /\
  need_ext1 s = existsb (fun i => Ascii.eqb (c i) "*") (seq 0 ports).

Lemma mask_char_input ports r i : i < ports -> mask_char ports r i = char_at r (i + 1).
Proof. intros H. unfold mask_char. by rewrite (proj2 (Nat.eqb_neq _ _)) by lia. Qed.

Lemma mask_char_out ports r : mask_char ports r ports = char_at r 0.
Proof. unfold mask_char. by rewrite Nat.eqb_refl. Qed.

(** A row with one edge, at input [p0]. *)
Record edge_row_at (ports : nat) (r : row) (p0 : nat) : Prop := {
  ea_length : length r = ports + 2;
  ea_pos : p0 < ports;
  ea_edge : is_edge (char_at r (p0 + 1)) = true;
  ea_out : char_in (char_at r 0) level_chars = true;
  ea_rest : forall i, i < ports -> i <> p0 -> char_in (char_at r (i + 1)) level_chars = true
}.

Lemma level_subs c : char_in c level_chars = true -> sub_cur c = c /\ sub_ext0 c = c /\ sub_ext1 c = c /\ is_edge c = false /\ simple c = false /\ in_np c = false /\ Ascii.eqb c "*" = false.
Proof. destruct c as [[] [] [] [] [] [] [] []]; intros H; try discriminate H; done. Qed.

Lemma mask_char_level ports r p0 i : edge_row_at ports r p0 -> i <= ports -> i <> p0 -> char_in (mask_char ports r i) level_chars = true.
Proof.
  intros [] Hi Hne. destruct (decide (i = ports)) as [->|]; [by rewrite mask_char_out|]. rewrite mask_char_input by lia. apply ea_rest0; lia.
Qed.

Lemma edge_rows_ok ports r p0 :
  ports <= 30 -> edge_row_at ports r p0 -> returns (edge_rows ports r) (edge_rows_inv ports r).
Proof.
  intros Hp Hr. pose proof Hr as []. unfold edge_rows. eapply returns_bind.
  { apply (returns_for (fun k s => edge_row_inv (mask_char ports r) k s)).
    - split; [apply edge_inv_0|]. split; [apply edge_inv_0|]. split; [intros _; apply edge_inv_0|done].
    - intros k s Hk Hs. rewrite char_at_lookup by lia. cbn [mbind option_bind]. rewrite <- (mask_char_input ports) by lia. apply edge_row_char_step; [lia|done|..].
      + rewrite mask_char_input by lia. destruct (decide (k = p0)) as [->|]; [by rewrite ea_edge0, orb_true_r|]. by rewrite ea_rest0 by lia.
      + intros p Hpk Hedge. destruct (decide (k = p0)) as [->|Hne].
        * exfalso. destruct (level_subs _ (mask_char_level ports r p0 p Hr ltac:(lia) ltac:(lia))) as (_ & _ & _ & E & _). by rewrite E in Hedge.
        * by destruct (level_subs _ (mask_char_level ports r p0 k Hr ltac:(lia) Hne)) as (_ & _ & _ & E & _). }
  intros s (I1 & I2 & I3 & I4 & I5). cbn [Nat.add] in *. rewrite char_at_lookup by lia. cbn [mbind option_bind].
  destruct (level_subs _ ea_out0) as (E1 & E2 & E3 & E4 & _).
  assert (forall sub e, sub (char_at r 0) = char_at r 0 -> edge_inv (fun i => sub (mask_char ports r i)) ports e ->
    returns (edge_based_on_char e (char_at r 0) ports) (edge_inv (fun i => sub (mask_char ports r i)) (S ports))) as Hstep.
  { intros sub e Hsub He. pose proof (edge_inv_step _ ports e ltac:(lia) He) as H. cbn beta in H. rewrite mask_char_out, Hsub in H.
    apply H; [by rewrite ea_out0|]. intros p _ _. done. }
  eapply returns_bind; [apply (Hstep sub_cur); done|]. intros cur Hcur. eapply returns_bind; [apply (Hstep sub_ext0); done|]. intros x0 Hx0.
  destruct (edge_char_returns (row_ext1 s) (char_at r 0) ports ltac:(by rewrite ea_out0)) as [x1 Hx1]. rewrite Hx1. apply returns_ret.
  split; [done|]. split; [done|]. split; [|done]. intros H. exact (returns_eq _ _ _ (Hstep sub_ext1 _ E3 (I3 H)) Hx1).
Qed.

(** *** A compiled row with an edge *)

(** The row's characters [d], with the edge at [pos]. *)
Definition fits_at (ports : nat) (d : nat -> ascii) (out : vvp_bit4_t) (l : list vvp_bit4_t) (pos : nat) (p : vvp_bit4_t) : bool :=
  level_char (d ports) out && (edge_char (d pos) p (bit_at l pos) && forallb (fun i => (i =? pos) || level_char (d i) (bit_at l i)) (seq 0 ports)).

Lemma forallb_seq_ext (f g : nat -> bool) n : (forall i, i < n -> f i = g i) -> forallb f (seq 0 n) = forallb g (seq 0 n).
Proof. intros H. apply eq_iff_eq_true. rewrite !forallb_forall. split; intros Hf i Hi%in_seq; [rewrite <- H|rewrite H]; [apply Hf, in_seq; lia|lia|apply Hf, in_seq; lia|lia]. Qed.

Lemma forallb_at (A B : nat -> bool) pos n : pos < n ->
  forallb (fun i => if i =? pos then A i else B i) (seq 0 n) = A pos && forallb (fun i => (i =? pos) || B i) (seq 0 n).
Proof.
  intros Hp. apply eq_iff_eq_true. rewrite andb_true_iff, !forallb_forall. split.
  - intros H. split; [specialize (H pos ltac:(apply in_seq; lia)); by rewrite Nat.eqb_refl in H|]. intros i Hi. specialize (H i Hi). by destruct (i =? pos).
  - intros [HA HB] i Hi. specialize (HB i Hi). destruct (Nat.eqb_spec i pos) as [E|E]; [by rewrite E|exact HB].
Qed.

Lemma edge_fits_at ports r out l pos p : pos < ports -> edge_fits ports r out l pos p = fits_at ports (mask_char ports r) out l pos p.
Proof.
  intros Hp. unfold edge_fits, fits_at. rewrite mask_char_out. f_equal. rewrite (mask_char_input _ _ pos) by done.
  rewrite (forallb_at (fun i => edge_char (char_at r (i + 1)) p (bit_at l i)) (fun i => level_char (char_at r (i + 1)) (bit_at l i))) by done.
  f_equal. apply forallb_seq_ext. intros i Hi. by rewrite mask_char_input.
Qed.

Lemma simple_product c p q : simple c = true -> edge_char c p q = from_char c (bit4_z2x p) && to_char c (bit4_z2x q) /\ level_char c q = false.
Proof.
  intros H. unfold simple, char_in in H. cbn [existsb] in H.
  repeat (apply orb_true_iff in H as [H|H]; [apply Ascii.eqb_eq in H; subst c; by destruct p, q|]). done.
Qed.

Lemma to_char_level c b : char_in c level_chars = true -> to_char c (bit4_z2x b) = level_char c b.
Proof. intros H. unfold to_char. rewrite (level_not_edge c H), level_char_z2x. cbn. apply orb_false_r. Qed.

Lemma simple_edge c : simple c = true -> is_edge c = true.
Proof. by destruct c as [[] [] [] [] [] [] [] []]. Qed.

(** One compiled table matches when the inputs fit its characters. *)
Lemma edge_match_fits ports d p0 e cur l out pos p :
  ports <= 30 -> edge_inv d (S ports) e -> p0 < ports -> simple (d p0) = true ->
  (forall i, i <= ports -> i <> p0 -> char_in (d i) level_chars = true) ->
  length l = ports -> shows cur (l ++ [out]) -> pos < ports ->
  edge_match pos (bit4_eqb BIT4_0 (bit4_z2x p)) (bit4_eqb BIT4_X (bit4_z2x p)) (bit4_eqb BIT4_1 (bit4_z2x p)) cur e = fits_at ports d out l pos p.
Proof.
  intros Hp [He1 He2] Hp0 Hs Hlev Hl Hcur Hpos. destruct (He2 p0 ltac:(lia) (simple_edge _ Hs)) as (E1 & E2 & E3 & E4).
  unfold edge_match, fits_at. rewrite E1, E2, E3, E4. destruct (Nat.eqb_spec p0 pos) as [->|Hne]; cbn [andb].
  2:{ assert (edge_char (d pos) p (bit_at l pos) = false) as ->; [|by rewrite andb_false_r]. unfold edge_char. by rewrite (level_not_edge _ (Hlev pos ltac:(lia) ltac:(done))). }
  destruct (simple_product (d pos) p (bit_at l pos) Hs) as [-> Hnl].
  assert (forall i, i < S ports -> bit_at (l ++ [out]) i = if i =? ports then out else bit_at l i) as Hbit.
  { intros i Hi. rewrite bit_at_app, Hl. destruct (Nat.eqb_spec i ports) as [->|]; [by rewrite Nat.ltb_irrefl, Nat.sub_diag|].
    by rewrite (proj2 (Nat.ltb_lt _ _)) by lia. }
  assert (row_match cur (edge_levels e) = to_char (d pos) (bit4_z2x (bit_at l pos)) &&
    (level_char (d ports) out && forallb (fun i => (i =? pos) || level_char (d i) (bit_at l i)) (seq 0 ports))) as ->.
  { apply eq_iff_eq_true. rewrite (row_match_spec cur _ _ _ Hcur He1), length_app, Hl, !andb_true_iff, forallb_forall. cbn [length].
    rewrite Nat.add_1_r. split.
    - intros H. split; [|split].
      + specialize (H pos ltac:(lia)). cbn beta in H. rewrite Hbit, (proj2 (Nat.eqb_neq pos _)) in H by lia. by apply andb_true_iff in H as [_ H].
      + specialize (H ports ltac:(lia)). cbn beta in H. rewrite Hbit, Nat.eqb_refl in H by lia. apply andb_true_iff in H as [_ H].
        rewrite to_char_level in H; [done|apply Hlev; lia].
      + intros i Hi%in_seq. destruct (Nat.eqb_spec i pos) as [->|Hne]; [done|]. specialize (H i ltac:(lia)). cbn beta in H.
        rewrite Hbit, (proj2 (Nat.eqb_neq i ports)) in H by lia. apply andb_true_iff in H as [_ H]. rewrite to_char_level in H; [done|apply Hlev; lia].
    - intros (H1 & H2 & H3) i Hi. cbn beta. rewrite (proj2 (Nat.ltb_lt _ _)), Hbit by lia. cbn [andb]. destruct (Nat.eqb_spec i ports) as [->|Hne].
      + rewrite to_char_level; [done|apply Hlev; lia].
      + destruct (decide (i = pos)) as [->|Hni]; [done|]. specialize (H3 i ltac:(apply in_seq; lia)). rewrite (proj2 (Nat.eqb_neq i pos)) in H3 by done.
        rewrite to_char_level; [done|apply Hlev; lia]. }
  generalize (forallb (fun i => (i =? pos) || level_char (d i) (bit_at l i)) (seq 0 ports)), (level_char (d ports) out), (to_char (d pos) (bit4_z2x (bit_at l pos))).
  intros x y z. destruct p; simpl; repeat destruct (from_char (d pos) _); by destruct x, y, z.
Qed.

Lemma edge_char_split c p q : is_edge c = true ->
  edge_char c p q = edge_char (sub_cur c) p q || ((in_np c || Ascii.eqb c "*") && edge_char (sub_ext0 c) p q) || (Ascii.eqb c "*" && edge_char (sub_ext1 c) p q).
Proof. destruct c as [[] [] [] [] [] [] [] []]; intros H; try discriminate H; by destruct p, q. Qed.

Lemma sub_simple c : is_edge c = true -> simple (sub_cur c) = true /\ simple (sub_ext0 c) = true /\ (in_np c = false -> simple (sub_ext1 c) = true).
Proof. by destruct c as [[] [] [] [] [] [] [] []]. Qed.

Lemma fits_split ports r p0 out l pos p :
  edge_row_at ports r p0 -> pos < ports ->
  let c := mask_char ports r in
  fits_at ports c out l pos p =
    fits_at ports (fun i => sub_cur (c i)) out l pos p ||
    ((in_np (c p0) || Ascii.eqb (c p0) "*") && fits_at ports (fun i => sub_ext0 (c i)) out l pos p) ||
    (Ascii.eqb (c p0) "*" && fits_at ports (fun i => sub_ext1 (c i)) out l pos p).
Proof.
  intros Hr Hpos c. pose proof (fun i => mask_char_level ports r p0 i Hr) as Hlev. fold c in Hlev.
  unfold fits_at. destruct (level_subs (c ports) (Hlev ports ltac:(lia) ltac:(destruct Hr; lia))) as (-> & -> & -> & _).
  destruct (decide (pos = p0)) as [->|Hne].
  - assert (forall sub, (forall i, i < ports -> i <> p0 -> sub (c i) = c i) ->
      forallb (fun i => (i =? p0) || level_char (sub (c i)) (bit_at l i)) (seq 0 ports) = forallb (fun i => (i =? p0) || level_char (c i) (bit_at l i)) (seq 0 ports)) as Hsub.
    { intros sub H. apply forallb_seq_ext. intros i Hi. destruct (Nat.eqb_spec i p0); [done|]. by rewrite H. }
    rewrite (Hsub sub_cur), (Hsub sub_ext0), (Hsub sub_ext1) by (intros i Hi Hn; by apply (level_subs (c i) (Hlev i ltac:(lia) Hn))).
    assert (is_edge (c p0) = true) as He by (unfold c; rewrite mask_char_input by (apply Hr); apply Hr).
    rewrite (edge_char_split (c p0) _ _ He). destruct (level_char (c ports) out), (forallb _ _); cbn [andb]; rewrite ?andb_true_r, ?andb_false_r; done.
  - destruct (level_subs (c pos) (Hlev pos ltac:(lia) Hne)) as (-> & -> & -> & He & _).
    assert (edge_char (c pos) p (bit_at l pos) = false) as ->. { unfold edge_char. by rewrite (level_not_edge _ (Hlev pos ltac:(lia) Hne)). }
    cbn [andb]. by rewrite !andb_false_r.
Qed.

(** The extra tables that a row needs. *)
Lemma edge_row_needs ports r p0 s :
  edge_row_at ports r p0 -> edge_rows_inv ports r s ->
  need_ext0 s = in_np (mask_char ports r p0) || Ascii.eqb (mask_char ports r p0) "*" /\ need_ext1 s = Ascii.eqb (mask_char ports r p0) "*".
Proof.
  intros Hr (_ & _ & _ & I4 & I5). set (c := mask_char ports r) in *.
  pose proof (fun i => mask_char_level ports r p0 i Hr) as Hlev. fold c in Hlev. pose proof (ea_pos _ _ _ Hr) as Hp0.
  assert (forall f : ascii -> bool, (forall x, char_in x level_chars = true -> f x = false) -> existsb (fun i => f (c i)) (seq 0 ports) = f (c p0)) as Hex.
  { intros f Hf. apply eq_iff_eq_true. rewrite existsb_exists. split.
    - intros (i & Hi%in_seq & H). destruct (decide (i = p0)) as [->|Hne]; [done|]. by rewrite Hf in H by (apply Hlev; lia).
    - intros H. exists p0. split; [apply in_seq; lia|done]. }
  rewrite (Hex (fun x => in_np x || Ascii.eqb x "*")) in I4 by (intros x Hx; destruct (level_subs x Hx) as (_ & _ & _ & _ & _ & E & E'); by rewrite E, E').
  by rewrite (Hex (fun x => Ascii.eqb x "*")) in I5 by (intros x Hx; by apply (level_subs x Hx)).
Qed.

(** All tables of a row together. *)
Lemma edge_row_fits ports r p0 s cur l out pos p :
  ports <= 30 -> edge_row_at ports r p0 -> edge_rows_inv ports r s -> length l = ports -> shows cur (l ++ [out]) -> pos < ports ->
  let test := edge_match pos (bit4_eqb BIT4_0 (bit4_z2x p)) (bit4_eqb BIT4_X (bit4_z2x p)) (bit4_eqb BIT4_1 (bit4_z2x p)) cur in
  test (row_cur s) || (need_ext0 s && test (row_ext0 s)) || (need_ext1 s && test (row_ext1 s)) = edge_fits ports r out l pos p.
Proof.
  intros Hp Hr Hs Hl Hcur Hpos test. destruct (edge_row_needs ports r p0 s Hr Hs) as [I4 I5]. destruct Hs as (I1 & I2 & I3 & _ & _).
  set (c := mask_char ports r) in *. pose proof (fun i => mask_char_level ports r p0 i Hr) as Hlev. fold c in Hlev. pose proof Hr as [Hlen Hp0 He _ _].
  assert (is_edge (c p0) = true) as Hedge by (unfold c; by rewrite mask_char_input).
  rewrite edge_fits_at, I4, I5 by done. fold c. rewrite (fits_split ports r p0) by done. fold c.
  destruct (sub_simple _ Hedge) as (S1 & S2 & S3).
  assert (forall sub e, (forall x, char_in x level_chars = true -> sub x = x) -> simple (sub (c p0)) = true -> edge_inv (fun i => sub (c i)) (S ports) e ->
    test e = fits_at ports (fun i => sub (c i)) out l pos p) as Htest.
  { intros sub e Hsub Hs' Hinv. apply (edge_match_fits ports _ p0); try done. intros i Hi Hne. rewrite Hsub; by apply Hlev. }
  rewrite (Htest sub_cur), (Htest sub_ext0) by (done || (intros x Hx; by apply (level_subs x Hx))).
  destruct (in_np (c p0)) eqn:En.
  - assert (Ascii.eqb (c p0) "*" = false) as ->; [|done]. unfold in_np, char_in in En. cbn [existsb] in En. rewrite orb_false_r in En.
    by apply orb_true_iff in En as [En|En]; apply Ascii.eqb_eq in En; rewrite En.
  - rewrite (Htest sub_ext1); [done|intros x Hx; by apply (level_subs x Hx)|by apply S3|]. apply I3. intros i Hi.
    destruct (decide (i = p0)) as [->|Hne]; [done|]. apply (level_subs (c i)). apply Hlev; [lia|done].
Qed.

(** *** Sequential primitives *)

Definition is_level_row (ports : nat) (r : row) : bool := ports + 1 <=? strspn r level_chars.

Definition level_entry (ports : nat) (o : row_out) (r : row) : nat := if is_level_row ports r && has_out (ports + 1) o r then 1 else 0.

Definition edge_entry (ports : nat) (o : row_out) (r : row) : nat :=
  if negb (is_level_row ports r) && has_out (ports + 1) o r then 1 + extra_rows r else 0.

Lemma strspn_spec n (r : row) : n <= length r -> n <= strspn r level_chars <-> forall i, i < n -> char_in (char_at r i) level_chars = true.
Proof.
  revert n. induction r as [|c r IH]; intros n Hn; cbn [length strspn] in *.
  - assert (n = 0) as -> by lia. split; [lia|lia].
  - destruct n as [|n]; [split; lia|]. destruct (char_in c level_chars) eqn:E.
    + assert (S n <= S (strspn r level_chars) <-> n <= strspn r level_chars) as -> by lia. rewrite IH by lia. split.
      * intros H [|i] Hi; [done|]. apply (H i). lia.
      * intros H i Hi. apply (H (S i)). lia.
    + split; [lia|]. intros H. specialize (H 0 ltac:(lia)). change (char_at (c :: r) 0) with c in H. congruence.
Qed.

(** A row of a table has levels only, or one edge. *)
Lemma seq_row_cases ports r : seq_row_ok ports r = true ->
  length r = ports + 2 /\ (exists o, has_out (ports + 1) o r = true) /\
  ((is_level_row ports r = true /\ forall i, i < ports + 1 -> char_in (char_at r i) level_chars = true) \/
   (is_level_row ports r = false /\ exists p0, edge_row_at ports r p0)).
Proof.
  unfold seq_row_ok. rewrite !andb_true_iff. intros [[[[Hl H0] Hc] H1] Ho]. apply Nat.eqb_eq in Hl. apply Nat.leb_le in H1.
  split; [done|]. split.
  { unfold has_out. destruct (out_of_char _) as [o|]; [|done]. exists o. by apply bool_decide_true. }
  rewrite forallb_forall in Hc.
  assert (forall i, i < ports -> char_in (char_at r (i + 1)) level_chars = true \/ is_edge (char_at r (i + 1)) = true) as Hcases.
  { intros i Hi. apply orb_true_iff, Hc, in_seq. lia. }
  destruct (filter (fun i => is_edge (char_at r (i + 1)) = true) (seq 0 ports)) as [|p0 [|? ?]] eqn:Ef; [..|cbn in H1; lia].
  - left. assert (forall i, i < ports + 1 -> char_in (char_at r i) level_chars = true) as H; [|split; [|done]].
    + intros [|i] Hi; [done|]. destruct (Hcases i ltac:(lia)) as [H|H]; [by rewrite Nat.add_1_r in H|]. exfalso.
      assert (i ∈ filter (fun i => is_edge (char_at r (i + 1)) = true) (seq 0 ports)) as Hin by (apply list_elem_of_filter; split; [done|]; apply elem_of_seq; lia).
      rewrite Ef in Hin. by apply not_elem_of_nil in Hin.
    + apply Nat.leb_le, strspn_spec; [lia|done].
  - right. assert (p0 ∈ filter (fun i => is_edge (char_at r (i + 1)) = true) (seq 0 ports)) as Hin by (rewrite Ef; by left).
    apply list_elem_of_filter in Hin as [Hedge Hin]. apply elem_of_seq in Hin. split.
    + unfold is_level_row. apply Nat.leb_gt. destruct (Nat.lt_ge_cases (strspn r level_chars) (ports + 1)) as [|Hge]; [done|]. exfalso.
      rewrite strspn_spec in Hge by lia. specialize (Hge (p0 + 1) ltac:(lia)). destruct (level_subs _ Hge) as (_ & _ & _ & E & _). congruence.
    + exists p0. split; try done; [lia|]. intros i Hi Hne. destruct (Hcases i Hi) as [|H]; [done|]. exfalso.
      assert (i ∈ filter (fun i => is_edge (char_at r (i + 1)) = true) (seq 0 ports)) as Hi' by (apply list_elem_of_filter; split; [done|]; apply elem_of_seq; lia).
      rewrite Ef in Hi'. by apply list_elem_of_singleton in Hi'.
Qed.

Lemma char_in_row x ports r p0 :
  edge_row_at ports r p0 -> char_in x level_chars = false -> out_of_char x = None -> (exists o, has_out (ports + 1) o r = true) ->
  char_in x r = Ascii.eqb (mask_char ports r p0) x.
Proof.
  intros [Hl Hp0 He H0 Hrest] Hx Hox [o Ho]. rewrite mask_char_input by done. apply eq_iff_eq_true. unfold char_in. rewrite existsb_exists. split.
  - intros (y & Hy & E). apply Ascii.eqb_eq in E. subst y. apply list_elem_of_In, list_elem_of_lookup in Hy as [i Hi].
    pose proof (lookup_lt_Some _ _ _ Hi) as Hlt. assert (char_at r i = x) as Hc by (unfold char_at; by rewrite nth_lookup, Hi).
    destruct (decide (i = 0)) as [->|H1]; [congruence|]. destruct (decide (i = ports + 1)) as [->|H2].
    + apply has_out_char in Ho. congruence.
    + destruct (decide (i - 1 = p0)) as [<-|Hne]; [replace (i - 1 + 1) with i by lia; by apply Ascii.eqb_eq|].
      specialize (Hrest (i - 1) ltac:(lia) Hne). replace (i - 1 + 1) with i in Hrest by lia. congruence.
  - intros E. apply Ascii.eqb_eq in E. exists x. split; [|by apply Ascii.eqb_eq]. rewrite <- E. apply nth_In. lia.
Qed.

Lemma extra_rows_spec ports r p0 :
  edge_row_at ports r p0 -> (exists o, has_out (ports + 1) o r = true) ->
  let c := mask_char ports r p0 in
  extra_rows r = (if in_np c || Ascii.eqb c "*" then 1 else 0) + (if Ascii.eqb c "*" then 1 else 0).
Proof.
  intros Hr Ho c. unfold extra_rows. rewrite !(char_in_row _ ports r p0) by done. fold c.
  unfold in_np, char_in. cbn [existsb]. destruct (Ascii.eqb_spec c "n") as [->|]; [done|].
  destruct (Ascii.eqb_spec c "p") as [->|]; [done|]. by destruct (Ascii.eqb c "*").
Qed.

(** A table of arrays holds what the rows give it. *)
Definition table_ok {A X} (valid : X -> Prop) (test : X -> A -> bool) (fits : row_out -> X -> row -> bool) (ent : row_out -> row -> nat)
    (d : list row) (t : row_out -> list A) (o : row_out) : Prop :=
  length (t o) = entries (ent o) d /\ forall x, valid x -> existsb (test x) (t o) = existsb (fits o x) d.

Lemma table_add {A X} (valid : X -> Prop) (test : X -> A -> bool) fits ent d t t' o r xs :
  table_ok valid test fits ent d t o -> t' o = t o ++ xs -> length xs = ent o r ->
  (forall x, valid x -> existsb (test x) xs = fits o x r) -> table_ok valid test fits ent (d ++ [r]) t' o.
Proof.
  intros [H1 H2] E Hl Hx. unfold table_ok. rewrite E. split; [by rewrite length_app, entries_snoc, H1, Hl|].
  intros x Hv. rewrite !existsb_app, H2, Hx by done. cbn. by rewrite orb_false_r.
Qed.

Lemma table_same {A X} (valid : X -> Prop) (test : X -> A -> bool) fits ent d t t' o r :
  table_ok valid test fits ent d t o -> t' o = t o -> ent o r = 0 -> (forall x, valid x -> fits o x r = false) ->
  table_ok valid test fits ent (d ++ [r]) t' o.
Proof.
  intros H E He Hx. apply (table_add valid test fits ent d t t' o r []); [done|by rewrite E, app_nil_r|by rewrite He|]. intros x Hv. by rewrite Hx.
Qed.

Section sequential.

Context (ports : nat) (tab : list row).
Context (Hports : ports <= 30) (Htab : forallb (seq_row_ok ports) tab = true).

Lemma row_of_table d r rest : tab = d ++ r :: rest -> seq_row_ok ports r = true.
Proof. intros E. pose proof Htab as H. rewrite forallb_forall in H. apply H. rewrite E. apply in_elt. Qed.

Lemma seq_count_ok : returns (each (seq_count ports) tab (fun _ => 0, fun _ => 0)) (fun n =>
  forall o, fst n o = entries (level_entry ports o) tab /\ (o <> OUTX -> snd n o = entries (edge_entry ports o) tab)).
Proof.
  apply (returns_each (fun tab n => forall o, fst n o = entries (level_entry ports o) tab /\ (o <> OUTX -> snd n o = entries (edge_entry ports o) tab))); [done|].
  intros d r rest [n0 n1] E Hn. destruct (seq_row_cases ports r (row_of_table _ _ _ E)) as (Hl & [o Ho] & Hcases).
  unfold seq_count. apply returns_assert; [by apply Nat.eqb_eq|]. rewrite char_at_lookup by lia. cbn [mbind option_bind].
  rewrite (has_out_char _ _ _ Ho). cbn [mbind option_bind fst snd]. fold (is_level_row ports r).
  assert (forall o', level_entry ports o' r = (if is_level_row ports r then if bool_decide (o' = o) then 1 else 0 else 0) /\
    edge_entry ports o' r = (if is_level_row ports r then 0 else if bool_decide (o' = o) then 1 + extra_rows r else 0)) as Hent.
  { intros o'. unfold level_entry, edge_entry. rewrite (has_out_unique _ _ _ _ Ho). by destruct (is_level_row ports r), (bool_decide (o' = o)). }
  destruct (is_level_row ports r); [|destruct (decide (o = OUTX)) as [->|Hox]].
  - apply returns_ret. intros o'. destruct (Hn o') as [N0 N1], (Hent o') as [E0 E1]. cbn [fst snd] in *. rewrite !entries_snoc, E0, E1, bump_spec.
    split; [destruct (bool_decide _); lia|]. intros Hox. rewrite N1 by done. lia.
  - apply returns_ret. intros o'. destruct (Hn o') as [N0 N1], (Hent o') as [E0 E1]. cbn [fst snd] in *. rewrite !entries_snoc, E0, E1.
    split; [lia|]. intros Hox. rewrite bool_decide_false, N1 by done. lia.
  - destruct o; try done; apply returns_ret; intros o'; destruct (Hn o') as [N0 N1], (Hent o') as [E0 E1]; cbn [fst snd] in *; rewrite !entries_snoc, E0, E1, bump_spec;
      (split; [lia|]); intros Hox'; rewrite (N1 Hox'); destruct (bool_decide _); lia.
Qed.

Lemma level_row_ok r :
  length r = ports + 2 -> (forall i, i < ports + 1 -> char_in (char_at r i) level_chars = true) ->
  returns (level_row ports r) (fun t => forall cur l out, length l = ports -> shows cur (l ++ [out]) -> row_match cur t = level_fits (ports + 1) r (out :: l)).
Proof.
  intros Hl Hc. unfold level_row. eapply returns_bind.
  { apply (levels_loop r ports 1); [lia|done|lia|]. intros i Hi. apply Hc. lia. }
  intros t Ht. rewrite char_at_lookup by lia. cbn [mbind option_bind].
  eapply returns_mono; [apply level_char_accepts; [exact Ht|auto with word_db|apply Hc; lia]|].
  intros t' Ht' cur l out Hll Hs. apply eq_iff_eq_true. rewrite (row_match_spec cur t' _ _ Hs Ht'), level_fits_spec, length_app, Hll. cbn [length].
  assert (forall i, i < ports -> bit_at (l ++ [out]) i = bit_at l i) as Hbl by (intros i Hi; by rewrite bit_at_app, Hll, (proj2 (Nat.ltb_lt _ _))).
  assert (bit_at (l ++ [out]) ports = out) as Hbo by (by rewrite bit_at_app, Hll, Nat.ltb_irrefl, Nat.sub_diag).
  split.
  - intros H [|i] Hi; [specialize (H ports ltac:(lia))|specialize (H i ltac:(lia))]; cbn beta in H; rewrite tb_shl_1 in H by lia.
    + rewrite Nat.ltb_irrefl, Nat.eqb_refl, andb_true_r, Hbo, !level_char_z2x in H. exact H.
    + rewrite (proj2 (Nat.ltb_lt i ports)), (proj2 (Nat.eqb_neq i ports)), andb_false_r, orb_false_r, Hbl, !level_char_z2x, Nat.add_1_r in H by lia. exact H.
  - intros H i Hi. cbn beta. rewrite tb_shl_1 by lia. destruct (Nat.eqb_spec i ports) as [->|Hne].
    + rewrite Nat.ltb_irrefl, andb_true_r, Hbo, !level_char_z2x. exact (H 0 ltac:(lia)).
    + rewrite (proj2 (Nat.ltb_lt i ports)), Hbl, !level_char_z2x, Nat.add_1_r, andb_false_r, orb_false_r by lia. exact (H (S i) ltac:(lia)).
Qed.

Definition level_valid (x : udp_levels_table * list vvp_bit4_t * vvp_bit4_t) : Prop := let '(cur, l, out) := x in length l = ports /\ shows cur (l ++ [out]).

Definition levels_ok : list row -> (row_out -> list udp_levels_table) -> row_out -> Prop :=
  table_ok level_valid (fun '(cur, _, _) => row_match cur) (fun o '(_, l, out) r => has_out (ports + 1) o r && level_fits (ports + 1) r (out :: l)) (level_entry ports).

Definition edge_valid (x : udp_levels_table * list vvp_bit4_t * vvp_bit4_t * nat * vvp_bit4_t) : Prop :=
  let '(cur, l, out, pos, p) := x in length l = ports /\ shows cur (l ++ [out]) /\ pos < ports.

Definition edges_ok : list row -> (row_out -> list udp_edges_table) -> row_out -> Prop :=
  table_ok edge_valid
    (fun '(cur, _, _, pos, p) => edge_match pos (bit4_eqb BIT4_0 (bit4_z2x p)) (bit4_eqb BIT4_X (bit4_z2x p)) (bit4_eqb BIT4_1 (bit4_z2x p)) cur)
    (fun o '(_, l, out, pos, p) r => has_out (ports + 1) o r && edge_fits ports r out l pos p) (edge_entry ports).

Lemma store_edges_ok n o s t : length (t o) + (1 + (if need_ext0 s then 1 else 0) + (if need_ext1 s then 1 else 0)) <= n ->
  returns (store_edges n o s t) (fun t' => t' o = t o ++ row_cur s :: (if need_ext0 s then [row_ext0 s] else []) ++ (if need_ext1 s then [row_ext1 s] else []) /\
    forall o', o' <> o -> t' o' = t o').
Proof.
  intros H. unfold store_edges. eapply returns_bind; [apply store_ok; lia|]. intros t1 [T1 T1'].
  eapply returns_bind with (Q := fun t2 => t2 o = t1 o ++ (if need_ext0 s then [row_ext0 s] else []) /\ forall o', o' <> o -> t2 o' = t1 o').
  - destruct (need_ext0 s); [apply store_ok; rewrite T1, length_app; cbn; lia|]. apply returns_ret. by rewrite app_nil_r.
  - intros t2 [T2 T2']. assert (t2 o = t o ++ row_cur s :: (if need_ext0 s then [row_ext0 s] else [])) as E2 by (by rewrite T2, T1, <- app_assoc).
    assert (forall o', o' <> o -> t2 o' = t o') as E2' by (intros; by rewrite T2', T1').
    destruct (need_ext1 s); [|apply returns_ret; by rewrite app_nil_r].
    eapply returns_mono; [apply store_ok; rewrite E2, length_app; cbn; destruct (need_ext0 s); cbn; lia|].
    intros t3 [T3 T3']. split; [by rewrite T3, E2, <- app_assoc|]. intros o' Ho'. by rewrite T3', E2'.
Qed.

(** The rows of one kind fit nothing as rows of the other kind. *)
Lemma level_row_no_edge r out l pos p :
  (forall i, i < ports + 1 -> char_in (char_at r i) level_chars = true) -> pos < ports -> edge_fits ports r out l pos p = false.
Proof.
  intros H Hp. rewrite edge_fits_at by done. unfold fits_at. rewrite (mask_char_input _ _ pos) by done. unfold edge_char.
  rewrite (level_not_edge _ (H (pos + 1) ltac:(lia))). apply andb_false_r.
Qed.

Lemma edge_row_no_level r p0 l : edge_row_at ports r p0 -> level_fits (ports + 1) r l = false.
Proof.
  intros [_ Hp He _ _]. apply not_true_iff_false. rewrite level_fits_spec. intros H. specialize (H (p0 + 1) ltac:(lia)).
  revert H He. generalize (bit_at l (p0 + 1)), (char_at r (p0 + 1)). intros b c. destruct c as [[] [] [] [] [] [] [] []]; by destruct b.
Qed.

Lemma seq_fill_ok n :
  (forall o, fst n o = entries (level_entry ports o) tab /\ (o <> OUTX -> snd n o = entries (edge_entry ports o) tab)) ->
  forall d r rest u, tab = d ++ r :: rest ->
  (seq_ports u = ports /\ forall o, levels_ok d (levels_ u) o /\ (o <> OUTX -> edges_ok d (edges_ u) o)) ->
  returns (seq_fill ports n r u) (fun u => seq_ports u = ports /\ forall o, levels_ok (d ++ [r]) (levels_ u) o /\ (o <> OUTX -> edges_ok (d ++ [r]) (edges_ u) o)).
Proof.
  intros Hn d r rest u E [Hu Hinv]. destruct (seq_row_cases ports r (row_of_table _ _ _ E)) as (Hl & [o Ho] & Hcases).
  unfold seq_fill. rewrite char_at_lookup by lia. cbn [mbind option_bind]. fold (is_level_row ports r).
  assert (forall o', has_out (ports + 1) o' r = bool_decide (o' = o)) as Hout by (intros; by apply has_out_unique).
  destruct Hcases as [[Hlev Hc]|[Hlev [p0 Hr]]]; rewrite Hlev.
  - eapply returns_bind; [by apply level_row_ok|]. intros cur Hcur. rewrite (has_out_char _ _ _ Ho). cbn [mbind option_bind].
    eapply returns_bind.
    { apply store_ok. destruct (Hinv o) as [[Hlen _] _]. rewrite Hlen. rewrite (proj1 (Hn o)). pose proof (entries_prefix (level_entry ports o) d r rest) as He.
      rewrite <- E in He. unfold level_entry at 2 in He. rewrite Hlev, Ho in He. cbn in He. lia. }
    intros t [T1 T2]. apply returns_ret. split; [done|]. intros o'. cbn [levels_ edges_]. destruct (Hinv o') as [I1 I2]. split.
    + destruct (decide (o' = o)) as [->|Hne].
      * eapply table_add; [exact I1|exact T1|unfold level_entry; by rewrite Hlev, Ho|]. intros [[cur' l] out] [V1 V2]. cbn [existsb].
        by rewrite orb_false_r, Ho, (Hcur cur' l out).
      * eapply table_same; [exact I1|by apply T2|unfold level_entry; by rewrite Hout, bool_decide_false, andb_false_r|].
        intros [[cur' l] out] _. by rewrite Hout, bool_decide_false.
    + intros Hox. eapply table_same; [by apply I2|done|unfold edge_entry; by rewrite Hlev|].
      intros [[[[cur' l] out] pos] p] (_ & _ & V3). by rewrite level_row_no_edge, andb_false_r.
  - eapply returns_bind; [by apply (edge_rows_ok ports r p0)|]. intros s Hs. rewrite (has_out_char _ _ _ Ho). cbn [mbind option_bind].
    pose proof (extra_rows_spec ports r p0 Hr ltac:(by exists o)) as Hextra. cbv zeta in Hextra.
    destruct (edge_row_needs ports r p0 s Hr Hs) as [N0 N1].
    assert (forall o', levels_ok (d ++ [r]) (levels_ u) o') as Hlevels.
    { intros o'. eapply table_same; [apply Hinv|done|unfold level_entry; by rewrite Hlev|].
      intros [[cur' l] out] _. by rewrite (edge_row_no_level r p0), andb_false_r. }
    assert (forall o', o' <> OUTX -> o' <> o -> forall t : row_out -> list udp_edges_table, t o' = edges_ u o' -> edges_ok (d ++ [r]) t o') as Hother.
    { intros o' Hox Hne t Ht. eapply table_same; [by apply Hinv|done|unfold edge_entry; by rewrite Hout, bool_decide_false, andb_false_r|].
      intros [[[[cur' l] out] pos] p] _. by rewrite Hout, bool_decide_false. }
    destruct (decide (o = OUTX)) as [->|Hox].
    { apply returns_ret. split; [done|]. intros o'. split; [done|]. intros Hne. by apply Hother. }
    assert (returns (store_edges (snd n o) o s (edges_ u)) (fun t => forall o', o' <> OUTX -> edges_ok (d ++ [r]) t o')) as Hstore.
    { eapply returns_mono.
      - apply store_edges_ok. destruct (Hinv o) as [_ I2]. destruct (I2 Hox) as [Hlen _]. rewrite Hlen, (proj2 (Hn o) Hox).
        pose proof (entries_prefix (edge_entry ports o) d r rest) as He. rewrite <- E in He. unfold edge_entry at 2 in He.
        rewrite Hlev, Ho, Hextra, <- N0, <- N1 in He. cbn [andb negb] in He. lia.
      - intros t [T1 T2] o' Hox'. destruct (decide (o' = o)) as [->|Hne]; [|by apply Hother, T2].
        eapply table_add; [by apply Hinv|exact T1| |].
        + unfold edge_entry. rewrite Hlev, Ho, Hextra, <- N0, <- N1. by destruct (need_ext0 s), (need_ext1 s).
        + intros [[[[cur' l] out] pos] p] (V1 & V2 & V3). rewrite Ho. cbn [andb]. rewrite <- (edge_row_fits ports r p0 s cur' l out pos p) by done.
          destruct (need_ext0 s), (need_ext1 s); cbn [app existsb andb]; by rewrite ?orb_false_r, ?orb_assoc. }
    destruct o; try done; (eapply returns_bind; [exact Hstore|]); intros t Ht; apply returns_ret; (split; [done|]); intros o'; (split; [apply Hlevels|apply Ht]).
Qed.

Lemma seq_compile_ok :
  returns (seq_compile ports tab) (fun u => seq_ports u = ports /\ forall o, levels_ok tab (levels_ u) o /\ (o <> OUTX -> edges_ok tab (edges_ u) o)).
Proof.
  unfold seq_compile. eapply returns_bind; [apply seq_count_ok|]. intros n Hn.
  eapply returns_bind.
  { apply (returns_each (fun d u => seq_ports u = ports /\ forall o, levels_ok d (levels_ u) o /\ (o <> OUTX -> edges_ok d (edges_ u) o))).
    - split; [done|]. intros o. split; [|intros _]; by split.
    - intros d r rest u E Hu. by apply (seq_fill_ok n Hn d r rest). }
  intros u [Hu Hinv]. repeat (apply returns_assert; [apply Nat.eqb_eq; rewrite (proj2 (Hn _)) by done; by apply (proj2 (Hinv _))|]).
  by apply returns_ret.
Qed.

End sequential.

(** *** The lookup *)

Lemma land_bit m b p : word_ok m -> word_ok b -> (forall i, tb b i = (i =? p)) -> p < 64 -> (m .& b =? 0)%Z = negb (tb m p).
Proof.
  intros Hm Hb H Hp. apply eq_iff_eq_true. rewrite Z.eqb_eq, negb_true_iff. split.
  - intros E. assert (tb (m .& b) p = false) as Ht by (rewrite E; apply tb_0). by rewrite tb_land, H, Nat.eqb_refl, andb_true_r in Ht.
  - intros E. apply tb_ext; [by apply word_ok_land|apply word_ok_0|]. intros i _. rewrite tb_land, H, tb_0.
    destruct (Nat.eqb_spec i p) as [->|]; [by rewrite E|apply andb_false_r].
Qed.

Lemma land_one_shl m p : word_ok m -> p < 64 -> (m .& (1 << p) =? 0)%Z = negb (tb m p).
Proof. intros Hm Hp. apply land_bit; [done|auto with word_db| |done]. intros i. by apply tb_shl_1. Qed.

Lemma shows_ok t l v : shows t l -> word_ok (mask_of v t).
Proof. intros [H _]. by apply mask_of_ok. Qed.

Lemma shows_bit t l v i : shows t l -> v <> BIT4_Z -> i < length l -> tb (mask_of v t) i = bit4_eqb v (bit4_z2x (bit_at l i)).
Proof. intros [_ H] Hv Hi. by rewrite H, (proj2 (Nat.ltb_lt _ _)). Qed.

Lemma shows_beyond t l v i : shows t l -> v <> BIT4_Z -> length l <= i -> tb (mask_of v t) i = false.
Proof. intros [_ H] Hv Hi. by rewrite H, (proj2 (Nat.ltb_ge _ _)). Qed.

Lemma shows_eq a b l l' : shows a l -> shows b l' -> length l' = length l ->
  levels_eqb a b = true <-> forall i, i < length l -> bit4_z2x (bit_at l i) = bit4_z2x (bit_at l' i).
Proof.
  intros Ha Hb Hl. unfold levels_eqb. rewrite !andb_true_iff, !Z.eqb_eq. split.
  - intros [[E0 E1] Ex] i Hi. pose proof (z2x_not_z (bit_at l i)) as Hz. pose proof (shows_bit a l _ i Ha Hz Hi) as H1.
    pose proof (shows_bit b l' _ i Hb Hz ltac:(lia)) as H2. assert (mask_of (bit4_z2x (bit_at l i)) a = mask_of (bit4_z2x (bit_at l i)) b) as E by (destruct (bit4_z2x (bit_at l i)); done).
    rewrite E, H2 in H1. destruct (bit4_z2x (bit_at l i)), (bit4_z2x (bit_at l' i)); done.
  - intros H. assert (forall v, v <> BIT4_Z -> mask_of v a = mask_of v b) as E.
    { intros v Hv. apply tb_ext; [by apply (shows_ok a l)|by apply (shows_ok b l')|]. intros i _. destruct (Nat.lt_ge_cases i (length l)) as [Hi|Hi].
      - rewrite (shows_bit a l), (shows_bit b l') by (done || lia). by rewrite H.
      - by rewrite (shows_beyond a l), (shows_beyond b l') by (done || lia). }
    split_and!; [apply (E BIT4_0)|apply (E BIT4_1)|apply (E BIT4_X)]; done.
Qed.

Lemma shows_out cur l out n : shows cur l -> length l = n -> n < 64 -> shows (or_bit out (1 << n) cur) (l ++ [out]).
Proof.
  intros Hs Hl Hn. pose proof Hs as [(H0 & H1 & Hx) _]. assert (word_ok (1 << n)) as Hw by auto with word_db. split.
  { destruct out; split_and!; cbn; try done; by apply word_ok_lor. }
  intros v i Hv. rewrite length_app, bit_at_app, Hl. cbn [length].
  assert (tb (mask_of v (or_bit out (1 << n) cur)) i = tb (mask_of v cur) i || (bit4_eqb v (bit4_z2x out) && (i =? n))) as ->.
  { destruct v, out; try done; cbn [mask_of mask0 mask1 maskx or_bit or0 or1 orx bit4_eqb bit4_z2x andb]; rewrite ?orb_false_r; try done; by rewrite tb_lor, tb_shl_1. }
  destruct (Nat.lt_ge_cases i n) as [Hi|Hi].
  - rewrite (shows_bit cur l), (proj2 (Nat.ltb_lt i (n + 1))), (proj2 (Nat.ltb_lt i n)), (proj2 (Nat.eqb_neq i n)) by (done || lia).
    by rewrite andb_false_r, orb_false_r.
  - rewrite (shows_beyond cur l) by (done || lia). rewrite (proj2 (Nat.ltb_ge i n)) by lia. destruct (Nat.eqb_spec i n) as [->|Hne].
    + rewrite Nat.sub_diag, (proj2 (Nat.ltb_lt n (n + 1))), andb_true_r by lia. done.
    + rewrite (proj2 (Nat.ltb_ge i (n + 1))), andb_false_r by lia. done.
Qed.

Lemma no_change_ok u cur l out : seq_ports u <= 30 -> length l = seq_ports u -> shows cur (l ++ [out]) -> out <> BIT4_Z -> no_change u cur = Some out.
Proof.
  intros Hp Hl Hs Ho. assert (forall v, v <> BIT4_Z -> negb (mask_of v cur .& int_bit (seq_ports u) =? 0)%Z = bit4_eqb v out) as H.
  { intros v Hv. rewrite (land_bit _ _ (seq_ports u)); [|by apply (shows_ok cur (l ++ [out]))|apply int_bit_word; lia|intros; apply tb_int_bit; lia|lia].
    rewrite negb_involutive, (shows_bit cur (l ++ [out])) by (done || (rewrite length_app; cbn; lia)).
    rewrite bit_at_app, Hl, Nat.ltb_irrefl, Nat.sub_diag. by destruct out. }
  pose proof (H BIT4_0 ltac:(done)) as H0. pose proof (H BIT4_1 ltac:(done)) as H1. pose proof (H BIT4_X ltac:(done)) as Hx. cbn [mask_of] in *.
  unfold no_change. rewrite H0, H1, Hx. by destruct out.
Qed.

Lemma find_edge pos : pos < 64 ->
  returns (while_ 64 (fun '(m, _) => (m .& 1 =? 0)%Z) (fun '(m, p) => Some (m >> 1, S p)) (1 << pos, 0)) (fun r => r = (1%Z, pos)).
Proof.
  intros Hp. assert (forall q, q < 64 -> (1 << q .& 1 =? 0)%Z = negb (q =? 0)) as Hc.
  { intros q Hq. change 1%Z with (1 << 0) at 2. rewrite land_one_shl by (auto with word_db; lia). rewrite tb_shl_1 by done. by rewrite Nat.eqb_sym. }
  eapply returns_mono.
  { apply (returns_while (fun '(m, p) => p <= pos /\ m = 1 << (pos - p)) (fun '(_, p) => pos - p)).
    - split; [lia|]. by rewrite Nat.sub_0_r.
    - lia.
    - intros [m p] [H1 ->] H2. rewrite Hc in H2 by lia. apply negb_true_iff, Nat.eqb_neq in H2. apply returns_ret. split; [|lia]. split; [lia|].
      apply tb_ext; [auto with word_db..|]. intros i Hi. rewrite tb_shr, !tb_shl_1 by lia.
      destruct (Nat.eqb_spec (i + 1) (pos - p)), (Nat.eqb_spec i (pos - S p)); lia || done. }
  intros [m p] [[H1 ->] H2]. rewrite Hc in H2 by lia. apply negb_false_iff, Nat.eqb_eq in H2. rewrite H2. f_equal. lia.
Qed.

Lemma bit_at_set l i b j : i < length l -> bit_at (<[i := b]> l) j = if j =? i then b else bit_at l j.
Proof. apply bit_at_insert. Qed.

(** The masks of two vectors that differ at one place. *)
Lemma edge_mask_ok n cur prev l0 out pos b :
  n <= 30 -> length l0 = n -> pos < n -> bit4_z2x (bit_at l0 pos) <> bit4_z2x b ->
  shows prev l0 -> shows cur (<[pos := b]> l0 ++ [out]) ->
  (mask0 cur .^ mask0 prev .| maskx cur .^ maskx prev .| mask1 cur .^ mask1 prev) .& ~~ (w_max << n) = 1 << pos.
Proof.
  intros Hn Hl Hpos Hne Hp Hc. pose proof (fun v => shows_ok _ _ v Hp) as Wp. pose proof (fun v => shows_ok _ _ v Hc) as Wc.
  assert (forall v i, v <> BIT4_Z -> i < n ->
    xorb (tb (mask_of v cur) i) (tb (mask_of v prev) i) = (i =? pos) && xorb (bit4_eqb v (bit4_z2x b)) (bit4_eqb v (bit4_z2x (bit_at l0 pos)))) as Hx.
  { intros v i Hv Hi. rewrite (shows_bit prev l0), (shows_bit cur _ v i Hc) by (done || (rewrite ?length_app, ?length_insert; cbn; lia)).
    rewrite bit_at_app, length_insert, (proj2 (Nat.ltb_lt i _)), bit_at_set by lia. destruct (Nat.eqb_spec i pos) as [->|]; [done|apply xorb_nilpotent]. }
  apply tb_ext; [|auto with word_db|].
  - pose proof (Wp BIT4_0); pose proof (Wp BIT4_1); pose proof (Wp BIT4_X); pose proof (Wc BIT4_0); pose proof (Wc BIT4_1); pose proof (Wc BIT4_X). cbn [mask_of] in *.
    apply word_ok_land; [|apply word_ok_not]. assert (forall x y, word_ok x -> word_ok y -> word_ok (x .^ y)) as Hxor.
    { intros x y X Y. apply word_ok_bits; [apply Z.lxor_nonneg; split; intros; [apply Y|apply X]|]. intros i Hi. by rewrite tb_lxor, !tb_high. }
    apply word_ok_lor; [apply word_ok_lor|]; by apply Hxor.
  - intros i Hi. rewrite tb_land, tb_not, tb_shl, tb_max, tb_shl_1, !tb_lor, !tb_lxor by lia. rewrite (proj2 (Nat.ltb_lt i 64)) by done. cbn [andb].
    pose proof (Hx BIT4_0 i ltac:(done)) as X0. pose proof (Hx BIT4_1 i ltac:(done)) as X1. pose proof (Hx BIT4_X i ltac:(done)) as X2. cbn [mask_of] in *.
    destruct (Nat.leb_spec n i) as [Hge|Hlt].
    + rewrite (proj2 (Nat.ltb_lt _ 64)), (proj2 (Nat.eqb_neq i pos)) by lia. by rewrite andb_false_r.
    + rewrite X0, X1, X2 by done. cbn [andb negb]. rewrite andb_true_r. destruct (i =? pos); [|done]. cbn [andb].
      destruct (bit4_z2x b), (bit4_z2x (bit_at l0 pos)); done.
Qed.

Section lookup.

Context (ports : nat) (tab : list row) (u : vvp_udp_seq_s).
Context (Hports : ports <= 30) (Hu : seq_ports u = ports).
Context (Hlevels : forall o, levels_ok ports tab (levels_ u) o) (Hedges : forall o, o <> OUTX -> edges_ok ports tab (edges_ u) o).
Context (l0 : list vvp_bit4_t) (out : vvp_bit4_t) (pos : nat) (b : vvp_bit4_t) (cur prev : udp_levels_table).
Context (Hl : length l0 = ports) (Hpos : pos < ports) (Hout : out <> BIT4_Z).
Context (Hprev : shows prev l0) (Hcur : shows cur (<[pos := b]> l0)).

Lemma cur_out_shows : shows (or_bit out (1 << ports) cur) (<[pos := b]> l0 ++ [out]).
Proof. apply shows_out; [done|by rewrite length_insert|lia]. Qed.

Lemma test_levels_ok : test_levels_ u (or_bit out (1 << ports) cur) =
  Some (let fits o := existsb (fun r => has_out (ports + 1) o r && level_fits (ports + 1) r (out :: <[pos := b]> l0)) tab in
    if fits OUT0 then BIT4_0 else if fits OUT1 then BIT4_1 else if fits OUTX then BIT4_X else if fits OUTL then out else BIT4_Z).
Proof.
  unfold test_levels_. assert (forall o, existsb (row_match (or_bit out (1 << ports) cur)) (levels_ u o) =
    existsb (fun r => has_out (ports + 1) o r && level_fits (ports + 1) r (out :: <[pos := b]> l0)) tab) as H.
  { intros o. apply (proj2 (Hlevels o) (or_bit out (1 << ports) cur, <[pos := b]> l0, out)). split; [by rewrite length_insert|apply cur_out_shows]. }
  rewrite !H. rewrite (no_change_ok u _ (<[pos := b]> l0) out) by (rewrite ?length_insert, ?Hu; done || apply cur_out_shows).
  cbv zeta. by repeat destruct (existsb _ tab).
Qed.

Lemma test_edges_ok : bit4_z2x (bit_at l0 pos) <> bit4_z2x b -> test_edges_ u (or_bit out (1 << ports) cur) prev =
  Some (let edge o := existsb (fun r => has_out (ports + 1) o r && edge_fits ports r out (<[pos := b]> l0) pos (bit_at l0 pos)) tab in
    if edge OUT0 then BIT4_0 else if edge OUT1 then BIT4_1 else if edge OUTL then out else BIT4_X).
Proof.
  intros Hne. unfold test_edges_. rewrite Hu, (edge_mask_ok ports _ prev l0 out pos b) by (done || apply cur_out_shows).
  assert ((1 << pos =? 0)%Z = false) as ->.
  { apply not_true_iff_false. rewrite Z.eqb_eq. intros E. assert (tb (1 << pos) pos = false) as Ht by (rewrite E; apply tb_0).
    by rewrite tb_shl_1, Nat.eqb_refl in Ht by lia. }
  destruct (find_edge pos ltac:(lia)) as (r & -> & ->). cbn [mbind option_bind]. change (assert_ (1 =? 1)%Z) with (Some tt). cbn [mbind option_bind]. cbv zeta.
  assert (forall v, v <> BIT4_Z -> negb (mask_of v prev .& (1 << pos) =? 0)%Z = bit4_eqb v (bit4_z2x (bit_at l0 pos))) as He.
  { intros v Hv. rewrite land_one_shl by (try lia; by apply (shows_ok prev l0)). rewrite negb_involutive. apply shows_bit; [done..|lia]. }
  pose proof (He BIT4_0 ltac:(done)) as E0. pose proof (He BIT4_1 ltac:(done)) as E1. pose proof (He BIT4_X ltac:(done)) as Ex. cbn [mask_of] in E0, E1, Ex.
  rewrite E0, E1, Ex.
  assert (forall o, o <> OUTX -> existsb (edge_match pos (bit4_eqb BIT4_0 (bit4_z2x (bit_at l0 pos))) (bit4_eqb BIT4_X (bit4_z2x (bit_at l0 pos)))
    (bit4_eqb BIT4_1 (bit4_z2x (bit_at l0 pos))) (or_bit out (1 << ports) cur)) (edges_ u o) =
    existsb (fun r => has_out (ports + 1) o r && edge_fits ports r out (<[pos := b]> l0) pos (bit_at l0 pos)) tab) as H.
  { intros o Hox. apply (proj2 (Hedges o Hox) (or_bit out (1 << ports) cur, <[pos := b]> l0, out, pos, bit_at l0 pos)).
    split; [by rewrite length_insert|]. split; [apply cur_out_shows|done]. }
  rewrite !H by done. rewrite (no_change_ok u _ (<[pos := b]> l0) out) by (rewrite ?length_insert, ?Hu; done || apply cur_out_shows).
  by repeat destruct (existsb _ tab).
Qed.

Lemma seq_output_ok : seq_output u cur prev out = Some (next_output true ports tab out l0 pos b).
Proof.
  unfold seq_output, next_output.
  assert (levels_eqb cur prev = bit4_eqb (bit4_z2x (bit_at l0 pos)) (bit4_z2x b)) as ->.
  { apply eq_iff_eq_true. rewrite (shows_eq _ _ _ _ Hcur Hprev) by (by rewrite length_insert). rewrite length_insert, Hl. split.
    - intros H. specialize (H pos Hpos). rewrite bit_at_set, Nat.eqb_refl in H by lia. rewrite H. by destruct (bit_at l0 pos).
    - intros H i Hi. rewrite bit_at_set by lia. destruct (Nat.eqb_spec i pos) as [->|]; [|done].
      by destruct (bit4_z2x (bit_at l0 pos)), (bit4_z2x b). }
  destruct (bit4_eqb _ _) eqn:E; [done|]. rewrite Hu, test_levels_ok. cbn [mbind option_bind].
  assert (bit4_z2x (bit_at l0 pos) <> bit4_z2x b) as Hne by (intros H; rewrite H in E; by destruct (bit4_z2x b)).
  unfold seq_meaning. cbv zeta. destruct (existsb _ tab); [done|]. destruct (existsb _ tab); [done|]. destruct (existsb _ tab); [done|].
  destruct (existsb _ tab); [by destruct out|]. cbn [bit4_eqb]. by rewrite (test_edges_ok Hne).
Qed.

End lookup.

(** *** The instance *)

Definition set_input (b : vvp_bit4_t) (mask : Z) (prev : udp_levels_table) : udp_levels_table :=
  match b with
  | BIT4_0 => mk_levels (mask0 prev .| mask) (mask1 prev .& ~~ mask) (maskx prev .& ~~ mask)
  | BIT4_1 => mk_levels (mask0 prev .& ~~ mask) (mask1 prev .| mask) (maskx prev .& ~~ mask)
  | _ => mk_levels (mask0 prev .& ~~ mask) (mask1 prev .& ~~ mask) (maskx prev .| mask)
  end.

Lemma set_input_shows prev l port b : shows prev l -> port < length l -> length l <= 63 -> shows (set_input b (1 << port) prev) (<[port := b]> l).
Proof.
  intros Hs Hp Hl. pose proof Hs as [(H0 & H1 & Hx) _]. assert (word_ok (1 << port)) as Hw by auto with word_db.
  split.
  { destruct b; split_and!; cbn; first [by apply word_ok_lor|apply word_ok_land; [done|apply word_ok_not]]. }
  intros v i Hv. rewrite length_insert.
  assert (tb (mask_of v (set_input b (1 << port) prev)) i = if i =? port then bit4_eqb v (bit4_z2x b) else tb (mask_of v prev) i) as ->.
  { assert (forall m, word_ok m -> tb (m .| (1 << port)) i = if i =? port then true else tb m i) as Hor.
    { intros m Hm. rewrite tb_lor, tb_shl_1 by lia. destruct (i =? port); [apply orb_true_r|apply orb_false_r]. }
    assert (forall m, word_ok m -> tb (m .& ~~ (1 << port)) i = if i =? port then false else tb m i) as Hand.
    { intros m Hm. rewrite tb_land, tb_not, tb_shl_1 by lia. destruct (Nat.eqb_spec i port) as [->|]; [by rewrite !andb_false_r|].
      rewrite andb_true_r. destruct (Nat.ltb_spec i 64); [apply andb_true_r|]. rewrite tb_high by (done || lia). done. }
    destruct b, v; try done; cbn [mask_of set_input mask0 mask1 maskx]; rewrite ?Hor, ?Hand by done; done. }
  destruct (Nat.lt_ge_cases i (length l)) as [Hi|Hi].
  - rewrite (proj2 (Nat.ltb_lt _ _)), bit_at_set by done. destruct (i =? port); [done|]. by apply shows_bit.
  - rewrite (proj2 (Nat.ltb_ge _ _)) by done. rewrite (proj2 (Nat.eqb_neq i port)) by lia. by apply (shows_beyond prev l).
Qed.

Lemma start_shows ports : ports <= 63 -> shows (mk_levels 0 0 (~~ (w_max << ports))) (replicate ports BIT4_X).
Proof.
  intros Hp. split; [split_and!; cbn; [apply word_ok_0|apply word_ok_0|apply word_ok_not]|].
  intros v i Hv. rewrite length_replicate. destruct (Nat.ltb_spec i ports) as [Hi|Hi].
  - rewrite bit_at_replicate by done. destruct v; try done; cbn [mask_of mask0 mask1 maskx]; [by rewrite tb_0..|].
    rewrite tb_not, tb_shl, (proj2 (Nat.ltb_lt i 64)), (proj2 (Nat.leb_gt ports i)) by lia. done.
  - destruct v; try done; cbn [mask_of mask0 mask1 maskx]; [by rewrite tb_0..|].
    rewrite tb_not, tb_shl, tb_max, (proj2 (Nat.leb_le ports i)) by lia. destruct (Nat.ltb_spec i 64); [|done].
    by rewrite (proj2 (Nat.ltb_lt (i - ports) 64)) by lia.
Qed.

Lemma next_output_not_z seq ports tab out l pos b : out <> BIT4_Z -> next_output seq ports tab out l pos b <> BIT4_Z.
Proof.
  intros H. unfold next_output, seq_meaning, comb_meaning. cbv zeta. destruct seq; [destruct (bit4_eqb _ _); [done|]|]; by repeat destruct (existsb _ tab).
Qed.

(** What the compiled definition promises to an instance. *)
Definition follows (seq : bool) (ports : nat) (tab : list row) (d : vvp_udp_s) : Prop :=
  port_count d = ports /\ forall l0 out pos b cur prev, length l0 = ports -> pos < ports -> out <> BIT4_Z ->
    shows prev l0 -> shows cur (<[pos := b]> l0) -> calculate_output d cur prev out = Some (next_output seq ports tab out l0 pos b).

Lemma compile_follows seq ports init tab :
  table_rows_ok seq ports tab ->
  returns (compile_udp_def seq ports init tab) (fun d => get_init d = snd (meaning_start seq ports init) /\ follows seq ports tab d).
Proof.
  intros H. unfold compile_udp_def. destruct seq; destruct H as [Hp Htab].
  - eapply returns_bind; [by apply seq_compile_ok|]. intros u [Hu Hinv]. apply returns_ret. split; [done|]. split; [done|].
    intros l0 out pos b cur prev Hl Hpos Hout Hprev Hcur. apply (seq_output_ok ports tab u); try done; intros o; apply Hinv.
  - eapply returns_bind; [apply comb_compile_ok; [lia|done]|]. intros u [Hu Hinv]. apply returns_ret. split; [done|]. split; [done|].
    intros l0 out pos b cur prev Hl Hpos Hout Hprev Hcur. cbn. f_equal. apply Hinv; [by rewrite length_insert|done].
Qed.

Definition inst_inv (d : vvp_udp_s) (ports : nat) (s : list vvp_bit4_t * vvp_bit4_t) (i : instance) : Prop :=
  def_ (core i) = d /\ cur_out_ (core i) = snd s /\ snd s <> BIT4_Z /\ length (fst s) = ports /\ shows (current_ (core i)) (fst s) /\
  (pending i = 0 -> exists v, last (sent i) = Some v /\ bits v = [snd s]).

Lemma act_ok d seq ports tab s a i :
  ports <= 63 -> follows seq ports tab d -> inst_inv d ports s i -> action_ok ports a ->
  returns (act a i) (inst_inv d ports (meaning_act seq ports tab s a)).
Proof.
  intros Hp [Hd Hf] (I1 & I2 & I3 & I4 & I5 & I6) Ha. destruct a as [port bit|]; cbn [act meaning_act].
  - destruct Ha as (Hport & Hwf & Hsz). unfold recv_vec4_from_inputs. rewrite I1, I2, Hd.
    eapply returns_bind with (Q := fun '(c, sch) => def_ c = d /\ cur_out_ c = next_output seq ports tab (snd s) (fst s) port (value bit 0) /\
      shows (current_ c) (<[port := value bit 0]> (fst s)) /\ (sch = false -> cur_out_ c = snd s)).
    + apply returns_assert; [by apply Nat.ltb_lt|]. apply returns_assert; [by apply Nat.eqb_eq|]. cbv zeta. fold (set_input (value bit 0) (1 << port) (current_ (core i))).
      assert (shows (set_input (value bit 0) (1 << port) (current_ (core i))) (<[port := value bit 0]> (fst s))) as Hs by (apply set_input_shows; [done|lia..]).
      rewrite (Hf (fst s) (snd s) port (value bit 0)) by done. cbn [mbind option_bind].
      destruct (bit4_eqb_spec (next_output seq ports tab (snd s) (fst s) port (value bit 0)) (snd s)) as [Heq|]; apply returns_ret; (split; [done|]);
        [|split; [done|]; split; [done|discriminate]].
      by rewrite Heq.
    + intros [c sch] (C1 & C2 & C3 & C4). apply returns_ret. split; [done|]. split; [done|]. split; [by apply next_output_not_z|].
      split; [cbn [fst]; by rewrite length_insert|]. split; [done|]. cbn [pending sent fst snd]. destruct sch; [done|]. intros H. rewrite <- C2, C4 by done. auto.
  - destruct (pending i) as [|n] eqn:En; [apply returns_ret; split_and!; try done; by rewrite En|].
    unfold core_run_run. eapply returns_bind; [apply (rep4_set_bit _ [BIT4_X] 0 (cur_out_ (core i))); [apply (rep4_fill 1)|cbn; lia]|].
    intros v Hv. apply returns_ret. split_and!; try done. intros _. exists v. cbn [sent]. rewrite last_snoc. split; [done|]. by rewrite (proj2 Hv), I2.
Qed.

(** C15: An instance of a primitive whose table is one that Verilog allows follows
    the rows of the table: the table compiles, and after any sequence of inputs and
    runs of its scheduled events the output is that of the rows, read character by
    character (levels before edges, x where no row fits); when no event is pending
    the last vector sent holds that output. *)
Theorem udp_follows_table seq ports init tab l :
  table_rows_ok seq ports tab -> Forall (action_ok ports) l ->
  returns (d ← compile_udp_def seq ports init tab; acts l (instance_make d)) (fun i =>
    let s := fold_left (meaning_act seq ports tab) l (meaning_start seq ports init) in
    cur_out_ (core i) = snd s /\ shows (current_ (core i)) (fst s) /\
    (pending i = 0 -> exists v, last (sent i) = Some v /\ bits v = [snd s])).
Proof.
  intros Htab Hl. assert (ports <= 63) as Hp by (destruct seq, Htab; lia).
  eapply returns_bind; [by apply compile_follows|]. intros d [Hinit Hd].
  assert (inst_inv d ports (meaning_start seq ports init) (instance_make d)) as Hinv.
  { split; [done|]. split; [done|]. split; [destruct seq; [by destruct init as [|[|]]|done]|]. split; [apply length_replicate|].
    split; [|done]. cbn [core instance_make core_make current_ fst meaning_start]. rewrite (proj1 Hd). by apply start_shows. }
  assert (forall s i, inst_inv d ports s i -> returns (acts l i) (inst_inv d ports (fold_left (meaning_act seq ports tab) l s))) as Hacts.
  { induction Hl as [|a l Ha Hl IH]; intros s i Hi; cbn [acts fold_left]; [by apply returns_ret|].
    eapply returns_bind; [by apply (act_ok d seq ports tab s)|]. intros i' Hi'. by apply IH. }
  eapply returns_mono; [by apply Hacts|]. intros i (_ & H1 & _ & _ & H2 & H3). done.
Qed.

(** A D flip-flop: the rows of the table are [out d clk : next]. *)
Definition dff_table : list row := map row_of ["?0r0"; "?1r1"; "??n-"; "?*?-"]%string.

Lemma udp_follows_table_witness :
  returns (d ← compile_udp_def true 2 2 dff_table;
    acts [input 0 (mk_vector4 1 [1%Z] [0%Z]); input 1 (mk_vector4 1 [0%Z] [0%Z]); run_event; input 1 (mk_vector4 1 [1%Z] [0%Z]); run_event] (instance_make d))
    (fun i => cur_out_ (core i) = BIT4_1).
Proof.
  eapply returns_mono; [apply (udp_follows_table true 2 2 dff_table)|].
  - split; [lia|]. by vm_compute.
  - assert (forall x, (x =? 0)%Z || (x =? 1)%Z = true -> wf4 (mk_vector4 1 [x] [0%Z])) as Hwf.
    { intros x Hx. apply wf4_short; [lia|unfold word_ok..]; [|lia]. apply orb_true_iff in Hx as [Hx|Hx]; apply Z.eqb_eq in Hx; lia. }
    repeat apply Forall_cons_2; try done; cbn [action_ok]; (split; [lia|]); (split; [by apply Hwf|done]).
  - intros i (H & _). rewrite H. by vm_compute.
Defined.

(** ** What the code does outside of the theorem *)

(** [edge_based_on_char] shifts an [int]: with more than 31 inputs the masks of a
    row with an edge are wrong.  The row says that a rising edge of input 0 gives
    1 when input 31 is 0 and input 32 is 1. *)
Definition wide_table : list row := [row_of ("?r" ++ String.concat EmptyString (repeat "?" 30) ++ "011")%string].

Example wide_edge_row :
  let ins := replicate 32 BIT4_0 ++ [BIT4_1] in
  next_output true 33 wide_table BIT4_X ins 0 BIT4_1 = BIT4_1 /\
  (u ← seq_compile 33 wide_table;
   seq_output u (mk_levels (w_mask 32 - 1) (2 ^ 32 + 1) 0) (mk_levels (w_mask 32) (2 ^ 32) 0) BIT4_X) = Some BIT4_X.
Proof. split; by vm_compute. Qed.

(** The table of a combinational primitive may have 64 inputs, but then the shift
    of the constructor of an instance is by 64: on x86-64 the inputs are not x at
    first, they fit every character. *)
Definition zeros_table : list row := [row_of (String.concat EmptyString (repeat "0" 64) ++ "1")%string].

Example inputs_64 :
  comb_meaning 64 zeros_table (BIT4_0 :: replicate 63 BIT4_X) = BIT4_X /\
  ('(c, _) ← (d ← compile_udp_def false 64 0 zeros_table; recv_vec4_from_inputs 0 (mk_vector4 1 [0%Z] [0%Z]) (core_make d));
   Some (cur_out_ c)) = Some BIT4_1.
Proof. split; by vm_compute. Qed.
