(* ===== verification/Verinum.v ===== *)
(** * The numbers of the compiler ([ivl/verinum.h], [ivl/verinum.cc])

    A [verinum] is a constant of the program being compiled: an array of
    four-valued bits, least significant first, with the flags that say whether its
    width was given, whether it is signed, whether it is one of ['0], ['1], ['x],
    ['z], and whether it was written as a string.  The operators fold constant
    expressions.

    - [get], [set], the constructors, the conversions to native integers and to
      strings, [pad_to_width], [cast_to_width] and [trim_vnum] are the functions
      of the source on a record; an [assert] that fails, an index outside of the
      array and a native division by 0 are [None];
    - [num] is the number a defined constant stands for, signed or not;
      [int_cast s n] brings a number to [n] bits.

    The theorems: the operators compute on defined operands what they compute on
    numbers ([verinum_arithmetic], [verinum_compares], [verinum_divides],
    [verinum_powers]), changing the width keeps the number ([verinum_widths]), a
    string can be printed and read back ([string_constants]).

    An [unsigned] that holds a width is a [nat]: widths are below 2^32.  The
    constructor from a [double] and [as_double] are not modelled. *)

From Stdlib Require Import ZArith Lia Bool String Ascii.
From stdpp Require Import base numbers list.
From S2P Require Import Prelude Bit4 Words Vec4 Vec4Arith.

Open Scope nat_scope.

(** ** Definitions *)

(** [enum V]; [Vz] is the largest. *)
Inductive V : Set := V0 | V1 | Vx | Vz.

#[export] Instance V_eq_dec : EqDecision V.
Proof. solve_decision. Defined.

Definition V_int (v : V) : Z := match v with V0 => 0 | V1 => 1 | Vx => 2 | Vz => 3 end.

Definition V_eqb (a b : V) : bool := (V_int a =? V_int b)%Z.

(** The [operator ~], [|], [&] and [^] on bits, and [bit4_z2x]. *)
Definition V_z2x (bit : V) : V := if (V_int bit <? 2)%Z then bit else Vx.

Definition V_not (l : V) : V := match l with V0 => V1 | V1 => V0 | _ => Vx end.

Definition V_or (l r : V) : V :=
  if V_eqb l V1 then V1 else if V_eqb r V1 then V1
  else if negb (V_eqb l V0) then Vx else if negb (V_eqb r V0) then Vx else V0.

Definition V_and (l r : V) : V :=
  if V_eqb l V0 then V0 else if V_eqb r V0 then V0
  else if negb (V_eqb l V1) then Vx else if negb (V_eqb r V1) then Vx else V1.

Definition V_xor (l r : V) : V :=
  if V_eqb l V0 then V_z2x r else if V_eqb r V0 then V_z2x l
  else if V_eqb l V1 && V_eqb r V1 then V0 else Vx.

(** [add_with_carry(l, r, c)]: the sum bit and the new [c]. *)
Definition V_add_with_carry (l r c : V) : V * V :=
  match c, l, r with
  | (Vx | Vz), _, _ | _, (Vx | Vz), _ | _, _, (Vx | Vz) => (Vx, Vx)
  | _, _, _ =>
      let sum := (V_int c + V_int l + V_int r)%Z in
      (if Z.testbit sum 0 then V1 else V0, if Z.testbit sum 1 then V1 else V0)
  end.

(** The object: [nbits_] is the length of the array. *)
Record verinum : Set := mk_verinum {
  bits_ : list V;
  has_len_ : bool;
  has_sign_ : bool;
  is_single_ : bool;
  string_flag_ : bool
}.

Definition nbits_ (v : verinum) : nat := length (bits_ v).

(** The setters [has_len(flag)] and [has_sign(flag)], and [bits_[idx] = val]. *)
Definition with_len (v : verinum) (flag : bool) : verinum :=
  mk_verinum (bits_ v) flag (has_sign_ v) (is_single_ v) (string_flag_ v).

Definition with_sign (v : verinum) (flag : bool) : verinum :=
  mk_verinum (bits_ v) (has_len_ v) flag (is_single_ v) (string_flag_ v).

Definition with_bits (v : verinum) (bits : list V) : verinum :=
  mk_verinum bits (has_len_ v) (has_sign_ v) (is_single_ v) (string_flag_ v).

(** *** Access *)

Definition get (v : verinum) (idx : nat) : option V := bits_ v !! idx.

Definition set (v : verinum) (idx : nat) (val : V) : option verinum :=
  _ ← assert_ (idx <? nbits_ v);
  Some (with_bits v (<[idx := val]> (bits_ v))).

Definition set_part (v : verinum) (off : nat) (val : verinum) : option verinum :=
  _ ← assert_ (off + nbits_ val <=? nbits_ v);
  for_ 0 (nbits_ val) (fun idx v => b ← get val idx; set v (off + idx) b) v.

Definition is_defined (v : verinum) : bool :=
  forallb (fun b => negb (V_eqb b Vx) && negb (V_eqb b Vz)) (bits_ v).

Definition is_zero (v : verinum) : bool := forallb (fun b => V_eqb b V0) (bits_ v).

Definition is_negative (v : verinum) : option bool :=
  top ← get v (nbits_ v - 1);
  Some (V_eqb top V1 && has_sign_ v).

(** [is_before]: shorter first, then the highest bit that differs. *)
Fixpoint before_loop (a b : list V) (idx : nat) : bool :=
  match idx with
  | O => false
  | S i =>
      let x := V_int (nth i a V0) in
      let y := V_int (nth i b V0) in
      if (x <? y)%Z then true else if (y <? x)%Z then false else before_loop a b i
  end.

Definition is_before (v that : verinum) : bool :=
  if nbits_ v <? nbits_ that then true
  else if nbits_ that <? nbits_ v then false
  else before_loop (bits_ v) (bits_ that) (nbits_ v).

(** [while (top > 0 && p(top)) top -= 1] *)
Fixpoint scan_down (p : nat -> bool) (top : nat) : nat :=
  match top with
  | O => O
  | S t => if p top then scan_down p t else top
  end.

Definition bit_is (v : verinum) (x : V) (idx : nat) : bool :=
  match get v idx with Some b => V_eqb b x | None => false end.

Definition significant_bits (v : verinum) : option nat :=
  let sbits := nbits_ v in
  if has_sign_ v
  then sign_bit ← get v (sbits - 1); Some (S (scan_down (fun t => bit_is v sign_bit (t - 1)) (sbits - 1)))
  else if 1 <? sbits then Some (S (scan_down (bit_is v V0) (sbits - 1)))
  else Some sbits.

Definition cast_to_int2 (v : verinum) : verinum :=
  with_bits v (map (fun b => if V_eqb b Vx || V_eqb b Vz then V0 else b) (bits_ v)).

Definition sign_bit (val : verinum) : option V :=
  if has_sign_ val then get val (nbits_ val - 1) else Some V0.

(** *** Constructors *)

Definition verinum_empty : verinum := mk_verinum [] false false false false.

Definition verinum_of_bits (bits : list V) (has_len : bool) : verinum :=
  mk_verinum bits has_len false false false.

Definition verinum_fill (val : V) (n : nat) (h : bool) : verinum :=
  mk_verinum (replicate n val) h false false false.

(** [for (idx = 0; idx < n; idx += 1) { bits[idx] = (val & 1) ? V1 : V0; val >>= 1; }] *)
Fixpoint native_bits (n : nat) (val : Z) : list V :=
  match n with
  | O => []
  | S n' => (if (Z.land val 1 =? 0)%Z then V0 else V1) :: native_bits n' (Z.shiftr val 1)
  end.

Definition verinum_of_uint64 (val : Z) (n : nat) : verinum :=
  mk_verinum (native_bits n val) true false false false.

(** [verinum(const verinum&that, unsigned nbits)] *)
Definition verinum_copy (that : verinum) (nbits : nat) : option verinum :=
  let copy := Nat.min nbits (nbits_ that) in
  let bits := take copy (bits_ that) in
  bits ← (if copy <? nbits then
            for_ copy (nbits - copy) (fun idx (bits : list V) =>
              if has_sign_ that || is_single_ that
              then b ← bits !! (idx - 1); Some (bits ++ [b])
              else Some (bits ++ [V0])) bits
          else Some bits);
  Some (mk_verinum bits true (has_sign_ that) false (string_flag_ that && (nbits_ that =? nbits))).

(** [verinum(int64_t that)]: the width is counted by halving; 64 rounds are
    enough for an [int64_t]. *)
Fixpoint count_halves (fuel : nat) (tmp : Z) (nbits : nat) : option nat :=
  if (tmp =? 0)%Z then Some nbits
  else match fuel with
       | O => None
       | S fuel => count_halves fuel (Z.quot tmp 2) (S nbits)
       end.

Definition verinum_of_int64 (that : Z) : option verinum :=
  let tmp := if (that <? 0)%Z then Z.quot (that + 1) 2 else Z.quot that 2 in
  nbits ← count_halves 64 tmp 1;
  Some (mk_verinum (native_bits (S nbits) that) false true false false).

(** *** Native integers *)

(** [as_unsigned], [as_ulong] and [as_ulong64] for an unsigned type of [w] bits. *)
Fixpoint as_uint_loop (w : nat) (bits : list V) (val mask : Z) : Z :=
  match bits with
  | [] => val
  | b :: bits =>
      let next := (Z.shiftl mask 1 mod 2 ^ Z.of_nat w)%Z in
      if V_eqb b V1
      then if (mask =? 0)%Z then Z.ones (Z.of_nat w) else as_uint_loop w bits (Z.lor val mask) next
      else as_uint_loop w bits val next
  end.

Definition as_uint (w : nat) (v : verinum) : Z :=
  if nbits_ v =? 0 then 0%Z
  else if negb (is_defined v) then 0%Z
  else as_uint_loop w (bits_ v) 0 1.

Definition as_unsigned : verinum -> Z := as_uint 32.
Definition as_ulong : verinum -> Z := as_uint 64.
Definition as_ulong64 : verinum -> Z := as_uint 64.

(** [as_long]: at most [IVLLBITS] = 63 bits and the sign are used; the masks that
    are used are those of 63 bits. *)
Fixpoint clear_loop (bits : list V) (val mask : Z) : Z :=
  match bits with
  | [] => val
  | b :: bits =>
      clear_loop bits (if V_eqb b V0 then Z.land val mask else val) (Z.lor (Z.shiftl mask 1) 1)
  end.

Fixpoint set_loop (bits : list V) (val mask : Z) : Z :=
  match bits with
  | [] => val
  | b :: bits => set_loop bits (if V_eqb b V1 then Z.lor val mask else val) (Z.shiftl mask 1)
  end.

Definition IVLLBITS : nat := 63.

Definition as_long (v : verinum) : Z :=
  if nbits_ v =? 0 then 0%Z
  else if negb (is_defined v) then 0%Z
  else
    let top := take IVLLBITS (bits_ v) in
    if has_sign_ v && bit_is v V1 (nbits_ v - 1)
    then clear_loop top (-1) (Z.lnot 1)
    else set_loop top 0 1.

(** *** Strings *)

Definition char_int (c : ascii) : Z := Z.of_nat (nat_of_ascii c).

Definition char_of (n : Z) : ascii := ascii_of_nat (Z.to_nat (n mod 256)).

Definition is_octal (c : ascii) : bool := ((char_int "0" <=? char_int c) && (char_int c <=? char_int "7"))%Z.

(** The digits of [\ooo]: [odx] digits may still follow. *)
Fixpoint octal_loop (odx : nat) (byte_val : Z) (str : list ascii) : Z * list ascii :=
  match odx, str with
  | S odx, c :: rest =>
      if is_octal c
      then octal_loop odx ((8 * byte_val + char_int c - char_int "0") mod 256)%Z rest
      else (byte_val, str)
  | _, _ => (byte_val, str)
  end.

(** [process_verilog_string_quotes]; the fuel bounds the length of the string. *)
Fixpoint process_quotes (fuel : nat) (str : list ascii) : option (list ascii) :=
  match fuel, str with
  | _, [] => Some []
  | O, _ => None
  | S fuel, c :: rest =>
      if (c =? "\")%char
      then match rest with
           | [] => None
           | e :: rest' =>
               if (e =? "n")%char then r ← process_quotes fuel rest'; Some (ascii_of_nat 10 :: r)
               else if (e =? "t")%char then r ← process_quotes fuel rest'; Some (ascii_of_nat 9 :: r)
               else if is_octal e
               then let '(byte_val, rest'') := octal_loop 3 0 rest in
                    r ← process_quotes fuel rest''; Some (char_of byte_val :: r)
               else r ← process_quotes fuel rest'; Some (e :: r)
           end
      else r ← process_quotes fuel rest; Some (c :: r)
  end.

Definition process_verilog_string_quotes (str : list ascii) : option (list ascii) :=
  process_quotes (length str) str.

(** The eight bits of a character, lowest first. *)
Definition char_bits (ch : ascii) : list V :=
  map (fun j => if (Z.land (char_int ch) (Z.shiftl 1 (Z.of_nat j)) =? 0)%Z then V0 else V1) (seq 0 8).

Definition verinum_of_string (s : list ascii) : option verinum :=
  str ← process_verilog_string_quotes s;
  Some (mk_verinum (if length str * 8 =? 0 then replicate 8 V0 else concat (map char_bits (rev str)))
          true false false true).

(** The byte [k] of the number, as [as_string] reads it. *)
Definition byte_at (v : verinum) (k : nat) : Z :=
  foldr (fun j char_val => if bit_is v V1 (8 * k + j) then Z.lor char_val (Z.shiftl 1 (Z.of_nat j)) else char_val)
    0%Z (seq 0 8).

(** [snprintf("\\%03o", c)] *)
Definition octal_escape (c : Z) : list ascii :=
  let digit d := ascii_of_nat (48 + Z.to_nat d) in
  ["\"%char; digit (c / 64 mod 8)%Z; digit (c / 8 mod 8)%Z; digit (c mod 8)%Z].

(** [isprint] in the C locale. *)
Definition isprint (c : Z) : bool := ((32 <=? c) && (c <=? 126))%Z.

Definition print_char (c : Z) : list ascii :=
  if ((c =? 34) || (c =? 92))%Z then octal_escape c
  else if isprint c then [char_of c]
  else octal_escape c.

Fixpoint as_string_loop (v : verinum) (n : nat) : list ascii :=
  match n with
  | O => []
  | S n => print_char (byte_at v n) ++ as_string_loop v n
  end.

Definition as_string (v : verinum) : option (list ascii) :=
  _ ← assert_ (nbits_ v `mod` 8 =? 0);
  Some (as_string_loop v (nbits_ v `div` 8)).

(** *** Changing the width *)

(** The bit [pad_to_width] and [cast_to_width] fill with. *)
Definition pad_bit (that : verinum) : option V :=
  pad ← get that (nbits_ that - 1);
  let unsigned_ := negb (has_sign_ that) && negb (is_single_ that) in
  let pad := if V_eqb pad V1 && unsigned_ then V0 else pad in
  Some (if has_len_ that && unsigned_ then (if V_eqb pad Vx || V_eqb pad Vz then V0 else pad) else pad).

(** [verinum val(pad, width, has_len)] with the bits of [that] copied in. *)
Definition padded (that : verinum) (pad : V) (width : nat) (has_len : bool) : option verinum :=
  val ← for_ 0 (nbits_ that) (fun idx val => b ← get that idx; set val idx b) (verinum_fill pad width has_len);
  Some (with_sign val (has_sign_ that)).

Definition pad_to_width (that : verinum) (width : nat) : option verinum :=
  if width <=? nbits_ that then Some that
  else if nbits_ that =? 0
  then Some (with_sign (verinum_fill V0 width (has_len_ that)) (has_sign_ that))
  else
    pad ← pad_bit that;
    val ← padded that pad width (has_len_ that);
    if string_flag_ that && (width `mod` 8 =? 0)
    then str ← as_string val; verinum_of_string str
    else Some val.

Definition cast_to_width (that : verinum) (width : nat) : option verinum :=
  if has_len_ that && (nbits_ that =? width) then Some that
  else if width <=? nbits_ that then verinum_copy that width
  else if nbits_ that =? 0
  then Some (with_sign (verinum_fill V0 width true) (has_sign_ that))
  else pad ← pad_bit that; padded that pad width true.

(** The copy at the end of [trim_vnum]. *)
Definition trimmed (that : verinum) (tlen : nat) : option verinum :=
  let tmp := with_sign (verinum_fill V0 tlen false) (has_sign_ that) in
  for_ 0 (nbits_ tmp) (fun idx tmp => b ← get that idx; set tmp idx b) tmp.

Definition trim_vnum (that : verinum) : option verinum :=
  if has_len_ that then Some that
  else if nbits_ that <? 2 then Some that
  else if has_sign_ that then
    sign ← get that (nbits_ that - 1);
    let top := scan_down (bit_is that sign) (nbits_ that - 1) in
    let top := if negb (bit_is that sign top) then top + 1 else top in
    trimmed that (top + 1)
  else
    let top := scan_down (bit_is that V0) (nbits_ that - 1) in
    if top + 1 =? nbits_ that then Some that
    else trimmed that (if bit_is that V0 top then top + 2 - 1 else top + 2).

(** [signed_trim], of the constructor from a [double]. *)
Definition signed_trim (v : verinum) : option verinum :=
  sign ← get v (nbits_ v - 1);
  let tlen := scan_down (bit_is v sign) (nbits_ v - 1) in
  let tlen := if negb (bit_is v sign tlen) then tlen + 1 else tlen in
  let tlen := tlen + 1 in
  Some (if tlen <? nbits_ v then with_bits v (take tlen (bits_ v)) else v).

(** *** Comparisons *)

Fixpoint eq_loop (left right : verinum) (left_pad right_pad : V) (n idx : nat) : option V :=
  match n with
  | O => Some V1
  | S n =>
      left_bit ← (if idx <? nbits_ left then get left idx else Some left_pad);
      right_bit ← (if idx <? nbits_ right then get right idx else Some right_pad);
      if negb (V_eqb left_bit right_bit) then Some V0
      else eq_loop left right left_pad right_pad n (S idx)
  end.

(** The sign bits of both operands when both are signed. *)
Definition pads (left right : verinum) : option (V * V) :=
  if has_sign_ left && has_sign_ right
  then l ← get left (nbits_ left - 1); r ← get right (nbits_ right - 1); Some (l, r)
  else Some (V0, V0).

Definition V_opposite (l r : V) : bool := V_eqb l V1 && V_eqb r V0.

Definition verinum_eq (left right : verinum) : option V :=
  '(left_pad, right_pad) ← pads left right;
  if V_opposite left_pad right_pad then Some V0
  else if V_opposite right_pad left_pad then Some V0
  else eq_loop left right left_pad right_pad (Nat.max (nbits_ left) (nbits_ right)) 0.

(** [for (idx = lo + n; idx > lo; idx -= 1) if (v[idx-1] != pad) ...] *)
Fixpoint pad_differs (v : verinum) (pad : V) (n lo : nat) : option bool :=
  match n with
  | O => Some false
  | S n =>
      b ← get v (lo + n);
      if negb (V_eqb b pad) then Some true else pad_differs v pad n lo
  end.

(** The loop over the common bits; [out_if_equal] is returned at its end. *)
Fixpoint less_loop (left right : verinum) (out_if_equal : V) (idx : nat) : option V :=
  match idx with
  | O => Some out_if_equal
  | S i =>
      l ← get left i;
      r ← get right i;
      if V_eqb l Vx || V_eqb l Vz || V_eqb r Vx || V_eqb r Vz then Some Vx
      else if (V_int r <? V_int l)%Z then Some V0
      else if (V_int l <? V_int r)%Z then Some V1
      else less_loop left right out_if_equal i
  end.

(** [operator <=] and [operator <] differ in what they return on equal bits. *)
Definition verinum_less (out_if_equal : V) (left right : verinum) : option V :=
  let signed_calc := has_sign_ left && has_sign_ right in
  '(left_pad, right_pad) ← pads left right;
  if signed_calc && V_opposite left_pad right_pad then Some V1
  else if signed_calc && V_opposite right_pad left_pad then Some V0
  else
    longer ← pad_differs left right_pad (nbits_ left - nbits_ right) (nbits_ right);
    if longer : bool then Some (if signed_calc && V_eqb left_pad V1 then V1 else V0)
    else
      longer ← pad_differs right left_pad (nbits_ right - nbits_ left) (nbits_ left);
      if longer : bool then Some (if signed_calc && V_eqb right_pad V1 then V0 else V1)
      else less_loop left right out_if_equal (Nat.min (nbits_ left) (nbits_ right)).

Definition verinum_leeq : verinum -> verinum -> option V := verinum_less V1.
Definition verinum_lt : verinum -> verinum -> option V := verinum_less V0.

(** *** Addition and subtraction *)

Definition verinum_not (left : verinum) : verinum := with_bits left (map V_not (bits_ left)).

(** What the operators return when an operand is undefined. *)
Definition undefined (len : nat) (has_len_flag signed_flag : bool) : verinum :=
  with_sign (verinum_fill Vx len has_len_flag) signed_flag.

(** A loop that fills [val_bits] from [idx] on: [n] sums with the carry. *)
Definition sum_loop (l r : nat -> option V) (idx n : nat) : list V * V -> option (list V * V) :=
  for_ idx n (fun idx '(val_bits, carry) =>
    lb ← l idx; rb ← r idx;
    let '(s, carry) := V_add_with_carry lb rb carry in
    Some (val_bits ++ [s], carry)).

(** The loops of [operator +] and [operator -] up to the width of the longer
    operand: [val_bits], [lpad], [rpad] and [carry] at their end.  Subtraction adds
    the inverted bits of [right] and starts with a carry. *)
Definition sum_bits (inv : V -> V) (carry : V) (left right : verinum) : option (list V * V * V * V) :=
  let min_len := Nat.min (nbits_ left) (nbits_ right) in
  let max_len := Nat.max (nbits_ left) (nbits_ right) in
  st ← sum_loop (get left) (fun idx => inv <$> get right idx) 0 min_len ([], carry);
  rpad ← sign_bit right;
  lpad ← sign_bit left;
  '(val_bits, carry) ←
    (if nbits_ right <? nbits_ left
     then sum_loop (get left) (fun _ => Some (inv rpad)) min_len (max_len - min_len) st
     else sum_loop (fun _ => Some lpad) (fun idx => inv <$> get right idx) min_len (max_len - min_len) st);
  Some (val_bits, lpad, rpad, carry).

Definition verinum_add (left right : verinum) : option verinum :=
  let has_len_flag := has_len_ left && has_len_ right in
  let signed_flag := has_sign_ left && has_sign_ right in
  let max_len := Nat.max (nbits_ left) (nbits_ right) in
  if negb (is_defined left) || negb (is_defined right)
  then Some (undefined (if has_len_flag then max_len else 1) has_len_flag signed_flag)
  else
    '(val_bits, lpad, rpad, carry) ← sum_bits (fun b => b) V0 left right;
    if negb has_len_flag then
      let '(top, _) := V_add_with_carry lpad rpad carry in
      compare ← (if signed_flag then val_bits !! (max_len - 1) else Some V0);
      Some (with_sign (verinum_of_bits (if negb (V_eqb top compare) then val_bits ++ [top] else val_bits)
                         has_len_flag) signed_flag)
    else Some (with_sign (verinum_of_bits val_bits has_len_flag) signed_flag).

Definition verinum_sub (left right : verinum) : option verinum :=
  let has_len_flag := has_len_ left && has_len_ right in
  let signed_flag := has_sign_ left && has_sign_ right in
  let max_len := Nat.max (nbits_ left) (nbits_ right) in
  if negb (is_defined left) || negb (is_defined right)
  then Some (undefined (if has_len_flag then max_len else 1) has_len_flag signed_flag)
  else
    '(val_bits, lpad, rpad, carry) ← sum_bits V_not V1 left right;
    if signed_flag && negb has_len_flag then
      let '(top, _) := V_add_with_carry lpad (V_not rpad) carry in
      last ← val_bits !! (max_len - 1);
      Some (with_sign (verinum_of_bits (if negb (V_eqb top last) then val_bits ++ [top] else val_bits)
                         has_len_flag) signed_flag)
    else Some (with_sign (verinum_of_bits val_bits has_len_flag) signed_flag).

Definition verinum_neg (right : verinum) : option verinum :=
  let has_len_flag := has_len_ right in
  let signed_flag := has_sign_ right in
  let len := nbits_ right in
  if negb (is_defined right)
  then Some (undefined (if has_len_flag then len else 1) has_len_flag signed_flag)
  else
    '(val_bits, carry) ← sum_loop (fun _ => Some V0) (fun idx => V_not <$> get right idx) 0 len ([], V1);
    if signed_flag && negb has_len_flag then
      s ← sign_bit right;
      let '(top, _) := V_add_with_carry V0 (V_not s) carry in
      last ← val_bits !! (len - 1);
      Some (with_sign (verinum_of_bits (if negb (V_eqb top last) then val_bits ++ [top] else val_bits)
                         has_len_flag) signed_flag)
    else Some (with_sign (verinum_of_bits val_bits has_len_flag) signed_flag).

(** *** Multiplication and shifts *)

(** The inner loop of [operator *]: [left << rdx] is added to the result. *)
Definition mul_add (left : verinum) (l_sign : V) (len rdx : nat) (result : verinum) : option verinum :=
  '(result, _) ←
    for_ 0 (len - rdx) (fun ldx '(result, carry) =>
      l_bit ← (if ldx <? nbits_ left then get left ldx else Some l_sign);
      r ← get result (rdx + ldx);
      let '(s, carry) := V_add_with_carry l_bit r carry in
      result ← set result (ldx + rdx) s;
      Some (result, carry)) (result, V0);
  Some result.

Definition verinum_mul (left right : verinum) : option verinum :=
  let has_len_flag := has_len_ left && has_len_ right in
  let signed_flag := has_sign_ left && has_sign_ right in
  let l_len := nbits_ left in
  let r_len := nbits_ right in
  let len := if has_len_flag then Nat.max l_len r_len else l_len + r_len in
  if negb (is_defined left) || negb (is_defined right)
  then Some (undefined (if has_len_flag then len else 1) has_len_flag signed_flag)
  else
    let result := with_sign (verinum_fill V0 len has_len_flag) signed_flag in
    r_sign ← sign_bit right;
    result ← for_ 0 len (fun rdx result =>
      r_bit ← (if rdx <? r_len then get right rdx else Some r_sign);
      if V_eqb r_bit V0 then Some result
      else l_sign ← sign_bit left; mul_add left l_sign len rdx result) result;
    trim_vnum result.

(** [operator <<] and [operator >>] with a native shift. *)
Definition verinum_shl (that : verinum) (shift : nat) : option verinum :=
  let has_len_flag := has_len_ that in
  let len := if has_len_flag then nbits_ that else nbits_ that + shift in
  let result := with_sign (verinum_fill V0 len has_len_flag) (has_sign_ that) in
  result ← for_ shift (len - shift) (fun idx result => b ← get that (idx - shift); set result idx b) result;
  trim_vnum result.

Definition verinum_shr (that : verinum) (shift : nat) : option verinum :=
  let has_len_flag := has_len_ that in
  let len := nbits_ that in
  sign_bit ← sign_bit that;
  if len <=? shift
  then Some (with_sign (verinum_fill sign_bit (if has_len_flag then len else 1) has_len_flag) (has_sign_ that))
  else
    let len := if has_len_flag then len else len - shift in
    let result := with_sign (verinum_fill sign_bit len has_len_flag) (has_sign_ that) in
    result ← for_ shift (nbits_ that - shift) (fun idx result => b ← get that idx; set result (idx - shift) b) result;
    trim_vnum result.

(** *** Powers *)

Definition make_p_one (len : nat) (has_len has_sign : bool) : option verinum :=
  tmp ← set (verinum_fill V0 (if has_len then len else 2) has_len) 0 V1;
  Some (with_sign tmp has_sign).

Definition make_m_one (len : nat) (has_len has_sign : bool) : verinum :=
  with_sign (verinum_fill V1 (if has_len then len else 1) has_len) has_sign.

(** [pow_] stands for the recursive call of [pow]. *)
Definition recursive_pow (pow_ : verinum -> verinum -> option verinum) (left right : verinum) : option verinum :=
  if is_zero right then make_p_one (nbits_ left) (has_len_ left) (has_sign_ left)
  else
    low ← get right 0;
    if V_eqb low V1
    then right ← set right 0 V0;
         result ← pow_ left right;
         verinum_mul left result
    else right ← verinum_shr right 1;
         result ← pow_ left right;
         verinum_mul result result.

(** [pow]; the fuel bounds the number of calls ([pow_fuel]). *)
Fixpoint verinum_pow (fuel : nat) (left right : verinum) : option verinum :=
  match fuel with
  | O => None
  | S fuel =>
      p_one ← make_p_one (nbits_ left) (has_len_ left) (has_sign_ left);
      let m_one := make_m_one (nbits_ left) (has_len_ left) (has_sign_ left) in
      let filled val := with_sign (verinum_fill val (nbits_ left) (has_len_ left)) (has_sign_ left) in
      result ←
        (if negb (is_defined left) || negb (is_defined right) then Some (filled Vx)
         else if is_zero right then Some p_one
         else
           negative ← is_negative right;
           if negative : bool then
             if is_zero left then Some (filled Vx)
             else
               is_m_one ← (if has_sign_ left then verinum_eq left m_one else Some V0);
               if negb (V_eqb is_m_one V0)
               then low ← get right 0; Some (if V_eqb low V0 then p_one else m_one)
               else
                 is_p_one ← verinum_eq left p_one;
                 Some (if negb (V_eqb is_p_one V0) then p_one else filled V0)
           else recursive_pow (verinum_pow fuel) left right);
      trim_vnum result
  end.

(** Every second call halves the exponent. *)
Definition pow_fuel (right : verinum) : nat := 2 * nbits_ right + 2.

(** *** Division *)

(** The loops [while (nwid > 0 && num.get(nwid-1) == V0) nwid -= 1]. *)
Definition used_width (num : verinum) : nat := scan_down (fun w => bit_is num V0 (w - 1)) (nbits_ num).

(** One round of the long division: the new [num], whether the divisor was
    subtracted, and the new [den].  The condition [den <= num] of the source is
    true for every [V] but [V0]. *)
Definition divide_round (num den : verinum) : option (verinum * bool * verinum) :=
  c ← verinum_leeq den num;
  let fits := negb (V_eqb c V0) in
  num ← (if fits then verinum_sub num den else Some num);
  den ← verinum_shr den 1;
  Some (num, fits, den).

Fixpoint divide_loop (idx : nat) (num den result : verinum) : option verinum :=
  match idx with
  | O => Some result
  | S i =>
      '(num, fits, den) ← divide_round num den;
      result ← (if fits : bool then set result i V1 else Some result);
      divide_loop i num den result
  end.

Fixpoint modulus_loop (idx : nat) (num den : verinum) : option verinum :=
  match idx with
  | O => Some num
  | S i => '(num, _, den) ← divide_round num den; modulus_loop i num den
  end.

Definition unsigned_divide (num den : verinum) (signed_result : bool) : option verinum :=
  let num := with_len num false in
  let den := with_len den false in
  let nwid := used_width num in
  let dwid := used_width den in
  if nwid <? dwid then Some (verinum_fill V0 1 true)
  else
    den ← verinum_shl den (nwid - dwid);
    let idx := nwid - dwid + 1 in
    let result := verinum_fill V0 (if signed_result then idx + 1 else idx) true in
    result ← (if signed_result
              then result ← set result idx V0; Some (with_sign result true)
              else Some result);
    divide_loop idx num den result.

Definition unsigned_modulus (num den : verinum) : option verinum :=
  let num := with_len num false in
  let den := with_len den false in
  let nwid := used_width num in
  let dwid := used_width den in
  if nwid <? dwid then Some num
  else
    den ← verinum_shl den (nwid - dwid);
    modulus_loop (nwid - dwid + 1) num den.

(** The absolute value the wide signed operations start from. *)
Definition use_abs (v : verinum) : option (verinum * bool) :=
  negative ← is_negative v;
  v ← (if negative : bool then verinum_neg v else Some v);
  Some (with_sign v false, negative).

Definition LONG_MIN : Z := - 2 ^ 63.

(** The end of [operator /] and [operator %]. *)
Definition finish_division (result : verinum) (use_len : nat) (has_len_flag signed_flag : bool) : option verinum :=
  result ← (if has_len_flag then cast_to_width result use_len else Some result);
  trim_vnum (with_sign result signed_flag).

(** [result] has the low [use_len] bits of the native [v]. *)
Definition native_result (v : Z) (use_len : nat) (has_len_flag : bool) : verinum :=
  mk_verinum (native_bits use_len v) has_len_flag false false false.

Definition verinum_div (left right : verinum) : option verinum :=
  let has_len_flag := has_len_ left && has_len_ right in
  let signed_flag := has_sign_ left && has_sign_ right in
  let use_len := nbits_ left in
  if negb (is_defined left) || negb (is_defined right) || is_zero right
  then Some (undefined use_len has_len_flag signed_flag)
  else
    result ←
      (if signed_flag then
         if use_len <=? 63 then
           let l := as_long left in
           let r := as_long right in
           let overflow := ((l =? LONG_MIN) && (r =? -1))%Z in
           _ ← assert_ (overflow || negb (r =? 0)%Z);
           Some (native_result (if overflow then LONG_MIN else Z.quot l r) use_len has_len_flag)
         else
           '(use_left, lneg) ← use_abs left;
           '(use_right, rneg) ← use_abs right;
           result ← unsigned_divide use_left use_right true;
           if xorb lneg rneg then verinum_neg result else Some result
       else
         if use_len <=? 64 then
           let l := as_ulong left in
           let r := as_ulong right in
           _ ← assert_ (negb (r =? 0)%Z);
           Some (native_result (Z.quot l r) use_len has_len_flag)
         else unsigned_divide left right false);
    finish_division result use_len has_len_flag signed_flag.

Definition verinum_mod (left right : verinum) : option verinum :=
  let has_len_flag := has_len_ left && has_len_ right in
  let signed_flag := has_sign_ left && has_sign_ right in
  let use_len := nbits_ left in
  if negb (is_defined left) || negb (is_defined right) || is_zero right
  then Some (undefined use_len has_len_flag signed_flag)
  else
    result ←
      (if signed_flag then
         if use_len <=? 64 then
           let l := as_long left in
           let r := as_long right in
           let overflow := ((l =? LONG_MIN) && (r =? -1))%Z in
           _ ← assert_ (overflow || negb (r =? 0)%Z);
           Some (native_result (if overflow then 0 else Z.rem l r) use_len has_len_flag)
         else
           '(use_left, lneg) ← use_abs left;
           '(use_right, _) ← use_abs right;
           result ← unsigned_modulus use_left use_right;
           if lneg : bool then verinum_neg result else Some result
       else
         if use_len <=? 64 then
           let l := as_ulong left in
           let r := as_ulong right in
           _ ← assert_ (negb (r =? 0)%Z);
           Some (native_result (Z.rem l r) use_len has_len_flag)
         else unsigned_modulus left right);
    finish_division result use_len has_len_flag signed_flag.

(** *** Concatenation *)

Definition verinum_concat (left right : verinum) : option verinum :=
  if string_flag_ left && string_flag_ right
  then l ← as_string left; r ← as_string right; verinum_of_string (l ++ r)
  else
    let res := verinum_fill V0 (nbits_ left + nbits_ right) true in
    res ← for_ 0 (nbits_ right) (fun idx res => b ← get right idx; set res idx b) res;
    for_ 0 (nbits_ left) (fun idx res => b ← get left idx; set res (idx + nbits_ right) b) res.

(** ** Reference semantics *)

Definition V_of_bool (b : bool) : V := if b then V1 else V0.

(** The bit of the simulator with the same meaning. *)
Definition to_bit4 (v : V) : vvp_bit4_t :=
  match v with V0 => BIT4_0 | V1 => BIT4_1 | Vx => BIT4_X | Vz => BIT4_Z end.

(** The number a defined constant stands for. *)
Definition num (v : verinum) : Z :=
  let bits := map to_bit4 (bits_ v) in
  if has_sign_ v then bits_to_signed_Z bits else bits_to_Z bits.

(** The constant has no x and no z, and a sign bit if it is signed. *)
Definition number (v : verinum) : Prop :=
  is_defined v = true /\ (has_sign_ v = true -> 0 < nbits_ v).

(** A result: sized ones have [n] bits and the low bits of [z], the others are
    wide enough for [z]. *)
Definition result_is (hl s : bool) (n : nat) (z : Z) (r : verinum) : Prop :=
  has_len_ r = hl /\ has_sign_ r = s /\ number r /\ (hl = true -> nbits_ r = n) /\
  num r = if hl then int_cast n s z else z.

(** ** Lemmas *)

Open Scope Z_scope.

(** *** Bits of numbers *)

(** The low [n] bits of [z]. *)
Definition Vbits (n : nat) (z : Z) : list V := map (fun i => V_of_bool (tb z i)) (seq 0 n).

(** [z] is representable in [n] bits. *)
Definition fits (s : bool) (n : nat) (z : Z) : Prop :=
  if s then (0 < n)%nat /\ - 2 ^ (Z.of_nat n - 1) <= z < 2 ^ (Z.of_nat n - 1)
  else 0 <= z < 2 ^ Z.of_nat n.

(** [v] is [z], in its width. *)
Definition rep (v : verinum) (z : Z) : Prop :=
  bits_ v = Vbits (nbits_ v) z /\ fits (has_sign_ v) (nbits_ v) z.

Lemma length_Vbits n z : length (Vbits n z) = n.
Proof. unfold Vbits. by rewrite length_map, length_seq. Qed.

Lemma lookup_Vbits n z i : (i < n)%nat -> Vbits n z !! i = Some (V_of_bool (tb z i)).
Proof. intros Hi. unfold Vbits. by rewrite list_lookup_fmap, lookup_seq_lt by done. Qed.

Lemma Vbits_intro l n z :
  length l = n -> (forall i, (i < n)%nat -> l !! i = Some (V_of_bool (tb z i))) -> l = Vbits n z.
Proof.
  intros Hl H. apply list_eq_same_length with n; [by rewrite ?length_Vbits..|].
  intros i a b Hi. rewrite H, lookup_Vbits by done. congruence.
Qed.

Lemma Vbits_ext n x y : (forall i, (i < n)%nat -> tb x i = tb y i) -> Vbits n x = Vbits n y.
Proof.
  intros H. apply Vbits_intro; [apply length_Vbits|]. intros i Hi.
  by rewrite lookup_Vbits, H by done.
Qed.

Lemma Vbits_mod n x y : x mod 2 ^ Z.of_nat n = y mod 2 ^ Z.of_nat n -> Vbits n x = Vbits n y.
Proof. intros H. apply Vbits_ext. intros i Hi. by apply (tb_mod_eq x y n). Qed.

Lemma Vbits_S n z : Vbits (S n) z = Vbits n z ++ [V_of_bool (tb z n)].
Proof. unfold Vbits. by rewrite seq_S, map_app. Qed.

Lemma take_Vbits m n z : (m <= n)%nat -> take m (Vbits n z) = Vbits m z.
Proof.
  intros H. apply Vbits_intro; [rewrite length_take, length_Vbits; lia|]. intros i Hi.
  by rewrite lookup_take_lt, lookup_Vbits by lia.
Qed.

Lemma Vbits_0 n : Vbits n 0 = replicate n V0.
Proof.
  symmetry. apply Vbits_intro; [apply length_replicate|]. intros i Hi.
  by rewrite lookup_replicate_2, tb_0 by done.
Qed.

Lemma Vbits_app m n z : Vbits m z ++ Vbits n (z / 2 ^ Z.of_nat m) = Vbits (m + n) z.
Proof.
  apply Vbits_intro; [by rewrite length_app, !length_Vbits|]. intros i Hi.
  destruct (Nat.lt_ge_cases i m).
  - by rewrite lookup_app_l, lookup_Vbits by (rewrite ?length_Vbits; lia).
  - rewrite lookup_app_r, length_Vbits, lookup_Vbits by (rewrite ?length_Vbits; lia). f_equal. f_equal.
    unfold tb. rewrite <- Z.shiftr_div_pow2, Z.shiftr_spec by lia. f_equal. lia.
Qed.

Lemma V_of_bool_inj a b : V_of_bool a = V_of_bool b -> a = b.
Proof. by destruct a, b. Qed.

Lemma V_eqb_spec a b : reflect (a = b) (V_eqb a b).
Proof. destruct a, b; by constructor. Qed.

Lemma V_eqb_bool a b : V_eqb (V_of_bool a) (V_of_bool b) = Bool.eqb a b.
Proof. by destruct a, b. Qed.

Lemma tb_succ_mod z k : z mod 2 ^ Z.of_nat (S k) = z mod 2 ^ Z.of_nat k + Z.b2z (tb z k) * 2 ^ Z.of_nat k.
Proof.
  unfold tb. rewrite Z.testbit_spec' by lia.
  rewrite Nat2Z.inj_succ, Z.pow_succ_r, (Z.mul_comm 2), Z.rem_mul_r by lia. lia.
Qed.

Lemma tb_small z m i : 0 <= z < 2 ^ m -> m <= Z.of_nat i -> tb z i = false.
Proof.
  intros Hz Hi. apply Z.testbit_false; [lia|]. rewrite Z.div_small; [done|].
  split; [lia|]. apply Z.lt_le_trans with (2 ^ m); [lia|apply Z.pow_le_mono_r; lia].
Qed.

Lemma tb_lnot z i : tb (Z.lnot z) i = negb (tb z i).
Proof. apply Z.lnot_spec. lia. Qed.

(** A number between [-2^m] and [2^m] has its sign in the bits from [m] on. *)
Lemma tb_sign z m i : - 2 ^ m <= z < 2 ^ m -> m <= Z.of_nat i -> tb z i = (z <? 0).
Proof.
  intros Hz Hi. destruct (Z.ltb_spec z 0).
  - rewrite <- (negb_involutive (tb z i)), <- tb_lnot.
    rewrite (tb_small _ m) by (unfold Z.lnot; lia). done.
  - apply (tb_small _ m); [lia|done].
Qed.

(** The bits above the width repeat the sign. *)
Lemma fits_tb s n z i : fits s n z -> (n <= i)%nat -> tb z i = s && tb z (n - 1).
Proof.
  destruct s; cbn [fits andb].
  - intros [Hn Hz] Hi. by rewrite !(tb_sign z (Z.of_nat n - 1)) by (done || lia).
  - intros Hz Hi. apply (tb_small z (Z.of_nat n)); [done|lia].
Qed.

Lemma fits_sign n z : fits true n z -> tb z (n - 1) = (z <? 0).
Proof. intros [Hn Hz]. apply (tb_sign z (Z.of_nat n - 1)); [done|lia]. Qed.

Lemma small_tb z m : (forall i, (m <= i)%nat -> tb z i = false) -> 0 <= z < 2 ^ Z.of_nat m.
Proof.
  intros H. cut (z = z mod 2 ^ Z.of_nat m).
  { intros ->. apply Z.mod_pos_bound. lia. }
  apply Z.bits_inj'. intros k Hk. destruct (Z.lt_ge_cases k (Z.of_nat m)).
  - by rewrite Z.mod_pow2_bits_low by lia.
  - rewrite Z.mod_pow2_bits_high by lia. specialize (H (Z.to_nat k) ltac:(lia)).
    unfold tb in H. by rewrite Z2Nat.id in H by lia.
Qed.

Lemma fits_intro s n z :
  (s = true -> (0 < n)%nat) -> (forall i, (n <= i)%nat -> tb z i = s && tb z (n - 1)) -> fits s n z.
Proof.
  intros Hn H. destruct s; cbn [fits andb] in *; [|by apply small_tb].
  specialize (Hn eq_refl). split; [done|].
  replace (Z.of_nat n - 1) with (Z.of_nat (n - 1)) by lia.
  assert (forall i, (n - 1 <= i)%nat -> tb z i = tb z (n - 1)) as H'.
  { intros i Hi. destruct (decide (i = n - 1)%nat) as [->|]; [done|]. apply H. lia. }
  destruct (tb z (n - 1)) eqn:E.
  - pose proof (small_tb (Z.lnot z) (n - 1)) as B. unfold Z.lnot in B at 2 3.
    enough (0 <= Z.pred (- z) < 2 ^ Z.of_nat (n - 1)) by lia. apply B.
    intros i Hi. by rewrite tb_lnot, H'.
  - pose proof (small_tb z (n - 1) H'). lia.
Qed.

Lemma fits_mono s n m z : fits s n z -> (n <= m)%nat -> fits s m z.
Proof.
  destruct s; cbn [fits]; intros Hz Hm.
  - destruct Hz as [Hn Hz]. split; [lia|].
    assert (2 ^ (Z.of_nat n - 1) <= 2 ^ (Z.of_nat m - 1)) by (apply Z.pow_le_mono_r; lia). lia.
  - assert (2 ^ Z.of_nat n <= 2 ^ Z.of_nat m) by (apply Z.pow_le_mono_r; lia). lia.
Qed.

Lemma fits_shrink s n z :
  fits s (S n) z -> (s = true -> (0 < n)%nat) -> tb z n = s && tb z (n - 1) -> fits s n z.
Proof.
  intros Hz Hn H. apply fits_intro; [done|]. intros i Hi.
  destruct (decide (i = n)) as [->|]; [done|].
  rewrite (fits_tb s (S n) z i) by (done || lia). replace (S n - 1)%nat with n by lia. rewrite H.
  by destruct s.
Qed.

Lemma pow2_succ n : 2 ^ Z.of_nat (S n) = 2 * 2 ^ Z.of_nat n.
Proof. by rewrite Nat2Z.inj_succ, Z.pow_succ_r by lia. Qed.

Lemma pow2_pred n : (0 < n)%nat -> 2 ^ Z.of_nat n = 2 * 2 ^ (Z.of_nat n - 1).
Proof. intros Hn. rewrite <- Z.pow_succ_r by lia. f_equal. lia. Qed.

Lemma fits_add s n x y : fits s n x -> fits s n y -> fits s (S n) (x + y).
Proof.
  destruct s; cbn [fits]; rewrite ?pow2_succ; [|lia]. intros [Hn Hx] [_ Hy].
  replace (Z.of_nat (S n) - 1) with (Z.of_nat n) by lia. rewrite (pow2_pred n) by done. lia.
Qed.

Lemma fits_sub n x y : fits true n x -> fits true n y -> fits true (S n) (x - y).
Proof.
  cbn [fits]. intros [Hn Hx] [_ Hy].
  replace (Z.of_nat (S n) - 1) with (Z.of_nat n) by lia. rewrite (pow2_pred n) by done. lia.
Qed.

Lemma fits_mul s n m x y : fits s n x -> fits s m y -> fits s (n + m) (x * y).
Proof.
  destruct s; cbn [fits].
  - intros [Hn Hx] [Hm Hy]. split; [lia|].
    replace (Z.of_nat (n + m) - 1) with (Z.succ ((Z.of_nat n - 1) + (Z.of_nat m - 1))) by lia.
    rewrite Z.pow_succ_r, Z.pow_add_r by lia. nia.
  - intros Hx Hy. rewrite Nat2Z.inj_add, Z.pow_add_r by lia. nia.
Qed.

Lemma fits_0 s n : (s = true -> (0 < n)%nat) -> fits s n 0.
Proof.
  intros H. apply fits_intro; [done|]. intros i Hi. rewrite !tb_0. by destruct s.
Qed.

Lemma cast_mod_eq s n z : int_cast n s z mod 2 ^ Z.of_nat n = z mod 2 ^ Z.of_nat n.
Proof.
  unfold int_cast. destruct (s && _); [|by rewrite Z.mod_mod by lia].
  replace (z mod 2 ^ Z.of_nat n - 2 ^ Z.of_nat n) with (z mod 2 ^ Z.of_nat n + (-1) * 2 ^ Z.of_nat n) by lia.
  by rewrite Z.mod_add, Z.mod_mod by lia.
Qed.

Lemma int_cast_fits s n z : (s = true -> (0 < n)%nat) -> fits s n (int_cast n s z).
Proof.
  intros Hn. unfold int_cast. pose proof (Z.mod_pos_bound z (2 ^ Z.of_nat n) ltac:(lia)) as B.
  destruct s; cbn [fits andb]; [|done]. specialize (Hn eq_refl). split; [done|].
  rewrite (pow2_pred n) in B |- * by done.
  destruct (Z.leb_spec (2 ^ (Z.of_nat n - 1)) (z mod (2 * 2 ^ (Z.of_nat n - 1)))); lia.
Qed.

Lemma fits_eq_mod s n x y :
  fits s n x -> fits s n y -> x mod 2 ^ Z.of_nat n = y mod 2 ^ Z.of_nat n -> x = y.
Proof.
  destruct s; cbn [fits].
  - intros [Hn Hx] [_ Hy] H. rewrite (pow2_pred n) in H by done. set (p := 2 ^ (Z.of_nat n - 1)) in *.
    assert (0 < p) by lia.
    rewrite (Z.mod_eq x), (Z.mod_eq y) in H by lia.
    set (a := x / (2 * p)) in *. set (b := y / (2 * p)) in *.
    assert (x - y = (2 * p) * (a - b)) as E by lia. clear H.
    destruct (Z.lt_trichotomy (a - b) 0) as [|[E0|]]; [nia| |nia].
    rewrite E0 in E. lia.
  - intros Hx Hy. by rewrite !Z.mod_small.
Qed.

Lemma fits_pos s n z : fits s n z -> s = true -> (0 < n)%nat.
Proof. intros H ->. apply H. Qed.

Lemma int_cast_id s n z : fits s n z -> int_cast n s z = z.
Proof.
  intros H. apply (fits_eq_mod s n); [|done|apply cast_mod_eq].
  apply int_cast_fits. by apply (fits_pos s n z).
Qed.

Lemma int_cast_ext s n x y : x mod 2 ^ Z.of_nat n = y mod 2 ^ Z.of_nat n -> int_cast n s x = int_cast n s y.
Proof. intros H. unfold int_cast. by rewrite H. Qed.

Lemma Vbits_cast s n z : Vbits n (int_cast n s z) = Vbits n z.
Proof. apply Vbits_mod, cast_mod_eq. Qed.

(** *** Constants as numbers *)

Lemma map_Vbits n z : map to_bit4 (Vbits n z) = bits_of_Z n z.
Proof. unfold Vbits, bits_of_Z. rewrite map_map. apply map_ext. intros i. by destruct (tb z i). Qed.

Lemma last_bits_of_Z n z : (0 < n)%nat -> last (bits_of_Z n z) = Some (bit4_of_bool (tb z (n - 1))).
Proof.
  intros Hn. destruct n as [|n]; [lia|]. unfold bits_of_Z. rewrite seq_S, map_app. cbn [map].
  rewrite last_snoc. do 3 f_equal. lia.
Qed.

Lemma top_bit n z : (0 < n)%nat -> tb z (n - 1) = (2 ^ (Z.of_nat n - 1) <=? z mod 2 ^ Z.of_nat n).
Proof.
  destruct n as [|n]; [lia|]. intros _. replace (S n - 1)%nat with n by lia.
  replace (Z.of_nat (S n) - 1) with (Z.of_nat n) by lia. rewrite tb_succ_mod.
  pose proof (Z.mod_pos_bound z (2 ^ Z.of_nat n) ltac:(lia)) as B.
  destruct (tb z n); cbn [Z.b2z]; symmetry; [apply Z.leb_le|apply Z.leb_gt]; lia.
Qed.

Lemma num_Vbits v n z :
  bits_ v = Vbits n z -> (has_sign_ v = true -> (0 < n)%nat) -> num v = int_cast n (has_sign_ v) z.
Proof.
  intros Hb Hn. unfold num. rewrite Hb, map_Vbits. unfold int_cast, bits_to_signed_Z.
  rewrite bits_to_of_Z, length_bits_of_Z. destruct (has_sign_ v); cbn [andb]; [|done].
  specialize (Hn eq_refl). rewrite last_bits_of_Z, <- top_bit by done.
  destruct (tb z (n - 1)); cbn [bit4_of_bool]; [by rewrite decide_True|by rewrite decide_False, Z.sub_0_r].
Qed.

Lemma rep_num v z : rep v z -> num v = z.
Proof.
  intros [Hb Hf]. rewrite (num_Vbits v (nbits_ v) z) by (done || by apply (fits_pos _ _ z)).
  by apply int_cast_id.
Qed.

Lemma defined_Vbits v n z : bits_ v = Vbits n z -> is_defined v = true.
Proof.
  intros H. unfold is_defined. rewrite H. unfold Vbits. rewrite forallb_forall.
  intros b (i & <- & _)%in_map_iff. by destruct (tb z i).
Qed.

Lemma defined_bits v :
  is_defined v = true -> bits_ v = Vbits (nbits_ v) (bits_to_Z (map to_bit4 (bits_ v))).
Proof.
  intros H. apply Vbits_intro; [done|]. intros i Hi.
  destruct (lookup_lt_is_Some_2 (bits_ v) i Hi) as [b Hb]. rewrite Hb, tb_bits_to_Z.
  rewrite list_lookup_fmap, Hb. cbn [fmap option_fmap option_map]. f_equal.
  unfold is_defined in H. rewrite forallb_forall in H.
  specialize (H b (proj1 (list_elem_of_In _ _) (list_elem_of_lookup_2 _ _ _ Hb))).
  by destruct b; try done.
Qed.

Lemma number_rep v : number v -> rep v (num v).
Proof.
  intros [Hd Hn]. apply defined_bits in Hd. split.
  - rewrite (num_Vbits v _ _ Hd Hn), Vbits_cast. done.
  - rewrite (num_Vbits v _ _ Hd Hn). by apply int_cast_fits.
Qed.

Lemma rep_number v z : rep v z -> number v.
Proof.
  intros [Hb Hf]. split; [by apply (defined_Vbits v (nbits_ v) z)|]. by apply (fits_pos _ _ z).
Qed.

(** The two forms in which the operators are shown to compute a number. *)
Lemma result_sized s n z r :
  has_len_ r = true -> has_sign_ r = s -> (s = true -> (0 < n)%nat) -> bits_ r = Vbits n z ->
  result_is true s n z r.
Proof.
  intros Hl Hs Hn Hb. assert (nbits_ r = n) as Hw by (unfold nbits_; by rewrite Hb, length_Vbits).
  split; [done|]. split; [done|]. split.
  - split; [by apply (defined_Vbits r n z)|]. by rewrite Hs, Hw.
  - split; [done|]. subst s. by apply num_Vbits.
Qed.

Lemma result_exact s n z r : has_len_ r = false -> has_sign_ r = s -> rep r z -> result_is false s n z r.
Proof.
  intros Hl Hs Hr. split; [done|]. split; [done|]. split; [by apply (rep_number r z)|].
  split; [done|]. by apply rep_num.
Qed.

Lemma result_unsized s n m z r : result_is false s n z r -> result_is false s m z r.
Proof. intros (H1 & H2 & H3 & _ & H4). by split_and!. Qed.

(** *** Reading a constant *)

Lemma rep_get v z i : rep v z -> (i < nbits_ v)%nat -> get v i = Some (V_of_bool (tb z i)).
Proof. intros [Hb _] Hi. unfold get. by rewrite Hb, lookup_Vbits. Qed.

Lemma rep_sign_bit v z i :
  rep v z -> (nbits_ v <= i)%nat -> sign_bit v = Some (V_of_bool (tb z i)).
Proof.
  intros Hr Hi. pose proof (fits_tb _ _ _ i (proj2 Hr) Hi) as E. unfold sign_bit. rewrite E.
  destruct (has_sign_ v) eqn:Hs; cbn [andb]; [|done].
  apply (rep_get v z); [done|]. apply Nat.sub_lt; [|lia]. 
  destruct Hr as [_ Hf]. rewrite Hs in Hf. destruct Hf. lia.
Qed.

Lemma rep_same_pad v z i j :
  rep v z -> (nbits_ v <= i)%nat -> (nbits_ v <= j)%nat -> tb z i = tb z j.
Proof.
  intros [_ Hf] Hi Hj. by rewrite (fits_tb _ _ _ i Hf Hi), (fits_tb _ _ _ j Hf Hj).
Qed.

(** The bit at [i], with the extension the operators use beyond the width. *)
Lemma rep_padded v z p i :
  rep v z -> sign_bit v = Some p -> (if (i <? nbits_ v)%nat then get v i else Some p) = Some (V_of_bool (tb z i)).
Proof.
  intros Hr Hp. destruct (Nat.ltb_spec i (nbits_ v)); [by apply rep_get|].
  rewrite <- Hp. by apply rep_sign_bit.
Qed.

Lemma rep_is_zero v z : rep v z -> is_zero v = (z =? 0).
Proof.
  intros [Hb Hf]. unfold is_zero. rewrite Hb. apply eq_iff_eq_true.
  rewrite forallb_forall, Z.eqb_eq. split.
  - intros H. apply (fits_eq_mod (has_sign_ v) (nbits_ v)); [done|apply fits_0; by apply (fits_pos _ _ z)|].
    apply tb_mod_ext. intros i Hi. rewrite tb_0.
    specialize (H (V_of_bool (tb z i))). rewrite <- list_elem_of_In in H.
    specialize (H (list_elem_of_lookup_2 _ i _ (lookup_Vbits _ _ _ Hi))). by destruct (tb z i).
  - intros -> b. rewrite Vbits_0, <- list_elem_of_In. intros [-> _]%elem_of_replicate. done.
Qed.

(** *** Sums *)

(** The carry into bit [k] of [x + y + c]. *)
Definition carry_at (x y : Z) (c : bool) (k : nat) : bool :=
  2 ^ Z.of_nat k <=? x mod 2 ^ Z.of_nat k + y mod 2 ^ Z.of_nat k + Z.b2z c.

Lemma tb_div z k : tb z k = Z.odd (z / 2 ^ Z.of_nat k).
Proof. unfold tb. by rewrite Z.testbit_odd, Z.shiftr_div_pow2 by lia. Qed.

Lemma carry_0 x y c : carry_at x y c 0 = c.
Proof. unfold carry_at. change (2 ^ Z.of_nat 0) with 1. rewrite !Z.mod_1_r. by destruct c. Qed.

Lemma tb_sum x y c k : tb (x + y + Z.b2z c) k = xorb (xorb (tb x k) (tb y k)) (carry_at x y c k).
Proof.
  unfold carry_at. rewrite !tb_div. set (p := 2 ^ Z.of_nat k). assert (0 < p) by lia.
  pose proof (Z.mod_pos_bound x p ltac:(lia)). pose proof (Z.mod_pos_bound y p ltac:(lia)).
  rewrite (Z.div_mod x p) at 1 by lia. rewrite (Z.div_mod y p) at 1 by lia.
  replace (p * (x / p) + x mod p + (p * (y / p) + y mod p) + Z.b2z c)
    with (x mod p + y mod p + Z.b2z c + (x / p + y / p) * p) by lia.
  rewrite Z.div_add, !Z.odd_add, xorb_comm by lia. f_equal.
  assert (0 <= Z.b2z c <= 1) by (destruct c; cbn; lia).
  destruct (Z.leb_spec p (x mod p + y mod p + Z.b2z c)).
  - by replace ((x mod p + y mod p + Z.b2z c) / p) with 1 by (apply Z.div_unique with (x mod p + y mod p + Z.b2z c - p); lia).
  - by rewrite Z.div_small by lia.
Qed.

Lemma carry_S x y c k :
  carry_at x y c (S k) = (tb x k && tb y k) || (carry_at x y c k && xorb (tb x k) (tb y k)).
Proof.
  unfold carry_at. rewrite !tb_succ_mod, pow2_succ.
  pose proof (Z.mod_pos_bound x (2 ^ Z.of_nat k) ltac:(lia)). pose proof (Z.mod_pos_bound y (2 ^ Z.of_nat k) ltac:(lia)).
  assert (0 <= Z.b2z c <= 1) by (destruct c; cbn; lia).
  destruct (tb x k), (tb y k); cbn [Z.b2z andb orb xorb]; rewrite ?andb_true_r, ?andb_false_r.
  - apply Z.leb_le. lia.
  - apply eq_iff_eq_true. rewrite !Z.leb_le. lia.
  - apply eq_iff_eq_true. rewrite !Z.leb_le. lia.
  - apply Z.leb_gt. lia.
Qed.

Lemma add_step x y c k :
  V_add_with_carry (V_of_bool (tb x k)) (V_of_bool (tb y k)) (V_of_bool (carry_at x y c k)) =
  (V_of_bool (tb (x + y + Z.b2z c) k), V_of_bool (carry_at x y c (S k))).
Proof. rewrite tb_sum, carry_S. by destruct (tb x k), (tb y k), (carry_at x y c k). Qed.

(** What the loops over [val_bits] compute up to bit [k]. *)
Definition summed (x y : Z) (c : bool) (k : nat) (st : list V * V) : Prop :=
  st = (Vbits k (x + y + Z.b2z c), V_of_bool (carry_at x y c k)).

Lemma summed_0 x y c : summed x y c 0 ([], V_of_bool c).
Proof. unfold summed. by rewrite carry_0. Qed.

Lemma sum_loop_spec l r x y c idx n st :
  (forall i, (idx <= i < idx + n)%nat -> l i = Some (V_of_bool (tb x i)) /\ r i = Some (V_of_bool (tb y i))) ->
  summed x y c idx st -> returns (sum_loop l r idx n st) (summed x y c (idx + n)).
Proof.
  intros H Hst. unfold sum_loop. apply (returns_for (summed x y c)); [done|].
  intros k t Hk ->. destruct (H k Hk) as [-> ->]. cbn [mbind option_bind]. rewrite add_step.
  apply returns_ret. unfold summed. by rewrite Vbits_S.
Qed.

(** The loops of a binary operator. *)
Lemma sum_bits_spec (inv : V -> V) left right x y y' c :
  rep left x -> rep right y -> (forall i, inv (V_of_bool (tb y i)) = V_of_bool (tb y' i)) ->
  let max_len := Nat.max (nbits_ left) (nbits_ right) in
  returns (sum_bits inv (V_of_bool c) left right) (fun '(val_bits, lpad, rpad, carry) =>
    summed x y' c max_len (val_bits, carry) /\ lpad = V_of_bool (tb x max_len) /\ inv rpad = V_of_bool (tb y' max_len)).
Proof.
  intros Hl Hr Hf max_len. unfold sum_bits. set (min_len := Nat.min _ _).
  eapply returns_bind.
  - apply (sum_loop_spec _ _ x y' c); [|apply summed_0]. intros i Hi.
    rewrite (rep_get left x), (rep_get right y) by (done || lia). cbn [fmap option_fmap option_map]. by rewrite Hf.
  - intros st Hst. rewrite (rep_sign_bit right y max_len), (rep_sign_bit left x max_len) by (done || lia).
    cbn [mbind option_bind]. eapply returns_bind with (Q := summed x y' c max_len).
    2:{ intros [val_bits carry] H. by apply returns_ret. }
    replace (summed x y' c max_len) with (summed x y' c (min_len + (max_len - min_len))) by (f_equal; lia).
    destruct (Nat.ltb_spec (nbits_ right) (nbits_ left)).
    + apply sum_loop_spec; [|done]. intros i Hi. rewrite (rep_get left x), Hf by (done || lia).
      by rewrite <- Hf, <- (Hf i), (rep_same_pad right y max_len i) by (done || lia).
    + apply sum_loop_spec; [|done]. intros i Hi. rewrite (rep_get right y) by (done || lia).
      cbn [fmap option_fmap option_map]. by rewrite Hf, (rep_same_pad left x max_len i) by (done || lia).
Qed.

(** The bit that is added when the sum does not fit. *)
Lemma grown_rep s n z :
  fits s (S n) z -> (s = true -> (0 < n)%nat) ->
  rep (with_sign (verinum_of_bits
         (if negb (V_eqb (V_of_bool (tb z n)) (V_of_bool (s && tb z (n - 1))))
          then Vbits n z ++ [V_of_bool (tb z n)] else Vbits n z) false) s) z.
Proof.
  intros Hf Hn. rewrite V_eqb_bool. unfold rep, nbits_; cbn [with_sign verinum_of_bits bits_ has_sign_].
  destruct (Bool.eqb (tb z n) (s && tb z (n - 1))) eqn:E; cbn [negb].
  - rewrite length_Vbits. split; [done|]. apply fits_shrink; [done..|]. by apply eqb_prop.
  - rewrite <- Vbits_S, length_Vbits. done.
Qed.

(** The sum that was not extended keeps its low bits. *)
Lemma ungrown_rep n z : rep (with_sign (verinum_of_bits (Vbits n z) false) false) (z mod 2 ^ Z.of_nat n).
Proof.
  unfold rep, nbits_; cbn [with_sign verinum_of_bits bits_ has_sign_ fits]. rewrite length_Vbits.
  split; [|apply Z.mod_pos_bound; lia]. apply Vbits_mod. by rewrite Z.mod_mod by lia.
Qed.

Lemma rep_pos_max left right x y :
  rep left x -> rep right y -> has_sign_ left && has_sign_ right = true ->
  (0 < Nat.max (nbits_ left) (nbits_ right))%nat.
Proof.
  intros [_ Hx] [_ Hy] [Hl Hr]%andb_true_iff. pose proof (fits_pos _ _ _ Hx Hl). lia.
Qed.

Lemma rep_fits_max s left right x y :
  rep left x -> rep right y -> has_sign_ left = s -> has_sign_ right = s ->
  fits s (Nat.max (nbits_ left) (nbits_ right)) x /\ fits s (Nat.max (nbits_ left) (nbits_ right)) y.
Proof.
  intros [_ Hx] [_ Hy] <- Hs. rewrite Hs in Hy. split; eapply fits_mono; try done; lia.
Qed.

Lemma rep_defined v z : rep v z -> is_defined v = true.
Proof. intros H. by destruct (rep_number v z H). Qed.

Lemma add_spec left right x y :
  rep left x -> rep right y ->
  (has_len_ left && has_len_ right = false -> has_sign_ left = has_sign_ right) ->
  returns (verinum_add left right)
    (result_is (has_len_ left && has_len_ right) (has_sign_ left && has_sign_ right)
       (Nat.max (nbits_ left) (nbits_ right)) (x + y)).
Proof.
  intros Hl Hr Hs. unfold verinum_add. rewrite (rep_defined left x), (rep_defined right y) by done. cbn [negb orb].
  pose proof (rep_pos_max left right x y Hl Hr) as Hpos.
  eapply returns_bind; [by apply (sum_bits_spec (fun b => b) left right x y y false)|].
  intros [[[val_bits lpad] rpad] carry] (Hsum & -> & ->). injection Hsum as -> ->.
  rewrite add_step. cbn [Z.b2z] in *. rewrite Z.add_0_r in *.
  destruct (has_len_ left && has_len_ right); cbn [negb].
  { apply returns_ret, result_sized; done. }
  specialize (Hs eq_refl). rewrite Hs, andb_diag in *.
  destruct (rep_fits_max (has_sign_ right) left right x y) as [Fx Fy]; [done..|].
  pose proof (grown_rep _ _ _ (fits_add _ _ _ _ Fx Fy) Hpos) as G.
  destruct (has_sign_ right); cbn [andb] in G.
  - rewrite lookup_Vbits by (specialize (Hpos eq_refl); lia). cbn [mbind option_bind].
    by apply returns_ret, result_exact.
  - cbn [mbind option_bind]. by apply returns_ret, result_exact.
Qed.

(** [r] is not a ['0] or ['1]; an unsigned difference is not extended. *)
Definition plain (r : verinum) (n : nat) (s : bool) : Prop :=
  is_single_ r = false /\ (s = false -> nbits_ r = n) /\ (n <= nbits_ r)%nat.

Lemma plain_sum n z h s : plain (with_sign (verinum_of_bits (Vbits n z) h) s) n s.
Proof.
  assert (nbits_ (with_sign (verinum_of_bits (Vbits n z) h) s) = n) as E by apply length_Vbits.
  unfold plain. by rewrite E.
Qed.

Lemma plain_grown n z h (b : bool) t :
  plain (with_sign (verinum_of_bits (if b then Vbits n z ++ [t] else Vbits n z) h) true) n true.
Proof.
  unfold plain, nbits_; cbn [with_sign verinum_of_bits bits_ is_single_]. split; [done|]. split; [done|].
  destruct b; rewrite ?length_app, length_Vbits; lia.
Qed.

Lemma sub_spec left right x y :
  rep left x -> rep right y ->
  (has_len_ left && has_len_ right = false -> has_sign_ left = has_sign_ right) ->
  let max_len := Nat.max (nbits_ left) (nbits_ right) in
  let signed_flag := has_sign_ left && has_sign_ right in
  returns (verinum_sub left right)
    (fun r => result_is (has_len_ left && has_len_ right) signed_flag max_len
       (if signed_flag then x - y else (x - y) mod 2 ^ Z.of_nat max_len) r /\
       plain r max_len signed_flag).
Proof.
  intros Hl Hr Hs. cbv zeta. unfold verinum_sub.
  rewrite (rep_defined left x), (rep_defined right y) by done. cbn [negb orb].
  pose proof (rep_pos_max left right x y Hl Hr) as Hpos.
  eapply returns_bind.
  { apply (sum_bits_spec V_not left right x y (Z.lnot y) true); [done..|].
    intros i. rewrite tb_lnot. by destruct (tb y i). }
  intros [[[val_bits lpad] rpad] carry] (Hsum & -> & Hrp). injection Hsum as -> ->.
  rewrite Hrp, add_step. cbn [Z.b2z]. replace (x + Z.lnot y + 1) with (x - y) by (unfold Z.lnot; lia).
  destruct (has_len_ left && has_len_ right); cbn [negb]; rewrite ?andb_false_r, ?andb_true_r.
  { apply returns_ret. split; [|apply plain_sum]. apply result_sized; try done. cbn [with_sign verinum_of_bits bits_].
    destruct (has_sign_ left && has_sign_ right); [done|]. apply Vbits_mod. by rewrite Z.mod_mod by lia. }
  specialize (Hs eq_refl). rewrite Hs, andb_diag in *.
  destruct (rep_fits_max (has_sign_ right) left right x y) as [Fx Fy]; [done..|].
  destruct (has_sign_ right).
  - rewrite lookup_Vbits by (specialize (Hpos eq_refl); lia). cbn [mbind option_bind].
    apply returns_ret. split; [|apply plain_grown]. apply result_exact; try done.
    exact (grown_rep _ _ _ (fits_sub _ _ _ Fx Fy) Hpos).
  - apply returns_ret. split; [|apply plain_sum]. apply result_exact; try done. apply ungrown_rep.
Qed.

Lemma neg_spec right y :
  rep right y ->
  returns (verinum_neg right)
    (fun r => result_is (has_len_ right) (has_sign_ right) (nbits_ right)
       (if has_sign_ right then - y else (- y) mod 2 ^ Z.of_nat (nbits_ right)) r /\
       plain r (nbits_ right) (has_sign_ right)).
Proof.
  intros Hr. unfold verinum_neg. rewrite (rep_defined right y) by done. cbn [negb].
  assert (forall i, V_not (V_of_bool (tb y i)) = V_of_bool (tb (Z.lnot y) i)) as Hnot.
  { intros i. rewrite tb_lnot. by destruct (tb y i). }
  eapply returns_bind.
  { apply (sum_loop_spec _ _ 0 (Z.lnot y) true 0 (nbits_ right)); [|apply summed_0]. intros i Hi.
    rewrite tb_0, (rep_get right y) by (done || lia). cbn [fmap option_fmap option_map]. by rewrite Hnot. }
  intros [val_bits carry] Hsum. injection Hsum as -> ->. cbn [Nat.add].
  rewrite (rep_sign_bit right y (nbits_ right)) by done. cbn [mbind option_bind].
  replace V0 with (V_of_bool (tb 0 (nbits_ right))) by (by rewrite tb_0).
  rewrite Hnot, add_step. cbn [Z.b2z]. replace (0 + Z.lnot y + 1) with (- y) by (unfold Z.lnot; lia).
  destruct Hr as [_ Hf]. pose proof (fits_pos _ _ _ Hf) as Hpos.
  destruct (has_len_ right); cbn [negb]; rewrite ?andb_false_r, ?andb_true_r.
  { apply returns_ret. split; [|apply plain_sum]. apply result_sized; try done. cbn [with_sign verinum_of_bits bits_].
    destruct (has_sign_ right); [done|]. apply Vbits_mod. by rewrite Z.mod_mod by lia. }
  destruct (has_sign_ right).
  - rewrite lookup_Vbits by (specialize (Hpos eq_refl); lia). cbn [mbind option_bind].
    apply returns_ret. split; [|apply plain_grown]. apply result_exact; try done.
    refine (grown_rep true _ _ _ Hpos). apply (fits_sub _ 0 y); [by apply fits_0|done].
  - apply returns_ret. split; [|apply plain_sum]. apply result_exact; try done. apply ungrown_rep.
Qed.

(** *** Copies *)

Lemma scan_down_spec p top :
  let t := scan_down p top in
  (t <= top)%nat /\ (forall i, (t < i <= top)%nat -> p i = true) /\ (t = 0%nat \/ p t = false).
Proof.
  induction top as [|top IH]; cbn [scan_down]; cbv zeta in *.
  - split; [lia|]. split; [lia|by left].
  - destruct (p (S top)) eqn:E.
    + destruct IH as (H1 & H2 & H3). split; [lia|]. split; [|done]. intros i Hi.
      destruct (decide (i = S top)) as [->|]; [done|]. apply H2. lia.
    + split; [lia|]. split; [lia|by right].
Qed.

Lemma set_returns v idx b :
  (idx < nbits_ v)%nat -> set v idx b = Some (with_bits v (<[idx := b]> (bits_ v))).
Proof. intros H. unfold set. by rewrite (proj2 (Nat.ltb_lt idx (nbits_ v)) H). Qed.

Lemma get_some v i : (i < nbits_ v)%nat -> exists b, get v i = Some b.
Proof. apply lookup_lt_is_Some_2. Qed.

Lemma get_with v l i : get (with_bits v l) i = l !! i.
Proof. done. Qed.

(** [r] is [res] with other bits. *)
Definition same_flags (res r : verinum) : Prop := r = with_bits res (bits_ r) /\ nbits_ r = nbits_ res.

Lemma copy_block that res (src dst : nat -> nat) i n so lo :
  (forall k, (i <= k < i + n)%nat -> src k = (so + (k - i))%nat /\ dst k = (lo + (k - i))%nat) ->
  (so + n <= nbits_ that)%nat -> (lo + n <= nbits_ res)%nat ->
  returns (for_ i n (fun idx val => b ← get that (src idx); set val (dst idx) b) res)
    (fun r => same_flags res r /\
       forall j, get r j = if (lo <=? j)%nat && (j <? lo + n)%nat then get that (so + (j - lo)) else get res j).
Proof.
  intros Hk Hso Hlo.
  eapply returns_mono; [apply (returns_for (fun k r => same_flags res r /\
    forall j, get r j = if (lo <=? j)%nat && (j <? lo + (k - i))%nat then get that (so + (j - lo)) else get res j))|].
  - split; [by destruct res|]. intros j. rewrite Nat.sub_diag, Nat.add_0_r.
    destruct (Nat.leb_spec lo j), (Nat.ltb_spec j lo); cbn [andb]; (done || lia).
  - intros k r Hki [[Hr Hn] Hg]. destruct (Hk k Hki) as [-> ->].
    destruct (get_some that (so + (k - i))) as [b Hb]; [lia|]. rewrite Hb. cbn [mbind option_bind].
    rewrite set_returns by lia. apply returns_ret. split.
    + split; [by rewrite Hr|]. unfold nbits_ in *. cbn [with_bits bits_]. by rewrite length_insert.
    + intros j. rewrite get_with. destruct (decide (j = lo + (k - i))%nat) as [->|Hj].
      * rewrite list_lookup_insert_eq by (fold (nbits_ r); lia).
        rewrite (proj2 (Nat.leb_le _ _)), (proj2 (Nat.ltb_lt (lo + (k - i)) (lo + (S k - i)))) by lia. cbn [andb].
        rewrite <- Hb. f_equal. lia.
      * rewrite list_lookup_insert_ne by done. fold (get r j). rewrite Hg.
        destruct (Nat.leb_spec lo j), (Nat.ltb_spec j (lo + (k - i))), (Nat.ltb_spec j (lo + (S k - i))); cbn [andb]; (done || lia).
  - intros r H. by replace (i + n - i)%nat with n in H by lia.
Qed.

Lemma Vbits_get v n z :
  nbits_ v = n -> (forall i, (i < n)%nat -> get v i = Some (V_of_bool (tb z i))) -> bits_ v = Vbits n z.
Proof. intros Hn H. by apply Vbits_intro. Qed.

Lemma get_fill val n h s i : (i < n)%nat -> get (with_sign (verinum_fill val n h) s) i = Some val.
Proof. intros Hi. unfold get. cbn. by apply lookup_replicate_2. Qed.

Lemma nbits_fill val n h s : nbits_ (with_sign (verinum_fill val n h) s) = n.
Proof. apply length_replicate. Qed.

(** The number [z] in another width. *)
Lemma rep_width v w z :
  rep v z -> bits_ w = Vbits (nbits_ w) z -> has_sign_ w = has_sign_ v ->
  (forall i, (nbits_ w <= i)%nat -> tb z i = has_sign_ v && tb z (nbits_ w - 1)) ->
  (has_sign_ v = true -> (0 < nbits_ w)%nat) -> rep w z.
Proof. intros Hv Hb Hs Hi Hn. split; [done|]. rewrite Hs. by apply fits_intro. Qed.

Lemma trimmed_spec v z tlen :
  rep v z -> (tlen <= nbits_ v)%nat -> (has_sign_ v = true -> (0 < tlen)%nat) ->
  (forall i, (tlen <= i < nbits_ v)%nat -> tb z i = has_sign_ v && tb z (tlen - 1)) ->
  returns (trimmed v tlen) (fun r => has_len_ r = false /\ has_sign_ r = has_sign_ v /\ nbits_ r = tlen /\ rep r z).
Proof.
  intros Hr Ht Hp Hi. unfold trimmed. rewrite nbits_fill.
  eapply returns_mono.
  { apply (copy_block v _ (fun idx => idx) (fun idx => idx) 0 tlen 0 0); rewrite ?nbits_fill; lia. }
  intros r [[Hw Hn] Hg]. rewrite nbits_fill in Hn. 
  assert (has_sign_ r = has_sign_ v) as Hs by (by rewrite Hw). assert (has_len_ r = false) as Hl by (by rewrite Hw).
  repeat (split; [done|]). apply (rep_width v); [done|rewrite Hn|done|rewrite Hn|by rewrite Hn].
  - apply Vbits_get; [done|]. intros i Hlt. rewrite Hg.
    rewrite (proj2 (Nat.ltb_lt i _)) by lia. cbn [Nat.leb andb]. rewrite Nat.sub_0_r. apply rep_get; [done|lia].
  - intros i Hle. destruct (Nat.lt_ge_cases i (nbits_ v)); [by apply Hi|].
    destruct (Nat.lt_ge_cases tlen (nbits_ v)) as [Hlt|].
    + rewrite (fits_tb _ _ _ i (proj2 Hr)) by done. rewrite (Hi (nbits_ v - 1)%nat) by lia.
      by destruct (has_sign_ v).
    + replace tlen with (nbits_ v) by lia. by apply fits_tb; [apply Hr|].
Qed.

Lemma bit_is_rep v z b i :
  rep v z -> (i < nbits_ v)%nat -> bit_is v (V_of_bool b) i = Bool.eqb (tb z i) b.
Proof. intros Hr Hi. unfold bit_is. by rewrite (rep_get v z), V_eqb_bool. Qed.

Lemma trim_spec v z :
  rep v z -> returns (trim_vnum v) (fun r =>
    has_len_ r = has_len_ v /\ has_sign_ r = has_sign_ v /\ (nbits_ r <= nbits_ v)%nat /\
    (has_len_ v = true -> r = v) /\ rep r z).
Proof.
  intros Hr. unfold trim_vnum. destruct (has_len_ v) eqn:Hl; [by apply returns_ret|].
  destruct (Nat.ltb_spec (nbits_ v) 2) as [|Hn]; [by apply returns_ret|].
  assert (forall tlen, (tlen <= nbits_ v)%nat -> (has_sign_ v = true -> (0 < tlen)%nat) ->
    (forall i, (tlen <= i < nbits_ v)%nat -> tb z i = has_sign_ v && tb z (tlen - 1)) ->
    returns (trimmed v tlen) (fun r => has_len_ r = false /\ has_sign_ r = has_sign_ v /\
      (nbits_ r <= nbits_ v)%nat /\ (false = true -> r = v) /\ rep r z)) as HT.
  { intros tlen H1 H2 H3. eapply returns_mono; [exact (trimmed_spec v z tlen Hr H1 H2 H3)|].
    intros r (? & ? & Hn' & ?). by rewrite Hn'. }
  destruct (has_sign_ v) eqn:Hs.
  - rewrite (rep_get v z) by (done || lia). cbn [mbind option_bind].
    set (top := (nbits_ v - 1)%nat). set (p := bit_is v (V_of_bool (tb z top))).
    destruct (scan_down_spec p top) as (H1 & H2 & H3). set (t := scan_down p top) in *.
    assert (forall i, (i <= top)%nat -> p i = Bool.eqb (tb z i) (tb z top)) as Hp
      by (intros i Hi; apply bit_is_rep; [done|lia]).
    set (t' := if negb (p t) then (t + 1)%nat else t).
    assert (t <= t' <= top)%nat as Ht'.
    { unfold t'. rewrite Hp by done. destruct (Bool.eqb_spec (tb z t) (tb z top)); cbn [negb]; [lia|].
      destruct (decide (t = top)) as [->|]; [done|lia]. }
    assert (forall i, (t' <= i <= top)%nat -> tb z i = tb z top) as Hsame.
    { intros i Hi. apply eqb_prop. rewrite <- Hp by lia. unfold t' in Hi. destruct (p t) eqn:E; cbn [negb] in Hi.
      - destruct (decide (i = t)) as [->|]; [by rewrite E|]. rewrite H2 by lia. done.
      - rewrite H2 by lia. done. }
    apply HT; [lia|lia|].
    intros i Hi. cbn [andb]. rewrite Hsame by lia. symmetry. apply Hsame. lia.
  - set (top := (nbits_ v - 1)%nat). set (p := bit_is v V0).
    destruct (scan_down_spec p top) as (H1 & H2 & H3). set (t := scan_down p top) in *.
    assert (forall i, (i <= top)%nat -> p i = negb (tb z i)) as Hp.
    { intros i Hi. unfold p. change V0 with (V_of_bool false). rewrite (bit_is_rep v z) by (done || lia). by destruct (tb z i). }
    destruct (Nat.eqb_spec (t + 1) (nbits_ v)); [by apply returns_ret|].
    assert (forall i, (t < i < nbits_ v)%nat -> tb z i = false) as Hz.
    { intros i Hi. specialize (H2 i ltac:(lia)). rewrite Hp in H2 by lia. by apply negb_true_iff in H2. }
    rewrite Hp by done. destruct (tb z t) eqn:E; cbn [negb].
    + apply HT; [lia|done|].
      intros i Hi. apply Hz. lia.
    + apply HT; [lia|done|].
      intros i Hi. apply Hz. lia.
Qed.

Lemma trim_sized v : has_len_ v = true -> trim_vnum v = Some v.
Proof. intros H. unfold trim_vnum. by rewrite H. Qed.

(** A trimmed constant of one repeated bit has no other bits. *)
Lemma trim_filled x n h s :
  (0 < n)%nat -> returns (trim_vnum (with_sign (verinum_fill x n h) s)) (fun r => Forall (fun b => b = x) (bits_ r)).
Proof.
  intros Hn. set (v := with_sign _ _). assert (nbits_ v = n) as Hnv by apply nbits_fill.
  assert (forall b, get v b = Some x \/ get v b = None) as Hv.
  { intros i. unfold get; cbn. destruct (decide (i < n)%nat); [left; by apply lookup_replicate_2|right].
    apply lookup_ge_None_2. rewrite length_replicate. lia. }
  assert (Forall (fun b => b = x) (bits_ v)) as Hall by (cbn; apply Forall_replicate; done).
  assert (forall tlen, (tlen <= n)%nat -> returns (trimmed v tlen) (fun r => Forall (fun b => b = x) (bits_ r))) as HT.
  { intros tlen Ht. unfold trimmed. rewrite nbits_fill. eapply returns_mono.
    { apply (copy_block v _ (fun idx => idx) (fun idx => idx) 0 tlen 0 0); rewrite ?nbits_fill, ?Hnv; lia. }
    intros r [[_ Hl] Hg]. rewrite nbits_fill in Hl. apply Forall_lookup. intros i b Hi.
    pose proof (lookup_lt_Some _ _ _ Hi) as Hlt. fold (nbits_ r) in Hlt. fold (get r i) in Hi. rewrite Hg in Hi.
    rewrite (proj2 (Nat.ltb_lt i _)), (proj2 (Nat.leb_le 0 i)) in Hi by lia. cbn [andb] in Hi.
    destruct (Hv (0 + (i - 0))%nat); congruence. }
  unfold trim_vnum. change (has_len_ v) with h. rewrite Hnv.
  destruct h; [by apply returns_ret|]. destruct (Nat.ltb_spec n 2); [by apply returns_ret|]. change (has_sign_ v) with s.
  destruct s.
  - unfold get at 1. cbn [v with_sign bits_ verinum_fill]. rewrite lookup_replicate_2 by lia. cbn [mbind option_bind].
    set (p := bit_is v x). destruct (scan_down_spec p (n - 1)) as (H1 & H2 & H3). set (t := scan_down p (n - 1)) in *.
    assert (t = 0%nat) as Ht.
    { destruct H3 as [|H3]; [done|]. unfold p, bit_is in H3. destruct (Hv t) as [E|E]; rewrite E in H3.
      - by destruct (V_eqb_spec x x).
      - apply lookup_ge_None_1 in E. fold (nbits_ v) in E. lia. }
    apply HT. rewrite Ht. destruct (negb _); lia.
  - set (p := bit_is v V0). destruct (scan_down_spec p (n - 1)) as (H1 & _).
    destruct (Nat.eqb_spec (scan_down p (n - 1) + 1) n); [by apply returns_ret|]. apply HT.
    match goal with |- ((if ?c then _ else _) <= _)%nat => destruct c end; lia.
Qed.

(** *** Widths *)

Lemma pad_bit_spec v z :
  rep v z -> is_single_ v = false -> (0 < nbits_ v)%nat ->
  pad_bit v = Some (V_of_bool (has_sign_ v && tb z (nbits_ v - 1))).
Proof.
  intros Hr Hs Hn. unfold pad_bit. rewrite (rep_get v z) by (done || lia). cbn [mbind option_bind].
  rewrite Hs. by destruct (has_sign_ v), (has_len_ v), (tb z (nbits_ v - 1)).
Qed.

Lemma padded_spec v z width hl :
  rep v z -> (nbits_ v <= width)%nat ->
  returns (padded v (V_of_bool (has_sign_ v && tb z (nbits_ v - 1))) width hl) (fun r =>
    has_len_ r = hl /\ has_sign_ r = has_sign_ v /\ nbits_ r = width /\ rep r z).
Proof.
  intros Hr Hw. unfold padded. set (pad := V_of_bool _). eapply returns_bind.
  { apply (copy_block v (verinum_fill pad width hl) (fun i => i) (fun i => i) 0 (nbits_ v) 0 0); [lia..|].
    unfold nbits_; cbn [verinum_fill bits_]. rewrite length_replicate. fold (nbits_ v). lia. }
  intros r [[Hf Hn] Hg]. apply returns_ret.
  assert (nbits_ (verinum_fill pad width hl) = width) as Hn' by (apply length_replicate).
  rewrite Hn' in Hn. change (nbits_ (with_sign r (has_sign_ v))) with (nbits_ r).
  split; [by rewrite Hf|]. split; [done|]. split; [done|].
  split; [|cbn [with_sign has_sign_]; eapply fits_mono; [apply Hr|]; change (nbits_ (with_sign r (has_sign_ v))) with (nbits_ r); lia].
  apply (Vbits_get r); [done|]. intros i Hi. change (nbits_ (with_sign r (has_sign_ v))) with (nbits_ r) in Hi.
  rewrite Hg. cbn [Nat.leb andb Nat.add].
  destruct (Nat.ltb_spec i (nbits_ v)).
  - rewrite Nat.sub_0_r. by apply rep_get.
  - rewrite (fits_tb _ _ _ i (proj2 Hr)) by done. unfold get; cbn [verinum_fill bits_].
    by rewrite lookup_replicate_2 by lia.
Qed.

Lemma rep_zero_width v z : rep v z -> nbits_ v = 0%nat -> z = 0 /\ has_sign_ v = false.
Proof.
  intros [_ Hf] Hn. rewrite Hn in Hf. destruct (has_sign_ v); cbn in Hf; [lia|]. split; [lia|done].
Qed.

Lemma rep_fill_0 n hl s : (s = true -> (0 < n)%nat) -> rep (with_sign (verinum_fill V0 n hl) s) 0.
Proof.
  intros H. split; cbn [with_sign verinum_fill bits_ has_sign_]; rewrite nbits_fill; [by rewrite Vbits_0|by apply fits_0].
Qed.

Lemma copy_spec v z nbits :
  rep v z -> is_single_ v = false ->
  returns (verinum_copy v nbits) (fun r =>
    has_len_ r = true /\ has_sign_ r = has_sign_ v /\ bits_ r = Vbits nbits z).
Proof.
  intros Hr Hs. unfold verinum_copy. rewrite Hs, orb_false_r. destruct Hr as [Hb Hf]. rewrite Hb.
  set (copy := Nat.min nbits (nbits_ v)). rewrite take_Vbits by lia.
  eapply returns_bind with (Q := fun bits => bits = Vbits nbits z).
  2:{ intros bits ->. by apply returns_ret. }
  destruct (Nat.ltb_spec copy nbits) as [Hlt|]; [|apply returns_ret; f_equal; lia].
  eapply returns_mono.
  { apply (returns_for (fun k bits => bits = Vbits k z)); [done|]. intros k bits Hk ->.
    pose proof (fun i => fits_tb _ _ _ i Hf) as Hpad. rewrite Vbits_S.
    destruct (has_sign_ v); cbn [andb] in Hpad.
    - destruct Hf as [Hpos _]. rewrite lookup_Vbits by lia. cbn [mbind option_bind]. apply returns_ret.
      do 3 f_equal. rewrite (Hpad k) by lia.
      destruct (decide (k = nbits_ v)) as [->|]; [done|apply Hpad; lia].
    - apply returns_ret. by rewrite Hpad by lia. }
  intros bits ->. f_equal. lia.
Qed.

Lemma cast_spec v z width :
  rep v z -> is_single_ v = false ->
  returns (cast_to_width v width) (fun r =>
    has_len_ r = true /\ has_sign_ r = has_sign_ v /\ bits_ r = Vbits width z).
Proof.
  intros Hr Hs. unfold cast_to_width. destruct (has_len_ v && (nbits_ v =? width)%nat) eqn:E.
  { apply andb_true_iff in E as [Hl <-%Nat.eqb_eq]. apply returns_ret. by destruct Hr. }
  destruct (Nat.leb_spec width (nbits_ v)); [by apply copy_spec|].
  destruct (Nat.eqb_spec (nbits_ v) 0) as [Hn|Hn].
  { destruct (rep_zero_width v z Hr Hn) as [-> _]. apply returns_ret. repeat split. by rewrite Vbits_0. }
  rewrite (pad_bit_spec v z) by (done || lia). cbn [mbind option_bind].
  eapply returns_mono; [apply padded_spec; [done|lia]|]. intros r (? & ? & Hn' & Hb & _).
  by rewrite Hb, Hn'.
Qed.

Lemma pad_spec v z width :
  rep v z -> is_single_ v = false -> string_flag_ v = false ->
  returns (pad_to_width v width) (fun r =>
    has_len_ r = has_len_ v /\ has_sign_ r = has_sign_ v /\ nbits_ r = Nat.max (nbits_ v) width /\ rep r z).
Proof.
  intros Hr Hs Hf. unfold pad_to_width. destruct (Nat.leb_spec width (nbits_ v)).
  { apply returns_ret. repeat (split; [done || lia|]). done. }
  destruct (Nat.eqb_spec (nbits_ v) 0) as [Hn|Hn].
  { destruct (rep_zero_width v z Hr Hn) as [-> Hsg]. apply returns_ret. rewrite nbits_fill.
    repeat (split; [done || lia|]). apply rep_fill_0. by rewrite Hsg. }
  rewrite (pad_bit_spec v z) by (done || lia). cbn [mbind option_bind]. rewrite Hf. cbn [andb].
  eapply returns_bind; [apply padded_spec; [done|lia]|]. intros r (? & ? & Hn' & ?).
  apply returns_ret. repeat (split; [done || lia|]). done.
Qed.

(** *** Shifts *)

Lemma tb_shifted z n i : tb (z * 2 ^ Z.of_nat n) i = (n <=? i)%nat && tb z (i - n).
Proof.
  unfold tb. rewrite <- Z.shiftl_mul_pow2 by lia. destruct (Nat.leb_spec n i); cbn [andb].
  - rewrite Z.shiftl_spec by lia. f_equal. lia.
  - apply Z.shiftl_spec_low. lia.
Qed.

Lemma tb_shifted_down z n i : tb (z / 2 ^ Z.of_nat n) i = tb z (i + n).
Proof. unfold tb. rewrite <- Z.shiftr_div_pow2, Z.shiftr_spec by lia. f_equal. lia. Qed.

(** The result of a trimmed operation. *)
Lemma trim_result s n z r :
  has_sign_ r = s -> nbits_ r = n -> bits_ r = Vbits n z -> (s = true -> (0 < n)%nat) ->
  (has_len_ r = false -> fits s n z) ->
  returns (trim_vnum r) (result_is (has_len_ r) s n z).
Proof.
  intros Hs Hn Hb Hp Hf. destruct (has_len_ r) eqn:Hl.
  - rewrite trim_sized by done. by apply returns_ret, result_sized.
  - assert (rep r z) as Hr by (split; [by rewrite Hn|rewrite Hs, Hn; auto]).
    eapply returns_mono; [by apply (trim_spec r z)|]. intros r' (H1 & H2 & _ & _ & H3).
    apply result_exact; congruence.
Qed.

Lemma fits_shl s n z k : fits s n z -> fits s (n + k) (z * 2 ^ Z.of_nat k).
Proof.
  intros Hf. apply fits_intro; [intros H; pose proof (fits_pos _ _ _ Hf H); lia|].
  intros i Hi. rewrite !tb_shifted. rewrite (proj2 (Nat.leb_le k i)) by lia. cbn [andb].
  rewrite (fits_tb s n z (i - k)) by (done || lia). destruct s; cbn [andb]; [|done].
  pose proof (fits_pos _ _ _ Hf eq_refl).
  rewrite (proj2 (Nat.leb_le k (n + k - 1))) by lia. cbn [andb]. f_equal. lia.
Qed.

Lemma shl_spec v z shift :
  rep v z ->
  returns (verinum_shl v shift) (result_is (has_len_ v) (has_sign_ v) (nbits_ v) (z * 2 ^ Z.of_nat shift)).
Proof.
  intros Hr. unfold verinum_shl. destruct Hr as [Hb Hf]. pose proof (fits_pos _ _ _ Hf) as Hpos.
  set (len := if has_len_ v then nbits_ v else (nbits_ v + shift)%nat).
  assert (nbits_ v <= len <= nbits_ v + shift)%nat as Hlen by (unfold len; destruct (has_len_ v); lia).
  set (z' := z * 2 ^ Z.of_nat shift). set (res := with_sign (verinum_fill V0 len (has_len_ v)) (has_sign_ v)).
  assert (nbits_ res = len) as Hnres by apply nbits_fill.
  eapply returns_bind with (Q := fun r => same_flags res r /\ bits_ r = Vbits len z').
  - destruct (Nat.le_gt_cases shift len) as [Hle|Hgt].
    + eapply returns_mono.
      { apply (copy_block v res (fun i => (i - shift)%nat) (fun i => i) shift (len - shift) 0 shift); lia. }
      intros r [Hsame Hg]. split; [done|]. apply Vbits_get; [destruct Hsame; congruence|].
      intros i Hi. rewrite Hg. unfold z'. rewrite tb_shifted, (proj2 (Nat.ltb_lt i _)), andb_true_r by lia.
      destruct (Nat.leb_spec shift i); cbn [andb]; [|by apply get_fill].
      apply (rep_get v z); [done|]. lia.
    + replace (len - shift)%nat with 0%nat by lia. apply returns_ret. split; [done|].
      apply Vbits_get; [done|]. intros i Hi. unfold z'.
      rewrite tb_shifted, (proj2 (Nat.leb_gt shift i)) by lia. by apply get_fill.
  - intros r [[Hfl Hn] Hbits]. rewrite Hnres in Hn.
    assert (has_len_ r = has_len_ v) as Hl by (by rewrite Hfl). assert (has_sign_ r = has_sign_ v) as Hs by (by rewrite Hfl).
    eapply returns_mono; [apply (trim_result (has_sign_ v) len z' r); try done; [intros Hsg; specialize (Hpos Hsg); lia|]|].
    + rewrite Hl. intros E. unfold len. rewrite E. by apply fits_shl.
    + rewrite Hl. intros r' H. unfold len in H. destruct (has_len_ v); [done|]. by apply (result_unsized _ _ (nbits_ v) _ _ H).
Qed.

Lemma shr_spec v z shift :
  rep v z ->
  returns (verinum_shr v shift) (fun r =>
    has_len_ r = has_len_ v /\ has_sign_ r = has_sign_ v /\ (has_len_ v = true -> nbits_ r = nbits_ v) /\
    rep r (z / 2 ^ Z.of_nat shift)).
Proof.
  intros Hr. unfold verinum_shr. set (n := nbits_ v). set (z' := z / 2 ^ Z.of_nat shift).
  rewrite (rep_sign_bit v z n) by done. cbn [mbind option_bind].
  pose proof Hr as [Hb Hf]. pose proof (fits_pos _ _ _ Hf) as Hpos.
  assert (forall i, (n <= i + shift)%nat -> tb z' i = tb z n) as Htop.
  { intros i Hi. unfold z'. rewrite tb_shifted_down. by apply (rep_same_pad v z). }
  assert (forall m, (n <= m + shift)%nat -> (has_sign_ v = true -> (0 < m)%nat) ->
    (has_sign_ v = true -> tb z' (m - 1) = tb z n) -> fits (has_sign_ v) m z') as Hfit.
  { intros m Hm Hp Hpred. apply fits_intro; [done|]. intros i Hi. rewrite Htop by lia.
    rewrite (fits_tb _ _ _ n Hf) by done. destruct (has_sign_ v); cbn [andb]; [|done].
    rewrite Hpred by done. symmetry. by apply (fits_tb true). }
  destruct (Nat.leb_spec n shift) as [Hle|Hlt].
  - set (m := if has_len_ v then n else 1%nat). apply returns_ret.
    split; [done|]. split; [done|]. rewrite nbits_fill. split; [by unfold m; intros ->|].
    split; cbn [with_sign verinum_fill bits_ has_sign_]; rewrite nbits_fill.
    + apply Vbits_intro; [apply length_replicate|]. intros i Hi. rewrite lookup_replicate_2, Htop by (done || lia). done.
    + apply Hfit; [lia| |intros _; apply Htop; lia]. intros Hs. specialize (Hpos Hs). unfold m. destruct (has_len_ v); lia.
  - set (len := if has_len_ v then n else (n - shift)%nat).
    assert (n - shift <= len <= n)%nat as Hlen by (unfold len; destruct (has_len_ v); lia).
    set (res := with_sign (verinum_fill (V_of_bool (tb z n)) len (has_len_ v)) (has_sign_ v)).
    assert (nbits_ res = len) as Hnres by apply nbits_fill.
    eapply returns_bind.
    { apply (copy_block v res (fun i => i) (fun i => (i - shift)%nat) shift (n - shift) shift 0); fold n; lia. }
    intros r [[Hfl Hn] Hg]. rewrite Hnres in Hn.
    assert (has_len_ r = has_len_ v) as Hl by (by rewrite Hfl). assert (has_sign_ r = has_sign_ v) as Hs by (by rewrite Hfl).
    assert (rep r z') as Hr'.
    { split.
      - apply Vbits_get; [done|]. rewrite Hn. intros i Hi. rewrite Hg. cbn [Nat.leb andb Nat.add].
        destruct (Nat.ltb_spec i (n - shift)).
        + rewrite Nat.sub_0_r, (rep_get v z) by (done || fold n; lia). unfold z'. rewrite tb_shifted_down. do 3 f_equal. lia.
        + rewrite Htop by lia. by apply get_fill.
      - rewrite Hs, Hn. apply Hfit; [lia|lia|]. intros Hsg. unfold z'. rewrite tb_shifted_down.
        rewrite (fits_tb _ _ _ n Hf), Hsg by done. cbn [andb].
        destruct (Nat.le_gt_cases n (len - 1 + shift)); [|do 2 f_equal; fold n; lia].
        rewrite (fits_tb _ _ _ (len - 1 + shift) Hf), Hsg by done. done. }
    eapply returns_mono; [by apply (trim_spec r z')|]. intros r' (H1 & H2 & _ & H3 & H4).
    split; [congruence|]. split; [congruence|]. split; [|done]. intros E. rewrite H3 by congruence.
    rewrite Hn. unfold len. by rewrite E.
Qed.

(** *** Products *)

(** One row of the multiplication adds [x * 2^rdx] to the result. *)
Lemma mul_add_spec left x p len rdx r R :
  rep left x -> sign_bit left = Some p -> (rdx <= len)%nat -> bits_ r = Vbits len R ->
  returns (mul_add left p len rdx r) (fun r' =>
    r' = with_bits r (bits_ r') /\ bits_ r' = Vbits len (R + x * 2 ^ Z.of_nat rdx)).
Proof.
  intros Hl Hp Hrdx Hb. unfold mul_add. set (R' := R + x * 2 ^ Z.of_nat rdx). set (q := R / 2 ^ Z.of_nat rdx).
  assert (forall k, tb R' (rdx + k) = tb (x + q + Z.b2z false) k) as Hhigh.
  { intros k. cbn [Z.b2z]. rewrite Z.add_0_r, (Nat.add_comm rdx), <- tb_shifted_down. unfold R', q.
    by rewrite Z.div_add, Z.add_comm by lia. }
  assert (forall k, tb R (rdx + k) = tb q k) as Hq.
  { intros k. unfold q. by rewrite tb_shifted_down, Nat.add_comm. }
  eapply returns_bind with (Q := fun '(r', carry) => r' = with_bits r (bits_ r') /\ length (bits_ r') = len /\
    forall i, (i < len)%nat -> bits_ r' !! i = Some (V_of_bool (tb R' i))).
  2:{ intros [r' c] (H1 & H2 & H3). apply returns_ret. split; [done|]. by apply Vbits_intro. }
  eapply returns_mono; [apply (returns_for (fun k '(r', carry) => r' = with_bits r (bits_ r') /\ length (bits_ r') = len /\
    carry = V_of_bool (carry_at x q false k) /\
    forall i, (i < len)%nat -> bits_ r' !! i = Some (V_of_bool (if (i <? rdx + k)%nat then tb R' i else tb R i))))|].
  - rewrite carry_0. split; [by destruct r|]. split; [by rewrite Hb, length_Vbits|]. split; [done|].
    intros i Hi. rewrite Hb, lookup_Vbits, Nat.add_0_r by done. do 2 f_equal.
    destruct (Nat.ltb_spec i rdx); [|done]. apply (tb_mod_eq _ _ rdx); [|done]. unfold R'. by rewrite Z.mod_add by lia.
  - intros k [r' c] Hk (Hw & Hlen & -> & Hbits). rewrite (rep_padded left x p k) by done.
    unfold get. rewrite (Hbits (rdx + k)%nat), (proj2 (Nat.ltb_ge (rdx + k) _)) by lia. cbn [mbind option_bind].
    rewrite Hq, add_step, <- Hhigh, set_returns by (unfold nbits_; lia). cbn [mbind option_bind]. apply returns_ret.
    split; [by rewrite Hw|]. cbn [with_bits bits_]. rewrite length_insert. split; [done|]. split; [done|].
    intros i Hi. destruct (decide (i = k + rdx)%nat) as [->|Hne].
    + rewrite list_lookup_insert_eq by lia. rewrite (proj2 (Nat.ltb_lt _ _)) by lia. do 3 f_equal. lia.
    + rewrite list_lookup_insert_ne, Hbits by done. do 2 f_equal.
      destruct (Nat.ltb_spec i (rdx + k)), (Nat.ltb_spec i (rdx + S k)); (done || lia).
  - intros [r' c] (H1 & H2 & _ & H3). split; [done|]. split; [done|]. intros i Hi. rewrite H3 by done.
    by rewrite (proj2 (Nat.ltb_lt i _)) by lia.
Qed.

Lemma mul_spec left right x y :
  rep left x -> rep right y ->
  (has_len_ left && has_len_ right = false -> has_sign_ left = has_sign_ right) ->
  returns (verinum_mul left right)
    (result_is (has_len_ left && has_len_ right) (has_sign_ left && has_sign_ right)
       (Nat.max (nbits_ left) (nbits_ right)) (x * y)).
Proof.
  intros Hl Hr Hs. unfold verinum_mul. rewrite (rep_defined left x), (rep_defined right y) by done. cbn [negb orb].
  pose proof (rep_pos_max left right x y Hl Hr) as Hpos.
  set (hl := has_len_ left && has_len_ right) in *. set (s := has_sign_ left && has_sign_ right) in *.
  set (len := if hl then Nat.max (nbits_ left) (nbits_ right) else (nbits_ left + nbits_ right)%nat).
  assert (s = true -> (0 < len)%nat) as Hlen.
  { intros E. specialize (Hpos E). unfold len. destruct hl; lia. }
  set (res := with_sign (verinum_fill V0 len hl) s).
  rewrite (rep_sign_bit right y (nbits_ right)), (rep_sign_bit left x (nbits_ left)) by done. cbn [mbind option_bind].
  eapply returns_bind with (Q := fun r => r = with_bits res (bits_ r) /\ bits_ r = Vbits len (x * y)).
  - eapply returns_mono; [apply (returns_for (fun k r => r = with_bits res (bits_ r) /\
      bits_ r = Vbits len (x * (y mod 2 ^ Z.of_nat k))))|].
    + split; [done|]. change (2 ^ Z.of_nat 0) with 1. rewrite Z.mod_1_r, Z.mul_0_r. by rewrite Vbits_0.
    + intros k r Hk [Hw Hb].
      rewrite (rep_padded right y) by (done || by apply rep_sign_bit). cbn [mbind option_bind].
      change V0 with (V_of_bool false). rewrite V_eqb_bool, tb_succ_mod.
      destruct (tb y k) eqn:E; cbn [Bool.eqb Z.b2z].
      * eapply returns_mono; [apply (mul_add_spec left x); [done|by apply rep_sign_bit|lia|exact Hb]|].
        intros r' [H1 H2]. split; [by rewrite H1, Hw|]. rewrite H2. f_equal. lia.
      * apply returns_ret. split; [done|]. rewrite Hb. f_equal. lia.
    + intros r [Hw Hb]. split; [done|]. rewrite Hb. apply Vbits_mod. cbn [Nat.add].
      by rewrite Z.mul_mod_idemp_r by lia.
  - intros r [Hw Hb].
    assert (has_len_ r = hl) as Hl' by (by rewrite Hw). assert (has_sign_ r = s) as Hs' by (by rewrite Hw).
    eapply returns_mono.
    { apply (trim_result s len (x * y) r); try done; [unfold nbits_; by rewrite Hb, length_Vbits|].
      rewrite Hl'. intros E. specialize (Hs E). unfold len, s. rewrite E, Hs, andb_diag.
      apply fits_mul; [|apply Hr]. rewrite <- Hs. apply Hl. }
    rewrite Hl'. intros r' H. unfold len in H. destruct hl; [done|]. by eapply result_unsized.
Qed.

(** *** Comparisons *)

Lemma rep_unsigned u z : bits_ u = Vbits (nbits_ u) z -> 0 <= z < 2 ^ Z.of_nat (nbits_ u) -> rep (with_sign u false) z.
Proof. done. Qed.

(** What the comparisons return. *)
Definition V_compare (out_if_equal : V) (x y : Z) : V :=
  match x ?= y with Lt => V1 | Gt => V0 | Eq => out_if_equal end.

Lemma tb_eq x y : (forall i, tb x i = tb y i) -> x = y.
Proof.
  intros H. apply Z.bits_inj'. intros k Hk. specialize (H (Z.to_nat k)). unfold tb in H.
  by rewrite Z2Nat.id in H by lia.
Qed.

Lemma high_bits_equal x y m : (forall i, (m <= i)%nat -> tb x i = tb y i) -> x / 2 ^ Z.of_nat m = y / 2 ^ Z.of_nat m.
Proof.
  intros H. apply tb_eq. intros i. rewrite !tb_shifted_down. apply H. lia.
Qed.

Lemma div_pow_lt x y m : x / 2 ^ Z.of_nat m < y / 2 ^ Z.of_nat m -> x < y.
Proof.
  intros H. destruct (Z.lt_ge_cases x y) as [|Hge]; [done|].
  pose proof (Z.div_le_mono y x (2 ^ Z.of_nat m) ltac:(lia) Hge). lia.
Qed.

Lemma div_pow_S x m : x / 2 ^ Z.of_nat m = 2 * (x / 2 ^ Z.of_nat (S m)) + Z.b2z (tb x m).
Proof.
  rewrite tb_div, pow2_succ, (Z.mul_comm 2 (2 ^ _)), <- Z.div_div by lia.
  set (q := x / 2 ^ Z.of_nat m). pose proof (Z.div2_odd q) as H. by rewrite Z.div2_div in H.
Qed.

Lemma less_loop_spec left right x y out idx :
  rep left x -> rep right y -> (idx <= nbits_ left)%nat -> (idx <= nbits_ right)%nat ->
  x / 2 ^ Z.of_nat idx = y / 2 ^ Z.of_nat idx ->
  less_loop left right out idx = Some (V_compare out x y).
Proof.
  intros Hl Hr. induction idx as [|idx IH]; intros Hnl Hnr E; cbn [less_loop].
  - change (2 ^ Z.of_nat 0) with 1 in E. rewrite !Z.div_1_r in E. subst. unfold V_compare. by rewrite Z.compare_refl.
  - rewrite (rep_get left x), (rep_get right y) by (done || lia). cbn [mbind option_bind].
    pose proof (div_pow_S x idx) as Ex. pose proof (div_pow_S y idx) as Ey. rewrite E in Ex.
    destruct (tb x idx), (tb y idx); cbn [V_of_bool V_int V_eqb Z.eqb orb Z.ltb Z.compare Z.b2z Pos.compare Pos.compare_cont] in *.
    + apply IH; lia.
    + f_equal. unfold V_compare. pose proof (div_pow_lt y x idx ltac:(lia)) as H. by rewrite (proj2 (Z.compare_gt_iff x y) H).
    + f_equal. unfold V_compare. pose proof (div_pow_lt x y idx ltac:(lia)) as H. by rewrite (proj2 (Z.compare_lt_iff x y) H).
    + apply IH; lia.
Qed.

Lemma pad_differs_spec v z p n lo :
  rep v z -> ((0 < n)%nat -> (lo + n <= nbits_ v)%nat) ->
  exists b, pad_differs v (V_of_bool p) n lo = Some b /\
    if b then exists i, (lo <= i < lo + n)%nat /\ tb z i = negb p
    else forall i, (lo <= i < lo + n)%nat -> tb z i = p.
Proof.
  intros Hr. induction n as [|n IH]; intros Hn; cbn [pad_differs]; [exists false; split; [done|lia]|].
  rewrite (rep_get v z) by (done || lia). cbn [mbind option_bind]. rewrite V_eqb_bool.
  destruct (Bool.eqb_spec (tb z (lo + n)) p) as [E|E]; cbn [negb].
  - destruct IH as (b & -> & H); [lia|]. exists b. split; [done|]. destruct b.
    + destruct H as (i & Hi & Ei). exists i. split; [lia|done].
    + intros i Hi. destruct (decide (i = lo + n)%nat) as [->|]; [done|apply H; lia].
  - exists true. split; [done|]. exists (lo + n)%nat. split; [lia|]. by destruct (tb z (lo + n)), p.
Qed.

(** A number whose sign is [p] and that has another bit from [m] on is beyond the
    numbers of [m] bits. *)
Lemma far_out z p m i :
  (z <? 0) = p -> (m <= i)%nat -> tb z i = negb p -> if p then z < - 2 ^ Z.of_nat m else 2 ^ Z.of_nat m <= z.
Proof.
  intros Hs Hi Hb. destruct p; [apply Z.ltb_lt in Hs|apply Z.ltb_ge in Hs]; cbn [negb] in Hb.
  - apply Z.nle_gt. intros H. rewrite (tb_sign z (Z.of_nat m)) in Hb by lia.
    by rewrite (proj2 (Z.ltb_lt _ _)) in Hb.
  - apply Z.nlt_ge. intros H. rewrite (tb_small z (Z.of_nat m)) in Hb by lia. done.
Qed.

(** The sign as the comparisons see it: that of unsigned operands is 0. *)
Lemma pads_spec left right x y :
  rep left x -> rep right y -> has_sign_ left = has_sign_ right ->
  pads left right = Some (V_of_bool (x <? 0), V_of_bool (y <? 0)).
Proof.
  intros Hl Hr Hs. unfold pads. pose proof Hl as [_ Fx]. pose proof Hr as [_ Fy]. rewrite Hs in *.
  destruct (has_sign_ right); cbn [andb].
  - pose proof Fx as [Px _]. pose proof Fy as [Py _].
    rewrite (rep_get left x), (rep_get right y) by (done || lia). cbn [mbind option_bind].
    by rewrite !fits_sign.
  - cbn [fits] in Fx, Fy. by rewrite !(proj2 (Z.ltb_ge _ _)) by lia.
Qed.

Lemma rep_high_bit v z i : rep v z -> (nbits_ v <= i)%nat -> tb z i = (z <? 0).
Proof.
  intros [_ Hf] Hi. destruct (has_sign_ v); cbn [fits] in Hf.
  - apply (tb_sign z (Z.of_nat (nbits_ v) - 1)); [apply Hf|lia].
  - rewrite (tb_small z (Z.of_nat (nbits_ v))), (proj2 (Z.ltb_ge _ _)) by lia. done.
Qed.

Lemma rep_range v z : rep v z -> - 2 ^ Z.of_nat (nbits_ v) <= z < 2 ^ Z.of_nat (nbits_ v).
Proof.
  intros [_ Hf]. destruct (has_sign_ v); cbn [fits] in Hf; [|lia].
  destruct Hf as [Hn Hz]. rewrite (pow2_pred (nbits_ v)) by done. lia.
Qed.

Lemma less_spec out left right x y :
  rep left x -> rep right y -> has_sign_ left = has_sign_ right ->
  verinum_less out left right = Some (V_compare out x y).
Proof.
  intros Hl Hr Hs. unfold verinum_less. rewrite (pads_spec left right x y) by done. rewrite <- Hs, andb_diag.
  cbn [mbind option_bind]. unfold V_opposite. change V1 with (V_of_bool true). change V0 with (V_of_bool false).
  rewrite !V_eqb_bool.
  assert (has_sign_ left = false -> (x <? 0) = false) as Hx.
  { intros E. pose proof Hl as [_ F]. rewrite E in F. cbn [fits] in F. apply Z.ltb_ge. lia. }
  assert (has_sign_ left = false -> (y <? 0) = false) as Hy.
  { intros E. pose proof Hr as [_ F]. rewrite <- Hs, E in F. cbn [fits] in F. apply Z.ltb_ge. lia. }
  destruct (Bool.eqb_spec (x <? 0) (y <? 0)) as [E|E].
  - rewrite E in *. 
    assert (forall b, Bool.eqb b true && Bool.eqb b false = false) as -> by (by intros []).
    rewrite andb_false_r.
    destruct (pad_differs_spec left x (y <? 0) (nbits_ left - nbits_ right) (nbits_ right)) as (b & -> & Hb); [done|lia|].
    cbn [mbind option_bind]. pose proof (rep_range left x Hl). pose proof (rep_range right y Hr).
    destruct b.
    { destruct Hb as (i & Hi & Hb). pose proof (far_out x (y <? 0) (nbits_ right) i E ltac:(lia) Hb) as F.
      f_equal. unfold V_compare. destruct (y <? 0) eqn:Ey; cbn [Bool.eqb].
      - destruct (has_sign_ left); [|by specialize (Hy eq_refl)]. cbn [andb].
        by rewrite (proj2 (Z.compare_lt_iff x y)) by lia.
      - rewrite andb_false_r. by rewrite (proj2 (Z.compare_gt_iff x y)) by lia. }
    destruct (pad_differs_spec right y (y <? 0) (nbits_ right - nbits_ left) (nbits_ left)) as (b & -> & Hb'); [done|lia|].
    cbn [mbind option_bind]. destruct b.
    { destruct Hb' as (i & Hi & Hb'). pose proof (far_out y (y <? 0) (nbits_ left) i eq_refl ltac:(lia) Hb') as F.
      f_equal. unfold V_compare. destruct (y <? 0) eqn:Ey; cbn [Bool.eqb].
      - destruct (has_sign_ left); [|by specialize (Hy eq_refl)]. cbn [andb].
        by rewrite (proj2 (Z.compare_gt_iff x y)) by lia.
      - rewrite andb_false_r. by rewrite (proj2 (Z.compare_lt_iff x y)) by lia. }
    apply less_loop_spec; [done..|lia|lia|]. apply high_bits_equal. intros i Hi.
    destruct (Nat.lt_ge_cases i (nbits_ left)), (Nat.lt_ge_cases i (nbits_ right)); try lia.
    + rewrite Hb by lia. symmetry. by apply (rep_high_bit right).
    + rewrite Hb' by lia. rewrite <- E. by apply (rep_high_bit left).
    + rewrite (rep_high_bit left), (rep_high_bit right) by done. done.
  - destruct (has_sign_ left); [|by rewrite Hx, Hy in E].
    f_equal. unfold V_compare.
    destruct (Z.ltb_spec x 0), (Z.ltb_spec y 0); try done; cbn [Bool.eqb andb].
    + by rewrite (proj2 (Z.compare_lt_iff x y)) by lia.
    + by rewrite (proj2 (Z.compare_gt_iff x y)) by lia.
Qed.

Lemma eq_loop_spec left right x y n idx :
  rep left x -> rep right y ->
  eq_loop left right (V_of_bool (x <? 0)) (V_of_bool (y <? 0)) n idx =
  Some (V_of_bool (forallb (fun i => Bool.eqb (tb x i) (tb y i)) (seq idx n))).
Proof.
  intros Hl Hr. revert idx. induction n as [|n IH]; intros idx; cbn [eq_loop seq forallb]; [done|].
  assert (forall v z, rep v z -> (if (idx <? nbits_ v)%nat then get v idx else Some (V_of_bool (z <? 0))) =
    Some (V_of_bool (tb z idx))) as Hb.
  { intros v z Hv. destruct (Nat.ltb_spec idx (nbits_ v)); [by apply rep_get|].
    by rewrite (rep_high_bit v z idx). }
  rewrite (Hb left x Hl), (Hb right y Hr). cbn [mbind option_bind]. rewrite V_eqb_bool, IH.
  by destruct (Bool.eqb _ _).
Qed.

Lemma eq_spec left right x y :
  rep left x -> rep right y -> has_sign_ left = has_sign_ right ->
  verinum_eq left right = Some (V_of_bool (x =? y)).
Proof.
  intros Hl Hr Hs. unfold verinum_eq. rewrite (pads_spec left right x y) by done. cbn [mbind option_bind].
  unfold V_opposite. change V1 with (V_of_bool true). change V0 with (V_of_bool false). rewrite !V_eqb_bool.
  destruct (Bool.eqb_spec (x <? 0) (y <? 0)) as [E|E].
  - rewrite eq_loop_spec by done. rewrite E.
    assert (forall b, Bool.eqb b true && Bool.eqb b false = false) as -> by (by intros []).
    do 2 f_equal. apply eq_iff_eq_true. rewrite forallb_forall, Z.eqb_eq. split.
    + intros H. apply tb_eq. intros i. destruct (Nat.lt_ge_cases i (Nat.max (nbits_ left) (nbits_ right))).
      * apply eqb_prop, H, in_seq. lia.
      * rewrite (rep_high_bit left), (rep_high_bit right) by (done || lia). done.
    + intros -> i _. apply eqb_reflx.
  - rewrite (proj2 (Z.eqb_neq x y)) by (intros ->; done).
    by destruct (x <? 0), (y <? 0).
Qed.

(** *** Native integers *)

(** The bits of [z] from [k] on, as the loops over an array meet them. *)
Definition bits_from (k n : nat) (z : Z) : list V := map (fun i => V_of_bool (tb z i)) (seq k n).

Lemma in_from_S k n i : (k <=? i)%nat && (i <? k + S n)%nat = (i =? k)%nat || ((S k <=? i)%nat && (i <? S k + n)%nat).
Proof.
  destruct (Nat.leb_spec k i), (Nat.ltb_spec i (k + S n)), (Nat.eqb_spec i k), (Nat.leb_spec (S k) i),
    (Nat.ltb_spec i (S k + n)); cbn [andb orb]; (done || lia).
Qed.

Lemma tb_pow2 k i : tb (2 ^ Z.of_nat k) i = (i =? k)%nat.
Proof.
  unfold tb. rewrite Z.pow2_bits_eqb by lia. apply eq_iff_eq_true. rewrite Z.eqb_eq, Nat.eqb_eq. lia.
Qed.

Lemma set_loop_spec n k z val i :
  tb (set_loop (bits_from k n z) val (2 ^ Z.of_nat k)) i = tb val i || ((k <=? i)%nat && (i <? k + n)%nat && tb z i).
Proof.
  revert k val. induction n as [|n IH]; intros k val; cbn [bits_from seq map set_loop].
  - destruct (Nat.leb_spec k i), (Nat.ltb_spec i (k + 0)); cbn [andb]; rewrite ?orb_false_r; (done || lia).
  - replace (Z.shiftl (2 ^ Z.of_nat k) 1) with (2 ^ Z.of_nat (S k)) by (rewrite Z.shiftl_mul_pow2, pow2_succ by lia; lia).
    fold (bits_from (S k) n z). rewrite IH, in_from_S. change V1 with (V_of_bool true). rewrite V_eqb_bool.
    destruct (tb z k) eqn:E; cbn [Bool.eqb]; rewrite ?tb_lor, ?tb_pow2;
      (destruct (Nat.eqb_spec i k) as [->|]; cbn [orb andb]; [rewrite E, ?orb_true_r, ?(proj2 (Nat.leb_gt (S k) k)) by lia|]);
      cbn [andb]; rewrite ?orb_false_r; done.
Qed.

Lemma clear_loop_spec n k z val i :
  tb (clear_loop (bits_from k n z) val (Z.lnot (2 ^ Z.of_nat k))) i = 
  tb val i && (negb ((k <=? i)%nat && (i <? k + n)%nat) || tb z i).
Proof.
  revert k val. induction n as [|n IH]; intros k val; cbn [bits_from seq map clear_loop].
  - destruct (Nat.leb_spec k i), (Nat.ltb_spec i (k + 0)); cbn [andb negb orb]; rewrite ?andb_true_r; (done || lia).
  - replace (Z.lor (Z.shiftl (Z.lnot (2 ^ Z.of_nat k)) 1) 1) with (Z.lnot (2 ^ Z.of_nat (S k))).
    2:{ apply tb_eq. intros j. rewrite tb_lor, tb_1, !tb_lnot, tb_pow2.
        replace (Z.shiftl (Z.lnot (2 ^ Z.of_nat k)) 1) with (Z.lnot (2 ^ Z.of_nat k) * 2 ^ Z.of_nat 1)
          by (rewrite Z.shiftl_mul_pow2 by lia; done).
        rewrite tb_shifted, tb_lnot, tb_pow2.
        destruct (Nat.eqb_spec j (S k)), (Nat.leb_spec 1 j), (Nat.eqb_spec (j - 1) k), (Nat.eqb_spec j 0); cbn; (done || lia). }
    fold (bits_from (S k) n z). rewrite IH, in_from_S. change V0 with (V_of_bool false). rewrite V_eqb_bool.
    destruct (tb z k) eqn:E; cbn [Bool.eqb]; rewrite ?tb_land, ?tb_lnot, ?tb_pow2;
      (destruct (Nat.eqb_spec i k) as [->|]; cbn [orb andb negb]; [rewrite E, ?(proj2 (Nat.leb_gt (S k) k)) by lia|]);
      cbn [andb negb orb]; rewrite ?andb_true_r, ?andb_false_r; done.
Qed.

Lemma take_bits v n z : bits_ v = Vbits (nbits_ v) z -> take n (bits_ v) = bits_from 0 (Nat.min n (nbits_ v)) z.
Proof.
  intros ->. destruct (Nat.le_gt_cases n (nbits_ v)).
  - rewrite take_Vbits by done. by rewrite Nat.min_l by done.
  - rewrite take_ge by (rewrite length_Vbits; lia). by rewrite Nat.min_r by lia.
Qed.

Lemma as_long_range v z : rep v z -> - 2 ^ 63 <= z < 2 ^ 63 -> as_long v = z.
Proof.
  intros Hr Hrange. pose proof Hr as [Hb Hf]. unfold as_long.
  destruct (Nat.eqb_spec (nbits_ v) 0) as [E|Hpos]; [by destruct (rep_zero_width v z Hr E)|].
  rewrite (rep_defined v z) by done. cbn [negb].
  replace (has_sign_ v && bit_is v V1 (nbits_ v - 1)) with (z <? 0).
  2:{ destruct (has_sign_ v) eqn:Hs; cbn [andb].
      - change V1 with (V_of_bool true). rewrite (bit_is_rep v z) by (done || lia). rewrite fits_sign by done. by destruct (z <? 0).
      - cbn [fits] in Hf. apply Z.ltb_ge. lia. }
  rewrite (take_bits v IVLLBITS z) by done. change IVLLBITS with 63%nat. set (n := Nat.min 63 (nbits_ v)).
  assert (forall i, (n <= i)%nat -> tb z i = (z <? 0)) as Hhigh.
  { intros i Hi. destruct (Nat.le_gt_cases (nbits_ v) i); [by apply (rep_high_bit v)|]. apply (tb_sign z 63); [done|lia]. }
  apply tb_eq. intros i. destruct (z <? 0); cbn [Bool.eqb].
  - rewrite (clear_loop_spec n 0 z). unfold tb at 1. rewrite Z.bits_m1 by lia. cbn [Nat.leb andb Nat.add].
    destruct (Nat.ltb_spec i n); cbn [negb orb]; [done|]. by rewrite Hhigh.
  - change 1 with (2 ^ Z.of_nat 0). rewrite (set_loop_spec n 0 z), tb_0. cbn [Nat.leb andb Nat.add orb].
    destruct (Nat.ltb_spec i n); cbn [andb]; [done|]. by rewrite Hhigh.
Qed.

Lemma as_long_spec v z :
  rep v z -> has_sign_ v = true -> (nbits_ v <= 64)%nat -> as_long v = z.
Proof.
  intros Hr Hs Hn. apply as_long_range; [done|]. destruct Hr as [_ Hf]. rewrite Hs in Hf. destruct Hf as [Hpos Hrange].
  assert (2 ^ (Z.of_nat (nbits_ v) - 1) <= 2 ^ 63) by (apply Z.pow_le_mono_r; lia). lia.
Qed.

(** The mask of the next bit, in [w] bits. *)
Lemma next_mask w k :
  Z.shiftl (if (k <? w)%nat then 2 ^ Z.of_nat k else 0) 1 mod 2 ^ Z.of_nat w = if (S k <? w)%nat then 2 ^ Z.of_nat (S k) else 0.
Proof.
  destruct (Nat.ltb_spec k w); [|rewrite (proj2 (Nat.ltb_ge _ _)), Z.shiftl_0_l by lia; by rewrite Z.mod_0_l by lia].
  replace (Z.shiftl (2 ^ Z.of_nat k) 1) with (2 ^ Z.of_nat (S k)) by (rewrite Z.shiftl_mul_pow2, pow2_succ by lia; lia).
  destruct (Nat.ltb_spec (S k) w).
  - rewrite Z.mod_small; [done|]. split; [lia|]. apply Z.pow_lt_mono_r; lia.
  - replace (S k) with w by lia. by rewrite Z.mod_same by lia.
Qed.

Lemma as_uint_loop_spec w n k z val :
  (forall i, (w <= i)%nat -> tb z i = false) ->
  as_uint_loop w (bits_from k n z) val (if (k <? w)%nat then 2 ^ Z.of_nat k else 0) =
  set_loop (bits_from k n z) val (2 ^ Z.of_nat k).
Proof.
  intros Hz. revert k val. induction n as [|n IH]; intros k val; cbn [bits_from seq map as_uint_loop set_loop]; [done|].
  fold (bits_from (S k) n z).
  replace (Z.shiftl (2 ^ Z.of_nat k) 1) with (2 ^ Z.of_nat (S k)) by (rewrite Z.shiftl_mul_pow2, pow2_succ by lia; lia).
  rewrite next_mask.
  change V1 with (V_of_bool true). rewrite V_eqb_bool. destruct (tb z k) eqn:E; cbn [Bool.eqb]; [|apply IH].
  destruct (Nat.ltb_spec k w); [|by rewrite Hz in E].
  rewrite (proj2 (Z.eqb_neq _ _)) by lia. apply IH.
Qed.

Lemma as_uint_spec w v z :
  rep v z -> has_sign_ v = false -> z < 2 ^ Z.of_nat w -> as_uint w v = z.
Proof.
  intros Hr Hs Hw. pose proof Hr as [Hb Hf]. rewrite Hs in Hf. cbn [fits] in Hf. unfold as_uint.
  destruct (Nat.eqb_spec (nbits_ v) 0) as [E|]; [by destruct (rep_zero_width v z Hr E)|].
  rewrite (rep_defined v z) by done. cbn [negb]. rewrite Hb. change (Vbits (nbits_ v) z) with (bits_from 0 (nbits_ v) z).
  assert (forall i, (w <= i)%nat -> tb z i = false) as Hz by (intros i Hi; apply (tb_small z (Z.of_nat w)); lia).
  pose proof (as_uint_loop_spec w (nbits_ v) 0 z 0 Hz) as Hloop.
  change (2 ^ Z.of_nat 0) with 1 in Hloop. destruct (Nat.ltb_spec 0 w).
  - rewrite Hloop. apply tb_eq. intros i. change 1 with (2 ^ Z.of_nat 0).
    rewrite set_loop_spec, tb_0. cbn [Nat.leb andb Nat.add orb].
    destruct (Nat.ltb_spec i (nbits_ v)); cbn [andb]; [done|]. symmetry. apply (tb_small z (Z.of_nat (nbits_ v))); lia.
  - replace w with 0%nat in * by lia. cbn in Hw. assert (z = 0) as -> by lia.
    assert (forall n k, as_uint_loop 0 (bits_from k n 0) 0 1 = 0 /\ as_uint_loop 0 (bits_from k n 0) 0 0 = 0) as H0.
    { intros m. induction m as [|m IH]; intros k; [done|]. cbn [bits_from seq map as_uint_loop]. rewrite tb_0.
      change (2 ^ Z.of_nat 0) with 1. rewrite !Z.mod_1_r. cbn [V_of_bool V_eqb V_int Z.eqb]. split; apply (IH (S k)). }
    apply H0.
Qed.

Lemma native_bits_spec n z : native_bits n z = Vbits n z.
Proof.
  revert z. induction n as [|n IH]; intros z; cbn [native_bits]; [done|]. rewrite IH.
  unfold Vbits. cbn [seq map]. f_equal.
  - change 1 with (Z.ones 1). rewrite Z.land_ones by lia. unfold tb. change (Z.of_nat 0) with 0.
    rewrite Z.bit0_odd, Zodd_mod. change (2 ^ 1) with 2. pose proof (Z.mod_pos_bound z 2 ltac:(lia)).
    destruct (Z.eqb_spec (z mod 2) 0) as [->|]; [done|]. by replace (z mod 2) with 1 by lia.
  - rewrite <- seq_shift, map_map. apply map_ext. intros i. f_equal. unfold tb. rewrite Z.shiftr_spec by lia. f_equal. lia.
Qed.

(** *** Long division *)

Lemma result_rep s n z r : result_is false s n z r -> rep r z.
Proof. intros (_ & _ & Hn & _ & Hz). rewrite <- Hz. by apply number_rep. Qed.

Lemma result_bits hl s n z r : result_is hl s n z r -> (hl = true -> bits_ r = Vbits n z).
Proof.
  intros (_ & _ & Hn & Hw & Hz) ->. specialize (Hw eq_refl).
  pose proof (number_rep r Hn) as [Hb _]. rewrite Hb, Hz, Hw. apply Vbits_cast.
Qed.

(** The constants long division works on. *)
Definition natural (v : verinum) (z : Z) : Prop := has_len_ v = false /\ has_sign_ v = false /\ rep v z.

Lemma used_width_spec v z :
  has_sign_ v = false -> rep v z ->
  (used_width v <= nbits_ v)%nat /\ z < 2 ^ Z.of_nat (used_width v) /\
  (0 < z -> (0 < used_width v)%nat /\ 2 ^ Z.of_nat (used_width v - 1) <= z).
Proof.
  intros Hs Hr. pose proof Hr as [_ Hf]. rewrite Hs in Hf. cbn [fits] in Hf. unfold used_width.
  destruct (scan_down_spec (fun w => bit_is v V0 (w - 1)) (nbits_ v)) as (H1 & H2 & H3).
  set (w := scan_down _ _) in *. cbv beta in *.
  assert (forall i, (0 < i <= nbits_ v)%nat -> bit_is v V0 (i - 1) = negb (tb z (i - 1))) as Hp.
  { intros i Hi. change V0 with (V_of_bool false). rewrite (bit_is_rep v z) by (done || lia). by destruct (tb z (i - 1)). }
  assert (z < 2 ^ Z.of_nat w) as Hlt.
  { apply small_tb. intros i Hi. destruct (Nat.lt_ge_cases i (nbits_ v)).
    - specialize (H2 (S i) ltac:(lia)). rewrite Hp in H2 by lia. replace (S i - 1)%nat with i in H2 by lia.
      by apply negb_true_iff in H2.
    - apply (tb_small z (Z.of_nat (nbits_ v))); lia. }
  split; [done|]. split; [done|]. intros Hz.
  assert (0 < w)%nat as Hw.
  { destruct w; [|lia]. change (2 ^ Z.of_nat 0) with 1 in Hlt. lia. }
  split; [done|]. destruct H3 as [|H3]; [lia|]. rewrite Hp in H3 by lia. apply negb_false_iff in H3.
  apply Z.nlt_ge. intros H. rewrite (tb_small z (Z.of_nat (w - 1))) in H3 by lia. done.
Qed.

Lemma divide_round_spec num den r d :
  natural num r -> natural den d ->
  returns (divide_round num den) (fun '(num', fits, den') =>
    fits = (d <=? r) /\ natural num' (if d <=? r then r - d else r) /\ natural den' (d / 2) /\
    (is_single_ num = false -> is_single_ num' = false) /\ (nbits_ num <= nbits_ num')%nat).
Proof.
  intros (Hl & Hs & Hr) (Hl' & Hs' & Hr'). unfold divide_round.
  unfold verinum_leeq. rewrite (less_spec V1 den num d r) by congruence. cbn [mbind option_bind].
  assert (negb (V_eqb (V_compare V1 d r) V0) = (d <=? r)) as ->.
  { unfold V_compare, Z.leb. by destruct (d ?= r). }
  pose proof (shr_spec den d 1 Hr') as Hshr. change (2 ^ Z.of_nat 1) with 2 in Hshr.
  pose proof (rep_range num r Hr) as Rr. pose proof Hr' as [_ Fd]. rewrite Hs' in Fd. cbn [fits] in Fd.
  eapply returns_bind with (Q := fun num' => natural num' (if d <=? r then r - d else r) /\
    (is_single_ num = false -> is_single_ num' = false) /\ (nbits_ num <= nbits_ num')%nat).
  - destruct (Z.leb_spec d r); [|by apply returns_ret].
    eapply returns_mono; [by apply (sub_spec num den r d Hr Hr'); rewrite Hs, Hs'|].
    intros num' [H1 (H2 & _ & H3)]. rewrite Hl, Hs in H1. cbn [andb] in H1.
    assert (2 ^ Z.of_nat (nbits_ num) <= 2 ^ Z.of_nat (Nat.max (nbits_ num) (nbits_ den))) by (apply Z.pow_le_mono_r; lia).
    rewrite Z.mod_small in H1 by lia.
    split; [|split; [done|lia]]. split; [apply H1|]. split; [apply H1|]. by apply result_rep in H1.
  - intros num' (H1 & H2 & H3). eapply returns_bind; [exact Hshr|]. intros den' (H4 & H5 & _ & H6).
    apply returns_ret. split; [done|]. split; [done|]. split; [|done]. split; [congruence|]. split; [congruence|done].
Qed.

(** Setting a bit that is 0. *)
Lemma Vbits_set_bit n q i :
  (i < n)%nat -> <[i := V1]> (Vbits n (q * 2 ^ Z.of_nat (S i))) = Vbits n ((2 * q + 1) * 2 ^ Z.of_nat i).
Proof.
  intros Hi. apply Vbits_intro; [by rewrite length_insert, length_Vbits|]. intros j Hj.
  assert (forall k, tb (2 * q + 1) k = (k =? 0)%nat || ((1 <=? k)%nat && tb q (k - 1))) as Hodd.
  { intros [|k]; unfold tb; [by rewrite Z.testbit_odd_0|]. rewrite Nat2Z.inj_succ, Z.testbit_odd_succ by lia.
    cbn [Nat.eqb orb Nat.leb andb]. by replace (S k - 1)%nat with k by lia. }
  rewrite tb_shifted, Hodd. destruct (decide (j = i)) as [->|Hne].
  - rewrite list_lookup_insert_eq by (rewrite length_Vbits; lia).
    by rewrite (proj2 (Nat.leb_le i i)), Nat.sub_diag by lia.
  - rewrite list_lookup_insert_ne, lookup_Vbits, tb_shifted by done. do 2 f_equal.
    destruct (Nat.leb_spec (S i) j), (Nat.leb_spec i j), (Nat.eqb_spec (j - i) 0), (Nat.leb_spec 1 (j - i)); cbn [andb orb];
      try (done || lia). f_equal. lia.
Qed.

Lemma divide_step y r q i :
  0 < y -> (if y * 2 ^ Z.of_nat i <=? r
            then (2 * q + 1) * 2 ^ Z.of_nat i + (r - y * 2 ^ Z.of_nat i) / y
            else q * 2 ^ Z.of_nat (S i) + r / y) = q * 2 ^ Z.of_nat (S i) + r / y.
Proof.
  intros Hy. destruct (_ <=? _); [|done].
  replace (r - y * 2 ^ Z.of_nat i) with (r + (- 2 ^ Z.of_nat i) * y) by lia.
  rewrite Z.div_add, pow2_succ by lia. lia.
Qed.

(** The invariant of both loops before the round that decides bit [idx - 1]. *)
Definition dividing (idx : nat) (y r : Z) (num den : verinum) : Prop :=
  natural num r /\ r < y * 2 ^ Z.of_nat idx /\
  exists d, natural den d /\ ((0 < idx)%nat -> d = y * 2 ^ Z.of_nat (idx - 1)).

Lemma dividing_round i y r num den :
  0 < y -> dividing (S i) y r num den ->
  returns (divide_round num den) (fun '(num', fits, den') =>
    fits = (y * 2 ^ Z.of_nat i <=? r) /\
    dividing i y (if y * 2 ^ Z.of_nat i <=? r then r - y * 2 ^ Z.of_nat i else r) num' den' /\
    (is_single_ num = false -> is_single_ num' = false) /\ (nbits_ num <= nbits_ num')%nat).
Proof.
  intros Hy (Hn & Hr & d & Hd & Ed). specialize (Ed ltac:(lia)). replace (S i - 1)%nat with i in Ed by lia. subst d.
  eapply returns_mono; [by apply divide_round_spec|]. intros [[num' fits] den'] (H1 & H2 & H3 & H4 & H5).
  split; [done|]. split; [|done]. rewrite pow2_succ in Hr. split; [done|]. split.
  - destruct (Z.leb_spec (y * 2 ^ Z.of_nat i) r); lia.
  - eexists. split; [exact H3|]. intros Hi. replace i with (S (i - 1)) at 1 by lia. rewrite pow2_succ.
    replace (y * (2 * 2 ^ Z.of_nat (i - 1))) with (y * 2 ^ Z.of_nat (i - 1) * 2) by lia. by rewrite Z.div_mul by lia.
Qed.

Lemma divide_loop_spec idx y r num den result len q :
  0 < y -> dividing idx y r num den -> (idx <= len)%nat -> bits_ result = Vbits len (q * 2 ^ Z.of_nat idx) ->
  returns (divide_loop idx num den result) (fun res =>
    res = with_bits result (bits_ res) /\ bits_ res = Vbits len (q * 2 ^ Z.of_nat idx + r / y)).
Proof.
  intros Hy. revert r num den result q. induction idx as [|i IH]; intros r num den result q Hinv Hlen Hb; cbn [divide_loop].
  - destruct Hinv as ((_ & Hs & _ & Hf) & Hr & _). rewrite Hs in Hf. cbn [fits] in Hf.
    change (2 ^ Z.of_nat 0) with 1 in *. apply returns_ret. split; [by destruct result|].
    rewrite Z.div_small by lia. by rewrite Z.add_0_r.
  - eapply returns_bind; [by apply dividing_round|]. intros [[num' fits] den'] (-> & Hinv' & _).
    rewrite <- (divide_step y r q i) by done. destruct (y * 2 ^ Z.of_nat i <=? r).
    + rewrite set_returns by (unfold nbits_; rewrite Hb, length_Vbits; lia). cbn [mbind option_bind].
      eapply returns_mono; [apply (IH (r - y * 2 ^ Z.of_nat i) num' den' (with_bits result (<[i := V1]> (bits_ result))) (2 * q + 1)); [done|lia|]|].
      * cbn [with_bits bits_]. rewrite Hb. apply Vbits_set_bit. lia.
      * intros res [H1 H2]. split; [by rewrite H1|done].
    + cbn [mbind option_bind]. rewrite pow2_succ in Hb.
      replace (q * (2 * 2 ^ Z.of_nat i)) with (2 * q * 2 ^ Z.of_nat i) in Hb by lia.
      eapply returns_mono; [apply (IH r num' den' result (2 * q)); [done|lia|done]|].
      intros res [H1 H2]. split; [done|]. rewrite H2, pow2_succ. f_equal. lia.
Qed.

Lemma modulus_loop_spec idx y r num den :
  0 < y -> dividing idx y r num den ->
  returns (modulus_loop idx num den) (fun num' => natural num' (r mod y) /\
    (is_single_ num = false -> is_single_ num' = false) /\ (nbits_ num <= nbits_ num')%nat).
Proof.
  intros Hy. revert r num den. induction idx as [|i IH]; intros r num den Hinv; cbn [modulus_loop].
  - destruct Hinv as (Hn & Hr & _). pose proof Hn as (_ & Hs & _ & Hf). rewrite Hs in Hf. cbn [fits] in Hf.
    change (2 ^ Z.of_nat 0) with 1 in *. apply returns_ret. by rewrite Z.mod_small by lia.
  - eapply returns_bind; [by apply dividing_round|]. intros [[num' fits] den'] (_ & Hinv' & H1 & H2).
    eapply returns_mono; [by apply IH|]. intros num'' (H3 & H4 & H5). split; [|split; [auto|lia]].
    destruct (y * 2 ^ Z.of_nat i <=? r); [|done].
    replace (r - y * 2 ^ Z.of_nat i) with (r + (- 2 ^ Z.of_nat i) * y) in H3 by lia.
    by rewrite Z.mod_add in H3 by lia.
Qed.

Lemma with_len_rep v b z : rep v z -> rep (with_len v b) z.
Proof. done. Qed.

(** The divisor is shifted under the highest bit of the dividend. *)
Lemma division_starts num den x y :
  has_sign_ num = false -> has_sign_ den = false -> rep num x -> rep den y -> 0 < y ->
  let num := with_len num false in
  let den := with_len den false in
  let nwid := used_width num in
  let dwid := used_width den in
  0 <= x /\
  if (nwid <? dwid)%nat then x < y
  else returns (verinum_shl den (nwid - dwid)) (fun den' => dividing (nwid - dwid + 1) y x num den').
Proof.
  intros Hs Hs' Hr Hr' Hy num0 den0 nwid dwid. pose proof Hr as [_ Fx]. rewrite Hs in Fx. cbn [fits] in Fx.
  split; [lia|].
  destruct (used_width_spec num0 x Hs (with_len_rep num false x Hr)) as (_ & Hx & _).
  destruct (used_width_spec den0 y Hs' (with_len_rep den false y Hr')) as (_ & _ & Hd). specialize (Hd Hy). fold dwid in Hd. fold nwid in Hx.
  destruct (Nat.ltb_spec nwid dwid).
  - assert (2 ^ Z.of_nat nwid <= 2 ^ Z.of_nat (dwid - 1)) by (apply Z.pow_le_mono_r; lia). lia.
  - eapply returns_mono; [by apply (shl_spec den0 y)|]. intros den' H1. change (has_len_ den0) with false in H1.
    split; [done|]. split.
    + replace (nwid - dwid + 1)%nat with (nwid - (dwid - 1))%nat by lia.
      apply Z.lt_le_trans with (2 ^ Z.of_nat nwid); [done|].
      replace (2 ^ Z.of_nat nwid) with (2 ^ Z.of_nat (dwid - 1) * 2 ^ Z.of_nat (nwid - (dwid - 1)))
        by (rewrite <- Z.pow_add_r by lia; f_equal; lia).
      apply Z.mul_le_mono_nonneg_r; lia.
    + exists (y * 2 ^ Z.of_nat (nwid - dwid)). split; [|intros _; do 3 f_equal; lia].
      split; [apply H1|]. split; [|by apply result_rep in H1]. destruct H1 as (_ & -> & _). done.
Qed.

Lemma unsigned_divide_spec num den x y sr :
  has_sign_ num = false -> has_sign_ den = false -> rep num x -> rep den y -> 0 < y ->
  returns (unsigned_divide num den sr) (fun r =>
    is_single_ r = false /\ rep r (x / y) /\ (has_sign_ r = sr \/ (x / y = 0 /\ r = verinum_fill V0 1 true))).
Proof.
  intros Hs Hs' Hr Hr' Hy. pose proof (division_starts num den x y Hs Hs' Hr Hr' Hy) as Hst. cbv zeta in Hst.
  unfold unsigned_divide. set (nwid := used_width (with_len num false)) in *. set (dwid := used_width (with_len den false)) in *.
  destruct Hst as [Hx Hst]. destruct (Nat.ltb_spec nwid dwid).
  - apply returns_ret. rewrite Z.div_small by lia. split; [done|]. split; [by apply (rep_fill_0 1 true false)|by right].
  - eapply returns_bind; [exact Hst|]. intros den' Hinv. set (idx := (nwid - dwid + 1)%nat) in *.
    set (len := if sr then (idx + 1)%nat else idx).
    eapply returns_bind with (Q := fun r => r = with_sign (verinum_fill V0 len true) sr).
    { destruct sr; [|by apply returns_ret]. unfold len.
      rewrite set_returns by (unfold nbits_; cbn [verinum_fill bits_]; rewrite length_replicate; lia).
      cbn [mbind option_bind]. apply returns_ret. unfold with_sign, with_bits; cbn [verinum_fill bits_ has_len_ is_single_ string_flag_].
      unfold verinum_fill. by rewrite insert_replicate. }
    intros result ->. eapply returns_mono.
    { apply (divide_loop_spec idx y x _ den' _ len 0); [done|done|unfold len; destruct sr; lia|].
      cbn [with_sign verinum_fill bits_]. by rewrite Z.mul_0_l, Vbits_0. }
    rewrite Z.mul_0_l, Z.add_0_l. intros r [H1 H2].
    assert (has_sign_ r = sr) as H3 by (by rewrite H1). split; [by rewrite H1|]. split; [|by left].
    assert (nbits_ r = len) as H4 by (unfold nbits_; by rewrite H2, length_Vbits).
    split; [by rewrite H4|]. rewrite H3, H4. destruct Hinv as (_ & Hlt & _).
    pose proof (Z.div_lt_upper_bound x y (2 ^ Z.of_nat idx) Hy Hlt). pose proof (Z.div_pos x y Hx Hy).
    unfold len. destruct sr; cbn [fits]; [|lia]. split; [lia|].
    replace (Z.of_nat (idx + 1) - 1) with (Z.of_nat idx) by lia. lia.
Qed.

Lemma unsigned_modulus_spec num den x y :
  has_sign_ num = false -> has_sign_ den = false -> rep num x -> rep den y -> 0 < y ->
  returns (unsigned_modulus num den) (fun r => natural r (x mod y) /\
    (is_single_ num = false -> is_single_ r = false) /\ (nbits_ num <= nbits_ r)%nat).
Proof.
  intros Hs Hs' Hr Hr' Hy. pose proof (division_starts num den x y Hs Hs' Hr Hr' Hy) as Hst. cbv zeta in Hst.
  unfold unsigned_modulus. set (nwid := used_width (with_len num false)) in *. set (dwid := used_width (with_len den false)) in *.
  destruct Hst as [Hx Hst]. destruct (Nat.ltb_spec nwid dwid).
  - apply returns_ret. rewrite Z.mod_small by lia. done.
  - eapply returns_bind; [exact Hst|]. intros den' Hinv.
    eapply returns_mono; [by apply modulus_loop_spec|]. done.
Qed.

(** *** Division *)

Lemma use_abs_spec v z :
  rep v z -> has_sign_ v = true ->
  returns (use_abs v) (fun '(u, neg) => neg = (z <? 0) /\ has_sign_ u = false /\ rep u (Z.abs z) /\
    (is_single_ v = false -> is_single_ u = false) /\ (nbits_ v <= nbits_ u)%nat).
Proof.
  intros Hr Hs. pose proof Hr as [Hb Hf]. rewrite Hs in Hf. pose proof Hf as [Hpos Hrange].
  unfold use_abs, is_negative. rewrite (rep_get v z) by (done || lia). cbn [mbind option_bind].
  change V1 with (V_of_bool true). rewrite V_eqb_bool, fits_sign, Hs, andb_true_r by done.
  replace (Bool.eqb (z <? 0) true) with (z <? 0) by (by destruct (z <? 0)).
  pose proof (pow2_pred (nbits_ v) Hpos) as Hpow.
  destruct (Z.ltb_spec z 0) as [Hneg|Hnneg].
  - eapply returns_bind; [by apply neg_spec|]. rewrite Hs. intros u [Hres (H1 & _ & Hle)]. apply returns_ret.
    split; [done|]. split; [done|]. rewrite Z.abs_neq by lia. split; [|done].
    destruct (has_len_ v).
    + pose proof (result_bits _ _ _ _ _ Hres eq_refl) as Hbits. destruct Hres as (_ & _ & _ & Hn & _). specialize (Hn eq_refl).
      apply rep_unsigned; [by rewrite Hn|]. rewrite Hn. lia.
    + pose proof (result_rep _ _ _ _ Hres) as [Hbits Hfits]. destruct Hres as (_ & Hsu & _). rewrite Hsu in Hfits.
      apply rep_unsigned; [done|]. pose proof Hfits as [Hposu Hru]. rewrite (pow2_pred (nbits_ u)) by done. lia.
  - apply returns_ret. split; [done|]. split; [done|]. rewrite Z.abs_eq by lia.
    split; [|done]. apply rep_unsigned; [done|]. lia.
Qed.

(** A result of the long division, before it gets its width and its sign: it can
    be extended by its own sign, or it is wide enough, or it is the native one. *)
Definition unfinished (r : verinum) (z : Z) (use_len : nat) (hl s : bool) : Prop :=
  rep (with_sign r s) z /\ rep r z /\ is_single_ r = false \/
  rep (with_sign r s) z /\ bits_ r = Vbits (nbits_ r) z /\ (use_len <= nbits_ r)%nat \/
  has_len_ r = hl /\ bits_ r = Vbits use_len z.

Lemma cast_down v z width :
  bits_ v = Vbits (nbits_ v) z -> (width <= nbits_ v)%nat ->
  returns (cast_to_width v width) (fun r => has_len_ r = true /\ bits_ r = Vbits width z).
Proof.
  intros Hb Hw. unfold cast_to_width. destruct (has_len_ v && (nbits_ v =? width)%nat) eqn:E.
  { apply andb_true_iff in E as [Hl <-%Nat.eqb_eq]. by apply returns_ret. }
  rewrite (proj2 (Nat.leb_le width (nbits_ v))) by done. unfold verinum_copy.
  rewrite Nat.min_l, Nat.ltb_irrefl by done. apply returns_ret. split; [done|]. cbn [bits_].
  by rewrite Hb, take_Vbits.
Qed.

(** What the divisions return: an unsized quotient may come with [has_len]. *)
Definition quotient_is (hl s : bool) (n : nat) (z : Z) (r : verinum) : Prop :=
  has_sign_ r = s /\ number r /\ (hl = true -> has_len_ r = true /\ nbits_ r = n) /\ num r = int_cast n s z.

Lemma finish_spec r z use_len hl s :
  (s = true -> (0 < use_len)%nat) -> (hl = false -> fits s use_len z) -> unfinished r z use_len hl s ->
  returns (finish_division r use_len hl s) (quotient_is hl s use_len z).
Proof.
  intros Hs Hf Hr. unfold finish_division. destruct hl.
  - eapply returns_bind with (Q := fun r' => has_len_ r' = true /\ bits_ r' = Vbits use_len z).
    + destruct Hr as [(_ & Hr & Hsingle)|[(_ & Hb & Hle)|[Hl Hb]]].
      * eapply returns_mono; [by apply (cast_spec r z)|]. by intros r' (? & _ & ?).
      * by apply cast_down.
      * apply cast_down; unfold nbits_; rewrite Hb, length_Vbits; done.
    + intros r' [Hl Hb]. rewrite trim_sized by done. apply returns_ret.
      destruct (result_sized s use_len z (with_sign r' s)) as (H1 & H2 & H3 & H4 & H5); [done..|].
      split; [done|]. split; [done|]. split; [auto|done].
  - cbn [mbind option_bind]. eapply returns_mono; [apply (trim_spec _ z)|].
    + destruct Hr as [[Hr _]|[[Hr _]|[_ Hb]]]; [done..|]. specialize (Hf eq_refl).
      assert (nbits_ (with_sign r s) = use_len) as Hn by (unfold nbits_; cbn; by rewrite Hb, length_Vbits).
      split; [by rewrite Hn|by rewrite Hn].
    + intros r' (_ & H1 & _ & _ & H2). split; [done|]. split; [by apply (rep_number r' z)|]. split; [done|].
      rewrite int_cast_id by auto. by apply rep_num.
Qed.

Lemma rep_sign_pos v z : rep v z -> has_sign_ v = true -> (0 < nbits_ v)%nat.
Proof. intros [_ Hf] Hs. by apply (fits_pos _ _ _ Hf). Qed.

Lemma rep_signed_again r z s : rep r z -> has_sign_ r = s -> rep (with_sign r s) z.
Proof. intros Hr <-. by destruct r. Qed.

Lemma quot_abs x y : y <> 0 -> Z.quot x y = if xorb (x <? 0) (y <? 0) then - (Z.abs x / Z.abs y) else Z.abs x / Z.abs y.
Proof.
  intros Hy. rewrite <- (Z.quot_div_nonneg (Z.abs x)) by lia.
  destruct (Z.ltb_spec x 0), (Z.ltb_spec y 0); cbn [xorb];
    rewrite ?(Z.abs_neq x), ?(Z.abs_eq x), ?(Z.abs_neq y), ?(Z.abs_eq y) by lia;
    rewrite ?Z.quot_opp_l, ?Z.quot_opp_r by lia; rewrite ?Z.opp_involutive; done.
Qed.

Lemma rem_abs x y : y <> 0 -> Z.rem x y = if x <? 0 then - (Z.abs x mod Z.abs y) else Z.abs x mod Z.abs y.
Proof.
  intros Hy. rewrite <- (Z.rem_mod_nonneg (Z.abs x)) by lia.
  assert (Z.rem (Z.abs x) (Z.abs y) = Z.rem (Z.abs x) y) as ->.
  { destruct (Z.abs_spec y) as [[_ ->]|[_ ->]]; [done|]. by rewrite Z.rem_opp_r by lia. }
  destruct (Z.ltb_spec x 0); rewrite ?(Z.abs_neq x), ?(Z.abs_eq x) by lia; [|done].
  rewrite Z.rem_opp_l by lia. lia.
Qed.

Lemma signed_divide_spec left right x y :
  rep left x -> rep right y -> has_sign_ left = true -> has_sign_ right = true -> y <> 0 ->
  returns ('(use_left, lneg) ← use_abs left;
           '(use_right, rneg) ← use_abs right;
           result ← unsigned_divide use_left use_right true;
           if xorb lneg rneg then verinum_neg result else Some result)
    (fun r => rep (with_sign r true) (Z.quot x y) /\ rep r (Z.quot x y) /\ is_single_ r = false).
Proof.
  intros Hl Hr Hsl Hsr Hy.
  eapply returns_bind; [by apply use_abs_spec|]. intros [ul ln] (-> & H1 & H2 & _).
  eapply returns_bind; [by apply use_abs_spec|]. intros [ur rn] (-> & H3 & H4 & _).
  eapply returns_bind; [apply (unsigned_divide_spec ul ur (Z.abs x) (Z.abs y) true); done || lia|].
  intros q (Hq1 & Hq2 & Hq3). rewrite (quot_abs x y) by done. set (z := Z.abs x / Z.abs y) in *.
  assert (0 <= z) as Hz by (apply Z.div_pos; lia).
  assert (rep (with_sign (verinum_fill V0 1 true) true) 0) as H0 by (apply rep_fill_0; lia).
  assert (rep (verinum_fill V0 1 true) 0) as H0' by (by apply (rep_fill_0 1 true false)).
  destruct (xorb _ _).
  - destruct Hq3 as [Hs|[E ->]].
    + eapply returns_mono; [by apply (neg_spec q z)|]. rewrite Hs. intros r [Hres (Hs1 & _ & _)].
      assert (rep r (- z)) as Hrep.
      { destruct (has_len_ q); [|by apply result_rep in Hres].
        pose proof (result_bits _ _ _ _ _ Hres eq_refl) as Hb. destruct Hres as (_ & Hsr' & _ & Hn & _). specialize (Hn eq_refl).
        split; [by rewrite Hn|]. rewrite Hsr', Hn. pose proof Hq2 as [_ Hf]. rewrite Hs in Hf. destruct Hf as [Hpos Hf].
        split; [done|]. lia. }
      destruct Hres as (_ & Hsr' & _). split; [by apply rep_signed_again|done].
    + rewrite E. exists (with_sign (verinum_fill V0 1 true) false). done.
  - apply returns_ret. split; [|done]. destruct Hq3 as [Hs|[E ->]]; [by apply rep_signed_again|].
    by rewrite E.
Qed.

Lemma signed_modulus_spec left right x y :
  rep left x -> rep right y -> has_sign_ left = true -> has_sign_ right = true -> y <> 0 -> is_single_ left = false ->
  returns ('(use_left, lneg) ← use_abs left;
           '(use_right, _) ← use_abs right;
           result ← unsigned_modulus use_left use_right;
           if lneg : bool then verinum_neg result else Some result)
    (fun r => rep (with_sign r true) (Z.rem x y) /\ is_single_ r = false /\ (nbits_ left <= nbits_ r)%nat /\
       bits_ r = Vbits (nbits_ r) (Z.rem x y)).
Proof.
  intros Hl Hr Hsl Hsr Hy Hsi. pose proof Hl as [_ Hf]. rewrite Hsl in Hf.
  eapply returns_bind; [by apply use_abs_spec|]. intros [ul ln] (-> & H1 & H2 & H2' & Hn).
  eapply returns_bind; [by apply use_abs_spec|]. intros [ur rn] (-> & H3 & H4 & _).
  eapply returns_bind; [apply (unsigned_modulus_spec ul ur (Z.abs x) (Z.abs y)); done || lia|].
  intros m ((Hm1 & Hm2 & Hm3) & Hm4 & Hm5). rewrite (rem_abs x y) by done.
  pose proof (Z.mod_pos_bound (Z.abs x) (Z.abs y) ltac:(lia)) as B.
  pose proof (Z.mod_le (Z.abs x) (Z.abs y) ltac:(lia) ltac:(lia)) as Hle.
  set (z := Z.abs x mod Z.abs y) in *. destruct Hf as [Hpos Hf].
  assert (forall r s, (nbits_ left <= nbits_ r)%nat -> (x <? 0) = s -> bits_ r = Vbits (nbits_ r) (if s then - z else z) ->
    rep (with_sign r true) (if s then - z else z)) as Hrep.
  { intros r s Hle' Hs Hb. split; [done|]. change (nbits_ (with_sign r true)) with (nbits_ r). cbn [with_sign has_sign_].
    apply (fits_mono true (nbits_ left)); [|done]. split; [done|].
    destruct (Z.ltb_spec x 0) as [Hx|Hx]; subst s; [rewrite Z.abs_neq in Hle by lia|rewrite Z.abs_eq in Hle by lia]; lia. }
  destruct (x <? 0) eqn:Ex.
  - eapply returns_mono; [by apply (neg_spec m z)|]. rewrite Hm2. intros r [Hres (Hs1 & Hn' & _)]. specialize (Hn' eq_refl).
    assert (bits_ r = Vbits (nbits_ r) (- z)) as Hb.
    { rewrite Hm1 in Hres. destruct (result_rep _ _ _ _ Hres) as [Hb _]. rewrite Hb. apply Vbits_mod.
      rewrite Hn'. by rewrite Z.mod_mod by lia. }
    assert (nbits_ left <= nbits_ r)%nat as Hw by lia. split; [by apply (Hrep r true)|]. done.
  - apply returns_ret. assert (nbits_ left <= nbits_ m)%nat as Hw by lia.
    assert (bits_ m = Vbits (nbits_ m) z) as Hb by (by destruct Hm3). split; [by apply (Hrep m false)|].
    split; [auto|done].
Qed.

Lemma fits_quot s n x y :
  fits s n x -> y <> 0 -> (s = false -> 0 < y) -> (s = true -> ~ (x = - 2 ^ (Z.of_nat n - 1) /\ y = -1)) ->
  fits s n (Z.quot x y).
Proof.
  intros Hx Hy Hp Hov. destruct s; cbn [fits] in *.
  - destruct Hx as [Hn Hx]. split; [done|]. specialize (Hov eq_refl). rewrite quot_abs by done.
    pose proof (Z.div_pos (Z.abs x) (Z.abs y) ltac:(lia) ltac:(lia)).
    destruct (decide (Z.abs y = 1)) as [E|E].
    + rewrite E, Z.div_1_r. destruct (Z.ltb_spec x 0), (Z.ltb_spec y 0); cbn [xorb]; lia.
    + assert (Z.abs x / Z.abs y <= Z.abs x / 2) by (apply Z.div_le_compat_l; lia).
      assert (Z.abs x / 2 * 2 <= Z.abs x) by (pose proof (Z.mul_div_le (Z.abs x) 2); lia).
      destruct (xorb _ _); lia.
  - specialize (Hp eq_refl). rewrite Z.quot_div_nonneg by lia. pose proof (Z.div_pos x y ltac:(lia) Hp).
    assert (x / y <= x) by (apply Z.div_le_upper_bound; nia). lia.
Qed.

Lemma fits_rem s n x y :
  fits s n x -> y <> 0 -> (s = false -> 0 < y) -> fits s n (Z.rem x y).
Proof.
  intros Hx Hy Hp. rewrite rem_abs by done.
  pose proof (Z.mod_pos_bound (Z.abs x) (Z.abs y) ltac:(lia)).
  pose proof (Z.mod_le (Z.abs x) (Z.abs y) ltac:(lia) ltac:(lia)).
  destruct s; cbn [fits] in *; destruct (Z.ltb_spec x 0); try lia. 
Qed.

Lemma native_result_bits v n hl : has_len_ (native_result v n hl) = hl /\ bits_ (native_result v n hl) = Vbits n v.
Proof. split; [done|]. apply native_bits_spec. Qed.

Lemma rep_unsigned_range v z : rep v z -> has_sign_ v = false -> 0 <= z < 2 ^ Z.of_nat (nbits_ v).
Proof. intros [_ Hf] Hs. by rewrite Hs in Hf. Qed.

Lemma as_ulong_spec v z : rep v z -> has_sign_ v = false -> (nbits_ v <= 64)%nat -> as_ulong v = z.
Proof.
  intros Hr Hs Hn. apply as_uint_spec; [done..|]. pose proof (rep_unsigned_range v z Hr Hs).
  assert (2 ^ Z.of_nat (nbits_ v) <= 2 ^ Z.of_nat 64) by (apply Z.pow_le_mono_r; lia). lia.
Qed.

Lemma not_min z n : (n <= 63)%nat -> fits true n z -> (z =? LONG_MIN) = false.
Proof.
  intros Hn [Hp Hz]. apply Z.eqb_neq. unfold LONG_MIN.
  assert (2 ^ (Z.of_nat n - 1) <= 2 ^ 62) by (apply Z.pow_le_mono_r; lia). lia.
Qed.

Lemma div_spec left right x y :
  rep left x -> rep right y -> has_sign_ left = has_sign_ right -> y <> 0 ->
  ((nbits_ left <= 64)%nat -> (nbits_ right <= 64)%nat) ->
  let hl := has_len_ left && has_len_ right in
  (hl = false -> has_sign_ left = true -> ~ (x = - 2 ^ (Z.of_nat (nbits_ left) - 1) /\ y = -1)) ->
  returns (verinum_div left right) (quotient_is hl (has_sign_ left) (nbits_ left) (Z.quot x y)).
Proof.
  intros Hl Hr Hs Hy Hw hl Hov. unfold verinum_div. fold hl.
  rewrite (rep_defined left x), (rep_defined right y), (rep_is_zero right y), (proj2 (Z.eqb_neq y 0)) by done. cbn [negb orb].
  assert (has_sign_ left = false -> 0 < y) as Hyp.
  { intros E. rewrite Hs in E. pose proof (rep_unsigned_range right y Hr E). lia. }
  assert (hl = false -> fits (has_sign_ left) (nbits_ left) (Z.quot x y)) as Hfits.
  { intros E. apply fits_quot; auto. apply Hl. }
  rewrite <- Hs, andb_diag. eapply returns_bind; [|intros r H; exact (finish_spec r (Z.quot x y) _ _ _ (rep_sign_pos left x Hl) Hfits H)].
  destruct (has_sign_ left) eqn:Hsl.
  - destruct (Nat.leb_spec (nbits_ left) 63) as [Hn|Hn].
    + rewrite (as_long_spec left x), (as_long_spec right y) by (done || lia).
      pose proof Hl as [_ Fx]. rewrite Hsl in Fx. rewrite (not_min x (nbits_ left)) by done. cbn [andb orb].
      rewrite (proj2 (Z.eqb_neq y 0)) by done. apply returns_assert; [done|]. apply returns_ret. right; right. apply native_result_bits.
    + eapply returns_mono; [by apply signed_divide_spec|]. intros r H. left. exact H.
  - specialize (Hyp eq_refl). pose proof (rep_unsigned_range left x Hl Hsl).
    destruct (Nat.leb_spec (nbits_ left) 64) as [Hn|Hn].
    + rewrite (as_ulong_spec left x), (as_ulong_spec right y) by (done || auto).
      rewrite (proj2 (Z.eqb_neq y 0)) by done. apply returns_assert; [done|]. apply returns_ret. right; right. apply native_result_bits.
    + eapply returns_mono; [by apply (unsigned_divide_spec left right x y false)|].
      rewrite Z.quot_div_nonneg by lia. intros r (H1 & H2 & H3).
      left. split; [|done]. destruct H3 as [E|[E ->]]; [by apply rep_signed_again|]. rewrite E. by apply (rep_fill_0 1 true false).
Qed.

Lemma mod_spec left right x y :
  rep left x -> rep right y -> has_sign_ left = has_sign_ right -> y <> 0 -> is_single_ left = false ->
  ((nbits_ left <= 64)%nat -> (nbits_ right <= 64)%nat) ->
  let hl := has_len_ left && has_len_ right in
  returns (verinum_mod left right) (quotient_is hl (has_sign_ left) (nbits_ left) (Z.rem x y)).
Proof.
  intros Hl Hr Hs Hy Hsi Hw hl. unfold verinum_mod. fold hl.
  rewrite (rep_defined left x), (rep_defined right y), (rep_is_zero right y), (proj2 (Z.eqb_neq y 0)) by done. cbn [negb orb].
  assert (has_sign_ left = false -> 0 < y) as Hyp.
  { intros E. rewrite Hs in E. pose proof (rep_unsigned_range right y Hr E). lia. }
  assert (fits (has_sign_ left) (nbits_ left) (Z.rem x y)) as Hfits by (apply fits_rem; auto; apply Hl).
  rewrite <- Hs, andb_diag.
  eapply returns_bind; [|intros r H; exact (finish_spec r (Z.rem x y) _ _ _ (rep_sign_pos left x Hl) (fun _ => Hfits) H)].
  destruct (has_sign_ left) eqn:Hsl.
  - destruct (Nat.leb_spec (nbits_ left) 64) as [Hn|Hn].
    + rewrite (as_long_spec left x), (as_long_spec right y) by (done || auto).
      rewrite (proj2 (Z.eqb_neq y 0)) by done. cbn [negb]. rewrite orb_true_r.
      apply returns_assert; [done|]. apply returns_ret. right; right.
      destruct ((x =? LONG_MIN) && (y =? -1)) eqn:E; [|apply native_result_bits].
      apply andb_true_iff in E as [_ ->%Z.eqb_eq]. change (-1) with (Z.opp 1). rewrite Z.rem_opp_r, Z.rem_1_r by lia. apply native_result_bits.
    + eapply returns_mono; [by apply (signed_modulus_spec left right x y)|]. intros r (H1 & H2 & H3 & H4). right; left. done.
  - specialize (Hyp eq_refl). pose proof (rep_unsigned_range left x Hl Hsl).
    destruct (Nat.leb_spec (nbits_ left) 64) as [Hn|Hn].
    + rewrite (as_ulong_spec left x), (as_ulong_spec right y) by (done || auto).
      rewrite (proj2 (Z.eqb_neq y 0)) by done. apply returns_assert; [done|]. apply returns_ret. right; right. apply native_result_bits.
    + eapply returns_mono; [by apply (unsigned_modulus_spec left right x y)|].
      rewrite Z.rem_mod_nonneg by lia. intros r ((_ & H1 & H2) & _ & H3).
      right; left. split; [by apply rep_signed_again|]. split; [apply H2|done].
Qed.

(** *** Powers *)

Lemma rep_result v z : rep v z -> result_is (has_len_ v) (has_sign_ v) (nbits_ v) z v.
Proof.
  intros Hr. split; [done|]. split; [done|]. split; [by apply (rep_number v z)|]. split; [done|].
  rewrite (rep_num v z) by done. destruct (has_len_ v); [|done]. symmetry. apply int_cast_id, Hr.
Qed.

Lemma result_congr (hl : bool) s n z z' r :
  (if hl then z mod 2 ^ Z.of_nat n = z' mod 2 ^ Z.of_nat n else z = z') -> result_is hl s n z r -> result_is hl s n z' r.
Proof.
  intros E (H1 & H2 & H3 & H4 & H5). split; [done|]. split; [done|]. split; [done|]. split; [done|].
  destruct hl; [|congruence]. rewrite H5. by apply int_cast_ext.
Qed.

Lemma result_rep_num hl s n z r : result_is hl s n z r -> rep r (if hl then int_cast n s z else z).
Proof. intros (_ & _ & Hn & _ & <-). by apply number_rep. Qed.

Lemma trim_result_is hl s n z r : result_is hl s n z r -> returns (trim_vnum r) (result_is hl s n z).
Proof.
  intros Hres. pose proof (result_rep_num _ _ _ _ _ Hres) as Hr. pose proof Hres as (Hl & Hs & _).
  destruct hl.
  - rewrite trim_sized by done. by apply returns_ret.
  - eapply returns_mono; [by apply (trim_spec r z)|]. intros r' (H1 & H2 & _ & _ & H3).
    by apply result_exact; [congruence..|].
Qed.

Lemma mul_results hl s n z z' a b :
  result_is hl s n z a -> result_is hl s n z' b -> returns (verinum_mul a b) (result_is hl s n (z * z')).
Proof.
  intros Ha Hb. pose proof (result_rep_num _ _ _ _ _ Ha) as Ra. pose proof (result_rep_num _ _ _ _ _ Hb) as Rb.
  destruct Ha as (Hla & Hsa & _ & Hna & _), Hb as (Hlb & Hsb & _ & Hnb & _).
  eapply returns_mono; [apply (mul_spec a b _ _ Ra Rb); congruence|]. rewrite Hla, Hlb, Hsa, Hsb, !andb_diag.
  destruct hl; [|intros r; by apply result_unsized].
  rewrite Hna, Hnb, Nat.max_id by done. intros r. apply result_congr.
  rewrite Z.mul_mod, !cast_mod_eq, <- Z.mul_mod by lia. done.
Qed.

Lemma Vbits_1 n : (0 < n)%nat -> Vbits n 1 = <[0%nat := V1]> (replicate n V0).
Proof.
  intros Hn. symmetry. apply Vbits_intro; [by rewrite length_insert, length_replicate|]. intros [|i] Hi; rewrite tb_1.
  - by rewrite list_lookup_insert_eq by (rewrite length_replicate; lia).
  - rewrite list_lookup_insert_ne by lia. by apply lookup_replicate_2.
Qed.

Lemma make_p_one_spec n hl s : (0 < n)%nat -> returns (make_p_one n hl s) (result_is hl s n 1).
Proof.
  intros Hn. unfold make_p_one. set (w := if hl then n else 2%nat).
  assert (0 < w)%nat as Hw by (unfold w; destruct hl; lia).
  assert (nbits_ (verinum_fill V0 w hl) = w) as Hfill by apply length_replicate.
  rewrite set_returns by lia. cbn [mbind option_bind]. apply returns_ret. set (r := with_sign _ s).
  assert (bits_ r = Vbits w 1) as Hb by (by rewrite Vbits_1). unfold w in Hb. destruct hl.
  - by apply result_sized.
  - apply result_exact; [done..|]. assert (nbits_ r = 2%nat) as Hn2 by (unfold nbits_; by rewrite Hb, length_Vbits).
    split; [by rewrite Hn2|]. rewrite Hn2. change (has_sign_ r) with s. destruct s; cbn; lia.
Qed.

Lemma Vbits_m1 n : Vbits n (-1) = replicate n V1.
Proof.
  symmetry. apply Vbits_intro; [apply length_replicate|]. intros i Hi.
  rewrite lookup_replicate_2 by done. unfold tb. by rewrite Z.bits_m1 by lia.
Qed.

Lemma make_m_one_rep n hl : (0 < n)%nat -> rep (make_m_one n hl true) (-1).
Proof.
  intros Hn. set (w := if hl then n else 1%nat). assert (0 < w)%nat as Hw by (unfold w; destruct hl; lia).
  assert (nbits_ (make_m_one n hl true) = w) as Hnb by apply length_replicate.
  split; rewrite Hnb; [by rewrite Vbits_m1|]. split; [done|].
  assert (0 < 2 ^ (Z.of_nat w - 1)) by (apply Z.pow_pos_nonneg; lia). lia.
Qed.

Lemma make_m_one_spec n hl : (0 < n)%nat -> result_is hl true n (-1) (make_m_one n hl true).
Proof.
  intros Hn. pose proof (rep_result _ _ (make_m_one_rep n hl Hn)) as H. change (has_len_ _) with hl in H.
  change (has_sign_ _) with true in H. destruct hl; [|by eapply result_unsized].
  replace (nbits_ _) with n in H; [done|]. symmetry. apply length_replicate.
Qed.

Lemma filled_0_spec v : number v -> result_is (has_len_ v) (has_sign_ v) (nbits_ v) 0
  (with_sign (verinum_fill V0 (nbits_ v) (has_len_ v)) (has_sign_ v)).
Proof.
  intros [_ Hp]. pose proof (rep_fill_0 (nbits_ v) (has_len_ v) _ Hp) as Hr.
  apply rep_result in Hr. cbn [with_sign has_len_ has_sign_ verinum_fill] in Hr. rewrite nbits_fill in Hr. exact Hr.
Qed.

Lemma is_negative_spec v z : rep v z -> (0 < nbits_ v)%nat -> is_negative v = Some (z <? 0).
Proof.
  intros Hr Hn. unfold is_negative. rewrite (rep_get v z) by (done || lia). cbn [mbind option_bind].
  change V1 with (V_of_bool true). rewrite V_eqb_bool. f_equal. pose proof Hr as [_ Hf].
  destruct (has_sign_ v); cbn [andb].
  - rewrite (fits_sign (nbits_ v)) by done. by destruct (z <? 0).
  - rewrite andb_false_r. symmetry. apply Z.ltb_ge. by destruct Hf.
Qed.

(** The exponent of the odd case. *)
Lemma clear_low_bit v y :
  rep v y -> (0 < nbits_ v)%nat -> tb y 0 = true -> 0 <= y ->
  exists v', set v 0 V0 = Some v' /\ rep v' (y - 1) /\ has_len_ v' = has_len_ v.
Proof.
  intros Hr Hn Hodd Hy. rewrite set_returns by done. eexists. split; [done|]. split; [|done].
  pose proof Hr as [Hb Hf].
  assert (nbits_ (with_bits v (<[0%nat := V0]> (bits_ v))) = nbits_ v) as Hnb by (unfold nbits_; cbn; apply length_insert).
  assert (0 < y) as Hpos by (destruct (decide (y = 0)) as [->|]; [by rewrite tb_0 in Hodd|lia]).
  split; rewrite Hnb.
  - cbn [with_bits bits_]. rewrite Hb. apply Vbits_intro; [by rewrite length_insert, length_Vbits|]. intros i Hi.
    unfold tb in Hodd. change (Z.of_nat 0) with 0 in Hodd. rewrite Z.bit0_odd in Hodd. apply Z.odd_spec in Hodd as [a ->].
    destruct i as [|i].
    + rewrite list_lookup_insert_eq by (rewrite length_Vbits; lia). do 2 f_equal. unfold tb. change (Z.of_nat 0) with 0.
      replace (2 * a + 1 - 1) with (2 * a) by lia. by rewrite Z.testbit_even_0.
    + rewrite list_lookup_insert_ne, lookup_Vbits by lia. do 2 f_equal. unfold tb. rewrite Nat2Z.inj_succ.
      replace (2 * a + 1 - 1) with (2 * a) by lia. rewrite Z.testbit_odd_succ, Z.testbit_even_succ by lia. done.
  - cbn [with_bits has_sign_]. destruct (has_sign_ v); cbn [fits] in *; lia.
Qed.

Lemma tb_odd y : tb y 0 = Z.odd y.
Proof. unfold tb. by rewrite Z.bit0_odd. Qed.

Lemma pow_spec fuel left right x y k :
  rep left x -> rep right y -> (0 < nbits_ left)%nat -> 0 <= y < 2 ^ Z.of_nat k ->
  (2 * k + 1 + (if Z.odd y then 1 else 0) <= fuel)%nat ->
  returns (verinum_pow fuel left right) (result_is (has_len_ left) (has_sign_ left) (nbits_ left) (x ^ y)).
Proof.
  intros Hl. revert right y k. induction fuel as [|fuel IH]; intros right y k Hr Hn Hy Hfuel; [lia|]. cbn [verinum_pow].
  eapply returns_bind; [by apply make_p_one_spec|]. intros p_one Hone.
  rewrite (rep_defined left x), (rep_defined right y), (rep_is_zero right y) by done. cbn [negb orb].
  eapply returns_bind; [|intros r; exact (trim_result_is _ _ _ _ r)].
  destruct (Z.eqb_spec y 0) as [->|Hy0]; [by apply returns_ret|].
  assert (0 < nbits_ right)%nat as Hnr.
  { destruct (nbits_ right) eqn:E; [by destruct (rep_zero_width right y Hr E)|lia]. }
  rewrite (is_negative_spec right y), (proj2 (Z.ltb_ge y 0)) by (done || lia). cbn [mbind option_bind].
  unfold recursive_pow. rewrite (rep_is_zero right y), (proj2 (Z.eqb_neq y 0)) by done.
  rewrite (rep_get right y) by done. cbn [mbind option_bind]. change V1 with (V_of_bool true).
  rewrite V_eqb_bool, tb_odd. destruct (Z.odd y) eqn:Hodd; cbn [Bool.eqb].
  - destruct (clear_low_bit right y) as (right' & -> & Hr' & _); [done|done|by rewrite tb_odd|lia|]. cbn [mbind option_bind].
    eapply returns_bind.
    { apply (IH right' (y - 1) k); [done|done|lia|]. rewrite Z.odd_sub, Hodd. cbn. lia. }
    intros r Hres. eapply returns_mono; [by apply (mul_results (has_len_ left) (has_sign_ left) (nbits_ left) x (x ^ (y - 1))); [apply rep_result|]|].
    intros r'. apply result_congr. rewrite <- Z.pow_succ_r by lia. replace (Z.succ (y - 1)) with y by lia.
    by destruct (has_len_ left).
  - assert (y = 2 * (y / 2)) as E2.
    { pose proof (Z.div2_odd y) as E. rewrite Hodd, Z.div2_div in E. cbn [Z.b2z] in E. lia. }
    assert (0 < k)%nat as Hk by (destruct k; [cbn in Hy; lia|lia]).
    eapply returns_bind; [by apply (shr_spec right y 1)|]. change (2 ^ Z.of_nat 1) with 2. intros right' (_ & _ & _ & Hr').
    eapply returns_bind.
    { apply (IH right' (y / 2) (k - 1)%nat); [done|done| |destruct (Z.odd (y / 2)); lia].
      replace k with (S (k - 1)) in Hy by lia. rewrite pow2_succ in Hy. lia. }
    intros r Hres. eapply returns_mono; [by apply (mul_results (has_len_ left) (has_sign_ left) (nbits_ left) (x ^ (y / 2)) (x ^ (y / 2)))|].
    intros r'. apply result_congr. rewrite <- Z.pow_add_r by lia. replace (y / 2 + y / 2) with y by lia.
    by destruct (has_len_ left).
Qed.

(** The powers with a negative exponent, for a base other than 0. *)
Definition pow_negative (x y : Z) : Z :=
  if x =? 1 then 1 else if x =? -1 then (if Z.even y then 1 else -1) else 0.

Lemma pow_negative_spec fuel left right x y :
  rep left x -> rep right y -> (0 < nbits_ left)%nat -> y < 0 -> x <> 0 -> (0 < fuel)%nat ->
  returns (verinum_pow fuel left right) (result_is (has_len_ left) (has_sign_ left) (nbits_ left) (pow_negative x y)).
Proof.
  intros Hl Hr Hn Hy Hx Hfuel. destruct fuel as [|fuel]; [lia|]. cbn [verinum_pow].
  eapply returns_bind; [by apply make_p_one_spec|]. intros p_one Hone.
  rewrite (rep_defined left x), (rep_defined right y), (rep_is_zero right y), (proj2 (Z.eqb_neq y 0)) by (done || lia). cbn [negb orb].
  eapply returns_bind; [|intros r; exact (trim_result_is _ _ _ _ r)].
  assert (0 < nbits_ right)%nat as Hnr.
  { destruct (nbits_ right) eqn:E; [destruct (rep_zero_width right y Hr E); lia|lia]. }
  rewrite (is_negative_spec right y), (proj2 (Z.ltb_lt y 0)) by (done || lia). cbn [mbind option_bind].
  rewrite (rep_is_zero left x), (proj2 (Z.eqb_neq x 0)) by done.
  assert ((if has_sign_ left then verinum_eq left (make_m_one (nbits_ left) (has_len_ left) (has_sign_ left)) else Some V0) =
    Some (V_of_bool (x =? -1))) as ->.
  { destruct (has_sign_ left) eqn:Hs.
    - apply eq_spec; [done|by apply make_m_one_rep|done].
    - pose proof Hl as [_ Hf]. rewrite Hs in Hf. cbn [fits] in Hf. by rewrite (proj2 (Z.eqb_neq x (-1))) by lia. }
  cbn [mbind option_bind]. change V0 with (V_of_bool false) at 1 2 3. rewrite V_eqb_bool. unfold pow_negative.
  destruct (Z.eqb_spec x (-1)) as [->|Hm1]; cbn [Bool.eqb negb].
  - rewrite (rep_get right y) by done. cbn [mbind option_bind]. apply returns_ret.
    change V0 with (V_of_bool false). rewrite V_eqb_bool, tb_odd, <- Z.negb_even. cbn [Z.eqb].
    assert (has_sign_ left = true) as Hs.
    { pose proof Hl as [_ Hf]. destruct (has_sign_ left); [done|]. cbn [fits] in Hf. lia. }
    rewrite Hs in *. destruct (Z.even y); cbn [Bool.eqb negb]; [done|]. by apply make_m_one_spec.
  - rewrite (eq_spec left p_one x _ Hl (result_rep_num _ _ _ _ _ Hone)) by (by destruct Hone as (_ & -> & _)).
    cbn [mbind option_bind]. apply returns_ret. change V0 with (V_of_bool false) at 1. rewrite V_eqb_bool.
    assert ((x =? (if has_len_ left then int_cast (nbits_ left) (has_sign_ left) 1 else 1)) = (x =? 1)) as ->.
    { destruct (has_len_ left); [|done]. rewrite int_cast_id; [done|]. pose proof Hl as [_ Hf].
      destruct (has_sign_ left); cbn [fits] in *.
      - split; [done|]. split; [lia|]. destruct (decide (nbits_ left = 1%nat)) as [E|]; [rewrite E in Hf; cbn in Hf; lia|].
        apply (Z.pow_gt_1 2); lia.
      - split; [lia|]. apply (Z.pow_gt_1 2); lia. }
    destruct (Z.eqb_spec x 1); cbn [Bool.eqb negb]; [done|]. apply filled_0_spec. by apply (rep_number left x).
Qed.

Lemma pow_zero_negative fuel left right y :
  rep left 0 -> rep right y -> (0 < nbits_ left)%nat -> y < 0 ->
  returns (verinum_pow (S fuel) left right ≫= fun r => Some (bits_ r)) (Forall (fun b => b = Vx)).
Proof.
  intros Hl Hr Hn Hy. cbn [verinum_pow]. destruct (make_p_one_spec (nbits_ left) (has_len_ left) (has_sign_ left) Hn) as (p & -> & _).
  cbn [mbind option_bind].
  rewrite (rep_defined left 0), (rep_defined right y), (rep_is_zero right y), (proj2 (Z.eqb_neq y 0)) by (done || lia). cbn [negb orb].
  assert (0 < nbits_ right)%nat as Hnr.
  { destruct (nbits_ right) eqn:E; [destruct (rep_zero_width right y Hr E); lia|lia]. }
  rewrite (is_negative_spec right y), (proj2 (Z.ltb_lt y 0)) by (done || lia). cbn [mbind option_bind].
  rewrite (rep_is_zero left 0) by done. cbn [Z.eqb mbind option_bind]. set (r := with_sign _ _).
  enough (returns (trim_vnum r) (fun r' => Forall (fun b => b = Vx) (bits_ r'))) as (r' & -> & H) by (by apply returns_ret).
  by apply trim_filled.
Qed.

(** *** Strings *)

Lemma char_bits_spec ch : char_bits ch = Vbits 8 (char_int ch).
Proof. by destruct ch as [[] [] [] [] [] [] [] []]. Qed.

Lemma char_int_of c : 0 <= c < 256 -> char_int (char_of c) = c.
Proof.
  intros Hc. unfold char_int, char_of. rewrite Z.mod_small by done.
  rewrite nat_ascii_embedding by lia. lia.
Qed.

Lemma byte_fold_spec v k a n j :
  tb (foldr (fun j c => if bit_is v V1 (8 * k + j) then Z.lor c (Z.shiftl 1 (Z.of_nat j)) else c) 0 (seq a n)) j =
  (a <=? j)%nat && (j <? a + n)%nat && bit_is v V1 (8 * k + j).
Proof.
  revert a. induction n as [|n IH]; intros a; cbn [seq foldr].
  - rewrite tb_0. destruct (Nat.leb_spec a j), (Nat.ltb_spec j (a + 0)); cbn [andb]; (done || lia).
  - rewrite in_from_S. replace (Z.shiftl 1 (Z.of_nat a)) with (2 ^ Z.of_nat a) by (rewrite Z.shiftl_1_l; done).
    destruct (bit_is v V1 (8 * k + a)) eqn:E; rewrite ?tb_lor, IH, ?tb_pow2;
      (destruct (Nat.eqb_spec j a) as [->|]; [rewrite E, (proj2 (Nat.leb_gt (S a) a)) by lia|]); cbn [andb orb];
      rewrite ?orb_true_r, ?orb_false_r; done.
Qed.

Lemma tb_byte v k j : tb (byte_at v k) j = (j <? 8)%nat && bit_is v V1 (8 * k + j).
Proof. unfold byte_at. by rewrite byte_fold_spec. Qed.

Lemma byte_range v k : 0 <= byte_at v k < 256.
Proof.
  change 256 with (2 ^ Z.of_nat 8). apply small_tb. intros i Hi. rewrite tb_byte.
  by rewrite (proj2 (Nat.ltb_ge i 8)).
Qed.

Lemma octal_digit d : 0 <= d < 8 ->
  let c := ascii_of_nat (48 + Z.to_nat d) in
  is_octal c = true /\ char_int c = 48 + d /\ (c =? "n")%char = false /\ (c =? "t")%char = false.
Proof.
  intros Hd. assert (d = 0 \/ d = 1 \/ d = 2 \/ d = 3 \/ d = 4 \/ d = 5 \/ d = 6 \/ d = 7) as H by lia.
  by destruct H as [->|[->|[->|[->|[->|[->|[->| ->]]]]]]].
Qed.

Lemma process_escape c fuel rest :
  0 <= c < 256 ->
  process_quotes (S fuel) (octal_escape c ++ rest) = (r ← process_quotes fuel rest; Some (char_of c :: r)).
Proof.
  intros Hc. unfold octal_escape. cbn [app process_quotes]. change ("\" =? "\")%char with true. cbv iota.
  destruct (octal_digit (c / 64 mod 8)) as (H1 & H2 & H3 & H4); [apply Z.mod_pos_bound; lia|].
  destruct (octal_digit (c / 8 mod 8)) as (H5 & H6 & _); [apply Z.mod_pos_bound; lia|].
  destruct (octal_digit (c mod 8)) as (H7 & H8 & _); [apply Z.mod_pos_bound; lia|].
  rewrite H3, H4, H1. cbn [octal_loop]. rewrite H1, H5, H7, H2, H6, H8. change (char_int "0") with 48.
  match goal with |- context [char_of ?e] => replace e with c end; [done|].
  Z.to_euclidean_division_equations. lia.
Qed.

Lemma process_print c fuel rest :
  0 <= c < 256 ->
  process_quotes (S fuel) (print_char c ++ rest) = (r ← process_quotes fuel rest; Some (char_of c :: r)).
Proof.
  intros Hc. unfold print_char. destruct ((c =? 34) || (c =? 92)) eqn:E; [by apply process_escape|].
  destruct (isprint c); [|by apply process_escape]. cbn [app process_quotes].
  apply orb_false_iff in E as [_ E%Z.eqb_neq].
  destruct (Ascii.eqb_spec (char_of c) "\") as [H|]; [|done].
  pose proof (char_int_of c Hc) as H'. rewrite H in H'. by rewrite <- H' in E.
Qed.

Lemma length_print c : (0 < length (print_char c))%nat.
Proof. unfold print_char. destruct (_ || _); [cbn; lia|]. destruct (isprint c); cbn; lia. Qed.

Lemma process_as_string v n fuel :
  (length (as_string_loop v n) <= fuel)%nat ->
  process_quotes fuel (as_string_loop v n) = Some (map (fun k => char_of (byte_at v k)) (rev (seq 0 n))).
Proof.
  revert fuel. induction n as [|n IH]; intros fuel Hf; cbn [as_string_loop] in *; [by destruct fuel|].
  rewrite length_app in Hf. pose proof (length_print (byte_at v n)). destruct fuel as [|fuel]; [lia|].
  rewrite process_print by apply byte_range. rewrite IH by lia. cbn [mbind option_bind].
  rewrite seq_S, rev_app_distr. done.
Qed.

Lemma bytes_bits v z n :
  rep v z -> (8 * n <= nbits_ v)%nat ->
  concat (map (fun k => char_bits (char_of (byte_at v k))) (seq 0 n)) = Vbits (8 * n) z.
Proof.
  intros Hr. induction n as [|n IH]; intros Hn; [done|].
  rewrite seq_S, map_app, concat_app, IH by lia. cbn [map concat Nat.add]. rewrite app_nil_r.
  replace (8 * S n)%nat with (8 * n + 8)%nat by lia. rewrite <- Vbits_app. f_equal.
  rewrite char_bits_spec, char_int_of by apply byte_range. apply Vbits_ext. intros j Hj.
  rewrite tb_byte, (proj2 (Nat.ltb_lt j 8)), tb_shifted_down by done. cbn [andb].
  change V1 with (V_of_bool true). rewrite (bit_is_rep v z) by (done || lia).
  rewrite Nat.add_comm. by destruct (tb z (j + 8 * n)).
Qed.

Lemma string_spec v z :
  rep v z -> (nbits_ v `mod` 8 = 0)%nat -> (0 < nbits_ v)%nat ->
  (str ← as_string v; verinum_of_string str) = Some (mk_verinum (bits_ v) true false false true).
Proof.
  intros Hr H8 Hn. unfold as_string. rewrite H8, Nat.eqb_refl. cbn [assert_ mbind option_bind].
  unfold verinum_of_string, process_verilog_string_quotes. set (n := (nbits_ v `div` 8)%nat).
  rewrite process_as_string by done. cbn [mbind option_bind].
  assert (nbits_ v = 8 * n)%nat as E by (pose proof (Nat.div_mod_eq (nbits_ v) 8); lia).
  rewrite length_map, length_rev, length_seq, (proj2 (Nat.eqb_neq (n * 8) 0)) by lia.
  rewrite <- map_rev, rev_involutive, map_map, (bytes_bits v z) by (done || lia).
  rewrite <- E. by destruct Hr as [<- _].
Qed.

(** *** Concatenation *)

Lemma with_bits_bits r l : bits_ (with_bits r l) = l.
Proof. done. Qed.

Lemma concat_loops_spec left right :
  returns (res ← for_ 0 (nbits_ right) (fun idx res => b ← get right idx; set res idx b)
                   (verinum_fill V0 (nbits_ left + nbits_ right) true);
           for_ 0 (nbits_ left) (fun idx res => b ← get left idx; set res (idx + nbits_ right) b) res)
    (fun r => r = mk_verinum (bits_ right ++ bits_ left) true false false false).
Proof.
  set (res := verinum_fill _ _ _). assert (nbits_ res = nbits_ left + nbits_ right)%nat as Hn by apply length_replicate.
  eapply returns_bind.
  { apply (copy_block right res (fun i => i) (fun i => i) 0 (nbits_ right) 0 0); lia. }
  intros r1 [[Hf1 Hn1] Hg1]. eapply returns_mono.
  { apply (copy_block left r1 (fun i => i) (fun i => (i + nbits_ right)%nat) 0 (nbits_ left) 0 (nbits_ right)); lia. }
  intros r2 [[Hf2 Hn2] Hg2].
  enough (bits_ r2 = bits_ right ++ bits_ left) as E by (rewrite Hf2, Hf1, E; done).
  apply list_eq. intros i. change (get r2 i = (bits_ right ++ bits_ left) !! i). rewrite Hg2.
  destruct (Nat.leb_spec (nbits_ right) i); cbn [andb].
  - rewrite lookup_app_r by done. destruct (Nat.ltb_spec i (nbits_ right + nbits_ left)); [done|].
    rewrite Hg1. cbn [Nat.leb andb Nat.add]. rewrite (proj2 (Nat.ltb_ge i (nbits_ right))) by done.
    unfold get. rewrite (lookup_ge_None_2 (bits_ res) i) by (fold (nbits_ res); lia). symmetry.
    apply lookup_ge_None_2. fold (nbits_ left). fold (nbits_ right). lia.
  - rewrite lookup_app_l, Hg1 by done. cbn [Nat.leb andb Nat.add].
    rewrite (proj2 (Nat.ltb_lt i (nbits_ right))), Nat.sub_0_r by done. done.
Qed.

Lemma process_print_app v n fuel rest :
  (length (as_string_loop v n ++ rest) <= fuel)%nat ->
  exists fuel', (length rest <= fuel')%nat /\
  process_quotes fuel (as_string_loop v n ++ rest) =
  (r ← process_quotes fuel' rest; Some (map (fun k => char_of (byte_at v k)) (rev (seq 0 n)) ++ r)).
Proof.
  revert fuel. induction n as [|n IH]; intros fuel Hf; cbn [as_string_loop app] in *.
  - exists fuel. split; [done|]. cbn. by destruct (process_quotes fuel rest).
  - rewrite <- app_assoc in *. rewrite length_app in Hf. pose proof (length_print (byte_at v n)). destruct fuel as [|fuel]; [lia|].
    destruct (IH fuel) as (fuel' & H1 & H2); [lia|]. exists fuel'. split; [done|].
    rewrite process_print by apply byte_range. rewrite H2. rewrite seq_S, rev_app_distr. cbn [rev app map].
    by destruct (process_quotes fuel' rest).
Qed.

Lemma concat_strings_spec left right x y :
  rep left x -> rep right y -> (nbits_ left `mod` 8 = 0)%nat -> (nbits_ right `mod` 8 = 0)%nat -> (0 < nbits_ right)%nat ->
  (l ← as_string left; r ← as_string right; verinum_of_string (l ++ r)) =
  Some (mk_verinum (bits_ right ++ bits_ left) true false false true).
Proof.
  intros Hl Hr H8 H8' Hn. unfold as_string. rewrite H8, H8', Nat.eqb_refl. cbn [assert_ mbind option_bind].
  unfold verinum_of_string, process_verilog_string_quotes.
  set (n := (nbits_ left `div` 8)%nat). set (m := (nbits_ right `div` 8)%nat).
  assert (nbits_ left = 8 * n)%nat as E by (pose proof (Nat.div_mod_eq (nbits_ left) 8); lia).
  assert (nbits_ right = 8 * m)%nat as E' by (pose proof (Nat.div_mod_eq (nbits_ right) 8); lia).
  destruct (process_print_app left n _ (as_string_loop right m) (le_n _)) as (fuel' & Hf & ->).
  rewrite process_as_string by done. cbn [mbind option_bind].
  rewrite length_app, !length_map, !length_rev, !length_seq, (proj2 (Nat.eqb_neq ((n + m) * 8) 0)) by lia.
  rewrite rev_app_distr, <- !map_rev, !rev_involutive, map_app, concat_app, !map_map.
  rewrite (bytes_bits left x), (bytes_bits right y) by (done || lia). rewrite <- E, <- E'.
  by destruct Hl as [<- _], Hr as [<- _].
Qed.

(** *** Native constants *)

Lemma count_halves_spec fuel tmp n :
  Z.abs tmp < 2 ^ Z.of_nat fuel ->
  exists m, count_halves fuel tmp n = Some (n + m)%nat /\ Z.abs tmp < 2 ^ Z.of_nat m.
Proof.
  revert tmp n. induction fuel as [|fuel IH]; intros tmp n Ht; cbn [count_halves].
  - change (2 ^ Z.of_nat 0) with 1 in Ht. replace tmp with 0 by lia. exists 0%nat. split; [by rewrite Nat.add_0_r|done].
  - destruct (Z.eqb_spec tmp 0) as [->|Hne]; [exists 0%nat; split; [by rewrite Nat.add_0_r|done]|].
    rewrite pow2_succ in Ht. rewrite (quot_abs tmp 2) by done. change (2 <? 0) with false. rewrite xorb_false_r.
    change (Z.abs 2) with 2. pose proof (Z.div_mod (Z.abs tmp) 2 ltac:(lia)) as E.
    pose proof (Z.mod_pos_bound (Z.abs tmp) 2 ltac:(lia)) as B.
    assert (Z.abs (if tmp <? 0 then - (Z.abs tmp / 2) else Z.abs tmp / 2) = Z.abs tmp / 2) as Ea by (destruct (tmp <? 0); lia).
    destruct (IH (if tmp <? 0 then - (Z.abs tmp / 2) else Z.abs tmp / 2) (S n)) as (m & Hm & Hlt); [lia|].
    exists (S m). rewrite pow2_succ. split; [rewrite Hm; f_equal; lia|]. rewrite Ea in Hlt. lia.
Qed.

(** The constructor from a native integer makes an unsized signed constant that
    reads back as the integer. *)
Lemma of_int64_spec z :
  - 2 ^ 63 <= z < 2 ^ 63 ->
  returns (verinum_of_int64 z) (fun v => has_len_ v = false /\ has_sign_ v = true /\ rep v z).
Proof.
  intros Hz. unfold verinum_of_int64. set (tmp := if z <? 0 then Z.quot (z + 1) 2 else Z.quot z 2).
  assert (Z.abs tmp <= 2 ^ 62 /\ - 2 * Z.abs tmp - 2 <= z <= 2 * Z.abs tmp + 1) as [Hb Hr].
  { unfold tmp. destruct (Z.ltb_spec z 0); rewrite quot_abs by done; change (2 <? 0) with false; rewrite xorb_false_r;
      change (Z.abs 2) with 2.
    - pose proof (Z.div_mod (Z.abs (z + 1)) 2 ltac:(lia)) as E. pose proof (Z.mod_pos_bound (Z.abs (z + 1)) 2 ltac:(lia)).
      destruct (z + 1 <? 0); lia.
    - pose proof (Z.div_mod (Z.abs z) 2 ltac:(lia)) as E. pose proof (Z.mod_pos_bound (Z.abs z) 2 ltac:(lia)).
      rewrite (proj2 (Z.ltb_ge z 0)) by done. lia. }
  destruct (count_halves_spec 64 tmp 1) as (m & -> & Hm); [change (2 ^ Z.of_nat 64) with (4 * 2 ^ 62); lia|].
  cbn [mbind option_bind]. apply returns_ret. split; [done|]. split; [done|].
  assert (nbits_ (mk_verinum (native_bits (S (1 + m)) z) false true false false) = S (S m)) as Hn.
  { unfold nbits_; cbn [bits_]. rewrite native_bits_spec. apply length_Vbits. }
  split; rewrite Hn; cbn [bits_ has_sign_]; [apply native_bits_spec|]. split; [lia|].
  replace (Z.of_nat (S (S m)) - 1) with (Z.of_nat (S m)) by lia. rewrite pow2_succ. lia.
Qed.

(** *** The order of constants *)

Lemma before_loop_irrefl a idx : before_loop a a idx = false.
Proof. induction idx as [|i IH]; cbn [before_loop]; [done|]. by rewrite Z.ltb_irrefl. Qed.

Lemma V_int_inj a b : V_int a = V_int b -> a = b.
Proof. by destruct a, b. Qed.

Lemma before_loop_total a b idx :
  before_loop a b idx = false -> before_loop b a idx = false -> forall i, (i < idx)%nat -> nth i a V0 = nth i b V0.
Proof.
  induction idx as [|j IH]; intros H1 H2 i Hi; [lia|]. cbn [before_loop] in H1, H2.
  destruct (Z.ltb_spec (V_int (nth j a V0)) (V_int (nth j b V0))); [done|].
  destruct (Z.ltb_spec (V_int (nth j b V0)) (V_int (nth j a V0))); [done|].
  destruct (decide (i = j)) as [->|]; [apply V_int_inj; lia|]. apply IH; [done..|lia].
Qed.

Lemma before_loop_trans a b c idx :
  before_loop a b idx = true -> before_loop b c idx = true -> before_loop a c idx = true.
Proof.
  induction idx as [|j IH]; cbn [before_loop]; [done|].
  destruct (Z.ltb_spec (V_int (nth j a V0)) (V_int (nth j b V0))), (Z.ltb_spec (V_int (nth j b V0)) (V_int (nth j a V0))),
    (Z.ltb_spec (V_int (nth j b V0)) (V_int (nth j c V0))), (Z.ltb_spec (V_int (nth j c V0)) (V_int (nth j b V0))),
    (Z.ltb_spec (V_int (nth j a V0)) (V_int (nth j c V0))), (Z.ltb_spec (V_int (nth j c V0)) (V_int (nth j a V0)));
    intros; try done; try lia; auto.
Qed.

(** [is_before] is a strict total order on the bits. *)
Lemma is_before_order u v w :
  is_before u u = false /\
  (is_before u v = true -> is_before v w = true -> is_before u w = true) /\
  (is_before u v = false -> is_before v u = false -> bits_ u = bits_ v).
Proof.
  unfold is_before. split_and!.
  - by rewrite Nat.ltb_irrefl, before_loop_irrefl.
  - destruct (Nat.ltb_spec (nbits_ u) (nbits_ v)), (Nat.ltb_spec (nbits_ v) (nbits_ u)),
      (Nat.ltb_spec (nbits_ v) (nbits_ w)), (Nat.ltb_spec (nbits_ w) (nbits_ v)),
      (Nat.ltb_spec (nbits_ u) (nbits_ w)), (Nat.ltb_spec (nbits_ w) (nbits_ u)); try (done || lia).
    replace (nbits_ v) with (nbits_ u) by lia. apply before_loop_trans.
  - destruct (Nat.ltb_spec (nbits_ u) (nbits_ v)), (Nat.ltb_spec (nbits_ v) (nbits_ u)); try (done || lia).
    replace (nbits_ v) with (nbits_ u) by lia. intros H1 H2.
    apply nth_ext with V0 V0; [fold (nbits_ u) (nbits_ v); lia|]. intros i Hi. by apply (before_loop_total _ _ (nbits_ u)).
Qed.

(** ** Theorems *)

(** C7: on defined operands the operators compute what they compute on numbers,
    where an unsized operand comes with one of the same signedness.  When both
    operands are sized the result has the width of the longer one and the low bits
    of the number.  With an unsized operand sums, products and shifts are exact, and
    so are differences and negations of signed numbers; differences and negations of
    unsigned numbers are modulo 2^n in the width of the operands, against the comment
    in the source ([difference_wraps]).  [>>] divides by a power of 2 rounding down. *)
Theorem verinum_arithmetic left right shift :
  number left -> number right ->
  let hl := has_len_ left && has_len_ right in
  let s := has_sign_ left && has_sign_ right in
  let n := Nat.max (nbits_ left) (nbits_ right) in
  (hl = false -> has_sign_ left = has_sign_ right) ->
  returns (verinum_add left right) (result_is hl s n (num left + num right)) /\
  returns (verinum_mul left right) (result_is hl s n (num left * num right)) /\
  returns (verinum_sub left right)
    (result_is hl s n (if s then num left - num right else (num left - num right) mod 2 ^ Z.of_nat n)) /\
  returns (verinum_neg left) (result_is (has_len_ left) (has_sign_ left) (nbits_ left)
    (if has_sign_ left then - num left else (- num left) mod 2 ^ Z.of_nat (nbits_ left))) /\
  bits_ (verinum_not left) = Vbits (nbits_ left) (Z.lnot (num left)) /\
  returns (verinum_shl left shift)
    (result_is (has_len_ left) (has_sign_ left) (nbits_ left) (num left * 2 ^ Z.of_nat shift)) /\
  returns (verinum_shr left shift)
    (result_is (has_len_ left) (has_sign_ left) (nbits_ left) (num left / 2 ^ Z.of_nat shift)).
Proof.
  intros Hl%number_rep Hr%number_rep hl s n Hs. split_and!.
  - by apply add_spec.
  - by apply mul_spec.
  - eapply returns_mono; [by apply sub_spec|]. by intros r [H _].
  - eapply returns_mono; [by apply neg_spec|]. by intros r [H _].
  - cbn [verinum_not with_bits bits_]. rewrite (proj1 Hl) at 1. unfold Vbits. rewrite map_map. apply map_ext.
    intros i. rewrite tb_lnot. by destruct (tb (num left) i).
  - by apply shl_spec.
  - eapply returns_mono; [by apply shr_spec|]. intros r (H1 & H2 & H3 & H4).
    pose proof (rep_result r _ H4) as H. rewrite H1, H2 in H. destruct (has_len_ left); [|by eapply result_unsized].
    by rewrite H3 in H by done.
Qed.

(** "If either operand is unsized, the result is expanded as needed to prevent
    overflow": 1 - 2 of unsized unsigned numbers of four bits is 15, and -1 of two
    bits is 3. *)
Example difference_wraps :
  let n := fun bits => mk_verinum bits false false false false in
  verinum_sub (n [V1; V0; V0; V0]) (n [V0; V1; V0; V0]) = Some (n [V1; V1; V1; V1]) /\
  verinum_neg (n [V1; V0]) = Some (n [V1; V1]).
Proof. split; reflexivity. Qed.

(** [-5], an unsized signed constant, and the signed constant [4'sd3]. *)
Definition minus_five : verinum := mk_verinum [V1; V1; V0; V1] false true false false.
Definition three : verinum := mk_verinum [V1; V1; V0; V0] true true false false.

Lemma verinum_arithmetic_witness :
  number minus_five /\ number three /\
  returns (verinum_add minus_five three) (result_is false true 4 (-2)) /\
  returns (verinum_mul minus_five three) (result_is false true 4 (-15)).
Proof.
  assert (number minus_five) as H1 by (split; [done|cbn; lia]).
  assert (number three) as H2 by (split; [done|cbn; lia]).
  destruct (verinum_arithmetic minus_five three 1 H1 H2 ltac:(done)) as (Ha & Hm & _).
  split; [done|]. split; [done|]. split; [exact Ha|exact Hm].
Defined.

(** C8: [/] and [%] on defined operands of one signedness with a divisor other
    than 0 return the quotient rounded towards 0 and the remainder with the sign of
    the dividend, in the width of the dividend: natively up to 63 or 64 bits, by
    the long division above that.  The native case needs a divisor of at most 64
    bits; an unsized quotient must not be that of the smallest number and -1. *)
Theorem verinum_divides left right :
  number left -> number right -> has_sign_ left = has_sign_ right -> num right <> 0 ->
  is_single_ left = false -> ((nbits_ left <= 64)%nat -> (nbits_ right <= 64)%nat) ->
  let hl := has_len_ left && has_len_ right in
  let s := has_sign_ left in
  let n := nbits_ left in
  returns (verinum_mod left right) (quotient_is hl s n (Z.rem (num left) (num right))) /\
  ((hl = false -> s = true -> ~ (num left = - 2 ^ (Z.of_nat n - 1) /\ num right = -1)) ->
   returns (verinum_div left right) (quotient_is hl s n (Z.quot (num left) (num right)))).
Proof.
  intros Hl%number_rep Hr%number_rep Hs Hy Hsi Hw hl s n. split.
  - by apply mod_spec.
  - intros Hov. by apply div_spec.
Qed.

(** A signed dividend of 70 bits: [-2^69 + 5]. *)
Definition wide_dividend : verinum :=
  mk_verinum ([V1; V0; V1] ++ replicate 66 V0 ++ [V1]) true true false false.

Lemma verinum_divides_witness :
  number wide_dividend /\ num wide_dividend = - 2 ^ 69 + 5 /\
  returns (verinum_mod wide_dividend three) (quotient_is true true 70 (Z.rem (- 2 ^ 69 + 5) 3)) /\
  returns (verinum_div wide_dividend three) (quotient_is true true 70 (Z.quot (- 2 ^ 69 + 5) 3)).
Proof.
  assert (number wide_dividend) as H1 by (split; [done|cbn; lia]).
  assert (number three) as H2 by (split; [done|cbn; lia]).
  destruct (verinum_divides wide_dividend three H1 H2 ltac:(done) ltac:(by vm_compute) ltac:(done) ltac:(cbn; lia)) as [Hm Hd].
  split; [done|]. split; [by vm_compute|]. split; [exact Hm|]. exact (Hd ltac:(done)).
Defined.

(** C9: the recursion of [pow] ends, and a defined power has the width and the sign
    of the base and the low bits of the number, or is exact for an unsized base.
    A negative exponent gives 1 for 1, 1 or -1 for -1, x for 0, and otherwise 0. *)
Theorem verinum_powers left right fuel :
  number left -> number right -> (0 < nbits_ left)%nat -> (pow_fuel right <= fuel)%nat ->
  let power z := result_is (has_len_ left) (has_sign_ left) (nbits_ left) z in
  (0 <= num right -> returns (verinum_pow fuel left right) (power (num left ^ num right))) /\
  (num right < 0 -> num left <> 0 -> returns (verinum_pow fuel left right) (power (pow_negative (num left) (num right)))) /\
  (num right < 0 -> num left = 0 ->
     returns (verinum_pow fuel left right ≫= fun r => Some (bits_ r)) (Forall (fun b => b = Vx))).
Proof.
  intros Hl%number_rep Hr%number_rep Hn Hf power. unfold pow_fuel in Hf. split_and!.
  - intros Hy. apply (pow_spec fuel left right _ _ (nbits_ right)); [done..| |destruct (Z.odd _); lia].
    pose proof (rep_range right _ Hr). lia.
  - intros Hy Hx. apply pow_negative_spec; (done || lia).
  - intros Hy Hx. rewrite Hx in Hl. destruct fuel as [|fuel]; [lia|]. by apply pow_zero_negative with (num right).
Qed.

Lemma verinum_powers_witness :
  number minus_five /\ number three /\
  returns (verinum_pow 10 minus_five three) (result_is false true 4 (-125)).
Proof.
  assert (number minus_five) as H1 by (split; [done|cbn; lia]).
  assert (number three) as H2 by (split; [done|cbn; lia]).
  destruct (verinum_powers minus_five three 10 H1 H2 ltac:(cbn; lia) ltac:(cbn; lia)) as (Hp & _).
  split; [done|]. split; [done|]. apply Hp. by vm_compute.
Defined.

(** The comparisons of defined operands of one signedness compare the numbers,
    whatever the widths. *)
Theorem verinum_compares left right :
  number left -> number right -> has_sign_ left = has_sign_ right ->
  verinum_eq left right = Some (V_of_bool (num left =? num right)) /\
  verinum_leeq left right = Some (V_of_bool (num left <=? num right)) /\
  verinum_lt left right = Some (V_of_bool (num left <? num right)).
Proof.
  intros Hl%number_rep Hr%number_rep Hs. split; [by apply eq_spec|].
  unfold verinum_leeq, verinum_lt. rewrite !(less_spec _ left right (num left) (num right)) by done.
  unfold V_compare, Z.leb, Z.ltb. by destruct (_ ?= _).
Qed.

Lemma verinum_compares_witness :
  number minus_five /\ number three /\ verinum_lt minus_five three = Some V1.
Proof.
  assert (number minus_five) as H1 by (split; [done|cbn; lia]).
  assert (number three) as H2 by (split; [done|cbn; lia]).
  split; [done|]. split; [done|]. exact (proj2 (proj2 (verinum_compares minus_five three H1 H2 eq_refl))).
Defined.

(** C32: a defined constant that is not a string and not ['0] or ['1] keeps its
    number when it is trimmed or padded; [cast_to_width] keeps its low bits and
    fixes the width. *)
Theorem verinum_widths v width :
  number v -> is_single_ v = false -> string_flag_ v = false -> (0 < width)%nat ->
  returns (trim_vnum v) (fun r => number r /\ has_sign_ r = has_sign_ v /\ (nbits_ r <= nbits_ v)%nat /\ num r = num v) /\
  returns (pad_to_width v width) (fun r =>
    number r /\ has_len_ r = has_len_ v /\ has_sign_ r = has_sign_ v /\
    nbits_ r = Nat.max (nbits_ v) width /\ num r = num v) /\
  returns (cast_to_width v width) (result_is true (has_sign_ v) width (num v)).
Proof.
  intros Hr%number_rep Hsi Hst Hw. split_and!.
  - eapply returns_mono; [by apply trim_spec|]. intros r (H1 & H2 & H3 & _ & H5).
    split; [by apply (rep_number r (num v))|]. by rewrite (rep_num r (num v)).
  - eapply returns_mono; [by apply pad_spec|]. intros r (H1 & H2 & H3 & H4).
    split; [by apply (rep_number r (num v))|]. by rewrite (rep_num r (num v)).
  - eapply returns_mono; [by apply cast_spec|]. intros r (H1 & H2 & H3). by apply result_sized.
Qed.

Lemma verinum_widths_witness :
  number minus_five /\
  returns (cast_to_width minus_five 9) (result_is true true 9 (-5)).
Proof.
  assert (number minus_five) as H1 by (split; [done|cbn; lia]).
  split; [done|]. exact (proj2 (proj2 (verinum_widths minus_five 9 H1 eq_refl eq_refl ltac:(lia)))).
Defined.

(** C33: the characters [as_string] prints, escapes included, are read back as the
    same bits; two strings that are concatenated through their texts have the
    concatenated bits. *)
Theorem string_constants left right :
  number left -> number right -> (nbits_ left mod 8 = 0)%nat -> (nbits_ right mod 8 = 0)%nat ->
  (0 < nbits_ right)%nat ->
  (str ← as_string right; verinum_of_string str) = Some (mk_verinum (bits_ right) true false false true) /\
  returns (verinum_concat left right) (fun r => bits_ r = bits_ right ++ bits_ left /\ has_len_ r = true /\ has_sign_ r = false).
Proof.
  intros Hl%number_rep Hr%number_rep H8 H8' Hn. split; [by apply (string_spec right (num right))|].
  unfold verinum_concat. destruct (string_flag_ left && string_flag_ right).
  - exists (mk_verinum (bits_ right ++ bits_ left) true false false true). split; [|done].
    by apply (concat_strings_spec left right (num left) (num right)).
  - eapply returns_mono; [apply concat_loops_spec|]. by intros r ->.
Qed.

(** The string of a quote and a control character, and [A]. *)
Definition quote_bell : verinum := mk_verinum (char_bits (ascii_of_nat 7) ++ char_bits (ascii_of_nat 34)) true false false true.
Definition letter_A : verinum := mk_verinum (char_bits "A") true false false true.

Lemma string_constants_witness :
  as_string quote_bell = Some (list_ascii_of_string "\042\007") /\
  (str ← as_string quote_bell; verinum_of_string str) = Some quote_bell /\
  returns (verinum_concat letter_A quote_bell) (fun r => bits_ r = bits_ quote_bell ++ bits_ letter_A /\ has_len_ r = true /\ has_sign_ r = false).
Proof.
  destruct (string_constants letter_A quote_bell ltac:(by split) ltac:(by split) eq_refl eq_refl ltac:(cbn; lia)) as [H1 H2].
  split; [by vm_compute|]. split; [exact H1|exact H2].
Defined.

(** ** What the code does outside of the theorems *)

(** The signed quotient of an unsized number is written into the width of the
    dividend: -128 / -1 is -128. *)
Example quotient_overflows :
  (l ← verinum_of_int64 (-128); r ← verinum_of_int64 (-1); q ← verinum_div l r; Some (as_long q)) = Some (-128).
Proof. by vm_compute. Qed.

(** A divisor of more than 64 bits is truncated by the native division: the
    divisor 2^64 is 0 for [as_long], the division traps; [as_ulong] saturates. *)
Example wide_divisor :
  (l ← verinum_of_int64 5; r ← verinum_shl (verinum_of_uint64 1 66) 64; verinum_div l (with_sign r true)) = None /\
  (r ← verinum_shl (verinum_of_uint64 1 65) 64; q ← verinum_div (verinum_of_uint64 (2 ^ 64 - 1) 64) r; Some (as_ulong q)) = Some 1.
Proof. split; by vm_compute. Qed.

(** A wide quotient of unsized operands says that it has a length. *)
Example wide_quotient_has_len :
  (l ← verinum_shl minus_five 70; q ← verinum_div l minus_five; Some (has_len_ l, has_len_ q)) = Some (false, true).
Proof. by vm_compute. Qed.

(** [<] decides at the bits beyond the shorter operand before it looks for x. *)
Example less_ignores_unknown :
  verinum_lt (mk_verinum [V0; V0; Vx] true false false false) (mk_verinum [V1] true false false false) = Some V0.
Proof. by vm_compute. Qed.
