(* ===== verification/NetExpr.v ===== *)
(** * Expressions of the compiler ([ivl/netlist.h], [ivl/net_expr.cc], [ivl/netlist.cc])

    The tree the elaborator makes of an expression: constants, the operators with
    their width and sign, selects, concatenations and the ternary.  The operator
    characters of the source are constructors.  Whatever has a value only when
    the simulation runs (a signal, a call) is [NetEOther]; real numbers are left
    out, so that a vector is [IVL_VT_BOOL] or [IVL_VT_LOGIC].

    - [expr_type], [has_width], [cast_signed] are the virtual functions;
    - [well_formed] is what elaboration establishes: the widths and signs of the
      operands of an operator agree with it, constants are sized;
    - [denote env e] is the value of [e] when the leaves have the values [env],
      written with the functions that specify the instructions of the simulator;
    - [safe env strict e] is what the values have to satisfy for the optimiser:
      the leaves have the widths and types they claim to have and the base of a
      select is known.

    [two_state] shows that the type of an expression is right: an expression of
    type [IVL_VT_BOOL] has no x and no z. *)

From Stdlib Require Import ZArith Lia Bool.
From stdpp Require Import base numbers list.
From S2P Require Import Prelude Bit4 Words Vec4 Vec4Move Vec4Arith VecRep Opcodes OpSelect Verinum.

Open Scope nat_scope.

(** ** Definitions *)

Inductive ivl_variable_type_t : Set := IVL_VT_BOOL | IVL_VT_LOGIC.

#[export] Instance ivl_variable_type_eq_dec : EqDecision ivl_variable_type_t.
Proof. solve_decision. Defined.

(** *** Operators

    [+ -], [& | ^ A O X], [< > e E L G n N w W], [/ %], [a o], [m M], [l r R]. *)
Inductive add_op : Set := OpPlus | OpMinus.
Inductive bits_op : Set := OpAnd | OpOr | OpXor | OpNand | OpNor | OpXnor.
Inductive comp_op : Set := OpLess | OpGreater | OpEq | OpCaseEq | OpLeeq | OpGteq | OpNe | OpCaseNe | OpWildEq | OpWildNe.
Inductive div_op : Set := OpDivide | OpModulo.
Inductive logic_op : Set := OpLogicAnd | OpLogicOr.
Inductive minmax_op : Set := OpMin | OpMax.
Inductive shift_op : Set := OpShiftL | OpShiftR | OpShiftRSigned.

(** [! & | ^ A N X] *)
Inductive reduce_op : Set := RedNot | RedAnd | RedOr | RedXor | RedNand | RedNor | RedXnor.

(** The classes derived from [NetEBinary], with their operators. *)
Inductive binary_op : Set :=
| NetEBAdd (op : add_op)
| NetEBBits (op : bits_op)
| NetEBComp (op : comp_op)
| NetEBDiv (op : div_op)
| NetEBLogic (op : logic_op)
| NetEBMinMax (op : minmax_op)
| NetEBMult
| NetEBPow
| NetEBShift (op : shift_op).

(** [NetEUnary] with [+ - m], [NetEUBits] with [~], [NetEUReduce], and
    [NetECast] with [2]. *)
Inductive unary_op : Set :=
| UnaryPlus
| UnaryMinus
| UnaryAbs
| NetEUBits
| NetEUReduce (op : reduce_op)
| NetECast2.

(** *** Expressions

    The width and the sign of a constant are those of its value. *)
Inductive NetExpr : Set :=
| NetEConst (value_ : verinum)
| NetEOther (id : nat) (type_ : ivl_variable_type_t) (width_ : nat) (signed_flag_ : bool)
| NetEBinary (op_ : binary_op) (left_ right_ : NetExpr) (width_ : nat) (signed_flag_ : bool)
| NetEConcat (parms_ : list NetExpr) (repeat_ : nat) (type_ : ivl_variable_type_t) (width_ : nat) (signed_flag_ : bool)
| NetESelect (expr_ : NetExpr) (base_ : option NetExpr) (width_ : nat) (signed_flag_ : bool)
| NetETernary (cond_ true_val_ false_val_ : NetExpr) (width_ : nat) (signed_flag_ : bool)
| NetEUnary (op_ : unary_op) (expr_ : NetExpr) (width_ : nat) (signed_flag_ : bool).

Definition expr_width (e : NetExpr) : nat :=
  match e with
  | NetEConst v => nbits_ v
  | NetEOther _ _ w _ | NetEBinary _ _ _ w _ | NetEConcat _ _ _ w _ | NetESelect _ _ w _
  | NetETernary _ _ _ w _ | NetEUnary _ _ w _ => w
  end.

Definition has_sign (e : NetExpr) : bool :=
  match e with
  | NetEConst v => has_sign_ v
  | NetEOther _ _ _ s | NetEBinary _ _ _ _ s | NetEConcat _ _ _ _ s | NetESelect _ _ _ s
  | NetETernary _ _ _ _ s | NetEUnary _ _ _ s => s
  end.

Definition cast_signed (e : NetExpr) (flag : bool) : NetExpr :=
  match e with
  | NetEConst v => NetEConst (with_sign v flag)
  | NetEOther i t w _ => NetEOther i t w flag
  | NetEBinary op l r w _ => NetEBinary op l r w flag
  | NetEConcat ps n t w _ => NetEConcat ps n t w flag
  | NetESelect e b w _ => NetESelect e b w flag
  | NetETernary c t f w _ => NetETernary c t f w flag
  | NetEUnary op e w _ => NetEUnary op e w flag
  end.

(** [dynamic_cast<NetEConst*>(e)] *)
Definition const_of (e : NetExpr) : option verinum :=
  match e with NetEConst v => Some v | _ => None end.

Fixpoint has_width (e : NetExpr) : bool :=
  match e with
  | NetEConst v => has_len_ v
  | NetEBinary (NetEBComp _) _ _ _ _ => true
  | NetEBinary (NetEBShift _) l _ _ _ => has_width l
  | NetEBinary _ l r _ _ => has_width l && has_width r
  | _ => true
  end.

Definition const_type (v : verinum) : ivl_variable_type_t :=
  if nbits_ v =? 0 then IVL_VT_LOGIC
  else if string_flag_ v then IVL_VT_BOOL
  else if is_defined v then IVL_VT_BOOL
  else IVL_VT_LOGIC.

Definition comp_type (op : comp_op) (l r : ivl_variable_type_t) : ivl_variable_type_t :=
  match op, l, r with
  | (OpCaseEq | OpCaseNe), _, _ => IVL_VT_BOOL
  | _, IVL_VT_BOOL, IVL_VT_BOOL => IVL_VT_BOOL
  | _, _, _ => IVL_VT_LOGIC
  end.

(** With the real types left out the assertions of the source hold. *)
Definition ternary_type (sel tru fal : ivl_variable_type_t) : ivl_variable_type_t :=
  match tru, fal, sel with
  | IVL_VT_LOGIC, IVL_VT_BOOL, _ => IVL_VT_LOGIC
  | IVL_VT_BOOL, IVL_VT_LOGIC, _ => IVL_VT_LOGIC
  | _, _, IVL_VT_LOGIC => IVL_VT_LOGIC
  | _, _, _ => tru
  end.

Fixpoint expr_type (e : NetExpr) : ivl_variable_type_t :=
  match e with
  | NetEConst v => const_type v
  | NetEOther _ t _ _ => t
  | NetEBinary (NetEBComp op) l r _ _ => comp_type op (expr_type l) (expr_type r)
  | NetEBinary _ _ _ _ _ => IVL_VT_LOGIC
  | NetEConcat _ _ t _ _ => t
  | NetESelect e _ _ _ => expr_type e
  | NetETernary c t f _ _ => ternary_type (expr_type c) (expr_type t) (expr_type f)
  | NetEUnary NetECast2 _ _ _ => IVL_VT_BOOL
  | NetEUnary _ e _ _ => expr_type e
  end.

(** *** Well-formed expressions *)

(** Widths are [unsigned], and 0 only inside of elaboration. *)
Definition sized (w : nat) : bool := (0 <? w) && (Z.of_nat w <? 2 ^ 32)%Z.

Definition const_ok (v : verinum) : bool :=
  has_len_ v && negb (is_single_ v) && sized (nbits_ v) &&
  (negb (string_flag_ v) || (is_defined v && (nbits_ v `mod` 8 =? 0))).

Definition binary_ok (op : binary_op) (wl wr : nat) (sl sr : bool) (w : nat) (s : bool) : bool :=
  match op with
  | NetEBBits _ => (wl =? w) && (wr =? w)
  | NetEBComp _ => (wl =? wr) && Bool.eqb sl sr && (w =? 1) && negb s
  | NetEBLogic _ => (w =? 1) && negb s
  | NetEBPow => (wl =? w) && Bool.eqb sl s
  | NetEBShift _ => wl =? w
  | _ => (wl =? w) && (wr =? w) && Bool.eqb sl s && Bool.eqb sr s
  end.

Definition unary_ok (op : unary_op) (we : nat) (se : bool) (w : nat) (s : bool) : bool :=
  match op with
  | NetEUReduce _ => (w =? 1) && negb s
  | NetECast2 => sized w && Bool.eqb se s
  | _ => (we =? w) && Bool.eqb se s
  end.

(** The base of a select is any expression, or a constant that need not be sized. *)
Definition base_const_ok (v : verinum) : bool := 0 <? nbits_ v.

Fixpoint well_formed (e : NetExpr) : bool :=
  match e with
  | NetEConst v => const_ok v
  | NetEOther _ _ w _ => sized w
  | NetEBinary op l r w s =>
      well_formed l && well_formed r && binary_ok op (expr_width l) (expr_width r) (has_sign l) (has_sign r) w s
  | NetEConcat ps n _ w _ =>
      forallb well_formed ps && (0 <? n) && sized w && (w =? n * sum_list_with expr_width ps)
  | NetESelect e base w _ =>
      well_formed e && sized w &&
      match base with
      | None => true
      | Some (NetEConst v) => base_const_ok v
      | Some b => well_formed b
      end
  | NetETernary c t f w s =>
      well_formed c && well_formed t && well_formed f &&
      (expr_width t =? w) && (expr_width f =? w) && Bool.eqb (has_sign t) s && Bool.eqb (has_sign f) s
  | NetEUnary op e w s => well_formed e && unary_ok op (expr_width e) (has_sign e) w s
  end.

(** ** Reference semantics *)

Open Scope Z_scope.

(** The number a known vector stands for. *)
Definition signed_value (s : bool) (l : list vvp_bit4_t) : Z := if s then bits_to_signed_Z l else bits_to_Z l.

Definition unknown (l : list vvp_bit4_t) : bool := list_has_xz l.

Definition all_x (w : nat) : list vvp_bit4_t := replicate w BIT4_X.

(** 1 if some bit is 1, else X if some bit is unknown, else 0. *)
Definition truth (l : list vvp_bit4_t) : vvp_bit4_t := foldr bit4_or BIT4_0 l.

Definition bits_value (op : bits_op) : vvp_bit4_t -> vvp_bit4_t -> vvp_bit4_t :=
  match op with
  | OpAnd => bit4_and
  | OpOr => bit4_or
  | OpXor => bit4_xor
  | OpNand => fun a b => bit4_not (bit4_and a b)
  | OpNor => fun a b => bit4_not (bit4_or a b)
  | OpXnor => fun a b => bit4_not (bit4_xor a b)
  end.

(** An order on numbers; X if an operand is unknown. *)
Definition order_value (test : Z -> Z -> bool) (s : bool) (x y : list vvp_bit4_t) : vvp_bit4_t :=
  if unknown x || unknown y then BIT4_X else bit4_of_test (test (signed_value s x) (signed_value s y)).

Definition comp_value (op : comp_op) (s : bool) (x y : list vvp_bit4_t) : vvp_bit4_t :=
  match op with
  | OpLess => order_value Z.ltb s x y
  | OpGreater => order_value Z.gtb s x y
  | OpLeeq => order_value Z.leb s x y
  | OpGteq => order_value Z.geb s x y
  | OpEq => logic_eq x y
  | OpNe => bit4_not (logic_eq x y)
  | OpCaseEq => bit4_of_test (bool_decide (x = y))
  | OpCaseNe => bit4_not (bit4_of_test (bool_decide (x = y)))
  | OpWildEq => wild_eq x y
  | OpWildNe => bit4_not (wild_eq x y)
  end.

(** Division rounds towards 0; the remainder has the sign of the dividend. *)
Definition div_value (op : div_op) (s : bool) (w : nat) (x y : list vvp_bit4_t) : list vvp_bit4_t :=
  if unknown x || unknown y || (signed_value s y =? 0) then all_x w
  else bits_of_Z w ((match op with OpDivide => Z.quot | OpModulo => Z.rem end) (signed_value s x) (signed_value s y)).

Definition minmax_value (op : minmax_op) (s : bool) (w : nat) (x y : list vvp_bit4_t) : list vvp_bit4_t :=
  if unknown x || unknown y then all_x w
  else match op with
       | OpMin => if signed_value s x <? signed_value s y then x else y
       | OpMax => if signed_value s y <? signed_value s x then x else y
       end.

Definition pow_value (sx sy : bool) (w : nat) (x y : list vvp_bit4_t) : list vvp_bit4_t :=
  if unknown x || unknown y then all_x w
  else
    let a := signed_value sx x in
    let b := signed_value sy y in
    if 0 <=? b then bits_of_Z w (a ^ b)
    else if a =? 0 then all_x w else bits_of_Z w (pow_negative a b).

(** The shifts are those of the simulator, with the amount as its index register
    holds it. *)
Definition shift_value (op : shift_op) (s : bool) (x y : list vvp_bit4_t) : list vvp_bit4_t :=
  let f4 := if unknown y then BIT4_1 else BIT4_0 in
  let top := if s then bit_at x (length x - 1) else BIT4_0 in
  match op with
  | OpShiftL => shifted f4 (bits_to_Z y) BIT4_0 x (fun n => replicate n BIT4_0 ++ take (length x - n) x)
  | OpShiftR => shifted f4 (bits_to_Z y) BIT4_0 x (fun n => drop n x ++ replicate n BIT4_0)
  | OpShiftRSigned => shifted f4 (bits_to_Z y) top x (fun n => drop n x ++ replicate n top)
  end.

Definition binary_value (op : binary_op) (sx sy : bool) (w : nat) (x y : list vvp_bit4_t) : list vvp_bit4_t :=
  match op with
  | NetEBAdd OpPlus => bits_arith Z.add x y
  | NetEBAdd OpMinus => bits_arith Z.sub x y
  | NetEBBits op => zip_with (bits_value op) x y
  | NetEBComp op => [comp_value op sx x y]
  | NetEBDiv op => div_value op sx w x y
  | NetEBLogic OpLogicAnd => [bit4_and (truth x) (truth y)]
  | NetEBLogic OpLogicOr => [bit4_or (truth x) (truth y)]
  | NetEBMinMax op => minmax_value op sx w x y
  | NetEBMult => bits_arith Z.mul x y
  | NetEBPow => pow_value sx sy w x y
  | NetEBShift op => shift_value op sx x y
  end.

Definition reduce_value (op : reduce_op) (x : list vvp_bit4_t) : vvp_bit4_t :=
  match op with
  | RedNot => bit4_not (truth x)
  | RedAnd => foldr bit4_and BIT4_1 x
  | RedOr => foldr bit4_or BIT4_0 x
  | RedXor => foldr bit4_xor BIT4_0 x
  | RedNand => bit4_not (foldr bit4_and BIT4_1 x)
  | RedNor => bit4_not (foldr bit4_or BIT4_0 x)
  | RedXnor => bit4_not (foldr bit4_xor BIT4_0 x)
  end.

Definition negate_value (x : list vvp_bit4_t) : list vvp_bit4_t :=
  if unknown x then all_x (length x) else bits_of_Z (length x) (- bits_to_Z x).

(** A change of the width: the low bits, and above them the sign bit or 0. *)
Definition resize_value (s : bool) (w : nat) (x : list vvp_bit4_t) : list vvp_bit4_t :=
  take w x ++ replicate (w - length x) (if s then bit_at x (length x - 1) else BIT4_0).

Definition unary_value (op : unary_op) (s : bool) (w : nat) (x : list vvp_bit4_t) : list vvp_bit4_t :=
  match op with
  | UnaryPlus => x
  | UnaryMinus => negate_value x
  | UnaryAbs =>
      if unknown x then all_x (length x)
      else if signed_value s x <? 0 then negate_value x else x
  | NetEUBits => map bit4_not x
  | NetEUReduce op => [reduce_value op x]
  | NetECast2 => resize_value s w (map cast2_bit x)
  end.

(** A select at an address, bits outside of the vector being X. *)
Definition select_value (w : nat) (x : list vvp_bit4_t) (s : bool) (base : list vvp_bit4_t) : list vvp_bit4_t :=
  if unknown base then all_x w else window x (signed_value s base) w.

(** The operand 0 of a concatenation is the most significant one. *)
Definition concat_value (n : nat) (xs : list (list vvp_bit4_t)) : list vvp_bit4_t :=
  concat (replicate n (concat (reverse xs))).

Definition ternary_value (c x y : list vvp_bit4_t) : list vvp_bit4_t :=
  match truth c with
  | BIT4_1 => x
  | BIT4_0 => y
  | _ => zip_with blend_bit x y
  end.

Fixpoint denote (env : nat -> list vvp_bit4_t) (e : NetExpr) : list vvp_bit4_t :=
  match e with
  | NetEConst v => map to_bit4 (bits_ v)
  | NetEOther id _ _ _ => env id
  | NetEBinary op l r w _ => binary_value op (has_sign l) (has_sign r) w (denote env l) (denote env r)
  | NetEConcat ps n _ _ _ => concat_value n (map (denote env) ps)
  | NetESelect e None w s => resize_value s w (denote env e)
  | NetESelect e (Some b) w _ => select_value w (denote env e) (has_sign b) (denote env b)
  | NetETernary c t f _ _ => ternary_value (denote env c) (denote env t) (denote env f)
  | NetEUnary op e w _ => unary_value op (has_sign e) w (denote env e)
  end.

(** *** What the values have to satisfy

    With [strict] the type of the expression matters, because the optimiser draws
    conclusions from it: below an order comparison. *)
Definition is_order (op : comp_op) : bool :=
  match op with OpLess | OpGreater | OpLeeq | OpGteq => true | _ => false end.

Definition is_bool (t : ivl_variable_type_t) : bool := bool_decide (t = IVL_VT_BOOL).

(** The base is known and fits a [long], also past the last selected bit. *)
Definition base_safe (strict : bool) (s : bool) (b : list vvp_bit4_t) (len w : nat) : Prop :=
  unknown b = false /\ - 2 ^ 63 <= signed_value s b < 2 ^ 63 /\
  (strict = true -> 0 <= signed_value s b /\ signed_value s b + Z.of_nat w <= Z.of_nat len).

Fixpoint safe (env : nat -> list vvp_bit4_t) (strict : bool) (e : NetExpr) : Prop :=
  match e with
  | NetEConst _ => True
  | NetEOther id t w _ => length (env id) = w /\ (t = IVL_VT_BOOL -> unknown (env id) = false)
  | NetEBinary (NetEBComp op) l r _ _ => safe env (strict || is_order op) l /\ safe env (strict || is_order op) r
  | NetEBinary _ l r _ _ => safe env false l /\ safe env false r
  | NetEConcat ps _ t _ _ =>
      let strict := strict && is_bool t in
      foldr (fun p (rest : Prop) => safe env strict p /\ (strict = true -> expr_type p = IVL_VT_BOOL) /\ rest) True ps
  | NetESelect e base w _ =>
      safe env strict e /\
      match base with
      | None => True
      | Some b => safe env false b /\ base_safe strict (has_sign b) (denote env b) (expr_width e) w
      end
  | NetETernary c t f _ _ =>
      safe env strict c /\
      (truth (denote env c) <> BIT4_0 -> safe env strict t) /\
      (truth (denote env c) <> BIT4_1 -> safe env strict f)
  | NetEUnary NetECast2 e _ _ => safe env false e
  | NetEUnary _ e _ _ => safe env strict e
  end.

(** ** Lemmas *)

(** Induction over expressions with the operands of concatenations and the base of
    selects. *)
Section induction.
Variable P : NetExpr -> Prop.
Hypothesis Hconst : forall v, P (NetEConst v).
Hypothesis Hother : forall i t w s, P (NetEOther i t w s).
Hypothesis Hbinary : forall op l r w s, P l -> P r -> P (NetEBinary op l r w s).
Hypothesis Hconcat : forall ps n t w s, Forall P ps -> P (NetEConcat ps n t w s).
Hypothesis Hextend : forall e w s, P e -> P (NetESelect e None w s).
Hypothesis Hselect : forall e b w s, P e -> P b -> P (NetESelect e (Some b) w s).
Hypothesis Hternary : forall c t f w s, P c -> P t -> P f -> P (NetETernary c t f w s).
Hypothesis Hunary : forall op e w s, P e -> P (NetEUnary op e w s).

Fixpoint NetExpr_induction (e : NetExpr) : P e :=
  match e with
  | NetEConst v => Hconst v
  | NetEOther i t w s => Hother i t w s
  | NetEBinary op l r w s => Hbinary op l r w s (NetExpr_induction l) (NetExpr_induction r)
  | NetEConcat ps n t w s =>
      Hconcat ps n t w s
        ((fix all (ps : list NetExpr) : Forall P ps :=
            match ps with
            | [] => Forall_nil_2 P
            | p :: ps => Forall_cons_2 P p ps (NetExpr_induction p) (all ps)
            end) ps)
  | NetESelect e None w s => Hextend e w s (NetExpr_induction e)
  | NetESelect e (Some b) w s => Hselect e b w s (NetExpr_induction e) (NetExpr_induction b)
  | NetETernary c t f w s => Hternary c t f w s (NetExpr_induction c) (NetExpr_induction t) (NetExpr_induction f)
  | NetEUnary op e w s => Hunary op e w s (NetExpr_induction e)
  end.
End induction.

(** *** Unknown bits *)

Lemma unknown_cons b l : unknown (b :: l) = bit4_is_xz b || unknown l.
Proof. done. Qed.

Lemma unknown_app l m : unknown (l ++ m) = unknown l || unknown m.
Proof. unfold unknown, list_has_xz. apply existsb_app. Qed.

Lemma unknown_true l : unknown l = true <-> exists b, b ∈ l /\ bit4_is_xz b = true.
Proof.
  unfold unknown, list_has_xz. rewrite existsb_exists. split; intros (b & H1 & H2); exists b; by rewrite list_elem_of_In in *.
Qed.

Lemma known_forall l : unknown l = false <-> Forall (fun b => bit4_is_xz b = false) l.
Proof.
  induction l as [|b l IH]; [by rewrite Forall_nil|]. rewrite unknown_cons, orb_false_iff, Forall_cons. by rewrite IH.
Qed.

Lemma known_replicate n b : bit4_is_xz b = false -> unknown (replicate n b) = false.
Proof. intros H. apply known_forall, Forall_replicate, H. Qed.

Lemma known_take n l : unknown l = false -> unknown (take n l) = false.
Proof. rewrite !known_forall. apply Forall_take. Qed.

Lemma known_drop n l : unknown l = false -> unknown (drop n l) = false.
Proof. rewrite !known_forall. apply Forall_drop. Qed.

Lemma known_bit_at l i : unknown l = false -> (i < length l)%nat -> bit4_is_xz (bit_at l i) = false.
Proof.
  intros H Hi. destruct (lookup_lt_is_Some_2 l i Hi) as [b Hb]. rewrite (bit_at_lookup _ _ _ Hb).
  by apply known_forall in H as H'; eapply Forall_lookup_1 in H'.
Qed.

Lemma known_map (f : vvp_bit4_t -> vvp_bit4_t) l :
  (forall b, bit4_is_xz b = false -> bit4_is_xz (f b) = false) -> unknown l = false -> unknown (map f l) = false.
Proof. intros Hf. rewrite !known_forall. intros H. apply Forall_fmap. by eapply Forall_impl. Qed.

Lemma known_concat ls : Forall (fun l => unknown l = false) ls -> unknown (concat ls) = false.
Proof. induction 1 as [|l ls Hl _ IH]; [done|]. cbn [concat]. by rewrite unknown_app, Hl, IH. Qed.

Lemma known_fold (f : vvp_bit4_t -> vvp_bit4_t -> vvp_bit4_t) b0 l :
  (forall a b, bit4_is_xz a = false -> bit4_is_xz b = false -> bit4_is_xz (f a b) = false) ->
  bit4_is_xz b0 = false -> unknown l = false -> bit4_is_xz (foldr f b0 l) = false.
Proof.
  intros Hf H0 Hl%known_forall. induction Hl as [|b l Hb _ IH]; [done|]. cbn [foldr]. by apply Hf.
Qed.

Lemma known_not b : bit4_is_xz b = false -> bit4_is_xz (bit4_not b) = false.
Proof. by destruct b. Qed.

Lemma known_test b : bit4_is_xz (bit4_of_test b) = false.
Proof. by destruct b. Qed.

Lemma known_or a b : bit4_is_xz a = false -> bit4_is_xz b = false -> bit4_is_xz (bit4_or a b) = false.
Proof. by destruct a, b. Qed.

Lemma known_and a b : bit4_is_xz a = false -> bit4_is_xz b = false -> bit4_is_xz (bit4_and a b) = false.
Proof. by destruct a, b. Qed.

Lemma known_xor a b : bit4_is_xz a = false -> bit4_is_xz b = false -> bit4_is_xz (bit4_xor a b) = false.
Proof. by destruct a, b. Qed.

Lemma known_logic_eq l r : unknown l = false -> unknown r = false -> bit4_is_xz (logic_eq l r) = false.
Proof. unfold logic_eq, unknown. intros -> ->. by destruct (existsb _ _). Qed.

Lemma known_bits_of_Z n z : unknown (bits_of_Z n z) = false.
Proof.
  apply known_forall, Forall_fmap, Forall_forall. intros i _. cbn. by destruct (tb z i).
Qed.

Lemma known_wild_eq l r : unknown l = false -> unknown r = false -> bit4_is_xz (wild_eq l r) = false.
Proof.
  intros Hl Hr. unfold wild_eq. apply known_logic_eq; apply known_forall, Forall_fmap, Forall_forall;
    intros [a b] [H _]%list_elem_of_In%filter_In; apply list_elem_of_In in H; cbn.
  - apply elem_of_zip_l in H. apply known_forall in Hl. by eapply Forall_forall in Hl.
  - apply elem_of_zip_r in H. apply known_forall in Hr. by eapply Forall_forall in Hr.
Qed.

(** *** Widths *)

Lemma length_resize s w x : length (resize_value s w x) = w.
Proof. unfold resize_value. rewrite length_app, length_take, length_replicate. lia. Qed.

Lemma length_shifted f4 k fill x f :
  (forall n, (n <= length x)%nat -> length (f n) = length x) -> 0 <= k -> length (shifted f4 k fill x f) = length x.
Proof.
  intros Hf Hk. unfold shifted. destruct (bit4_eqb f4 BIT4_1); [apply length_replicate|].
  destruct (_ || _) eqn:E; [apply length_replicate|]. apply orb_false_iff in E as [_ E%Z.leb_gt]. apply Hf. lia.
Qed.

Lemma bits_to_Z_nonneg l : 0 <= bits_to_Z l.
Proof. induction l as [|b l IH]; [done|]. cbn [bits_to_Z]. destruct (bit4_eqb b BIT4_1); lia. Qed.

Lemma length_shift_value op s x y : length (shift_value op s x y) = length x.
Proof.
  pose proof (bits_to_Z_nonneg y). destruct op; apply length_shifted; try done; intros n Hn;
    rewrite length_app, length_replicate, ?length_take, ?length_drop; lia.
Qed.

Lemma length_bits_arith op x y : length (bits_arith op x y) = length x.
Proof. unfold bits_arith. destruct (_ || _); [apply length_replicate|apply length_bits_of_Z]. Qed.

Lemma length_concat_value n xs : length (concat_value n xs) = (n * sum_list (map length xs))%nat.
Proof.
  unfold concat_value. assert (length (concat (reverse xs)) = sum_list (map length xs)) as H.
  { induction xs as [|x xs IH]; [done|]. rewrite reverse_cons, concat_app, length_app. cbn. rewrite IH, app_nil_r. lia. }
  induction n as [|n IH]; [done|]. cbn [replicate concat]. rewrite length_app, IH, H. lia.
Qed.

(** Facts about well-formed operands, from the boolean conditions. *)
Ltac split_ok :=
  repeat match goal with
    | H : _ && _ = true |- _ => apply andb_true_iff in H as [? ?]
    | H : (_ =? _)%nat = true |- _ => apply Nat.eqb_eq in H
    | H : Bool.eqb _ _ = true |- _ => apply Bool.eqb_prop in H
    | H : negb _ = true |- _ => apply negb_true_iff in H
    | H : (_ <? _)%nat = true |- _ => apply Nat.ltb_lt in H
    end.

Lemma length_binary_value op sx sy w s x y :
  binary_ok op (length x) (length y) sx sy w s = true -> length (binary_value op sx sy w x y) = w.
Proof.
  intros H. destruct op as [[]| | | |[]| | | |]; cbn [binary_ok] in H; split_ok; cbn [binary_value length]; try done.
  - by rewrite length_bits_arith.
  - by rewrite length_bits_arith.
  - rewrite length_zip_with. lia.
  - unfold div_value. destruct (_ || _); [apply length_replicate|apply length_bits_of_Z].
  - unfold minmax_value. destruct (_ || _); [apply length_replicate|]. destruct op; by destruct (_ <? _).
  - by rewrite length_bits_arith.
  - unfold pow_value. destruct (_ || _); [apply length_replicate|].
    destruct (0 <=? _); [apply length_bits_of_Z|]. destruct (_ =? _); [apply length_replicate|apply length_bits_of_Z].
  - by rewrite length_shift_value.
Qed.

Lemma length_negate x : length (negate_value x) = length x.
Proof. unfold negate_value. destruct (unknown x); [apply length_replicate|apply length_bits_of_Z]. Qed.

Lemma length_unary_value op se w s x :
  unary_ok op (length x) se w s = true -> length (unary_value op se w x) = w.
Proof.
  intros H. destruct op; cbn [unary_ok] in H; split_ok; cbn [unary_value length]; try done.
  - by rewrite length_negate.
  - destruct (unknown x); [unfold all_x; by rewrite length_replicate|]. destruct (_ <? _); by rewrite ?length_negate.
  - by rewrite length_map.
  - apply length_resize.
Qed.

Lemma length_ternary_value c x y w : length x = w -> length y = w -> length (ternary_value c x y) = w.
Proof. intros Hx Hy. unfold ternary_value. destruct (truth c); rewrite ?length_zip_with; lia. Qed.

Lemma safe_concat env strict ps n t w s :
  safe env strict (NetEConcat ps n t w s) <->
  Forall (fun p => safe env (strict && is_bool t) p /\ (strict && is_bool t = true -> expr_type p = IVL_VT_BOOL)) ps.
Proof.
  cbn [safe]. induction ps as [|p ps IH]; cbn [foldr]; [by rewrite Forall_nil|]. rewrite Forall_cons, <- IH. tauto.
Qed.

Lemma length_denote env strict e :
  well_formed e = true -> safe env strict e -> length (denote env e) = expr_width e.
Proof.
  revert strict. induction e as [v|i t w s|op l r w s IHl IHr|ps n t w s IH|e w s IHe|e b w s IHe IHb|c t f w s IHc IHt IHf|op e w s IHe]
    using NetExpr_induction; intros strict Hwf Hsafe; cbn [well_formed] in Hwf; split_ok; cbn [denote expr_width].
  - by rewrite length_map.
  - apply Hsafe.
  - assert (exists st, safe env st l /\ safe env st r) as (st & Hl & Hr) by (destruct op; eexists; apply Hsafe).
    apply length_binary_value with s. by rewrite (IHl st), (IHr st).
  - rewrite length_concat_value, map_map. apply safe_concat in Hsafe.
    replace (sum_list (map (fun p => length (denote env p)) ps)) with (sum_list_with expr_width ps); [done|].
    match goal with H : forallb _ _ = true |- _ => rename H into Hps end.
    clear - IH Hsafe Hps. induction ps as [|p ps IHps]; [done|]. cbn in *. split_ok.
    apply Forall_cons in IH as [Hp IH], Hsafe as [[Hs _] Hsafe]. rewrite IHps by done. f_equal. symmetry. by eapply Hp.
  - apply length_resize.
  - unfold select_value. destruct (unknown _); [apply length_replicate|apply length_window].
  - destruct Hsafe as (Hc & Ht & Hf). unfold ternary_value.
    destruct (truth (denote env c)) eqn:E; rewrite ?length_zip_with, ?(IHt strict), ?(IHf strict) by (done || by apply Ht || by apply Hf); lia.
  - apply length_unary_value with s. rewrite (IHe (match op with NetECast2 => false | _ => strict end)); [done..|by destruct op].
Qed.

(** *** Two-state expressions *)

Lemma known_resize s w x : unknown x = false -> (0 < length x)%nat -> unknown (resize_value s w x) = false.
Proof.
  intros H Hx. unfold resize_value. rewrite unknown_app, known_take by done. apply known_replicate.
  destruct s; [apply known_bit_at; [done|lia]|done].
Qed.

Lemma known_negate x : unknown x = false -> unknown (negate_value x) = false.
Proof. intros H. unfold negate_value. rewrite H. apply known_bits_of_Z. Qed.

Lemma known_truth x : unknown x = false -> bit4_is_xz (truth x) = false.
Proof. intros H. unfold truth. apply known_fold; [apply known_or|done|done]. Qed.

Lemma known_comp op s x y : unknown x = false -> unknown y = false -> bit4_is_xz (comp_value op s x y) = false.
Proof.
  intros Hx Hy. destruct op; cbn [comp_value]; unfold order_value; rewrite ?Hx, ?Hy; cbn [orb];
    auto using known_test, known_not, known_logic_eq, known_wild_eq.
Qed.

Lemma known_unary op s w x :
  unknown x = false -> (0 < length x)%nat -> unknown (unary_value op s w x) = false.
Proof.
  intros H Hx. destruct op as [| | | |op|]; cbn [unary_value].
  - done.
  - by apply known_negate.
  - rewrite H. destruct (_ <? _); [by apply known_negate|done].
  - by apply known_map; [apply known_not|].
  - rewrite unknown_cons, orb_false_r.
    destruct op; cbn [reduce_value]; try apply known_not; try (by apply known_truth);
      apply known_fold; auto using known_and, known_or, known_xor.
  - apply known_resize; [|by rewrite length_map]. apply known_map; [|done]. by intros [].
Qed.

Lemma known_cast2 s w x : (0 < length x)%nat -> unknown (unary_value NetECast2 s w x) = false.
Proof.
  intros Hx. cbn [unary_value]. apply known_resize; [|by rewrite length_map].
  apply known_forall, Forall_fmap, Forall_forall. intros b _. by destruct b.
Qed.

Lemma known_select w x s b :
  unknown x = false -> base_safe true s b (length x) w -> unknown (select_value w x s b) = false.
Proof.
  intros Hx (Hb & _ & Hr). destruct (Hr eq_refl) as [H1 H2]. unfold select_value. rewrite Hb.
  apply known_forall, Forall_fmap, Forall_forall. intros i Hi%elem_of_seq. unfold bit_atZ.
  cbn. rewrite (proj2 (Z.leb_le _ _)) by lia. apply known_bit_at; [done|lia].
Qed.

Lemma known_ternary c x y :
  unknown c = false -> (truth c <> BIT4_0 -> unknown x = false) -> (truth c <> BIT4_1 -> unknown y = false) ->
  unknown (ternary_value c x y) = false.
Proof.
  intros Hc Hx Hy. pose proof (known_truth c Hc) as Ht. unfold ternary_value.
  destruct (truth c) eqn:E; try done; [by apply Hy|by apply Hx].
Qed.

Lemma known_concat_value n xs : Forall (fun l => unknown l = false) xs -> unknown (concat_value n xs) = false.
Proof.
  intros H. unfold concat_value. apply known_concat, Forall_replicate. apply known_concat. by rewrite Forall_reverse.
Qed.

Lemma to_bit4_unknown v : unknown (map to_bit4 (bits_ v)) = negb (is_defined v).
Proof.
  unfold is_defined. induction (bits_ v) as [|b l IH]; [done|]. cbn [map forallb]. rewrite unknown_cons, IH. by destruct b.
Qed.

Lemma const_known v : const_ok v = true -> const_type v = IVL_VT_BOOL -> unknown (map to_bit4 (bits_ v)) = false.
Proof.
  unfold const_ok, const_type, sized. intros H Ht. split_ok. rewrite to_bit4_unknown.
  destruct (Nat.eqb_spec (nbits_ v) 0); [lia|].
  match goal with H : negb _ || _ = true |- _ => rename H into Hs end.
  destruct (string_flag_ v); cbn [negb orb] in Hs; [split_ok; by match goal with H : is_defined v = true |- _ => rewrite H end|]. by destruct (is_defined v).
Qed.

Lemma comp_bool op l r :
  comp_type op l r = IVL_VT_BOOL -> op = OpCaseEq \/ op = OpCaseNe \/ (l = IVL_VT_BOOL /\ r = IVL_VT_BOOL).
Proof. destruct op, l, r; cbn; auto; done. Qed.

Lemma ternary_bool c t f : ternary_type c t f = IVL_VT_BOOL -> c = IVL_VT_BOOL /\ t = IVL_VT_BOOL /\ f = IVL_VT_BOOL.
Proof. by destruct c, t, f. Qed.

Lemma sized_pos w : sized w = true -> (0 < w)%nat.
Proof. unfold sized. intros H. split_ok. lia. Qed.

Lemma wf_sized e : well_formed e = true -> sized (expr_width e) = true.
Proof.
  induction e as [v|i t w s|op l r w s IHl IHr|ps n t w s _|e w s _|e b w s _ _|c t f w s _ IHt _|op e w s IHe]
    using NetExpr_induction; intros Hwf; cbn [well_formed] in Hwf; split_ok; cbn [expr_width]; try done.
  - unfold const_ok in Hwf. by split_ok.
  - destruct op; cbn [binary_ok] in *; split_ok; subst; auto.
  - subst. auto.
  - destruct op; cbn [unary_ok] in *; split_ok; subst; auto.
Qed.

(** The type of an expression is right, in a strict context. *)
Lemma two_state env e :
  well_formed e = true -> safe env true e -> expr_type e = IVL_VT_BOOL -> unknown (denote env e) = false.
Proof.
  induction e as [v|i t w s|op l r w s IHl IHr|ps n t w s IH|e w s IHe|e b w s IHe _|c t f w s IHc IHt IHf|op e w s IHe]
    using NetExpr_induction; intros Hwf Hsafe Ht; pose proof Hwf as Hwf'; cbn [well_formed] in Hwf; split_ok; cbn [denote].
  - by apply const_known.
  - by apply Hsafe.
  - destruct op; try done. destruct Hsafe as [Hl Hr]. cbn [orb] in Hl, Hr. cbn [expr_type] in Ht. cbn [binary_value]. rewrite unknown_cons, orb_false_r.
    apply comp_bool in Ht as [->|[->|[Tl Tr]]]; [apply known_test|apply known_not, known_test|apply known_comp; auto].
  - apply known_concat_value, Forall_fmap. cbn [expr_type] in Ht. subst t. apply safe_concat in Hsafe. cbn in Hsafe.
    match goal with H : forallb _ _ = true |- _ => rename H into Hps end.
    clear - IH Hsafe Hps. induction ps as [|p ps IHps]; [constructor|]. cbn in *. split_ok.
    apply Forall_cons in IH as [Hp IH], Hsafe as [[Hs Ht] Hsafe]. apply Forall_cons. split; [by apply Hp; auto|by apply IHps].
  - apply known_resize; [apply IHe; [done|apply Hsafe|done]|].
    rewrite (length_denote env true e) by (done || apply Hsafe). apply sized_pos. by apply wf_sized.
  - destruct Hsafe as (He & Hb & Hbase). apply known_select; [by apply IHe|].
    by rewrite (length_denote env true e).
  - destruct Hsafe as (Hc & Hst & Hsf). cbn [expr_type] in Ht. apply ternary_bool in Ht as (Tc & Tt & Tf).
    apply known_ternary; auto.
  - assert (0 < expr_width e)%nat by (by apply sized_pos, wf_sized).
    destruct op; [..|apply known_cast2; rewrite (length_denote env false e) by done; lia];
      (apply known_unary; [by apply IHe|rewrite (length_denote env true e) by done; lia]).
Qed.
