(* ===== verification/ConstFold.v ===== *)
(** * Folding one operator ([ivl/eval_tree.cc])

    [NetExpr::eval_arguments_] of every class: the operands have been evaluated,
    and the operator returns a new expression or the null pointer when it cannot
    be computed yet.  The result of a definition is [None] when an [ivl_assert]
    fails, [Some None] for the null pointer and [Some (Some v)] for a new constant.

    The lemmas say that a new constant has the value that the operator has in the
    simulator; [EvalTree] puts them together for whole expressions. *)

From Stdlib Require Import ZArith Lia Bool.
From stdpp Require Import base numbers list.
From S2P Require Import Prelude Bit4 Words Vec4 Vec4Move Vec4Arith VecRep Opcodes OpSelect Verinum NetExpr.

Open Scope nat_scope.

(** ** Definitions *)

(** What an [eval_arguments_] returns. *)
Definition null : option (option verinum) := Some None.
Definition new (v : verinum) : option (option verinum) := Some (Some v).

(** [verinum(b, 1)] *)
Definition one_bit (b : V) : verinum := verinum_fill b 1 true.

(** A [V] used as a condition: every [V] but [V0]. *)
Definition V_true (b : V) : bool := negb (V_eqb b V0).

(** Both operands when they are constants. *)
Definition consts_of (l r : NetExpr) : option (verinum * verinum) :=
  match const_of l, const_of r with
  | Some lv, Some rv => Some (lv, rv)
  | _, _ => None
  end.

(** The [ivl_assert]s on the widths of the operands. *)
Definition assert_widths (wid : nat) (lval rval : verinum) : option unit :=
  _ ← assert_ (0 <? wid);
  _ ← assert_ (nbits_ lval =? wid);
  assert_ (nbits_ rval =? wid).

(** *** Sums, products, quotients and powers *)

Definition NetEBAdd_eval_arguments (op : add_op) (wid : nat) (l r : NetExpr) : option (option verinum) :=
  match consts_of l r with
  | None => null
  | Some (lval, rval) =>
      _ ← assert_widths wid lval rval;
      val ← (match op with OpPlus => verinum_add lval rval | OpMinus => verinum_sub lval rval end);
      val ← cast_to_width val wid;
      new val
  end.

Definition NetEBDiv_eval_arguments (op : div_op) (wid : nat) (l r : NetExpr) : option (option verinum) :=
  match consts_of l r with
  | None => null
  | Some (lval, rval) =>
      _ ← assert_widths wid lval rval;
      val ← (match op with OpDivide => verinum_div lval rval | OpModulo => verinum_mod lval rval end);
      val ← cast_to_width val wid;
      new val
  end.

Definition NetEBMult_eval_arguments (wid : nat) (l r : NetExpr) : option (option verinum) :=
  match consts_of l r with
  | None => null
  | Some (lval, rval) =>
      _ ← assert_widths wid lval rval;
      val ← verinum_mul lval rval;
      val ← cast_to_width val wid;
      new val
  end.

Definition NetEBPow_eval_arguments (wid : nat) (l r : NetExpr) : option (option verinum) :=
  match consts_of l r with
  | None => null
  | Some (lval, rval) =>
      _ ← assert_ (0 <? wid);
      _ ← assert_ (nbits_ lval =? wid);
      val ← verinum_pow (pow_fuel rval) lval rval;
      val ← cast_to_width val wid;
      new val
  end.

(** *** Bitwise operators *)

Definition V_bits (op : bits_op) : option (V -> V -> V) :=
  match op with
  | OpOr => Some V_or
  | OpAnd => Some V_and
  | OpXnor => Some (fun l r => V_not (V_xor l r))
  | OpXor => Some V_xor
  | OpNand | OpNor => None
  end.

(** [op() == '&' && val == verinum(0)] *)
Definition masks (op : bits_op) (val : verinum) : option bool :=
  match op with
  | OpAnd => zero ← verinum_of_int64 0; c ← verinum_eq val zero; Some (V_true c)
  | _ => Some false
  end.

Definition NetEBBits_eval_arguments (op : bits_op) (wid : nat) (sign : bool) (l r : NetExpr) : option (option verinum) :=
  match consts_of l r with
  | None => null
  | Some (lval, rval) =>
      lz ← masks op lval;
      if lz : bool then new (with_sign (verinum_fill V0 wid true) sign)
      else
        rz ← masks op rval;
        if rz : bool then new (with_sign (verinum_fill V0 wid true) sign)
        else
          _ ← assert_widths wid lval rval;
          match V_bits op with
          | None => null
          | Some f =>
              res ← for_ 0 wid (fun idx res => a ← get lval idx; b ← get rval idx; set res idx (f a b))
                      (verinum_fill V0 wid true);
              new (with_sign res sign)
          end
  end.

(** *** Comparisons *)

(** The left operand is at most its largest value, whatever it is. *)
Definition must_be_leeq_ (le : NetExpr) (rv : verinum) (eq_flag : bool) : option (option verinum) :=
  match expr_type le with
  | IVL_VT_LOGIC => null
  | IVL_VT_BOOL =>
      _ ← assert_ (0 <? expr_width le);
      let lv := verinum_fill V1 (expr_width le) true in
      lv ← (if has_sign le && has_sign_ rv
            then lv ← set lv (nbits_ lv - 1) V0; Some (with_sign lv true)
            else Some lv);
      lt ← verinum_lt lv rv;
      eq ← (if V_true lt then Some true
            else if eq_flag then c ← verinum_eq lv rv; Some (V_true c) else Some false);
      if eq : bool then new (one_bit V1) else null
  end.

(** [new NetEConst] of [V1] or [V0]. *)
Definition new_test (c : V) : option (option verinum) := new (one_bit (if V_true c then V1 else V0)).

Definition eval_less_ (le re : NetExpr) : option (option verinum) :=
  match const_of re with
  | None => null
  | Some rv =>
      if negb (is_defined rv) then new (one_bit Vx)
      else
        tmp ← must_be_leeq_ le rv false;
        match tmp with
        | Some v => new v
        | None =>
            match const_of le with
            | None => null
            | Some lv => if negb (is_defined lv) then new (one_bit Vx) else c ← verinum_lt lv rv; new_test c
            end
        end
  end.

Definition eval_leeq_ (le re : NetExpr) : option (option verinum) :=
  match const_of re with
  | None => null
  | Some rv =>
      if negb (is_defined rv) then new (one_bit Vx)
      else
        tmp ← must_be_leeq_ le rv true;
        match tmp with
        | Some v => new v
        | None =>
            match const_of le with
            | None => null
            | Some lv => if negb (is_defined lv) then new (one_bit Vx) else c ← verinum_leeq lv rv; new_test c
            end
        end
  end.

Definition eval_gt_ (le re : NetExpr) : option (option verinum) :=
  match const_of le with
  | None => null
  | Some lv =>
      if negb (is_defined lv) then new (one_bit Vx)
      else
        tmp ← must_be_leeq_ re lv false;
        match tmp with
        | Some v => new v
        | None =>
            match const_of re with
            | None => null
            | Some rv => if negb (is_defined rv) then new (one_bit Vx) else c ← verinum_lt rv lv; new_test c
            end
        end
  end.

Definition eval_gteq_ (le re : NetExpr) : option (option verinum) :=
  match const_of le with
  | None => null
  | Some lv =>
      if negb (is_defined lv) then new (one_bit Vx)
      else
        tmp ← must_be_leeq_ re lv true;
        match tmp with
        | Some v => new v
        | None =>
            match const_of re with
            | None => null
            | Some rv => if negb (is_defined rv) then new (one_bit Vx) else c ← verinum_leeq rv lv; new_test c
            end
        end
  end.

Definition V_is_xz (b : V) : bool := match b with Vx | Vz => true | _ => false end.

(** The loop of [eval_eqeq_]. *)
Fixpoint eqeq_loop (lv rv : verinum) (ne_res : V) (n idx : nat) (res : V) : option V :=
  match n with
  | O => Some res
  | S n =>
      l ← get lv idx;
      r ← get rv idx;
      if V_is_xz l || V_is_xz r then eqeq_loop lv rv ne_res n (S idx) Vx
      else if negb (V_eqb r l) then Some ne_res
      else eqeq_loop lv rv ne_res n (S idx) res
  end.

Definition eval_eqeq_ (ne_flag : bool) (le re : NetExpr) : option (option verinum) :=
  match consts_of le re with
  | None => null
  | Some (lv, rv) =>
      let eq_res := if ne_flag then V0 else V1 in
      let ne_res := if ne_flag then V1 else V0 in
      _ ← assert_ (nbits_ lv =? nbits_ rv);
      res ← eqeq_loop lv rv ne_res (nbits_ lv) 0 eq_res;
      new (one_bit res)
  end.

Fixpoint eqeqeq_loop (lv rv : verinum) (n idx : nat) : option V :=
  match n with
  | O => Some V1
  | S n =>
      l ← get lv idx;
      r ← get rv idx;
      if negb (V_eqb l r) then Some V0 else eqeqeq_loop lv rv n (S idx)
  end.

Definition eval_eqeqeq_ (ne_flag : bool) (le re : NetExpr) : option (option verinum) :=
  match consts_of le re with
  | None => null
  | Some (lv, rv) =>
      _ ← assert_ (nbits_ lv =? nbits_ rv);
      res ← eqeqeq_loop lv rv (nbits_ lv) 0;
      new (one_bit (if ne_flag then if V_eqb res V0 then V1 else V0 else res))
  end.

(** The loop of [eval_weqeq_]. *)
Fixpoint weqeq_loop (lv rv : verinum) (ne_res : V) (n idx : nat) (res : V) : option V :=
  match n with
  | O => Some res
  | S n =>
      r ← get rv idx;
      if V_is_xz r then weqeq_loop lv rv ne_res n (S idx) res
      else
        l ← get lv idx;
        if V_is_xz l then weqeq_loop lv rv ne_res n (S idx) Vx
        else if negb (V_eqb r l) then Some ne_res
        else weqeq_loop lv rv ne_res n (S idx) res
  end.

Definition eval_weqeq_ (ne_flag : bool) (le re : NetExpr) : option (option verinum) :=
  match consts_of le re with
  | None => null
  | Some (lv, rv) =>
      let eq_res := if ne_flag then V0 else V1 in
      let ne_res := if ne_flag then V1 else V0 in
      _ ← assert_ (nbits_ lv =? nbits_ rv);
      res ← weqeq_loop lv rv ne_res (nbits_ lv) 0 eq_res;
      new (one_bit res)
  end.

Definition NetEBComp_eval_arguments (op : comp_op) (l r : NetExpr) : option (option verinum) :=
  match op with
  | OpCaseEq => eval_eqeqeq_ false l r
  | OpEq => eval_eqeq_ false l r
  | OpWildEq => eval_weqeq_ false l r
  | OpGteq => eval_gteq_ l r
  | OpLeeq => eval_leeq_ l r
  | OpCaseNe => eval_eqeqeq_ true l r
  | OpNe => eval_eqeq_ true l r
  | OpWildNe => eval_weqeq_ true l r
  | OpLess => eval_less_ l r
  | OpGreater => eval_gt_ l r
  end.

(** *** Logical operators, minimum and maximum, shifts *)

(** [lv] and [rv] of [NetEBLogic::eval_arguments_]. *)
Definition V_truth (v : verinum) : V :=
  if existsb (fun b => V_eqb b V1) (bits_ v) then V1
  else if negb (is_defined v) then Vx else V0.

Definition NetEBLogic_eval_arguments (op : logic_op) (l r : NetExpr) : option (option verinum) :=
  match consts_of l r with
  | None => null
  | Some (lc, rc) =>
      let lv := V_truth lc in
      let rv := V_truth rc in
      new (one_bit
        match op with
        | OpLogicAnd =>
            if V_eqb lv V0 || V_eqb rv V0 then V0 else if V_eqb lv V1 && V_eqb rv V1 then V1 else Vx
        | OpLogicOr =>
            if V_eqb lv V1 || V_eqb rv V1 then V1 else if V_eqb lv V0 && V_eqb rv V0 then V0 else Vx
        end)
  end.

Definition NetEBMinMax_eval_arguments (op : minmax_op) (wid : nat) (sign : bool) (l r : NetExpr) : option (option verinum) :=
  match consts_of l r with
  | None => null
  | Some (lval, rval) =>
      _ ← assert_widths wid lval rval;
      res_val ←
        (if is_defined lval && is_defined rval then
           match op with
           | OpMin => c ← verinum_lt lval rval; Some (if V_true c then lval else rval)
           | OpMax => c ← verinum_lt rval lval; Some (if V_true c then lval else rval)
           end
         else Some (verinum_fill Vx wid true));
      new (with_sign res_val sign)
  end.

Definition NetEBShift_eval_arguments (op : shift_op) (wid : nat) (sign : bool) (l r : NetExpr) : option (option verinum) :=
  match consts_of l r with
  | None => null
  | Some (lv, rv) =>
      _ ← assert_ (0 <? wid);
      _ ← assert_ (nbits_ lv =? wid);
      val ←
        (if is_defined rv then
           let shift := Z.to_nat (as_unsigned rv) in
           val ← (match op with
                  | OpShiftL => verinum_shl lv shift
                  | OpShiftR => verinum_shr (with_sign lv false) shift
                  | OpShiftRSigned => verinum_shr lv shift
                  end);
           cast_to_width val wid
         else Some (verinum_fill Vx wid true));
      new (with_sign val sign)
  end.

(** [NetEBinary::eval_arguments_] is overridden in every derived class. *)
Definition binary_eval_arguments (op : binary_op) (wid : nat) (sign : bool) (l r : NetExpr) : option (option verinum) :=
  match op with
  | NetEBAdd op => NetEBAdd_eval_arguments op wid l r
  | NetEBBits op => NetEBBits_eval_arguments op wid sign l r
  | NetEBComp op => NetEBComp_eval_arguments op l r
  | NetEBDiv op => NetEBDiv_eval_arguments op wid l r
  | NetEBLogic op => NetEBLogic_eval_arguments op l r
  | NetEBMinMax op => NetEBMinMax_eval_arguments op wid sign l r
  | NetEBMult => NetEBMult_eval_arguments wid l r
  | NetEBPow => NetEBPow_eval_arguments wid l r
  | NetEBShift op => NetEBShift_eval_arguments op wid sign l r
  end.

(** *** Unary operators *)

(** [val.set(idx, ...)] for every bit. *)
Definition each_bit (f : V -> V) (val : verinum) : option verinum :=
  for_ 0 (nbits_ val) (fun idx val => b ← get val idx; set val idx (f b)) val.

Definition V_invert (b : V) : V := match b with V0 => V1 | V1 => V0 | _ => Vx end.

(** [op_] is one of [+], [-], [m] and [~]. *)
Definition NetEUnary_eval_arguments (op : unary_op) (ex : NetExpr) : option (option verinum) :=
  match const_of ex with
  | None => null
  | Some val =>
      match op with
      | UnaryPlus => new val
      | UnaryMinus => val ← verinum_neg val; new val
      | UnaryAbs =>
          if negb (is_defined val) then val ← each_bit (fun _ => Vx) val; new val
          else
            negative ← is_negative val;
            if negative : bool then val ← verinum_neg val; new val else new val
      | NetEUBits => val ← each_bit V_invert val; new val
      | _ => null
      end
  end.

(** The scan of [!], which stops at the first 1. *)
Fixpoint not_loop (bits : list V) (vx : bool) : V :=
  match bits with
  | [] => if vx then Vx else V1
  | V0 :: bits => not_loop bits vx
  | V1 :: _ => V0
  | _ :: bits => not_loop bits true
  end.

(** The counters [ones] and [unknown] of the reduction xor. *)
Fixpoint xor_count (bits : list V) (ones unknown : nat) : nat * nat :=
  match bits with
  | [] => (ones, unknown)
  | V0 :: bits => xor_count bits ones unknown
  | V1 :: bits => xor_count bits (ones + 1) unknown
  | _ :: bits => xor_count bits ones (unknown + 1)
  end.

Definition NetEUReduce_eval_arguments (op : reduce_op) (ex : NetExpr) : option (option verinum) :=
  match const_of ex with
  | None => null
  | Some val =>
      let and_ := fold_left V_and (bits_ val) V1 in
      let or_ := fold_left V_or (bits_ val) V0 in
      let xor_ :=
        let '(ones, unknown) := xor_count (bits_ val) 0 0 in
        if 0 <? unknown then Vx else if ones `mod` 2 =? 0 then V0 else V1 in
      new (one_bit
        match op with
        | RedNot => not_loop (bits_ val) false
        | RedAnd => and_
        | RedNand => V_not and_
        | RedOr => or_
        | RedNor => V_not or_
        | RedXor => xor_
        | RedXnor => V_not xor_
        end)
  end.

(** [op_] is [2]. *)
Definition NetECast_eval_arguments (wid : nat) (ex : NetExpr) : option (option verinum) :=
  match const_of ex with
  | None => null
  | Some val =>
      let res_val := cast_to_int2 val in
      res_val ← (if 0 <? wid then cast_to_width res_val wid else Some res_val);
      new res_val
  end.

Definition unary_eval_arguments (op : unary_op) (wid : nat) (ex : NetExpr) : option (option verinum) :=
  match op with
  | NetEUReduce op => NetEUReduce_eval_arguments op ex
  | NetECast2 => NetECast_eval_arguments wid ex
  | op => NetEUnary_eval_arguments op ex
  end.

(** *** The ternary operator *)

Inductive const_bool : Set := C_0 | C_1 | C_X | C_NON.

(** The scan of [const_logical], which stops at the first 1. *)
Fixpoint logical_loop (bits : list V) (res : const_bool) : const_bool :=
  match bits with
  | [] => res
  | V1 :: _ => C_1
  | V0 :: bits => logical_loop bits res
  | _ :: bits => logical_loop bits (match res with C_0 => C_X | r => r end)
  end.

Definition const_logical (expr : NetExpr) : const_bool :=
  match const_of expr with
  | None => C_NON
  | Some cval => logical_loop (bits_ cval) C_0
  end.

Definition blended_arguments_ (sign : bool) (te fe : NetExpr) : option (option verinum) :=
  match consts_of te fe with
  | None => null
  | Some (t, f) =>
      let tsize := nbits_ t in
      let fsize := nbits_ f in
      let rsize := if fsize <? tsize then tsize else fsize in
      val ← for_ 0 rsize (fun idx val =>
        tv ← (if idx <? tsize then get t idx else Some V0);
        fv ← (if idx <? fsize then get f idx else Some V0);
        if V_eqb tv fv && (V_eqb tv V0 || V_eqb tv V1) then set val idx tv else Some val) (verinum_fill Vx rsize true);
      new (with_sign val sign)
  end.

(** *** Concatenations and selects *)

(** The loops over the operands, the last one first: [val], [cur] and
    [is_string_flag]. *)
Fixpoint concat_loop (repeat_val gap : nat) (vals : list NetExpr) (val : verinum) (cur : nat) (is_string_flag : bool) :
    option (option (verinum * bool)) :=
  match vals with
  | [] => Some (Some (val, is_string_flag))
  | NetEConst tmp :: vals =>
      '(val, cur) ←
        for_ 0 (nbits_ tmp) (fun bit '(val, cur) =>
          b ← get tmp bit;
          val ← for_ 0 repeat_val (fun rep val => set val (rep * gap + cur) b) val;
          Some (val, cur + 1)) (val, cur);
      concat_loop repeat_val gap vals val cur (is_string_flag && string_flag_ tmp)
  | _ :: _ => Some None
  end.

Definition NetEConcat_eval_arguments (vals : list NetExpr) (repeat_val : nat) (sign : bool) (gap : nat) :
    option (option verinum) :=
  res ← concat_loop repeat_val gap (reverse vals) (verinum_fill Vx (repeat_val * gap) true) 0 true;
  match res with
  | None => null
  | Some (val, is_string_flag) =>
      val ← (if is_string_flag : bool then str ← as_string val; verinum_of_string str else Some val);
      new (with_sign val sign)
  end.

(** The end of [NetESelect::eval_tree], when the operand and the base are
    constants; [bval] is a [long], taken to wrap when it is incremented past its
    largest value. *)
Definition select_bits (eval : verinum) (bval : Z) (pad_bit : V) (wid : nat) (sign : bool) : option verinum :=
  oval ← for_ 0 wid (fun idx oval =>
    let bval := int_cast 64 true (bval + Z.of_nat idx)%Z in
    b ← (if (0 <=? bval)%Z && (bval <? Z.of_nat (nbits_ eval))%Z then get eval (Z.to_nat bval) else Some pad_bit);
    set oval idx b) (verinum_fill V0 wid true);
  Some (with_sign oval sign).

Definition NetESelect_eval_constants (expr : verinum) (base : option verinum) (wid : nat) (sign : bool) :
    option (option verinum) :=
  let bval := match base with Some base => as_long base | None => 0%Z end in
  pad_bit ←
    (match base with
     | Some _ => Some Vx
     | None => if sign then get expr (nbits_ expr - 1) else Some V0
     end);
  val ← select_bits expr bval pad_bit wid sign;
  new val.

(** ** Lemmas *)

Open Scope Z_scope.

(** The bits of a constant, as the simulator has them. *)
Abbreviation bits4 v := (map to_bit4 (bits_ v)).

(** The new constant has this width, sign and value. *)
Definition folds_to (w : nat) (s : bool) (x : list vvp_bit4_t) (v : verinum) : Prop :=
  const_ok v = true /\ nbits_ v = w /\ has_sign_ v = s /\ bits4 v = x.

(** *** Flags

    [only m P]: the result, if there is one, satisfies [P]. *)
Definition only {A} (m : option A) (P : A -> Prop) : Prop := forall r, m = Some r -> P r.

Lemma only_ret {A} (x : A) (P : A -> Prop) : P x -> only (Some x) P.
Proof. intros H r [= <-]. done. Qed.

Lemma only_bind {A B} (m : option A) (k : A -> option B) (P : B -> Prop) :
  (forall x, only (k x) P) -> only (m ≫= k) P.
Proof. intros H r. destruct m as [x|]; [apply H|done]. Qed.

Lemma only_bind2 {A B} (m : option A) (k : A -> option B) (Q : A -> Prop) (P : B -> Prop) :
  only m Q -> (forall x, Q x -> only (k x) P) -> only (m ≫= k) P.
Proof. intros Hm H r. destruct m as [x|]; [apply H, Hm; done|done]. Qed.

Lemma only_for {S} (P : S -> Prop) (body : nat -> S -> option S) i n s :
  P s -> (forall k t, P t -> only (body k t) P) -> only (for_ i n body s) P.
Proof.
  revert i s. induction n as [|n IH]; intros i s Hs Hb; [by apply only_ret|]. cbn [for_].
  eapply only_bind2; [by apply Hb|]. intros t Ht. by apply IH.
Qed.

Lemma returns_only {A} (m : option A) (P Q : A -> Prop) : returns m P -> only m Q -> returns m (fun r => P r /\ Q r).
Proof. intros (r & Hr & HP) HQ. exists r. auto. Qed.

(** [v] is a string, or one of ['0] and ['1], only if [l] is. *)
Definition inherits (l v : verinum) : Prop :=
  (is_single_ v = true -> is_single_ l = true) /\ (string_flag_ v = true -> string_flag_ l = true).

Lemma inherits_refl l : inherits l l.
Proof. done. Qed.

Lemma inherits_same l v u : is_single_ v = is_single_ u -> string_flag_ v = string_flag_ u -> inherits l v -> inherits l u.
Proof. unfold inherits. by intros -> ->. Qed.

Lemma inherits_set l v i b : inherits l v -> only (set v i b) (inherits l).
Proof. intros H. unfold set. apply only_bind. intros _. by apply only_ret. Qed.

Ltac inherit :=
  repeat match goal with
    | |- only (_ ≫= _) (inherits ?l) =>
        first [apply (only_bind2 _ _ (inherits l)); [solve [inherit]|intros ? ?]|apply only_bind; intros ?]
    | |- only (Some _) _ => apply only_ret
    | |- only (set _ _ _) _ => apply inherits_set
    | |- only (for_ _ _ _ _) _ => apply only_for; intros
    | |- only (if ?b then _ else _) _ => destruct b
    | |- only (match ?p with (_, _) => _ end) _ => destruct p
    | |- only (let _ := _ in _) _ => cbv zeta
    end; try done.

Lemma trim_inherits l v : inherits l v -> only (trim_vnum v) (inherits l).
Proof.
  intros H. unfold trim_vnum, trimmed. inherit.
Qed.

Lemma add_inherits l left right : only (verinum_add left right) (inherits l).
Proof. unfold verinum_add, undefined. inherit. Qed.

Lemma sub_inherits l left right : only (verinum_sub left right) (inherits l).
Proof. unfold verinum_sub, undefined. inherit. Qed.

Lemma neg_inherits l right : only (verinum_neg right) (inherits l).
Proof. unfold verinum_neg, undefined. inherit. Qed.

Lemma mul_inherits l left right : only (verinum_mul left right) (inherits l).
Proof.
  unfold verinum_mul, undefined. destruct (_ || _); [by apply only_ret|]. apply only_bind. intros rs.
  eapply (only_bind2 _ _ (inherits l)); [|intros v; apply trim_inherits]. apply only_for; [done|]. intros k t Ht.
  apply only_bind. intros b. destruct (V_eqb b V0); [by apply only_ret|]. apply only_bind. intros ls.
  unfold mul_add. eapply (only_bind2 _ _ (fun p => inherits l (fst p))); [|intros [? ?]; apply only_ret].
  apply only_for; [done|]. intros j [u c] Hu. cbn [fst] in Hu. apply only_bind. intros lb. apply only_bind. intros rb.
  destruct (V_add_with_carry lb rb c) as [s c']. eapply only_bind2; [by apply inherits_set|]. intros ? ?. by apply only_ret.
Qed.

Lemma copy_inherits l that n : inherits l that -> only (verinum_copy that n) (inherits l).
Proof.
  intros [H1 H2]. unfold verinum_copy. apply only_bind. intros bits. apply only_ret. split; [done|].
  cbn. intros [H _]%andb_true_iff. auto.
Qed.

Lemma cast_inherits l that w : inherits l that -> only (cast_to_width that w) (inherits l).
Proof.
  intros H. unfold cast_to_width, padded. destruct (_ && _); [by apply only_ret|].
  destruct (w <=? nbits_ that)%nat; [by apply copy_inherits|]. inherit.
Qed.

Lemma shl_inherits l v k : only (verinum_shl v k) (inherits l).
Proof. unfold verinum_shl. eapply (only_bind2 _ _ (inherits l)); [|intros ? ?; by apply trim_inherits]. inherit. Qed.

Lemma shr_inherits l v k : only (verinum_shr v k) (inherits l).
Proof.
  unfold verinum_shr. apply only_bind. intros s. destruct (_ <=? _)%nat; [by apply only_ret|].
  eapply (only_bind2 _ _ (inherits l)); [|intros ? ?; by apply trim_inherits]. inherit.
Qed.

Lemma p_one_inherits l n h s : only (make_p_one n h s) (inherits l).
Proof. unfold make_p_one. eapply only_bind2; [by apply (inherits_set l)|]. intros ? ?. by apply only_ret. Qed.

Lemma pow_inherits l fuel left right : only (verinum_pow fuel left right) (inherits l).
Proof.
  revert left right. induction fuel as [|fuel IH]; intros left right; [done|]. cbn [verinum_pow].
  eapply only_bind2; [apply (p_one_inherits l)|]. intros p Hp. eapply (only_bind2 _ _ (inherits l)); [|intros ? ?; by apply trim_inherits].
  destruct (_ || _); [by apply only_ret|]. destruct (is_zero right); [by apply only_ret|].
  apply only_bind. intros []; [|].
  - destruct (is_zero left); [by apply only_ret|]. apply only_bind. intros m. destruct (negb _).
    + apply only_bind. intros low. apply only_ret. by destruct (V_eqb low V0).
    + apply only_bind. intros q. apply only_ret. by destruct (negb _).
  - unfold recursive_pow. destruct (is_zero right); [by apply p_one_inherits|]. apply only_bind. intros low.
    destruct (V_eqb low V1); apply only_bind; intros r; apply only_bind; intros r'; apply mul_inherits.
Qed.

Lemma divide_round_inherits l num den : inherits l num -> only (divide_round num den) (fun p => inherits l (fst (fst p))).
Proof.
  intros H. unfold divide_round. apply only_bind. intros c.
  eapply (only_bind2 _ _ (inherits l)); [destruct (negb _); [apply sub_inherits|by apply only_ret]|].
  intros n Hn. apply only_bind. intros d. by apply only_ret.
Qed.

Lemma modulus_loop_inherits l n num den : inherits l num -> only (modulus_loop n num den) (inherits l).
Proof.
  revert num den. induction n as [|n IH]; intros num den H; [by apply only_ret|]. cbn [modulus_loop].
  eapply only_bind2; [by apply divide_round_inherits|]. intros [[u f] d] Hu. by apply IH.
Qed.

Lemma divide_loop_inherits l n num den result : inherits l result -> only (divide_loop n num den result) (inherits l).
Proof.
  revert num den result. induction n as [|n IH]; intros num den result H; [by apply only_ret|]. cbn [divide_loop].
  apply only_bind. intros [[u f] d]. eapply (only_bind2 _ _ (inherits l)); [|intros r; apply IH]. destruct f; [by apply inherits_set|by apply only_ret].
Qed.

Lemma unsigned_divide_inherits l num den s : only (unsigned_divide num den s) (inherits l).
Proof.
  unfold unsigned_divide. destruct (_ <? _)%nat; [by apply only_ret|]. apply only_bind. intros d.
  eapply (only_bind2 _ _ (inherits l)); [|intros r; apply divide_loop_inherits]. destruct s; [|by apply only_ret].
  eapply only_bind2; [by apply (inherits_set l)|]. intros r Hr. by apply only_ret.
Qed.

Lemma unsigned_modulus_inherits l num den : inherits l num -> only (unsigned_modulus num den) (inherits l).
Proof.
  intros H. unfold unsigned_modulus. destruct (_ <? _)%nat; [by apply only_ret|]. apply only_bind. intros d.
  by apply modulus_loop_inherits.
Qed.

Lemma finish_inherits l v w h s : inherits l v -> only (finish_division v w h s) (inherits l).
Proof.
  intros H. unfold finish_division. eapply (only_bind2 _ _ (inherits l)).
  - destruct h; [by apply cast_inherits|by apply only_ret].
  - intros r Hr. by apply trim_inherits.
Qed.

Lemma use_abs_inherits l v : inherits l v -> only (use_abs v) (fun p => inherits l (fst p)).
Proof.
  intros H. unfold use_abs. apply only_bind. intros b. eapply (only_bind2 _ _ (inherits l)).
  - destruct b; [apply neg_inherits|by apply only_ret].
  - intros u Hu. by apply only_ret.
Qed.

Lemma div_inherits l left right : only (verinum_div left right) (inherits l).
Proof.
  unfold verinum_div, undefined. destruct (_ || is_zero right); [by apply only_ret|].
  eapply (only_bind2 _ _ (inherits l)); [|intros v; apply finish_inherits]. destruct (has_sign_ left && has_sign_ right).
  - destruct (_ <=? _)%nat; [inherit|]. apply only_bind. intros [ul ln]. apply only_bind. intros [ur rn].
    eapply only_bind2; [apply (unsigned_divide_inherits l)|]. intros r Hr. destruct (xorb ln rn); [apply neg_inherits|by apply only_ret].
  - destruct (_ <=? _)%nat; [inherit|]. apply unsigned_divide_inherits.
Qed.

Lemma mod_inherits l left right : inherits l left -> only (verinum_mod left right) (inherits l).
Proof.
  intros H. unfold verinum_mod, undefined. destruct (_ || is_zero right); [by apply only_ret|].
  eapply (only_bind2 _ _ (inherits l)); [|intros v; apply finish_inherits]. destruct (has_sign_ left && has_sign_ right).
  - destruct (_ <=? _)%nat; [inherit|]. eapply only_bind2; [by apply (use_abs_inherits l)|]. intros [ul ln] Hul. apply only_bind. intros [ur rn].
    eapply only_bind2; [by apply (unsigned_modulus_inherits l)|]. intros r Hr. destruct ln; [apply neg_inherits|by apply only_ret].
  - destruct (_ <=? _)%nat; [inherit|]. by apply unsigned_modulus_inherits.
Qed.

(** *** Constants *)

Lemma const_ok_spec v :
  const_ok v = true <->
  has_len_ v = true /\ is_single_ v = false /\ sized (nbits_ v) = true /\
  (string_flag_ v = true -> is_defined v = true /\ (nbits_ v mod 8 = 0)%nat).
Proof.
  unfold const_ok. rewrite !andb_true_iff, negb_true_iff, orb_true_iff, negb_true_iff, andb_true_iff, Nat.eqb_eq.
  destruct (string_flag_ v); split; intros; split_and!; try tauto; try done; destruct_and!; destruct_or!; (done || tauto || auto).
Qed.

Lemma ok_len v : const_ok v = true -> has_len_ v = true.
Proof. intros H%const_ok_spec. tauto. Qed.

Lemma ok_single v : const_ok v = true -> is_single_ v = false.
Proof. intros H%const_ok_spec. tauto. Qed.

Lemma ok_pos v : const_ok v = true -> (0 < nbits_ v)%nat.
Proof. intros H%const_ok_spec. apply sized_pos. tauto. Qed.

Lemma ok_rep v : const_ok v = true -> is_defined v = true -> rep v (num v).
Proof. intros H Hd. apply number_rep. split; [done|]. pose proof (ok_pos v H). lia. Qed.

Lemma ok_fresh v :
  has_len_ v = true -> is_single_ v = false -> string_flag_ v = false -> sized (nbits_ v) = true -> const_ok v = true.
Proof. intros H1 H2 H3 H4. apply const_ok_spec. split_and!; [done..|]. congruence. Qed.

Lemma ok_inherits l v :
  const_ok l = true -> inherits l v -> has_len_ v = true -> nbits_ v = nbits_ l -> is_defined v = true -> const_ok v = true.
Proof.
  intros (_ & Hsi & Hsz & Hst)%const_ok_spec [H1 H2] Hl Hn Hd. apply const_ok_spec. rewrite Hn.
  destruct (is_single_ v) eqn:E; [by rewrite H1 in Hsi|]. split_and!; try done. intros Hs. split; [done|]. apply Hst. auto.
Qed.

Lemma with_sign_ok v s : const_ok v = true -> const_ok (with_sign v s) = true.
Proof. intros H%const_ok_spec. by apply const_ok_spec. Qed.

Lemma one_bit_ok b : const_ok (one_bit b) = true.
Proof. by apply ok_fresh. Qed.

Lemma one_bit_folds b x : to_bit4 b = x -> folds_to 1 false [x] (one_bit b).
Proof. intros <-. split_and!; [apply one_bit_ok|done..]. Qed.

Lemma length_bits4 v : length (bits4 v) = nbits_ v.
Proof. by rewrite length_map. Qed.

Lemma signed_num v : signed_value (has_sign_ v) (bits4 v) = num v.
Proof. done. Qed.

Lemma defined_known v : is_defined v = true -> unknown (bits4 v) = false.
Proof. intros H. by rewrite to_bit4_unknown, H. Qed.

Lemma undefined_unknown v : is_defined v = false -> unknown (bits4 v) = true.
Proof. intros H. by rewrite to_bit4_unknown, H. Qed.

Lemma cast_same v w : has_len_ v = true -> nbits_ v = w -> cast_to_width v w = Some v.
Proof. intros Hl <-. unfold cast_to_width. by rewrite Hl, Nat.eqb_refl. Qed.

Lemma map_fill b n : map to_bit4 (replicate n b) = replicate n (to_bit4 b).
Proof. induction n as [|n IH]; [done|]. cbn. by rewrite IH. Qed.

Lemma x_folds w s : sized w = true -> folds_to w s (all_x w) (with_sign (verinum_fill Vx w true) s).
Proof.
  intros H. split_and!; [by apply ok_fresh; rewrite ?nbits_fill|by rewrite nbits_fill|done|]. cbn [with_sign verinum_fill bits_]. apply map_fill.
Qed.

Lemma num_mod v : bits_to_Z (bits4 v) mod 2 ^ Z.of_nat (nbits_ v) = num v mod 2 ^ Z.of_nat (nbits_ v).
Proof.
  unfold num. destruct (has_sign_ v); [|done]. unfold bits_to_signed_Z. rewrite length_bits4.
  destruct (decide _); [|by rewrite Z.sub_0_r].
  set (a := bits_to_Z _). replace (a - 2 ^ Z.of_nat (nbits_ v)) with (a + (-1) * 2 ^ Z.of_nat (nbits_ v)) by lia.
  rewrite Z.mod_add; [done|]. pose proof (Z.pow_pos_nonneg 2 (Z.of_nat (nbits_ v))). lia.
Qed.

(** A sized number of the width of an operand. *)
Lemma number_folds l v w s z :
  const_ok l = true -> nbits_ l = w -> inherits l v -> has_len_ v = true -> has_sign_ v = s -> nbits_ v = w -> rep v z ->
  folds_to w s (bits_of_Z w z) v.
Proof.
  intros Hl Hn Hi Hlen Hs Hw Hr. split_and!; try done.
  - apply (ok_inherits l); try done; [congruence|by apply (rep_defined v z)].
  - rewrite (proj1 Hr), Hw. apply map_Vbits.
Qed.

Lemma result_folds l v w s z :
  const_ok l = true -> nbits_ l = w -> inherits l v -> result_is true s w z v -> folds_to w s (bits_of_Z w z) v.
Proof.
  intros Hl Hn Hi Hr. pose proof (result_bits _ _ _ _ _ Hr eq_refl) as Hb.
  destruct Hr as (H1 & H2 & [H3 _] & H4 & _). specialize (H4 eq_refl). split_and!; try done.
  - apply (ok_inherits l); (done || congruence).
  - rewrite Hb. apply map_Vbits.
Qed.

(** *** Sums and products *)

(** A new constant is returned, and satisfies [P]. *)
Definition news (m : option (option verinum)) (P : verinum -> Prop) : Prop :=
  returns m (fun o => exists v, o = Some v /\ P v).

Lemma news_new v (P : verinum -> Prop) : P v -> news (new v) P.
Proof. intros H. apply returns_ret. by exists v. Qed.

Lemma news_bind {A} (m : option A) (k : A -> option (option verinum)) (Q : A -> Prop) P :
  returns m Q -> (forall x, Q x -> news (k x) P) -> news (m ≫= k) P.
Proof. apply returns_bind. Qed.

Lemma news_widths wid l r (k : unit -> option (option verinum)) P :
  (0 < wid)%nat -> nbits_ l = wid -> nbits_ r = wid -> news (k tt) P -> news (assert_widths wid l r ≫= k) P.
Proof.
  intros H Hl Hr Hk. unfold assert_widths. rewrite (proj2 (Nat.ltb_lt _ _) H), (proj2 (Nat.eqb_eq _ _) Hl), (proj2 (Nat.eqb_eq _ _) Hr).
  exact Hk.
Qed.

(** The operation respects the arithmetic of the width. *)
Definition modular (op : Z -> Z -> Z) : Prop :=
  forall m a b a' b', a mod m = a' mod m -> b mod m = b' mod m -> op a b mod m = op a' b' mod m.

Lemma add_modular : modular Z.add.
Proof. intros m a b a' b' Ha Hb. by rewrite Zplus_mod, Ha, Hb, <- Zplus_mod. Qed.

Lemma sub_modular : modular Z.sub.
Proof. intros m a b a' b' Ha Hb. by rewrite Zminus_mod, Ha, Hb, <- Zminus_mod. Qed.

Lemma mul_modular : modular Z.mul.
Proof. intros m a b a' b' Ha Hb. by rewrite Zmult_mod, Ha, Hb, <- Zmult_mod. Qed.

(** The common shape of [+], [-] and [*]. *)
Lemma arith_folds (op : Z -> Z -> Z) (m : option verinum) left right w s :
  modular op -> const_ok left = true -> const_ok right = true ->
  nbits_ left = w -> nbits_ right = w -> has_sign_ left = s -> has_sign_ right = s ->
  only m (inherits left) ->
  (is_defined left && is_defined right = false -> m = Some (undefined w true s)) ->
  (is_defined left = true -> is_defined right = true -> returns m (result_is true s w (op (num left) (num right)))) ->
  returns m (folds_to w s (bits_arith op (bits4 left) (bits4 right))).
Proof.
  intros Hop Hl Hr Wl Wr Sl Sr Hi Hu Hd. unfold bits_arith. rewrite length_bits4, Wl. fold (unknown (bits4 left)) (unknown (bits4 right)).
  rewrite !to_bit4_unknown. destruct (is_defined left && is_defined right) eqn:E.
  - apply andb_true_iff in E as [Dl Dr]. rewrite Dl, Dr. cbn [negb orb].
    eapply returns_mono; [apply returns_only; [by apply Hd|exact Hi]|]. intros r [Hres Hinh].
    replace (bits_of_Z w (op (bits_to_Z (bits4 left)) (bits_to_Z (bits4 right)))) with (bits_of_Z w (op (num left) (num right))).
    + by apply (result_folds left).
    + apply bits_of_Z_mod, Hop; symmetry; [rewrite <- Wl|rewrite <- Wr]; apply num_mod.
  - rewrite <- negb_andb, E. cbn [negb]. rewrite Hu by done. apply returns_ret, x_folds.
    rewrite <- Wl. apply const_ok_spec in Hl. tauto.
Qed.

(** The cast at the end changes nothing. *)
Lemma cast_folds (m : option verinum) w s x :
  returns m (folds_to w s x) -> news (val ← m; val ← cast_to_width val w; new val) (folds_to w s x).
Proof.
  intros H. eapply news_bind; [exact H|]. intros v Hv. rewrite cast_same; [by apply news_new|..]; destruct Hv as (H1 & H2 & _);
    [by apply ok_len|done].
Qed.

(** A [returns] of a difference or a negation, in the form of the other operators. *)
Lemma result_mod s n z r :
  result_is true s n (if s : bool then z else z mod 2 ^ Z.of_nat n) r -> result_is true s n z r.
Proof. apply (result_congr true). destruct s; [reflexivity|]. apply Z.mod_mod. lia. Qed.

Lemma undefined_operands left right :
  is_defined left && is_defined right = false -> negb (is_defined left) || negb (is_defined right) = true.
Proof. by rewrite <- negb_andb; intros ->. Qed.

Lemma NetEBAdd_folds op left right w s :
  const_ok left = true -> const_ok right = true ->
  nbits_ left = w -> nbits_ right = w -> has_sign_ left = s -> has_sign_ right = s ->
  returns (match op with OpPlus => verinum_add left right | OpMinus => verinum_sub left right end)
    (folds_to w s (binary_value (NetEBAdd op) s s w (bits4 left) (bits4 right))).
Proof.
  intros Hl Hr Wl Wr Sl Sr. pose proof (ok_len _ Hl) as Ll. pose proof (ok_len _ Hr) as Lr.
  assert (Nat.max (nbits_ left) (nbits_ right) = w) as Wmax by lia.
  assert (has_sign_ left && has_sign_ right = s) as Smin by (rewrite Sl, Sr; apply andb_diag).
  destruct op; cbn [binary_value]; apply arith_folds; try done; try apply add_modular; try apply sub_modular;
    try apply add_inherits; try apply sub_inherits.
  - intros H. unfold verinum_add. rewrite (undefined_operands left right H), Ll, Lr, Wmax, Smin. done.
  - intros Dl Dr. pose proof (add_spec left right _ _ (ok_rep _ Hl Dl) (ok_rep _ Hr Dr)) as H.
    rewrite Ll, Lr, Wmax, Smin in H. by apply H.
  - intros H. unfold verinum_sub. rewrite (undefined_operands left right H), Ll, Lr, Wmax, Smin. done.
  - intros Dl Dr. pose proof (sub_spec left right _ _ (ok_rep _ Hl Dl) (ok_rep _ Hr Dr)) as H.
    rewrite Ll, Lr, Wmax, Smin in H. eapply returns_mono; [by apply H|]. intros r [Hres _]. by apply result_mod.
Qed.

Lemma NetEBMult_folds left right w s :
  const_ok left = true -> const_ok right = true ->
  nbits_ left = w -> nbits_ right = w -> has_sign_ left = s -> has_sign_ right = s ->
  returns (verinum_mul left right) (folds_to w s (binary_value NetEBMult s s w (bits4 left) (bits4 right))).
Proof.
  intros Hl Hr Wl Wr Sl Sr. pose proof (ok_len _ Hl) as Ll. pose proof (ok_len _ Hr) as Lr.
  assert (Nat.max (nbits_ left) (nbits_ right) = w) as Wmax by lia.
  assert (has_sign_ left && has_sign_ right = s) as Smin by (rewrite Sl, Sr; apply andb_diag).
  cbn [binary_value]. apply arith_folds; try done; [apply mul_modular|apply mul_inherits|..].
  - intros H. unfold verinum_mul. rewrite (undefined_operands left right H), Ll, Lr, Smin. cbn [andb]. by rewrite Wmax.
  - intros Dl Dr. pose proof (mul_spec left right _ _ (ok_rep _ Hl Dl) (ok_rep _ Hr Dr)) as H.
    rewrite Ll, Lr, Wmax, Smin in H. by apply H.
Qed.

(** *** Quotients and powers *)

Lemma quotient_folds l v w s z :
  const_ok l = true -> nbits_ l = w -> inherits l v -> quotient_is true s w z v -> folds_to w s (bits_of_Z w z) v.
Proof.
  intros Hl Hn Hi (H1 & H2 & H3 & H4). destruct (H3 eq_refl) as [H5 H6]. apply (result_folds l); try done.
Qed.

Lemma NetEBDiv_folds op left right w s :
  const_ok left = true -> const_ok right = true ->
  nbits_ left = w -> nbits_ right = w -> has_sign_ left = s -> has_sign_ right = s ->
  returns (match op with OpDivide => verinum_div left right | OpModulo => verinum_mod left right end)
    (folds_to w s (binary_value (NetEBDiv op) s s w (bits4 left) (bits4 right))).
Proof.
  intros Hl Hr Wl Wr Sl Sr. pose proof (ok_len _ Hl) as Ll. pose proof (ok_len _ Hr) as Lr.
  assert (has_sign_ left && has_sign_ right = s) as Smin by (rewrite Sl, Sr; apply andb_diag).
  cbn [binary_value]. unfold div_value. rewrite !to_bit4_unknown. rewrite <- Sr, signed_num, Sr, <- Sl, signed_num, Sl.
  assert (sized w = true) as Hw by (rewrite <- Wl; apply const_ok_spec in Hl; tauto).
  destruct (negb (is_defined left) || negb (is_defined right) || (num right =? 0)) eqn:E.
  - assert (negb (is_defined left) || negb (is_defined right) || is_zero right = true) as E'.
    { destruct (negb (is_defined left) || negb (is_defined right)) eqn:Ed; [done|]. cbn [orb] in *.
      apply orb_false_iff in Ed as [_ Dr%negb_false_iff]. by rewrite (rep_is_zero right _ (ok_rep _ Hr Dr)). }
    destruct op; [unfold verinum_div|unfold verinum_mod]; rewrite E', Ll, Lr, Smin, Wl; by apply returns_ret, x_folds.
  - apply orb_false_iff in E as [[Dl%negb_false_iff Dr%negb_false_iff]%orb_false_iff Hz%Z.eqb_neq].
    pose proof (ok_rep _ Hl Dl) as Rl. pose proof (ok_rep _ Hr Dr) as Rr. destruct op.
    + pose proof (div_spec left right _ _ Rl Rr) as H. rewrite Ll, Lr, Sl, Wl in H. cbn [andb] in H.
      eapply returns_mono; [apply returns_only; [by apply H; (done || lia)|apply (div_inherits left)]|].
      intros r [Hq Hi]. by apply (quotient_folds left).
    + pose proof (mod_spec left right _ _ Rl Rr) as H. rewrite Ll, Lr, Sl, Wl in H. cbn [andb] in H.
      eapply returns_mono; [apply returns_only; [by apply H; (done || lia || by apply ok_single)|by apply (mod_inherits left)]|].
      intros r [Hq Hi]. by apply (quotient_folds left).
Qed.

(** Undefined operands and 0 to a negative power. *)
Lemma pow_undefined fuel left right :
  has_len_ left = true -> (0 < nbits_ left)%nat ->
  (is_defined left && is_defined right = false \/
   (is_defined left = true /\ is_defined right = true /\ num left = 0 /\ num right < 0 /\ number left /\ number right /\ (0 < nbits_ right)%nat)) ->
  verinum_pow (S fuel) left right = Some (with_sign (verinum_fill Vx (nbits_ left) true) (has_sign_ left)).
Proof.
  intros Ll Pl H. cbn [verinum_pow]. unfold make_p_one at 1. rewrite Ll, set_returns by (cbn; by rewrite length_replicate).
  cbn [mbind option_bind]. rewrite <- negb_andb. destruct H as [->|(Dl & Dr & Hl & Hr & Nl%number_rep & Nr%number_rep & Pr)].
  - cbn [negb]. by apply trim_sized.
  - rewrite Dl, Dr. cbn [andb negb]. rewrite (rep_is_zero right _ Nr), (proj2 (Z.eqb_neq _ _)) by lia.
    rewrite (is_negative_spec right _ Nr Pr), (proj2 (Z.ltb_lt _ _) Hr). cbn [mbind option_bind].
    rewrite (rep_is_zero left _ Nl), Hl. reflexivity.
Qed.

Lemma NetEBPow_folds left right w s :
  const_ok left = true -> const_ok right = true -> nbits_ left = w -> has_sign_ left = s ->
  returns (verinum_pow (pow_fuel right) left right)
    (folds_to w s (binary_value NetEBPow s (has_sign_ right) w (bits4 left) (bits4 right))).
Proof.
  intros Hl Hr Wl Sl. pose proof (ok_len _ Hl) as Ll. pose proof (ok_pos _ Hl) as Pl. pose proof (ok_pos _ Hr) as Pr.
  cbn [binary_value]. unfold pow_value. rewrite !to_bit4_unknown, signed_num, <- Sl, signed_num, <- negb_andb.
  assert (sized w = true) as Hw by (rewrite <- Wl; apply const_ok_spec in Hl; tauto).
  assert (forall z, returns (verinum_pow (pow_fuel right) left right) (result_is true (has_sign_ left) (nbits_ left) z) ->
    returns (verinum_pow (pow_fuel right) left right) (folds_to w (has_sign_ left) (bits_of_Z w z))) as Hres.
  { intros z H. eapply returns_mono; [apply returns_only; [exact H|apply (pow_inherits left)]|]. intros r [Hq Hi].
    rewrite Wl in Hq. by apply (result_folds left). }
  unfold pow_fuel in *. rewrite Nat.add_succ_r in *.
  destruct (is_defined left && is_defined right) eqn:E; cbn [negb].
  - apply andb_true_iff in E as [Dl Dr]. pose proof (ok_rep _ Hl Dl) as Rl. pose proof (ok_rep _ Hr Dr) as Rr.
    destruct (Z.leb_spec 0 (num right)) as [H0|H0].
    + apply Hres. rewrite <- Ll. apply (pow_spec _ left right _ _ (nbits_ right)); try done; [|destruct (Z.odd _); lia].
      pose proof (rep_range right _ Rr). lia.
    + destruct (Z.eqb_spec (num left) 0) as [Hz|Hz].
      * rewrite pow_undefined by (done || (right; split_and!; try done; by eapply rep_number)).
        apply returns_ret. rewrite Wl. by apply x_folds.
      * apply Hres. rewrite <- Ll. by apply pow_negative_spec; (done || lia).
  - rewrite pow_undefined by (done || by left). apply returns_ret. rewrite Wl. by apply x_folds.
Qed.

(** *** Minimum and maximum *)

Lemma lt_spec left right :
  const_ok left = true -> const_ok right = true -> has_sign_ left = has_sign_ right ->
  is_defined left = true -> is_defined right = true ->
  verinum_lt left right = Some (V_of_bool (num left <? num right)) /\
  verinum_leeq left right = Some (V_of_bool (num left <=? num right)).
Proof.
  intros Hl Hr Hs Dl Dr. unfold verinum_lt, verinum_leeq.
  rewrite !(less_spec _ left right (num left) (num right)) by (done || by apply ok_rep).
  unfold V_compare, Z.ltb, Z.leb. by destruct (_ ?= _).
Qed.

Lemma V_true_bool b : V_true (V_of_bool b) = b.
Proof. by destruct b. Qed.

Lemma same_folds v w s : const_ok v = true -> nbits_ v = w -> folds_to w s (bits4 v) (with_sign v s).
Proof. intros H Hw. split_and!; [by apply with_sign_ok|done..]. Qed.

Lemma NetEBMinMax_folds op left right w s :
  const_ok left = true -> const_ok right = true ->
  nbits_ left = w -> nbits_ right = w -> has_sign_ left = s -> has_sign_ right = s ->
  news (NetEBMinMax_eval_arguments op w s (NetEConst left) (NetEConst right))
    (folds_to w s (binary_value (NetEBMinMax op) s s w (bits4 left) (bits4 right))).
Proof.
  intros Hl Hr Wl Wr Sl Sr. pose proof (ok_pos _ Hl) as Pl. cbn [NetEBMinMax_eval_arguments consts_of const_of].
  apply news_widths; [lia|done..|]. cbn [binary_value]. unfold minmax_value. rewrite !to_bit4_unknown, <- negb_andb.
  assert (signed_value s (bits4 left) = num left) as -> by (rewrite <- Sl; apply signed_num).
  assert (signed_value s (bits4 right) = num right) as -> by (rewrite <- Sr; apply signed_num).
  destruct (is_defined left && is_defined right) eqn:E; cbn [negb].
  - apply andb_true_iff in E as [Dl Dr].
    destruct (lt_spec left right Hl Hr ltac:(congruence) Dl Dr) as [H1 _], (lt_spec right left Hr Hl ltac:(congruence) Dr Dl) as [H2 _].
    destruct op; rewrite ?H1, ?H2; cbn [mbind option_bind]; rewrite V_true_bool; apply news_new;
      [destruct (num left <? num right)|destruct (num right <? num left)]; by apply same_folds.
  - cbn [mbind option_bind]. apply news_new, x_folds. rewrite <- Wl. apply const_ok_spec in Hl. tauto.
Qed.

(** *** Loops that set every bit *)

(** A loop whose round [idx] sets the bit [idx] to [g idx]. *)
Lemma update_loop (g : nat -> V) (body : nat -> verinum -> option verinum) v :
  (forall idx u, (idx < nbits_ v)%nat -> same_flags v u -> get u idx = get v idx ->
     body idx u = Some (with_bits u (<[idx := g idx]> (bits_ u)))) ->
  for_ 0 (nbits_ v) body v = Some (with_bits v (map g (seq 0 (nbits_ v)))).
Proof.
  intros Hbody.
  destruct (returns_for (fun k r => same_flags v r /\
    forall j, get r j = if (j <? k)%nat && (j <? nbits_ v)%nat then Some (g j) else get v j) body 0 (nbits_ v) v) as (r & -> & [Hf Hn] & Hg).
  - split; [by destruct v|]. intros j. done.
  - intros k r Hk [[Hf Hn] Hg]. rewrite Hbody; [|lia|done|].
    2:{ rewrite Hg. by rewrite Nat.ltb_irrefl. }
    apply returns_ret. split.
    + split; [by rewrite Hf|]. unfold nbits_ in *. cbn [with_bits bits_]. by rewrite length_insert.
    + intros j. rewrite get_with. destruct (decide (j = k)) as [->|Hj].
      * rewrite list_lookup_insert_eq by (fold (nbits_ r); lia).
        by rewrite (proj2 (Nat.ltb_lt k (S k))), (proj2 (Nat.ltb_lt k (nbits_ v))) by lia.
      * rewrite list_lookup_insert_ne by done. fold (get r j). rewrite Hg.
        destruct (Nat.ltb_spec j k), (Nat.ltb_spec j (S k)); (done || lia).
  - f_equal. rewrite Hf. f_equal. apply list_eq. intros j. fold (get r j). rewrite Hg. cbn [Nat.add].
    change (map g (seq 0 (nbits_ v))) with (g <$> seq 0 (nbits_ v)). rewrite list_lookup_fmap.
    destruct (Nat.ltb_spec j (nbits_ v)) as [Hj|Hj]; cbn [andb].
    + by rewrite lookup_seq_lt by lia.
    + rewrite lookup_seq_ge by lia. by apply lookup_ge_None_2.
Qed.

(** Bits that are read from two constants of the same width. *)
Lemma bits4_zip (f : V -> V -> V) (h : vvp_bit4_t -> vvp_bit4_t -> vvp_bit4_t) left right (g : nat -> V) :
  nbits_ right = nbits_ left -> (forall a b, to_bit4 (f a b) = h (to_bit4 a) (to_bit4 b)) ->
  (forall i a b, get left i = Some a -> get right i = Some b -> g i = f a b) ->
  map to_bit4 (map g (seq 0 (nbits_ left))) = zip_with h (bits4 left) (bits4 right).
Proof.
  intros Hn Hf Hg. apply list_eq. intros i. rewrite map_map. rewrite lookup_zip_with.
  change (map (fun x => to_bit4 (g x)) (seq 0 (nbits_ left))) with ((fun x => to_bit4 (g x)) <$> seq 0 (nbits_ left)).
  change (bits4 left) with (to_bit4 <$> bits_ left). change (bits4 right) with (to_bit4 <$> bits_ right).
  rewrite !list_lookup_fmap. destruct (decide (i < nbits_ left)%nat) as [Hi|Hi].
  - rewrite lookup_seq_lt by lia. destruct (get_some left i Hi) as [a Ha], (get_some right i) as [b Hb]; [lia|].
    unfold get in *. rewrite Ha, Hb. cbn. by rewrite (Hg i a b), Hf.
  - rewrite lookup_seq_ge by lia. by rewrite (lookup_ge_None_2 (bits_ left)) by (fold (nbits_ left); lia).
Qed.

Lemma fresh_folds l w s x :
  sized w = true -> length l = w -> map to_bit4 l = x ->
  folds_to w s x (with_sign (mk_verinum l true false false false) s).
Proof. intros Hw Hl Hx. split_and!; try done. apply ok_fresh; cbn; try done. unfold nbits_. cbn. by rewrite Hl. Qed.

Lemma length_map_seq {A} (g : nat -> A) n : length (map g (seq 0 n)) = n.
Proof. by rewrite length_map, length_seq. Qed.

(** *** Bitwise operators *)

Lemma eq_loop_zero left lpad zero n idx :
  (forall i, (i < nbits_ zero)%nat -> get zero i = Some V0) ->
  exists b, eq_loop left zero lpad V0 n idx = Some (V_of_bool b) /\
    (b = true -> forall i, (idx <= i < idx + n)%nat -> (i < nbits_ left)%nat -> get left i = Some V0).
Proof.
  intros Hz. revert idx. induction n as [|n IH]; intros idx; [exists true; split; [done|lia]|]. cbn [eq_loop].
  assert (exists l, (if (idx <? nbits_ left)%nat then get left idx else Some lpad) = Some l) as [l Hl].
  { destruct (Nat.ltb_spec idx (nbits_ left)); [by apply get_some|by eexists]. }
  assert ((if (idx <? nbits_ zero)%nat then get zero idx else Some V0) = Some V0) as ->.
  { destruct (Nat.ltb_spec idx (nbits_ zero)); [by apply Hz|done]. }
  rewrite Hl. cbn [mbind option_bind]. destruct (V_eqb_spec l V0) as [->|]; cbn [negb]; [|by exists false].
  destruct (IH (S idx)) as (b & -> & Hb). exists b. split; [done|]. intros Ht i Hi Hlt.
  destruct (decide (i = idx)) as [->|]; [by rewrite (proj2 (Nat.ltb_lt _ _) Hlt) in Hl|]. apply Hb; (done || lia).
Qed.

Lemma masks_spec op val :
  const_ok val = true ->
  exists b, masks op val = Some b /\ (b = true -> op = OpAnd /\ bits_ val = replicate (nbits_ val) V0).
Proof.
  intros Hok. destruct op; try (by exists false). unfold masks.
  replace (verinum_of_int64 0) with (Some (mk_verinum [V0; V0] false true false false)) by reflexivity. cbn [mbind option_bind].
  set (zero := mk_verinum _ _ _ _ _).
  assert (forall lpad, exists b, eq_loop val zero lpad V0 (Nat.max (nbits_ val) (nbits_ zero)) 0 = Some (V_of_bool b) /\
    (b = true -> bits_ val = replicate (nbits_ val) V0)) as Hloop.
  { intros lpad. destruct (eq_loop_zero val lpad zero (Nat.max (nbits_ val) (nbits_ zero)) 0) as (b & -> & Hb).
    { intros [|[|i]] Hi; [done|done|cbn in Hi; lia]. }
    exists b. split; [done|]. intros Ht. apply list_eq. intros i. destruct (decide (i < nbits_ val)%nat) as [Hi|Hi].
    - rewrite lookup_replicate_2 by done. apply (Hb Ht i); lia.
    - by rewrite !lookup_ge_None_2 by (rewrite ?length_replicate; fold (nbits_ val); lia). }
  unfold verinum_eq, pads. replace (has_sign_ zero) with true by reflexivity. rewrite andb_true_r.
  destruct (has_sign_ val).
  - destruct (get_some val (nbits_ val - 1)) as [l Hl]; [pose proof (ok_pos _ Hok); lia|]. rewrite Hl.
    replace (get zero (nbits_ zero - 1)) with (Some V0) by reflexivity. cbn [mbind option_bind].
    destruct l; cbn [V_opposite V_eqb V_int Z.eqb Pos.eqb andb]; try (exists false; done);
      destruct (Hloop V0) as (b0 & E0 & H0), (Hloop Vx) as (bx & Ex & Hx), (Hloop Vz) as (bz & Ez & Hz);
      rewrite ?E0, ?Ex, ?Ez; cbn [mbind option_bind]; rewrite V_true_bool; eexists; (split; [done|]); auto.
  - cbn [mbind option_bind V_opposite V_eqb V_int Z.eqb Pos.eqb andb]. destruct (Hloop V0) as (b & -> & Hb).
    cbn [mbind option_bind]. rewrite V_true_bool. by exists b; auto.
Qed.

Lemma and_zero_l n l : length l = n -> zip_with bit4_and (replicate n BIT4_0) l = replicate n BIT4_0.
Proof. revert n. induction l as [|b l IH]; intros [|n] H; try done. cbn. rewrite IH by (cbn in H; lia). by destruct b. Qed.

Lemma and_zero_r n l : length l = n -> zip_with bit4_and l (replicate n BIT4_0) = replicate n BIT4_0.
Proof. revert n. induction l as [|b l IH]; intros [|n] H; try done. cbn. rewrite IH by (cbn in H; lia). by destruct b. Qed.

Lemma V_bits_value op f : V_bits op = Some f -> forall a b, to_bit4 (f a b) = bits_value op (to_bit4 a) (to_bit4 b).
Proof. by destruct op; intros [= <-] [] []. Qed.

Lemma zero_folds w s : sized w = true -> folds_to w s (replicate w BIT4_0) (with_sign (verinum_fill V0 w true) s).
Proof. intros H. apply fresh_folds; [done|apply length_replicate|apply map_fill]. Qed.

Lemma NetEBBits_folds op left right w s :
  const_ok left = true -> const_ok right = true -> nbits_ left = w -> nbits_ right = w -> V_bits op <> None ->
  news (NetEBBits_eval_arguments op w s (NetEConst left) (NetEConst right))
    (folds_to w s (zip_with (bits_value op) (bits4 left) (bits4 right))).
Proof.
  intros Hl Hr Wl Wr Hop. cbn [NetEBBits_eval_arguments consts_of const_of].
  assert (sized w = true) as Hw by (rewrite <- Wl; apply const_ok_spec in Hl; tauto).
  destruct (masks_spec op left Hl) as (bl & -> & Hbl). cbn [mbind option_bind]. destruct bl.
  { destruct (Hbl eq_refl) as [-> ->]. apply news_new. rewrite map_fill, Wl. cbn [bits_value to_bit4].
    rewrite and_zero_l by (by rewrite length_bits4). by apply zero_folds. }
  destruct (masks_spec op right Hr) as (br & -> & Hbr). cbn [mbind option_bind]. destruct br.
  { destruct (Hbr eq_refl) as [-> ->]. apply news_new. rewrite map_fill, Wr. cbn [bits_value to_bit4].
    rewrite and_zero_r by (by rewrite length_bits4). by apply zero_folds. }
  apply news_widths; [by apply sized_pos|done..|]. destruct (V_bits op) as [f|] eqn:Ef; [|done].
  pose proof (update_loop (fun i => f (nth i (bits_ left) V0) (nth i (bits_ right) V0))
    (fun idx res => a ← get left idx; b ← get right idx; set res idx (f a b)) (verinum_fill V0 w true)) as Hloop.
  change (nbits_ (verinum_fill V0 w true)) with (length (replicate w V0)) in Hloop. rewrite length_replicate in Hloop.
  rewrite Hloop.
  2:{ intros idx u Hi [_ Hn] _. destruct (get_some left idx) as [a Ha], (get_some right idx) as [b Hb]; [lia..|].
      rewrite Ha, Hb. cbn [mbind option_bind]. rewrite set_returns by (rewrite Hn; cbn; rewrite length_replicate; done).
      unfold get in *. by rewrite !(nth_lookup_Some _ _ _ _ Ha), !(nth_lookup_Some _ _ _ _ Hb). }
  cbn [mbind option_bind]. apply news_new. apply fresh_folds; [done|apply length_map_seq|]. rewrite <- Wl.
  apply (bits4_zip f); [congruence|by apply V_bits_value|]. intros i a b Ha Hb. unfold get in *.
  by rewrite !(nth_lookup_Some _ _ _ _ Ha), !(nth_lookup_Some _ _ _ _ Hb).
Qed.

(** *** Equalities *)

Lemma bits4_lookup v i a : get v i = Some a -> bits4 v !! i = Some (to_bit4 a).
Proof. intros H. change (bits4 v) with (to_bit4 <$> bits_ v). rewrite list_lookup_fmap. unfold get in H. by rewrite H. Qed.

Lemma V_is_xz_bit4 b : V_is_xz b = bit4_is_xz (to_bit4 b).
Proof. by destruct b. Qed.

(** Two constants of the same width read in step from [idx] on. *)
Section equality.
Context (lv rv : verinum) (ne_res : V) (Hlen : nbits_ rv = nbits_ lv).
Let tail (idx : nat) := zip (drop idx (bits4 lv)) (drop idx (bits4 rv)).

Lemma tail_step idx :
  (idx < nbits_ lv)%nat ->
  exists a b, get lv idx = Some a /\ get rv idx = Some b /\ tail idx = (to_bit4 a, to_bit4 b) :: tail (S idx).
Proof.
  intros Hi. destruct (get_some lv idx Hi) as [a Ha], (get_some rv idx) as [b Hb]; [lia|]. exists a, b.
  split_and!; [done..|]. apply zip_drop; by apply bits4_lookup.
Qed.

Lemma tail_end idx : (nbits_ lv <= idx)%nat -> tail idx = [].
Proof. intros Hi. unfold tail. by rewrite drop_ge by (rewrite length_bits4; lia). Qed.

Lemma eqeq_loop_spec n idx res :
  (idx + n = nbits_ lv)%nat ->
  exists r, eqeq_loop lv rv ne_res n idx res = Some r /\
    to_bit4 r = if existsb known_diff (tail idx) then to_bit4 ne_res
                else if existsb pair_xz (tail idx) then BIT4_X else to_bit4 res.
Proof.
  revert idx res. induction n as [|n IH]; intros idx res Hn; cbn [eqeq_loop].
  { exists res. by rewrite tail_end by lia. }
  destruct (tail_step idx) as (a & b & -> & -> & ->); [lia|]. cbn [mbind option_bind existsb]. unfold known_diff, pair_xz at 1.
  cbn [fst snd]. rewrite !V_is_xz_bit4. fold known_diff pair_xz.
  destruct (bit4_is_xz (to_bit4 a) || bit4_is_xz (to_bit4 b)) eqn:Ex; cbn [orb].
  - rewrite <- negb_orb, Ex. cbn [negb andb orb]. destruct (IH (S idx) Vx) as (r & Hr & E); [lia|]. exists r. split; [done|]. rewrite E. clear E.
    destruct (existsb known_diff _); [done|]. by destruct (existsb pair_xz _).
  - apply orb_false_iff in Ex as [Ea Eb]. rewrite Ea, Eb. cbn [negb andb orb].
    destruct (V_eqb_spec b a) as [->|Hne]; cbn [negb].
    + destruct (IH (S idx) res) as (r & Hr & E); [lia|]. exists r. split; [done|]. rewrite E. clear E.
      destruct (bit4_eqb_spec (to_bit4 a) (to_bit4 a)); [done|done].
    + exists ne_res. split; [done|]. destruct (bit4_eqb_spec (to_bit4 a) (to_bit4 b)) as [E|]; [|done].
      by destruct a, b.
Qed.

Lemma weqeq_loop_spec n idx res :
  (idx + n = nbits_ lv)%nat ->
  let cared := List.filter (fun p => negb (bit4_is_xz (snd p))) (tail idx) in
  exists r, weqeq_loop lv rv ne_res n idx res = Some r /\
    to_bit4 r = if existsb known_diff cared then to_bit4 ne_res
                else if existsb pair_xz cared then BIT4_X else to_bit4 res.
Proof.
  cbv zeta. revert idx res. induction n as [|n IH]; intros idx res Hn; cbn [weqeq_loop].
  { exists res. by rewrite tail_end by lia. }
  destruct (tail_step idx) as (a & b & -> & -> & ->); [lia|]. rewrite cared_cons. cbn [mbind option_bind]. rewrite V_is_xz_bit4.
  destruct (bit4_is_xz (to_bit4 b)) eqn:Eb; [apply IH; lia|]. cbn [existsb]. unfold known_diff at 1, pair_xz at 1. cbn [fst snd].
  rewrite V_is_xz_bit4, Eb. destruct (bit4_is_xz (to_bit4 a)) eqn:Ea; cbn [negb andb orb].
  - destruct (IH (S idx) Vx) as (r & Hr & E); [lia|]. exists r. split; [done|]. rewrite E. clear E.
    destruct (existsb known_diff _); [done|]. by destruct (existsb pair_xz _).
  - destruct (V_eqb_spec b a) as [->|Hne]; cbn [negb].
    + destruct (IH (S idx) res) as (r & Hr & E); [lia|]. exists r. split; [done|]. rewrite E. clear E.
      destruct (bit4_eqb_spec (to_bit4 a) (to_bit4 a)); [done|done].
    + exists ne_res. split; [done|]. destruct (bit4_eqb_spec (to_bit4 a) (to_bit4 b)) as [E|]; [|done].
      by destruct a, b.
Qed.

Lemma eqeqeq_loop_spec n idx :
  (idx + n = nbits_ lv)%nat ->
  eqeqeq_loop lv rv n idx = Some (V_of_bool (bool_decide (drop idx (bits4 lv) = drop idx (bits4 rv)))).
Proof.
  revert idx. induction n as [|n IH]; intros idx Hn; cbn [eqeqeq_loop].
  { by rewrite !drop_ge, bool_decide_eq_true_2 by (done || rewrite length_bits4; lia). }
  destruct (get_some lv idx) as [a Ha], (get_some rv idx) as [b Hb]; [lia..|]. rewrite Ha, Hb. cbn [mbind option_bind].
  rewrite (drop_S _ _ _ (bits4_lookup _ _ _ Ha)), (drop_S _ _ _ (bits4_lookup _ _ _ Hb)).
  destruct (V_eqb_spec a b) as [->|Hne]; cbn [negb].
  - rewrite IH by lia. do 2 f_equal. apply bool_decide_ext. split; [by intros ->|by intros [= ->]].
  - rewrite bool_decide_eq_false_2; [done|]. intros [= E]. by destruct a, b.
Qed.
End equality.

Lemma equality_folds op left right s :
  is_order op = false -> nbits_ right = nbits_ left ->
  news (NetEBComp_eval_arguments op (NetEConst left) (NetEConst right))
    (folds_to 1 false [comp_value op s (bits4 left) (bits4 right)]).
Proof.
  intros Hop Hn. assert (length (bits4 right) = length (bits4 left)) as Hlen by (rewrite !length_bits4; done).
  assert (forall ne_flag, news (eval_eqeq_ ne_flag (NetEConst left) (NetEConst right))
    (folds_to 1 false [if ne_flag then bit4_not (logic_eq (bits4 left) (bits4 right)) else logic_eq (bits4 left) (bits4 right)])) as Heq.
  { intros ne_flag. unfold eval_eqeq_. cbn [consts_of const_of]. apply returns_assert; [by rewrite Hn, Nat.eqb_refl|].
    destruct (eqeq_loop_spec left right (if ne_flag then V1 else V0) Hn (nbits_ left) 0 (if ne_flag then V0 else V1) eq_refl) as (r & -> & Hr).
    cbn [mbind option_bind]. apply news_new, one_bit_folds. rewrite Hr, !drop_0, logic_eq_pairs by done.
    destruct ne_flag; (destruct (existsb known_diff _); [done|]); by destruct (existsb pair_xz _). }
  assert (forall ne_flag, news (eval_weqeq_ ne_flag (NetEConst left) (NetEConst right))
    (folds_to 1 false [if ne_flag then bit4_not (wild_eq (bits4 left) (bits4 right)) else wild_eq (bits4 left) (bits4 right)])) as Hwild.
  { intros ne_flag. unfold eval_weqeq_. cbn [consts_of const_of]. apply returns_assert; [by rewrite Hn, Nat.eqb_refl|].
    destruct (weqeq_loop_spec left right (if ne_flag then V1 else V0) Hn (nbits_ left) 0 (if ne_flag then V0 else V1) eq_refl) as (r & -> & Hr).
    cbn [mbind option_bind]. apply news_new, one_bit_folds. rewrite Hr, !drop_0, wild_eq_pairs. cbv zeta.
    destruct ne_flag; (destruct (existsb known_diff _); [done|]); by destruct (existsb pair_xz _). }
  assert (forall ne_flag : bool, news (eval_eqeqeq_ ne_flag (NetEConst left) (NetEConst right))
    (folds_to 1 false [let same := bit4_of_test (bool_decide (bits4 left = bits4 right)) in if ne_flag then bit4_not same else same])) as Hcase.
  { intros ne_flag. unfold eval_eqeqeq_. cbn [consts_of const_of]. apply returns_assert; [by rewrite Hn, Nat.eqb_refl|].
    rewrite (eqeqeq_loop_spec left right Hn (nbits_ left) 0 eq_refl), !drop_0. cbn [mbind option_bind].
    apply news_new, one_bit_folds. destruct ne_flag, (bool_decide _); done. }
  destruct op; try done; cbn [NetEBComp_eval_arguments comp_value];
    [apply (Heq false)|apply (Hcase false)|apply (Heq true)|apply (Hcase true)|apply (Hwild false)|apply (Hwild true)].
Qed.

(** *** Order comparisons *)

Lemma signed_value_fits s x : (0 < length x)%nat -> fits s (length x) (signed_value s x).
Proof.
  intros Hx. pose proof (bits_to_Z_bounds x) as Hb. unfold fits, signed_value. destruct s; [|done].
  split; [done|]. rewrite last_bit_sign by done. rewrite top_bit by done. rewrite (Z.mod_small _ _ Hb).
  pose proof (pow2_pred (length x) Hx). destruct (Z.leb_spec (2 ^ (Z.of_nat (length x) - 1)) (bits_to_Z x)); lia.
Qed.

(** The largest number of [n] bits. *)
Definition largest (s : bool) (n : nat) : Z := if s then 2 ^ (Z.of_nat n - 1) - 1 else 2 ^ Z.of_nat n - 1.

Lemma fits_largest s n z : fits s n z -> z <= largest s n.
Proof. unfold fits, largest. destruct s; lia. Qed.

Lemma rep_largest_unsigned n : rep (verinum_fill V1 n true) (largest false n).
Proof.
  pose proof (Z.pow_pos_nonneg 2 (Z.of_nat n)). unfold rep.
  replace (nbits_ (verinum_fill V1 n true)) with n by (symmetry; apply length_replicate).
  split; [|cbn; lia]. cbn [verinum_fill bits_]. rewrite <- Vbits_m1. apply Vbits_mod. cbn [largest].
  replace (2 ^ Z.of_nat n - 1) with (-1 + 1 * 2 ^ Z.of_nat n) by lia. by rewrite Z.mod_add by lia.
Qed.

Lemma tb_largest n i : (0 < n)%nat -> tb (2 ^ (Z.of_nat n - 1) - 1) i = (i <? n - 1)%nat.
Proof.
  intros Hn. unfold tb. rewrite Z.sub_1_r, <- Z.ones_equiv. destruct (Nat.ltb_spec i (n - 1)).
  - apply Z.ones_spec_low. lia.
  - apply Z.ones_spec_high. lia.
Qed.

Lemma rep_largest_signed n :
  (0 < n)%nat ->
  rep (with_sign (with_bits (verinum_fill V1 n true) (<[(n - 1)%nat := V0]> (replicate n V1))) true) (largest true n).
Proof.
  intros Hn. unfold rep. set (v := with_sign _ _).
  replace (nbits_ v) with n by (unfold v, nbits_; cbn; by rewrite length_insert, length_replicate). unfold v. clear v.
  cbn [with_sign with_bits bits_ has_sign_]. split.
  - apply Vbits_intro; [by rewrite length_insert, length_replicate|]. intros i Hi. cbn [largest]. rewrite tb_largest by done.
    destruct (decide (i = n - 1)%nat) as [->|Hne].
    + by rewrite list_lookup_insert_eq, Nat.ltb_irrefl by (rewrite length_replicate; lia).
    + by rewrite list_lookup_insert_ne, lookup_replicate_2, (proj2 (Nat.ltb_lt i (n - 1))) by lia.
  - cbn [fits largest]. pose proof (Z.pow_pos_nonneg 2 (Z.of_nat n - 1)). lia.
Qed.

Lemma must_be_leeq_spec le rv eq_flag :
  well_formed le = true -> const_ok rv = true -> is_defined rv = true -> has_sign le = has_sign_ rv ->
  returns (must_be_leeq_ le rv eq_flag) (fun o =>
    match o with
    | None => True
    | Some v => v = one_bit V1 /\ expr_type le = IVL_VT_BOOL /\
        forall x, length x = expr_width le ->
          if eq_flag then signed_value (has_sign le) x <= num rv else signed_value (has_sign le) x < num rv
    end).
Proof.
  intros Hwf Hr Dr Hs. pose proof (sized_pos _ (wf_sized _ Hwf)) as Hpos. unfold must_be_leeq_.
  destruct (expr_type le); [|by apply returns_ret]. apply returns_assert; [by apply Nat.ltb_lt|].
  assert (exists lv, (if has_sign le && has_sign_ rv
    then lv ← set (verinum_fill V1 (expr_width le) true) (nbits_ (verinum_fill V1 (expr_width le) true) - 1) V0; Some (with_sign lv true)
    else Some (verinum_fill V1 (expr_width le) true)) = Some lv /\ rep lv (largest (has_sign le) (expr_width le)) /\ has_sign_ lv = has_sign le)
    as (lv & -> & Hlv & Slv).
  { rewrite <- Hs, andb_diag. destruct (has_sign le).
    - replace (nbits_ (verinum_fill V1 (expr_width le) true)) with (expr_width le) by (symmetry; apply length_replicate).
      rewrite set_returns by (cbn; rewrite length_replicate; lia). eexists. split; [done|]. split; [by apply rep_largest_signed|done].
    - eexists. split; [done|]. split; [apply rep_largest_unsigned|done]. }
  cbn [mbind option_bind]. unfold verinum_lt. rewrite (less_spec _ lv rv _ _ Hlv (ok_rep _ Hr Dr)) by congruence. cbn [mbind option_bind].
  rewrite (eq_spec lv rv _ _ Hlv (ok_rep _ Hr Dr)) by congruence. cbn [mbind option_bind].
  assert (forall x, length x = expr_width le -> signed_value (has_sign le) x <= largest (has_sign le) (expr_width le)) as Hmax.
  { intros x Hx. apply fits_largest. rewrite <- Hx. apply signed_value_fits. lia. }
  unfold V_compare. destruct (Z.compare_spec (largest (has_sign le) (expr_width le)) (num rv)) as [E|E|E]; cbn [V_true V_eqb V_int Z.eqb Pos.eqb negb].
  - destruct eq_flag; [|by apply returns_ret]. rewrite E, Z.eqb_refl. cbn. apply returns_ret. split_and!; [done..|].
    intros x Hx. specialize (Hmax x Hx). lia.
  - apply returns_ret. split_and!; [done..|]. intros x Hx. specialize (Hmax x Hx). destruct eq_flag; lia.
  - destruct eq_flag; [|by apply returns_ret]. rewrite (proj2 (Z.eqb_neq _ _)) by lia. by apply returns_ret.
Qed.

(** What is known about the value of an operand. *)
Definition operand_ok (env : nat -> list vvp_bit4_t) (e : NetExpr) : Prop :=
  length (denote env e) = expr_width e /\ (expr_type e = IVL_VT_BOOL -> unknown (denote env e) = false).

(** A one bit constant that is the value [x env] wherever the operands are fine;
    it is there when both operands are constants. *)
Definition order_result (le re : NetExpr) (x : (nat -> list vvp_bit4_t) -> vvp_bit4_t) (o : option verinum) : Prop :=
  match o with
  | None => consts_of le re = None
  | Some v => const_ok v = true /\ nbits_ v = 1%nat /\ has_sign_ v = false /\
      forall env, operand_ok env le -> operand_ok env re -> bits4 v = [x env]
  end.

Lemma one_bit_result le re x b :
  (forall env, operand_ok env le -> operand_ok env re -> x env = to_bit4 b) ->
  order_result le re x (Some (one_bit b)).
Proof. intros H. split_and!; [apply one_bit_ok|done..|]. intros env Hl Hr. by rewrite H. Qed.

(** [eval_less_] and [eval_leeq_]. *)
Definition eval_order (eq_flag : bool) (le re : NetExpr) : option (option verinum) :=
  match const_of re with
  | None => null
  | Some rv =>
      if negb (is_defined rv) then new (one_bit Vx)
      else
        tmp ← must_be_leeq_ le rv eq_flag;
        match tmp with
        | Some v => new v
        | None =>
            match const_of le with
            | None => null
            | Some lv =>
                if negb (is_defined lv) then new (one_bit Vx)
                else c ← (if eq_flag then verinum_leeq else verinum_lt) lv rv; new_test c
            end
        end
  end.

Lemma const_of_some e v : const_of e = Some v -> e = NetEConst v.
Proof. destruct e; by intros [= ->]. Qed.

Lemma consts_none_l l r : const_of l = None -> consts_of l r = None.
Proof. unfold consts_of. by intros ->. Qed.

Lemma consts_none_r l r : const_of r = None -> consts_of l r = None.
Proof. unfold consts_of. intros ->. by destruct (const_of l). Qed.

Lemma eval_order_spec (eq_flag : bool) le re :
  well_formed le = true -> well_formed re = true -> has_sign le = has_sign re ->
  returns (eval_order eq_flag le re)
    (order_result le re (fun env => order_value (if eq_flag then Z.leb else Z.ltb) (has_sign le) (denote env le) (denote env re))).
Proof.
  intros Hwl Hwr Hs. unfold eval_order. destruct (const_of re) as [rv|] eqn:Er; [|by apply returns_ret, consts_none_r].
  apply const_of_some in Er as ->. cbn [well_formed has_sign denote] in *.
  destruct (is_defined rv) eqn:Dr; cbn [negb].
  2:{ apply returns_ret, one_bit_result. intros env _ _. unfold order_value. cbn [denote].
      by rewrite (undefined_unknown rv Dr), orb_true_r. }
  eapply returns_bind; [by apply must_be_leeq_spec|]. intros [v|] Hmust.
  { destruct Hmust as (-> & Ht & Hle). apply returns_ret, one_bit_result. intros env [Hlen Hk] _. unfold order_value.
    rewrite (Hk Ht). cbn [denote]. rewrite (defined_known rv Dr). cbn [orb]. rewrite Hs, signed_num, <- Hs. specialize (Hle _ Hlen).
    destruct eq_flag; [by rewrite (proj2 (Z.leb_le _ _))|by rewrite (proj2 (Z.ltb_lt _ _))]. }
  destruct (const_of le) as [lv|] eqn:El; [|by apply returns_ret, consts_none_l].
  apply const_of_some in El as ->. cbn [well_formed has_sign denote] in *.
  destruct (is_defined lv) eqn:Dl; cbn [negb].
  2:{ apply returns_ret, one_bit_result. intros env _ _. unfold order_value. cbn [denote]. by rewrite (undefined_unknown lv Dl). }
  destruct (lt_spec lv rv Hwl Hwr Hs Dl Dr) as [Hlt Hleq].
  destruct eq_flag; rewrite ?Hlt, ?Hleq; cbn [mbind option_bind]; unfold new_test; rewrite V_true_bool; apply returns_ret, one_bit_result;
    intros env _ _; unfold order_value; cbn [denote]; rewrite (defined_known lv Dl), (defined_known rv Dr), signed_num, Hs, signed_num; cbn [orb];
    [by destruct (num lv <=? num rv)|by destruct (num lv <? num rv)].
Qed.

Lemma order_result_swap le re x o : order_result re le x o -> order_result le re x o.
Proof.
  destruct o as [v|]; cbn.
  - intros (H1 & H2 & H3 & H). split_and!; auto.
  - unfold consts_of. by destruct (const_of le), (const_of re).
Qed.

Lemma order_result_ext le re x y o : (forall env, x env = y env) -> order_result le re x o -> order_result le re y o.
Proof.
  intros Hxy. destruct o as [v|]; [|done]. intros (H1 & H2 & H3 & H). split_and!; try done. intros env Hl Hr. rewrite <- Hxy. auto.
Qed.

Lemma order_folds op le re :
  is_order op = true -> well_formed le = true -> well_formed re = true -> has_sign le = has_sign re ->
  returns (NetEBComp_eval_arguments op le re)
    (order_result le re (fun env => comp_value op (has_sign le) (denote env le) (denote env re))).
Proof.
  intros Hop Hl Hr Hs. destruct op; try done; cbn [NetEBComp_eval_arguments comp_value].
  - exact (eval_order_spec false le re Hl Hr Hs).
  - eapply returns_mono; [exact (eval_order_spec false re le Hr Hl (eq_sym Hs))|]. intros o Ho.
    apply order_result_swap. eapply order_result_ext; [|exact Ho]. intros env. unfold order_value.
    by rewrite Hs, orb_comm, Z.gtb_ltb.
  - exact (eval_order_spec true le re Hl Hr Hs).
  - eapply returns_mono; [exact (eval_order_spec true re le Hr Hl (eq_sym Hs))|]. intros o Ho.
    apply order_result_swap. eapply order_result_ext; [|exact Ho]. intros env. unfold order_value.
    by rewrite Hs, orb_comm, Z.geb_leb.
Qed.

(** *** Logical operators *)

Lemma V_truth_value v : to_bit4 (V_truth v) = truth (bits4 v).
Proof.
  unfold V_truth, is_defined. induction (bits_ v) as [|b l IH]; [done|]. cbn [map truth foldr existsb forallb].
  fold (truth (map to_bit4 l)). rewrite <- IH. destruct (existsb _ l), (forallb _ l); by destruct b.
Qed.

Lemma NetEBLogic_folds op left right s :
  news (NetEBLogic_eval_arguments op (NetEConst left) (NetEConst right))
    (folds_to 1 false (binary_value (NetEBLogic op) s s 1 (bits4 left) (bits4 right))).
Proof.
  cbn [NetEBLogic_eval_arguments consts_of const_of]. apply news_new.
  destruct op; cbn [binary_value]; rewrite <- !V_truth_value; apply one_bit_folds; unfold V_truth;
    destruct (existsb _ (bits_ left)), (existsb _ (bits_ right)), (is_defined left), (is_defined right); done.
Qed.

(** *** Shifts *)

Lemma shl_bits v k :
  has_len_ v = true ->
  verinum_shl v k =
    Some (with_sign (mk_verinum (replicate (Nat.min k (nbits_ v)) V0 ++ take (nbits_ v - k) (bits_ v)) true false false false) (has_sign_ v)).
Proof.
  intros Hl. unfold verinum_shl. rewrite Hl. set (n := nbits_ v). set (res := with_sign (verinum_fill V0 n true) (has_sign_ v)).
  assert (nbits_ res = n) as Hres by apply nbits_fill.
  assert (exists r, for_ k (n - k) (fun idx result => b ← get v (idx - k); set result idx b) res = Some r /\ same_flags res r /\
    forall j, get r j = if (k <=? j)%nat && (j <? n)%nat then get v (j - k) else get res j) as (r & -> & [Hf Hn] & Hg).
  { destruct (Nat.le_gt_cases k n) as [Hle|Hgt].
    - destruct (copy_block v res (fun i => (i - k)%nat) (fun i => i) k (n - k) 0 k) as (r & Hr & Hs & Hg); [lia| |lia|]; [fold n; lia|].
      exists r. split_and!; [done..|]. intros j. rewrite Hg. replace (k + (n - k))%nat with n by lia. done.
    - replace (n - k)%nat with 0%nat by lia. exists res. split_and!; try done. intros j.
      destruct (Nat.leb_spec k j), (Nat.ltb_spec j n); (done || lia). }
  cbn [mbind option_bind]. rewrite trim_sized by (by rewrite Hf). f_equal. rewrite Hf. unfold res, with_bits, with_sign, verinum_fill. cbn. f_equal.
  apply list_eq. intros j. fold (get r j). rewrite Hg. rewrite lookup_app, length_replicate.
  destruct (Nat.leb_spec k j) as [Hkj|Hkj]; cbn [andb].
  - destruct (Nat.ltb_spec j n) as [Hjn|Hjn].
    + rewrite Nat.min_l by lia. rewrite (lookup_ge_None_2 (replicate k V0)) by (rewrite length_replicate; lia).
      by rewrite lookup_take_lt by lia.
    + rewrite (lookup_ge_None_2 (replicate _ V0)) by (rewrite length_replicate; lia).
      rewrite lookup_take_ge by lia. apply lookup_ge_None_2. fold (nbits_ res). lia.
  - destruct (Nat.ltb_spec j (Nat.min k n)).
    + rewrite (lookup_replicate_2 (Nat.min k n)) by done. unfold res. cbn. apply lookup_replicate_2. lia.
    + rewrite (lookup_ge_None_2 (replicate (Nat.min k n) V0)) by (rewrite length_replicate; lia).
      rewrite lookup_take_ge by lia. apply lookup_ge_None_2. fold (nbits_ res). lia.
Qed.

Lemma shr_bits v k p :
  has_len_ v = true -> sign_bit v = Some p ->
  verinum_shr v k =
    Some (with_sign (mk_verinum (drop k (bits_ v) ++ replicate (Nat.min k (nbits_ v)) p) true false false false) (has_sign_ v)).
Proof.
  intros Hl Hp. unfold verinum_shr. rewrite Hl, Hp. cbn [mbind option_bind]. set (n := nbits_ v).
  destruct (Nat.leb_spec n k) as [Hle|Hlt].
  { rewrite drop_ge by done. by rewrite Nat.min_r by done. }
  set (res := with_sign (verinum_fill p n true) (has_sign_ v)). assert (nbits_ res = n) as Hres by apply nbits_fill.
  destruct (copy_block v res (fun i => i) (fun i => (i - k)%nat) k (n - k) k 0) as (r & -> & [Hf Hn] & Hg); [lia|fold n; lia|lia|].
  cbn [mbind option_bind]. rewrite trim_sized by (by rewrite Hf). f_equal. rewrite Hf. unfold res, with_bits, with_sign, verinum_fill. cbn. f_equal.
  apply list_eq. intros j. fold (get r j). rewrite Hg, lookup_app, length_drop. fold (nbits_ v) n. cbn [Nat.add].
  rewrite (proj2 (Nat.leb_le 0 j)) by lia. cbn [andb]. destruct (Nat.ltb_spec j (n - k)) as [Hj|Hj].
  - rewrite lookup_drop. replace (k + (j - 0))%nat with (k + j)%nat by lia.
    destruct (get_some v (k + j)) as [b Hb]; [fold n; lia|]. unfold get in *. by rewrite Hb.
  - rewrite (lookup_ge_None_2 (drop k (bits_ v))) by (rewrite length_drop; fold (nbits_ v) n; lia). rewrite Nat.min_l by lia.
    destruct (decide (j < n)%nat).
    + rewrite lookup_replicate_2 by lia. by apply get_fill.
    + unfold get. rewrite (lookup_ge_None_2 (bits_ res)) by (fold (nbits_ res); lia). by rewrite lookup_ge_None_2 by (rewrite length_replicate; lia).
Qed.

(** [as_unsigned] saturates. *)
Lemma as_uint_saturates w n k z val i :
  (w <= i)%nat -> (k <= i < k + n)%nat -> tb z i = true ->
  as_uint_loop w (bits_from k n z) val (if (k <? w)%nat then 2 ^ Z.of_nat k else 0) = Z.ones (Z.of_nat w).
Proof.
  intros Hwi. revert k val. induction n as [|n IH]; intros k val Hi Ht; [lia|]. cbn [bits_from seq map as_uint_loop].
  fold (bits_from (S k) n z).
  rewrite next_mask.
  change V1 with (V_of_bool true). rewrite V_eqb_bool.
  destruct (tb z k) eqn:Ek; cbn [Bool.eqb].
  - destruct (Nat.ltb_spec k w).
    + rewrite (proj2 (Z.eqb_neq _ _)) by lia. apply IH; [|done]. split; [|lia]. lia.
    + done.
  - apply IH; [|done]. split; [|lia]. destruct (decide (k = i)) as [->|]; [congruence|lia].
Qed.

Lemma as_unsigned_spec v :
  const_ok v = true -> is_defined v = true -> as_unsigned v = Z.min (bits_to_Z (bits4 v)) (2 ^ 32 - 1).
Proof.
  intros Hok Hd. pose proof (bits_to_Z_bounds (bits4 v)) as Hb. rewrite length_bits4 in Hb.
  pose proof (defined_bits v Hd) as Hbits. set (z := bits_to_Z (bits4 v)) in *.
  destruct (Z.lt_ge_cases z (2 ^ 32)) as [Hz|Hz].
  - rewrite Z.min_l by lia. change (as_unsigned v) with (as_uint 32 (with_sign v false)). apply as_uint_spec; [|done|exact Hz].
    by apply rep_unsigned.
  - rewrite Z.min_r by lia. unfold as_unsigned, as_uint. pose proof (ok_pos v Hok). rewrite (proj2 (Nat.eqb_neq _ _)), Hd by lia.
    cbn [negb]. rewrite Hbits. change (Vbits (nbits_ v) z) with (bits_from 0 (nbits_ v) z).
    assert (32 <= Z.log2 z) by (apply Z.log2_le_pow2; lia).
    assert (Z.log2 z < Z.of_nat (nbits_ v)) by (apply Z.log2_lt_pow2; lia).
    apply (as_uint_saturates 32 (nbits_ v) 0 z 0 (Z.to_nat (Z.log2 z))); [lia..|]. unfold tb. rewrite Z2Nat.id by lia.
    apply Z.bit_log2. lia.
Qed.

(** What a shift by the saturated amount makes of the bits. *)
Lemma shifted_amount x fill (amount : Z) (f : nat -> list vvp_bit4_t) (l : list vvp_bit4_t) :
  0 <= amount -> Z.of_nat (length x) < 2 ^ 32 ->
  (forall k, (length x <= k)%nat -> k = Z.to_nat (Z.min amount (2 ^ 32 - 1)) -> l = replicate (length x) fill) ->
  (forall k, (k < length x)%nat -> k = Z.to_nat (Z.min amount (2 ^ 32 - 1)) -> l = f k) ->
  l = shifted BIT4_0 amount fill x f.
Proof.
  intros Ha Hx Hout Hin. unfold shifted. cbn [bit4_eqb bit4_int Z.eqb Pos.eqb orb]. destruct (Z.leb_spec (Z.of_nat (length x)) amount).
  - apply (Hout (Z.to_nat (Z.min amount (2 ^ 32 - 1)))); lia.
  - rewrite (Hin (Z.to_nat (Z.min amount (2 ^ 32 - 1)))) by lia. f_equal. lia.
Qed.

Lemma shift_right_bits v k p :
  map to_bit4 (drop k (bits_ v) ++ replicate (Nat.min k (nbits_ v)) p) =
    drop k (bits4 v) ++ replicate (Nat.min k (nbits_ v)) (to_bit4 p).
Proof. rewrite map_app, map_fill. f_equal. symmetry. apply (skipn_map to_bit4 k). Qed.

Lemma shift_folds left l w s x :
  const_ok left = true -> nbits_ left = w -> length l = w -> map to_bit4 l = x ->
  news (val ← cast_to_width (with_sign (mk_verinum l true false false false) (has_sign_ left)) w; new (with_sign val s)) (folds_to w s x).
Proof.
  intros Hok Hw Hl Hx. rewrite cast_same by done. cbn [mbind option_bind]. apply news_new.
  apply (fresh_folds l); try done. rewrite <- Hw. apply const_ok_spec in Hok. tauto.
Qed.

Lemma sign_bit_value v :
  const_ok v = true ->
  exists p, sign_bit v = Some p /\ to_bit4 p = if has_sign_ v then bit_at (bits4 v) (length (bits4 v) - 1) else BIT4_0.
Proof.
  intros Hok. pose proof (ok_pos v Hok). unfold sign_bit. destruct (has_sign_ v); [|by exists V0].
  destruct (get_some v (nbits_ v - 1)) as [p Hp]; [lia|]. exists p. split; [done|]. rewrite length_bits4.
  symmetry. apply bit_at_lookup. by apply bits4_lookup.
Qed.

Lemma NetEBShift_folds op left right w s :
  const_ok left = true -> const_ok right = true -> nbits_ left = w ->
  news (NetEBShift_eval_arguments op w s (NetEConst left) (NetEConst right))
    (folds_to w s (shift_value op (has_sign_ left) (bits4 left) (bits4 right))).
Proof.
  intros Hl Hr Wl. pose proof (ok_pos _ Hl) as Pl. pose proof (ok_len _ Hl) as Ll. cbn [NetEBShift_eval_arguments consts_of const_of].
  assert (sized w = true) as Hw by (rewrite <- Wl; apply const_ok_spec in Hl; tauto).
  apply returns_assert; [apply Nat.ltb_lt; lia|]. apply returns_assert; [by apply Nat.eqb_eq|].
  unfold shift_value. rewrite (to_bit4_unknown right). destruct (is_defined right) eqn:Dr; cbn [negb].
  2:{ cbn [mbind option_bind]. apply news_new. replace (match op with OpShiftL => _ | OpShiftR => _ | OpShiftRSigned => _ end) with (all_x w).
      - by apply x_folds.
      - unfold shifted. cbn [bit4_eqb bit4_int Z.eqb Pos.eqb]. rewrite length_bits4, Wl. by destruct op. }
  rewrite as_unsigned_spec by done. set (amount := bits_to_Z (bits4 right)). set (k := Z.to_nat (Z.min amount (2 ^ 32 - 1))).
  pose proof (bits_to_Z_nonneg (bits4 right)) as Ha. fold amount in Ha.
  assert (Z.of_nat w < 2 ^ 32) as Hw32 by (unfold sized in Hw; apply andb_true_iff in Hw as [_ Hw]; by apply Z.ltb_lt).
  destruct (sign_bit_value left Hl) as (p & Hp & <-). destruct op.
  - rewrite shl_bits by done. apply (shift_folds left); [done..| |].
    { rewrite length_app, length_replicate, length_take. fold (nbits_ left). lia. }
    rewrite map_app, map_fill, <- firstn_map. apply shifted_amount; [done|by rewrite length_bits4, Wl|..]; rewrite length_bits4; intros j Hj Ej; fold k in Ej; rewrite <- Ej.
    + rewrite Nat.min_r by lia. replace (nbits_ left - j)%nat with 0%nat by lia. by rewrite firstn_O, app_nil_r.
    + by rewrite Nat.min_l by lia.
  - change (has_sign_ left) with (has_sign_ left). rewrite (shr_bits (with_sign left false) k V0) by done.
    apply (shift_folds (with_sign left false)); [by apply with_sign_ok|done|..].
    { rewrite length_app, length_replicate, length_drop. cbn [with_sign bits_]. fold (nbits_ left). change (nbits_ (with_sign left false)) with (nbits_ left). lia. }
    change (bits_ (with_sign left false)) with (bits_ left). change (nbits_ (with_sign left false)) with (nbits_ left).
    rewrite shift_right_bits. apply shifted_amount; [done|by rewrite length_bits4, Wl|..]; rewrite length_bits4; intros j Hj Ej; fold k in Ej; rewrite <- Ej.
    + rewrite Nat.min_r by lia. by rewrite drop_ge by (rewrite length_bits4; lia).
    + by rewrite Nat.min_l by lia.
  - rewrite (shr_bits left k p) by done. apply (shift_folds left); [done..| |].
    { rewrite length_app, length_replicate, length_drop. fold (nbits_ left). lia. }
    rewrite shift_right_bits. apply shifted_amount; [done|by rewrite length_bits4, Wl|..]; rewrite length_bits4; intros j Hj Ej; fold k in Ej; rewrite <- Ej.
    + rewrite Nat.min_r by lia. by rewrite drop_ge by (rewrite length_bits4; lia).
    + by rewrite Nat.min_l by lia.
Qed.

(** *** All binary operators on constants *)

Definition folding_op (op : binary_op) : bool :=
  match op with NetEBBits (OpNand | OpNor) => false | _ => true end.

(** The signs of the operands are that of the operator. *)
Ltac signs := repeat match goal with E : has_sign_ _ = _ |- _ => rewrite E end.

Lemma binary_folds op left right w s :
  const_ok left = true -> const_ok right = true -> folding_op op = true ->
  binary_ok op (nbits_ left) (nbits_ right) (has_sign_ left) (has_sign_ right) w s = true ->
  news (binary_eval_arguments op w s (NetEConst left) (NetEConst right))
    (folds_to w s (binary_value op (has_sign_ left) (has_sign_ right) w (bits4 left) (bits4 right))).
Proof.
  intros Hl Hr Hop Hok. pose proof (ok_pos _ Hl) as Pl.
  destruct op as [op|op|op|op|op|op| | |op]; cbn [binary_ok] in Hok; split_ok; cbn [binary_eval_arguments].
  - cbn [NetEBAdd_eval_arguments consts_of const_of]. apply news_widths; [lia|done..|]. signs.
    apply (cast_folds (match op with OpPlus => _ | OpMinus => _ end)). by apply NetEBAdd_folds.
  - cbn [binary_value]. apply NetEBBits_folds; try done. by destruct op.
  - subst w s. cbn [binary_value]. destruct (is_order op) eqn:Eo; [|by apply equality_folds].
    destruct (order_folds op (NetEConst left) (NetEConst right) Eo Hl Hr) as (o & Ho & Hres); [done|].
    exists o. split; [exact Ho|]. destruct o as [v|]; [|done]. destruct Hres as (H3 & H4 & H5 & H6). exists v. split; [done|].
    split_and!; try done. apply (H6 (fun _ => [])); split; cbn; rewrite ?length_bits4; (done || by apply const_known).
  - cbn [NetEBDiv_eval_arguments consts_of const_of]. apply news_widths; [lia|done..|]. signs.
    apply (cast_folds (match op with OpDivide => _ | OpModulo => _ end)). by apply NetEBDiv_folds.
  - subst w s. replace (binary_value _ _ _ _ _ _) with (binary_value (NetEBLogic op) false false 1 (bits4 left) (bits4 right)) by (by destruct op).
    apply NetEBLogic_folds.
  - signs. by apply NetEBMinMax_folds.
  - cbn [NetEBMult_eval_arguments consts_of const_of]. apply news_widths; [lia|done..|]. signs.
    apply cast_folds. by apply NetEBMult_folds.
  - cbn [NetEBPow_eval_arguments consts_of const_of]. apply returns_assert; [apply Nat.ltb_lt; lia|].
    apply returns_assert; [by apply Nat.eqb_eq|]. apply cast_folds. signs. by apply NetEBPow_folds.
  - by apply NetEBShift_folds.
Qed.

Lemma binary_not_constant op w s l r :
  consts_of l r = None -> (forall c, op = NetEBComp c -> is_order c = false) -> binary_eval_arguments op w s l r = null.
Proof.
  intros Hc Ho. destruct op as [op|op|op|op|op|op| | |op]; cbn [binary_eval_arguments];
    unfold NetEBAdd_eval_arguments, NetEBBits_eval_arguments, NetEBDiv_eval_arguments, NetEBLogic_eval_arguments,
      NetEBMinMax_eval_arguments, NetEBMult_eval_arguments, NetEBPow_eval_arguments, NetEBShift_eval_arguments; rewrite ?Hc; try done.
  specialize (Ho op eq_refl). destruct op; try done; cbn [NetEBComp_eval_arguments];
    unfold eval_eqeq_, eval_eqeqeq_, eval_weqeq_; by rewrite Hc.
Qed.

(** *** Unary operators *)

Lemma each_bit_map f v : each_bit f v = Some (with_bits v (map f (bits_ v))).
Proof.
  unfold each_bit. rewrite (update_loop (fun i => f (nth i (bits_ v) V0))).
  - do 2 f_equal. apply list_eq. intros i.
    change (map (fun i => f (nth i (bits_ v) V0)) (seq 0 (nbits_ v))) with ((fun i => f (nth i (bits_ v) V0)) <$> seq 0 (nbits_ v)).
    change (map f (bits_ v)) with (f <$> bits_ v). rewrite !list_lookup_fmap. destruct (decide (i < nbits_ v)%nat) as [Hi|Hi].
    + rewrite lookup_seq_lt by done. destruct (get_some v i Hi) as [b Hb]. unfold get in Hb. rewrite Hb. cbn.
      by rewrite (nth_lookup_Some _ _ _ _ Hb).
    + by rewrite lookup_seq_ge, lookup_ge_None_2 by (fold (nbits_ v); lia).
  - intros i u Hi [_ Hn] Hget. destruct (get_some v i Hi) as [b Hb]. rewrite Hget, Hb. cbn [mbind option_bind].
    rewrite set_returns by lia. unfold get in Hb. by rewrite (nth_lookup_Some _ _ _ _ Hb).
Qed.

Lemma map_bits_ok f v :
  const_ok v = true -> (is_defined v = true -> is_defined (with_bits v (map f (bits_ v))) = true) ->
  const_ok (with_bits v (map f (bits_ v))) = true.
Proof.
  intros (H1 & H2 & H3 & H4)%const_ok_spec Hd. apply const_ok_spec.
  assert (nbits_ (with_bits v (map f (bits_ v))) = nbits_ v) as -> by apply length_map.
  split_and!; try done. intros Hs. destruct (H4 Hs) as [Hdv H8]. auto.
Qed.

Lemma map_bits_folds f (h : vvp_bit4_t -> vvp_bit4_t) v :
  const_ok v = true -> (forall b, to_bit4 (f b) = h (to_bit4 b)) -> (forall b, bit4_is_xz b = false -> bit4_is_xz (h b) = false) ->
  folds_to (nbits_ v) (has_sign_ v) (map h (bits4 v)) (with_bits v (map f (bits_ v))).
Proof.
  intros Hok Hf Hh. assert (bits4 (with_bits v (map f (bits_ v))) = map h (bits4 v)) as Hb.
  { cbn [with_bits bits_]. rewrite !map_map. apply map_ext. apply Hf. }
  split_and!; [apply map_bits_ok; [done|]|apply length_map|done|exact Hb].
  intros Hd. apply negb_false_iff. rewrite <- to_bit4_unknown, Hb. apply known_map; [done|]. by apply defined_known.
Qed.

Lemma neg_folds v :
  const_ok v = true -> returns (verinum_neg v) (folds_to (nbits_ v) (has_sign_ v) (negate_value (bits4 v))).
Proof.
  intros Hok. pose proof (ok_len v Hok) as Hl. unfold negate_value. rewrite to_bit4_unknown, length_bits4.
  destruct (is_defined v) eqn:Hd; cbn [negb].
  - eapply returns_mono; [apply returns_only; [apply (neg_spec v _ (ok_rep v Hok Hd))|apply (neg_inherits v)]|].
    intros r [[Hres _] Hi]. rewrite Hl in Hres. apply result_mod in Hres.
    replace (bits_of_Z (nbits_ v) (- bits_to_Z (bits4 v))) with (bits_of_Z (nbits_ v) (- num v)) by
      (apply bits_of_Z_mod, (sub_modular _ 0 _ 0); [done|symmetry; apply num_mod]).
    by apply (result_folds v).
  - unfold verinum_neg. rewrite Hd, Hl. cbn [negb]. apply returns_ret, x_folds. apply const_ok_spec in Hok. tauto.
Qed.

(** The folds of the reductions. *)
Lemma fold_left_bits (f : V -> V -> V) (g : vvp_bit4_t -> vvp_bit4_t -> vvp_bit4_t) (u : vvp_bit4_t) l a :
  (forall a b, to_bit4 (f a b) = g (to_bit4 a) (to_bit4 b)) -> (forall a b, f a b <> Vz) ->
  (forall a b c, g a (g b c) = g (g a b) c) -> (forall a, a <> BIT4_Z -> g a u = a) -> a <> Vz ->
  to_bit4 (fold_left f l a) = g (to_bit4 a) (foldr g u (map to_bit4 l)).
Proof.
  intros Hf Hz Hassoc Hu. revert a. induction l as [|b l IH]; intros a Ha; cbn [fold_left map foldr].
  - rewrite Hu; [done|]. by destruct a.
  - rewrite IH by apply Hz. by rewrite Hf, Hassoc.
Qed.

Lemma and_loop_value l : to_bit4 (fold_left V_and l V1) = foldr bit4_and BIT4_1 (map to_bit4 l).
Proof.
  rewrite (fold_left_bits V_and bit4_and BIT4_1); [|by intros [] []|by intros [] []|by intros [] [] []|by intros []|done].
  cbn [to_bit4]. rewrite reduce_and. destruct (existsb _ _); [done|]. by destruct (forallb _ _).
Qed.

Lemma or_loop_value l : to_bit4 (fold_left V_or l V0) = foldr bit4_or BIT4_0 (map to_bit4 l).
Proof.
  rewrite (fold_left_bits V_or bit4_or BIT4_0); [|by intros [] []|by intros [] []|by intros [] [] []|by intros []|done].
  cbn [to_bit4]. rewrite reduce_or. destruct (existsb _ _); [done|]. by destruct (forallb _ _).
Qed.

Definition xor_result (p : nat * nat) : V :=
  let '(ones, unknown) := p in if (0 <? unknown)%nat then Vx else if (ones mod 2 =? 0)%nat then V0 else V1.

Lemma xor_count_value l ones unknown :
  to_bit4 (xor_result (xor_count l ones unknown)) =
    bit4_xor (to_bit4 (xor_result (ones, unknown))) (foldr bit4_xor BIT4_0 (map to_bit4 l)).
Proof.
  assert (forall a b c, bit4_xor a (bit4_xor b c) = bit4_xor (bit4_xor a b) c) as Hassoc by (by intros [] [] []).
  assert (forall o u, xor_result (o + 1, u)%nat = V_xor (xor_result (o, u)) V1) as Hstep.
  { intros o u. cbn. destruct (0 <? u)%nat; [done|]. pose proof (Nat.mod_upper_bound o 2).
    destruct (Nat.eqb_spec (o mod 2) 0), (Nat.eqb_spec ((o + 1) mod 2) 0); (done || dlia). }
  revert ones unknown. induction l as [|b l IH]; intros ones unknown; cbn [xor_count map foldr].
  - cbn. destruct (0 <? unknown)%nat; [done|]. by destruct (_ =? 0)%nat.
  - assert (xor_result (ones, unknown + 1)%nat = Vx) as Hx by (cbn; by rewrite (proj2 (Nat.ltb_lt 0 (unknown + 1))) by lia).
    destruct b; cbn [to_bit4]; rewrite IH.
    + rewrite Hassoc. f_equal. cbn. destruct (0 <? unknown)%nat; [done|]. by destruct (_ =? 0)%nat.
    + rewrite Hassoc, Hstep. f_equal. by destruct (xor_result (ones, unknown)).
    + rewrite Hassoc, Hx. f_equal. by destruct (xor_result (ones, unknown)).
    + rewrite Hassoc, Hx. f_equal. by destruct (xor_result (ones, unknown)).
Qed.

Lemma not_loop_value l vx :
  to_bit4 (not_loop l vx) = bit4_not (bit4_or (if vx : bool then BIT4_X else BIT4_0) (truth (map to_bit4 l))).
Proof.
  revert vx. induction l as [|b l IH]; intros vx; [by destruct vx|]. cbn [not_loop map truth foldr]. fold (truth (map to_bit4 l)).
  destruct b; rewrite ?IH; destruct vx, (truth (map to_bit4 l)); done.
Qed.

Lemma truth_not_z l : truth l <> BIT4_Z.
Proof. unfold truth. rewrite reduce_or. destruct (existsb _ _); [done|]. by destruct (forallb _ _). Qed.

Lemma NetEUReduce_folds op v :
  news (NetEUReduce_eval_arguments op (NetEConst v)) (folds_to 1 false [reduce_value op (bits4 v)]).
Proof.
  cbn [NetEUReduce_eval_arguments const_of]. apply news_new.
  assert (forall b, to_bit4 (V_not b) = bit4_not (to_bit4 b)) as Hnot by (by intros []).
  fold (xor_result (xor_count (bits_ v) 0 0)).
  assert (to_bit4 (xor_result (xor_count (bits_ v) 0 0)) = foldr bit4_xor BIT4_0 (bits4 v)) as Hxor.
  { rewrite xor_count_value. cbn [xor_result Nat.ltb]. destruct (bits_ v) as [|b l]; [done|]. cbn [map foldr].
    by destruct (to_bit4 b), (foldr bit4_xor BIT4_0 (map to_bit4 l)). }
  destruct op; cbn [reduce_value]; apply one_bit_folds; rewrite ?Hnot, ?and_loop_value, ?or_loop_value; try done; try (by rewrite Hxor).
  rewrite not_loop_value. pose proof (truth_not_z (bits4 v)). by destruct (truth (bits4 v)).
Qed.

(** *** Two-state casts *)

Lemma inherits_fresh l r : inherits verinum_empty r -> inherits l r.
Proof. intros [H1 H2]. by split; intros H; [specialize (H1 H)|specialize (H2 H)]. Qed.

(** A cast that changes the width makes a number. *)
Lemma cast_fresh v w : nbits_ v <> w -> only (cast_to_width v w) (inherits verinum_empty).
Proof.
  intros Hw. unfold cast_to_width, padded. rewrite (proj2 (Nat.eqb_neq _ _) Hw), andb_false_r.
  destruct (w <=? nbits_ v)%nat; [|inherit]. unfold verinum_copy. apply only_bind. intros bits. apply only_ret.
  split; cbn; [done|]. rewrite (proj2 (Nat.eqb_neq _ _) Hw), andb_false_r. done.
Qed.

Lemma resize_number v w z :
  rep v z -> (0 < nbits_ v)%nat -> resize_value (has_sign_ v) w (bits4 v) = bits_of_Z w z.
Proof.
  intros Hr Hn. rewrite <- map_Vbits. unfold resize_value. rewrite length_bits4. apply list_eq. intros i.
  change (map to_bit4 (Vbits w z)) with (to_bit4 <$> Vbits w z). rewrite list_lookup_fmap.
  destruct (decide (i < w)%nat) as [Hi|Hi].
  2:{ rewrite (lookup_ge_None_2 (Vbits w z)) by (rewrite length_Vbits; lia).
      apply lookup_ge_None_2. rewrite length_app, length_take, length_replicate, length_bits4. lia. }
  rewrite lookup_Vbits by done. cbn [fmap option_fmap option_map]. destruct (decide (i < nbits_ v)%nat) as [Hl|Hl].
  - rewrite lookup_app_l by (rewrite length_take, length_bits4; lia). rewrite lookup_take_lt by done.
    rewrite (bits4_lookup v i (V_of_bool (tb z i))); [done|]. by apply rep_get.
  - rewrite lookup_app_r by (rewrite length_take, length_bits4; lia). rewrite length_take, length_bits4.
    rewrite lookup_replicate_2 by lia. f_equal. pose proof (rep_sign_bit v z i Hr ltac:(lia)) as Hs. unfold sign_bit in Hs.
    destruct (has_sign_ v); [|by injection Hs as <-]. apply bit_at_lookup, bits4_lookup. exact Hs.
Qed.

Lemma NetECast_folds v w :
  const_ok v = true -> sized w = true ->
  news (NetECast_eval_arguments w (NetEConst v)) (folds_to w (has_sign_ v) (resize_value (has_sign_ v) w (map cast2_bit (bits4 v)))).
Proof.
  intros Hok Hw. cbn [NetECast_eval_arguments const_of]. rewrite (proj2 (Nat.ltb_lt 0 w)) by (by apply sized_pos).
  unfold cast_to_int2. set (f := fun b : V => _). set (u := with_bits v (map f (bits_ v))).
  destruct (map_bits_folds f cast2_bit v Hok) as (Hu & Wu & Su & Bu); [by intros []|by intros []|]. fold u in Hu, Wu, Su, Bu.
  assert (is_defined u = true) as Hd.
  { apply negb_false_iff. rewrite <- to_bit4_unknown, Bu. apply known_forall, Forall_fmap, Forall_forall. intros b _. by destruct b. }
  pose proof (ok_rep u Hu Hd) as Hr. pose proof (ok_pos u Hu) as Hp. rewrite <- Bu. change (has_sign_ v) with (has_sign_ u).
  rewrite (resize_number u w _ Hr Hp). destruct (decide (nbits_ u = w)) as [E|E].
  - rewrite cast_same by (done || by apply ok_len). cbn [mbind option_bind]. apply news_new. apply (number_folds u); try done. by apply ok_len.
  - eapply news_bind; [apply returns_only; [apply (cast_spec u _ w Hr); by apply ok_single|by apply cast_fresh]|].
    intros r [(H1 & H2 & H3) Hi]. apply news_new. assert (nbits_ r = w) as Hn by (unfold nbits_; by rewrite H3, length_Vbits).
    split_and!; try done; [|by rewrite H3, map_Vbits]. destruct Hi as [Hsi Hst]. apply ok_fresh; [done|..|by rewrite Hn].
    + destruct (is_single_ r); [by specialize (Hsi eq_refl)|done].
    + destruct (string_flag_ r); [by specialize (Hst eq_refl)|done].
Qed.

(** All unary operators on constants. *)
Lemma unary_folds op v w s :
  const_ok v = true -> unary_ok op (nbits_ v) (has_sign_ v) w s = true ->
  news (unary_eval_arguments op w (NetEConst v)) (folds_to w s (unary_value op (has_sign_ v) w (bits4 v))).
Proof.
  intros Hok Hop. pose proof (ok_pos v Hok) as Hp. destruct op as [| | | |op|]; cbn [unary_ok] in Hop; split_ok; subst;
    cbn [unary_eval_arguments NetEUnary_eval_arguments const_of unary_value].
  - by apply news_new.
  - eapply news_bind; [by apply neg_folds|]. intros r Hr. by apply news_new.
  - rewrite to_bit4_unknown, signed_num. destruct (is_defined v) eqn:Hd; cbn [negb].
    + rewrite (is_negative_spec v _ (ok_rep v Hok Hd) Hp). cbn [mbind option_bind].
      destruct (num v <? 0); [|by apply news_new]. eapply news_bind; [by apply neg_folds|]. intros r Hr. by apply news_new.
    + rewrite each_bit_map. cbn [mbind option_bind]. apply news_new.
      split_and!; [apply map_bits_ok; [done|congruence]|apply length_map|done|].
      cbn [with_bits bits_]. rewrite length_bits4, map_map. unfold nbits_, all_x. clear. induction (bits_ v); cbn in *; congruence.
  - rewrite each_bit_map. cbn [mbind option_bind]. apply news_new.
    apply map_bits_folds; [done|by intros []|by intros []].
  - apply NetEUReduce_folds.
  - by apply NetECast_folds.
Qed.

(** *** The ternary operator *)

Lemma logical_loop_value l res :
  res = C_0 \/ res = C_X ->
  logical_loop l res =
    match truth (map to_bit4 l) with BIT4_1 => C_1 | BIT4_0 => res | _ => C_X end.
Proof.
  revert res. induction l as [|b l IH]; intros res Hres; [done|]. cbn [logical_loop map truth foldr].
  fold (truth (map to_bit4 l)). pose proof (truth_not_z (map to_bit4 l)).
  destruct b, Hres as [->| ->]; rewrite ?IH by auto; by destruct (truth (map to_bit4 l)).
Qed.

Lemma const_logical_value c v :
  const_of c = Some v ->
  const_logical c = match truth (bits4 v) with BIT4_1 => C_1 | BIT4_0 => C_0 | _ => C_X end.
Proof. unfold const_logical. intros ->. apply logical_loop_value. auto. Qed.

Lemma const_logical_none c : const_of c = None -> const_logical c = C_NON.
Proof. unfold const_logical. by intros ->. Qed.

Lemma blended_folds t f w s :
  const_ok t = true -> nbits_ t = w -> nbits_ f = w ->
  news (blended_arguments_ s (NetEConst t) (NetEConst f)) (folds_to w s (zip_with blend_bit (bits4 t) (bits4 f))).
Proof.
  intros Ht Wt Wf. unfold blended_arguments_. cbn [consts_of const_of]. rewrite Wt, Wf, Nat.ltb_irrefl.
  set (g := fun i => let a := nth i (bits_ t) V0 in let b := nth i (bits_ f) V0 in
    if V_eqb a b && (V_eqb a V0 || V_eqb a V1) then a else Vx).
  pose proof (update_loop g (fun idx val =>
    tv ← (if (idx <? w)%nat then get t idx else Some V0);
    fv ← (if (idx <? w)%nat then get f idx else Some V0);
    if V_eqb tv fv && (V_eqb tv V0 || V_eqb tv V1) then set val idx tv else Some val) (verinum_fill Vx w true)) as Hloop.
  change (nbits_ (verinum_fill Vx w true)) with (length (replicate w Vx)) in Hloop. rewrite length_replicate in Hloop.
  rewrite Hloop.
  2:{ intros idx u Hi [Hf Hn] Hget. rewrite (proj2 (Nat.ltb_lt idx w) Hi).
      destruct (get_some t idx) as [a Ha], (get_some f idx) as [b Hb]; [lia..|]. rewrite Ha, Hb. cbn [mbind option_bind].
      unfold g. unfold get in Ha, Hb. rewrite (nth_lookup_Some _ _ _ _ Ha), (nth_lookup_Some _ _ _ _ Hb). cbv zeta.
      destruct (V_eqb a b && (V_eqb a V0 || V_eqb a V1)).
      - apply set_returns. rewrite Hn. cbn. by rewrite length_replicate.
      - f_equal. rewrite list_insert_id; [by destruct u|]. unfold get in Hget. rewrite Hget. cbn. by apply lookup_replicate_2. }
  cbn [mbind option_bind]. apply news_new. apply fresh_folds; [rewrite <- Wt; apply const_ok_spec in Ht; tauto|apply length_map_seq|].
  rewrite <- Wt. apply (bits4_zip (fun a b => if V_eqb a b && (V_eqb a V0 || V_eqb a V1) then a else Vx)); [congruence|by intros [] []|].
  intros i a b Ha Hb. unfold g, get in *. by rewrite (nth_lookup_Some _ _ _ _ Ha), (nth_lookup_Some _ _ _ _ Hb).
Qed.

(** *** Selects *)

(** The bits of a select, with the increments as a [long] and without a bound. *)
Definition selected (pos : Z -> Z) (v : verinum) (bval : Z) (pad : V) (w : nat) (l : list V) : Prop :=
  forall i, (i < w)%nat -> l !! i = Some (let k := pos (bval + Z.of_nat i) in
     if (0 <=? k) && (k <? Z.of_nat (nbits_ v)) then nth (Z.to_nat k) (bits_ v) V0 else pad).

Lemma select_bits_value eval bval pad w s :
  exists l, select_bits eval bval pad w s = Some (with_sign (mk_verinum l true false false false) s) /\ length l = w /\
    selected (int_cast 64 true) eval bval pad w l.
Proof.
  set (g := fun i => let k := int_cast 64 true (bval + Z.of_nat i) in
    if (0 <=? k) && (k <? Z.of_nat (nbits_ eval)) then nth (Z.to_nat k) (bits_ eval) V0 else pad).
  exists (map g (seq 0 w)). split_and!.
  - unfold select_bits. pose proof (update_loop g (fun idx oval =>
      let bval := int_cast 64 true (bval + Z.of_nat idx) in
      b ← (if (0 <=? bval) && (bval <? Z.of_nat (nbits_ eval)) then get eval (Z.to_nat bval) else Some pad);
      set oval idx b) (verinum_fill V0 w true)) as Hloop.
    change (nbits_ (verinum_fill V0 w true)) with (length (replicate w V0)) in Hloop. rewrite length_replicate in Hloop.
    cbv zeta in Hloop. rewrite Hloop; [done|]. intros idx u Hi [_ Hn] _. unfold g.
    set (k := int_cast 64 true (bval + Z.of_nat idx)). destruct ((0 <=? k) && (k <? Z.of_nat (nbits_ eval))) eqn:E.
    + apply andb_true_iff in E as [E1%Z.leb_le E2%Z.ltb_lt]. destruct (get_some eval (Z.to_nat k)) as [b Hb]; [lia|].
      rewrite Hb. cbn [mbind option_bind]. unfold get in Hb. rewrite (nth_lookup_Some _ _ _ _ Hb). apply set_returns. rewrite Hn. cbn. by rewrite length_replicate.
    + apply set_returns. rewrite Hn. cbn. by rewrite length_replicate.
  - apply length_map_seq.
  - intros i Hi. change (map g (seq 0 w)) with (g <$> seq 0 w). by rewrite list_lookup_fmap, lookup_seq_lt by done.
Qed.

(** The increments of [bval] do not meet a bit when they wrap. *)
Lemma long_steps {A} bval i n (f : Z -> A) (d : A) :
  - 2 ^ 63 <= bval < 2 ^ 63 -> Z.of_nat i < 2 ^ 32 -> Z.of_nat n < 2 ^ 32 ->
  (let k := int_cast 64 true (bval + Z.of_nat i) in if (0 <=? k) && (k <? Z.of_nat n) then f k else d) =
  (let k := bval + Z.of_nat i in if (0 <=? k) && (k <? Z.of_nat n) then f k else d).
Proof.
  intros Hb Hi Hn. cbv zeta. destruct (Z.lt_ge_cases (bval + Z.of_nat i) (2 ^ 63)) as [H|H].
  - replace (int_cast 64 true (bval + Z.of_nat i)) with (bval + Z.of_nat i); [done|]. symmetry. apply int_cast_id. cbn [fits]. change (Z.of_nat 64 - 1) with 63. lia.
  - replace (int_cast 64 true (bval + Z.of_nat i)) with (bval + Z.of_nat i - 2 ^ 64).
    + rewrite (proj2 (Z.leb_gt 0 (_ - 2 ^ 64))) by lia. rewrite (proj2 (Z.ltb_ge (bval + Z.of_nat i) (Z.of_nat n))) by lia.
      by rewrite andb_false_r.
    + unfold int_cast. change (2 ^ Z.of_nat 64) with (2 ^ 64). change (2 ^ (Z.of_nat 64 - 1)) with (2 ^ 63).
      rewrite Z.mod_small by lia. by rewrite (proj2 (Z.leb_le _ _)) by lia.
Qed.

Lemma no_wrap v bval pad w l :
  selected (int_cast 64 true) v bval pad w l ->
  - 2 ^ 63 <= bval < 2 ^ 63 -> Z.of_nat w < 2 ^ 32 -> Z.of_nat (nbits_ v) < 2 ^ 32 -> selected (fun k => k) v bval pad w l.
Proof.
  intros Hl Hb Hw Hn i Hi. rewrite Hl by done. f_equal.
  apply (long_steps bval i (nbits_ v) (fun k => nth (Z.to_nat k) (bits_ v) V0) pad); [done|lia|done].
Qed.

Lemma sized_bound w : sized w = true -> Z.of_nat w < 2 ^ 32.
Proof. unfold sized. intros [_ H%Z.ltb_lt]%andb_true_iff. exact H. Qed.

Lemma ok_sized v : const_ok v = true -> sized (nbits_ v) = true.
Proof. intros H%const_ok_spec. tauto. Qed.

Lemma bits4_nth v i d : (i < nbits_ v)%nat -> to_bit4 (nth i (bits_ v) d) = bit_at (bits4 v) i.
Proof.
  intros Hi. destruct (get_some v i Hi) as [b Hb]. rewrite (bit_at_lookup _ _ _ (bits4_lookup _ _ _ Hb)).
  unfold get in Hb. by rewrite (nth_lookup_Some _ _ _ _ Hb).
Qed.

Lemma bits_are l x w :
  length l = w -> length x = w -> (forall i a, l !! i = Some a -> x !! i = Some (to_bit4 a)) -> map to_bit4 l = x.
Proof.
  intros Hl Hx H. apply list_eq_same_length with w; [by rewrite ?length_map..|]. intros i a b Hi Ha Hb.
  change (map to_bit4 l) with (to_bit4 <$> l) in Ha. rewrite list_lookup_fmap in Ha.
  destruct (l !! i) as [c|] eqn:E; [|done]. injection Ha as <-. rewrite (H i c E) in Hb. congruence.
Qed.

Lemma extend_folds v w s :
  const_ok v = true -> sized w = true ->
  news (NetESelect_eval_constants v None w s) (folds_to w s (resize_value s w (bits4 v))).
Proof.
  intros Hok Hw. pose proof (ok_pos v Hok) as Hp. unfold NetESelect_eval_constants.
  assert (exists pad, (if s then get v (nbits_ v - 1) else Some V0) = Some pad /\
    to_bit4 pad = if s then bit_at (bits4 v) (length (bits4 v) - 1) else BIT4_0) as (pad & -> & Hpad).
  { destruct s; [|by exists V0]. destruct (get_some v (nbits_ v - 1)) as [b Hb]; [lia|]. exists b. split; [done|].
    symmetry. rewrite length_bits4. by apply bit_at_lookup, bits4_lookup. }
  cbn [mbind option_bind]. destruct (select_bits_value v 0 pad w s) as (l & -> & Hl & Hlook). cbn [mbind option_bind].
  apply no_wrap in Hlook; [|lia|by apply sized_bound|by apply sized_bound, ok_sized].
  apply news_new, fresh_folds; [done..|]. apply (bits_are _ _ w Hl); [apply length_resize|]. intros i a Ha.
  assert (i < w)%nat as Hi by (rewrite <- Hl; by apply lookup_lt_Some in Ha). rewrite Hlook in Ha by done. cbv zeta in Ha. rewrite Z.add_0_l in Ha.
  rewrite (proj2 (Z.leb_le 0 (Z.of_nat i))), Nat2Z.id in Ha by lia. cbn [andb] in Ha. injection Ha as <-. unfold resize_value. rewrite <- Hpad, length_bits4.
  destruct (Z.ltb_spec (Z.of_nat i) (Z.of_nat (nbits_ v))).
  - rewrite lookup_app_l by (rewrite length_take, length_bits4; lia). rewrite lookup_take_lt by done.
    rewrite bits4_nth by lia. destruct (get_some v i) as [b Hb]; [lia|]. by rewrite (bit_at_lookup _ _ _ (bits4_lookup _ _ _ Hb)), (bits4_lookup _ _ _ Hb).
  - rewrite lookup_app_r by (rewrite length_take, length_bits4; lia). rewrite length_take, length_bits4. by rewrite lookup_replicate_2 by lia.
Qed.

(** The base need not be sized. *)
Lemma base_long b :
  base_const_ok b = true -> unknown (bits4 b) = false -> - 2 ^ 63 <= signed_value (has_sign_ b) (bits4 b) < 2 ^ 63 ->
  as_long b = signed_value (has_sign_ b) (bits4 b).
Proof.
  intros Hok%Nat.ltb_lt Hk Hr. apply as_long_range; [|done]. rewrite signed_num. apply number_rep.
  split; [|lia]. rewrite to_bit4_unknown in Hk. by apply negb_false_iff.
Qed.

Lemma select_folds v b w s :
  const_ok v = true -> sized w = true -> base_const_ok b = true ->
  news (NetESelect_eval_constants v (Some b) w s) (fun r =>
    const_ok r = true /\ nbits_ r = w /\ has_sign_ r = s /\
    (unknown (bits4 b) = false -> - 2 ^ 63 <= signed_value (has_sign_ b) (bits4 b) < 2 ^ 63 ->
     bits4 r = select_value w (bits4 v) (has_sign_ b) (bits4 b))).
Proof.
  intros Hok Hw Hb. unfold NetESelect_eval_constants. cbn [mbind option_bind].
  destruct (select_bits_value v (as_long b) Vx w s) as (l & -> & Hl & Hlook). cbn [mbind option_bind]. apply news_new.
  destruct (fresh_folds l w s (map to_bit4 l) Hw Hl eq_refl) as (H1 & H2 & H3 & H4). split_and!; try done.
  intros Hk Hr. rewrite H4. unfold select_value. rewrite Hk. rewrite (base_long b Hb Hk Hr) in Hlook.
  apply no_wrap in Hlook; [|done|by apply sized_bound|by apply sized_bound, ok_sized].
  apply (bits_are _ _ w Hl); [apply length_window|]. intros i a Ha.
  assert (i < w)%nat as Hi by (rewrite <- Hl; by apply lookup_lt_Some in Ha). rewrite Hlook in Ha by done. cbv zeta in Ha. injection Ha as <-.
  unfold window. set (h := fun j => _). change (map h (seq 0 w)) with (h <$> seq 0 w). rewrite list_lookup_fmap, lookup_seq_lt by done.
  unfold h. cbn [fmap option_fmap option_map Nat.add]. f_equal. unfold bit_atZ. set (k := _ + Z.of_nat i).
  destruct (Z.leb_spec 0 k) as [Hk0|]; cbn [andb]; [|done]. destruct (Z.ltb_spec k (Z.of_nat (nbits_ v))).
  - symmetry. apply bits4_nth. lia.
  - cbn [to_bit4]. unfold bit_at. apply nth_overflow. rewrite length_bits4. lia.
Qed.

(** *** Concatenations *)

Lemma mod_block k gap q : (q < gap)%nat -> ((k * gap + q) mod gap = q)%nat.
Proof. intros H. rewrite Nat.add_comm, Nat.Div0.mod_add. by apply Nat.mod_small. Qed.

Lemma same_flags_trans a b c : same_flags a b -> same_flags b c -> same_flags a c.
Proof. intros [Hb Nb] [Hc Nc]. split; [by rewrite Hc, Hb|congruence]. Qed.

(** One bit of an operand, in every repetition. *)
Lemma repeat_set n gap cur b val :
  (cur < gap)%nat -> nbits_ val = (n * gap)%nat ->
  exists r, for_ 0 n (fun rep val => set val (rep * gap + cur) b) val = Some r /\ same_flags val r /\
    forall p, get r p = if (p <? n * gap)%nat && (p mod gap =? cur)%nat then Some b else get val p.
Proof.
  intros Hc Hn.
  destruct (returns_for (fun k r => same_flags val r /\
    forall p, get r p = if (p <? k * gap)%nat && (p mod gap =? cur)%nat then Some b else get val p)
    (fun rep val => set val (rep * gap + cur) b) 0 n val) as (r & Hr & Hinv).
  - split; [by destruct val|]. intros p. done.
  - intros k u Hk [[Hf Hnu] Hg]. assert (k * gap + cur < n * gap)%nat as Hlt by nia.
    rewrite set_returns by lia. apply returns_ret. split.
    + split; [by rewrite Hf|]. unfold nbits_ in *. cbn [with_bits bits_]. by rewrite length_insert.
    + intros p. rewrite get_with. destruct (decide (p = k * gap + cur)%nat) as [->|Hp].
      * rewrite list_lookup_insert_eq by (fold (nbits_ u); lia).
        rewrite mod_block, Nat.eqb_refl by done. by rewrite (proj2 (Nat.ltb_lt _ _)) by nia.
      * rewrite list_lookup_insert_ne by done. fold (get u p). rewrite Hg.
        destruct (Nat.ltb_spec p (k * gap)), (Nat.ltb_spec p (S k * gap)); cbn [andb]; try (done || lia).
        replace p with (k * gap + (p - k * gap))%nat in * by lia. rewrite mod_block by lia.
        rewrite (proj2 (Nat.eqb_neq _ _)); [done|lia].
  - exists r. split; [done|]. exact Hinv.
Qed.

(** The result holds the bits [S] in every repetition, and x above them. *)
Definition holds (n gap : nat) (S : list V) (val : verinum) : Prop :=
  same_flags (verinum_fill Vx (n * gap) true) val /\
  forall p, (p < n * gap)%nat -> get val p = Some (nth (p mod gap) S Vx).

Lemma holds_length n gap S val : holds n gap S val -> nbits_ val = (n * gap)%nat.
Proof. intros [[_ H] _]. rewrite H. apply length_replicate. Qed.

Lemma operand_loop n gap tmp S val :
  (0 < n)%nat -> (length S + nbits_ tmp <= gap)%nat -> holds n gap S val ->
  returns (for_ 0 (nbits_ tmp) (fun bit '(val, cur) =>
      b ← get tmp bit;
      val ← for_ 0 n (fun rep val => set val (rep * gap + cur) b) val;
      Some (val, cur + 1)%nat) (val, length S))
    (fun p => holds n gap (S ++ bits_ tmp) (fst p) /\ snd p = (length S + nbits_ tmp)%nat).
Proof.
  intros Hn Hgap Hval.
  eapply returns_mono; [apply (returns_for (fun k p => holds n gap (S ++ take k (bits_ tmp)) (fst p) /\ snd p = (length S + k)%nat))|].
  - cbn. by rewrite app_nil_r, Nat.add_0_r.
  - intros k [u cur] Hk [Hu Hcur]. cbn [fst snd] in *. subst cur. destruct (get_some tmp k) as [b Hb]; [lia|]. rewrite Hb. cbn [mbind option_bind].
    destruct (repeat_set n gap (length S + k) b u) as (r & -> & Hsame & Hg); [lia|by apply (holds_length _ _ (S ++ take k (bits_ tmp)))|].
    cbn [mbind option_bind]. apply returns_ret. cbn [fst snd]. split; [|lia]. destruct Hu as [Hfu Hgu]. split.
    + by apply (same_flags_trans _ u).
    + intros p Hp. rewrite Hg, (proj2 (Nat.ltb_lt _ _) Hp). cbn [andb].
      assert (take (Datatypes.S k) (bits_ tmp) = take k (bits_ tmp) ++ [b]) as -> by (by apply take_S_r).
      rewrite app_assoc. assert (length (S ++ take k (bits_ tmp)) = length S + k)%nat as Hl.
      { rewrite length_app, length_take. fold (nbits_ tmp). lia. }
      destruct (Nat.eqb_spec (p mod gap) (length S + k)) as [->|Hne].
      * by rewrite app_nth2, Hl, Nat.sub_diag by lia.
      * rewrite Hgu by done. f_equal. destruct (Nat.lt_ge_cases (p mod gap) (length S + k)).
        -- by rewrite (app_nth1 (S ++ _) [b]) by lia.
        -- by rewrite !nth_overflow by (rewrite ?length_app, ?length_take; cbn; fold (nbits_ tmp); lia).
  - intros [u cur]. cbn [fst snd Nat.add]. unfold nbits_. by rewrite take_ge by done.
Qed.

(** The operands that are constants. *)
Definition const_width (e : NetExpr) : nat := match const_of e with Some v => nbits_ v | None => 0%nat end.

Lemma concat_loop_spec n gap vals S val str :
  (0 < n)%nat -> (length S + sum_list_with const_width vals <= gap)%nat -> holds n gap S val ->
  returns (concat_loop n gap vals val (length S) str) (fun o =>
    match o with
    | None => Exists (fun e => const_of e = None) vals
    | Some (r, flag) => exists vs, vals = map NetEConst vs /\ holds n gap (S ++ concat (map bits_ vs)) r /\
        flag = str && forallb string_flag_ vs
    end).
Proof.
  intros Hn. revert S val str. induction vals as [|e vals IH]; intros S val str Hgap Hval; cbn [concat_loop].
  { apply returns_ret. exists []. cbn. rewrite app_nil_r, andb_true_r. done. }
  destruct e as [tmp|?|?|?|?|?|?]; try (apply returns_ret; by left). cbn [sum_list_with] in Hgap. unfold const_width in Hgap at 1. cbn [const_of] in Hgap.
  eapply returns_bind; [apply (operand_loop n gap tmp S val Hn); [lia|done]|]. intros [u cur] [Hu Hcur]. cbn [fst snd] in *. subst cur.
  replace (length S + nbits_ tmp)%nat with (length (S ++ bits_ tmp)) by (rewrite length_app; done).
  eapply returns_mono; [apply IH; [rewrite length_app; fold (nbits_ tmp); lia|done]|].
  intros [[r flag]|] H; [|by right]. destruct H as (vs & -> & Hr & ->). exists (tmp :: vs). cbn [map concat forallb].
  rewrite app_assoc. split_and!; [done|done|]. by rewrite andb_assoc.
Qed.

Lemma lookup_concat_replicate {A} n (l : list A) p :
  (p < n * length l)%nat -> concat (replicate n l) !! p = l !! (p mod length l)%nat.
Proof.
  revert p. induction n as [|n IH]; intros p Hp; [lia|]. cbn [replicate concat].
  destruct (Nat.lt_ge_cases p (length l)) as [Hl|Hl].
  - rewrite lookup_app_l by done. by rewrite Nat.mod_small.
  - rewrite lookup_app_r by done. rewrite IH by lia. f_equal.
    replace p with ((p - length l) + 1 * length l)%nat at 2 by lia. by rewrite Nat.Div0.mod_add.
Qed.

Lemma holds_all n S val :
  (0 < length S)%nat -> holds n (length S) S val -> bits_ val = concat (replicate n S).
Proof.
  intros HS H. pose proof (holds_length _ _ _ _ H) as Hn. destruct H as [_ H].
  assert (length (concat (replicate n S)) = n * length S)%nat as Hl.
  { clear. induction n as [|n IH]; [done|]. cbn [replicate concat]. rewrite length_app, IH. lia. }
  apply list_eq_same_length with (n * length S)%nat; [done|done|]. intros p a b Hp Ha Hb.
  rewrite lookup_concat_replicate in Hb by done. specialize (H p Hp). unfold get in H. rewrite H in Ha. injection Ha as <-.
  by rewrite (nth_lookup_Some _ _ _ _ Hb).
Qed.

Lemma sum_list_with_reverse {A} (f : A -> nat) l : sum_list_with f (reverse l) = sum_list_with f l.
Proof. induction l as [|x l IH]; [done|]. rewrite reverse_cons, sum_list_with_app, IH. cbn. lia. Qed.

Lemma length_concat_bits vs : length (concat (map bits_ vs)) = sum_list_with nbits_ vs.
Proof. induction vs as [|v vs IH]; [done|]. cbn. by rewrite length_app, IH. Qed.

Lemma concat_value_bits n vs : concat_value n (map (fun v => bits4 v) vs) = map to_bit4 (concat (replicate n (concat (map bits_ (reverse vs))))).
Proof.
  unfold concat_value. rewrite concat_map. f_equal. assert (forall A B (f : A -> B) k x, map f (replicate k x) = replicate k (f x)) as Hrep.
  { intros A B f k x. induction k as [|k IH]; [done|]. cbn. by rewrite IH. }
  rewrite Hrep. f_equal. rewrite concat_map, map_map. f_equal. rewrite <- fmap_reverse. done.
Qed.

(** Strings one after the other are a string. *)
Lemma strings_ok vs :
  Forall (fun v => const_ok v = true) vs -> forallb string_flag_ vs = true ->
  (sum_list_with nbits_ vs mod 8 = 0)%nat.
Proof.
  induction 1 as [|v vs Hv _ IH]; intros Hs; [done|]. cbn [forallb] in Hs. apply andb_true_iff in Hs as [Hs Hss].
  apply const_ok_spec in Hv as (_ & _ & _ & Hv). destruct (Hv Hs) as [_ H8]. specialize (IH Hss). cbn [sum_list_with].
  by rewrite Nat.Div0.add_mod, H8, IH.
Qed.

Lemma restring v :
  has_sign_ v = false -> is_defined v = true -> (nbits_ v mod 8 = 0)%nat -> (0 < nbits_ v)%nat ->
  (str ← as_string v; verinum_of_string str) = Some (mk_verinum (bits_ v) true false false true).
Proof.
  intros Hs Hd H8 Hn. apply (string_spec v (num v)); [|done|done]. apply number_rep. split; [done|lia].
Qed.

Lemma concat_folds vs n w s :
  Forall (fun v => const_ok v = true) vs -> (0 < n)%nat -> sized w = true -> w = (n * sum_list_with nbits_ vs)%nat ->
  news (NetEConcat_eval_arguments (map NetEConst vs) n s (sum_list_with nbits_ vs))
    (folds_to w s (concat_value n (map (fun v => bits4 v) vs))).
Proof.
  intros Hok Hn Hw ->. set (gap := sum_list_with nbits_ vs) in *. unfold NetEConcat_eval_arguments.
  replace (reverse (map NetEConst vs)) with (map NetEConst (reverse vs)) by apply fmap_reverse.
  eapply news_bind; [apply (concat_loop_spec n gap (map NetEConst (reverse vs)) [] (verinum_fill Vx (n * gap) true) true Hn)|].
  { cbn [length Nat.add]. replace (sum_list_with const_width _) with (sum_list_with nbits_ (reverse vs)); [by rewrite sum_list_with_reverse|].
    induction (reverse vs) as [|v l IH]; [done|]. cbn. by rewrite IH. }
  { split; [done|]. intros p Hp. rewrite nth_overflow by (cbn; lia). by apply lookup_replicate_2. }
  intros [[r flag]|] H.
  2:{ exfalso. clear - H. induction (reverse vs) as [|v l IH]; inversion H; subst; [done|auto]. }
  destruct H as (vs' & Hvs' & Hr & ->). assert (vs' = reverse vs) as ->.
  { clear - Hvs'. revert vs' Hvs'. induction (reverse vs) as [|v l IH]; intros [|v' vs'] H; try done. cbn in H. injection H as -> H. f_equal. auto. }
  clear Hvs'. cbn [app] in Hr. set (S := concat (map bits_ (reverse vs))) in *.
  assert (length S = gap) as Hl by (unfold S; by rewrite length_concat_bits, sum_list_with_reverse).
  pose proof (holds_length _ _ _ _ Hr) as Nr. pose proof (sized_pos _ Hw) as Hpos.
  assert (bits_ r = concat (replicate n S)) as Hb by (apply holds_all; rewrite Hl; [lia|done]).
  assert (bits4 r = concat_value n (map (fun v => bits4 v) vs)) as Hb4 by (by rewrite Hb, concat_value_bits).
  destruct Hr as [[Hflags _] _]. assert (has_sign_ r = false /\ has_len_ r = true /\ is_single_ r = false /\ string_flag_ r = false) as (Sr & Lr & Sir & Str) by (by rewrite Hflags).
  cbn [andb]. destruct (forallb string_flag_ (reverse vs)) eqn:Estr.
  - assert (forallb string_flag_ vs = true) as Es.
    { rewrite forallb_forall in *. intros v Hv. apply Estr. apply list_elem_of_In. apply elem_of_reverse. by apply list_elem_of_In. }
    pose proof (strings_ok vs Hok Es) as H8. fold gap in H8.
    assert (is_defined r = true) as Hd.
    { apply negb_false_iff. rewrite <- to_bit4_unknown, Hb4. apply known_concat_value. clear - Hok Es.
      induction Hok as [|v vs Hv _ IH]; [constructor|]. cbn in Es. apply andb_true_iff in Es as [E1 E2]. constructor; [|auto].
      apply const_ok_spec in Hv as (_ & _ & _ & Hv). by apply defined_known, Hv. }
    assert (nbits_ r mod 8 = 0)%nat as Hr8 by (rewrite Nr, Nat.Div0.mul_mod, H8, Nat.mul_0_r; done).
    rewrite restring by (done || lia). cbn [mbind option_bind]. apply news_new. split_and!; try done.
    apply with_sign_ok, const_ok_spec. cbn. unfold nbits_, is_defined in *. cbn. rewrite Nr. split_and!; try done.
    intros _. split; [exact Hd|congruence].
  - cbn [mbind option_bind]. apply news_new. split_and!; try done. apply with_sign_ok, ok_fresh; try done. by rewrite Nr.
Qed.

Lemma concat_not_constant ps n s gap :
  (0 < n)%nat -> (sum_list_with const_width ps <= gap)%nat -> Exists (fun e => const_of e = None) ps ->
  NetEConcat_eval_arguments ps n s gap = null.
Proof.
  intros Hn Hgap Hex. unfold NetEConcat_eval_arguments.
  destruct (concat_loop_spec n gap (reverse ps) [] (verinum_fill Vx (n * gap) true) true Hn) as (o & Ho & H).
  - cbn [length Nat.add]. by rewrite sum_list_with_reverse.
  - split; [done|]. intros p Hp. rewrite nth_overflow by (cbn; lia). by apply lookup_replicate_2.
  - cbn [length] in Ho. rewrite Ho. cbn [mbind option_bind]. destruct o as [[r flag]|]; [|done]. destruct H as (vs & Hvs & _).
    exfalso. apply (f_equal reverse) in Hvs. rewrite reverse_involutive in Hvs. subst ps.
    apply Exists_exists in Hex as (e & He & Hc). apply elem_of_reverse, list_elem_of_fmap in He as (v & -> & _). done.
Qed.
