(* ===== verification/EvalTree.v ===== *)
(** * Folding constant expressions ([ivl/eval_tree.cc], [ivl/netmisc.cc])

    [eval_tree] evaluates the operands of an expression in place and returns a new
    expression that replaces it, or the null pointer; [eval_expr] puts the result
    in its place.  In the definitions [eval_tree e] is the object as it is left and
    what is returned; [None] is an [ivl_assert] that fails.

    [folding_keeps_value]: for a well-formed expression no assertion fails, and the
    expression that replaces it has the same width, sign and value.
    [constants_fold]: an expression without leaves becomes a constant.
    [folding_agrees_with_execution]: the constant that a folded operator is replaced
    by is what the instruction of the simulator leaves on its stack. *)

From Stdlib Require Import ZArith Lia Bool.
From stdpp Require Import base numbers list.
From S2P Require Import Prelude Bit4 Words Vec4 Vec4Move Vec4Arith VecRep Opcodes OpSelect Verinum NetExpr ConstFold.

Open Scope nat_scope.

(** ** Definitions *)

(** [tmp = expr->eval_tree(); if (tmp != 0) expr = tmp;] *)
Definition place (p : option (NetExpr * option NetExpr)) : option NetExpr :=
  '(this, tmp) ← p;
  Some (match tmp with Some e => e | None => this end).

Definition as_expr (m : option (option verinum)) : option (option NetExpr) :=
  o ← m; Some (option_map NetEConst o).

(** The rest of [NetEBAdd::eval_tree] when the sum is not constant:
    [(a + 2) - 1] becomes [a + 1]. *)
Definition same_add_op (a b : add_op) : bool :=
  match a, b with OpPlus, OpPlus | OpMinus, OpMinus => true | _, _ => false end.

Definition NetEBAdd_combine (op : add_op) (left right : NetExpr) (wid : nat) (sign : bool) : option NetExpr :=
  match left, right with
  | NetEBinary (NetEBAdd se_op) se_left (NetEConst lval) _ _, NetEConst rval =>
      _ ← assert_widths wid lval rval;
      val ← (if same_add_op op se_op then verinum_add rval lval else verinum_sub rval lval);
      val ← cast_to_width val wid;
      Some (NetEBinary (NetEBAdd op) se_left (NetEConst val) wid sign)
  | _, _ => Some (NetEBinary (NetEBAdd op) left right wid sign)
  end.

(** One round of the loop of [NetEConcat::eval_tree]: the operand, what it adds to
    [gap], and whether it is an error. *)
Definition NetEConcat_operand (p : NetExpr) (evaluated : option (NetExpr * option NetExpr)) : option (NetExpr * nat * bool) :=
  match const_of p with
  | Some _ => Some (p, expr_width p, false)
  | None =>
      '(this, tmp) ← evaluated;
      match tmp with
      | None => Some (this, 0, false)
      | Some expr => Some (expr, expr_width expr, negb (has_width expr) || (expr_width expr =? 0))
      end
  end.

(** The loop: the operands, [gap] and [local_errors]. *)
Definition NetEConcat_operands (eval : NetExpr -> option (NetExpr * option NetExpr)) :=
  fix operands (ps : list NetExpr) : option (list NetExpr * nat * bool) :=
    match ps with
    | [] => Some ([], 0, false)
    | p :: ps =>
        '(p, width, error) ← NetEConcat_operand p (eval p);
        '(ps, gap, local_errors) ← operands ps;
        Some (p :: ps, width + gap, error || local_errors)
    end.

Definition NetEConcat_finish (ps : list NetExpr) (gap : nat) (local_errors : bool) (n : nat)
    (t : ivl_variable_type_t) (w : nat) (s : bool) : option (NetExpr * option NetExpr) :=
  if local_errors then Some (NetEConcat ps n t w s, None)
  else res ← as_expr (NetEConcat_eval_arguments ps n s gap); Some (NetEConcat ps n t w s, res).

Definition NetESelect_finish (e : NetExpr) (base : option NetExpr) (w : nat) (s : bool) : option (NetExpr * option NetExpr) :=
  let this := NetESelect e base w s in
  match base with
  | None =>
      match const_of e with
      | None => Some (this, None)
      | Some v => res ← as_expr (NetESelect_eval_constants v None w s); Some (this, res)
      end
  | Some b =>
      match const_of b with
      | None => Some (this, None)
      | Some bv =>
          match const_of e with
          | None => Some (this, None)
          | Some v => res ← as_expr (NetESelect_eval_constants v (Some bv) w s); Some (this, res)
          end
      end
  end.

Definition NetEBinary_finish (op : binary_op) (l r : NetExpr) (w : nat) (s : bool) : option (NetExpr * option NetExpr) :=
  res ← as_expr (binary_eval_arguments op w s l r);
  match res with
  | Some _ => Some (NetEBinary op l r w s, res)
  | None =>
      this ← (match op with
              | NetEBAdd op => NetEBAdd_combine op l r w s
              | _ => Some (NetEBinary op l r w s)
              end);
      Some (this, None)
  end.

Fixpoint eval_tree (e : NetExpr) : option (NetExpr * option NetExpr) :=
  match e with
  | NetEConst _ | NetEOther _ _ _ _ => Some (e, None)
  | NetEBinary op l r w s =>
      l ← place (eval_tree l);
      r ← place (eval_tree r);
      NetEBinary_finish op l r w s
  | NetEConcat ps n t w s =>
      '(ps, gap, local_errors) ← NetEConcat_operands eval_tree ps;
      NetEConcat_finish ps gap local_errors n t w s
  | NetESelect e base w s =>
      e ← place (eval_tree e);
      base ← (match base with
              | None => Some None
              | Some b => b ← place (eval_tree b); Some (Some b)
              end);
      NetESelect_finish e base w s
  | NetETernary c t f w s =>
      c ← place (eval_tree c);
      match const_logical c with
      | C_0 => f ← place (eval_tree f); Some (NetETernary c t f w s, Some f)
      | C_1 => t ← place (eval_tree t); Some (NetETernary c t f w s, Some t)
      | C_X =>
          t ← place (eval_tree t);
          f ← place (eval_tree f);
          res ← as_expr (blended_arguments_ s t f);
          Some (NetETernary c t f w s, res)
      | C_NON => Some (NetETernary c t f w s, None)
      end
  | NetEUnary op e w s =>
      e ← place (eval_tree e);
      res ← as_expr (unary_eval_arguments op w e);
      Some (NetEUnary op e w s, res)
  end.

Definition eval_expr (e : NetExpr) : option NetExpr := place (eval_tree e).

(** ** Lemmas *)

Open Scope Z_scope.

(** *** What replaces an expression

    [e'] can stand for [e]: it is well-formed, has the same width and sign, and
    wherever [e] is safe the same value; in a strict context its type is right. *)
Definition keeps (e e' : NetExpr) : Prop :=
  well_formed e' = true /\ expr_width e' = expr_width e /\ has_sign e' = has_sign e /\
  forall env strict, safe env strict e ->
    denote env e' = denote env e /\ (strict = true -> expr_type e' = IVL_VT_BOOL -> unknown (denote env e') = false).

Lemma keeps_refl e : well_formed e = true -> keeps e e.
Proof. intros H. split_and!; try done. intros env strict Hs. split; [done|]. intros ->. by apply two_state. Qed.

Lemma keeps_operand e e' env strict : well_formed e = true -> keeps e e' -> safe env strict e -> length (denote env e') = expr_width e'.
Proof. intros Hw (_ & H2 & _ & H4) Hs. destruct (H4 env strict Hs) as [-> _]. rewrite H2. by apply (length_denote env strict). Qed.

(** A constant that has been folded. *)
Lemma keeps_const e v x :
  folds_to (expr_width e) (has_sign e) x v -> (forall env strict, safe env strict e -> denote env e = x) -> keeps e (NetEConst v).
Proof.
  intros (H1 & H2 & H3 & H4) Hx. split_and!; try done. intros env strict Hs. cbn [denote]. rewrite H4. split.
  - symmetry. by apply (Hx env strict).
  - intros _ Ht. rewrite <- H4. by apply const_known.
Qed.

Lemma wf_has_width e : well_formed e = true -> has_width e = true.
Proof.
  induction e as [v|i t w s|op l r w s IHl IHr|ps n t w s _|e w s _|e b w s _ _|c t f w s _ _ _|op e w s _]
    using NetExpr_induction; intros Hwf; cbn [well_formed] in Hwf; split_ok; try done.
  - by apply ok_len.
  - destruct op; cbn [has_width]; rewrite ?IHl, ?IHr by done; done.
Qed.

(** *** Operators with evaluated operands *)

Lemma binary_node_keeps op l r l' r' w s :
  well_formed (NetEBinary op l r w s) = true -> keeps l l' -> keeps r r' ->
  keeps (NetEBinary op l r w s) (NetEBinary op l' r' w s).
Proof.
  intros Hwf (Wl & El & Sl & Hl) (Wr & Er & Sr & Hr). cbn [well_formed] in Hwf. split_ok. split_and!; try done.
  { cbn [well_formed]. rewrite Wl, Wr, El, Er, Sl, Sr. by apply andb_true_intro. }
  intros env strict Hs. assert (exists st, safe env st l /\ safe env st r /\ (forall c, op = NetEBComp c -> st = strict || is_order c)) as (st & Hsl & Hsr & Hst).
  { destruct op; try (exists false; split_and!; [apply Hs|apply Hs|done]).
    eexists. split_and!; [apply Hs|apply Hs|]. by intros c [= ->]. }
  destruct (Hl env st Hsl) as [Dl Tl], (Hr env st Hsr) as [Dr Tr]. cbn [denote]. rewrite Dl, Dr, Sl, Sr. split; [done|].
  intros -> Ht. destruct op; try done. rewrite (Hst op eq_refl) in Tl, Tr. cbn [orb] in Tl, Tr. cbn [expr_type] in Ht. cbn [binary_value].
  rewrite unknown_cons, orb_false_r. rewrite Dl in Tl. rewrite Dr in Tr.
  apply comp_bool in Ht as [->|[->|[Bl Br]]]; [apply known_test|apply known_not, known_test|apply known_comp; auto].
Qed.

Lemma unary_node_keeps op e e' w s :
  well_formed (NetEUnary op e w s) = true -> keeps e e' -> keeps (NetEUnary op e w s) (NetEUnary op e' w s).
Proof.
  intros Hwf He. pose proof He as (We & Ee & Se & Hd). cbn [well_formed] in Hwf. split_ok. split_and!; try done.
  { cbn [well_formed]. rewrite We, Ee, Se. done. }
  intros env strict Hs. assert (safe env (match op with NetECast2 => false | _ => strict end) e) as Hse by (by destruct op).
  destruct (Hd env _ Hse) as [De Te]. cbn [denote]. rewrite De, Se. split; [done|]. intros -> Ht.
  assert (0 < length (denote env e))%nat.
  { rewrite (length_denote env _ e) by done. by apply sized_pos, wf_sized. }
  rewrite De in Te. destruct op; try (apply known_unary; [by apply Te|done]). by apply known_cast2.
Qed.

Lemma ternary_node_keeps c t f c' t' f' w s :
  well_formed (NetETernary c t f w s) = true -> keeps c c' -> keeps t t' -> keeps f f' ->
  keeps (NetETernary c t f w s) (NetETernary c' t' f' w s).
Proof.
  intros Hwf (Wc & _ & _ & Hc) (Wt & Et & St & Ht) (Wf & Ef & Sf & Hf). cbn [well_formed] in Hwf. split_ok. split_and!; try done.
  { cbn [well_formed]. rewrite Wc, Wt, Wf, Et, Ef, St, Sf. cbn [andb]. repeat (apply andb_true_intro; split);
      (by apply Nat.eqb_eq) || by apply eqb_true_iff. }
  intros env strict (Hsc & Hst & Hsf). destruct (Hc env strict Hsc) as [Dc Tc]. cbn [denote]. rewrite Dc.
  assert (truth (denote env c) <> BIT4_0 -> denote env t' = denote env t) as Dt by (intros H9; by apply (Ht env strict), Hst).
  assert (truth (denote env c) <> BIT4_1 -> denote env f' = denote env f) as Df by (intros H9; by apply (Hf env strict), Hsf).
  split.
  - unfold ternary_value. destruct (truth (denote env c)); rewrite ?Dt, ?Df; done.
  - intros -> Hty. cbn [expr_type] in Hty. apply ternary_bool in Hty as (Bc & Bt & Bf). rewrite Dc in Tc.
    apply known_ternary; [by apply Tc| |].
    + intros H9. by apply (Ht env true (Hst H9)).
    + intros H9. by apply (Hf env true (Hsf H9)).
Qed.

(** The base of a select: a constant stays as it is. *)
Definition base_ok (b : NetExpr) : bool := match b with NetEConst v => base_const_ok v | b => well_formed b end.

Definition keeps_base (b b' : NetExpr) : Prop :=
  base_ok b' = true /\ has_sign b' = has_sign b /\ forall env, safe env false b -> denote env b' = denote env b.

Lemma wf_base_ok b : well_formed b = true -> base_ok b = true.
Proof. intros H. destruct b; try done. apply Nat.ltb_lt. by apply ok_pos. Qed.

Lemma wf_select e b w s :
  well_formed (NetESelect e (Some b) w s) = well_formed e && sized w && base_ok b.
Proof. by destruct b. Qed.

Lemma keeps_keeps_base b b' : keeps b b' -> keeps_base b b'.
Proof.
  intros (H1 & _ & H3 & H4). split_and!; [by apply wf_base_ok|done|]. intros env Hs. by apply (H4 env false).
Qed.

Lemma extend_node_keeps e e' w s :
  well_formed (NetESelect e None w s) = true -> keeps e e' -> keeps (NetESelect e None w s) (NetESelect e' None w s).
Proof.
  intros Hwf He. pose proof He as (We & Ee & Se & Hd). cbn [well_formed] in Hwf. split_ok. split_and!; try done.
  { cbn [well_formed]. rewrite We. by rewrite andb_true_r. }
  intros env strict (Hs & _). destruct (Hd env strict Hs) as [De Te]. cbn [denote]. rewrite De. split; [done|]. intros -> Ht.
  rewrite De in Te. apply known_resize; [by apply Te|]. rewrite (length_denote env true e) by done. by apply sized_pos, wf_sized.
Qed.

Lemma select_node_keeps e e' b b' w s :
  well_formed (NetESelect e (Some b) w s) = true -> keeps e e' -> keeps_base b b' ->
  keeps (NetESelect e (Some b) w s) (NetESelect e' (Some b') w s).
Proof.
  intros Hwf He (Wb & Sb & Db). pose proof He as (We & Ee & Se & Hd). rewrite wf_select in Hwf. split_ok. split_and!; try done.
  { rewrite wf_select, We, Wb. by rewrite andb_true_r. }
  intros env strict (Hs & Hsb & Hbase). destruct (Hd env strict Hs) as [De Te]. cbn [denote]. rewrite De, Sb, (Db env Hsb). split; [done|].
  intros -> Ht. rewrite De in Te. apply known_select; [by apply Te|]. by rewrite (length_denote env true e).
Qed.

(** A new constant in the place of a node. *)
Lemma as_expr_news e m x this :
  news m (folds_to (expr_width e) (has_sign e) x) -> (forall env strict, safe env strict e -> denote env e = x) ->
  returns (place (res ← as_expr m; Some (this, res))) (keeps e).
Proof.
  intros (o & Ho & v & -> & Hv) Hx. unfold as_expr. rewrite Ho. cbn. apply returns_ret. by apply keeps_const with x.
Qed.

Lemma finish_select_keeps e e' base base' w s :
  well_formed (NetESelect e base w s) = true -> keeps e e' ->
  match base, base' with
  | None, None => True
  | Some b, Some b' => keeps_base b b'
  | _, _ => False
  end ->
  returns (place (NetESelect_finish e' base' w s)) (keeps (NetESelect e base w s)).
Proof.
  intros Hwf He Hb. pose proof He as (We & Ee & Se & Hd). unfold NetESelect_finish.
  destruct base as [b|], base' as [b'|]; try done.
  - pose proof (select_node_keeps e e' b b' w s Hwf He Hb) as Hnode.
    destruct (const_of b') as [bv|] eqn:Eb; [|by apply returns_ret].
    destruct (const_of e') as [v|] eqn:Ev; [|by apply returns_ret].
    apply const_of_some in Eb as ->. apply const_of_some in Ev as ->. destruct Hb as (Wb & Sb & Db).
    rewrite wf_select in Hwf. apply andb_true_iff in Hwf as [[Hwe Hw]%andb_true_iff _].
    destruct (select_folds v bv w s We Hw Wb) as (o & Ho & r & -> & H1 & H2 & H3 & H4). unfold as_expr. rewrite Ho. cbn.
    apply returns_ret. split_and!; try done. intros env strict (Hs & Hsb & Hbase).
    cbn [denote]. destruct (Hd env strict Hs) as [<- _], Hbase as (Hk & Hr & _). rewrite <- (Db env Hsb), <- Sb in *. split; [by apply H4|].
    intros _. by apply const_known.
  - destruct (const_of e') as [v|] eqn:Ev; [|by apply returns_ret, extend_node_keeps].
    apply const_of_some in Ev as ->. cbn [well_formed] in Hwf. apply andb_true_iff in Hwf as [[Hwe Hw]%andb_true_iff _].
    apply as_expr_news with (resize_value s w (bits4 v)); [by apply extend_folds|].
    intros env strict (Hs & _). cbn [denote]. by destruct (Hd env strict Hs) as [<- _].
Qed.

Lemma finish_unary_keeps op e e' w s :
  well_formed (NetEUnary op e w s) = true -> keeps e e' ->
  returns (place (res ← as_expr (unary_eval_arguments op w e'); Some (NetEUnary op e' w s, res))) (keeps (NetEUnary op e w s)).
Proof.
  intros Hwf He. pose proof He as (We & Ee & Se & Hd). destruct (const_of e') as [v|] eqn:Ev.
  - apply const_of_some in Ev as ->. cbn [well_formed] in Hwf. split_ok.
    apply as_expr_news with (unary_value op (has_sign e) w (bits4 v)).
    + cbn in Ee, Se. rewrite <- Se. apply unary_folds; [done|]. by rewrite Ee, Se.
    + intros env strict Hs. cbn [denote]. f_equal.
      assert (safe env (match op with NetECast2 => false | _ => strict end) e) as Hse by (by destruct op).
      by destruct (Hd env _ Hse) as [<- _].
  - replace (unary_eval_arguments op w e') with null.
    + apply returns_ret. by apply unary_node_keeps.
    + unfold unary_eval_arguments, NetEUReduce_eval_arguments, NetECast_eval_arguments, NetEUnary_eval_arguments. rewrite Ev. by destruct op.
Qed.

(** [(a + 2) - 1] and [a + 1]. *)
Lemma arith_x f x y : unknown x || unknown y = true -> bits_arith f x y = all_x (length x).
Proof. unfold bits_arith. fold (unknown x) (unknown y). by intros ->. Qed.

Lemma arith_known f x y :
  unknown x || unknown y = false -> bits_arith f x y = bits_of_Z (length x) (f (bits_to_Z x) (bits_to_Z y)).
Proof. unfold bits_arith. fold (unknown x) (unknown y). by intros ->. Qed.

Lemma length_all_x n : length (all_x n) = n.
Proof. apply length_replicate. Qed.

Lemma unknown_all_x n : (0 < n)%nat -> unknown (all_x n) = true.
Proof. intros H. destruct n; [lia|done]. Qed.

Lemma arith_combine f g h x y z :
  modular f -> (forall a b c, f (g a b) c = f a (h c b)) -> length z = length x -> (0 < length x)%nat ->
  bits_arith f (bits_arith g x y) z = bits_arith f x (bits_arith h z y).
Proof.
  intros Hf Heq Hlen Hpos. destruct (unknown x) eqn:Ux.
  { rewrite (arith_x g), (arith_x f x) by (by rewrite Ux). rewrite arith_x, length_all_x; [done|by rewrite unknown_all_x]. }
  destruct (unknown y) eqn:Uy.
  { rewrite (arith_x g), (arith_x h) by (by rewrite Uy, orb_true_r). rewrite (arith_x f x) by (rewrite unknown_all_x by lia; apply orb_true_r).
    rewrite arith_x, length_all_x; [done|by rewrite unknown_all_x]. }
  rewrite (arith_known g) by (by rewrite Ux, Uy). destruct (unknown z) eqn:Uz.
  { rewrite (arith_x h) by (by rewrite Uz). rewrite (arith_x f x) by (rewrite unknown_all_x by lia; apply orb_true_r).
    rewrite arith_x by (by rewrite Uz, orb_true_r). by rewrite length_bits_of_Z. }
  rewrite (arith_known h) by (by rewrite Uz, Uy). rewrite !arith_known by (by rewrite ?known_bits_of_Z, ?Uz, ?Ux).
  rewrite length_bits_of_Z, !bits_to_of_Z, Hlen. apply bits_of_Z_mod.
  transitivity (f (g (bits_to_Z x) (bits_to_Z y)) (bits_to_Z z) mod 2 ^ Z.of_nat (length x)).
  - apply Hf; [apply Z.mod_mod; lia|done].
  - rewrite Heq. symmetry. apply Hf; [done|apply Z.mod_mod; lia].
Qed.

Lemma combine_value op se_op x y z w s :
  length z = length x -> (0 < length x)%nat ->
  binary_value (NetEBAdd op) s s w (binary_value (NetEBAdd se_op) s s w x y) z =
  binary_value (NetEBAdd op) s s w x (binary_value (NetEBAdd (if same_add_op op se_op then OpPlus else OpMinus)) s s w z y).
Proof.
  intros Hlen Hpos. destruct op, se_op; cbn [same_add_op binary_value]; apply arith_combine; try done;
    try apply add_modular; try apply sub_modular; lia.
Qed.

Lemma widths_asserted w l r : (0 < w)%nat -> nbits_ l = w -> nbits_ r = w -> assert_widths w l r = Some tt.
Proof.
  intros H Hl Hr. unfold assert_widths. by rewrite (proj2 (Nat.ltb_lt _ _) H), (proj2 (Nat.eqb_eq _ _) Hl), (proj2 (Nat.eqb_eq _ _) Hr).
Qed.

Lemma combine_keeps op l r l' r' w s :
  well_formed (NetEBinary (NetEBAdd op) l r w s) = true -> keeps l l' -> keeps r r' ->
  returns (NetEBAdd_combine op l' r' w s) (keeps (NetEBinary (NetEBAdd op) l r w s)).
Proof.
  intros Hwf Hl Hr. pose proof (binary_node_keeps _ _ _ _ _ _ _ Hwf Hl Hr) as Hnode. unfold NetEBAdd_combine.
  destruct l' as [|?|[se_op| | | | | | | |] a [lval|?|?|?|?|?|?] w' s'|?|?|?|?]; try (by apply returns_ret).
  destruct r' as [rval|?|?|?|?|?|?]; try (by apply returns_ret).
  pose proof Hnode as (Wn & _ & _ & Dn). pose proof Wn as Wn'. cbn [well_formed expr_width has_sign binary_ok] in Wn'. split_ok. subst.
  assert (well_formed a = true) as Wa by done. assert (const_ok lval = true) as Ol by done. assert (const_ok rval = true) as Or by done.
  assert (nbits_ lval = expr_width a) as Nl by done. assert (nbits_ rval = expr_width a) as Nr by done.
  assert (has_sign_ lval = has_sign a) as Sl by done. assert (has_sign_ rval = has_sign a) as Sr by done.
  pose proof (sized_pos _ (wf_sized a Wa)) as Pa.
  rewrite widths_asserted by done. cbn [mbind option_bind].
  destruct (NetEBAdd_folds (if same_add_op op se_op then OpPlus else OpMinus) rval lval (expr_width a) (has_sign a)) as (v & Hv & F);
    try congruence.
  replace (if same_add_op op se_op then verinum_add rval lval else verinum_sub rval lval) with (Some v) by (by destruct (same_add_op op se_op)).
  cbn [mbind option_bind]. pose proof F as (F1 & F2 & F3 & F4). rewrite cast_same by (done || by apply ok_len). cbn [mbind option_bind].
  apply returns_ret. split_and!; try done.
  { cbn [well_formed expr_width has_sign binary_ok]. rewrite Wa, F1, F2, F3. by rewrite Nat.eqb_refl, eqb_reflx. }
  intros env strict Hs. destruct (Dn env strict Hs) as [<- _]. split; [|done]. cbn [denote has_sign]. rewrite F4, F3, Sl, Sr.
  destruct Hs as [Hs _]. apply andb_true_iff in Hwf as [[Wl _]%andb_true_iff _].
  pose proof (keeps_operand l _ env _ Wl Hl Hs) as Hlen. cbn [denote expr_width] in Hlen.
  assert (length (denote env a) = expr_width a) as Ha by (by destruct se_op; cbn [binary_value] in Hlen; rewrite length_bits_arith in Hlen).
  symmetry. apply combine_value; rewrite Ha; [by rewrite length_bits4|done].
Qed.

Lemma place_node o this : place (Some (this, o)) = Some (match o with Some e => e | None => this end).
Proof. done. Qed.

(** The operator when it cannot be computed. *)
Lemma finish_null op l r l' r' w s :
  well_formed (NetEBinary op l r w s) = true -> keeps l l' -> keeps r r' -> binary_eval_arguments op w s l' r' = null ->
  returns (place (NetEBinary_finish op l' r' w s)) (keeps (NetEBinary op l r w s)).
Proof.
  intros Hwf Hl Hr Hn. unfold NetEBinary_finish, as_expr. rewrite Hn. cbn [null mbind option_bind option_map].
  destruct op as [op| | | | | | | |]; try (apply returns_ret; by apply binary_node_keeps).
  destruct (combine_keeps op l r l' r' w s Hwf Hl Hr) as (e & -> & He). by apply returns_ret.
Qed.

Lemma finish_some op l' r' w s e v :
  binary_eval_arguments op w s l' r' = Some (Some v) -> keeps e (NetEConst v) ->
  returns (place (NetEBinary_finish op l' r' w s)) (keeps e).
Proof. intros Hv He. unfold NetEBinary_finish, as_expr. rewrite Hv. by apply returns_ret. Qed.

Lemma nand_null op left right w s :
  const_ok left = true -> const_ok right = true -> V_bits op = None -> nbits_ left = w -> nbits_ right = w ->
  NetEBBits_eval_arguments op w s (NetEConst left) (NetEConst right) = null.
Proof.
  intros Hl Hr Hop Nl Nr. cbn [NetEBBits_eval_arguments consts_of const_of].
  assert (forall v, masks op v = Some false) as Hm by (by destruct op).
  rewrite !Hm. cbn [mbind option_bind]. rewrite widths_asserted by (done || rewrite <- Nl; by apply ok_pos).
  cbn [mbind option_bind]. by rewrite Hop.
Qed.

Lemma order_keeps op l r l' r' w s :
  is_order op = true -> well_formed (NetEBinary (NetEBComp op) l r w s) = true -> keeps l l' -> keeps r r' ->
  returns (place (NetEBinary_finish (NetEBComp op) l' r' w s)) (keeps (NetEBinary (NetEBComp op) l r w s)).
Proof.
  intros Ho Hwf Hl Hr. pose proof Hl as (Wl & El & Sl & Dl). pose proof Hr as (Wr & Er & Sr & Dr).
  pose proof Hwf as Hwf'. cbn [well_formed binary_ok] in Hwf'. split_ok. subst w s.
  destruct (order_folds op l' r' Ho Wl Wr) as (o & Hres & Hval); [congruence|].
  destruct o as [v|]; [|by apply finish_null].
  eapply finish_some; [exact Hres|]. destruct Hval as (Ov & Nv & Sv & Hval). split_and!; try done.
  intros env strict [Hsl Hsr]. rewrite Ho, orb_true_r in Hsl, Hsr. cbn [denote binary_value].
  destruct (Dl env true Hsl) as [Vl Tl], (Dr env true Hsr) as [Vr Tr].
  specialize (Hval env). rewrite Vl, Vr, Sl in Hval. rewrite <- Hval.
  - split; [done|]. intros _ Ht. by apply const_known.
  - split; [by apply (keeps_operand l l' env true)|auto].
  - split; [by apply (keeps_operand r r' env true)|auto].
Qed.

Lemma finish_binary_keeps op l r l' r' w s :
  well_formed (NetEBinary op l r w s) = true -> keeps l l' -> keeps r r' ->
  returns (place (NetEBinary_finish op l' r' w s)) (keeps (NetEBinary op l r w s)).
Proof.
  intros Hwf Hl Hr. destruct (match op with NetEBComp c => is_order c | _ => false end) eqn:Ho.
  { destruct op; try done. by apply order_keeps. }
  destruct (consts_of l' r') as [[lv rv]|] eqn:Hc.
  2:{ apply finish_null; try done. apply binary_not_constant; [done|]. by intros c ->. }
  unfold consts_of in Hc. destruct (const_of l') as [?|] eqn:Cl; [|done]. destruct (const_of r') as [?|] eqn:Cr; [|done].
  injection Hc as -> ->. apply const_of_some in Cl as ->. apply const_of_some in Cr as ->.
  pose proof Hl as (Wl & El & Sl & Dl). pose proof Hr as (Wr & Er & Sr & Dr). cbn in Wl, Wr, El, Er, Sl, Sr.
  pose proof Hwf as Hwf'. cbn [well_formed] in Hwf'. split_ok.
  match goal with H : binary_ok _ _ _ _ _ _ _ = true |- _ => rename H into Hok; rewrite <- El, <- Er, <- Sl, <- Sr in Hok end.
  destruct (folding_op op) eqn:Hf.
  - destruct (binary_folds op lv rv w s Wl Wr Hf Hok) as (o & Hres & v & -> & Hv). eapply finish_some; [exact Hres|].
    eapply keeps_const; [exact Hv|]. intros env strict Hs. cbn [denote]. rewrite Sl, Sr.
    assert (exists st, safe env st l /\ safe env st r) as (st & Hsl & Hsr) by (destruct op; eexists; apply Hs).
    by destruct (Dl env st Hsl) as [<- _], (Dr env st Hsr) as [<- _].
  - apply finish_null; try done. destruct op as [|op| | | | | | |]; try done. cbn [binary_ok] in Hok. split_ok. cbn [binary_eval_arguments].
    apply nand_null; try done. by destruct op.
Qed.

(** *** The ternary operator *)

Lemma ternary_keeps c t f c' w s :
  well_formed (NetETernary c t f w s) = true -> keeps c c' ->
  returns (place (eval_tree t)) (keeps t) -> returns (place (eval_tree f)) (keeps f) ->
  returns (place match const_logical c' with
           | C_0 => f ← place (eval_tree f); Some (NetETernary c' t f w s, Some f)
           | C_1 => t ← place (eval_tree t); Some (NetETernary c' t f w s, Some t)
           | C_X =>
               t ← place (eval_tree t);
               f ← place (eval_tree f);
               res ← as_expr (blended_arguments_ s t f);
               Some (NetETernary c' t f w s, res)
           | C_NON => Some (NetETernary c' t f w s, None)
           end) (keeps (NetETernary c t f w s)).
Proof.
  intros Hwf Hc (t' & Et & Ht) (f' & Ef & Hf). pose proof Hwf as Hwf'. cbn [well_formed] in Hwf'. split_ok.
  destruct (const_of c') as [v|] eqn:Ec.
  2:{ rewrite const_logical_none by done. apply returns_ret, ternary_node_keeps; auto using keeps_refl. }
  rewrite (const_logical_value c' v Ec). apply const_of_some in Ec as ->.
  pose proof Hc as (_ & _ & _ & Dc). pose proof (truth_not_z (bits4 v)) as Hz.
  assert (forall env strict, safe env strict c -> truth (denote env c) = truth (bits4 v)) as Htruth.
  { intros env strict Hs. by destruct (Dc env strict Hs) as [<- _]. }
  rewrite Et, Ef. cbn [mbind option_bind]. destruct (truth (bits4 v)) eqn:Ev; cbn [place mbind option_bind]; [| | |done].
  - apply returns_ret. destruct Hf as (Wf & Nf & Sf & Df). split_and!; [done|cbn; congruence|cbn; congruence|].
    intros env strict (Hsc & _ & Hsf). pose proof (Htruth env strict Hsc) as Hv. cbn [denote]. unfold ternary_value. rewrite Hv in *.
    apply Df. by apply Hsf.
  - apply returns_ret. destruct Ht as (Wt & Nt & St & Dt). split_and!; [done|cbn; congruence|cbn; congruence|].
    intros env strict (Hsc & Hst & _). pose proof (Htruth env strict Hsc) as Hv. cbn [denote]. unfold ternary_value. rewrite Hv in *.
    apply Dt. by apply Hst.
  - destruct (consts_of t' f') as [[tv fv]|] eqn:Hcs.
    2:{ unfold blended_arguments_. rewrite Hcs. by apply returns_ret, ternary_node_keeps. }
    unfold consts_of in Hcs. destruct (const_of t') as [?|] eqn:Ct; [|done]. destruct (const_of f') as [?|] eqn:Cf; [|done].
    injection Hcs as -> ->. apply const_of_some in Ct as ->. apply const_of_some in Cf as ->.
    destruct Ht as (Wt & Nt & St & Dt), Hf as (Wf & Nf & Sf & Df). cbn [expr_width has_sign well_formed] in *.
    eapply as_expr_news; [apply blended_folds; cbn [expr_width]; [done|congruence..]|].
    intros env strict (Hsc & Hst & Hsf). pose proof (Htruth env strict Hsc) as Hv. cbn [denote]. unfold ternary_value. rewrite Hv in *.
    destruct (Dt env strict) as [<- _]; [by apply Hst|]. by destruct (Df env strict) as [<- _]; [by apply Hsf|].
Qed.

(** *** Concatenations *)

Lemma concat_values env strict ps ps' :
  Forall2 keeps ps ps' -> Forall (fun p => safe env strict p) ps -> map (denote env) ps' = map (denote env) ps.
Proof.
  induction 1 as [|p p' ps ps' (_ & _ & _ & D) _ IH]; intros Hs; [done|]. inversion Hs; subst. cbn [map].
  rewrite IH by done. f_equal. by apply (D env strict).
Qed.

Lemma concat_widths ps ps' : Forall2 keeps ps ps' -> sum_list_with expr_width ps' = sum_list_with expr_width ps.
Proof. induction 1 as [|p p' ps ps' (_ & E & _ & _) _ IH]; [done|]. cbn. congruence. Qed.

Lemma concat_node_keeps ps ps' n t w s :
  well_formed (NetEConcat ps n t w s) = true -> Forall2 keeps ps ps' ->
  keeps (NetEConcat ps n t w s) (NetEConcat ps' n t w s).
Proof.
  intros Hwf Hps. split_and!; try done.
  - cbn [well_formed] in *. rewrite (concat_widths ps ps' Hps).
    assert (forallb well_formed ps' = true) as ->; [|by destruct (forallb well_formed ps)].
    clear - Hps. induction Hps as [|p p' ps ps' (W & _) _ IH]; [done|]. cbn [forallb]. by rewrite W.
  - intros env strict Hs. cbn [denote]. rewrite (concat_values env (strict && is_bool t) ps ps' Hps).
    + split; [done|]. intros -> Ht. by apply (two_state env (NetEConcat ps n t w s)).
    + apply safe_concat in Hs. eapply Forall_impl; [exact Hs|]. by intros p [H _].
Qed.

(** An expression that is not a constant and not replaced is still none. *)
Lemma eval_tree_other e this : eval_tree e = Some (this, None) -> const_of e = None -> const_of this = None.
Proof.
  intros H Hc. destruct e as [v|i t w s|op l r w s|ps n t w s|e base w s|c t f w s|op e w s]; [done|by injection H as <-|..]; cbn [eval_tree] in H.
  - apply bind_Some in H as (l' & _ & (r' & _ & H)%bind_Some). apply bind_Some in H as ([o|] & _ & H); [done|].
    apply bind_Some in H as (x & E & [= <-]). destruct op as [op| | | | | | | |]; try (by injection E as <-).
    unfold NetEBAdd_combine in E. repeat match type of E with
      | match ?x with _ => _ end = _ => destruct x
      | mbind _ _ = _ => apply bind_Some in E as (? & _ & E)
      end; by injection E as <-.
  - apply bind_Some in H as ([[ps' gap] err] & _ & H). unfold NetEConcat_finish in H. destruct err; [by injection H as <-|].
    by apply bind_Some in H as (o & _ & [= <- _]).
  - apply bind_Some in H as (e' & _ & (b & _ & H)%bind_Some). unfold NetESelect_finish in H.
    repeat match type of H with
      | match ?x with _ => _ end = _ => destruct x
      | mbind _ _ = _ => apply bind_Some in H as (? & _ & H)
      end; by injection H as <-.
  - apply bind_Some in H as (c' & _ & H). destruct (const_logical c');
      repeat match type of H with mbind _ _ = _ => apply bind_Some in H as (? & _ & H) end; by injection H as <-.
  - by apply bind_Some in H as (e' & _ & (o & _ & [= <- _])%bind_Some).
Qed.

(** What an operand adds to [gap]: the width of a constant. *)
Lemma operand_keeps p :
  well_formed p = true -> returns (place (eval_tree p)) (keeps p) ->
  returns (NetEConcat_operand p (eval_tree p)) (fun '(p', width, error) =>
    keeps p p' /\ error = false /\ (const_width p' <= width)%nat /\ (const_of p' <> None -> width = const_width p')).
Proof.
  intros Hwf (p' & Hp' & Hk). unfold NetEConcat_operand. destruct (const_of p) as [v|] eqn:Hc.
  { apply const_of_some in Hc as ->. apply returns_ret. split_and!; [by apply keeps_refl|done..]. }
  destruct (eval_tree p) as [[this tmp]|] eqn:He; [|done]. cbn [place mbind option_bind] in *. injection Hp' as <-.
  destruct tmp as [expr|].
  - pose proof Hk as (W & _). rewrite (wf_has_width expr W). apply returns_ret. split_and!; [done| |destruct expr; cbn; lia|by destruct expr].
    cbn [negb orb]. apply Nat.eqb_neq. pose proof (sized_pos _ (wf_sized expr W)). lia.
  - pose proof (eval_tree_other p this He Hc) as Hn. apply returns_ret. unfold const_width. rewrite Hn.
    split_and!; [done..|lia|done].
Qed.

Lemma operands_keep ps :
  Forall (fun p => well_formed p = true -> returns (place (eval_tree p)) (keeps p)) ps -> forallb well_formed ps = true ->
  returns (NetEConcat_operands eval_tree ps) (fun '(ps', gap, local_errors) =>
    Forall2 keeps ps ps' /\ local_errors = false /\ (sum_list_with const_width ps' <= gap)%nat /\
    (Forall (fun p => const_of p <> None) ps' -> gap = sum_list_with const_width ps')).
Proof.
  induction 1 as [|p ps Hp _ IH]; intros Hwf; [by apply returns_ret|]. cbn [forallb] in Hwf. apply andb_true_iff in Hwf as [Wp Wps].
  cbn [NetEConcat_operands]. eapply returns_bind; [by apply operand_keeps, Hp|]. intros [[p' width] error] (Kp & -> & L1 & E1).
  eapply returns_bind; [by apply IH|]. intros [[ps' gap] errors] (Kps & -> & L2 & E2). apply returns_ret.
  split_and!; [by constructor|done|cbn [sum_list_with]; lia|]. intros H. inversion H; subst. cbn [sum_list_with]. rewrite E1, E2 by done. done.
Qed.

(** All operands are constants, or one is not. *)
Lemma constants_or_not ps : (exists vs, ps = map NetEConst vs) \/ Exists (fun e => const_of e = None) ps.
Proof.
  induction ps as [|p ps [[vs ->]|IH]]; [left; by exists []| |right; by right].
  destruct (const_of p) as [v|] eqn:E; [|right; by left]. apply const_of_some in E as ->. left. by exists (v :: vs).
Qed.

Lemma concat_keeps ps ps' gap n t w s :
  well_formed (NetEConcat ps n t w s) = true -> Forall2 keeps ps ps' -> (sum_list_with const_width ps' <= gap)%nat ->
  (Forall (fun p => const_of p <> None) ps' -> gap = sum_list_with const_width ps') ->
  returns (place (NetEConcat_finish ps' gap false n t w s)) (keeps (NetEConcat ps n t w s)).
Proof.
  intros Hwf Hps Hle Hgap. pose proof (concat_node_keeps ps ps' n t w s Hwf Hps) as Hnode. pose proof Hnode as (Hwf' & _).
  cbn [well_formed] in Hwf'. apply andb_true_iff in Hwf' as [[[Hok Hn]%andb_true_iff Hw]%andb_true_iff Hsum].
  apply Nat.ltb_lt in Hn. apply Nat.eqb_eq in Hsum. unfold NetEConcat_finish.
  destruct (constants_or_not ps') as [[vs ->]|Hex].
  2:{ unfold as_expr. rewrite concat_not_constant by done. by apply returns_ret. }
  assert (gap = sum_list_with nbits_ vs) as ->.
  { rewrite Hgap; [clear; by induction vs as [|v vs IH]; cbn; rewrite ?IH|]. by apply Forall_fmap, Forall_true. }
  apply as_expr_news with (concat_value n (map (fun v => bits4 v) vs)).
  - apply concat_folds; try done.
    + clear - Hok. induction vs as [|v vs IH]; [done|]. cbn in Hok. apply andb_true_iff in Hok as [H1 H2]. constructor; auto.
    + cbn [expr_width]. rewrite Hsum. f_equal. clear. by induction vs as [|v vs IH]; cbn; rewrite ?IH.
  - intros env strict Hs. cbn [denote]. rewrite <- (concat_values env (strict && is_bool t) ps (map NetEConst vs) Hps).
    + by rewrite map_map.
    + apply safe_concat in Hs. eapply Forall_impl; [exact Hs|]. by intros p [H _].
Qed.

(** *** All expressions *)

Lemma eval_keeps e : well_formed e = true -> returns (place (eval_tree e)) (keeps e).
Proof.
  induction e as [v|i t w s|op l r w s IHl IHr|ps n t w s IH|e w s IHe|e b w s IHe IHb|c t f w s IHc IHt IHf|op e w s IHe]
    using NetExpr_induction; intros Hwf.
  - by apply returns_ret, keeps_refl.
  - by apply returns_ret, keeps_refl.
  - assert (well_formed l = true /\ well_formed r = true) as [Wl Wr] by (cbn [well_formed] in Hwf; by split_ok).
    destruct (IHl Wl) as (l' & El & Kl), (IHr Wr) as (r' & Er & Kr). cbn [eval_tree]. rewrite El, Er. cbn [mbind option_bind].
    by apply finish_binary_keeps.
  - assert (forallb well_formed ps = true) as Wps by (cbn [well_formed] in Hwf; by split_ok).
    destruct (operands_keep ps IH Wps) as ([[ps' gap] errors] & E & K & -> & L & G). cbn [eval_tree]. rewrite E. cbn [mbind option_bind].
    by apply concat_keeps.
  - assert (well_formed e = true) as We by (cbn [well_formed] in Hwf; by split_ok).
    destruct (IHe We) as (e' & Ee & Ke). cbn [eval_tree]. rewrite Ee. cbn [mbind option_bind]. by apply finish_select_keeps.
  - assert (well_formed e = true /\ base_ok b = true) as [We Wb] by (rewrite wf_select in Hwf; by split_ok).
    destruct (IHe We) as (e' & Ee & Ke). cbn [eval_tree]. rewrite Ee. cbn [mbind option_bind].
    assert (returns (place (eval_tree b)) (keeps_base b)) as (b' & Eb & Kb).
    { destruct b; try (eapply returns_mono; [by apply IHb|by apply keeps_keeps_base]). by apply returns_ret. }
    rewrite Eb. cbn [mbind option_bind]. by apply finish_select_keeps.
  - assert (well_formed c = true /\ well_formed t = true /\ well_formed f = true) as (Wc & Wt & Wf) by (cbn [well_formed] in Hwf; by split_ok).
    destruct (IHc Wc) as (c' & Ec & Kc). cbn [eval_tree]. rewrite Ec. cbn [mbind option_bind]. apply ternary_keeps; auto.
  - assert (well_formed e = true) as We by (cbn [well_formed] in Hwf; by split_ok).
    destruct (IHe We) as (e' & Ee & Ke). cbn [eval_tree]. rewrite Ee. cbn [mbind option_bind]. by apply finish_unary_keeps.
Qed.

(** *** Closed expressions *)

(** No leaves but constants, and no [~&], [~|] of two operands, which are left to
    the simulator. *)
Fixpoint closed (e : NetExpr) : bool :=
  match e with
  | NetEConst _ => true
  | NetEOther _ _ _ _ => false
  | NetEBinary op l r _ _ => folding_op op && closed l && closed r
  | NetEConcat ps _ _ _ _ => forallb closed ps
  | NetESelect e None _ _ => closed e
  | NetESelect e (Some b) _ _ => closed e && closed b
  | NetETernary c t f _ _ => closed c && closed t && closed f
  | NetEUnary _ e _ _ => closed e
  end.

(** Evaluation ends in a constant. *)
Definition becomes_const (e : NetExpr) : Prop := exists v, place (eval_tree e) = Some (NetEConst v).

Lemma news_const m this (P : verinum -> Prop) :
  news m P -> exists v, place (res ← as_expr m; Some (this, res)) = Some (NetEConst v).
Proof. intros (o & Ho & v & -> & _). exists v. unfold as_expr. by rewrite Ho. Qed.

Lemma const_keeps e v : well_formed e = true -> place (eval_tree e) = Some (NetEConst v) -> keeps e (NetEConst v).
Proof. intros Hwf He. destruct (eval_keeps e Hwf) as (e' & He' & K). rewrite He in He'. by injection He' as <-. Qed.

Lemma binary_const op l r w s :
  well_formed (NetEBinary op l r w s) = true -> folding_op op = true -> becomes_const l -> becomes_const r ->
  becomes_const (NetEBinary op l r w s).
Proof.
  intros Hwf Hop [lv El] [rv Er]. cbn [well_formed] in Hwf. apply andb_true_iff in Hwf as [[Wl Wr]%andb_true_iff Hok].
  destruct (const_keeps l lv Wl El) as (Ol & Nl & Sl & _), (const_keeps r rv Wr Er) as (Or & Nr & Sr & _). cbn in Ol, Or, Nl, Nr, Sl, Sr.
  rewrite <- Nl, <- Nr, <- Sl, <- Sr in Hok. destruct (binary_folds op lv rv w s Ol Or Hop Hok) as (o & Hres & v & -> & _).
  exists v. cbn [eval_tree]. rewrite El, Er. cbn [mbind option_bind]. unfold NetEBinary_finish, as_expr. by rewrite Hres.
Qed.

Lemma unary_const op e w s :
  well_formed (NetEUnary op e w s) = true -> becomes_const e -> becomes_const (NetEUnary op e w s).
Proof.
  intros Hwf [v E]. cbn [well_formed] in Hwf. apply andb_true_iff in Hwf as [We Hok].
  destruct (const_keeps e v We E) as (Ov & Nv & Sv & _). cbn in Ov, Nv, Sv. rewrite <- Nv, <- Sv in Hok.
  unfold becomes_const. cbn [eval_tree]. rewrite E. cbn [mbind option_bind]. eapply news_const. by apply unary_folds with (s := s).
Qed.

Lemma select_const e b w s :
  well_formed (NetESelect e (Some b) w s) = true -> becomes_const e -> (well_formed b = true -> becomes_const b) ->
  closed b = true -> becomes_const (NetESelect e (Some b) w s).
Proof.
  intros Hwf [v E] Hb Cb. rewrite wf_select in Hwf. apply andb_true_iff in Hwf as [[We Hw]%andb_true_iff Wb].
  destruct (const_keeps e v We E) as (Ov & _). assert (exists bv, place (eval_tree b) = Some (NetEConst bv) /\ base_const_ok bv = true) as (bv & Eb & Ob).
  { destruct b as [bv|?|?|?|?|?|?]; [by exists bv|..]; (destruct Hb as [bv Eb]; [done|]; exists bv; split; [done|];
      destruct (const_keeps _ bv Wb Eb) as (Obv & _); apply Nat.ltb_lt; by apply ok_pos). }
  destruct (select_folds v bv w s Ov Hw Ob) as (o & Hres & r & -> & _). exists r. cbn [eval_tree]. rewrite E, Eb. cbn [mbind option_bind].
  unfold NetESelect_finish, as_expr. cbn [const_of]. by rewrite Hres.
Qed.

Lemma ternary_const c t f w s :
  well_formed (NetETernary c t f w s) = true -> becomes_const c -> becomes_const t -> becomes_const f ->
  becomes_const (NetETernary c t f w s).
Proof.
  intros Hwf [cv Ec] [tv Et] [fv Ef]. cbn [well_formed] in Hwf. split_ok.
  unfold becomes_const. cbn [eval_tree]. rewrite Ec. cbn [mbind option_bind]. rewrite (const_logical_value (NetEConst cv) cv eq_refl), Et, Ef.
  assert (exists v, place (res ← as_expr (blended_arguments_ s (NetEConst tv) (NetEConst fv));
      Some (NetETernary (NetEConst cv) (NetEConst tv) (NetEConst fv) w s, res)) = Some (NetEConst v)) as Hblend.
  { eapply news_const. apply (blended_folds tv fv w s).
    - eapply (const_keeps t tv); done.
    - transitivity (expr_width t); [|done]. by apply (const_keeps t tv).
    - transitivity (expr_width f); [|done]. by apply (const_keeps f fv). }
  destruct (truth (bits4 cv)); [by exists fv|by exists tv|exact Hblend|exact Hblend].
Qed.

Lemma concat_const ps n t w s :
  well_formed (NetEConcat ps n t w s) = true -> Forall becomes_const ps -> becomes_const (NetEConcat ps n t w s).
Proof.
  intros Hwf Hps. pose proof Hwf as Hwf'. cbn [well_formed] in Hwf'. apply andb_true_iff in Hwf' as [[[Wps Hn]%andb_true_iff Hw]%andb_true_iff Hsum].
  assert (exists vs, NetEConcat_operands eval_tree ps = Some (map NetEConst vs, sum_list_with nbits_ vs, false) /\ Forall2 keeps ps (map NetEConst vs))
    as (vs & Eps & Kps).
  { clear - Wps Hps. induction Hps as [|p ps [v Ev] _ IH]; [by exists []|]. cbn [forallb] in Wps. apply andb_true_iff in Wps as [Wp Wps].
    destruct (IH Wps) as (vs & E & K). pose proof (const_keeps p v Wp Ev) as Kv. exists (v :: vs). split; [|by constructor].
    destruct (operand_keeps p Wp (eval_keeps p Wp)) as ([[p' width] error] & Ep & _ & -> & _ & Hwidth).
    assert (p' = NetEConst v) as ->.
    { clear - Ep Ev. unfold NetEConcat_operand in Ep. destruct (const_of p) as [?|] eqn:Hc.
      - apply const_of_some in Hc as ->. cbn in Ev. congruence.
      - destruct (eval_tree p) as [[this [expr|]]|]; cbn [place mbind option_bind] in *; congruence. }
    cbn [NetEConcat_operands]. rewrite Ep. cbn [mbind option_bind]. rewrite E. cbn [mbind option_bind map sum_list_with orb].
    by rewrite Hwidth. }
  unfold becomes_const. cbn [eval_tree]. rewrite Eps. cbn [mbind option_bind NetEConcat_finish]. eapply news_const. apply concat_folds.
  - assert (forallb well_formed (map NetEConst vs) = true) as W.
    { destruct (concat_node_keeps ps (map NetEConst vs) n t w s Hwf Kps) as [W _]. cbn [well_formed] in W. by split_ok. }
    clear - W. induction vs as [|v vs IH]; [done|]. cbn in W. apply andb_true_iff in W as [H1 H2]. constructor; auto.
  - by apply Nat.ltb_lt.
  - exact Hw.
  - apply Nat.eqb_eq in Hsum. rewrite Hsum, <- (concat_widths _ _ Kps). f_equal. clear. by induction vs as [|v vs IH]; cbn; rewrite ?IH.
Qed.

Lemma closed_const e : well_formed e = true -> closed e = true -> becomes_const e.
Proof.
  induction e as [v|i t w s|op l r w s IHl IHr|ps n t w s IH|e w s IHe|e b w s IHe IHb|c t f w s IHc IHt IHf|op e w s IHe]
    using NetExpr_induction; intros Hwf Hc; cbn [closed] in Hc.
  - by exists v.
  - done.
  - apply andb_true_iff in Hc as [[Hop Cl]%andb_true_iff Cr]. pose proof Hwf as Hwf'. cbn [well_formed] in Hwf'. split_ok. apply binary_const; auto.
  - apply concat_const; [done|]. cbn [well_formed] in Hwf. split_ok.
    match goal with H : forallb well_formed ps = true |- _ => rename H into Wps end. clear - IH Hc Wps.
    induction IH as [|p ps Hp _ IHps]; [constructor|]. cbn [forallb] in *. split_ok. constructor; auto.
  - pose proof Hwf as Hwf'. cbn [well_formed] in Hwf'. split_ok. destruct IHe as [v E]; [done..|].
    unfold becomes_const. cbn [eval_tree]. rewrite E. cbn [mbind option_bind]. unfold NetESelect_finish. cbn [const_of].
    eapply news_const. apply extend_folds; [|done]. by apply (const_keeps e v).
  - apply andb_true_iff in Hc as [Ce Cb]. pose proof Hwf as Hwf'. rewrite wf_select in Hwf'. split_ok. apply select_const; auto.
  - apply andb_true_iff in Hc as [[Cc Ct]%andb_true_iff Cf]. pose proof Hwf as Hwf'. cbn [well_formed] in Hwf'. split_ok. apply ternary_const; auto.
  - pose proof Hwf as Hwf'. cbn [well_formed] in Hwf'. split_ok. apply unary_const; auto.
Qed.

(** *** Properties *)

(** C1: folding keeps the value of an expression: on every well-formed expression
    [eval_expr] ends without a failed assertion, in a well-formed expression of the
    same width and sign, which has the same value for every safe valuation of the
    leaves - all operators, selects, concatenations and ternaries, the sums
    [(a + 2) - 1] made [a - (1 - 2)] and the comparisons decided by the width
    included. *)
Theorem folding_keeps_value e :
  well_formed e = true ->
  returns (eval_expr e) (fun e' =>
    well_formed e' = true /\ expr_width e' = expr_width e /\ has_sign e' = has_sign e /\
    forall env, safe env false e -> denote env e' = denote env e).
Proof.
  intros H. eapply returns_mono; [by apply eval_keeps|]. intros e' (H1 & H2 & H3 & H4). split_and!; try done.
  intros env Hs. by apply (H4 env false).
Qed.

Definition sample_constant (bits : list V) (s : bool) : NetExpr := NetEConst (mk_verinum bits true s false false).

(** [(a + 2) - 1] with four bits, which becomes [a - (1 - 2)]. *)
Definition sample_sum (t : ivl_variable_type_t) : NetExpr :=
  NetEBinary (NetEBAdd OpMinus)
    (NetEBinary (NetEBAdd OpPlus) (NetEOther 0 t 4 false) (sample_constant [V0; V1; V0; V0] false) 4 false)
    (sample_constant [V1; V0; V0; V0] false) 4 false.

Lemma folding_keeps_value_witness :
  let e := sample_sum IVL_VT_LOGIC in
  exists e', eval_expr e = Some e' /\
    e' = NetEBinary (NetEBAdd OpMinus) (NetEOther 0 IVL_VT_LOGIC 4 false) (sample_constant [V1; V1; V1; V1] false) 4 false /\
    denote (fun _ => [BIT4_1; BIT4_0; BIT4_1; BIT4_0]) e' = denote (fun _ => [BIT4_1; BIT4_0; BIT4_1; BIT4_0]) e.
Proof.
  cbv zeta. destruct (folding_keeps_value (sample_sum IVL_VT_LOGIC)) as (e' & He & _ & _ & _ & Hv); [reflexivity|].
  exists e'. split; [exact He|]. split; [vm_compute in He; injection He as <-; reflexivity|]. apply Hv. vm_compute. split_and!; done.
Defined.

(** C2: an expression over constants becomes a constant: for a well-formed closed
    expression (no signals and calls, and no [~&], [~|] of two operands)
    [eval_expr] returns a constant of its width and sign, whose bits are the value
    of the expression wherever the bases of its selects are known. *)
Theorem constants_fold e :
  well_formed e = true -> closed e = true ->
  exists v, eval_expr e = Some (NetEConst v) /\ nbits_ v = expr_width e /\ has_sign_ v = has_sign e /\
    forall env, safe env false e -> map to_bit4 (bits_ v) = denote env e.
Proof.
  intros Hwf Hc. destruct (closed_const e Hwf Hc) as [v Hv]. exists v. destruct (const_keeps e v Hwf Hv) as (_ & H2 & H3 & H4).
  split_and!; try done. intros env Hs. by apply (H4 env false).
Qed.

(** [{2{4'b0110}}[1 +: 4] < 4'b1010 ? 8'shx1 : 8'sd3 << 2], of eight bits. *)
Definition sample_closed : NetExpr :=
  NetETernary
    (NetEBinary (NetEBComp OpLess)
      (NetESelect (NetEConcat [sample_constant [V0; V1; V1; V0] false] 2 IVL_VT_LOGIC 8 false) (Some (sample_constant [V1; V0] false)) 4 false)
      (sample_constant [V0; V1; V0; V1] false) 1 false)
    (NetEBinary NetEBMult (sample_constant [V1; V1; V1; V1; V1; V1; V1; V1] true) (sample_constant [V1; V1; V0; V0; V0; V0; V0; V0] true) 8 true)
    (NetEBinary (NetEBShift OpShiftL) (sample_constant [V1; V1; V0; V0; V0; V0; V0; V0] true) (sample_constant [V0; V1] false) 8 true)
    8 true.

Lemma constants_fold_witness :
  exists v, eval_expr sample_closed = Some (NetEConst v) /\ bits_ v = [V1; V0; V1; V1; V1; V1; V1; V1] /\
    map to_bit4 (bits_ v) = denote (fun _ => []) sample_closed.
Proof.
  destruct (constants_fold sample_closed) as (v & Hv & _ & _ & Hd); [reflexivity..|].
  exists v. split; [exact Hv|]. split; [vm_compute in Hv; injection Hv as <-; reflexivity|].
  apply Hd. vm_compute. split_and!; done.
Defined.

(** What [safe] and the strict context exclude. *)

(** A select with an unknown base reads from bit 0. *)
Definition unknown_base : NetExpr :=
  NetESelect (sample_constant [V1; V1; V0; V1] false) (Some (sample_constant [Vx] false)) 2 false.

Example select_unknown_base :
  eval_expr unknown_base = Some (NetEConst (mk_verinum [V1; V1] true false false false)) /\
  denote (fun _ => []) unknown_base = [BIT4_X; BIT4_X].
Proof. split; reflexivity. Qed.

(** A select outside of a two-state vector is x, and so is its comparison; the
    type of the select is still two-state, so that the comparison becomes 1. *)
Definition select_outside : NetExpr :=
  NetEBinary (NetEBComp OpLeeq)
    (NetESelect (NetEOther 0 IVL_VT_BOOL 4 false) (Some (sample_constant [V0; V0; V1] false)) 2 false)
    (sample_constant [V1; V1] false) 1 false.

Example compare_outside :
  eval_expr select_outside = Some (NetEConst (one_bit V1)) /\
  denote (fun _ => [BIT4_1; BIT4_0; BIT4_0; BIT4_0]) select_outside = [BIT4_X].
Proof. split; reflexivity. Qed.

(** A replication of no times of a string is a string of one zero byte. *)
Example empty_replication :
  NetEConcat_eval_arguments [NetEConst (mk_verinum (replicate 8 V0) true false false true)] 0 false 8 =
  new (mk_verinum (replicate 8 V0) true false false true).
Proof. reflexivity. Qed.
